(* ===== verification/_CoqProject ===== *)
-Q . S2P
Prelude.v
GoStrings.v
GoTime.v
Policy.v
PolicyMatch.v
PolicyCompile.v
Glob.v
GoPath.v
Bounded.v
Permissions.v
PermissionsSafety.v
PermissionsInv.v
PermissionsExamples.v
PolicyEngine.v
Hitl.v
HitlSafety.v
CommandAuthorization.v
CommandSafety.v
NetPolicy.v
NetSafety.v
AuthorizationExamples.v
Selector.v
Envelope.v
EnvelopeMerge.v
Placement.v
PlacementSafety.v
EnvelopeSafety.v
ContextStream.v
Epoch.v
EpochSafety.v
Graph.v
GraphInv.v
GraphSafety.v
GraphTermination.v
GraphExamples.v
Jobs.v
KV.v
JobsStore.v
JobsStoreInv.v
JobsStoreClaim.v
JobsStoreSteps.v
JobsStoreExamples.v
GoLoop.v
RecipeLexer.v
RecipeLexerSafety.v
RecipeAst.v
RecipeParser.v
RecipeParserSafety.v
RecipeTypes.v
RecipeExamples.v
RecipeNames.v
RecipeTypeSystem.v
RecipeVocabulary.v
RecipeVocabularySafety.v
Paradigm.v
ParadigmContracts.v
RecipeDirectives.v
RecipeContracts.v
RecipeContractsSafety.v
RecipeSemantic.v
RecipeSemanticSafety.v
RecipePlan.v
RecipeLowering.v
RecipeLoweringSafety.v
RecipeGraph.v
RecipeGraphSafety.v
RecipeFrontExamples.v
KnowledgeKeys.v
GoEncoding.v
KnowledgeStore.v
KnowledgeEngine.v
KnowledgeMirror.v
KnowledgeDurable.v
KnowledgeRefinement.v
KnowledgeExamples.v
AuditChain.v
AuditChainSafety.v
AuditWriter.v
AuditQueue.v
AuditExamples.v
