(* ===== verification/Prelude.v ===== *)
(** * Relurpify: a verification library

    Relurpify is an agent runtime: graphs of nodes run language models and tools over a
    shared envelope, every effect goes through a permission and policy layer, long work is
    queued as jobs in a transactional store, what is learnt is kept in a knowledge graph, and
    what was granted is written to a hash-chained log.  This library models the parts of it
    that decide something: the governance layer, the jobs store, the execution graph and the
    data it carries, the knowledge graph, and the language of its recipes from the text to
    the graph that runs.  Paths below are relative to [src/].

    ** How the parts fit together

    A graph ([execution/agentgraph]) executes nodes over an envelope
    ([context/contextdata]).  Parallel edges fork the envelope and merge the branches'
    changes.  Between nodes the epoch coordinator grounds captures and lands background
    compilations in the envelope ([context/contextstream]).  Before a run, preflight places the
    capabilities its nodes require (selectors over descriptors, risk classes).  Tools
    act through the permission manager ([governance/authorization]): files, executables,
    commands, hosts.  It reads the declared permissions ([userconfig/permissions]),
    resolves hosts ([governance/netpolicy]), matches globs, caches in bounded
    collections ([governance/bounded]) and asks a human through the HITL broker.  Policy
    rules compiled from an agent's spec decide requests.  Audit records
    ([governance/policy]) pass a bounded queue to one writer, which chains them by hash in
    day files.  Jobs ([jobs], [context/jobsstore]) are claimed, retried and recovered.
    Grounded records are nodes and edges of the knowledge graph
    ([context/knowledge/graphdb]): a transactional store with an index in memory, over the
    same key-value interface as the jobs.  Recipes ([named/euclo/thoughtrecipes]) are texts
    with significant indentation: the lexer turns them into tokens, the parser into trees,
    semantic analysis resolves names, types, capabilities and the contracts of the agents'
    paradigms ([cognitionzoo]), lowering compiles them to execution plans, and the graph
    builder turns a plan into a graph of [execution/agentgraph].

    ** Files and what they model

    - Foundations.  [Prelude] (this file): errors, results, the state and error monad [SE],
      machine integers, instants, stable sorting, shared tactics and hints.  [GoStrings],
      [GoTime], [GoPath], [GoLoop], [GoEncoding]: what the source uses of Go's strings,
      fmt, time, filepath, utf8, encoding/json and crypto/sha256, and loops with fuel.
      [KV]: the transactional key-value engine as a class with its laws, and an instance.
    - Policies.  [Policy] (governance/policy, risk, classification, decisions),
      [PolicyMatch] (policy_match.go: the deny-wins lattice), [PolicyCompile]
      (policy_compile.go), [PolicyEngine] (policy_engine.go, policy_enforcement.go; the
      engine is a type class, the manifest engine its instance).
    - Matching and caches.  [Glob] (match_command_glob.go, glob_cache.go), [Bounded]
      (cache.go, ring.go, as Modules [Cache] and [Ring]).
    - Permission manager.  [Permissions] (permissions.go, perm_*.go), [PermissionsSafety],
      [PermissionsInv].
    - Human in the loop.  [Hitl] (hitl.go as a step relation), [HitlSafety].
    - Commands.  [CommandAuthorization] (command_semantics.go over a shell syntax tree, and
      command_authorization.go), [CommandSafety].
    - Network.  [NetPolicy] (host.go, resolve.go), [NetSafety].
    - Context.  [Envelope] (envelope.go, working_data.go, reference.go, origins.go,
      slice.go, stream.go, checkpoint.go), [EnvelopeMerge] (branch.go, merge.go),
      [EnvelopeSafety], [ContextStream] (contextstream/envelope.go).
    - Graphs.  [Selector] (capability selectors), [Placement] (contracts.go,
      preflight.go), [PlacementSafety], [Epoch] (epoch.go as a step relation),
      [EpochSafety], [Graph] (graph.go), [GraphInv], [GraphSafety], [GraphTermination].
    - Jobs.  [Jobs] (jobs/), [JobsStore] (jobsstore.go), [JobsStoreInv], [JobsStoreClaim],
      [JobsStoreSteps].
    - Recipes: text to trees.  [RecipeLexer] (lexer.go), [RecipeLexerSafety], [RecipeAst]
      (ast.go), [RecipeParser] (parser.go), [RecipeParserSafety], [RecipeTypes] (the grammar
      of type expressions).
    - Recipes: trees to plans.  [RecipeNames] (names and paths), [RecipeTypeSystem]
      (typesystem.go), [RecipeVocabulary] (vocabulary.go, step_capability.go: tool names and
      scopes), [RecipeVocabularySafety], [Paradigm] and [ParadigmContracts] (contracts and
      their registry), [RecipeDirectives] and [RecipeContracts] (directive_payload.go,
      contract_check.go), [RecipeContractsSafety], [RecipeSemantic] (semantic.go,
      capability.go), [RecipeSemanticSafety], [RecipePlan] (types.go), [RecipeLowering]
      (lowering.go, route.go, revise_lowering.go), [RecipeLoweringSafety].
    - Recipes: plans to graphs.  [RecipeGraph] (graph_builder.go, predicate_compile.go),
      [RecipeGraphSafety].
    - Knowledge graph.  [KnowledgeKeys] (kv_key.go), [KnowledgeStore] (types.go,
      label_index.go, adjacency.go and what ops_*.go does to memory), [KnowledgeEngine]
      (badger_backend.go, engine.go, ops_*.go), [KnowledgeMirror] (the store's indexes and
      adjacency), [KnowledgeDurable] (the abstract graph, and the database as an
      implementation of it), [KnowledgeRefinement] (memory as another one, and the engine
      that keeps both).
    - Audit chain.  [AuditChain] (audit.go, chain_logger.go: entries, files, boot,
      verification, the writer), [AuditChainSafety], [AuditWriter] (sessions of the writer),
      [AuditQueue] (producers, channel and writer as a step relation).
    - [*Examples]: concrete runs, the properties' witnesses and counterexamples.

    Definitions keep the source's names.  A method that mutates its receiver is a
    function returning the new receiver; several goroutines are a step relation whose
    steps are critical sections ([Hitl], [Epoch], [AuditQueue]) or a sequence of operations
    ([Bounded], [JobsStore], [NetPolicy], [KnowledgeEngine]).  [int] and [uint64] are wrapped
    at 64 bits where the code computes with them.  Go maps are [gmap]s, or lists of bindings
    where the visit order shows.  Clocks, randomness, DNS, symbolic links, the shell parser,
    the decoding of raw JSON, the nodes and the human are arguments.

    ** What the theorems show

    - Policy: evaluation is the deny-wins join; compiled denials hold; enforcement is
      fail-closed; compilation does not depend on map order.
    - Permissions: a check succeeds only on a declared permission or on consent,
      within the workspace, to public addresses; grants are accounted for; caches
      agree with the declarations over every history.
    - HITL: over every interleaving a request is settled once and a grant has an
      approval behind it.
    - Commands: lifting covers what its tables name, and an authorized command had
      every lifted permission checked or was approved.
    - Network: three readings of a host token agree with the table of address blocks,
      and the resolver's cache lets no private address through.
    - Collections: the cache refines LRU, stays bounded, and consumes once.
    - Jobs: the store's indexes stay consistent over every sequence of calls and
      conflicts; a job is handed out once; recovery is exact; events only grow.
    - Envelope: the branch merge is sequential last-writer-wins, key by key.
    - Streams and epochs: stale results are dropped whole; epochs close once, in order;
      captures are neither lost nor duplicated; a barrier always ends, and the final
      one flushes everything.
    - Graphs: reachable graphs are well-formed and validation is exact; placement is
      the best eligible capability and preflight is complete; a run is a bounded walk;
      it terminates when no parallel edge lies on a cycle; a fan-out is all or nothing.
    - Recipes: lexing always ends, loses no text and nests its layout; parsing ends when
      lists are closed on their line; the frame machine of types is the recursive grammar;
      type compatibility is structural equality of valid types; suggestions use the edit
      distance; the contract checks are exact; an accepted document is sound; a step's view of
      the tools is its resolved scope; lowering compiles block by block, each step under
      exactly the tools in force at its block, and the loop that flattens routes ends and
      is the recursion over their bodies; a plan's graph is accepted, has a topological
      order and one transition at a time, runs the plan's steps in their order, and every
      run of it ends without executing a node twice.
    - Knowledge graph: keys decode to their segments; over every history the label index is
      exact, listings and neighbourhoods are exact, and both ends of an edge agree; memory,
      database and reopened engine hold one abstract graph over every history of the calls
      whose two effects agree ([KnowledgeExamples] shows the calls whose effects do not);
      and a call that fails changes nothing.
    - Audit chain: two chains that verify with the same length and last hash hold the same
      entries or exhibit a hash collision; the writer's files refine the list of records over
      orderly sessions ([AuditExamples] shows what breaks the chain otherwise); what the
      queue accepts is accounted for over every interleaving.

    ** Fuel and bounds

    Structural recursion is used where it exists.  Fuel is used by: [run_loop] of
    [Graph] ([run_terminates] gives a sufficient amount; without its hypothesis
    [parallel_cycle_diverges] shows there is none); [liftCommand], whose fuel is the
    source's depth limit; trimming and parsing loops, whose fuel is the length of the
    string ([decode_encode] for keys); the eviction loop, whose fuel is the length of the
    order list; retries on conflict, whose number is the source's; the loops of the recipe
    lexer and parser, which return [None] without fuel ([lexer_terminates],
    [parse_terminates]: linear fuel is enough; [broken_list_diverges]: for an unclosed list
    none is); runs of a plan's graph ([plan_run_once]: one more than its nodes); the stack
    loop of routes ([route_loop_flattens] gives its number of turns); the
    search of a free rotation name, whose fuel is the number of files.

    ** Not modelled

    Telemetry, tracing and the terminal interface (output only); sandbox backends,
    language and model servers (process I/O); prompt assembly and the agent paradigms
    (text around a model); the parsers of configuration files; ingestion and retrieval
    (parsers, embeddings, rankers).  In modelled files: pushing network rules to a running
    sandbox, the broker's ticker, free-form fields of audit records, typed overlays of the
    envelope, the linting of state values, the metadata of capability results; read errors
    and partial writes of the audit files, a failing head rewrite at boot, the drain timeout
    of the audit writer; the LRU mode of the knowledge graph (which nothing switches on), its
    paged subgraphs, index rebuild, events and the migration of its old log; transactions too
    large for the database; the run-time half of captures.  Applying a stream result is one
    step although the source takes the envelope's lock several times.

    ** Plan

    What is left: the registry of recipes and the execution of step nodes; delegations and
    the enforcer facade; file scopes; sessions and the compiler's cache; paged subgraphs and
    retrieval fusion; the capability registry's admission and schema validation; the job
    executor. *)
From Stdlib Require Export ZArith Ascii.
From stdpp Require Export sorting.
From stdpp Require Export base strings list gmap fin_maps numbers.
From stdpp Require Export list_relations.

Declare Scope go_scope.
Delimit Scope go_scope with go.

Create HintDb relurpify.
Create Rewrite HintDb relurpify.
Create HintDb gostr.
Create Rewrite HintDb gostr.

(** ** Errors and fallible results

    A Go [error] is [option gerror] ([None] is [nil]); a function returning
    [(T, error)] is a [result T].  [ErrFmt] is [fmt.Errorf] with its arguments
    left unformatted, [ErrWrap] is [fmt.Errorf] with a [%w] verb. *)
Inductive gerror :=
| ErrSentinel (name : string)
| ErrMsg (msg : string)
| ErrFmt (format : string) (args : list string)
| ErrWrap (prefix : string) (inner : gerror).

#[global] Instance gerror_eq_dec : EqDecision gerror.
Proof. solve_decision. Defined.

(** [errors.Is]: the error itself or anything it wraps. *)
Fixpoint errors_is (e target : gerror) : bool :=
  bool_decide (e = target) ||
  match e with
  | ErrWrap _ inner => errors_is inner target
  | _ => false
  end.

Inductive result (A : Type) :=
| Ok (a : A)
| Err (e : gerror).
Arguments Ok {A} a.
Arguments Err {A} e.

Definition rbind {A B} (r : result A) (k : A → result B) : result B :=
  match r with
  | Ok a => k a
  | Err e => Err e
  end.

Notation "'let!' x := r 'in' k" := (rbind r (λ x, k))
  (at level 10, x pattern, r at level 100, k at level 200) : go_scope.
Open Scope go_scope.

(** ** Stateful code

    A method that mutates its receiver and may fail: [S → result A * S]. *)
Definition SE (S A : Type) : Type := S → result A * S.

Definition se_ret {S A} (a : A) : SE S A := λ s, (Ok a, s).
Definition se_err {S A} (e : gerror) : SE S A := λ s, (Err e, s).
Definition se_get {S A} (f : S → A) : SE S A := λ s, (Ok (f s), s).
Definition se_mod {S} (f : S → S) : SE S unit := λ s, (Ok (), f s).
Definition se_bind {S A B} (m : SE S A) (k : A → SE S B) : SE S B := λ s,
  match m s with
  | (Ok a, s') => k a s'
  | (Err e, s') => (Err e, s')
  end.
(** [err := m] without an early return. *)
Definition se_try {S A} (m : SE S A) : SE S (result A) := λ s, let (r, s') := m s in (Ok r, s').

Notation "'let*' x := m 'in' k" := (se_bind m (λ x, k))
  (at level 10, x pattern, m at level 100, k at level 200) : go_scope.
Notation "m ;;; k" := (se_bind m (λ _, k)) (at level 100, k at level 200, right associativity) : go_scope.

(** A fallible computation, or a check of the state, inside stateful code. *)
Definition se_result {S A} (r : result A) : SE S A := λ s, (r, s).
Definition se_check {S} (f : S → option gerror) : SE S unit := λ s,
  match f s with Some e => (Err e, s) | None => (Ok (), s) end.

(** First validation error of a sequence of checks, in order. *)
Fixpoint first_error (checks : list (option gerror)) : option gerror :=
  match checks with
  | [] => None
  | Some e :: _ => Some e
  | None :: rest => first_error rest
  end.

(** [if bad { return errors.New(msg) }] *)
Definition check (bad : bool) (e : gerror) : option gerror :=
  if bad then Some e else None.

(** ** Machine integers and time

    Go's [int], [int64] and [time.Duration] are 64-bit two's complement;
    [time.Time] is an instant in nanoseconds since the Unix epoch, its zero
    value the start of year 1. *)
Definition int64_max : Z := 2 ^ 63 - 1.
Definition int64_min : Z := - 2 ^ 63.
Definition wrap64 (z : Z) : Z := (z + 2 ^ 63) mod 2 ^ 64 - 2 ^ 63.
Definition wrapu64 (z : Z) : Z := z mod 2 ^ 64.
Definition in_int64 (z : Z) : Prop := (int64_min <= z <= int64_max)%Z.

Abbreviation Time := Z (only parsing).
Abbreviation Duration := Z (only parsing).

Definition zero_time : Time := -62135596800000000000.
Definition time_is_zero (t : Time) : bool := (t =? zero_time)%Z.
Definition unix_nano (t : Time) : Z := wrap64 t.
(** [Time.Sub] saturates at the bounds of [time.Duration]. *)
Definition time_sub (t u : Time) : Duration := Z.max int64_min (Z.min int64_max (t - u)).

Definition second : Duration := 1000000000.
Definition minute : Duration := 60 * second.
Definition hour : Duration := 60 * minute.

(** ** Tactics *)

(** Split the innermost [match]/[if] scrutinee of the goal or a hypothesis. *)
Ltac split_match :=
  match goal with
  | |- context [match ?x with _ => _ end] =>
      lazymatch x with
      | context [match _ with _ => _ end] => fail
      | _ => destruct x eqn:?
      end
  | H : context [match ?x with _ => _ end] |- _ =>
      lazymatch x with
      | context [match _ with _ => _ end] => fail
      | _ => destruct x eqn:?
      end
  end.

(** Turn boolean tests of the code into propositions. *)
Ltac bool_to_prop :=
  repeat match goal with
  | H : _ && _ = true |- _ => apply andb_true_iff in H; destruct H
  | H : _ || _ = false |- _ => apply orb_false_iff in H; destruct H
  | H : negb _ = true |- _ => apply negb_true_iff in H
  | H : negb _ = false |- _ => apply negb_false_iff in H
  | H : bool_decide _ = true |- _ => apply bool_decide_eq_true in H
  | H : bool_decide _ = false |- _ => apply bool_decide_eq_false in H
  | H : (_ <? _)%Z = true |- _ => apply Z.ltb_lt in H
  | H : (_ <? _)%Z = false |- _ => apply Z.ltb_ge in H
  | H : (_ <=? _)%Z = true |- _ => apply Z.leb_le in H
  | H : (_ <=? _)%Z = false |- _ => apply Z.leb_gt in H
  | H : (_ =? _)%Z = true |- _ => apply Z.eqb_eq in H
  | H : (_ =? _)%Z = false |- _ => apply Z.eqb_neq in H
  end.

Ltac crush := repeat (split_match; simplify_eq/=); bool_to_prop; simplify_eq/=;
              try done; try lia; eauto with relurpify.

(** ** Results and errors *)
#[global] Instance Ok_inj {A} : Inj (=) (=) (@Ok A).
Proof. by intros a b [= ->]. Qed.

Lemma rbind_ok {A B} (r : result A) (k : A → result B) b :
  rbind r k = Ok b ↔ ∃ a, r = Ok a ∧ k a = Ok b.
Proof. destruct r; simpl; naive_solver. Qed.

Lemma se_bind_inv {S A B} (m : SE S A) (k : A → SE S B) s r s' :
  se_bind m k s = (r, s') →
  (∃ a s1, m s = (Ok a, s1) ∧ k a s1 = (r, s')) ∨ (∃ e, m s = (Err e, s') ∧ r = Err e).
Proof. unfold se_bind. destruct (m s) as [[a|e] s1]; [eauto|]. intros [= <- <-]. eauto. Qed.

Lemma se_bind_ok {S A B} (m : SE S A) (k : A → SE S B) s b s' :
  se_bind m k s = (Ok b, s') ↔ ∃ a s1, m s = (Ok a, s1) ∧ k a s1 = (Ok b, s').
Proof. unfold se_bind. destruct (m s) as [[a|e] s1]; naive_solver. Qed.

Lemma se_check_ok {S} (f : S → option gerror) s u s' : se_check f s = (Ok u, s') ↔ f s = None ∧ s' = s.
Proof. unfold se_check. destruct (f s), u; naive_solver. Qed.

Lemma se_result_ok {S A} (r : result A) (s : S) y s' : se_result r s = (Ok y, s') ↔ r = Ok y ∧ s' = s.
Proof. unfold se_result. naive_solver. Qed.

(** Splits a successful pass into its successful checks. *)
Ltac invert_passes := repeat match goal with
  | H : se_bind _ _ _ = (Ok _, _) |- _ => apply se_bind_ok in H as (? & ? & ? & ?)
  | H : se_check _ _ = (Ok _, _) |- _ => apply se_check_ok in H as [? ->]
  | H : se_result _ _ = (Ok _, _) |- _ => apply se_result_ok in H as [? ->]
  | H : se_get _ _ = (Ok _, _) |- _ => injection H as <- <-
  | H : se_ret _ _ = (Ok _, _) |- _ => injection H as <- <-
  end.

Lemma errors_is_refl e : errors_is e e = true.
Proof. destruct e; simpl; by rewrite bool_decide_true. Qed.

Lemma first_error_None checks : first_error checks = None ↔ Forall (.= None) checks.
Proof.
  induction checks as [|[e|] checks IH]; simpl; [done| |].
  - split; [done|]. by intros [? _]%Forall_cons.
  - rewrite IH, Forall_cons. naive_solver.
Qed.

Lemma check_None bad e : check bad e = None ↔ bad = false.
Proof. by destruct bad. Qed.

#[export] Hint Rewrite @first_error_None check_None @rbind_ok : relurpify.

(** ** Integers *)
Lemma wrap64_id z : in_int64 z → wrap64 z = z.
Proof.
  unfold in_int64, int64_min, int64_max, wrap64. intros Hz.
  rewrite Z.mod_small; lia.
Qed.

Lemma wrap64_range z : in_int64 (wrap64 z).
Proof.
  unfold in_int64, int64_min, int64_max, wrap64.
  pose proof (Z.mod_pos_bound (z + 2 ^ 63) (2 ^ 64)). lia.
Qed.

Lemma time_sub_diag t : time_sub t t = 0%Z.
Proof. unfold time_sub, int64_min, int64_max. lia. Qed.

#[export] Hint Resolve wrap64_range : relurpify.

(** ** Stable sorting

    [sort.SliceStable] with [less x y] is [¬ R y x].  (stdpp's [merge_sort] is not
    stable.) *)
Section stable_sort.
Context {A : Type} (R : A → A → Prop) `{!RelDecision R}.

Fixpoint sort_insert (x : A) (l : list A) : list A :=
  match l with
  | [] => [x]
  | y :: l' => if decide (R x y) then x :: y :: l' else y :: sort_insert x l'
  end.

Definition sort_stable (l : list A) : list A := foldr sort_insert [] l.

Lemma sort_insert_Permutation x l : sort_insert x l ≡ₚ x :: l.
Proof. induction l as [|y l IH]; cbn; [done|]. case_decide; [done|]. rewrite IH. constructor. Qed.

Lemma sort_stable_Permutation l : sort_stable l ≡ₚ l.
Proof. induction l as [|x l IH]; cbn; [done|]. by rewrite sort_insert_Permutation, IH. Qed.

Lemma sort_insert_sorted `{!Transitive R, !Total R} x l :
  StronglySorted R l → StronglySorted R (sort_insert x l).
Proof.
  induction 1 as [|y l Hl IH Hy]; cbn; [repeat constructor|]. case_decide as Hxy.
  - constructor; [by constructor|]. constructor; [done|].
    eapply Forall_impl; [exact Hy|]. intros z Hyz. cbn in *. by etrans.
  - constructor; [done|]. rewrite sort_insert_Permutation. constructor; [|done].
    by destruct (total R x y).
Qed.

Lemma sort_stable_sorted `{!Transitive R, !Total R} l : StronglySorted R (sort_stable l).
Proof. induction l as [|x l IH]; cbn; [constructor|]. by apply sort_insert_sorted. Qed.

(** Elements that compare equal keep their order. *)
Lemma sort_stable_stable (P : A → Prop) `{!∀ x, Decision (P x)} l :
  (∀ x y, P x → P y → R x y) → filter P (sort_stable l) = filter P l.
Proof.
  intros HP. assert (∀ x l', filter P (sort_insert x l') = filter P (x :: l')) as Hins.
  { intros x l'. induction l' as [|y l' IH]; cbn [sort_insert]; [done|]. case_decide as Hxy; [done|].
    rewrite (filter_cons P y), IH, !filter_cons. repeat case_decide; try done. destruct Hxy. by apply HP. }
  induction l as [|x l IH]; cbn [sort_stable foldr]; [done|].
  rewrite Hins, !filter_cons. by case_decide; [f_equal|].
Qed.
End stable_sort.

(** ** Lists and sets *)
Lemma size_list_to_set_le `{Countable A} (l : list A) :
  size (list_to_set l : gset A) ≤ length l.
Proof.
  induction l as [|x l IH]; [done|]. rewrite list_to_set_cons, size_union_alt, size_singleton.
  assert (size ((list_to_set l : gset A) ∖ {[x]}) ≤ size (list_to_set l : gset A))
    by (apply subseteq_size; set_solver).
  simpl. lia.
Qed.

Lemma list_filter_all {A} (P : A → Prop) `{∀ x, Decision (P x)} (l : list A) :
  (∀ x, x ∈ l → P x) → filter P l = l.
Proof.
  induction l as [|x l IH]; intros Hl; [done|].
  rewrite filter_cons_True, IH by set_solver. done.
Qed.

Lemma NoDup_drop {A} n (l : list A) : NoDup l → NoDup (drop n l).
Proof. intros Hl. eapply sublist_NoDup; [done|apply sublist_drop]. Qed.

Lemma elem_of_drop {A} n (l : list A) x : x ∈ drop n l → x ∈ l.
Proof. intros Hx. rewrite <- (take_drop n l). set_solver. Qed.

Lemma NoDup_snoc {A} (l : list A) x : NoDup l → x ∉ l → NoDup (l ++ [x]).
Proof.
  intros Hl Hx. apply NoDup_app. split_and!; [done| |apply NoDup_singleton].
  intros y Hy Hyx%list_elem_of_singleton. congruence.
Qed.
