(* ===== verification/GoStrings.v ===== *)
(** * GoStrings

    The part of Go's [strings], [path/filepath] and [fmt] packages that the
    modelled code calls.  A Go string is a byte string ([string]).

    - [trim_space] is exact: it strips the UTF-8 encodings of every code point
      for which [unicode.IsSpace] holds, at both ends.
    - [to_lower] and [equal_fold] fold ASCII letters; bytes outside ASCII are
      compared as they are.
    - [fmt_pad w z] is [fmt.Sprintf("%0wd", z)]. *)
From S2P Require Import Prelude.

(** ** Slicing and searching *)
Fixpoint has_prefix (p s : string) : bool :=
  match p, s with
  | EmptyString, _ => true
  | String a p', String b s' => bool_decide (a = b) && has_prefix p' s'
  | String _ _, EmptyString => false
  end.

Fixpoint str_drop (n : nat) (s : string) : string :=
  match n, s with
  | O, _ => s
  | S n', String _ s' => str_drop n' s'
  | S _, EmptyString => EmptyString
  end.

Fixpoint str_take (n : nat) (s : string) : string :=
  match n, s with
  | S n', String a s' => String a (str_take n' s')
  | _, _ => EmptyString
  end.

Definition has_suffix (suf s : string) : bool :=
  has_prefix (String.rev suf) (String.rev s).

Definition trim_prefix (p s : string) : string :=
  if has_prefix p s then str_drop (String.length p) s else s.

(** [strings.Index]; [None] is the code's [-1]. *)
Fixpoint index (sub s : string) : option nat :=
  if has_prefix sub s then Some 0
  else match s with
       | EmptyString => None
       | String _ s' => S <$> index sub s'
       end.

Definition contains (s sub : string) : bool := bool_decide (is_Some (index sub s)).

(** [strings.LastIndex] for a one-byte needle. *)
Fixpoint last_index (c : ascii) (s : string) : option nat :=
  match s with
  | EmptyString => None
  | String a s' =>
      match last_index c s' with
      | Some i => Some (S i)
      | None => if bool_decide (a = c) then Some 0 else None
      end
  end.

Fixpoint contains_byte (c : ascii) (s : string) : bool :=
  match s with
  | EmptyString => false
  | String a s' => bool_decide (a = c) || contains_byte c s'
  end.

(** ** White space *)
Definition byte_str (codes : list nat) : string :=
  foldr (λ n s, String (ascii_of_nat n) s) EmptyString codes.

(** UTF-8 encodings of the code points with [unicode.IsSpace]: U+0009..U+000D,
    U+0020, U+0085, U+00A0, U+1680, U+2000..U+200A, U+2028, U+2029, U+202F,
    U+205F and U+3000. *)
Definition space_seqs : list string :=
  Eval vm_compute in
  byte_str <$> ((λ n, [n]) <$> [9; 10; 11; 12; 13; 32]) ++
    [[194; 133]; [194; 160]; [225; 154; 128]] ++
    ((λ n, [226; 128; n]) <$> seq 128 11) ++
    [[226; 128; 168]; [226; 128; 169]; [226; 128; 175]; [226; 129; 159]; [227; 128; 128]].

(** Strip any sequence of [seqs] from the front as long as one matches; each
    round drops at least one byte, so [length s] rounds are enough. *)
Fixpoint trim_left_fuel (seqs : list string) (fuel : nat) (s : string) : string :=
  match fuel with
  | O => s
  | S fuel' =>
      match list_find (λ q, has_prefix q s = true) seqs with
      | Some (_, q) => trim_left_fuel seqs fuel' (str_drop (String.length q) s)
      | None => s
      end
  end.

Definition trim_left (seqs : list string) (s : string) : string :=
  trim_left_fuel seqs (String.length s) s.

Definition trim_space (s : string) : string :=
  let l := trim_left space_seqs s in
  String.rev (trim_left (String.rev <$> space_seqs) (String.rev l)).

(** [strings.TrimSpace(s) == ""] *)
Definition is_blank (s : string) : bool := bool_decide (trim_space s = EmptyString).

(** ** Case *)
Definition lower_byte (a : ascii) : ascii :=
  let n := nat_of_ascii a in
  if (65 <=? n)%nat && (n <=? 90)%nat then ascii_of_nat (n + 32) else a.

Fixpoint to_lower (s : string) : string :=
  match s with
  | EmptyString => EmptyString
  | String a s' => String (lower_byte a) (to_lower s')
  end.

Definition equal_fold (a b : string) : bool := bool_decide (to_lower a = to_lower b).

(** ** [filepath.Base] on a Unix host *)
Definition slash : ascii := "/"%char.

Fixpoint strip_slashes (s : string) : string :=
  match s with
  | String a s' => if bool_decide (a = slash) then strip_slashes s' else s
  | EmptyString => EmptyString
  end.

Definition filepath_base (path : string) : string :=
  if bool_decide (path = EmptyString) then "."
  else
    let p := String.rev (strip_slashes (String.rev path)) in
    let last := match last_index slash p with
                | Some i => str_drop (S i) p
                | None => p
                end in
    if bool_decide (last = EmptyString) then "/" else last.

(** ** Decimal formatting *)
Definition digit (d : Z) : ascii := ascii_of_nat (48 + Z.to_nat d).
#[global] Arguments digit : simpl never.

Fixpoint fixdigits (w : nat) (n : Z) : string :=
  match w with
  | O => EmptyString
  | S w' => fixdigits w' (n / 10) +:+ String (digit (n mod 10)) EmptyString
  end.

(** Number of decimal digits; the fuel [log2 n + 1] bounds it. *)
Fixpoint ndigits_fuel (fuel : nat) (n : Z) : nat :=
  match fuel with
  | O => 1
  | S fuel' => if (n <? 10)%Z then 1 else S (ndigits_fuel fuel' (n / 10))
  end.

Definition ndigits (n : Z) : nat := ndigits_fuel (Z.to_nat (Z.log2 n) + 1) n.

(** [fmt.Sprintf("%0<w>d", z)] *)
Definition fmt_pad (w : nat) (z : Z) : string :=
  if (z <? 0)%Z
  then "-" +:+ fixdigits (Nat.max (w - 1) (ndigits (- z))) (- z)
  else fixdigits (Nat.max w (ndigits z)) z.

(** ** Lemmas: concatenation and prefixes *)
Lemma str_app_nil_l s : EmptyString +:+ s = s.
Proof. done. Qed.

Lemma str_app_cons a s t : String a s +:+ t = String a (s +:+ t).
Proof. done. Qed.

Lemma str_app_inj_length p q s t : String.length p = String.length q → p +:+ s = q +:+ t → p = q ∧ s = t.
Proof.
  revert q. induction p as [|c p IH]; intros [|d q]; try done.
  intros [= Hl]. rewrite !str_app_cons. intros [= -> E]. apply IH in E as [-> ->]; done.
Qed.

Lemma str_app_nil_r s : s +:+ EmptyString = s.
Proof. induction s as [|a s IH]; [done|]. by rewrite str_app_cons, IH. Qed.

Lemma str_app_assoc a b c : (a +:+ b) +:+ c = a +:+ (b +:+ c).
Proof. induction a as [|x a IH]; [done|]. by rewrite !str_app_cons, IH. Qed.

Lemma str_length_app a b : String.length (a +:+ b) = String.length a + String.length b.
Proof. induction a as [|x a IH]; [done|]. rewrite str_app_cons; simpl; lia. Qed.

Lemma str_take_drop n s : str_take n s +:+ str_drop n s = s.
Proof. revert n; induction s as [|a s IH]; intros [|n]; cbn; [done..|]. by rewrite str_app_cons, IH. Qed.

#[export] Hint Rewrite str_app_nil_l str_app_nil_r str_app_cons str_app_assoc
  str_length_app : gostr.

Lemma has_prefix_spec p s : has_prefix p s = true ↔ ∃ t, s = p +:+ t.
Proof.
  revert s; induction p as [|a p IH]; intros [|b s]; simpl.
  - split; [by exists EmptyString|done].
  - split; [by eexists (String b s)|done].
  - split; [done|]. by intros [t ?].
  - rewrite andb_true_iff, bool_decide_eq_true, IH. split.
    + intros [-> [t ->]]. by exists t.
    + intros [t Ht]. rewrite str_app_cons in Ht. simplify_eq. eauto.
Qed.

Lemma has_prefix_app p t : has_prefix p (p +:+ t) = true.
Proof. apply has_prefix_spec. eauto. Qed.

Lemma has_prefix_refl s : has_prefix s s = true.
Proof. apply has_prefix_spec. exists EmptyString. by rewrite str_app_nil_r. Qed.

(** A string has one first byte. *)
Lemma has_prefix_first a p b q s :
  has_prefix (String a p) s = true → has_prefix (String b q) s = true → a = b.
Proof.
  rewrite !has_prefix_spec. intros [t ->] [t' Heq]. rewrite !str_app_cons in Heq. congruence.
Qed.

Lemma has_prefix_other a p b q s :
  has_prefix (String a p) s = true → a ≠ b → has_prefix (String b q) s = false.
Proof. intros Ha Hne. apply not_true_iff_false. intros Hb. by eapply Hne, has_prefix_first. Qed.

Lemma str_drop_app p t : str_drop (String.length p) (p +:+ t) = t.
Proof. induction p as [|a p IH]; [by destruct t|]. by rewrite str_app_cons. Qed.

Lemma str_take_app p t : str_take (String.length p) (p +:+ t) = p.
Proof.
  induction p as [|a p IH]; [by destruct t|].
  rewrite str_app_cons. simpl. by rewrite IH.
Qed.

Lemma trim_prefix_app p t : trim_prefix p (p +:+ t) = t.
Proof. unfold trim_prefix. by rewrite has_prefix_app, str_drop_app. Qed.

#[export] Hint Rewrite has_prefix_app has_prefix_refl str_drop_app str_take_app
  trim_prefix_app : gostr.

(** ** Lemmas: one-byte separators *)
Lemma contains_byte_app c a b :
  contains_byte c (a +:+ b) = contains_byte c a || contains_byte c b.
Proof.
  induction a as [|x a IH]; [done|]. rewrite str_app_cons. simpl.
  by rewrite IH, orb_assoc.
Qed.

Lemma last_index_None c s : last_index c s = None ↔ contains_byte c s = false.
Proof.
  induction s as [|a s IH]; simpl; [done|].
  destruct (last_index c s) eqn:E.
  - split; [done|]. intros [_ H]%orb_false_iff. apply IH in H. done.
  - case_bool_decide; simpl; [done|]. naive_solver.
Qed.

Lemma last_index_app c a b :
  contains_byte c b = false → last_index c (a +:+ String c b) = Some (String.length a).
Proof.
  intros Hb%last_index_None. induction a as [|x a IH].
  - simpl. rewrite Hb. by rewrite bool_decide_true.
  - rewrite str_app_cons. simpl. by rewrite IH.
Qed.

(** A separator byte that occurs in neither head determines the split. *)
Lemma sep_inj c a b a' b' :
  contains_byte c a = false → contains_byte c a' = false →
  a +:+ String c b = a' +:+ String c b' → a = a' ∧ b = b'.
Proof.
  revert a'; induction a as [|x a IH]; intros [|y a'] Ha Ha'; simpl in *.
  - rewrite !str_app_nil_l. naive_solver.
  - rewrite str_app_nil_l, str_app_cons. intros [= -> _].
    by rewrite bool_decide_true in Ha'.
  - rewrite str_app_nil_l, str_app_cons. intros [= -> _].
    by rewrite bool_decide_true in Ha.
  - rewrite !str_app_cons. intros [= -> H].
    apply orb_false_iff in Ha as [_ Ha], Ha' as [_ Ha'].
    destruct (IH a' Ha Ha' H) as [-> ->]. done.
Qed.

(** ** Lemmas: byte order *)

(** [bytes.Compare a b < 0], the order of the keys of the store. *)
Definition str_lt (a b : string) : Prop := String.compare a b = Lt.
#[global] Instance str_lt_dec : RelDecision str_lt.
Proof. intros a b. unfold str_lt. apply _. Defined.

Lemma ascii_compare_refl a : Ascii.compare a a = Eq.
Proof. unfold Ascii.compare. apply N.compare_refl. Qed.

Lemma str_compare_refl s : String.compare s s = Eq.
Proof. induction s as [|a s IH]; simpl; [done|]. by rewrite ascii_compare_refl. Qed.

Lemma str_lt_irrefl s : ¬ str_lt s s.
Proof. unfold str_lt. by rewrite str_compare_refl. Qed.

Lemma str_le_lt a b : String.le a b → a ≠ b → str_lt a b.
Proof.
  unfold String.le, String.leb, str_lt. intros Hle Hne.
  destruct (String.compare a b) eqn:E; [|done|done].
  apply String.compare_eq_iff in E. done.
Qed.

Lemma str_lt_asym a b : str_lt a b → ¬ str_lt b a.
Proof. unfold str_lt. rewrite (String.compare_antisym a b). by destruct (String.compare b a). Qed.

Lemma str_lt_le a b : str_lt a b → String.le a b.
Proof. unfold str_lt, String.le, String.leb. by intros ->. Qed.

#[global] Instance str_lt_trans : Transitive str_lt.
Proof.
  intros a b c Hab Hbc. apply str_le_lt.
  - transitivity b; by apply str_lt_le.
  - intros ->. by apply (str_lt_asym b c).
Qed.

Lemma str_compare_app p a b : String.compare (p +:+ a) (p +:+ b) = String.compare a b.
Proof.
  induction p as [|x p IH]; [done|]. rewrite !str_app_cons. simpl.
  by rewrite ascii_compare_refl.
Qed.

(** Heads of equal length are compared first. *)
Lemma str_compare_fixed a a' b b' :
  String.length a = String.length a' →
  String.compare (a +:+ b) (a' +:+ b') =
    match String.compare a a' with Eq => String.compare b b' | c => c end.
Proof.
  revert a'; induction a as [|x a IH]; intros [|y a'] Hlen; [done..|].
  injection Hlen as Hlen. rewrite !str_app_cons. simpl. destruct (Ascii.compare x y); auto.
Qed.

(** ** Lemmas: fixed-width decimals *)
Lemma fixdigits_length w n : String.length (fixdigits w n) = w.
Proof.
  revert n; induction w as [|w IH]; intros n; simpl; [done|].
  rewrite str_length_app, IH. simpl. lia.
Qed.

Lemma decimal_digit (d : Z) :
  (0 <= d < 10)%Z →
  d = 0%Z ∨ d = 1%Z ∨ d = 2%Z ∨ d = 3%Z ∨ d = 4%Z ∨ d = 5%Z ∨ d = 6%Z ∨ d = 7%Z ∨ d = 8%Z ∨ d = 9%Z.
Proof. lia. Qed.

Lemma digit_compare d d' :
  (0 <= d < 10)%Z → (0 <= d' < 10)%Z → Ascii.compare (digit d) (digit d') = (d ?= d')%Z.
Proof.
  intros Hd%decimal_digit Hd'%decimal_digit. destruct_or!; subst; vm_compute; done.
Qed.

Lemma digit_not_colon d : (0 <= d < 10)%Z → digit d ≠ ":"%char.
Proof. intros Hd%decimal_digit. destruct_or!; subst; vm_compute; done. Qed.

(** Zero-padded decimals of one width sort as the numbers they print. *)
Lemma fixdigits_compare w n m :
  (0 <= n < 10 ^ Z.of_nat w)%Z → (0 <= m < 10 ^ Z.of_nat w)%Z →
  String.compare (fixdigits w n) (fixdigits w m) = (n ?= m)%Z.
Proof.
  revert n m; induction w as [|w IH]; intros n m Hn Hm; simpl.
  - symmetry. apply Z.compare_eq_iff. change (10 ^ Z.of_nat 0)%Z with 1%Z in *. lia.
  - rewrite Nat2Z.inj_succ, Z.pow_succ_r in Hn, Hm by lia.
    rewrite str_compare_fixed by by rewrite !fixdigits_length.
    assert (0 <= n / 10 < 10 ^ Z.of_nat w)%Z
      by (split; [apply Z.div_pos|apply Z.div_lt_upper_bound]; lia).
    assert (0 <= m / 10 < 10 ^ Z.of_nat w)%Z
      by (split; [apply Z.div_pos|apply Z.div_lt_upper_bound]; lia).
    rewrite IH by done.
    pose proof (Z.mod_pos_bound n 10 ltac:(lia)). pose proof (Z.mod_pos_bound m 10 ltac:(lia)).
    pose proof (Z.div_mod n 10 ltac:(lia)). pose proof (Z.div_mod m 10 ltac:(lia)).
    cbn [String.compare]. rewrite digit_compare by done.
    destruct (Z.compare_spec (n / 10) (m / 10)); symmetry.
    + destruct (Z.compare_spec (n mod 10) (m mod 10));
        [apply Z.compare_eq_iff|apply Z.compare_lt_iff|apply Z.compare_gt_iff]; lia.
    + apply Z.compare_lt_iff; lia.
    + apply Z.compare_gt_iff; lia.
Qed.

Lemma fixdigits_no_colon w n : contains_byte ":"%char (fixdigits w n) = false.
Proof.
  revert n; induction w as [|w IH]; intros n; cbn [fixdigits]; [done|].
  rewrite contains_byte_app, IH. cbn [contains_byte orb].
  rewrite bool_decide_false; [done|].
  apply digit_not_colon, Z.mod_pos_bound. lia.
Qed.

Lemma ndigits_fuel_le fuel n w :
  (0 <= n < 10 ^ Z.of_nat w)%Z → (0 < w)%nat → (ndigits_fuel fuel n <= w)%nat.
Proof.
  revert n w; induction fuel as [|fuel IH]; intros n w Hn Hw; simpl; [lia|].
  destruct (Z.ltb_spec n 10); [lia|].
  destruct w as [|[|w]]; [lia| |].
  - change (10 ^ Z.of_nat 1)%Z with 10%Z in Hn. lia.
  - rewrite Nat2Z.inj_succ, Z.pow_succ_r in Hn by lia.
    enough (ndigits_fuel fuel (n / 10) <= S w)%nat by lia.
    apply IH; [|lia].
    split; [apply Z.div_pos|apply Z.div_lt_upper_bound]; lia.
Qed.

(** A number that fits the width is printed with exactly that width. *)
Lemma fmt_pad_fits w z :
  (0 <= z < 10 ^ Z.of_nat w)%Z → (0 < w)%nat → fmt_pad w z = fixdigits w z.
Proof.
  intros Hz Hw. unfold fmt_pad. destruct (Z.ltb_spec z 0); [lia|].
  f_equal. apply Nat.max_l. by apply ndigits_fuel_le.
Qed.

Lemma fmt_pad_no_colon w z : contains_byte ":"%char (fmt_pad w z) = false.
Proof.
  unfold fmt_pad. destruct (z <? 0)%Z; [|apply fixdigits_no_colon].
  rewrite contains_byte_app, fixdigits_no_colon. done.
Qed.

#[export] Hint Resolve fmt_pad_no_colon fixdigits_no_colon : gostr.

(** ** Reversal and suffixes *)
Lemma rev_app_spec s t : String.rev_app s t = String.rev s +:+ t.
Proof.
  unfold String.rev. revert t. induction s as [|a s IH]; intros t; [done|].
  cbn [String.rev_app]. rewrite (IH (String a t)), (IH (String a EmptyString)), str_app_assoc. done.
Qed.

Lemma str_rev_app s t : String.rev (s +:+ t) = String.rev t +:+ String.rev s.
Proof.
  induction s as [|a s IH]; [by rewrite str_app_nil_r|].
  rewrite str_app_cons. unfold String.rev at 1 3. cbn [String.rev_app].
  rewrite !rev_app_spec, IH, str_app_assoc. done.
Qed.

Lemma has_suffix_app s suf : has_suffix suf (s +:+ suf) = true.
Proof. unfold has_suffix. rewrite str_rev_app. apply has_prefix_app. Qed.

(** [strings.TrimSpace] is idempotent: what is left starts and ends with no space. *)
Lemma trim_left_fuel_suffix seqs fuel : ∀ s, ∃ p, s = p +:+ trim_left_fuel seqs fuel s.
Proof.
  induction fuel as [|fuel IH]; intros s; cbn; [by exists EmptyString|].
  destruct (list_find _ seqs) as [[i q]|] eqn:E; [|by exists EmptyString].
  apply list_find_Some in E as (_ & Hq & _). apply has_prefix_spec in Hq as [t ->].
  rewrite str_drop_app. destruct (IH t) as [p Hp]. exists (q +:+ p). by rewrite str_app_assoc, <- Hp.
Qed.

Definition starts_clean (seqs : list string) (s : string) : Prop :=
  Forall (λ q, has_prefix q s = false) seqs.

Lemma trim_left_fuel_clean seqs fuel : ∀ s,
  Forall (λ q, q ≠ EmptyString) seqs → String.length s ≤ fuel →
  starts_clean seqs (trim_left_fuel seqs fuel s).
Proof.
  induction fuel as [|fuel IH]; intros s Hne Hl; cbn.
  - destruct s; [|cbn in Hl; lia]. eapply Forall_impl; [exact Hne|]. by intros [].
  - destruct (list_find _ seqs) as [[i q]|] eqn:E.
    + apply list_find_Some in E as (Hi & Hq & _). apply has_prefix_spec in Hq as [t ->].
      rewrite str_drop_app. apply IH; [done|]. rewrite str_length_app in Hl.
      apply (Forall_lookup_1 _ _ _ _ Hne) in Hi. destruct q; [done|]. cbn in Hl. lia.
    + apply list_find_None in E. eapply Forall_impl; [exact E|]. cbn. intros q. by destruct (has_prefix q s).
Qed.

Lemma trim_left_clean seqs s : starts_clean seqs s → trim_left seqs s = s.
Proof.
  intros H. unfold trim_left. destruct (String.length s); [done|]. cbn.
  destruct (list_find _ seqs) as [[i q]|] eqn:E; [|done].
  apply list_find_Some in E as (Hi & Hq & _). apply (Forall_lookup_1 _ _ _ _ H) in Hi. congruence.
Qed.

Lemma starts_clean_prefix seqs s t : starts_clean seqs (s +:+ t) → starts_clean seqs s.
Proof.
  intros H. eapply Forall_impl; [exact H|]. cbn. intros q Hq.
  destruct (has_prefix q s) eqn:E; [|done]. apply has_prefix_spec in E as [u ->].
  rewrite str_app_assoc, has_prefix_app in Hq. done.
Qed.

Lemma str_rev_involutive s : String.rev (String.rev s) = s.
Proof.
  induction s as [|a s IH]; [done|].
  replace (String a s) with (String a EmptyString +:+ s) by done.
  rewrite !str_rev_app, IH. done.
Qed.

Lemma trim_space_idem s : trim_space (trim_space s) = trim_space s.
Proof.
  unfold trim_space. set (rs := String.rev <$> space_seqs).
  assert (Forall (λ q, q ≠ EmptyString) space_seqs) as Hn
    by (apply (bool_decide_unpack _); vm_compute; exact I).
  assert (Forall (λ q, q ≠ EmptyString) rs) as Hr
    by (apply (bool_decide_unpack _); vm_compute; exact I).
  set (l := trim_left space_seqs s). set (r := trim_left rs (String.rev l)).
  assert (starts_clean space_seqs l) as Hl by by apply trim_left_fuel_clean.
  assert (starts_clean rs r) as Hrc by by apply trim_left_fuel_clean.
  assert (∃ t, l = String.rev r +:+ t) as [t Ht].
  { destruct (trim_left_fuel_suffix rs (String.length (String.rev l)) (String.rev l)) as [p Hp].
    exists (String.rev p). rewrite <- str_rev_app. fold (trim_left rs (String.rev l)) in Hp. fold r in Hp.
    by rewrite <- Hp, str_rev_involutive. }
  rewrite (trim_left_clean space_seqs (String.rev r)) by (eapply starts_clean_prefix; by rewrite <- Ht).
  by rewrite str_rev_involutive, trim_left_clean.
Qed.

(** ** Formatting *)

(** [strconv.Quote] (the verb [%q]).  Exact on ASCII; bytes of other runes are kept
    as they are, which is what [Quote] does with printable runes. *)
Definition hex_digit (n : N) : string :=
  match String.get (N.to_nat n) "0123456789abcdef" with
  | Some c => String c EmptyString
  | None => EmptyString
  end.

Definition quote_byte (a : ascii) : string :=
  let n := N_of_ascii a in
  if (n =? 34)%N || (n =? 92)%N then String (ascii_of_nat 92) (String a EmptyString)
  else if (n =? 7)%N then "\a" else if (n =? 8)%N then "\b" else if (n =? 9)%N then "\t"
  else if (n =? 10)%N then "\n" else if (n =? 11)%N then "\v" else if (n =? 12)%N then "\f"
  else if (n =? 13)%N then "\r"
  else if (n <? 32)%N || (n =? 127)%N then "\x" +:+ hex_digit (n / 16) +:+ hex_digit (n mod 16)
  else String a EmptyString.

Definition dquote : string := String (ascii_of_nat 34) EmptyString.

Fixpoint quote_bytes (s : string) : string :=
  match s with EmptyString => EmptyString | String a s' => quote_byte a +:+ quote_bytes s' end.

Definition go_quote (s : string) : string := dquote +:+ quote_bytes s +:+ dquote.

(** [fmt.Sprintf] with string arguments: [%q] quotes, any other verb prints the
    argument. *)
Fixpoint sprintf (format : string) (args : list string) : string :=
  match format with
  | String "%" (String "%" f) => String "%" (sprintf f args)
  | String "%" (String v f) =>
      match args with
      | x :: args' => (if bool_decide (v = "q"%char) then go_quote x else x) +:+ sprintf f args'
      | [] => "%!" +:+ String v ("(MISSING)" +:+ sprintf f [])
      end
  | String a f => String a (sprintf f args)
  | EmptyString => EmptyString
  end.

(** [err.Error()]. *)
Fixpoint error_text (e : gerror) : string :=
  match e with
  | ErrSentinel s | ErrMsg s => s
  | ErrFmt format args => sprintf format args
  | ErrWrap prefix inner => prefix +:+ ": " +:+ error_text inner
  end.
