(* ===== verification/GoTime.v ===== *)
(** * GoTime

    The part of Go's [time] package that the modelled code calls on strings:
    [ParseDuration], and the clock layout ["15:04"] in both directions
    ([Time.Format] and [time.Parse]).

    [ParseDuration] computes a fractional part in [float64]; the model truncates
    the exact quotient, so a fractional duration may differ by a nanosecond. *)
From S2P Require Import Prelude GoStrings.

Definition is_digit (a : ascii) : bool :=
  let n := nat_of_ascii a in (48 <=? n)%nat && (n <=? 57)%nat.

Definition digit_val (a : ascii) : Z := Z.of_nat (nat_of_ascii a - 48).

(** ** [time.ParseDuration] *)

(** [leadingInt]: [None] is its overflow error. *)
Fixpoint leadingInt (s : string) (x : Z) : option (Z * string) :=
  match s with
  | String c s' =>
      if is_digit c then
        if (2 ^ 63 / 10 <? x)%Z then None
        else
          let x := (x * 10 + digit_val c)%Z in
          if (2 ^ 63 <? x)%Z then None else leadingInt s' x
      else Some (x, s)
  | EmptyString => Some (x, s)
  end.

(** [leadingFraction]: digits past the overflow are skipped. *)
Fixpoint leadingFraction (s : string) (x scale : Z) (overflow : bool) : Z * Z * string :=
  match s with
  | String c s' =>
      if is_digit c then
        if overflow then leadingFraction s' x scale true
        else if ((2 ^ 63 - 1) / 10 <? x)%Z then leadingFraction s' x scale true
        else
          let y := (x * 10 + digit_val c)%Z in
          if (2 ^ 63 <? y)%Z then leadingFraction s' x scale true
          else leadingFraction s' y (scale * 10) false
      else (x, scale, s)
  | EmptyString => (x, scale, s)
  end.

Definition micro : string := String (ascii_of_nat 194) (String (ascii_of_nat 181) "s").
Definition greek_mu : string := String (ascii_of_nat 206) (String (ascii_of_nat 188) "s").

Definition unitMap (u : string) : option Z :=
  if bool_decide (u = "ns") then Some 1%Z
  else if bool_decide (u ∈ ["us"; micro; greek_mu]) then Some 1000%Z
  else if bool_decide (u = "ms") then Some 1000000%Z
  else if bool_decide (u = "s") then Some second
  else if bool_decide (u = "m") then Some minute
  else if bool_decide (u = "h") then Some hour
  else None.

(** The unit: everything up to the next digit or dot. *)
Fixpoint take_unit (s : string) : string * string :=
  match s with
  | String c s' =>
      if is_digit c || bool_decide (c = "."%char) then (EmptyString, s)
      else let (u, r) := take_unit s' in (String c u, r)
  | EmptyString => (EmptyString, EmptyString)
  end.

(** One [value unit] group. *)
Definition duration_group (s : string) : option (Z * string) :=
  match s with
  | String c _ =>
      if is_digit c || bool_decide (c = "."%char) then
        v ← leadingInt s 0;
        let '(v, s1) := v : Z * string in
        let pre := negb (bool_decide (String.length s1 = String.length s)) in
        let '(f, scale, s2, post) :=
          match s1 with
          | String d s1' =>
              if bool_decide (d = "."%char) then
                let '(f, scale, s2) := leadingFraction s1' 0 1 false in
                (f, scale, s2, negb (bool_decide (String.length s2 = String.length s1')))
              else (0%Z, 1%Z, s1, false)
          | EmptyString => (0%Z, 1%Z, s1, false)
          end in
        if negb pre && negb post then None
        else
          let (u, s3) := take_unit s2 in
          unit ← unitMap u;
          if (2 ^ 63 / unit <? v)%Z then None
          else
            let v := (v * unit + f * unit / scale)%Z in
            if (2 ^ 63 <? v)%Z then None else Some (v, s3)
      else None
  | EmptyString => None
  end.

(** Every group consumes its unit, so [length s] rounds are enough. *)
Fixpoint duration_groups (fuel : nat) (s : string) (d : Z) : option Z :=
  match s, fuel with
  | EmptyString, _ => Some d
  | _, O => None
  | _, S fuel' =>
      g ← duration_group s;
      let '(v, s') := g : Z * string in
      let d := (d + v)%Z in
      if (2 ^ 63 <? d)%Z then None else duration_groups fuel' s' d
  end.

Definition ParseDuration (s : string) : option Duration :=
  let '(neg, s) :=
    match s with
    | String c s' =>
        if bool_decide (c = "-"%char) then (true, s')
        else if bool_decide (c = "+"%char) then (false, s') else (false, s)
    | EmptyString => (false, s)
    end in
  if bool_decide (s = "0") then Some 0%Z
  else if bool_decide (s = EmptyString) then None
  else
    d ← duration_groups (String.length s) s 0;
    if neg then Some (- d)%Z
    else if (2 ^ 63 - 1 <? d)%Z then None else Some d.

(** ** The clock layout ["15:04"] *)

(** [getnum] *)
Definition getnum (s : string) (fixed : bool) : option (Z * string) :=
  match s with
  | String a (String b r) =>
      if is_digit a then
        if is_digit b then Some ((digit_val a * 10 + digit_val b)%Z, r)
        else if fixed then None else Some (digit_val a, String b r)
      else None
  | String a EmptyString =>
      if is_digit a then if fixed then None else Some (digit_val a, EmptyString) else None
  | EmptyString => None
  end.

(** [time.Parse("15:04", s)]: the hour may have one digit, the minute has two. *)
Definition parse_clock (s : string) : option (Z * Z) :=
  h ← getnum s false;
  let '(hour, r) := h : Z * string in
  if (24 <=? hour)%Z then None
  else match r with
       | String c r' =>
           if bool_decide (c = ":"%char) then
             mi ← getnum r' true;
             let '(min, r'') := mi : Z * string in
             if (60 <=? min)%Z then None
             else if bool_decide (r'' = EmptyString) then Some (hour, min) else None
           else None
       | EmptyString => None
       end.

Definition clock_string (h mi : Z) : string := fixdigits 2 h +:+ ":" +:+ fixdigits 2 mi.

(** [ts.Format("15:04")] of an instant seen at a zone offset. *)
Definition format_clock (t : Time) (offset : Duration) : string :=
  let local := ((t + offset) mod (24 * hour))%Z in
  clock_string (local / hour) ((local mod hour) / minute).

Lemma clock_compare h mi h' mi' :
  (0 <= h < 24)%Z → (0 <= mi < 60)%Z → (0 <= h' < 24)%Z → (0 <= mi' < 60)%Z →
  String.compare (clock_string h mi) (clock_string h' mi') = (60 * h + mi ?= 60 * h' + mi')%Z.
Proof.
  intros. unfold clock_string. rewrite str_compare_fixed by by rewrite !fixdigits_length.
  rewrite fixdigits_compare by lia. rewrite str_compare_app, fixdigits_compare by lia.
  destruct (Z.compare_spec h h') as [->|Hlt|Hlt].
  - symmetry. apply Z.add_compare_mono_l.
  - symmetry. apply Z.compare_lt_iff. lia.
  - symmetry. apply Z.compare_gt_iff. lia.
Qed.

Lemma clock_split (l mn : Z) :
  (0 < mn)%Z → (0 <= l < 24 * (60 * mn))%Z →
  (0 <= l / (60 * mn) < 24 ∧ 0 <= l mod (60 * mn) / mn < 60 ∧
   60 * (l / (60 * mn)) + l mod (60 * mn) / mn = l / mn)%Z.
Proof.
  intros Hm Hl. assert (0 <= l mod (60 * mn) < 60 * mn)%Z by (apply Z.mod_pos_bound; lia).
  split_and!; [apply Z.div_pos; lia|apply Z.div_lt_upper_bound; lia|
               apply Z.div_pos; lia|apply Z.div_lt_upper_bound; lia|].
  rewrite (Z.div_mod l (60 * mn)) at 3 by lia.
  replace (60 * mn * (l / (60 * mn)) + l mod (60 * mn))%Z
    with (l mod (60 * mn) + (60 * (l / (60 * mn))) * mn)%Z by lia.
  rewrite Z.div_add by lia. lia.
Qed.

Lemma format_clock_range t offset :
  ∃ h mi, format_clock t offset = clock_string h mi ∧ (0 <= h < 24)%Z ∧ (0 <= mi < 60)%Z ∧
    (60 * h + mi = ((t + offset) mod (24 * hour)) / minute)%Z.
Proof.
  unfold format_clock. cbv zeta.
  destruct (clock_split ((t + offset) mod (24 * hour)) minute) as (Hh & Hmi & Heq).
  - vm_compute. done.
  - apply Z.mod_pos_bound. vm_compute. done.
  - eexists _, _. split; [reflexivity|]. split; [exact Hh|]. split; [exact Hmi|exact Heq].
Qed.

Lemma is_digit_digit d : (0 <= d < 10)%Z → is_digit (digit d) = true ∧ digit_val (digit d) = d.
Proof. intros Hd%decimal_digit. destruct_or!; subst; vm_compute; done. Qed.

(** What [Format] prints, [Parse] reads back. *)
Lemma parse_clock_string h mi :
  (0 <= h < 24)%Z → (0 <= mi < 60)%Z → parse_clock (clock_string h mi) = Some (h, mi).
Proof.
  intros Hh Hmi. unfold clock_string.
  assert (∀ n, (0 <= n < 60)%Z → ∀ r, fixdigits 2 n +:+ r =
    String (digit (n / 10)) (String (digit (n mod 10)) r) ∧
    is_digit (digit (n / 10)) = true ∧ is_digit (digit (n mod 10)) = true ∧
    (digit_val (digit (n / 10)) * 10 + digit_val (digit (n mod 10)) = n)%Z) as Hd.
  { intros n Hn r.
    assert (0 <= n / 10 < 10)%Z by (split; [apply Z.div_pos; lia|apply Z.div_lt_upper_bound; lia]).
    assert (0 <= n mod 10 < 10)%Z by (apply Z.mod_pos_bound; lia).
    destruct (is_digit_digit (n / 10)) as [-> ->]; [done|].
    destruct (is_digit_digit (n mod 10)) as [-> ->]; [done|].
    split_and!; [|done..|pose proof (Z.div_mod n 10); lia].
    cbn [fixdigits]. rewrite (Z.mod_small (n / 10) 10) by lia. done. }
  destruct (Hd h ltac:(lia) (":" +:+ fixdigits 2 mi)) as (-> & H1 & H2 & H3).
  unfold parse_clock. cbn [getnum]. rewrite H1, H2, H3. cbn [mbind option_bind].
  destruct (Z.leb_spec 24 h); [lia|]. rewrite (str_app_cons ":" EmptyString), str_app_nil_l. cbn iota.
  rewrite bool_decide_true by done. rewrite <- (str_app_nil_r (fixdigits 2 mi)).
  destruct (Hd mi ltac:(lia) EmptyString) as (-> & H4 & H5 & H6).
  cbn [getnum]. rewrite H4, H5, H6. cbn [mbind option_bind].
  by destruct (Z.leb_spec 60 mi); [lia|].
Qed.

Example ParseDuration_ex : ParseDuration "1h15m30.5s" = Some (75 * minute + 30500000000)%Z.
Proof. vm_compute. reflexivity. Qed.

(** ** Dates

    [Time.Date] in UTC: days since the Unix epoch to year, month and day of the
    proleptic Gregorian calendar (years of 365 days from March 1, eras of 400 years). *)
Definition civil (days : Z) : Z * Z * Z :=
  let z := (days + 719468)%Z in
  let era := (z / 146097)%Z in
  let doe := (z mod 146097)%Z in
  let yoe := ((doe - doe / 1460 + doe / 36524 - doe / 146096) / 365)%Z in
  let doy := (doe - (365 * yoe + yoe / 4 - yoe / 100))%Z in
  let mp := ((5 * doy + 2) / 153)%Z in
  let d := (doy - (153 * mp + 2) / 5 + 1)%Z in
  let m := if (mp <? 10)%Z then (mp + 3)%Z else (mp - 9)%Z in
  ((yoe + era * 400 + (if (m <=? 2)%Z then 1 else 0))%Z, m, d).

Definition day_of (t : Time) : Z * Z * Z := civil (t / (24 * hour))%Z.
Definition year_of (t : Time) : Z := (day_of t).1.1.

(** [ts.Format("20060102")] *)
Definition format_day (t : Time) : string :=
  let '(y, m, d) := day_of t in fmt_pad 4 y +:+ fmt_pad 2 m +:+ fmt_pad 2 d.

(** The fraction of [time.RFC3339Nano]: nine digits without trailing zeros. *)
Fixpoint drop_zeros (s : string) : string :=
  match s with
  | String c s' =>
      let r := drop_zeros s' in
      if bool_decide (c = "0"%char) && bool_decide (r = EmptyString) then EmptyString else String c r
  | EmptyString => EmptyString
  end.

Definition format_fraction (ns : Z) : string :=
  let digits := drop_zeros (fixdigits 9 ns) in
  if bool_decide (digits = EmptyString) then EmptyString else "." +:+ digits.

(** [t.UTC().Format(time.RFC3339Nano)] *)
Definition format_rfc3339nano (t : Time) : string :=
  let '(y, m, d) := day_of t in
  let s := (t mod (24 * hour))%Z in
  fmt_pad 4 y +:+ "-" +:+ fixdigits 2 m +:+ "-" +:+ fixdigits 2 d +:+ "T" +:+
  fixdigits 2 (s / hour) +:+ ":" +:+ fixdigits 2 (s mod hour / minute) +:+ ":" +:+
  fixdigits 2 (s mod minute / second) +:+ format_fraction (s mod second) +:+ "Z".

Lemma fixdigits_two n : String.length (fixdigits 2 n) = 2.
Proof. apply fixdigits_length. Qed.

Lemma civil_ranges days : let '(_, m, d) := civil days in (1 <= m <= 12 ∧ 0 <= d < 100)%Z.
Proof.
  unfold civil. set (doe := ((days + 719468) mod 146097)%Z).
  assert (0 <= doe < 146097)%Z as Hdoe by (apply Z.mod_pos_bound; lia).
  set (yoe := ((doe - doe / 1460 + doe / 36524 - doe / 146096) / 365)%Z).
  set (doy := (doe - (365 * yoe + yoe / 4 - yoe / 100))%Z).
  assert (0 <= doy <= 365)%Z as Hdoy.
  { subst doy yoe. clearbody doe. clear days. Z.to_euclidean_division_equations. nia. }
  clearbody doy. clear -Hdoy. cbv zeta.
  destruct (Z.ltb_spec ((5 * doy + 2) / 153) 10); Z.to_euclidean_division_equations; lia.
Qed.

(** Days of four-digit years are printed with eight digits. *)
Lemma format_day_length t : (0 <= year_of t < 10000)%Z → String.length (format_day t) = 8.
Proof.
  unfold year_of, format_day, day_of. pose proof (civil_ranges (t / (24 * hour))) as Hr.
  destruct (civil _) as [[y m] d]. cbn. intros Hy. rewrite !fmt_pad_fits by lia.
  by rewrite !str_length_app, !fixdigits_length.
Qed.

Example format_day_ex :
  format_day 0 = "19700101" ∧ format_day zero_time = "00010101" ∧
  format_day 1791460800123456789 = "20261008".
Proof. vm_compute. done. Qed.

Example format_rfc3339nano_ex :
  format_rfc3339nano 1791460800123456789 = "2026-10-08T12:00:00.123456789Z" ∧
  format_rfc3339nano 1791460800120000000 = "2026-10-08T12:00:00.12Z" ∧
  format_rfc3339nano zero_time = "0001-01-01T00:00:00Z".
Proof. vm_compute. done. Qed.
