(* ===== verification/Policy.v ===== *)
(** * Policy

    Policy rules and their evaluation: [governance/permissions/decision.go],
    [governance/classification/normalize.go], [governance/risk/risk.go],
    [governance/policy/policy_types.go] and
    [governance/authorization/policy_match.go].

    String-typed vocabularies of the source stay strings; a [*bool] or other
    optional pointer is an [option]. *)
From S2P Require Import Prelude GoStrings GoTime.
From Stdlib Require Import Permutation.

(** ** Decisions ([permissions/decision.go]) *)
Abbreviation Decision_ := string (only parsing).
Definition DecisionAllow : string := "allow".
Definition DecisionAsk : string := "ask".
Definition DecisionDeny : string := "deny".

Definition Decision_Valid (d : string) : bool :=
  bool_decide (d ∈ [DecisionAllow; DecisionAsk; DecisionDeny]).

Definition ParseDecision (s : string) : result string :=
  let normalized := to_lower (trim_space s) in
  if Decision_Valid normalized then Ok normalized
  else Err (ErrFmt "invalid decision %q: want one of %q, %q, %q"
              [s; DecisionAllow; DecisionAsk; DecisionDeny]).

Definition DecisionOr (s def : string) : result string :=
  if is_blank s then Ok (if bool_decide (def = EmptyString) then DecisionAsk else def)
  else ParseDecision s.

(** ** Classes ([classification], [risk]) *)

(** [strings.ReplaceAll(s, "_", "-")] *)
Fixpoint underscores_to_dashes (s : string) : string :=
  match s with
  | EmptyString => EmptyString
  | String a s' => String (if bool_decide (a = "_"%char) then "-"%char else a)
                     (underscores_to_dashes s')
  end.

Definition NormalizeClassString (s : string) : string :=
  underscores_to_dashes (to_lower (trim_space s)).

Definition EffectClassFilesystemMutation : string := "filesystem-mutation".
Definition EffectClassProcessSpawn : string := "process-spawn".
Definition EffectClassNetworkEgress : string := "network-egress".
Definition EffectClassCredentialUse : string := "credential-use".
Definition EffectClassExternalState : string := "external-state".
Definition EffectClassSessionCreation : string := "session-creation".
Definition EffectClassContextInsertion : string := "context-insertion".

Definition CapabilityScopeBuiltin : string := "builtin".
Definition CapabilityScopeWorkspace : string := "workspace".
Definition CapabilityScopeProvider : string := "provider".
Definition CapabilityScopeRemote : string := "remote".

Definition RiskClassReadOnly : string := "read-only".
Definition RiskClassDestructive : string := "destructive".
Definition RiskClassExecute : string := "execute".
Definition RiskClassNetwork : string := "network".
Definition RiskClassCredentialed : string := "credentialed".
Definition RiskClassExfiltration : string := "exfiltration-sensitive".
Definition RiskClassSessioned : string := "sessioned".

(** The [switch] of the effects loop. *)
Definition effect_risks (eff : string) : list string :=
  if bool_decide (eff = EffectClassFilesystemMutation) then [RiskClassDestructive]
  else if bool_decide (eff = EffectClassProcessSpawn) then [RiskClassExecute]
  else if bool_decide (eff = EffectClassNetworkEgress) then [RiskClassNetwork; RiskClassExfiltration]
  else if bool_decide (eff = EffectClassCredentialUse) then [RiskClassCredentialed]
  else if bool_decide (eff = EffectClassExternalState) then [RiskClassNetwork; RiskClassExfiltration]
  else if bool_decide (eff = EffectClassSessionCreation) then [RiskClassSessioned]
  else [].

(** The scope floor. *)
Definition scope_floor (scope : string) : list string :=
  if bool_decide (scope = CapabilityScopeWorkspace) then [RiskClassSessioned]
  else if bool_decide (scope = CapabilityScopeProvider) then [RiskClassCredentialed]
  else if bool_decide (scope = CapabilityScopeRemote)
  then [RiskClassSessioned; RiskClassNetwork; RiskClassExfiltration]
  else [].

Definition sortOrder : list string :=
  [RiskClassReadOnly; RiskClassDestructive; RiskClassExecute; RiskClassNetwork;
   RiskClassCredentialed; RiskClassExfiltration; RiskClassSessioned].

Definition sortRiskClasses (set : gset string) : list string := filter (.∈ set) sortOrder.

Definition Classify (effects : list string) (scope : string) : list string :=
  let set : gset string := foldl (λ acc eff, acc ∪ list_to_set (effect_risks eff)) ∅ effects in
  let set := if bool_decide (set = ∅) then {[ RiskClassReadOnly ]} else set in
  sortRiskClasses (set ∪ list_to_set (scope_floor scope)).

(** ** Policy data ([policy/policy_types.go]) *)
Record ActorMatch := { am_Kind : string; am_IDs : list string; am_Authenticated : bool }.

Record TimeWindow := { After : string; Before : string; Days : list string; Timezone : string }.

Record PolicyConditions := {
  c_Actors : list ActorMatch;
  c_Capabilities : list string;
  c_ExportNames : list string;
  c_SourceDomains : list string;
  c_ContextClasses : list string;
  c_SensitivityClasses : list string;
  c_RouteModes : list string;
  c_ProviderKinds : list string;
  c_ExternalProviders : list string;
  c_MinRiskClasses : list string;
  c_TrustClasses : list string;
  c_CapabilityKinds : list string;
  c_RuntimeFamilies : list string;
  c_EffectClasses : list string;
  c_Partitions : list string;
  c_ChannelIDs : list string;
  c_SessionScopes : list string;
  c_SessionOperations : list string;
  c_RequireOwnership : option bool;
  c_RequireDelegation : option bool;
  c_RequireExternalBinding : option bool;
  c_RequireResolvedExternal : option bool;
  c_RequireRestrictedExternal : option bool;
  c_TimeWindow : option TimeWindow
}.

(** The zero value [PolicyConditions{}]. *)
Definition no_conditions : PolicyConditions :=
  {| c_Actors := []; c_Capabilities := []; c_ExportNames := []; c_SourceDomains := [];
     c_ContextClasses := []; c_SensitivityClasses := []; c_RouteModes := []; c_ProviderKinds := [];
     c_ExternalProviders := []; c_MinRiskClasses := []; c_TrustClasses := []; c_CapabilityKinds := [];
     c_RuntimeFamilies := []; c_EffectClasses := []; c_Partitions := []; c_ChannelIDs := [];
     c_SessionScopes := []; c_SessionOperations := []; c_RequireOwnership := None;
     c_RequireDelegation := None; c_RequireExternalBinding := None;
     c_RequireResolvedExternal := None; c_RequireRestrictedExternal := None; c_TimeWindow := None |}.

Record RateLimit := { MaxRequests : Z; WindowSeconds : Z; Per : string }.

Record PolicyEffect := {
  Action : string;
  Approvers : list string;
  ApprovalTTL : string;
  eff_RateLimit : option RateLimit;
  eff_Reason : string
}.

Record PolicyRule := {
  rule_ID : string;
  rule_Name : string;
  rule_Priority : Z;
  Enabled : bool;
  Conditions : PolicyConditions;
  rule_Effect : PolicyEffect
}.

(** [identity.EventActor], the fields policy evaluation reads. *)
Record EventActor := { actor_Kind : string; actor_ID : string }.

(** A [time.Time] with its location's offset, for [Format]. *)
Record LocalTime := { lt_instant : Time; lt_offset : Duration }.

(** The fields of [PolicyRequest] that evaluation and its audit records read. *)
Record PolicyRequest := {
  req_Target : string;
  req_Actor : EventActor;
  req_Authenticated : bool;
  req_CapabilityID : string;
  req_CapabilityName : string;
  req_LineageID : string;
  req_ExportName : string;
  req_SourceDomain : string;
  req_ContextClass : string;
  req_SensitivityClass : string;
  req_RouteMode : string;
  req_CapabilityKind : string;
  req_RuntimeFamily : string;
  req_ProviderKind : string;
  req_ProviderOrigin : string;
  req_TrustClass : string;
  req_RiskClasses : list string;
  req_EffectClasses : list string;
  req_Partition : string;
  req_ChannelID : string;
  req_SessionID : string;
  req_SessionScope : string;
  req_SessionOperation : string;
  req_IsOwner : bool;
  req_IsDelegated : bool;
  req_ExternalProvider : string;
  req_HasExternalBinding : bool;
  req_ResolvedExternal : bool;
  req_RestrictedExternal : bool;
  req_Timestamp : LocalTime
}.

Definition PolicyTargetCapability : string := "capability".
Definition PolicyTargetProvider : string := "provider".
Definition PolicyTargetSession : string := "session".
Definition PolicyTargetResume : string := "resume".

Record PolicyDecision := { dec_Effect : string; dec_Rule : option PolicyRule; dec_Reason : string }.

Definition PolicyDecisionAllow (reason : string) : PolicyDecision :=
  {| dec_Effect := "allow"; dec_Rule := None; dec_Reason := reason |}.

Definition PolicyDecisionDeny (reason : string) : PolicyDecision :=
  {| dec_Effect := "deny"; dec_Rule := None; dec_Reason := reason |}.

Definition PolicyDecisionRequireApproval (rule : option PolicyRule) : PolicyDecision :=
  {| dec_Effect := "require_approval"; dec_Rule := rule;
     dec_Reason := from_option (λ r, eff_Reason (rule_Effect r)) EmptyString rule |}.

(** *** Validation *)
Definition RateLimit_Validate (r : RateLimit) : option gerror :=
  first_error [
    check (MaxRequests r <=? 0)%Z (ErrMsg "max_requests must be > 0");
    check (WindowSeconds r <=? 0)%Z (ErrMsg "window_seconds must be > 0");
    check (negb (bool_decide (Per r ∈ ["actor"; "capability"; "global"])))
      (ErrFmt "rate limit per %s invalid" [Per r])].

Definition PolicyEffect_Validate (e : PolicyEffect) : option gerror :=
  first_error [
    check (negb (bool_decide (Action e ∈ ["allow"; "deny"; "require_approval"; "rate_limit"; "log_only"])))
      (ErrFmt "policy action %s invalid" [Action e]);
    check (negb (bool_decide (ApprovalTTL e = EmptyString)) &&
           bool_decide (ParseDuration (ApprovalTTL e) = None))
      (ErrWrap "approval ttl invalid" (ErrMsg "time: invalid duration"));
    if bool_decide (Action e = "rate_limit") then
      match eff_RateLimit e with
      | None => Some (ErrMsg "rate limit config required")
      | Some r => RateLimit_Validate r
      end
    else None].

Definition TimeWindow_Validate (w : TimeWindow) : option gerror :=
  first_error [
    check (is_blank (After w) && is_blank (Before w)) (ErrMsg "after or before required");
    check (negb (bool_decide (After w = EmptyString)) && bool_decide (parse_clock (After w) = None))
      (ErrWrap "after invalid" (ErrMsg "parsing time"));
    check (negb (bool_decide (Before w = EmptyString)) && bool_decide (parse_clock (Before w) = None))
      (ErrWrap "before invalid" (ErrMsg "parsing time"))].

Definition none_blank (values : list string) (msg : string) : option gerror :=
  first_error ((λ v, check (is_blank v) (ErrMsg msg)) <$> values).

Definition PolicyRule_Validate (r : PolicyRule) : option gerror :=
  first_error [
    check (is_blank (rule_ID r)) (ErrMsg "policy rule id required");
    check (is_blank (rule_Name r)) (ErrMsg "policy rule name required");
    ErrWrap "policy effect invalid" <$> PolicyEffect_Validate (rule_Effect r);
    ErrWrap "time window invalid" <$> (c_TimeWindow (Conditions r) ≫= TimeWindow_Validate);
    none_blank (c_Partitions (Conditions r)) "policy partition must not be empty";
    none_blank (c_ExportNames (Conditions r)) "policy export name must not be empty";
    none_blank (c_ContextClasses (Conditions r)) "policy context class must not be empty";
    none_blank (c_SensitivityClasses (Conditions r)) "policy sensitivity class must not be empty";
    none_blank (c_RouteModes (Conditions r)) "policy route mode must not be empty";
    none_blank (c_ChannelIDs (Conditions r)) "policy channel id must not be empty"].
