(* ===== verification/PolicyMatch.v ===== *)
(** * PolicyMatch

    [governance/authorization/policy_match.go]: which rules match a request, and
    the deny-wins lattice that picks the decision among them.  The clock that a
    request without a timestamp reads is the [now] argument. *)
From S2P Require Import Prelude GoStrings GoTime Policy.
From Stdlib Require Import Permutation.

(** ** Effects *)
Definition effectAllow : string := "allow".
Definition effectLogOnly : string := "log_only".
Definition effectRateLimit : string := "rate_limit".
Definition effectRequireApproval : string := "require_approval".
Definition effectDeny : string := "deny".

(** The map [effectSeverity]. *)
Definition effectSeverity (e : string) : option Z :=
  if bool_decide (e = effectAllow) then Some 0%Z
  else if bool_decide (e = effectLogOnly) then Some 1%Z
  else if bool_decide (e = effectRateLimit) then Some 2%Z
  else if bool_decide (e = effectRequireApproval) then Some 3%Z
  else if bool_decide (e = effectDeny) then Some 4%Z
  else None.

Definition parsePolicyEffect (action : string) : string * bool :=
  let effect := trim_space action in
  match effectSeverity effect with
  | Some _ => (effect, true)
  | None => (EmptyString, false)
  end.

Definition effectSeverityOf (effect : string) : Z :=
  from_option id int64_max (effectSeverity effect).

(** ** Matching *)
Definition containsFold (values : list string) (want : string) : bool :=
  let want := trim_space want in
  if bool_decide (want = EmptyString) then false
  else existsb (λ v, equal_fold (trim_space v) want) values.

Definition containsExact (values : list string) (want : string) : bool :=
  existsb (λ v, bool_decide (v = want)) values.

Definition containsProviderKind := containsExact.
Definition containsTrustClass := containsExact.
Definition containsCapabilityKind := containsExact.
Definition containsRuntimeFamily := containsExact.
Definition containsSessionScope := containsExact.
Definition containsSessionOperation := containsExact.

Definition containsCaseless (values : list string) (want : string) : bool :=
  existsb (λ v, equal_fold v want) values.

Definition containsExternalProvider := containsCaseless.
Definition containsSensitivityClass := containsCaseless.
Definition containsRouteMode := containsCaseless.

Definition containsEffectClass (values actual : list string) : bool :=
  existsb (λ v, existsb (λ c, bool_decide (c = v)) actual) values.

Definition riskRank (r : string) : Z :=
  if bool_decide (r = RiskClassReadOnly) then 1
  else if bool_decide (r = RiskClassSessioned) then 2
  else if bool_decide (r = RiskClassNetwork) then 3
  else if bool_decide (r = RiskClassExecute) then 4
  else if bool_decide (r = RiskClassCredentialed) then 5
  else if bool_decide (r = RiskClassExfiltration) then 6
  else if bool_decide (r = RiskClassDestructive) then 7
  else 0.

Definition matchesMinRiskClasses (minValues actual : list string) : bool :=
  existsb (λ m, existsb (λ a, (riskRank m <=? riskRank a)%Z) actual) minValues.

(** Go's [<] on strings. *)
Definition str_ltb (a b : string) : bool :=
  match String.compare a b with Lt => true | _ => false end.

Definition matchesTimeWindow (now : LocalTime) (w : TimeWindow) (ts : LocalTime) : bool :=
  let ts := if time_is_zero (lt_instant ts)
            then {| lt_instant := lt_instant now; lt_offset := 0 |} else ts in
  let current := format_clock (lt_instant ts) (lt_offset ts) in
  if negb (bool_decide (After w = EmptyString)) && str_ltb current (After w) then false
  else if negb (bool_decide (Before w = EmptyString)) && str_ltb (Before w) current then false
  else true.

Definition actor_matches (req : PolicyRequest) (actor : ActorMatch) : bool :=
  if negb (bool_decide (am_Kind actor = EmptyString)) &&
     negb (equal_fold (am_Kind actor) (actor_Kind (req_Actor req))) then false
  else if negb (bool_decide (am_IDs actor = [])) &&
          negb (containsFold (am_IDs actor) (actor_ID (req_Actor req))) then false
  else if am_Authenticated actor && negb (req_Authenticated req) then false
  else true.

Definition matchAnyActor (values : list ActorMatch) (req : PolicyRequest) : bool :=
  existsb (actor_matches req) values.

(** [len(l) > 0 && !ok] *)
Definition fails {A} (l : list A) (ok : bool) : bool :=
  match l with [] => false | _ => negb ok end.

(** [p != nil && got != *p] *)
Definition flag_fails (p : option bool) (got : bool) : bool :=
  match p with None => false | Some b => negb (Bool.eqb got b) end.

Definition ruleMatchesRequest (now : LocalTime) (rule : PolicyRule) (req : PolicyRequest) : bool :=
  let c := Conditions rule in
  if fails (c_Actors c) (matchAnyActor (c_Actors c) req) then false
  else if fails (c_Capabilities c)
      (containsFold (c_Capabilities c) (req_CapabilityID req) ||
       containsFold (c_Capabilities c) (req_CapabilityName req)) then false
  else if fails (c_ExportNames c) (containsFold (c_ExportNames c) (req_ExportName req)) then false
  else if fails (c_SourceDomains c) (containsFold (c_SourceDomains c) (req_SourceDomain req)) then false
  else if fails (c_ContextClasses c) (containsFold (c_ContextClasses c) (req_ContextClass req)) then false
  else if fails (c_SensitivityClasses c)
      (containsSensitivityClass (c_SensitivityClasses c) (req_SensitivityClass req)) then false
  else if fails (c_RouteModes c) (containsRouteMode (c_RouteModes c) (req_RouteMode req)) then false
  else if fails (c_ProviderKinds c) (containsProviderKind (c_ProviderKinds c) (req_ProviderKind req)) then false
  else if fails (c_ExternalProviders c)
      (containsExternalProvider (c_ExternalProviders c) (req_ExternalProvider req)) then false
  else if fails (c_TrustClasses c) (containsTrustClass (c_TrustClasses c) (req_TrustClass req)) then false
  else if fails (c_CapabilityKinds c)
      (containsCapabilityKind (c_CapabilityKinds c) (req_CapabilityKind req)) then false
  else if fails (c_RuntimeFamilies c)
      (containsRuntimeFamily (c_RuntimeFamilies c) (req_RuntimeFamily req)) then false
  else if fails (c_EffectClasses c) (containsEffectClass (c_EffectClasses c) (req_EffectClasses req)) then false
  else if fails (c_MinRiskClasses c)
      (matchesMinRiskClasses (c_MinRiskClasses c) (req_RiskClasses req)) then false
  else if fails (c_Partitions c) (containsFold (c_Partitions c) (req_Partition req)) then false
  else if fails (c_ChannelIDs c) (containsFold (c_ChannelIDs c) (req_ChannelID req)) then false
  else if fails (c_SessionScopes c)
      (containsSessionScope (c_SessionScopes c) (req_SessionScope req)) then false
  else if fails (c_SessionOperations c)
      (containsSessionOperation (c_SessionOperations c) (req_SessionOperation req)) then false
  else if flag_fails (c_RequireOwnership c) (req_IsOwner req) then false
  else if flag_fails (c_RequireDelegation c) (req_IsDelegated req) then false
  else if flag_fails (c_RequireExternalBinding c) (req_HasExternalBinding req) then false
  else if flag_fails (c_RequireResolvedExternal c) (req_ResolvedExternal req) then false
  else if flag_fails (c_RequireRestrictedExternal c) (req_RestrictedExternal req) then false
  else match c_TimeWindow c with
       | Some w => matchesTimeWindow now w (req_Timestamp req)
       | None => true
       end.

(** ** Evaluation *)
Record shadowedRule := { Winner : PolicyRule; Shadowed : PolicyRule }.

Definition rule_effect (r : PolicyRule) : string := (parsePolicyEffect (Action (rule_Effect r))).1.
Definition rule_severity (r : PolicyRule) : Z := effectSeverityOf (rule_effect r).

(** The test of the winner loop. *)
Definition beats (r winner : PolicyRule) : bool :=
  (rule_severity winner <? rule_severity r)%Z ||
  ((rule_severity r =? rule_severity winner)%Z && (rule_Priority winner <? rule_Priority r)%Z).

Fixpoint pick_winner (winner : PolicyRule) (rest : list PolicyRule) : PolicyRule :=
  match rest with
  | [] => winner
  | r :: rest' => pick_winner (if beats r winner then r else winner) rest'
  end.

Definition decisionForEffect (effect : string) (rule : option PolicyRule) : PolicyDecision :=
  let reason := from_option (λ r, eff_Reason (rule_Effect r)) EmptyString rule in
  if bool_decide (effect ∈ [effectAllow; effectLogOnly]) then
    {| dec_Effect := dec_Effect (PolicyDecisionAllow reason); dec_Rule := rule; dec_Reason := reason |}
  else if bool_decide (effect = effectDeny) then
    {| dec_Effect := dec_Effect (PolicyDecisionDeny reason); dec_Rule := rule; dec_Reason := reason |}
  else if bool_decide (effect ∈ [effectRequireApproval; effectRateLimit]) then
    PolicyDecisionRequireApproval rule
  else PolicyDecisionDeny ("unsupported effect " +:+ effect).

Definition candidate (now : LocalTime) (req : PolicyRequest) (r : PolicyRule) : Prop :=
  Enabled r = true ∧ ruleMatchesRequest now r req = true.

#[global] Instance candidate_dec now req r : Decision (candidate now req r).
Proof. unfold candidate. apply _. Defined.

Definition shadowed_by (winner : PolicyRule) (matches : list PolicyRule) : list shadowedRule :=
  (λ m, {| Winner := winner; Shadowed := m |}) <$>
    filter (λ m, rule_effect m = effectAllow ∧ (rule_severity m < rule_severity winner)%Z) matches.

Definition evaluateCompiledRules (now : LocalTime) (rules : list PolicyRule) (req : PolicyRequest)
    : option PolicyDecision * list shadowedRule :=
  match filter (candidate now req) rules with
  | [] => (None, [])
  | m :: rest =>
      let winner := pick_winner m rest in
      (Some (decisionForEffect (rule_effect winner) (Some winner)), shadowed_by winner (m :: rest))
  end.

Definition EvaluatePolicyRules (now : LocalTime) (rules : list PolicyRule) (req : PolicyRequest)
    : option PolicyDecision := (evaluateCompiledRules now rules req).1.

(** ** The lattice *)
Lemma rule_severity_cases r :
  (rule_effect r = effectAllow ∧ rule_severity r = 0%Z) ∨
  (rule_effect r = effectLogOnly ∧ rule_severity r = 1%Z) ∨
  (rule_effect r = effectRateLimit ∧ rule_severity r = 2%Z) ∨
  (rule_effect r = effectRequireApproval ∧ rule_severity r = 3%Z) ∨
  (rule_effect r = effectDeny ∧ rule_severity r = 4%Z) ∨
  (rule_effect r = EmptyString ∧ rule_severity r = int64_max).
Proof.
  unfold rule_severity. unfold rule_effect, parsePolicyEffect.
  set (e := trim_space _). destruct (effectSeverity e) as [z|] eqn:Hs; cbn [fst]; [|auto 10].
  unfold effectSeverityOf. rewrite Hs. cbn [from_option id]. revert Hs. unfold effectSeverity.
  clearbody e. repeat case_bool_decide; intros; simplify_eq; auto 10.
Qed.

(** The effect string of the decision is a function of the winning severity. *)
Definition severity_decision (sev : Z) : string :=
  if (sev <=? 1)%Z then "allow" else if (sev <=? 3)%Z then "require_approval" else "deny".

Lemma decision_of_severity r :
  dec_Effect (decisionForEffect (rule_effect r) (Some r)) = severity_decision (rule_severity r).
Proof.
  destruct (rule_severity_cases r) as [[-> ->]|[[-> ->]|[[-> ->]|[[-> ->]|[[-> ->]|[-> ->]]]]]];
    vm_compute; reflexivity.
Qed.

(** The vocabulary in terms of the severity. *)
Lemma severity_effect r :
  (rule_effect r ∉ [effectAllow; effectLogOnly; effectRateLimit; effectRequireApproval]
     ↔ (4 <= rule_severity r)%Z) ∧
  (rule_effect r ∈ [effectAllow; effectLogOnly] ↔ (rule_severity r <= 1)%Z).
Proof.
  destruct (rule_severity_cases r) as [[-> ->]|[[-> ->]|[[-> ->]|[[-> ->]|[[-> ->]|[-> ->]]]]]];
    split; rewrite ?elem_of_cons, ?elem_of_nil; unfold int64_max; split; intros H;
    try lia; naive_solver.
Qed.

(** [a] is at least as strong as [b]. *)
Definition rule_le (b a : PolicyRule) : Prop :=
  (rule_severity b < rule_severity a)%Z ∨
  (rule_severity b = rule_severity a ∧ (rule_Priority b <= rule_Priority a)%Z).

#[global] Instance rule_le_preorder : PreOrder rule_le.
Proof. split; unfold rule_le; intros ?**; lia. Qed.

Lemma beats_spec r w : beats r w = true ↔ ¬ rule_le r w.
Proof. unfold beats, rule_le. rewrite orb_true_iff, andb_true_iff, !Z.ltb_lt, Z.eqb_eq. lia. Qed.

(** The winner is maximal and the first of the maximal rules. *)
Lemma pick_winner_spec w rest :
  ∃ pre post, w :: rest = pre ++ pick_winner w rest :: post ∧
    (∀ r, r ∈ pre → rule_le r (pick_winner w rest) ∧ ¬ rule_le (pick_winner w rest) r) ∧
    (∀ r, r ∈ post → rule_le r (pick_winner w rest)).
Proof.
  revert w. induction rest as [|r rest IH]; intros w; cbn [pick_winner].
  { exists [], []. split_and!; [done|..]; intros r Hr; by apply elem_of_nil in Hr. }
  destruct (beats r w) eqn:Hb.
  - apply beats_spec in Hb. destruct (IH r) as (pre & post & Heq & Hpre & Hpost).
    revert Heq Hpre Hpost. generalize (pick_winner r rest) as x. intros x Heq Hpre Hpost.
    assert (rule_le r x) as Hrx.
    { destruct pre as [|p pre]; simplify_eq/=; [reflexivity|]. apply Hpre. by left. }
    exists (w :: pre), post. rewrite Heq. split_and!; [done| |done].
    intros q [->|Hq]%elem_of_cons; [|auto]. revert Hb Hrx. unfold rule_le. lia.
  - apply not_true_iff_false in Hb. rewrite beats_spec in Hb.
    assert (rule_le r w) as Hrw by (revert Hb; unfold rule_le; lia).
    destruct (IH w) as (pre & post & Heq & Hpre & Hpost).
    revert Heq Hpre Hpost. generalize (pick_winner w rest) as x. intros x Heq Hpre Hpost.
    destruct pre as [|p pre]; simplify_eq/=.
    + exists [], (r :: post). split_and!; [done|intros q Hq; by apply elem_of_nil in Hq|].
      intros q [->|Hq]%elem_of_cons; auto.
    + exists (p :: r :: pre), post. split_and!; [done| |done].
      destruct (Hpre p) as [Hp Hp']; [by left|].
      intros q [->|[->|Hq]%elem_of_cons]%elem_of_cons; [auto| |apply Hpre; by right].
      split; [by etrans|]. intros Hq. apply Hp'. by etrans.
Qed.

Lemma evaluate_cases now rules req :
  (filter (candidate now req) rules = [] ∧ evaluateCompiledRules now rules req = (None, [])) ∨
  ∃ w, w ∈ rules ∧ candidate now req w ∧
    (∀ r, r ∈ rules → candidate now req r → rule_le r w) ∧
    evaluateCompiledRules now rules req =
      (Some (decisionForEffect (rule_effect w) (Some w)),
       shadowed_by w (filter (candidate now req) rules)).
Proof.
  unfold evaluateCompiledRules. destruct (filter (candidate now req) rules) as [|m rest] eqn:Hf; [auto|].
  right. destruct (pick_winner_spec m rest) as (pre & post & Heq & Hpre & Hpost).
  set (w := pick_winner m rest) in *. exists w.
  assert (w ∈ filter (candidate now req) rules) as [Hc Hin]%list_elem_of_filter.
  { rewrite Hf, Heq. set_solver. }
  split_and!; [done..| |done]. intros r Hr Hcr.
  assert (r ∈ pre ++ w :: post) as Hr'.
  { rewrite <- Heq, <- Hf. by apply list_elem_of_filter. }
  apply elem_of_app in Hr' as [Hr'|[->|Hr']%elem_of_cons]; [by apply Hpre|reflexivity|auto].
Qed.

(** C1: The decision is the deny-wins join of the enabled matching rules, whatever
    their order and priorities.  No decision means that none matches.  Otherwise
    the request is denied exactly when some matching rule denies or has an effect
    outside the vocabulary, allowed exactly when every matching rule allows or only
    logs, and routed to approval in between. *)
Theorem deny_wins now rules req :
  match (evaluateCompiledRules now rules req).1 with
  | None => ∀ r, r ∈ rules → ¬ candidate now req r
  | Some d =>
      (dec_Effect d = "deny" ↔ ∃ r, r ∈ rules ∧ candidate now req r ∧
         rule_effect r ∉ [effectAllow; effectLogOnly; effectRateLimit; effectRequireApproval]) ∧
      (dec_Effect d = "allow" ↔ ∀ r, r ∈ rules → candidate now req r →
         rule_effect r ∈ [effectAllow; effectLogOnly]) ∧
      dec_Effect d ∈ ["allow"; "require_approval"; "deny"]
  end.
Proof.
  destruct (evaluate_cases now rules req) as [[Hf ->]|(w & Hw & Hc & Hmax & ->)]; cbn [fst].
  { intros r Hr Hc. assert (r ∈ filter (candidate now req) rules) as Hin
      by by apply list_elem_of_filter. rewrite Hf in Hin. by apply elem_of_nil in Hin. }
  rewrite decision_of_severity.
  pose proof severity_effect as Hsev.
  assert (∀ r, r ∈ rules → candidate now req r → (rule_severity r <= rule_severity w)%Z) as Hle
    by (intros r Hr Hcr; specialize (Hmax r Hr Hcr); unfold rule_le in Hmax; lia).
  unfold severity_decision.
  destruct (Z.leb_spec (rule_severity w) 1); [|destruct (Z.leb_spec (rule_severity w) 3)].
  all: split_and!; [split| |set_solver]; [..|split].
  all: try done.
  all: intros H'; try (destruct H' as (r & Hr & Hcr & He); apply Hsev in He; specialize (Hle r Hr Hcr); lia).
  all: try (specialize (H' w Hw Hc); apply Hsev in H'; lia).
  - intros r Hr Hcr. apply Hsev. specialize (Hle r Hr Hcr). lia.
  - exists w. split_and!; [done..|]. apply Hsev. lia.
Qed.

Lemma severity_decision_mono w w' now req rules rules' :
  Permutation rules rules' → w ∈ rules → candidate now req w → w' ∈ rules' → candidate now req w' →
  (∀ r, r ∈ rules → candidate now req r → rule_le r w) →
  (∀ r, r ∈ rules' → candidate now req r → rule_le r w') →
  rule_severity w = rule_severity w' ∧ rule_Priority w = rule_Priority w'.
Proof.
  intros Hp Hw Hc Hw' Hc' Hm Hm'.
  assert (rule_le w' w) as H1 by (apply Hm; [by rewrite Hp|done]).
  assert (rule_le w w') as H2 by (apply Hm'; [by rewrite <- Hp|done]).
  unfold rule_le in *. lia.
Qed.

(** Evaluation does not depend on the order of the rules. *)
Lemma evaluate_effect_perm now rules rules' req :
  rules ≡ₚ rules' →
  dec_Effect <$> EvaluatePolicyRules now rules req = dec_Effect <$> EvaluatePolicyRules now rules' req.
Proof.
  intros Hp. unfold EvaluatePolicyRules.
  destruct (evaluate_cases now rules req) as [[Hf ->]|(w & Hw & Hc & Hm & ->)];
  destruct (evaluate_cases now rules' req) as [[Hf' ->]|(w' & Hw' & Hc' & Hm' & ->)]; cbn [fst]; [done|..].
  - assert (w' ∈ filter (candidate now req) rules) as Hin by (apply list_elem_of_filter; by rewrite Hp).
    rewrite Hf in Hin. by apply elem_of_nil in Hin.
  - assert (w ∈ filter (candidate now req) rules') as Hin by (apply list_elem_of_filter; by rewrite <- Hp).
    rewrite Hf' in Hin. by apply elem_of_nil in Hin.
  - cbn. rewrite !decision_of_severity.
    by destruct (severity_decision_mono w w' now req rules rules') as [-> _].
Qed.

(** Ties are broken by priority, then by list position: the decision carries the
    first rule, in list order, among the strongest matching rules of highest
    priority; the reported conflicts are exactly the matching allow rules when a
    stronger rule won. *)
Theorem winner_tiebreak now rules req d shadowed :
  evaluateCompiledRules now rules req = (Some d, shadowed) →
  ∃ pre w post, filter (candidate now req) rules = pre ++ w :: post ∧
    d = decisionForEffect (rule_effect w) (Some w) ∧
    (∀ r, r ∈ pre → rule_le r w ∧ ¬ rule_le w r) ∧ (∀ r, r ∈ post → rule_le r w) ∧
    (∀ s, s ∈ shadowed ↔ Winner s = w ∧ Shadowed s ∈ rules ∧ candidate now req (Shadowed s) ∧
       rule_effect (Shadowed s) = effectAllow ∧ rule_effect w ≠ effectAllow).
Proof.
  unfold evaluateCompiledRules. destruct (filter (candidate now req) rules) as [|m rest] eqn:Hf; [done|].
  destruct (pick_winner_spec m rest) as (pre & post & Heq & Hpre & Hpost).
  revert Heq Hpre Hpost. generalize (pick_winner m rest) as w. intros w Heq Hpre Hpost [= <- <-].
  exists pre, w, post. split_and!; [done..|]. intros s. unfold shadowed_by.
  rewrite <- Hf. rewrite list_elem_of_fmap. setoid_rewrite list_elem_of_filter.
  setoid_rewrite list_elem_of_filter.
  assert (∀ r, rule_effect r = effectAllow →
    (rule_severity r < rule_severity w)%Z ↔ rule_effect w ≠ effectAllow) as Hlt.
  { intros r Hr. assert (rule_severity r = 0)%Z as -> by (unfold rule_severity; by rewrite Hr).
    destruct (rule_severity_cases w) as [[-> ->]|[[-> ->]|[[-> ->]|[[-> ->]|[[-> ->]|[-> ->]]]]]];
      unfold int64_max; split; intros; try lia; done. }
  split.
  - intros (r & -> & (He & Hs) & Hc & Hr). cbn. split_and!; [done..|by apply (Hlt r)].
  - intros (<- & Hr & Hc & He & Hw). exists (Shadowed s). split; [by destruct s|].
    split_and!; [done|by apply Hlt|done..].
Qed.

(** ** Time windows *)
Definition minute_of_day (ts : LocalTime) : Z :=
  ((lt_instant ts + lt_offset ts) mod (24 * hour)) / minute.

Lemma str_ltb_clock h mi h' mi' :
  (0 <= h < 24)%Z → (0 <= mi < 60)%Z → (0 <= h' < 24)%Z → (0 <= mi' < 60)%Z →
  str_ltb (clock_string h mi) (clock_string h' mi') = (60 * h + mi <? 60 * h' + mi')%Z.
Proof. intros. unfold str_ltb. rewrite clock_compare by done. done. Qed.

Lemma clock_string_nonempty h mi : clock_string h mi ≠ EmptyString.
Proof. by intros ?%(f_equal String.length). Qed.

(** With two-digit bounds a window admits exactly the timestamps whose local
    minute of the day lies between them, both ends included; in particular a
    window whose start is after its end (an overnight window) admits none. *)
Theorem time_window_spec now w ts h mi h' mi' :
  After w = clock_string h mi → Before w = clock_string h' mi' →
  (0 <= h < 24)%Z → (0 <= mi < 60)%Z → (0 <= h' < 24)%Z → (0 <= mi' < 60)%Z →
  time_is_zero (lt_instant ts) = false →
  matchesTimeWindow now w ts = true ↔
    (60 * h + mi <= minute_of_day ts <= 60 * h' + mi')%Z.
Proof.
  intros Ha Hb ? ? ? ? Hz. unfold matchesTimeWindow. rewrite Hz, Ha, Hb.
  rewrite !bool_decide_false by apply clock_string_nonempty. cbn [negb andb].
  destruct (format_clock_range (lt_instant ts) (lt_offset ts)) as (ch & cm & -> & ? & ? & Heq).
  rewrite !str_ltb_clock by done. unfold minute_of_day. rewrite <- Heq.
  destruct (Z.ltb_spec (60 * ch + cm) (60 * h + mi)); [split; [done|lia]|].
  destruct (Z.ltb_spec (60 * h' + mi') (60 * ch + cm)); [split; [done|lia]|].
  split; [lia|done].
Qed.

(** A clock written with a one-digit hour. *)
Definition short_clock (d mi : Z) : string := String (digit d) (":" +:+ fixdigits 2 mi).

Lemma short_clock_valid d mi :
  (3 <= d <= 9)%Z → (0 <= mi < 60)%Z →
  is_blank (short_clock d mi) = false ∧ parse_clock (short_clock d mi) = Some (d, mi).
Proof.
  intros Hd Hmi.
  assert (Forall (λ d, Forall (λ mi, is_blank (short_clock d mi) = false ∧
    parse_clock (short_clock d mi) = Some (d, mi)) (seqZ 0 60)) (seqZ 3 7)) as Hall
    by (apply (bool_decide_unpack _); vm_compute; exact I).
  rewrite Forall_forall in Hall. specialize (Hall d). rewrite elem_of_seqZ, Forall_forall in Hall.
  specialize (Hall ltac:(lia) mi). rewrite elem_of_seqZ in Hall. apply Hall. lia.
Qed.

Lemma clock_before_short h cm d mi :
  (0 <= h < 24)%Z → (3 <= d <= 9)%Z → str_ltb (clock_string h cm) (short_clock d mi) = true.
Proof.
  intros Hh Hd. unfold str_ltb, clock_string, short_clock. cbn [fixdigits].
  rewrite !str_app_nil_l, !str_app_cons. cbn [String.compare].
  assert (0 <= h / 10 < 3)%Z by (split; [apply Z.div_pos; lia|apply Z.div_lt_upper_bound; lia]).
  rewrite (Z.mod_small (h / 10) 10) by lia. rewrite digit_compare by lia.
  by rewrite (proj2 (Z.compare_lt_iff (h / 10) d)) by lia.
Qed.

(** A start time written with a one-digit hour from 3 to 9 (["9:30"]) passes
    validation, but the lexicographic comparison places every clock reading before
    it: the rule never applies. *)
Theorem one_digit_hour_never_matches now w ts d mi :
  (3 <= d <= 9)%Z → (0 <= mi < 60)%Z → Before w = EmptyString → After w = short_clock d mi →
  TimeWindow_Validate w = None ∧ matchesTimeWindow now w ts = false.
Proof.
  intros Hd Hmi Hb Ha. destruct (short_clock_valid d mi Hd Hmi) as [Hbl Hp]. split.
  - unfold TimeWindow_Validate. rewrite Hb, Ha, Hbl, Hp.
    rewrite (bool_decide_false (Some (d, mi) = None)), andb_false_r by done. done.
  - unfold matchesTimeWindow. rewrite Ha. set (t := if time_is_zero _ then _ else _).
    destruct (format_clock_range (lt_instant t) (lt_offset t)) as (h & cm & -> & Hh & _ & _).
    by rewrite clock_before_short by done.
Qed.
