(* ===== verification/PolicyCompile.v ===== *)
(** * PolicyCompile

    Compilation of an agent spec's policies into rules:
    [governance/policy/session_policy_types.go] and
    [governance/authorization/policy_compile.go].

    The spec is read through the interface [ports.PolicyInput] ([PolicyInput]): a
    Go map is the list of its bindings in the order one iteration yields them, so
    the theorems quantify over all iteration orders. *)
From S2P Require Import Prelude GoStrings GoTime Policy PolicyMatch.
From stdpp Require Import pretty.
From Stdlib Require Import Permutation.

(** [fmt.Sprintf("%d", z)] *)
Definition fmt_d (z : Z) : string := pretty z.

(** ** Session policies ([policy/session_policy_types.go]) *)
Definition SessionScopeMain : string := "main".
Definition SessionScopePerChannelPeer : string := "per-channel-peer".
Definition SessionScopePerThread : string := "per-thread".
Definition session_scopes := [SessionScopeMain; SessionScopePerChannelPeer; SessionScopePerThread].
Definition session_operations : list string :=
  ["attach"; "send"; "invoke"; "resume"; "inspect"; "close"].

Record SessionSelector := {
  ss_Partitions : list string;
  ss_ChannelIDs : list string;
  ss_Scopes : list string;
  ss_TrustClasses : list string;
  ss_Operations : list string;
  ss_ActorKinds : list string;
  ss_ActorIDs : list string;
  ss_ExternalProviders : list string;
  ss_RequireOwnership : option bool;
  ss_RequireDelegation : option bool;
  ss_RequireExternalBinding : option bool;
  ss_RequireResolvedExternal : option bool;
  ss_RequireRestrictedExternal : option bool;
  ss_AuthenticatedOnly : option bool
}.

Record SessionPolicy := {
  sp_ID : string;
  sp_Name : string;
  sp_Priority : Z;
  sp_Enabled : bool;
  sp_Selector : SessionSelector;
  sp_Effect : string;
  sp_Approvers : list string;
  sp_ApprovalTTL : string;
  sp_Reason : string
}.

Definition selector_empty (s : SessionSelector) : bool :=
  bool_decide (ss_Partitions s = []) && bool_decide (ss_ChannelIDs s = []) &&
  bool_decide (ss_Scopes s = []) && bool_decide (ss_TrustClasses s = []) &&
  bool_decide (ss_Operations s = []) && bool_decide (ss_ActorKinds s = []) &&
  bool_decide (ss_ActorIDs s = []) && bool_decide (ss_ExternalProviders s = []) &&
  bool_decide (ss_RequireOwnership s = None) && bool_decide (ss_RequireDelegation s = None) &&
  bool_decide (ss_RequireExternalBinding s = None) &&
  bool_decide (ss_RequireResolvedExternal s = None) &&
  bool_decide (ss_RequireRestrictedExternal s = None) && bool_decide (ss_AuthenticatedOnly s = None).

Definition all_in (allowed values : list string) (msg : string) : option gerror :=
  first_error ((λ v, check (negb (bool_decide (v ∈ allowed))) (ErrFmt msg [v])) <$> values).

Definition ValidateSessionSelector (s : SessionSelector) : option gerror :=
  first_error [
    check (selector_empty s) (ErrMsg "at least one selector field required");
    none_blank (ss_Partitions s) "partitions contains empty partition";
    none_blank (ss_ChannelIDs s) "channel_ids contains empty channel id";
    all_in session_scopes (ss_Scopes s) "scope %s invalid";
    none_blank (ss_TrustClasses s) "trust_classes contains empty trust class";
    all_in session_operations (ss_Operations s) "operation %s invalid";
    none_blank (ss_ActorKinds s) "actor_kinds contains empty actor kind";
    none_blank (ss_ActorIDs s) "actor_ids contains empty actor id";
    none_blank (ss_ExternalProviders s) "session selector external provider must not be empty"].

Definition ValidateSessionPolicy (p : SessionPolicy) : option gerror :=
  first_error [
    check (is_blank (sp_ID p)) (ErrMsg "id required");
    check (is_blank (sp_Name p)) (ErrMsg "name required");
    ErrWrap "selector invalid" <$> ValidateSessionSelector (sp_Selector p);
    check (negb (bool_decide (sp_Effect p ∈ ["allow"; "ask"; "deny"])))
      (ErrFmt "effect=%s invalid" [sp_Effect p]);
    none_blank (sp_Approvers p) "approvers contains empty approver";
    check (negb (bool_decide (sp_ApprovalTTL p = EmptyString)) &&
           bool_decide (ParseDuration (sp_ApprovalTTL p) = None))
      (ErrWrap "approval_ttl invalid" (ErrMsg "time: invalid duration"))].

(** ** The spec ([ports/descriptor.go]) *)
Record CapabilitySelectorView := {
  cs_ID : string;
  cs_Name : string;
  cs_Kind : string;
  cs_RuntimeFamilies : list string;
  cs_Tags : list string;
  cs_ExcludeTags : list string;
  cs_SourceScopes : list string;
  cs_TrustClasses : list string;
  cs_RiskClasses : list string;
  cs_EffectClasses : list string;
  cs_CoordinationTaskTypes : list string;
  cs_CoordinationRoles : list string;
  cs_CoordinationExecModes : list string;
  cs_CoordinationLongRunning : Z;
  cs_CoordinationDirectInsertion : Z
}.

Record CapabilityPolicyView := { cp_Selector : CapabilitySelectorView; cp_Execute : string }.

(** [ports.PolicyInput]; [ToolPolicyView] and [ProviderPolicyView] by the one
    field compilation reads ([Execute], [Activate]). *)
Record PolicyInput := {
  GetToolExecutionPolicy : list (string * string);
  GetCapabilityPolicies : list CapabilityPolicyView;
  GetProviderPolicies : list (string * string);
  GetSessionPolicies : list SessionPolicy;
  GetGlobalPolicies : list (string * string)
}.

(** ** Compilation *)
Definition policyPriorityGlobal : Z := 100.
Definition policyPriorityTool : Z := 300.
Definition policyPrioritySession : Z := 400.
Definition policyPriorityProvider : Z := 500.

Definition permissionLevelToAction (level : string) : string :=
  match ParseDecision level with
  | Err _ => "require_approval"
  | Ok d =>
      if bool_decide (d = DecisionAllow) then DecisionAllow
      else if bool_decide (d = DecisionDeny) then DecisionDeny
      else "require_approval"
  end.

Definition permissionLevelToEffect (level reason : string) : PolicyEffect :=
  {| Action := permissionLevelToAction level; Approvers := []; ApprovalTTL := EmptyString;
     eff_RateLimit := None; eff_Reason := reason |}.

Definition compileToolExecutionPolicy (toolName execute : string) : option PolicyRule :=
  if is_blank toolName || bool_decide (execute = EmptyString) then None
  else Some {|
    rule_ID := "tool:" +:+ toolName;
    rule_Name := "Tool policy for " +:+ toolName;
    rule_Priority := policyPriorityTool;
    Enabled := true;
    Conditions := {|
      c_Actors := []; c_Capabilities := [toolName]; c_ExportNames := []; c_SourceDomains := [];
      c_ContextClasses := []; c_SensitivityClasses := []; c_RouteModes := []; c_ProviderKinds := [];
      c_ExternalProviders := []; c_MinRiskClasses := []; c_TrustClasses := [];
      c_CapabilityKinds := ["tool"]; c_RuntimeFamilies := ["local-tool"]; c_EffectClasses := [];
      c_Partitions := []; c_ChannelIDs := []; c_SessionScopes := []; c_SessionOperations := [];
      c_RequireOwnership := None; c_RequireDelegation := None; c_RequireExternalBinding := None;
      c_RequireResolvedExternal := None; c_RequireRestrictedExternal := None; c_TimeWindow := None |};
    rule_Effect := permissionLevelToEffect execute EmptyString |}.

Definition toRiskClasses (values : list string) : list string := NormalizeClassString <$> values.
Definition toEffectClasses (values : list string) : list string := NormalizeClassString <$> values.

Definition compileCapabilitySelector (s : CapabilitySelectorView) : result PolicyConditions :=
  if negb (bool_decide (cs_ExcludeTags s = [])) || negb (bool_decide (cs_Tags s = [])) ||
     negb (bool_decide (cs_SourceScopes s = [])) || negb (bool_decide (cs_CoordinationRoles s = [])) ||
     negb (bool_decide (cs_CoordinationTaskTypes s = [])) ||
     negb (bool_decide (cs_CoordinationExecModes s = [])) ||
     negb (cs_CoordinationLongRunning s =? 0)%Z || negb (cs_CoordinationDirectInsertion s =? 0)%Z
  then Err (ErrMsg "selector fields require descriptor-time evaluation")
  else Ok {|
    c_Actors := [];
    c_Capabilities := (if bool_decide (cs_ID s = EmptyString) then [] else [cs_ID s]) ++
                      (if bool_decide (cs_Name s = EmptyString) then [] else [cs_Name s]);
    c_ExportNames := []; c_SourceDomains := []; c_ContextClasses := []; c_SensitivityClasses := [];
    c_RouteModes := []; c_ProviderKinds := []; c_ExternalProviders := [];
    c_MinRiskClasses := toRiskClasses (cs_RiskClasses s);
    c_TrustClasses := cs_TrustClasses s;
    c_CapabilityKinds := (if bool_decide (cs_Kind s = EmptyString) then [] else [cs_Kind s]);
    c_RuntimeFamilies := cs_RuntimeFamilies s;
    c_EffectClasses := toEffectClasses (cs_EffectClasses s);
    c_Partitions := []; c_ChannelIDs := []; c_SessionScopes := []; c_SessionOperations := [];
    c_RequireOwnership := None; c_RequireDelegation := None; c_RequireExternalBinding := None;
    c_RequireResolvedExternal := None; c_RequireRestrictedExternal := None; c_TimeWindow := None |}.

Definition compileCapabilityPolicy (index : Z) (p : CapabilityPolicyView) : result PolicyRule :=
  match compileCapabilitySelector (cp_Selector p) with
  | Err e => Err (ErrWrap ("capability_policies[" +:+ fmt_d index +:+ "] unsupported selector") e)
  | Ok conditions => Ok {|
      rule_ID := "capability-policy:" +:+ fmt_d index;
      rule_Name := "Capability policy " +:+ fmt_d index;
      rule_Priority := wrap64 (policyPriorityTool + index);
      Enabled := true;
      Conditions := conditions;
      rule_Effect := permissionLevelToEffect (cp_Execute p) EmptyString |}
  end.

Definition compileProviderPolicy (providerID activate : string) : option PolicyRule :=
  if is_blank providerID || bool_decide (activate = EmptyString) then None
  else Some {|
    rule_ID := "provider:" +:+ providerID +:+ ":activate";
    rule_Name := "Provider activation policy for " +:+ providerID;
    rule_Priority := policyPriorityProvider;
    Enabled := true;
    Conditions := {|
      c_Actors := []; c_Capabilities := ["provider:" +:+ providerID +:+ ":activate"];
      c_ExportNames := []; c_SourceDomains := []; c_ContextClasses := []; c_SensitivityClasses := [];
      c_RouteModes := []; c_ProviderKinds := []; c_ExternalProviders := []; c_MinRiskClasses := [];
      c_TrustClasses := []; c_CapabilityKinds := []; c_RuntimeFamilies := []; c_EffectClasses := [];
      c_Partitions := []; c_ChannelIDs := []; c_SessionScopes := []; c_SessionOperations := [];
      c_RequireOwnership := None; c_RequireDelegation := None; c_RequireExternalBinding := None;
      c_RequireResolvedExternal := None; c_RequireRestrictedExternal := None; c_TimeWindow := None |};
    rule_Effect := permissionLevelToEffect activate EmptyString |}.

Definition session_actors (s : SessionSelector) : list ActorMatch :=
  if negb (bool_decide (ss_ActorKinds s = [])) || negb (bool_decide (ss_ActorIDs s = [])) ||
     negb (bool_decide (ss_AuthenticatedOnly s = None))
  then [{| am_Kind := from_option id EmptyString (head (ss_ActorKinds s));
           am_IDs := ss_ActorIDs s;
           am_Authenticated := from_option id false (ss_AuthenticatedOnly s) |}]
  else [].

Definition compileSessionPolicy (p : SessionPolicy) : result PolicyRule :=
  match ValidateSessionPolicy p with
  | Some e => Err e
  | None =>
      let s := sp_Selector p in
      Ok {|
        rule_ID := sp_ID p;
        rule_Name := sp_Name p;
        rule_Priority := wrap64 (policyPrioritySession + sp_Priority p);
        Enabled := sp_Enabled p;
        Conditions := {|
          c_Actors := session_actors s; c_Capabilities := []; c_ExportNames := [];
          c_SourceDomains := []; c_ContextClasses := []; c_SensitivityClasses := [];
          c_RouteModes := []; c_ProviderKinds := []; c_ExternalProviders := ss_ExternalProviders s;
          c_MinRiskClasses := []; c_TrustClasses := ss_TrustClasses s; c_CapabilityKinds := [];
          c_RuntimeFamilies := []; c_EffectClasses := []; c_Partitions := ss_Partitions s;
          c_ChannelIDs := ss_ChannelIDs s; c_SessionScopes := ss_Scopes s;
          c_SessionOperations := ss_Operations s; c_RequireOwnership := ss_RequireOwnership s;
          c_RequireDelegation := ss_RequireDelegation s;
          c_RequireExternalBinding := ss_RequireExternalBinding s;
          c_RequireResolvedExternal := ss_RequireResolvedExternal s;
          c_RequireRestrictedExternal := ss_RequireRestrictedExternal s; c_TimeWindow := None |};
        rule_Effect := {| Action := permissionLevelToAction (sp_Effect p); Approvers := sp_Approvers p;
          ApprovalTTL := sp_ApprovalTTL p; eff_RateLimit := None; eff_Reason := sp_Reason p |} |}
  end.

(** The four families of global policy keys. *)
Definition global_trust_keys : list string :=
  ["builtin-trusted"; "workspace-trusted"; "provider-local-untrusted"; "remote-declared-untrusted";
   "remote-approved"].
Definition global_risk_keys : list string :=
  [RiskClassReadOnly; RiskClassDestructive; RiskClassExecute; RiskClassNetwork;
   RiskClassCredentialed; RiskClassExfiltration; RiskClassSessioned].
Definition global_runtime_keys : list string := ["local-tool"; "provider"; "relurpic"].
Definition global_effect_keys : list string :=
  [EffectClassFilesystemMutation; EffectClassProcessSpawn; EffectClassNetworkEgress;
   EffectClassCredentialUse; EffectClassExternalState; EffectClassSessionCreation;
   EffectClassContextInsertion].

(** A rule's conditions with only trust, risk, runtime-family and effect lists. *)
Definition class_conditions (trust risks families effects : list string) : PolicyConditions :=
  {| c_Actors := []; c_Capabilities := []; c_ExportNames := []; c_SourceDomains := [];
     c_ContextClasses := []; c_SensitivityClasses := []; c_RouteModes := []; c_ProviderKinds := [];
     c_ExternalProviders := []; c_MinRiskClasses := risks; c_TrustClasses := trust;
     c_CapabilityKinds := []; c_RuntimeFamilies := families; c_EffectClasses := effects;
     c_Partitions := []; c_ChannelIDs := []; c_SessionScopes := []; c_SessionOperations := [];
     c_RequireOwnership := None; c_RequireDelegation := None; c_RequireExternalBinding := None;
     c_RequireResolvedExternal := None; c_RequireRestrictedExternal := None; c_TimeWindow := None |}.

Definition compileGlobalPolicy (key level : string) : result PolicyRule :=
  let key := trim_space (to_lower key) in
  if bool_decide (key = EmptyString) || bool_decide (key = "default_tool_policy") ||
     bool_decide (level = EmptyString)
  then Err (ErrMsg "invalid global policy key or level")
  else
    let rule conditions :=
      {| rule_ID := "global:" +:+ key; rule_Name := "Global policy for " +:+ key;
         rule_Priority := policyPriorityGlobal; Enabled := true; Conditions := conditions;
         rule_Effect := permissionLevelToEffect level EmptyString |} in
    if bool_decide (key ∈ global_trust_keys) then Ok (rule (class_conditions [key] [] [] []))
    else if bool_decide (key ∈ global_risk_keys)
    then Ok (rule (class_conditions [] [NormalizeClassString key] [] []))
    else if bool_decide (key ∈ global_runtime_keys) then Ok (rule (class_conditions [] [] [key] []))
    else if bool_decide (key ∈ global_effect_keys)
    then Ok (rule (class_conditions [] [] [] [NormalizeClassString key]))
    else Err (ErrFmt "unsupported global policy class %q" [key]).

(** Loops that stop at the first error. *)
Fixpoint compile_all {A} (f : A → result PolicyRule) (l : list A) : result (list PolicyRule) :=
  match l with
  | [] => Ok []
  | x :: l' => let! r := f x in let! rs := compile_all f l' in Ok (r :: rs)
  end.

Fixpoint compile_caps (i : Z) (l : list CapabilityPolicyView) : result (list PolicyRule) :=
  match l with
  | [] => Ok []
  | x :: l' =>
      let! r := compileCapabilityPolicy i x in let! rs := compile_caps (i + 1) l' in Ok (r :: rs)
  end.

Definition rule_less (a b : PolicyRule) : bool :=
  if (rule_Priority a =? rule_Priority b)%Z then str_ltb (rule_ID a) (rule_ID b)
  else (rule_Priority b <? rule_Priority a)%Z.

(** [sort.SliceStable] under [rule_less], as a stable insertion sort. *)
Fixpoint insert_rule (r : PolicyRule) (l : list PolicyRule) : list PolicyRule :=
  match l with
  | [] => [r]
  | x :: l' => if rule_less x r then x :: insert_rule r l' else r :: x :: l'
  end.

Definition sort_rules (l : list PolicyRule) : list PolicyRule := foldr insert_rule [] l.

Definition CompileAgentSpecPolicyRules (spec : option PolicyInput) : result (list PolicyRule) :=
  match spec with
  | None => Ok []
  | Some spec =>
      let tools := omap (λ kv, compileToolExecutionPolicy kv.1 kv.2) (GetToolExecutionPolicy spec) in
      let! caps := compile_caps 0 (GetCapabilityPolicies spec) in
      let providers := omap (λ kv, compileProviderPolicy kv.1 kv.2) (GetProviderPolicies spec) in
      let! sessions := compile_all compileSessionPolicy (GetSessionPolicies spec) in
      let! globals := compile_all (λ kv : string * string, compileGlobalPolicy kv.1 kv.2)
                        (GetGlobalPolicies spec) in
      Ok (sort_rules (tools ++ caps ++ providers ++ sessions ++ globals))
  end.

(** ** The sort *)
Lemma str_compare_lt_trans a b c :
  String.compare a b = Lt → String.compare b c = Lt → String.compare a c = Lt.
Proof.
  revert b c. induction a as [|x a IH]; intros [|y b] [|z c]; cbn [String.compare]; try done.
  unfold Ascii.compare.
  destruct (N.compare_spec (N_of_ascii x) (N_of_ascii y)) as [Hxy|Hxy|Hxy]; [| |done];
  destruct (N.compare_spec (N_of_ascii y) (N_of_ascii z)) as [Hyz|Hyz|Hyz]; try done; intros H1 H2.
  - rewrite Hxy, Hyz, N.compare_refl. eauto.
  - rewrite Hxy. by rewrite (proj2 (N.compare_lt_iff _ _) Hyz).
  - rewrite <- Hyz. by rewrite (proj2 (N.compare_lt_iff _ _) Hxy).
  - by rewrite (proj2 (N.compare_lt_iff (N_of_ascii x) (N_of_ascii z))) by lia.
Qed.

(** [a] may stand before [b] in the sorted list. *)
Definition rule_before (a b : PolicyRule) : Prop := rule_less b a = false.

Lemma rule_before_trans a b c : rule_before a b → rule_before b c → rule_before a c.
Proof.
  unfold rule_before, rule_less. intros H1 H2.
  destruct (Z.eqb_spec (rule_Priority b) (rule_Priority a)) as [E1|E1];
  destruct (Z.eqb_spec (rule_Priority c) (rule_Priority b)) as [E2|E2];
  destruct (Z.eqb_spec (rule_Priority c) (rule_Priority a)) as [E3|E3]; bool_to_prop; try lia;
    try (apply Z.ltb_ge; lia).
  revert H1 H2. unfold str_ltb.
  rewrite (String.compare_antisym (rule_ID b) (rule_ID a)).
  rewrite (String.compare_antisym (rule_ID c) (rule_ID b)).
  rewrite (String.compare_antisym (rule_ID c) (rule_ID a)).
  destruct (String.compare (rule_ID a) (rule_ID b)) eqn:Hab; [| |done];
  destruct (String.compare (rule_ID b) (rule_ID c)) eqn:Hbc; try done; intros _ _.
  - apply String.compare_eq_iff in Hab, Hbc. by rewrite Hab, Hbc, str_compare_refl.
  - apply String.compare_eq_iff in Hab. by rewrite Hab, Hbc.
  - apply String.compare_eq_iff in Hbc. by rewrite <- Hbc, Hab.
  - by rewrite (str_compare_lt_trans _ _ _ Hab Hbc).
Qed.

Lemma rule_less_before x r : rule_less x r = true → rule_before x r.
Proof.
  unfold rule_before, rule_less.
  destruct (Z.eqb_spec (rule_Priority x) (rule_Priority r)) as [->|Hne].
  - rewrite Z.eqb_refl. unfold str_ltb. rewrite (String.compare_antisym (rule_ID r)).
    by destruct (String.compare (rule_ID x) (rule_ID r)).
  - rewrite (proj2 (Z.eqb_neq (rule_Priority r) _)) by congruence.
    intros ?%Z.ltb_lt. apply Z.ltb_ge. lia.
Qed.

Lemma insert_rule_perm r l : insert_rule r l ≡ₚ r :: l.
Proof.
  induction l as [|x l IH]; cbn [insert_rule]; [done|].
  destruct (rule_less x r); [|done]. rewrite IH. apply perm_swap.
Qed.

Lemma sort_rules_perm l : sort_rules l ≡ₚ l.
Proof. induction l as [|r l IH]; [done|]. cbn. rewrite insert_rule_perm. by f_equiv. Qed.

Lemma insert_rule_sorted r l :
  StronglySorted rule_before l → StronglySorted rule_before (insert_rule r l).
Proof.
  induction 1 as [|x l Hl IH Hx]; cbn [insert_rule]; [by repeat constructor|].
  destruct (rule_less x r) eqn:E.
  - constructor; [done|]. rewrite Forall_forall in Hx |- *. intros y.
    rewrite insert_rule_perm, elem_of_cons. intros [->|Hy]; [by apply rule_less_before|auto].
  - constructor; [by constructor|]. constructor; [done|].
    eapply Forall_impl; [exact Hx|]. intros y Hy. by eapply rule_before_trans.
Qed.

Lemma sort_rules_sorted l : StronglySorted rule_before (sort_rules l).
Proof. induction l as [|r l IH]; [constructor|]. by apply insert_rule_sorted. Qed.

(** ** Map iteration order *)

(** Two readings of one spec: the maps may be iterated in different orders. *)
#[global] Instance policy_input_equiv : Equiv PolicyInput := λ a b,
  GetToolExecutionPolicy a ≡ₚ GetToolExecutionPolicy b ∧
  GetCapabilityPolicies a = GetCapabilityPolicies b ∧
  GetProviderPolicies a ≡ₚ GetProviderPolicies b ∧
  GetSessionPolicies a = GetSessionPolicies b ∧
  GetGlobalPolicies a ≡ₚ GetGlobalPolicies b.

#[global] Instance policy_input_equivalence : Equivalence (≡@{PolicyInput}).
Proof.
  split; unfold equiv, policy_input_equiv.
  - done.
  - intros a b (-> & -> & -> & -> & ->). done.
  - intros a b c (-> & -> & -> & -> & ->). done.
Qed.

(** Both fail, or both succeed with the same rules up to order. *)
Definition res_perm (a b : result (list PolicyRule)) : Prop :=
  match a, b with
  | Ok x, Ok y => x ≡ₚ y
  | Err _, Err _ => True
  | _, _ => False
  end.

#[global] Instance res_perm_equivalence : Equivalence res_perm.
Proof.
  split.
  - by intros [a|e]; simpl.
  - by intros [a|e] [b|e']; simpl.
  - intros [a|e] [b|e'] [c|e'']; simpl; try done. by intros -> ->.
Qed.

Lemma res_perm_bind a b k k' :
  res_perm a b → (∀ x y, x ≡ₚ y → res_perm (k x) (k' y)) → res_perm (rbind a k) (rbind b k').
Proof. destruct a, b; simpl; auto; done. Qed.

Lemma compile_all_perm {A} (f : A → result PolicyRule) (l l' : list A) :
  l ≡ₚ l' → res_perm (compile_all f l) (compile_all f l').
Proof.
  induction 1 as [|x l l' _ IH|x y l|l l' l'' _ IH1 _ IH2]; cbn [compile_all].
  - done.
  - destruct (f x); cbn [rbind]; [|done]. apply res_perm_bind; [done|].
    intros r r' Hr. simpl. by rewrite Hr.
  - destruct (f y), (f x), (compile_all f l); cbn [rbind]; try done. simpl. apply perm_swap.
  - by etrans.
Qed.

#[global] Instance compile_proper :
  Proper ((≡) ==> res_perm) (λ spec, CompileAgentSpecPolicyRules (Some spec)).
Proof.
  intros a b (Ht & Hc & Hp & Hs & Hg). cbn [CompileAgentSpecPolicyRules]. rewrite Hc, Hs.
  destruct (compile_caps 0 _) as [caps|]; cbn [rbind]; [|done].
  destruct (compile_all compileSessionPolicy _) as [sessions|]; cbn [rbind]; [|done].
  apply res_perm_bind; [by apply compile_all_perm|]. intros x y Hxy. cbn [res_perm].
  rewrite !sort_rules_perm. rewrite Hxy. apply Permutation_app; [by apply omap_Permutation|].
  apply Permutation_app; [done|]. apply Permutation_app; [by apply omap_Permutation|done].
Qed.

(** ** Compiled rules *)
Lemma compile_all_elem {A} (f : A → result PolicyRule) l rs r :
  compile_all f l = Ok rs → r ∈ rs → ∃ x, x ∈ l ∧ f x = Ok r.
Proof.
  revert rs. induction l as [|x l IH]; intros rs; cbn [compile_all].
  { intros [= <-] Hr. by apply elem_of_nil in Hr. }
  intros (r0 & Hx & (rs0 & Hl & [= <-])%rbind_ok)%rbind_ok [->|Hr]%elem_of_cons.
  - exists x. split; [by left|done].
  - destruct (IH rs0 Hl Hr) as (y & ? & ?). exists y. split; [by right|done].
Qed.

Lemma compile_caps_elem i l rs r :
  compile_caps i l = Ok rs → r ∈ rs → ∃ j p, p ∈ l ∧ compileCapabilityPolicy j p = Ok r.
Proof.
  revert i rs. induction l as [|x l IH]; intros i rs; cbn [compile_caps].
  { intros [= <-] Hr. by apply elem_of_nil in Hr. }
  intros (r0 & Hx & (rs0 & Hl & [= <-])%rbind_ok)%rbind_ok [->|Hr]%elem_of_cons.
  - exists i, x. split; [by left|done].
  - destruct (IH _ rs0 Hl Hr) as (j & p & ? & ?). exists j, p. split; [by right|done].
Qed.

Lemma compile_parts spec rules :
  CompileAgentSpecPolicyRules (Some spec) = Ok rules →
  ∃ caps sessions globals,
    compile_caps 0 (GetCapabilityPolicies spec) = Ok caps ∧
    compile_all compileSessionPolicy (GetSessionPolicies spec) = Ok sessions ∧
    compile_all (λ kv : string * string, compileGlobalPolicy kv.1 kv.2) (GetGlobalPolicies spec)
      = Ok globals ∧
    rules ≡ₚ omap (λ kv, compileToolExecutionPolicy kv.1 kv.2) (GetToolExecutionPolicy spec) ++
      caps ++ omap (λ kv, compileProviderPolicy kv.1 kv.2) (GetProviderPolicies spec) ++
      sessions ++ globals.
Proof.
  cbn [CompileAgentSpecPolicyRules].
  intros (caps & Hc & (sessions & Hs & (globals & Hg & [= <-])%rbind_ok)%rbind_ok)%rbind_ok.
  exists caps, sessions, globals. split_and!; [done..|apply sort_rules_perm].
Qed.

Lemma level_action level : permissionLevelToAction level ∈ ["allow"; "deny"; "require_approval"].
Proof.
  unfold permissionLevelToAction. destruct (ParseDecision level); [|set_solver].
  case_bool_decide; [set_solver|]. case_bool_decide; set_solver.
Qed.

Lemma compileGlobal_effect key level r :
  compileGlobalPolicy key level = Ok r → rule_Effect r = permissionLevelToEffect level EmptyString.
Proof.
  unfold compileGlobalPolicy. set (k := trim_space _).
  destruct (_ || _); [done|]. repeat (case_bool_decide; [by intros [= <-]|]). done.
Qed.

(** The output of a successful compilation: the rules stand in order of
    decreasing priority, by id among equals, and every rule's effect is one of
    allow, deny and require_approval, so no compiled rule falls into the
    unsupported-effect branch. *)
Theorem compile_well_formed spec rules :
  CompileAgentSpecPolicyRules spec = Ok rules →
  StronglySorted rule_before rules ∧
  ∀ r, r ∈ rules → Action (rule_Effect r) ∈ ["allow"; "deny"; "require_approval"].
Proof.
  destruct spec as [spec|]; [|intros [= <-]; split; [constructor|intros r Hr; by apply elem_of_nil in Hr]].
  intros Hcomp. split.
  { cbn [CompileAgentSpecPolicyRules] in Hcomp.
    apply rbind_ok in Hcomp as (? & _ & (? & _ & (? & _ & [= <-])%rbind_ok)%rbind_ok).
    apply sort_rules_sorted. }
  destruct (compile_parts _ _ Hcomp) as (caps & sessions & globals & Hc & Hs & Hg & Hp).
  intros r Hin. rewrite Hp, !elem_of_app, !list_elem_of_omap in Hin. clear Hp.
  destruct Hin as [(kv & _ & Hr)|[Hr|[(kv & _ & Hr)|[Hr|Hr]]]].
  - unfold compileToolExecutionPolicy in Hr. destruct (_ || _); simplify_eq. apply level_action.
  - destruct (compile_caps_elem _ _ _ _ Hc Hr) as (j & p & _ & Hp). revert Hp.
    unfold compileCapabilityPolicy. destruct (compileCapabilitySelector _); [|done].
    intros [= <-]. apply level_action.
  - unfold compileProviderPolicy in Hr. destruct (_ || _); simplify_eq. apply level_action.
  - destruct (compile_all_elem _ _ _ _ Hs Hr) as (p & _ & Hp). revert Hp.
    unfold compileSessionPolicy. destruct (ValidateSessionPolicy p); [done|].
    intros [= <-]. apply level_action.
  - destruct (compile_all_elem _ _ _ _ Hg Hr) as ([k l] & _ & Hp).
    rewrite (compileGlobal_effect _ _ _ Hp). apply level_action.
Qed.

(** Compilation is deterministic in effect although it iterates over Go maps:
    for any two iteration orders of one spec it fails in both or succeeds in both,
    and then every request gets the same effect. *)
Theorem compile_deterministic spec spec' rules :
  spec ≡ spec' → CompileAgentSpecPolicyRules (Some spec) = Ok rules →
  ∃ rules', CompileAgentSpecPolicyRules (Some spec') = Ok rules' ∧
    ∀ now req, dec_Effect <$> EvaluatePolicyRules now rules req =
               dec_Effect <$> EvaluatePolicyRules now rules' req.
Proof.
  intros Heq Hc. pose proof (compile_proper spec spec' Heq) as Hp. cbv beta in Hp. rewrite Hc in Hp.
  destruct (CompileAgentSpecPolicyRules (Some spec')) as [rules'|] eqn:E; [|done].
  exists rules'. split; [done|]. intros now req. by apply evaluate_effect_perm.
Qed.

(** A candidate that denies decides. *)
Lemma deny_candidate now rules req r :
  r ∈ rules → candidate now req r → rule_effect r = effectDeny →
  dec_Effect <$> EvaluatePolicyRules now rules req = Some "deny".
Proof.
  intros Hr Hc He. unfold EvaluatePolicyRules.
  destruct (evaluate_cases now rules req) as [[Hf _]|(w & Hw & Hcw & Hm & ->)].
  - assert (r ∈ filter (candidate now req) rules) as Hin by by apply list_elem_of_filter.
    rewrite Hf in Hin. by apply elem_of_nil in Hin.
  - cbn. f_equal. rewrite decision_of_severity. specialize (Hm r Hr Hc).
    assert (rule_severity r = 4)%Z as Hs by (unfold rule_severity; by rewrite He).
    unfold severity_decision, rule_le in *.
    destruct (Z.leb_spec (rule_severity w) 1); [lia|].
    destruct (Z.leb_spec (rule_severity w) 3); [lia|done].
Qed.

(** A tool the spec denies stays denied: whatever other policies the spec holds
    and at whatever priority, a request for that local tool, by any spelling of its
    name that differs in case or surrounding space, evaluates to deny. *)
Theorem tool_deny_enforced spec rules now req tool level :
  CompileAgentSpecPolicyRules (Some spec) = Ok rules →
  (tool, level) ∈ GetToolExecutionPolicy spec → is_blank tool = false →
  ParseDecision level = Ok DecisionDeny →
  req_CapabilityKind req = "tool" → req_RuntimeFamily req = "local-tool" →
  to_lower (trim_space (req_CapabilityName req)) = to_lower (trim_space tool) →
  dec_Effect <$> EvaluatePolicyRules now rules req = Some "deny".
Proof.
  intros Hcomp Hin Hb Hl Hk Hf Hn.
  destruct (compile_parts _ _ Hcomp) as (caps & sessions & globals & _ & _ & _ & Hp).
  assert (level ≠ EmptyString) as Hne by by intros ->.
  assert (∃ r, compileToolExecutionPolicy tool level = Some r) as [r Hr].
  { unfold compileToolExecutionPolicy. rewrite Hb, bool_decide_false by done. eauto. }
  apply (deny_candidate now rules req r).
  - rewrite Hp, elem_of_app. left. apply list_elem_of_omap. by exists (tool, level).
  - unfold compileToolExecutionPolicy in Hr. rewrite Hb, bool_decide_false in Hr by done.
    cbn [orb] in Hr. simplify_eq. split; [done|]. unfold ruleMatchesRequest. cbn.
    assert (containsFold [tool] (req_CapabilityName req) = true) as ->.
    { unfold containsFold, equal_fold. cbn [existsb]. rewrite Hn, (bool_decide_true (to_lower _ = _)) by done.
      rewrite bool_decide_false; [done|]. intros He. rewrite He in Hn.
      unfold is_blank in Hb. apply bool_decide_eq_false in Hb. apply Hb.
      by destruct (trim_space tool). }
    rewrite orb_true_r. cbn. rewrite Hk, Hf. done.
  - unfold compileToolExecutionPolicy in Hr. rewrite Hb, bool_decide_false in Hr by done.
    cbn [orb] in Hr. simplify_eq. unfold rule_effect. cbn. unfold permissionLevelToAction. by rewrite Hl.
Qed.

(** A session policy that names several actor kinds only ever applies to the
    first: the compiled rule does not match an actor of any other kind, so a deny
    policy does not cover them. *)
Theorem session_extra_kinds_ignored p r now req k1 ks :
  compileSessionPolicy p = Ok r → ss_ActorKinds (sp_Selector p) = k1 :: ks →
  equal_fold k1 (actor_Kind (req_Actor req)) = false →
  ruleMatchesRequest now r req = false.
Proof.
  unfold compileSessionPolicy. destruct (ValidateSessionPolicy p) eqn:Hv; [done|].
  intros [= <-] Hk He.
  assert (k1 ≠ EmptyString) as Hne.
  { unfold ValidateSessionPolicy in Hv. rewrite first_error_None in Hv.
    repeat (apply Forall_cons in Hv as [? Hv]). rename select (_ <$> _ = None) into Hsel.
    apply fmap_None in Hsel. unfold ValidateSessionSelector in Hsel. rewrite first_error_None in Hsel.
    do 7 (apply Forall_cons in Hsel as [? Hsel]). clear Hsel. rewrite Hk in *.
    intros ->. discriminate. }
  unfold ruleMatchesRequest. cbn [Conditions c_Actors]. unfold session_actors. rewrite Hk.
  cbn. unfold actor_matches. cbn [am_Kind]. rewrite bool_decide_false by done. by rewrite He.
Qed.
