(* ===== verification/Glob.v ===== *)
(** * Glob

    Pattern matching and the deny-first decision of
    [governance/authorization]: [matchGlob] and [globToRegex] (permissions.go),
    [MatchCommandGlob] (match_command_glob.go), the compiled-pattern cache
    (glob_cache.go) and [decideByMatcher] (policy_helpers.go).

    The translators emit regular expressions of a fixed shape; the model keeps
    them as token lists, one token per emitted fragment, with the meaning of
    Go's [regexp] for that fragment.  Matching is over the runes of the subject
    ([runes]): a rune is its byte sequence, an invalid byte a rune of its own. *)
From S2P Require Import Prelude GoStrings GoTime Policy.

(** ** UTF-8 *)
Definition byte_of (a : ascii) : Z := Z.of_nat (nat_of_ascii a).
Definition in_range (lo hi : Z) (a : ascii) : bool := (lo <=? byte_of a)%Z && (byte_of a <=? hi)%Z.

(** Width of the first rune ([utf8.DecodeRuneInString]): 1 for ASCII and for an
    invalid encoding. *)
Definition rune_width (s : string) : nat :=
  let cont := in_range 128 191 in
  match s with
  | String a (String b r) =>
      if in_range 194 223 a then if cont b then 2 else 1
      else
        match r with
        | String c r' =>
            if in_range 224 239 a then
              let lo := if (byte_of a =? 224)%Z then 160%Z else 128%Z in
              let hi := if (byte_of a =? 237)%Z then 159%Z else 191%Z in
              if in_range lo hi b && cont c then 3 else 1
            else if in_range 240 244 a then
              match r' with
              | String d _ =>
                  let lo := if (byte_of a =? 240)%Z then 144%Z else 128%Z in
                  let hi := if (byte_of a =? 244)%Z then 143%Z else 191%Z in
                  if in_range lo hi b && cont c && cont d then 4 else 1
              | EmptyString => 1
              end
            else 1
        | EmptyString => 1
        end
  | _ => 1
  end.

(** Each round consumes at least a byte, so [length s] rounds are enough. *)
Fixpoint runes_fuel (fuel : nat) (s : string) : list string :=
  match fuel, s with
  | S fuel', String _ _ =>
      let w := rune_width s in str_take w s :: runes_fuel fuel' (str_drop w s)
  | _, _ => []
  end.

Definition runes (s : string) : list string := runes_fuel (String.length s) s.

(** [string(b)] of a byte [b]: the UTF-8 encoding of the code point [b]. *)
Definition string_of_byte (a : ascii) : string :=
  let n := byte_of a in
  if (n <? 128)%Z then String a EmptyString
  else String (ascii_of_nat (Z.to_nat (192 + n / 64)))
         (String (ascii_of_nat (Z.to_nat (128 + n mod 64))) EmptyString).

(** ** Regular-expression fragments *)
Inductive tok :=
| TLit (r : string)      (** a quoted literal rune *)
| TAny (nl : bool)       (** [.]; [nl] when the [s] flag is set *)
| TSegment               (** [[^/]*] *)
| TRun (nl : bool)       (** [.*] *)
| TDirs.                 (** [(?:.*/)?] *)

Definition newline : string := String (ascii_of_nat 10) EmptyString.

Definition dot (nl : bool) (r : string) : bool := nl || negb (bool_decide (r = newline)).

(** Try [k] on every suffix reached over runes that satisfy [ok]. *)
Fixpoint star (ok : string → bool) (k : list string → bool) (s : list string) : bool :=
  k s || match s with
         | [] => false
         | r :: s' => ok r && star ok k s'
         end.

(** Try [k] after every slash reached over dots. *)
Fixpoint after_slash (k : list string → bool) (s : list string) : bool :=
  match s with
  | [] => false
  | r :: s' =>
      dot false r && ((bool_decide (r = "/") && k s') || after_slash k s')
  end.

(** [regexp.MatchString] of the anchored expression. *)
Fixpoint match_toks (ts : list tok) (s : list string) : bool :=
  match ts with
  | [] => match s with [] => true | _ => false end
  | TLit c :: ts' => match s with r :: s' => bool_decide (r = c) && match_toks ts' s' | [] => false end
  | TAny nl :: ts' => match s with r :: s' => dot nl r && match_toks ts' s' | [] => false end
  | TSegment :: ts' => star (λ r, negb (bool_decide (r = "/"))) (match_toks ts') s
  | TRun nl :: ts' => star (dot nl) (match_toks ts') s
  | TDirs :: ts' => match_toks ts' s || after_slash (match_toks ts') s
  end.

(** ** Path globs *)
Definition permissionMatchAll : string := "**".

(** [globToRegex], on the runes of the pattern. *)
Fixpoint globToRegex (p : list string) : list tok :=
  match p with
  | [] => []
  | ch :: p' =>
      if bool_decide (ch = "*") then
        match p' with
        | n :: p'' =>
            if bool_decide (n = "*") then
              match p'' with
              | sl :: p''' =>
                  if bool_decide (sl = "/") then TDirs :: globToRegex p'''
                  else TRun false :: globToRegex p''
              | [] => TRun false :: globToRegex p''
              end
            else TSegment :: globToRegex p'
        | [] => TSegment :: globToRegex p'
        end
      else if bool_decide (ch = "?") then TAny false :: globToRegex p'
      else TLit ch :: globToRegex p'
  end.

(** *** [filepath.Match] *)

(** [getEsc]: a possibly escaped class member. *)
Definition getEsc (p : list string) : option (string * list string) :=
  match p with
  | [] => None
  | c :: p' =>
      if bool_decide (c = "-") || bool_decide (c = "]") then None
      else if bool_decide (c = "\") then
        match p' with
        | d :: p'' => match p'' with [] => None | _ => Some (d, p'') end
        | [] => None
        end
      else match p' with [] => None | _ => Some (c, p') end
  end.

(** Order of runes by code point is order of their encodings. *)
Definition rune_le (a b : string) : bool :=
  match String.compare a b with Gt => false | _ => true end.

(** The ranges of a class up to its bracket; [None] is [ErrBadPattern]. *)
Fixpoint class_ranges (fuel : nat) (p : list string) (r : string) (seen matched : bool)
    : option (bool * list string) :=
  match fuel with
  | O => None
  | S fuel' =>
      match p with
      | [] => None
      | c :: p' =>
          if bool_decide (c = "]") && seen then Some (matched, p')
          else
            match getEsc p with
            | None => None
            | Some (lo, p1) =>
                match p1 with
                | d :: p2 =>
                    if bool_decide (d = "-") then
                      match getEsc p2 with
                      | None => None
                      | Some (hi, p3) =>
                          class_ranges fuel' p3 r true (matched || (rune_le lo r && rune_le r hi))
                      end
                    else class_ranges fuel' p1 r true (matched || bool_decide (lo = r))
                | [] => None
                end
            end
      end
  end.

(** Match of the whole subject; a malformed pattern does not match. *)
Fixpoint filepath_match (fuel : nat) (p s : list string) : bool :=
  match fuel with
  | O => false
  | S fuel' =>
      match p with
      | [] => match s with [] => true | _ => false end
      | c :: p' =>
          if bool_decide (c = "*") then
            star (λ r, negb (bool_decide (r = "/"))) (filepath_match fuel' p') s
          else match s with
               | [] => false
               | r :: s' =>
                   if bool_decide (c = "?") then
                     negb (bool_decide (r = "/")) && filepath_match fuel' p' s'
                   else if bool_decide (c = "[") then
                     let '(neg, p1) := match p' with
                       | n :: p'' => if bool_decide (n = "^") then (true, p'') else (false, p')
                       | [] => (false, p')
                       end in
                     match class_ranges (S (length p1)) p1 r false false with
                     | Some (matched, p2) =>
                         negb (Bool.eqb matched neg) && filepath_match fuel' p2 s'
                     | None => false
                     end
                   else if bool_decide (c = "\") then
                     match p' with
                     | d :: p'' => bool_decide (d = r) && filepath_match fuel' p'' s'
                     | [] => false
                     end
                   else bool_decide (c = r) && filepath_match fuel' p' s'
               end
      end
  end.

Definition filepath_Match (pattern value : string) : bool :=
  let p := runes pattern in filepath_match (S (length p)) p (runes value).

Definition trim_suffix (suf s : string) : string :=
  if has_suffix suf s then str_take (String.length s - String.length suf) s else s.

Definition matchGlob (pattern value : string) : bool :=
  if bool_decide (pattern = EmptyString) then false
  else if bool_decide (pattern = permissionMatchAll) then true
  else if has_suffix "/**" pattern && bool_decide (value = trim_suffix "/**" pattern) then true
  else if negb (contains pattern "**") then filepath_Match pattern value
  else match_toks (globToRegex (runes pattern)) (runes value).

(** ** Command globs *)

(** [commandGlobToRegex] walks the bytes of the pattern. *)
Fixpoint commandGlobToRegex (p : string) : list tok :=
  match p with
  | EmptyString => []
  | String c p' =>
      if bool_decide (c = "\"%char) then
        match p' with
        | String d p'' => TLit (string_of_byte d) :: commandGlobToRegex p''
        | EmptyString => [TLit "\"]
        end
      else if bool_decide (c = "*"%char) then TRun true :: commandGlobToRegex p'
      else if bool_decide (c = "?"%char) then TAny true :: commandGlobToRegex p'
      else TLit (string_of_byte c) :: commandGlobToRegex p'
  end.

Definition MatchCommandGlob (pattern cmdline : string) : bool :=
  let pattern := trim_space pattern in
  if bool_decide (pattern = EmptyString) then false
  else if bool_decide (pattern = permissionMatchAll) then true
  else match_toks (commandGlobToRegex pattern) (runes cmdline).

(** ** Decisions by pattern *)
Definition commandReasonDenyPattern : string := "deny_pattern".
Definition commandReasonAllowPattern : string := "allow_pattern".
Definition commandReasonDefault : string := "default".

Record CommandDecision := { cd_Decision : string; MatchedPattern : string; cd_Reason : string }.

(** The loop over one pattern list. *)
Fixpoint first_match (match_ : string → string → bool) (target : string) (patterns : list string)
    : option string :=
  match patterns with
  | [] => None
  | p :: patterns' =>
      let p := trim_space p in
      if bool_decide (p = EmptyString) then first_match match_ target patterns'
      else if match_ p target then Some p
      else first_match match_ target patterns'
  end.

Definition decideByMatcher (target : string) (allow deny : list string) (default : string)
    (match_ : string → string → bool) : string * string * string :=
  let target := trim_space target in
  match first_match match_ target deny with
  | Some p => (DecisionDeny, p, commandReasonDenyPattern)
  | None =>
      match first_match match_ target allow with
      | Some p => (DecisionAllow, p, commandReasonAllowPattern)
      | None =>
          let d := match DecisionOr default DecisionAsk with Ok d => d | Err _ => DecisionAsk end in
          (d, EmptyString, commandReasonDefault)
      end
  end.

Definition DecideByPatterns (target : string) (allow deny : list string) (default : string)
    : string * string :=
  let '(d, p, _) := decideByMatcher target allow deny default matchGlob in (d, p).

Definition DecideCommandByPatterns (target : string) (allow deny : list string) (default : string)
    : CommandDecision :=
  let '(d, p, r) := decideByMatcher target allow deny default MatchCommandGlob in
  {| cd_Decision := d; MatchedPattern := p; cd_Reason := r |}.

Example glob1 : matchGlob "src/**/*.go" "src/a/b/c.go" = true.
Proof. reflexivity. Qed.
Example glob2 : matchGlob "src/**/*.go" "src/c.go" = true.
Proof. reflexivity. Qed.
Example glob3 : matchGlob "src/*.go" "src/a/c.go" = false.
Proof. reflexivity. Qed.
Example glob4 : matchGlob "a[b-d]?" "acx" = true.
Proof. reflexivity. Qed.
Example glob5 : MatchCommandGlob "git *" "git push origin" = true.
Proof. reflexivity. Qed.
Example glob6 : matchGlob "secrets/**" "secrets" = true.
Proof. reflexivity. Qed.

(** ** Deny first *)
Lemma first_match_spec match_ target patterns :
  match first_match match_ target patterns with
  | Some p => ∃ q, q ∈ patterns ∧ p = trim_space q ∧ p ≠ EmptyString ∧ match_ p target = true
  | None => ∀ q, q ∈ patterns → is_blank q = false → match_ (trim_space q) target = false
  end.
Proof.
  induction patterns as [|q l IH]; cbn [first_match]; [intros q Hq; by apply elem_of_nil in Hq|].
  unfold is_blank in *. case_bool_decide as Hb.
  - destruct (first_match match_ target l).
    + destruct IH as (q' & ? & ?). exists q'. split; [by right|done].
    + intros q' [->|Hq]%elem_of_cons; [by rewrite bool_decide_true|auto].
  - destruct (match_ (trim_space q) target) eqn:Hm.
    + exists q. split; [by left|done].
    + destruct (first_match match_ target l).
      * destruct IH as (q' & ? & ?). exists q'. split; [by right|done].
      * intros q' [->|Hq]%elem_of_cons; [done|auto].
Qed.

(** A non-blank pattern of the list matches. *)
Definition hits (match_ : string → string → bool) (target : string) (patterns : list string) : Prop :=
  ∃ q, q ∈ patterns ∧ is_blank q = false ∧ match_ (trim_space q) (trim_space target) = true.

Lemma first_match_hits match_ target patterns :
  (∃ p, first_match match_ (trim_space target) patterns = Some p) ↔ hits match_ target patterns.
Proof.
  pose proof (first_match_spec match_ (trim_space target) patterns) as Hs.
  destruct (first_match match_ (trim_space target) patterns) as [p|].
  - split; [|eauto]. intros _. destruct Hs as (q & ? & -> & ? & ?). exists q.
    split_and!; [done| |done]. unfold is_blank. by rewrite bool_decide_false.
  - split; [by intros []|]. intros (q & Hq & Hb & Hm). by rewrite Hs in Hm.
Qed.

(** Pattern decisions are deny-first and total, for any matcher (path or
    command): a target hit by a deny pattern is denied whatever the allow patterns
    and the default say; otherwise a target hit by an allow pattern is allowed;
    otherwise the default decides, which is allow only when it spells allow, and
    ask when it is blank or not a decision. *)
Theorem decide_deny_first target allow deny default match_ :
  let '(d, _, _) := decideByMatcher target allow deny default match_ in
  (hits match_ target deny → d = DecisionDeny) ∧
  (¬ hits match_ target deny → hits match_ target allow → d = DecisionAllow) ∧
  (¬ hits match_ target deny → ¬ hits match_ target allow →
     d = match ParseDecision default with Ok d' => d' | Err _ => DecisionAsk end).
Proof.
  unfold decideByMatcher.
  pose proof (first_match_hits match_ target deny) as Hd.
  pose proof (first_match_hits match_ target allow) as Ha.
  destruct (first_match match_ (trim_space target) deny) as [p|].
  { split_and!; [done|intros Hn; exfalso; apply Hn, Hd; eauto..]. }
  destruct (first_match match_ (trim_space target) allow) as [p|].
  { split_and!; [by intros []%Hd|done|intros _ Hn; exfalso; apply Hn, Ha; eauto]. }
  split_and!; [by intros []%Hd|by intros _ []%Ha|]. intros _ _. unfold DecisionOr.
  destruct (is_blank default) eqn:Hb; [|done].
  assert (ParseDecision default = Err (ErrFmt "invalid decision %q: want one of %q, %q, %q"
              [default; DecisionAllow; DecisionAsk; DecisionDeny])) as ->; [|done].
  unfold ParseDecision. unfold is_blank in Hb. apply bool_decide_eq_true in Hb. by rewrite Hb.
Qed.

(** ** Runes *)
Lemma rune_width_bounds a s : 1 ≤ rune_width (String a s) ≤ String.length (String a s).
Proof.
  unfold rune_width. destruct s as [|b [|c [|d s]]]; simpl; repeat case_match; lia.
Qed.

Lemma str_length_drop n s : String.length (str_drop n s) = String.length s - n.
Proof. revert s; induction n as [|n IH]; intros [|a s]; simpl; [done..|apply IH]. Qed.

Lemma runes_fuel_enough n s : String.length s ≤ n → runes_fuel n s = runes s.
Proof.
  unfold runes. assert (∀ n m s, String.length s ≤ n → String.length s ≤ m →
    runes_fuel n s = runes_fuel m s) as H; [|intros; by apply H].
  clear. intros n. induction n as [|n IH]; intros [|m] [|a s] Hn Hm; try done; try (simpl in *; lia).
  cbn [runes_fuel]. f_equal. pose proof (rune_width_bounds a s).
  apply IH; rewrite str_length_drop; simpl in *; lia.
Qed.

Lemma runes_cons a s :
  runes (String a s) = str_take (rune_width (String a s)) (String a s) ::
                       runes (str_drop (rune_width (String a s)) (String a s)).
Proof.
  unfold runes at 1. simpl String.length. cbn [runes_fuel]. f_equal. apply runes_fuel_enough.
  rewrite str_length_drop. pose proof (rune_width_bounds a s). simpl in *. lia.
Qed.

Definition is_ascii (a : ascii) : bool := (byte_of a <? 128)%Z.

Lemma runes_ascii a s : is_ascii a = true → runes (String a s) = String a EmptyString :: runes s.
Proof.
  intros Ha%Z.ltb_lt. rewrite runes_cons.
  assert (∀ lo hi, (128 <= lo)%Z → in_range lo hi a = false) as Hr
    by (intros; unfold in_range; apply andb_false_iff; left; apply Z.leb_gt; lia).
  assert (rune_width (String a s) = 1) as ->.
  { unfold rune_width. rewrite !Hr by lia. by repeat case_match. }
  by destruct s.
Qed.

(** The runes of a string spell it. *)
Lemma runes_concat s : foldr String.app EmptyString (runes s) = s.
Proof.
  remember (String.length s) as n eqn:Hn. revert s Hn. induction (lt_wf n) as [n _ IH].
  intros [|a s] ->; [done|]. rewrite runes_cons. cbn [foldr].
  pose proof (rune_width_bounds a s).
  rewrite (IH (String.length (str_drop (rune_width (String a s)) (String a s)))); [|..].
  - apply str_take_drop.
  - rewrite str_length_drop. simpl in *. lia.
  - done.
Qed.

Definition nl_byte : ascii := ascii_of_nat 10.

(** A rune other than the newline contains no newline byte. *)
Lemma rune_no_newline a s :
  let r := str_take (rune_width (String a s)) (String a s) in
  contains_byte nl_byte r = bool_decide (r = newline).
Proof.
  assert (∀ lo hi c, (128 <= lo)%Z → in_range lo hi c = true → bool_decide (c = nl_byte) = false) as Hc'.
  { intros lo hi c Hlo [Hl _]%andb_true_iff. apply Z.leb_le in Hl. rewrite bool_decide_false; [done|].
    intros ->. assert (byte_of nl_byte = 10%Z) as Hb by reflexivity. lia. }
  assert (∀ c, in_range 128 191 c = true → bool_decide (c = nl_byte) = false) as Hc
    by (intros c; apply Hc'; lia).
  assert (contains_byte nl_byte (String a EmptyString) = bool_decide (String a EmptyString = newline)) as H1.
  { simpl. rewrite orb_false_r. unfold newline, nl_byte.
    apply bool_decide_ext. naive_solver. }
  cbv zeta. unfold rune_width.
  destruct s as [|b s]; [exact H1|].
  destruct (in_range 194 223 a) eqn:Ha.
  { destruct (in_range 128 191 b) eqn:Hb; [|exact H1]. simpl. rewrite (Hc' 194%Z 223%Z a ltac:(lia) Ha), (Hc _ Hb).
    by rewrite bool_decide_false. }
  destruct s as [|c s]; [exact H1|].
  destruct (in_range 224 239 a) eqn:Ha2.
  { destruct (in_range _ _ b) eqn:Hb; [|exact H1]. destruct (in_range 128 191 c) eqn:Hcc; [|exact H1].
    simpl. rewrite (Hc' 224%Z 239%Z a ltac:(lia) Ha2), (Hc _ Hcc).
    erewrite (Hc' _ _ b); [by rewrite bool_decide_false| |exact Hb]. destruct (byte_of a =? 224)%Z; lia. }
  destruct (in_range 240 244 a) eqn:Ha3; [|exact H1].
  destruct s as [|d s]; [exact H1|].
  destruct (in_range _ _ b) eqn:Hb; [|exact H1]. destruct (in_range 128 191 c) eqn:Hcc; [|exact H1].
  destruct (in_range 128 191 d) eqn:Hd; [|exact H1].
  simpl. rewrite (Hc' 240%Z 244%Z a ltac:(lia) Ha3), (Hc _ Hcc), (Hc _ Hd).
  erewrite (Hc' _ _ b); [by rewrite bool_decide_false| |exact Hb]. destruct (byte_of a =? 240)%Z; lia.
Qed.

Lemma runes_newline s : Forall (λ r, dot false r = true) (runes s) ↔ contains_byte nl_byte s = false.
Proof.
  remember (String.length s) as n eqn:Hn. revert s Hn. induction (lt_wf n) as [n _ IH].
  intros [|a s] ->; [done|]. rewrite runes_cons, Forall_cons.
  pose proof (rune_width_bounds a s).
  rewrite (IH (String.length (str_drop (rune_width (String a s)) (String a s)))) by
    first [done | rewrite str_length_drop; simpl in *; lia].
  rewrite <- (str_take_drop (rune_width (String a s)) (String a s)) at 5.
  rewrite contains_byte_app, rune_no_newline, orb_false_iff. unfold dot. cbn [orb].
  by rewrite negb_true_iff.
Qed.

(** ** Subtree patterns *)

(** ASCII text without the wildcards. *)
Fixpoint plain (s : string) : bool :=
  match s with
  | EmptyString => true
  | String a s' => is_ascii a && negb (bool_decide (a = "*"%char)) && negb (bool_decide (a = "?"%char))
                   && plain s'
  end.

Lemma plain_cons a s :
  plain (String a s) = true → is_ascii a = true ∧ a ≠ "*"%char ∧ a ≠ "?"%char ∧ plain s = true.
Proof. cbn [plain]. intros H. bool_to_prop. auto. Qed.

Lemma runes_app_plain base s : plain base = true → runes (base +:+ s) = runes base ++ runes s.
Proof.
  induction base as [|a base IH]; intros Hp; [done|]. apply plain_cons in Hp as (Ha & _ & _ & Hp).
  rewrite str_app_cons, !runes_ascii, IH by done. done.
Qed.

Lemma globToRegex_plain base s :
  plain base = true →
  globToRegex (runes (base +:+ s)) = (TLit <$> runes base) ++ globToRegex (runes s).
Proof.
  induction base as [|a base IH]; intros Hp; [done|]. apply plain_cons in Hp as (Ha & H1 & H2 & Hp).
  rewrite str_app_cons, !runes_ascii by done. cbn [globToRegex fmap list_fmap].
  rewrite !bool_decide_false by congruence. cbn [app]. f_equal. by apply IH.
Qed.

Lemma match_lits rs ts s :
  match_toks ((TLit <$> rs) ++ ts) s = true ↔ ∃ s', s = rs ++ s' ∧ match_toks ts s' = true.
Proof.
  revert s. induction rs as [|r rs IH]; intros s; cbn.
  { split; [by eauto|]. by intros (? & -> & ?). }
  destruct s as [|c s]; [split; [done|by intros (? & ? & ?)]|].
  rewrite andb_true_iff, bool_decide_eq_true, IH. split.
  - intros (-> & s' & -> & Hm). eauto.
  - intros (s' & [= -> ->] & Hm). eauto.
Qed.

Lemma match_run_end nl s : match_toks [TRun nl] s = true ↔ Forall (λ r, dot nl r = true) s.
Proof.
  cbn [match_toks]. induction s as [|r s IH]; cbn [star]; [by rewrite Forall_nil|].
  rewrite orb_false_l, andb_true_iff, IH, Forall_cons. done.
Qed.

Lemma index_app_r sub a s : is_Some (index sub s) → is_Some (index sub (a +:+ s)).
Proof.
  intros Hs. induction a as [|x a IH]; [done|]. rewrite str_app_cons. cbn [index].
  case_match; [done|]. by apply fmap_is_Some.
Qed.

Lemma trim_suffix_app base suf : has_suffix suf (base +:+ suf) = true → trim_suffix suf (base +:+ suf) = base.
Proof.
  intros H. unfold trim_suffix. rewrite H, str_length_app.
  replace (_ + _ - _) with (String.length base) by lia. apply str_take_app.
Qed.

(** A subtree pattern [base/**] with a plain base matches the base itself and
    the paths below it, and nothing else, except that a path below it with a
    newline in it is not matched. *)
Theorem subtree_glob base v :
  plain base = true → base ≠ EmptyString →
  matchGlob (base +:+ "/**") v = true ↔
    v = base ∨ ∃ rest, v = base +:+ "/" +:+ rest ∧ contains_byte nl_byte rest = false.
Proof.
  intros Hp Hne. unfold matchGlob.
  rewrite bool_decide_false by (intros ?%(f_equal String.length);
    rewrite str_length_app in *; simpl in *; lia).
  rewrite bool_decide_false by (intros ?%(f_equal String.length); rewrite str_length_app in *;
    destruct base; [done|]; simpl in *; lia).
  rewrite has_suffix_app, trim_suffix_app by apply has_suffix_app. cbn [andb].
  case_bool_decide as Hv; [split; auto|].
  unfold contains. rewrite bool_decide_true by (apply (index_app_r "**" base "/**"); by eexists). cbn [negb].
  rewrite globToRegex_plain by done.
  change (globToRegex (runes "/**")) with ((TLit <$> ["/"]) ++ [TRun false]).
  rewrite app_assoc, <- fmap_app, match_lits. setoid_rewrite match_run_end. split.
  - intros (s' & Hs & Hf). right. exists (foldr String.app EmptyString s').
    assert (v = base +:+ "/" +:+ foldr String.app EmptyString s') as Heq.
    { rewrite <- (runes_concat v), Hs. rewrite <- (runes_concat base) at 2.
      rewrite <- !str_app_assoc. clear. induction (runes base) as [|r rs IH]; [done|].
      cbn [foldr app]. rewrite IH, !str_app_assoc. done. }
    split; [done|]. apply runes_newline.
    assert (runes (foldr String.app EmptyString s') = s') as ->; [|done].
    rewrite Heq, runes_app_plain in Hs by done.
    change ("/" +:+ ?x) with (String "/"%char x) in Hs. rewrite runes_ascii in Hs by done.
    rewrite <- app_assoc in Hs. apply app_inv_head in Hs. by injection Hs.
  - intros [->|(rest & -> & Hn)]; [done|]. exists (runes rest). split; [|by apply runes_newline].
    rewrite runes_app_plain, (runes_app_plain "/") by done. by rewrite <- app_assoc.
Qed.

Lemma subtree_glob_witness :
  matchGlob "secrets/**" "secrets/prod/key" = true.
Proof.
  apply (subtree_glob "secrets" "secrets/prod/key"); [reflexivity|discriminate|].
  right. exists "prod/key". split; reflexivity.
Defined.

(** A command deny pattern with a character outside ASCII is inert: the pattern
    is compiled byte by byte and each byte read as a code point, so the pattern does
    not match even the command it spells, which the allow pattern then admits. *)
Theorem nonascii_deny_inert :
  let cmd := "rm caf" +:+ String (ascii_of_nat 195) (String (ascii_of_nat 169) EmptyString) in
  MatchCommandGlob cmd cmd = false ∧
  cd_Decision (DecideCommandByPatterns cmd ["rm *"] [cmd] DecisionDeny) = DecisionAllow.
Proof. vm_compute. done. Qed.

(** ** The compiled-pattern cache ([glob_cache.go]) *)
Module GlobCache.
Section cache.
Context {R : Type} (Compile : string → result R).

(** [ll] is the recency list, front first; [cache] holds the compiled patterns. *)
Record t := { maxSize : Z; ll : list string; cache : gmap string R }.

Definition newCompiledGlobCache (n : Z) : t :=
  {| maxSize := if (n <=? 0)%Z then 256 else n; ll := []; cache := ∅ |}.

Definition move_to_front (p : string) (l : list string) : list string := p :: filter (.≠ p) l.

Definition evictLocked (c : t) : t :=
  match last (ll c) with
  | None => c
  | Some back => {| maxSize := maxSize c; ll := take (length (ll c) - 1) (ll c);
                    cache := delete back (cache c) |}
  end.

Definition get (p : string) (c : t) : result R * t :=
  match cache c !! p with
  | Some r => (Ok r, {| maxSize := maxSize c; ll := move_to_front p (ll c); cache := cache c |})
  | None =>
      match Compile p with
      | Err e => (Err e, c)
      | Ok r =>
          let c := if (maxSize c <=? Z.of_nat (size (cache c)))%Z then evictLocked c else c in
          (Ok r, {| maxSize := maxSize c; ll := p :: ll c; cache := <[p := r]> (cache c) |})
      end
  end.

(** The list and the map hold the same patterns, each compiled. *)
Record wf (c : t) : Prop := {
  wf_pos : (0 < maxSize c)%Z;
  wf_nodup : NoDup (ll c);
  wf_dom p : p ∈ ll c ↔ is_Some (cache c !! p);
  wf_compiled p r : cache c !! p = Some r → Compile p = Ok r;
  wf_size : (Z.of_nat (length (ll c)) <= maxSize c)%Z
}.

Lemma wf_length c : wf c → size (cache c) = length (ll c).
Proof.
  intros [_ Hn Hd _ _]. rewrite <- (size_dom (D := gset string)).
  rewrite <- (size_list_to_set (C := gset string) (ll c) Hn). f_equal. apply set_eq. intros p.
  by rewrite elem_of_list_to_set, Hd, elem_of_dom.
Qed.

Lemma evict_wf c : wf c → ll c ≠ [] → wf (evictLocked c) ∧ length (ll (evictLocked c)) = length (ll c) - 1.
Proof.
  intros Hw Hne. unfold evictLocked.
  destruct (ll c) as [|x l] eqn:E using rev_ind; [done|]. clear IHl.
  rewrite last_snoc, length_app. cbn [length ll].
  replace (length l + 1 - 1) with (length l) by lia. rewrite take_app_length. split; [|done].
  destruct Hw as [H1 H2 H3 H4 H5]. rewrite E in H2, H3, H5.
  apply NoDup_app in H2 as (Hl & Hx & _). split; cbn; [done|done| | |].
  - intros p. rewrite lookup_delete_is_Some, <- H3, elem_of_app, list_elem_of_singleton.
    split; [|naive_solver]. intros Hp. split; [|auto]. intros <-. apply (Hx _ Hp). by left.
  - intros p r [_ Hp]%lookup_delete_Some. eauto.
  - rewrite length_app in H5. simpl in H5. lia.
Qed.

Lemma get_wf p c : wf c → (get p c).1 = Compile p ∧ wf (get p c).2.
Proof.
  intros Hw. unfold get. destruct (cache c !! p) as [r|] eqn:Hp.
  { split; [symmetry; by apply (wf_compiled _ Hw)|]. destruct Hw as [H1 H2 H3 H4 H5].
    assert (p ∈ ll c) as Hin by (apply H3; eauto).
    assert (move_to_front p (ll c) ≡ₚ ll c) as Hperm.
    { unfold move_to_front. apply NoDup_Permutation; [|done|].
      - constructor; [|by apply NoDup_filter]. rewrite list_elem_of_filter. naive_solver.
      - intros x. rewrite elem_of_cons, list_elem_of_filter.
        destruct (decide (x = p)); naive_solver. }
    split; cbn [snd ll cache maxSize]; [done|by rewrite Hperm| |done|by rewrite Hperm].
    intros q. by rewrite Hperm. }
  destruct (Compile p) as [r|e] eqn:Hc; [|done]. cbn [fst snd]. split; [done|].
  set (c' := if (_ <=? _)%Z then evictLocked c else c).
  assert (wf c' ∧ (Z.of_nat (length (ll c')) < maxSize c)%Z ∧ maxSize c' = maxSize c ∧
          cache c' !! p = None) as (Hw' & Hlt & Hm & Hn).
  { subst c'. rewrite (wf_length c Hw). destruct (Z.leb_spec (maxSize c) (Z.of_nat (length (ll c)))).
    - assert (ll c ≠ []) as Hne by (intros E; rewrite E in *; destruct Hw; simpl in *; lia).
      destruct (evict_wf c Hw Hne) as [He Hlen]. split_and!; [done| | |].
      + rewrite Hlen. pose proof (wf_size _ Hw). destruct (ll c); simpl in *; [done|lia].
      + unfold evictLocked. by destruct (last (ll c)).
      + unfold evictLocked. destruct (last (ll c)); [|done]. cbn. by rewrite lookup_delete_None; right.
    - by split_and!. }
  clearbody c'. destruct Hw' as [H1 H2 H3 H4 H5]. split; cbn.
  - done.
  - constructor; [|done]. rewrite H3, Hn. by intros [].
  - intros q. rewrite lookup_insert_is_Some', elem_of_cons, H3. naive_solver.
  - intros q r' [[-> ->]|[_ Hq]]%lookup_insert_Some; eauto.
  - rewrite Nat2Z.inj_succ. lia.
Qed.

(** The pattern cache is transparent and bounded: from an empty cache, through
    any sequence of lookups, every lookup answers what compiling the pattern
    afresh would, and the cache never holds more than its capacity. *)
Theorem glob_cache_transparent n ps p :
  let c := foldl (λ c p, (get p c).2) (newCompiledGlobCache n) ps in
  (get p c).1 = Compile p ∧ (Z.of_nat (size (cache c)) <= maxSize c)%Z ∧
  maxSize c = (if (n <=? 0)%Z then 256 else n)%Z.
Proof.
  assert (∀ ps c, wf c → wf (foldl (λ c p, (get p c).2) c ps) ∧
    maxSize (foldl (λ c p, (get p c).2) c ps) = maxSize c) as Hfold.
  { clear. induction ps as [|p ps IH]; intros c Hw; [done|]. cbn [foldl].
    destruct (get_wf p c Hw) as [_ Hw']. destruct (IH _ Hw') as [? ->]. split; [done|].
    unfold get. destruct (cache c !! p); [done|]. destruct (Compile p); [|done]. cbn.
    destruct (_ <=? _)%Z; [|done]. unfold evictLocked. by destruct (last (ll c)). }
  assert (wf (newCompiledGlobCache n)) as Hw0.
  { split; cbn; [destruct (Z.leb_spec n 0); lia|constructor| |done|destruct (Z.leb_spec n 0); lia].
    intros q. rewrite lookup_empty, elem_of_nil. split; [done|by intros []]. }
  destruct (Hfold ps _ Hw0) as [Hw Hm]. split_and!; [by apply get_wf|..|by rewrite Hm].
  rewrite wf_length by done. by destruct Hw.
Qed.
End cache.
End GlobCache.
