(* ===== verification/GoPath.v ===== *)
(** * GoPath

    Go's [path/filepath] on a Unix host, as far as the modelled code calls it.
    [Clean] is given by what it computes on the components of the path. *)
From S2P Require Import Prelude GoStrings.

(** [strings.Split(s, "/")] *)
Fixpoint split_slash (s : string) : list string :=
  match s with
  | EmptyString => [EmptyString]
  | String a s' =>
      if bool_decide (a = slash) then EmptyString :: split_slash s'
      else match split_slash s' with
           | w :: ws => String a w :: ws
           | [] => [String a EmptyString]
           end
  end.

Fixpoint join_slash (l : list string) : string :=
  match l with
  | [] => EmptyString
  | [w] => w
  | w :: l' => w +:+ "/" +:+ join_slash l'
  end.

Definition is_abs (p : string) : bool := has_prefix "/" p.

(** The components left after eliminating [.], [..] and empty ones; [acc] is the
    output so far, last component first. *)
Fixpoint clean_comps (rooted : bool) (acc comps : list string) : list string :=
  match comps with
  | [] => rev acc
  | c :: comps' =>
      if bool_decide (c = EmptyString) || bool_decide (c = ".") then clean_comps rooted acc comps'
      else if bool_decide (c = "..") then
        match acc with
        | top :: acc' =>
            if bool_decide (top = "..") then clean_comps rooted (".." :: acc) comps'
            else clean_comps rooted acc' comps'
        | [] => clean_comps rooted (if rooted then [] else [".."]) comps'
        end
      else clean_comps rooted (c :: acc) comps'
  end.

(** [filepath.Clean] *)
Definition filepath_clean (p : string) : string :=
  let rooted := is_abs p in
  let body := join_slash (clean_comps rooted [] (split_slash p)) in
  if rooted then "/" +:+ body
  else if bool_decide (body = EmptyString) then "." else body.

(** [filepath.Join(a, b)] *)
Definition filepath_join (a b : string) : string :=
  let parts := filter (.≠ EmptyString) [a; b] in
  if bool_decide (parts = []) then EmptyString else filepath_clean (join_slash parts).

(** [filepath.Dir] *)
Definition filepath_dir (p : string) : string :=
  match last_index slash p with
  | Some i => filepath_clean (str_take (S i) p)
  | None => "."
  end.

(** [filepath.Rel]; [None] is its error. *)
Fixpoint strip_common (a b : list string) : list string * list string :=
  match a, b with
  | x :: a', y :: b' => if bool_decide (x = y) then strip_common a' b' else (a, b)
  | _, _ => (a, b)
  end.

Definition path_comps (p : string) : list string := filter (λ c, c ≠ EmptyString ∧ c ≠ ".") (split_slash p).

Definition filepath_rel (base targ : string) : option string :=
  let base := filepath_clean base in
  let targ := filepath_clean targ in
  if bool_decide (targ = base) then Some "."
  else if negb (Bool.eqb (is_abs base) (is_abs targ)) then None
  else
    let (b, t) := strip_common (path_comps base) (path_comps targ) in
    if bool_decide (head b = Some "..") then None
    else Some (join_slash (((λ _, "..") <$> b) ++ t)).

(** [filepath.Clean] never leaves a [..] in a rooted path. *)
Lemma clean_comps_rooted acc comps :
  Forall (λ c, c ≠ "..") acc → Forall (λ c, c ≠ "..") (clean_comps true acc comps).
Proof.
  revert acc. induction comps as [|c comps IH]; intros acc Ha; cbn [clean_comps].
  { by apply Forall_rev. }
  destruct (_ || _); [auto|]. case_bool_decide as Hd.
  - destruct acc as [|top acc]; [by apply IH|]. apply Forall_cons in Ha as [Ht Ha].
    rewrite bool_decide_false by done. auto.
  - apply IH. by constructor.
Qed.

Example clean_ex : filepath_clean "/a/./b/../../c//d" = "/c/d".
Proof. reflexivity. Qed.
Example clean_up : filepath_clean "a/../../b" = "../b".
Proof. reflexivity. Qed.
Example rel_ex : filepath_rel "/w/x" "/w/y/z" = Some "../y/z".
Proof. reflexivity. Qed.
