(* ===== verification/Bounded.v ===== *)
(** * Bounded

    [governance/bounded]: the bounded cache ([cache.go], Module [Cache]) and the
    fixed-capacity ring ([ring.go], Module [Ring]).

    The cache is the pair the code keeps, a map of entries and an insertion-order
    slice; calls of the eviction hook are recorded in [log].  Every method runs
    under the cache's mutex, so a method is one transition.  The clock reading a
    method takes is an argument; [Sweep] reads the clock once per visited entry. *)
From S2P Require Import Prelude.

Module Cache.
Section cache.
Context {K V : Type} `{Countable K}.

Record cacheEntry := { value : V; insertedAt : Time }.

Record t := {
  cap : Z;
  ttl : Duration;
  entries : gmap K cacheEntry;
  order : list K;
  hook : bool;              (** an [onEvict] hook is configured *)
  log : list (K * V);       (** calls of [onEvict], oldest first *)
  evicted : Z;
  expired : Z
}.

Definition with_entries (f : gmap K cacheEntry → gmap K cacheEntry) (c : t) : t :=
  {| cap := cap c; ttl := ttl c; entries := f (entries c); order := order c;
     hook := hook c; log := log c; evicted := evicted c; expired := expired c |}.

Definition with_order (o : list K) (c : t) : t :=
  {| cap := cap c; ttl := ttl c; entries := entries c; order := o;
     hook := hook c; log := log c; evicted := evicted c; expired := expired c |}.

Definition call_hook (k : K) (v : V) (c : t) : t :=
  if hook c then
    {| cap := cap c; ttl := ttl c; entries := entries c; order := order c; hook := true;
       log := log c ++ [(k, v)]; evicted := evicted c; expired := expired c |}
  else c.

Definition add_evicted (c : t) : t :=
  {| cap := cap c; ttl := ttl c; entries := entries c; order := order c; hook := hook c;
     log := log c; evicted := wrapu64 (evicted c + 1); expired := expired c |}.

Definition add_expired (c : t) : t :=
  {| cap := cap c; ttl := ttl c; entries := entries c; order := order c; hook := hook c;
     log := log c; evicted := evicted c; expired := wrapu64 (expired c + 1) |}.

Definition NewCache (n : Z) (ttl : Duration) (hook : bool) : t :=
  {| cap := n; ttl := ttl; entries := ∅; order := []; hook := hook; log := [];
     evicted := 0; expired := 0 |}.

(** [removeLocked]: drops the entry and fires the hook; the order is untouched. *)
Definition removeLocked (k : K) (e : cacheEntry) (c : t) : t :=
  call_hook k (value e) (with_entries (delete k) c).

(** The entry's TTL has elapsed at [now]. *)
Definition ttl_elapsed (now : Time) (e : cacheEntry) (c : t) : bool :=
  negb ((ttl c <=? 0)%Z || time_is_zero (insertedAt e)) &&
  negb (time_sub now (insertedAt e) <? ttl c)%Z.

Definition expiredLocked (now : Time) (k : K) (e : cacheEntry) (c : t) : bool * t :=
  if (ttl c <=? 0)%Z || time_is_zero (insertedAt e) then (false, c)
  else if (time_sub now (insertedAt e) <? ttl c)%Z then (false, c)
  else (true, add_expired (removeLocked k e c)).

Definition Get (now : Time) (k : K) (c : t) : option V * t :=
  match entries c !! k with
  | None => (None, c)
  | Some e =>
      let '(dead, c') := expiredLocked now k e c in
      if dead then (None, c') else (Some (value e), c')
  end.

(** Drop the first occurrence of [k]. *)
Fixpoint remove_first (k : K) (l : list K) : list K :=
  match l with
  | [] => []
  | x :: l' => if decide (x = k) then l' else x :: remove_first k l'
  end.

Definition removeFromOrderLocked (k : K) (c : t) : t :=
  with_order (remove_first k (order c)) c.

Definition touchLocked (k : K) (c : t) : t :=
  if decide (k ∈ order c) then with_order (remove_first k (order c) ++ [k]) c else c.

(** [for len(c.order) > c.cap { ... }]; [ord] is the current order slice. *)
Fixpoint evict_loop (ord : list K) (c : t) : t :=
  match ord with
  | [] => with_order [] c
  | oldest :: rest =>
      if (cap c <? Z.of_nat (length ord))%Z then
        let c1 := with_order rest c in
        let c2 := match entries c1 !! oldest with
                  | Some e => add_evicted (removeLocked oldest e c1)
                  | None => c1
                  end in
        evict_loop rest c2
      else with_order ord c
  end.

Definition Put (now : Time) (k : K) (v : V) (c : t) : t :=
  if (cap c <=? 0)%Z then add_evicted (call_hook k v c)
  else match entries c !! k with
       | Some _ => touchLocked k (with_entries (<[k := {| value := v; insertedAt := now |}]>) c)
       | None =>
           let c1 := with_entries (<[k := {| value := v; insertedAt := now |}]>) c in
           evict_loop (order c ++ [k]) c1
       end.

Definition Delete (k : K) (c : t) : t :=
  match entries c !! k with
  | Some e => removeFromOrderLocked k (removeLocked k e c)
  | None => c
  end.

(** [cond = None] is a nil predicate. *)
Definition TakeIf (now : Time) (k : K) (cond : option (V → bool)) (c : t) : option V * t :=
  match entries c !! k with
  | None => (None, c)
  | Some e =>
      let '(dead, c') := expiredLocked now k e c in
      if dead then (None, c')
      else if match cond with None => true | Some p => p (value e) end
           then (Some (value e), removeFromOrderLocked k (removeLocked k e c'))
           else (Some (value e), c')
  end.

Definition Len (c : t) : nat := size (entries c).

(** The loop of [Sweep] over the copied order; [clock i] is the reading at the
    [i]-th entry the loop finds live in the map. *)
Fixpoint sweep_loop (clock : nat → Time) (ks : list K) (removed i : nat) (c : t) : nat * t :=
  match ks with
  | [] => (removed, c)
  | k :: ks' =>
      match entries c !! k with
      | None => sweep_loop clock ks' removed i c
      | Some e =>
          let '(dead, c') := expiredLocked (clock i) k e c in
          sweep_loop clock ks' (if dead then S removed else removed) (S i) c'
      end
  end.

Definition Sweep (clock : nat → Time) (c : t) : nat * t :=
  let '(removed, c') := sweep_loop clock (order c) 0 0 c in
  if decide (removed = 0) then (removed, c')
  else (removed, with_order (filter (λ k, is_Some (entries c' !! k)) (order c')) c').

Definition Reset (c : t) : t := with_order [] (with_entries (λ _, ∅) c).

(** [Range] visits the map in the order [visit]; [fn] threads the caller's state
    and returns [false] to stop. *)
Fixpoint Range {S : Type} (now : Time) (fn : S → K → V → S * bool)
    (visit : list (K * cacheEntry)) (c : t) (s : S) : S :=
  match visit with
  | [] => s
  | (k, e) :: visit' =>
      if (0 <? ttl c)%Z && (ttl c <=? time_sub now (insertedAt e))%Z
      then Range now fn visit' c s
      else let '(s', go) := fn s k (value e) in
           if go then Range now fn visit' c s' else s'
  end.

(** ** Field lemmas *)
Lemma call_hook_fields k v c :
  cap (call_hook k v c) = cap c ∧ ttl (call_hook k v c) = ttl c ∧
  entries (call_hook k v c) = entries c ∧ order (call_hook k v c) = order c.
Proof. unfold call_hook. by destruct (hook c). Qed.

Lemma removeLocked_fields k e c :
  cap (removeLocked k e c) = cap c ∧ ttl (removeLocked k e c) = ttl c ∧
  entries (removeLocked k e c) = delete k (entries c) ∧ order (removeLocked k e c) = order c.
Proof. unfold removeLocked, call_hook. by destruct (hook _). Qed.

Lemma expiredLocked_spec now k e c :
  let '(dead, c') := expiredLocked now k e c in
  dead = ttl_elapsed now e c ∧ cap c' = cap c ∧ ttl c' = ttl c ∧ order c' = order c ∧
  entries c' = if dead then delete k (entries c) else entries c.
Proof.
  unfold expiredLocked, ttl_elapsed.
  destruct (_ || _); simpl; [done|]. destruct (_ <? _)%Z; simpl; [done|].
  destruct (removeLocked_fields k e c) as (? & ? & ? & ?). done.
Qed.

Lemma elem_of_remove_first x k l : x ∈ remove_first k l → x ∈ l.
Proof.
  induction l as [|y l IH]; simpl; [done|].
  case_decide; [by right|]. rewrite !elem_of_cons. naive_solver.
Qed.

Lemma elem_of_remove_first_ne x k l : x ≠ k → x ∈ l → x ∈ remove_first k l.
Proof.
  intros Hne. induction l as [|y l IH]; simpl; [done|].
  case_decide; rewrite !elem_of_cons; naive_solver.
Qed.

Lemma length_remove_first k l : length (remove_first k l) ≤ length l.
Proof. induction l as [|y l IH]; simpl; [done|]. case_decide; simpl; lia. Qed.

Lemma length_remove_first_elem k l : k ∈ l → S (length (remove_first k l)) = length l.
Proof.
  induction l as [|y l IH]; simpl; [by intros ?%elem_of_nil|].
  intros [->|Hk]%elem_of_cons; case_decide; simpl; naive_solver.
Qed.

Lemma NoDup_remove_first k l : NoDup l → NoDup (remove_first k l) ∧ k ∉ remove_first k l.
Proof.
  induction 1 as [|y l Hy Hl [IH1 IH2]]; simpl; [split; [constructor|apply not_elem_of_nil]|].
  case_decide; [subst; done|]. rewrite NoDup_cons, elem_of_cons.
  split; [split; [|done]|naive_solver]. contradict Hy. by eapply elem_of_remove_first.
Qed.

(** ** The eviction loop

    It drops the oldest [length ord - cap] keys of the order and every entry
    under one of them. *)
Lemma evict_loop_spec ord c :
  let n := length ord - Z.to_nat (cap c) in
  cap (evict_loop ord c) = cap c ∧ ttl (evict_loop ord c) = ttl c ∧
  order (evict_loop ord c) = drop n ord ∧
  ∀ k, entries (evict_loop ord c) !! k =
       if decide (k ∈ take n ord) then None else entries c !! k.
Proof.
  revert c; induction ord as [|x rest IH]; intros c; cbn [evict_loop].
  { rewrite drop_nil, take_nil. split_and!; [done..|].
    intros k. by rewrite decide_False by apply not_elem_of_nil. }
  destruct (Z.ltb_spec (cap c) (Z.of_nat (length (x :: rest)))) as [Hlt|Hge].
  - set (c2 := match _ with Some _ => _ | None => _ end).
    assert (cap c2 = cap c ∧ ttl c2 = ttl c ∧
            ∀ k, entries c2 !! k = if decide (k = x) then None else entries c !! k)
      as (Hcap & Httl & Hent).
    { subst c2. change (entries (with_order rest c)) with (entries c).
      destruct (entries c !! x) as [e|] eqn:Ex.
      - destruct (removeLocked_fields x e (with_order rest c)) as (? & ? & He & _).
        cbn [add_evicted cap ttl entries with_order]. split_and!; [done..|].
        intros k. rewrite He. simpl. rewrite lookup_delete. repeat case_decide; congruence.
      - split_and!; [done..|]. intros k. case_decide; [by subst|done]. }
    destruct (IH c2) as (Hc & Ht & Ho & He). rewrite Hc, Ht, Ho, Hcap, Httl.
    simpl length in *.
    replace (S (length rest) - Z.to_nat (cap c)) with
      (S (length rest - Z.to_nat (cap c))) by lia. rewrite skipn_cons, firstn_cons.
    split_and!; [done..|]. intros k. rewrite He, Hcap, Hent.
    repeat case_decide; set_solver.
  - simpl length in *.
    replace (S (length rest) - Z.to_nat (cap c)) with 0 by lia.
    rewrite take_0, drop_0.
    split_and!; [done..|]. intros k. by rewrite decide_False by apply not_elem_of_nil.
Qed.

(** ** Well-formedness *)

(** Every entry is in the order, and the order never exceeds the capacity. *)
Record wf (c : t) : Prop := {
  wf_order : ∀ k, is_Some (entries c !! k) → k ∈ order c;
  wf_len : (Z.of_nat (length (order c)) <= Z.max 0 (cap c))%Z
}.

Lemma wf_size c : wf c → (Z.of_nat (Len c) <= Z.max 0 (cap c))%Z.
Proof.
  intros [Ho Hl]. unfold Len.
  assert (size (entries c) <= length (order c)); [|lia].
  rewrite <- size_dom. trans (size (list_to_set (order c) : gset K)).
  - apply subseteq_size. intros k Hk%elem_of_dom. apply elem_of_list_to_set. auto.
  - apply size_list_to_set_le.
Qed.

(** The transitions of a cache: one per mutating method, at any clock reading. *)
Inductive step : t → t → Prop :=
| step_get now k c : step c (Get now k c).2
| step_put now k v c : step c (Put now k v c)
| step_delete k c : step c (Delete k c)
| step_take now k cond c : step c (TakeIf now k cond c).2
| step_sweep clock c : step c (Sweep clock c).2
| step_reset c : step c (Reset c).

Lemma wf_new n ttl hook : wf (NewCache n ttl hook).
Proof.
  split; simpl; [|lia]. intros k. rewrite lookup_empty. by intros [? ?].
Qed.

(** Dropping entries keeps a cache well formed. *)
Lemma wf_drop_entry k c c' :
  wf c → cap c' = cap c → order c' = order c →
  entries c' = delete k (entries c) ∨ entries c' = entries c → wf c'.
Proof.
  intros [Ho Hl] Hc Hor He. split; [|by rewrite Hor, Hc].
  intros k' Hk'. rewrite Hor. apply Ho. destruct He as [He|He]; rewrite He in Hk'; [|done].
  by apply lookup_delete_is_Some in Hk' as [_ ?].
Qed.

Lemma wf_expired now k e c : wf c → wf (expiredLocked now k e c).2.
Proof.
  intros Hwf. pose proof (expiredLocked_spec now k e c) as Hs.
  destruct (expiredLocked now k e c) as [dead c']. destruct Hs as (_ & Hc & _ & Ho & He).
  apply (wf_drop_entry k c); [done..|]. destruct dead; auto.
Qed.

Lemma wf_remove k e c : wf c → wf (removeFromOrderLocked k (removeLocked k e c)).
Proof.
  intros [Ho Hl]. destruct (removeLocked_fields k e c) as (Hc & _ & He & Hor).
  split; simpl; rewrite ?Hc, ?Hor, ?He.
  - intros k' [Hne Hk']%lookup_delete_is_Some. apply elem_of_remove_first_ne; [congruence|auto].
  - pose proof (length_remove_first k (order c)). lia.
Qed.

Lemma wf_put now k v c : wf c → wf (Put now k v c).
Proof.
  intros [Ho Hl]. unfold Put. destruct (Z.leb_spec (cap c) 0).
  { destruct (call_hook_fields k v c) as (Hc & _ & He & Hor).
    split; simpl; rewrite ?Hc, ?He, ?Hor; auto. }
  destruct (entries c !! k) eqn:Ek.
  - unfold touchLocked. simpl. assert (k ∈ order c) as Hk by (apply Ho; by rewrite Ek).
    rewrite decide_True by done. split; simpl.
    + intros k'. destruct (decide (k' = k)) as [->|]; [set_solver|].
      rewrite lookup_insert_ne by done. intros Hk'%Ho.
      apply elem_of_app; left. by apply elem_of_remove_first_ne.
    + rewrite length_app. pose proof (length_remove_first_elem k (order c) Hk). simpl. lia.
  - set (c1 := with_entries _ c).
    destruct (evict_loop_spec (order c ++ [k]) c1) as (Hc & _ & Hor & He).
    split.
    + intros k' Hk'. rewrite Hor. rewrite He in Hk'. case_decide as Hin.
      { by destruct Hk'. }
      assert (k' ∈ order c ++ [k]) as Hall.
      { subst c1. simpl in Hk'. destruct (decide (k' = k)) as [->|]; [set_solver|].
        rewrite lookup_insert_ne in Hk' by done. apply Ho in Hk'. set_solver. }
      rewrite <- (take_drop (length (order c ++ [k]) - Z.to_nat (cap c1)) (order c ++ [k])) in Hall.
      apply elem_of_app in Hall as [?|?]; [done|done].
    + rewrite Hor, Hc, length_drop, length_app. simpl. lia.
Qed.

Lemma sweep_loop_fields clock ks removed i c :
  let c' := (sweep_loop clock ks removed i c).2 in
  cap c' = cap c ∧ order c' = order c ∧ ∀ k, is_Some (entries c' !! k) → is_Some (entries c !! k).
Proof.
  revert removed i c; induction ks as [|k ks IH]; intros removed i c; simpl; [done|].
  destruct (entries c !! k) as [e|] eqn:Ek; [|apply IH].
  pose proof (expiredLocked_spec (clock i) k e c) as Hs.
  destruct (expiredLocked (clock i) k e c) as [dead c1]. destruct Hs as (_ & Hc & _ & Ho & He).
  destruct (IH (if dead then S removed else removed) (S i) c1) as (Hc' & Ho' & Hk').
  rewrite Hc', Ho', Hc, Ho. split_and!; [done..|]. intros k' Hk%Hk'.
  rewrite He in Hk. destruct dead; [|done]. by apply lookup_delete_is_Some in Hk as [_ ?].
Qed.

Lemma wf_sweep clock c : wf c → wf (Sweep clock c).2.
Proof.
  intros [Ho Hl]. unfold Sweep.
  pose proof (sweep_loop_fields clock (order c) 0 0 c) as Hs.
  destruct (sweep_loop clock (order c) 0 0 c) as [removed c']. simpl in Hs.
  destruct Hs as (Hc & Hor & He).
  case_decide; simpl; split; simpl; rewrite ?Hc, ?Hor; auto.
  - intros k Hk. apply list_elem_of_filter. auto.
  - pose proof (length_filter (λ k, is_Some (entries c' !! k)) (order c)). lia.
Qed.

Lemma wf_step c c' : step c c' → wf c → wf c'.
Proof.
  intros Hs Hwf. inversion Hs; subst; [..|split; simpl; [|lia]].
  - unfold Get. destruct (entries c !! k) as [e|]; [|done].
    pose proof (wf_expired now k e c Hwf). by destruct (expiredLocked now k e c) as [[] ?].
  - by apply wf_put.
  - unfold Delete. destruct (entries c !! k); [|done]. by apply wf_remove.
  - unfold TakeIf. destruct (entries c !! k) as [e|]; [|done].
    pose proof (wf_expired now k e c Hwf). destruct (expiredLocked now k e c) as [[] ?]; [done|].
    destruct cond as [p|]; [destruct (p _)|]; [|done|]; by apply wf_remove.
  - by apply wf_sweep.
  - intros k. rewrite lookup_empty. by intros [? ?].
Qed.

Lemma step_cap c c' : step c c' → cap c' = cap c.
Proof.
  intros Hs. inversion Hs; subst; [..|done].
  - unfold Get. destruct (entries c !! k) as [e|]; [|done].
    pose proof (expiredLocked_spec now k e c).
    destruct (expiredLocked now k e c) as [[] ?]; simpl; naive_solver.
  - unfold Put. destruct (_ <=? _)%Z.
    { simpl. by destruct (call_hook_fields k v c) as (? & _). }
    destruct (entries c !! k).
    + unfold touchLocked. by case_decide.
    + by destruct (evict_loop_spec (order c ++ [k])
        (with_entries (<[k := {| value := v; insertedAt := now |}]>) c)) as (? & _).
  - unfold Delete. destruct (entries c !! k) as [e|]; [|done]. simpl.
    by destruct (removeLocked_fields k e c) as (? & _).
  - unfold TakeIf. destruct (entries c !! k) as [e|]; [|done].
    pose proof (expiredLocked_spec now k e c) as Hx.
    destruct (expiredLocked now k e c) as [[] c1]; simpl; [naive_solver|].
    destruct Hx as (_ & Hc & _). destruct cond as [p|]; [destruct (p _)|]; simpl; try done;
      by destruct (removeLocked_fields k e c1) as (-> & _).
  - unfold Sweep. pose proof (sweep_loop_fields clock (order c) 0 0 c) as Hx.
    destruct (sweep_loop _ _ _ _ _). case_decide; simpl; naive_solver.
Qed.

Lemma wf_reachable n ttl hook c : rtc step (NewCache n ttl hook) c → wf c ∧ cap c = n.
Proof.
  intros Hr. change n with (cap (NewCache n ttl hook)).
  pose proof (wf_new n ttl hook) as Hwf. revert Hwf.
  induction Hr as [c|c c' c'' Hs _ IH]; intros Hwf; [done|].
  destruct (IH (wf_step _ _ Hs Hwf)) as [? ->]. split; [done|]. by apply step_cap.
Qed.

(** ** Refinement of an LRU list

    The abstract cache is the list of its bindings, oldest first.  A cache is
    [clean] when its order lists exactly its live keys, once each. *)
Record clean (c : t) : Prop := {
  clean_wf : wf c;
  clean_nodup : NoDup (order c);
  clean_live : ∀ k, k ∈ order c → is_Some (entries c !! k)
}.

Definition binding (c : t) (k : K) : option (K * V) :=
  (λ e, (k, value e)) <$> entries c !! k.

Definition abs (c : t) : list (K * V) := omap (binding c) (order c).

Definition lru_put (n : nat) (k : K) (v : V) (l : list (K * V)) : list (K * V) :=
  let l' := filter (λ kv, kv.1 ≠ k) l ++ [(k, v)] in
  drop (length l' - n) l'.

Lemma remove_first_filter k (l : list K) : NoDup l → remove_first k l = filter (λ x, x ≠ k) l.
Proof.
  induction 1 as [|y l Hy Hl IH]; simpl; [done|]. rewrite filter_cons.
  destruct (decide (y = k)) as [->|Hne].
  - rewrite decide_False by naive_solver. symmetry. apply list_filter_all.
    intros x Hx ->. done.
  - rewrite decide_True by done. by rewrite IH.
Qed.

Lemma omap_filter_key (f : K → option (K * V)) k (l : list K) :
  (∀ x kv, f x = Some kv → kv.1 = x) →
  omap f (filter (λ x, x ≠ k) l) = filter (λ kv, kv.1 ≠ k) (omap f l).
Proof.
  intros Hf. induction l as [|x l IH]; [done|]. csimpl.
  destruct (f x) as [kv|] eqn:E; [pose proof (Hf _ _ E)|];
    destruct (decide (x = k)) as [->|Hne].
  - rewrite !filter_cons_False by naive_solver. done.
  - rewrite !filter_cons_True by congruence. csimpl. by rewrite E, IH.
  - rewrite filter_cons_False by naive_solver. done.
  - rewrite filter_cons_True by congruence. csimpl. by rewrite E, IH.
Qed.

Lemma binding_key c x kv : binding c x = Some kv → kv.1 = x.
Proof. unfold binding. intros (e & _ & ->)%fmap_Some. done. Qed.

Lemma omap_all_drop {A B} (f : A → option B) n (l : list A) :
  (∀ x, x ∈ l → is_Some (f x)) →
  omap f (drop n l) = drop n (omap f l) ∧ length (omap f l) = length l.
Proof.
  revert n; induction l as [|x l IH]; intros n Hl; [by destruct n|].
  destruct (Hl x) as [y Hy]; [set_solver|]. csimpl. rewrite Hy.
  destruct n as [|n]; csimpl; rewrite ?Hy.
  - destruct (IH 0) as [_ ->]; [set_solver|done].
  - destruct (IH n) as [-> ->]; [set_solver|done].
Qed.

Lemma omap_ext_elem {A B} (f g : A → option B) (l : list A) :
  (∀ x, x ∈ l → f x = g x) → omap f l = omap g l.
Proof.
  induction l as [|x l IH]; intros Hfg; [done|]. csimpl.
  rewrite Hfg, IH by set_solver. done.
Qed.

Lemma binding_insert k v now c x :
  binding (with_entries (<[k := {| value := v; insertedAt := now |}]>) c) x =
  if decide (x = k) then Some (k, v) else binding c x.
Proof.
  unfold binding. simpl. destruct (decide (x = k)) as [->|].
  - by rewrite lookup_insert_eq.
  - by rewrite lookup_insert_ne.
Qed.

(** Replacing a live key moves it to the newest end of the abstract list. *)
Lemma put_existing now k v c :
  clean c → (0 < cap c)%Z → is_Some (entries c !! k) →
  clean (Put now k v c) ∧
  abs (Put now k v c) = lru_put (Z.to_nat (cap c)) k v (abs c).
Proof.
  intros Hcl Hcap [e Ek]. pose proof (wf_put now k v c (clean_wf _ Hcl)) as Hwf'. revert Hwf'.
  destruct Hcl as [[Ho Hl] Hnd Hlive].
  assert (k ∈ order c) as Hk by (apply Ho; by rewrite Ek).
  unfold Put. rewrite Ek. destruct (Z.leb_spec (cap c) 0); [lia|].
  unfold touchLocked. rewrite decide_True by done. intros Hwf'.
  destruct (NoDup_remove_first k (order c) Hnd) as [Hnd' Hnin]. split.
  - split; simpl; [done| |].
    + by apply NoDup_snoc.
    + intros k' [Hk'|Hk']%elem_of_app.
      * apply elem_of_remove_first, Hlive in Hk'. apply lookup_insert_is_Some.
        destruct (decide (k = k')); auto.
      * apply list_elem_of_singleton in Hk' as ->. by rewrite lookup_insert_eq.
  - unfold abs at 1, lru_put. simpl.
    change (order (with_entries _ c)) with (order c). rewrite omap_app. simpl.
    change (binding (with_order _ ?c')) with (binding c').
    rewrite binding_insert, decide_True by done.
    rewrite (omap_ext_elem _ (binding c)).
    2:{ intros x Hx. rewrite binding_insert, decide_False; [done|]. by intros ->. }
    rewrite remove_first_filter, (omap_filter_key _ k _ (binding_key c)) by done.
    symmetry. rewrite length_app. simpl.
    assert (S (length (filter (λ kv : K * V, kv.1 ≠ k) (abs c))) <= length (order c)).
    { unfold abs. rewrite <- (omap_filter_key _ k _ (binding_key c)), <- remove_first_filter by done.
      rewrite <- (length_remove_first_elem k (order c) Hk).
      destruct (omap_all_drop (binding c) 0 (remove_first k (order c))) as [_ ->]; [|done].
      intros x Hx%elem_of_remove_first%Hlive. unfold binding. by apply fmap_is_Some. }
    unfold abs in *.
    match goal with |- drop ?n _ = _ => replace n with 0 by lia end. done.
Qed.

(** A new key is appended; past the capacity the oldest binding goes. *)
Lemma put_new now k v c :
  clean c → (0 < cap c)%Z → entries c !! k = None →
  clean (Put now k v c) ∧
  abs (Put now k v c) = lru_put (Z.to_nat (cap c)) k v (abs c).
Proof.
  intros Hcl Hcap Ek. pose proof (wf_put now k v c (clean_wf _ Hcl)) as Hwf'. revert Hwf'.
  destruct Hcl as [[Ho Hl] Hnd Hlive].
  assert (k ∉ order c) as Hk by (intros [? ?]%Hlive; congruence).
  unfold Put. rewrite Ek. destruct (Z.leb_spec (cap c) 0); [lia|]. intros Hwf'.
  set (c1 := with_entries _ c) in *. set (ord := order c ++ [k]) in *.
  assert (NoDup ord) as Hno by by apply NoDup_snoc.
  destruct (evict_loop_spec ord c1) as (_ & _ & Hor & He).
  change (cap c1) with (cap c) in *. set (n := length ord - Z.to_nat (cap c)) in *.
  assert (∀ x, x ∈ drop n ord → x ∉ take n ord) as Hdisj.
  { rewrite <- (take_drop n ord) in Hno. apply NoDup_app in Hno as (_ & Hd & _). set_solver. }
  assert (∀ x, x ∈ ord → is_Some (binding c1 x)) as Hall.
  { intros x Hx. subst c1. rewrite binding_insert. case_decide; [done|].
    apply fmap_is_Some, Hlive. subst ord. set_solver. }
  split.
  - split; [done|rewrite Hor; by apply NoDup_drop|].
    intros x Hx. rewrite Hor in Hx. rewrite He, decide_False by auto.
    apply (fmap_is_Some (λ e, (x, value e))), Hall. eapply elem_of_drop; eauto.
  - unfold abs at 1. rewrite Hor, (omap_ext_elem _ (binding c1)).
    2:{ intros x Hx. unfold binding. by rewrite He, decide_False by auto. }
    destruct (omap_all_drop (binding c1) n ord Hall) as [-> Hlen].
    assert (omap (binding c1) ord = abs c ++ [(k, v)]) as Habs.
    { subst ord. rewrite omap_app. simpl. subst c1. rewrite binding_insert, decide_True by done.
      f_equal. apply omap_ext_elem. intros x Hx. rewrite binding_insert, decide_False; [done|].
      by intros ->. }
    unfold lru_put. rewrite list_filter_all.
    2:{ intros [x w] (y & Hy & Hb)%list_elem_of_omap. apply binding_key in Hb. simpl in *.
        by intros ->; subst. }
    rewrite Habs in *. by rewrite Hlen.
Qed.

Lemma put_lookup now k v c :
  clean c → (0 < cap c)%Z →
  entries (Put now k v c) !! k = Some {| value := v; insertedAt := now |} ∧
  ttl (Put now k v c) = ttl c.
Proof.
  intros [[Ho Hl] Hnd Hlive] Hcap. unfold Put. destruct (Z.leb_spec (cap c) 0); [lia|].
  destruct (entries c !! k) eqn:Ek.
  - unfold touchLocked. case_decide; simpl; by rewrite lookup_insert_eq.
  - destruct (evict_loop_spec (order c ++ [k])
      (with_entries (<[k := {| value := v; insertedAt := now |}]>) c)) as (_ & -> & _ & ->).
    simpl. split; [|done]. rewrite decide_False; [by rewrite lookup_insert_eq|].
    rewrite length_app. simpl. rewrite take_app_le by lia.
    intros Hk%elem_of_take. destruct Hk as (i & Hi & _).
    apply list_elem_of_lookup_2, Hlive in Hi as [? ?]. congruence.
Qed.

(** Every reachable cache holds at most its capacity: from [NewCache]
    through any sequence of [Get], [Put], [Delete], [TakeIf], [Sweep] and [Reset]
    calls, at any clock readings, [Len] never exceeds [max 0 cap]. *)
Theorem cache_bounded n ttl hook c :
  rtc step (NewCache n ttl hook) c → (Z.of_nat (Len c) <= Z.max 0 n)%Z.
Proof. intros [Hwf <-]%wf_reachable. by apply wf_size. Qed.

(** C37: On a clean cache with positive capacity [Put] is the LRU insertion of
    the abstract list (the key becomes the newest, the oldest binding goes past
    the capacity), the cache stays clean, and a [Get] of that key before its TTL
    elapses returns the value put. *)
Theorem put_refines_lru now now' k v c :
  clean c → (0 < cap c)%Z →
  clean (Put now k v c) ∧
  abs (Put now k v c) = lru_put (Z.to_nat (cap c)) k v (abs c) ∧
  ((ttl c <= 0 ∨ time_sub now' now < ttl c)%Z → (Get now' k (Put now k v c)).1 = Some v).
Proof.
  intros Hcl Hcap.
  assert (clean (Put now k v c) ∧ abs (Put now k v c) = lru_put (Z.to_nat (cap c)) k v (abs c))
    as [Hcl' Habs].
  { destruct (entries c !! k) eqn:Ek; [apply put_existing|apply put_new]; eauto. }
  split_and!; [done..|]. intros Httl.
  assert (entries (Put now k v c) !! k = Some {| value := v; insertedAt := now |} ∧
          ttl (Put now k v c) = ttl c) as [Hk Ht] by by apply put_lookup.
  unfold Get. rewrite Hk. pose proof (expiredLocked_spec now' k
    {| value := v; insertedAt := now |} (Put now k v c)) as Hs.
  destruct (expiredLocked _ _ _ _) as [dead c'].
  destruct Hs as (-> & _). unfold ttl_elapsed. rewrite Ht. simpl.
  destruct Httl; [rewrite (proj2 (Z.leb_le _ _)) by lia; done|].
  rewrite (proj2 (Z.ltb_lt _ _)) by lia. by rewrite andb_false_r.
Qed.

(** ** Exactly-once consumption *)

(** A sequence of [TakeIf] calls on one key, with the results of each. *)
Fixpoint takes (k : K) (cond : V → bool) (times : list Time) (c : t) : list (option V) * t :=
  match times with
  | [] => ([], c)
  | now :: times' =>
      let '(r, c1) := TakeIf now k (Some cond) c in
      let '(rs, c2) := takes k cond times' c1 in
      (r :: rs, c2)
  end.

(** The call returned a value it also removed. *)
Definition consumed (cond : V → bool) (r : option V) : bool :=
  match r with Some v => cond v | None => false end.

Lemma take_gone now k cond c :
  entries c !! k = None → TakeIf now k cond c = (None, c).
Proof. unfold TakeIf. by intros ->. Qed.

Lemma takes_gone k cond times c :
  entries c !! k = None → Forall (.= None) (takes k cond times c).1.
Proof.
  intros Hk. induction times as [|now times IH]; simpl; [constructor|].
  rewrite take_gone by done. destruct (takes k cond times c) as [rs c2]. by constructor.
Qed.

Lemma TakeIf_consumed now k cond c v c' :
  TakeIf now k (Some cond) c = (Some v, c') → cond v = true → entries c' !! k = None.
Proof.
  unfold TakeIf. destruct (entries c !! k) as [e|] eqn:Ek; [|done].
  destruct (expiredLocked now k e c) as [[] c1]; [done|].
  destruct (cond (value e)) eqn:Hc; intros; simplify_eq; [|congruence].
  simpl. destruct (removeLocked_fields k e c1) as (_ & _ & -> & _). apply lookup_delete_eq.
Qed.

Lemma not_consumed_filter cond (rs : list (option V)) :
  Forall (.= None) rs → filter (λ r, consumed cond r = true) rs = [].
Proof. induction 1 as [|r rs -> _ IH]; [done|]. by rewrite filter_cons_False. Qed.

(** Exactly-once consumption: however many [TakeIf] calls race for one
    key, in whatever order they take the lock and at whatever times, at most one
    of them consumes the value; from a cache where the value is live at the first
    call and satisfies the condition, exactly one does. *)
Theorem takeif_exactly_once k cond times c :
  length (filter (λ r, consumed cond r = true) (takes k cond times c).1) ≤ 1 ∧
  ∀ now times' e, times = now :: times' → entries c !! k = Some e →
    cond (value e) = true → ttl_elapsed now e c = false →
    length (filter (λ r, consumed cond r = true) (takes k cond times c).1) = 1.
Proof.
  assert (∀ now times c v c1, TakeIf now k (Some cond) c = (Some v, c1) → cond v = true →
    length (filter (λ r, consumed cond r = true) (takes k cond (now :: times) c).1) = 1) as Hone.
  { clear. intros now times c v c1 Ht Hc. simpl. rewrite Ht.
    pose proof (takes_gone k cond times c1 (TakeIf_consumed _ _ _ _ _ _ Ht Hc)) as Hg.
    destruct (takes k cond times c1) as [rs c2].
    cbn [fst]. rewrite filter_cons_True by done. by rewrite not_consumed_filter. }
  split.
  - revert c. induction times as [|now times IH]; intros c; [simpl; lia|].
    destruct (TakeIf now k (Some cond) c) as [r c1] eqn:Ht.
    destruct (consumed cond r) eqn:Hr.
    + destruct r as [v|]; [|done]. erewrite Hone; [lia|done..].
    + simpl. rewrite Ht. specialize (IH c1). destruct (takes k cond times c1) as [rs c2].
      cbn [fst]. rewrite filter_cons_False by congruence. done.
  - intros now times' e -> He Hc Hl.
    destruct (TakeIf now k (Some cond) c) as [r c1] eqn:Ht.
    enough (r = Some (value e)) as -> by eauto.
    revert Ht. unfold TakeIf. rewrite He. pose proof (expiredLocked_spec now k e c) as Hs.
    destruct (expiredLocked now k e c) as [dead c2]. destruct Hs as (Hd & _).
    rewrite Hd, Hl. cbn iota. rewrite Hc. congruence.
Qed.

(** ** Sweep *)
Lemma sweep_loop_entries now ks removed i c k :
  entries (sweep_loop (λ _, now) ks removed i c).2 !! k =
  if decide (k ∈ ks) then
    e ← entries c !! k; if ttl_elapsed now e c then None else Some e
  else entries c !! k.
Proof.
  revert removed i c; induction ks as [|x ks IH]; intros removed i c; cbn [sweep_loop].
  { by rewrite decide_False by apply not_elem_of_nil. }
  destruct (entries c !! x) as [e|] eqn:Ex.
  - pose proof (expiredLocked_spec now x e c) as Hs.
    destruct (expiredLocked now x e c) as [dead c1]. destruct Hs as (Hd & _ & Ht & _ & He).
    rewrite IH.
    assert (∀ e', ttl_elapsed now e' c1 = ttl_elapsed now e' c) as Hel
      by (intros; unfold ttl_elapsed; by rewrite Ht).
    rewrite He. destruct (decide (k = x)) as [->|Hne].
    + rewrite (decide_True (P := x ∈ x :: ks)) by set_solver. rewrite Ex. simpl. rewrite <- Hd.
      destruct dead; [rewrite lookup_delete_eq|rewrite Ex]; simpl; case_decide; try done.
      by rewrite Hel, <- Hd.
    + assert ((if dead then delete x (entries c) else entries c) !! k = entries c !! k) as ->
        by (destruct dead; [by rewrite lookup_delete_ne|done]).
      repeat case_decide; try set_solver. destruct (entries c !! k) as [e'|]; simpl; [|done].
      by rewrite Hel.
  - rewrite IH. destruct (decide (k = x)) as [->|Hne].
    + rewrite Ex. simpl. by repeat case_decide.
    + repeat case_decide; set_solver.
Qed.

Lemma sweep_loop_count now ks removed i c :
  (∀ k e, k ∈ ks → entries c !! k = Some e → ttl_elapsed now e c = false) →
  sweep_loop (λ _, now) ks removed i c = (removed, c).
Proof.
  revert i; induction ks as [|k ks IH]; intros i Hks; simpl; [done|].
  destruct (entries c !! k) as [e|] eqn:Ek; [|apply IH; set_solver].
  specialize (Hks k e ltac:(set_solver) Ek) as Hl. unfold expiredLocked, ttl_elapsed in *.
  destruct (_ || _); simpl in *; [apply IH; set_solver|].
  destruct (_ <? _)%Z; simpl in *; [apply IH; set_solver|done].
Qed.

Lemma sweep_loop_ttl clock ks removed i c :
  ttl (sweep_loop clock ks removed i c).2 = ttl c.
Proof.
  revert removed i c; induction ks as [|k ks IH]; intros removed i c; simpl; [done|].
  destruct (entries c !! k) as [e|]; [|apply IH].
  pose proof (expiredLocked_spec (clock i) k e c) as Hs.
  destruct (expiredLocked (clock i) k e c) as [dead c1].
  rewrite IH. naive_solver.
Qed.

(** With a steady clock [Sweep] removes exactly the entries whose TTL has
    elapsed and keeps every other one, and a second [Sweep] removes nothing. *)
Theorem sweep_exact_idempotent now c :
  wf c →
  (∀ k, entries (Sweep (λ _, now) c).2 !! k =
        e ← entries c !! k; if ttl_elapsed now e c then None else Some e) ∧
  (Sweep (λ _, now) (Sweep (λ _, now) c).2).1 = 0.
Proof.
  intros [Ho Hl].
  assert (ttl (Sweep (λ _, now) c).2 = ttl c) as Ht.
  { unfold Sweep. pose proof (sweep_loop_ttl (λ _, now) (order c) 0 0 c).
    destruct (sweep_loop _ _ _ _ _). by case_decide. }
  assert (∀ k, entries (Sweep (λ _, now) c).2 !! k =
        e ← entries c !! k; if ttl_elapsed now e c then None else Some e) as He.
  { intros k. pose proof (sweep_loop_entries now (order c) 0 0 c k) as Hk.
    unfold Sweep. destruct (sweep_loop _ _ _ _ _) as [removed c'].
    destruct (decide (removed = 0)); simpl in *; rewrite Hk; case_decide as Hin; try done;
      (destruct (entries c !! k) eqn:E; [|done]; exfalso; apply Hin, Ho; by rewrite E). }
  split; [done|]. set (c' := (Sweep (λ _, now) c).2) in *. unfold Sweep at 1.
  rewrite sweep_loop_count.
  - by destruct (decide _).
  - intros k e _ Hk. rewrite He in Hk.
    destruct (entries c !! k) as [e'|]; simpl in Hk; [|done].
    destruct (ttl_elapsed now e' c) eqn:Ee; [done|]. simplify_eq.
    unfold ttl_elapsed in *. by rewrite Ht.
Qed.
(** ** What clients rely on

    No method invents an entry: what a cache holds afterwards it held before, or
    is the pair just put. *)
Lemma put_sound now k v c k' e :
  entries (Put now k v c) !! k' = Some e →
  (k' = k ∧ e = {| value := v; insertedAt := now |}) ∨ entries c !! k' = Some e.
Proof.
  unfold Put. destruct (_ <=? _)%Z.
  { destruct (call_hook_fields k v c) as (_ & _ & He & _). simpl. rewrite He. auto. }
  destruct (entries c !! k).
  - unfold touchLocked. case_decide; simpl; rewrite lookup_insert_Some; naive_solver.
  - destruct (evict_loop_spec (order c ++ [k])
      (with_entries (<[k := {| value := v; insertedAt := now |}]>) c)) as (_ & _ & _ & He).
    rewrite He. case_decide; [done|]. simpl. rewrite lookup_insert_Some. naive_solver.
Qed.

Lemma put_fields now k v c : cap (Put now k v c) = cap c ∧ ttl (Put now k v c) = ttl c.
Proof.
  unfold Put. destruct (_ <=? _)%Z.
  { destruct (call_hook_fields k v c) as (? & ? & _). done. }
  destruct (entries c !! k).
  - unfold touchLocked. by case_decide.
  - destruct (evict_loop_spec (order c ++ [k])
      (with_entries (<[k := {| value := v; insertedAt := now |}]>) c)) as (? & ? & _). done.
Qed.

Lemma delete_entries k c :
  entries (Delete k c) = delete k (entries c) ∧ cap (Delete k c) = cap c ∧ ttl (Delete k c) = ttl c.
Proof.
  unfold Delete. destruct (entries c !! k) as [e|] eqn:Hk.
  - destruct (removeLocked_fields k e c) as (Hc & Ht & He & _). simpl. done.
  - by rewrite delete_id.
Qed.

(** Without a TTL entries never expire. *)
Lemma get_no_ttl now k c : ttl c = 0%Z → Get now k c = (value <$> entries c !! k, c).
Proof.
  intros Ht. unfold Get. destruct (entries c !! k) as [e|]; [|done].
  unfold expiredLocked. by rewrite Ht.
Qed.

Lemma take_no_ttl now k cond c :
  ttl c = 0%Z →
  (TakeIf now k (Some cond) c).1 = value <$> entries c !! k ∧
  entries (TakeIf now k (Some cond) c).2 =
    match entries c !! k with
    | Some e => if cond (value e) then delete k (entries c) else entries c
    | None => entries c
    end ∧
  cap (TakeIf now k (Some cond) c).2 = cap c ∧ ttl (TakeIf now k (Some cond) c).2 = ttl c.
Proof.
  intros Ht. unfold TakeIf. destruct (entries c !! k) as [e|] eqn:Hk; [|done].
  unfold expiredLocked. rewrite Ht. cbn [Z.leb orb]. change (0 <=? 0)%Z with true. cbn [orb].
  destruct (cond (value e)); [|done].
  destruct (removeLocked_fields k e c) as (Hc & Htt & He & _). simpl. by rewrite Hc, Htt, He.
Qed.

Lemma deletes_entries ks c :
  let c' := foldl (λ c k, Delete k c) c ks in
  cap c' = cap c ∧ ttl c' = ttl c ∧
  ∀ k, entries c' !! k = if decide (k ∈ ks) then None else entries c !! k.
Proof.
  revert c. induction ks as [|x ks IH]; intros c; cbn [foldl].
  { split_and!; [done..|]. intros k. by rewrite decide_False by apply not_elem_of_nil. }
  destruct (IH (Delete x c)) as (Hc & Ht & He). destruct (delete_entries x c) as (Hd & Hdc & Hdt).
  rewrite Hc, Ht, Hdc, Hdt. split_and!; [done..|]. intros k. rewrite He, Hd, lookup_delete.
  repeat case_decide; set_solver.
Qed.

(** A [Range] that always continues visits every entry of a cache without a TTL. *)
Lemma range_collect now (f : K → V → bool) visit c acc :
  ttl c = 0%Z →
  Range now (λ acc k v, (if f k v then acc ++ [k] else acc, true)) visit c acc =
  acc ++ (filter (λ kv, f kv.1 (value kv.2) = true) visit).*1.
Proof.
  intros Ht. revert acc. induction visit as [|[k e] visit IH]; intros acc; cbn [Range].
  { by rewrite app_nil_r. }
  rewrite Ht. cbn [Z.ltb andb]. change (0 <? 0)%Z with false. cbn [andb]. rewrite IH.
  rewrite filter_cons. cbn [fst snd]. destruct (f k (value e)) eqn:Hf.
  - rewrite decide_True by done. csimpl. by rewrite <- app_assoc.
  - by rewrite decide_False.
Qed.
End cache.
Arguments cacheEntry : clear implicits.
Arguments t : clear implicits.
Arguments t K V {_ _}.
End Cache.

Module Ring.
Section ring.
Context {T : Type}.

Record t := { elements : list T; cap : nat; next : nat; size : nat }.

(** [None] is the panic on a non-positive capacity; [zero] is [T]'s zero value. *)
Definition NewRing (zero : T) (n : Z) : option t :=
  if (n <=? 0)%Z then None
  else Some {| elements := replicate (Z.to_nat n) zero; cap := Z.to_nat n; next := 0; size := 0 |}.

Definition Append (v : T) (r : t) : t :=
  let els := <[(next r + size r) `mod` cap r := v]> (elements r) in
  if decide (size r = cap r)
  then {| elements := els; cap := cap r; next := (next r + 1) `mod` cap r; size := size r |}
  else {| elements := els; cap := cap r; next := next r; size := size r + 1 |}.

(** [None] at a position is an out-of-range read, which Go turns into a panic. *)
Definition Snapshot (r : t) : list (option T) :=
  (λ i, elements r !! ((next r + i) `mod` cap r)) <$> seq 0 (size r).

Definition Len (r : t) : nat := size r.

(** ** Refinement of a bounded list *)
Record wf (r : t) : Prop := {
  wf_cap : 0 < cap r;
  wf_elements : length (elements r) = cap r;
  wf_next : next r < cap r;
  wf_size : size r ≤ cap r
}.

(** Two positions of one window of length [cap] never share a slot. *)
Lemma slot_inj n a b c :
  0 < c → a < c → b < c → (n + a) `mod` c = (n + b) `mod` c → a = b.
Proof.
  intros Hc Ha Hb Heq.
  pose proof (Nat.div_mod_eq (n + a) c). pose proof (Nat.div_mod_eq (n + b) c).
  assert ((n + a) `div` c = (n + b) `div` c ∨ (n + a) `div` c < (n + b) `div` c
          ∨ (n + b) `div` c < (n + a) `div` c) as [?|[?|?]] by lia; nia.
Qed.

Lemma slot_shift n i c : 0 < c → ((n + 1) `mod` c + i) `mod` c = (n + S i) `mod` c.
Proof.
  intros Hc. rewrite Nat.Div0.add_mod_idemp_l. f_equal. lia.
Qed.

Lemma Snapshot_length r : length (Snapshot r) = size r.
Proof. unfold Snapshot. by rewrite length_fmap, length_seq. Qed.

Lemma Snapshot_lookup r i :
  i < size r → Snapshot r !! i = Some (elements r !! ((next r + i) `mod` cap r)).
Proof.
  intros Hi. unfold Snapshot. rewrite list_lookup_fmap, lookup_seq_lt by done. done.
Qed.

Lemma wf_append v r : wf r → wf (Append v r).
Proof.
  intros [Hc He Hn Hs]. unfold Append. case_decide; split; simpl;
    rewrite ?length_insert; try lia.
  apply Nat.mod_upper_bound. lia.
Qed.

Lemma Snapshot_append v r :
  wf r → Snapshot (Append v r) =
         drop (S (size r) - cap r) (Snapshot r ++ [Some v]).
Proof.
  intros [Hc He Hn Hs].
  assert ((next r + size r) `mod` cap r < length (elements r)) as Hslot
    by (rewrite He; apply Nat.mod_upper_bound; lia).
  apply list_eq_same_length with (n := length (Snapshot (Append v r))); [|done|].
  { rewrite length_drop, length_app, !Snapshot_length. unfold Append.
    case_decide; simpl; lia. }
  intros i x y Hi. rewrite Snapshot_length in Hi.
  rewrite Snapshot_lookup, lookup_drop by done.
  unfold Append in *. destruct (decide (size r = cap r)) as [Hfull|Hfree]; simpl in *.
  - replace (S (size r) - cap r) with 1 by lia. rewrite slot_shift by done.
    destruct (decide (S i = size r)) as [Hlast|Hmid].
    + rewrite <- Hlast, list_lookup_insert_eq by (rewrite Hlast; done).
      rewrite lookup_app_r by (rewrite Snapshot_length; lia).
      rewrite Snapshot_length. replace (1 + i - size r) with 0 by lia. simpl. congruence.
    + rewrite list_lookup_insert_ne.
      2:{ rewrite Hfull. intros Heq.
          assert ((next r + cap r) `mod` cap r = (next r + 0) `mod` cap r) as Hwrap.
          { rewrite Nat.add_0_r. rewrite <- (Nat.mul_1_l (cap r)) at 1.
            apply Nat.Div0.mod_add. }
          rewrite Hwrap in Heq. apply slot_inj in Heq; lia. }
      rewrite lookup_app_l by (rewrite Snapshot_length; lia).
      rewrite Snapshot_lookup by lia. change (1 + i) with (S i). congruence.
  - replace (S (size r) - cap r) with 0 by lia. simpl.
    destruct (decide (i = size r)) as [->|Hne].
    + rewrite list_lookup_insert_eq by done.
      rewrite lookup_app_r by (rewrite Snapshot_length; lia).
      rewrite Snapshot_length, Nat.sub_diag. simpl. congruence.
    + rewrite list_lookup_insert_ne by (intros Heq%slot_inj; lia).
      rewrite lookup_app_l by (rewrite Snapshot_length; lia).
      rewrite Snapshot_lookup by lia. congruence.
Qed.

(** Appends in sequence. *)
Definition appends (vs : list T) (r : t) : t := foldl (λ r v, Append v r) r vs.

Lemma Append_cap v r : cap (Append v r) = cap r.
Proof. unfold Append. by case_decide. Qed.

(** After any sequence of appends to a fresh ring, [Snapshot] is exactly
    the last [cap] values appended, oldest first; it never reads out of range. *)
Theorem ring_retains_last zero n vs r :
  NewRing zero n = Some r →
  Snapshot (appends vs r) = Some <$> drop (length vs - Z.to_nat n) vs.
Proof.
  unfold NewRing. destruct (Z.leb_spec n 0); [done|]. intros [= <-].
  set (r0 := {| elements := _ |}).
  enough (wf (appends vs r0) ∧ cap (appends vs r0) = Z.to_nat n ∧
          Snapshot (appends vs r0) = Some <$> drop (length vs - Z.to_nat n) vs) by tauto.
  induction vs as [|v vs IH] using rev_ind.
  - split_and!; [|done..]. subst r0. split; simpl; rewrite ?length_replicate; lia.
  - destruct IH as (Hwf & Hcap & Hsn). unfold appends in *. rewrite foldl_app. simpl.
    split_and!; [by apply wf_append|by rewrite Append_cap|].
    rewrite Snapshot_append by done.
    assert (size (foldl (λ r v, Append v r) r0 vs) = length vs - (length vs - Z.to_nat n)) as Hsz.
    { rewrite <- Snapshot_length, Hsn, length_fmap, length_drop. done. }
    rewrite Hsn, Hsz, Hcap, length_app. simpl.
    change [Some v] with (Some <$> [v]). rewrite <- fmap_app, <- fmap_drop. f_equal.
    destruct (decide (length vs < Z.to_nat n)).
    + replace (length vs - Z.to_nat n) with 0 by lia.
      replace (length vs + 1 - Z.to_nat n) with 0 by lia.
      replace (S (length vs - 0) - Z.to_nat n) with 0 by lia. done.
    + replace (S (length vs - (length vs - Z.to_nat n)) - Z.to_nat n) with 1 by lia.
      rewrite !drop_app_le by (rewrite ?length_drop; lia).
      rewrite drop_drop. f_equal. f_equal. lia.
Qed.
End ring.
Arguments t : clear implicits.
End Ring.

(** ** Concrete caches *)
Module CacheExamples.
Import Cache.

Lemma clean_new `{Countable K} {V} n ttl hook : clean (NewCache n ttl hook : t K V).
Proof. split; [apply wf_new|constructor|]. intros k Hk. by apply elem_of_nil in Hk. Qed.

(** Two entries fit, entries live for ten nanoseconds. *)
Definition cache0 : t nat nat := NewCache 2 10 false.
Definition cache1 : t nat nat := Put 1 1 100 cache0.
Definition cache1_full : t nat nat := Put 3 3 300 (Put 2 2 200 cache1).

Lemma cache_bounded_witness :
  rtc step cache0 cache1_full ∧ (Z.of_nat (Len cache1_full) <= Z.max 0 2)%Z.
Proof.
  assert (rtc step cache0 cache1_full) as Hr.
  { eapply rtc_l; [apply (step_put 1 1 100)|]. eapply rtc_l; [apply (step_put 2 2 200)|].
    eapply rtc_l; [apply (step_put 3 3 300)|]. apply rtc_refl. }
  split; [exact Hr|]. exact (cache_bounded 2 10 false _ Hr).
Defined.

Lemma put_refines_lru_witness :
  clean cache0 ∧ abs cache1 = [(1, 100)] ∧ (Get 5 1 cache1).1 = Some 100.
Proof.
  destruct (put_refines_lru 1 5 1 100 cache0 (clean_new _ _ _) ltac:(reflexivity))
    as (_ & Habs & Hget).
  split; [apply clean_new|]. split; [exact Habs|]. apply Hget. right. reflexivity.
Defined.

Lemma takeif_exactly_once_witness :
  length (filter (λ r, consumed (Nat.eqb 100) r = true)
            (takes 1 (Nat.eqb 100) [2%Z; 3%Z; 4%Z] cache1).1) = 1.
Proof.
  exact (proj2 (takeif_exactly_once 1 (Nat.eqb 100) [2%Z; 3%Z; 4%Z] cache1)
    2%Z [3%Z; 4%Z] {| value := 100; insertedAt := 1 |} eq_refl eq_refl eq_refl eq_refl).
Defined.

Lemma sweep_exact_idempotent_witness :
  wf cache1 ∧ entries (Sweep (λ _, 11%Z) cache1).2 !! 1 = None.
Proof.
  split; [apply wf_put, wf_new|].
  rewrite (proj1 (sweep_exact_idempotent 11 cache1 (wf_put _ _ _ _ (wf_new _ _ _)))).
  reflexivity.
Defined.

Lemma ring_retains_last_witness :
  ∃ r, Ring.NewRing 0 2 = Some r ∧
       Ring.Snapshot (Ring.appends [1; 2; 3] r) = [Some 2; Some 3].
Proof.
  eexists. split; [reflexivity|].
  exact (Ring.ring_retains_last 0 2 [1; 2; 3] _ eq_refl).
Defined.

(** Lazy expiry leaves the expired key in the order: [Get] at time 20 drops key 1
    from the map only. *)
Definition cache2 : t nat nat := (Get 20 1 cache1).2.
Definition cache3 : t nat nat := Put 22 1 102 (Put 21 2 201 cache2).

(** A value just written can be lost: after key 1 expired on access, the
    stale occurrence of it in the order makes the next insertion of key 1 evict
    the entry it has just inserted, although another, older entry is in the cache
    and the fresh entry has not expired. *)
Theorem stale_order_evicts_fresh :
  (Get 22 1 cache3).1 = None ∧ (Get 22 2 cache3).1 = Some 201 ∧
  order cache3 = [2; 1] ∧ evicted cache3 = 1%Z.
Proof. vm_compute. done. Qed.
End CacheExamples.
