(* ===== verification/Permissions.v ===== *)
(** * Permissions

    The permission manager of [governance/authorization]: grants and approvals
    (permissions.go, perm_delegation.go), tool, executable, network and file
    checks (perm_tool.go, perm_exec.go, perm_net.go, perm_file.go).

    Its four caches are the bounded caches of [Bounded].  What the manager calls
    outside itself is an argument ([Ports]): the HITL provider and the audit
    logger, each a function on a state of its own, the clock, symbolic-link
    resolution and the principal of the call's context.  A method is a function on
    the [World]; methods that return only an error return [unit]. *)
From S2P Require Import Prelude GoStrings GoTime GoPath Policy Glob Bounded.
From stdpp Require Import pretty.

(** ** Declared permissions ([userconfig/permissions]) *)
Record FileSystemPermission := {
  fs_Action : string; fs_Path : string; fs_HITLRequired : bool
}.
Record ExecutablePermission := {
  ex_Binary : string; ex_Args : list string; ex_Env : list string; ex_HITLRequired : bool
}.
Record NetworkPermission := {
  np_Direction : string; np_Protocol : string; np_Host : string; np_Port : Z; np_HITLRequired : bool
}.
Record IPCPermission := { ipc_Kind : string; ipc_Target : string; ipc_HITLRequired : bool }.
Record PermissionSet := {
  FileSystem : list FileSystemPermission;
  Executables : list ExecutablePermission;
  Network : list NetworkPermission;
  Capabilities : list string;
  IPC : list IPCPermission
}.

Record PermissionDescriptor := {
  pd_Type : string; pd_Action : string; pd_Resource : string; pd_RequiresHITL : bool
}.

Definition FileSystemRead : string := "fs:read".
Definition FileSystemWrite : string := "fs:write".
Definition FileSystemDelete : string := "fs:delete".
Definition FileSystemRename : string := "fs:rename".
Definition FileSystemMove : string := "fs:move".
Definition FileSystemExecute : string := "fs:execute".
Definition FileSystemList : string := "fs:list".

(** ** Grants *)
Definition GrantScopeOneTime : string := "one_time".
Definition GrantScopeSession : string := "session".
Definition RiskLevelMedium : string := "medium".

Record PermissionGrant := {
  g_ID : string;
  g_Permission : PermissionDescriptor;
  g_Scope : string;
  g_ExpiresAt : Time;
  g_ApprovedBy : string;
  g_GrantedAt : Time;
  g_SessionID : string
}.

Definition Expired (now : Time) (g : PermissionGrant) : bool :=
  negb (time_is_zero (g_ExpiresAt g)) && (g_ExpiresAt g <? now)%Z.

Record PermissionRequest := {
  pr_Permission : PermissionDescriptor;
  pr_Justification : string;
  pr_Scope : string;
  pr_Duration : Duration;
  pr_Risk : string
}.

Record hitlRateBucket := { count : Z; windowAt : Time }.

(** What the audit logger receives. *)
Record AuditRecord := {
  ar_AgentID : string; ar_Action : string; ar_Type : string; ar_Permission : string;
  ar_Result : string
}.

(** What the decision sink receives. *)
Inductive PolicyEvent :=
| PolicyEvaluated (rule effect reason actor target : string)
| PolicyConflictShadowed (winner shadowed effect actor : string)
| CommandEvent (kind command wrapper : string) (depth : Z) (reason actor : string).

Definition grantsCacheCap : Z := 1024.
Definition hitlRateCacheCap : Z := 4096.
Definition fsPermCacheCap : Z := 2048.
Definition execPermCacheCap : Z := 2048.
Definition hitlRateEntryTTL : Duration := hour.
Definition hitlRateMax : Z := 10.
Definition hitlRateWindow : Duration := minute.

Record NetworkRule := { nr_Direction : string; nr_Protocol : string; nr_Host : string; nr_Port : Z }.

Record PermissionManager := {
  basePath : string;
  declared : PermissionSet;
  grants : Cache.t string PermissionGrant;
  netPolicy : list NetworkRule;
  defaultDecision : string;
  taskGrants : gmap string (gset string);
  hitlRateLimits : Cache.t string hitlRateBucket;
  fsPermCache : Cache.t string (option FileSystemPermission);
  execPermCache : Cache.t string (option ExecutablePermission);
  fsProtectedRoots : list string;
  fsExcludedRoots : list string
}.

Section manager.
Context {H L : Type}.

Record Ports := {
  hitl : option (PermissionRequest → H → result PermissionGrant * H);
  audit : option (AuditRecord → L → option gerror * L);
  grantClock : nat → Time;
  eval_symlinks : string → option string;
  principal : string;
  getwd : string
}.

Record World := {
  pm : PermissionManager;
  hitl_st : H;
  audit_st : L;
  emitted : list PolicyEvent;
  tick : nat
}.

Context (P : Ports).

(** ** State access *)
Definition set_pm (m : PermissionManager) (w : World) : World :=
  {| pm := m; hitl_st := hitl_st w; audit_st := audit_st w; emitted := emitted w; tick := tick w |}.

Definition with_grants c (m : PermissionManager) : PermissionManager :=
  {| basePath := basePath m; declared := declared m; grants := c; netPolicy := netPolicy m;
     defaultDecision := defaultDecision m; taskGrants := taskGrants m;
     hitlRateLimits := hitlRateLimits m; fsPermCache := fsPermCache m;
     execPermCache := execPermCache m; fsProtectedRoots := fsProtectedRoots m;
     fsExcludedRoots := fsExcludedRoots m |}.
Definition with_rates c (m : PermissionManager) : PermissionManager :=
  {| basePath := basePath m; declared := declared m; grants := grants m; netPolicy := netPolicy m;
     defaultDecision := defaultDecision m; taskGrants := taskGrants m;
     hitlRateLimits := c; fsPermCache := fsPermCache m;
     execPermCache := execPermCache m; fsProtectedRoots := fsProtectedRoots m;
     fsExcludedRoots := fsExcludedRoots m |}.
Definition with_fs c (m : PermissionManager) : PermissionManager :=
  {| basePath := basePath m; declared := declared m; grants := grants m; netPolicy := netPolicy m;
     defaultDecision := defaultDecision m; taskGrants := taskGrants m;
     hitlRateLimits := hitlRateLimits m; fsPermCache := c;
     execPermCache := execPermCache m; fsProtectedRoots := fsProtectedRoots m;
     fsExcludedRoots := fsExcludedRoots m |}.
Definition with_exec c (m : PermissionManager) : PermissionManager :=
  {| basePath := basePath m; declared := declared m; grants := grants m; netPolicy := netPolicy m;
     defaultDecision := defaultDecision m; taskGrants := taskGrants m;
     hitlRateLimits := hitlRateLimits m; fsPermCache := fsPermCache m;
     execPermCache := c; fsProtectedRoots := fsProtectedRoots m;
     fsExcludedRoots := fsExcludedRoots m |}.
Definition with_net l (m : PermissionManager) : PermissionManager :=
  {| basePath := basePath m; declared := declared m; grants := grants m; netPolicy := l;
     defaultDecision := defaultDecision m; taskGrants := taskGrants m;
     hitlRateLimits := hitlRateLimits m; fsPermCache := fsPermCache m;
     execPermCache := execPermCache m; fsProtectedRoots := fsProtectedRoots m;
     fsExcludedRoots := fsExcludedRoots m |}.
Definition with_default d (m : PermissionManager) : PermissionManager :=
  {| basePath := basePath m; declared := declared m; grants := grants m; netPolicy := netPolicy m;
     defaultDecision := d; taskGrants := taskGrants m;
     hitlRateLimits := hitlRateLimits m; fsPermCache := fsPermCache m;
     execPermCache := execPermCache m; fsProtectedRoots := fsProtectedRoots m;
     fsExcludedRoots := fsExcludedRoots m |}.
Definition with_tasks t (m : PermissionManager) : PermissionManager :=
  {| basePath := basePath m; declared := declared m; grants := grants m; netPolicy := netPolicy m;
     defaultDecision := defaultDecision m; taskGrants := t;
     hitlRateLimits := hitlRateLimits m; fsPermCache := fsPermCache m;
     execPermCache := execPermCache m; fsProtectedRoots := fsProtectedRoots m;
     fsExcludedRoots := fsExcludedRoots m |}.
Definition with_roots p e (m : PermissionManager) : PermissionManager :=
  {| basePath := basePath m; declared := declared m; grants := grants m; netPolicy := netPolicy m;
     defaultDecision := defaultDecision m; taskGrants := taskGrants m;
     hitlRateLimits := hitlRateLimits m; fsPermCache := fsPermCache m;
     execPermCache := execPermCache m; fsProtectedRoots := p; fsExcludedRoots := e |}.

Definition on_pm (f : PermissionManager → PermissionManager) : SE World unit :=
  se_mod (λ w, set_pm (f (pm w)) w).

(** One reading of the clock. *)
Definition read_clock : SE World Time := λ w,
  (Ok (grantClock P (tick w)),
   {| pm := pm w; hitl_st := hitl_st w; audit_st := audit_st w; emitted := emitted w;
      tick := S (tick w) |}).

Definition emit (e : PolicyEvent) : SE World unit := λ w,
  (Ok (), {| pm := pm w; hitl_st := hitl_st w; audit_st := audit_st w;
             emitted := emitted w ++ [e]; tick := tick w |}).

(** ** Audit and decision events *)
Definition decisionEffectFor (result : string) : string :=
  if bool_decide (result = "denied") then "deny"
  else if bool_decide (result ∈ ["granted"; "tool_allowed"; "tool_allowed_task_grant"]) then "allow"
  else "unknown".

Definition sensitivePathPatterns : list string :=
  [".env"; ".ssh"; "secret"; "token"; "credential"; "password"; "key.pem"; "id_rsa"; "id_ed25519"].

Definition redactSensitivePath (path : string) : string :=
  if existsb (contains (to_lower path)) sensitivePathPatterns then "[REDACTED_PATH]" else path.

(** [reasonFor]: an explicit non-empty reason, otherwise the result. *)
Definition reasonFor (result reason : string) : string :=
  if bool_decide (reason = EmptyString) then result else reason.

Definition emitPolicyDecision (agentID : string) (desc : PermissionDescriptor)
    (effect reason rule : string) : SE World unit :=
  emit (PolicyEvaluated rule effect reason agentID (pd_Action desc)).

Definition run_audit (r : AuditRecord) : SE World unit := λ w,
  match audit P with
  | None => (Ok (), w)
  | Some f =>
      let (err, l) := f r (audit_st w) in
      let w' := {| pm := pm w; hitl_st := hitl_st w; audit_st := l; emitted := emitted w;
                   tick := tick w |} in
      match err with None => (Ok (), w') | Some e => (Err e, w') end
  end.

Definition log (agentID : string) (desc : PermissionDescriptor) (result reason : string)
    : SE World unit :=
  run_audit {| ar_AgentID := agentID; ar_Action := pd_Action desc; ar_Type := pd_Type desc;
               ar_Permission := redactSensitivePath (pd_Resource desc); ar_Result := result |} ;;;
  emitPolicyDecision agentID desc (decisionEffectFor result) (reasonFor result reason) EmptyString.

Definition denied_error (desc : PermissionDescriptor) (reason : string) : gerror :=
  ErrFmt "permission denied" [pd_Type desc; pd_Action desc; pd_Resource desc; reason].

(** [deny]: the audit error of a denial is dropped. *)
Definition deny {A} (agentID : string) (desc : PermissionDescriptor) (reason : string) : SE World A :=
  se_try (log agentID desc "denied" reason) ;;; se_err (denied_error desc reason).

(** ** Grants and approvals *)
Definition grant_key (desc : PermissionDescriptor) : string :=
  pd_Action desc +:+ ":" +:+ pd_Resource desc.

(** The predicate handed to [TakeIf]. *)
Definition takeable (now : Time) (g : PermissionGrant) : bool :=
  Expired now g || bool_decide (g_Scope g = GrantScopeOneTime).

Definition take_grant (key : string) : SE World (option PermissionGrant) :=
  let* cnow := read_clock in
  let* now := read_clock in
  let* r := se_get (λ w, Cache.TakeIf cnow key (Some (takeable now)) (grants (pm w))) in
  on_pm (with_grants r.2) ;;; se_ret r.1.

Definition stale_keys (now : Time) (c : Cache.t string PermissionGrant) : list string :=
  Cache.Range now (λ acc k g, (if Expired now g then acc ++ [k] else acc, true))
    (map_to_list (Cache.entries c)) c [].

Definition sweepExpiredGrants : SE World unit :=
  let* now := read_clock in
  on_pm (λ m, with_grants (foldl (λ c k, Cache.Delete k c) (grants m) (stale_keys now (grants m))) m).

Definition putGrant (key : string) (g : PermissionGrant) : SE World unit :=
  let* full := se_get (λ w, (grantsCacheCap / 2 <=? Z.of_nat (Cache.Len (grants (pm w))))%Z) in
  (if full then sweepExpiredGrants else se_ret ()) ;;;
  let* now := read_clock in
  on_pm (λ m, with_grants (Cache.Put now key g (grants m)) m).

Definition with_session (s : string) (g : PermissionGrant) : PermissionGrant :=
  {| g_ID := g_ID g; g_Permission := g_Permission g; g_Scope := g_Scope g;
     g_ExpiresAt := g_ExpiresAt g; g_ApprovedBy := g_ApprovedBy g; g_GrantedAt := g_GrantedAt g;
     g_SessionID := s |}.

Definition ask_hitl (f : PermissionRequest → H → result PermissionGrant * H) (req : PermissionRequest)
    : SE World PermissionGrant := λ w,
  let (r, h) := f req (hitl_st w) in
  (r, {| pm := pm w; hitl_st := h; audit_st := audit_st w; emitted := emitted w; tick := tick w |}).

Definition requestGrant (agentID : string) (desc : PermissionDescriptor) : SE World unit :=
  match hitl P with
  | None => deny agentID desc "hitl approval required"
  | Some f =>
      let* g := ask_hitl f {| pr_Permission := desc; pr_Justification := "runtime request";
        pr_Scope := GrantScopeSession; pr_Duration := 0; pr_Risk := RiskLevelMedium |} in
      putGrant (grant_key desc) (with_session (principal P) g)
  end.

Definition ensureGrant (agentID : string) (desc : PermissionDescriptor) : SE World unit :=
  let* g := take_grant (grant_key desc) in
  let* now := read_clock in
  match g with
  | Some g => if negb (Expired now g) then se_ret () else requestGrant agentID desc
  | None => requestGrant agentID desc
  end.

(** [bucket.count++] on the bucket shared with the cache. *)
Definition bump_bucket (key : string) (c : Cache.t string hitlRateBucket) :=
  Cache.with_entries (alter (λ e, {|
    Cache.value := {| count := wrap64 (count (Cache.value e) + 1); windowAt := windowAt (Cache.value e) |};
    Cache.insertedAt := Cache.insertedAt e |}) key) c.

Definition rate_message (key : string) : string :=
  "HITL rate limit exceeded for " +:+ key +:+ ": max 10 requests per 1m0s".

Definition checkHITLRateLimit (key : string) : SE World unit :=
  let* now := read_clock in
  let* cnow := read_clock in
  let* r := se_get (λ w, Cache.Get cnow key (hitlRateLimits (pm w))) in
  on_pm (with_rates r.2) ;;;
  match r.1 with
  | Some b =>
      if (hitlRateWindow <=? time_sub now (windowAt b))%Z then
        let* pnow := read_clock in
        on_pm (λ m, with_rates (Cache.Put pnow key {| count := 1; windowAt := now |} (hitlRateLimits m)) m)
      else
        on_pm (λ m, with_rates (bump_bucket key (hitlRateLimits m)) m) ;;;
        if (hitlRateMax <? wrap64 (count b + 1))%Z
        then se_err (ErrMsg (rate_message key))
        else se_ret ()
  | None =>
      let* pnow := read_clock in
      on_pm (λ m, with_rates (Cache.Put pnow key {| count := 1; windowAt := now |} (hitlRateLimits m)) m)
  end.

Definition requires_hitl (desc : PermissionDescriptor) : PermissionDescriptor :=
  {| pd_Type := pd_Type desc; pd_Action := pd_Action desc; pd_Resource := pd_Resource desc;
     pd_RequiresHITL := true |}.

Definition RequireApproval (agentID : string) (desc : PermissionDescriptor)
    (justification scope risk : string) (duration : Duration) : SE World unit :=
  let desc := requires_hitl desc in
  let key := grant_key desc in
  let* g := take_grant key in
  let* now := read_clock in
  let ask :=
    let* limit := se_try (checkHITLRateLimit key) in
    match limit with
    | Err e => emitPolicyDecision agentID desc "deny" (rate_message key) EmptyString ;;; se_err e
    | Ok _ =>
        match hitl P with
        | None => deny agentID desc "hitl approval required"
        | Some f =>
            let scope := if bool_decide (scope = EmptyString) then GrantScopeOneTime else scope in
            let risk := if bool_decide (risk = EmptyString) then RiskLevelMedium else risk in
            let* g := ask_hitl f {| pr_Permission := desc; pr_Justification := justification;
              pr_Scope := scope; pr_Duration := duration; pr_Risk := risk |} in
            putGrant key (with_session (principal P) g)
        end
    end in
  match g with
  | Some g => if negb (Expired now g) then se_ret () else ask
  | None => ask
  end.

(** [GrantPermission]: a manual grant; its clock readings are the call's. *)
Definition GrantPermission (desc : PermissionDescriptor) (approvedBy scope : string)
    (duration : Duration) : SE World unit :=
  let* t0 := read_clock in
  let* t1 := read_clock in
  let* t2 := read_clock in
  putGrant (grant_key desc)
    {| g_ID := "manual-" +:+ pretty (unix_nano t0); g_Permission := desc; g_Scope := scope;
       g_ExpiresAt := if (0 <? duration)%Z then (t2 + duration)%Z else zero_time;
       g_ApprovedBy := approvedBy; g_GrantedAt := t1; g_SessionID := EmptyString |}.

(** [ReleaseSession]: the grants issued under a session, and their number. *)
Definition session_keys (now : Time) (sessionID : string) (c : Cache.t string PermissionGrant)
    : list string :=
  Cache.Range now (λ acc k g,
      (if negb (bool_decide (g_SessionID g = EmptyString)) && bool_decide (g_SessionID g = sessionID)
       then acc ++ [k] else acc, true))
    (map_to_list (Cache.entries c)) c [].

Definition ReleaseSession (sessionID : string) : SE World nat :=
  let* now := read_clock in
  let* ks := se_get (λ w, session_keys now sessionID (grants (pm w))) in
  on_pm (λ m, with_grants (foldl (λ c k, Cache.Delete k c) (grants m) ks) m) ;;;
  se_ret (length ks).

(** ** Defaults and task grants *)
Definition effectiveDefaultDecision (m : PermissionManager) : string :=
  if bool_decide (defaultDecision m = EmptyString) then DecisionAsk else defaultDecision m.

Definition SetDefaultDecision (level : string) : SE World unit :=
  match ParseDecision level with
  | Err e => se_err e
  | Ok _ =>
      if bool_decide (level = DecisionAllow)
      then se_err (ErrMsg "default decision allow is not permitted; use ask (HITL) or deny")
      else on_pm (with_default level)
  end.

(** The loop over the tags; an error for a wildcard. *)
Fixpoint approved_tags (tags : list string) (acc : gset string) : result (gset string) :=
  match tags with
  | [] => Ok acc
  | tag :: tags' =>
      let tag := to_lower (trim_space tag) in
      if bool_decide (tag = EmptyString) then approved_tags tags' acc
      else if bool_decide (tag = "*") then Err (ErrMsg "wildcard task grants are not allowed")
      else approved_tags tags' ({[tag]} ∪ acc)
  end.

Definition RegisterTaskGrant (runID : string) (approvedTags : list string) : SE World unit :=
  let runID := trim_space runID in
  if bool_decide (runID = EmptyString) then se_err (ErrMsg "run id required")
  else if bool_decide (approvedTags = []) then se_err (ErrMsg "approved tags required")
  else match approved_tags approvedTags ∅ with
       | Err e => se_err e
       | Ok tags =>
           if bool_decide (tags = ∅) then se_err (ErrMsg "approved tags required")
           else on_pm (λ m, with_tasks (<[runID := tags]> (taskGrants m)) m)
       end.

Definition RevokeTaskGrant (runID : string) : SE World unit :=
  on_pm (λ m, with_tasks (delete (trim_space runID) (taskGrants m)) m).

Record Tool := { t_Name : string; t_Tags : list string; t_Permissions : option PermissionSet }.

Definition toolAllowedByTaskGrant (m : PermissionManager) (tool : Tool) : bool :=
  if is_blank (principal P) then false
  else match taskGrants m !! principal P with
       | None => false
       | Some tags =>
           existsb (λ tag, let tag := to_lower (trim_space tag) in
                           negb (bool_decide (tag = EmptyString)) && bool_decide (tag ∈ tags))
             (t_Tags tool)
       end.

(** ** Validation ([userconfig/permissions]) *)
Definition glob_char (a : ascii) : bool :=
  let n := byte_of a in
  is_digit a || ((65 <=? n)%Z && (n <=? 90)%Z) || ((97 <=? n)%Z && (n <=? 122)%Z) ||
  bool_decide (a ∈ ["_"; "."; "/"; "*"; "-"; "{"; "}"; "$"]%char).

Fixpoint all_bytes (f : ascii → bool) (s : string) : bool :=
  match s with EmptyString => true | String a s' => f a && all_bytes f s' end.

Definition validateGlobPath (path : string) : option gerror :=
  let clean := filepath_clean path in
  first_error [
    check (bool_decide (path = EmptyString)) (ErrMsg "glob cannot be empty");
    check (contains path "..") (ErrMsg "glob cannot contain '..'");
    check (has_prefix "../" clean || bool_decide (clean = "..")) (ErrMsg "glob cannot escape workspace");
    check (negb (all_bytes glob_char path)) (ErrMsg "glob contains unsupported characters")].

Definition ValidatePermissionSet (p : PermissionSet) : option gerror :=
  first_error (
    concat ((λ f, [
      check (bool_decide (fs_Path f = EmptyString))
        (ErrFmt "filesystem permission %s missing path" [fs_Action f]);
      ErrWrap ("invalid filesystem path " +:+ fs_Path f) <$> validateGlobPath (fs_Path f)])
        <$> FileSystem p) ++
    concat ((λ e, [
      check (bool_decide (ex_Binary e = EmptyString)) (ErrMsg "executable permission missing binary");
      check (contains (ex_Binary e) "/")
        (ErrFmt "executable %s must be referenced by name" [ex_Binary e])]) <$> Executables p) ++
    concat ((λ n, [
      check (bool_decide (np_Direction n = EmptyString)) (ErrMsg "network permission missing direction");
      check (bool_decide (np_Protocol n = EmptyString))
        (ErrFmt "network permission for %s missing protocol" [np_Direction n]);
      check (bool_decide (np_Direction n = "egress") && bool_decide (np_Host n = EmptyString))
        (ErrMsg "egress network permission must declare host")]) <$> Network p)).

(** ** Executables *)
Definition match_exec (binary : string) (perms : list ExecutablePermission)
    : option ExecutablePermission :=
  snd <$> list_find (λ p, ex_Binary p = binary) perms.

Definition findExecutablePermission (binary : string) : SE World (option ExecutablePermission) :=
  let cacheKey := trim_space binary in
  let* now := read_clock in
  let* r := se_get (λ w, Cache.Get now cacheKey (execPermCache (pm w))) in
  on_pm (with_exec r.2) ;;;
  match r.1 with
  | Some perm => se_ret perm
  | None =>
      let* matched := se_get (λ w, match_exec binary (Executables (declared (pm w)))) in
      let* now := read_clock in
      on_pm (λ m, with_exec (Cache.Put now cacheKey matched (execPermCache m)) m) ;;;
      se_ret matched
  end.

(** The loop of [matchArgs] over the common positions. *)
Fixpoint match_args_loop (trailing : bool) (patterns args : list string) : bool :=
  match patterns, args with
  | p :: patterns', a :: args' =>
      if trailing && bool_decide (patterns' = []) then true
      else if bool_decide (p = "*") then match_args_loop trailing patterns' args'
      else if has_prefix "--" p && has_suffix "*" p then
        has_prefix (trim_suffix "*" p) a && match_args_loop trailing patterns' args'
      else bool_decide (p = a) && match_args_loop trailing patterns' args'
  | _, _ => true
  end.

Definition matchArgs (patterns args : list string) : bool :=
  if bool_decide (patterns = []) then true
  else if bool_decide (patterns = ["*"]) then true
  else
    let trailing := bool_decide (last patterns = Some "*") in
    if negb trailing && negb (bool_decide (length patterns = length args)) then false
    else if trailing && (length args <? length patterns - 1)%nat then false
    else match_args_loop trailing patterns args.

(** [strings.SplitN(s, "=", 2)] with two parts. *)
Fixpoint split_eq (s : string) : option (string * string) :=
  match s with
  | EmptyString => None
  | String a s' =>
      if bool_decide (a = "="%char) then Some (EmptyString, s')
      else match split_eq s' with Some (k, v) => Some (String a k, v) | None => None end
  end.

Definition env_map (env : list string) : gmap string string :=
  foldl (λ m e, match split_eq e with Some (k, v) => <[k := v]> m | None => m end) ∅ env.

Definition matchEnv (patterns env : list string) : bool :=
  let m := env_map env in
  forallb (λ p, match split_eq p with
                | None => true
                | Some (k, v) =>
                    match m !! k with
                    | None => false
                    | Some val => bool_decide (v = "*") || bool_decide (v = val)
                    end
                end) patterns.

Definition exec_desc (action binary : string) : PermissionDescriptor :=
  {| pd_Type := "executable"; pd_Action := action; pd_Resource := binary; pd_RequiresHITL := false |}.

Fixpoint join_with (sep : string) (l : list string) : string :=
  match l with
  | [] => EmptyString
  | [w] => w
  | w :: l' => w +:+ sep +:+ join_with sep l'
  end.

(** The undeclared branch shared by the checks: deny by default policy, or ask. *)
Definition undeclared (agentID : string) (desc : PermissionDescriptor) (reason : string)
    : SE World unit :=
  let* d := se_get (λ w, effectiveDefaultDecision (pm w)) in
  if bool_decide (d = DecisionDeny) then deny agentID desc reason
  else ensureGrant agentID (requires_hitl desc).

Definition CheckExecutable (agentID binary : string) (args env : list string) : SE World unit :=
  let* perm := findExecutablePermission binary in
  match perm with
  | None => undeclared agentID (exec_desc ("exec:binary:" +:+ binary) binary) "binary not declared"
  | Some perm =>
      if negb (bool_decide (ex_Args perm = [])) && negb (matchArgs (ex_Args perm) args)
      then deny agentID (exec_desc ("exec:args:" +:+ join_with " " args) binary) "arguments rejected"
      else if negb (bool_decide (ex_Env perm = [])) && negb (matchEnv (ex_Env perm) env)
      then deny agentID (exec_desc "exec:env" binary) "environment rejected"
      else
        (if ex_HITLRequired perm
         then ensureGrant agentID (requires_hitl (exec_desc ("exec:binary:" +:+ binary) binary))
         else se_ret ()) ;;;
        log agentID (exec_desc ("exec:" +:+ binary) binary) "granted" EmptyString
  end.

(** ** Network *)
Record Target := { Token : string; Class_ : string; Literal : bool }.
Definition ClassPublic : string := "public".

Definition net_desc (action resource : string) : PermissionDescriptor :=
  {| pd_Type := "network"; pd_Action := action; pd_Resource := resource; pd_RequiresHITL := false |}.

Definition networkDescriptor (direction protocol host : string) (port : Z) : PermissionDescriptor :=
  net_desc ("net:" +:+ direction +:+ ":" +:+ protocol +:+ ":" +:+ host +:+ ":" +:+ pretty port) host.

Definition networkBlockReason (class : string) : string :=
  class +:+ " addresses are blocked (ssrf protection)".

(** The body of the loop of [findNetworkPermission]. *)
Definition network_matches (direction protocol host : string) (port : Z) (p : NetworkPermission) : bool :=
  let target := host +:+ ":" +:+ pretty port in
  if negb (bool_decide (np_Direction p = direction)) || negb (bool_decide (np_Protocol p = protocol))
  then false
  else if bool_decide (np_Direction p = "egress") then
    if negb (np_Port p =? 0)%Z && negb (np_Port p =? port)%Z then false
    else bool_decide (np_Host p = host) || bool_decide (np_Host p = permissionMatchAll) ||
         matchGlob (np_Host p) host || bool_decide (np_Host p = target)
  else if bool_decide (np_Direction p = "ingress") then
    (np_Port p =? port)%Z || (np_Port p =? 0)%Z || bool_decide (np_Host p = target)
  else if bool_decide (np_Direction p = "dns") && bool_decide (np_Host p = EmptyString) then true
  else bool_decide (np_Host p = target).

Definition findNetworkPermission (m : PermissionManager) (direction protocol host : string) (port : Z)
    : option NetworkPermission :=
  snd <$> list_find (λ p, network_matches direction protocol host port p = true) (Network (declared m)).

Definition recordNetworkRule (direction protocol host : string) (port : Z) : SE World unit :=
  on_pm (λ m, with_net (netPolicy m ++ [{| nr_Direction := direction; nr_Protocol := protocol;
                                           nr_Host := host; nr_Port := port |}]) m).

Definition CheckNetwork (agentID direction protocol : string) (target : Target) (port : Z)
    : SE World unit :=
  let host := Token target in
  if negb (bool_decide (Class_ target = ClassPublic))
  then deny agentID (networkDescriptor direction protocol host port) (networkBlockReason (Class_ target))
  else
    let* perm := se_get (λ w, findNetworkPermission (pm w) direction protocol host port) in
    match perm with
    | None => undeclared agentID (networkDescriptor direction protocol host port) "network scope missing"
    | Some perm =>
        let resource := host +:+ ":" +:+ pretty port in
        (if np_HITLRequired perm
         then ensureGrant agentID
                (requires_hitl (net_desc ("net:" +:+ direction +:+ ":" +:+ protocol) resource))
         else se_ret ()) ;;;
        log agentID (net_desc ("net:" +:+ direction) resource) "granted" EmptyString ;;;
        recordNetworkRule direction protocol host port
    end.


(** ** Files *)

(** [strings.NewReplacer] over the four workspace markers; [skip] bytes of a
    replaced marker are still to be dropped. *)
Definition workspace_markers : list string :=
  ["${workspace}"; "${WORKSPACE}"; "{{workspace}}"; "{{WORKSPACE}}"].

Fixpoint replace_markers (workspace : string) (skip : nat) (s : string) : string :=
  match s with
  | EmptyString => EmptyString
  | String a s' =>
      match skip with
      | S k => replace_markers workspace k s'
      | O =>
          match list_find (λ m, has_prefix m s = true) workspace_markers with
          | Some (_, m) => workspace +:+ replace_markers workspace (String.length m - 1) s'
          | None => String a (replace_markers workspace 0 s')
          end
      end
  end.

Definition expandWorkspaceMarker (workspace pattern : string) : string :=
  if bool_decide (pattern = EmptyString) then pattern
  else
    let resolved := replace_markers workspace 0 pattern in
    if is_abs resolved then resolved
    else if bool_decide (workspace = EmptyString) then resolved
    else filepath_join workspace (trim_prefix "./" resolved).

Definition inflateScopes (base : string) (p : PermissionSet) : PermissionSet :=
  let ws := filepath_clean base in
  {| FileSystem := (λ f, {| fs_Action := fs_Action f;
                            fs_Path := expandWorkspaceMarker ws (fs_Path f);
                            fs_HITLRequired := fs_HITLRequired f |}) <$> FileSystem p;
     Executables := Executables p; Network := Network p; Capabilities := Capabilities p;
     IPC := IPC p |}.

Definition NewPermissionManager (base : string) (perms : option PermissionSet)
    : result PermissionManager :=
  match perms with
  | None => Err (ErrMsg "permission manager requires permission set")
  | Some perms =>
      match ValidatePermissionSet perms with
      | Some e => Err e
      | None => Ok {|
          basePath := base; declared := inflateScopes base perms;
          grants := Cache.NewCache grantsCacheCap 0 false; netPolicy := [];
          defaultDecision := DecisionAsk; taskGrants := ∅;
          hitlRateLimits := Cache.NewCache hitlRateCacheCap hitlRateEntryTTL false;
          fsPermCache := Cache.NewCache fsPermCacheCap 0 false;
          execPermCache := Cache.NewCache execPermCacheCap 0 false;
          fsProtectedRoots := []; fsExcludedRoots := [] |}
      end
  end.

(** The walk of [resolveCanonicalPath] to the nearest resolvable ancestor; the
    path has at most [length] components, so that many rounds are enough. *)
Fixpoint resolve_up (fuel : nat) (clean parent : string) (suffix : list string) : string :=
  match fuel with
  | O => clean
  | S fuel' =>
      if bool_decide (parent = ".") || bool_decide (parent = "/") || bool_decide (parent = clean)
      then clean
      else match eval_symlinks P parent with
           | Some resolved => filepath_clean (foldl filepath_join resolved (rev suffix))
           | None => resolve_up fuel' clean (filepath_dir parent) (suffix ++ [filepath_base parent])
           end
  end.

Definition resolveCanonicalPath (path : string) : result string :=
  if bool_decide (path = EmptyString) then Err (ErrMsg "path required")
  else
    let clean := filepath_clean path in
    match eval_symlinks P clean with
    | Some resolved => Ok (filepath_clean resolved)
    | None => Ok (resolve_up (String.length clean) clean (filepath_dir clean) [filepath_base clean])
    end.

Definition normalizePath (m : PermissionManager) (path : string) : result string :=
  if bool_decide (path = EmptyString) then Err (ErrMsg "path required")
  else if negb (is_abs path) && bool_decide (basePath m = EmptyString) then Ok (filepath_clean path)
  else
    let resolved := if is_abs path then path else filepath_join (basePath m) path in
    let resolved := filepath_clean resolved in
    let resolved := match resolveCanonicalPath resolved with Ok c => c | Err _ => resolved end in
    let base := filepath_clean (basePath m) in
    if negb (bool_decide (resolved = base)) && negb (has_prefix (base +:+ "/") resolved)
    then Err (ErrFmt "path %q escapes workspace %q" [resolved; base])
    else Ok resolved.

Definition pathWithinRoot (target root : string) : bool :=
  let target := filepath_clean target in
  let root := filepath_clean root in
  if bool_decide (root = EmptyString) then false
  else bool_decide (target = root) || has_prefix (root +:+ "/") target.

Definition within_any (roots : list string) (path : string) : bool :=
  existsb (λ root, negb (bool_decide (root = EmptyString)) && pathWithinRoot path root) roots.

Definition isFilesystemProtectedPath (m : PermissionManager) (path : string) : bool :=
  within_any (fsProtectedRoots m) path.

Definition isFilesystemExcludedPath (path : string) (roots : list string) : bool :=
  within_any roots path.

Definition filesystemGuardRootsSnapshot (m : PermissionManager) : list string :=
  fsProtectedRoots m ++ fsExcludedRoots m.

Definition filesystemPatternTargetsExcludedRoot (pattern : string) (roots : list string) : bool :=
  let pattern := filepath_clean (trim_space pattern) in
  if bool_decide (pattern = EmptyString) then false
  else existsb (λ root, negb (bool_decide (root = EmptyString)) &&
         (bool_decide (pattern = filepath_clean root) ||
          has_prefix (filepath_clean root +:+ "/") pattern)) roots.

(** The body of the search loop. *)
Definition fs_matches (roots : list string) (action path : string) (p : FileSystemPermission) : bool :=
  bool_decide (fs_Action p = action) && matchGlob (fs_Path p) path &&
  negb (negb (bool_decide (roots = [])) && isFilesystemExcludedPath path roots &&
        negb (filesystemPatternTargetsExcludedRoot (fs_Path p) roots)).

Definition match_fs (m : PermissionManager) (action path : string) : option FileSystemPermission :=
  snd <$> list_find (λ p, fs_matches (filesystemGuardRootsSnapshot m) action path p = true)
            (FileSystem (declared m)).

Definition fs_key (action path : string) : string := action +:+ ":" +:+ path.

Definition findFilesystemPermission (action path : string) : SE World (option FileSystemPermission) :=
  let normalized := filepath_clean path in
  let* m := se_get pm in
  if isFilesystemProtectedPath m normalized then se_ret None
  else
    let* now := read_clock in
    let* r := se_get (λ w, Cache.Get now (fs_key action normalized) (fsPermCache (pm w))) in
    on_pm (with_fs r.2) ;;;
    match r.1 with
    | Some perm => se_ret perm
    | None =>
        let matched := match_fs m action normalized in
        let* now := read_clock in
        on_pm (λ m, with_fs (Cache.Put now (fs_key action normalized) matched (fsPermCache m)) m) ;;;
        se_ret matched
    end.

(** [filepath.Abs] *)
Definition filepath_abs (p : string) : string :=
  if is_abs p then filepath_clean p else filepath_join (getwd P) p.

Fixpoint normalize_roots (paths out : list string) : list string :=
  match paths with
  | [] => out
  | path :: paths' =>
      let path := trim_space path in
      if bool_decide (path = EmptyString) then normalize_roots paths' out
      else
        let path := filepath_clean (filepath_abs path) in
        if bool_decide (path = EmptyString) || bool_decide (path = ".") || bool_decide (path ∈ out)
        then normalize_roots paths' out
        else normalize_roots paths' (out ++ [path])
  end.

Definition normalizeFilesystemRoots (paths : list string) : list string := normalize_roots paths [].

Definition SetFilesystemGuardRoots (protectedRoots excludedRoots : list string) : SE World unit :=
  on_pm (λ m, with_fs (Cache.Reset (fsPermCache m))
    (with_roots (normalizeFilesystemRoots protectedRoots) (normalizeFilesystemRoots excludedRoots) m)).

Definition fs_desc (action resource : string) : PermissionDescriptor :=
  {| pd_Type := "filesystem"; pd_Action := action; pd_Resource := resource; pd_RequiresHITL := false |}.

Definition CheckFileAccess (agentID action path : string) : SE World unit :=
  let* m := se_get pm in
  match normalizePath m path with
  | Err e => deny agentID (fs_desc action path) ("path escapes workspace: " +:+ error_text e)
  | Ok clean =>
      let* perm := findFilesystemPermission action clean in
      match perm with
      | None => undeclared agentID (fs_desc action clean) "not declared"
      | Some perm =>
          (if fs_HITLRequired perm
           then ensureGrant agentID (requires_hitl (fs_desc action (fs_Path perm)))
           else se_ret ()) ;;;
          log agentID (fs_desc action clean) "granted" EmptyString
      end
  end.

Definition StaticallyAllowsFileAccess (action path : string) : SE World bool :=
  let* m := se_get pm in
  match normalizePath m path with
  | Err _ => se_ret false
  | Ok clean =>
      let* perm := findFilesystemPermission action clean in
      se_ret (match perm with None => false | Some p => negb (fs_HITLRequired p) end)
  end.

Record AgentFilePermissionSet := {
  AllowPatterns : list string; DenyPatterns : list string; Default : string;
  fp_RequireApproval : bool; DocumentationOnly : bool
}.
Record AgentFileMatrix := { Write_ : AgentFilePermissionSet; Edit : AgentFilePermissionSet }.

Definition hitl_desc (action resource : string) : PermissionDescriptor :=
  {| pd_Type := "hitl"; pd_Action := action; pd_Resource := resource; pd_RequiresHITL := false |}.

Definition CheckFilePermission (agentID base action absPath : string) (matrix : AgentFileMatrix)
    : SE World unit :=
  let rel := if bool_decide (base = EmptyString) then absPath
             else from_option id absPath (filepath_rel base absPath) in
  let rel := trim_prefix "./" (filepath_clean rel) in
  let perm := if bool_decide (action = "edit") then Edit matrix else Write_ matrix in
  if DocumentationOnly perm && negb (has_suffix ".md" (to_lower rel))
  then se_err (ErrFmt "file %s blocked: documentation_only enabled" [rel])
  else
    let d := (DecideByPatterns rel (AllowPatterns perm) (DenyPatterns perm) (Default perm)).1 in
    let d := if fp_RequireApproval perm then DecisionAsk else d in
    if bool_decide (d = DecisionAllow) then se_ret ()
    else if bool_decide (d = DecisionDeny)
    then se_err (ErrFmt "file %s blocked: denied by file_permissions" [rel])
    else if bool_decide (d = DecisionAsk) then
      RequireApproval agentID (requires_hitl (hitl_desc ("file_matrix:" +:+ action) rel))
        "file permission matrix" GrantScopeOneTime RiskLevelMedium 0
    else se_ret ().

(** ** Capabilities, IPC and tools *)
Definition CheckCapability (agentID capability : string) : SE World unit :=
  let desc := {| pd_Type := "capability"; pd_Action := "cap:" +:+ capability;
                 pd_Resource := capability; pd_RequiresHITL := false |} in
  let* m := se_get pm in
  if bool_decide (capability ∈ Capabilities (declared m)) then log agentID desc "granted" EmptyString
  else deny agentID desc "capability not declared".

Definition findIPCPermission (m : PermissionManager) (kind target : string) : option IPCPermission :=
  snd <$> list_find (λ p, ipc_Kind p = kind ∧ (ipc_Target p = target ∨ ipc_Target p = permissionMatchAll))
            (IPC (declared m)).

Definition CheckIPC (agentID kind target : string) : SE World unit :=
  let desc r := {| pd_Type := "ipc"; pd_Action := "ipc:" +:+ kind; pd_Resource := r;
                   pd_RequiresHITL := false |} in
  let* perm := se_get (λ w, findIPCPermission (pm w) kind target) in
  match perm with
  | None => deny agentID (desc target) "ipc scope missing"
  | Some perm =>
      (if ipc_HITLRequired perm then ensureGrant agentID (requires_hitl (desc (ipc_Target perm)))
       else se_ret ()) ;;;
      log agentID (desc target) "granted" EmptyString
  end.

Definition toolDescriptor (name agentID : string) : PermissionDescriptor :=
  hitl_desc ("tool:" +:+ name) agentID.

(** A loop collecting what is missing. *)
Fixpoint collect {A} (f : A → SE World (option string)) (l : list A) : SE World (list string) :=
  match l with
  | [] => se_ret []
  | x :: l' =>
      let* s := f x in
      let* rest := collect f l' in
      se_ret (match s with Some s => s :: rest | None => rest end)
  end.

Definition collectUndeclared (req : PermissionSet) : SE World (list string) :=
  let* fs := collect (λ p, let* r := findFilesystemPermission (fs_Action p) (fs_Path p) in
    se_ret (match r with None => Some ("fs " +:+ fs_Action p +:+ " " +:+ fs_Path p) | _ => None end))
    (FileSystem req) in
  let* ex := collect (λ p, let* r := findExecutablePermission (ex_Binary p) in
    se_ret (match r with None => Some ("exec " +:+ ex_Binary p) | _ => None end)) (Executables req) in
  let* net := collect (λ p, let* r := se_get (λ w,
      findNetworkPermission (pm w) (np_Direction p) (np_Protocol p) (np_Host p) (np_Port p)) in
    se_ret (match r with None => Some ("net " +:+ np_Direction p +:+ " " +:+ np_Host p) | _ => None end))
    (Network req) in
  se_ret (fs ++ ex ++ net).

Definition handleUndeclaredTool (agentID name : string) (missing : list string) : SE World unit :=
  let desc := toolDescriptor name agentID in
  let* d := se_get (λ w, effectiveDefaultDecision (pm w)) in
  if bool_decide (d = DecisionDeny) then deny agentID desc "tool exceeds declared permissions"
  else
    emitPolicyDecision agentID (requires_hitl desc) "require_approval"
      "undeclared permissions require approval" EmptyString ;;;
    RequireApproval agentID (requires_hitl desc)
      ("tool " +:+ name +:+ " requires: " +:+ join_with ", " missing)
      GrantScopeSession RiskLevelMedium 0.

Definition AuthorizeTool (agentID : string) (tool : option Tool) : SE World unit :=
  match tool with
  | None => se_err (ErrMsg "permission manager or tool missing")
  | Some t =>
      let* allowed := se_get (λ w, toolAllowedByTaskGrant (pm w) t) in
      if allowed then log agentID (toolDescriptor (t_Name t) agentID) "tool_allowed_task_grant" EmptyString
      else
        match t_Permissions t with
        | None => se_err (ErrWrap ("tool " +:+ t_Name t +:+ " permission invalid")
                            (ErrMsg "tool permissions missing"))
        | Some req =>
            match ValidatePermissionSet req with
            | Some e => se_err (ErrWrap ("tool " +:+ t_Name t +:+ " permission invalid") e)
            | None =>
                let* missing := collectUndeclared req in
                (if bool_decide (missing = []) then se_ret ()
                 else handleUndeclaredTool agentID (t_Name t) missing) ;;;
                log agentID (toolDescriptor (t_Name t) agentID) "tool_allowed" EmptyString
            end
        end
  end.

Definition AuthorizeToolByName (agentID toolName : string) : SE World unit :=
  let name := trim_space toolName in
  if bool_decide (name = EmptyString) then se_err (ErrMsg "tool name required")
  else
    handleUndeclaredTool agentID name ["tool permissions unknown"] ;;;
    log agentID (toolDescriptor name agentID) "tool_allowed" EmptyString.

End manager.
