(* ===== verification/PermissionsSafety.v ===== *)
(** * PermissionsSafety

    What the permission manager guarantees: the lookup caches are transparent, a
    check succeeds only on a declared permission or with a human's consent, and
    consent is accounted for. *)
From S2P Require Import Prelude GoStrings GoTime GoPath Policy Glob Bounded Permissions.
From stdpp Require Import pretty.

Definition fs_actions : list string :=
  [FileSystemRead; FileSystemWrite; FileSystemDelete; FileSystemRename; FileSystemMove;
   FileSystemExecute; FileSystemList].

Lemma fs_action_shape a : a ∈ fs_actions → ∃ v, a = "fs:" +:+ v ∧ contains_byte ":"%char v = false.
Proof.
  unfold fs_actions. rewrite !elem_of_cons, elem_of_nil.
  intros [->|[->|[->|[->|[->|[->|[->|[]]]]]]]];
    [exists "read"|exists "write"|exists "delete"|exists "rename"|exists "move"|exists "execute"|
     exists "list"]; done.
Qed.

(** The cache key determines the action and the path. *)
Lemma fs_key_inj a a' p p' :
  a ∈ fs_actions → a' ∈ fs_actions → fs_key a p = fs_key a' p' → a = a' ∧ p = p'.
Proof.
  intros (v & -> & Hv)%fs_action_shape (v' & -> & Hv')%fs_action_shape Heq. unfold fs_key in Heq.
  rewrite !str_app_assoc in Heq. apply (inj (String.app "fs:")) in Heq.
  by apply (sep_inj ":"%char) in Heq as [-> ->].
Qed.

Record manager_ok (m : PermissionManager) : Prop := {
  ok_grants : Cache.ttl (grants m) = 0%Z;
  ok_fs : Cache.ttl (fsPermCache m) = 0%Z;
  ok_exec : Cache.ttl (execPermCache m) = 0%Z;
  ok_default : effectiveDefaultDecision m ≠ DecisionAllow;
  ok_fs_cache a p e : a ∈ fs_actions →
    Cache.entries (fsPermCache m) !! fs_key a p = Some e → Cache.value e = match_fs m a p;
  ok_exec_cache k e p :
    Cache.entries (execPermCache m) !! k = Some e → Cache.value e = Some p →
    p ∈ Executables (declared m) ∧ trim_space (ex_Binary p) = k
}.

Section safety.
Context {H L : Type} (P : Ports (H := H) (L := L)).
Implicit Types w : World (H := H) (L := L).

(** ** Frames *)

(** Everything but the clock position and one field of the manager. *)
Definition moved (f : PermissionManager → PermissionManager) w w' : Prop :=
  pm w' = f (pm w) ∧ hitl_st w' = hitl_st w ∧ audit_st w' = audit_st w ∧ emitted w' = emitted w.

Lemma find_fs_spec action path w r w' :
  manager_ok (pm w) → action ∈ fs_actions →
  findFilesystemPermission P action path w = (r, w') →
  r = Ok (if isFilesystemProtectedPath (pm w) (filepath_clean path) then None
          else match_fs (pm w) action (filepath_clean path)) ∧
  manager_ok (pm w') ∧ ∃ c, moved (with_fs c) w w'.
Proof.
  intros Hok Ha. unfold findFilesystemPermission, se_bind, se_get, on_pm, se_mod, se_ret, read_clock.
  cbn [pm set_pm hitl_st audit_st emitted tick]. set (k := filepath_clean path).
  destruct (isFilesystemProtectedPath (pm w) k).
  { intros [= <- <-]. split_and!; [done..|]. exists (fsPermCache (pm w)). by destruct w as [[]]. }
  rewrite (Cache.get_no_ttl _ _ _ (ok_fs _ Hok)). cbn [fst snd].
  destruct (Cache.entries (fsPermCache (pm w)) !! fs_key action k) as [e|] eqn:He; cbn.
  - intros [= <- <-]. split_and!.
    + f_equal. by apply (ok_fs_cache _ Hok).
    + destruct w as [[]]. exact Hok.
    + by eexists.
  - intros [= <- <-]. split_and!; [done| |by eexists].
    destruct Hok as [H1 H2 H3 H4 H5 H6]. split; cbn; [done| |done|done| |done].
    + by rewrite (proj2 (Cache.put_fields _ _ _ _)).
    + intros a p e Ha' [[Hk ->]|Hk]%Cache.put_sound.
      * by apply fs_key_inj in Hk as [-> ->].
      * by apply H5.
Qed.

(** ** Consent *)

(** A grant is recorded under [key], or the HITL provider approves a request for
    it now. *)
Definition consent (key : string) w : Prop :=
  is_Some (Cache.entries (grants (pm w)) !! key) ∨
  ∃ f req g, hitl P = Some f ∧ grant_key (pr_Permission req) = key ∧ (f req (hitl_st w)).1 = Ok g.

Lemma take_grant_spec key w r w' :
  Cache.ttl (grants (pm w)) = 0%Z → take_grant P key w = (r, w') →
  r = Ok (Cache.value <$> Cache.entries (grants (pm w)) !! key) ∧
  ∃ c now, moved (with_grants c) w w' ∧ Cache.ttl c = 0%Z ∧ Cache.cap c = Cache.cap (grants (pm w)) ∧
    Cache.entries c =
      match Cache.entries (grants (pm w)) !! key with
      | Some e => if takeable now (Cache.value e) then delete key (Cache.entries (grants (pm w)))
                  else Cache.entries (grants (pm w))
      | None => Cache.entries (grants (pm w))
      end.
Proof.
  intros Ht. unfold take_grant, se_bind, se_get, on_pm, se_mod, se_ret, read_clock.
  cbn [pm set_pm hitl_st audit_st emitted tick]. intros [= <- <-].
  destruct (Cache.take_no_ttl (grantClock P (tick w)) key (takeable (grantClock P (S (tick w))))
    (grants (pm w)) Ht) as (Hr & He & Hc & Htt).
  split; [by rewrite Hr|]. eexists _, (grantClock P (S (tick w))). split; [by split_and!|].
  rewrite He, Hc, Htt. by split_and!.
Qed.

Lemma log_spec agentID desc res reason w r w' :
  log P agentID desc res reason w = (r, w') →
  pm w' = pm w ∧ hitl_st w' = hitl_st w ∧ tick w' = tick w ∧
  match audit P with
  | None => r = Ok () ∧ audit_st w' = audit_st w
  | Some f =>
      let rec := {| ar_AgentID := agentID; ar_Action := pd_Action desc; ar_Type := pd_Type desc;
                    ar_Permission := redactSensitivePath (pd_Resource desc); ar_Result := res |} in
      audit_st w' = (f rec (audit_st w)).2 ∧ (r = Ok () ↔ (f rec (audit_st w)).1 = None)
  end.
Proof.
  unfold log, se_bind, run_audit, emitPolicyDecision, emit. destruct (audit P) as [f|].
  - destruct (f _ (audit_st w)) as [[e|] l] eqn:Hf; cbn; intros [= <- <-]; by split_and!.
  - by intros [= <- <-].
Qed.

Lemma deny_err {A} agentID desc reason w (r : result A) w' :
  deny P agentID desc reason w = (r, w') → r = Err (denied_error desc reason) ∧ pm w' = pm w ∧ hitl_st w' = hitl_st w.
Proof.
  unfold deny, se_bind, se_try, se_err. destruct (log P agentID desc "denied" reason w) as [r1 w1] eqn:Hl.
  intros [= <- <-]. apply log_spec in Hl as (-> & -> & _). done.
Qed.

Lemma sweep_grants_entries w w' :
  Cache.ttl (grants (pm w)) = 0%Z → sweepExpiredGrants P w = (Ok (), w') →
  ∃ c, moved (with_grants c) w w' ∧ Cache.ttl c = 0%Z ∧ Cache.cap c = Cache.cap (grants (pm w)) ∧
    ∀ k e, Cache.entries c !! k = Some e → Cache.entries (grants (pm w)) !! k = Some e.
Proof.
  intros Ht. unfold sweepExpiredGrants, se_bind, on_pm, se_mod, read_clock. intros [= <-].
  cbn [pm set_pm]. eexists. split; [by split_and!|].
  destruct (Cache.deletes_entries (stale_keys (grantClock P (tick w)) (grants (pm w)))
    (grants (pm w))) as (Hc & Htt & He).
  rewrite Hc, Htt. split_and!; [done..|]. intros k e. rewrite He. by case_decide.
Qed.

Lemma put_grant_spec key g w r w' :
  Cache.ttl (grants (pm w)) = 0%Z → putGrant P key g w = (r, w') →
  r = Ok () ∧ ∃ c, moved (with_grants c) w w' ∧ Cache.ttl c = 0%Z ∧
    Cache.cap c = Cache.cap (grants (pm w)) ∧
    ∀ k e, Cache.entries c !! k = Some e →
      (k = key ∧ Cache.value e = g) ∨ Cache.entries (grants (pm w)) !! k = Some e.
Proof.
  intros Ht. unfold putGrant. unfold se_bind at 1. unfold se_get. cbv beta iota.
  set (full := (_ <=? _)%Z).
  assert (∃ c1 w1, (if full then sweepExpiredGrants P else se_ret ()) w = (Ok (), w1) ∧
    moved (with_grants c1) w w1 ∧ Cache.ttl c1 = 0%Z ∧ Cache.cap c1 = Cache.cap (grants (pm w)) ∧
    ∀ k e, Cache.entries c1 !! k = Some e → Cache.entries (grants (pm w)) !! k = Some e)
    as (c1 & w1 & Hw1 & (Hp1 & Hh1 & Ha1 & He1) & Ht1 & Hc1 & Hs1).
  { destruct full.
    - destruct (sweepExpiredGrants P w) as [[[]|e] w1] eqn:Hsw; [|done].
      destruct (sweep_grants_entries w w1 Ht Hsw) as (c & Hm & ? & ? & ?). by exists c, w1.
    - exists (grants (pm w)), w. split_and!; [done| |done..]. by destruct w as [[]]. }
  unfold se_bind. rewrite Hw1. unfold read_clock, on_pm, se_mod. cbn [fst snd pm set_pm].
  intros [= <- <-]. split; [done|]. eexists. split.
  { split_and!; [|exact Hh1|exact Ha1|exact He1]. cbn. rewrite Hp1. reflexivity. }
  cbn [grants with_grants].
  destruct (Cache.put_fields (grantClock P (tick w1)) key g c1) as [Hc Htt].
  rewrite Hc, Htt. split_and!; [done..|].
  intros k e [[-> ->]|Hk]%Cache.put_sound; [by left|right; auto].
Qed.

Lemma ok_with_grants m c : manager_ok m → Cache.ttl c = 0%Z → manager_ok (with_grants c m).
Proof. intros [H1 H2 H3 H4 H5 H6] Hc. by split. Qed.

Lemma request_grant_spec agentID desc w r w' :
  manager_ok (pm w) → requestGrant P agentID desc w = (r, w') →
  manager_ok (pm w') ∧
  (r = Ok () → audit_st w' = audit_st w ∧
     ∃ f req g, hitl P = Some f ∧ pr_Permission req = desc ∧ (f req (hitl_st w)).1 = Ok g).
Proof.
  intros Hok. unfold requestGrant. destruct (hitl P) as [f|].
  2:{ intros (-> & Hp & _)%deny_err. rewrite Hp. done. }
  intros [(g & w1 & Ha & Hput)|(e & Ha & ->)]%se_bind_inv; unfold ask_hitl in Ha;
    destruct (f _ (hitl_st w)) as [r0 h] eqn:Hf; simplify_eq.
  - apply put_grant_spec in Hput as (-> & c & (Hp & _ & Hau & _) & Ht & _); [|apply Hok].
    rewrite Hp. split; [by apply ok_with_grants|]. intros _. split; [done|].
    eexists f, _, g. split; [done|]. split; [|by rewrite Hf]. done.
  - done.
Qed.

Lemma ensure_grant_spec agentID desc w r w' :
  manager_ok (pm w) → ensureGrant P agentID desc w = (r, w') →
  manager_ok (pm w') ∧ (r = Ok () → audit_st w' = audit_st w ∧ consent (grant_key desc) w).
Proof.
  intros Hok. unfold ensureGrant.
  intros [(g & w1 & Ht & Hk)|(e & Ht & _)]%se_bind_inv;
    apply take_grant_spec in Ht as (Hg & c & now & (Hp & Hh & Ha & _) & Htt & _); try apply Hok; [|done].
  apply se_bind_inv in Hk as [(now' & w2 & Hr & Hk)|(e & Hr & _)]; [|done].
  unfold read_clock in Hr. simplify_eq.
  assert (manager_ok (pm w1)) as Hok1 by (rewrite Hp; by apply ok_with_grants).
  assert (∀ (k : SE (World (H := H) (L := L)) unit), k = requestGrant P agentID desc →
    k {| pm := pm w1; hitl_st := hitl_st w1; audit_st := audit_st w1; emitted := emitted w1;
         tick := S (tick w1) |} = (r, w') →
    manager_ok (pm w') ∧ (r = Ok () → audit_st w' = audit_st w ∧ consent (grant_key desc) w)) as Hreq.
  { intros k -> Hr. apply request_grant_spec in Hr as [Hok' Hr]; [|done]. split; [done|].
    intros HrOk. destruct (Hr HrOk) as (Hau & f & req & g & Hf & Hd & Hg). split.
    - by rewrite Hau.
    - right. exists f, req, g. split_and!; [done|by rewrite Hd|]. by rewrite <- Hh. }
  destruct (Cache.entries (grants (pm w)) !! grant_key desc) as [e|] eqn:He; simplify_eq/=; [|by eapply Hreq].
  destruct (Expired _ (Cache.value e)); cbn in Hk; [by eapply Hreq|].
  unfold se_ret in Hk. simplify_eq. cbn. split; [done|]. intros _. split; [done|]. left. by rewrite He.
Qed.

(** ** Checks *)
Definition audited (agentID : string) (desc : PermissionDescriptor) w w' : Prop :=
  match audit P with
  | None => audit_st w' = audit_st w
  | Some f => f {| ar_AgentID := agentID; ar_Action := pd_Action desc; ar_Type := pd_Type desc;
                   ar_Permission := redactSensitivePath (pd_Resource desc); ar_Result := "granted" |}
                (audit_st w) = (None, audit_st w')
  end.

Lemma log_granted agentID desc w w' :
  log P agentID desc "granted" EmptyString w = (Ok (), w') → pm w' = pm w ∧ audited agentID desc w w'.
Proof.
  intros (Hp & _ & _ & Ha)%log_spec. split; [done|]. unfold audited. destruct (audit P) as [f|].
  - destruct Ha as [-> Hn]. rewrite (surjective_pairing (f _ _)). f_equal. by apply Hn.
  - apply Ha.
Qed.

(** The step shared by every declared branch: ask when the permission says so,
    then record. *)
Lemma ask_then_log (ask : bool) agentID desc rdesc w r w' :
  manager_ok (pm w) →
  ((if ask then ensureGrant P agentID desc else se_ret ()) ;;;
   log P agentID rdesc "granted" EmptyString) w = (r, w') →
  manager_ok (pm w') ∧
  (r = Ok () → (ask = true → consent (grant_key desc) w) ∧ audited agentID rdesc w w').
Proof.
  intros Hok [([] & w1 & Ha & Hl)|(e & Ha & ->)]%se_bind_inv.
  - assert (manager_ok (pm w1) ∧ audit_st w1 = audit_st w ∧ (ask = true → consent (grant_key desc) w))
      as (Hok1 & Hau & Hc).
    { destruct ask; [|unfold se_ret in Ha; by simplify_eq].
      apply ensure_grant_spec in Ha as [? Hr]; [|done]. naive_solver. }
    split; [by apply log_spec in Hl as (-> & _)|]. intros ->. split; [done|].
    apply log_granted in Hl as [_ Hl]. unfold audited in *. by rewrite Hau in Hl.
  - split; [|done]. destruct ask; [|done]. by apply ensure_grant_spec in Ha as [? _].
Qed.

Lemma undeclared_spec agentID desc reason w r w' :
  manager_ok (pm w) → undeclared P agentID desc reason w = (r, w') →
  manager_ok (pm w') ∧
  (r = Ok () → effectiveDefaultDecision (pm w) ≠ DecisionDeny ∧ consent (grant_key desc) w ∧
               audit_st w' = audit_st w).
Proof.
  intros Hok. unfold undeclared, se_bind, se_get. case_bool_decide as Hd.
  - intros (-> & Hp & _)%deny_err. rewrite Hp. done.
  - intros He. apply ensure_grant_spec in He as [? Hr]; [|done]. naive_solver.
Qed.

Lemma match_fs_sound m action path p :
  match_fs m action path = Some p →
  p ∈ FileSystem (declared m) ∧ fs_Action p = action ∧ matchGlob (fs_Path p) path = true.
Proof.
  unfold match_fs. intros ([i q] & (Hq & Hm & _)%list_find_Some & ->)%fmap_Some. cbn.
  split; [by eapply list_elem_of_lookup_2|]. unfold fs_matches in Hm. bool_to_prop. done.
Qed.

Lemma normalize_confined m path clean :
  normalizePath P m path = Ok clean → basePath m ≠ EmptyString →
  clean = filepath_clean (basePath m) ∨ has_prefix (filepath_clean (basePath m) +:+ "/") clean = true.
Proof.
  unfold normalizePath. case_bool_decide; [done|]. intros Hn Hb. revert Hn.
  rewrite (bool_decide_false (basePath m = _)), andb_false_r by done.
  set (r := match resolveCanonicalPath P _ with Ok c => c | Err _ => _ end).
  case_bool_decide as Heq; [intros [= <-]; auto|]. cbn.
  destruct (has_prefix _ r) eqn:Hp; [|done]. intros [= <-]. auto.
Qed.

(** C3: File access is confined and authorized.  [CheckFileAccess] succeeds only for
    a path that resolves inside the workspace, and only in two ways: a declared
    permission for that action covers the path, the path is not under a protected
    root, the human consent the permission may demand was given, and the audit
    logger accepted the record of the grant; or, when nothing declared covers the
    path and the default is not deny, a human consented to this very path, and
    then no audit record is written. *)
Theorem file_access_authorized agentID action path w w' :
  manager_ok (pm w) → action ∈ fs_actions → basePath (pm w) ≠ EmptyString →
  CheckFileAccess P agentID action path w = (Ok (), w') →
  ∃ clean, normalizePath P (pm w) path = Ok clean ∧
    (clean = filepath_clean (basePath (pm w)) ∨
     has_prefix (filepath_clean (basePath (pm w)) +:+ "/") clean = true) ∧
    ((∃ p, p ∈ FileSystem (declared (pm w)) ∧ fs_Action p = action ∧
        matchGlob (fs_Path p) (filepath_clean clean) = true ∧
        isFilesystemProtectedPath (pm w) (filepath_clean clean) = false ∧
        (fs_HITLRequired p = true → consent (grant_key (fs_desc action (fs_Path p))) w) ∧
        audited agentID (fs_desc action clean) w w') ∨
     (effectiveDefaultDecision (pm w) ≠ DecisionDeny ∧
        consent (grant_key (fs_desc action clean)) w ∧ audit_st w' = audit_st w)).
Proof.
  intros Hok Ha Hb. unfold CheckFileAccess. intros (m & w0 & [= <- <-] & Hrun)%se_bind_ok.
  destruct (normalizePath P (pm w) path) as [clean|e] eqn:Hn; [|by apply deny_err in Hrun as [? _]].
  exists clean. split_and!; [done|by apply (normalize_confined _ path)|].
  apply se_bind_ok in Hrun as (perm & w1 & Hf & Hrun).
  apply find_fs_spec in Hf as (Hr & Hok1 & c & Hp & Hh & Hau & _); [|done..]. simplify_eq.
  assert (∀ key, consent key w1 → consent key w) as Hcons.
  { intros key. unfold consent. rewrite Hp, Hh. done. }
  destruct (isFilesystemProtectedPath (pm w) (filepath_clean clean)) eqn:Hprot;
    [|destruct (match_fs (pm w) action (filepath_clean clean)) as [p|] eqn:Hm].
  - right. apply undeclared_spec in Hrun as [_ Hrun]; [|done]. destruct Hrun as (Hd & Hc & Hau'); [done|].
    rewrite Hp in Hd. split_and!; [done|auto|congruence].
  - left. exists p. destruct (match_fs_sound _ _ _ _ Hm) as (? & ? & ?).
    apply ask_then_log in Hrun as [_ Hrun]; [|done]. destruct Hrun as [Hc Hlog]; [done|].
    split_and!; [done..|auto|]. unfold audited in *. by rewrite Hau in Hlog.
  - right. apply undeclared_spec in Hrun as [_ Hrun]; [|done]. destruct Hrun as (Hd & Hc & Hau'); [done|].
    rewrite Hp in Hd. split_and!; [done|auto|congruence].
Qed.

(** Network egress is guarded.  [CheckNetwork] succeeds only for a target of
    class public, whatever is declared or approved; and then a declared
    permission matches (with consent if it demands it, the audit record accepted,
    and the rule pushed to the sandbox policy), or a human consented to the
    undeclared target under a default other than deny. *)
Theorem network_access_authorized agentID direction protocol target port w w' :
  manager_ok (pm w) →
  CheckNetwork P agentID direction protocol target port w = (Ok (), w') →
  Class_ target = ClassPublic ∧
  ((∃ p, findNetworkPermission (pm w) direction protocol (Token target) port = Some p ∧
      (np_HITLRequired p = true →
         consent (grant_key (net_desc ("net:" +:+ direction +:+ ":" +:+ protocol)
                                      (Token target +:+ ":" +:+ pretty port))) w) ∧
      (∃ w1, audited agentID (net_desc ("net:" +:+ direction) (Token target +:+ ":" +:+ pretty port)) w w1) ∧
      last (netPolicy (pm w')) = Some {| nr_Direction := direction; nr_Protocol := protocol;
                                         nr_Host := Token target; nr_Port := port |}) ∨
   (findNetworkPermission (pm w) direction protocol (Token target) port = None ∧
    effectiveDefaultDecision (pm w) ≠ DecisionDeny ∧
    consent (grant_key (networkDescriptor direction protocol (Token target) port)) w)).
Proof.
  intros Hok. unfold CheckNetwork. case_bool_decide as Hc; cbn [negb].
  2:{ intros [? _]%deny_err. done. }
  intros (perm & w0 & [= <- <-] & Hrun)%se_bind_ok. split; [done|].
  destruct (findNetworkPermission (pm w) direction protocol (Token target) port) as [p|].
  - left. exists p. split; [done|].
    apply se_bind_ok in Hrun as ([] & w1 & Ha & Hrun).
    apply se_bind_ok in Hrun as ([] & w2 & Hl & Hrec).
    destruct (ask_then_log (np_HITLRequired p) agentID
      (requires_hitl (net_desc ("net:" +:+ direction +:+ ":" +:+ protocol) (Token target +:+ ":" +:+ pretty port)))
      (net_desc ("net:" +:+ direction) (Token target +:+ ":" +:+ pretty port)) w (Ok ()) w2 Hok) as [_ Hal].
    { unfold se_bind. rewrite Ha. done. }
    destruct Hal as [Hcons Haud]; [done|]. split_and!; [done|by exists w2|].
    unfold recordNetworkRule, on_pm, se_mod in Hrec. simplify_eq. cbn. by rewrite last_snoc.
  - right. apply undeclared_spec in Hrun as [_ Hrun]; [|done]. destruct Hrun as (Hd & Hcons & _); [done|].
    done.
Qed.

(** ** Executables *)

Lemma match_exec_sound b l p : match_exec b l = Some p → p ∈ l ∧ ex_Binary p = b.
Proof.
  unfold match_exec. intros ([i q] & (Hq & Hm & _)%list_find_Some & ->)%fmap_Some. cbn.
  split; [by eapply list_elem_of_lookup_2|done].
Qed.

Lemma find_exec_spec binary w r w' :
  manager_ok (pm w) → findExecutablePermission P binary w = (r, w') →
  manager_ok (pm w') ∧ (∃ c, moved (with_exec c) w w') ∧
  ∃ o, r = Ok o ∧ (∀ p, o = Some p → p ∈ Executables (declared (pm w)) ∧
                                     trim_space (ex_Binary p) = trim_space binary).
Proof.
  intros Hok. unfold findExecutablePermission, se_bind, se_get, on_pm, se_mod, se_ret, read_clock.
  cbn [pm set_pm hitl_st audit_st emitted tick].
  rewrite (Cache.get_no_ttl _ _ _ (ok_exec _ Hok)). cbn [fst snd].
  destruct (Cache.entries (execPermCache (pm w)) !! trim_space binary) as [e|] eqn:He;
    cbn [fmap option_fmap option_map]; intros [= <- <-]; cbn [pm].
  - split_and!; [by destruct w as [[]]|by exists (execPermCache (pm w)); destruct w as [[]]|]. eexists. split; [done|]. intros p Hp. by eapply (ok_exec_cache _ Hok).
  - split_and!; [|by eexists|].
    + destruct Hok as [H1 H2 H3 H4 H5 H6]. split; try done; cbn.
      * by rewrite (proj2 (Cache.put_fields _ _ _ _)).
      * intros k e p [[-> ->]|Hk]%Cache.put_sound; cbn; [|by apply H6].
        intros [? <-]%match_exec_sound. done.
    + eexists. split; [done|]. intros p [? <-]%match_exec_sound. done.
Qed.

(** C31: Running a binary is authorized.  [CheckExecutable] succeeds only when a
    declared executable has the same name up to surrounding white space, its
    argument and environment patterns accept the call, the consent it may demand
    was given, and the audit logger accepted the record; or, with no such
    executable found and a default other than deny, when a human consented to
    this very binary.  The cache of lookups keeps this guarantee. *)
Theorem exec_access_authorized agentID binary args env w w' :
  manager_ok (pm w) →
  CheckExecutable P agentID binary args env w = (Ok (), w') →
  manager_ok (pm w') ∧
  ((∃ p, p ∈ Executables (declared (pm w)) ∧ trim_space (ex_Binary p) = trim_space binary ∧
      (ex_Args p ≠ [] → matchArgs (ex_Args p) args = true) ∧
      (ex_Env p ≠ [] → matchEnv (ex_Env p) env = true) ∧
      (ex_HITLRequired p = true → consent (grant_key (exec_desc ("exec:binary:" +:+ binary) binary)) w) ∧
      audited agentID (exec_desc ("exec:" +:+ binary) binary) w w') ∨
   (effectiveDefaultDecision (pm w) ≠ DecisionDeny ∧
      consent (grant_key (exec_desc ("exec:binary:" +:+ binary) binary)) w ∧ audit_st w' = audit_st w)).
Proof.
  intros Hok. unfold CheckExecutable. intros (perm & w1 & Hf & Hrun)%se_bind_ok.
  apply find_exec_spec in Hf as (Hok1 & (c & Hp & Hh & Hau & _) & o & [= <-] & Ho); [|done..].
  assert (∀ key, consent key w1 → consent key w) as Hcons.
  { intros key. unfold consent. by rewrite Hp, Hh. }
  destruct perm as [p|].
  - destruct (Ho p eq_refl) as [Hin Htrim].
    destruct (_ && negb (matchArgs _ _)) eqn:Hargs; [by apply deny_err in Hrun as [? _]|].
    destruct (_ && negb (matchEnv _ _)) eqn:Henv; [by apply deny_err in Hrun as [? _]|].
    apply ask_then_log in Hrun as [Hok' Hrun]; [|done]. destruct Hrun as [Hc Hlog]; [done|].
    split; [done|]. left. exists p. split_and!; [done|done| | |auto|].
    + intros Hne. destruct (matchArgs _ _); [done|]. by rewrite bool_decide_false in Hargs.
    + intros Hne. destruct (matchEnv _ _); [done|]. by rewrite bool_decide_false in Henv.
    + unfold audited in *. by rewrite Hau in Hlog.
  - apply undeclared_spec in Hrun as [Hok' Hrun]; [|done]. destruct Hrun as (Hd & Hc & Hau'); [done|].
    rewrite Hp in Hd. split; [done|]. right. split_and!; [done|auto|congruence].
Qed.

(** ** Accounting for one-time consent *)
Section one_time.
Context (f : PermissionRequest → H → result PermissionGrant * H) (hits : H → nat).
Hypothesis provider : hitl P = Some f.
Hypothesis counts : ∀ req h, hits (f req h).2 = S (hits h).
Hypothesis one_time : ∀ req h g, (f req h).1 = Ok g → g_Scope g = GrantScopeOneTime.

Definition one_time_grants (m : PermissionManager) : Prop :=
  Cache.ttl (grants m) = 0%Z ∧
  ∀ k e, Cache.entries (grants m) !! k = Some e → g_Scope (Cache.value e) = GrantScopeOneTime.

Definition held (key : string) (m : PermissionManager) : nat :=
  match Cache.entries (grants m) !! key with Some _ => 1 | None => 0 end.

Lemma rate_limit_frame key w r w' :
  checkHITLRateLimit P key w = (r, w') → grants (pm w') = grants (pm w) ∧ hitl_st w' = hitl_st w.
Proof.
  unfold checkHITLRateLimit, se_bind, se_get, on_pm, se_mod, read_clock, se_ret, se_err.
  cbn [pm set_pm hitl_st audit_st emitted tick]. destruct (Cache.Get _ _ _) as [[b|] c]; cbn [fst snd].
  - destruct (_ <=? _)%Z; [by intros [= <- <-]|]. destruct (_ <? _)%Z; by intros [= <- <-].
  - by intros [= <- <-].
Qed.

(** Asking the provider. *)
Lemma ask_put_spec key req w r w' :
  one_time_grants (pm w) →
  (let* g := ask_hitl f req in putGrant P key (with_session (principal P) g)) w = (r, w') →
  one_time_grants (pm w') ∧ hits (hitl_st w') = S (hits (hitl_st w)) ∧
  held key (pm w') ≤ 1 ∧ (r ≠ Ok () → pm w' = pm w).
Proof.
  intros [Ht Ho] [(g & w1 & Ha & Hput)|(e & Ha & ->)]%se_bind_inv; unfold ask_hitl in Ha;
    pose proof (counts req (hitl_st w)) as Hh; pose proof (one_time req (hitl_st w)) as Hone;
    destruct (f req (hitl_st w)) as [r0 h]; simplify_eq; cbn in Hh.
  - apply put_grant_spec in Hput as (-> & c & (Hp & Hhs & _) & Htt & _ & He); [|done].
    rewrite Hp, Hhs. cbn. split_and!; [|done|unfold held; cbn; case_match; lia|done].
    split; [done|]. intros k e [[_ Hv]|Hk]%He; [|by eapply Ho].
    rewrite Hv. cbn. by apply Hone.
  - cbn. split_and!; [done|done|unfold held; case_match; lia|done].
Qed.

Definition call : Type := string * string * string * string * Duration.
Definition approve (desc : PermissionDescriptor) (c : call) : SE (World (H := H) (L := L)) unit :=
  let '(agentID, justification, scope, risk, duration) := c in
  RequireApproval P agentID desc justification scope risk duration.

Definition ok_count (r : result unit) : nat := match r with Ok _ => 1 | Err _ => 0 end.

(** The rate limiter either refuses or lets the body run on the same grants. *)
Lemma limited_spec agentID desc key (body : SE (World (H := H) (L := L)) unit) w r w' :
  (let* limit := se_try (checkHITLRateLimit P key) in
   match limit with
   | Err e => emitPolicyDecision agentID desc "deny" (rate_message key) EmptyString ;;; se_err e
   | Ok _ => body
   end) w = (r, w') →
  ∃ w2, grants (pm w2) = grants (pm w) ∧ hitl_st w2 = hitl_st w ∧
    ((∃ e, r = Err e ∧ w' = w2) ∨ body w2 = (r, w')).
Proof.
  unfold se_bind at 1, se_try. destruct (checkHITLRateLimit P key w) as [l w1] eqn:Hl.
  apply rate_limit_frame in Hl as [Hg Hh]. destruct l as [u|e]; intros Hrun.
  - exists w1. eauto.
  - unfold emitPolicyDecision, emit, se_bind, se_mod, se_err in Hrun. simplify_eq.
    eexists. split_and!; [| |left; eauto]; done.
Qed.

(** One call: a success spends the grant held or a new approval, which leaves at
    most one grant behind. *)
Lemma approve_step desc c w r w' :
  one_time_grants (pm w) → approve desc c w = (r, w') →
  let key := grant_key desc in
  one_time_grants (pm w') ∧
  held key (pm w') + ok_count r + 2 * hits (hitl_st w) ≤ held key (pm w) + 2 * hits (hitl_st w') ∧
  hits (hitl_st w) ≤ hits (hitl_st w').
Proof.
  destruct c as [[[[agentID just] scope] risk] dur]. intros [Ht Ho] Hrun key.
  unfold approve, RequireApproval in Hrun. change (grant_key (requires_hitl desc)) with key in Hrun.
  apply se_bind_inv in Hrun as [(g & w1 & Htake & Hrun)|(e & Htake & _)];
    apply take_grant_spec in Htake as (Hg & c & now & (Hp & Hh & _) & Htt & _ & He); try done.
  apply se_bind_inv in Hrun as [(now' & w2 & Hr & Hrun)|(e & Hr & _)]; [|done].
  unfold read_clock in Hr. simplify_eq.
  assert (Cache.entries c = delete key (Cache.entries (grants (pm w)))) as Hc.
  { rewrite He. destruct (Cache.entries (grants (pm w)) !! key) as [e|] eqn:Hk; [|by rewrite delete_id].
    unfold takeable. by rewrite (Ho _ _ Hk), bool_decide_true, orb_true_r. }
  assert (one_time_grants (pm w1) ∧ held key (pm w1) = 0) as [Hot1 Hheld].
  { rewrite Hp. unfold one_time_grants, held. cbn. rewrite Hc, lookup_delete_eq. split_and!; [done| |done].
    intros k e [_ Hk]%lookup_delete_Some. by eapply Ho. }
  assert ((∃ e, Cache.entries (grants (pm w)) !! key = Some e ∧ r = Ok () ∧
             grants (pm w') = grants (pm w1) ∧ hitl_st w' = hitl_st w1) ∨
    ∃ w2, grants (pm w2) = grants (pm w1) ∧ hitl_st w2 = hitl_st w1 ∧
      ((∃ e, r = Err e ∧ w' = w2) ∨ ∃ req,
        (let* g := ask_hitl f req in putGrant P key (with_session (principal P) g)) w2 = (r, w')))
    as Hcase.
  { rewrite provider in Hrun. destruct (Cache.entries (grants (pm w)) !! key) as [e|]; cbn in Hrun.
    1: destruct (negb _); [unfold se_ret in Hrun; simplify_eq; left; exists e; by split_and!|].
    all: right; apply limited_spec in Hrun as (w2 & Hg2 & Hh2 & [Herr|Hrun]); exists w2;
      split_and!; eauto. }
  destruct Hcase as [(e & He' & -> & Hgr & Hhs)|(w2 & Hgr & Hhs & Hk)].
  - split; [unfold one_time_grants in *; by rewrite Hgr|].
    revert Hheld. unfold held. rewrite He', Hgr, Hhs, Hh. cbn. lia.
  - assert (one_time_grants (pm w2)) as Hot2 by (unfold one_time_grants; by rewrite Hgr).
    assert (held key (pm w2) = 0) as Hheld2 by (revert Hheld; unfold held; by rewrite Hgr).
    destruct Hk as [(e & -> & ->)|[req Hask]].
    + split; [done|]. cbn. rewrite Hheld2, Hhs, Hh. lia.
    + apply ask_put_spec in Hask as (? & Hhits & Hle & _); [|done]. split; [done|].
      rewrite Hhits, Hhs, Hh. unfold ok_count. destruct r; lia.
Qed.

(** A sequence of calls, errors not stopping the caller. *)
Fixpoint approvals (desc : PermissionDescriptor) (cs : list call) w : nat * World (H := H) (L := L) :=
  match cs with
  | [] => (0, w)
  | c :: cs' =>
      let (r, w1) := approve desc c w in
      let (n, w2) := approvals desc cs' w1 in
      (ok_count r + n, w2)
  end.

(** consent is accounted for. When every answer of the approval provider is a
    one-time grant, any sequence of [RequireApproval] calls for one permission
    succeeds at most twice per answer asked for, plus once if a grant was already
    held: a success never comes without a human's answer behind it. *)
Theorem one_time_accounting desc cs w n w' :
  one_time_grants (pm w) → approvals desc cs w = (n, w') →
  n ≤ held (grant_key desc) (pm w) + 2 * (hits (hitl_st w') - hits (hitl_st w)).
Proof.
  cut (one_time_grants (pm w) → approvals desc cs w = (n, w') →
    hits (hitl_st w) ≤ hits (hitl_st w') ∧
    held (grant_key desc) (pm w') + n + 2 * hits (hitl_st w) ≤
    held (grant_key desc) (pm w) + 2 * hits (hitl_st w')).
  { intros Hc Ho Hr. destruct (Hc Ho Hr). lia. }
  revert w n w'. induction cs as [|c cs IH]; intros w n w' Ho Hr; cbn in Hr; [simplify_eq; lia|].
  destruct (approve desc c w) as [r w1] eqn:Ha. destruct (approvals desc cs w1) as [k w2] eqn:Hb.
  simplify_eq. apply approve_step in Ha as (Ho1 & Ha & Hm); [|done].
  destruct (IH _ _ _ Ho1 Hb). lia.
Qed.
End one_time.

(** ** Releasing a session *)
Definition issued_under (sessionID : string) (g : PermissionGrant) : Prop :=
  g_SessionID g ≠ EmptyString ∧ g_SessionID g = sessionID.
#[local] Instance issued_under_dec s g : Decision (issued_under s g).
Proof. unfold issued_under. apply _. Defined.

Definition session_grants (s : string) (c : Cache.t string PermissionGrant) :=
  filter (λ kv, issued_under s (Cache.value kv.2)) (Cache.entries c).

Lemma session_keys_spec now s (c : Cache.t string PermissionGrant) :
  Cache.ttl c = 0%Z → session_keys now s c ≡ₚ (map_to_list (session_grants s c)).*1.
Proof.
  intros Ht. unfold session_keys, session_grants.
  rewrite (Cache.range_collect now (λ _ g, negb (bool_decide (g_SessionID g = EmptyString)) &&
    bool_decide (g_SessionID g = s))) by done. cbn [app].
  rewrite map_filter_alt, map_to_list_to_map.
  - apply fmap_Permutation. erewrite list_filter_iff; [done|]. intros [k e]. unfold issued_under. cbn.
    rewrite andb_true_iff, negb_true_iff, bool_decide_eq_false, bool_decide_eq_true. done.
  - apply NoDup_fmap_fst; [|apply NoDup_filter, NoDup_map_to_list].
    intros k e1 e2 [_ H1%elem_of_map_to_list]%list_elem_of_filter [_ H2%elem_of_map_to_list]%list_elem_of_filter.
    congruence.
Qed.

(** Releasing a session removes exactly its grants.  [ReleaseSession] returns
    the number of cached grants issued under the session, leaves every other
    grant (those of other sessions, and those with no session) bound as before,
    and touches nothing else of the manager, the provider, or the audit trail. *)
Theorem release_session_exact s w r w' :
  Cache.ttl (grants (pm w)) = 0%Z → ReleaseSession P s w = (r, w') →
  r = Ok (size (session_grants s (grants (pm w)))) ∧
  ∃ c, moved (with_grants c) w w' ∧
    Cache.entries c = Cache.entries (grants (pm w)) ∖ session_grants s (grants (pm w)).
Proof.
  intros Ht. unfold ReleaseSession, se_bind, se_get, on_pm, se_mod, read_clock, se_ret.
  cbn [pm set_pm]. intros [= <- <-].
  pose proof (session_keys_spec (grantClock P (tick w)) s _ Ht) as Hks. split.
  { f_equal. by rewrite (Permutation_length Hks), length_fmap, length_map_to_list. }
  eexists. split; [by split_and!|]. apply map_eq. intros k.
  destruct (Cache.deletes_entries (session_keys (grantClock P (tick w)) s (grants (pm w)))
    (grants (pm w))) as (_ & _ & ->).
  rewrite lookup_difference.
  assert (k ∈ session_keys (grantClock P (tick w)) s (grants (pm w)) ↔
    is_Some (session_grants s (grants (pm w)) !! k)) as Hin.
  { rewrite Hks, list_elem_of_fmap. split.
    - intros ([k' e] & -> & Hm%elem_of_map_to_list). eauto.
    - intros [e Hm]. exists (k, e). by rewrite elem_of_map_to_list. }
  case_decide as Hd; rewrite Hin in Hd.
  - by destruct Hd as [e ->].
  - rewrite (proj2 (eq_None_not_Some _) Hd). by destruct (Cache.entries _ !! k).
Qed.

(** ** The approval rate limit *)
Fixpoint limit_run (key : string) (n : nat) w : list (result unit) * World (H := H) (L := L) :=
  match n with
  | O => ([], w)
  | S n' =>
      let (r, w1) := checkHITLRateLimit P key w in
      let (rs, w2) := limit_run key n' w1 in (r :: rs, w2)
  end.

(** The bucket of [key] after [i] requests of a window. *)
Definition in_window (t0 t : Time) : Prop := (t0 <= t < t0 + hitlRateWindow)%Z.

Definition bucket_at (t0 : Time) (key : string) (i : Z) (m : PermissionManager) : Prop :=
  Cache.ttl (hitlRateLimits m) = hitlRateEntryTTL ∧
  ∃ b at_, Cache.entries (hitlRateLimits m) !! key = Some {| Cache.value := b; Cache.insertedAt := at_ |} ∧
    count b = i ∧ in_window t0 (windowAt b) ∧ in_window t0 at_.

Lemma window_sub t0 t u d : in_window t0 t → in_window t0 u → (hitlRateWindow <= d)%Z → (time_sub t u < d)%Z.
Proof.
  unfold in_window, time_sub, hitlRateWindow, minute, second, int64_min, int64_max. lia.
Qed.

Lemma limit_first t0 key w :
  (∀ i, tick w ≤ i → in_window t0 (grantClock P i)) →
  Cache.clean (hitlRateLimits (pm w)) → (0 < Cache.cap (hitlRateLimits (pm w)))%Z →
  Cache.ttl (hitlRateLimits (pm w)) = hitlRateEntryTTL →
  Cache.entries (hitlRateLimits (pm w)) !! key = None →
  ∃ w', checkHITLRateLimit P key w = (Ok (), w') ∧ bucket_at t0 key 1 (pm w') ∧ tick w ≤ tick w'.
Proof.
  intros Hclk Hcl Hcap Ht Hk.
  unfold checkHITLRateLimit, se_bind, se_get, on_pm, se_mod, read_clock, Cache.Get.
  cbn [pm set_pm tick]. rewrite Hk. cbn [fst snd]. eexists. split; [reflexivity|].
  cbn [pm set_pm with_rates hitlRateLimits tick].
  destruct (Cache.put_lookup (grantClock P (S (S (tick w)))) key
    {| count := 1; windowAt := grantClock P (tick w) |} _ Hcl Hcap) as [Hl Htt].
  split; [|lia]. split; [by etrans|]. eexists _, _. split; [exact Hl|]. cbn.
  split_and!; [done|apply Hclk; lia..].
Qed.

Lemma limit_next t0 key i w :
  (∀ i, tick w ≤ i → in_window t0 (grantClock P i)) → bucket_at t0 key i (pm w) →
  (0 <= i < int64_max)%Z →
  ∃ w', checkHITLRateLimit P key w =
      (if (hitlRateMax <? i + 1)%Z then Err (ErrMsg (rate_message key)) else Ok (), w') ∧
    bucket_at t0 key (i + 1) (pm w') ∧ tick w ≤ tick w'.
Proof.
  intros Hclk (Ht & b & at_ & He & Hi & Hb & Ha) Hir.
  unfold checkHITLRateLimit, se_bind, se_get, on_pm, se_mod, read_clock, Cache.Get, Cache.expiredLocked.
  cbn [pm set_pm tick]. rewrite He, Ht. cbn [Cache.insertedAt Cache.value].
  rewrite (proj2 (Z.ltb_lt (time_sub (grantClock P (S (tick w))) at_) hitlRateEntryTTL)).
  2:{ apply (window_sub t0); [apply Hclk; lia|done|by vm_compute]. }
  replace (if _ || _ then _ else _) with (false, hitlRateLimits (pm w)) by by destruct (_ || _).
  cbn [fst snd]. rewrite (proj2 (Z.leb_gt hitlRateWindow (time_sub (grantClock P (tick w)) (windowAt b)))).
  2:{ apply (window_sub t0); [apply Hclk; lia|done|lia]. }
  rewrite Hi, wrap64_id by (unfold in_int64, int64_min, int64_max in *; lia).
  assert (bucket_at t0 key (i + 1) (with_rates (bump_bucket key (hitlRateLimits (pm w))) (pm w))) as Hbk.
  { cbn. split; [done|]. cbn. eexists _, at_. rewrite lookup_alter_eq, He. cbn.
    split; [reflexivity|]. cbn. rewrite Hi, wrap64_id by (unfold in_int64, int64_min, int64_max in *; lia). done. }
  destruct (_ <? _)%Z; eexists; (split; [reflexivity|]); cbn; (split; [exact Hbk|lia]).
Qed.

Lemma map_seq_const {A} (g : nat → A) x i n :
  (∀ j, i ≤ j < i + n → g j = x) → map g (seq i n) = replicate n x.
Proof.
  revert i. induction n as [|n IH]; intros i Hg; cbn; [done|]. rewrite Hg by lia. f_equal.
  apply IH. intros j Hj. apply Hg. lia.
Qed.

Lemma limit_run_from t0 key n i w :
  (∀ i, tick w ≤ i → in_window t0 (grantClock P i)) → bucket_at t0 key (Z.of_nat i) (pm w) →
  (Z.of_nat (i + n) <= int64_max)%Z →
  (limit_run key n w).1 =
  map (λ j, if (10 <=? j) then Err (ErrMsg (rate_message key)) else Ok ()) (seq i n).
Proof.
  revert i w. induction n as [|n IH]; intros i w Hclk Hb Hn; cbn [limit_run seq map]; [done|].
  destruct (limit_next t0 key (Z.of_nat i) w) as (w' & Hr & Hb' & Htk); [done|done|lia|].
  rewrite Hr. specialize (IH (S i) w'). rewrite (surjective_pairing (limit_run key n w')). cbn [fst].
  rewrite IH; [|intros j Hj; apply Hclk; lia|by replace (Z.of_nat (S i)) with (Z.of_nat i + 1)%Z by lia|lia].
  f_equal. unfold hitlRateMax. destruct (Nat.leb_spec 10 i), (Z.ltb_spec 10 (Z.of_nat i + 1)); (done || lia).
Qed.

(** The approval rate limit is exact.  From a manager with no bucket for a key,
    while every clock reading stays inside one window, the first ten requests for
    the key pass and every later one fails with the rate-limit error. *)
Theorem rate_limit_exact t0 key n w :
  (∀ i, tick w ≤ i → in_window t0 (grantClock P i)) →
  Cache.clean (hitlRateLimits (pm w)) → (0 < Cache.cap (hitlRateLimits (pm w)))%Z →
  Cache.ttl (hitlRateLimits (pm w)) = hitlRateEntryTTL →
  Cache.entries (hitlRateLimits (pm w)) !! key = None → (Z.of_nat n <= int64_max)%Z →
  (limit_run key n w).1 =
  replicate (n `min` 10) (Ok ()) ++ replicate (n - 10) (Err (ErrMsg (rate_message key))).
Proof.
  intros Hclk Hcl Hcap Ht Hk Hn.
  trans (map (λ j, if 10 <=? j then Err (ErrMsg (rate_message key)) else Ok ()) (seq 0 n)).
  - destruct n as [|n]; [done|]. cbn [limit_run seq map].
    destruct (limit_first t0 key w) as (w' & Hr & Hb & Htk); [done..|]. rewrite Hr.
    rewrite (surjective_pairing (limit_run key n w')). cbn [fst]. f_equal.
    apply (limit_run_from t0); [intros j Hj; apply Hclk; lia|done|lia].
  - replace n with (n `min` 10 + (n - 10)) at 1 by lia. rewrite seq_app, map_app.
    f_equal; apply map_seq_const; intros j Hj; destruct (Nat.leb_spec 10 j); (done || lia).
Qed.

End safety.
