(* ===== verification/PermissionsInv.v ===== *)
(** * PermissionsInv

    The permission manager as a transition system: [NewPermissionManager] builds a
    state that satisfies [manager_ok], and every exported operation of the manager
    keeps it, whatever the approval provider, the audit logger and the clock do. *)
From S2P Require Import Prelude GoStrings GoTime GoPath Policy Glob Bounded Permissions.
From S2P Require Import PermissionsSafety.
From stdpp Require Import pretty.

Create HintDb keeps.

Section inv.
Context {H L : Type} (P : Ports (H := H) (L := L)).
Abbreviation World := (World (H := H) (L := L)).
Implicit Types w : World.

(** A computation that preserves the invariant. *)
Definition keeps {A} (c : SE World A) : Prop :=
  ∀ w r w', manager_ok (pm w) → c w = (r, w') → manager_ok (pm w').

(** ** The combinators *)
Lemma keeps_ret {A} (a : A) : keeps (se_ret a).
Proof. intros w r w' Hok [= <- <-]. done. Qed.

Lemma keeps_err {A} e : keeps (se_err e : SE World A).
Proof. intros w r w' Hok [= <- <-]. done. Qed.

Lemma keeps_get {A} (f : World → A) : keeps (se_get f).
Proof. intros w r w' Hok [= <- <-]. done. Qed.

Lemma keeps_bind {A B} (c : SE World A) (k : A → SE World B) :
  keeps c → (∀ a, keeps (k a)) → keeps (se_bind c k).
Proof.
  intros Hc Hk w r w' Hok [(a & w1 & Ha & Hr)|(e & He & ->)]%se_bind_inv; [|by eapply Hc].
  eapply Hk; [|done]. by eapply Hc.
Qed.

Lemma keeps_try {A} (c : SE World A) : keeps c → keeps (se_try c).
Proof.
  intros Hc w r w' Hok. unfold se_try. destruct (c w) as [r0 w0] eqn:Hr. intros [= <- <-].
  by eapply Hc.
Qed.

Lemma keeps_if {A} (b : bool) (c d : SE World A) : keeps c → keeps d → keeps (if b then c else d).
Proof. by destruct b. Qed.

Lemma keeps_option {A B} (o : option A) (c : A → SE World B) d :
  (∀ a, keeps (c a)) → keeps d → keeps (match o with Some a => c a | None => d end).
Proof. by destruct o. Qed.

Lemma keeps_result {A B} (o : result A) (c : A → SE World B) d :
  (∀ a, keeps (c a)) → (∀ e, keeps (d e)) → keeps (match o with Ok a => c a | Err e => d e end).
Proof. by destruct o. Qed.

Lemma keeps_on_pm f : (∀ m, manager_ok m → manager_ok (f m)) → keeps (on_pm (H := H) (L := L) f).
Proof. intros Hf w r w' Hok [= <- <-]. by apply Hf. Qed.

Lemma keeps_clock : keeps (read_clock P).
Proof. intros w r w' Hok [= <- <-]. done. Qed.

Lemma keeps_log agentID desc res reason : keeps (log P agentID desc res reason).
Proof. intros w r w' Hok (-> & _)%log_spec. done. Qed.

Lemma keeps_emit agentID desc e reason rule :
  keeps (emitPolicyDecision (H := H) (L := L) agentID desc e reason rule).
Proof. intros w r w' Hok [= <- <-]. done. Qed.

Lemma keeps_ask f req : keeps (ask_hitl (L := L) f req).
Proof. intros w r w' Hok. unfold ask_hitl. destruct (f req (hitl_st w)). by intros [= <- <-]. Qed.
Hint Resolve keeps_ret keeps_err keeps_get keeps_bind keeps_try keeps_if keeps_option keeps_result
  keeps_clock keeps_log keeps_emit keeps_ask : keeps.

Lemma keeps_deny {A} agentID desc reason : keeps (deny P agentID desc reason : SE World A).
Proof. unfold deny. auto 6 with keeps. Qed.

(** ** The updates *)
Lemma ok_with_rates m c : manager_ok m → manager_ok (with_rates c m).
Proof. intros [H1 H2 H3 H4 H5 H6]. by split. Qed.
Lemma ok_with_net m l : manager_ok m → manager_ok (with_net l m).
Proof. intros [H1 H2 H3 H4 H5 H6]. by split. Qed.
Lemma ok_with_tasks m t : manager_ok m → manager_ok (with_tasks t m).
Proof. intros [H1 H2 H3 H4 H5 H6]. by split. Qed.

Lemma ok_set_default m level :
  level ≠ DecisionAllow → manager_ok m → manager_ok (with_default level m).
Proof.
  intros Hl [H1 H2 H3 H4 H5 H6]. split; try done. unfold effectiveDefaultDecision. cbn.
  by case_bool_decide.
Qed.

(** Resetting the lookup cache makes any change of the guard roots sound. *)
Lemma ok_set_roots m p e :
  manager_ok m → manager_ok (with_fs (Cache.Reset (fsPermCache m)) (with_roots p e m)).
Proof. intros [H1 H2 H3 H4 H5 H6]. split; try done. Qed.

Lemma ok_deletes m ks :
  manager_ok m → manager_ok (with_grants (foldl (λ c k, Cache.Delete k c) (grants m) ks) m).
Proof.
  intros Hok. apply ok_with_grants; [done|].
  destruct (Cache.deletes_entries ks (grants m)) as (_ & -> & _). apply Hok.
Qed.
Hint Resolve ok_with_rates ok_with_net ok_with_tasks ok_deletes ok_set_roots keeps_on_pm keeps_deny : keeps.

(** ** The operations *)
Lemma keeps_put_grant key g : keeps (putGrant P key g).
Proof.
  intros w r w' Hok Hr. apply put_grant_spec in Hr as (_ & c & (-> & _) & ? & _); [|apply Hok].
  by apply ok_with_grants.
Qed.

Lemma keeps_take_grant key : keeps (take_grant P key).
Proof.
  intros w r w' Hok Hr. apply take_grant_spec in Hr as (_ & c & now & (-> & _) & ? & _); [|apply Hok].
  by apply ok_with_grants.
Qed.

Lemma keeps_ensure agentID desc : keeps (ensureGrant P agentID desc).
Proof. intros w r w' Hok Hr. by apply ensure_grant_spec in Hr as [? _]. Qed.

Lemma keeps_undeclared agentID desc reason : keeps (undeclared P agentID desc reason).
Proof. intros w r w' Hok Hr. by apply undeclared_spec in Hr as [? _]. Qed.

Lemma keeps_find_fs action path : action ∈ fs_actions → keeps (findFilesystemPermission P action path).
Proof. intros Ha w r w' Hok Hr. by apply find_fs_spec in Hr as (_ & ? & _). Qed.

Lemma keeps_find_exec binary : keeps (findExecutablePermission P binary).
Proof. intros w r w' Hok Hr. by apply find_exec_spec in Hr as (? & _). Qed.
Hint Resolve keeps_put_grant keeps_take_grant keeps_ensure keeps_undeclared keeps_find_fs keeps_find_exec : keeps.

Lemma keeps_rate_limit key : keeps (checkHITLRateLimit P key).
Proof. unfold checkHITLRateLimit. auto 12 with keeps. Qed.
Hint Resolve keeps_rate_limit : keeps.

Lemma keeps_approval agentID desc j s k d : keeps (RequireApproval P agentID desc j s k d).
Proof. unfold RequireApproval. auto 20 with keeps. Qed.
Hint Resolve keeps_approval : keeps.

Lemma keeps_collect {A} (f : A → SE World (option string)) l :
  (∀ x, x ∈ l → keeps (f x)) → keeps (collect f l).
Proof.
  induction l as [|x l IH]; intros Hf; cbn; [auto with keeps|].
  apply keeps_bind; [apply Hf; set_solver|]. intros s. apply keeps_bind; [|auto with keeps].
  apply IH. set_solver.
Qed.

Definition fs_actions_known (req : PermissionSet) : Prop :=
  ∀ p, p ∈ FileSystem req → fs_Action p ∈ fs_actions.

Lemma keeps_collect_undeclared req : fs_actions_known req → keeps (collectUndeclared P req).
Proof.
  intros Hreq. unfold collectUndeclared.
  apply keeps_bind; [apply keeps_collect; intros x Hx; apply keeps_bind; auto with keeps|].
  intros fs. apply keeps_bind; [apply keeps_collect; intros x _; apply keeps_bind; auto with keeps|].
  intros ex. apply keeps_bind; [apply keeps_collect; intros x _; apply keeps_bind; auto with keeps|].
  auto with keeps.
Qed.

Lemma keeps_undeclared_tool agentID name missing : keeps (handleUndeclaredTool P agentID name missing).
Proof. unfold handleUndeclaredTool. auto 12 with keeps. Qed.
Hint Resolve keeps_undeclared_tool keeps_collect_undeclared : keeps.

(** ** The transition system *)
Inductive pm_step : World → World → Prop :=
| step_approve agentID desc j s k d w r w' : RequireApproval P agentID desc j s k d w = (r, w') → pm_step w w'
| step_grant desc by_ scope d w r w' : GrantPermission P desc by_ scope d w = (r, w') → pm_step w w'
| step_release s w r w' : ReleaseSession P s w = (r, w') → pm_step w w'
| step_default level w r w' : SetDefaultDecision level w = (r, w') → pm_step w w'
| step_register run tags w r w' : RegisterTaskGrant run tags w = (r, w') → pm_step w w'
| step_revoke run w r w' : RevokeTaskGrant run w = (r, w') → pm_step w w'
| step_roots p e w r w' : SetFilesystemGuardRoots P p e w = (r, w') → pm_step w w'
| step_file agentID a path w r w' :
    a ∈ fs_actions → CheckFileAccess P agentID a path w = (r, w') → pm_step w w'
| step_static a path w r w' :
    a ∈ fs_actions → StaticallyAllowsFileAccess P a path w = (r, w') → pm_step w w'
| step_matrix agentID base a path m w r w' :
    CheckFilePermission P agentID base a path m w = (r, w') → pm_step w w'
| step_exec agentID b args env w r w' : CheckExecutable P agentID b args env w = (r, w') → pm_step w w'
| step_net agentID d p t port w r w' : CheckNetwork P agentID d p t port w = (r, w') → pm_step w w'
| step_cap agentID c w r w' : CheckCapability P agentID c w = (r, w') → pm_step w w'
| step_ipc agentID k t w r w' : CheckIPC P agentID k t w = (r, w') → pm_step w w'
| step_tool agentID t w r w' :
    (∀ tool req, t = Some tool → t_Permissions tool = Some req → fs_actions_known req) →
    AuthorizeTool P agentID t w = (r, w') → pm_step w w'
| step_tool_name agentID n w r w' : AuthorizeToolByName P agentID n w = (r, w') → pm_step w w'.

Lemma keeps_default level : keeps (SetDefaultDecision (H := H) (L := L) level).
Proof.
  unfold SetDefaultDecision. apply keeps_result; [|auto with keeps]. intros _.
  case_bool_decide; [auto with keeps|]. apply keeps_on_pm. intros m. by apply ok_set_default.
Qed.

Lemma keeps_tool agentID t :
  (∀ tool req, t = Some tool → t_Permissions tool = Some req → fs_actions_known req) →
  keeps (AuthorizeTool P agentID t).
Proof.
  intros Hreq. unfold AuthorizeTool. destruct t as [t|]; [|auto with keeps].
  destruct (t_Permissions t) as [req|] eqn:Hp; [|auto 6 with keeps].
  assert (keeps (collectUndeclared P req)) by eauto with keeps. auto 12 with keeps.
Qed.

Lemma keeps_file agentID a path : a ∈ fs_actions → keeps (CheckFileAccess P agentID a path).
Proof. unfold CheckFileAccess. auto 12 with keeps. Qed.

Lemma keeps_matrix agentID base a path m : keeps (CheckFilePermission P agentID base a path m).
Proof. unfold CheckFilePermission. auto 12 with keeps. Qed.

Lemma pm_step_ok w w' : manager_ok (pm w) → pm_step w w' → manager_ok (pm w').
Proof.
  intros Hok Hs. destruct Hs as [? ? ? ? ? ? w r w' Hr|? ? ? ? w r w' Hr|? w r w' Hr|? w r w' Hr
    |run tags w r w' Hr|? w r w' Hr|? ? w r w' Hr|? ? ? w r w' Ha Hr|? ? w r w' Ha Hr|? ? ? ? ? w r w' Hr
    |? ? ? ? w r w' Hr|? ? ? ? ? w r w' Hr|? ? w r w' Hr|? ? ? w r w' Hr|? ? w r w' Ht Hr|? ? w r w' Hr];
    revert Hok Hr; [apply keeps_approval| | |apply keeps_default| | | |by apply keeps_file| |
      apply keeps_matrix| | | | |by apply keeps_tool|]; match goal with |- _ → ?c _ = _ → _ => enough (keeps c); [eauto|] end.
  - unfold GrantPermission. auto 12 with keeps.
  - unfold ReleaseSession. auto 12 with keeps.
  - unfold RegisterTaskGrant. auto 12 with keeps.
  - unfold RevokeTaskGrant. auto with keeps.
  - unfold SetFilesystemGuardRoots. auto with keeps.
  - unfold StaticallyAllowsFileAccess. auto 12 with keeps.
  - unfold CheckExecutable. auto 12 with keeps.
  - unfold CheckNetwork, recordNetworkRule. auto 12 with keeps.
  - unfold CheckCapability. auto 12 with keeps.
  - unfold CheckIPC. auto 12 with keeps.
  - unfold AuthorizeToolByName. auto 12 with keeps.
Qed.

Lemma new_manager_ok base perms m : NewPermissionManager base perms = Ok m → manager_ok m.
Proof.
  unfold NewPermissionManager. destruct perms as [perms|]; [|done].
  destruct (ValidatePermissionSet perms); [done|]. intros [= <-]. split; try done.
Qed.

(** C32: The permission manager's invariant is inductive.  From a manager built by
    [NewPermissionManager], any sequence of operations, whatever the approval
    provider, audit logger and clock answer, ends in a state whose lookup caches
    agree with the declared permissions and whose default is never allow. *)
Theorem manager_invariant base perms m w w' :
  NewPermissionManager base perms = Ok m → pm w = m → rtc pm_step w w' → manager_ok (pm w').
Proof.
  intros Hn%new_manager_ok Hw Hr. assert (manager_ok (pm w)) as Hok by by rewrite Hw.
  clear Hn Hw. induction Hr; eauto using pm_step_ok.
Qed.
End inv.
