(* ===== verification/PermissionsExamples.v ===== *)
(** * PermissionsExamples

    The theorems of the permission manager at a concrete manager: a workspace
    [/ws], an approval provider that answers every request with a one-time grant
    and counts the requests, and an audit logger that keeps the records. *)
From S2P Require Import Prelude GoStrings GoTime GoPath Policy Glob Bounded Permissions.
From S2P Require Import PermissionsSafety PermissionsInv.
From stdpp Require Import pretty.

Definition declared_ws : PermissionSet :=
  {| FileSystem := [{| fs_Action := FileSystemRead; fs_Path := "${workspace}/**"; fs_HITLRequired := false |}];
     Executables := [{| ex_Binary := "git"; ex_Args := []; ex_Env := []; ex_HITLRequired := false |}];
     Network := [{| np_Direction := "egress"; np_Protocol := "tcp"; np_Host := "example.com";
                    np_Port := 443; np_HITLRequired := true |}];
     Capabilities := []; IPC := [] |}.

Definition counting_provider (req : PermissionRequest) (h : nat) : result PermissionGrant * nat :=
  (Ok {| g_ID := "g"; g_Permission := pr_Permission req; g_Scope := GrantScopeOneTime;
         g_ExpiresAt := zero_time; g_ApprovedBy := "operator"; g_GrantedAt := 1; g_SessionID := EmptyString |},
   S h).

Definition keeping_logger (r : AuditRecord) (l : list AuditRecord) : option gerror * list AuditRecord :=
  (None, l ++ [r]).

Definition ports_ws : Ports (H := nat) (L := list AuditRecord) :=
  {| hitl := Some counting_provider; audit := Some keeping_logger; grantClock := λ n, Z.of_nat n;
     eval_symlinks := λ p, Some p; principal := "session-1"; getwd := "/ws" |}.

Definition manager_ws : PermissionManager :=
  match NewPermissionManager "/ws" (Some declared_ws) with
  | Ok m => m
  | Err _ => {| basePath := EmptyString; declared := declared_ws; grants := Cache.NewCache 0 0 false;
                netPolicy := []; defaultDecision := EmptyString; taskGrants := ∅;
                hitlRateLimits := Cache.NewCache 0 0 false; fsPermCache := Cache.NewCache 0 0 false;
                execPermCache := Cache.NewCache 0 0 false; fsProtectedRoots := []; fsExcludedRoots := [] |}
  end.

Lemma manager_ws_new : NewPermissionManager "/ws" (Some declared_ws) = Ok manager_ws.
Proof. vm_compute. reflexivity. Qed.

Definition world0 : World (H := nat) (L := list AuditRecord) := {| pm := manager_ws; hitl_st := 0; audit_st := []; emitted := []; tick := 1 |}.

Lemma world0_ok : manager_ok (pm world0).
Proof. exact (new_manager_ok _ _ _ manager_ws_new). Qed.

(** The result of a call, computed. *)
Lemma call_result {A B} (p : A * B) a : p.1 = a → p = (a, p.2).
Proof. intros <-. apply surjective_pairing. Qed.

Ltac run_ok := apply call_result; vm_compute; reflexivity.

Lemma manager_invariant_witness : ∃ w', rtc (pm_step ports_ws) world0 w' ∧ manager_ok (pm w').
Proof.
  exists (SetDefaultDecision DecisionDeny world0).2.
  assert (rtc (pm_step ports_ws) world0 (SetDefaultDecision DecisionDeny world0).2) as Hr.
  { eapply rtc_l; [|apply rtc_refl]. eapply step_default. apply surjective_pairing. }
  split; [exact Hr|]. exact (manager_invariant ports_ws _ _ _ world0 _ manager_ws_new eq_refl Hr).
Defined.

Lemma file_access_authorized_witness :
  (CheckFileAccess ports_ws "agent" FileSystemRead "a.go" world0).1 = Ok () ∧
  ∃ clean, normalizePath ports_ws manager_ws "a.go" = Ok clean.
Proof.
  assert (CheckFileAccess ports_ws "agent" FileSystemRead "a.go" world0 =
    (Ok (), (CheckFileAccess ports_ws "agent" FileSystemRead "a.go" world0).2)) as Hr by run_ok.
  split; [vm_compute; reflexivity|].
  destruct (file_access_authorized ports_ws "agent" FileSystemRead "a.go" world0 _ world0_ok
    ltac:(apply (bool_decide_unpack _); vm_compute; exact I) ltac:(done) Hr) as (clean & Hn & _).
  exists clean. exact Hn.
Defined.

Definition target_ws : Target := {| Token := "example.com"; Class_ := ClassPublic; Literal := false |}.

Lemma network_access_authorized_witness :
  (CheckNetwork ports_ws "agent" "egress" "tcp" target_ws 443 world0).1 = Ok () ∧
  Class_ target_ws = ClassPublic.
Proof.
  assert (CheckNetwork ports_ws "agent" "egress" "tcp" target_ws 443 world0 =
    (Ok (), (CheckNetwork ports_ws "agent" "egress" "tcp" target_ws 443 world0).2)) as Hr by run_ok.
  split; [vm_compute; reflexivity|].
  exact (proj1 (network_access_authorized ports_ws "agent" "egress" "tcp" target_ws 443 world0 _ world0_ok Hr)).
Defined.

Lemma exec_access_authorized_witness :
  (CheckExecutable ports_ws "agent" "git" ["status"] [] world0).1 = Ok () ∧
  manager_ok (pm (CheckExecutable ports_ws "agent" "git" ["status"] [] world0).2).
Proof.
  assert (CheckExecutable ports_ws "agent" "git" ["status"] [] world0 =
    (Ok (), (CheckExecutable ports_ws "agent" "git" ["status"] [] world0).2)) as Hr by run_ok.
  split; [vm_compute; reflexivity|].
  exact (proj1 (exec_access_authorized ports_ws "agent" "git" ["status"] [] world0 _ world0_ok Hr)).
Defined.

(** Two calls succeed on a single answer. *)
Definition deploy : PermissionDescriptor :=
  {| pd_Type := "hitl"; pd_Action := "tool:deploy"; pd_Resource := "agent"; pd_RequiresHITL := true |}.
Definition deploy_call : call := ("agent", "deploy", GrantScopeOneTime, RiskLevelMedium, 0%Z).

Lemma one_time_accounting_witness :
  (approvals ports_ws deploy [deploy_call; deploy_call] world0).1 = 2 ∧
  hitl_st (approvals ports_ws deploy [deploy_call; deploy_call] world0).2 = 1 ∧
  2 ≤ held (grant_key deploy) (pm world0) +
      2 * (hitl_st (approvals ports_ws deploy [deploy_call; deploy_call] world0).2 - hitl_st world0).
Proof.
  split; [vm_compute; reflexivity|]. split; [vm_compute; reflexivity|].
  apply (one_time_accounting ports_ws counting_provider (λ n, n) eq_refl ltac:(reflexivity)
    ltac:(intros req h g Hg; cbn in Hg; simplify_eq; reflexivity)
    deploy [deploy_call; deploy_call] world0 2).
  - split; [reflexivity|]. intros k e He.
    assert (Cache.entries (grants (pm world0)) = ∅) as Hempty by (vm_compute; reflexivity).
    by rewrite Hempty, lookup_empty in He.
  - run_ok.
Defined.

Definition world_granted : World (H := nat) (L := list AuditRecord) :=
  (RequireApproval ports_ws "agent" deploy "deploy" EmptyString EmptyString 0 world0).2.

Lemma release_session_exact_witness :
  (ReleaseSession ports_ws "session-1" world_granted).1 = Ok 1 ∧
  Ok 1 = Ok (size (session_grants "session-1" (grants (pm world_granted)))).
Proof.
  assert (ReleaseSession ports_ws "session-1" world_granted =
    (Ok 1, (ReleaseSession ports_ws "session-1" world_granted).2)) as Hr by run_ok.
  split; [vm_compute; reflexivity|].
  exact (proj1 (release_session_exact ports_ws "session-1" world_granted _ _ ltac:(vm_compute; reflexivity) Hr)).
Defined.

(** A clock that stands still. *)
Definition ports_still : Ports (H := nat) (L := list AuditRecord) :=
  {| hitl := Some counting_provider; audit := Some keeping_logger; grantClock := λ _, 5%Z;
     eval_symlinks := λ p, Some p; principal := "session-1"; getwd := "/ws" |}.

Lemma rate_limit_exact_witness :
  (limit_run ports_still "k" 12 world0).1 =
  replicate 10 (Ok ()) ++ replicate 2 (Err (ErrMsg (rate_message "k"))).
Proof.
  apply (rate_limit_exact ports_still 0 "k" 12 world0).
  - intros i _. unfold in_window. vm_compute. split; [discriminate|reflexivity].
  - apply CacheExamples.clean_new.
  - vm_compute. reflexivity.
  - reflexivity.
  - reflexivity.
  - vm_compute. discriminate.
Defined.

(** ** The executable cache and white space *)
Definition world_deny : World (H := nat) (L := list AuditRecord) := (SetDefaultDecision DecisionDeny world0).2.

Definition exec_result (before : list string) (binary : string) : result unit :=
  let w := foldl (λ w b, (CheckExecutable ports_ws "agent" b [] [] w).2) world_deny before in
  (CheckExecutable ports_ws "agent" binary [] [] w).1.

(** The executable cache is keyed by the trimmed name but filled by an exact
    match, so under a deny default the verdict on a binary depends on what was
    checked before: the declared [git] is refused after a check of [git] with a
    trailing space, and that undeclared spelling is granted after a check of
    [git]. *)
Theorem exec_cache_order_dependent :
  exec_result [] "git" = Ok () ∧ (∃ e, exec_result ["git "] "git" = Err e) ∧
  (∃ e, exec_result [] "git " = Err e) ∧ exec_result ["git"] "git " = Ok ().
Proof. split_and!; [|eexists|eexists|]; vm_compute; reflexivity. Qed.
