(* ===== verification/PolicyEngine.v ===== *)
(** * PolicyEngine

    The policy engine of [governance/authorization] (policy_engine.go) over the
    compiled rules of [PolicyMatch], and the enforcement entry points
    (policy_enforcement.go) that turn its decision into permission, an approval or
    an error.  An engine is any function from a request to a decision and an
    error ([Engine], the source's interface); [Evaluate] is its instance. *)
From S2P Require Import Prelude GoStrings GoTime GoPath Policy PolicyMatch Glob Bounded.
From S2P Require Import Permissions PermissionsSafety.

Definition policyEngineUnavailable : string := "policy engine unavailable".

Section engine.
Context {H L : Type} (P : Ports (H := H) (L := L)).
Abbreviation World := (World (H := H) (L := L)).
Implicit Types w : World.

(** ** The interface *)

(** Go's pair of a decision and an error, both always present. *)
Definition Verdict : Type := PolicyDecision * option gerror.

Class Engine (E : Type) := engine_Evaluate : LocalTime → E → PolicyRequest → World → Verdict * World.

(** ** The manifest engine *)

(** [e_manager]: whether the engine has a permission manager (the one of the
    world). *)
Record ManifestPolicyEngine := { e_agentID : string; e_manager : bool; e_rules : list PolicyRule }.

Definition permissionActionForRequest (req : PolicyRequest) : string :=
  if negb (bool_decide (req_CapabilityName req = EmptyString)) then req_CapabilityName req
  else if negb (bool_decide (req_CapabilityID req = EmptyString)) then req_CapabilityID req
  else if bool_decide (req_Target req = PolicyTargetResume) && negb (bool_decide (req_ExportName req = EmptyString))
  then "resume:" +:+ req_ExportName req
  else if bool_decide (req_Target req = PolicyTargetSession) then "session:" +:+ req_SessionOperation req
  else if bool_decide (req_Target req = PolicyTargetProvider) then "provider"
  else "capability".

Definition permissionResourceForRequest (req : PolicyRequest) : string :=
  if negb (bool_decide (req_LineageID req = EmptyString)) then req_LineageID req
  else if negb (bool_decide (req_CapabilityID req = EmptyString)) then req_CapabilityID req
  else if negb (bool_decide (req_SessionID req = EmptyString)) then req_SessionID req
  else if negb (bool_decide (actor_ID (req_Actor req) = EmptyString)) then actor_ID (req_Actor req)
  else EmptyString.

Definition emitDecision (e : ManifestPolicyEngine) (req : PolicyRequest) (d : PolicyDecision) w : World :=
  if e_manager e then
    (emitPolicyDecision (e_agentID e)
       {| pd_Type := "capability"; pd_Action := permissionActionForRequest req;
          pd_Resource := permissionResourceForRequest req; pd_RequiresHITL := false |}
       (dec_Effect d) (dec_Reason d) (from_option rule_ID EmptyString (dec_Rule d)) w).2
  else w.

Definition emitPolicyConflict (agentID : string) (c : shadowedRule) w : World :=
  (emit (PolicyConflictShadowed (rule_ID (Winner c)) (rule_ID (Shadowed c))
           (Action (rule_Effect (Shadowed c))) agentID) w).2.

Definition emitShadowedConflicts (e : ManifestPolicyEngine) (cs : list shadowedRule) w : World :=
  if e_manager e then foldl (λ w c, emitPolicyConflict (e_agentID e) c w) w cs else w.

Definition capabilityFallbackDecision (e : ManifestPolicyEngine) (m : PermissionManager)
    (req : PolicyRequest) : PolicyDecision :=
  if bool_decide (req_TrustClass req ∈ ["builtin-trusted"; "workspace-trusted"])
  then PolicyDecisionAllow "workspace trusted"
  else if bool_decide (effectiveDefaultDecision m = DecisionAllow)
  then PolicyDecisionAllow "default policy: allow"
  else if bool_decide (effectiveDefaultDecision m = DecisionDeny)
  then PolicyDecisionDeny (sprintf "capability %q denied by default policy for agent %s"
                             [req_CapabilityName req; e_agentID e])
  else PolicyDecisionRequireApproval None.

Definition sessionFallbackDecision e m (req : PolicyRequest) : PolicyDecision :=
  if req_RestrictedExternal req then PolicyDecisionRequireApproval None
  else if negb (req_IsOwner req) && negb (req_IsDelegated req)
  then PolicyDecisionDeny "session access requires ownership or explicit delegation"
  else capabilityFallbackDecision e m req.

Definition resumeFallbackDecision e m (req : PolicyRequest) : PolicyDecision :=
  if negb (req_IsOwner req) && negb (req_IsDelegated req)
  then PolicyDecisionDeny "resume requires ownership or explicit delegation"
  else if req_RestrictedExternal req then PolicyDecisionRequireApproval None
  else capabilityFallbackDecision e m req.

Definition providerFallbackDecision (req : PolicyRequest) : PolicyDecision :=
  if bool_decide (req_ProviderKind req ∈ ["builtin"; "agent-runtime"])
  then PolicyDecisionAllow "provider kind trusted by default"
  else if bool_decide (req_ProviderOrigin req = "remote") then PolicyDecisionRequireApproval None
  else PolicyDecisionAllow "provider allowed by default".

Definition fallbackDecision e m (req : PolicyRequest) : PolicyDecision :=
  if bool_decide (req_Target req = PolicyTargetProvider) then providerFallbackDecision req
  else if bool_decide (req_Target req = PolicyTargetSession) then sessionFallbackDecision e m req
  else if bool_decide (req_Target req = PolicyTargetResume) then resumeFallbackDecision e m req
  else capabilityFallbackDecision e m req.

Definition unavailable : Verdict :=
  (PolicyDecisionDeny policyEngineUnavailable, Some (ErrMsg policyEngineUnavailable)).

(** The receiver may be nil. *)
Definition Evaluate (now : LocalTime) (e : option ManifestPolicyEngine) (req : PolicyRequest) w
    : Verdict * World :=
  match e with
  | None => (unavailable, w)
  | Some e =>
      match evaluateCompiledRules now (e_rules e) req with
      | (Some d, shadowed) => ((d, None), emitShadowedConflicts e shadowed (emitDecision e req d w))
      | (None, _) =>
          if e_manager e then
            let d := fallbackDecision e (pm w) req in ((d, None), emitDecision e req d w)
          else (unavailable, w)
      end
  end.

#[global] Instance manifest_engine : Engine (option ManifestPolicyEngine) := Evaluate.

(** ** Enforcement *)
Record ApprovalRequest := {
  ap_AgentID : string;
  ap_Manager : bool;
  ap_Permission : PermissionDescriptor;
  ap_Justification : string;
  ap_Scope : string;
  ap_Risk : string;
  ap_Duration : Duration;
  ap_MissingManagerErr : string;
  ap_DenyReasonFallback : string
}.

Definition EvaluatePolicyRequest `{Engine E} (now : LocalTime) (e : option E) (req : PolicyRequest) w
    : Verdict * World :=
  match e with
  | None => (unavailable, w)
  | Some e => engine_Evaluate now e req w
  end.

Definition nonempty_or (s d : string) : string := if bool_decide (s = EmptyString) then d else s.

Definition EnforcePolicyRequest `{Engine E} (now : LocalTime) (e : option E) (req : PolicyRequest)
    (a : ApprovalRequest) w : Verdict * World :=
  match EvaluatePolicyRequest now e req w with
  | ((d, Some err), w1) => ((d, Some err), w1)
  | ((d, None), w1) =>
      if bool_decide (dec_Effect d = "allow") then ((d, None), w1)
      else if bool_decide (dec_Effect d = EmptyString) then
        (({| dec_Effect := "deny"; dec_Rule := dec_Rule d; dec_Reason := "empty policy effect" |},
          Some (ErrMsg "empty policy effect")), w1)
      else if bool_decide (dec_Effect d = "deny") then
        ((d, Some (ErrMsg (nonempty_or (nonempty_or (dec_Reason d) (ap_DenyReasonFallback a)) "denied by policy"))), w1)
      else if bool_decide (dec_Effect d = "require_approval") then
        if ap_Manager a then
          match RequireApproval P (ap_AgentID a) (ap_Permission a) (ap_Justification a) (ap_Scope a)
                  (ap_Risk a) (ap_Duration a) w1 with
          | (Ok _, w2) => ((d, None), w2)
          | (Err err, w2) => ((d, Some err), w2)
          end
        else
          ((d, Some (ErrMsg (nonempty_or (ap_MissingManagerErr a)
                               "approval required but permission manager unavailable"))), w1)
      else ((d, Some (ErrFmt "unsupported policy effect %q" [dec_Effect d])), w1)
  end.

(** ** What enforcement guarantees *)

(** [RequireApproval] succeeds only on a grant held for the key or on the
    provider's consent. *)
Lemma approval_consent agentID desc j s k d w w' :
  Cache.ttl (grants (pm w)) = 0%Z →
  RequireApproval P agentID desc j s k d w = (Ok (), w') → consent P (grant_key desc) w.
Proof.
  intros Ht. unfold RequireApproval. change (grant_key (requires_hitl desc)) with (grant_key desc).
  intros (g & w1 & Htake & Hrun)%se_bind_ok.
  apply take_grant_spec in Htake as (Hg & c & now & (Hp & Hh & _) & _); [|done].
  apply se_bind_ok in Hrun as (now' & w2 & Hr & Hrun). unfold read_clock in Hr. simplify_eq.
  assert (∀ req, pr_Permission req = requires_hitl desc → ∀ f, hitl P = Some f → ∀ w2 w3,
    hitl_st w2 = hitl_st w1 → (let* g := ask_hitl f req in putGrant P (grant_key desc) (with_session (principal P) g)) w2
      = (Ok (), w3) → consent P (grant_key desc) w) as Hask.
  { intros req Hreq f Hf w2 w3 Hh2 (g & w4 & Ha & _)%se_bind_ok. right. exists f, req, g.
    unfold ask_hitl in Ha. rewrite Hh2, Hh in Ha. split_and!; [done|by rewrite Hreq|].
    destruct (f req (hitl_st w)). by simplify_eq. }
  destruct (Cache.entries (grants (pm w)) !! grant_key desc) as [e|] eqn:He; [left; by rewrite He|].
  cbn in Hrun. apply limited_spec in Hrun as (w2 & _ & Hh2 & [(e & ? & _)|Hrun]); [done|].
  destruct (hitl P) as [f|] eqn:Hf; [|by apply deny_err in Hrun as [? _]].
  by eapply Hask in Hrun.
Qed.

(** What [EnforcePolicyRequest] with no error stands for. *)
Lemma enforce_ok `{Engine E} now (e : option E) req a w d w' :
  EnforcePolicyRequest now e req a w = ((d, None), w') →
  ∃ eng w1, e = Some eng ∧ engine_Evaluate now eng req w = ((d, None), w1) ∧
    ((dec_Effect d = "allow" ∧ w' = w1) ∨
     (dec_Effect d = "require_approval" ∧ ap_Manager a = true ∧
      RequireApproval P (ap_AgentID a) (ap_Permission a) (ap_Justification a) (ap_Scope a)
        (ap_Risk a) (ap_Duration a) w1 = (Ok (), w'))).
Proof.
  unfold EnforcePolicyRequest, EvaluatePolicyRequest. destruct e as [eng|]; [|done].
  destruct (engine_Evaluate now eng req w) as [[d0 [err|]] w1] eqn:He; [done|].
  case_bool_decide; [intros [= <- <-]; eauto 10|].
  case_bool_decide; [done|]. case_bool_decide; [done|]. case_bool_decide; [|done].
  destruct (ap_Manager a) eqn:Hm; [|done].
  destruct (RequireApproval _ _ _ _ _ _ _ _) as [[[]|err] w2] eqn:Hr; [|done]. intros [= <- <-]. eauto 12.
Qed.

(** Enforcement is fail-closed for every engine.  [EnforcePolicyRequest] returns
    no error only when the engine answered without error and either its effect is
    exactly allow, or it is require_approval, a permission manager is present and
    its [RequireApproval] succeeded in the state the engine left; and then a grant
    for the permission was held there or the approval provider consented. *)
Theorem enforce_fail_closed `{Engine E} now (e : option E) req a w d w' :
  (∀ eng, e = Some eng → Cache.ttl (grants (pm (engine_Evaluate now eng req w).2)) = 0%Z) →
  EnforcePolicyRequest now e req a w = ((d, None), w') →
  ∃ eng w1, e = Some eng ∧ engine_Evaluate now eng req w = ((d, None), w1) ∧
    ((dec_Effect d = "allow" ∧ w' = w1) ∨
     (dec_Effect d = "require_approval" ∧ ap_Manager a = true ∧
      consent P (grant_key (ap_Permission a)) w1)).
Proof.
  intros Ht (eng & w1 & -> & He & Hk)%enforce_ok. exists eng, w1. split_and!; [done..|].
  destruct Hk as [?|(? & ? & Hr)]; [by left|right]. split_and!; [done..|].
  eapply approval_consent; [|done]. specialize (Ht eng eq_refl). by rewrite He in Ht.
Qed.

(** ** What the manifest engine decides *)
Lemma emit_decision_frame e req d w :
  pm (emitDecision e req d w) = pm w ∧ hitl_st (emitDecision e req d w) = hitl_st w.
Proof. unfold emitDecision. by destruct (e_manager e). Qed.

Lemma emit_conflicts_frame e cs w :
  pm (emitShadowedConflicts e cs w) = pm w ∧ hitl_st (emitShadowedConflicts e cs w) = hitl_st w.
Proof.
  unfold emitShadowedConflicts. destruct (e_manager e); [|done]. revert w.
  induction cs as [|c cs IH]; intros w; cbn; [done|]. by destruct (IH (emitPolicyConflict (e_agentID e) c w)).
Qed.

Lemma evaluate_frame now e req w :
  pm (Evaluate now e req w).2 = pm w ∧ hitl_st (Evaluate now e req w).2 = hitl_st w.
Proof.
  unfold Evaluate. destruct e as [e|]; [|done].
  destruct (evaluateCompiledRules _ _ _) as [[d|] cs]; cbn [snd].
  - destruct (emit_conflicts_frame e cs (emitDecision e req d w)) as [-> ->]. apply emit_decision_frame.
  - destruct (e_manager e); [apply emit_decision_frame|done].
Qed.

(** What may be allowed with no rule behind it. *)
Definition trusted_by_default (req : PolicyRequest) : Prop :=
  (req_Target req = PolicyTargetProvider ∧
     (req_ProviderKind req ∈ ["builtin"; "agent-runtime"] ∨ req_ProviderOrigin req ≠ "remote")) ∨
  (req_Target req ≠ PolicyTargetProvider ∧
     req_TrustClass req ∈ ["builtin-trusted"; "workspace-trusted"] ∧
     (req_Target req ∈ [PolicyTargetSession; PolicyTargetResume] →
        req_RestrictedExternal req = false ∧ (req_IsOwner req = true ∨ req_IsDelegated req = true))).

Lemma capability_fallback e m req :
  effectiveDefaultDecision m ≠ DecisionAllow →
  dec_Effect (capabilityFallbackDecision e m req) = "allow" ↔
  req_TrustClass req ∈ ["builtin-trusted"; "workspace-trusted"].
Proof.
  intros Hd. unfold capabilityFallbackDecision. case_bool_decide as Ht; [done|].
  rewrite bool_decide_false by done. by case_bool_decide.
Qed.

Lemma owner_test req :
  negb (req_IsOwner req) && negb (req_IsDelegated req) = false ↔
  req_IsOwner req = true ∨ req_IsDelegated req = true.
Proof. destruct (req_IsOwner req), (req_IsDelegated req); naive_solver. Qed.

Lemma fallback_allow e m req :
  effectiveDefaultDecision m ≠ DecisionAllow →
  dec_Effect (fallbackDecision e m req) = "allow" ↔ trusted_by_default req.
Proof.
  intros Hd. unfold fallbackDecision, trusted_by_default.
  case_bool_decide as Hp; [|case_bool_decide as Hs; [|case_bool_decide as Hr]].
  - unfold providerFallbackDecision. repeat case_bool_decide; naive_solver.
  - unfold sessionFallbackDecision. rewrite Hs.
    destruct (req_RestrictedExternal req); [set_solver|].
    destruct (_ && _) eqn:Ho; [|rewrite capability_fallback by done; apply owner_test in Ho; set_solver].
    apply not_false_iff_true in Ho. rewrite owner_test in Ho. set_solver.
  - unfold resumeFallbackDecision. rewrite Hr.
    destruct (_ && _) eqn:Ho.
    { apply not_false_iff_true in Ho. rewrite owner_test in Ho. set_solver. }
    destruct (req_RestrictedExternal req); [set_solver|].
    rewrite capability_fallback by done. apply owner_test in Ho. set_solver.
  - rewrite capability_fallback by done. set_solver.
Qed.

(** The engine's decision, on either path. *)
Lemma evaluate_decision now e req w d w1 :
  effectiveDefaultDecision (pm w) ≠ DecisionAllow →
  Evaluate now (Some e) req w = ((d, None), w1) → dec_Effect d ≠ "deny" →
  (∀ r, r ∈ e_rules e → candidate now req r →
     rule_effect r ∈ [effectAllow; effectLogOnly; effectRateLimit; effectRequireApproval]) ∧
  (dec_Effect d = "allow" →
     ((∃ r, r ∈ e_rules e ∧ candidate now req r) ∧
      ∀ r, r ∈ e_rules e → candidate now req r → rule_effect r ∈ [effectAllow; effectLogOnly]) ∨
     ((∀ r, r ∈ e_rules e → ¬ candidate now req r) ∧ trusted_by_default req)).
Proof.
  intros Hd He Hnd. cbn in He.
  destruct (evaluate_cases now (e_rules e) req) as [[Hf Hev]|(x & Hx & Hc & Hmax & Hev)];
    rewrite Hev in He.
  - assert (∀ r, r ∈ e_rules e → ¬ candidate now req r) as Hno.
    { intros r Hr Hcr. apply (not_elem_of_nil r). rewrite <- Hf. by apply list_elem_of_filter. }
    destruct (e_manager e); [|done]. simplify_eq. split; [intros r Hr Hcr; by destruct (Hno r)|].
    intros Ha%fallback_allow; [by right|done].
  - simplify_eq. revert Hnd. rewrite decision_of_severity. unfold severity_decision. intros Hnd.
    assert (∀ r, r ∈ e_rules e → candidate now req r → (rule_severity r <= rule_severity x)%Z) as Hle
      by (intros r Hr Hcr; specialize (Hmax r Hr Hcr); unfold rule_le in Hmax; lia).
    split.
    + intros r Hr Hcr. apply dec_stable. intros Hn%severity_effect. specialize (Hle r Hr Hcr).
      destruct (Z.leb_spec (rule_severity x) 1); [lia|].
      destruct (Z.leb_spec (rule_severity x) 3); [lia|done].
    + intros Ha. left. split; [eauto|]. intros r Hr Hcr. apply severity_effect. specialize (Hle r Hr Hcr).
      destruct (Z.leb_spec (rule_severity x) 1); [lia|]. by destruct (rule_severity x <=? 3)%Z.
Qed.

(** C2: What the manifest engine lets through.  When [EnforcePolicyRequest] over the
    manifest engine returns no error, no enabled matching rule denies (or has an
    unknown effect), and one of three things holds: some rule matches and every
    matching rule allows; no rule matches and the request is trusted by default
    (a trusted or local provider, or a trusted capability, owned or delegated and
    not externally restricted when it acts on a session); or a human consented to
    the permission. *)
Theorem enforce_manifest_sound now e req a w d w' :
  manager_ok (pm w) →
  EnforcePolicyRequest now (Some (Some e)) req a w = ((d, None), w') →
  (∀ r, r ∈ e_rules e → candidate now req r →
     rule_effect r ∈ [effectAllow; effectLogOnly; effectRateLimit; effectRequireApproval]) ∧
  (((∃ r, r ∈ e_rules e ∧ candidate now req r) ∧
    ∀ r, r ∈ e_rules e → candidate now req r → rule_effect r ∈ [effectAllow; effectLogOnly]) ∨
   ((∀ r, r ∈ e_rules e → ¬ candidate now req r) ∧ trusted_by_default req) ∨
   consent P (grant_key (ap_Permission a)) w).
Proof.
  intros Hok (eng & w1 & [= <-] & He & Hk)%enforce_ok.
  pose proof (evaluate_frame now (Some e) req w) as [Hp Hh].
  change (engine_Evaluate now (Some e) req w) with (Evaluate now (Some e) req w) in He.
  rewrite He in Hp, Hh. cbn in Hp, Hh.
  assert (dec_Effect d ≠ "deny") as Hnd by (destruct Hk as [[-> _]|[-> _]]; done).
  destruct (evaluate_decision now e req w d w1 (ok_default _ Hok) He Hnd) as [Hall Hallow].
  split; [done|]. destruct Hk as [[Ha _]|(Ha & _ & Hr)]; [destruct (Hallow Ha); auto|].
  right; right. apply approval_consent in Hr; [|rewrite Hp; apply Hok].
  revert Hr. unfold consent. by rewrite Hp, Hh.
Qed.

(** Failing closed is total.  Without an engine, with a nil manifest engine, or
    with one that has neither a matching rule nor a permission manager, the answer
    is a deny together with an error and no state changes. *)
Theorem no_engine_denies now req a w (e : option (option ManifestPolicyEngine)) :
  match e with
  | Some (Some e) => e_manager e = false ∧ ∀ r, r ∈ e_rules e → ¬ candidate now req r
  | _ => True
  end →
  EnforcePolicyRequest now e req a w = (unavailable, w) ∧ dec_Effect unavailable.1 = "deny".
Proof.
  intros He. split; [|done]. destruct e as [[e|]|]; [|done..].
  destruct He as [Hm Hno]. unfold EnforcePolicyRequest, EvaluatePolicyRequest, engine_Evaluate, manifest_engine, Evaluate.
  destruct (evaluate_cases now (e_rules e) req) as [[_ ->]|(x & Hx & Hc & _)]; [by rewrite Hm|].
  by destruct (Hno x).
Qed.
End engine.
