(* ===== verification/Hitl.v ===== *)
(** * Hitl

    The human-in-the-loop broker of [governance/authorization/hitl.go].

    The broker is shared by goroutines: blocking requesters, asynchronous
    submitters, approvers, and the expiry sweeper.  Its mutex makes each critical
    section atomic, so an operation is a function per critical section, and
    [step] interleaves them.  A blocked [RequestPermission] is an entry of
    [blocked], numbered by the call: its request and the contents of its wait
    channel, whose capacity is one.  What a section sends after releasing the
    lock (to the wait channel, to the decision sink, to the subscribers) is
    recorded with the section.  [select] may take any ready branch, so a requester
    may leave on its timeout or its context even when a decision is waiting.

    The [RunID] of requests, the [Conditions] of decisions and grants and a
    grant's [Description] are carried by the code and read by nothing here; they
    are left out. *)
From S2P Require Import Prelude GoStrings GoTime GoPath Policy Glob Bounded Permissions.
From stdpp Require Import pretty.

(** ** Data *)
Definition HITLTimeoutBehaviorFail : string := "fail".
Definition HITLTimeoutBehaviorSkip : string := "skip".

(** [PermissionRequest]: what the permission manager fills in ([hr_Body]) and
    what the broker adds. *)
Record HITLRequest := {
  hr_ID : string;
  hr_Body : PermissionRequest;
  hr_Timeout : Duration;
  hr_TimeoutBehavior : string;
  hr_RequestedAt : Time;
  hr_State : string
}.

Record PermissionDecision := {
  dn_RequestID : string;
  dn_Approved : bool;
  dn_ApprovedBy : string;
  dn_Scope : string;
  dn_ExpiresAt : Time;
  dn_Reason : string
}.

Definition HITLEventRequested : string := "requested".
Definition HITLEventResolved : string := "resolved".
Definition HITLEventExpired : string := "expired".

Record HITLEvent := {
  ev_Type : string; ev_Request : HITLRequest; ev_Decision : option PermissionDecision; ev_Error : string
}.

(** What the decision sink receives. *)
Inductive HITLRecord :=
| HITLRequested (id action justification : string)
| HITLResolved (id outcome approvedBy reason : string).

(** A subscriber's buffered channel. *)
Record Sub := { sub_cap : nat; sub_queue : list HITLEvent }.

Record HITLBroker := {
  hb_timeout : Duration;
  hb_requests : gmap string HITLRequest;
  hb_waiters : gmap string nat;
  hb_blocked : gmap nat (HITLRequest * option PermissionDecision);
  hb_finishing : list (HITLRequest * PermissionDecision);
  hb_calls : nat;
  hb_subs : gmap nat Sub;
  hb_subSeq : nat;
  hb_sink : bool;
  hb_sunk : list HITLRecord;
  hb_autoApprove : bool;
  hb_onAutoApprove : list (HITLRequest * PermissionDecision)
}.

Definition NewHITLBroker (timeout : Duration) (sink : bool) : HITLBroker :=
  {| hb_timeout := if (timeout =? 0)%Z then (5 * minute)%Z else timeout;
     hb_requests := ∅; hb_waiters := ∅; hb_blocked := ∅; hb_finishing := []; hb_calls := 0;
     hb_subs := ∅; hb_subSeq := 0; hb_sink := sink; hb_sunk := [];
     hb_autoApprove := false; hb_onAutoApprove := [] |}.

Definition NewAutoApprovingHITLBroker (timeout : Duration) (sink : bool) : HITLBroker :=
  let h := NewHITLBroker timeout sink in
  {| hb_timeout := hb_timeout h; hb_requests := hb_requests h; hb_waiters := hb_waiters h;
     hb_blocked := hb_blocked h; hb_finishing := hb_finishing h; hb_calls := hb_calls h;
     hb_subs := hb_subs h; hb_subSeq := hb_subSeq h; hb_sink := hb_sink h; hb_sunk := hb_sunk h;
     hb_autoApprove := true; hb_onAutoApprove := [] |}.

(** ** Updates *)
Definition set_core (rs : gmap string HITLRequest) (ws : gmap string nat)
    (bs : gmap nat (HITLRequest * option PermissionDecision))
    (fs : list (HITLRequest * PermissionDecision)) (h : HITLBroker) : HITLBroker :=
  {| hb_timeout := hb_timeout h; hb_requests := rs; hb_waiters := ws; hb_blocked := bs;
     hb_finishing := fs; hb_calls := hb_calls h; hb_subs := hb_subs h; hb_subSeq := hb_subSeq h;
     hb_sink := hb_sink h; hb_sunk := hb_sunk h; hb_autoApprove := hb_autoApprove h;
     hb_onAutoApprove := hb_onAutoApprove h |}.

Definition set_subs (ss : gmap nat Sub) (n : nat) (h : HITLBroker) : HITLBroker :=
  {| hb_timeout := hb_timeout h; hb_requests := hb_requests h; hb_waiters := hb_waiters h;
     hb_blocked := hb_blocked h; hb_finishing := hb_finishing h; hb_calls := hb_calls h;
     hb_subs := ss; hb_subSeq := n; hb_sink := hb_sink h; hb_sunk := hb_sunk h;
     hb_autoApprove := hb_autoApprove h; hb_onAutoApprove := hb_onAutoApprove h |}.

Definition next_call (h : HITLBroker) : HITLBroker :=
  {| hb_timeout := hb_timeout h; hb_requests := hb_requests h; hb_waiters := hb_waiters h;
     hb_blocked := hb_blocked h; hb_finishing := hb_finishing h; hb_calls := S (hb_calls h);
     hb_subs := hb_subs h; hb_subSeq := hb_subSeq h; hb_sink := hb_sink h; hb_sunk := hb_sunk h;
     hb_autoApprove := hb_autoApprove h; hb_onAutoApprove := hb_onAutoApprove h |}.

(** A write to the decision sink, if there is one. *)
Definition sink_write (r : HITLRecord) (h : HITLBroker) : HITLBroker :=
  {| hb_timeout := hb_timeout h; hb_requests := hb_requests h; hb_waiters := hb_waiters h;
     hb_blocked := hb_blocked h; hb_finishing := hb_finishing h; hb_calls := hb_calls h;
     hb_subs := hb_subs h; hb_subSeq := hb_subSeq h; hb_sink := hb_sink h;
     hb_sunk := if hb_sink h then hb_sunk h ++ [r] else hb_sunk h;
     hb_autoApprove := hb_autoApprove h; hb_onAutoApprove := hb_onAutoApprove h |}.

Definition report_auto (r : HITLRequest) (d : PermissionDecision) (h : HITLBroker) : HITLBroker :=
  {| hb_timeout := hb_timeout h; hb_requests := hb_requests h; hb_waiters := hb_waiters h;
     hb_blocked := hb_blocked h; hb_finishing := hb_finishing h; hb_calls := hb_calls h;
     hb_subs := hb_subs h; hb_subSeq := hb_subSeq h; hb_sink := hb_sink h; hb_sunk := hb_sunk h;
     hb_autoApprove := hb_autoApprove h; hb_onAutoApprove := hb_onAutoApprove h ++ [(r, d)] |}.

Definition with_state (s : string) (r : HITLRequest) : HITLRequest :=
  {| hr_ID := hr_ID r; hr_Body := hr_Body r; hr_Timeout := hr_Timeout r;
     hr_TimeoutBehavior := hr_TimeoutBehavior r; hr_RequestedAt := hr_RequestedAt r; hr_State := s |}.

(** ** Events *)

(** A send with a [default] branch: dropped when the buffer is full. *)
Definition offer (ev : HITLEvent) (s : Sub) : Sub :=
  if (length (sub_queue s) <? sub_cap s)%nat
  then {| sub_cap := sub_cap s; sub_queue := sub_queue s ++ [ev] |} else s.

Definition broadcast (ev : HITLEvent) (h : HITLBroker) : HITLBroker :=
  set_subs (offer ev <$> hb_subs h) (hb_subSeq h) h.

Definition Subscribe (buffer : Z) (h : HITLBroker) : nat * HITLBroker :=
  let cap := if (buffer <=? 0)%Z then 16 else Z.to_nat buffer in
  (hb_subSeq h, set_subs (<[hb_subSeq h := {| sub_cap := cap; sub_queue := [] |}]> (hb_subs h))
                  (S (hb_subSeq h)) h).

Definition Subscribe_cancel (id : nat) (h : HITLBroker) : HITLBroker :=
  set_subs (delete id (hb_subs h)) (hb_subSeq h) h.

Definition emitRequested (r : HITLRequest) (h : HITLBroker) : HITLBroker :=
  sink_write (HITLRequested (hr_ID r) (pd_Action (pr_Permission (hr_Body r))) (pr_Justification (hr_Body r))) h.

Definition emitResolved (r : HITLRequest) (d : option PermissionDecision) (h : HITLBroker) : HITLBroker :=
  match d with
  | None => sink_write (HITLResolved (hr_ID r) "expired" EmptyString EmptyString) h
  | Some d =>
      sink_write (HITLResolved (hr_ID r) (if dn_Approved d then "approved" else "denied")
                    (dn_ApprovedBy d) (dn_Reason d)) h
  end.

Definition event (type : string) (r : HITLRequest) (d : option PermissionDecision) (err : string) : HITLEvent :=
  {| ev_Type := type; ev_Request := r; ev_Decision := d; ev_Error := err |}.

(** ** Requests *)

(** The request as registered: [clk i] is the [i]th reading of the clock by the
    call. *)
Definition stamp (clk : nat → Time) (r : HITLRequest) : HITLRequest :=
  {| hr_ID := "hitl-" +:+ pretty (unix_nano (clk 0)); hr_Body := hr_Body r; hr_Timeout := hr_Timeout r;
     hr_TimeoutBehavior := hr_TimeoutBehavior r; hr_RequestedAt := clk 1; hr_State := "pending" |}.

Definition autoResolveDecision (r : HITLRequest) : PermissionDecision :=
  {| dn_RequestID := hr_ID r; dn_Approved := true; dn_ApprovedBy := "hitl:permissive-mode";
     dn_Scope := pr_Scope (hr_Body r); dn_ExpiresAt := zero_time;
     dn_Reason := "permissive posture (--hitl-mode permissive)" |}.

Definition grant_of (r : HITLRequest) (id scope by_ : string) (now expires : Time) : PermissionGrant :=
  {| g_ID := id; g_Permission := pr_Permission (hr_Body r); g_Scope := scope; g_ExpiresAt := expires;
     g_ApprovedBy := by_; g_GrantedAt := now; g_SessionID := EmptyString |}.

(** The outcome of the first critical section of a request. *)
Inductive begun :=
| Returned (r : result PermissionGrant)
| Waiting (call : nat).

Definition RequestPermission (clk : nat → Time) (req : HITLRequest) (h : HITLBroker) : begun * HITLBroker :=
  if bool_decide (pd_Action (pr_Permission (hr_Body req)) = EmptyString)
  then (Returned (Err (ErrMsg "permission request missing action")), h)
  else
    let r := stamp clk req in
    if hb_autoApprove h then
      let d := autoResolveDecision r in
      (Returned (Ok (grant_of r (dn_RequestID d) (dn_Scope d) (dn_ApprovedBy d) (clk 2) zero_time)),
       report_auto r d (emitResolved r (Some d) h))
    else match hb_requests h !! hr_ID r with
         | Some _ => (Returned (Err (ErrFmt "request %s already registered" [hr_ID r])), h)
         | None =>
             let k := hb_calls h in
             let h1 := next_call (set_core (<[hr_ID r := r]> (hb_requests h)) (<[hr_ID r := k]> (hb_waiters h))
                                    (<[k := (r, None)]> (hb_blocked h)) (hb_finishing h) h) in
             (Waiting k, broadcast (event HITLEventRequested r None EmptyString) (emitRequested r h1))
         end.

(** The branches of its [select]. *)
Inductive branch :=
| OnDecision
| OnContext (err : gerror)
| OnTimeout.

(** The requester leaves: its entries are deleted. *)
Definition leave (k : nat) (r : HITLRequest) (h : HITLBroker) : HITLBroker :=
  set_core (delete (hr_ID r) (hb_requests h)) (delete (hr_ID r) (hb_waiters h))
    (delete k (hb_blocked h)) (hb_finishing h) h.

(** [None]: no such blocked call, or the branch is not ready. *)
Definition RequestPermission_wake (now : Time) (k : nat) (b : branch) (h : HITLBroker)
    : option (result PermissionGrant * HITLBroker) :=
  match hb_blocked h !! k with
  | None => None
  | Some (r, buf) =>
      match b with
      | OnDecision =>
          match buf with
          | None => None
          | Some d =>
              let h' := leave k r (broadcast (event HITLEventResolved r (Some d) EmptyString)
                                     (emitResolved r (Some d) h)) in
              if dn_Approved d
              then Some (Ok (grant_of r (dn_RequestID d) (dn_Scope d) (dn_ApprovedBy d) now (dn_ExpiresAt d)), h')
              else Some (Err (ErrFmt "permission denied: %s" [dn_Reason d]), h')
          end
      | OnContext err =>
          Some (Err err, broadcast (event HITLEventExpired r None (error_text err))
                           (emitResolved r None (leave k r h)))
      | OnTimeout =>
          let h' := broadcast (event HITLEventExpired r None "timed out") (emitResolved r None (leave k r h)) in
          if bool_decide (hr_TimeoutBehavior r = HITLTimeoutBehaviorSkip)
          then Some (Ok (grant_of r (hr_ID r +:+ ":timeout-skip") (pr_Scope (hr_Body r)) "timeout-skip" now zero_time), h')
          else Some (Err (ErrFmt "permission request %s timed out" [pd_Action (pr_Permission (hr_Body r))]), h')
      end
  end.

Definition SubmitAsync (clk : nat → Time) (req : HITLRequest) (h : HITLBroker) : result string * HITLBroker :=
  let r := stamp clk req in
  if hb_autoApprove h then
    let d := autoResolveDecision r in (Ok (dn_RequestID d), report_auto r d (emitResolved r (Some d) h))
  else match hb_requests h !! hr_ID r with
       | Some _ => (Err (ErrFmt "request %s already registered" [hr_ID r]), h)
       | None =>
           let h1 := set_core (<[hr_ID r := r]> (hb_requests h)) (hb_waiters h) (hb_blocked h) (hb_finishing h) h in
           (Ok (hr_ID r), broadcast (event HITLEventRequested r None EmptyString) (emitRequested r h1))
       end.

(** ** Resolution *)
Definition settled_scope (r : HITLRequest) (approved : bool) (d : PermissionDecision) : PermissionDecision :=
  if bool_decide (dn_Scope d = EmptyString) && approved
  then {| dn_RequestID := dn_RequestID d; dn_Approved := dn_Approved d; dn_ApprovedBy := dn_ApprovedBy d;
          dn_Scope := pr_Scope (hr_Body r); dn_ExpiresAt := dn_ExpiresAt d; dn_Reason := dn_Reason d |}
  else d.

(** The first critical section of [resolve]; with a waiter it is the whole call,
    otherwise [resolve_finish] follows. *)
Definition resolve (id : string) (approved : bool) (d : PermissionDecision) (h : HITLBroker)
    : option gerror * HITLBroker :=
  match hb_requests h !! id with
  | None => (Some (ErrFmt "request %s not found or expired" [id]), h)
  | Some r =>
      if negb (bool_decide (hr_State r = "pending"))
      then (Some (ErrFmt "request %s already %s" [id; hr_State r]), h)
      else
        let r' := with_state (if approved then "approved" else "denied") r in
        let d' := settled_scope r approved d in
        let rs := <[id := r']> (hb_requests h) in
        match hb_waiters h !! id with
        | Some k =>
            (None, set_core rs (delete id (hb_waiters h))
                     (alter (λ rb, (rb.1, Some d')) k (hb_blocked h)) (hb_finishing h) h)
        | None =>
            (None, set_core rs (delete id (hb_waiters h)) (hb_blocked h) (hb_finishing h ++ [(r', d')]) h)
        end
  end.

(** The second critical section of an asynchronous resolution, the [i]th under
    way. *)
Definition resolve_finish (i : nat) (h : HITLBroker) : option HITLBroker :=
  match hb_finishing h !! i with
  | None => None
  | Some (r, d) =>
      let h1 := set_core (delete (hr_ID r) (hb_requests h)) (hb_waiters h) (hb_blocked h)
                  (delete i (hb_finishing h)) h in
      Some (broadcast (event HITLEventResolved r (Some d) EmptyString) (emitResolved r (Some d) h1))
  end.

Definition Approve (d : PermissionDecision) (h : HITLBroker) : option gerror * HITLBroker :=
  resolve (dn_RequestID d) true d h.

Definition Deny (id reason : string) (h : HITLBroker) : option gerror * HITLBroker :=
  resolve id false {| dn_RequestID := id; dn_Approved := false; dn_ApprovedBy := EmptyString;
    dn_Scope := EmptyString; dn_ExpiresAt := zero_time; dn_Reason := reason |} h.

(** ** Expiry *)

(** The tests of the sweeper's loop. *)
Definition due (now : Time) (h : HITLBroker) (id : string) (r : HITLRequest) : bool :=
  bool_decide (hr_State r = "pending") && bool_decide (hb_waiters h !! id = None) &&
  negb (time_sub now (hr_RequestedAt r) <? (if (0 <? hr_Timeout r)%Z then hr_Timeout r else hb_timeout h))%Z.

(** [visit]: the registry in the order one iteration yields it. *)
Definition expireDue (now : Time) (visit : list (string * HITLRequest)) (h : HITLBroker) : HITLBroker :=
  let expired := filter (λ kr, due now h kr.1 kr.2 = true) visit in
  let h1 := set_core (foldl (λ m kr, delete kr.1 m) (hb_requests h) expired)
              (hb_waiters h) (hb_blocked h) (hb_finishing h) h in
  foldl (λ h kr, let r := with_state "expired" kr.2 in
                 broadcast (event HITLEventExpired r None "expired") (emitResolved r None h)) h1 expired.

Definition PendingRequests (h : HITLBroker) : gmap string HITLRequest :=
  filter (λ kr, hr_State kr.2 = "pending") (hb_requests h).
