(* ===== verification/HitlSafety.v ===== *)
(** * HitlSafety

    The broker as a transition system over its critical sections: its invariant,
    that every request is settled exactly once, and where a grant can come from. *)
From S2P Require Import Prelude GoStrings GoTime GoPath Policy Glob Bounded Permissions Hitl.
From stdpp Require Import pretty.

(** ** The transition system *)
Inductive label :=
| LRegister (id : string)
| LResolve (id : string) (approved : bool) (d : PermissionDecision)
| LExpire (id : string)
| LAbandon (id : string).

#[global] Instance PermissionDecision_eq_dec : EqDecision PermissionDecision.
Proof. solve_decision. Defined.

#[global] Instance label_eq_dec : EqDecision label.
Proof. solve_decision. Defined.

(** A requester that leaves without a decision gives its request up. *)
Definition wake_label (k : nat) (h : HITLBroker) : list label :=
  match hb_blocked h !! k with Some (r, None) => [LAbandon (hr_ID r)] | _ => [] end.

Definition receive (id : nat) (h : HITLBroker) : HITLBroker :=
  set_subs (alter (λ s, {| sub_cap := sub_cap s; sub_queue := tail (sub_queue s) |}) id (hb_subs h))
    (hb_subSeq h) h.

Inductive step : HITLBroker → list label → HITLBroker → Prop :=
| s_request clk req h b h' :
    RequestPermission clk req h = (b, h') →
    step h (match b with Waiting _ => [LRegister (hr_ID (stamp clk req))] | _ => [] end) h'
| s_async clk req h r h' :
    SubmitAsync clk req h = (r, h') →
    step h (match r with Ok id => if hb_autoApprove h then [] else [LRegister id] | _ => [] end) h'
| s_resolve id approved d h e h' :
    resolve id approved d h = (e, h') →
    step h (match e with None => [LResolve id approved d] | _ => [] end) h'
| s_finish i h h' : resolve_finish i h = Some h' → step h [] h'
| s_wake now k b h res h' : RequestPermission_wake now k b h = Some (res, h') → step h (wake_label k h) h'
| s_expire now visit h :
    visit ≡ₚ map_to_list (hb_requests h) →
    step h (LExpire <$> (filter (λ kr, due now h kr.1 kr.2 = true) visit).*1) (expireDue now visit h)
| s_subscribe n h : step h [] (Subscribe n h).2
| s_cancel id h : step h [] (Subscribe_cancel id h)
| s_receive id h : step h [] (receive id h).

Inductive run : HITLBroker → list label → HITLBroker → Prop :=
| run_nil h : run h [] h
| run_snoc h ls h1 ls' h2 : run h ls h1 → step h1 ls' h2 → run h (ls ++ ls') h2.

(** ** The invariant *)
Record hb_ok (h : HITLBroker) : Prop := {
  ok_id id r : hb_requests h !! id = Some r → hr_ID r = id;
  ok_wait id k : hb_waiters h !! id = Some k →
    ∃ r, hb_blocked h !! k = Some (r, None) ∧ hr_ID r = id ∧
         hb_requests h !! id = Some r ∧ hr_State r = "pending";
  ok_block k r b : hb_blocked h !! k = Some (r, b) →
    k < hb_calls h ∧ ∃ r', hb_requests h !! hr_ID r = Some r' ∧
      match b with None => hb_waiters h !! hr_ID r = Some k | Some _ => hr_State r' ≠ "pending" end;
  ok_unique k k' r r' b b' :
    hb_blocked h !! k = Some (r, b) → hb_blocked h !! k' = Some (r', b') → hr_ID r = hr_ID r' → k = k';
  ok_finish r d : (r, d) ∈ hb_finishing h →
    hb_requests h !! hr_ID r = Some r ∧ hr_State r ≠ "pending" ∧
    ∀ k r' b, hb_blocked h !! k = Some (r', b) → hr_ID r' ≠ hr_ID r;
  ok_nodup : NoDup ((λ rd, hr_ID rd.1) <$> hb_finishing h)
}.

(** What the invariant reads. *)
Definition same_core (h h' : HITLBroker) : Prop :=
  hb_requests h' = hb_requests h ∧ hb_waiters h' = hb_waiters h ∧ hb_blocked h' = hb_blocked h ∧
  hb_finishing h' = hb_finishing h ∧ hb_calls h' = hb_calls h.

Lemma hb_ok_core h h' : same_core h h' → hb_ok h → hb_ok h'.
Proof.
  intros (Hr & Hw & Hb & Hf & Hc) [H1 H2 H3 H4 H5 H6].
  split; rewrite ?Hr, ?Hw, ?Hb, ?Hf, ?Hc; done.
Qed.

Lemma core_sink r h : same_core h (sink_write r h).
Proof. done. Qed.
Lemma core_resolved r d h : same_core h (emitResolved r d h).
Proof. by destruct d. Qed.
Lemma core_event ev r d h : same_core h (broadcast ev (emitResolved r d h)).
Proof. by destruct d. Qed.

(** A pending request counts one. *)
Definition pend (h : HITLBroker) (id : string) : nat :=
  match hb_requests h !! id with
  | Some r => if decide (hr_State r = "pending") then 1 else 0
  | None => 0
  end.

Definition registered (id : string) (ls : list label) : nat :=
  length (filter (λ l, l = LRegister id) ls).
(** The request a label closes. *)
Definition settles (l : label) : option string :=
  match l with LRegister _ => None | LResolve id _ _ | LExpire id | LAbandon id => Some id end.

Definition settled (id : string) (ls : list label) : nat :=
  length (filter (λ l, settles l = Some id) ls).

Definition balanced (h : HITLBroker) (ls : list label) (h' : HITLBroker) : Prop :=
  ∀ id, registered id ls + pend h id = settled id ls + pend h' id.

Lemma balanced_nil h h' : hb_requests h' = hb_requests h → balanced h [] h'.
Proof. intros Hr id. unfold pend. by rewrite Hr. Qed.

Lemma balanced_app h ls h1 ls' h2 : balanced h ls h1 → balanced h1 ls' h2 → balanced h (ls ++ ls') h2.
Proof.
  intros H1 H2 id. specialize (H1 id). specialize (H2 id). unfold registered, settled in *.
  rewrite !filter_app, !length_app. lia.
Qed.

Lemma registered_one id id' : registered id [LRegister id'] = if decide (id = id') then 1 else 0.
Proof. unfold registered. rewrite filter_cons. repeat case_decide; simplify_eq; done. Qed.

Lemma settled_register id id' : settled id [LRegister id'] = 0.
Proof. unfold settled. rewrite filter_cons. case_decide as H; [naive_solver|done]. Qed.

Lemma settled_one id l : settled id [l] = if decide (settles l = Some id) then 1 else 0.
Proof. unfold settled. rewrite filter_cons. by case_decide. Qed.

Lemma registered_other id l : is_Some (settles l) → registered id [l] = 0.
Proof. intros [x Hx]. unfold registered. rewrite filter_cons. case_decide; [|done]. by subst. Qed.

(** ** Each section keeps the invariant and the balance *)

(** An id that is not registered is used by nobody. *)
Lemma ok_absent h id :
  hb_ok h → hb_requests h !! id = None →
  hb_waiters h !! id = None ∧ (∀ k r b, hb_blocked h !! k = Some (r, b) → hr_ID r ≠ id) ∧
  (∀ r d, (r, d) ∈ hb_finishing h → hr_ID r ≠ id).
Proof.
  intros Hok Hn. split_and!.
  - apply eq_None_not_Some. intros [k Hk]. destruct (ok_wait _ Hok _ _ Hk) as (r & _ & _ & Hr & _).
    by rewrite Hn in Hr.
  - intros k r b Hb <-. destruct (ok_block _ Hok _ _ _ Hb) as (_ & r' & Hr & _). by rewrite Hn in Hr.
  - intros r d Hf <-. destruct (ok_finish _ Hok _ _ Hf) as (Hr & _). by rewrite Hn in Hr.
Qed.

Definition enter_blocking (r : HITLRequest) (h : HITLBroker) : HITLBroker :=
  next_call (set_core (<[hr_ID r := r]> (hb_requests h)) (<[hr_ID r := hb_calls h]> (hb_waiters h))
               (<[hb_calls h := (r, None)]> (hb_blocked h)) (hb_finishing h) h).

Lemma enter_blocking_ok r h :
  hb_ok h → hb_requests h !! hr_ID r = None → hr_State r = "pending" → hb_ok (enter_blocking r h).
Proof.
  intros Hok Hn Hp. destruct (ok_absent _ _ Hok Hn) as (Hw & Hb & Hf).
  split; cbn [enter_blocking next_call set_core hb_requests hb_waiters hb_blocked hb_finishing hb_calls].
  - intros id x [[<- <-]|[_ Hx]]%lookup_insert_Some; [done|by apply Hok].
  - intros id k [[<- <-]|[Hne Hk]]%lookup_insert_Some.
    { exists r. by rewrite !lookup_insert_eq. }
    destruct (ok_wait _ Hok _ _ Hk) as (x & Hx & Hid & Hx' & Hs). exists x.
    rewrite !lookup_insert_ne; [done|done|]. destruct (ok_block _ Hok _ _ _ Hx) as [? _]. lia.
  - intros k x b [[<- [= <- <-]]|[Hne Hx]]%lookup_insert_Some.
    { split; [lia|]. exists r. by rewrite !lookup_insert_eq. }
    destruct (ok_block _ Hok _ _ _ Hx) as (Hk & x' & Hx' & Hb'). split; [lia|]. exists x'.
    rewrite !lookup_insert_ne; [done|..]; intros Heq; by apply (Hb _ _ _ Hx).
  - intros k k' x x' b b' [[<- [= <- <-]]|[Hne Hx]]%lookup_insert_Some
      [[<- [= <- <-]]|[Hne' Hx']]%lookup_insert_Some Heq; [done|..].
    + by destruct (Hb _ _ _ Hx').
    + by destruct (Hb _ _ _ Hx).
    + by eapply ok_unique.
  - intros x d Hx. destruct (ok_finish _ Hok _ _ Hx) as (Hx1 & Hx2 & Hx3).
    rewrite lookup_insert_ne by (intros Heq; by apply (Hf _ _ Hx)). split_and!; [done..|].
    intros k x' b [[<- [= <- <-]]|[_ Hk]]%lookup_insert_Some; [|by eapply Hx3].
    intros Heq. by apply (Hf _ _ Hx).
  - apply Hok.
Qed.

Definition enter_async (r : HITLRequest) (h : HITLBroker) : HITLBroker :=
  set_core (<[hr_ID r := r]> (hb_requests h)) (hb_waiters h) (hb_blocked h) (hb_finishing h) h.

Lemma enter_async_ok r h :
  hb_ok h → hb_requests h !! hr_ID r = None → hb_ok (enter_async r h).
Proof.
  intros Hok Hn. destruct (ok_absent _ _ Hok Hn) as (Hw & Hb & Hf).
  split; cbn [enter_async set_core hb_requests hb_waiters hb_blocked hb_finishing hb_calls].
  - intros id x [[<- <-]|[_ Hx]]%lookup_insert_Some; [done|by apply Hok].
  - intros id k Hk. destruct (ok_wait _ Hok _ _ Hk) as (x & Hx & Hid & Hx' & Hs). exists x.
    rewrite lookup_insert_ne; [done|]. intros <-. congruence.
  - intros k x b Hx. destruct (ok_block _ Hok _ _ _ Hx) as (Hk & x' & Hx' & Hb'). split; [done|]. exists x'.
    rewrite lookup_insert_ne; [done|]. intros Heq. by apply (Hb _ _ _ Hx).
  - apply Hok.
  - intros x d Hx. destruct (ok_finish _ Hok _ _ Hx) as (Hx1 & Hx2 & Hx3).
    rewrite lookup_insert_ne by (intros Heq; by apply (Hf _ _ Hx)). done.
  - apply Hok.
Qed.

(** Registering a pending request under a free id. *)
Lemma balanced_register h h' r :
  hb_requests h !! hr_ID r = None → hr_State r = "pending" → hb_requests h' = <[hr_ID r := r]> (hb_requests h) →
  balanced h [LRegister (hr_ID r)] h'.
Proof.
  intros Hn Hp Hr id. rewrite registered_one, settled_register. unfold pend. rewrite Hr, lookup_insert.
  repeat case_decide; subst; rewrite ?Hn; try done; lia.
Qed.

(** Removing or closing a pending request under a settling label. *)
Lemma balanced_settle h h' l id r :
  settles l = Some id → hb_requests h !! id = Some r → hr_State r = "pending" →
  pend h' id = 0 → (∀ id', id' ≠ id → hb_requests h' !! id' = hb_requests h !! id') →
  balanced h [l] h'.
Proof.
  intros Hl Hr Hs Hp Ho id'. rewrite registered_other, settled_one by eauto. rewrite Hl.
  destruct (decide (id' = id)) as [->|Hne].
  - rewrite Hp, decide_True by done. unfold pend. by rewrite Hr, decide_True.
  - rewrite decide_False by congruence. unfold pend. by rewrite Ho.
Qed.

Lemma request_step clk req h b h' :
  hb_ok h → RequestPermission clk req h = (b, h') →
  hb_ok h' ∧ balanced h (match b with Waiting _ => [LRegister (hr_ID (stamp clk req))] | _ => [] end) h'.
Proof.
  intros Hok. unfold RequestPermission. case_bool_decide.
  { intros [= <- <-]. split; [done|by apply balanced_nil]. }
  destruct (hb_autoApprove h).
  { intros [= <- <-]. split; [by apply (hb_ok_core h)|by apply balanced_nil]. }
  destruct (hb_requests h !! hr_ID (stamp clk req)) as [x|] eqn:Hx; intros [= <- <-].
  { split; [done|by apply balanced_nil]. }
  split; [|by apply (balanced_register _ _ (stamp clk req))].
  apply (hb_ok_core (enter_blocking (stamp clk req) h)); [done|]. by apply enter_blocking_ok.
Qed.

Lemma async_step clk req h r h' :
  hb_ok h → SubmitAsync clk req h = (r, h') →
  hb_ok h' ∧ balanced h (match r with Ok id => if hb_autoApprove h then [] else [LRegister id] | _ => [] end) h'.
Proof.
  intros Hok. unfold SubmitAsync. destruct (hb_autoApprove h).
  { intros [= <- <-]. split; [by apply (hb_ok_core h)|by apply balanced_nil]. }
  destruct (hb_requests h !! hr_ID (stamp clk req)) as [x|] eqn:Hx; intros [= <- <-].
  { split; [done|by apply balanced_nil]. }
  split; [|by apply (balanced_register _ _ (stamp clk req))].
  apply (hb_ok_core (enter_async (stamp clk req) h)); [done|]. by apply enter_async_ok.
Qed.

Lemma leave_ok k r b h : hb_ok h → hb_blocked h !! k = Some (r, b) → hb_ok (leave k r h).
Proof.
  intros Hok Hk. split; cbn [leave set_core hb_requests hb_waiters hb_blocked hb_finishing hb_calls].
  - intros id x [_ Hx]%lookup_delete_Some. by apply Hok.
  - intros id k' [Hne Hk']%lookup_delete_Some.
    destruct (ok_wait _ Hok _ _ Hk') as (x & Hx & Hid & Hx' & Hs). exists x.
    rewrite !lookup_delete_ne; [done|done|]. intros ->. congruence.
  - intros k' x b' [Hne Hx]%lookup_delete_Some.
    destruct (ok_block _ Hok _ _ _ Hx) as (Hlt & x' & Hx' & Hb'). split; [done|]. exists x'.
    assert (hr_ID r ≠ hr_ID x) by (intros Heq; apply Hne; by eapply ok_unique).
    by rewrite !lookup_delete_ne.
  - intros k1 k2 x1 x2 b1 b2 [_ H1]%lookup_delete_Some [_ H2]%lookup_delete_Some. by eapply ok_unique.
  - intros x d Hx. destruct (ok_finish _ Hok _ _ Hx) as (H1 & H2 & H3).
    rewrite lookup_delete_ne by by eapply H3. split_and!; [done..|].
    intros k' x' b' [_ Hx']%lookup_delete_Some. by eapply H3.
  - apply Hok.
Qed.

Lemma leave_balanced k r b h :
  hb_ok h → hb_blocked h !! k = Some (r, b) → balanced h (wake_label k h) (leave k r h).
Proof.
  intros Hok Hk. unfold wake_label. rewrite Hk.
  destruct (ok_block _ Hok _ _ _ Hk) as (_ & r' & Hr & Hb). destruct b as [d|].
  - intros id. unfold registered, settled, pend. cbn. rewrite lookup_delete. case_decide; [|done].
    subst. by rewrite Hr, decide_False.
  - destruct (ok_wait _ Hok _ _ Hb) as (x & _ & _ & Hx & Hs). rewrite Hr in Hx. simplify_eq.
    eapply balanced_settle; [done|exact Hr|done|..].
    + unfold pend. cbn. by rewrite lookup_delete_eq.
    + intros id' Hne. cbn. by rewrite lookup_delete_ne.
Qed.

Lemma wake_cases now k b h res h' :
  RequestPermission_wake now k b h = Some (res, h') →
  ∃ r buf, hb_blocked h !! k = Some (r, buf) ∧ same_core (leave k r h) h'.
Proof.
  unfold RequestPermission_wake. destruct (hb_blocked h !! k) as [[r buf]|]; [|done].
  intros Hw. exists r, buf. split; [done|]. destruct b as [|err|].
  - destruct buf as [d|]; [|done]. destruct (dn_Approved d); by simplify_eq.
  - by simplify_eq.
  - case_bool_decide; by simplify_eq.
Qed.

Lemma wake_step now k b h res h' :
  hb_ok h → RequestPermission_wake now k b h = Some (res, h') → hb_ok h' ∧ balanced h (wake_label k h) h'.
Proof.
  intros Hok (r & buf & Hk & Hc)%wake_cases. split; [by eapply hb_ok_core, leave_ok|].
  pose proof (leave_balanced _ _ _ _ Hok Hk) as Hb. intros id. rewrite (Hb id).
  destruct Hc as (Hr & _). unfold pend. by rewrite Hr.
Qed.

(** Delivering a decision to the waiter of a request. *)
Lemma deliver_ok id k r r' d h :
  hb_ok h → hb_requests h !! id = Some r → hr_ID r' = id → hr_State r' ≠ "pending" →
  hb_waiters h !! id = Some k →
  hb_ok (set_core (<[id := r']> (hb_requests h)) (delete id (hb_waiters h))
           (alter (λ rb, (rb.1, Some d)) k (hb_blocked h)) (hb_finishing h) h).
Proof.
  intros Hok Hr Hid Hs Hw. destruct (ok_wait _ Hok _ _ Hw) as (x & Hx & Hxid & _ & _).
  assert (∀ k' y b, alter (λ rb : HITLRequest * option PermissionDecision, (rb.1, Some d)) k
      (hb_blocked h) !! k' = Some (y, b) →
    (k' = k ∧ y = x ∧ b = Some d) ∨ (k' ≠ k ∧ hr_ID y ≠ id ∧ hb_blocked h !! k' = Some (y, b))) as Halt.
  { intros k' y b. destruct (decide (k' = k)) as [->|Hne].
    - rewrite lookup_alter_eq, Hx. cbn. intros [= <- <-]. auto.
    - rewrite lookup_alter_ne by done. intros Hy. right. split_and!; [done| |done].
      intros Heq. apply Hne. eapply (ok_unique _ Hok); [done..|congruence]. }
  split; cbn [set_core hb_requests hb_waiters hb_blocked hb_finishing hb_calls].
  - intros id' y [[<- <-]|[_ Hy]]%lookup_insert_Some; [done|by apply Hok].
  - intros id' k' [Hne Hk']%lookup_delete_Some.
    destruct (ok_wait _ Hok _ _ Hk') as (y & Hy & Hyid & Hy' & Hsy). exists y.
    rewrite lookup_alter_ne, lookup_insert_ne; [done|done|]. intros ->. congruence.
  - intros k' y b [(-> & -> & ->)|(Hne & Hyid & Hy)]%Halt.
    + split; [by destruct (ok_block _ Hok _ _ _ Hx)|]. exists r'. by rewrite Hxid, lookup_insert_eq.
    + destruct (ok_block _ Hok _ _ _ Hy) as (Hlt & y' & Hy' & Hb). split; [done|]. exists y'.
      by rewrite lookup_insert_ne, lookup_delete_ne.
  - intros k1 k2 y1 y2 b1 b2 [(-> & -> & ->)|(? & ? & H1)]%Halt [(-> & -> & ->)|(? & ? & H2)]%Halt Heq;
      [done|congruence|congruence|by eapply ok_unique].
  - intros y dy Hy. destruct (ok_finish _ Hok _ _ Hy) as (H1 & H2 & H3).
    pose proof (H3 _ _ _ Hx) as Hne. rewrite Hxid in Hne. rewrite lookup_insert_ne by done.
    split_and!; [done..|]. intros k' y' b [(-> & -> & ->)|(_ & _ & Hk')]%Halt; [by rewrite Hxid|by eapply H3].
  - apply Hok.
Qed.

(** Closing an asynchronous request. *)
Lemma close_ok id r r' d h :
  hb_ok h → hb_requests h !! id = Some r → hr_State r = "pending" → hr_ID r' = id →
  hr_State r' ≠ "pending" → hb_waiters h !! id = None →
  hb_ok (set_core (<[id := r']> (hb_requests h)) (delete id (hb_waiters h)) (hb_blocked h)
           (hb_finishing h ++ [(r', d)]) h).
Proof.
  intros Hok Hr Hp Hid Hs Hw.
  assert (∀ k y b, hb_blocked h !! k = Some (y, b) → hr_ID y ≠ id) as Hnb.
  { intros k y b Hy <-. destruct (ok_block _ Hok _ _ _ Hy) as (_ & y' & Hy' & Hb).
    rewrite Hr in Hy'. destruct b; congruence. }
  assert (∀ y dy, (y, dy) ∈ hb_finishing h → hr_ID y ≠ id) as Hnf.
  { intros y dy Hy <-. destruct (ok_finish _ Hok _ _ Hy) as (H1 & H2 & _). congruence. }
  split; cbn [set_core hb_requests hb_waiters hb_blocked hb_finishing hb_calls].
  - intros id' y [[<- <-]|[_ Hy]]%lookup_insert_Some; [done|by apply Hok].
  - intros id' k' [Hne Hk']%lookup_delete_Some.
    destruct (ok_wait _ Hok _ _ Hk') as (y & Hy & Hyid & Hy' & Hsy). exists y.
    by rewrite lookup_insert_ne.
  - intros k y b Hy. pose proof (Hnb _ _ _ Hy). destruct (ok_block _ Hok _ _ _ Hy) as (Hlt & y' & Hy' & Hb).
    split; [done|]. exists y'. by rewrite lookup_insert_ne, lookup_delete_ne.
  - apply Hok.
  - intros y dy [Hy|[= -> ->]%list_elem_of_singleton]%elem_of_app.
    + pose proof (Hnf _ _ Hy). destruct (ok_finish _ Hok _ _ Hy). by rewrite lookup_insert_ne.
    + rewrite Hid, lookup_insert_eq. split_and!; [done..|]. intros k y b Hy. by eapply Hnb.
  - rewrite fmap_app. cbn. apply NoDup_snoc; [apply Hok|]. rewrite Hid.
    intros ([y dy] & Heq & Hy)%list_elem_of_fmap. by apply (Hnf _ _ Hy).
Qed.

Lemma resolve_step id approved d h e h' :
  hb_ok h → resolve id approved d h = (e, h') →
  hb_ok h' ∧ balanced h (match e with None => [LResolve id approved d] | _ => [] end) h'.
Proof.
  intros Hok. unfold resolve. destruct (hb_requests h !! id) as [r|] eqn:Hr.
  2:{ intros [= <- <-]. split; [done|by apply balanced_nil]. }
  case_bool_decide as Hp; cbn [negb].
  2:{ intros [= <- <-]. split; [done|by apply balanced_nil]. }
  set (r' := with_state _ r). assert (hr_State r' ≠ "pending") as Hr' by (by destruct approved).
  pose proof (ok_id _ Hok _ _ Hr) as Hid.
  assert (∀ h1, hb_requests h1 = <[id:=r']> (hb_requests h) → balanced h [LResolve id approved d] h1) as Hbal.
  { intros h1 H1. eapply balanced_settle; [done|exact Hr|done|..].
    - unfold pend. by rewrite H1, lookup_insert_eq, decide_False.
    - intros id' Hne. by rewrite H1, lookup_insert_ne. }
  destruct (hb_waiters h !! id) as [k|] eqn:Hw; intros [= <- <-]; (split; [|by apply Hbal]).
  - by eapply deliver_ok.
  - by eapply close_ok.
Qed.

Lemma finish_step i h h' : hb_ok h → resolve_finish i h = Some h' → hb_ok h' ∧ balanced h [] h'.
Proof.
  intros Hok. unfold resolve_finish. destruct (hb_finishing h !! i) as [[r d]|] eqn:Hi; [|done].
  intros [= <-]. pose proof (list_elem_of_lookup_2 _ _ _ Hi) as Hin.
  destruct (ok_finish _ Hok _ _ Hin) as (Hr & Hs & Hb). split.
  2:{ intros id. unfold registered, settled, pend. cbn. rewrite lookup_delete. case_decide; [|done].
      subst. by rewrite Hr, decide_False. }
  assert (∀ y dy, (y, dy) ∈ delete i (hb_finishing h) → (y, dy) ∈ hb_finishing h ∧ hr_ID y ≠ hr_ID r) as Hdel.
  { intros y dy (j & Hj)%list_elem_of_lookup. rewrite list_lookup_delete in Hj.
    pose proof (ok_nodup _ Hok) as Hnd. case_decide as Hlt;
      (split; [by eapply list_elem_of_lookup_2|]); intros Heq;
      assert (∀ j', hb_finishing h !! j' = Some (y, dy) → j' = i) as Hj'
        by (intros j' Hj''; eapply NoDup_lookup; [exact Hnd|..]; rewrite list_lookup_fmap;
            [by rewrite Hj''|rewrite Hi; cbn; congruence]);
      apply Hj' in Hj; lia. }
  apply (hb_ok_core (set_core (delete (hr_ID r) (hb_requests h)) (hb_waiters h) (hb_blocked h)
    (delete i (hb_finishing h)) h)); [done|].
  split; cbn [set_core hb_requests hb_waiters hb_blocked hb_finishing hb_calls].
  - intros id y [_ Hy]%lookup_delete_Some. by apply Hok.
  - intros id k Hk. destruct (ok_wait _ Hok _ _ Hk) as (y & Hy & Hyid & Hy' & Hsy). exists y.
    rewrite lookup_delete_ne; [done|]. intros <-. congruence.
  - intros k y b Hy. pose proof (Hb _ _ _ Hy). destruct (ok_block _ Hok _ _ _ Hy) as (Hlt & y' & Hy' & Hb').
    split; [done|]. exists y'. by rewrite lookup_delete_ne.
  - apply Hok.
  - intros y dy [Hy Hne]%Hdel. destruct (ok_finish _ Hok _ _ Hy). by rewrite lookup_delete_ne.
  - eapply sublist_NoDup; [apply Hok|]. rewrite list_fmap_delete. apply sublist_delete.
Qed.

(** Expiring a list of due requests, one at a time. *)
Definition drop_all (l : list (string * HITLRequest)) (h : HITLBroker) : HITLBroker :=
  set_core (foldl (λ m kr, delete kr.1 m) (hb_requests h) l) (hb_waiters h) (hb_blocked h) (hb_finishing h) h.

Lemma drop_one_ok id r h :
  hb_ok h → hb_requests h !! id = Some r → hr_State r = "pending" → hb_waiters h !! id = None →
  hb_ok (set_core (delete id (hb_requests h)) (hb_waiters h) (hb_blocked h) (hb_finishing h) h) ∧
  balanced h [LExpire id]
    (set_core (delete id (hb_requests h)) (hb_waiters h) (hb_blocked h) (hb_finishing h) h).
Proof.
  intros Hok Hr Hp Hw. split.
  2:{ eapply balanced_settle; [done|exact Hr|done|..].
      - unfold pend. cbn. by rewrite lookup_delete_eq.
      - intros id' Hne. cbn. by rewrite lookup_delete_ne. }
  split; cbn [set_core hb_requests hb_waiters hb_blocked hb_finishing hb_calls].
  - intros id' y [_ Hy]%lookup_delete_Some. by apply Hok.
  - intros id' k Hk. destruct (ok_wait _ Hok _ _ Hk) as (y & Hy & Hyid & Hy' & Hsy). exists y.
    rewrite lookup_delete_ne; [done|]. intros ->. congruence.
  - intros k y b Hy. destruct (ok_block _ Hok _ _ _ Hy) as (Hlt & y' & Hy' & Hb). split; [done|]. exists y'.
    rewrite lookup_delete_ne; [done|]. intros ->. rewrite Hr in Hy'. destruct b; congruence.
  - apply Hok.
  - intros y dy Hy. destruct (ok_finish _ Hok _ _ Hy) as (H1 & H2 & H3). split_and!; [|done..].
    rewrite lookup_delete_ne; [done|]. intros ->. congruence.
  - apply Hok.
Qed.

Lemma drop_all_ok l h :
  hb_ok h → NoDup l.*1 →
  (∀ id r, (id, r) ∈ l → hb_requests h !! id = Some r ∧ hr_State r = "pending" ∧ hb_waiters h !! id = None) →
  hb_ok (drop_all l h) ∧ balanced h (LExpire <$> l.*1) (drop_all l h).
Proof.
  revert h. induction l as [|[id r] l IH]; intros h Hok Hnd Hl.
  { split; [|by apply balanced_nil]. by apply (hb_ok_core h). }
  rewrite fmap_cons in Hnd. apply NoDup_cons in Hnd as [Hni Hnd]. cbn in Hni.
  destruct (Hl id r) as (Hr & Hp & Hw); [by left|].
  destruct (drop_one_ok _ _ _ Hok Hr Hp Hw) as [Hok1 Hb1].
  destruct (IH _ Hok1 Hnd) as [Hok2 Hb2].
  { intros id' r' Hin. cbn. rewrite lookup_delete_ne.
    - by apply Hl; right.
    - intros ->. apply Hni. apply list_elem_of_fmap. by exists (id', r'). }
  split; [exact Hok2|]. apply (balanced_app _ [LExpire id] _ _ _ Hb1 Hb2).
Qed.

Lemma expire_core now visit h :
  same_core (drop_all (filter (λ kr, due now h kr.1 kr.2 = true) visit) h) (expireDue now visit h).
Proof.
  unfold expireDue. cbv zeta.
  set (ex := filter _ visit). change (set_core _ _ _ _ h) with (drop_all ex h).
  generalize ex at 3 as l. generalize (drop_all ex h) as h1. clear. intros h1 l. revert h1.
  induction l as [|[id r] l IH]; intros h1; cbn [foldl]; [done|].
  exact (IH (broadcast (event HITLEventExpired (with_state "expired" r) None "expired")
    (emitResolved (with_state "expired" r) None h1))).
Qed.

Lemma due_spec now h id r :
  due now h id r = true → hr_State r = "pending" ∧ hb_waiters h !! id = None.
Proof. unfold due. intros. bool_to_prop. done. Qed.

Lemma expire_step now visit h :
  hb_ok h → visit ≡ₚ map_to_list (hb_requests h) →
  hb_ok (expireDue now visit h) ∧
  balanced h (LExpire <$> (filter (λ kr, due now h kr.1 kr.2 = true) visit).*1) (expireDue now visit h).
Proof.
  intros Hok Hv. pose proof (expire_core now visit h) as Hcore.
  set (ex := filter _ visit) in *.
  assert (∀ id r, (id, r) ∈ ex → hb_requests h !! id = Some r ∧ hr_State r = "pending" ∧
    hb_waiters h !! id = None) as Hex.
  { intros id r [[Hs Hw]%due_spec Hin]%list_elem_of_filter. split_and!; [|done..].
    rewrite Hv in Hin. by apply elem_of_map_to_list in Hin. }
  destruct (drop_all_ok ex h Hok) as [Hok' Hb']; [|done|].
  - apply NoDup_fmap_fst.
    + intros id r r' [H1 _]%Hex [H2 _]%Hex. congruence.
    + apply NoDup_filter. rewrite Hv. apply NoDup_map_to_list.
  - split; [by eapply hb_ok_core|]. intros id. rewrite (Hb' id). destruct Hcore as (Hr & _).
    unfold pend. by rewrite Hr.
Qed.

Lemma step_ok h ls h' : hb_ok h → step h ls h' → hb_ok h' ∧ balanced h ls h'.
Proof.
  intros Hok Hs. destruct Hs.
  - by eapply request_step.
  - by eapply async_step.
  - by eapply resolve_step.
  - by eapply finish_step.
  - by eapply wake_step.
  - by apply expire_step.
  - split; [by apply (hb_ok_core h)|by apply balanced_nil].
  - split; [by apply (hb_ok_core h)|by apply balanced_nil].
  - split; [by apply (hb_ok_core h)|by apply balanced_nil].
Qed.

Lemma new_ok timeout sink : hb_ok (NewHITLBroker timeout sink).
Proof.
  split; cbn; try (intros; by rewrite lookup_empty in * ); [|constructor].
  intros r d Hr. by apply elem_of_nil in Hr.
Qed.

Lemma run_ok h ls h' : hb_ok h → run h ls h' → hb_ok h' ∧ balanced h ls h'.
Proof.
  intros Hok Hr. induction Hr as [h|h ls h1 ls' h2 _ IH Hs]; [split; [done|by apply balanced_nil]|].
  destruct (IH Hok) as [Hok1 Hb1]. destruct (step_ok _ _ _ Hok1 Hs). split; [done|]. by eapply balanced_app.
Qed.

(** C38: Every request is settled exactly once.  Along any interleaving of
    requesters, submitters, approvers and the sweeper from a new broker, for every
    request id: the number of times it was registered is the number of times it
    was resolved by an accepted [Approve] or [Deny], expired by the sweeper, or
    given up by its requester, plus one if it is pending now.  So a registration
    accepts one decision at most, and none after it expired or was given up. *)
Theorem hitl_settled_once timeout sink ls h id :
  run (NewHITLBroker timeout sink) ls h →
  registered id ls = settled id ls + pend h id.
Proof.
  intros Hr. destruct (run_ok _ _ _ (new_ok timeout sink) Hr) as [_ Hb]. specialize (Hb id).
  unfold pend at 1 in Hb. cbn in Hb. rewrite lookup_empty in Hb. lia.
Qed.

(** ** Where grants come from *)

(** Every delivered decision was accepted from an approver. *)
Definition sourced (ls : list label) (h : HITLBroker) : Prop :=
  ∀ k r d', hb_blocked h !! k = Some (r, Some d') →
    ∃ approved d, LResolve (hr_ID r) approved d ∈ ls ∧ d' = settled_scope r approved d.

Lemma sourced_mono ls ls' h h' :
  sourced ls h →
  (∀ k r d', hb_blocked h' !! k = Some (r, Some d') → hb_blocked h !! k = Some (r, Some d')) →
  sourced (ls ++ ls') h'.
Proof.
  intros Hs Hb k r d' Hk. destruct (Hs _ _ _ (Hb _ _ _ Hk)) as (a & d & Hin & ->).
  exists a, d. split; [|done]. apply elem_of_app. by left.
Qed.

Lemma resolve_sourced ls id approved d h e h' :
  hb_ok h → sourced ls h → resolve id approved d h = (e, h') →
  sourced (ls ++ match e with None => [LResolve id approved d] | _ => [] end) h'.
Proof.
  intros Hok Hs. unfold resolve. destruct (hb_requests h !! id) as [r|] eqn:Hr.
  2:{ intros [= <- <-]. by eapply sourced_mono. }
  case_bool_decide as Hp; cbn [negb]; [|intros [= <- <-]; by eapply sourced_mono].
  destruct (hb_waiters h !! id) as [k|] eqn:Hw; intros [= <- <-]; [|by eapply sourced_mono].
  destruct (ok_wait _ Hok _ _ Hw) as (x & Hx & Hxid & Hx' & _). rewrite Hr in Hx'. simplify_eq.
  intros k' y d' Hy. cbn in Hy. destruct (decide (k' = k)) as [->|Hne].
  - rewrite lookup_alter_eq, Hx in Hy. cbn in Hy. simplify_eq. exists approved, d. split; [set_solver|done].
  - rewrite lookup_alter_ne in Hy by done. destruct (Hs _ _ _ Hy) as (a & d0 & Hin & ->).
    exists a, d0. split; [set_solver|done].
Qed.

Lemma step_sourced ls h ls' h' : hb_ok h → sourced ls h → step h ls' h' → sourced (ls ++ ls') h'.
Proof.
  intros Hok Hs Hst. destruct Hst as [clk req h b h' Hr|clk req h r h' Hr|id a d h e h' Hr|i h h' Hr
    |now k b h res h' Hr|now visit h Hv|n h|id h|id h].
  - apply (sourced_mono _ _ h); [done|]. revert Hr. unfold RequestPermission. case_bool_decide; [by intros [= _ <-]|].
    destruct (hb_autoApprove h); [by intros [= _ <-]|].
    destruct (hb_requests h !! _); intros [= _ <-]; [done|]. intros k r d'. cbn.
    by intros [[_ ?]|[_ ?]]%lookup_insert_Some.
  - apply (sourced_mono _ _ h); [done|]. revert Hr. unfold SubmitAsync. destruct (hb_autoApprove h); [by intros [= _ <-]|].
    by destruct (hb_requests h !! _); intros [= _ <-].
  - by eapply resolve_sourced.
  - apply (sourced_mono _ _ h); [done|]. revert Hr. unfold resolve_finish.
    destruct (hb_finishing h !! i) as [[r d]|]; [|done]. by intros [= <-].
  - apply (sourced_mono _ _ h); [done|]. apply wake_cases in Hr as (r & buf & Hk & (_ & _ & Hb & _)).
    intros k' y d'. rewrite Hb. cbn. by intros [_ ?]%lookup_delete_Some.
  - apply (sourced_mono _ _ h); [done|]. destruct (expire_core now visit h) as (_ & _ & Hb & _). by rewrite Hb.
  - by eapply sourced_mono.
  - by eapply sourced_mono.
  - by eapply sourced_mono.
Qed.

Lemma run_sourced timeout sink ls h :
  run (NewHITLBroker timeout sink) ls h → hb_ok h ∧ sourced ls h.
Proof.
  intros Hr. remember (NewHITLBroker timeout sink) as h0 eqn:Hh. induction Hr as [h|h ls h1 ls' h2 _ IH Hs]; subst.
  - split; [apply new_ok|]. intros k r d'. cbn. by rewrite lookup_empty.
  - destruct (IH eq_refl) as [Hok Hsrc]. split; [by eapply step_ok|by eapply step_sourced].
Qed.

(** A grant has an approver.  When a blocked [RequestPermission] of the governed
    broker returns a grant, the grant is for the permission that was requested,
    and either an accepted resolution of that request carried [Approved] (and the
    grant takes its approver, its expiry and its scope, the requested scope if an
    approval left it empty), or the request's timeout fired and the request itself
    asked to be skipped on timeout. *)
Theorem hitl_grant_provenance timeout sink ls h now k b g h' :
  run (NewHITLBroker timeout sink) ls h →
  RequestPermission_wake now k b h = Some (Ok g, h') →
  ∃ r buf, hb_blocked h !! k = Some (r, buf) ∧ g_Permission g = pr_Permission (hr_Body r) ∧
    ((∃ approved d, b = OnDecision ∧ LResolve (hr_ID r) approved d ∈ ls ∧ dn_Approved d = true ∧
        g_ApprovedBy g = dn_ApprovedBy d ∧ g_ExpiresAt g = dn_ExpiresAt d ∧
        g_Scope g = (if bool_decide (dn_Scope d = EmptyString) && approved
                     then pr_Scope (hr_Body r) else dn_Scope d)) ∨
     (b = OnTimeout ∧ hr_TimeoutBehavior r = HITLTimeoutBehaviorSkip ∧ g_ApprovedBy g = "timeout-skip")).
Proof.
  intros [Hok Hs]%run_sourced. unfold RequestPermission_wake.
  destruct (hb_blocked h !! k) as [[r buf]|] eqn:Hk; [|done]. intros Hw. exists r, buf. split; [done|].
  destruct b as [|err|]; [|done|].
  - destruct buf as [d'|]; [|done]. destruct (Hs _ _ _ Hk) as (a & d & Hin & Hd').
    destruct (dn_Approved d') eqn:Ha; [|done]. simplify_eq. split; [done|]. left. exists a, d.
    unfold settled_scope in *. destruct (bool_decide _ && a) eqn:Hb; cbn in *; auto 10.
  - case_bool_decide; [|done]. simplify_eq. auto.
Qed.

(** ** Expiry *)

(** An approval cannot land after expiry.  After a sweep, a request that was
    due (pending, nobody waiting on it, its time to live elapsed) is gone:
    [Approve] and [Deny] report it as not found or expired and change nothing;
    and the sweep removes no other request. *)
Theorem hitl_no_late_approval now visit h id r :
  visit ≡ₚ map_to_list (hb_requests h) → hb_requests h !! id = Some r →
  if due now h id r
  then ∀ a d, resolve id a d (expireDue now visit h) =
         (Some (ErrFmt "request %s not found or expired" [id]), expireDue now visit h)
  else hb_requests (expireDue now visit h) !! id = Some r.
Proof.
  intros Hv Hr. destruct (expire_core now visit h) as (Hreq & _).
  assert (∀ (l : list (string * HITLRequest)) (m : gmap string HITLRequest),
    foldl (λ m kr, delete kr.1 m) m l !! id = if decide (id ∈ l.*1) then None else m !! id) as Hfold.
  { induction l as [|[k x] l IH]; intros m; cbn; [by rewrite decide_False by apply not_elem_of_nil|].
    rewrite IH, lookup_delete. repeat case_decide; set_solver. }
  assert (hb_requests (expireDue now visit h) !! id = if due now h id r then None else Some r) as Hid.
  { rewrite Hreq. cbn. rewrite Hfold, Hr. destruct (due now h id r) eqn:Hd.
    - rewrite decide_True; [done|]. apply list_elem_of_fmap. exists (id, r). split; [done|].
      apply list_elem_of_filter. split; [done|]. rewrite Hv. by apply elem_of_map_to_list.
    - rewrite decide_False; [done|]. intros ([k x] & -> & [Hd' Hin]%list_elem_of_filter)%list_elem_of_fmap.
      rewrite Hv in Hin. apply elem_of_map_to_list in Hin. cbn in *. congruence. }
  destruct (due now h id r); [|done]. intros a d. unfold resolve. by rewrite Hid.
Qed.

(** A denial can be overridden by a timeout.  When a blocked request asks to be
    skipped on timeout and a [Deny] for it was accepted (no error), the requester's
    timeout branch is still ready, and taking it returns a grant. *)
Theorem denied_then_skipped h now k r id reason h1 :
  hb_blocked h !! k = Some (r, None) → hr_TimeoutBehavior r = HITLTimeoutBehaviorSkip →
  Deny id reason h = (None, h1) →
  ∃ g h2, RequestPermission_wake now k OnTimeout h1 = Some (Ok g, h2).
Proof.
  intros Hk Hskip. unfold Deny, resolve. destruct (hb_requests h !! id) as [x|]; [|done].
  case_bool_decide; cbn [negb]; [|done].
  assert (∀ h1 b, hb_blocked h1 !! k = Some (r, b) →
    ∃ g h2, RequestPermission_wake now k OnTimeout h1 = Some (Ok g, h2)) as Hwake.
  { intros h0 b Hb. unfold RequestPermission_wake. rewrite Hb, bool_decide_true by done. eauto. }
  destruct (hb_waiters h !! id) as [k'|]; intros [= <-]; [|by eapply Hwake].
  destruct (decide (k' = k)) as [->|Hne]; eapply Hwake; cbn.
  - by rewrite lookup_alter_eq, Hk.
  - by rewrite lookup_alter_ne.
Qed.
