(* ===== verification/CommandAuthorization.v ===== *)
(** * CommandAuthorization

    Static lifting of shell commands to the permissions they need:
    [governance/authorization/command_semantics.go]; below, the authorization that rests
    on it.

    The shell parser is the package [mvdan.cc/sh]: a parameter ([parse]) that
    returns an error or the nodes of the syntax tree in the order [syntax.Walk]
    visits them, of which the code looks at three kinds. *)
From S2P Require Import Prelude GoStrings GoTime Policy Glob GoPath Bounded Permissions PermissionsSafety.
From S2P Require Import PermissionsInv PolicyEngine.

(** ** Syntax, as far as the code looks *)
Inductive quoted_part :=
| QLit (value : string)
| QOther.

Inductive word_part :=
| Lit (value : string)
| SglQuoted (dollar : bool) (value : string)
| DblQuoted (parts : list quoted_part)
| OtherPart.

Definition word : Type := list word_part.

Inductive redirect_op := RdrOut | AppOut | RdrIn | OtherRedirect.

(** A redirection's word may be absent. *)
Inductive node :=
| CmdSubst
| CallExpr (args : list word)
| Redirect (op : redirect_op) (target : option word)
| OtherNode.

(** The parts of a double-quoted string, when all of them are literal. *)
Fixpoint literal_parts (parts : list quoted_part) : option string :=
  match parts with
  | [] => Some EmptyString
  | QLit v :: parts' => String.append v <$> literal_parts parts'
  | _ => None
  end.

(** [None] for a word that is not fully literal. *)
Fixpoint literal_word (w : word) : option string :=
  match w with
  | [] => Some EmptyString
  | p :: w' =>
      v ← match p with
          | Lit v => Some v
          | SglQuoted dollar v => if dollar then None else Some v
          | DblQuoted parts => literal_parts parts
          | OtherPart => None
          end;
      String.append v <$> literal_word w'
  end.

Definition literalWord (w : option word) : option string :=
  match w with None => Some EmptyString | Some w => literal_word w end.

(** ** Lifted permissions *)
Record LiftedPermissions := {
  lp_FileSystem : list FileSystemPermission;
  lp_Executables : list ExecutablePermission;
  lp_Network : list NetworkPermission;
  lp_HasDynamic : bool
}.

Definition lp_empty : LiftedPermissions :=
  {| lp_FileSystem := []; lp_Executables := []; lp_Network := []; lp_HasDynamic := false |}.

Definition set_dynamic (res : LiftedPermissions) : LiftedPermissions :=
  {| lp_FileSystem := lp_FileSystem res; lp_Executables := lp_Executables res;
     lp_Network := lp_Network res; lp_HasDynamic := true |}.

Definition add_exec (binary : string) (args : list string) (res : LiftedPermissions) : LiftedPermissions :=
  {| lp_FileSystem := lp_FileSystem res;
     lp_Executables := lp_Executables res ++
       [{| ex_Binary := binary; ex_Args := args; ex_Env := []; ex_HITLRequired := false |}];
     lp_Network := lp_Network res; lp_HasDynamic := lp_HasDynamic res |}.

Definition add_files (action : string) (paths : list string) (res : LiftedPermissions) : LiftedPermissions :=
  {| lp_FileSystem := lp_FileSystem res ++
       ((λ p, {| fs_Action := action; fs_Path := p; fs_HITLRequired := false |}) <$> paths);
     lp_Executables := lp_Executables res; lp_Network := lp_Network res;
     lp_HasDynamic := lp_HasDynamic res |}.

Definition addReads := add_files FileSystemRead.
Definition addWrites := add_files FileSystemWrite.
Definition addDeletes := add_files FileSystemDelete.

Definition add_network (host : string) (res : LiftedPermissions) : LiftedPermissions :=
  {| lp_FileSystem := lp_FileSystem res; lp_Executables := lp_Executables res;
     lp_Network := lp_Network res ++
       [{| np_Direction := "egress"; np_Protocol := "tcp"; np_Host := host; np_Port := 0;
           np_HITLRequired := false |}];
     lp_HasDynamic := lp_HasDynamic res |}.

(** ** Arguments *)
Definition dash (s : string) : bool := has_prefix "-" s.

Definition commandBase (binary : string) : string := to_lower (filepath_base (trim_space binary)).

Definition isShellBinary (binary : string) : bool := bool_decide (binary ∈ ["sh"; "bash"; "zsh"; "dash"]).

Fixpoint shellCommandString (args : list string) : option string :=
  match args with
  | [] => None
  | arg :: rest =>
      if (String.length arg <? 2)%nat || negb (dash arg) || bool_decide (arg = "--") then shellCommandString rest
      else if has_prefix "--" arg then shellCommandString rest
      else if negb (contains_byte "c"%char (str_drop 1 arg)) then shellCommandString rest
      else match rest with next :: _ => Some next | [] => None end
  end.

Definition isOpaqueConstructor (binary : string) (args : list string) : bool :=
  if bool_decide (binary ∈ ["xargs"; "sudo"; "doas"; "su"; "watch"]) then true
  else if bool_decide (binary = "find")
  then existsb (λ a, bool_decide (a ∈ ["-exec"; "-execdir"; "-ok"; "-okdir"])) args
  else if bool_decide (binary ∈ ["awk"; "gawk"; "mawk"]) then existsb (λ a, contains a "system(") args
  else if bool_decide (binary = "perl")
  then existsb (λ a, bool_decide (a ∈ ["-e"; "-E"; "--eval"]) || (has_prefix "-e" a && (2 <? String.length a)%nat)) args
  else if bool_decide (binary ∈ ["python"; "python2"; "python3"; "node"; "nodejs"; "ruby"; "php"])
  then existsb (λ a, bool_decide (a ∈ ["-c"; "-e"; "--eval"; "-p"; "-r"])) args
  else false.

Definition allDigits (s : string) : bool :=
  if bool_decide (s = EmptyString) then false else all_bytes is_digit s.

(** The [strip] functions return the rest of the argument vector, [[]] for none;
    [i += 2] past the end ends the loop. *)
Fixpoint stripEnv (args : list string) : list string :=
  match args with
  | [] => []
  | arg :: rest =>
      if bool_decide (arg = "--") then rest
      else if bool_decide (arg ∈ ["-i"; "--ignore-environment"; "-0"; "--null"]) then stripEnv rest
      else if bool_decide (arg ∈ ["-u"; "--unset"; "-C"; "--chdir"; "-S"; "--split-string"])
      then match rest with [] => [] | _ :: rest' => stripEnv rest' end
      else if has_prefix "--unset=" arg || has_prefix "--chdir=" arg || has_prefix "--split-string=" arg
      then stripEnv rest
      else if dash arg && negb (bool_decide (arg = "-")) then stripEnv rest
      else if contains arg "=" && negb (has_prefix "=" arg) then stripEnv rest
      else args
  end.

Fixpoint stripNice (args : list string) : list string :=
  match args with
  | [] => []
  | arg :: rest =>
      if bool_decide (arg ∈ ["-n"; "--adjustment"])
      then match rest with [] => [] | _ :: rest' => stripNice rest' end
      else if has_prefix "--adjustment=" arg then stripNice rest
      else if (1 <? String.length arg)%nat && dash arg && allDigits (str_drop 1 arg) then stripNice rest
      else args
  end.

Fixpoint timeout_flags (args : list string) : list string :=
  match args with
  | [] => []
  | arg :: rest =>
      if dash arg then
        if bool_decide (arg ∈ ["-s"; "--signal"; "-k"; "--kill-after"])
        then match rest with [] => [] | _ :: rest' => timeout_flags rest' end
        else timeout_flags rest
      else args
  end.

Definition stripTimeout (args : list string) : list string := tail (timeout_flags args).

Definition stdbuf_flag (arg : string) : bool :=
  match arg with
  | String a (String b _) => bool_decide (a = "-"%char) && bool_decide (b ∈ ["i"; "o"; "e"]%char)
  | _ => false
  end.

Fixpoint stripStdbuf (args : list string) : list string :=
  match args with
  | [] => []
  | arg :: rest =>
      if bool_decide (arg = "--") then rest
      else if has_prefix "--" arg then stripStdbuf rest
      else if stdbuf_flag arg then
        if (String.length arg =? 2)%nat
        then match rest with [] => [] | _ :: rest' => stripStdbuf rest' end
        else stripStdbuf rest
      else args
  end.

Fixpoint skipLeadingFlags (args : list string) : list string :=
  match args with
  | [] => []
  | arg :: rest => if dash arg then if bool_decide (arg = "--") then rest else skipLeadingFlags rest else args
  end.

Definition stripArgvWrapper (binary : string) (args : list string) : option (list string) :=
  out ← (if bool_decide (binary = "env") then Some (stripEnv args)
         else if bool_decide (binary = "nice") then Some (stripNice args)
         else if bool_decide (binary = "timeout") then Some (stripTimeout args)
         else if bool_decide (binary = "stdbuf") then Some (stripStdbuf args)
         else if bool_decide (binary ∈ ["nohup"; "setsid"]) then Some (skipLeadingFlags args)
         else None);
  match out with [] => None | _ => Some out end.

Definition literalPaths (args : list string) : list string :=
  filter (λ a, a ≠ EmptyString ∧ dash a = false) args.

Fixpoint firstNetworkArg (args : list string) : string :=
  match args with
  | [] => EmptyString
  | arg :: rest =>
      if bool_decide (arg ∈ ["-o"; "--output"; "-O"; "--output-document"])
      then match rest with [] => EmptyString | _ :: rest' => firstNetworkArg rest' end
      else if has_prefix "--output=" arg || has_prefix "--output-document=" arg then firstNetworkArg rest
      else if has_prefix "-o" arg && (2 <? String.length arg)%nat && negb (has_prefix "--" arg) then firstNetworkArg rest
      else if has_prefix "-O" arg && (2 <? String.length arg)%nat && negb (has_prefix "--" arg) then firstNetworkArg rest
      else if negb (bool_decide (arg = EmptyString)) && negb (dash arg) then arg
      else firstNetworkArg rest
  end.

Fixpoint flagValue (args : list string) (short long : string) : option string :=
  match args with
  | [] => None
  | arg :: rest =>
      if bool_decide (arg = short) || bool_decide (arg = long)
      then match rest with next :: _ => Some next | [] => None end
      else if negb (bool_decide (long = EmptyString)) && has_prefix (long +:+ "=") arg
      then Some (trim_prefix (long +:+ "=") arg)
      else if negb (bool_decide (short = EmptyString)) && (String.length short <? String.length arg)%nat &&
              has_prefix short arg && negb (has_prefix "--" arg)
      then Some (str_drop (String.length short) arg)
      else flagValue rest short long
  end.

Definition cut_before (sub s : string) : string :=
  match index sub s with Some i => str_take i s | None => s end.

Definition extractHostFromURL (rawURL : string) : string :=
  let rawURL := trim_space rawURL in
  if bool_decide (rawURL = EmptyString) then EmptyString
  else
    let rawURL := match index "://" rawURL with Some i => str_drop (i + 3) rawURL | None => rawURL end in
    cut_before ":" (cut_before "/" rawURL).

(** ** One plain command *)
Definition carry_write (path : string) (res : LiftedPermissions) : LiftedPermissions :=
  let path := trim_space path in
  if bool_decide (path = EmptyString) || dash path then res else addWrites [path] res.

Definition liftOutputCarriers (binary : string) (args : list string) (res : LiftedPermissions) : LiftedPermissions :=
  if bool_decide (binary = "curl")
  then match flagValue args "-o" "--output" with Some v => carry_write v res | None => res end
  else if bool_decide (binary = "wget")
  then match flagValue args "-O" "--output-document" with Some v => carry_write v res | None => res end
  else if bool_decide (binary = "dd")
  then foldl (λ res a, if has_prefix "of=" a then carry_write (trim_prefix "of=" a) res else res) res args
  else if bool_decide (binary = "install")
  then match last (literalPaths args) with Some p => carry_write p res | None => res end
  else if bool_decide (binary = "truncate") then foldl (λ res p, carry_write p res) res (literalPaths args)
  else res.

Definition sed_in_place (args : list string) : bool := existsb (has_prefix "-i") args ||
  existsb (λ a, bool_decide (a = "--in-place")) args.

(** The arguments of [sed] that are neither empty nor flags. *)
Definition sed_paths := literalPaths.

Definition lift_binary (binary : string) (args : list string) (res : LiftedPermissions) : LiftedPermissions :=
  if bool_decide (binary = "eval") then set_dynamic res
  else if bool_decide (binary ∈ ["cat"; "head"; "tail"; "less"; "more"; "bat"]) then addReads (literalPaths args) res
  else if bool_decide (binary ∈ ["rm"; "rmdir"; "shred"; "unlink"]) then addDeletes (literalPaths args) res
  else if bool_decide (binary ∈ ["cp"; "mv"]) then
    match last (literalPaths args) with
    | Some p => addWrites [p] (addReads (removelast (literalPaths args)) res)
    | None => res
    end
  else if bool_decide (binary = "sed") then
    match last (sed_paths args) with
    | Some p => if sed_in_place args then addWrites [p] res else addReads [p] res
    | None => res
    end
  else if bool_decide (binary ∈ ["tee"; "touch"; "mkdir"]) then addWrites (literalPaths args) res
  else if bool_decide (binary ∈ ["curl"; "wget"]) then
    let host := firstNetworkArg args in
    let h := extractHostFromURL host in
    if bool_decide (host = EmptyString) || bool_decide (h = EmptyString) then res else add_network h res
  else res.

Definition liftPlain (binary : string) (args : list string) (res : LiftedPermissions) : LiftedPermissions :=
  add_exec binary args (lift_binary binary args (liftOutputCarriers binary args res)).

(** ** Unwrapping *)
Definition maxUnwrapDepth : Z := 5.

Record UnwrapStep := { Wrapper : string; Depth : Z }.

(** [left] iterations before [maxUnwrapDepth]. *)
Fixpoint unwrap_loop (left : nat) (cur : list string) (inner : list (list string)) (steps : list UnwrapStep)
    : list (list string) * list UnwrapStep * bool :=
  match cur with
  | [] => (inner, steps, false)
  | b :: args =>
      match left with
      | O => (inner, steps, true)
      | S left' =>
          let binary := commandBase b in
          let depth := (maxUnwrapDepth - Z.of_nat left)%Z in
          if isOpaqueConstructor binary args then (inner, steps, true)
          else if isShellBinary binary then
            match shellCommandString args with
            | Some _ => (inner ++ [cur], steps ++ [{| Wrapper := binary; Depth := depth |}], false)
            | None => (inner, steps, false)
            end
          else
            match stripArgvWrapper binary args with
            | None => (inner, steps, false)
            | Some next => unwrap_loop left' next (inner ++ [next])
                             (steps ++ [{| Wrapper := binary; Depth := depth |}])
            end
      end
  end.

Definition UnwrapCommand (argv : list string) : list (list string) * list UnwrapStep * bool :=
  unwrap_loop (Z.to_nat maxUnwrapDepth) argv [] [].

(** ** Lifting *)
Section lift.
Context (parse : string → result (list node)).

Definition lifting : Type := option gerror * LiftedPermissions.

(** The argument vector of a call, when every word is literal. *)
Fixpoint literal_argv (args : list word) : option (list string) :=
  match args with
  | [] => Some []
  | w :: args' => v ← literalWord (Some w); cons v <$> literal_argv args'
  end.

Definition liftCallExpr (lift : list string → LiftedPermissions → lifting) (args : list word)
    (res : LiftedPermissions) : LiftedPermissions :=
  if bool_decide (args = []) then res
  else match literal_argv args with
       | None => set_dynamic res
       | Some [] => res
       | Some (b :: rest) =>
           if bool_decide (b = EmptyString) then set_dynamic res else (lift (b :: rest) res).2
       end.

(** The visitor of [syntax.Walk]. *)
Definition visit (lift : list string → LiftedPermissions → lifting) (res : LiftedPermissions) (n : node)
    : LiftedPermissions :=
  match n with
  | CmdSubst => set_dynamic res
  | CallExpr args => liftCallExpr lift args res
  | Redirect op target =>
      match literalWord target with
      | None => res
      | Some t =>
          if bool_decide (t = EmptyString) then res
          else match op with
               | RdrOut | AppOut => addWrites [t] res
               | RdrIn => addReads [t] res
               | OtherRedirect => res
               end
      end
  | OtherNode => res
  end.

Definition liftShellString (lift : list string → LiftedPermissions → lifting) (depth : Z) (cmdStr : string)
    (res : LiftedPermissions) : lifting :=
  let cmdStr := trim_space cmdStr in
  if bool_decide (cmdStr = EmptyString) then (None, res)
  else if (maxUnwrapDepth <? depth)%Z then (None, set_dynamic res)
  else match parse cmdStr with
       | Err e => (Some e, res)
       | Ok nodes => (None, foldl (visit lift) res nodes)
       end.

(** Every nested level is one deeper, and a level past [maxUnwrapDepth] stops, so
    [6 - depth] rounds of fuel are never used up ([lift_fuel]). *)
Fixpoint liftCommand_fuel (fuel : nat) (depth : Z) (argv : list string) (res : LiftedPermissions) : lifting :=
  match argv with
  | [] => (None, res)
  | b :: args =>
      if (maxUnwrapDepth <? depth)%Z then (None, set_dynamic res)
      else
        let binary := commandBase b in
        if isOpaqueConstructor binary args then (None, add_exec binary args (set_dynamic res))
        else
          match fuel with
          | O => (None, res)
          | S fuel' =>
              match (if isShellBinary binary then shellCommandString args else None) with
              | Some cmdStr =>
                  liftShellString (liftCommand_fuel fuel' (depth + 1)) (depth + 1) cmdStr (add_exec binary args res)
              | None =>
                  match stripArgvWrapper binary args with
                  | Some inner => liftCommand_fuel fuel' (depth + 1) inner (add_exec binary args res)
                  | None => (None, liftPlain binary args res)
                  end
              end
          end
  end.

Definition liftCommand (argv : list string) (res : LiftedPermissions) (depth : Z) : lifting :=
  liftCommand_fuel (Z.to_nat (maxUnwrapDepth + 1 - depth)) depth argv res.

Definition LiftShellCommand (cmdStr : string) : result LiftedPermissions :=
  match liftShellString (λ argv res, liftCommand argv res 0) 0 cmdStr lp_empty with
  | (Some e, _) => Err e
  | (None, res) => Ok res
  end.
End lift.

(** ** Authorization

    Authorization of commands before they run:
    [governance/authorization/command_authorization.go] and [command_policy.go],
    over the lifting of [CommandAuthorization] and the checks of [Permissions].  The
    shell parser and the resolution of a host to a network target (DNS) are
    parameters. *)
Definition commandApprovalAction : string := "command:exec".

Record BashConfig := { bc_AllowPatterns : list string; bc_DenyPatterns : list string; bc_Default : string }.
Record CommandAuthorizationRequest := { Command : list string; Env : list string; Source : string }.

Definition classifyParseError (e : gerror) : string :=
  let msg := to_lower (error_text e) in
  if contains msg "depth" || contains msg "too deep" then "depth"
  else if contains msg "lexer" || contains msg "invalid" then "lexer"
  else "syntax".

Section authorize.
Context {H L : Type} (P : Ports (H := H) (L := L)).
Context (parse : string → result (list node)) (resolve_host : string → result Target).
Abbreviation World := (World (H := H) (L := L)).
Implicit Types w : World.

(** [fmt.Errorf("prefix: %w", err)] on the error of a call. *)
Definition se_wrap {A} (prefix : string) (m : SE World A) : SE World A := λ w,
  match m w with
  | (Ok a, w') => (Ok a, w')
  | (Err e, w') => (Err (ErrWrap prefix e), w')
  end.

Fixpoint each {A} (f : A → SE World unit) (l : list A) : SE World unit :=
  match l with [] => se_ret () | x :: l' => f x ;;; each f l' end.

Definition emitCommandEvent (manager : bool) (agentID kind command wrapper : string) (depth : Z)
    (reason : string) : SE World unit :=
  if manager then emit (CommandEvent kind command wrapper depth reason agentID) else se_ret ().

Definition emitUnwrapSteps (manager : bool) (agentID command : string) (steps : list UnwrapStep) : SE World unit :=
  each (λ s, emitCommandEvent manager agentID "wrapper_unwrapped" command (Wrapper s) (Depth s) EmptyString) steps.

Definition requireCommandApproval (manager : bool) (agentID command justification : string) : SE World unit :=
  if manager then
    RequireApproval P agentID {| pd_Type := "hitl"; pd_Action := commandApprovalAction;
      pd_Resource := command; pd_RequiresHITL := true |} justification GrantScopeOneTime RiskLevelMedium 0
  else se_err (ErrMsg "command blocked: approval required but permission manager missing").

Definition nul : string := String (ascii_of_nat 0) EmptyString.
Definition exec_key (binary : string) (args : list string) : string := binary +:+ nul +:+ join_with nul args.

Definition check_file (agentID : string) (p : FileSystemPermission) : SE World unit :=
  se_wrap "semantic filesystem check denied" (CheckFileAccess P agentID (fs_Action p) (fs_Path p)).

Definition check_net (agentID : string) (p : NetworkPermission) : SE World unit :=
  match resolve_host (np_Host p) with
  | Err e => se_err (ErrWrap "semantic network check denied" e)
  | Ok target =>
      se_wrap "semantic network check denied"
        (CheckNetwork P agentID (np_Direction p) (np_Protocol p) target (np_Port p))
  end.

(** The loop over the executables; returns the keys seen. *)
Fixpoint check_execs (agentID baseBinary : string) (baseArgs baseEnv : list string)
    (seen : gset string) (l : list ExecutablePermission) : SE World (gset string) :=
  match l with
  | [] => se_ret seen
  | p :: l' =>
      let key := exec_key (ex_Binary p) (ex_Args p) in
      if bool_decide (key ∈ seen) then check_execs agentID baseBinary baseArgs baseEnv seen l'
      else
        let base := bool_decide (ex_Binary p = baseBinary) in
        se_wrap "semantic executable check denied"
          (CheckExecutable P agentID (ex_Binary p) (if base then baseArgs else ex_Args p)
             (if base then baseEnv else [])) ;;;
        check_execs agentID baseBinary baseArgs baseEnv ({[key]} ∪ seen) l'
  end.

Definition checkLifted (agentID baseBinary : string) (baseArgs baseEnv : list string)
    (lifted : LiftedPermissions) : SE World unit :=
  each (check_file agentID) (lp_FileSystem lifted) ;;;
  each (check_net agentID) (lp_Network lifted) ;;;
  let* seen := check_execs agentID baseBinary baseArgs baseEnv ∅ (lp_Executables lifted) in
  if bool_decide (exec_key baseBinary baseArgs ∈ seen) then se_ret ()
  else CheckExecutable P agentID baseBinary baseArgs baseEnv.

Definition AuthorizeCommand (manager : bool) (agentID : string) (cfg : option BashConfig)
    (req : CommandAuthorizationRequest) : SE World unit :=
  match Command req with
  | [] => se_err (ErrMsg "command empty")
  | binary :: args =>
      let command := trim_space (join_with " " (Command req)) in
      let '(_, steps, unwrapDynamic) := UnwrapCommand (Command req) in
      emitUnwrapSteps manager agentID command steps ;;;
      match liftCommand parse (Command req) lp_empty 0 with
      | (Some e, _) =>
          emitCommandEvent manager agentID "parse_failed" command EmptyString 0 (classifyParseError e) ;;;
          requireCommandApproval manager agentID command
            "command could not be statically analyzed — approve to run unreviewed"
      | (None, lifted) =>
          if unwrapDynamic || lp_HasDynamic lifted then
            emitCommandEvent manager agentID "opaque_constructor" command EmptyString 0 EmptyString ;;;
            requireCommandApproval manager agentID command
              "Command contains dynamic or opaque execution syntax (eval, command substitution, or a code-bearing wrapper)"
          else
            (if manager then checkLifted agentID (commandBase binary) args (Env req) lifted else se_ret ()) ;;;
            match cfg with
            | None => se_ret ()
            | Some c =>
                let d := DecideCommandByPatterns command (bc_AllowPatterns c) (bc_DenyPatterns c) (bc_Default c) in
                if bool_decide (cd_Decision d = DecisionDeny)
                then se_err (ErrMsg "command blocked: denied by bash_permissions")
                else if bool_decide (cd_Decision d = DecisionAsk)
                then requireCommandApproval manager agentID command "bash permission policy"
                else se_ret ()
            end
      end
  end.

Record CommandAuthorizationPolicy := {
  cap_manager : bool; cap_agentID : string; cap_bashCfg : option BashConfig; cap_source : string
}.

Definition CheckCommand (p : CommandAuthorizationPolicy) (args env : list string) : SE World unit :=
  AuthorizeCommand (cap_manager p) (cap_agentID p) (cap_bashCfg p)
    {| Command := args; Env := env; Source := trim_space (cap_source p) |}.
End authorize.
