(* ===== verification/CommandSafety.v ===== *)
(** * CommandSafety

    What command authorization guarantees: lifting terminates within its depth
    bound and only adds permissions, a command that runs without a human's
    approval has had every lifted permission checked, and what lifting does not
    see. *)
From S2P Require Import Prelude GoStrings GoTime GoPath Policy Glob Bounded Permissions.
From S2P Require Import PermissionsSafety PermissionsInv PolicyEngine CommandAuthorization.

(** ** Lifting *)
Section lifting.
Context (parse : string → result (list node)).

(** Growth: permissions are only added, and a dynamic flag stays. *)
Record grows (res res' : LiftedPermissions) : Prop := {
  grow_fs : ∃ l, lp_FileSystem res' = lp_FileSystem res ++ l ∧
    Forall (λ p, fs_Action p ∈ [FileSystemRead; FileSystemWrite; FileSystemDelete]) l;
  grow_ex : ∃ l, lp_Executables res' = lp_Executables res ++ l;
  grow_net : ∃ l, lp_Network res' = lp_Network res ++ l;
  grow_dyn : lp_HasDynamic res = true → lp_HasDynamic res' = true
}.

#[export] Instance grows_preorder : PreOrder grows.
Proof.
  split.
  - intros res. split; [..|done]; exists []; rewrite ?app_nil_r; done.
  - intros r1 r2 r3 [(a & Ha & Fa) (b & Hb) (c & Hc) Hd] [(a' & Ha' & Fa') (b' & Hb') (c' & Hc') Hd'].
    split; [..|auto].
    + exists (a ++ a'). rewrite Ha', Ha, app_assoc. split; [done|by apply Forall_app].
    + exists (b ++ b'). by rewrite Hb', Hb, app_assoc.
    + exists (c ++ c'). by rewrite Hc', Hc, app_assoc.
Qed.

Lemma grows_dynamic res : grows res (set_dynamic res).
Proof. split; cbn; [exists []|exists []|exists []|done]; by rewrite app_nil_r. Qed.

Lemma grows_exec b args res : grows res (add_exec b args res).
Proof. split; cbn; [exists []; by rewrite app_nil_r|by eexists|exists []; by rewrite app_nil_r|done]. Qed.

Lemma grows_files a paths res :
  a ∈ [FileSystemRead; FileSystemWrite; FileSystemDelete] → grows res (add_files a paths res).
Proof.
  intros Ha. split; cbn; [eexists|exists []; by rewrite app_nil_r|exists []; by rewrite app_nil_r|done].
  split; [done|]. apply Forall_fmap, Forall_true. done.
Qed.

Lemma grows_network h res : grows res (add_network h res).
Proof. split; cbn; [exists []; by rewrite app_nil_r|exists []; by rewrite app_nil_r|by eexists|done]. Qed.

Lemma grows_reads ps res : grows res (addReads ps res).
Proof. apply grows_files. by left. Qed.
Lemma grows_writes ps res : grows res (addWrites ps res).
Proof. apply grows_files. by right; left. Qed.
Lemma grows_deletes ps res : grows res (addDeletes ps res).
Proof. apply grows_files. by right; right; left. Qed.

Lemma grows_carry p res : grows res (carry_write p res).
Proof. unfold carry_write. case_match; [reflexivity|apply grows_writes]. Qed.

Lemma grows_foldl {A} (f : LiftedPermissions → A → LiftedPermissions) l res :
  (∀ r x, grows r (f r x)) → grows res (foldl f res l).
Proof.
  intros Hf. revert res. induction l as [|x l IH]; intros res; cbn; [reflexivity|].
  etrans; [apply Hf|apply IH].
Qed.

Lemma grows_plain b args res : grows res (liftPlain b args res).
Proof.
  unfold liftPlain. etrans; [|apply grows_exec]. trans (liftOutputCarriers b args res).
  - unfold liftOutputCarriers. repeat case_bool_decide;
      repeat case_match; try reflexivity; try apply grows_carry; apply grows_foldl; intros r x;
      repeat case_match; (reflexivity || apply grows_carry).
  - generalize (liftOutputCarriers b args res) as r. intros r. unfold lift_binary.
    repeat case_bool_decide; repeat case_match; try reflexivity;
      first [apply grows_dynamic|apply grows_network|apply grows_deletes
            |etrans; [apply grows_reads|apply grows_writes]|apply grows_reads|apply grows_writes].
Qed.

Lemma grows_visit lift res n :
  (∀ argv r, grows r (lift argv r).2) → grows res (visit lift res n).
Proof.
  intros Hl. destruct n as [|args|op target|]; cbn.
  - apply grows_dynamic.
  - unfold liftCallExpr. case_bool_decide; [reflexivity|].
    destruct (literal_argv args) as [[|b rest]|]; [reflexivity| |apply grows_dynamic].
    case_bool_decide; [apply grows_dynamic|apply Hl].
  - destruct (literalWord target) as [t|]; [|reflexivity]. case_bool_decide; [reflexivity|].
    destruct op; first [apply grows_writes|apply grows_reads|reflexivity].
  - reflexivity.
Qed.

Lemma grows_shell lift depth cmd res :
  (∀ argv r, grows r (lift argv r).2) → grows res (liftShellString parse lift depth cmd res).2.
Proof.
  intros Hl. unfold liftShellString. case_bool_decide; [reflexivity|].
  destruct (_ <? _)%Z; [apply grows_dynamic|].
  destruct (parse _) as [nodes|e]; cbn; [|reflexivity].
  apply grows_foldl. intros r x. by apply grows_visit.
Qed.

Lemma grows_lift fuel depth argv res : grows res (liftCommand_fuel parse fuel depth argv res).2.
Proof.
  revert depth argv res. induction fuel as [|fuel IH]; intros depth [|b args] res; cbn [liftCommand_fuel];
    try reflexivity; destruct (_ <? _)%Z; try apply grows_dynamic;
    destruct (isOpaqueConstructor _ _); cbn [snd];
    try (etrans; [apply grows_dynamic|apply grows_exec]); try reflexivity.
  destruct (if isShellBinary _ then _ else None) as [cmd|].
  - etrans; [apply grows_exec|]. apply grows_shell. intros. apply IH.
  - destruct (stripArgvWrapper _ _) as [inner|]; cbn [snd]; [|apply grows_plain].
    etrans; [apply grows_exec|apply IH].
Qed.

(** ** Termination *)
Lemma liftShellString_ext f g depth cmd res :
  (∀ argv r, f argv r = g argv r) → liftShellString parse f depth cmd res = liftShellString parse g depth cmd res.
Proof.
  intros Hfg. unfold liftShellString. case_bool_decide; [done|]. destruct (_ <? _)%Z; [done|].
  destruct (parse _) as [nodes|]; [|done]. f_equal. revert res.
  induction nodes as [|n nodes IH]; intros res; cbn; [done|].
  assert (visit f res n = visit g res n) as ->; [|apply IH].
  destruct n as [|args| |]; cbn; [done| |done..]. unfold liftCallExpr. case_bool_decide; [done|].
  destruct (literal_argv args) as [[|b rest]|]; [done| |done]. case_bool_decide; [done|]. by rewrite Hfg.
Qed.

(** Any fuel above the number of levels left gives the same result. *)
Lemma lift_fuel fuel fuel' depth argv res :
  (maxUnwrapDepth + 1 - depth <= Z.of_nat fuel)%Z → (maxUnwrapDepth + 1 - depth <= Z.of_nat fuel')%Z →
  liftCommand_fuel parse fuel depth argv res = liftCommand_fuel parse fuel' depth argv res.
Proof.
  revert fuel' depth argv res. induction fuel as [|fuel IH]; intros fuel' depth [|b args] res Hf Hf';
    [by destruct fuel'| |by destruct fuel'|].
  - assert ((maxUnwrapDepth <? depth)%Z = true) as Hd by (apply Z.ltb_lt; lia).
    destruct fuel'; cbn [liftCommand_fuel]; by rewrite Hd.
  - destruct fuel' as [|fuel'].
    { assert ((maxUnwrapDepth <? depth)%Z = true) as Hd by (apply Z.ltb_lt; lia).
      cbn [liftCommand_fuel]. by rewrite Hd. }
    cbn [liftCommand_fuel]. destruct (maxUnwrapDepth <? depth)%Z; [done|].
    destruct (isOpaqueConstructor _ _); [done|]. destruct (if isShellBinary _ then _ else None) as [cmd|].
    + apply liftShellString_ext. intros argv r. apply IH; lia.
    + destruct (stripArgvWrapper _ _); [|done]. apply IH; lia.
Qed.

(** The equation of the source's recursion, with no fuel in sight. *)
Lemma liftCommand_eq b args res depth :
  liftCommand parse (b :: args) res depth =
  if (maxUnwrapDepth <? depth)%Z then (None, set_dynamic res)
  else
    let binary := commandBase b in
    if isOpaqueConstructor binary args then (None, add_exec binary args (set_dynamic res))
    else
      match (if isShellBinary binary then shellCommandString args else None) with
      | Some cmdStr =>
          liftShellString parse (λ argv r, liftCommand parse argv r (depth + 1)) (depth + 1) cmdStr
            (add_exec binary args res)
      | None =>
          match stripArgvWrapper binary args with
          | Some inner => liftCommand parse inner (add_exec binary args res) (depth + 1)
          | None => (None, liftPlain binary args res)
          end
      end.
Proof.
  unfold liftCommand. destruct (maxUnwrapDepth <? depth)%Z eqn:Hd.
  { destruct (Z.to_nat _); cbn [liftCommand_fuel]; by rewrite Hd. }
  apply Z.ltb_ge in Hd. destruct (Z.to_nat (maxUnwrapDepth + 1 - depth)) as [|n] eqn:Hn; [lia|].
  cbn [liftCommand_fuel]. rewrite (proj2 (Z.ltb_ge maxUnwrapDepth depth)) by done. cbv zeta.
  destruct (isOpaqueConstructor _ _); [done|]. destruct (if isShellBinary _ then _ else None) as [cmd|].
  - apply liftShellString_ext. intros argv r. apply lift_fuel; lia.
  - destruct (stripArgvWrapper _ _); [|done]. apply lift_fuel; lia.
Qed.

Lemma add_exec_in b args res :
  {| ex_Binary := b; ex_Args := args; ex_Env := []; ex_HITLRequired := false |} ∈ lp_Executables (add_exec b args res).
Proof. cbn. apply elem_of_app. right. by left. Qed.

Lemma grows_in p res res' : grows res res' → p ∈ lp_Executables res → p ∈ lp_Executables res'.
Proof. intros [_ (l & ->) _ _] Hp. apply elem_of_app. by left. Qed.

(** Lifting never loses the command itself.  Whatever the parser does, lifting
    an argument vector within the depth bound records the command's own binary
    with its arguments among the executables, keeps everything recorded before,
    asks for file actions of read, write and delete only, and past the bound it
    marks the command dynamic. *)
Theorem lift_covers_command b args res depth e res' :
  liftCommand parse (b :: args) res depth = (e, res') →
  grows res res' ∧
  if (maxUnwrapDepth <? depth)%Z then e = None ∧ lp_HasDynamic res' = true
  else {| ex_Binary := commandBase b; ex_Args := args; ex_Env := []; ex_HITLRequired := false |}
         ∈ lp_Executables res'.
Proof.
  intros Hl. split.
  { change res' with (e, res').2. rewrite <- Hl. apply grows_lift. }
  rewrite liftCommand_eq in Hl. destruct (maxUnwrapDepth <? depth)%Z; [by simplify_eq|]. cbv zeta in Hl.
  destruct (isOpaqueConstructor _ _); [simplify_eq; apply add_exec_in|].
  destruct (if isShellBinary _ then _ else None) as [cmd|].
  - eapply grows_in, add_exec_in. change res' with (e, res').2. rewrite <- Hl.
    apply grows_shell. intros. apply grows_lift.
  - destruct (stripArgvWrapper _ _) as [inner|]; [|simplify_eq; apply add_exec_in].
    eapply grows_in, add_exec_in. change res' with (e, res').2. rewrite <- Hl. apply grows_lift.
Qed.
End lifting.

(** ** Authorization *)
Section safety.
Context {H L : Type} (P : Ports (H := H) (L := L)).
Context (parse : string → result (list node)) (resolve_host : string → result Target).
Abbreviation World := (World (H := H) (L := L)).
Implicit Types w : World.

Lemma se_wrap_ok {A} prefix (m : SE World A) w a w' : se_wrap prefix m w = (Ok a, w') → m w = (Ok a, w').
Proof. unfold se_wrap. by destruct (m w) as [[]]. Qed.

Lemma keeps_wrap {A} prefix (m : SE World A) : keeps m → keeps (se_wrap prefix m).
Proof.
  intros Hm w r w' Hok. unfold se_wrap. destruct (m w) as [[a|e] w1] eqn:Hr; intros [= <- <-]; by eapply Hm.
Qed.

(** A loop that succeeds ran every element, each in a good state. *)
Lemma each_ok {A} (f : A → SE World unit) l w w' :
  (∀ x, x ∈ l → keeps (f x)) → manager_ok (pm w) → each f l w = (Ok (), w') →
  manager_ok (pm w') ∧ ∀ x, x ∈ l → ∃ w1 w2, manager_ok (pm w1) ∧ f x w1 = (Ok (), w2).
Proof.
  revert w. induction l as [|x l IH]; intros w Hk Hok; cbn.
  { intros [= <-]. split; [done|]. intros x Hx. by apply elem_of_nil in Hx. }
  intros ([] & w1 & Hx & Hl)%se_bind_ok.
  assert (manager_ok (pm w1)) as Hok1 by (eapply Hk; [by left|done..]).
  destruct (IH w1) as [Hok' Hall]; [|done..|].
  - intros y Hy. apply Hk. by right.
  - split; [done|]. intros y [->|Hy]%elem_of_cons; eauto.
Qed.

(** Some run of [c] from a good state succeeds. *)
Definition passed {A} (c : SE World A) : Prop := ∃ w1 a w2, manager_ok (pm w1) ∧ c w1 = (Ok a, w2).

Lemma keeps_check_exec agentID b args env : keeps (CheckExecutable P agentID b args env).
Proof.
  intros w r w' Hok Hr. eapply pm_step_ok; [done|]. by eapply step_exec.
Qed.

(** The executables: every key not seen before was checked, with the base
    command's own arguments and environment when it is the base binary. *)
Lemma check_execs_ok agentID bb ba be seen l w seen' w' :
  manager_ok (pm w) → check_execs P agentID bb ba be seen l w = (Ok seen', w') →
  manager_ok (pm w') ∧ seen ⊆ seen' ∧
  (∀ p, p ∈ l → exec_key (ex_Binary p) (ex_Args p) ∈ seen') ∧
  (∀ p, p ∈ l → exec_key (ex_Binary p) (ex_Args p) ∉ seen →
     ∃ q, q ∈ l ∧ exec_key (ex_Binary q) (ex_Args q) = exec_key (ex_Binary p) (ex_Args p) ∧
       passed (CheckExecutable P agentID (ex_Binary q)
         (if bool_decide (ex_Binary q = bb) then ba else ex_Args q)
         (if bool_decide (ex_Binary q = bb) then be else []))).
Proof.
  revert seen w. induction l as [|p l IH]; intros seen w Hok; cbn.
  { intros [= <- <-]. split_and!; [done|done|intros p Hp; by apply elem_of_nil in Hp..]. }
  case_bool_decide as Hin.
  - intros (Hok' & Hsub & Hall & Hpass)%IH; [|done]. split_and!; [done|done|..].
    + intros q [->|Hq]%elem_of_cons; auto.
    + intros q [->|Hq]%elem_of_cons Hn; [done|].
      destruct (Hpass q Hq Hn) as (x & Hx & He & Hp). exists x. split_and!; [by right|done..].
  - intros ([] & w1 & Hc%se_wrap_ok & Hrest)%se_bind_ok.
    assert (manager_ok (pm w1)) as Hok1 by by eapply keeps_check_exec.
    apply IH in Hrest as (Hok' & Hsub & Hall & Hpass); [|done].
    assert (∀ q, exec_key (ex_Binary q) (ex_Args q) = exec_key (ex_Binary p) (ex_Args p) →
      ∃ x, x ∈ p :: l ∧ exec_key (ex_Binary x) (ex_Args x) = exec_key (ex_Binary q) (ex_Args q) ∧
        passed (CheckExecutable P agentID (ex_Binary x)
          (if bool_decide (ex_Binary x = bb) then ba else ex_Args x)
          (if bool_decide (ex_Binary x = bb) then be else []))) as Hthis.
    { intros q Hq. exists p. split_and!; [by left|done|]. by exists w, (), w1. }
    split_and!; [done|set_solver|..].
    + intros q [->|Hq]%elem_of_cons; [set_solver|auto].
    + intros q [->|Hq]%elem_of_cons Hn; [by apply Hthis|].
      destruct (decide (exec_key (ex_Binary q) (ex_Args q) = exec_key (ex_Binary p) (ex_Args p))) as [He|Hne];
        [by apply Hthis|].
      destruct (Hpass q Hq) as (x & Hx & He & Hp); [set_solver|]. exists x. split_and!; [by right|done..].
Qed.

Definition file_actions_known (lifted : LiftedPermissions) : Prop :=
  ∀ p, p ∈ lp_FileSystem lifted → fs_Action p ∈ fs_actions.

Lemma lifted_actions argv e lifted :
  liftCommand parse argv lp_empty 0 = (e, lifted) → file_actions_known lifted.
Proof.
  intros Hl p Hp. destruct (grows_lift parse (Z.to_nat (maxUnwrapDepth + 1 - 0)) 0 argv lp_empty)
    as [(l & Hfs & Hall) _ _ _]. unfold liftCommand in Hl. rewrite Hl in Hfs. cbn in Hfs. rewrite Hfs in Hp.
  eapply Forall_forall in Hall; [|done]. revert Hall. unfold fs_actions. set_solver.
Qed.

(** What [checkLifted] has checked when it succeeds. *)
Record all_passed (agentID base : string) (args env : list string) (lifted : LiftedPermissions) : Prop := {
  passed_files p : p ∈ lp_FileSystem lifted → passed (CheckFileAccess P agentID (fs_Action p) (fs_Path p));
  passed_net p : p ∈ lp_Network lifted → ∃ target, resolve_host (np_Host p) = Ok target ∧
    passed (CheckNetwork P agentID (np_Direction p) (np_Protocol p) target (np_Port p));
  passed_execs p : p ∈ lp_Executables lifted → ∃ q, q ∈ lp_Executables lifted ∧
    exec_key (ex_Binary q) (ex_Args q) = exec_key (ex_Binary p) (ex_Args p) ∧
    passed (CheckExecutable P agentID (ex_Binary q)
      (if bool_decide (ex_Binary q = base) then args else ex_Args q)
      (if bool_decide (ex_Binary q = base) then env else []))
}.

Lemma check_lifted_ok agentID base args env lifted w w' :
  manager_ok (pm w) → file_actions_known lifted →
  checkLifted P resolve_host agentID base args env lifted w = (Ok (), w') →
  manager_ok (pm w') ∧ all_passed agentID base args env lifted.
Proof.
  intros Hok Hk. unfold checkLifted.
  intros ([] & w1 & Hf & ([] & w2 & Hn & (seen & w3 & He & Hb)%se_bind_ok)%se_bind_ok)%se_bind_ok.
  apply each_ok in Hf as [Hok1 Hfiles]; [|intros p Hp; apply keeps_wrap, keeps_file; auto|done].
  apply each_ok in Hn as [Hok2 Hnets]; [| |done].
  2:{ intros p _. unfold check_net. destruct (resolve_host _); [|apply keeps_err].
      apply keeps_wrap. intros x r x' Hx Hr. eapply (pm_step_ok P); [done|]. by eapply step_net. }
  apply check_execs_ok in He as (Hok3 & _ & _ & Hexecs); [|done]. split.
  { case_bool_decide; [unfold se_ret in Hb; by simplify_eq|]. by eapply keeps_check_exec. }
  split.
  - intros p Hp. destruct (Hfiles p Hp) as (x & x' & Hx & Hr%se_wrap_ok). by exists x, (), x'.
  - intros p Hp. destruct (Hnets p Hp) as (x & x' & Hx & Hr). revert Hr. unfold check_net.
    destruct (resolve_host (np_Host p)) as [target|]; [|done]. intros Hr%se_wrap_ok.
    exists target. split; [done|]. by exists x, (), x'.
  - intros p Hp. apply Hexecs; [done|set_solver].
Qed.

Lemma event_frame b agentID kind command wrapper depth reason w r w' :
  emitCommandEvent b agentID kind command wrapper depth reason w = (r, w') →
  r = Ok () ∧ pm w' = pm w ∧ hitl_st w' = hitl_st w.
Proof. unfold emitCommandEvent. destruct b; by intros [= <- <-]. Qed.

Lemma steps_frame b agentID command steps w r w' :
  emitUnwrapSteps b agentID command steps w = (r, w') →
  r = Ok () ∧ pm w' = pm w ∧ hitl_st w' = hitl_st w.
Proof.
  unfold emitUnwrapSteps. revert w. induction steps as [|s steps IH]; intros w; cbn; [by intros [= <- <-]|].
  intros [([] & w1 & (_ & <- & <-)%event_frame & Hr)|(e & (? & _)%event_frame & _)]%se_bind_inv; [|done].
  by apply IH in Hr.
Qed.

Lemma consent_frame key w w' : pm w' = pm w → hitl_st w' = hitl_st w → consent P key w' → consent P key w.
Proof. unfold consent. by intros -> ->. Qed.

(** The grant key of a command approval. *)
Definition command_key (command : string) : string := commandApprovalAction +:+ ":" +:+ command.

Lemma command_approval agentID command just w w' :
  manager_ok (pm w) → requireCommandApproval P true agentID command just w = (Ok (), w') →
  consent P (command_key command) w.
Proof. intros Hok Hr. unfold requireCommandApproval in Hr. eapply approval_consent in Hr; [done|apply Hok]. Qed.

(** The command line the patterns and the approval are about. *)
Definition command_line (req : CommandAuthorizationRequest) : string :=
  trim_space (join_with " " (Command req)).

Definition analysed (req : CommandAuthorizationRequest) (lifted : LiftedPermissions) : Prop :=
  liftCommand parse (Command req) lp_empty 0 = (None, lifted) ∧ lp_HasDynamic lifted = false ∧
  (UnwrapCommand (Command req)).2 = false.

End safety.

(** ** What lifting does not see *)
Section blind.
Context (parse : string → result (list node)).

(** A [-c] script of a shell. *)
Lemma lift_script sh cmd res depth nodes :
  sh ∈ ["sh"; "bash"] → (depth + 1 <= maxUnwrapDepth)%Z → trim_space cmd ≠ EmptyString →
  parse (trim_space cmd) = nodes →
  liftCommand parse [sh; "-c"; cmd] res depth =
  match nodes with
  | Err e => (Some e, add_exec sh ["-c"; cmd] res)
  | Ok nodes => (None, foldl (visit (λ argv r, liftCommand parse argv r (depth + 1)))
                         (add_exec sh ["-c"; cmd] res) nodes)
  end.
Proof.
  intros Hsh Hd Hne Hp. rewrite liftCommand_eq. rewrite (proj2 (Z.ltb_ge maxUnwrapDepth depth)) by lia.
  trans (liftShellString parse (λ argv r, liftCommand parse argv r (depth + 1)) (depth + 1) cmd
    (add_exec sh ["-c"; cmd] res)).
  - rewrite !elem_of_cons, elem_of_nil in Hsh. by destruct Hsh as [->|[->|[]]].
  - unfold liftShellString. rewrite bool_decide_false by done.
    rewrite (proj2 (Z.ltb_ge maxUnwrapDepth (depth + 1))) by lia. by rewrite Hp.
Qed.

(** A redirection to a target that is not literal is not lifted and does not
    mark the command dynamic, whatever the operator: a shell script that writes to
    an expanded path asks for the shell and the inner command only. *)
Theorem dynamic_redirect_unseen cmd op target inner b rest :
  trim_space cmd ≠ EmptyString →
  parse (trim_space cmd) = Ok [CallExpr inner; Redirect op target] →
  literal_argv inner = Some (b :: rest) → b ≠ EmptyString → literalWord target = None →
  liftCommand parse ["bash"; "-c"; cmd] lp_empty 0 =
  (None, (liftCommand parse (b :: rest) (add_exec "bash" ["-c"; cmd] lp_empty) 1).2).
Proof.
  intros Hne Hp Hi Hb Ht. rewrite (lift_script "bash" cmd _ 0 _ ltac:(set_solver) ltac:(unfold maxUnwrapDepth; lia) Hne Hp).
  cbn [foldl visit]. rewrite Ht. unfold liftCallExpr.
  rewrite bool_decide_false, Hi, bool_decide_false; [done|done|]. by intros ->.
Qed.

(** A parse error inside a nested shell is swallowed: the command is neither
    reported as unparsable nor marked dynamic, and nothing of the nested script is
    lifted. *)
Theorem nested_parse_error_swallowed cmd bad e :
  trim_space cmd ≠ EmptyString → trim_space bad ≠ EmptyString →
  parse (trim_space cmd) = Ok [CallExpr [[Lit "sh"]; [Lit "-c"]; [SglQuoted false bad]]] →
  parse (trim_space bad) = Err e →
  liftCommand parse ["bash"; "-c"; cmd] lp_empty 0 =
  (None, add_exec "sh" ["-c"; bad] (add_exec "bash" ["-c"; cmd] lp_empty)).
Proof.
  intros Hne Hnb Hp Hbad. rewrite (lift_script "bash" cmd _ 0 _ ltac:(set_solver) ltac:(unfold maxUnwrapDepth; lia) Hne Hp).
  cbn [foldl visit]. unfold liftCallExpr. rewrite bool_decide_false by done.
  assert (literal_argv [[Lit "sh"]; [Lit "-c"]; [SglQuoted false bad]] = Some ["sh"; "-c"; bad]) as ->.
  { cbn. by rewrite !str_app_nil_r. }
  rewrite bool_decide_false by done.
  by rewrite (lift_script "sh" bad _ (0 + 1) _ ltac:(set_solver) ltac:(unfold maxUnwrapDepth; lia) Hnb Hbad).
Qed.

(** [env -S] hides a command: the argument of the split flag is skipped, so only
    [env] itself is lifted and nothing is marked dynamic. *)
Theorem env_split_string_unseen cmd :
  UnwrapCommand ["env"; "-S"; cmd] = ([], [], false) ∧
  liftCommand parse ["env"; "-S"; cmd] lp_empty 0 = (None, add_exec "env" ["-S"; cmd] lp_empty).
Proof. split; reflexivity. Qed.
End blind.
