(* ===== verification/NetPolicy.v ===== *)
(** * NetPolicy

    [governance/netpolicy]: classification of addresses and host tokens (host.go)
    and the resolution policy with its cache (resolve.go).

    A [net.IP] is a 16-byte address as a number; an IPv4 address is its mapped form
    [::ffff:a.b.c.d], which is what [net.IPv4] builds and what every predicate of
    the package converts back with [To4].  [None] is the nil address.  The DNS
    lookup is a parameter. *)
From S2P Require Import Prelude GoStrings GoTime Policy Glob GoPath Bounded Permissions.
From stdpp Require Import pretty.

(** ** Classes *)
Definition ClassLoopback : string := "loopback".
Definition ClassLinkLocal : string := "link-local".
Definition ClassPrivate : string := "private".
Definition ClassUnspecified : string := "unspecified".
Definition ClassReserved : string := "reserved".

Definition classSeverity (c : string) : Z :=
  if bool_decide (c = ClassPublic) then 0
  else if bool_decide (c = ClassReserved) then 1
  else if bool_decide (c = ClassPrivate) then 2
  else if bool_decide (c = ClassUnspecified) then 3
  else if bool_decide (c = ClassLinkLocal) then 4
  else if bool_decide (c = ClassLoopback) then 5
  else 0.

(** ** [net.IP] *)
Definition IP : Type := Z.

Definition mapped (v : Z) : IP := (65535 * 2 ^ 32 + v)%Z.
Definition To4 (ip : IP) : option Z :=
  if (Z.shiftr ip 32 =? 65535)%Z then Some (Z.land ip (Z.ones 32)) else None.

(** Byte [i] of a 4-byte and of a 16-byte address. *)
Definition byte4 (v : Z) (i : Z) : Z := Z.land (Z.shiftr v (8 * (3 - i))) 255.
Definition byte16 (ip : IP) (i : Z) : Z := Z.land (Z.shiftr ip (8 * (15 - i))) 255.

Definition IsUnspecified (ip : IP) : bool :=
  bool_decide (To4 ip = Some 0%Z) || (ip =? 0)%Z.
Definition IsLoopback (ip : IP) : bool :=
  match To4 ip with Some v => (byte4 v 0 =? 127)%Z | None => (ip =? 1)%Z end.
Definition IsLinkLocalUnicast (ip : IP) : bool :=
  match To4 ip with
  | Some v => (byte4 v 0 =? 169)%Z && (byte4 v 1 =? 254)%Z
  | None => (byte16 ip 0 =? 254)%Z && (Z.land (byte16 ip 1) 192 =? 128)%Z
  end.
Definition IsLinkLocalMulticast (ip : IP) : bool :=
  match To4 ip with
  | Some v => (byte4 v 0 =? 224)%Z && (byte4 v 1 =? 0)%Z && (byte4 v 2 =? 0)%Z
  | None => (byte16 ip 0 =? 255)%Z && (Z.land (byte16 ip 1) 15 =? 2)%Z
  end.
Definition IsPrivate (ip : IP) : bool :=
  match To4 ip with
  | Some v => (byte4 v 0 =? 10)%Z || ((byte4 v 0 =? 172)%Z && (Z.land (byte4 v 1) 240 =? 16)%Z) ||
              ((byte4 v 0 =? 192)%Z && (byte4 v 1 =? 168)%Z)
  | None => (Z.land (byte16 ip 0) 254 =? 252)%Z
  end.

(** [net.IPNet]: an IPv4 or an IPv6 prefix of a given length. *)
Inductive IPNet :=
| Net4 (base : Z) (len : Z)
| Net6 (base : Z) (len : Z).

Definition Contains (n : IPNet) (ip : IP) : bool :=
  match n, To4 ip with
  | Net4 base len, Some v => (Z.shiftr v (32 - len) =? Z.shiftr base (32 - len))%Z
  | Net6 base len, None => (Z.shiftr ip (128 - len) =? Z.shiftr base (128 - len))%Z
  | _, _ => false
  end.

Definition quad (a b c d : Z) : Z := (((a * 256 + b) * 256 + c) * 256 + d)%Z.

Definition unspecifiedBlocks : list IPNet := [Net4 (quad 0 0 0 0) 8].
Definition reservedBlocks : list IPNet :=
  [Net4 (quad 100 64 0 0) 10; Net4 (quad 192 0 0 0) 24; Net4 (quad 192 0 2 0) 24;
   Net4 (quad 198 18 0 0) 15; Net4 (quad 198 51 100 0) 24; Net4 (quad 203 0 113 0) 24;
   Net4 (quad 224 0 0 0) 4; Net4 (quad 240 0 0 0) 4;
   Net6 (0x20010db8 * 2 ^ 96) 32; Net6 (0xff00 * 2 ^ 112) 8].

Definition ClassifyIP (ip : option IP) : string :=
  match ip with
  | None => ClassUnspecified
  | Some ip =>
      if IsUnspecified ip then ClassUnspecified
      else if IsLoopback ip then ClassLoopback
      else if IsLinkLocalUnicast ip || IsLinkLocalMulticast ip then ClassLinkLocal
      else if IsPrivate ip then ClassPrivate
      else if existsb (λ b, Contains b ip) unspecifiedBlocks then ClassUnspecified
      else if existsb (λ b, Contains b ip) reservedBlocks then ClassReserved
      else ClassPublic
  end.

Definition classifyIPv4 (v : Z) : string :=
  if (v =? 0)%Z || (Z.shiftr v 24 =? 0)%Z then ClassUnspecified
  else if (Z.shiftr v 24 =? 127)%Z then ClassLoopback
  else if (Z.shiftr v 16 =? 0xa9fe)%Z || (Z.land v 0xffffff00 =? 0xe0000000)%Z then ClassLinkLocal
  else if (Z.land v 0xff000000 =? 0x0a000000)%Z || (Z.land v 0xfff00000 =? 0xac100000)%Z ||
          (Z.land v 0xffff0000 =? 0xc0a80000)%Z then ClassPrivate
  else if (Z.land v 0xffc00000 =? 0x64400000)%Z || (Z.land v 0xffffff00 =? 0xc0000000)%Z ||
          (Z.land v 0xffffff00 =? 0xc0000200)%Z || (Z.land v 0xfffe0000 =? 0xc6120000)%Z ||
          (Z.land v 0xffffff00 =? 0xc6336400)%Z || (Z.land v 0xffffff00 =? 0xcb007100)%Z ||
          (Z.land v 0xf0000000 =? 0xe0000000)%Z || (Z.land v 0xf0000000 =? 0xf0000000)%Z then ClassReserved
  else ClassPublic.

(** ** Numeric forms *)
Definition digitValue (c : ascii) (base : Z) : option Z :=
  let n := byte_of c in
  let d := if (48 <=? n)%Z && (n <=? 57)%Z then Some (n - 48)%Z
           else if (base =? 16)%Z && (97 <=? n)%Z && (n <=? 102)%Z then Some (n - 97 + 10)%Z
           else if (base =? 16)%Z && (65 <=? n)%Z && (n <=? 70)%Z then Some (n - 65 + 10)%Z
           else None in
  match d with Some d => if (base <=? d)%Z then None else Some d | None => None end.

(** The accumulation loop, with its overflow test. *)
Fixpoint numeric_loop (base : Z) (s : string) (v : Z) : option Z :=
  match s with
  | EmptyString => Some v
  | String c s' =>
      d ← digitValue c base;
      let v := (v * base + d)%Z in
      if (0xffffffff <? v)%Z then None else numeric_loop base s' v
  end.

Definition parseNumericPart (s : string) : option Z :=
  let '(base, digits) :=
    match s with
    | String "0" (String ("x" | "X") (String _ _ as d)) => (16%Z, d)
    | String "0" (String _ _ as d) => (8%Z, d)
    | _ => (10%Z, s)
    end in
  if bool_decide (digits = EmptyString) then None else numeric_loop base digits 0.

(** [strings.Split] at one byte; never empty. *)
Fixpoint split_on (c : ascii) (s : string) : list string :=
  match s with
  | EmptyString => [EmptyString]
  | String a s' =>
      if bool_decide (a = c) then EmptyString :: split_on c s'
      else match split_on c s' with
           | [] => [String a EmptyString]
           | w :: ws => String a w :: ws
           end
  end.

Definition parseInetAtonU32 (token : string) : option Z :=
  vals ← mapM parseNumericPart (split_on "."%char token);
  let n := Z.of_nat (length vals) in
  if (4 <? n)%Z then None
  else
    let init := removelast vals in
    let fin := from_option id 0%Z (last vals) in
    if existsb (λ v, 0xff <? v)%Z init then None
    else
      let shift := (8 * (5 - n))%Z in
      if (Z.shiftl 1 shift <=? fin)%Z then None
      else Some (Z.lor (Z.shiftl (foldl (λ v x, Z.lor (Z.shiftl v 8) x) 0%Z init) shift) fin).

Definition parseInetAton (token : string) : option IP := mapped <$> parseInetAtonU32 token.

(** ** [net.ParseIP] *)

(** One decimal field of a dotted quad: no leading zero, at most 255. *)
Fixpoint octet_loop (s : string) (first : bool) (v : Z) : option Z :=
  match s with
  | EmptyString => Some v
  | String c s' =>
      d ← digitValue c 10;
      if negb first && (v =? 0)%Z then None
      else let v := (v * 10 + d)%Z in
           if (255 <? v)%Z then None else octet_loop s' false v
  end.

Definition octet (s : string) : option Z :=
  if bool_decide (s = EmptyString) then None else octet_loop s true 0.

Definition parseIPv4 (s : string) : option Z :=
  fields ← mapM octet (split_on "."%char s);
  match fields with
  | [a; b; c; d] => Some (quad a b c d)
  | _ => None
  end.

(** The hexadecimal digits at the head of [s]: how many, their value and the rest;
    a fifth digit is an error. *)
Fixpoint hex_run (off : nat) (acc : Z) (s : string) : option (nat * Z * string) :=
  match s with
  | EmptyString => Some (off, acc, EmptyString)
  | String c s' =>
      match digitValue c 16 with
      | Some d => if bool_decide (3 < off) then None else hex_run (S off) (acc * 16 + d) s'
      | None => Some (off, acc, s)
      end
  end.

(** The group loop; [fuel] is the number of 16-bit groups still free, which is the
    loop's own bound. *)
Fixpoint groups (fuel : nat) (words : list Z) (ellipsis : option nat) (s : string)
    : option (list Z * option nat * string) :=
  match fuel with
  | O => Some (words, ellipsis, s)
  | S fuel =>
      '(off, acc, rest) ← hex_run 0 0 s;
      if bool_decide (off = 0) then None
      else match rest with
           | String "." _ =>
               if bool_decide (ellipsis = None) && negb (bool_decide (length words = 6)) then None
               else if bool_decide (8 < length words + 2) then None
               else v ← parseIPv4 s;
                    Some (words ++ [Z.shiftr v 16; Z.land v 65535], ellipsis, EmptyString)
           | EmptyString => Some (words ++ [acc], ellipsis, EmptyString)
           | String ":" EmptyString => None
           | String ":" (String ":" s') =>
               match ellipsis with
               | Some _ => None
               | None =>
                   let words := words ++ [acc] in
                   if bool_decide (s' = EmptyString) then Some (words, Some (length words), EmptyString)
                   else groups fuel words (Some (length words)) s'
               end
           | String ":" s' => groups fuel (words ++ [acc]) ellipsis s'
           | _ => None
           end
  end.

Definition words_value (ws : list Z) : IP := foldl (λ v w, v * 65536 + w)%Z 0%Z ws.

Definition expand (r : list Z * option nat * string) : option IP :=
  let '(words, ellipsis, rest) := r in
  if negb (bool_decide (rest = EmptyString)) then None
  else if bool_decide (length words < 8) then
    e ← ellipsis;
    Some (words_value (take e words ++ replicate (8 - length words) 0%Z ++ drop e words))
  else match ellipsis with None => Some (words_value words) | Some _ => None end.

Definition parseIPv6 (s : string) : option IP :=
  match s with
  | String ":" (String ":" EmptyString) => Some 0%Z
  | String ":" (String ":" s') => r ← groups 8 [] (Some 0) s'; expand r
  | _ => r ← groups 8 [] None s; expand r
  end.

(** The first of [.], [:] and [%] decides the syntax; a zone is refused. *)
Fixpoint addr_kind (s : string) : option ascii :=
  match s with
  | EmptyString => None
  | String c s' =>
      if bool_decide (c = "."%char) || bool_decide (c = ":"%char) || bool_decide (c = "%"%char)
      then Some c else addr_kind s'
  end.

Definition ParseIP (s : string) : option IP :=
  match addr_kind s with
  | Some "."%char => mapped <$> parseIPv4 s
  | Some ":"%char => if contains_byte "%" s then None else parseIPv6 s
  | _ => None
  end.

(** ** Host tokens *)
Definition zone_char (a : ascii) : bool :=
  in_range 97 122 a || in_range 65 90 a || in_range 48 57 a ||
  bool_decide (a = "_"%char) || bool_decide (a = "-"%char) || bool_decide (a = "."%char).

Definition validZone (s : string) : bool :=
  negb (bool_decide (s = EmptyString)) && forallb zone_char (String.list_ascii_of_string s).

(** The preparation [ClassifyToken] and [ParseHostToken] share word for word: white
    space, brackets, zone, and the characters no host token has. *)
Definition bare_token (token : string) : option string :=
  let token := trim_space token in
  if bool_decide (token = EmptyString) then None
  else
    token ← (if has_prefix "[" token
             then if negb (has_suffix "]" token) || bool_decide (String.length token < 2) then None
                  else Some (str_take (String.length token - 2) (str_drop 1 token))
             else Some token);
    token ← (match last_index "%" token with
             | Some i => if negb (validZone (str_drop (i + 1) token)) then None
                         else Some (str_take i token)
             | None => Some token
             end);
    if contains_byte "/" token || contains_byte "-" token then None else Some token.

Definition ClassifyToken (token : string) : option string :=
  token ← bare_token token;
  match (if contains token ":" then None else parseInetAtonU32 token) with
  | Some v => Some (classifyIPv4 v)
  | None => ip ← ParseIP token; Some (ClassifyIP (Some ip))
  end.

Definition ParseHostToken (token : string) : option IP :=
  token ← bare_token token;
  match (if contains token ":" then None else parseInetAton token) with
  | Some ip => Some ip
  | None => ParseIP token
  end.

(** ** Spot checks against the documented spellings *)
Example spellings :
  ParseHostToken <$> ["127.1"; "2130706433"; "0x7f000001"; "0177.0.0.1"; "::ffff:127.0.0.1"; " 127.0.0.1 "]
  = replicate 6 (Some (mapped (quad 127 0 0 1))).
Proof. vm_compute. reflexivity. Qed.

Example tokens_v6 :
  ParseHostToken <$> ["[::1]"; "fe80::1%eth0"; "::"; "1:2:3:4:5:6:7:8"; "1::2::3"; "1:2:3:4:5:6:7"; "12345::"; "fe80::1%a%b"; "08.0.0.1"; "a.b"; "10.0.0.0/8"; "::1:"]
  = [Some 1%Z; Some (0xfe80 * 2 ^ 112 + 1)%Z; Some 0%Z; Some 0x00010002000300040005000600070008%Z;
     None; None; None; None; None; None; None; None].
Proof. vm_compute. reflexivity. Qed.

(** ** Resolution

    [governance/netpolicy/resolve.go]: resolution of host names with a process-wide
    cache of record sets.

    The cache is a [gmap]; every access to it runs under [cacheMu], and the lookup
    runs between two such sections, so a call is [probe], the lookup, then [settle].
    The answer of the DNS lookup and the clock are arguments of a call, the
    iteration order of the cache map in [evictOldestLocked] is a parameter. *)
Definition ErrUnresolved : gerror := ErrSentinel "host did not resolve".
Definition ErrPrivateResolved : gerror := ErrSentinel "host resolved to a non-public address".

(** [ResolvedAt] is [zero_time] where the code leaves it unset. *)
Record ResolvedHost := { rh_Token : string; rh_IPs : list (option IP); rh_ResolvedAt : Time }.

Record ResolveOptions := {
  Timeout : Duration;
  PositiveTTL : Duration;
  NegativeTTL : Duration;
  MaxCacheEntries : Z
}.

Definition DefaultResolveOptions : ResolveOptions :=
  {| Timeout := 2 * second; PositiveTTL := 60 * second; NegativeTTL := 5 * second;
     MaxCacheEntries := 4096 |}.

Definition or_default (z d : Z) : Z := if (z <=? 0)%Z then d else z.

Definition norm (o : ResolveOptions) : ResolveOptions :=
  let d := DefaultResolveOptions in
  {| Timeout := or_default (Timeout o) (Timeout d);
     PositiveTTL := or_default (PositiveTTL o) (PositiveTTL d);
     NegativeTTL := or_default (NegativeTTL o) (NegativeTTL d);
     MaxCacheEntries := or_default (MaxCacheEntries o) (MaxCacheEntries d) |}.

Record cacheEntry := { ce_ips : list (option IP); expiresAt : Time; negative : bool }.

Definition ClassifyResolved (h : ResolvedHost) : string :=
  (foldl (λ '(best, bestSeverity) ip,
            let class := ClassifyIP ip in
            let severity := classSeverity class in
            if (bestSeverity <? severity)%Z then (class, severity) else (best, bestSeverity))
         (ClassPublic, classSeverity ClassPublic) (rh_IPs h)).1.

Section resolve.
(** The order in which [range] visits a map. *)
Variable order : gmap string cacheEntry → list (string * cacheEntry).

(** The scan for the earliest expiry: the first of the least, in visit order. *)
Definition scan_oldest (l : list (string * cacheEntry)) : option (string * Time) :=
  foldl (λ best '(k, e),
           match best with
           | None => Some (k, expiresAt e)
           | Some (_, t) => if (expiresAt e <? t)%Z then Some (k, expiresAt e) else best
           end) None l.

Fixpoint evict_loop (n : nat) (c : gmap string cacheEntry) : gmap string cacheEntry :=
  match n with
  | O => c
  | S n =>
      match scan_oldest (order c) with
      | None => c
      | Some (k, _) => evict_loop n (delete k c)
      end
  end.

Definition evictOldestLocked (n : Z) (c : gmap string cacheEntry) : gmap string cacheEntry :=
  evict_loop (Z.to_nat (if (n <? 1)%Z then 1 else n)%Z) c.

Definition storeCache (key : string) (entry : cacheEntry) (maxEntries : Z) (c : gmap string cacheEntry) : gmap string cacheEntry :=
  let len := Z.of_nat (size c) in
  let c := if (maxEntries <=? len)%Z then evictOldestLocked (len / 8) c else c in
  <[key := entry]> c.

Definition graded (h : ResolvedHost) : ResolvedHost * option gerror :=
  (h, if negb (bool_decide (ClassifyResolved h = ClassPublic)) then Some ErrPrivateResolved else None).

(** [ResolveHost] up to the lookup: an answer, or nothing when the lookup is needed. *)
Definition probe (token : string) (now : Time) (c : gmap string cacheEntry) : option (ResolvedHost * option gerror) :=
  if bool_decide (token = EmptyString)
  then Some ({| rh_Token := token; rh_IPs := []; rh_ResolvedAt := zero_time |}, Some ErrUnresolved)
  else match ParseHostToken token with
       | Some ip => Some ({| rh_Token := token; rh_IPs := [Some ip]; rh_ResolvedAt := now |}, None)
       | None =>
           match c !! to_lower token with
           | Some entry =>
               if (now <? expiresAt entry)%Z then
                 if negative entry
                 then Some ({| rh_Token := token; rh_IPs := []; rh_ResolvedAt := now |}, Some ErrUnresolved)
                 else Some (graded {| rh_Token := token; rh_IPs := ce_ips entry; rh_ResolvedAt := now |})
               else None
           | None => None
           end
       end.

(** [ResolveHost] after the lookup answered.  The code prints the wrapped sentinel
    before the token; only what the error wraps is ever looked at. *)
Definition settle (opts : ResolveOptions) (token : string) (now : Time)
    (answer : result (list (option IP))) (c : gmap string cacheEntry) : (ResolvedHost * option gerror) * gmap string cacheEntry :=
  let key := to_lower token in
  let unresolved e :=
    (({| rh_Token := token; rh_IPs := []; rh_ResolvedAt := zero_time |}, Some e),
     storeCache key {| ce_ips := []; expiresAt := (now + NegativeTTL opts)%Z; negative := true |}
       (MaxCacheEntries opts) c) in
  match answer with
  | Err e => unresolved (ErrWrap (go_quote token +:+ ": " +:+ error_text e) ErrUnresolved)
  | Ok [] => unresolved (ErrWrap (go_quote token +:+ ": no records") ErrUnresolved)
  | Ok ips =>
      (graded {| rh_Token := token; rh_IPs := ips; rh_ResolvedAt := now |},
       storeCache key {| ce_ips := ips; expiresAt := (now + PositiveTTL opts)%Z; negative := false |}
         (MaxCacheEntries opts) c)
  end.

Definition ResolveHost (token : string) (opts : ResolveOptions) (now : Time)
    (answer : result (list (option IP))) (c : gmap string cacheEntry) : (ResolvedHost * option gerror) * gmap string cacheEntry :=
  let opts := norm opts in
  let token := trim_space token in
  match probe token now c with
  | Some r => (r, c)
  | None => settle opts token now answer c
  end.

Definition ResolveTarget (token : string) (opts : ResolveOptions) (now : Time)
    (answer : result (list (option IP))) (c : gmap string cacheEntry) : result Target * gmap string cacheEntry :=
  let token := trim_space token in
  match ParseHostToken token with
  | Some ip => (Ok {| Token := token; Class_ := ClassifyIP (Some ip); Literal := true |}, c)
  | None =>
      let '((h, err), c) := ResolveHost token opts now answer c in
      match err with
      | Some e =>
          if errors_is e ErrPrivateResolved
          then (Ok {| Token := token; Class_ := ClassifyResolved h; Literal := false |}, c)
          else (Err e, c)
      | None => (Ok {| Token := token; Class_ := ClassifyResolved h; Literal := false |}, c)
      end
  end.

(** [PermissionManager.ResolveTarget]. *)
Definition manager_ResolveTarget (token : string) (now : Time)
    (answer : result (list (option IP))) (c : gmap string cacheEntry) : result Target * gmap string cacheEntry :=
  ResolveTarget token DefaultResolveOptions now answer c.
End resolve.
