(* ===== verification/NetSafety.v ===== *)
(** * NetSafety

    What the network policy guarantees: the allocation-free IPv4 path agrees with
    the general classification, the classification agrees with the table of address
    blocks in the documentation, and a name is called public only on a record set
    that is public throughout. *)
From S2P Require Import Prelude GoStrings GoTime Policy Glob GoPath Bounded Permissions PermissionsSafety.
From S2P Require Import PermissionsExamples NetPolicy.
From Stdlib Require Import Lia.

(** Evaluates the powers of two with closed exponents. *)
Ltac eval_pow2 := repeat match goal with
  | |- context [(2 ^ ?e)%Z] => let r := eval vm_compute in (2 ^ e)%Z in progress change (2 ^ e)%Z with r
  | H : context [(2 ^ ?e)%Z] |- _ => let r := eval vm_compute in (2 ^ e)%Z in progress change (2 ^ e)%Z with r in H
  end.

(** ** Words as quotients *)
Lemma land_mask v k :
  (0 <= k <= 32)%Z → (0 <= v < 2 ^ 32)%Z → Z.land v (2 ^ 32 - 2 ^ k) = (2 ^ k * (v / 2 ^ k))%Z.
Proof.
  intros Hk Hv.
  assert ((2 ^ 32 - 2 ^ k)%Z = Z.shiftl (Z.ones (32 - k)) k) as ->.
  { rewrite Z.shiftl_mul_pow2, Z.ones_equiv by lia.
    replace 32%Z with ((32 - k) + k)%Z at 1 by lia. rewrite Z.pow_add_r by lia. lia. }
  rewrite <- (Z.shiftr_div_pow2 v k), (Z.mul_comm (2 ^ k)), <- (Z.shiftl_mul_pow2 _ k) by lia.
  apply Z.bits_inj'. intros i Hi.
  rewrite Z.land_spec, !Z.shiftl_spec by lia.
  destruct (Z.lt_ge_cases i k) as [Hik|Hik].
  - rewrite !(Z.testbit_neg_r _ (i - k)) by lia. apply andb_false_r.
  - rewrite Z.shiftr_spec by lia. replace (i - k + k)%Z with i by lia.
    destruct (Z.lt_ge_cases i 32).
    + rewrite Z.ones_spec_low by lia. apply andb_true_r.
    + rewrite (Z.bits_above_log2 v i); [done|lia|].
      destruct (Z.eq_dec v 0%Z) as [->|]; [cbn; lia|].
      apply Z.log2_lt_pow2; [lia|]. eapply Z.lt_le_trans; [apply Hv|]. apply Z.pow_le_mono_r; lia.
Qed.

Lemma To4_mapped v : (0 <= v < 2 ^ 32)%Z → To4 (mapped v) = Some v.
Proof.
  intros Hv. unfold To4, mapped. rewrite Z.shiftr_div_pow2, Z.land_ones by lia.
  rewrite Z.div_add_l, (Z.div_small v) by lia.
  rewrite (Z.add_comm _ v), Z.mod_add, Z.mod_small by lia. done.
Qed.

Lemma To4_Some ip v : To4 ip = Some v → ip = mapped v ∧ (0 <= v < 2 ^ 32)%Z.
Proof.
  unfold To4, mapped. rewrite Z.shiftr_div_pow2, Z.land_ones by lia.
  destruct (ip / 2 ^ 32 =? 65535)%Z eqn:E; [|done]. intros [= <-].
  pose proof (Z.div_mod ip (2 ^ 32)). pose proof (Z.mod_pos_bound ip (2 ^ 32)). lia.
Qed.

Lemma byte4_div v i : (0 <= i <= 3)%Z → byte4 v i = ((v / 2 ^ (8 * (3 - i))) mod 256)%Z.
Proof.
  intros. unfold byte4. change 255%Z with (Z.ones 8).
  by rewrite Z.land_ones, Z.shiftr_div_pow2 by lia.
Qed.

(** ** The IPv4 predicates as blocks *)
Definition inet (base len v : Z) : bool := (v / 2 ^ (32 - len) =? base / 2 ^ (32 - len))%Z.

Lemma inet_mask base len v :
  (0 <= len <= 32)%Z → (0 <= v < 2 ^ 32)%Z → base = (2 ^ (32 - len) * (base / 2 ^ (32 - len)))%Z →
  (Z.land v (2 ^ 32 - 2 ^ (32 - len)) =? base)%Z = inet base len v.
Proof.
  intros Hl Hv Hb. rewrite land_mask by lia. rewrite Hb at 1. unfold inet.
  assert (0 < 2 ^ (32 - len))%Z by (apply Z.pow_pos_nonneg; lia).
  apply eq_true_iff_eq. rewrite !Z.eqb_eq. nia.
Qed.

Lemma contains_mapped base len v :
  (0 <= len <= 32)%Z → (0 <= v < 2 ^ 32)%Z → Contains (Net4 base len) (mapped v) = inet base len v.
Proof. intros. unfold Contains, inet. by rewrite To4_mapped, !Z.shiftr_div_pow2 by lia. Qed.

(** A fact of all bytes, by evaluation. *)
Lemma all_bytes (f : Z → bool) x :
  forallb (λ n, f (Z.of_nat n)) (seq 0 256) = true → (0 <= x < 256)%Z → f x = true.
Proof.
  rewrite forallb_forall. intros H Hx. specialize (H (Z.to_nat x)).
  rewrite in_seq, Z2Nat.id in H by lia. apply H. lia.
Qed.

Lemma byte_masks x :
  (0 <= x < 256)%Z →
  Z.land x 240 = (16 * (x / 16))%Z ∧ Z.land x 192 = (64 * (x / 64))%Z ∧
  Z.land x 254 = (2 * (x / 2))%Z ∧ Z.land x 15 = (x mod 16)%Z.
Proof.
  intros Hx.
  pose proof (all_bytes (λ x, (Z.land x 240 =? 16 * (x / 16)) && ((Z.land x 192 =? 64 * (x / 64)) &&
    ((Z.land x 254 =? 2 * (x / 2)) && (Z.land x 15 =? x mod 16))))%Z x eq_refl Hx) as H.
  by rewrite !andb_true_iff, !Z.eqb_eq in H.
Qed.

(** The byte predicates of [net.IP] on a mapped address, as blocks. *)
Section v4.
Context (v : Z) (Hv : (0 <= v < 2 ^ 32)%Z).

Local Ltac bytes := rewrite ?byte4_div by lia; unfold inet, quad; apply eq_true_iff_eq;
  rewrite ?orb_true_iff, ?andb_true_iff, ?Z.eqb_eq; eval_pow2; Z.to_euclidean_division_equations; lia.

Lemma v4_unspecified : IsUnspecified (mapped v) = (v =? 0)%Z.
Proof.
  unfold IsUnspecified. rewrite To4_mapped by done. unfold mapped.
  case_bool_decide as E; [injection E as ->; done|].
  assert (v ≠ 0%Z) by congruence. cbn [orb]. apply eq_true_iff_eq. rewrite !Z.eqb_eq. lia.
Qed.

Lemma v4_loopback : IsLoopback (mapped v) = inet (quad 127 0 0 0) 8 v.
Proof. unfold IsLoopback. rewrite To4_mapped by done. bytes. Qed.

Lemma v4_linklocal : IsLinkLocalUnicast (mapped v) = inet (quad 169 254 0 0) 16 v.
Proof. unfold IsLinkLocalUnicast. rewrite To4_mapped by done. bytes. Qed.

Lemma v4_linklocal_multicast : IsLinkLocalMulticast (mapped v) = inet (quad 224 0 0 0) 24 v.
Proof. unfold IsLinkLocalMulticast. rewrite To4_mapped by done. bytes. Qed.

Lemma v4_private :
  IsPrivate (mapped v) =
  inet (quad 10 0 0 0) 8 v || inet (quad 172 16 0 0) 12 v || inet (quad 192 168 0 0) 16 v.
Proof.
  unfold IsPrivate. rewrite To4_mapped by done.
  rewrite (proj1 (byte_masks (byte4 v 1) ltac:(rewrite byte4_div by lia; apply Z.mod_pos_bound; lia))). bytes.
Qed.
End v4.

(** ** The table of the documentation

    Blocks and their classes; the first block that holds an address decides.  The
    link-local multicast scopes [ffx2::/16] stand before [ff00::/8] and
    [224.0.0.0/24] before [224.0.0.0/4]; all other blocks are disjoint. *)
Definition link_local_scopes : list IPNet :=
  (λ n : nat, Net6 ((0xff02 + 16 * Z.of_nat n) * 2 ^ 112) 16) <$> seq 0 16.

Definition class_table : list (list IPNet * string) :=
  [([Net4 (quad 0 0 0 0) 8; Net6 0 128], ClassUnspecified);
   ([Net4 (quad 127 0 0 0) 8; Net6 1 128], ClassLoopback);
   ([Net4 (quad 169 254 0 0) 16; Net4 (quad 224 0 0 0) 24; Net6 (0xfe80 * 2 ^ 112) 10] ++ link_local_scopes,
    ClassLinkLocal);
   ([Net4 (quad 10 0 0 0) 8; Net4 (quad 172 16 0 0) 12; Net4 (quad 192 168 0 0) 16;
     Net6 (0xfc00 * 2 ^ 112) 7], ClassPrivate);
   (reservedBlocks, ClassReserved)].

Fixpoint table_class (table : list (list IPNet * string)) (ip : IP) : string :=
  match table with
  | [] => ClassPublic
  | (blocks, class) :: rest => if existsb (λ b, Contains b ip) blocks then class else table_class rest ip
  end.

(** A chain of tests on blocks, for [lia]. *)
Lemma table_v4 v :
  (0 <= v < 2 ^ 32)%Z →
  table_class class_table (mapped v) =
  if inet (quad 0 0 0 0) 8 v then ClassUnspecified
  else if inet (quad 127 0 0 0) 8 v then ClassLoopback
  else if inet (quad 169 254 0 0) 16 v || inet (quad 224 0 0 0) 24 v then ClassLinkLocal
  else if inet (quad 10 0 0 0) 8 v || inet (quad 172 16 0 0) 12 v || inet (quad 192 168 0 0) 16 v then ClassPrivate
  else if inet (quad 100 64 0 0) 10 v || inet (quad 192 0 0 0) 24 v || inet (quad 192 0 2 0) 24 v ||
          inet (quad 198 18 0 0) 15 v || inet (quad 198 51 100 0) 24 v || inet (quad 203 0 113 0) 24 v ||
          inet (quad 224 0 0 0) 4 v || inet (quad 240 0 0 0) 4 v then ClassReserved
  else ClassPublic.
Proof.
  intros Hv.
  assert (∀ base len, Contains (Net6 base len) (mapped v) = false) as H6
    by (intros; unfold Contains; by rewrite To4_mapped).
  assert (existsb (λ b, Contains b (mapped v)) link_local_scopes = false) as Hs.
  { apply not_true_is_false. rewrite existsb_exists. intros (b & Hb & Hc).
    apply in_map_iff in Hb as (n & <- & _). by rewrite H6 in Hc. }
  unfold class_table. cbn [table_class]. rewrite existsb_app, Hs. cbn [existsb reservedBlocks].
  rewrite !contains_mapped, !H6, !orb_false_r by (lia || done).
  rewrite !orb_assoc. reflexivity.
Qed.

Lemma fast_is_table v : (0 <= v < 2 ^ 32)%Z → classifyIPv4 v = table_class class_table (mapped v).
Proof.
  intros Hv. rewrite table_v4 by done. unfold classifyIPv4.
  assert ((v =? 0)%Z || (Z.shiftr v 24 =? 0)%Z = inet (quad 0 0 0 0) 8 v) as ->.
  { rewrite Z.shiftr_div_pow2 by lia. unfold inet, quad. apply eq_true_iff_eq.
    rewrite orb_true_iff, !Z.eqb_eq. eval_pow2. Z.to_euclidean_division_equations. lia. }
  rewrite !Z.shiftr_div_pow2 by lia.
  rewrite <- (inet_mask (quad 10 0 0 0)), <- (inet_mask (quad 172 16 0 0)), <- (inet_mask (quad 192 168 0 0)),
    <- (inet_mask (quad 224 0 0 0) 24), <- (inet_mask (quad 100 64 0 0)), <- (inet_mask (quad 192 0 0 0)),
    <- (inet_mask (quad 192 0 2 0)), <- (inet_mask (quad 198 18 0 0)), <- (inet_mask (quad 198 51 100 0)),
    <- (inet_mask (quad 203 0 113 0)), <- (inet_mask (quad 224 0 0 0) 4), <- (inet_mask (quad 240 0 0 0))
    by (lia || done).
  reflexivity.
Qed.

(** No other block of the table meets [0.0.0.0/8]. *)
Lemma inet_low v base len :
  (0 <= v < 2 ^ 32)%Z → inet (quad 0 0 0 0) 8 v = true →
  (8 <=? len)%Z && (len <=? 32)%Z && (0 <? base / 2 ^ 24)%Z = true → inet base len v = false.
Proof.
  unfold inet, quad. rewrite !andb_true_iff, Z.eqb_eq, Z.eqb_neq, Z.ltb_lt, !Z.leb_le.
  intros Hv H [[H8 H32] Hb] E. revert H Hb. change (32 - 8)%Z with 24%Z. 
  replace 24%Z with ((32 - len) + (len - 8))%Z by lia.
  rewrite !Z.pow_add_r, <- !Z.div_div by (lia || (apply Z.pow_nonzero; lia) || (apply Z.pow_pos_nonneg; lia)).
  rewrite E. change (((0 * 256 + 0) * 256 + 0) * 256 + 0)%Z with 0%Z. rewrite !Zdiv_0_l. lia.
Qed.

Lemma general_is_table_v4 v :
  (0 <= v < 2 ^ 32)%Z → ClassifyIP (Some (mapped v)) = table_class class_table (mapped v).
Proof.
  intros Hv. rewrite table_v4 by done. unfold ClassifyIP.
  rewrite v4_unspecified, v4_loopback, v4_linklocal, v4_linklocal_multicast, v4_private by done.
  assert (existsb (λ b, Contains b (mapped v)) unspecifiedBlocks = inet (quad 0 0 0 0) 8 v) as ->.
  { cbn [existsb unspecifiedBlocks]. by rewrite contains_mapped, orb_false_r by lia. }
  assert (existsb (λ b, Contains b (mapped v)) reservedBlocks =
          inet (quad 100 64 0 0) 10 v || inet (quad 192 0 0 0) 24 v || inet (quad 192 0 2 0) 24 v ||
          inet (quad 198 18 0 0) 15 v || inet (quad 198 51 100 0) 24 v || inet (quad 203 0 113 0) 24 v ||
          inet (quad 224 0 0 0) 4 v || inet (quad 240 0 0 0) 4 v) as ->.
  { cbn [existsb reservedBlocks]. rewrite !contains_mapped by lia.
    unfold Contains. rewrite To4_mapped, !orb_false_r, !orb_assoc by done. reflexivity. }
  destruct (inet (quad 0 0 0 0) 8 v) eqn:E0.
  - destruct (v =? 0)%Z; [done|].
    rewrite !(inet_low v) by (done || (vm_compute; reflexivity)). done.
  - destruct (v =? 0)%Z eqn:Ez; [|done]. apply Z.eqb_eq in Ez as ->. done.
Qed.

(** ** IPv6 *)
Lemma byte16_div ip i : (0 <= i <= 15)%Z → byte16 ip i = ((ip / 2 ^ (8 * (15 - i))) mod 256)%Z.
Proof.
  intros. unfold byte16. change 255%Z with (Z.ones 8).
  by rewrite Z.land_ones, Z.shiftr_div_pow2 by lia.
Qed.

Section v6.
Context (ip : IP) (Hip : (0 <= ip < 2 ^ 128)%Z) (H4 : To4 ip = None).
Let h : Z := (ip / 2 ^ 112)%Z.

Lemma head_range : (0 <= h < 65536)%Z.
Proof. unfold h. revert Hip. eval_pow2. Z.to_euclidean_division_equations. lia. Qed.

Lemma head_bytes : byte16 ip 0 = (h / 256)%Z ∧ byte16 ip 1 = (h mod 256)%Z.
Proof.
  rewrite !byte16_div by lia. unfold h. revert Hip. eval_pow2.
  split; Z.to_euclidean_division_equations; lia.
Qed.

Lemma contains_head base len :
  (0 <= len <= 16)%Z →
  Contains (Net6 (base * 2 ^ 112) len) ip = (h / 2 ^ (16 - len) =? base / 2 ^ (16 - len))%Z.
Proof.
  intros Hl. unfold Contains. rewrite H4, !Z.shiftr_div_pow2 by lia.
  replace (128 - len)%Z with (112 + (16 - len))%Z by lia.
  rewrite Z.pow_add_r, <- !Z.div_div by (lia || (apply Z.pow_nonzero; lia) || (apply Z.pow_pos_nonneg; lia)).
  by rewrite Z.div_mul by lia.
Qed.

Local Ltac heads := rewrite ?(proj1 head_bytes), ?(proj2 head_bytes); pose proof head_range as Hr;
  destruct (byte_masks (h / 256)) as (M1 & M2 & M3 & M4); [Z.to_euclidean_division_equations; lia|];
  destruct (byte_masks (h mod 256)) as (N1 & N2 & N3 & N4); [apply Z.mod_pos_bound; lia|];
  rewrite ?M3, ?N2, ?N4; clear M1 M2 M3 M4 N1 N2 N3 N4; apply eq_true_iff_eq.

Lemma v6_linklocal : IsLinkLocalUnicast ip = Contains (Net6 (0xfe80 * 2 ^ 112) 10) ip.
Proof.
  unfold IsLinkLocalUnicast. rewrite H4, contains_head by lia. heads.
  rewrite andb_true_iff, !Z.eqb_eq. eval_pow2. Z.to_euclidean_division_equations. lia.
Qed.

Lemma v6_private : IsPrivate ip = Contains (Net6 (0xfc00 * 2 ^ 112) 7) ip.
Proof.
  unfold IsPrivate. rewrite H4, contains_head by lia. heads.
  rewrite !Z.eqb_eq. eval_pow2. Z.to_euclidean_division_equations. lia.
Qed.

Lemma v6_linklocal_multicast :
  IsLinkLocalMulticast ip = existsb (λ b, Contains b ip) link_local_scopes.
Proof.
  unfold IsLinkLocalMulticast. rewrite H4. heads.
  rewrite andb_true_iff, !Z.eqb_eq, existsb_exists. unfold link_local_scopes. split.
  - intros [Ha Hb]. eexists. split.
    + apply in_map_iff. exists (Z.to_nat (h mod 256 / 16)). split; [reflexivity|].
      apply in_seq. Z.to_euclidean_division_equations. lia.
    + rewrite contains_head by lia. apply Z.eqb_eq. change (2 ^ (16 - 16))%Z with 1%Z.
      Z.to_euclidean_division_equations. lia.
  - intros (b & (n & <- & Hn)%in_map_iff & Hc). apply in_seq in Hn.
    rewrite contains_head, Z.eqb_eq in Hc by lia. change (2 ^ (16 - 16))%Z with 1%Z in Hc.
    Z.to_euclidean_division_equations. lia.
Qed.

Lemma general_is_table_v6 : ClassifyIP (Some ip) = table_class class_table ip.
Proof.
  assert (∀ base len, Contains (Net4 base len) ip = false) as Hn4
    by (intros; unfold Contains; by rewrite H4).
  assert (∀ z, Contains (Net6 z 128) ip = (ip =? z)%Z) as Hone.
  { intros. unfold Contains. rewrite H4, !Z.shiftr_div_pow2 by lia.
    change (2 ^ (128 - 128))%Z with 1%Z. by rewrite !Z.div_1_r. }
  unfold ClassifyIP, class_table. cbn [table_class]. rewrite existsb_app. cbn [existsb unspecifiedBlocks].
  rewrite !Hn4, !Hone, <- v6_linklocal, <- v6_private, <- v6_linklocal_multicast, !orb_false_r, !orb_false_l.
  unfold IsUnspecified, IsLoopback. rewrite H4. cbn [orb]. reflexivity.
Qed.
End v6.

Lemma general_is_table ip :
  (0 <= ip < 2 ^ 128)%Z → ClassifyIP (Some ip) = table_class class_table ip.
Proof.
  intros Hip. destruct (To4 ip) as [v|] eqn:E; [|by apply general_is_table_v6].
  apply To4_Some in E as [-> Hv]. by apply general_is_table_v4.
Qed.

(** ** Parsed addresses are in range *)
Lemma digitValue_range c base d : digitValue c base = Some d → (0 <= d < base)%Z.
Proof.
  unfold digitValue.
  intros H. repeat case_match; simplify_eq; lia.
Qed.

Lemma numeric_loop_range base s : ∀ v r,
  (0 <= v <= 0xffffffff)%Z → (0 <= base)%Z → numeric_loop base s v = Some r → (0 <= r <= 0xffffffff)%Z.
Proof.
  induction s as [|c s IH]; intros v r Hv Hb; cbn [numeric_loop]; [by intros [= ->]|].
  intros (d & Hd%digitValue_range & H)%bind_Some. case_match; [done|]. eapply IH; [|done..]. nia.
Qed.

Lemma parseNumericPart_range s r : parseNumericPart s = Some r → (0 <= r <= 0xffffffff)%Z.
Proof.
  unfold parseNumericPart.
  match goal with |- context [let '(_, _) := ?p in _] => assert (0 <= p.1)%Z; [|destruct p as [base digits]] end.
  { repeat case_match; cbn; lia. }
  case_bool_decide; [done|]. by apply numeric_loop_range.
Qed.

Lemma lor_shiftl a b k : (0 <= k)%Z → (0 <= b < 2 ^ k)%Z → Z.lor (Z.shiftl a k) b = (a * 2 ^ k + b)%Z.
Proof.
  intros Hk Hb. pose proof (Z.add_lor_land (Z.shiftl a k) b) as Hsum.
  assert (Z.land (Z.shiftl a k) b = 0%Z) as Hl; [|rewrite Z.shiftl_mul_pow2 in * by lia; lia].
  apply Z.bits_inj'. intros i Hi. rewrite Z.land_spec, Z.shiftl_spec, Z.bits_0 by lia.
  destruct (Z.lt_ge_cases i k); [by rewrite Z.testbit_neg_r by lia|].
  destruct (Z.eq_dec b 0%Z) as [->|]; [rewrite Z.bits_0; apply andb_false_r|].
  rewrite (Z.bits_above_log2 b i); [apply andb_false_r|lia|].
  apply Z.log2_lt_pow2; [lia|]. eapply Z.lt_le_trans; [apply Hb|]. apply Z.pow_le_mono_r; lia.
Qed.

(** The big-endian value of the leading parts. *)
Lemma parts_value (l : list Z) : ∀ v,
  Forall (λ x, 0 <= x < 256)%Z l → (0 <= v)%Z →
  (0 <= foldl (λ v x, Z.lor (Z.shiftl v 8) x) v l < (v + 1) * 2 ^ (8 * Z.of_nat (length l)))%Z.
Proof.
  induction l as [|x l IH]; intros v Hl Hv; cbn [foldl length]; [cbn; lia|].
  apply Forall_cons in Hl as [Hx Hl]. rewrite lor_shiftl by (cbn; lia).
  specialize (IH (v * 2 ^ 8 + x)%Z Hl ltac:(lia)).
  replace (8 * Z.of_nat (S (length l)))%Z with (8 + 8 * Z.of_nat (length l))%Z by lia.
  rewrite Z.pow_add_r by lia.
  pose proof (Z.pow_pos_nonneg 2 (8 * Z.of_nat (length l))). nia.
Qed.

Lemma parseInetAtonU32_range token v : parseInetAtonU32 token = Some v → (0 <= v < 2 ^ 32)%Z.
Proof.
  unfold parseInetAtonU32. intros (vals & Hvals & H)%bind_Some.
  apply mapM_Some in Hvals.
  assert (Forall (λ x, 0 <= x)%Z vals) as Hpos.
  { eapply Forall2_Forall_r; [exact Hvals|]. apply Forall_true. intros p x Hp.
    apply parseNumericPart_range in Hp. lia. }
  assert (vals ≠ []) as Hne.
  { intros ->. apply Forall2_nil_inv_r in Hvals. destruct token as [|a t]; [done|].
    cbn in Hvals. by repeat case_match. }
  destruct (4 <? Z.of_nat (length vals))%Z eqn:E4; [done|].
  destruct (existsb _ _) eqn:Ei; [done|]. destruct (_ <=? _)%Z eqn:Es; [done|]. injection H as <-.
  destruct (exists_last Hne) as (init & fin & ->). clear Hvals Hne.
  rewrite removelast_last, last_snoc, length_app in *. cbn [from_option id length] in *.
  apply Forall_app in Hpos as [Hinit [Hfin _]%Forall_cons].
  assert (Forall (λ x, 0 <= x < 256)%Z init) as Hb.
  { apply Forall_forall. intros x Hx. split; [by apply (proj1 (Forall_forall _ _) Hinit)|].
    destruct (Z.lt_ge_cases 255 x); [|lia]. exfalso. apply not_true_iff_false in Ei. apply Ei.
    apply existsb_exists. exists x. split; [by apply list_elem_of_In|]. by apply Z.ltb_lt. }
  pose proof (parts_value init 0 Hb ltac:(lia)) as Hv.
  remember (8 * (5 - Z.of_nat (length init + 1)))%Z as shift eqn:Hshift.
  apply Z.ltb_ge in E4. assert (0 <= shift)%Z by (clear -E4 Hshift; lia).
  rewrite Z.shiftl_1_l in Es. apply Z.leb_gt in Es. rewrite lor_shiftl by lia.
  split; [apply Z.add_nonneg_nonneg; [apply Z.mul_nonneg_nonneg; [lia|apply Z.pow_nonneg; lia]|lia]|].
  assert (2 ^ 32 = 2 ^ (8 * Z.of_nat (length init)) * 2 ^ shift)%Z as ->
    by (rewrite <- Z.pow_add_r by lia; f_equal; lia).
  nia.
Qed.

Lemma octet_range s v : octet s = Some v → (0 <= v < 256)%Z.
Proof.
  unfold octet. case_bool_decide; [done|].
  assert (∀ s b v r, (0 <= v < 256)%Z → octet_loop s b v = Some r → (0 <= r < 256)%Z) as Hl; [|apply Hl; lia].
  clear. induction s as [|c s IH]; intros b v r Hv; cbn [octet_loop]; [by intros [= ->]|].
  intros (d & Hd%digitValue_range & H)%bind_Some. repeat case_match; [done..|]. eapply IH; [|done]. lia.
Qed.

Lemma parseIPv4_range s v : parseIPv4 s = Some v → (0 <= v < 2 ^ 32)%Z.
Proof.
  unfold parseIPv4. intros (fs & Hfs & H)%bind_Some. apply mapM_Some in Hfs.
  assert (Forall (λ x, 0 <= x < 256)%Z fs) as Hr.
  { eapply Forall2_Forall_r; [exact Hfs|]. apply Forall_true. intros p x. apply octet_range. }
  destruct fs as [|a [|b [|c [|d [|? ?]]]]]; try done. injection H as <-.
  rewrite !Forall_cons in Hr. unfold quad. lia.
Qed.

Lemma hex_run_range s : ∀ off acc r,
  off ≤ 4 → (0 <= acc < 16 ^ Z.of_nat off)%Z → hex_run off acc s = Some r → (0 <= r.1.2 < 65536)%Z.
Proof.
  induction s as [|c s IH]; intros off acc r Ho Ha; cbn [hex_run].
  - intros [= <-]. cbn. split; [lia|]. eapply Z.lt_le_trans; [apply Ha|].
    change 65536%Z with (16 ^ 4)%Z. apply Z.pow_le_mono_r; lia.
  - destruct (digitValue c 16) as [d|] eqn:Ed.
    + case_bool_decide; [done|]. apply digitValue_range in Ed. apply IH; [lia|].
      rewrite Nat2Z.inj_succ, Z.pow_succ_r by lia. lia.
    + intros [= <-]. cbn. split; [lia|]. eapply Z.lt_le_trans; [apply Ha|].
      change 65536%Z with (16 ^ 4)%Z. apply Z.pow_le_mono_r; lia.
Qed.

Lemma groups_range fuel : ∀ ws e s r,
  length ws + fuel ≤ 8 → Forall (λ w, 0 <= w < 65536)%Z ws → groups fuel ws e s = Some r →
  Forall (λ w, 0 <= w < 65536)%Z r.1.1 ∧ length r.1.1 ≤ 8.
Proof.
  induction fuel as [|fuel IH]; intros ws e s r Hl Hws; cbn [groups].
  { intros [= <-]. cbn. split; [done|lia]. }
  intros ([[off acc] rest] & Hrun & H)%bind_Some.
  apply hex_run_range in Hrun; [|lia|cbn; lia]. cbn in Hrun.
  assert (Forall (λ w, 0 <= w < 65536)%Z (ws ++ [acc])) as Hws' by (apply Forall_app; auto).
  assert (length (ws ++ [acc]) + fuel ≤ 8) as Hl' by (rewrite length_app; cbn; lia).
  revert H. case_bool_decide; [done|].
  repeat (first [ done
                | intros [= <-]; cbn [fst snd]; split; [done|lia]
                | by apply IH
                | case_match ]).
  intros (v & Hv%parseIPv4_range & [= <-])%bind_Some. cbn [fst snd].
  match goal with H : bool_decide (8 < _) = false |- _ => apply bool_decide_eq_false in H end.
  split; [apply Forall_app; split; [done|]|rewrite length_app; cbn; lia].
  change 65535%Z with (Z.ones 16). rewrite Z.shiftr_div_pow2, Z.land_ones by lia.
  revert Hv. eval_pow2. intros Hv. repeat constructor; Z.to_euclidean_division_equations; lia.
Qed.

Lemma words_value_range (ws : list Z) : ∀ v,
  (0 <= v)%Z → Forall (λ w, 0 <= w < 65536)%Z ws →
  (0 <= foldl (λ v w, v * 65536 + w) v ws < (v + 1) * 2 ^ (16 * Z.of_nat (length ws)))%Z.
Proof.
  induction ws as [|w ws IH]; intros v Hv Hws; cbn [foldl length]; [cbn; lia|].
  apply Forall_cons in Hws as [Hw Hws]. specialize (IH (v * 65536 + w)%Z ltac:(lia) Hws).
  replace (16 * Z.of_nat (S (length ws)))%Z with (16 + 16 * Z.of_nat (length ws))%Z by lia.
  rewrite Z.pow_add_r by lia.
  pose proof (Z.pow_pos_nonneg 2 (16 * Z.of_nat (length ws))). nia.
Qed.

Lemma expand_range r ip :
  Forall (λ w, 0 <= w < 65536)%Z r.1.1 → length r.1.1 ≤ 8 → expand r = Some ip → (0 <= ip < 2 ^ 128)%Z.
Proof.
  destruct r as [[ws e] rest]. cbn [fst snd expand]. intros Hws Hl. repeat case_bool_decide; cbn [negb]; try done.
  - intros (n & -> & [= <-])%bind_Some. unfold words_value.
    match goal with |- context [foldl _ _ ?l] =>
      assert (length l ≤ 8) as Hl8; [rewrite !length_app, length_take, length_drop, length_replicate; lia|];
      pose proof (words_value_range l 0 ltac:(lia)) as Hr end.
    lapply Hr; clear Hr; [intros Hr|].
    2: { apply Forall_app. split; [by apply Forall_take|]. apply Forall_app. split; [|by apply Forall_drop].
      apply Forall_replicate. lia. }
    split; [apply Hr|]. eapply Z.lt_le_trans; [apply Hr|].
    rewrite Z.mul_1_l. apply Z.pow_le_mono_r; lia.
  - destruct e; [done|]. intros [= <-]. unfold words_value.
    pose proof (words_value_range ws 0 ltac:(lia) Hws) as Hr.
    split; [apply Hr|]. eapply Z.lt_le_trans; [apply Hr|].
    rewrite Z.mul_1_l. apply Z.pow_le_mono_r; lia.
Qed.

Lemma mapped_range v : (0 <= v < 2 ^ 32)%Z → (0 <= mapped v < 2 ^ 128)%Z.
Proof. unfold mapped. lia. Qed.

Lemma ParseIP_range s ip : ParseIP s = Some ip → (0 <= ip < 2 ^ 128)%Z.
Proof.
  assert (∀ e s, groups 8 [] e s ≫= expand = Some ip → (0 <= ip < 2 ^ 128)%Z) as Hg.
  { intros e t (r & Hr & Hx)%bind_Some. apply groups_range in Hr as [H1 H2]; [|done..].
    by eapply expand_range. }
  assert (parseIPv6 s = Some ip → (0 <= ip < 2 ^ 128)%Z) as H6.
  { unfold parseIPv6. repeat match goal with
      | |- Some _ = _ → _ => intros [= <-]; lia
      | |- _ ≫= _ = _ → _ => exact (Hg _ _)
      | _ => case_match
      end. }
  unfold ParseIP. destruct (addr_kind s) as [a|]; [|done].
  repeat match goal with
    | |- None = _ → _ => done
    | |- parseIPv6 _ = _ → _ => exact H6
    | |- _ <$> _ = _ → _ => idtac
    | _ => case_match
    end.
  intros (v & Hv%parseIPv4_range & ->)%fmap_Some_1. by apply mapped_range.
Qed.

Lemma ParseHostToken_range token ip : ParseHostToken token = Some ip → (0 <= ip < 2 ^ 128)%Z.
Proof.
  unfold ParseHostToken. intros (t & _ & H)%bind_Some. destruct (if contains t ":" then _ else _) eqn:E.
  - injection H as <-. destruct (contains t ":"); [done|].
    apply fmap_Some_1 in E as (v & Hv%parseInetAtonU32_range & ->). by apply mapped_range.
  - by eapply ParseIP_range.
Qed.

(** ** Host tokens *)

(** classifying a token agrees with parsing it and reading its address off the
    documented table of blocks, for every token: the allocation-free IPv4 path, the
    general path and the parser never disagree. *)
Theorem host_token_classes token :
  ClassifyToken token = table_class class_table <$> ParseHostToken token.
Proof.
  unfold ClassifyToken, ParseHostToken, parseInetAton. destruct (bare_token token) as [t|]; [|done]. cbn [mbind option_bind].
  destruct (contains t ":").
  - destruct (ParseIP t) as [ip|] eqn:E; [|done]. cbn. f_equal. by eapply general_is_table, ParseIP_range.
  - destruct (parseInetAtonU32 t) as [v|] eqn:Ev; cbn [fmap option_fmap option_map].
    + f_equal. by eapply fast_is_table, parseInetAtonU32_range.
    + destruct (ParseIP t) as [ip|] eqn:E; [|done]. cbn. f_equal. by eapply general_is_table, ParseIP_range.
Qed.

Lemma octet_numeric s v : octet s = Some v → parseNumericPart s = Some v.
Proof.
  unfold octet, parseNumericPart. case_bool_decide as Hne; [done|]. intros H.
  assert (∀ t b w, (0 <= w < 256)%Z → octet_loop t b w = Some v → numeric_loop 10 t w = Some v) as Hl.
  { clear. induction t as [|c t IH]; intros b w Hw; cbn [octet_loop numeric_loop]; [done|].
    intros (d & Hd & H)%bind_Some. rewrite Hd. cbn [mbind option_bind]. apply digitValue_range in Hd.
    repeat case_match; try done; [lia|]. eapply IH; [|done]. lia. }
  assert (∀ c t, s ≠ String "0" (String c t)) as Hz.
  { intros c t ->. cbn [octet_loop] in H. apply bind_Some in H as (d0 & Hd0 & H).
    injection Hd0 as <-. cbn in H. by destruct (digitValue c 10). }
  assert (match s with
          | String "0" (String ("x" | "X") (String _ _ as d)) => (16%Z, d)
          | String "0" (String _ _ as d) => (8%Z, d)
          | _ => (10%Z, s)
          end = (10%Z, s)) as ->.
  { repeat case_match; try done; by destruct (Hz _ _ eq_refl). }
  rewrite bool_decide_false by done. eapply Hl; [|exact H]. lia.
Qed.

Lemma aton_extends_dotted s v : parseIPv4 s = Some v → parseInetAtonU32 s = Some v.
Proof.
  unfold parseIPv4, parseInetAtonU32. intros (fs & Hfs & H)%bind_Some.
  assert (mapM parseNumericPart (split_on "." s) = Some fs) as ->.
  { apply mapM_Some. apply mapM_Some in Hfs. eapply Forall2_impl; [exact Hfs|]. apply octet_numeric. }
  assert (Forall (λ x, 0 <= x < 256)%Z fs) as Hr.
  { apply mapM_Some in Hfs. eapply Forall2_Forall_r; [exact Hfs|]. apply Forall_true. intros p x. apply octet_range. }
  destruct fs as [|a [|b [|c [|d [|? ?]]]]]; try done. injection H as <-.
  rewrite !Forall_cons in Hr. destruct Hr as (Ha & Hb & Hc & Hd & _).
  cbn [mbind option_bind length removelast last from_option existsb foldl id].
  change (4 <? Z.of_nat 4)%Z with false. cbv iota. change (8 * (5 - Z.of_nat 4))%Z with 8%Z.
  rewrite !(proj2 (Z.ltb_ge _ _)) by lia. change (Z.shiftl 1 8) with 256%Z.
  rewrite (proj2 (Z.leb_gt _ _)) by lia. cbn [orb]. rewrite !lor_shiftl by (cbn; lia).
  reflexivity.
Qed.

Lemma addr_kind_colon s : addr_kind s = Some ":"%char → contains_byte ":" s = true.
Proof.
  induction s as [|c s IH]; [done|]. cbn [addr_kind contains_byte].
  destruct (bool_decide (c = "."%char)) eqn:E1; cbn [orb].
  { apply bool_decide_eq_true in E1 as ->. intros [=]. }
  destruct (bool_decide (c = ":"%char)) eqn:E2; cbn [orb].
  { apply bool_decide_eq_true in E2 as ->. done. }
  destruct (bool_decide (c = "%"%char)) eqn:E3; cbn [orb].
  { apply bool_decide_eq_true in E3 as ->. intros [=]. }
  intros H. by apply IH.
Qed.

Lemma contains_colon s : contains s ":" = contains_byte ":" s.
Proof.
  unfold contains. induction s as [|a s IH]; [done|]. cbn [contains_byte index has_prefix].
  rewrite <- IH. apply eq_true_iff_eq.
  rewrite orb_true_iff, !bool_decide_eq_true, andb_true_r. clear IH. destruct (bool_decide_reflect (":"%char = a)) as [Hc|Hc].
  - subst. split; intros; [by left|by eexists].
  - rewrite fmap_is_Some. split; [intros; by right|intros [->|?]; done].
Qed.

(** the grammar of host tokens extends [net.ParseIP] and agrees with it: whatever
    [net.ParseIP] makes of the token inside brackets and before the zone is the
    address returned, although the inet_aton reading is tried first. *)
Theorem parse_extends_net token t ip :
  bare_token token = Some t → ParseIP t = Some ip → ParseHostToken token = Some ip.
Proof.
  intros Hb Hp. unfold ParseHostToken, parseInetAton. rewrite Hb. cbn [mbind option_bind].
  destruct (contains t ":") eqn:Ec; [done|].
  destruct (parseInetAtonU32 t) as [v|] eqn:Ev; cbn; [|done].
  revert Hp. unfold ParseIP. destruct (addr_kind t) as [a|] eqn:Ek; [|done].
  repeat match goal with
    | |- None = _ → _ => done
    | |- _ <$> _ = _ → _ => idtac
    | |- (if contains_byte _ _ then _ else _) = _ → _ =>
        exfalso; rewrite contains_colon in Ec; apply addr_kind_colon in Ek; congruence
    | _ => case_match
    end.
  intros (v' & Hv & ->)%fmap_Some_1. apply aton_extends_dotted in Hv. congruence.
Qed.

(** ** NetResolveSafety

    The resolver over all interleavings of its callers: a call that misses the cache
    looks the name up and stores what it got at some later moment, so the history of
    the cache is the sequence of those stores.  A target is called public only if
    every address behind it is, the cache stays within its bound, and eviction takes
    the entries that expire first. *)
(** ** The most restrictive answer *)
Definition classes : list string :=
  [ClassPublic; ClassReserved; ClassPrivate; ClassUnspecified; ClassLinkLocal; ClassLoopback].

Lemma ClassifyIP_class ip : ClassifyIP ip ∈ classes.
Proof.
  unfold ClassifyIP. destruct ip as [ip|];
    repeat match goal with |- (if ?b then _ else _) ∈ _ => destruct b end;
    apply (bool_decide_unpack _); vm_compute; exact I.
Qed.

Lemma severity_zero class : class ∈ classes → (classSeverity class <= 0)%Z → class = ClassPublic.
Proof.
  intros H Hs. unfold classes in H. rewrite !elem_of_cons in H.
  destruct H as [->|[->|[->|[->|[->|[->|H]]]]]]; [done|by vm_compute in Hs..|].
  by apply not_elem_of_nil in H.
Qed.

Definition grade : string * Z → option IP → string * Z :=
  λ '(best, bestSeverity) ip,
    let class := ClassifyIP ip in
    let severity := classSeverity class in
    if (bestSeverity <? severity)%Z then (class, severity) else (best, bestSeverity).

Lemma grade_spec ips : ∀ b,
  let r := foldl grade (b, classSeverity b) ips in
  r.2 = classSeverity r.1 ∧ (classSeverity b <= r.2)%Z ∧
  Forall (λ ip, classSeverity (ClassifyIP ip) <= r.2)%Z ips ∧
  (r.1 = b ∨ ∃ ip, ip ∈ ips ∧ r.1 = ClassifyIP ip).
Proof.
  induction ips as [|ip ips IH]; intros b; cbn [foldl grade].
  { cbn. split_and!; [done|lia|done|by left]. }
  destruct (classSeverity b <? classSeverity (ClassifyIP ip))%Z eqn:E.
  - destruct (IH (ClassifyIP ip)) as (H1 & H2 & H3 & H4). cbn zeta. split_and!; [done|lia|by constructor|].
    right. destruct H4 as [H4|(ip' & Hin & H4)]; [exists ip|exists ip']; set_solver.
  - destruct (IH b) as (H1 & H2 & H3 & H4). cbn zeta. split_and!; [done|lia|constructor; [lia|done]|].
    destruct H4 as [H4|(ip' & Hin & H4)]; [by left|right; exists ip'; set_solver].
Qed.

Lemma resolved_public h :
  ClassifyResolved h = ClassPublic ↔ Forall (λ ip, ClassifyIP ip = ClassPublic) (rh_IPs h).
Proof.
  destruct (grade_spec (rh_IPs h) ClassPublic) as (H1 & H2 & H3 & H4).
  change (ClassifyResolved h) with (foldl grade (ClassPublic, classSeverity ClassPublic) (rh_IPs h)).1.
  split.
  - intros E. eapply Forall_impl; [exact H3|]. cbn beta. intros ip Hip.
    apply severity_zero; [apply ClassifyIP_class|]. rewrite H1, E in Hip. exact Hip.
  - intros Hall. destruct H4 as [H4|(ip & Hin & H4)]; [done|].
    rewrite H4. by apply (proj1 (Forall_forall _ _) Hall).
Qed.

(** the class of a record set is the most restrictive class of its addresses. *)
Theorem most_restrictive_wins h :
  rh_IPs h ≠ [] →
  (∃ ip, ip ∈ rh_IPs h ∧ ClassifyResolved h = ClassifyIP ip) ∧
  ∀ ip, ip ∈ rh_IPs h → (classSeverity (ClassifyIP ip) <= classSeverity (ClassifyResolved h))%Z.
Proof.
  intros Hne. destruct (grade_spec (rh_IPs h) ClassPublic) as (H1 & _ & H3 & H4).
  change (ClassifyResolved h) with (foldl grade (ClassPublic, classSeverity ClassPublic) (rh_IPs h)).1.
  rewrite <- H1. split; [|by apply Forall_forall].
  destruct H4 as [H4|H4]; [|done]. rewrite H4.
  destruct (rh_IPs h) as [|ip ips] eqn:E; [done|]. exists ip. split; [set_solver|].
  apply Forall_cons in H3 as [H3 _]. rewrite H1, H4 in H3.
  symmetry. by apply severity_zero; [apply ClassifyIP_class|].
Qed.

(** ** The cache over time *)
Record dns_lookup := { l_opts : ResolveOptions; l_token : string; l_now : Time; l_answer : result (list (option IP)) }.

Section trace.
Variable order : gmap string cacheEntry → list (string * cacheEntry).

(** The stores that made the cache, newest first. *)
Inductive cache_trace : list dns_lookup → gmap string cacheEntry → Prop :=
| trace_start : cache_trace [] ∅
| trace_settle l tr c :
    cache_trace tr c →
    cache_trace (l :: tr) (settle order (norm (l_opts l)) (l_token l) (l_now l) (l_answer l) c).2.

(** The record set [ips] was looked up for [key] and may be used before [exp]. *)
Definition looked_up (tr : list dns_lookup) (key : string) (ips : list (option IP)) (exp : Time) : Prop :=
  ∃ l, l ∈ tr ∧ to_lower (l_token l) = key ∧ l_answer l = Ok ips ∧ ips ≠ [] ∧
       exp = (l_now l + PositiveTTL (norm (l_opts l)))%Z.

Lemma looked_up_cons l tr key ips exp : looked_up tr key ips exp → looked_up (l :: tr) key ips exp.
Proof. intros (l' & ? & ?). exists l'. set_solver. Qed.

Lemma evict_loop_sub n : ∀ c, evict_loop order n c ⊆ c.
Proof.
  induction n as [|n IH]; intros c; cbn; [done|]. destruct (scan_oldest _) as [[k t]|]; [|done].
  etrans; [apply IH|]. apply delete_subseteq.
Qed.

Lemma store_lookup key e m c k e' :
  storeCache order key e m c !! k = Some e' → (k = key ∧ e' = e) ∨ c !! k = Some e'.
Proof.
  unfold storeCache. cbn zeta. intros [[<- <-]|[_ H]]%lookup_insert_Some; [by left|right].
  destruct (_ <=? _)%Z; [|done]. eapply lookup_weaken; [exact H|apply evict_loop_sub].
Qed.

Lemma settle_cases opts token now answer c :
  (∃ ips, answer = Ok ips ∧ ips ≠ [] ∧
     settle order opts token now answer c =
     (graded {| rh_Token := token; rh_IPs := ips; rh_ResolvedAt := now |},
      storeCache order (to_lower token)
        {| ce_ips := ips; expiresAt := (now + PositiveTTL opts)%Z; negative := false |} (MaxCacheEntries opts) c)) ∨
  (∃ h e, settle order opts token now answer c =
     ((h, Some (ErrWrap e ErrUnresolved)),
      storeCache order (to_lower token)
        {| ce_ips := []; expiresAt := (now + NegativeTTL opts)%Z; negative := true |} (MaxCacheEntries opts) c)).
Proof.
  unfold settle. destruct answer as [[|ip ips]|e]; [right; by do 2 eexists|left|right; by do 2 eexists].
  eexists. by split_and!.
Qed.

(** Every positive entry is a record set some lookup returned. *)
Lemma trace_sound tr c :
  cache_trace tr c →
  ∀ k e, c !! k = Some e → negative e = false → looked_up tr k (ce_ips e) (expiresAt e).
Proof.
  induction 1 as [|l tr c _ IH]; intros k e; [by rewrite lookup_empty|].
  destruct (settle_cases (norm (l_opts l)) (l_token l) (l_now l) (l_answer l) c)
    as [(ips & Ha & Hne & ->)|(h & m & ->)]; cbn [snd];
    intros [[-> ->]|Hc]%store_lookup Hn; [|by apply looked_up_cons, IH|done|by apply looked_up_cons, IH].
  exists l. set_solver.
Qed.

Lemma graded_private h e : (graded h).2 = Some e → e = ErrPrivateResolved ∧ ClassifyResolved h ≠ ClassPublic.
Proof. unfold graded. case_bool_decide; cbn; [done|]. by intros [= <-]. Qed.

Lemma ResolveHost_public tr token opts now answer c h err c' :
  cache_trace tr c → ParseHostToken (trim_space token) = None →
  ResolveHost order token opts now answer c = ((h, err), c') →
  err = None ∨ err = Some ErrPrivateResolved →
  rh_IPs h ≠ [] ∧
  (answer = Ok (rh_IPs h) ∨
   ∃ exp, looked_up tr (to_lower (trim_space token)) (rh_IPs h) exp ∧ (now < exp)%Z).
Proof.
  intros Htr Hlit Hrun Herr. unfold ResolveHost, probe in Hrun. rewrite Hlit in Hrun.
  case_bool_decide as Hempty. { simplify_eq. by destruct Herr. }
  assert (∀ n m c'', settle order (norm opts) (trim_space token) n answer m = ((h, err), c'') →
    rh_IPs h ≠ [] ∧ answer = Ok (rh_IPs h)) as Hset.
  { intros n m c'' Hs. destruct (settle_cases (norm opts) (trim_space token) n answer m)
      as [(ips & Ha & Hne & E)|(h' & e & E)]; rewrite E in Hs; unfold graded in Hs; simplify_eq; [done|by destruct Herr]. }
  destruct (c !! to_lower (trim_space token)) as [e|] eqn:Ec.
  2: { apply Hset in Hrun as [? ?]. split; [done|by left]. }
  destruct (now <? expiresAt e)%Z eqn:Et.
  2: { apply Hset in Hrun as [? ?]. split; [done|by left]. }
  destruct (negative e) eqn:En; [simplify_eq; by destruct Herr|].
  unfold graded in Hrun. simplify_eq. cbn [rh_IPs].
  pose proof (trace_sound _ _ Htr _ _ Ec En) as Hl. split; [by destruct Hl as (? & _ & _ & _ & ? & _)|].
  right. eexists. split; [exact Hl|lia].
Qed.

(** A target of class public, and what stands behind it. *)
Definition public_behind (tr : list dns_lookup) (token : string) (now : Time)
    (answer : result (list (option IP))) : Prop :=
  (∃ ip, ParseHostToken token = Some ip ∧ ClassifyIP (Some ip) = ClassPublic) ∨
  (∃ ips, ips ≠ [] ∧ Forall (λ ip, ClassifyIP ip = ClassPublic) ips ∧
     (answer = Ok ips ∨ ∃ exp, looked_up tr (to_lower token) ips exp ∧ (now < exp)%Z)).

(** The error of a resolution is none, the private one, or not the private one. *)
Lemma ResolveHost_err token opts now answer c h err c' :
  ResolveHost order token opts now answer c = ((h, err), c') →
  err = None ∨ err = Some ErrPrivateResolved ∨ ∃ e, err = Some e ∧ errors_is e ErrPrivateResolved = false.
Proof.
  assert (∀ h, (graded h).2 = None ∨ (graded h).2 = Some ErrPrivateResolved ∨
               ∃ e, (graded h).2 = Some e ∧ errors_is e ErrPrivateResolved = false) as Hg.
  { intros h0. unfold graded. destruct (bool_decide _); cbn; auto. }
  unfold ResolveHost. destruct (probe (trim_space token) now c) as [r|] eqn:E.
  - intros [= -> <-]. revert E. unfold probe.
    destruct (bool_decide _). { intros [= <- <-]. right; right. by eexists. }
    destruct (ParseHostToken _). { intros [= <- <-]. by left. }
    destruct (c !! _) as [ce|]; [|done]. destruct (_ <? _)%Z; [|done].
    destruct (negative ce). { intros [= <- <-]. right; right. by eexists. }
    intros E%(inj Some). specialize (Hg {| rh_Token := trim_space token; rh_IPs := ce_ips ce; rh_ResolvedAt := now |}).
    by rewrite E in Hg.
  - destruct (settle_cases (norm opts) (trim_space token) now answer c)
      as [(ips & _ & _ & ->)|(h' & m & ->)].
    + intros [E' _]%pair_eq. match type of E' with graded ?x = _ => specialize (Hg x) end. by rewrite E' in Hg.
    + intros [= <- <- <-]. right; right. by eexists.
Qed.

Lemma ResolveTarget_public tr token opts now answer c t c' :
  cache_trace tr c →
  ResolveTarget order token opts now answer c = (Ok t, c') →
  Token t = trim_space token ∧
  (Class_ t = ClassPublic → public_behind tr (trim_space token) now answer).
Proof.
  intros Htr. unfold ResolveTarget.
  destruct (ParseHostToken (trim_space token)) as [ip|] eqn:Elit.
  { intros [<-%(inj Ok) _]%pair_eq. split; [done|]. intros Hc. left. by exists ip. }
  destruct (ResolveHost order (trim_space token) opts now answer c) as [[h err] c1] eqn:Er.
  intros Hrun.
  assert (t = {| Token := trim_space token; Class_ := ClassifyResolved h; Literal := false |} ∧
          (err = None ∨ err = Some ErrPrivateResolved)) as [-> Herr].
  { destruct (ResolveHost_err _ _ _ _ _ _ _ _ Er) as [->|[->|(e & -> & He)]].
    - apply pair_eq in Hrun as [<-%(inj Ok) _]. split; [done|by left].
    - apply pair_eq in Hrun as [<-%(inj Ok) _]. split; [done|by right].
    - by rewrite He in Hrun. }
  split; [done|]. cbn [Class_]. intros Hpub%resolved_public. right.
  eapply ResolveHost_public in Er as [Hne Hsrc]; [|done|by rewrite trim_space_idem|done].
  exists (rh_IPs h). rewrite trim_space_idem in Hsrc. done.
Qed.

(** C40: no egress to an address that is not public.  Whatever lookups other callers
    made before and whenever they stored them, when the manager resolves a token
    and the network check on the resolved target succeeds, the token is a literal
    public address, or every address of the record set used is public, and that
    set is the lookup's answer now or one of an earlier lookup of the same name
    within its time to live. *)
Theorem egress_public_only {H L} (P : Ports (H := H) (L := L)) tr c agentID direction protocol token now answer t c' port w w' :
  cache_trace tr c →
  manager_ResolveTarget order token now answer c = (Ok t, c') →
  CheckNetwork P agentID direction protocol t port w = (Ok (), w') →
  Token t = trim_space token ∧ public_behind tr (trim_space token) now answer.
Proof.
  intros Htr Hres Hchk.
  destruct (ResolveTarget_public _ _ _ _ _ _ _ _ Htr Hres) as [Htok Hpub].
  split; [done|]. apply Hpub. unfold CheckNetwork in Hchk.
  case_bool_decide as Hc; [done|]. cbn [negb] in Hchk. by apply deny_err in Hchk as [? _].
Qed.

(** ** The bound and the choice of victims *)
Context (Horder : ∀ c, order c ≡ₚ map_to_list c).

Lemma scan_oldest_spec l :
  match scan_oldest l with
  | None => l = []
  | Some (k, t) => ∃ e, (k, e) ∈ l ∧ expiresAt e = t ∧ Forall (λ ke, t <= expiresAt ke.2)%Z l
  end.
Proof.
  unfold scan_oldest. induction l as [|[k e] l IH] using rev_ind; [done|].
  rewrite foldl_snoc. destruct (foldl _ None l) as [[k' t]|].
  - destruct IH as (e' & Hin & He' & Hall). destruct (expiresAt e <? t)%Z eqn:E.
    + exists e. split_and!; [set_solver|done|]. apply Forall_app. split; [|by constructor; cbn; [lia|]].
      eapply Forall_impl; [exact Hall|]. cbn. lia.
    + exists e'. split_and!; [set_solver|done|]. apply Forall_app. split; [done|]. constructor; cbn; [lia|done].
  - rewrite IH. exists e. split_and!; [set_solver|done|]. constructor; cbn; [lia|done].
Qed.

Lemma evict_step c k t :
  scan_oldest (order c) = Some (k, t) →
  ∃ e, c !! k = Some e ∧ ∀ k' e', c !! k' = Some e' → (expiresAt e <= expiresAt e')%Z.
Proof.
  intros Hs. pose proof (scan_oldest_spec (order c)) as Hspec. rewrite Hs in Hspec.
  destruct Hspec as (e & Hin & <- & Hall). rewrite Horder in Hin. apply elem_of_map_to_list in Hin.
  exists e. split; [done|]. intros k' e' Hk'. rewrite Horder in Hall.
  apply elem_of_map_to_list in Hk'. by apply (proj1 (Forall_forall _ _) Hall) in Hk'.
Qed.

Lemma scan_None c : scan_oldest (order c) = None → c = ∅.
Proof.
  intros Hs. pose proof (scan_oldest_spec (order c)) as Hspec. rewrite Hs in Hspec.
  apply map_to_list_empty_iff. apply Permutation_nil_r. by rewrite <- Horder, Hspec.
Qed.

Lemma evict_loop_size n : ∀ c, size (evict_loop order n c) = size c - n.
Proof.
  induction n as [|n IH]; intros c; cbn [evict_loop]; [lia|].
  destruct (scan_oldest (order c)) as [[k t]|] eqn:E.
  - destruct (evict_step _ _ _ E) as (e & He & _). rewrite IH, map_size_delete_Some by by exists e.
    pose proof (map_size_ne_0_lookup_2 c k). lia.
  - apply scan_None in E as ->. rewrite map_size_empty. lia.
Qed.

Lemma evict_loop_oldest n : ∀ c k e k' e',
  c !! k = Some e → evict_loop order n c !! k = None →
  evict_loop order n c !! k' = Some e' → (expiresAt e <= expiresAt e')%Z.
Proof.
  induction n as [|n IH]; intros c k e k' e' Hk Hn Hk'; cbn in *; [congruence|].
  destruct (scan_oldest (order c)) as [[v t]|] eqn:E; [|congruence].
  destruct (decide (v = k)) as [->|Hne].
  - destruct (evict_step _ _ _ E) as (e0 & He0 & Hmin). rewrite Hk in He0. injection He0 as <-.
    eapply Hmin, lookup_weaken; [exact Hk'|]. etrans; [apply evict_loop_sub|apply delete_subseteq].
  - eapply IH; [|exact Hn|exact Hk']. by rewrite lookup_delete_ne.
Qed.

Lemma store_size key e m c :
  (1 <= m)%Z → (Z.of_nat (size c) <= m)%Z → (Z.of_nat (size (storeCache order key e m c)) <= m)%Z.
Proof.
  intros Hm Hc. unfold storeCache. cbn zeta.
  assert (∀ c0 : gmap string cacheEntry, size (<[key:=e]> c0) ≤ S (size c0)) as Hins.
  { intros c0. rewrite map_size_insert. case_match; unfold id; lia. }
  destruct (m <=? Z.of_nat (size c))%Z eqn:E.
  - etrans; [apply Nat2Z.inj_le, Hins|]. unfold evictOldestLocked. rewrite evict_loop_size.
    destruct (_ <? 1)%Z eqn:E1; lia.
  - etrans; [apply Nat2Z.inj_le, Hins|]. lia.
Qed.

(** the resolution cache is bounded and forgets the right entries.  If all calls
    use one bound, the cache never holds more entries than it; and a full cache
    makes room by dropping an eighth of its entries (at least one), none of which
    expires after an entry that stays. *)
Theorem resolve_cache_bounded tr c opts :
  cache_trace tr c → Forall (λ l, l_opts l = opts) tr →
  (Z.of_nat (size c) <= MaxCacheEntries (norm opts))%Z ∧
  ∀ n, let c' := evictOldestLocked order n c in
    size c' = size c - Z.to_nat (Z.max 1 n) ∧
    ∀ k e k' e', c !! k = Some e → c' !! k = None → c' !! k' = Some e' → (expiresAt e <= expiresAt e')%Z.
Proof.
  assert (1 <= MaxCacheEntries (norm opts))%Z as Hm.
  { cbn. unfold or_default. destruct (_ <=? 0)%Z eqn:E; lia. }
  intros Htr Hopts. split.
  - induction Htr as [|l tr c Htr IH]; [rewrite map_size_empty; lia|].
    apply Forall_cons in Hopts as [-> Hopts].
    destruct (settle_cases (norm opts) (l_token l) (l_now l) (l_answer l) c)
      as [(ips & _ & _ & ->)|(h & m & ->)]; cbn [snd]; apply store_size; auto.
  - intros n c'. unfold c', evictOldestLocked. split; [|apply evict_loop_oldest].
    rewrite evict_loop_size. destruct (n <? 1)%Z eqn:E; f_equal; lia.
Qed.
End trace.
