(* ===== verification/AuthorizationExamples.v ===== *)
(** * AuthorizationExamples

    The theorems about the broker, commands, the network and policies at concrete inputs.
    The broker's runs: a blocking request that is approved, an asynchronous request that
    expires, and a denied request that its timeout grants. *)
From S2P Require Import Prelude GoStrings GoTime Policy PolicyMatch PolicyCompile Glob GoPath Bounded.
From S2P Require Import Permissions PermissionsSafety PermissionsInv PermissionsExamples PolicyEngine Hitl HitlSafety CommandAuthorization CommandSafety.
From S2P Require Import NetPolicy NetSafety.
From Stdlib Require Import Lia.
From Stdlib Require Import Permutation.

Definition body (scope : string) : PermissionRequest :=
  {| pr_Permission := {| pd_Type := "hitl"; pd_Action := "tool:deploy"; pd_Resource := "agent";
                         pd_RequiresHITL := true |};
     pr_Justification := "deploy"; pr_Scope := scope; pr_Duration := 0; pr_Risk := RiskLevelMedium |}.

Definition request_with (behavior : string) : HITLRequest :=
  {| hr_ID := EmptyString; hr_Body := body GrantScopeOneTime; hr_Timeout := second;
     hr_TimeoutBehavior := behavior; hr_RequestedAt := zero_time; hr_State := EmptyString |}.

Definition clk0 (i : nat) : Time := (7 + Z.of_nat i)%Z.
Definition id0 : string := hr_ID (stamp clk0 (request_with EmptyString)).

Definition broker0 : HITLBroker := NewHITLBroker 0 true.
Definition waiting0 : HITLBroker := (RequestPermission clk0 (request_with EmptyString) broker0).2.
Definition approval0 : PermissionDecision :=
  {| dn_RequestID := id0; dn_Approved := true; dn_ApprovedBy := "operator"; dn_Scope := EmptyString;
     dn_ExpiresAt := zero_time; dn_Reason := EmptyString |}.
Definition approved0 : HITLBroker := (Approve approval0 waiting0).2.

Lemma run_approved : run broker0 [LRegister id0; LResolve id0 true approval0] approved0.
Proof.
  change [LRegister id0; LResolve id0 true approval0]
    with (([] ++ [LRegister id0]) ++ [LResolve id0 true approval0]).
  eapply run_snoc; [eapply run_snoc; [apply run_nil|]|].
  - apply (s_request clk0 (request_with EmptyString) broker0 (Waiting 0) waiting0).
    apply injective_projections; [vm_compute; reflexivity|reflexivity].
  - apply (s_resolve id0 true approval0 waiting0 None approved0).
    apply injective_projections; [vm_compute; reflexivity|reflexivity].
Qed.

Lemma hitl_settled_once_witness :
  registered id0 [LRegister id0; LResolve id0 true approval0] =
  settled id0 [LRegister id0; LResolve id0 true approval0] + pend approved0 id0.
Proof. exact (hitl_settled_once 0 true _ approved0 id0 run_approved). Defined.

Definition grant0 : PermissionGrant :=
  {| g_ID := id0; g_Permission := pr_Permission (body GrantScopeOneTime); g_Scope := GrantScopeOneTime;
     g_ExpiresAt := zero_time; g_ApprovedBy := "operator"; g_GrantedAt := 9; g_SessionID := EmptyString |}.

Lemma hitl_grant_provenance_witness :
  ∃ h' r buf, RequestPermission_wake 9 0 OnDecision approved0 = Some (Ok grant0, h') ∧
    hb_blocked approved0 !! 0 = Some (r, buf) ∧ g_Permission grant0 = pr_Permission (hr_Body r).
Proof.
  destruct (RequestPermission_wake 9 0 OnDecision approved0) as [[res h']|] eqn:Hw;
    [|exfalso; revert Hw; vm_compute; discriminate].
  assert (fst <$> RequestPermission_wake 9 0 OnDecision approved0 = Some (Ok grant0)) as Hres
    by (vm_compute; reflexivity).
  rewrite Hw in Hres. cbn in Hres. simplify_eq.
  destruct (hitl_grant_provenance 0 true _ approved0 9 0 OnDecision grant0 h' run_approved Hw)
    as (r & buf & Hb & Hp & _).
  exists h', r, buf. split; [reflexivity|]. split; [exact Hb|exact Hp].
Defined.

(** An asynchronous request nobody answered for a second. *)
Definition pending1 : HITLBroker := (SubmitAsync clk0 (request_with EmptyString) broker0).2.
Definition later : Time := (2 * second)%Z.

Lemma hitl_no_late_approval_witness :
  due later pending1 id0 (stamp clk0 (request_with EmptyString)) = true ∧
  (Approve approval0 (expireDue later (map_to_list (hb_requests pending1)) pending1)).1 =
  Some (ErrFmt "request %s not found or expired" [id0]).
Proof.
  assert (due later pending1 id0 (stamp clk0 (request_with EmptyString)) = true) as Hdue
    by (vm_compute; reflexivity).
  split; [exact Hdue|].
  pose proof (hitl_no_late_approval later (map_to_list (hb_requests pending1)) pending1 id0
    (stamp clk0 (request_with EmptyString)) (Permutation_refl _) ltac:(vm_compute; reflexivity)) as Hr.
  rewrite Hdue in Hr. unfold Approve. cbn [dn_RequestID approval0]. rewrite Hr. reflexivity.
Defined.

Definition skipping0 : HITLBroker := (RequestPermission clk0 (request_with HITLTimeoutBehaviorSkip) broker0).2.

Lemma denied_then_skipped_witness :
  (Deny id0 "no" skipping0).1 = None ∧
  ∃ g h2, RequestPermission_wake later 0 OnTimeout (Deny id0 "no" skipping0).2 = Some (Ok g, h2).
Proof.
  split; [vm_compute; reflexivity|].
  apply (denied_then_skipped skipping0 later 0 (stamp clk0 (request_with HITLTimeoutBehaviorSkip)) id0 "no").
  - vm_compute. reflexivity.
  - reflexivity.
  - apply injective_projections; [vm_compute; reflexivity|reflexivity].
Defined.

(** ** Commands

    The theorems of command authorization at concrete commands, with a parser
    defined on the scripts used and the manager of [PermissionsExamples]. *)
Definition nested_script : string := "sh -c 'if'".
Definition redirect_script : string := "echo hi > $OUT".

(** The two scripts above; any other is rejected. *)
Definition parse0 (s : string) : result (list node) :=
  if bool_decide (s = nested_script)
  then Ok [CallExpr [[Lit "sh"]; [Lit "-c"]; [SglQuoted false "if"]]]
  else if bool_decide (s = redirect_script)
  then Ok [CallExpr [[Lit "echo"]; [Lit "hi"]]; Redirect RdrOut (Some [OtherPart])]
  else Err (ErrMsg "syntax error").

Definition resolve0 (host : string) : result Target := Ok {| Token := host; Class_ := ClassPublic; Literal := false |}.

Lemma lift_covers_command_witness :
  grows lp_empty (liftCommand parse0 ["nice"; "rm"; "a"] lp_empty 0).2 ∧
  {| ex_Binary := "nice"; ex_Args := ["rm"; "a"]; ex_Env := []; ex_HITLRequired := false |}
    ∈ lp_Executables (liftCommand parse0 ["nice"; "rm"; "a"] lp_empty 0).2.
Proof.
  destruct (lift_covers_command parse0 "nice" ["rm"; "a"] lp_empty 0 _ _
    (surjective_pairing (liftCommand parse0 ["nice"; "rm"; "a"] lp_empty 0))) as [Hg Hin].
  split; [exact Hg|exact Hin].
Defined.

Definition git_status : CommandAuthorizationRequest :=
  {| Command := ["git"; "status"]; Env := []; Source := EmptyString |}.

Definition run_git := AuthorizeCommand ports_ws parse0 resolve0 true "agent" None git_status world0.


Lemma dynamic_redirect_unseen_witness :
  (liftCommand parse0 ["bash"; "-c"; redirect_script] lp_empty 0) =
  (None, (liftCommand parse0 ["echo"; "hi"] (add_exec "bash" ["-c"; redirect_script] lp_empty) 1).2).
Proof.
  apply (dynamic_redirect_unseen parse0 redirect_script RdrOut (Some [OtherPart])
    [[Lit "echo"]; [Lit "hi"]] "echo" ["hi"]); (discriminate || reflexivity).
Defined.

Lemma nested_parse_error_swallowed_witness :
  liftCommand parse0 ["bash"; "-c"; nested_script] lp_empty 0 =
  (None, add_exec "sh" ["-c"; "if"] (add_exec "bash" ["-c"; nested_script] lp_empty)).
Proof.
  apply (nested_parse_error_swallowed parse0 nested_script "if" (ErrMsg "syntax error"));
    (discriminate || reflexivity).
Defined.

(** ** Network

    Concrete tokens, record sets and cache histories for the theorems of
    NetSafety. *)
Definition google : option IP := Some (mapped (quad 8 8 8 8)).
Definition metadata : option IP := Some (mapped (quad 169 254 169 254)).

Lemma most_restrictive_wins_witness :
  ∃ ip, ip ∈ [google; metadata] ∧
    ClassifyResolved {| rh_Token := "a.example"; rh_IPs := [google; metadata]; rh_ResolvedAt := 0 |} = ClassifyIP ip.
Proof.
  exact (proj1 (most_restrictive_wins
    {| rh_Token := "a.example"; rh_IPs := [google; metadata]; rh_ResolvedAt := 0 |} ltac:(done))).
Defined.

Lemma parse_extends_net_witness :
  bare_token " [127.0.0.1] " = Some "127.0.0.1" ∧
  ParseHostToken " [127.0.0.1] " = Some (mapped (quad 127 0 0 1)).
Proof.
  split; [vm_compute; reflexivity|].
  apply (parse_extends_net " [127.0.0.1] " "127.0.0.1"); vm_compute; reflexivity.
Defined.

(** One lookup of the name, stored a second ago. *)
Definition lookup_a : dns_lookup :=
  {| l_opts := DefaultResolveOptions; l_token := "Example.com"; l_now := 0; l_answer := Ok [google] |}.
Definition cache_a : gmap string cacheEntry :=
  (settle map_to_list (norm (l_opts lookup_a)) (l_token lookup_a) (l_now lookup_a) (l_answer lookup_a) ∅).2.

Lemma cache_a_trace : cache_trace map_to_list [lookup_a] cache_a.
Proof. apply trace_settle, trace_start. Qed.

Lemma egress_public_only_witness :
  (CheckNetwork ports_ws "agent" "egress" "tcp" target_ws 443 world0).1 = Ok () ∧
  public_behind [lookup_a] "example.com" second (Err (ErrMsg "no network")).
Proof.
  split; [vm_compute; reflexivity|].
  assert (CheckNetwork ports_ws "agent" "egress" "tcp" target_ws 443 world0 =
    (Ok (), (CheckNetwork ports_ws "agent" "egress" "tcp" target_ws 443 world0).2)) as Hr
    by (apply call_result; vm_compute; reflexivity).
  exact (proj2 (egress_public_only map_to_list ports_ws [lookup_a] cache_a "agent" "egress" "tcp" "example.com"
    second (Err (ErrMsg "no network")) target_ws cache_a 443 world0 _ cache_a_trace
    ltac:(vm_compute; reflexivity) Hr)).
Defined.

Lemma resolve_cache_bounded_witness :
  (Z.of_nat (size cache_a) <= 4096)%Z ∧ size (evictOldestLocked map_to_list 0 cache_a) = 0.
Proof.
  destruct (resolve_cache_bounded map_to_list (λ c, reflexivity _) [lookup_a] cache_a DefaultResolveOptions
    cache_a_trace ltac:(repeat constructor)) as [H1 H2].
  split; [exact H1|]. exact (proj1 (H2 0%Z)).
Defined.

(** ** Policies

    The theorems about policy rules, their compilation and the engine at a
    concrete spec: a denied tool beside a global allow, a capability policy and a
    session policy that names two actor kinds. *)
Definition noon : LocalTime := {| lt_instant := (12 * hour)%Z; lt_offset := 0 |}.

Definition tool_request (name trust : string) : PolicyRequest :=
  {| req_Target := PolicyTargetCapability; req_Actor := {| actor_Kind := "user"; actor_ID := "u1" |};
     req_Authenticated := true; req_CapabilityID := EmptyString; req_CapabilityName := name;
     req_LineageID := EmptyString; req_ExportName := EmptyString; req_SourceDomain := EmptyString;
     req_ContextClass := EmptyString; req_SensitivityClass := EmptyString; req_RouteMode := EmptyString;
     req_CapabilityKind := "tool"; req_RuntimeFamily := "local-tool"; req_ProviderKind := EmptyString;
     req_ProviderOrigin := EmptyString; req_TrustClass := trust; req_RiskClasses := [];
     req_EffectClasses := []; req_Partition := EmptyString; req_ChannelID := EmptyString;
     req_SessionID := EmptyString; req_SessionScope := EmptyString; req_SessionOperation := EmptyString;
     req_IsOwner := false; req_IsDelegated := false; req_ExternalProvider := EmptyString;
     req_HasExternalBinding := false; req_ResolvedExternal := false; req_RestrictedExternal := false;
     req_Timestamp := noon |}.

Definition session_policy : SessionPolicy :=
  {| sp_ID := "s1"; sp_Name := "block bots"; sp_Priority := 10; sp_Enabled := true;
     sp_Selector := {| ss_Partitions := []; ss_ChannelIDs := []; ss_Scopes := []; ss_TrustClasses := [];
       ss_Operations := ["send"]; ss_ActorKinds := ["bot"; "user"]; ss_ActorIDs := [];
       ss_ExternalProviders := []; ss_RequireOwnership := None; ss_RequireDelegation := None;
       ss_RequireExternalBinding := None; ss_RequireResolvedExternal := None;
       ss_RequireRestrictedExternal := None; ss_AuthenticatedOnly := None |};
     sp_Effect := "deny"; sp_Approvers := []; sp_ApprovalTTL := EmptyString; sp_Reason := "no bots" |}.

Definition spec_with (tools : list (string * string)) : PolicyInput :=
  {| GetToolExecutionPolicy := tools; GetCapabilityPolicies := [];
     GetProviderPolicies := []; GetSessionPolicies := [session_policy]; GetGlobalPolicies := [] |}.

Definition spec1 : PolicyInput := spec_with [("shell", "deny"); ("grep", "allow")].
Definition spec2 : PolicyInput := spec_with [("grep", "allow"); ("shell", "deny")].

Definition rules_of (spec : PolicyInput) : list PolicyRule :=
  match CompileAgentSpecPolicyRules (Some spec) with Ok rules => rules | Err _ => [] end.

Lemma spec1_compiles : CompileAgentSpecPolicyRules (Some spec1) = Ok (rules_of spec1).
Proof. vm_compute. reflexivity. Qed.

Lemma compile_well_formed_witness :
  length (rules_of spec1) = 3 ∧ StronglySorted rule_before (rules_of spec1).
Proof.
  split; [vm_compute; reflexivity|].
  exact (proj1 (compile_well_formed (Some spec1) (rules_of spec1) spec1_compiles)).
Defined.

Lemma compile_deterministic_witness :
  ∃ rules', CompileAgentSpecPolicyRules (Some spec2) = Ok rules' ∧
    dec_Effect <$> EvaluatePolicyRules noon (rules_of spec1) (tool_request "grep" EmptyString) =
    dec_Effect <$> EvaluatePolicyRules noon rules' (tool_request "grep" EmptyString).
Proof.
  destruct (compile_deterministic spec1 spec2 (rules_of spec1)) as (rules' & Hc & He).
  - split_and!; try reflexivity. apply perm_swap.
  - exact spec1_compiles.
  - exists rules'. split; [exact Hc|apply He].
Defined.

Lemma tool_deny_enforced_witness :
  dec_Effect <$> EvaluatePolicyRules noon (rules_of spec1) (tool_request " SHELL " EmptyString) = Some "deny".
Proof.
  apply (tool_deny_enforced spec1 _ noon (tool_request " SHELL " EmptyString) "shell" "deny" spec1_compiles).
  - apply (bool_decide_unpack _). vm_compute. exact I.
  - reflexivity.
  - reflexivity.
  - reflexivity.
  - reflexivity.
  - reflexivity.
Defined.

Definition session_rule : PolicyRule :=
  match compileSessionPolicy session_policy with
  | Ok r => r
  | Err _ => {| rule_ID := EmptyString; rule_Name := EmptyString; rule_Priority := 0; Enabled := false;
                Conditions := no_conditions; rule_Effect := {| Action := EmptyString; Approvers := [];
                  ApprovalTTL := EmptyString; eff_RateLimit := None; eff_Reason := EmptyString |} |}
  end.

Lemma session_extra_kinds_ignored_witness :
  "user" ∈ ss_ActorKinds (sp_Selector session_policy) ∧
  ruleMatchesRequest noon session_rule (tool_request "shell" EmptyString) = false.
Proof.
  split; [apply (bool_decide_unpack _); vm_compute; exact I|].
  exact (session_extra_kinds_ignored session_policy session_rule noon (tool_request "shell" EmptyString)
    "bot" ["user"] ltac:(vm_compute; reflexivity) eq_refl ltac:(vm_compute; reflexivity)).
Defined.

Definition office_hours : TimeWindow :=
  {| After := "09:00"; Before := "17:30"; Days := []; Timezone := EmptyString |}.

Lemma time_window_spec_witness :
  matchesTimeWindow noon office_hours noon = true ↔ (60 * 9 + 0 <= minute_of_day noon <= 60 * 17 + 30)%Z.
Proof.
  apply (time_window_spec noon office_hours noon 9 0 17 30); try lia; vm_compute; reflexivity.
Defined.

Definition morning : TimeWindow :=
  {| After := "9:30"; Before := EmptyString; Days := []; Timezone := EmptyString |}.

Lemma one_digit_hour_never_matches_witness :
  TimeWindow_Validate morning = None ∧ matchesTimeWindow noon morning noon = false.
Proof. apply (one_digit_hour_never_matches noon morning noon 9 30); try lia; vm_compute; reflexivity. Defined.

Definition plain_rule (id action : string) (priority : Z) : PolicyRule :=
  {| rule_ID := id; rule_Name := id; rule_Priority := priority; Enabled := true;
     Conditions := no_conditions;
     rule_Effect := {| Action := action; Approvers := []; ApprovalTTL := EmptyString;
                       eff_RateLimit := None; eff_Reason := "because" |} |}.
Definition conflict : list PolicyRule := [plain_rule "a" "allow" 100; plain_rule "d" "deny" 1].

Lemma winner_tiebreak_witness :
  ∃ pre w post, filter (candidate noon (tool_request "x" EmptyString)) conflict = pre ++ w :: post ∧
    decisionForEffect effectDeny (Some (plain_rule "d" "deny" 1)) =
    decisionForEffect (rule_effect w) (Some w).
Proof.
  assert (evaluateCompiledRules noon conflict (tool_request "x" EmptyString) =
    (Some (decisionForEffect effectDeny (Some (plain_rule "d" "deny" 1))),
     [{| Winner := plain_rule "d" "deny" 1; Shadowed := plain_rule "a" "allow" 100 |}])) as He
    by (vm_compute; reflexivity).
  destruct (winner_tiebreak noon conflict (tool_request "x" EmptyString) _ _ He)
    as (pre & w & post & Hf & Hd & _).
  exists pre, w, post. split; [exact Hf|exact Hd].
Defined.

(** ** Enforcement *)
Definition engine1 : ManifestPolicyEngine :=
  {| e_agentID := "agent"; e_manager := true; e_rules := rules_of spec1 |}.

Definition approval1 : ApprovalRequest :=
  {| ap_AgentID := "agent"; ap_Manager := true; ap_Permission := deploy; ap_Justification := "deploy";
     ap_Scope := GrantScopeOneTime; ap_Risk := RiskLevelMedium; ap_Duration := 0;
     ap_MissingManagerErr := EmptyString; ap_DenyReasonFallback := EmptyString |}.

(** An untrusted tool no rule names: approval is asked for, and given. *)
Definition remote_tool : PolicyRequest := tool_request "deploy" "remote-declared".

Abbreviation enforce1 := (EnforcePolicyRequest ports_ws noon (Some (Some engine1)) remote_tool approval1 world0).

Lemma enforce1_ok : enforce1 = ((PolicyDecisionRequireApproval None, None), enforce1.2).
Proof. apply call_result. vm_compute. reflexivity. Qed.

Lemma enforce_fail_closed_witness :
  enforce1.1.2 = None ∧
  ∃ eng w1, Some (Some engine1) = Some eng ∧
    engine_Evaluate noon eng remote_tool world0 = ((PolicyDecisionRequireApproval None, None), w1).
Proof.
  split; [vm_compute; reflexivity|].
  destruct (enforce_fail_closed ports_ws noon (Some (Some engine1)) remote_tool approval1 world0 _ _
    ltac:(intros eng Heng; simplify_eq; vm_compute; reflexivity) enforce1_ok) as (eng & w1 & He & Hv & _).
  exists eng, w1. split; [exact He|exact Hv].
Defined.

Lemma enforce_manifest_sound_witness :
  enforce1.1.2 = None ∧
  (((∃ r, r ∈ e_rules engine1 ∧ candidate noon remote_tool r) ∧
    ∀ r, r ∈ e_rules engine1 → candidate noon remote_tool r → rule_effect r ∈ [effectAllow; effectLogOnly]) ∨
   ((∀ r, r ∈ e_rules engine1 → ¬ candidate noon remote_tool r) ∧ trusted_by_default remote_tool) ∨
   consent ports_ws (grant_key deploy) world0).
Proof.
  split; [vm_compute; reflexivity|].
  exact (proj2 (enforce_manifest_sound ports_ws noon engine1 remote_tool approval1 world0 _ _ world0_ok enforce1_ok)).
Defined.

Lemma no_engine_denies_witness :
  EnforcePolicyRequest ports_ws noon (Some (None : option ManifestPolicyEngine)) remote_tool approval1 world0 =
  (unavailable, world0).
Proof. exact (proj1 (no_engine_denies ports_ws noon remote_tool approval1 world0 (Some None) I)). Defined.
