(* ===== verification/Selector.v ===== *)
(** * Selector

    Capability selectors: [capability/registry/capability_selector_helpers.go], the
    matching of [capability_policy_eval.go], and the descriptor of
    [capability/descriptor/descriptor.go].  Schemas, availability and annotations of
    a descriptor, which selection does not read, are left out. *)
From S2P Require Import Prelude GoStrings Policy PolicyMatch.

Definition TrustClassBuiltinTrusted : string := "builtin-trusted".
Definition TrustClassWorkspaceTrusted : string := "workspace-trusted".
Definition TrustClassLLMGenerated : string := "llm-generated".
Definition TrustClassToolResult : string := "tool-result".
Definition TrustClassProviderLocalUntrusted : string := "provider-local-untrusted".
Definition TrustClassRemoteDeclared : string := "remote-declared-untrusted".
Definition TrustClassRemoteApproved : string := "remote-approved".

(** [EnabledState]: unset, enabled, disabled. *)
Definition EnabledStateUnset : Z := 0.
Definition EnabledStateEnabled : Z := 1.
Definition EnabledStateDisabled : Z := 2.

Record CapabilitySelector := {
  sel_ID : string;
  sel_Name : string;
  sel_Kind : string;
  sel_RuntimeFamilies : list string;
  sel_Tags : list string;
  sel_ExcludeTags : list string;
  sel_SourceScopes : list string;
  sel_TrustClasses : list string;
  sel_RiskClasses : list string;
  sel_EffectClasses : list string;
  sel_CoordinationRoles : list string;
  sel_CoordinationTaskTypes : list string;
  sel_CoordinationExecutionModes : list string;
  sel_CoordinationLongRunning : Z;
  sel_CoordinationDirectInsertion : Z
}.

Record CapabilitySource := { src_ProviderID : string; src_Scope : string; src_SessionID : string }.

Record CoordinationTargetMetadata := {
  co_Target : bool; co_Role : string; co_TaskTypes : list string; co_ExecutionModes : list string;
  co_LongRunning : Z; co_MaxDepth : Z; co_MaxRuntimeSeconds : Z; co_DirectInsertionAllowed : Z
}.

(** The value of an annotation: a list of strings, a list with values that are not strings, or
    anything else. *)
Inductive Annotation := AStrings (l : list string) | AList (l : list (option string)) | AOther.

Record CapabilityDescriptor := {
  desc_ID : string;
  desc_Kind : string;
  desc_RuntimeFamily : string;
  desc_Name : string;
  desc_Tags : list string;
  desc_Source : CapabilitySource;
  desc_TrustClass : string;
  desc_EffectClasses : list string;
  desc_SessionAffinity : string;
  desc_Coordination : option CoordinationTargetMetadata;
  desc_Category : string;
  desc_Annotations : gmap string Annotation
}.

Definition desc_risks (d : CapabilityDescriptor) : list string :=
  Classify (desc_EffectClasses d) (src_Scope (desc_Source d)).

(** ** Validation *)

(** The loop that rejects the first value outside a vocabulary. *)
Definition check_class (format : string) (allowed values : list string) : option gerror :=
  first_error ((λ v, check (negb (bool_decide (v ∈ allowed))) (ErrFmt format [v])) <$> values).

Definition check_blank (msg : string) (values : list string) : option gerror :=
  first_error ((λ v, check (is_blank v) (ErrMsg msg)) <$> values).

Definition check_state (format : string) (s : Z) : option gerror :=
  check (negb (bool_decide (s ∈ [EnabledStateUnset; EnabledStateEnabled; EnabledStateDisabled])))
        (ErrFmt format [fmt_pad 1 s]).

Definition selector_empty (s : CapabilitySelector) : bool :=
  is_blank (sel_ID s) && is_blank (sel_Name s) && bool_decide (sel_Kind s = EmptyString) &&
  bool_decide (sel_RuntimeFamilies s = []) && bool_decide (sel_Tags s = []) &&
  bool_decide (sel_ExcludeTags s = []) && bool_decide (sel_SourceScopes s = []) &&
  bool_decide (sel_TrustClasses s = []) && bool_decide (sel_RiskClasses s = []) &&
  bool_decide (sel_EffectClasses s = []) && bool_decide (sel_CoordinationRoles s = []) &&
  bool_decide (sel_CoordinationTaskTypes s = []) && bool_decide (sel_CoordinationExecutionModes s = []) &&
  (sel_CoordinationLongRunning s =? EnabledStateUnset)%Z &&
  (sel_CoordinationDirectInsertion s =? EnabledStateUnset)%Z.

Definition selector_scopes : list string :=
  [CapabilityScopeBuiltin; CapabilityScopeWorkspace; CapabilityScopeProvider; CapabilityScopeRemote].
Definition selector_families : list string := ["local-tool"; "provider"; "relurpic"].
Definition selector_trusts : list string :=
  [TrustClassBuiltinTrusted; TrustClassWorkspaceTrusted; TrustClassLLMGenerated; TrustClassToolResult;
   TrustClassProviderLocalUntrusted; TrustClassRemoteDeclared; TrustClassRemoteApproved].
Definition selector_risks : list string :=
  [RiskClassReadOnly; RiskClassDestructive; RiskClassExecute; RiskClassNetwork; RiskClassCredentialed;
   RiskClassExfiltration; RiskClassSessioned].
Definition selector_effects : list string :=
  [EffectClassFilesystemMutation; EffectClassProcessSpawn; EffectClassNetworkEgress;
   EffectClassCredentialUse; EffectClassExternalState; EffectClassSessionCreation;
   EffectClassContextInsertion].
Definition selector_roles : list string :=
  ["planner"; "architect"; "reviewer"; "verifier"; "executor"; "domain-pack"; "background-agent"].
Definition selector_modes : list string := ["sync"; "session-backed"; "background-service"].

Definition ValidateCapabilitySelector (s : CapabilitySelector) : option gerror :=
  first_error
    [check (selector_empty s) (ErrMsg "selector must declare at least one match field");
     check_blank "selector contains empty tag" (sel_Tags s);
     check_blank "selector contains empty tag" (sel_ExcludeTags s);
     check_blank "selector contains empty coordination task type" (sel_CoordinationTaskTypes s);
     check_class "source scope %s invalid" selector_scopes (sel_SourceScopes s);
     check_class "runtime family %s invalid" selector_families (sel_RuntimeFamilies s);
     check_class "trust class %s invalid" selector_trusts (sel_TrustClasses s);
     check_class "risk class %s invalid" selector_risks (sel_RiskClasses s);
     check_class "effect class %s invalid" selector_effects (sel_EffectClasses s);
     check_class "coordination role %s invalid" selector_roles (sel_CoordinationRoles s);
     check_class "coordination execution mode %s invalid" selector_modes (sel_CoordinationExecutionModes s);
     check_state "coordination long_running state %d invalid" (sel_CoordinationLongRunning s);
     check_state "coordination direct_insertion state %d invalid" (sel_CoordinationDirectInsertion s)].

(** ** Matching *)
Definition containsTag (want : string) (haystack : list string) : bool :=
  let want := to_lower (trim_space want) in
  if bool_decide (want = EmptyString) then false
  else existsb (λ v, equal_fold (trim_space v) want) haystack.

Definition containsAllTags (values haystack : list string) : bool :=
  forallb (λ want, containsTag (trim_space want) haystack) values.

Definition containsAnyTag (values haystack : list string) : bool :=
  existsb (λ blocked, containsTag (trim_space blocked) haystack) values.

Definition containsStringFold (want : string) (haystack : list string) : bool :=
  let want := trim_space want in
  if bool_decide (want = EmptyString) then false
  else existsb (λ v, equal_fold (trim_space v) want) haystack.

Definition containsAllCoordinationTaskTypes (values haystack : list string) : bool :=
  forallb (λ want, containsStringFold (trim_space want) haystack) values.

(** [containsAnyRisk], [containsAnyEffect] and [containsAnyCoordinationExecutionMode]. *)
Definition contains_any (values haystack : list string) : bool :=
  existsb (λ needle, existsb (λ v, bool_decide (v = needle)) haystack) values.

(** An empty list of wanted values does not constrain. *)
Definition if_any (values : list string) (b : bool) : bool := bool_decide (values = []) || b.

Definition on_coordination (d : CapabilityDescriptor) (p : CoordinationTargetMetadata → bool) : bool :=
  match desc_Coordination d with Some c => p c | None => false end.

Definition SelectorMatchesDescriptor (s : CapabilitySelector) (d : CapabilityDescriptor) : bool :=
  (is_blank (sel_ID s) || equal_fold (trim_space (sel_ID s)) (desc_ID d)) &&
  (is_blank (sel_Name s) || equal_fold (trim_space (sel_Name s)) (desc_Name d)) &&
  (bool_decide (sel_Kind s = EmptyString) || bool_decide (sel_Kind s = desc_Kind d)) &&
  if_any (sel_RuntimeFamilies s) (containsExact (sel_RuntimeFamilies s) (desc_RuntimeFamily d)) &&
  if_any (sel_Tags s) (containsAllTags (sel_Tags s) (desc_Tags d)) &&
  if_any (sel_ExcludeTags s) (negb (containsAnyTag (sel_ExcludeTags s) (desc_Tags d))) &&
  if_any (sel_SourceScopes s) (containsExact (sel_SourceScopes s) (src_Scope (desc_Source d))) &&
  if_any (sel_TrustClasses s) (containsExact (sel_TrustClasses s) (desc_TrustClass d)) &&
  if_any (sel_RiskClasses s) (contains_any (sel_RiskClasses s) (desc_risks d)) &&
  if_any (sel_EffectClasses s) (contains_any (sel_EffectClasses s) (desc_EffectClasses d)) &&
  if_any (sel_CoordinationRoles s)
    (on_coordination d (λ c, containsExact (sel_CoordinationRoles s) (co_Role c))) &&
  if_any (sel_CoordinationTaskTypes s)
    (on_coordination d (λ c, containsAllCoordinationTaskTypes (sel_CoordinationTaskTypes s) (co_TaskTypes c))) &&
  if_any (sel_CoordinationExecutionModes s)
    (on_coordination d (λ c, contains_any (sel_CoordinationExecutionModes s) (co_ExecutionModes c))) &&
  ((sel_CoordinationLongRunning s =? EnabledStateUnset)%Z ||
   on_coordination d (λ c, (co_LongRunning c =? sel_CoordinationLongRunning s)%Z)) &&
  ((sel_CoordinationDirectInsertion s =? EnabledStateUnset)%Z ||
   on_coordination d (λ c, (co_DirectInsertionAllowed c =? sel_CoordinationDirectInsertion s)%Z)).

(** ** Merging *)
Definition join (sep : string) (l : list string) : string :=
  match l with
  | [] => EmptyString
  | x :: l' => foldl (λ acc y, acc +:+ sep +:+ y) x l'
  end.

Definition enabledStateKey (s : Z) : string := fmt_pad 1 s.

Definition capabilitySelectorKey (s : CapabilitySelector) : string :=
  join "|" [sel_ID s; sel_Name s; sel_Kind s;
            join "," (sel_RuntimeFamilies s); join "," (sel_Tags s); join "," (sel_ExcludeTags s);
            join "," (sel_SourceScopes s); join "," (sel_TrustClasses s); join "," (sel_RiskClasses s);
            join "," (sel_EffectClasses s); join "," (sel_CoordinationRoles s);
            join "," (sel_CoordinationTaskTypes s); join "," (sel_CoordinationExecutionModes s);
            enabledStateKey (sel_CoordinationLongRunning s); enabledStateKey (sel_CoordinationDirectInsertion s)].

(** The loop of [MergeCapabilitySelectors]; cloning is the identity on values. *)
Fixpoint merge_selectors (seen : gset string) (l : list CapabilitySelector) : list CapabilitySelector :=
  match l with
  | [] => []
  | s :: l' =>
      if bool_decide (capabilitySelectorKey s ∈ seen) then merge_selectors seen l'
      else s :: merge_selectors ({[capabilitySelectorKey s]} ∪ seen) l'
  end.

Definition MergeCapabilitySelectors (base extra : list CapabilitySelector) : list CapabilitySelector :=
  if bool_decide (length extra = 0) then base else merge_selectors ∅ (base ++ extra).
