(* ===== verification/Envelope.v ===== *)
(** * Envelope

    [context/contextdata]: the execution context a run carries from node to node
    (envelope.go, working_data.go, reference.go, origins.go, slice.go, stream.go,
    checkpoint.go).

    Every method runs under the envelope's mutex, so a method is one transition; a
    clock reading a method takes is an argument.  A working value is Go's [any]:
    [Any] has the types the package itself stores or switches on, and [VOther] for
    everything else, over a type parameter with its own [reflect.DeepEqual].
    Values are shared, never copied, between an envelope and its clones; nothing in
    the package mutates one in place.  Copies of maps and slices are the same
    value here. *)
From S2P Require Import Prelude GoStrings.

(** ** Origins *)
Definition OriginUser : string := "user".
Definition OriginTool : string := "tool".
Definition OriginLLM : string := "llm".

Definition OriginClass_Valid (o : string) : bool := bool_decide (o ∈ [OriginUser; OriginTool; OriginLLM]).

Definition originRestrictiveness (o : string) : Z :=
  if bool_decide (o = OriginUser) then 1
  else if bool_decide (o = OriginTool) then 2
  else if bool_decide (o = OriginLLM) then 3
  else 3.

Definition MostRestrictive (a b : string) : string :=
  if (originRestrictiveness b <=? originRestrictiveness a)%Z then a else b.

(** ** References *)
Definition MemoryClassEphemeral : string := "ephemeral".
Definition MemoryClassSession : string := "session".
Definition MemoryClassTask : string := "task".

Record ChunkReference := {
  cr_ChunkID : string; cr_Source : string; cr_Rank : Z; cr_IsSummary : bool;
  cr_OriginalChunk : string; cr_TokenCount : Z; cr_RetrievedAt : Time
}.

Record WorkingMemoryReference := {
  wm_TaskID : string; wm_Key : string; wm_Class : string;
  wm_CreatedAt : Time; wm_UpdatedAt : Time; wm_ValueHash : string
}.

Record RetrievalReference := {
  rr_QueryID : string; rr_QueryText : string; rr_Scope : string; rr_ChunkIDs : list string;
  rr_TotalFound : Z; rr_FilteredOut : Z; rr_RetrievedAt : Time; rr_Duration : Duration
}.

Record CheckpointReference := {
  cp_CheckpointID : string; cp_SequenceNum : Z; cp_RequestedBy : string;
  cp_CreatedAt : Time; cp_WorkingMemoryKeys : list string
}.

Record ReferenceBundle := {
  StreamedContext : list ChunkReference;
  WorkingMemory : list WorkingMemoryReference;
  Retrieval : list RetrievalReference;
  Checkpoints : list CheckpointReference
}.

Definition no_references : ReferenceBundle :=
  {| StreamedContext := []; WorkingMemory := []; Retrieval := []; Checkpoints := [] |}.

Definition ReferenceBundle_IsEmpty (b : ReferenceBundle) : bool :=
  bool_decide (length (StreamedContext b) = 0) && bool_decide (length (WorkingMemory b) = 0) &&
  bool_decide (length (Retrieval b) = 0) && bool_decide (length (Checkpoints b) = 0).

(** The entry [(taskID, key)] of the working-memory tier. *)
Definition ref_is (taskID key : string) (r : WorkingMemoryReference) : bool :=
  bool_decide (wm_TaskID r = taskID) && bool_decide (wm_Key r = key).

Definition HasWorkingMemoryKey (b : ReferenceBundle) (taskID key : string) : bool :=
  existsb (ref_is taskID key) (WorkingMemory b).

Definition GetWorkingMemoryRef (b : ReferenceBundle) (taskID key : string) : option WorkingMemoryReference :=
  find (ref_is taskID key) (WorkingMemory b).

(** ** Slices *)
Record StreamedChunk := {
  sc_ChunkID : string; sc_ContentHash : string; sc_Body : string; sc_TokenEstimate : Z;
  sc_TrustClass : string; sc_IsSummary : bool; sc_ArtifactKey : string; sc_ObservedAt : Time
}.

Record StreamedSlice := {
  sl_RequestID : string; sl_Epoch : Z; sl_CompiledAt : Time; sl_BudgetTokens : Z; sl_FinalTokens : Z;
  sl_Chunks : list StreamedChunk; sl_GapMessages : list string; sl_CacheHit : bool
}.

Record SliceStamp := {
  st_RequestID : string; st_Epoch : Z; st_ChunkIDs : list string; st_ChunkHashes : list string;
  st_FinalTokens : Z; st_CacheHit : bool
}.

Definition slice_stamp (s : StreamedSlice) : SliceStamp :=
  {| st_RequestID := sl_RequestID s; st_Epoch := sl_Epoch s;
     st_ChunkIDs := sc_ChunkID <$> sl_Chunks s; st_ChunkHashes := sc_ContentHash <$> sl_Chunks s;
     st_FinalTokens := sl_FinalTokens s; st_CacheHit := sl_CacheHit s |}.

Record AssemblyMeta := {
  am_CompilationID : string; am_EventLogSeq : Z; am_BudgetTokens : Z; am_ShortfallTokens : Z;
  am_AssembledAt : Time; am_EpochID : Z; am_RunID : string
}.

Definition no_assembly : AssemblyMeta :=
  {| am_CompilationID := EmptyString; am_EventLogSeq := 0; am_BudgetTokens := 0; am_ShortfallTokens := 0;
     am_AssembledAt := zero_time; am_EpochID := 0; am_RunID := EmptyString |}.

Record CheckpointRequest := {
  cq_RequestedBy : string; cq_Reason : string; cq_Priority : Z; cq_EvictWorkingMemory : bool; cq_RequestedAt : Time
}.

Record HandoffPolicy := {
  PreserveWorkingMemory : bool; WorkingKeys : list string; WorkingPrefixes : list string;
  PreserveStreamedContext : bool; PreserveRetrieval : bool; PreserveCheckpoints : bool;
  PreserveAssemblyMetadata : bool; PreserveNodeID : bool
}.

Definition DefaultHandoffPolicy : HandoffPolicy :=
  {| PreserveWorkingMemory := true; WorkingKeys := []; WorkingPrefixes := []; PreserveStreamedContext := true;
     PreserveRetrieval := true; PreserveCheckpoints := true; PreserveAssemblyMetadata := true;
     PreserveNodeID := true |}.

(** ** Working values *)
Inductive Any {V : Type} :=
| VUint64 (n : Z)
| VUint (n : Z)
| VInt (n : Z)
| VInt64 (n : Z)
| VBool (b : bool)
| VString (s : string)
| VStrings (l : list string)
| VOther (v : V).
Arguments Any V : clear implicits.

Section envelope.
Context {V : Type} (other_equal : V → V → bool).

(** [valuesEqual], which is [reflect.DeepEqual]: different dynamic types differ. *)
Definition valuesEqual (a b : Any V) : bool :=
  match a, b with
  | VUint64 x, VUint64 y | VUint x, VUint y | VInt x, VInt y | VInt64 x, VInt64 y => (x =? y)%Z
  | VBool x, VBool y => eqb x y
  | VString x, VString y => bool_decide (x = y)
  | VStrings x, VStrings y => bool_decide (x = y)
  | VOther x, VOther y => other_equal x y
  | _, _ => false
  end.

(** [WorkingData] is [None] when the map is nil, which [DeleteWorkingValue] and
    [ClearWorkingData] can tell from an empty one. *)
Record Envelope := {
  TaskID : string;
  SessionID : string;
  NodeID : string;
  References : ReferenceBundle;
  WorkingData : option (gmap string (Any V));
  Origins : gmap string string;
  CheckpointRequested : option CheckpointRequest;
  AssemblyMetadata : AssemblyMeta;
  streamed : option StreamedSlice;
  streamHistory : list SliceStamp;
  createdAt : Time
}.

Definition NewEnvelope (taskID sessionID : string) (now : Time) : Envelope :=
  {| TaskID := taskID; SessionID := sessionID; NodeID := EmptyString; References := no_references;
     WorkingData := Some ∅; Origins := ∅; CheckpointRequested := None; AssemblyMetadata := no_assembly;
     streamed := None; streamHistory := []; createdAt := now |}.

(** *** Updates *)
Definition with_memory (d : option (gmap string (Any V))) (o : gmap string string)
    (rs : list WorkingMemoryReference) (e : Envelope) : Envelope :=
  {| TaskID := TaskID e; SessionID := SessionID e; NodeID := NodeID e;
     References := {| StreamedContext := StreamedContext (References e); WorkingMemory := rs;
                      Retrieval := Retrieval (References e); Checkpoints := Checkpoints (References e) |};
     WorkingData := d; Origins := o; CheckpointRequested := CheckpointRequested e;
     AssemblyMetadata := AssemblyMetadata e; streamed := streamed e; streamHistory := streamHistory e;
     createdAt := createdAt e |}.

Definition with_references (rs : ReferenceBundle) (e : Envelope) : Envelope :=
  {| TaskID := TaskID e; SessionID := SessionID e; NodeID := NodeID e; References := rs;
     WorkingData := WorkingData e; Origins := Origins e; CheckpointRequested := CheckpointRequested e;
     AssemblyMetadata := AssemblyMetadata e; streamed := streamed e; streamHistory := streamHistory e;
     createdAt := createdAt e |}.

Definition with_ids (task session node : string) (e : Envelope) : Envelope :=
  {| TaskID := task; SessionID := session; NodeID := node; References := References e;
     WorkingData := WorkingData e; Origins := Origins e; CheckpointRequested := CheckpointRequested e;
     AssemblyMetadata := AssemblyMetadata e; streamed := streamed e; streamHistory := streamHistory e;
     createdAt := createdAt e |}.

Definition with_assembly (m : AssemblyMeta) (e : Envelope) : Envelope :=
  {| TaskID := TaskID e; SessionID := SessionID e; NodeID := NodeID e; References := References e;
     WorkingData := WorkingData e; Origins := Origins e; CheckpointRequested := CheckpointRequested e;
     AssemblyMetadata := m; streamed := streamed e; streamHistory := streamHistory e;
     createdAt := createdAt e |}.

Definition with_request (r : option CheckpointRequest) (e : Envelope) : Envelope :=
  {| TaskID := TaskID e; SessionID := SessionID e; NodeID := NodeID e; References := References e;
     WorkingData := WorkingData e; Origins := Origins e; CheckpointRequested := r;
     AssemblyMetadata := AssemblyMetadata e; streamed := streamed e; streamHistory := streamHistory e;
     createdAt := createdAt e |}.

Definition SetNodeID (id : string) (e : Envelope) : Envelope := with_ids (TaskID e) (SessionID e) id e.
Definition SetTaskID (id : string) (e : Envelope) : Envelope := with_ids id (SessionID e) (NodeID e) e.
Definition SetSessionID (id : string) (e : Envelope) : Envelope := with_ids (TaskID e) id (NodeID e) e.

(** [len] and reads of a nil map are those of an empty one. *)
Definition data (e : Envelope) : gmap string (Any V) := default ∅ (WorkingData e).

Definition IsEmpty (e : Envelope) : bool :=
  bool_decide (size (data e) = 0) && ReferenceBundle_IsEmpty (References e).

(** *** Working memory *)

(** The first entry of the key is updated; a new one is appended. *)
Fixpoint touch_ref (taskID key : string) (f : WorkingMemoryReference → WorkingMemoryReference)
    (fresh : WorkingMemoryReference) (rs : list WorkingMemoryReference) : list WorkingMemoryReference :=
  match rs with
  | [] => [fresh]
  | r :: rs' => if ref_is taskID key r then f r :: rs' else r :: touch_ref taskID key f fresh rs'
  end.

Definition fresh_ref (taskID key class : string) (now : Time) : WorkingMemoryReference :=
  {| wm_TaskID := taskID; wm_Key := key; wm_Class := class; wm_CreatedAt := now; wm_UpdatedAt := now;
     wm_ValueHash := EmptyString |}.

Definition SetWorkingValueWithOrigin (key : string) (value : Any V) (class origin : string) (now : Time)
    (e : Envelope) : Envelope :=
  with_memory (Some (<[key := value]> (data e))) (<[key := origin]> (Origins e))
    (touch_ref (TaskID e) key
       (λ r, {| wm_TaskID := wm_TaskID r; wm_Key := wm_Key r; wm_Class := class;
                wm_CreatedAt := wm_CreatedAt r; wm_UpdatedAt := now; wm_ValueHash := wm_ValueHash r |})
       (fresh_ref (TaskID e) key class now) (WorkingMemory (References e))) e.

Definition SetWorkingValueWithClass (key : string) (value : Any V) (class : string) (now : Time)
    (e : Envelope) : Envelope := SetWorkingValueWithOrigin key value class OriginLLM now e.

Definition SetWorkingValue (key : string) (value : Any V) (now : Time) (e : Envelope) : Envelope :=
  SetWorkingValueWithClass key value MemoryClassTask now e.

(** The counter's stored value, normalized. *)
Definition sequence_value (v : option (Any V)) : Z :=
  match v with
  | Some (VUint64 n) | Some (VUint n) => n
  | Some (VInt n) | Some (VInt64 n) => if (0 <? n)%Z then n else 0
  | _ => 0
  end.

Definition NextSequence (key : string) (now : Time) (e : Envelope) : Z * Envelope :=
  let current := wrapu64 (sequence_value (data e !! key) + 1) in
  (current,
   with_memory (Some (<[key := VUint64 current]> (data e))) (<[key := OriginLLM]> (Origins e))
     (touch_ref (TaskID e) key
        (λ r, {| wm_TaskID := wm_TaskID r; wm_Key := wm_Key r; wm_Class := wm_Class r;
                 wm_CreatedAt := wm_CreatedAt r; wm_UpdatedAt := now; wm_ValueHash := wm_ValueHash r |})
        (fresh_ref (TaskID e) key MemoryClassTask now) (WorkingMemory (References e))) e).

Definition OriginOf (e : Envelope) (key : string) : string := default OriginLLM (Origins e !! key).

Definition DeleteWorkingValue (key : string) (e : Envelope) : Envelope :=
  match WorkingData e with
  | None => e
  | Some d =>
      with_memory (Some (delete key d)) (delete key (Origins e))
        (filter (λ r, ref_is (TaskID e) key r = false) (WorkingMemory (References e))) e
  end.

Definition WorkingMemoryKeys (e : Envelope) : list string :=
  wm_Key <$> filter (λ r, wm_TaskID r = TaskID e) (WorkingMemory (References e)).

Definition delete_all {A} (ks : list string) (m : gmap string A) : gmap string A :=
  foldl (λ m k, delete k m) m ks.

Definition ClearWorkingData (e : Envelope) : Envelope :=
  match WorkingData e with
  | None => e
  | Some d =>
      let ks := WorkingMemoryKeys e in
      with_memory (Some (delete_all ks d)) (delete_all ks (Origins e))
        (filter (λ r, wm_TaskID r ≠ TaskID e) (WorkingMemory (References e))) e
  end.

(** *** Streams, checkpoints, metadata *)
Definition AddStreamedContextReference (r : ChunkReference) (e : Envelope) : Envelope :=
  with_references {| StreamedContext := StreamedContext (References e) ++ [r];
    WorkingMemory := WorkingMemory (References e); Retrieval := Retrieval (References e);
    Checkpoints := Checkpoints (References e) |} e.

Definition AddRetrievalReference (r : RetrievalReference) (e : Envelope) : Envelope :=
  with_references {| StreamedContext := StreamedContext (References e);
    WorkingMemory := WorkingMemory (References e); Retrieval := Retrieval (References e) ++ [r];
    Checkpoints := Checkpoints (References e) |} e.

Definition AddCheckpointReference (r : CheckpointReference) (e : Envelope) : Envelope :=
  with_references {| StreamedContext := StreamedContext (References e);
    WorkingMemory := WorkingMemory (References e); Retrieval := Retrieval (References e);
    Checkpoints := Checkpoints (References e) ++ [r] |} e.

Definition SetStreamedSlice (s : option StreamedSlice) (e : Envelope) : Envelope :=
  {| TaskID := TaskID e; SessionID := SessionID e; NodeID := NodeID e; References := References e;
     WorkingData := WorkingData e; Origins := Origins e; CheckpointRequested := CheckpointRequested e;
     AssemblyMetadata := AssemblyMetadata e; streamed := s;
     streamHistory := match s with Some s => streamHistory e ++ [slice_stamp s] | None => streamHistory e end;
     createdAt := createdAt e |}.

Definition RequestCheckpoint (reason : string) (priority : Z) (evict : bool) (now : Time) (e : Envelope) : Envelope :=
  with_request (Some {| cq_RequestedBy := NodeID e; cq_Reason := reason; cq_Priority := priority;
                        cq_EvictWorkingMemory := evict; cq_RequestedAt := now |}) e.
Definition ClearCheckpointRequest (e : Envelope) : Envelope := with_request None e.

Definition UpdateAssemblyMetadata (f : AssemblyMeta → AssemblyMeta) (e : Envelope) : Envelope :=
  with_assembly (f (AssemblyMetadata e)) e.

(** *** Copies *)

(** The history of slices and a pending checkpoint request stay behind. *)
Definition Clone (e : Envelope) : Envelope :=
  {| TaskID := TaskID e; SessionID := SessionID e; NodeID := NodeID e; References := References e;
     WorkingData := WorkingData e; Origins := Origins e; CheckpointRequested := None;
     AssemblyMetadata := AssemblyMetadata e; streamed := streamed e; streamHistory := [];
     createdAt := createdAt e |}.

Definition hasWorkingPrefix (key : string) (prefixes : list string) : bool :=
  existsb (λ p, has_prefix p key) prefixes.

Definition trimmed (l : list string) : list string := filter (.≠ EmptyString) (trim_space <$> l).

(** The filter both handoff copies apply. *)
Definition handed_off (p : HandoffPolicy) (key : string) : bool :=
  let keys := trimmed (WorkingKeys p) in
  let prefixes := trimmed (WorkingPrefixes p) in
  if negb (bool_decide (keys = []))
  then bool_decide (key ∈ keys) || hasWorkingPrefix key prefixes
  else bool_decide (prefixes = []) || hasWorkingPrefix key prefixes.

Definition cloneWorkingDataForHandoff (d : gmap string (Any V)) (p : HandoffPolicy) : gmap string (Any V) :=
  filter (λ kv, handed_off p kv.1 = true) d.

Definition cloneWorkingMemoryRefsForHandoff (rs : list WorkingMemoryReference) (taskID : string)
    (p : HandoffPolicy) : list WorkingMemoryReference :=
  filter (λ r, wm_TaskID r = taskID ∧ handed_off p (wm_Key r) = true) rs.

Definition HandoffSnapshot (p : HandoffPolicy) (e : Envelope) : Envelope :=
  let d := if PreserveWorkingMemory p then cloneWorkingDataForHandoff (data e) p else ∅ in
  {| TaskID := TaskID e; SessionID := SessionID e;
     NodeID := if PreserveNodeID p then NodeID e else EmptyString;
     References :=
       {| StreamedContext := if PreserveStreamedContext p then StreamedContext (References e) else [];
          WorkingMemory := if PreserveWorkingMemory p
            then cloneWorkingMemoryRefsForHandoff (WorkingMemory (References e)) (TaskID e) p else [];
          Retrieval := if PreserveRetrieval p then Retrieval (References e) else [];
          Checkpoints := if PreserveCheckpoints p then Checkpoints (References e) else [] |};
     WorkingData := Some d;
     Origins := if PreserveWorkingMemory p
                then filter (λ ko, is_Some (d !! ko.1)) (Origins e) else ∅;
     CheckpointRequested := None;
     AssemblyMetadata := if PreserveAssemblyMetadata p then AssemblyMetadata e else no_assembly;
     streamed := None; streamHistory := []; createdAt := createdAt e |}.

(** An entry replaces the first one of its task and key, or is appended. *)
Definition replace_ref (rs : list WorkingMemoryReference) (r : WorkingMemoryReference) :=
  touch_ref (wm_TaskID r) (wm_Key r) (λ _, r) r rs.

Definition Merge (other : Envelope) (e : Envelope) : Envelope :=
  if bool_decide (size (data other) = 0) && bool_decide (length (WorkingMemory (References other)) = 0)
  then e
  else
    with_memory (Some (data other ∪ data e))
      (filter (λ ko, data other !! ko.1 = None) (Origins e) ∪ filter (λ ko, is_Some (data other !! ko.1)) (Origins other))
      (foldl replace_ref (WorkingMemory (References e)) (WorkingMemory (References other))) e.
End envelope.

Arguments Envelope V : clear implicits.
