(* ===== verification/EnvelopeMerge.v ===== *)
(** * EnvelopeMerge

    [context/contextdata/branch.go] and [merge.go]: the change set of a parallel
    branch and the merge of several change sets into the parent.

    Go visits maps in any order.  [ComputeBranchDelta] lists its keys in the order
    of [map_to_list]; the merge sorts them before use, so the order is not seen. *)
From S2P Require Import Prelude GoStrings Envelope.

Definition ErrBranchOrder : gerror :=
  ErrSentinel "contextdata: branch merge units must be in strictly ascending index order".

Record BranchDelta := {
  WorkingMemoryAdded : list string;
  WorkingMemoryModified : list string;
  WorkingMemoryDeleted : list string;
  RetrievalPerformed : list string
}.

Record MergeStats := {
  UnitsApplied : Z; KeysWritten : Z; KeysDeleted : Z; KeysSkipped : Z;
  Conflicts : list string; RefsStreamed : Z; RefsRetrieval : Z
}.

Definition no_stats : MergeStats :=
  {| UnitsApplied := 0; KeysWritten := 0; KeysDeleted := 0; KeysSkipped := 0;
     Conflicts := []; RefsStreamed := 0; RefsRetrieval := 0 |}.

(** [sort.Strings] *)
Definition sort_strings : list string → list string := merge_sort String.le.

(** The first occurrence of each value is kept. *)
Fixpoint dedupe (seen : list string) (l : list string) : list string :=
  match l with
  | [] => []
  | x :: l' => if bool_decide (x ∈ seen) then dedupe seen l' else x :: dedupe (x :: seen) l'
  end.

Definition sortedUniqueStrings (values : list string) : list string :=
  sort_strings (dedupe [] (filter (.≠ EmptyString) values)).

Definition mergeStringSets (base extra : list string) : list string :=
  dedupe [] (filter (.≠ EmptyString) (trim_space <$> base ++ extra)).

Definition dedupeStrings (values : list string) : list string := mergeStringSets [] values.

Definition rank_le (x y : ChunkReference) : Prop := (cr_Rank x <= cr_Rank y)%Z.
#[global] Instance rank_le_dec : RelDecision rank_le.
Proof. intros x y. unfold rank_le. apply _. Defined.

Definition workingMemoryReferenceKey (r : WorkingMemoryReference) : string :=
  wm_TaskID r +:+ "/" +:+ wm_Key r.

Section merge.
Context {V : Type} (other_equal : V → V → bool).
Abbreviation Envelope := (Envelope V).

Record BranchMergeUnit := { u_Index : Z; u_ID : string; u_Delta : BranchDelta; u_Env : option Envelope }.

(** ** The change set of a branch *)

(** The parent has the key, with another value. *)
Definition changed (p : gmap string (Any V)) (kv : string * Any V) : bool :=
  match p !! kv.1 with Some v => negb (valuesEqual other_equal v kv.2) | None => false end.

Definition ComputeBranchDelta (parent child : Envelope) : BranchDelta :=
  let p := data parent in
  let c := data child in
  {| WorkingMemoryAdded := (filter (λ kv, p !! kv.1 = None) (map_to_list c)).*1;
     WorkingMemoryModified :=
(filter (λ kv, changed p kv = true) (map_to_list c)).*1;
     WorkingMemoryDeleted := (filter (λ kv, c !! kv.1 = None) (map_to_list p)).*1;
     RetrievalPerformed :=
       filter (λ q, q ∉ (rr_QueryID <$> Retrieval (References parent)))
              (rr_QueryID <$> Retrieval (References child)) |}.

Definition branch_mismatch (i : nat) (task expected : string) : gerror :=
  ErrFmt "branch merge error: task_mismatch (envelope %d has task %s, expected %s)"
    [fmt_pad 1 (Z.of_nat i); task; expected].

(** The loop of [ValidateBranchMerge]: only the first position sets the task. *)
Fixpoint validate_loop (i : nat) (taskID : string) (envs : list (option Envelope)) : option gerror :=
  match envs with
  | [] => None
  | None :: envs' => validate_loop (S i) taskID envs'
  | Some e :: envs' =>
      if bool_decide (i = 0) then validate_loop 1 (TaskID e) envs'
      else if negb (bool_decide (TaskID e = taskID)) then Some (branch_mismatch i (TaskID e) taskID)
      else validate_loop (S i) taskID envs'
  end.

Definition ValidateBranchMerge (envs : list (option Envelope)) : option gerror :=
  if bool_decide (length envs < 2) then None else validate_loop 0 EmptyString envs.

Fixpoint order_loop (prev : Z) (us : list BranchMergeUnit) : option gerror :=
  match us with
  | [] => None
  | u :: us' =>
      if (u_Index u <=? prev)%Z then Some (ErrWrap "units out of order" ErrBranchOrder)
      else order_loop (u_Index u) us'
  end.

Definition validateBranchOrder (us : list BranchMergeUnit) : option gerror :=
  match us with [] => None | u :: us' => order_loop (u_Index u) us' end.

(** ** Resolving the writes and deletes *)
Record resolved := {
  writes : gmap string (Any V);
  originWrites : gmap string string;
  deletes : gset string;
  touched : gmap string nat;
  skipped : Z
}.

Definition nothing : resolved :=
  {| writes := ∅; originWrites := ∅; deletes := ∅; touched := ∅; skipped := 0 |}.

Definition bump (k : string) (m : gmap string nat) : gmap string nat := <[k := S (default 0 (m !! k))]> m.

Definition resolve_delete (s : resolved) (k : string) : resolved :=
  {| writes := delete k (writes s); originWrites := delete k (originWrites s);
     deletes := {[k]} ∪ deletes s; touched := bump k (touched s); skipped := skipped s |}.

Definition resolve_write (values : gmap string (Any V)) (origins : gmap string string)
    (s : resolved) (k : string) : resolved :=
  match values !! k with
  | None => {| writes := writes s; originWrites := originWrites s; deletes := deletes s;
               touched := touched s; skipped := skipped s + 1 |}
  | Some v =>
      let origin := default OriginLLM (origins !! k) in
      {| writes := <[k := v]> (writes s);
         originWrites := <[k := match originWrites s !! k with
                                | Some existing => MostRestrictive existing origin
                                | None => origin
                                end]> (originWrites s);
         deletes := deletes s ∖ {[k]}; touched := bump k (touched s); skipped := skipped s |}
  end.

(** A unit without an envelope, or whose working data is nil, writes nothing. *)
Definition resolve_unit (s : resolved) (u : BranchMergeUnit) : resolved :=
  let d := u_Delta u in
  let s := foldl resolve_delete s (sortedUniqueStrings (WorkingMemoryDeleted d)) in
  match u_Env u with
  | Some env =>
      match WorkingData env with
      | Some values =>
          foldl (resolve_write values (Origins env)) s
                (sortedUniqueStrings (WorkingMemoryAdded d ++ WorkingMemoryModified d))
      | None => s
      end
  | None => s
  end.

Definition resolve_units (us : list BranchMergeUnit) : resolved := foldl resolve_unit nothing us.

(** ** References *)

(** Appends the elements whose key is new. *)
Fixpoint union_new {A} (key : A → string) (seen : gset string) (l : list A) : list A * gset string :=
  match l with
  | [] => ([], seen)
  | x :: l' =>
      if bool_decide (key x ∈ seen) then union_new key seen l'
      else let (r, seen) := union_new key ({[key x]} ∪ seen) l' in (x :: r, seen)
  end.

Definition merge_checkpoint (cs : list CheckpointReference) (r : CheckpointReference) : list CheckpointReference :=
  match list_find (λ c, cp_CheckpointID c = cp_CheckpointID r) (reverse cs) with
  | Some (i, _) =>
      alter (λ c, {| cp_CheckpointID := cp_CheckpointID c; cp_SequenceNum := cp_SequenceNum c;
                     cp_RequestedBy := cp_RequestedBy c; cp_CreatedAt := cp_CreatedAt c;
                     cp_WorkingMemoryKeys := mergeStringSets (cp_WorkingMemoryKeys c) (cp_WorkingMemoryKeys r) |})
            (length cs - 1 - i) cs
  | None => cs ++ [r]
  end.

(** The working-memory entry of a key this merge deletes. *)
Definition gone (taskID : string) (ds : gset string) (r : WorkingMemoryReference) : bool :=
  bool_decide (wm_TaskID r = taskID) && bool_decide (wm_Key r ∈ ds).

Definition refs_of (u : BranchMergeUnit) : ReferenceBundle :=
  match u_Env u with Some e => References e | None => no_references end.

Definition mergeBranchReferencesLocked (us : list BranchMergeUnit) (ds : gset string) (e : Envelope)
    : ReferenceBundle * Z * Z :=
  let b := References e in
  let '(chunks, _) := union_new cr_ChunkID (list_to_set (cr_ChunkID <$> StreamedContext b))
                        (us ≫= λ u, StreamedContext (refs_of u)) in
  let kept := filter (λ r, gone (TaskID e) ds r = false) (WorkingMemory b) in
  let seenWorking := list_to_set (workingMemoryReferenceKey <$> WorkingMemory b)
                     ∖ list_to_set (workingMemoryReferenceKey <$>
                         filter (λ r, gone (TaskID e) ds r = true) (WorkingMemory b)) in
  let '(working, _) := union_new workingMemoryReferenceKey seenWorking
                         (filter (λ r, gone (TaskID e) ds r = false) (us ≫= λ u, WorkingMemory (refs_of u))) in
  let '(retrieval, _) := union_new rr_QueryID (list_to_set (rr_QueryID <$> Retrieval b))
                           (us ≫= λ u, Retrieval (refs_of u)) in
  let cps := foldl merge_checkpoint (Checkpoints b) (us ≫= λ u, Checkpoints (refs_of u)) in
  ({| StreamedContext := sort_stable rank_le (StreamedContext b ++ chunks);
      WorkingMemory := kept ++ working;
      Retrieval := Retrieval b ++ retrieval;
      Checkpoints := (λ c, {| cp_CheckpointID := cp_CheckpointID c; cp_SequenceNum := cp_SequenceNum c;
                              cp_RequestedBy := cp_RequestedBy c; cp_CreatedAt := cp_CreatedAt c;
                              cp_WorkingMemoryKeys := dedupeStrings (cp_WorkingMemoryKeys c) |}) <$> cps |},
   Z.of_nat (length chunks), Z.of_nat (length retrieval)).

(** ** The merge *)
Definition drop_keys {A} (ds : gset string) (m : gmap string A) : gmap string A :=
  filter (λ kv, kv.1 ∉ ds) m.

Definition conflicts_of (s : resolved) : list string :=
  sort_strings ((filter (λ kn, 1 < kn.2) (map_to_list (touched s))).*1).

Definition ApplyBranchMerges (us : list BranchMergeUnit) (e : Envelope)
    : result MergeStats * Envelope :=
  match validateBranchOrder us with
  | Some err => (Err err, e)
  | None =>
      if bool_decide (us = []) then (Ok no_stats, e)
      else
        let s := resolve_units us in
        let '(refs, streamed, retrieved) := mergeBranchReferencesLocked us (deletes s) e in
        let d := writes s ∪ drop_keys (deletes s) (data e) in
        (Ok {| UnitsApplied := Z.of_nat (length us);
               KeysWritten := Z.of_nat (size (writes s));
               KeysDeleted := Z.of_nat (size (filter (λ k, is_Some (data e !! k)) (deletes s)));
               KeysSkipped := skipped s; Conflicts := conflicts_of s;
               RefsStreamed := streamed; RefsRetrieval := retrieved |},
         with_references refs
           (with_memory
              (match WorkingData e with
               | None => if bool_decide (writes s = ∅) then None else Some d
               | Some _ => Some d
               end)
              (originWrites s ∪ drop_keys (deletes s) (Origins e)) (WorkingMemory (References e)) e))
  end.
End merge.

Arguments BranchMergeUnit V : clear implicits.
