(* ===== verification/Placement.v ===== *)
(** * Placement

    [execution/agentgraph/contracts.go] and [preflight.go]: node contracts, their
    validation, and the placement of the capabilities they require.  A node is what
    these functions see of it: its ID, its type and, if it implements
    [ContractNode], its contract. *)
From S2P Require Import Prelude GoStrings Policy Selector EnvelopeMerge.
From Stdlib Require Import Lia.

Definition NodeTypeTool : string := "tool".
Definition NodeTypeConditional : string := "conditional".
Definition NodeTypeHuman : string := "human".
Definition NodeTypeTerminal : string := "terminal".
Definition NodeTypeSystem : string := "system".
Definition NodeTypeObservation : string := "observation".
Definition NodeTypeStream : string := "stream".

Definition SideEffectNone : string := "none".
Definition SideEffectContext : string := "context".
Definition SideEffectLocal : string := "local".
Definition SideEffectExternal : string := "external".
Definition SideEffectHuman : string := "human".
Definition IdempotencyUnknown : string := "unknown".
Definition IdempotencyReplaySafe : string := "replay-safe".
Definition IdempotencySingleShot : string := "single-shot".
Definition PlacementPreferenceLocal : string := "local".
Definition PlacementPreferenceRemote : string := "remote".
Definition PlacementPreferenceSticky : string := "sticky-session".

(** [context/state_boundaries.go] *)
Record StateBoundaryPolicy := {
  ReadKeys : list string; WriteKeys : list string; AllowHistoryAccess : bool; AllowRetrieval : bool;
  AllowedMemoryClasses : list string; AllowedDataClasses : list string;
  MaxStateEntryBytes : Z; MaxInlineCollectionItems : Z; PreferArtifactReferences : bool
}.

Definition no_boundary : StateBoundaryPolicy :=
  {| ReadKeys := []; WriteKeys := []; AllowHistoryAccess := false; AllowRetrieval := false;
     AllowedMemoryClasses := []; AllowedDataClasses := []; MaxStateEntryBytes := 0;
     MaxInlineCollectionItems := 0; PreferArtifactReferences := false |}.

Record NodeContract := {
  RequiredCapabilities : list CapabilitySelector;
  SideEffectClass : string;
  Idempotency : string;
  PreferredPlacement : string;
  MaxRiskClass : string;
  RequiredTrustClass : string;
  Recoverability : string;
  CheckpointPolicy : string;
  ContextPolicy : StateBoundaryPolicy
}.

Definition no_contract : NodeContract :=
  {| RequiredCapabilities := []; SideEffectClass := EmptyString; Idempotency := EmptyString;
     PreferredPlacement := EmptyString; MaxRiskClass := EmptyString; RequiredTrustClass := EmptyString;
     Recoverability := EmptyString; CheckpointPolicy := EmptyString; ContextPolicy := no_boundary |}.

Definition contract_of (effect idempotency : string) (p : StateBoundaryPolicy) : NodeContract :=
  {| RequiredCapabilities := []; SideEffectClass := effect; Idempotency := idempotency;
     PreferredPlacement := EmptyString; MaxRiskClass := EmptyString; RequiredTrustClass := EmptyString;
     Recoverability := EmptyString; CheckpointPolicy := EmptyString; ContextPolicy := p |}.

Record NodeInfo := { ni_ID : string; ni_Type : string; ni_Contract : option NodeContract }.

(** ** Default contracts *)
Definition systemContextPolicy : StateBoundaryPolicy :=
  {| ReadKeys := ["task.*"; "plan.*"; "react.*"; "architect.*"];
     WriteKeys := ["plan.*"; "react.*"; "architect.*"]; AllowHistoryAccess := false; AllowRetrieval := false;
     AllowedMemoryClasses := ["working"];
     AllowedDataClasses := ["task-metadata"; "step-metadata"; "routing-flag"; "structured-state"];
     MaxStateEntryBytes := 4096; MaxInlineCollectionItems := 32; PreferArtifactReferences := false |}.

Definition humanContextPolicy : StateBoundaryPolicy :=
  {| ReadKeys := ["task.*"; "approval.*"]; WriteKeys := ["approval.*"]; AllowHistoryAccess := true;
     AllowRetrieval := false; AllowedMemoryClasses := ["working"];
     AllowedDataClasses := ["task-metadata"; "structured-state"];
     MaxStateEntryBytes := 4096; MaxInlineCollectionItems := 16; PreferArtifactReferences := false |}.

Definition streamContextPolicy : StateBoundaryPolicy :=
  {| ReadKeys := ["task.*"; "contextstream.*"]; WriteKeys := ["contextstream.*"]; AllowHistoryAccess := false;
     AllowRetrieval := false; AllowedMemoryClasses := ["working"];
     AllowedDataClasses := ["task-metadata"; "structured-state"];
     MaxStateEntryBytes := 4096; MaxInlineCollectionItems := 16; PreferArtifactReferences := false |}.

Definition toolContextPolicy : StateBoundaryPolicy :=
  {| ReadKeys := ["task.*"; "react.*"; "planner.*"; "architect.*"];
     WriteKeys := ["react.*"; "planner.*"; "tool.*"; "artifact.*"]; AllowHistoryAccess := false;
     AllowRetrieval := false; AllowedMemoryClasses := ["working"; "streamed"];
     AllowedDataClasses := ["task-metadata"; "step-metadata"; "artifact-ref"; "memory-ref"; "structured-state"];
     MaxStateEntryBytes := 4096; MaxInlineCollectionItems := 16; PreferArtifactReferences := true |}.

Definition defaultNodeContract (n : NodeInfo) : NodeContract :=
  if bool_decide (ni_Type n = NodeTypeHuman)
  then contract_of SideEffectHuman IdempotencySingleShot humanContextPolicy
  else if bool_decide (ni_Type n ∈ [NodeTypeTerminal; NodeTypeConditional; NodeTypeObservation; NodeTypeSystem])
  then contract_of SideEffectNone IdempotencyReplaySafe systemContextPolicy
  else if bool_decide (ni_Type n = NodeTypeStream)
  then contract_of SideEffectContext IdempotencyReplaySafe streamContextPolicy
  else if bool_decide (ni_Type n = NodeTypeTool)
  then contract_of SideEffectExternal IdempotencyUnknown toolContextPolicy
  else no_contract.

Definition ResolveNodeContract (n : NodeInfo) : NodeContract :=
  match ni_Contract n with Some c => c | None => defaultNodeContract n end.

(** ** Validation *)
Definition ValidateStateBoundaryPolicy (p : StateBoundaryPolicy) : option gerror :=
  first_error
    [check_blank "state boundary contains empty key" (ReadKeys p ++ WriteKeys p);
     check_class "memory class %s invalid" ["working"; "streamed"] (AllowedMemoryClasses p);
     check_class "state data class %s invalid"
       ["task-metadata"; "step-metadata"; "routing-flag"; "artifact-ref"; "memory-ref"; "structured-state";
        "transcript"; "raw-payload"; "retrieval-dump"; "subagent-history"] (AllowedDataClasses p);
     check (MaxStateEntryBytes p <? 0)%Z (ErrMsg "max_state_entry_bytes must be >= 0");
     check (MaxInlineCollectionItems p <? 0)%Z (ErrMsg "max_inline_collection_items must be >= 0")].

(** A field that may be empty or one of the given values. *)
Definition check_field (n : NodeInfo) (what : string) (allowed : list string) (v : string) : option gerror :=
  check (negb (bool_decide (v ∈ EmptyString :: allowed)))
        (ErrFmt ("node %s has invalid " +:+ what +:+ " %q") [ni_ID n; v]).

Definition wrap_error (prefix : string) (e : option gerror) : option gerror := ErrWrap prefix <$> e.

Definition validateNodeContract (n : NodeInfo) (c : NodeContract) : option gerror :=
  first_error
    [first_error ((λ s, wrap_error ("node " +:+ ni_ID n +:+ " has invalid capability selector")
                          (ValidateCapabilitySelector s)) <$> RequiredCapabilities c);
     check_field n "side effect class"
       [SideEffectNone; SideEffectContext; SideEffectLocal; SideEffectExternal; SideEffectHuman] (SideEffectClass c);
     check_field n "idempotency" [IdempotencyUnknown; IdempotencyReplaySafe; IdempotencySingleShot] (Idempotency c);
     check_field n "placement preference"
       ["any"; PlacementPreferenceLocal; PlacementPreferenceRemote; PlacementPreferenceSticky] (PreferredPlacement c);
     check_field n "recoverability" ["none"; "in-process"; "persisted"] (Recoverability c);
     check_field n "checkpoint policy" ["none"; "preferred"; "required"] (CheckpointPolicy c);
     wrap_error ("node " +:+ ni_ID n +:+ " has invalid context policy") (ValidateStateBoundaryPolicy (ContextPolicy c));
     check (bool_decide (ni_Type n = NodeTypeTool) && bool_decide (length (RequiredCapabilities c) = 0) &&
            bool_decide (is_Some (ni_Contract n)))
           (ErrFmt "node %s is a tool node but declares no required capabilities" [ni_ID n])].

(** ** Tool contracts *)
Definition local_effects : list string := [EffectClassFilesystemMutation; EffectClassProcessSpawn].

(** The loop's two flags, [hasContextOnly] and [hasExternal]. *)
Definition side_effect_flags (effects : list string) : bool * bool :=
  foldl (λ acc eff,
    if bool_decide (eff = EffectClassContextInsertion) then acc
    else if bool_decide (eff ∈ local_effects) then (false, acc.2)
    else (false, true)) (true, false) effects.

Definition classifyToolSideEffects (d : CapabilityDescriptor) : string :=
  if bool_decide (length (desc_EffectClasses d) = 0) then SideEffectNone
  else
    let (hasContextOnly, hasExternal) := side_effect_flags (desc_EffectClasses d) in
    if hasContextOnly then SideEffectContext else if hasExternal then SideEffectExternal else SideEffectLocal.

Definition single_shot_effects : list string :=
  [EffectClassFilesystemMutation; EffectClassNetworkEgress; EffectClassCredentialUse;
   EffectClassExternalState; EffectClassSessionCreation].
Definition single_shot_risks : list string :=
  [RiskClassDestructive; RiskClassNetwork; RiskClassCredentialed; RiskClassExfiltration; RiskClassSessioned].

Definition classifyToolIdempotency (d : CapabilityDescriptor) : string :=
  if bool_decide (length (desc_EffectClasses d) = 0) then IdempotencyReplaySafe
  else if existsb (λ e, bool_decide (e ∈ single_shot_effects)) (desc_EffectClasses d) then IdempotencySingleShot
  else if existsb (λ r, bool_decide (r ∈ single_shot_risks)) (desc_risks d) then IdempotencySingleShot
  else IdempotencyReplaySafe.

(** [desc] is what [descriptor.ToolDescriptor] derives from the tool. *)
Definition toolNodeContract (desc : option CapabilityDescriptor) : NodeContract :=
  match desc with
  | None => contract_of SideEffectExternal IdempotencyUnknown toolContextPolicy
  | Some d =>
      {| RequiredCapabilities :=
           if bool_decide (desc_ID d ≠ EmptyString) || bool_decide (desc_Name d ≠ EmptyString)
           then [{| sel_ID := desc_ID d; sel_Name := desc_Name d; sel_Kind := "tool"; sel_RuntimeFamilies := [];
                    sel_Tags := []; sel_ExcludeTags := []; sel_SourceScopes := []; sel_TrustClasses := [];
                    sel_RiskClasses := []; sel_EffectClasses := []; sel_CoordinationRoles := [];
                    sel_CoordinationTaskTypes := []; sel_CoordinationExecutionModes := [];
                    sel_CoordinationLongRunning := EnabledStateUnset;
                    sel_CoordinationDirectInsertion := EnabledStateUnset |}]
           else [];
         SideEffectClass := classifyToolSideEffects d; Idempotency := classifyToolIdempotency d;
         PreferredPlacement := EmptyString; MaxRiskClass := EmptyString; RequiredTrustClass := EmptyString;
         Recoverability := EmptyString; CheckpointPolicy := EmptyString; ContextPolicy := toolContextPolicy |}
  end.

(** ** Placement *)
Definition riskRank (r : string) : Z :=
  if bool_decide (r = RiskClassReadOnly) then 1
  else if bool_decide (r = RiskClassSessioned) then 2
  else if bool_decide (r = RiskClassNetwork) then 3
  else if bool_decide (r = RiskClassExecute) then 4
  else if bool_decide (r = RiskClassCredentialed) then 5
  else if bool_decide (r = RiskClassExfiltration) then 6
  else if bool_decide (r = RiskClassDestructive) then 7
  else 0.

Definition trustRank (t : string) : Z :=
  if bool_decide (t = TrustClassRemoteDeclared) then 1
  else if bool_decide (t = TrustClassProviderLocalUntrusted) then 2
  else if bool_decide (t = TrustClassRemoteApproved) then 3
  else if bool_decide (t = TrustClassWorkspaceTrusted) then 4
  else if bool_decide (t = TrustClassBuiltinTrusted) then 5
  else 0.

Definition riskExceeds (max : string) (actual : list string) : bool :=
  if bool_decide (max = EmptyString) then false
  else existsb (λ r, (riskRank max <? riskRank r)%Z) actual.

Definition maxRiskRank (risks : list string) : Z :=
  foldl (λ m r, if (m <? riskRank r)%Z then riskRank r else m) 0%Z risks.

Definition placementScore (preference : string) (d : CapabilityDescriptor) : Z :=
  let score := (trustRank (desc_TrustClass d) * 100 - maxRiskRank (desc_risks d) * 10)%Z in
  let local := bool_decide (src_ProviderID (desc_Source d) = EmptyString) in
  if bool_decide (preference = PlacementPreferenceLocal)
  then (if local then score + 50 else score)%Z
  else if bool_decide (preference = PlacementPreferenceRemote)
  then (if local then score else score + 50)%Z
  else if bool_decide (preference = PlacementPreferenceSticky)
  then (if is_blank (desc_SessionAffinity d) then score else score + 50)%Z
  else score.

Definition placementReason (preference : string) (d : CapabilityDescriptor) : string :=
  let local := bool_decide (src_ProviderID (desc_Source d) = EmptyString) in
  if bool_decide (preference = PlacementPreferenceLocal) && local
  then "selected highest-trust local capability"
  else if bool_decide (preference = PlacementPreferenceRemote) && negb local
  then "selected highest-trust remote/provider capability"
  else if bool_decide (preference = PlacementPreferenceSticky) &&
          negb (bool_decide (desc_SessionAffinity d = EmptyString))
  then "selected sticky-session capability with matching affinity"
  else "selected highest-trust lowest-risk matching capability".

Definition selectorString (s : CapabilitySelector) : string :=
  if negb (bool_decide (sel_ID s = EmptyString)) then sel_ID s
  else if negb (bool_decide (sel_Name s = EmptyString)) then sel_Name s
  else if negb (bool_decide (sel_Kind s = EmptyString)) then sel_Kind s
  else "unknown-selector".

Definition matchingDescriptors (s : CapabilitySelector) (ds : list CapabilityDescriptor) : list CapabilityDescriptor :=
  filter (λ d, SelectorMatchesDescriptor s d = true) ds.

(** The body of the loop of [filterDescriptorsForContract]. *)
Definition satisfies (c : NodeContract) (d : CapabilityDescriptor) : bool :=
  if negb (bool_decide (RequiredTrustClass c = EmptyString)) &&
     (trustRank (desc_TrustClass d) <? trustRank (RequiredTrustClass c))%Z then false
  else if negb (bool_decide (MaxRiskClass c = EmptyString)) && riskExceeds (MaxRiskClass c) (desc_risks d) then false
  else true.

Definition filterDescriptorsForContract (c : NodeContract) (ds : list CapabilityDescriptor) : list CapabilityDescriptor :=
  filter (λ d, satisfies c d = true) ds.

Record PreflightIssue := { pi_NodeID : string; pi_Code : string; pi_Message : string; pi_Blocking : bool }.

Record PlacementDecision := {
  pd_NodeID : string; pd_RequiredSelector : CapabilitySelector; pd_Preference : string;
  pd_SelectedCapabilityID : string; pd_SelectedCapability : option CapabilityDescriptor;
  pd_CandidateCapabilityIDs : list string; pd_Reason : string
}.

(** [sort.SliceStable] by descending score. *)
Definition score_ge (preference : string) (x y : CapabilityDescriptor) : Prop :=
  (placementScore preference y <= placementScore preference x)%Z.
#[global] Instance score_ge_dec preference : RelDecision (score_ge preference).
Proof. intros x y. unfold score_ge. apply _. Defined.

Definition blocked (nodeID code message : string) : PreflightIssue :=
  {| pi_NodeID := nodeID; pi_Code := code; pi_Message := message; pi_Blocking := true |}.

(** [None] is the decision with no capability selected, returned with an issue. *)
Definition preflightPlacementDecision (nodeID : string) (s : CapabilitySelector) (c : NodeContract)
    (ds : list CapabilityDescriptor) : PlacementDecision * list PreflightIssue :=
  let undecided :=
    {| pd_NodeID := nodeID; pd_RequiredSelector := s; pd_Preference := PreferredPlacement c;
       pd_SelectedCapabilityID := EmptyString; pd_SelectedCapability := None;
       pd_CandidateCapabilityIDs := []; pd_Reason := EmptyString |} in
  let matches := matchingDescriptors s ds in
  if bool_decide (length matches = 0)
  then (undecided, [blocked nodeID "capability_missing"
                      ("no registered capability matches selector " +:+ selectorString s)])
  else
    match sort_stable (score_ge (PreferredPlacement c)) (filterDescriptorsForContract c matches) with
    | [] => (undecided, [blocked nodeID "capability_constraints_unsatisfied"
                ("matching capabilities for " +:+ selectorString s +:+ " do not satisfy trust/risk constraints")])
    | best :: rest =>
        ({| pd_NodeID := nodeID; pd_RequiredSelector := s; pd_Preference := PreferredPlacement c;
            pd_SelectedCapabilityID := desc_ID best; pd_SelectedCapability := Some best;
            pd_CandidateCapabilityIDs := desc_ID <$> best :: rest;
            pd_Reason := placementReason (PreferredPlacement c) best |}, [])
    end.

Record PreflightReport := {
  GeneratedAt : Time; Issues : list PreflightIssue; Placements : list PlacementDecision
}.

Definition HasBlockingIssues (r : PreflightReport) : bool := existsb pi_Blocking (Issues r).

Definition blockingPreflightError (issues : list PreflightIssue) : option gerror :=
  match list_find (λ i, pi_Blocking i = true) issues with
  | Some (_, i) => Some (ErrFmt "graph preflight failed: %s (%s)" [pi_Message i; pi_NodeID i])
  | None => None
  end.

Definition id_le (x y : CapabilityDescriptor) : Prop := String.le (desc_ID x) (desc_ID y).
#[global] Instance id_le_dec : RelDecision id_le.
Proof. intros x y. unfold id_le. apply _. Defined.

(** One required capability of one node. *)
Definition preflight_selector (ds : list CapabilityDescriptor) (nodeID : string) (c : NodeContract)
    (r : PreflightReport) (s : CapabilitySelector) : PreflightReport :=
  let (decision, issues) := preflightPlacementDecision nodeID s c ds in
  {| GeneratedAt := GeneratedAt r; Issues := Issues r ++ issues;
     Placements := if bool_decide (pd_SelectedCapabilityID decision = EmptyString) then Placements r
                   else Placements r ++ [decision] |}.

Definition preflight_node (ds : list CapabilityDescriptor) (r : PreflightReport) (n : string * NodeContract)
    : PreflightReport :=
  foldl (preflight_selector ds n.1 n.2) r (RequiredCapabilities n.2).

(** The report [Preflight] computes from the nodes' contracts, sorted by ID. *)
Definition preflight_report (now : Time) (catalog : option (list CapabilityDescriptor))
    (contracts : list (string * NodeContract)) : PreflightReport :=
  let empty := {| GeneratedAt := now; Issues := []; Placements := [] |} in
  match catalog with
  | None => empty
  | Some ds => foldl (preflight_node (sort_stable id_le ds)) empty contracts
  end.

Definition preflight_error (r : PreflightReport) : option gerror :=
  if HasBlockingIssues r then blockingPreflightError (Issues r) else None.
