(* ===== verification/PlacementSafety.v ===== *)
(** * PlacementSafety

    The risk classification, contracts and capability placement of a graph's nodes. *)
From S2P Require Import Prelude GoStrings Policy Selector EnvelopeMerge Placement.
From Stdlib Require Import Lia.

(** ** Risk classification *)
Lemma classify_set effects : ∀ acc : gset string,
  foldl (λ acc eff, acc ∪ list_to_set (effect_risks eff)) acc effects = acc ∪ list_to_set (effects ≫= effect_risks).
Proof.
  induction effects as [|e effects IH]; intros acc; cbn; [set_solver|].
  rewrite IH, list_to_set_app_L. set_solver.
Qed.

Lemma elem_of_Classify r effects scope :
  r ∈ Classify effects scope ↔
  r ∈ sortOrder ∧
  (r ∈ effects ≫= effect_risks ∨ r ∈ scope_floor scope ∨
   (effects ≫= effect_risks) = [] ∧ r = RiskClassReadOnly).
Proof.
  unfold Classify, sortRiskClasses. rewrite classify_set, list_elem_of_filter, (left_id_L ∅ (∪)).
  set (l := effects ≫= effect_risks). rewrite elem_of_union, elem_of_list_to_set.
  case_bool_decide as Hl.
  - assert (l = []) as -> by (destruct l as [|x l']; [done|]; exfalso; set_solver).
    rewrite elem_of_singleton. set_solver.
  - assert (l ≠ []) by (intros Hn; apply Hl; by rewrite Hn). rewrite elem_of_list_to_set. naive_solver.
Qed.

Lemma maxRiskRank_spec l : ∀ m : Z, (0 <= m)%Z →
  let r := foldl (λ m r, if (m <? riskRank r)%Z then riskRank r else m) m l in
  (m <= r)%Z ∧ Forall (λ x, riskRank x <= r)%Z l ∧ (r = m ∨ ∃ x, x ∈ l ∧ riskRank x = r).
Proof.
  induction l as [|x l IH]; intros m Hm; cbn; [split_and!; [lia|done|by left]|].
  destruct (m <? riskRank x)%Z eqn:E.
  - destruct (IH (riskRank x)) as (H1 & H2 & H3); [lia|]. split_and!; [lia|by constructor|].
    right. destruct H3 as [H3|(y & Hy & H3)]; [exists x; split; [left|congruence]|exists y; split; [by right|done]].
  - destruct (IH m) as (H1 & H2 & H3); [lia|]. split_and!; [lia|constructor; [lia|done]|].
    destruct H3 as [H3|(y & Hy & H3)]; [by left|right; exists y; split; [by right|done]].
Qed.

Lemma maxRiskRank_ge l x : x ∈ l → (riskRank x <= maxRiskRank l)%Z.
Proof.
  intros Hx. destruct (maxRiskRank_spec l 0) as (_ & H & _); [lia|].
  rewrite Forall_forall in H. by apply H.
Qed.

Lemma maxRiskRank_le l b : (0 <= b)%Z → (∀ x, x ∈ l → (riskRank x <= b)%Z) → (maxRiskRank l <= b)%Z.
Proof.
  intros Hb Hl. destruct (maxRiskRank_spec l 0) as (_ & _ & [H|(x & Hx & H)]); [lia| |]; unfold maxRiskRank;
    cbn zeta in *; [lia|]. rewrite <- H. by apply Hl.
Qed.

Lemma riskRank_known r : r ∈ sortOrder → (1 <= riskRank r)%Z.
Proof. unfold sortOrder. rewrite !elem_of_cons, elem_of_nil. intros Hr. destruct_or?; subst; try done; vm_compute; discriminate. Qed.

Lemma effect_risks_known eff r : r ∈ effect_risks eff → r ∈ sortOrder.
Proof.
  unfold effect_risks. repeat case_bool_decide; rewrite ?elem_of_cons, ?elem_of_nil; intros Hr;
    destruct_or?; subst; try done; apply (bool_decide_unpack _); vm_compute; exact I.
Qed.

Lemma scope_floor_known scope r : r ∈ scope_floor scope → r ∈ sortOrder.
Proof.
  unfold scope_floor. repeat case_bool_decide; rewrite ?elem_of_cons, ?elem_of_nil; intros Hr;
    destruct_or?; subst; try done; apply (bool_decide_unpack _); vm_compute; exact I.
Qed.

(** declared effects never lower the risk.  Whatever a capability declares, its
    classification holds the floor of its scope and has at least rank 1; declaring more effects never
    lowers its highest risk rank; and [read-only] is claimed only if no declared
    effect carries a risk. *)
Theorem risk_monotone effects extra scope :
  (∀ r, r ∈ scope_floor scope → r ∈ Classify effects scope) ∧
  (1 <= maxRiskRank (Classify effects scope))%Z ∧
  (maxRiskRank (Classify effects scope) <= maxRiskRank (Classify (effects ++ extra) scope))%Z ∧
  (RiskClassReadOnly ∈ Classify effects scope ↔ ∀ e, e ∈ effects → effect_risks e = []).
Proof.
  assert (∀ effects, (1 <= maxRiskRank (Classify effects scope))%Z) as Hpos.
  { intros effs. assert (∃ r, r ∈ Classify effs scope) as [r Hr].
    { destruct (effs ≫= effect_risks) as [|r l] eqn:E.
      - exists RiskClassReadOnly. apply elem_of_Classify. rewrite E. split; [|auto].
        apply (bool_decide_unpack _). vm_compute. exact I.
      - exists r. apply elem_of_Classify. rewrite E. split; [|left; left].
        assert (r ∈ effs ≫= effect_risks) as Hr by (rewrite E; left).
        apply list_elem_of_bind in Hr as (e & Hr & _). by eapply effect_risks_known. }
    etrans; [|by eapply maxRiskRank_ge]. apply elem_of_Classify in Hr as [Hr _]. by apply riskRank_known. }
  split_and!.
  - intros r Hr. apply elem_of_Classify. split; [by eapply scope_floor_known|auto].
  - apply Hpos.
  - apply maxRiskRank_le; [pose proof (Hpos (effects ++ extra)); lia|]. intros r Hr. apply elem_of_Classify in Hr as [Hk Hr].
    destruct Hr as [Hr|[Hr|[He ->]]].
    + apply maxRiskRank_ge, elem_of_Classify. split; [done|left]. rewrite bind_app. set_solver.
    + apply maxRiskRank_ge, elem_of_Classify. auto.
    + change (riskRank RiskClassReadOnly) with 1%Z. apply Hpos.
  - rewrite elem_of_Classify. split.
    + intros [_ Hr] e He. destruct (effect_risks e) as [|x l] eqn:E; [done|].
      destruct Hr as [Hr|[Hr|[Hr _]]].
      * apply list_elem_of_bind in Hr as (e' & Hr & _). unfold effect_risks in Hr.
        repeat case_bool_decide; rewrite ?elem_of_cons, ?elem_of_nil in Hr; destruct_or?; done.
      * unfold scope_floor in Hr. repeat case_bool_decide; rewrite ?elem_of_cons, ?elem_of_nil in Hr; destruct_or?; done.
      * assert (x ∈ effects ≫= effect_risks) as Hx by (apply list_elem_of_bind; exists e; rewrite E; split; [left|done]).
        rewrite Hr in Hx. by apply elem_of_nil in Hx.
    + intros Hn. split; [apply (bool_decide_unpack _); vm_compute; exact I|]. right. right. split; [|done].
      induction effects as [|e effects IH]; cbn; [done|]. rewrite (Hn e) by left. apply IH.
      intros e' He'. apply Hn. by right.
Qed.

(** ** Placement *)
#[global] Instance score_ge_trans p : Transitive (score_ge p).
Proof. intros x y z. unfold score_ge. lia. Qed.
#[global] Instance score_ge_total p : Total (score_ge p).
Proof. intros x y. unfold score_ge. lia. Qed.
#[global] Instance id_le_trans : Transitive id_le.
Proof. intros x y z. unfold id_le. apply transitivity. Qed.
#[global] Instance id_le_total : Total id_le.
Proof. intros x y. unfold id_le. apply total, _. Qed.

(** What a selector may be placed on under a contract. *)
Definition eligible (s : CapabilitySelector) (c : NodeContract) (ds : list CapabilityDescriptor)
    : list CapabilityDescriptor :=
  filterDescriptorsForContract c (matchingDescriptors s ds).

Lemma elem_of_eligible s c ds d :
  d ∈ eligible s c ds ↔ d ∈ ds ∧ SelectorMatchesDescriptor s d = true ∧ satisfies c d = true.
Proof.
  unfold eligible, filterDescriptorsForContract, matchingDescriptors.
  rewrite !list_elem_of_filter. tauto.
Qed.

(** A decision in terms of the eligible descriptors. *)
Lemma decision_cases nodeID s c ds :
  match sort_stable (score_ge (PreferredPlacement c)) (eligible s c ds) with
  | [] => ∃ code msg, (preflightPlacementDecision nodeID s c ds).2 = [blocked nodeID code msg] ∧
            pd_SelectedCapability (preflightPlacementDecision nodeID s c ds).1 = None
  | best :: rest => (preflightPlacementDecision nodeID s c ds).2 = [] ∧
            pd_SelectedCapability (preflightPlacementDecision nodeID s c ds).1 = Some best ∧
            pd_CandidateCapabilityIDs (preflightPlacementDecision nodeID s c ds).1 = desc_ID <$> best :: rest
  end.
Proof.
  unfold preflightPlacementDecision, eligible.
  case_bool_decide as Hm.
  - apply nil_length_inv in Hm. rewrite Hm. cbn [filterDescriptorsForContract filter list_filter sort_stable foldr fst snd]. eauto.
  - destruct (sort_stable _ _); cbn [fst snd pd_SelectedCapability pd_CandidateCapabilityIDs]; eauto.
Qed.

(** Among descriptors of the best score the selected one was listed first. *)
Lemma StronglySorted_filter {X} (R : X → X → Prop) (P : X → Prop) `{!∀ x, Decision (P x)} l :
  StronglySorted R l → StronglySorted R (filter P l).
Proof.
  induction 1 as [|x l Hl IH Hx]; [constructor|]. rewrite filter_cons. case_decide; [|done].
  constructor; [done|]. apply Forall_forall. intros y Hy%list_elem_of_filter.
  rewrite Forall_forall in Hx. apply Hx, Hy.
Qed.

Lemma tie_least s c ds best rest d :
  let p := PreferredPlacement c in
  sort_stable (score_ge p) (eligible s c (sort_stable id_le ds)) = best :: rest →
  d ∈ best :: rest → placementScore p d = placementScore p best → id_le best d.
Proof.
  intros p Es Hd Heq. set (el := eligible s c (sort_stable id_le ds)) in *.
  set (P x := placementScore p x = placementScore p best).
  pose proof (sort_stable_stable (score_ge p) P el) as Hst. rewrite Es in Hst.
  assert (StronglySorted id_le el) as Hid.
  { unfold el, eligible. by do 2 apply StronglySorted_filter; apply sort_stable_sorted; apply _. }
  apply (StronglySorted_filter _ P) in Hid. rewrite <- Hst in Hid by (unfold P, score_ge; lia).
  rewrite filter_cons_True in Hid by done. apply StronglySorted_cons in Hid as [Hall _].
  apply elem_of_cons in Hd as [->|Hd]; [unfold id_le; reflexivity|].
  rewrite Forall_forall in Hall. apply Hall. by apply list_elem_of_filter.
Qed.

(** placement picks the best eligible capability.  An issue, always blocking, is
    reported exactly when no descriptor both matches the selector and meets the
    contract's trust and risk limits.  Otherwise the selected capability is such a
    descriptor, none of them scores higher, among equal scores (with the descriptors
    listed by ID, as preflight lists them) its ID is least, and the candidates are
    those descriptors. *)
Theorem placement_best nodeID s c ds :
  let (dec, issues) := preflightPlacementDecision nodeID s c (sort_stable id_le ds) in
  (issues ≠ [] ↔ ∀ d, d ∈ ds → SelectorMatchesDescriptor s d = true → satisfies c d = false) ∧
  Forall (λ i, pi_Blocking i = true ∧ pi_NodeID i = nodeID) issues ∧
  (issues = [] → ∃ best, pd_SelectedCapability dec = Some best ∧ best ∈ ds ∧
     SelectorMatchesDescriptor s best = true ∧ satisfies c best = true ∧
     pd_CandidateCapabilityIDs dec ≡ₚ desc_ID <$> eligible s c ds ∧
     ∀ d, d ∈ ds → SelectorMatchesDescriptor s d = true → satisfies c d = true →
       (placementScore (PreferredPlacement c) d < placementScore (PreferredPlacement c) best)%Z ∨
       (placementScore (PreferredPlacement c) d = placementScore (PreferredPlacement c) best ∧ id_le best d)).
Proof.
  pose proof (decision_cases nodeID s c (sort_stable id_le ds)) as Hd.
  destruct (preflightPlacementDecision nodeID s c (sort_stable id_le ds)) as [dec issues]. cbn [fst snd] in Hd.
  set (p := PreferredPlacement c) in *. set (el := eligible s c (sort_stable id_le ds)) in *.
  assert (∀ d, d ∈ el ↔ d ∈ ds ∧ SelectorMatchesDescriptor s d = true ∧ satisfies c d = true) as Hel.
  { intros d. unfold el. by rewrite elem_of_eligible, sort_stable_Permutation. }
  pose proof (sort_stable_Permutation (score_ge p) el) as Hp.
  destruct (sort_stable (score_ge p) el) as [|best rest] eqn:Es.
  - destruct Hd as (code & msg & -> & Hsel). apply Permutation_nil in Hp. split_and!.
    + split; [|done]. intros _ d Hin Hm. destruct (satisfies c d) eqn:Hs; [|done].
      assert (d ∈ el) as Hx by (by apply Hel). rewrite Hp in Hx. by apply elem_of_nil in Hx.
    + by apply Forall_singleton.
    + done.
  - destruct Hd as (-> & Hsel & Hc). assert (best ∈ el) as Hb by (rewrite <- Hp; left).
    pose proof (proj1 (Hel best) Hb) as (Hin & Hm & Hs). split_and!; [| |intros _; exists best; split_and!; try done].
    + split; [done|]. intros Hn. by rewrite Hn in Hs by done.
    + constructor.
    + rewrite Hc, Hp. apply fmap_Permutation. unfold el, eligible, filterDescriptorsForContract, matchingDescriptors.
      by rewrite sort_stable_Permutation.
    + intros d Hdin Hdm Hds. assert (d ∈ best :: rest) as Hx by (rewrite Hp; by apply Hel).
      pose proof (sort_stable_sorted (score_ge p) el) as Hsort. rewrite Es in Hsort.
      apply StronglySorted_cons in Hsort as [Hall _].
      assert (placementScore p d <= placementScore p best)%Z as Hle.
      { apply elem_of_cons in Hx as [->|Hx]; [lia|]. rewrite Forall_forall in Hall. by apply Hall. }
      destruct (decide (placementScore p d = placementScore p best)) as [Heq|]; [right; split; [done|]|left; lia].
      by apply (tie_least s c ds best rest).
Qed.

(** ** Preflight *)

(** A requirement no descriptor can meet. *)
Definition unmet (ds : list CapabilityDescriptor) (c : NodeContract) (s : CapabilitySelector) : Prop :=
  ∀ d, d ∈ ds → SelectorMatchesDescriptor s d = true → satisfies c d = false.

Lemma eligible_nil s c ds : eligible s c ds = [] ↔ unmet ds c s.
Proof.
  unfold unmet. split.
  - intros He d Hd Hm. destruct (satisfies c d) eqn:Hs; [|done].
    assert (d ∈ eligible s c ds) as Hx by (by apply elem_of_eligible). rewrite He in Hx. by apply elem_of_nil in Hx.
  - intros Hu. destruct (eligible s c ds) as [|d l] eqn:E; [done|]. assert (d ∈ eligible s c ds) as Hx by (rewrite E; left).
    apply elem_of_eligible in Hx as (Hd & Hm & Hs). by rewrite (Hu d) in Hs.
Qed.

Lemma decision_issues nodeID s c ds :
  (preflightPlacementDecision nodeID s c ds).2 = [] ∧ ¬ unmet ds c s ∨
  (∃ code msg, (preflightPlacementDecision nodeID s c ds).2 = [blocked nodeID code msg]) ∧ unmet ds c s.
Proof.
  pose proof (decision_cases nodeID s c ds) as Hd. rewrite <- eligible_nil.
  pose proof (sort_stable_Permutation (score_ge (PreferredPlacement c)) (eligible s c ds)) as Hp.
  destruct (sort_stable _ _) as [|best rest].
  - right. split; [|by apply Permutation_nil in Hp]. destruct Hd as (code & msg & Hd & _). eauto.
  - left. split; [apply Hd|]. intros He. rewrite He in Hp. symmetry in Hp. by apply Permutation_nil in Hp.
Qed.

Lemma preflight_selectors ds nodeID c ss : ∀ r,
  let r' := foldl (preflight_selector ds nodeID c) r ss in
  HasBlockingIssues r' = true ↔ HasBlockingIssues r = true ∨ ∃ s, s ∈ ss ∧ unmet ds c s.
Proof.
  unfold HasBlockingIssues. induction ss as [|s ss IH]; intros r; cbn [foldl]; cbn zeta.
  { split; [auto|]. intros [?|(s & Hs & _)]; [done|by apply elem_of_nil in Hs]. }
  rewrite IH. clear IH. unfold preflight_selector at 1.
  assert ((∃ s', s' ∈ s :: ss ∧ unmet ds c s') ↔ unmet ds c s ∨ ∃ s', s' ∈ ss ∧ unmet ds c s') as ->.
  { setoid_rewrite elem_of_cons. naive_solver. }
  destruct (decision_issues nodeID s c ds) as [[Hi Hu]|[(code & msg & Hi) Hu]];
    destruct (preflightPlacementDecision nodeID s c ds) as [dec issues]; cbn [snd] in Hi; subst issues; cbn [Issues].
  - rewrite app_nil_r. tauto.
  - rewrite existsb_app. cbn. rewrite orb_true_r. tauto.
Qed.

Lemma preflight_nodes ds ns : ∀ r,
  HasBlockingIssues (foldl (preflight_node ds) r ns) = true ↔
  HasBlockingIssues r = true ∨ ∃ n s, n ∈ ns ∧ s ∈ RequiredCapabilities n.2 ∧ unmet ds n.2 s.
Proof.
  induction ns as [|n ns IH]; intros r; cbn [foldl].
  { split; [auto|]. intros [?|(n & s & Hn & _)]; [done|by apply elem_of_nil in Hn]. }
  rewrite IH. unfold preflight_node at 1. rewrite preflight_selectors. setoid_rewrite elem_of_cons. split.
  - intros [[?|(s & Hs)]|(m & s & Hm & Hs)]; [by left|right; exists n, s; tauto|right; exists m, s; tauto].
  - intros [?|(m & s & [->|Hm] & Hs)]; [by left; left|left; right; eauto|right; eauto].
Qed.

Lemma preflight_error_None r : preflight_error r = None ↔ HasBlockingIssues r = false.
Proof.
  unfold preflight_error. destruct (HasBlockingIssues r) eqn:E; [|done]. split; [|done].
  unfold blockingPreflightError. destruct (list_find _ (Issues r)) as [[i x]|] eqn:F; [done|].
  apply list_find_None in F. unfold HasBlockingIssues in E. apply existsb_exists in E as (x & Hx & Hb).
  rewrite Forall_forall in F. intros _. exfalso. apply (F x); [by apply list_elem_of_In|done].
Qed.

(** preflight refuses exactly the graphs it cannot place.  With a catalog, preflight
    fails if and only if some node requires a capability for which the catalog holds
    no matching descriptor within the contract's limits; without one it never fails. *)
Theorem preflight_complete now catalog ns :
  preflight_error (preflight_report now catalog ns) = None ↔
  match catalog with
  | None => True
  | Some ds => ∀ n s, n ∈ ns → s ∈ RequiredCapabilities n.2 →
      ∃ d, d ∈ ds ∧ SelectorMatchesDescriptor s d = true ∧ satisfies n.2 d = true
  end.
Proof.
  rewrite preflight_error_None. unfold preflight_report. destruct catalog as [ds|]; [|done].
  rewrite <- not_true_iff_false, preflight_nodes. split.
  - intros Hn n s Hin Hs. destruct (eligible s n.2 (sort_stable id_le ds)) as [|d l] eqn:E.
    + exfalso. apply Hn. right. exists n, s. split_and!; [done|done|]. by apply eligible_nil.
    + assert (d ∈ eligible s n.2 (sort_stable id_le ds)) as Hd by (rewrite E; left).
      apply elem_of_eligible in Hd as (Hd & Hm & Hsat). rewrite sort_stable_Permutation in Hd. eauto.
  - intros Hall [Hb|(n & s & Hin & Hs & Hu)]; [done|]. destruct (Hall n s Hin Hs) as (d & Hd & Hm & Hsat).
    rewrite (Hu d) in Hsat; [done| |done]. by rewrite sort_stable_Permutation.
Qed.

(** ** Contracts *)

(** the contracts the program makes up are valid.  The default contract of a node
    without one always validates; a tool node's derived contract validates exactly
    when the tool is known by an ID or a name. *)
Theorem derived_contracts_valid n desc :
  (ni_Contract n = None → validateNodeContract n (ResolveNodeContract n) = None) ∧
  (ni_Type n = NodeTypeTool → ni_Contract n = Some (toolNodeContract desc) →
   validateNodeContract n (ResolveNodeContract n) = None ↔
   ∃ d, desc = Some d ∧ (desc_ID d ≠ EmptyString ∨ desc_Name d ≠ EmptyString)).
Proof.
  destruct n as [id ty c]. cbn [ni_Contract ni_Type]. split.
  - intros ->. unfold ResolveNodeContract, defaultNodeContract. cbn [ni_Contract ni_Type].
    repeat (case_bool_decide; [unfold validateNodeContract; cbn [ni_Type ni_Contract];
      rewrite (bool_decide_false (is_Some None)) by (by intros [? ?]); rewrite andb_false_r; by vm_compute|]).
    unfold validateNodeContract. cbn [ni_Type ni_Contract].
    rewrite (bool_decide_false (is_Some None)) by (by intros [? ?]); rewrite andb_false_r; by vm_compute.
  - intros -> ->. unfold ResolveNodeContract. cbn [ni_Contract]. destruct desc as [d|].
    2: { split; [|intros (d & ? & _); done]. by vm_compute. }
    assert ((∃ d0, Some d = Some d0 ∧ (desc_ID d0 ≠ EmptyString ∨ desc_Name d0 ≠ EmptyString)) ↔
      bool_decide (desc_ID d ≠ EmptyString) || bool_decide (desc_Name d ≠ EmptyString) = true) as ->.
    { rewrite orb_true_iff, !bool_decide_eq_true. naive_solver. }
    unfold toolNodeContract. destruct (_ || _) eqn:E.
    + split; [done|]. intros _. unfold validateNodeContract. apply first_error_None. cbn [RequiredCapabilities SideEffectClass Idempotency].
      rewrite !Forall_cons. split_and!; [| | |by vm_compute..|by apply Forall_nil].
      * cbn [fmap list_fmap]. unfold ValidateCapabilitySelector, selector_empty. cbn.
        rewrite (bool_decide_false ("tool" = EmptyString)) by done. rewrite !andb_false_r. by vm_compute.
      * apply check_None, negb_false_iff, bool_decide_eq_true. unfold classifyToolSideEffects.
        clear E. destruct (bool_decide _); [|destruct (side_effect_flags _) as [[] []]]; cbn; rewrite !elem_of_cons; auto 10.
      * apply check_None, negb_false_iff, bool_decide_eq_true. unfold classifyToolIdempotency.
        clear E. destruct (bool_decide _); [|destruct (existsb _ (desc_EffectClasses d)); [|destruct (existsb _ (desc_risks d))]]; cbn; rewrite !elem_of_cons; auto 10.
    + split; [|done]. intros Hv. unfold validateNodeContract in Hv. apply first_error_None in Hv.
      rewrite !Forall_cons in Hv. destruct_and?.
      match goal with H : check (bool_decide (_ = NodeTypeTool) && _ && _) _ = None |- _ => by vm_compute in H end.
Qed.

(** A tool of a remote provider that declares no effect is classified replay-safe and
    free of side effects, although its scope alone carries risks that make a tool
    single-shot. *)
Lemma undeclared_remote_replay_safe d :
  desc_EffectClasses d = [] → src_Scope (desc_Source d) = CapabilityScopeRemote →
  classifyToolIdempotency d = IdempotencyReplaySafe ∧ classifyToolSideEffects d = SideEffectNone ∧
  RiskClassNetwork ∈ desc_risks d ∧ RiskClassNetwork ∈ single_shot_risks.
Proof.
  intros He Hs. unfold classifyToolIdempotency, classifyToolSideEffects, desc_risks. rewrite He, Hs.
  split_and!; [done|done|apply (bool_decide_unpack _); vm_compute; exact I..].
Qed.

(** ** Merging selectors *)
Definition tag_selector (tags : list string) : CapabilitySelector :=
  {| sel_ID := EmptyString; sel_Name := EmptyString; sel_Kind := EmptyString; sel_RuntimeFamilies := [];
     sel_Tags := tags; sel_ExcludeTags := []; sel_SourceScopes := []; sel_TrustClasses := [];
     sel_RiskClasses := []; sel_EffectClasses := []; sel_CoordinationRoles := [];
     sel_CoordinationTaskTypes := []; sel_CoordinationExecutionModes := [];
     sel_CoordinationLongRunning := EnabledStateUnset; sel_CoordinationDirectInsertion := EnabledStateUnset |}.

(** Two selectors that match different capabilities can have one key, and then the
    second is dropped. *)
Lemma merge_key_collision :
  MergeCapabilitySelectors [tag_selector ["a,b"]] [tag_selector ["a"; "b"]] = [tag_selector ["a,b"]].
Proof. vm_compute. reflexivity. Qed.
