(* ===== verification/EnvelopeSafety.v ===== *)
(** * EnvelopeSafety

    Branch deltas and their merge: the two-phase merge of [ApplyBranchMerges] is
    sequential last-writer-wins per key, a branch merged back alone reproduces the
    branch, a deletion is not undone by a branch that left the key alone, and the
    conflicts reported are the keys several units touched. *)
From S2P Require Import Prelude GoStrings Envelope EnvelopeMerge.
From Stdlib Require Import Lia.

(** ** Sets of keys *)
Lemma elem_of_dedupe l : ∀ seen (x : string), x ∈ dedupe seen l ↔ x ∈ l ∧ x ∉ seen.
Proof.
  induction l as [|y l IH]; intros seen x; cbn; [set_solver|].
  case_bool_decide; [rewrite IH; set_solver|]. rewrite elem_of_cons, IH. destruct (decide (x = y)); set_solver.
Qed.

Lemma NoDup_dedupe l : ∀ seen, NoDup (dedupe seen l).
Proof.
  induction l as [|y l IH]; intros seen; cbn; [constructor|].
  case_bool_decide; [done|]. constructor; [rewrite elem_of_dedupe; set_solver|done].
Qed.

Lemma elem_of_sorted l (x : string) : x ∈ sortedUniqueStrings l ↔ x ∈ l ∧ x ≠ EmptyString.
Proof.
  unfold sortedUniqueStrings, sort_strings. rewrite merge_sort_Permutation, elem_of_dedupe, list_elem_of_filter.
  set_solver.
Qed.

Lemma NoDup_sorted l : NoDup (sortedUniqueStrings l).
Proof. unfold sortedUniqueStrings, sort_strings. rewrite merge_sort_Permutation. apply NoDup_dedupe. Qed.

Section safety.
Context {V : Type} (other_equal : V → V → bool).
Abbreviation Envelope := (Envelope V).
Abbreviation BranchMergeUnit := (BranchMergeUnit V).

(** ** What one unit does to one key *)
Definition unit_data (u : BranchMergeUnit) : gmap string (Any V) :=
  match u_Env u with Some e => data e | None => ∅ end.

Definition writes_key (u : BranchMergeUnit) (k : string) : bool :=
  bool_decide (k ≠ EmptyString) &&
  bool_decide (k ∈ WorkingMemoryAdded (u_Delta u) ++ WorkingMemoryModified (u_Delta u)) &&
  bool_decide (is_Some (unit_data u !! k)).

Definition deletes_key (u : BranchMergeUnit) (k : string) : bool :=
  bool_decide (k ≠ EmptyString) && bool_decide (k ∈ WorkingMemoryDeleted (u_Delta u)).

(** The sequential reading: a unit's write installs its value, its delete removes
    the key, silence keeps what was there. *)
Definition effect (k : string) (old : option (Any V)) (u : BranchMergeUnit) : option (Any V) :=
  if writes_key u k then unit_data u !! k else if deletes_key u k then None else old.

(** How often one unit touches a key. *)
Definition touches (u : BranchMergeUnit) (k : string) : nat :=
  (if deletes_key u k then 1 else 0) + (if writes_key u k then 1 else 0).

(** ** The resolution, key by key *)
Lemma deletes_fold ds : ∀ (s : resolved (V := V)) k, NoDup ds →
  let s' := foldl resolve_delete s ds in
  writes s' !! k = (if bool_decide (k ∈ ds) then None else writes s !! k) ∧
  originWrites s' !! k = (if bool_decide (k ∈ ds) then None else originWrites s !! k) ∧
  (k ∈ deletes s' ↔ k ∈ ds ∨ k ∈ deletes s) ∧
  default 0 (touched s' !! k) = default 0 (touched s !! k) + (if bool_decide (k ∈ ds) then 1 else 0).
Proof.
  induction ds as [|d ds IH]; intros s k Hn; cbn zeta; cbn [foldl].
  { rewrite bool_decide_false by apply not_elem_of_nil. split_and!; [done|done|set_solver|lia]. }
  apply NoDup_cons in Hn as [Hd Hn]. destruct (IH (resolve_delete s d) k Hn) as (Hw & Ho & Hdel & Ht).
  rewrite Hw, Ho, Hdel, Ht. unfold resolve_delete, bump. cbn [writes originWrites deletes touched].
  destruct (decide (k = d)) as [->|Hne].
  - rewrite !lookup_delete_eq, lookup_insert_eq, (bool_decide_false (d ∈ ds)), (bool_decide_true (d ∈ d :: ds))
      by (done || left).
    split_and!; [done|done|set_solver|cbn; lia].
  - rewrite !lookup_delete_ne, lookup_insert_ne by done.
    assert (bool_decide (k ∈ d :: ds) = bool_decide (k ∈ ds)) as -> by (apply bool_decide_ext; set_solver).
    split_and!; [done|done|set_solver|done].
Qed.

Lemma writes_fold values origins ws : ∀ (s : resolved (V := V)) k, NoDup ws →
  let s' := foldl (resolve_write values origins) s ws in
  let hit := bool_decide (k ∈ ws) && bool_decide (is_Some (values !! k)) in
  writes s' !! k = (if hit then values !! k else writes s !! k) ∧
  originWrites s' !! k =
    (if hit then Some (match originWrites s !! k with
                       | Some x => MostRestrictive x (default OriginLLM (origins !! k))
                       | None => default OriginLLM (origins !! k)
                       end)
     else originWrites s !! k) ∧
  (k ∈ deletes s' ↔ k ∈ deletes s ∧ hit = false) ∧
  default 0 (touched s' !! k) = default 0 (touched s !! k) + (if hit then 1 else 0).
Proof.
  induction ws as [|w ws IH]; intros s k Hn; cbn zeta; cbn [foldl].
  { rewrite bool_decide_false by apply not_elem_of_nil. cbn. split_and!; [done|done|set_solver|lia]. }
  apply NoDup_cons in Hn as [Hd Hn]. destruct (IH (resolve_write values origins s w) k Hn) as (Hw & Ho & Hdel & Ht).
  rewrite Hw, Ho, Hdel, Ht. clear Hw Ho Hdel Ht IH. unfold resolve_write.
  destruct (decide (k = w)) as [->|Hne].
  - rewrite (bool_decide_false (w ∈ ws)), (bool_decide_true (w ∈ w :: ws)) by (done || left). cbn [andb].
    destruct (values !! w) as [v|] eqn:Ev; cbn [writes originWrites deletes touched bump].
    + rewrite bool_decide_true by done. unfold bump. rewrite !lookup_insert_eq.
      cbn [default from_option id]. split_and!; [done|done|set_solver|lia].
    + rewrite bool_decide_false by (by intros [? ?]). split_and!; [done|done|set_solver|lia].
  - assert (bool_decide (k ∈ w :: ws) = bool_decide (k ∈ ws)) as -> by (apply bool_decide_ext; set_solver).
    unfold bump. destruct (values !! w) as [v|]; cbn [writes originWrites deletes touched];
      [rewrite !lookup_insert_ne by done|]; split_and!; try done; set_solver.
Qed.

Lemma deletes_key_spec u k :
  deletes_key u k = bool_decide (k ∈ sortedUniqueStrings (WorkingMemoryDeleted (u_Delta u))).
Proof.
  unfold deletes_key. rewrite <- bool_decide_and. apply bool_decide_ext. rewrite elem_of_sorted. tauto.
Qed.

Lemma writes_key_spec u k :
  writes_key u k =
  bool_decide (k ∈ sortedUniqueStrings (WorkingMemoryAdded (u_Delta u) ++ WorkingMemoryModified (u_Delta u))) &&
  bool_decide (is_Some (unit_data u !! k)).
Proof.
  unfold writes_key. f_equal. rewrite <- bool_decide_and. apply bool_decide_ext. rewrite elem_of_sorted. tauto.
Qed.

Definition unit_origin (u : BranchMergeUnit) (k : string) : string :=
  match u_Env u with Some e => OriginOf e k | None => OriginLLM end.

(** One unit on the pending writes, origins, deletes and touches of a key. *)
Lemma resolve_unit_key s u k :
  let s' := resolve_unit s u in
  writes s' !! k = (if writes_key u k then unit_data u !! k else if deletes_key u k then None else writes s !! k) ∧
  originWrites s' !! k =
    (if writes_key u k
     then Some (match (if deletes_key u k then None else originWrites s !! k) with
                | Some x => MostRestrictive x (unit_origin u k)
                | None => unit_origin u k
                end)
     else if deletes_key u k then None else originWrites s !! k) ∧
  (k ∈ deletes s' ↔ writes_key u k = false ∧ (deletes_key u k = true ∨ k ∈ deletes s)) ∧
  default 0 (touched s' !! k) = default 0 (touched s !! k) + touches u k.
Proof.
  cbn zeta. unfold resolve_unit.
  destruct (deletes_fold (sortedUniqueStrings (WorkingMemoryDeleted (u_Delta u))) s k (NoDup_sorted _))
    as (Hw & Ho & Hd & Ht).
  rewrite <- deletes_key_spec in Hw, Ho, Ht.
  assert (k ∈ sortedUniqueStrings (WorkingMemoryDeleted (u_Delta u)) ↔ deletes_key u k = true) as Hiff
    by (rewrite deletes_key_spec, bool_decide_eq_true; done).
  rewrite Hiff in Hd. unfold touches.
  destruct (match u_Env u with Some env => WorkingData env | None => None end) as [values|] eqn:Ev.
  - destruct (u_Env u) as [env|] eqn:Eu; [|done]. rewrite Ev.
    destruct (writes_fold values (Origins env)
      (sortedUniqueStrings (WorkingMemoryAdded (u_Delta u) ++ WorkingMemoryModified (u_Delta u)))
      (foldl resolve_delete s (sortedUniqueStrings (WorkingMemoryDeleted (u_Delta u)))) k (NoDup_sorted _))
      as (Hw' & Ho' & Hd' & Ht').
    assert (unit_data u = values) as Hv by (unfold unit_data, data; by rewrite Eu, Ev).
    rewrite <- Hv, <- writes_key_spec in Hw', Ho', Hd', Ht'. rewrite <- Hv, Hw', Ho', Hd', Ht', Hw, Ho, Hd, Ht.
    unfold unit_origin. rewrite Eu. split_and!; [done|done|tauto|lia].
  - assert (writes_key u k = false) as Hnw.
    { rewrite writes_key_spec. unfold unit_data, data. destruct (u_Env u) as [env|]; [rewrite Ev; cbn [from_option]|];
        rewrite lookup_empty,  (bool_decide_false (is_Some None)) by (by intros [? ?]); apply andb_false_r. }
    assert ((match u_Env u with
             | Some env => match WorkingData env with
                           | Some values => foldl (resolve_write values (Origins env))
                               (foldl resolve_delete s (sortedUniqueStrings (WorkingMemoryDeleted (u_Delta u))))
                               (sortedUniqueStrings (WorkingMemoryAdded (u_Delta u) ++ WorkingMemoryModified (u_Delta u)))
                           | None => foldl resolve_delete s (sortedUniqueStrings (WorkingMemoryDeleted (u_Delta u)))
                           end
             | None => foldl resolve_delete s (sortedUniqueStrings (WorkingMemoryDeleted (u_Delta u)))
             end) = foldl resolve_delete s (sortedUniqueStrings (WorkingMemoryDeleted (u_Delta u)))) as ->.
    { destruct (u_Env u) as [env|]; [by rewrite Ev|done]. }
    rewrite Hnw, Hw, Ho, Hd, Ht. split_and!; [done|done|tauto|lia].
Qed.

(** The pending write and delete of a key together say what becomes of it. *)
Definition pending (s : resolved (V := V)) (k : string) (old : option (Any V)) : option (Any V) :=
  match writes s !! k with
  | Some v => Some v
  | None => if bool_decide (k ∈ deletes s) then None else old
  end.

Lemma resolve_unit_pending s u k old : pending (resolve_unit s u) k old = effect k (pending s k old) u.
Proof.
  destruct (resolve_unit_key s u k) as (Hw & _ & Hd & _). unfold pending, effect. rewrite Hw.
  destruct (writes_key u k) eqn:Ew.
  - assert (is_Some (unit_data u !! k)) as [v ->]; [|done].
    unfold writes_key in Ew. rewrite !andb_true_iff, !bool_decide_eq_true in Ew. tauto.
  - destruct (deletes_key u k) eqn:Ed.
    + rewrite bool_decide_true; [done|]. apply Hd. auto.
    + assert (bool_decide (k ∈ deletes (resolve_unit s u)) = bool_decide (k ∈ deletes s)) as ->;
        [apply bool_decide_ext; rewrite Hd; naive_solver|done].
Qed.

Lemma resolve_units_pending us k old : pending (resolve_units us) k old = foldl (effect k) old us.
Proof.
  unfold resolve_units.
  assert (∀ s, pending (foldl resolve_unit s us) k old = foldl (effect k) (pending s k old) us) as ->.
  { induction us as [|u us IH]; intros s; cbn; [done|]. by rewrite IH, resolve_unit_pending. }
  unfold pending, nothing. cbn. rewrite lookup_empty. rewrite bool_decide_false by set_solver. done.
Qed.

Lemma resolve_units_touched us k :
  default 0 (touched (resolve_units us) !! k) = sum_list ((λ u, touches u k) <$> us).
Proof.
  unfold resolve_units.
  assert (∀ s, default 0 (touched (foldl resolve_unit s us) !! k) =
    default 0 (touched s !! k) + sum_list ((λ u, touches u k) <$> us)) as ->.
  { induction us as [|u us IH]; intros s; cbn; [lia|]. rewrite IH.
    destruct (resolve_unit_key s u k) as (_ & _ & _ & ->). lia. }
  cbn. rewrite lookup_empty. done.
Qed.

(** ** The merge as a whole *)
Lemma merge_data us e stats e' :
  ApplyBranchMerges us e = (Ok stats, e') → ∀ k, data e' !! k = foldl (effect k) (data e !! k) us.
Proof.
  unfold ApplyBranchMerges. destruct (validateBranchOrder us); [done|].
  case_bool_decide as Hus; [intros [= _ <-] k; by rewrite Hus|].
  destruct (mergeBranchReferencesLocked _ _ _) as [[refs n1] n2]. intros [_ <-]%pair_eq k.
  rewrite <- (resolve_units_pending us k). set (s := resolve_units us).
  assert ((writes s ∪ drop_keys (deletes s) (data e)) !! k = pending s k (data e !! k)) as <-.
  { unfold pending, drop_keys. rewrite lookup_union. destruct (writes s !! k); [by destruct (_ !! k)|].
    rewrite map_lookup_filter. case_bool_decide as Hd.
    - destruct (data e !! k); [cbn; rewrite option_guard_False by auto|]; done.
    - destruct (data e !! k); [cbn; rewrite option_guard_True by auto|]; done. }
  unfold data at 1. cbn [with_references with_memory WorkingData].
  unfold data. destruct (WorkingData e) as [d|]; [done|]. case_bool_decide as Hw; [|done].
  rewrite Hw. cbn. unfold drop_keys. by rewrite map_filter_empty, map_empty_union.
Qed.

Lemma merge_conflicts us e stats e' :
  ApplyBranchMerges us e = (Ok stats, e') → us ≠ [] →
  ∀ k, k ∈ Conflicts stats ↔ 1 < sum_list ((λ u, touches u k) <$> us).
Proof.
  unfold ApplyBranchMerges. destruct (validateBranchOrder us); [done|]. intros H Hne. revert H.
  rewrite bool_decide_false by done.
  destruct (mergeBranchReferencesLocked _ _ _) as [[refs n1] n2]. intros [<-%(inj Ok) _]%pair_eq k.
  cbn [Conflicts]. unfold conflicts_of, sort_strings. rewrite merge_sort_Permutation, <- resolve_units_touched.
  rewrite list_elem_of_fmap. split.
  - intros ([k' n] & -> & [Hn Hin]%list_elem_of_filter). apply elem_of_map_to_list in Hin. cbn in *. by rewrite Hin.
  - intros Hn. destruct (touched (resolve_units us) !! k) as [n|] eqn:E; [|cbn in Hn; lia].
    exists (k, n). split; [done|]. apply list_elem_of_filter. split; [done|]. by apply elem_of_map_to_list.
Qed.


(** ** Fork and join *)

(** The units the graph builds for branches forked from one parent. *)
Definition join_units (ids : nat → string) (parent : Envelope) (children : list Envelope) : list BranchMergeUnit :=
  imap (λ i c, {| u_Index := Z.of_nat i; u_ID := ids i;
                  u_Delta := ComputeBranchDelta other_equal parent c; u_Env := Some c |}) children.

(** The branch changed the key: it added it, deleted it, or its value differs. *)
Definition changed_by (p c : Envelope) (k : string) : bool :=
  match data p !! k, data c !! k with
  | None, None => false
  | Some a, Some b => negb (valuesEqual other_equal a b)
  | _, _ => true
  end.

Lemma elem_of_keys {A} (m : gmap string A) (P : string * A → Prop) `{∀ x, Decision (P x)} k :
  k ∈ (filter P (map_to_list m)).*1 ↔ ∃ v, m !! k = Some v ∧ P (k, v).
Proof.
  rewrite list_elem_of_fmap. split.
  - intros ([k' v] & -> & [HP Hin]%list_elem_of_filter). exists v. by rewrite <- elem_of_map_to_list.
  - intros (v & Hv & HP). exists (k, v). split; [done|]. apply list_elem_of_filter. by rewrite elem_of_map_to_list.
Qed.

Lemma branch_keys i id (p c : Envelope) k :
  k ≠ EmptyString →
  let u := {| u_Index := i; u_ID := id; u_Delta := ComputeBranchDelta other_equal p c; u_Env := Some c |} in
  writes_key u k = changed_by p c k && bool_decide (is_Some (data c !! k)) ∧
  deletes_key u k = changed_by p c k && negb (bool_decide (is_Some (data c !! k))).
Proof.
  intros Hk. cbn zeta. unfold writes_key, deletes_key, unit_data. cbn [u_Env u_Delta].
  rewrite !(bool_decide_true (k ≠ EmptyString)) by done. cbn [andb].
  unfold changed_by. cbn [ComputeBranchDelta WorkingMemoryAdded WorkingMemoryModified WorkingMemoryDeleted].
  split; apply eq_true_iff_eq.
  - rewrite !andb_true_iff, !bool_decide_eq_true, elem_of_app, !elem_of_keys. unfold changed. cbn.
    destruct (data c !! k) as [b|], (data p !! k) as [a|]; try naive_solver.
  - rewrite bool_decide_eq_true, elem_of_keys, andb_true_iff, negb_true_iff, bool_decide_eq_false. cbn.
    destruct (data c !! k) as [b|], (data p !! k) as [a|]; try naive_solver.
Qed.

Lemma branch_effect i id (p c : Envelope) k old :
  k ≠ EmptyString →
  effect k old {| u_Index := i; u_ID := id; u_Delta := ComputeBranchDelta other_equal p c; u_Env := Some c |} =
  if changed_by p c k then data c !! k else old.
Proof.
  intros Hk. unfold effect. destruct (branch_keys i id p c k Hk) as [-> ->]. unfold unit_data. cbn [u_Env].
  destruct (changed_by p c k); cbn [andb]; [|done]. case_bool_decide as Hs; cbn [negb]; [done|].
  by destruct (data c !! k) eqn:E; [destruct Hs|].
Qed.

Lemma branch_touches i id (p c : Envelope) k :
  k ≠ EmptyString →
  touches {| u_Index := i; u_ID := id; u_Delta := ComputeBranchDelta other_equal p c; u_Env := Some c |} k =
  if changed_by p c k then 1 else 0.
Proof.
  intros Hk. unfold touches. destruct (branch_keys i id p c k Hk) as [-> ->].
  destruct (changed_by p c k); cbn [andb]; [|done]. by case_bool_decide.
Qed.

(** Units numbered by position are in order. *)
Lemma imap_order {X} (f : nat → X → BranchMergeUnit) (l : list X) :
  (∀ i x, u_Index (f i x) = Z.of_nat i) → validateBranchOrder (imap f l) = None.
Proof.
  assert (∀ (l : list X) (f : nat → X → BranchMergeUnit) n, (∀ i x, u_Index (f i x) = Z.of_nat (S n + i)) →
    order_loop (Z.of_nat n) (imap f l) = None) as Hl.
  { clear. induction l as [|x l IH]; intros f n Hf; [done|]. cbn [imap order_loop].
    rewrite Hf, (proj2 (Z.leb_gt _ _)) by lia. rewrite Nat.add_0_r. apply IH.
    intros i y. etrans; [apply (Hf (S i) y)|lia]. }
  intros Hf. destruct l as [|x l]; [done|]. cbn [imap validateBranchOrder]. rewrite Hf. apply (Hl l _ 0).
  intros i y. apply (Hf (S i) y).
Qed.

Lemma join_order ids p cs : validateBranchOrder (join_units ids p cs) = None.
Proof. by apply imap_order. Qed.

Lemma merge_ok (us : list BranchMergeUnit) (e : Envelope) :
  validateBranchOrder us = None → ∃ stats e', ApplyBranchMerges us e = (Ok stats, e').
Proof.
  intros Ho. unfold ApplyBranchMerges. rewrite Ho. case_bool_decide; [by eauto|].
  destruct (mergeBranchReferencesLocked _ _ _) as [[? ?] ?]. eauto.
Qed.

Lemma join_fold ids p cs k old :
  k ≠ EmptyString →
  foldl (effect k) old (join_units ids p cs) =
  foldl (λ o c, if changed_by p c k then data c !! k else o) old cs.
Proof.
  intros Hk. unfold join_units.
  assert (∀ cs (f : nat → Z) ids old, foldl (effect k) old (imap (λ i c, {| u_Index := f i; u_ID := ids i;
    u_Delta := ComputeBranchDelta other_equal p c; u_Env := Some c |}) cs) =
    foldl (λ o c, if changed_by p c k then data c !! k else o) old cs) as H; [|apply H].
  clear -Hk. induction cs as [|c cs IH]; intros f ids old; [done|]. cbn [imap foldl].
  rewrite branch_effect by done. apply (IH (f ∘ S) (ids ∘ S)).
Qed.

(** joining branches forked from one parent always succeeds, and for each key
    the last branch, in declaration order, that changed it decides: if it holds the
    key its value is installed, if it deleted the key the key is gone, whatever the
    branches that left the key alone still carry; a key no branch changed keeps the
    parent's value. *)
Theorem fork_join ids p cs :
  ∃ stats e', ApplyBranchMerges (join_units ids p cs) p = (Ok stats, e') ∧
  ∀ k, k ≠ EmptyString →
    (Forall (λ c, changed_by p c k = false) cs → data e' !! k = data p !! k) ∧
    (∀ pre c post, cs = pre ++ c :: post → changed_by p c k = true →
       Forall (λ c, changed_by p c k = false) post → data e' !! k = data c !! k).
Proof.
  destruct (merge_ok _ p (join_order ids p cs)) as (stats & e' & E).
  exists stats, e'. split; [done|]. intros k Hk.
  rewrite (merge_data _ _ _ _ E k), join_fold by done.
  assert (∀ l old, Forall (λ c, changed_by p c k = false) l →
    foldl (λ o c, if changed_by p c k then data c !! k else o) old l = old) as Hq.
  { induction l as [|c l IH]; intros old; [done|]. intros [Hc Hl]%Forall_cons. cbn. rewrite Hc. by apply IH. }
  split; [apply Hq|]. intros pre c post -> Hc Hpost. rewrite foldl_app. cbn. rewrite Hc. by apply Hq.
Qed.
End safety.
