(* ===== verification/ContextStream.v ===== *)
(** * ContextStream

    [context/contextstream/envelope.go]: applying a compiled context to the envelope
    under the epoch guard, and what the guard ensures.  Epochs are [uint64], token
    counts [int].  Of a request and a compilation only what [ApplyResult] reads is
    kept. *)
From S2P Require Import Prelude GoStrings Envelope.
From Stdlib Require Import Lia.

Record StreamedChunkView := {
  cv_ChunkID : string; cv_ContentHash : string; cv_Body : string; cv_TokenEstimate : Z;
  cv_TrustClass : string; cv_IsSummary : bool; cv_ArtifactKey : string; cv_ObservedAt : Time
}.

Record CompilationRecord := { rec_ID : string; rec_OriginalBudget : Z; rec_FinalTokens : Z; rec_CacheHit : bool }.

Record CompilationResult := {
  StreamedChunks : list StreamedChunkView; StreamedRefs : list string; SkippedStaleChunks : list string;
  cm_Record : CompilationRecord
}.

Record StreamResult := {
  sr_RequestID : string;
  sr_Compilation : option CompilationResult;
  sr_Record : option CompilationRecord;
  sr_ShortfallTokens : Z;
  sr_Substitutions : nat;
  sr_Err : option gerror
}.

(** [ErrStaleApplyDropped] is told from other errors by its type. *)
Inductive apply_outcome :=
| Applied
| ErrStaleApplyDropped (CurrentEpoch GotEpoch : Z) (RequestID : string)
| ApplyFailed (e : gerror).

Definition streamedSliceByteBudgetFactor : Z := 2.

(** ** One authoritative view per artifact *)
Fixpoint newest_loop (i : nat) (chunks : list StreamedChunkView) (newest : gmap string (nat * Time))
    : gmap string (nat * Time) :=
  match chunks with
  | [] => newest
  | c :: chunks' =>
      newest_loop (S i) chunks'
        (if bool_decide (cv_ArtifactKey c = EmptyString) then newest
         else match newest !! cv_ArtifactKey c with
              | Some (_, t) =>
                  if (t <? cv_ObservedAt c)%Z then <[cv_ArtifactKey c := (i, cv_ObservedAt c)]> newest else newest
              | None => <[cv_ArtifactKey c := (i, cv_ObservedAt c)]> newest
              end)
  end.

Definition authoritative (newest : gmap string (nat * Time)) (i : nat) (c : StreamedChunkView) : bool :=
  bool_decide (cv_ArtifactKey c = EmptyString) ||
  bool_decide (fst <$> newest !! cv_ArtifactKey c = Some i).

Definition elided_message (c : StreamedChunkView) : string :=
  "superseded view of " +:+ cv_ArtifactKey c +:+
  " elided — a newer observation of this artifact is in this slice".

Fixpoint split_loop (newest : gmap string (nat * Time)) (i : nat) (chunks : list StreamedChunkView)
    : list StreamedChunkView * list string :=
  match chunks with
  | [] => ([], [])
  | c :: chunks' =>
      let (out, elided) := split_loop newest (S i) chunks' in
      if authoritative newest i c then (c :: out, elided) else (out, elided_message c :: elided)
  end.

Definition artifactAuthoritativeChunks (chunks : list StreamedChunkView) : list StreamedChunkView * list string :=
  split_loop (newest_loop 0 chunks ∅) 0 chunks.

(** ** Applying *)
Definition chunk_of (c : StreamedChunkView) : StreamedChunk :=
  {| sc_ChunkID := cv_ChunkID c; sc_ContentHash := cv_ContentHash c; sc_Body := cv_Body c;
     sc_TokenEstimate := cv_TokenEstimate c; sc_TrustClass := cv_TrustClass c; sc_IsSummary := cv_IsSummary c;
     sc_ArtifactKey := cv_ArtifactKey c; sc_ObservedAt := cv_ObservedAt c |}.

Definition byte_estimate (chunks : list StreamedChunk) : Z :=
  foldl (λ n c, wrap64 (n + wrap64 (sc_TokenEstimate c * 4))) 0%Z chunks.

Definition byte_limit (budget : Z) : Z := wrap64 (wrap64 (streamedSliceByteBudgetFactor * budget) * 4).

Section apply.
Context {V : Type}.
Abbreviation Envelope := (Envelope V).

Definition compiled_slice (c : CompilationResult) (epoch : Z) (now : Time) : StreamedSlice :=
  let (authored, elided) := artifactAuthoritativeChunks (StreamedChunks c) in
  {| sl_RequestID := rec_ID (cm_Record c); sl_Epoch := epoch; sl_CompiledAt := now;
     sl_BudgetTokens := rec_OriginalBudget (cm_Record c); sl_FinalTokens := rec_FinalTokens (cm_Record c);
     sl_Chunks := chunk_of <$> authored; sl_GapMessages := SkippedStaleChunks c ++ elided;
     sl_CacheHit := rec_CacheHit (cm_Record c) |}.

Definition over_budget (s : StreamedSlice) : bool :=
  (0 <? sl_BudgetTokens s)%Z && (byte_limit (sl_BudgetTokens s) <? byte_estimate (sl_Chunks s))%Z.

Definition applyStreamedSlice (e : Envelope) (c : CompilationResult) (epoch : Z) (now : Time)
    : option gerror * Envelope :=
  let s := compiled_slice c epoch now in
  if over_budget s
  then (Some (ErrFmt "contextstream: streamed slice exceeds 2x budget: %d bytes > %d (budget %d tokens)"
               [fmt_pad 1 (byte_estimate (sl_Chunks s)); fmt_pad 1 (byte_limit (sl_BudgetTokens s));
                fmt_pad 1 (sl_BudgetTokens s)]), e)
  else (None, SetStreamedSlice (Some s) e).

Definition ApplyStaleGaps (c : CompilationResult) (now : Time) (e : Envelope) : Envelope :=
  let ids := filter (.≠ EmptyString) (SkippedStaleChunks c) in
  if bool_decide (ids = []) then e
  else SetWorkingValueWithClass "contextstream.skipped_stale_chunks" (VStrings ids) MemoryClassTask now e.

Definition bare_chunk (id : string) : ChunkReference :=
  {| cr_ChunkID := id; cr_Source := EmptyString; cr_Rank := 0; cr_IsSummary := false;
     cr_OriginalChunk := EmptyString; cr_TokenCount := 0; cr_RetrievedAt := zero_time |}.

(** The loop over [StreamedRefs]. *)
Fixpoint add_refs (seen : gset string) (refs : list string) (e : Envelope) : Envelope :=
  match refs with
  | [] => e
  | id :: refs' =>
      if bool_decide (id = EmptyString) || bool_decide (id ∈ seen) then add_refs seen refs' e
      else add_refs ({[id]} ∪ seen) refs' (AddStreamedContextReference (bare_chunk id) e)
  end.

(** The memory order of the envelope. *)
Definition stale_floor (e : Envelope) : Z :=
  let floor := am_EpochID (AssemblyMetadata e) in
  match streamed e with
  | Some s => if (floor <? sl_Epoch s)%Z then sl_Epoch s else floor
  | None => floor
  end.

Definition apply_compilation (c : CompilationResult) (epoch : Z) (now : Time) (e : Envelope)
    : option gerror * Envelope :=
  let seen := list_to_set (cr_ChunkID <$> StreamedContext (References e)) in
  let e := add_refs seen (StreamedRefs c) e in
  let e := ApplyStaleGaps c now e in
  applyStreamedSlice e c epoch now.

(** What follows the compilation's content. *)
Definition apply_rest (r : StreamResult) (epoch : Z) (now : Time) (e : Envelope) : Envelope :=
  let e := match sr_Record r with
           | Some rec =>
               UpdateAssemblyMetadata (λ m,
                 {| am_CompilationID := rec_ID rec; am_EventLogSeq := am_EventLogSeq m;
                    am_BudgetTokens := am_BudgetTokens m; am_ShortfallTokens := am_ShortfallTokens m;
                    am_AssembledAt := am_AssembledAt m;
                    am_EpochID := if (am_EpochID m <? epoch)%Z then epoch else am_EpochID m;
                    am_RunID := am_RunID m |}) e
           | None => e
           end in
  let e := if (0 <? sr_ShortfallTokens r)%Z || bool_decide (0 < sr_Substitutions r)
           then SetWorkingValueWithClass "contextstream.shortfall_tokens" (VInt (sr_ShortfallTokens r)) MemoryClassTask now
                  (SetWorkingValueWithClass "contextstream.trimmed" (VBool true) MemoryClassTask now e)
           else e in
  let e := if bool_decide (sr_RequestID r = EmptyString) then e
           else SetWorkingValueWithClass "contextstream.request_id" (VString (sr_RequestID r)) MemoryClassTask now e in
  match sr_Err r with
  | Some err => SetWorkingValueWithClass "contextstream.error" (VString (error_text err)) MemoryClassTask now e
  | None => e
  end.

Definition ApplyResult (r : StreamResult) (epoch : Z) (now : Time) (e : Envelope) : apply_outcome * Envelope :=
  match sr_Compilation r with
  | None => (Applied, apply_rest r epoch now e)
  | Some c =>
      let floor := stale_floor e in
      if (epoch <? floor)%Z then (ErrStaleApplyDropped floor epoch (sr_RequestID r), e)
      else
        match apply_compilation c epoch now e with
        | (Some err, e) => (ApplyFailed err, e)
        | (None, e) => (Applied, apply_rest r epoch now e)
        end
  end.

(** ** The guard *)
Lemma add_refs_frame refs : ∀ seen (e : Envelope),
  AssemblyMetadata (add_refs seen refs e) = AssemblyMetadata e ∧
  streamed (add_refs seen refs e) = streamed e ∧ streamHistory (add_refs seen refs e) = streamHistory e.
Proof.
  induction refs as [|id refs IH]; intros seen e; cbn; [done|]. case_match; [apply IH|].
  destruct (IH ({[id]} ∪ seen) (AddStreamedContextReference (bare_chunk id) e)) as (-> & -> & ->). done.
Qed.

Lemma gaps_frame c now (e : Envelope) :
  AssemblyMetadata (ApplyStaleGaps c now e) = AssemblyMetadata e ∧
  streamed (ApplyStaleGaps c now e) = streamed e ∧ References (ApplyStaleGaps c now e) =
    {| StreamedContext := StreamedContext (References e);
       WorkingMemory := WorkingMemory (References (ApplyStaleGaps c now e));
       Retrieval := Retrieval (References e); Checkpoints := Checkpoints (References e) |}.
Proof. unfold ApplyStaleGaps. case_bool_decide; [|done]. split_and!; [done|done|]. by destruct (References e). Qed.

Lemma rest_frame r epoch now (e : Envelope) :
  streamed (apply_rest r epoch now e) = streamed e ∧
  StreamedContext (References (apply_rest r epoch now e)) = StreamedContext (References e) ∧
  am_EpochID (AssemblyMetadata (apply_rest r epoch now e)) =
    match sr_Record r with
    | Some _ => Z.max epoch (am_EpochID (AssemblyMetadata e))
    | None => am_EpochID (AssemblyMetadata e)
    end.
Proof.
  unfold apply_rest.
  set (e1 := match sr_Record r with Some _ => _ | None => e end).
  assert (streamed e1 = streamed e ∧ StreamedContext (References e1) = StreamedContext (References e) ∧
    am_EpochID (AssemblyMetadata e1) =
      match sr_Record r with
      | Some _ => Z.max epoch (am_EpochID (AssemblyMetadata e))
      | None => am_EpochID (AssemblyMetadata e)
      end) as (H1 & H2 & H3).
  { unfold e1. destruct (sr_Record r); [|done]. cbn. split_and!; [done|done|]. destruct (_ <? _)%Z eqn:E; lia. }
  rewrite <- H1, <- H2, <- H3. clearbody e1. clear.
  destruct (_ || _), (bool_decide (sr_RequestID r = _)), (sr_Err r); cbn; done.
Qed.

(** the epoch guard.  A result whose compilation belongs to an epoch older than
    the envelope's memory order is dropped and the envelope is unchanged; any other
    result stores the compiled slice with its epoch or fails with the slice
    untouched; and no application ever lowers the slice's epoch or the assembly
    epoch. *)
Theorem epoch_guard r epoch now (e : Envelope) :
  (∀ c, sr_Compilation r = Some c → (epoch < stale_floor e)%Z →
     ApplyResult r epoch now e = (ErrStaleApplyDropped (stale_floor e) epoch (sr_RequestID r), e)) ∧
  (∀ c, sr_Compilation r = Some c → (stale_floor e <= epoch)%Z →
     if over_budget (compiled_slice c epoch now)
     then ∃ err, (ApplyResult r epoch now e).1 = ApplyFailed err ∧ streamed (ApplyResult r epoch now e).2 = streamed e
     else (ApplyResult r epoch now e).1 = Applied ∧
          streamed (ApplyResult r epoch now e).2 = Some (compiled_slice c epoch now)) ∧
  (am_EpochID (AssemblyMetadata e) <= am_EpochID (AssemblyMetadata (ApplyResult r epoch now e).2))%Z ∧
  (∀ s, streamed e = Some s → ∃ s', streamed (ApplyResult r epoch now e).2 = Some s' ∧ (sl_Epoch s <= sl_Epoch s')%Z).
Proof.
  unfold ApplyResult. destruct (sr_Compilation r) as [c|].
  2: { destruct (rest_frame r epoch now e) as (H1 & _ & H3). cbn. rewrite H1, H3. split_and!; try done.
       - destruct (sr_Record r); lia.
       - intros s ->. by exists s. }
  destruct (epoch <? stale_floor e)%Z eqn:Ef.
  { cbn. split_and!; [done|intros; lia|lia|]. intros s ->. by exists s. }
  unfold apply_compilation, applyStreamedSlice. cbn zeta.
  set (e1 := ApplyStaleGaps c now _).
  assert (AssemblyMetadata e1 = AssemblyMetadata e ∧ streamed e1 = streamed e) as [Ha Hs].
  { unfold e1. destruct (gaps_frame c now (add_refs (list_to_set (cr_ChunkID <$> StreamedContext (References e)))
      (StreamedRefs c) e)) as (-> & -> & _).
    destruct (add_refs_frame (StreamedRefs c) (list_to_set (cr_ChunkID <$> StreamedContext (References e))) e)
      as (-> & -> & _). done. }
  split; [intros; lia|]. destruct (over_budget (compiled_slice c epoch now)) eqn:Eb; cbn [fst snd].
  - split_and!.
    + intros c' [= <-] _. rewrite Eb. eauto.
    + rewrite Ha. lia.
    + rewrite Hs. intros s ->. by exists s.
  - destruct (rest_frame r epoch now (SetStreamedSlice (Some (compiled_slice c epoch now)) e1)) as (H1 & _ & H3).
    rewrite H1, H3. cbn [SetStreamedSlice streamed AssemblyMetadata]. rewrite Ha. split_and!.
    + intros c' [= <-] _. by rewrite Eb.
    + destruct (sr_Record r); lia.
    + intros s Hse. eexists. split; [done|].
      assert (sl_Epoch (compiled_slice c epoch now) = epoch) as -> by (unfold compiled_slice; by destruct (artifactAuthoritativeChunks _)).
      unfold stale_floor in Ef. rewrite Hse in Ef. destruct (_ <? sl_Epoch s)%Z eqn:E; lia.
Qed.

(** What an application can do to the two epochs. *)
Lemma apply_epochs r epoch now (e : Envelope) :
  let e' := (ApplyResult r epoch now e).2 in
  (am_EpochID (AssemblyMetadata e') = am_EpochID (AssemblyMetadata e) ∨
   am_EpochID (AssemblyMetadata e') = Z.max epoch (am_EpochID (AssemblyMetadata e))) ∧
  (streamed e' = streamed e ∨ ∃ s, streamed e' = Some s ∧ sl_Epoch s = epoch).
Proof.
  assert (∀ e1 : Envelope, am_EpochID (AssemblyMetadata (apply_rest r epoch now e1)) = am_EpochID (AssemblyMetadata e1) ∨
    am_EpochID (AssemblyMetadata (apply_rest r epoch now e1)) = Z.max epoch (am_EpochID (AssemblyMetadata e1))) as Hrest.
  { intros e1. destruct (rest_frame r epoch now e1) as (_ & _ & ->). destruct (sr_Record r); auto. }
  cbn zeta. unfold ApplyResult. destruct (sr_Compilation r) as [c|].
  2: { split; [apply Hrest|left]. apply rest_frame. }
  destruct (epoch <? stale_floor e)%Z; [by split; left|].
  unfold apply_compilation, applyStreamedSlice. cbn zeta. set (e1 := ApplyStaleGaps c now _).
  assert (AssemblyMetadata e1 = AssemblyMetadata e ∧ streamed e1 = streamed e) as [Ha Hs].
  { unfold e1. destruct (gaps_frame c now (add_refs (list_to_set (cr_ChunkID <$> StreamedContext (References e)))
      (StreamedRefs c) e)) as (-> & -> & _).
    destruct (add_refs_frame (StreamedRefs c) (list_to_set (cr_ChunkID <$> StreamedContext (References e))) e)
      as (-> & -> & _). done. }
  destruct (over_budget (compiled_slice c epoch now)); cbn [fst snd]; [rewrite Ha, Hs; by split; left|].
  split; [rewrite <- Ha; exact (Hrest (SetStreamedSlice (Some (compiled_slice c epoch now)) e1))|right]. exists (compiled_slice c epoch now).
  split; [by destruct (rest_frame r epoch now (SetStreamedSlice (Some (compiled_slice c epoch now)) e1)) as [-> _]|].
  unfold compiled_slice. by destruct (artifactAuthoritativeChunks _).
Qed.

Lemma apply_stale r epoch now (e : Envelope) cur got id :
  (ApplyResult r epoch now e).1 = ErrStaleApplyDropped cur got id → (epoch < stale_floor e)%Z.
Proof.
  unfold ApplyResult. destruct (sr_Compilation r) as [c|]; [|done].
  destruct (epoch <? stale_floor e)%Z eqn:E; [lia|]. by destruct (apply_compilation _ _ _ _) as [[]].
Qed.
End apply.

(** ** The authoritative views *)

(** What the index map says of the chunks already seen. *)
Definition newest_ok (newest : gmap string (nat * Time)) (pre : list StreamedChunkView) : Prop :=
  ∀ k, k ≠ EmptyString →
    match newest !! k with
    | None => Forall (λ c, cv_ArtifactKey c ≠ k) pre
    | Some (i, t) => ∃ c, pre !! i = Some c ∧ cv_ArtifactKey c = k ∧ cv_ObservedAt c = t ∧
                          Forall (λ c', cv_ArtifactKey c' = k → cv_ObservedAt c' <= t)%Z pre
    end.

Lemma newest_ok_snoc newest pre c k :
  k ≠ EmptyString → newest_ok newest pre →
  cv_ArtifactKey c ≠ k ∨ (∃ i t, newest !! k = Some (i, t) ∧ cv_ObservedAt c <= t)%Z →
  match newest !! k with
  | None => Forall (λ c, cv_ArtifactKey c ≠ k) (pre ++ [c])
  | Some (i, t) => ∃ c', (pre ++ [c]) !! i = Some c' ∧ cv_ArtifactKey c' = k ∧ cv_ObservedAt c' = t ∧
                         Forall (λ c', cv_ArtifactKey c' = k → cv_ObservedAt c' <= t)%Z (pre ++ [c])
  end.
Proof.
  intros Hk Hok Hc. specialize (Hok k Hk). destruct (newest !! k) as [[i t]|].
  - destruct Hok as (c' & Hi & Hk' & Ht & Hall). exists c'. split_and!; [by apply lookup_app_l_Some|done|done|].
    apply Forall_app. split; [done|]. repeat constructor. intros Hkc.
    destruct Hc as [?|(i' & t' & [= <- <-] & ?)]; [done|done].
  - apply Forall_app. split; [done|]. repeat constructor. by destruct Hc as [?|(? & ? & ? & _)].
Qed.

Lemma newest_loop_ok chunks : ∀ pre newest,
  newest_ok newest pre → newest_ok (newest_loop (length pre) chunks newest) (pre ++ chunks).
Proof.
  induction chunks as [|c chunks IH]; intros pre newest Hok; cbn [newest_loop]; [by rewrite app_nil_r|].
  rewrite cons_middle, app_assoc. replace (S (length pre)) with (length (pre ++ [c])) by (rewrite length_app; cbn; lia).
  apply IH. intros k Hk. case_bool_decide as Hkey; [apply newest_ok_snoc; [done|done|left; congruence]|].
  assert (Hfresh : ∀ newest' : gmap string (nat * Time),
    newest' = <[cv_ArtifactKey c := (length pre, cv_ObservedAt c)]> newest →
    Forall (λ c', cv_ArtifactKey c' = cv_ArtifactKey c → cv_ObservedAt c' <= cv_ObservedAt c)%Z pre →
    match newest' !! k with
    | None => Forall (λ c, cv_ArtifactKey c ≠ k) (pre ++ [c])
    | Some (i, t) => ∃ c', (pre ++ [c]) !! i = Some c' ∧ cv_ArtifactKey c' = k ∧ cv_ObservedAt c' = t ∧
                         Forall (λ c', cv_ArtifactKey c' = k → cv_ObservedAt c' <= t)%Z (pre ++ [c])
    end).
  { intros newest' -> Hall. destruct (decide (cv_ArtifactKey c = k)) as [<-|Hne].
    - rewrite lookup_insert_eq. exists c. split_and!; [by rewrite lookup_app_r, Nat.sub_diag by lia|done|done|].
      apply Forall_app. split; [done|]. repeat constructor. lia.
    - rewrite lookup_insert_ne by done. apply newest_ok_snoc; [done|done|by left]. }
  destruct (newest !! cv_ArtifactKey c) as [[i t]|] eqn:E.
  - pose proof (Hok (cv_ArtifactKey c) Hkey) as Hkc. rewrite E in Hkc. destruct Hkc as (c' & Hi & Hk' & Ht & Hall).
    destruct (t <? cv_ObservedAt c)%Z eqn:Et.
    + apply Hfresh; [done|]. eapply Forall_impl; [exact Hall|]. cbn. intros x Hx Hxk. specialize (Hx Hxk). lia.
    + apply newest_ok_snoc; [done|done|]. destruct (decide (cv_ArtifactKey c = k)) as [<-|]; [right|by left].
      exists i, t. split; [done|lia].
  - apply Hfresh; [done|]. pose proof (Hok (cv_ArtifactKey c) Hkey) as Hkc. rewrite E in Hkc.
    eapply Forall_impl; [exact Hkc|]. done.
Qed.

Lemma split_loop_length newest chunks : ∀ i,
  length (split_loop newest i chunks).1 + length (split_loop newest i chunks).2 = length chunks.
Proof.
  induction chunks as [|c chunks IH]; intros i; cbn; [done|]. specialize (IH (S i)).
  destruct (split_loop newest (S i) chunks) as [out el]. destruct (authoritative _ _ _); cbn in *; lia.
Qed.

Lemma split_loop_keyless newest chunks : ∀ i,
  filter (λ c, cv_ArtifactKey c = EmptyString) (split_loop newest i chunks).1 =
  filter (λ c, cv_ArtifactKey c = EmptyString) chunks.
Proof.
  induction chunks as [|c chunks IH]; intros i; cbn [split_loop]; [done|]. specialize (IH (S i)).
  destruct (split_loop newest (S i) chunks) as [out el]. cbn [fst] in IH. unfold authoritative.
  case_bool_decide as Hk; cbn [orb fst].
  - rewrite !filter_cons_True by done. by rewrite IH.
  - rewrite (filter_cons_False _ c) by done. case_bool_decide; cbn [fst]; [by rewrite filter_cons_False by done|done].
Qed.

Lemma split_loop_key newest k : k ≠ EmptyString → ∀ chunks i,
  filter (λ c, cv_ArtifactKey c = k) (split_loop newest i chunks).1 =
  match newest !! k with
  | None => []
  | Some (j, _) =>
      if bool_decide (i ≤ j)
      then filter (λ c, cv_ArtifactKey c = k) (option_list (chunks !! (j - i))) else []
  end.
Proof.
  intros Hk. induction chunks as [|c chunks IH]; intros i; cbn [split_loop].
  { destruct (newest !! k) as [[j t]|]; [|done]. by case_bool_decide. }
  specialize (IH (S i)). destruct (split_loop newest (S i) chunks) as [out el]. cbn [fst] in IH.
  unfold authoritative. destruct (decide (cv_ArtifactKey c = k)) as [Hck|Hck].
  - rewrite (bool_decide_false (cv_ArtifactKey c = EmptyString)) by congruence. cbn [orb]. rewrite Hck.
    destruct (newest !! k) as [[j t]|]; cbn [fmap option_fmap option_map fst].
    + destruct (decide (j = i)) as [->|Hne].
      * rewrite bool_decide_true by done. cbn [fst]. rewrite filter_cons_True, IH by done.
        rewrite (bool_decide_false (S i ≤ i)), (bool_decide_true (i ≤ i)) by lia. rewrite Nat.sub_diag.
        change (option_list ((c :: chunks) !! 0)) with [c]. by rewrite filter_cons_True by done.
      * rewrite bool_decide_false by congruence. cbn [fst]. rewrite IH.
        destruct (decide (i ≤ j)).
        -- rewrite !bool_decide_true by lia. replace (j - i) with (S (j - S i)) by lia. done.
        -- rewrite !bool_decide_false by lia. done.
    + rewrite bool_decide_false by done. cbn [fst]. exact IH.
  - assert (filter (λ c, cv_ArtifactKey c = k) (if bool_decide (cv_ArtifactKey c = EmptyString) ||
        bool_decide (fst <$> newest !! cv_ArtifactKey c = Some i) then (c :: out, el) else
        (out, elided_message c :: el)).1 = filter (λ c, cv_ArtifactKey c = k) out) as ->
      by (destruct (_ || _); cbn [fst]; [by rewrite filter_cons_False|done]).
    rewrite IH. destruct (newest !! k) as [[j t]|]; [|done].
    destruct (decide (i ≤ j)) as [Hle|]; [|by rewrite !bool_decide_false by lia].
    rewrite (bool_decide_true (i ≤ j)) by done. destruct (decide (j = i)) as [->|].
    + rewrite bool_decide_false by lia. rewrite Nat.sub_diag.
      change (option_list ((c :: chunks) !! 0)) with [c]. by rewrite filter_cons_False by done.
    + rewrite bool_decide_true by lia. replace (j - i) with (S (j - S i)) by lia. done.
Qed.

(** one authoritative view per artifact.  Every chunk is kept or named in an
    elision message; chunks without an artifact are all kept in order; and of the
    chunks of one artifact exactly one is kept, observed no earlier than the
    others. *)
Theorem artifact_authoritative chunks :
  let (out, elided) := artifactAuthoritativeChunks chunks in
  length out + length elided = length chunks ∧
  filter (λ c, cv_ArtifactKey c = EmptyString) out = filter (λ c, cv_ArtifactKey c = EmptyString) chunks ∧
  ∀ c, c ∈ chunks → cv_ArtifactKey c ≠ EmptyString →
    ∃ c', filter (λ x, cv_ArtifactKey x = cv_ArtifactKey c) out = [c'] ∧ c' ∈ chunks ∧
          (cv_ObservedAt c <= cv_ObservedAt c')%Z.
Proof.
  unfold artifactAuthoritativeChunks. destruct (split_loop (newest_loop 0 chunks ∅) 0 chunks) as [out elided] eqn:E.
  split_and!.
  - rewrite <- (split_loop_length (newest_loop 0 chunks ∅) chunks 0), E. done.
  - rewrite <- (split_loop_keyless (newest_loop 0 chunks ∅) chunks 0), E. done.
  - intros c Hc Hk. pose proof (split_loop_key (newest_loop 0 chunks ∅) (cv_ArtifactKey c) Hk chunks 0) as Hs.
    rewrite E in Hs. cbn [fst] in Hs. rewrite Hs.
    assert (newest_ok (newest_loop 0 chunks ∅) chunks) as Hok.
    { apply (newest_loop_ok chunks [] ∅). intros k _. rewrite lookup_empty. constructor. }
    specialize (Hok _ Hk). destruct (newest_loop 0 chunks ∅ !! cv_ArtifactKey c) as [[i t]|].
    + destruct Hok as (c' & Hi & Hk' & <- & Hall). exists c'. rewrite bool_decide_true by lia.
      rewrite Nat.sub_0_r, Hi. change (option_list (Some c')) with [c']. rewrite filter_cons_True by done. split_and!; [done| |].
      * by eapply list_elem_of_lookup_2.
      * by apply (proj1 (Forall_forall _ _) Hall).
    + by apply (proj1 (Forall_forall _ _) Hok) in Hc.
Qed.
