(* ===== verification/Epoch.v ===== *)
(** * Epoch

    The epoch coordinator of [execution/agentgraph/epoch.go] as a step relation.

    Nodes of parallel branches enqueue captures and register stream jobs while a
    barrier is in flight; [barrierMu] admits one barrier at a time, so the state
    holds at most one flight, and a step is one critical section of the barrier or
    of an enqueuer.  A flight goes through grounding, awaiting its jobs, opening the
    next epoch, stamping the envelope and ending; whether grounding succeeds (after
    its one retry) and how each job ends are chosen by the environment and are part
    of the step's label.  One job is awaited per step, and a result is applied to
    the envelope in one step.  [env] is the run's envelope.  The history fields
    [enqueued], [batches] and [closed] record what the steps did. *)
From S2P Require Import Prelude GoStrings Envelope ContextStream.
From stdpp Require Import pretty.
From Stdlib Require Import Lia.

Section epoch.
Context {V A : Type}.
Abbreviation Envelope := (Envelope V).

Record GroundingItem := { gi_Value : A; gi_Epoch : Z }.

(** How a background job presents itself at a barrier. *)
Inductive job_outcome :=
| JobDone (r : option StreamResult) (err : option gerror) (canceled : bool)
| JobAbandoned.

Inductive phase :=
| Grounding
| Awaiting (first : option gerror)
| Opening (err : option gerror)
| Stamping (err : option gerror)
| Ending (err : option gerror).

Record flight := {
  f_phase : phase; f_epoch : Z; f_items : list GroundingItem; f_jobs : nat
}.

Record EpochCoordinator := {
  c_epoch : Z;
  c_inFlush : bool;
  c_items : list GroundingItem;
  c_jobs : nat;
  c_finalized : bool;
  c_flight : option flight;
  c_env : Envelope;
  enqueued : list GroundingItem;
  batches : list (Z * list GroundingItem * bool);   (** epoch, items, grounded *)
  closed : list Z
}.

Definition adopt (e : Envelope) : Z :=
  let adopted := am_EpochID (AssemblyMetadata e) in if (1 <? adopted)%Z then adopted else 1%Z.

Definition set_epoch (epoch : Z) (e : Envelope) : Envelope :=
  UpdateAssemblyMetadata (λ m,
    {| am_CompilationID := am_CompilationID m; am_EventLogSeq := am_EventLogSeq m;
       am_BudgetTokens := am_BudgetTokens m; am_ShortfallTokens := am_ShortfallTokens m;
       am_AssembledAt := am_AssembledAt m; am_EpochID := epoch; am_RunID := am_RunID m |}) e.

Definition set_run (runID : string) (e : Envelope) : Envelope :=
  UpdateAssemblyMetadata (λ m,
    {| am_CompilationID := am_CompilationID m; am_EventLogSeq := am_EventLogSeq m;
       am_BudgetTokens := am_BudgetTokens m; am_ShortfallTokens := am_ShortfallTokens m;
       am_AssembledAt := am_AssembledAt m; am_EpochID := am_EpochID m; am_RunID := runID |}) e.

Definition NewEpochCoordinator (runID : string) (e : Envelope) : EpochCoordinator :=
  {| c_epoch := adopt e; c_inFlush := false; c_items := []; c_jobs := 0; c_finalized := false;
     c_flight := None; c_env := set_run runID (set_epoch (adopt e) e);
     enqueued := []; batches := []; closed := [] |}.

(** ** Enqueuers *)
Definition capture_epoch (c : EpochCoordinator) : Z :=
  if c_inFlush c then wrapu64 (c_epoch c + 1) else c_epoch c.

Definition EnqueueCapture (v : A) (c : EpochCoordinator) : EpochCoordinator :=
  let item := {| gi_Value := v; gi_Epoch := capture_epoch c |} in
  {| c_epoch := c_epoch c; c_inFlush := c_inFlush c; c_items := c_items c ++ [item]; c_jobs := c_jobs c;
     c_finalized := c_finalized c; c_flight := c_flight c; c_env := c_env c;
     enqueued := enqueued c ++ [item]; batches := batches c; closed := closed c |}.

Definition TrackStreamJob (c : EpochCoordinator) : EpochCoordinator :=
  {| c_epoch := c_epoch c; c_inFlush := c_inFlush c; c_items := c_items c; c_jobs := S (c_jobs c);
     c_finalized := c_finalized c; c_flight := c_flight c; c_env := c_env c;
     enqueued := enqueued c; batches := batches c; closed := closed c |}.

Definition Pending (c : EpochCoordinator) : nat * nat := (length (c_items c), c_jobs c).

(** ** The barrier *)
Definition clean (c : EpochCoordinator) : bool :=
  bool_decide (length (c_items c) = 0) && bool_decide (c_jobs c = 0).

(** The first critical section of [barrier]; [None] is its early return. *)
Definition barrier_begin (unconditional : bool) (c : EpochCoordinator) : option EpochCoordinator :=
  if negb unconditional && clean c then None
  else if c_finalized c then None
  else Some
    {| c_epoch := c_epoch c; c_inFlush := true; c_items := []; c_jobs := 0;
       c_finalized := unconditional || c_finalized c;
       c_flight := Some {| f_phase := Grounding; f_epoch := c_epoch c; f_items := c_items c; f_jobs := c_jobs c |};
       c_env := c_env c; enqueued := enqueued c; batches := batches c; closed := closed c |}.

Definition in_phase (p : phase) (f : flight) : flight :=
  {| f_phase := p; f_epoch := f_epoch f; f_items := f_items f; f_jobs := f_jobs f |}.

Definition set_flight (f : option flight) (e : Envelope) (c : EpochCoordinator) : EpochCoordinator :=
  {| c_epoch := c_epoch c; c_inFlush := c_inFlush c; c_items := c_items c; c_jobs := c_jobs c;
     c_finalized := c_finalized c; c_flight := f; c_env := e;
     enqueued := enqueued c; batches := batches c; closed := closed c |}.

Definition record_batch (f : flight) (ok : bool) (c : EpochCoordinator) : EpochCoordinator :=
  {| c_epoch := c_epoch c; c_inFlush := c_inFlush c; c_items := c_items c; c_jobs := c_jobs c;
     c_finalized := c_finalized c; c_flight := c_flight c; c_env := c_env c;
     enqueued := enqueued c; batches := batches c ++ [(f_epoch f, f_items f, ok)]; closed := closed c |}.

Definition grounding_error (epoch : Z) (e : gerror) : gerror :=
  ErrWrap ("epoch " +:+ pretty epoch +:+ " grounding: knowledge: grounding failed") e.

(** [groundBatch] and its retry: [failure] is the error of the second attempt, or
    of the first when the run is cancelled during the back-off. *)
Definition flush_ground (failure : option gerror) (f : flight) (c : EpochCoordinator) : EpochCoordinator :=
  match failure with
  | Some e =>
      if bool_decide (length (f_items f) = 0)
      then set_flight (Some (in_phase (Awaiting None) f)) (c_env c) (record_batch f true c)
      else set_flight (Some (in_phase (Ending (Some (grounding_error (f_epoch f) e))) f)) (c_env c)
             (record_batch f false c)
  | None => set_flight (Some (in_phase (Awaiting None) f)) (c_env c) (record_batch f true c)
  end.

(** The body of the loop of [awaitJobs]. *)
Definition await_job (epoch : Z) (now : Time) (acc : option gerror * Envelope) (j : job_outcome)
    : option gerror * Envelope :=
  let '(first, e) := acc in
  match j with
  | JobAbandoned => (first, e)
  | JobDone r err canceled =>
      let first := match first, err with
                   | None, Some x => if canceled then None else Some x
                   | _, _ => first
                   end in
      let '(first, e) :=
        match r with
        | Some r =>
            match ApplyResult r epoch now e with
            | (ApplyFailed x, e) => (match first with None => Some x | Some _ => first end, e)
            | (_, e) => (first, e)
            end
        | None => (first, e)
        end in
      match err with
      | Some x => (first, SetWorkingValueWithClass "contextstream.background_error" (VString (error_text x))
                            MemoryClassTask now e)
      | None => (first, e)
      end
  end.

(** One turn of the loop. *)
Definition flush_await (first : option gerror) (j : job_outcome) (now : Time) (f : flight)
    (c : EpochCoordinator) : EpochCoordinator :=
  let '(first, e) := await_job (f_epoch f) now (first, c_env c) j in
  set_flight (Some {| f_phase := Awaiting first; f_epoch := f_epoch f; f_items := f_items f;
                      f_jobs := pred (f_jobs f) |}) e c.

Definition flush_awaited (first : option gerror) (f : flight) (c : EpochCoordinator) : EpochCoordinator :=
  set_flight (Some (in_phase (Opening first) f)) (c_env c) c.

(** [c.epoch = next] under [c.mu]. *)
Definition flush_open (err : option gerror) (f : flight) (c : EpochCoordinator) : EpochCoordinator :=
  {| c_epoch := wrapu64 (f_epoch f + 1); c_inFlush := c_inFlush c; c_items := c_items c; c_jobs := c_jobs c;
     c_finalized := c_finalized c; c_flight := Some (in_phase (Stamping err) f); c_env := c_env c;
     enqueued := enqueued c; batches := batches c; closed := closed c ++ [f_epoch f] |}.

Definition flush_stamp (err : option gerror) (f : flight) (c : EpochCoordinator) : EpochCoordinator :=
  set_flight (Some (in_phase (Ending err) f)) (set_epoch (wrapu64 (f_epoch f + 1)) (c_env c)) c.

(** The last critical section of [barrier]. *)
Definition barrier_end (err : option gerror) (f : flight) (c : EpochCoordinator) : EpochCoordinator :=
  {| c_epoch := match err with None => wrapu64 (f_epoch f + 1) | Some _ => c_epoch c end;
     c_inFlush := false; c_items := c_items c; c_jobs := c_jobs c; c_finalized := c_finalized c;
     c_flight := None; c_env := c_env c; enqueued := enqueued c; batches := batches c; closed := closed c |}.

Inductive label :=
| LEnqueue (v : A)
| LTrack
| LStream (r : StreamResult) (epoch : Z) (now : Time)
| LBegin (unconditional : bool)
| LGround (failure : option gerror)
| LAwait (j : job_outcome) (now : Time)
| LAwaited
| LOpen
| LStamp
| LEnd (err : option gerror).

Inductive step : EpochCoordinator → label → EpochCoordinator → Prop :=
(** Enqueuers, at any time. *)
| step_enqueue c v : step c (LEnqueue v) (EnqueueCapture v c)
| step_track c : step c LTrack (TrackStreamJob c)
(** A stream node applies its result under an epoch it read earlier. *)
| step_stream c r epoch now :
    (0 <= epoch <= c_epoch c)%Z →
    step c (LStream r epoch now) (set_flight (c_flight c) (ApplyResult r epoch now (c_env c)).2 c)
| step_begin c u c' :
    c_flight c = None → barrier_begin u c = Some c' → step c (LBegin u) c'
| step_ground c f failure :
    c_flight c = Some f → f_phase f = Grounding → step c (LGround failure) (flush_ground failure f c)
| step_await c f first n j now :
    c_flight c = Some f → f_phase f = Awaiting first → f_jobs f = S n →
    step c (LAwait j now) (flush_await first j now f c)
| step_awaited c f first :
    c_flight c = Some f → f_phase f = Awaiting first → f_jobs f = 0 → step c LAwaited (flush_awaited first f c)
| step_open c f err :
    c_flight c = Some f → f_phase f = Opening err → step c LOpen (flush_open err f c)
| step_stamp c f err :
    c_flight c = Some f → f_phase f = Stamping err → step c LStamp (flush_stamp err f c)
| step_end c f err :
    c_flight c = Some f → f_phase f = Ending err → step c (LEnd err) (barrier_end err f c).

Inductive run : EpochCoordinator → list label → EpochCoordinator → Prop :=
| run_nil c : run c [] c
| run_snoc c ls c1 l c2 : run c ls c1 → step c1 l c2 → run c (ls ++ [l]) c2.

(** The steps of the barrier itself. *)
Definition barrier_label (l : label) : bool :=
  match l with
  | LGround _ | LAwait _ _ | LAwaited | LOpen | LStamp | LEnd _ => true
  | _ => false
  end.
End epoch.

Arguments EpochCoordinator V A : clear implicits.
Arguments GroundingItem A : clear implicits.
