(* ===== verification/EpochSafety.v ===== *)
(** * EpochSafety

    What the epoch coordinator guarantees over every interleaving of enqueuers,
    stream nodes and barriers. *)
From S2P Require Import Prelude GoStrings Envelope ContextStream Epoch.
From Stdlib Require Import Lia.

Section safety.
Context {V A : Type}.
Abbreviation Envelope := (Envelope V).
Abbreviation EpochCoordinator := (EpochCoordinator V A).
Implicit Types c : EpochCoordinator.

(** ** No capture is lost or duplicated *)

(** Taken by the flight and not yet handed to the grounder. *)
Definition in_transit c : list (GroundingItem A) :=
  match c_flight c with
  | Some f => match f_phase f with Grounding => f_items f | _ => [] end
  | None => []
  end.

Definition handed c : list (GroundingItem A) := batches c ≫= λ b, b.1.2.

Lemma conserved_step c l c' :
  step c l c' → enqueued c = handed c ++ in_transit c ++ c_items c →
  enqueued c' = handed c' ++ in_transit c' ++ c_items c'.
Proof.
  unfold handed, in_transit.
  intros [c0 v|c0|c0 r ep now _|c0 u c1 Hf Hb|c0 f fl Hf Hp|c0 f first n j now Hf Hp _|c0 f first Hf Hp _|c0 f err Hf Hp|c0 f err Hf Hp|c0 f err Hf Hp] IH;
    rewrite ?Hf in IH; try rewrite Hp in IH.
  - cbn. by rewrite IH, !app_assoc.
  - exact IH.
  - exact IH.
  - unfold barrier_begin in Hb. destruct (negb u && clean c0); [done|]. destruct (c_finalized c0); [done|].
    injection Hb as <-. cbn. by rewrite app_nil_r.
  - assert (∀ p ok e, ((∃ x, p = Awaiting x) ∨ ∃ x, p = Ending x) →
      let c2 := set_flight (Some (in_phase p f)) e (record_batch f ok c0) in
      enqueued c2 = (batches c2 ≫= λ b, b.1.2) ++
        match c_flight c2 with
        | Some f0 => match f_phase f0 with Grounding => f_items f0 | _ => [] end
        | None => []
        end ++ c_items c2) as H.
    { intros p ok e Hph. cbn. rewrite bind_app. cbn. rewrite app_nil_r, IH.
      destruct Hph as [[x ->]|[x ->]]; cbn; by rewrite app_assoc. }
    unfold flush_ground. destruct fl as [e|]; [case_bool_decide|]; apply H; eauto.
  - unfold flush_await. destruct (await_job _ _ _ _). exact IH.
  - exact IH.
  - exact IH.
  - exact IH.
  - exact IH.
Qed.

Lemma conserved_run runID e ls c :
  run (NewEpochCoordinator runID e) ls c → enqueued c = handed c ++ in_transit c ++ c_items c.
Proof.
  remember (NewEpochCoordinator runID e) as c0 eqn:E. induction 1 as [c|c ls c1 l c2 _ IH Hs].
  - by subst.
  - eapply conserved_step; [exact Hs|]. by apply IH.
Qed.

(** C27: every capture reaches the grounder once, in order.  Over every interleaving,
    the captures enqueued so far are, in this order: those of the batches handed to
    the grounder, those a barrier has just taken, and those still queued; and nothing
    is queued or taken while the coordinator reports nothing pending and no barrier
    is in flight. *)
Theorem capture_conservation runID e ls c :
  run (NewEpochCoordinator runID e) ls c →
  enqueued c = handed c ++ in_transit c ++ c_items c ∧
  (c_flight c = None → clean c = true → handed c = enqueued c).
Proof.
  intros Hr. pose proof (conserved_run runID e ls c Hr) as Hc. split; [exact Hc|].
  intros Hf Hcl. unfold in_transit in Hc. rewrite Hf in Hc. unfold clean in Hcl.
  apply andb_prop in Hcl as [Hi _]. apply bool_decide_eq_true, nil_length_inv in Hi.
  by rewrite Hc, Hi, app_nil_r.
Qed.

(** ** Epochs are closed once each, in order *)
Definition slice_epoch (e : Envelope) : Z := match streamed e with Some s => sl_Epoch s | None => 0 end.
Definition epoch_of (e : Envelope) : Z := am_EpochID (AssemblyMetadata e).

Definition flight_ok c : Prop :=
  match c_flight c with
  | None => c_inFlush c = false ∧ epoch_of (c_env c) = c_epoch c
  | Some f =>
      c_inFlush c = true ∧
      match f_phase f with
      | Grounding | Awaiting _ | Opening _ => c_epoch c = f_epoch f ∧ epoch_of (c_env c) = c_epoch c
      | Stamping _ => c_epoch c = (f_epoch f + 1)%Z
      | Ending err => epoch_of (c_env c) = c_epoch c ∧ (err = None → c_epoch c = (f_epoch f + 1)%Z)
      end
  end.

Record epoch_ok (start : Z) c : Prop := {
  ok_count : c_epoch c = (start + Z.of_nat (length (closed c)))%Z;
  ok_closed : closed c = seqZ start (Z.of_nat (length (closed c)));
  ok_env : (epoch_of (c_env c) <= c_epoch c)%Z;
  ok_slice : (slice_epoch (c_env c) <= c_epoch c)%Z;
  ok_flight : flight_ok c
}.

Lemma apply_bounded r epoch now (e : Envelope) b :
  (epoch <= b)%Z → (epoch_of e <= b)%Z → (slice_epoch e <= b)%Z →
  (epoch_of (ApplyResult r epoch now e).2 <= b)%Z ∧ (slice_epoch (ApplyResult r epoch now e).2 <= b)%Z ∧
  (epoch_of e <= epoch_of (ApplyResult r epoch now e).2)%Z.
Proof.
  intros He Hm Hs. destruct (apply_epochs r epoch now e) as [Ha Hb]. unfold epoch_of in *.
  split_and!; [destruct Ha as [->| ->]; lia| |destruct Ha as [->| ->]; lia].
  unfold slice_epoch in *. destruct Hb as [->|(s & -> & ->)]; done.
Qed.

(** The working value that reports a job's error leaves both epochs alone. *)
Lemma report_epochs x now (e : Envelope) :
  let e' := SetWorkingValueWithClass "contextstream.background_error" (VString x) MemoryClassTask now e in
  epoch_of e' = epoch_of e ∧ slice_epoch e' = slice_epoch e.
Proof. done. Qed.

Lemma job_bounded j epoch now first (e : Envelope) :
  (epoch_of e <= epoch)%Z → (slice_epoch e <= epoch)%Z →
  let e' := (await_job epoch now (first, e) j).2 in
  (epoch_of e' <= epoch)%Z ∧ (slice_epoch e' <= epoch)%Z ∧ (epoch_of e <= epoch_of e')%Z.
Proof.
  intros Hm Hs. cbn zeta. unfold await_job. destruct j as [r err cancelled|]; [|by split_and!].
  destruct r as [r|].
  - pose proof (apply_bounded r epoch now e epoch ltac:(lia) Hm Hs) as Ha.
    destruct (ApplyResult r epoch now e) as [[] e1]; cbn [fst snd] in *; destruct err as [x|]; cbn [snd];
      try exact Ha; destruct (report_epochs (error_text x) now e1) as [-> ->]; exact Ha.
  - destruct err as [x|]; [|by split_and!]. cbn [snd]. destruct (report_epochs (error_text x) now e) as [-> ->]. by split_and!.
Qed.

Lemma epoch_step start c l c' :
  (0 <= start)%Z → (start + Z.of_nat (length (closed c)) + 1 < 2 ^ 64)%Z →
  step c l c' → epoch_ok start c → epoch_ok start c' ∧ length (closed c') ≤ S (length (closed c)).
Proof.
  intros H0 Hb Hs [Hcnt Hcl Henv Hsl Hf].
  destruct Hs as [c v|c|c r ep now Hep|c u c1 Hfl Hbeg|c f fl Hfl Hp|c f first n j now Hfl Hp _|c f first Hfl Hp _|c f err Hfl Hp|c f err Hfl Hp|c f err Hfl Hp].
  - split; [|cbn; lia]. by constructor.
  - split; [|cbn; lia]. by constructor.
  - split; [|cbn; lia].
    destruct (apply_bounded r ep now (c_env c) (c_epoch c)) as (H1 & H2 & H3); [lia..|].
    constructor; [done|done|exact H1|exact H2|]. unfold flight_ok in *. cbn [set_flight c_flight c_inFlush c_env c_epoch].
    destruct (c_flight c) as [f|]; [destruct (f_phase f)|]; destruct_and?; split_and?; try done; lia.
  - unfold barrier_begin in Hbeg. destruct (negb u && clean c); [done|]. destruct (c_finalized c); [done|].
    injection Hbeg as <-. split; [|cbn; lia]. constructor; [done..|].
    unfold flight_ok in *. rewrite Hfl in Hf. cbn. tauto.
  - unfold flight_ok in Hf. rewrite Hfl, Hp in Hf. destruct Hf as (Hi & Hc & He).
    split; [|unfold flush_ground; destruct fl; [case_bool_decide|]; cbn; lia].
    unfold flush_ground. destruct fl as [e|]; [case_bool_decide|]; constructor; try done; unfold flight_ok; cbn; try done.
  - unfold flight_ok in Hf. rewrite Hfl, Hp in Hf. destruct Hf as (Hi & Hc & He).
    unfold flush_await.
    destruct (job_bounded j (f_epoch f) now first (c_env c)) as (H1 & H2 & H3); [lia..|].
    destruct (await_job _ _ _ j) as [err e']. cbn [snd] in *. split; [|cbn; lia].
    constructor; cbn [set_flight c_epoch closed c_env]; [done|done|lia|lia|].
    unfold flight_ok. cbn. split_and!; [done|done|lia].
  - unfold flight_ok in Hf. rewrite Hfl, Hp in Hf. destruct Hf as (Hi & Hc & He).
    split; [|cbn; lia]. by constructor.
  - unfold flight_ok in Hf. rewrite Hfl, Hp in Hf. destruct Hf as (Hi & Hc & He).
    assert (wrapu64 (f_epoch f + 1) = f_epoch f + 1)%Z as Hw by (unfold wrapu64; apply Z.mod_small; lia).
    split; [|cbn; rewrite length_app; cbn; lia].
    constructor; cbn [flush_open c_epoch closed c_env]; rewrite ?Hw, ?length_app; cbn [length]; [lia| |lia|lia|].
    + rewrite Hcl at 1. replace (Z.of_nat (length (closed c) + 1)) with (Z.of_nat (length (closed c)) + 1)%Z by lia.
      rewrite seqZ_app by lia. f_equal. change 1%Z with (Z.of_nat 1). cbn. rewrite <- Hc, Hcnt. done.
    + unfold flight_ok. cbn. done.
  - unfold flight_ok in Hf. rewrite Hfl, Hp in Hf. destruct Hf as (Hi & Hc).
    assert (wrapu64 (f_epoch f + 1) = f_epoch f + 1)%Z as Hw by (unfold wrapu64; apply Z.mod_small; lia).
    split; [|cbn; lia]. constructor; [done|done| |done|]; unfold flight_ok, flush_stamp, epoch_of; cbn; rewrite Hw; [lia|].
    split_and!; [done|lia|done].
  - unfold flight_ok in Hf. rewrite Hfl, Hp in Hf. destruct Hf as (Hi & He & Hn).
    split; [|cbn; lia].
    assert (match err with None => wrapu64 (f_epoch f + 1) | Some _ => c_epoch c end = c_epoch c) as Hw.
    { destruct err; [done|]. rewrite Hn by done. unfold wrapu64. apply Z.mod_small. rewrite <- Hn by done. lia. }
    constructor; unfold flight_ok, barrier_end; cbn; rewrite ?Hw; done.
Qed.
Lemma epoch_init runID e :
  (slice_epoch e <= adopt e)%Z → epoch_ok (adopt e) (NewEpochCoordinator runID e).
Proof. intros Hs. constructor; [cbn; lia|done|cbn; apply Z.le_refl|exact Hs|done]. Qed.

Lemma adopt_pos (e : Envelope) : (1 <= adopt e)%Z.
Proof. unfold adopt. destruct (1 <? _)%Z eqn:E; lia. Qed.

Lemma epoch_run runID e ls c :
  run (NewEpochCoordinator runID e) ls c →
  (slice_epoch e <= adopt e)%Z → (adopt e + Z.of_nat (length ls) < 2 ^ 64)%Z →
  epoch_ok (adopt e) c ∧ length (closed c) ≤ length ls.
Proof.
  remember (NewEpochCoordinator runID e) as c0 eqn:E. intros Hr Hs.
  induction Hr as [c|c ls c1 l c2 _ IH Hstep]; intros Hb.
  - subst. split; [by apply epoch_init|cbn; lia].
  - rewrite length_app in Hb. cbn [length] in Hb. destruct (IH E ltac:(lia)) as [Hok Hlen].
    pose proof (adopt_pos e). destruct (epoch_step (adopt e) c1 l c2) as [Hok' Hl]; [lia|lia|done|done|].
    split; [done|]. rewrite length_app. cbn. lia.
Qed.

(** C28: epochs are closed once each and in order.  Over every interleaving, the
    epochs closed so far are consecutive from the adopted one, the coordinator's
    epoch is the one after them, the envelope mirrors it whenever no barrier is in
    flight, and no slice in the envelope belongs to a later epoch. *)
Theorem epochs_in_order runID e ls c :
  run (NewEpochCoordinator runID e) ls c →
  (slice_epoch e <= adopt e)%Z → (adopt e + Z.of_nat (length ls) < 2 ^ 64)%Z →
  closed c = seqZ (adopt e) (Z.of_nat (length (closed c))) ∧
  c_epoch c = (adopt e + Z.of_nat (length (closed c)))%Z ∧
  (c_flight c = None → am_EpochID (AssemblyMetadata (c_env c)) = c_epoch c) ∧
  (slice_epoch (c_env c) <= c_epoch c)%Z.
Proof.
  intros Hr Hs Hb. destruct (epoch_run runID e ls c Hr Hs Hb) as [[Hcnt Hcl _ Hsl Hf] _].
  split_and!; [done|done| |done]. intros Hn. unfold flight_ok in Hf. rewrite Hn in Hf. apply Hf.
Qed.

(** what a barrier awaits is never stale.  When a barrier lands a job's result
    under the epoch it is closing, the epoch guard does not drop it, whatever stream
    nodes applied in the meantime. *)
Theorem never_stale_at_barrier runID e ls c f first r now :
  run (NewEpochCoordinator runID e) ls c →
  (slice_epoch e <= adopt e)%Z → (adopt e + Z.of_nat (length ls) < 2 ^ 64)%Z →
  c_flight c = Some f → f_phase f = Awaiting first →
  ∀ cur got id, (ApplyResult r (f_epoch f) now (c_env c)).1 ≠ ErrStaleApplyDropped cur got id.
Proof.
  intros Hr Hs Hb Hfl Hp cur got id Hd. apply apply_stale in Hd.
  destruct (epoch_run runID e ls c Hr Hs Hb) as [[_ _ He Hsl Hf] _].
  unfold flight_ok in Hf. rewrite Hfl, Hp in Hf. destruct Hf as (_ & Hc & _).
  unfold stale_floor, epoch_of, slice_epoch in *. destruct (streamed (c_env c)) as [s|]; [|lia].
  destruct (_ <? sl_Epoch s)%Z; lia.
Qed.

(** ** Stamps *)

(** Items queued before the epoch opens carry the next epoch exactly. *)
Definition stamps_ok c : Prop :=
  Forall (λ b, Forall (λ x, gi_Epoch x = b.1.1 ∨ gi_Epoch x = wrapu64 (b.1.1 + 1)) b.1.2) (batches c) ∧
  match c_flight c with
  | Some f =>
      c_inFlush c = true ∧
      Forall (λ x, gi_Epoch x = f_epoch f ∨ gi_Epoch x = wrapu64 (f_epoch f + 1)) (f_items f) ∧
      match f_phase f with
      | Grounding | Awaiting _ | Opening _ =>
          c_epoch c = f_epoch f ∧ Forall (λ x, gi_Epoch x = wrapu64 (c_epoch c + 1)) (c_items c)
      | Stamping _ =>
          c_epoch c = wrapu64 (f_epoch f + 1) ∧
          Forall (λ x, gi_Epoch x = c_epoch c ∨ gi_Epoch x = wrapu64 (c_epoch c + 1)) (c_items c)
      | Ending err =>
          (err = None → c_epoch c = wrapu64 (f_epoch f + 1)) ∧
          Forall (λ x, gi_Epoch x = c_epoch c ∨ gi_Epoch x = wrapu64 (c_epoch c + 1)) (c_items c)
      end
  | None =>
      c_inFlush c = false ∧
      Forall (λ x, gi_Epoch x = c_epoch c ∨ gi_Epoch x = wrapu64 (c_epoch c + 1)) (c_items c)
  end.

Lemma stamps_step c l c' : step c l c' → stamps_ok c → stamps_ok c'.
Proof.
  intros Hs [Hb Hf]. unfold stamps_ok.
  destruct Hs as [c v|c|c r ep now _|c u c1 Hfl Hbeg|c f fl Hfl Hp|c f first n j now Hfl Hp _|c f first Hfl Hp _|c f err Hfl Hp|c f err Hfl Hp|c f err Hfl Hp];
    [| | |rewrite Hfl in Hf..]; try rewrite Hp in Hf.
  - split; [done|]. cbn [EnqueueCapture c_flight c_inFlush c_epoch c_items]. unfold capture_epoch.
    destruct (c_flight c) as [f|]; [destruct Hf as (-> & Hi & Hf)|destruct Hf as [-> Hf]].
    + split_and!; [done|done|]. destruct (f_phase f), Hf; (split; [done|]); apply Forall_app; (split; [done|]); apply Forall_singleton; cbn; auto.
    + split; [done|]. apply Forall_app. split; [done|]. apply Forall_singleton. by left.
  - by split.
  - by split.
  - unfold barrier_begin in Hbeg. destruct (negb u && clean c); [done|]. destruct (c_finalized c); [done|].
    injection Hbeg as <-. split; [done|]. cbn. split_and!; [done|apply Hf|done|constructor].
  - destruct Hf as (Hi & Hit & Hc & Hq). unfold flush_ground.
    assert (∀ ok, Forall (λ b, Forall (λ x, gi_Epoch x = b.1.1 ∨ gi_Epoch x = wrapu64 (b.1.1 + 1)) b.1.2)
      (batches c ++ [(f_epoch f, f_items f, ok)])) as Hb' by (intros ok; apply Forall_app; split; [done|]; by apply Forall_singleton).
    destruct fl as [e|]; [case_bool_decide|]; (split; [apply Hb'|]); cbn; split_and!; try done.
    eapply Forall_impl; [exact Hq|]. cbn. auto.
  - unfold flush_await. destruct (await_job _ _ _ _). split; [done|]. cbn. by destruct_and?.
  - split; [done|]. cbn. by destruct_and?.
  - destruct Hf as (Hi & Hit & Hc & Hq). split; [done|]. cbn. split_and!; [done|done|done|].
    eapply Forall_impl; [exact Hq|]. cbn. intros x ->. rewrite Hc. by left.
  - destruct Hf as (Hi & Hit & Hc & Hq). split; [done|]. cbn. by split_and!.
  - destruct Hf as (Hi & Hit & Hc & Hq). split; [done|]. cbn. split; [done|].
    destruct err; [done|]. by rewrite <- Hc.
Qed.

(** a capture's stamp is off by at most one.  Every item a barrier hands to the
    grounder is stamped with the epoch being closed or with the one after it. *)
Theorem stamp_within_one runID e ls c b x :
  run (NewEpochCoordinator runID e) ls c → b ∈ batches c → x ∈ b.1.2 →
  gi_Epoch x = b.1.1 ∨ gi_Epoch x = wrapu64 (b.1.1 + 1).
Proof.
  remember (NewEpochCoordinator runID e) as c0 eqn:E. intros Hr Hb Hx.
  assert (stamps_ok c) as [Hall _].
  { clear Hb Hx. induction Hr as [c|c ls c1 l c2 _ IH Hs]; [subst; split; [constructor|split; [done|constructor]]|].
    eapply stamps_step; [exact Hs|]. by apply IH. }
  rewrite Forall_forall in Hall. specialize (Hall b Hb). rewrite Forall_forall in Hall. by apply Hall.
Qed.

(** ** Barriers end *)

(** The barrier steps a flight still takes at most. *)
Definition remaining c : nat :=
  match c_flight c with
  | None => 0
  | Some f =>
      match f_phase f with
      | Grounding => f_jobs f + 5
      | Awaiting _ => f_jobs f + 4
      | Opening _ => 3
      | Stamping _ => 2
      | Ending _ => 1
      end
  end.

Lemma barrier_step c l c' :
  step c l c' → c_flight c ≠ None →
  if barrier_label l then remaining c' < remaining c
  else remaining c' = remaining c ∧ c_flight c' = c_flight c.
Proof.
  unfold remaining. intros Hs Hne.
  destruct Hs as [c v|c|c r ep now _|c u c1 Hfl Hbeg|c f fl Hfl Hp|c f first n j now Hfl Hp Hj|c f first Hfl Hp Hj|c f err Hfl Hp|c f err Hfl Hp|c f err Hfl Hp];
    cbn [barrier_label]; [done|done|done|done| | | | | |]; rewrite Hfl, Hp.
  - unfold flush_ground. destruct fl; [case_bool_decide|]; cbn; lia.
  - unfold flush_await. destruct (await_job _ _ _ _). cbn. lia.
  - cbn. lia.
  - cbn. lia.
  - cbn. lia.
  - cbn. lia.
Qed.

Lemma barrier_enabled c f :
  c_flight c = Some f → ∃ l c', barrier_label l = true ∧ step c l c'.
Proof.
  intros Hfl. destruct (f_phase f) as [|first|err|err|err] eqn:Hp.
  - exists (LGround None). eauto using step_ground.
  - destruct (f_jobs f) as [|n] eqn:Hj.
    + exists LAwaited. eauto using step_awaited.
    + exists (LAwait JobAbandoned zero_time). eauto using step_await.
  - exists LOpen. eauto using step_open.
  - exists LStamp. eauto using step_stamp.
  - exists (LEnd err). eauto using step_end.
Qed.

Lemma barrier_runs c ls c' :
  run c ls c' → c_flight c ≠ None →
  (∃ ls1 ls2 c1, ls = ls1 ++ ls2 ∧ run c ls1 c1 ∧ c_flight c1 = None) ∨
  (c_flight c' ≠ None ∧ length (filter (λ l, barrier_label l = true) ls) + remaining c' ≤ remaining c).
Proof.
  intros Hr Hne. induction Hr as [c|c ls c1 l c2 Hr IH Hs]; [right; split; [done|cbn; lia]|].
  destruct (IH Hne) as [(ls1 & ls2 & cm & -> & Hm & Hn)|[Hn Hle]].
  - left. exists ls1, (ls2 ++ [l]), cm. by rewrite app_assoc.
  - pose proof (barrier_step _ _ _ Hs Hn) as Hb. rewrite filter_app, length_app.
    destruct (c_flight c2) as [f2|] eqn:Hf2.
    + right. split; [done|]. destruct (barrier_label l) eqn:El.
      * rewrite filter_cons_True by done. cbn. lia.
      * rewrite filter_cons_False by (by rewrite El). cbn. lia.
    + left. exists (ls ++ [l]), [], c2. rewrite app_nil_r. split_and!; [done|by eapply run_snoc|done].
Qed.

(** C30: a barrier always ends.  While a barrier is in flight one of its own steps is
    possible, and any run that makes as many barrier steps as [remaining] says, with
    whatever enqueuers and stream nodes do in between, has gone through a state where
    the flight is over. *)
Theorem barrier_ends c f :
  c_flight c = Some f →
  (∃ l c', barrier_label l = true ∧ step c l c') ∧
  ∀ ls c', run c ls c' → remaining c ≤ length (filter (λ l, barrier_label l = true) ls) →
    ∃ ls1 ls2 c1, ls = ls1 ++ ls2 ∧ run c ls1 c1 ∧ c_flight c1 = None.
Proof.
  intros Hfl. split; [by eapply barrier_enabled|]. intros ls c' Hr Hle.
  destruct (barrier_runs c ls c' Hr) as [?|[Hn Hl]]; [congruence|done|].
  exfalso. assert (0 < remaining c') by
    (unfold remaining; destruct (c_flight c') as [f'|]; [destruct (f_phase f'); lia|done]). lia.
Qed.

(** ** The run's last barrier *)
Lemma run_app c ls1 c1 ls2 c2 : run c ls1 c1 → run c1 ls2 c2 → run c (ls1 ++ ls2) c2.
Proof.
  intros H1 H2. induction H2 as [c1|c1 ls2 cm l c2 _ IH Hs]; [by rewrite app_nil_r|].
  rewrite app_assoc. eapply run_snoc; [by apply IH|done].
Qed.

Lemma run_one c l c' : step c l c' → run c [l] c'.
Proof. intros Hs. exact (run_snoc c [] c l c' (run_nil c) Hs). Qed.

(** What awaiting jobs leaves alone. *)
Definition queues c := (c_items c, c_jobs c, c_finalized c, c_epoch c, enqueued c, batches c).

Lemma run_awaits (js : list (job_outcome * Time)) : ∀ c f first,
  c_flight c = Some f → f_phase f = Awaiting first → f_jobs f = length js →
  ∃ c' f' first', run c ((λ j, LAwait j.1 j.2) <$> js) c' ∧ c_flight c' = Some f' ∧
    f_phase f' = Awaiting first' ∧ f_jobs f' = 0 ∧ f_epoch f' = f_epoch f ∧ queues c' = queues c.
Proof.
  induction js as [|[j now] js IH]; intros c f first Hfl Hp Hj.
  - exists c, f, first. split_and!; try done. constructor.
  - pose proof (step_await c f first (length js) j now Hfl Hp Hj) as Hs.
    assert (∃ first1, c_flight (flush_await first j now f c) =
        Some {| f_phase := Awaiting first1; f_epoch := f_epoch f; f_items := f_items f; f_jobs := pred (f_jobs f) |} ∧
        queues (flush_await first j now f c) = queues c) as (first1 & Hfl1 & Hq1).
    { unfold flush_await. destruct (await_job _ _ _ _) as [x e]. by exists x. }
    destruct (IH _ _ first1 Hfl1 eq_refl) as (c' & f' & first' & Hr & Hfl' & Hp' & Hj' & He' & Hq');
      [cbn; rewrite Hj; done|].
    exists c', f', first'. split_and!; [|done|done|done|done|by rewrite Hq'].
    exact (run_app c [LAwait j now] _ _ _ (run_one _ _ _ Hs) Hr).
Qed.

(** C29: the final epoch flushes everything.  From any reachable state with no barrier
    in flight and the run not finalized, and however the tracked jobs end, a final
    barrier whose grounding succeeds runs to its end: every capture enqueued so far has then been
    handed to the grounder, nothing is queued, the epoch has advanced, and no later
    barrier does anything. *)
Theorem final_epoch_flushes runID e ls c (js : list (job_outcome * Time)) :
  run (NewEpochCoordinator runID e) ls c → c_flight c = None → c_finalized c = false → length js = c_jobs c →
  ∃ err c', run c (LBegin true :: LGround None :: ((λ j, LAwait j.1 j.2) <$> js) ++ [LAwaited; LOpen; LStamp; LEnd err]) c' ∧
    handed c' = enqueued c ∧ enqueued c' = enqueued c ∧ Pending c' = (0, 0) ∧ c_flight c' = None ∧
    (c_epoch c' = wrapu64 (c_epoch c + 1) ∧ epoch_of (c_env c') = wrapu64 (c_epoch c + 1)) ∧
    ∀ u, barrier_begin u c' = None.
Proof.
  intros Hr Hfl Hfin Hjs.
  pose proof (conserved_run runID e ls c Hr) as Hcons.
  unfold in_transit in Hcons. rewrite Hfl in Hcons. cbn [app] in Hcons.
  destruct (barrier_begin true c) as [c1|] eqn:Hbeg; [|unfold barrier_begin in Hbeg; cbn in Hbeg; by rewrite Hfin in Hbeg].
  pose proof (run_one _ _ _ (step_begin c true c1 Hfl Hbeg)) as R1.
  assert (∃ f1, c_flight c1 = Some f1 ∧ f_phase f1 = Grounding ∧ f_epoch f1 = c_epoch c ∧ f_items f1 = c_items c ∧
    f_jobs f1 = c_jobs c ∧ queues c1 = ([], 0, true, c_epoch c, enqueued c, batches c)) as
    (f1 & Hfl1 & Hp1 & He1 & Hi1 & Hj1 & Hq1).
  { unfold barrier_begin in Hbeg. rewrite Hfin in Hbeg. cbn in Hbeg. injection Hbeg as <-. eexists. by split_and!. }
  pose proof (run_one _ _ _ (step_ground c1 f1 None Hfl1 Hp1)) as R2.
  set (c2 := flush_ground None f1 c1) in *.
  destruct (run_awaits js c2 (in_phase (Awaiting None) f1) None) as (c3 & f3 & first & R3 & Hfl3 & Hp3 & Hj3 & He3 & Hq3);
    [done|done|cbn; by rewrite Hj1|].
  assert (queues c3 = ([], 0, true, c_epoch c, enqueued c, batches c ++ [(c_epoch c, c_items c, true)])) as Hq.
  { rewrite Hq3. unfold queues in *. cbn. injection Hq1 as -> -> -> -> -> ->. by rewrite He1, Hi1. }
  cbn [in_phase f_epoch] in He3. rewrite He1 in He3.
  pose proof (run_one _ _ _ (step_awaited c3 f3 first Hfl3 Hp3 Hj3)) as R4.
  set (c4 := flush_awaited first f3 c3) in *. set (f4 := in_phase (Opening first) f3).
  pose proof (run_one _ _ _ (step_open c4 f4 first eq_refl eq_refl)) as R5.
  set (c5 := flush_open first f4 c4) in *. set (f5 := in_phase (Stamping first) f4).
  pose proof (run_one _ _ _ (step_stamp c5 f5 first eq_refl eq_refl)) as R6.
  set (c6 := flush_stamp first f5 c5) in *. set (f6 := in_phase (Ending first) f5).
  pose proof (run_one _ _ _ (step_end c6 f6 first eq_refl eq_refl)) as R7.
  exists first, (barrier_end first f6 c6). injection Hq as Hq_i Hq_j Hq_f Hq_e Hq_en Hq_b.
  assert (handed (barrier_end first f6 c6) = enqueued c) as Hh.
  { unfold handed in *. cbn. rewrite Hq_b, bind_app. cbn. by rewrite app_nil_r. }
  split_and!.
  - exact (run_app _ [_] _ _ _ R1 (run_app _ [_] _ _ _ R2 (run_app _ _ _ _ _ R3
      (run_app _ [_] _ _ _ R4 (run_app _ [_] _ _ _ R5 (run_app _ [_] _ _ _ R6 R7)))))).
  - exact Hh.
  - exact Hq_en.
  - unfold Pending. cbn. by rewrite Hq_i, Hq_j.
  - done.
  - cbn. rewrite He3. by destruct first.
  - cbn. by rewrite He3.
  - intros u. unfold barrier_begin. cbn. rewrite Hq_f. by destruct (_ && _).
Qed.

(** ** The steps as a function *)
Definition exec (l : label (A := A)) c : option EpochCoordinator :=
  match l, c_flight c with
  | LEnqueue v, _ => Some (EnqueueCapture v c)
  | LTrack, _ => Some (TrackStreamJob c)
  | LStream r epoch now, f =>
      if ((0 <=? epoch) && (epoch <=? c_epoch c))%Z
      then Some (set_flight f (ApplyResult r epoch now (c_env c)).2 c) else None
  | LBegin u, None => barrier_begin u c
  | LGround failure, Some f =>
      match f_phase f with Grounding => Some (flush_ground failure f c) | _ => None end
  | LAwait j now, Some f =>
      match f_phase f, f_jobs f with Awaiting first, S _ => Some (flush_await first j now f c) | _, _ => None end
  | LAwaited, Some f =>
      match f_phase f, f_jobs f with Awaiting first, 0 => Some (flush_awaited first f c) | _, _ => None end
  | LOpen, Some f => match f_phase f with Opening err => Some (flush_open err f c) | _ => None end
  | LStamp, Some f => match f_phase f with Stamping err => Some (flush_stamp err f c) | _ => None end
  | LEnd e, Some f =>
      match f_phase f with
      | Ending err => if bool_decide (e = err) then Some (barrier_end err f c) else None
      | _ => None
      end
  | _, _ => None
  end.

Lemma step_exec c l c' : step c l c' ↔ exec l c = Some c'.
Proof.
  split.
  - destruct 1 as [c v|c|c r ep now Hep|c u c1 Hfl Hbeg|c f fl Hfl Hp|c f first n j now Hfl Hp Hj|c f first Hfl Hp Hj|c f err Hfl Hp|c f err Hfl Hp|c f err Hfl Hp];
      cbn [exec]; try rewrite Hfl; try rewrite Hp; try rewrite Hj; try done.
    + destruct Hep. by rewrite (proj2 (Z.leb_le _ _)), (proj2 (Z.leb_le _ _)).
    + by rewrite bool_decide_true.
  - destruct l as [v| |r ep now|u|fl|j now| | | |err]; cbn [exec].
    + intros [= <-]. constructor.
    + intros [= <-]. constructor.
    + destruct ((0 <=? ep) && (ep <=? c_epoch c))%Z eqn:E; [|done]. intros [= <-].
      apply andb_prop in E as [?%Z.leb_le ?%Z.leb_le]. by constructor.
    + destruct (c_flight c) eqn:E; [done|]. by apply step_begin.
    + destruct (c_flight c) as [f|] eqn:E; [|done]. destruct (f_phase f) eqn:Ep; try done.
      intros [= <-]. by apply step_ground.
    + destruct (c_flight c) as [f|] eqn:E; [|done]. destruct (f_phase f) eqn:Ep; try done.
      destruct (f_jobs f) eqn:Ej; [done|]. intros [= <-]. by eapply step_await.
    + destruct (c_flight c) as [f|] eqn:E; [|done]. destruct (f_phase f) eqn:Ep; try done.
      destruct (f_jobs f) eqn:Ej; [|done]. intros [= <-]. by apply step_awaited.
    + destruct (c_flight c) as [f|] eqn:E; [|done]. destruct (f_phase f) eqn:Ep; try done.
      intros [= <-]. by apply step_open.
    + destruct (c_flight c) as [f|] eqn:E; [|done]. destruct (f_phase f) eqn:Ep; try done.
      intros [= <-]. by apply step_stamp.
    + destruct (c_flight c) as [f|] eqn:E; [|done]. destruct (f_phase f) eqn:Ep; try done.
      case_bool_decide; [|done]. subst. intros [= <-]. by apply step_end.
Qed.

Definition execs (ls : list (label (A := A))) c : option EpochCoordinator :=
  foldl (λ o l, o ≫= exec l) (Some c) ls.

Lemma execs_run ls c c' : execs ls c = Some c' → run c ls c'.
Proof.
  unfold execs. revert c'. induction ls as [|l ls IH] using rev_ind; intros c'; [intros [= <-]; constructor|].
  rewrite foldl_app. cbn. destruct (foldl _ (Some c) ls) as [c1|] eqn:E; [|done]. cbn. intros Hx.
  eapply run_snoc; [by apply IH|]. by apply step_exec.
Qed.
End safety.
