(* ===== verification/Graph.v ===== *)
(** * Graph

    [execution/agentgraph/graph.go]: building, validating and running a graph.

    A node's [Execute] is a function of the moment it runs at and of the envelope; a
    moment is the path of enclosing fan-outs (loop turn and branch index of each) and
    the loop turn of the traversal.  The [World] gives what the run meets and the
    source does not decide: cancellation, the clock, the outcome of the epoch
    barriers and, since the barriers of parallel branches act on the run's envelope,
    what they did to it between a fork and its join.  Telemetry is left out. *)
From S2P Require Import Prelude GoStrings Envelope EnvelopeMerge ContextStream Epoch Selector Placement.

Definition ErrGraphSealed : gerror :=
  ErrSentinel "agentgraph: graph is sealed (execution in progress or complete)".

Record moment := { m_path : list (nat * nat); m_turn : nat }.

(** What a barrier does to the run's envelope. *)
Inductive env_effect :=
| EffApply (r : StreamResult) (epoch : Z) (now : Time)
| EffError (text : string) (now : Time)
| EffEpoch (epoch : Z).

(** When a fan-out looks at its parent envelope. *)
Inductive point := AtFork (branch : nat) | AtDelta (branch : nat) | AtJoin.

Section graph.
Context {V : Type} (other_equal : V → V → bool).
Abbreviation Envelope := (Envelope V).

(** [execution.Result]; of the metadata only the pause flag and the failure kind are read. *)
Record Result := {
  r_NodeID : string; r_Success : bool; r_Fields : gmap string (Any V); r_Pause : bool; r_FailureKind : string
}.

Record Edge := { From : string; To : string; Condition : option (Result → Envelope → bool); Parallel : bool }.

Record Node := { n_info : NodeInfo; n_Execute : moment → Envelope → result (option Result) * Envelope }.
Definition node_ID (n : Node) : string := ni_ID (n_info n).
Definition node_Type (n : Node) : string := ni_Type (n_info n).

Record Graph := {
  sealed : bool;
  nodes : gmap string Node;
  nodeContracts : gmap string NodeContract;
  edges : gmap string (list Edge);
  startNodeID : string;
  maxNodeVisits : Z;
  grounder : bool;
  visitCounts : gmap string Z;
  executionPath : list string;
  capabilityCatalog : option (list CapabilityDescriptor);
  lastPreflight : option PreflightReport;
  lastPreflightErr : option gerror;
  preflightDirty : bool;
  lastValidationErr : option gerror;
  validationDirty : bool
}.

Definition NewGraph : Graph :=
  {| sealed := false; nodes := ∅; nodeContracts := ∅; edges := ∅; startNodeID := EmptyString;
     maxNodeVisits := 1024; grounder := false; visitCounts := ∅; executionPath := [];
     capabilityCatalog := None; lastPreflight := None; lastPreflightErr := None; preflightDirty := true;
     lastValidationErr := None; validationDirty := true |}.

(** ** Building *)
Definition with_structure (ns : gmap string Node) (cs : gmap string NodeContract)
    (es : gmap string (list Edge)) (start : string) (g : Graph) : Graph :=
  {| sealed := sealed g; nodes := ns; nodeContracts := cs; edges := es; startNodeID := start;
     maxNodeVisits := maxNodeVisits g; grounder := grounder g; visitCounts := visitCounts g;
     executionPath := executionPath g; capabilityCatalog := capabilityCatalog g;
     lastPreflight := lastPreflight g; lastPreflightErr := lastPreflightErr g;
     preflightDirty := preflightDirty g; lastValidationErr := lastValidationErr g;
     validationDirty := validationDirty g |}.

Definition with_checks (report : option PreflightReport) (perr : option gerror) (pdirty : bool)
    (verr : option gerror) (vdirty : bool) (g : Graph) : Graph :=
  {| sealed := sealed g; nodes := nodes g; nodeContracts := nodeContracts g; edges := edges g;
     startNodeID := startNodeID g; maxNodeVisits := maxNodeVisits g; grounder := grounder g;
     visitCounts := visitCounts g; executionPath := executionPath g;
     capabilityCatalog := capabilityCatalog g; lastPreflight := report; lastPreflightErr := perr;
     preflightDirty := pdirty; lastValidationErr := verr; validationDirty := vdirty |}.

Definition with_settings (s : bool) (limit : Z) (gr : bool) (cat : option (list CapabilityDescriptor)) (g : Graph) : Graph :=
  {| sealed := s; nodes := nodes g; nodeContracts := nodeContracts g; edges := edges g;
     startNodeID := startNodeID g; maxNodeVisits := limit; grounder := gr;
     visitCounts := visitCounts g; executionPath := executionPath g;
     capabilityCatalog := cat; lastPreflight := lastPreflight g; lastPreflightErr := lastPreflightErr g;
     preflightDirty := preflightDirty g; lastValidationErr := lastValidationErr g;
     validationDirty := validationDirty g |}.

Definition invalidatePreflightLocked (g : Graph) : Graph :=
  with_checks None None true (lastValidationErr g) (validationDirty g) g.

Definition invalidateStructureLocked (g : Graph) : Graph :=
  invalidatePreflightLocked (with_checks (lastPreflight g) (lastPreflightErr g) (preflightDirty g)
                               (lastValidationErr g) true g).

(** A build-phase operation on a graph that is not sealed. *)
Definition unsealed (op : Graph → result Graph) (g : Graph) : result unit * Graph :=
  if sealed g then (Err ErrGraphSealed, g)
  else match op g with Ok g' => (Ok tt, g') | Err e => (Err e, g) end.

Definition SetGrounder (present : bool) : Graph → result unit * Graph :=
  unsealed (λ g, Ok (with_settings (sealed g) (maxNodeVisits g) present (capabilityCatalog g) g)).

Definition SetMaxNodeVisits (limit : Z) : Graph → result unit * Graph :=
  unsealed (λ g, Ok (if (0 <? limit)%Z
                     then with_settings (sealed g) limit (grounder g) (capabilityCatalog g) g else g)).

Definition SetCapabilityCatalog (catalog : option (list CapabilityDescriptor)) : Graph → result unit * Graph :=
  unsealed (λ g, Ok (invalidatePreflightLocked
                       (with_settings (sealed g) (maxNodeVisits g) (grounder g) catalog g))).

Definition SetStart (id : string) : Graph → result unit * Graph :=
  unsealed (λ g, match nodes g !! id with
                 | None => Err (ErrFmt "start node %s not found" [id])
                 | Some _ => Ok (invalidateStructureLocked
                                   (with_structure (nodes g) (nodeContracts g) (edges g) id g))
                 end).

Definition AddNode (n : Node) : Graph → result unit * Graph :=
  unsealed (λ g, match nodes g !! node_ID n with
                 | Some _ => Err (ErrFmt "node %s already exists" [node_ID n])
                 | None => Ok (invalidateStructureLocked
                     (with_structure (<[node_ID n := n]> (nodes g))
                        (<[node_ID n := ResolveNodeContract (n_info n)]> (nodeContracts g))
                        (edges g) (startNodeID g) g))
                 end).

Definition outgoing (g : Graph) (id : string) : list Edge := default [] (edges g !! id).

Definition AddEdge (from to : string) (cond : option (Result → Envelope → bool)) (parallel : bool)
    : Graph → result unit * Graph :=
  unsealed (λ g, match nodes g !! from, nodes g !! to with
                 | None, _ => Err (ErrFmt "node %s not defined" [from])
                 | Some _, None => Err (ErrFmt "node %s not defined" [to])
                 | Some _, Some _ => Ok (invalidateStructureLocked
                     (with_structure (nodes g) (nodeContracts g)
                        (<[from := outgoing g from ++
                             [{| From := from; To := to; Condition := cond; Parallel := parallel |}]]> (edges g))
                        (startNodeID g) g))
                 end).

Definition HasNode (g : Graph) (id : string) : bool := bool_decide (is_Some (nodes g !! id)).
Definition NodeIDs (g : Graph) : list string := sort_strings (map_to_list (nodes g)).*1.
Definition NodeType (g : Graph) (id : string) : option string := node_Type <$> nodes g !! id.
Definition OutgoingEdges := outgoing.

(** ** Validation and preflight *)
Definition missing_edge (id : string) : gerror := ErrFmt "edge references missing node %s" [id].

Definition check_edges (g : Graph) (fe : string * list Edge) : option gerror :=
  first_error (check (negb (HasNode g fe.1)) (missing_edge fe.1) ::
               ((λ e, check (negb (HasNode g (To e))) (missing_edge (To e))) <$> fe.2)).

Definition node_contract (g : Graph) (n : Node) : NodeContract :=
  default (ResolveNodeContract (n_info n)) (nodeContracts g !! node_ID n).

(** What [Validate] computes when its cached result is stale. *)
Definition validation (g : Graph) : option gerror :=
  first_error
    [check (bool_decide (nodes g = ∅)) (ErrMsg "graph has no nodes");
     check (bool_decide (startNodeID g = EmptyString)) (ErrMsg "graph has no start node");
     first_error (check_edges g <$> map_to_list (edges g));
     first_error ((λ kn, validateNodeContract (n_info kn.2) (node_contract g kn.2)) <$> map_to_list (nodes g))].

Definition Validate (g : Graph) : option gerror * Graph :=
  if negb (validationDirty g) then (lastValidationErr g, g)
  else (validation g, with_checks (lastPreflight g) (lastPreflightErr g) (preflightDirty g) (validation g) false g).

(** The nodes' contracts in the order of their IDs. *)
Definition sorted_contracts (g : Graph) : list (string * NodeContract) :=
  omap (λ id, n ← nodes g !! id; Some (node_ID n, node_contract g n)) (NodeIDs g).

Definition Preflight (now : Time) (g : Graph) : option gerror * Graph :=
  match preflightDirty g, lastPreflight g with
  | false, Some _ => (lastPreflightErr g, g)
  | _, _ =>
      let report := preflight_report now (capabilityCatalog g) (sorted_contracts g) in
      (preflight_error report,
       with_checks (Some report) (preflight_error report) false (lastValidationErr g) (validationDirty g) g)
  end.

Definition seal (g : Graph) : Graph := with_settings true (maxNodeVisits g) (grounder g) (capabilityCatalog g) g.

(** ** Running *)
Record World := {
  w_coordinator : bool;                       (** the context carries an epoch coordinator *)
  w_cancelled : moment → option gerror;
  w_now : moment → Time;
  w_barrier : moment → option gerror;         (** the result of [CloseEpochIfPending] *)
  w_effects : moment → list env_effect;       (** what that barrier did to the run's envelope *)
  w_meanwhile : moment → point → list env_effect;
  w_final : option gerror;                    (** the result of the owner's [FinalEpoch] *)
  w_final_effects : list env_effect
}.

Definition apply_effect (e : Envelope) (f : env_effect) : Envelope :=
  match f with
  | EffApply r epoch now => (ApplyResult r epoch now e).2
  | EffError text now =>
      SetWorkingValueWithClass "contextstream.background_error" (VString text) MemoryClassTask now e
  | EffEpoch epoch => set_epoch epoch e
  end.
Definition apply_effects (fs : list env_effect) (e : Envelope) : Envelope := foldl apply_effect e fs.

(** Only the top-level traversal works on the run's envelope. *)
Definition on_run_envelope (path : list (nat * nat)) (fs : list env_effect) (e : Envelope) : Envelope :=
  match path with [] => apply_effects fs e | _ => e end.

Definition counted (g : Graph) (id : string) : Z := default 0%Z (visitCounts g !! id) + 1.

Definition with_visits (counts : gmap string Z) (path : list string) (g : Graph) : Graph :=
  {| sealed := sealed g; nodes := nodes g; nodeContracts := nodeContracts g; edges := edges g;
     startNodeID := startNodeID g; maxNodeVisits := maxNodeVisits g; grounder := grounder g;
     visitCounts := counts; executionPath := path; capabilityCatalog := capabilityCatalog g;
     lastPreflight := lastPreflight g; lastPreflightErr := lastPreflightErr g;
     preflightDirty := preflightDirty g; lastValidationErr := lastValidationErr g;
     validationDirty := validationDirty g |}.

(** [executeBranch]'s graph: the snapshot, without grounder, visits or dirty flag. *)
Definition sub_graph (start : string) (g : Graph) : Graph :=
  {| sealed := false; nodes := nodes g; nodeContracts := nodeContracts g; edges := edges g;
     startNodeID := start; maxNodeVisits := maxNodeVisits g; grounder := false;
     visitCounts := ∅; executionPath := []; capabilityCatalog := capabilityCatalog g;
     lastPreflight := lastPreflight g; lastPreflightErr := lastPreflightErr g;
     preflightDirty := preflightDirty g; lastValidationErr := lastValidationErr g;
     validationDirty := false |}.

(** The node's result fields, written under its ID. *)
Definition write_fields (id : string) (now : Time) (r : Result) (e : Envelope) : Envelope :=
  foldl (λ e kv, SetWorkingValueWithClass (id +:+ "." +:+ kv.1) kv.2 MemoryClassTask now e)
        e (map_to_list (r_Fields r)).

Definition default_result (id : string) (r : option Result) : Result :=
  match r with
  | Some r => {| r_NodeID := id; r_Success := r_Success r; r_Fields := r_Fields r; r_Pause := r_Pause r;
               r_FailureKind := r_FailureKind r |}
  | None => {| r_NodeID := id; r_Success := true; r_Fields := ∅; r_Pause := false; r_FailureKind := EmptyString |}
  end.

Definition enabled (r : Result) (e : Envelope) (ed : Edge) : bool :=
  match Condition ed with Some c => c r e | None => true end.

(** The merge of the fan-out's branches; a branch's identifier is its edge's target. *)
Definition branch_units (bs : list (string * Envelope * BranchDelta)) : list (BranchMergeUnit V) :=
  imap (λ i b, {| u_Index := Z.of_nat i; u_ID := b.1.1; u_Delta := b.2; u_Env := Some b.1.2 |}) bs.

Definition mergeParallelBranchEnvelopes (bs : list (string * Envelope * BranchDelta)) (parent : Envelope)
    : option gerror * Envelope :=
  if bool_decide (bs = []) then (None, parent)
  else
    match ValidateBranchMerge ((λ b, Some b.1.2) <$> bs) with
    | Some err => (Some err, parent)
    | None =>
        match ApplyBranchMerges (branch_units bs) parent with
        | (Ok _, parent) => (None, parent)
        | (Err err, parent) => (Some err, parent)
        end
    end.

(** The graph's verdict before a run: sealed, then validated, then preflighted. *)
Definition prepare (now : Time) (g : Graph) : option gerror * Graph :=
  match Validate (seal g) with
  | (Some err, g) => (Some err, g)
  | (None, g) => Preflight now g
  end.

(** Results: an error or the last node's result.  [None] is running out of fuel. *)
Definition outcome : Type := result (option Result) * Envelope * Graph.

(** [nextNodes], given how a branch runs: its index and edge, the envelope it clones. *)
Section next.
Variable (branch : nat → string → Envelope → option (result (option Result) * Envelope)).
Variable (w : World) (at_ : moment).

Definition parent_at (p : point) (e : Envelope) : Envelope :=
  on_run_envelope (m_path at_) (w_meanwhile w at_ p) e.

(** Each branch: its error, its final envelope and its delta. *)
Definition run_branch (env : Envelope) (i : nat) (ed : Edge)
    : option (option gerror * (string * Envelope * BranchDelta)) :=
  '(r, e) ← branch i (To ed) (Clone (parent_at (AtFork i) env));
  Some (match r with Ok _ => None | Err err => Some err end,
        (To ed, e, ComputeBranchDelta other_equal (parent_at (AtDelta i) env) e)).

Definition fan_out (env : Envelope) (eds : list Edge) : option (option gerror * Envelope) :=
  if bool_decide (eds = []) then Some (None, env)
  else
    bs ← mapM (λ ie, run_branch env ie.1 ie.2) (imap pair eds);
    match first_error (fst <$> bs) with
    | Some err => Some (Some err, parent_at AtJoin env)
    | None => Some (mergeParallelBranchEnvelopes (snd <$> bs) (parent_at AtJoin env))
    end.

Definition nextNodes (g : Graph) (n : Node) (r : Result) (env : Envelope)
    : option (result string * Envelope) :=
  let out := outgoing g (node_ID n) in
  if bool_decide (length out = 0) || bool_decide (node_Type n = NodeTypeTerminal)
  then Some (Ok EmptyString, env)
  else
    let taken := filter (λ ed, enabled r env ed = true) out in
    let serial := filter (λ ed, Parallel ed = false) taken in
    let parallel := filter (λ ed, Parallel ed = true) taken in
    '(err, env) ← fan_out env parallel;
    Some (match err with
          | Some e => (Err e, env)
          | None =>
              match serial with
              | [] => (Ok EmptyString, env)
              | [ed] => (Ok (To ed), env)
              | _ => (Err (ErrFmt "ambiguous transitions from %s" [node_ID n]), env)
              end
          end).
End next.

(** One turn of the loop up to the transition: an outcome, or the node, its result,
    the envelope and the graph to go on with. *)
Definition visit (w : World) (at_ : moment) (current : string) (env : Envelope) (g : Graph)
    : outcome + Node * Result * Envelope * Graph :=
  match w_cancelled w at_ with
  | Some err => inl (Err err, env, g)
  | None =>
      match nodes g !! current with
      | None => inl (Err (ErrFmt "node %s missing" [current]), env, g)
      | Some n =>
          let g1 := with_visits (<[current := counted g current]> (visitCounts g)) (executionPath g) g in
          if (maxNodeVisits g <? counted g current)%Z
          then inl (Err (ErrFmt "potential cycle detected at node %s" [current]), env, g1)
          else
            let g2 := with_visits (visitCounts g1) (executionPath g ++ [current]) g in
            match n_Execute n at_ env with
            | (Err err, env) => inl (Err (ErrWrap ("node " +:+ current +:+ " execution failed") err), env, g2)
            | (Ok res, env) =>
                let r := default_result current res in
                let env := write_fields current (w_now w at_) r env in
                let env := if w_coordinator w then on_run_envelope (m_path at_) (w_effects w at_) env else env in
                match (if w_coordinator w then w_barrier w at_ else None) with
                | Some err => inl (Err (ErrWrap "agentgraph" err), env, g2)
                | None => if r_Pause r then inl (Ok (Some r), env, g2) else inr (n, r, env, g2)
                end
            end
      end
  end.

(** A nested [Execute]: the coordinator, if any, comes from the context. *)
Definition execute_branch (run : list (nat * nat) → string → Envelope → Graph → option outcome)
    (w : World) (path : list (nat * nat)) (g : Graph) (start : string) (env : Envelope)
    : option (result (option Result) * Envelope) :=
  match prepare (w_now w {| m_path := path; m_turn := 0 |}) (sub_graph start g) with
  | (Some err, _) => Some (Err err, env)
  | (None, g) =>
      if bool_decide (startNodeID g = EmptyString)
      then Some (Err (ErrMsg "graph has no start node"), env)
      else '(r, env, _) ← run path (startNodeID g) env g; Some (r, env)
  end.

(** The loop of [run], its turn counted from [k]. *)
Fixpoint run_loop (fuel : nat) (w : World) (path : list (nat * nat)) (k : nat) (last : option Result)
    (current : string) (env : Envelope) (g : Graph) : option outcome :=
  match fuel with
  | O => None
  | S fuel =>
      if bool_decide (current = EmptyString) then Some (Ok last, env, g)
      else
        let at_ := {| m_path := path; m_turn := k |} in
        match visit w at_ current env g with
        | inl o => Some o
        | inr (n, r, env, g) =>
            let branch i := execute_branch (λ p, run_loop fuel w p 0 None) w (path ++ [(k, i)]) g in
            '(next, env) ← nextNodes branch w at_ g n r env;
            match next with
            | Err err => Some (Err err, env, g)
            | Ok next => run_loop fuel w path (S k) (Some r) next env g
            end
        end
  end.

(** [run] with its reset of the visit counts. *)
Definition run (fuel : nat) (w : World) (path : list (nat * nat)) (current : string) (env : Envelope)
    (g : Graph) : option outcome :=
  run_loop fuel w path 0 None current env (with_visits ∅ [] g).

(** The top-level [Execute].  A graph with a grounder and no coordinator in its
    context owns one for the run, and closes its last epoch on every way out. *)
Definition Execute (fuel : nat) (w : World) (env : Envelope) (g : Graph) : option outcome :=
  match prepare (w_now w {| m_path := []; m_turn := 0 |}) g with
  | (Some err, g) => Some (Err err, env, g)
  | (None, g) =>
      let owns := negb (w_coordinator w) && grounder g in
      let w' := {| w_coordinator := w_coordinator w || grounder g; w_cancelled := w_cancelled w;
                   w_now := w_now w; w_barrier := w_barrier w; w_effects := w_effects w;
                   w_meanwhile := w_meanwhile w; w_final := w_final w;
                   w_final_effects := w_final_effects w |} in
      '(r, env, g) ← if bool_decide (startNodeID g = EmptyString)
                      then Some (Err (ErrMsg "graph has no start node"), env, g)
                      else run fuel w' [] (startNodeID g) env g;
      if owns
      then Some (match r, w_final w with Ok _, Some err => Err err | _, _ => r end,
                 apply_effects (w_final_effects w) env, g)
      else Some (r, env, g)
  end.

(** ** The nodes of this file *)
Definition NewTerminalNode (id : string) : Node :=
  {| n_info := {| ni_ID := id; ni_Type := NodeTypeTerminal;
       ni_Contract := Some (contract_of SideEffectNone IdempotencyReplaySafe
         {| ReadKeys := ReadKeys systemContextPolicy; WriteKeys := []; AllowHistoryAccess := false;
            AllowRetrieval := false; AllowedMemoryClasses := AllowedMemoryClasses systemContextPolicy;
            AllowedDataClasses := AllowedDataClasses systemContextPolicy; MaxStateEntryBytes := 4096;
            MaxInlineCollectionItems := 32; PreferArtifactReferences := false |}) |};
     n_Execute := λ _ e, (Ok (Some (default_result id None)), e) |}.

(** [callback] may change the envelope before it fails. *)
Definition HumanNode (id : string) (callback : option (moment → Envelope → option gerror * Envelope)) : Node :=
  {| n_info := {| ni_ID := id; ni_Type := NodeTypeHuman;
       ni_Contract := Some (contract_of SideEffectHuman IdempotencySingleShot humanContextPolicy) |};
     n_Execute := λ at_ e,
       match callback with
       | None => (Ok (Some (default_result id None)), e)
       | Some f => match f at_ e with
                   | (Some err, e) => (Err err, e)
                   | (None, e) => (Ok (Some (default_result id None)), e)
                   end
       end |}.

Definition ConditionalNode (id : string) (cond : moment → Envelope → result string * Envelope) : Node :=
  {| n_info := {| ni_ID := id; ni_Type := NodeTypeConditional; ni_Contract := None |};
     n_Execute := λ at_ e,
       match cond at_ e with
       | (Err err, e) => (Err err, e)
       | (Ok to, e) => (Ok (Some {| r_NodeID := id; r_Success := true; r_Fields := {["next" := VString to]};
                                    r_Pause := false; r_FailureKind := EmptyString |}), e)
       end |}.

(** [desc] is the tool's descriptor, [None] without a tool; [invoke] is the registry. *)
Definition ToolNode (id : string) (desc : option CapabilityDescriptor)
    (invoke : moment → Envelope → result (option Result) * Envelope) : Node :=
  {| n_info := {| ni_ID := id; ni_Type := NodeTypeTool; ni_Contract := Some (toolNodeContract desc) |};
     n_Execute := λ at_ e,
       match desc with
       | None => (Err (ErrMsg "tool node missing tool"), e)
       | Some _ => match invoke at_ e with
                   | (Err err, e) => (Err err, e)
                   | (Ok res, e) => (Ok (Some (default_result id res)), e)
                   end
       end |}.
End graph.

Arguments Graph V : clear implicits.
Arguments Node V : clear implicits.
Arguments Edge V : clear implicits.
Arguments Result V : clear implicits.
