(* ===== verification/GraphInv.v ===== *)
(** * GraphInv

    What the build phase of a graph guarantees: well-formedness, exact validation
    and the seal. *)
From S2P Require Import Prelude GoStrings Envelope EnvelopeMerge ContextStream Epoch Selector Placement Graph.
From Stdlib Require Import Lia.

Section inv.
Context {V : Type}.
Abbreviation Graph := (Graph V).
Abbreviation Node := (Node V).
Implicit Types (g : Graph) (n : Node).

(** Everything that can happen to a graph: the mutators, the cached checks, and what
    a run leaves behind (the seal, visit counts and a path). *)
Inductive graph_op :=
| OpAddNode n
| OpAddEdge (from to : string) (cond : option (Result V → Envelope V → bool)) (parallel : bool)
| OpSetStart (id : string)
| OpSetMaxNodeVisits (limit : Z)
| OpSetGrounder (present : bool)
| OpSetCapabilityCatalog (catalog : option (list CapabilityDescriptor))
| OpValidate
| OpPreflight (now : Time)
| OpSeal
| OpRan (counts : gmap string Z) (path : list string).

Definition do_op g (op : graph_op) : Graph :=
  match op with
  | OpAddNode n => (AddNode n g).2
  | OpAddEdge from to cond parallel => (AddEdge from to cond parallel g).2
  | OpSetStart id => (SetStart id g).2
  | OpSetMaxNodeVisits limit => (SetMaxNodeVisits limit g).2
  | OpSetGrounder present => (SetGrounder present g).2
  | OpSetCapabilityCatalog catalog => (SetCapabilityCatalog catalog g).2
  | OpValidate => (Validate g).2
  | OpPreflight now => (Preflight now g).2
  | OpSeal => seal g
  | OpRan counts path => with_visits counts path g
  end.

Definition built g : Prop := ∃ ops, g = foldl do_op NewGraph ops.

Record wf g : Prop := {
  wf_keyed : ∀ id n, nodes g !! id = Some n → node_ID n = id;
  wf_contract : ∀ id n, nodes g !! id = Some n → nodeContracts g !! id = Some (ResolveNodeContract (n_info n));
  wf_edges : ∀ u ed, ed ∈ outgoing g u → From ed = u ∧ is_Some (nodes g !! u) ∧ is_Some (nodes g !! To ed);
  wf_keys : ∀ u es, edges g !! u = Some es → is_Some (nodes g !! u);
  wf_start : startNodeID g = EmptyString ∨ is_Some (nodes g !! startNodeID g);
  wf_limit : (0 < maxNodeVisits g)%Z;
  wf_valid : validationDirty g = false → lastValidationErr g = validation g;
  wf_preflight : preflightDirty g = false → ∃ now, lastPreflight g =
      Some (preflight_report now (capabilityCatalog g) (sorted_contracts g)) ∧
      lastPreflightErr g = preflight_error (preflight_report now (capabilityCatalog g) (sorted_contracts g))
}.

(** The part of the graph a run and the checks depend on. *)
Definition same_structure g1 g2 : Prop :=
  nodes g1 = nodes g2 ∧ nodeContracts g1 = nodeContracts g2 ∧ edges g1 = edges g2 ∧
  startNodeID g1 = startNodeID g2.

Lemma same_validation g1 g2 : same_structure g1 g2 → validation g1 = validation g2.
Proof.
  intros (Hn & Hc & He & Hs). unfold validation, check_edges, node_contract, HasNode. by rewrite Hn, Hc, He, Hs.
Qed.

Lemma same_sorted g1 g2 : same_structure g1 g2 → sorted_contracts g1 = sorted_contracts g2.
Proof. intros (Hn & Hc & _). unfold sorted_contracts, NodeIDs, node_contract. by rewrite Hn, Hc. Qed.

Lemma wf_same g1 g2 :
  wf g1 → same_structure g1 g2 → (0 < maxNodeVisits g2)%Z →
  (validationDirty g2 = false → lastValidationErr g2 = validation g1) →
  (preflightDirty g2 = false → ∃ now, lastPreflight g2 =
      Some (preflight_report now (capabilityCatalog g2) (sorted_contracts g1)) ∧
      lastPreflightErr g2 = preflight_error (preflight_report now (capabilityCatalog g2) (sorted_contracts g1))) →
  wf g2.
Proof.
  intros [Hk Hc He Hks Hs _ _ _] Hsame Hl Hv Hp. pose proof Hsame as (Hn & Hnc & Hed & Hst).
  constructor; unfold outgoing in *; rewrite <- ?Hn, <- ?Hnc, <- ?Hed, <- ?Hst; try done.
  - by rewrite <- (same_validation g1 g2).
  - by rewrite <- (same_sorted g1 g2).
Qed.

Lemma graph_wf_new : wf NewGraph.
Proof.
  constructor; cbn; try done; try (intros ? ?; rewrite lookup_empty; done); [|by left].
  intros u ed. unfold outgoing. cbn. rewrite lookup_empty. cbn. by rewrite elem_of_nil.
Qed.

Lemma wf_add_node g n : wf g → wf (AddNode n g).2.
Proof.
  intros Hwf. unfold AddNode, unsealed. destruct (sealed g); [done|].
  destruct (nodes g !! node_ID n) eqn:Hn; [done|]. destruct Hwf as [Hk Hc He Hks Hs Hl _ _]. cbn [snd].
  constructor; cbn; try done.
  - intros id m. destruct (decide (id = node_ID n)) as [->|Hne];
      [rewrite lookup_insert_eq; by intros [= <-]|rewrite lookup_insert_ne by done; apply Hk].
  - intros id m. destruct (decide (id = node_ID n)) as [->|Hne];
      [rewrite !lookup_insert_eq; by intros [= <-]|rewrite !lookup_insert_ne by done; apply Hc].
  - intros u ed Hin. change (ed ∈ outgoing g u) in Hin. destruct (He u ed Hin) as (Hf & Hu & Ht).
    split_and!; [done| |]; (rewrite lookup_insert_ne; [done|]); intros Heq; rewrite <- Heq, Hn in *; [by destruct Hu|by destruct Ht].
  - intros u es Hu. apply Hks in Hu. rewrite lookup_insert_ne; [done|]. intros Heq. rewrite <- Heq, Hn in Hu. by destruct Hu.
  - destruct Hs as [->|Hs]; [by left|right]. rewrite lookup_insert_ne; [done|]. intros Heq. rewrite <- Heq, Hn in Hs. by destruct Hs.
Qed.

Lemma wf_add_edge g from to cond parallel : wf g → wf (AddEdge from to cond parallel g).2.
Proof.
  intros Hwf. unfold AddEdge, unsealed. destruct (sealed g); [done|].
  destruct (nodes g !! from) eqn:Hf; [|done]. destruct (nodes g !! to) eqn:Ht; [|done].
  destruct Hwf as [Hk Hc He Hks Hs Hl _ _]. cbn [snd]. constructor; cbn; try done.
  - intros u ed. unfold outgoing. cbn. destruct (decide (u = from)) as [->|Hne].
    + rewrite lookup_insert_eq. cbn. intros [Hin|Hin%list_elem_of_singleton]%elem_of_app; [by apply He|subst ed].
      cbn. rewrite Hf, Ht. eauto.
    + rewrite lookup_insert_ne by done. apply He.
  - intros u es. destruct (decide (u = from)) as [->|Hne]; [by rewrite Hf|].
    rewrite lookup_insert_ne by done. apply Hks.
Qed.

Lemma wf_op g op : wf g → wf (do_op g op).
Proof.
  intros Hwf. destruct op; cbn [do_op]; [by apply wf_add_node|by apply wf_add_edge|..].
  - unfold SetStart, unsealed. destruct (sealed g); [done|]. destruct (nodes g !! id) eqn:Hn; [|done].
    destruct Hwf as [Hk Hc He Hks Hs Hl _ _]. constructor; cbn; try done. right. by rewrite Hn.
  - unfold SetMaxNodeVisits, unsealed. destruct (sealed g); [done|]. destruct (0 <? limit)%Z eqn:El; [|done].
    apply (wf_same g); [done|done|cbn; lia|cbn; apply Hwf|cbn; apply Hwf].
  - unfold SetGrounder, unsealed. destruct (sealed g); [done|].
    apply (wf_same g); [done|done|cbn; apply Hwf|cbn; apply Hwf|cbn; apply Hwf].
  - unfold SetCapabilityCatalog, unsealed. destruct (sealed g); [done|].
    apply (wf_same g); [done|done|cbn; apply Hwf|cbn; apply Hwf|done].
  - unfold Validate. destruct (validationDirty g); cbn [negb snd]; [|done].
    apply (wf_same g); [done|done|cbn; apply Hwf|done|cbn; apply Hwf].
  - unfold Preflight. destruct (preflightDirty g) eqn:Ed, (lastPreflight g) eqn:El; cbn [snd]; try done;
      (apply (wf_same g); [done|done|cbn; apply Hwf|cbn; apply Hwf|cbn; eauto]).
  - apply (wf_same g); [done|done|cbn; apply Hwf|cbn; apply Hwf|cbn; apply Hwf].
  - apply (wf_same g); [done|done|cbn; apply Hwf|cbn; apply Hwf|cbn; apply Hwf].
Qed.

Lemma built_wf g : built g → wf g.
Proof.
  intros [ops ->]. induction ops as [|op ops IH] using rev_ind; [apply graph_wf_new|].
  rewrite foldl_app. by apply wf_op.
Qed.

Lemma built_op g op : built g → built (do_op g op).
Proof. intros [ops ->]. exists (ops ++ [op]). by rewrite foldl_app. Qed.

Lemma Validate_fresh g : wf g → (Validate g).1 = validation g.
Proof. intros Hwf. unfold Validate. destruct (validationDirty g) eqn:E; [done|]. by apply Hwf. Qed.

Lemma validation_None g :
  wf g → validation g = None ↔
    startNodeID g ≠ EmptyString ∧ is_Some (nodes g !! startNodeID g) ∧
    ∀ id n, nodes g !! id = Some n → validateNodeContract (n_info n) (ResolveNodeContract (n_info n)) = None.
Proof.
  intros Hwf.
  unfold validation. rewrite first_error_None, !Forall_cons, !check_None, !bool_decide_eq_false, !first_error_None.
  rewrite !Forall_fmap, !Forall_forall. split.
  - intros (Hne & Hs & _ & Hc & _). split_and!; [done|by destruct (wf_start g Hwf)|].
    intros id n Hn. specialize (Hc (id, n) (proj2 (elem_of_map_to_list _ _ _) Hn)). cbn in Hc. unfold node_contract in Hc.
    rewrite (wf_keyed g Hwf id n Hn) in Hc. by rewrite (wf_contract g Hwf id n Hn) in Hc.
  - intros (Hs & [m Hm] & Hc). split_and!; [intros Hn; by rewrite Hn, lookup_empty in Hm|done| | |intros ? Hx; by apply elem_of_nil in Hx].
    + intros [u es] Hu%elem_of_map_to_list. unfold check_edges. cbn [fst snd]. apply first_error_None. constructor.
      * apply check_None, negb_false_iff, bool_decide_eq_true. by eapply (wf_keys g Hwf).
      * apply Forall_fmap, Forall_forall. intros ed Hed. cbn. apply check_None, negb_false_iff, bool_decide_eq_true.
        apply (wf_edges g Hwf u). unfold outgoing. by rewrite Hu.
    + intros [id n] Hn%elem_of_map_to_list. cbn. unfold node_contract.
      rewrite (wf_keyed g Hwf id n Hn), (wf_contract g Hwf id n Hn). cbn. by eapply Hc.
Qed.

(** C35: validation is exact.  Whatever sequence of build operations, cached checks and
    runs led to a graph, [Validate] accepts it exactly when it has a start node that
    is one of its nodes, and every node's contract is valid: its edges never lead out
    of it, and a cached verdict is never out of date. *)
Theorem validate_exact g :
  built g →
  (∀ u ed, ed ∈ outgoing g u → From ed = u ∧ is_Some (nodes g !! u) ∧ is_Some (nodes g !! To ed)) ∧
  ((Validate g).1 = None ↔
   startNodeID g ≠ EmptyString ∧ is_Some (nodes g !! startNodeID g) ∧
   ∀ id n, nodes g !! id = Some n → validateNodeContract (n_info n) (ResolveNodeContract (n_info n)) = None).
Proof.
  intros Hwf%built_wf. split; [apply Hwf|].
  by rewrite Validate_fresh, validation_None.
Qed.

(** a sealed graph does not change.  Once [Execute] has begun, every mutator
    returns [ErrGraphSealed] and leaves the graph as it is. *)
Theorem sealed_immutable g n from to cond parallel id limit present catalog :
  sealed g = true →
  AddNode n g = (Err ErrGraphSealed, g) ∧ AddEdge from to cond parallel g = (Err ErrGraphSealed, g) ∧
  SetStart id g = (Err ErrGraphSealed, g) ∧ SetMaxNodeVisits limit g = (Err ErrGraphSealed, g) ∧
  SetGrounder present g = (Err ErrGraphSealed, g) ∧ SetCapabilityCatalog catalog g = (Err ErrGraphSealed, g).
Proof.
  intros Hs. unfold AddNode, AddEdge, SetStart, SetMaxNodeVisits, SetGrounder, SetCapabilityCatalog, unsealed.
  by rewrite Hs.
Qed.
End inv.
