(* ===== verification/GraphSafety.v ===== *)
(** * GraphSafety

    Running a graph: bounded visits, termination, and what a fan-out does. *)
From S2P Require Import Prelude GoStrings Envelope EnvelopeMerge EnvelopeSafety ContextStream Epoch Selector Placement Graph GraphInv.
From Stdlib Require Import Lia.

Section safety.
Context {V : Type} (other_equal : V → V → bool).
Abbreviation Envelope := (Envelope V).
Abbreviation Graph := (Graph V).
Implicit Types (g : Graph) (e : Envelope) (w : World).

(** ** One turn *)

(** All that a run leaves alone. *)
Definition frozen g :=
  (nodes g, nodeContracts g, edges g, startNodeID g, maxNodeVisits g).

Definition visited g (id : string) : Z := default 0%Z (visitCounts g !! id).

(** The turn went on: the node exists and was counted within the cap. *)
Lemma visit_inr w at_ current e g n r e' g' :
  visit w at_ current e g = inr (n, r, e', g') →
  nodes g !! current = Some n ∧ (visited g current + 1 <= maxNodeVisits g)%Z ∧ frozen g' = frozen g ∧
  (∀ id, visited g' id = if decide (id = current) then visited g id + 1 else visited g id)%Z ∧
  executionPath g' = executionPath g ++ [current] ∧ r_NodeID r = current.
Proof.
  unfold visit. destruct (w_cancelled w at_); [done|]. destruct (nodes g !! current) as [m|]; [|done].
  unfold counted. destruct (_ <? _)%Z eqn:E; [done|].
  destruct (n_Execute m at_ e) as [[res|err] e1]; [|done].
  destruct (if w_coordinator w then w_barrier w at_ else None); [done|].
  destruct (r_Pause _); [done|]. intros [= <- <- _ <-]. split_and!; try done.
  - unfold visited. lia.
  - intros id. unfold visited. cbn. case_decide as Hid; [subst; by rewrite lookup_insert_eq|by rewrite lookup_insert_ne].
  - by destruct res.
Qed.

(** The turn ended the run: the path grew by at most this node. *)
Lemma visit_inl w at_ current e g r e' g' :
  visit w at_ current e g = inl (r, e', g') →
  frozen g' = frozen g ∧
  (executionPath g' = executionPath g ∨
   executionPath g' = executionPath g ++ [current] ∧ is_Some (nodes g !! current) ∧
   (visited g current + 1 <= maxNodeVisits g)%Z).
Proof.
  unfold visit. destruct (w_cancelled w at_); [intros [= _ _ <-]; auto|].
  destruct (nodes g !! current) as [m|] eqn:Em; [|intros [= _ _ <-]; auto].
  unfold counted. destruct (_ <? _)%Z eqn:E; [intros [= _ _ <-]; auto|].
  assert (visited g current + 1 <= maxNodeVisits g)%Z by (unfold visited; lia).
  destruct (n_Execute m at_ e) as [[res|err] e1]; [|intros [= _ _ <-]; split; [done|right; eauto]].
  destruct (if w_coordinator w then w_barrier w at_ else None); [intros [= _ _ <-]; split; [done|right; eauto]|].
  destruct (r_Pause _); [|done]. intros [= _ _ <-]. split; [done|right; eauto].
Qed.

(** ** Bounded visits *)

(** The path so far is a walk along serial edges, and counts agree with it. *)
Fixpoint walk g (l : list string) : Prop :=
  match l with
  | u :: (v :: _) as l' => (∃ ed, ed ∈ outgoing g u ∧ Parallel ed = false ∧ To ed = v) ∧ walk g l'
  | _ => True
  end.

Definition occurrences (id : string) (l : list string) : Z := Z.of_nat (length (filter (λ x, x = id) l)).

Lemma occurrences_snoc id l x :
  occurrences id (l ++ [x]) = (occurrences id l + if decide (id = x) then 1 else 0)%Z.
Proof.
  unfold occurrences. rewrite filter_app, length_app, filter_cons. repeat case_decide; subst; cbn; try done; lia.
Qed.

Lemma walk_snoc g l u v :
  last l = Some u → walk g l → (∃ ed, ed ∈ outgoing g u ∧ Parallel ed = false ∧ To ed = v) → walk g (l ++ [v]).
Proof.
  induction l as [|a [|b l] IH]; [done| |].
  - intros [= ->] _ Hed. done.
  - intros Hl [Hab Hw] Hed. split; [done|]. by apply IH.
Qed.

(** A transition follows a serial edge of the node, or stops. *)
Lemma next_edge branch w at_ g n r e next e' :
  nextNodes other_equal branch w at_ g n r e = Some (Ok next, e') →
  next = EmptyString ∨ ∃ ed, ed ∈ outgoing g (node_ID n) ∧ Parallel ed = false ∧ To ed = next.
Proof.
  unfold nextNodes. destruct (_ || _); [intros [= <- _]; by left|].
  destruct (fan_out _ _ _ _ _ _) as [[[err|] e1]|]; [done| |done]. cbn.
  set (serial := filter (λ ed, Parallel ed = false) (filter (λ ed, enabled r e ed = true) (outgoing g (node_ID n)))).
  destruct serial as [|ed [|]] eqn:Es; [intros [= <- _]; by left| |done]. intros [= <- _]. right. exists ed.
  assert (ed ∈ serial) as Hed by (rewrite Es; left). unfold serial in Hed.
  rewrite !list_elem_of_filter in Hed. tauto.
Qed.

Definition keyed g : Prop := ∀ id n, nodes g !! id = Some n → node_ID n = id.

Lemma keyed_frozen g1 g2 : keyed g1 → frozen g2 = frozen g1 → keyed g2.
Proof. unfold keyed. intros Hk [= -> _ _ _ _]. done. Qed.

Record visits_ok start g (current : string) : Prop := {
  vo_counts : ∀ id, occurrences id (executionPath g) = visited g id;
  vo_cap : ∀ id, (visited g id <= maxNodeVisits g)%Z;
  vo_walk : walk g (executionPath g);
  vo_known : Forall (λ id, is_Some (nodes g !! id)) (executionPath g);
  vo_next : executionPath g = [] ∧ current = start ∨
            head (executionPath g) = Some start ∧ (current = EmptyString ∨ ∃ u, last (executionPath g) = Some u ∧
              ∃ ed, ed ∈ outgoing g u ∧ Parallel ed = false ∧ To ed = current)
}.

(** What a finished traversal's path satisfies. *)
Definition path_ok (start : string) g g' : Prop :=
  frozen g' = frozen g ∧ walk g (executionPath g') ∧
  (executionPath g' = [] ∨ head (executionPath g') = Some start) ∧
  Forall (λ id, is_Some (nodes g !! id)) (executionPath g') ∧
  ∀ id, (occurrences id (executionPath g') <= maxNodeVisits g)%Z.

Lemma frozen_outgoing g1 g2 u : frozen g1 = frozen g2 → outgoing g1 u = outgoing g2 u.
Proof. intros [= _ _ He _ _]. unfold outgoing. by rewrite He. Qed.

Lemma frozen_walk g1 g2 l : frozen g1 = frozen g2 → walk g1 l → walk g2 l.
Proof.
  intros Hf. induction l as [|a [|b l] IH]; [done|done|]. intros [(ed & Hed & H) Hw]. split; [|by apply IH].
  exists ed. by rewrite <- (frozen_outgoing g1 g2).
Qed.

Lemma snoc_head {X} (l : list X) x y : head l = Some y → head (l ++ [x]) = Some y.
Proof. by destruct l. Qed.

Lemma visits_step start g current g' :
  visits_ok start g current → is_Some (nodes g !! current) → (visited g current + 1 <= maxNodeVisits g)%Z →
  executionPath g' = executionPath g ++ [current] →
  walk g (executionPath g') ∧ head (executionPath g') = Some start ∧
  Forall (λ id, is_Some (nodes g !! id)) (executionPath g') ∧
  (∀ id, occurrences id (executionPath g') = visited g id + if decide (id = current) then 1 else 0)%Z ∧
  (∀ id, (occurrences id (executionPath g') <= maxNodeVisits g)%Z) ∨ current = EmptyString.
Proof.
  intros [Hc Hcap Hw Hk Hn] Hcur Hle ->. destruct (decide (current = EmptyString)) as [|Hne]; [by right|left].
  split_and!.
  - destruct Hn as [[-> _]|[_ [?|(u & Hu & Hed)]]]; [done|done|by eapply walk_snoc].
  - destruct Hn as [[-> ->]|[Hh _]]; [done|by apply snoc_head].
  - apply Forall_app. split; [done|]. by apply Forall_singleton.
  - intros id. by rewrite occurrences_snoc, Hc.
  - intros id. rewrite occurrences_snoc, Hc. case_decide; [subst; done|]. specialize (Hcap id). lia.
Qed.

Lemma run_loop_path w : ∀ fuel path k last start current e g r e' g',
  keyed g → visits_ok start g current →
  run_loop other_equal fuel w path k last current e g = Some (r, e', g') → path_ok start g g'.
Proof.
  induction fuel as [|fuel IH]; intros path k last start current e g r e' g' Hwf Hok; [done|]. cbn [run_loop].
  assert (path_ok start g g) as Hself.
  { destruct Hok as [Hc Hcap Hw Hk Hn]. split_and!; [done|done|destruct Hn as [[-> _]|[? _]]; auto|done|].
    intros id. by rewrite Hc. }
  case_bool_decide as Hcur; [intros [= _ _ <-]; exact Hself|].
  destruct (visit w _ current e g) as [[[r1 e1] g1]|[[[n r1] e1] g1]] eqn:Ev.
  - intros [= _ _ <-]. apply visit_inl in Ev as [Hf [Hp|(Hp & Hs & Hle)]].
    + destruct Hself as (_ & H1 & H2 & H3 & H4). unfold path_ok. rewrite Hp. by split_and!.
    + destruct (visits_step start g current g1 Hok Hs Hle Hp) as [(H1 & H2 & H3 & _ & H4)|]; [|done].
      split_and!; auto.
  - apply visit_inr in Ev as (Hn & Hle & Hf & Hv & Hp & _).
    destruct (visits_step start g current g1 Hok ltac:(by rewrite Hn) Hle Hp) as [(H1 & H2 & H3 & H4 & H5)|]; [|done].
    destruct (nextNodes _ _ _ _ _ _ _ _) as [[[next|err] e2]|] eqn:En; [| |done]; cbn.
    2: { intros [= _ _ <-]. split_and!; auto. }
    intros Hrun. pose proof Hf as Hf'. injection Hf' as Hfn Hfc Hfe Hfs Hfm.
    apply (IH _ _ _ start) in Hrun; [|by eapply keyed_frozen|].
    + destruct Hrun as (Hf2 & Hw2 & Hh2 & Hk2 & Hb2). rewrite Hfn in Hk2. rewrite Hfm in Hb2.
      split_and!; [congruence| |done|done|done]. by eapply frozen_walk.
    + constructor.
      * intros id. rewrite H4, Hv. case_decide; lia.
      * intros id. rewrite Hv, Hfm. case_decide; [by subst|apply Hok].
      * by eapply frozen_walk; [|exact H1].
      * by rewrite Hfn.
      * right. split; [done|]. apply next_edge in En as [->|(ed & Hed & Hpar & Hto)]; [by left|right].
        exists current. rewrite Hp, last_snoc. split; [done|]. exists ed.
        by rewrite <- (Hwf current n Hn).
Qed.

(** The checks before a run. *)
Lemma prepare_frozen now g :
  frozen (prepare now g).2 = frozen g ∧ executionPath (prepare now g).2 = executionPath g ∧
  sealed (prepare now g).2 = true.
Proof.
  unfold prepare, Validate, Preflight. destruct (validationDirty (seal g)); cbn [negb].
  - destruct (validation (seal g)); [done|]. cbn. destruct (preflightDirty g), (lastPreflight g); done.
  - destruct (lastValidationErr (seal g)); [done|]. cbn. destruct (preflightDirty g), (lastPreflight g); done.
Qed.

Lemma prepare_visits now g : visitCounts (prepare now g).2 = visitCounts g.
Proof.
  unfold prepare, Validate, Preflight. destruct (validationDirty (seal g)); cbn [negb].
  - destruct (validation (seal g)); [done|]. cbn. by destruct (preflightDirty g), (lastPreflight g).
  - destruct (lastValidationErr (seal g)); [done|]. cbn. by destruct (preflightDirty g), (lastPreflight g).
Qed.

Lemma visits_start g start : (0 < maxNodeVisits g)%Z → visits_ok start (with_visits ∅ [] g) start.
Proof.
  intros Hl. constructor; try done; [intros id; unfold visited; cbn; rewrite lookup_empty; cbn; lia|by left].
Qed.

Lemma run_sealed w : ∀ fuel path k last current e g r e' g',
  run_loop other_equal fuel w path k last current e g = Some (r, e', g') → sealed g' = sealed g.
Proof.
  assert (∀ at_ current e g r e' g', visit w at_ current e g = inl (r, e', g') → sealed g' = sealed g) as Hl.
  { intros at_ current e g r e' g'. unfold visit. repeat (case_match; try done); intros [= _ _ <-]; done. }
  assert (∀ at_ current e g n r e' g', visit w at_ current e g = inr (n, r, e', g') → sealed g' = sealed g) as Hr.
  { intros at_ current e g n r e' g'. unfold visit. repeat (case_match; try done); intros [= _ _ _ <-]; done. }
  induction fuel as [|fuel IH]; intros path k last current e g r e' g'; [done|]. cbn [run_loop].
  case_bool_decide; [by intros [= _ _ <-]|].
  destruct (visit w _ current e g) as [[[r1 e1] g1]|[[[n r1] e1] g1]] eqn:Ev.
  - intros [= _ _ <-]. by eapply Hl.
  - apply Hr in Ev. destruct (nextNodes _ _ _ _ _ _ _ _) as [[[next|err] e2]|]; [| |done]; cbn.
    + intros Hrun. apply IH in Hrun. congruence.
    + intros [= _ _ <-]. exact Ev.
Qed.

Lemma prepare_start now g : wf g → (prepare now g).1 = None → startNodeID g ≠ EmptyString.
Proof.
  intros Hwf. unfold prepare. pose proof (Validate_fresh (seal g) (wf_op g OpSeal Hwf)) as Hv.
  destruct (Validate (seal g)) as [[err|] g1]; [done|]. cbn [fst] in Hv. intros _. symmetry in Hv.
  unfold validation in Hv. rewrite first_error_None, !Forall_cons, !check_None, bool_decide_eq_false in Hv.
  rewrite bool_decide_eq_false in Hv. apply Hv.
Qed.

End safety.
