(* ===== verification/GraphTermination.v ===== *)
(** * GraphTermination

    When a run of a graph ends.  The visit cap bounds one traversal; every branch of a
    fan-out is a traversal of its own, with its own counts, so the nesting of fan-outs
    has to be bounded too. *)
From S2P Require Import Prelude GoStrings Selector Envelope EnvelopeMerge Placement EnvelopeSafety ContextStream Epoch.
From S2P Require Import Graph GraphInv GraphSafety.
From Stdlib Require Import Lia.

Section termination.
Context {V : Type} (other_equal : V → V → bool).
Abbreviation Envelope := (Envelope V).
Abbreviation Graph := (Graph V).
Implicit Types (g : Graph) (e : Envelope) (w : World).

(** ** The visits a traversal has left *)
Definition ids g : list string := (map_to_list (nodes g)).*1.
Definition left_at g (id : string) : nat := Z.to_nat (maxNodeVisits g - visited g id).
Definition potential g : nat := sum_list (left_at g <$> ids g).

(** The visits of a whole traversal. *)
Definition budget g : nat := size (nodes g) * Z.to_nat (maxNodeVisits g).

Lemma sum_lt {X} (f1 f2 : X → nat) (l : list X) x :
  x ∈ l → (∀ y, f1 y ≤ f2 y) → f1 x < f2 x → sum_list (f1 <$> l) < sum_list (f2 <$> l).
Proof.
  intros Hx Hle Hlt. assert (∀ l, sum_list (f1 <$> l) ≤ sum_list (f2 <$> l)) as Hs.
  { induction l0 as [|y l0 IH]; cbn; [done|]. specialize (Hle y). lia. }
  induction Hx as [x l|x y l _ IH]; cbn; [specialize (Hs l)|specialize (Hle y); specialize (IH Hlt)]; lia.
Qed.

Lemma visit_potential w at_ current e g n r e' g' :
  visit w at_ current e g = inr (n, r, e', g') → potential g' < potential g.
Proof.
  intros Hv. apply visit_inr in Hv as (Hn & Hle & Hf & Hc & _).
  injection Hf as Hfn Hfc Hfe Hfs Hfm. unfold potential, ids. rewrite Hfn.
  apply (sum_lt _ _ _ current).
  - apply list_elem_of_fmap. exists (current, n). split; [done|]. by apply elem_of_map_to_list.
  - intros id. unfold left_at. rewrite Hc, Hfm. case_decide; lia.
  - unfold left_at. rewrite Hc, Hfm, decide_True by done. lia.
Qed.

Lemma potential_start g counts : potential (with_visits ∅ counts g) = budget g.
Proof.
  unfold potential, budget, ids. rewrite <- length_map_to_list.
  assert (∀ id, left_at (with_visits ∅ counts g) id = Z.to_nat (maxNodeVisits g)) as Hl.
  { intros id. unfold left_at, visited. cbn. rewrite lookup_empty. cbn. lia. }
  change (nodes (with_visits ∅ counts g)) with (nodes g).
  induction (map_to_list (nodes g)) as [|[id n] l IH]; cbn; [done|]. by rewrite Hl, IH.
Qed.

(** ** Ranked graphs *)

(** Serial edges do not raise the rank and parallel edges lower it: no parallel edge
    lies on a cycle. *)
Definition ranked (rank : string → nat) g : Prop :=
  ∀ u ed, ed ∈ outgoing g u →
    if Parallel ed then rank (To ed) < rank u else rank (To ed) ≤ rank u.

(** The fuel that is enough from a node of the given rank. *)
Definition enough (rank : nat) g : nat := rank * (budget g + 1) + potential g + 1.

Lemma fan_out_total branch w at_ e eds :
  (∀ i ed e, ed ∈ eds → is_Some (branch i (To ed) e)) →
  is_Some (fan_out other_equal branch w at_ e eds).
Proof.
  intros Hb. unfold fan_out. case_bool_decide; [done|].
  assert (is_Some (mapM (λ ie, run_branch other_equal branch w at_ e ie.1 ie.2) (imap pair eds))) as [bs ->].
  { apply mapM_is_Some, Forall_forall. intros [i ed] Hin. apply elem_of_lookup_imap in Hin as (j & y & [= -> ->] & Hj).
    unfold run_branch. cbn. destruct (Hb j y (Clone (parent_at w at_ (AtFork j) e))) as [[r e'] ->];
      [by eapply list_elem_of_lookup_2|]. by eexists. }
  cbn. by destruct (first_error _).
Qed.

Lemma next_total branch w at_ g n r e :
  (∀ i ed e, ed ∈ outgoing g (node_ID n) → Parallel ed = true → is_Some (branch i (To ed) e)) →
  is_Some (nextNodes other_equal branch w at_ g n r e).
Proof.
  intros Hb. unfold nextNodes. destruct (_ || _); [done|].
  destruct (fan_out_total branch w at_ e
    (filter (λ ed, Parallel ed = true) (filter (λ ed, enabled r e ed = true) (outgoing g (node_ID n)))))
    as [[err e'] ->]; [|cbn; by destruct err].
  intros i ed e1 Hed. rewrite !list_elem_of_filter in Hed. apply Hb; tauto.
Qed.

Lemma branch_total run w path g start e :
  (∀ e g', frozen g' = frozen (sub_graph start g) → executionPath g' = [] → visitCounts g' = ∅ →
           is_Some (run path start e g')) →
  is_Some (execute_branch run w path g start e).
Proof.
  intros Hr. unfold execute_branch.
  destruct (prepare _ _) as [[err|] g1] eqn:Ep; [done|].
  case_bool_decide; [done|].
  set (now := w_now w _) in Ep. destruct (prepare_frozen now (sub_graph start g)) as (Hf & Hp & _).
  rewrite Ep in Hf, Hp. cbn [snd] in *. pose proof Hf as [= Hfn Hfc Hfe Hfs Hfm]. rewrite Hfs.
  destruct (Hr e g1) as [[[r e'] g2] ->]; [done|done| |by eexists].
  pose proof (prepare_visits now (sub_graph start g)) as Hv. by rewrite Ep in Hv.
Qed.

Lemma run_loop_total rank w : ∀ fuel path k last current e g,
  keyed g → ranked rank g → enough (rank current) g ≤ fuel →
  is_Some (run_loop other_equal fuel w path k last current e g).
Proof.
  induction fuel as [|fuel IH]; intros path k last current e g Hk Hr Hfuel; [unfold enough in Hfuel; lia|].
  cbn [run_loop]. case_bool_decide; [done|].
  destruct (visit w _ current e g) as [o|[[[n r] e1] g1]] eqn:Ev; [done|].
  pose proof (visit_potential _ _ _ _ _ _ _ _ _ Ev) as Hpot.
  apply visit_inr in Ev as (Hn & _ & Hf & _). pose proof Hf as [= Hfn Hfc Hfe Hfs Hfm].
  assert (budget g1 = budget g) as Hbud by (unfold budget; by rewrite Hfn, Hfm).
  assert (keyed g1) as Hk1 by (by eapply keyed_frozen).
  assert (ranked rank g1) as Hr1 by (intros u ed; rewrite (frozen_outgoing g1 g u Hf); apply Hr).
  assert (node_ID n = current) as Hid by (by apply Hk).
  edestruct (next_total) as [[next e2] Hnext]; [|rewrite Hnext; cbn].
  - intros i ed e2 Hed Hpar. apply branch_total. intros e3 g2 Hf2 _ Hv2.
    rewrite (frozen_outgoing g1 g _ Hf), Hid in Hed. apply Hr in Hed. rewrite Hpar in Hed.
    injection Hf2 as Hfn2 Hfc2 Hfe2 Hfs2 Hfm2. cbn in *.
    assert (budget g2 = budget g) as Hbud2 by (unfold budget; by rewrite Hfn2, Hfm2, Hfn, Hfm).
    apply IH.
    + intros id m. rewrite Hfn2. apply Hk1.
    + intros u ed2. unfold outgoing. rewrite Hfe2. apply Hr1.
    + assert (potential g2 = budget g) as Hp2.
      { rewrite <- Hbud2, <- (potential_start g2 (executionPath g2)). unfold potential, ids, left_at, visited. cbn.
        by rewrite Hv2. }
      unfold enough in *. rewrite Hp2, Hbud2.
      assert (S (rank (To ed)) * (budget g + 1) ≤ rank current * (budget g + 1)) by (apply Nat.mul_le_mono_r; lia). lia.
  - destruct next as [next|err]; [|done]. destruct (decide (next = EmptyString)) as [->|Hne].
    + destruct fuel; [unfold enough in Hfuel; lia|]. done.
    + apply IH; [done|done|].
      apply next_edge in Hnext as [|(ed & Hed & Hpar & Hto)]; [done|].
      rewrite Hid in Hed. apply Hr1 in Hed. rewrite Hpar, Hto in Hed. unfold enough in *. rewrite Hbud.
      assert (rank next * (budget g + 1) ≤ rank current * (budget g + 1)) by (apply Nat.mul_le_mono_r; lia). lia.
Qed.

(** C5: a run ends when fan-outs do not nest without bound.  If no parallel edge lies on a
    cycle, witnessed by a rank that serial edges do not raise and parallel edges
    lower, then [Execute] returns with fuel one more than (rank of the start + 1)
    times one more than the visits the cap allows, whatever nodes, conditions, cancellations
    and barriers do. *)
Theorem run_terminates rank fuel w e g :
  built g → ranked rank g →
  (rank (startNodeID g) + 1) * (size (nodes g) * Z.to_nat (maxNodeVisits g) + 1) ≤ fuel →
  is_Some (Execute other_equal fuel w e g).
Proof.
  intros Hwf%built_wf Hr Hfuel. unfold Execute.
  destruct (prepare_frozen (w_now w {| m_path := []; m_turn := 0 |}) g) as (Hf & _).
  destruct (prepare _ g) as [[err|] g1]; cbn [fst snd] in *; [done|].
  pose proof Hf as [= Hfn Hfc Hfe Hfs Hfm]. set (w' := {| w_coordinator := _ |}).
  assert (is_Some (run_loop other_equal fuel w' [] 0 None (startNodeID g1) e (with_visits ∅ [] g1))) as [[[r e'] g2] Hrun].
  { apply (run_loop_total rank).
    - intros id n. cbn. rewrite Hfn. apply Hwf.
    - intros u ed. change (outgoing (with_visits ∅ [] g1) u) with (outgoing g1 u).
      rewrite (frozen_outgoing g1 g u Hf). apply Hr.
    - unfold enough. rewrite potential_start. change (budget (with_visits ∅ [] g1)) with (budget g1).
      unfold budget. rewrite Hfn, Hfm, Hfs. lia. }
  unfold run. rewrite Hrun. case_bool_decide; cbn; by destruct (negb (w_coordinator w) && grounder g1).
Qed.
End termination.

(** ** Fan-outs

    What a fan-out does: the error of the lowest branch decides, nothing is merged
    after an error, and otherwise the branches' changes are merged in the order of
    the edges. *)
Lemma first_error_lookup (l : list (option gerror)) i e :
  l !! i = Some (Some e) → (∀ j, j < i → l !! j = Some None) → first_error l = Some e.
Proof.
  revert i. induction l as [|o l IH]; intros i Hi Hj; [done|]. destruct i as [|i].
  - by injection Hi as ->.
  - pose proof (Hj 0 ltac:(lia)) as [= ->]. apply (IH i); [done|]. intros j Hlt. apply (Hj (S j)). lia.
Qed.

Section fanout.
Context {V : Type} (other_equal : V → V → bool).
Abbreviation Envelope := (Envelope V).
Implicit Types (e : Envelope) (w : World).

Lemma validate_same envs t : ∀ i t',
  (i = 0 ∨ t' = t) → Forall (λ o : option Envelope, ∃ c, o = Some c ∧ TaskID c = t) envs →
  validate_loop i t' envs = None.
Proof.
  induction envs as [|o envs IH]; intros i t' Hi Hall; [done|].
  apply Forall_cons in Hall as [(c & -> & Hc) Hall]. cbn [validate_loop]. case_bool_decide as H0.
  - apply IH; [by right|done].
  - destruct Hi as [|Hi]; [done|]. rewrite bool_decide_true by congruence. apply IH; [by right|done].
Qed.

(** One branch's contribution to the merge. *)
Definition contribution w at_ e (i : nat) (b : Edge V * (result (option (Result V)) * Envelope))
    : option gerror * (string * Envelope * BranchDelta) :=
  (match b.2.1 with Ok _ => None | Err err => Some err end,
   (To b.1, b.2.2, ComputeBranchDelta other_equal (parent_at w at_ (AtDelta i) e) b.2.2)).

Definition ran (branch : nat → string → Envelope → option (result (option (Result V)) * Envelope)) w at_ e
    (eds : list (Edge V)) (outs : list (result (option (Result V)) * Envelope)) : Prop :=
  length outs = length eds ∧
  ∀ i ed out, eds !! i = Some ed → outs !! i = Some out →
    branch i (To ed) (Clone (parent_at w at_ (AtFork i) e)) = Some out.

Lemma ran_branches branch w at_ e eds outs :
  ran branch w at_ e eds outs →
  mapM (λ ie, run_branch other_equal branch w at_ e ie.1 ie.2) (imap pair eds) =
  Some (imap (contribution w at_ e) (zip eds outs)).
Proof.
  intros [Hlen Hran]. apply mapM_Some, Forall2_same_length_lookup_2.
  { rewrite !length_imap, length_zip_with. lia. }
  intros i [j ed] c. rewrite !list_lookup_imap. intros Hi Hc.
  destruct (eds !! i) as [ed'|] eqn:He; [|done]. injection Hi as <- <-.
  destruct (outs !! i) as [out|] eqn:Ho; [|by rewrite lookup_zip_with, He, Ho in Hc].
  rewrite lookup_zip_with, He, Ho in Hc. cbn in Hc. injection Hc as <-.
  unfold run_branch. cbn. rewrite (Hran i ed' out He Ho). by destruct out.
Qed.

Lemma units_join w at_ e eds outs :
  length outs = length eds → (∀ p, parent_at w at_ p e = e) →
  branch_units (snd <$> imap (contribution w at_ e) (zip eds outs)) =
  join_units other_equal (λ i, default EmptyString (To <$> eds !! i)) e outs.*2.
Proof.
  intros Hlen Hq. apply list_eq. intros i. unfold branch_units, join_units.
  rewrite !list_lookup_imap, !list_lookup_fmap, list_lookup_imap, lookup_zip_with.
  destruct (outs !! i) as [out|] eqn:Ho.
  - destruct (eds !! i) as [ed|] eqn:He; [|apply lookup_ge_None in He; apply lookup_lt_Some in Ho; lia].
    cbn. rewrite Hq. done.
  - by destruct (eds !! i).
Qed.

(** C22: a fan-out is deterministic, all or nothing, and merges in edge order.  Whatever
    order the branches finish in: if some fail, the error of the lowest edge is
    returned and nothing is merged; if all succeed and keep the task, the merge
    succeeds, and when no barrier touches the run's envelope in between every
    key ends up with what the last branch, in edge order, that changed it made of it,
    or with the parent's value. *)
Theorem fan_out_outcome branch w at_ e eds outs :
  eds ≠ [] → ran branch w at_ e eds outs →
  (∀ i err c, outs !! i = Some (Err err, c) → (∀ j, j < i → ∃ r c', outs !! j = Some (Ok r, c')) →
     fan_out other_equal branch w at_ e eds = Some (Some err, parent_at w at_ AtJoin e)) ∧
  (Forall (λ out, ∃ r c, out = (Ok r, c) ∧ TaskID c = TaskID e) outs →
     ∃ e', fan_out other_equal branch w at_ e eds = Some (None, e') ∧
     ((∀ p, parent_at w at_ p e = e) → ∀ k, k ≠ EmptyString →
        data e' !! k = foldl (λ o c, if changed_by other_equal e c k then data c !! k else o) (data e !! k) outs.*2)).
Proof.
  intros Hne Hran. pose proof Hran as [Hlen _]. unfold fan_out.
  rewrite bool_decide_false, (ran_branches _ _ _ _ _ _ Hran) by done. cbn [mbind option_bind].
  set (bs := imap (contribution w at_ e) (zip eds outs)).
  assert (∀ i ed out, eds !! i = Some ed → outs !! i = Some out → bs !! i = Some (contribution w at_ e i (ed, out))) as Hbs.
  { intros i ed out He Ho. unfold bs. by rewrite list_lookup_imap, lookup_zip_with, He, Ho. }
  assert (∀ i out, outs !! i = Some out → ∃ ed, eds !! i = Some ed) as Heds.
  { intros i out Ho. apply lookup_lt_Some in Ho. rewrite Hlen in Ho. by apply lookup_lt_is_Some in Ho. }
  split.
  - intros i err c Hi Hj. rewrite (first_error_lookup _ i err); [done|..].
    + destruct (Heds _ _ Hi) as [ed He]. by rewrite list_lookup_fmap, (Hbs _ _ _ He Hi).
    + intros j Hlt. destruct (Hj j Hlt) as (r & c' & Ho). destruct (Heds _ _ Ho) as [ed He].
      by rewrite list_lookup_fmap, (Hbs _ _ _ He Ho).
  - intros Hall. rewrite (proj2 (first_error_None _)).
    2: { apply Forall_fmap, Forall_lookup. intros i b Hb. unfold bs in Hb.
         rewrite list_lookup_imap, lookup_zip_with in Hb.
         destruct (eds !! i) as [ed|], (outs !! i) as [out|] eqn:Ho; try done. injection Hb as <-.
         rewrite Forall_lookup in Hall. by destruct (Hall i out Ho) as (r & c & -> & _). }
    unfold mergeParallelBranchEnvelopes.
    assert (snd <$> bs ≠ []) as Hbne.
    { intros Hnil. apply (f_equal length) in Hnil. unfold bs in Hnil.
      rewrite length_fmap, length_imap, length_zip_with, Hlen, Nat.min_id in Hnil. by apply nil_length_inv in Hnil. }
    rewrite bool_decide_false by done.
    assert (ValidateBranchMerge ((λ b, Some b.1.2) <$> (snd <$> bs)) = None) as ->.
    { unfold ValidateBranchMerge. case_bool_decide; [done|]. apply (validate_same _ (TaskID e)); [by left|].
      apply Forall_lookup. intros i o Ho. rewrite !list_lookup_fmap in Ho. unfold bs in Ho.
      rewrite list_lookup_imap, lookup_zip_with in Ho.
      destruct (eds !! i) as [ed|], (outs !! i) as [out|] eqn:Hout; try done. injection Ho as <-.
      rewrite Forall_lookup in Hall. destruct (Hall i out Hout) as (r & c & -> & Ht). by exists c. }
    destruct (merge_ok (branch_units (snd <$> bs)) (parent_at w at_ AtJoin e)) as (stats & e' & E); [by apply imap_order|].
    rewrite E. exists e'. split; [done|]. intros Hq k Hk. rewrite Hq in E.
    rewrite (merge_data _ _ _ _ E k). unfold bs. by rewrite (units_join _ _ _ _ _ Hlen Hq), join_fold.
Qed.
End fanout.
