(* ===== verification/GraphExamples.v ===== *)
(** * GraphExamples

    Concrete graphs: the properties' witnesses, a cycle the visit cap does not stop,
    and a fan-out that loses what a barrier recorded. *)
From S2P Require Import Prelude GoStrings Selector Envelope EnvelopeMerge Placement EnvelopeSafety ContextStream Epoch.
From S2P Require Import EpochSafety Graph GraphInv GraphSafety GraphTermination.
From Stdlib Require Import Lia.

Definition same (_ _ : unit) : bool := true.

(** A world with no coordinator in which nothing is cancelled. *)
Definition quiet : World :=
  {| w_coordinator := false; w_cancelled := λ _, None; w_now := λ _, zero_time; w_barrier := λ _, None;
     w_effects := λ _, []; w_meanwhile := λ _ _, []; w_final := None; w_final_effects := [] |}.

Definition parent0 : Envelope unit := NewEnvelope "task" "session" zero_time.

(** A node that writes one key. *)
Definition writer (id key value : string) : Node unit :=
  {| n_info := {| ni_ID := id; ni_Type := NodeTypeSystem; ni_Contract := None |};
     n_Execute := λ _ e, (Ok None, SetWorkingValue key (VString value) zero_time e) |}.

Definition build_ops (ops : list graph_op) : Graph unit := foldl do_op NewGraph ops.

Lemma build_built ops : built (build_ops ops).
Proof. by exists ops. Qed.

(** a forks to b and c, and goes on to d. *)
Definition diamond : Graph unit :=
  build_ops [OpAddNode (writer "a" "k" "a"); OpAddNode (writer "b" "k" "b"); OpAddNode (writer "c" "k" "c");
             OpAddNode (NewTerminalNode "d");
             OpAddEdge "a" "b" None true; OpAddEdge "a" "c" None true; OpAddEdge "a" "d" None false;
             OpSetStart "a"; OpSetMaxNodeVisits 8].

Definition diamond_rank (id : string) : nat := if bool_decide (id = "a") then 1 else 0.

Lemma validate_exact_witness :
  (∀ u ed, ed ∈ outgoing diamond u →
     From ed = u ∧ is_Some (nodes diamond !! u) ∧ is_Some (nodes diamond !! To ed)) ∧
  ((Validate diamond).1 = None ↔
   startNodeID diamond ≠ EmptyString ∧ is_Some (nodes diamond !! startNodeID diamond) ∧
   ∀ id n, nodes diamond !! id = Some n → validateNodeContract (n_info n) (ResolveNodeContract (n_info n)) = None).
Proof. apply (validate_exact diamond). apply build_built. Defined.

Lemma sealed_immutable_witness :
  AddEdge "a" "a" None true (seal diamond) = (Err ErrGraphSealed, seal diamond).
Proof.
  apply (sealed_immutable (seal diamond) (writer "e" "k" "e") "a" "a" None true "a" 1 true None eq_refl).
Defined.

Lemma diamond_result :
  match Execute same 66 quiet parent0 diamond with
  | Some (Ok (Some r), e, g) => r_NodeID r = "d" ∧ data e !! "k" = Some (VString "c") ∧ executionPath g = ["a"; "d"]
  | _ => False
  end.
Proof. vm_compute. done. Qed.

Lemma diamond_runs : match Execute same 66 quiet parent0 diamond with Some _ => true | None => false end = true.
Proof. vm_compute. reflexivity. Qed.


Lemma diamond_edges u : outgoing diamond u =
  if bool_decide (u = "a") then
    [{| From := "a"; To := "b"; Condition := None; Parallel := true |};
     {| From := "a"; To := "c"; Condition := None; Parallel := true |};
     {| From := "a"; To := "d"; Condition := None; Parallel := false |}]
  else [].
Proof.
  assert (edges diamond = {["a" := outgoing diamond "a"]}) as He by (vm_compute; reflexivity).
  unfold outgoing at 1. rewrite He. case_bool_decide as Hu; [subst; vm_compute; reflexivity|].
  by rewrite lookup_singleton_ne.
Qed.

Lemma diamond_ranked : ranked diamond_rank diamond.
Proof.
  intros u ed. rewrite diamond_edges. case_bool_decide as Hu; [subst|by rewrite elem_of_nil].
  rewrite !elem_of_cons, elem_of_nil. intros [->|[->|[->|[]]]]; vm_compute; lia.
Qed.

Lemma run_terminates_witness : is_Some (Execute same 66 quiet parent0 diamond).
Proof.
  apply (run_terminates same diamond_rank 66 quiet parent0 diamond (build_built _) diamond_ranked).
  apply Nat.leb_le. vm_compute. reflexivity.
Defined.

(** ** A cycle the cap does not stop *)

(** One node with a parallel edge to itself. *)
Definition spinner : Graph unit :=
  build_ops [OpAddNode (writer "a" "k" "a"); OpAddEdge "a" "a" None true; OpSetStart "a"; OpValidate; OpPreflight 0].

Definition loop_edge : Edge unit := {| From := "a"; To := "a"; Condition := None; Parallel := true |}.

Definition spins (g : Graph unit) : Prop :=
  nodes g !! "a" = Some (writer "a" "k" "a") ∧ edges g !! "a" = Some [loop_edge] ∧ maxNodeVisits g = 1024%Z ∧
  visitCounts g = ∅ ∧
  lastValidationErr g = None ∧ preflightDirty g = false ∧ is_Some (lastPreflight g) ∧ lastPreflightErr g = None.

Lemma fan_out_stuck branch w at_ (e : Envelope unit) ed :
  (∀ e, branch 0 (To ed) e = None) → fan_out same branch w at_ e [ed] = None.
Proof. intros Hb. unfold fan_out. rewrite bool_decide_false by done. cbn. unfold run_branch. by rewrite Hb. Qed.

Lemma spins_forever fuel : ∀ path k last e g,
  spins g → run_loop same fuel quiet path k last "a" e g = None.
Proof.
  induction fuel as [|fuel IH]; intros path k last e g (Hn & He & Hm & Hv & Hval & Hpd & [rep Hrep] & Hpe); [done|].
  cbn [run_loop]. rewrite bool_decide_false by done.
  assert (∃ e1 g1, visit quiet {| m_path := path; m_turn := k |} "a" e g =
      inr (writer "a" "k" "a", default_result "a" None, e1, g1) ∧
      nodes g1 = nodes g ∧ edges g1 = edges g ∧ maxNodeVisits g1 = maxNodeVisits g ∧
      lastValidationErr g1 = lastValidationErr g ∧ preflightDirty g1 = preflightDirty g ∧
      lastPreflight g1 = lastPreflight g ∧ lastPreflightErr g1 = lastPreflightErr g)
    as (e1 & g1 & -> & Hn1 & He1 & Hm1 & Hval1 & Hpd1 & Hrep1 & Hpe1).
  { unfold visit. cbn [w_cancelled quiet]. rewrite Hn.
    unfold counted. rewrite Hv, Hm, lookup_empty. cbn. eexists _, _. split; [reflexivity|]. by split_and!. }
  unfold nextNodes, outgoing. change (node_ID (writer "a" "k" "a")) with "a". rewrite He1, He. cbn [from_option id].
  rewrite (bool_decide_false (length [loop_edge] = 0)), (bool_decide_false (node_Type (writer "a" "k" "a") = _)) by done.
  change (filter (λ ed, enabled (default_result "a" None) e1 ed = true) [loop_edge]) with [loop_edge].
  change (filter (λ ed, Parallel ed = true) [loop_edge]) with [loop_edge].
  cbn [orb]. rewrite fan_out_stuck; [done|]. intros e2.
  unfold execute_branch, prepare, Validate, Preflight. cbn -[run_loop].
  rewrite Hval1, Hval. cbn -[run_loop]. rewrite Hpd1, Hpd, Hrep1, Hrep, Hpe1, Hpe. cbn -[run_loop].
  rewrite IH; [done|]. unfold spins. cbn. rewrite Hn1, He1, Hm1, Hval1, Hpd1, Hrep1, Hpe1. by split_and!.
Qed.

(** A graph with a parallel edge on a cycle passes validation and preflight, and its run
    never ends: every fan-out starts a traversal with fresh visit counts, so the cap
    of 1024 visits is never reached. *)
Lemma parallel_cycle_diverges :
  (Validate spinner).1 = None ∧ (Preflight 0 spinner).1 = None ∧ maxNodeVisits spinner = 1024%Z ∧
  ∀ fuel, Execute same fuel quiet parent0 spinner = None.
Proof.
  split_and!; [vm_compute; reflexivity..|]. intros fuel. unfold Execute.
  destruct (prepare _ spinner) as [[err|] g1] eqn:Ep; [vm_compute in Ep; discriminate|].
  assert (spins (with_visits ∅ [] g1) ∧ startNodeID g1 = "a") as [Hg Hs].
  { assert (g1 = (prepare (w_now quiet {| m_path := []; m_turn := 0 |}) spinner).2) as -> by (by rewrite Ep).
    unfold spins. split_and!; try (vm_compute; reflexivity). vm_compute. eauto. }
  assert (grounder g1 = false) as Hgr.
  { assert (g1 = (prepare (w_now quiet {| m_path := []; m_turn := 0 |}) spinner).2) as -> by (by rewrite Ep).
    vm_compute. reflexivity. }
  rewrite Hs, Hgr, bool_decide_false by done. unfold run.
  set (w' := {| w_coordinator := _ |}). change w' with quiet.
  by rewrite (spins_forever fuel [] 0 None parent0 _ Hg).
Qed.

(** ** A fan-out that loses a barrier's record *)

(** While the branches run, the barrier of one of them lands a failed background job
    and records its error in the run's envelope. *)
Definition failing_job : World :=
  {| w_coordinator := true; w_cancelled := λ _, None; w_now := λ _, zero_time; w_barrier := λ _, None;
     w_effects := λ _, [];
     w_meanwhile := λ _ p, match p with AtFork _ => [] | _ => [EffError "lost" zero_time] end;
     w_final := None; w_final_effects := [] |}.

Definition fork_moment : moment := {| m_path := []; m_turn := 0 |}.
Definition to_b : Edge unit := {| From := "a"; To := "b"; Condition := None; Parallel := true |}.

(** A branch that changes nothing. *)
Definition idle_branch (_ : nat) (_ : string) (e : Envelope unit) : option (result (option (Result unit)) * Envelope unit) :=
  Some (Ok None, e).

(** The delta is computed against the parent as it is when the branch ends, so the key
    the barrier added looks deleted by the branch, and the merge deletes it: the
    record is in the parent just before the join and gone after it, although no
    branch touched it. *)
Lemma join_loses_record :
  let before := parent_at failing_job fork_moment AtJoin parent0 in
  data before !! "contextstream.background_error" = Some (VString "lost") ∧
  ∃ after, fan_out same idle_branch failing_job fork_moment parent0 [to_b] = Some (None, after) ∧
           data after !! "contextstream.background_error" = None.
Proof. split; [vm_compute; reflexivity|]. eexists. split; vm_compute; reflexivity. Qed.

(** The same fan-out with nothing in between, for the general statement. *)
Lemma fan_out_outcome_witness :
  let branch (_ : nat) (_ : string) (e : Envelope unit) :=
    Some (Ok (A := option (Result unit)) None, SetWorkingValue "k" (VString "b") zero_time e) in
  ∃ e', fan_out same branch quiet fork_moment parent0 [to_b] = Some (None, e') ∧
        data e' !! "k" = Some (VString "b").
Proof.
  destruct (fan_out_outcome same
    (λ _ _ e, Some (Ok None, SetWorkingValue "k" (VString "b") zero_time e)) quiet fork_moment parent0 [to_b]
    [(Ok None, SetWorkingValue "k" (VString "b") zero_time (Clone parent0))]) as [_ H].
  - done.
  - split; [done|]. intros [|i] ed out; [by intros [= <-] [= <-]|done].
  - destruct H as (e' & He & Hk); [by repeat constructor; eexists _, _|].
    exists e'. split; [exact He|]. rewrite (Hk (λ _, eq_refl) "k"); [vm_compute; reflexivity|done].
Defined.

(** ** Concrete runs of the epoch coordinator *)
Definition env0 : Envelope nat := NewEnvelope "task" "session" zero_time.
Definition coord0 : EpochCoordinator nat string := NewEpochCoordinator "run-1" env0.

(** One capture before a barrier, one while it opens the next epoch. *)
Definition mid_flush : list (label (A := string)) :=
  [LEnqueue "a"; LBegin false; LGround None; LAwaited; LOpen; LEnqueue "b"; LStamp; LEnd None].
Definition result0 : StreamResult :=
  {| sr_RequestID := "r"; sr_Compilation := None; sr_Record := None; sr_ShortfallTokens := 0;
     sr_Substitutions := 0; sr_Err := None |}.
Definition waiting : list (label (A := string)) := [LEnqueue "a"; LTrack; LBegin false; LGround None].

Definition at_end (ls : list (label (A := string))) : EpochCoordinator nat string :=
  default coord0 (execs ls coord0).

Lemma runs ls : is_Some (execs ls coord0) → Epoch.run coord0 ls (at_end ls).
Proof. intros [c Hc]. unfold at_end. rewrite Hc. by apply execs_run. Qed.

(** The capture enqueued between opening the next epoch and the end of the barrier is
    stamped with the epoch after the one whose barrier grounds it. *)
Lemma mid_flush_stamp :
  batches (at_end (mid_flush ++ [LBegin false; LGround None])) =
    [(1%Z, [{| gi_Value := "a"; gi_Epoch := 1 |}], true); (2%Z, [{| gi_Value := "b"; gi_Epoch := 3 |}], true)].
Proof. vm_compute. reflexivity. Qed.

(** After a failed grounding the epoch is not closed, and a capture enqueued during
    the flush is stamped one too high as well; the failed batch is not retried. *)
Lemma failed_flush_stamp :
  let c := at_end [LEnqueue "a"; LBegin false; LEnqueue "b"; LGround (Some (ErrMsg "disk"));
                   LEnd (Some (grounding_error 1 (ErrMsg "disk"))); LBegin false; LGround None] in
  batches c = [(1%Z, [{| gi_Value := "a"; gi_Epoch := 1 |}], false);
               (1%Z, [{| gi_Value := "b"; gi_Epoch := 2 |}], true)].
Proof. vm_compute. reflexivity. Qed.

Lemma capture_conservation_witness :
  let c := at_end mid_flush in
  enqueued c = handed c ++ in_transit c ++ c_items c ∧ (c_flight c = None → clean c = true → handed c = enqueued c).
Proof. apply (capture_conservation "run-1" env0 mid_flush). apply runs. vm_compute. eauto. Defined.

Lemma epochs_in_order_witness :
  let c := at_end mid_flush in
  closed c = seqZ (adopt env0) (Z.of_nat (length (closed c))) ∧
  c_epoch c = (adopt env0 + Z.of_nat (length (closed c)))%Z ∧
  (c_flight c = None → am_EpochID (AssemblyMetadata (c_env c)) = c_epoch c) ∧
  (slice_epoch (c_env c) <= c_epoch c)%Z.
Proof.
  apply (epochs_in_order "run-1" env0 mid_flush); [|by apply (bool_decide_unpack _); vm_compute|by apply (bool_decide_unpack _); vm_compute].
  apply runs. vm_compute. eauto.
Defined.

Lemma never_stale_at_barrier_witness :
  (ApplyResult result0 1 0 (c_env (at_end waiting))).1 ≠ ErrStaleApplyDropped 2 1 "r".
Proof.
  apply (never_stale_at_barrier "run-1" env0 waiting (at_end waiting)
    {| f_phase := Awaiting None; f_epoch := 1; f_items := [{| gi_Value := "a"; gi_Epoch := 1 |}]; f_jobs := 1 |} None);
    [|by apply (bool_decide_unpack _); vm_compute|by apply (bool_decide_unpack _); vm_compute|vm_compute; reflexivity|reflexivity].
  apply runs. vm_compute. eauto.
Defined.

Lemma stamp_within_one_witness :
  let x := {| gi_Value := "b"; gi_Epoch := 3 |} in gi_Epoch x = 2%Z ∨ gi_Epoch x = wrapu64 (2 + 1).
Proof.
  apply (stamp_within_one "run-1" env0 (mid_flush ++ [LBegin false; LGround None])
    (at_end (mid_flush ++ [LBegin false; LGround None])) (2%Z, [{| gi_Value := "b"; gi_Epoch := 3 |}], true)).
  - apply runs. vm_compute. eauto.
  - rewrite mid_flush_stamp. right. left.
  - left.
Defined.

Lemma barrier_ends_witness :
  let c := at_end waiting in
  (∃ l c', barrier_label l = true ∧ step c l c') ∧
  ∀ ls c', Epoch.run c ls c' → remaining c ≤ length (filter (λ l, barrier_label l = true) ls) →
    ∃ ls1 ls2 c1, ls = ls1 ++ ls2 ∧ Epoch.run c ls1 c1 ∧ c_flight c1 = None.
Proof.
  apply (barrier_ends (at_end waiting)
    {| f_phase := Awaiting None; f_epoch := 1; f_items := [{| gi_Value := "a"; gi_Epoch := 1 |}]; f_jobs := 1 |}).
  vm_compute. reflexivity.
Defined.

Lemma final_epoch_flushes_witness :
  let c := at_end [LEnqueue "a"; LTrack; LEnqueue "b"] in
  let js := [(JobDone None (Some (ErrMsg "lost")) false, zero_time)] in
  ∃ err c', Epoch.run c (LBegin true :: LGround None :: ((λ j, LAwait j.1 j.2) <$> js) ++ [LAwaited; LOpen; LStamp; LEnd err]) c' ∧
    handed c' = enqueued c ∧ enqueued c' = enqueued c ∧ Pending c' = (0, 0) ∧ c_flight c' = None ∧
    (c_epoch c' = wrapu64 (c_epoch c + 1) ∧ epoch_of (c_env c') = wrapu64 (c_epoch c + 1)) ∧
    ∀ u, barrier_begin u c' = None.
Proof.
  apply (final_epoch_flushes "run-1" env0 [LEnqueue "a"; LTrack; LEnqueue "b"]); [|reflexivity..].
  apply runs. vm_compute. eauto.
Defined.
