(* ===== verification/Jobs.v ===== *)
(** * Jobs

    [jobs/job.go], [jobs/store.go] and [jobs/handler.go]: the durable-queue
    vocabulary, its validity checks and the retry delay.

    A state or an event type is the string the code uses, so an unknown value is
    representable and the validity checks are meaningful.  A [map] is the list of
    its bindings in one iteration order; an [any] payload is [None] for [nil] and
    its JSON text otherwise. *)
From S2P Require Import Prelude GoStrings.

(** ** Vocabulary *)
Abbreviation State := string (only parsing).
Definition StateQueued : State := "queued".
Definition StateRunning : State := "running".
Definition StateCompleted : State := "completed".
Definition StateFailed : State := "failed".
Definition StateCancelled : State := "cancelled".

Definition State_Valid (s : State) : bool :=
  bool_decide (s ∈ [StateQueued; StateRunning; StateCompleted; StateFailed; StateCancelled]).

Abbreviation EventType := string (only parsing).
Definition EventCreated : EventType := "created".
Definition EventStarted : EventType := "started".
Definition EventCheckpoint : EventType := "checkpoint".
Definition EventCompleted : EventType := "completed".
Definition EventFailed : EventType := "failed".
Definition EventCancelled : EventType := "cancelled".
Definition EventRetried : EventType := "retried".

Definition EventType_Valid (t : EventType) : bool :=
  bool_decide (t ∈ [EventCreated; EventStarted; EventCheckpoint; EventCompleted; EventFailed;
                    EventCancelled; EventRetried]).

Record Spec := {
  Kind : string;
  Payload : option string;
  Queue : string;
  Priority : Z;
  MaxAttempts : Z;
  Backoff : Duration;
  Timeout : Duration;
  Spec_Labels : list (string * string);
  Spec_Tags : list string;
  CorrelateID : string
}.

Definition labels_valid (labels : list (string * string)) : option gerror :=
  first_error (concat ((λ kv : string * string,
    [check (is_blank kv.1) (ErrMsg "label key required");
     check (is_blank kv.2) (ErrFmt "label %q value required" [kv.1])]) <$> labels)).

Definition tags_valid (tags : list string) : option gerror :=
  first_error ((λ t, check (is_blank t) (ErrMsg "tag must not be empty")) <$> tags).

Definition Spec_Valid (s : Spec) : option gerror :=
  first_error [
    check (is_blank (Kind s)) (ErrMsg "kind required");
    check (bool_decide (Payload s = None)) (ErrMsg "payload required");
    check (is_blank (Queue s)) (ErrMsg "queue required");
    check (MaxAttempts s <? 0)%Z (ErrMsg "max_attempts must be >= 0");
    check (Backoff s <? 0)%Z (ErrMsg "backoff must be >= 0");
    check (24 * hour <? Backoff s)%Z (ErrMsg "backoff must be <= 24h: an absurd backoff is a spec error, not a runtime surprise");
    check (Timeout s <? 0)%Z (ErrMsg "timeout must be >= 0");
    labels_valid (Spec_Labels s);
    tags_valid (Spec_Tags s)].

Record Job := {
  job_ID : string;
  job_Spec : Spec;
  job_State : State;
  Attempt : Z;
  CreatedAt : Time;
  UpdatedAt : Time;
  CompletedAt : Time;
  NextAttemptAt : Time;
  LastError : string;
  job_Labels : list (string * string);
  job_Tags : list string;
  job_Metadata : list (string * string);
  ResumeToken : string
}.

Definition wrap_error (prefix : string) (e : option gerror) : option gerror :=
  ErrWrap prefix <$> e.

Definition Job_Valid (j : Job) : option gerror :=
  first_error [
    check (is_blank (job_ID j)) (ErrMsg "id required");
    wrap_error "spec" (Spec_Valid (job_Spec j));
    check (negb (State_Valid (job_State j))) (ErrFmt "state %q invalid" [job_State j]);
    check (Attempt j <? 0)%Z (ErrMsg "attempt must be >= 0");
    check (time_is_zero (CreatedAt j)) (ErrMsg "created_at required");
    check (negb (time_is_zero (UpdatedAt j)) && (UpdatedAt j <? CreatedAt j)%Z)
      (ErrMsg "updated_at must be after created_at");
    check (negb (time_is_zero (CompletedAt j)) && (CompletedAt j <? CreatedAt j)%Z)
      (ErrMsg "completed_at must be after created_at");
    labels_valid (job_Labels j);
    tags_valid (job_Tags j)].

Record Event := {
  event_ID : string;
  event_JobID : string;
  event_Type : EventType;
  event_State : State;
  Occurred : Time;
  Message : string;
  event_Metadata : list (string * string)
}.

Definition Event_Valid (e : Event) : option gerror :=
  first_error [
    check (is_blank (event_ID e)) (ErrMsg "event id required");
    check (is_blank (event_JobID e)) (ErrMsg "job id required");
    check (negb (EventType_Valid (event_Type e)))
      (ErrFmt "event type %q invalid" [event_Type e]);
    check (time_is_zero (Occurred e)) (ErrMsg "occurred required")].

Record Checkpoint := {
  ckpt_ID : string;
  ckpt_JobID : string;
  ckpt_State : option string;
  Token : string;
  Created : Time
}.

Definition Checkpoint_Valid (c : Checkpoint) : option gerror :=
  first_error [
    check (is_blank (ckpt_ID c)) (ErrMsg "checkpoint id required");
    check (is_blank (ckpt_JobID c)) (ErrMsg "job id required");
    check (bool_decide (ckpt_State c = None)) (ErrMsg "state required");
    check (time_is_zero (Created c)) (ErrMsg "created required")].

#[global] Instance Spec_eq_dec : EqDecision Spec.
Proof. solve_decision. Defined.
#[global] Instance Job_eq_dec : EqDecision Job.
Proof. solve_decision. Defined.
#[global] Instance Event_eq_dec : EqDecision Event.
Proof. solve_decision. Defined.
#[global] Instance Checkpoint_eq_dec : EqDecision Checkpoint.
Proof. solve_decision. Defined.

(** ** Sentinel errors of the store contract *)
Definition ErrNotFound : gerror := ErrSentinel "job not found".
Definition ErrExists : gerror := ErrSentinel "job already exists".
Definition ErrCkptNotFound : gerror := ErrSentinel "checkpoint not found".
Definition ErrConflict : gerror := ErrSentinel "jobs: store transaction conflict".

Record Query := { query_Queue : string; query_State : State; query_Limit : Z }.

(** ** The retry delay *)
Definition maxBackoffBase : Duration := Z.shiftl 1 59 - 1.
Definition backoff_cap : Duration := 5 * minute.

Definition NextBackoff (spec : Spec) (attempt : Z) : Duration :=
  let base := if (Backoff spec <=? 0)%Z then (30 * second)%Z else Backoff spec in
  let base := if (maxBackoffBase <? base)%Z then maxBackoffBase else base in
  let attempt := if (attempt <? 1)%Z then 1%Z else attempt in
  let shift := wrapu64 (attempt - 1) in
  let shift := if (5 <? shift)%Z then 5%Z else shift in
  let d := wrap64 (Z.shiftl base shift) in
  if (backoff_cap <? d)%Z then backoff_cap else d.

(** ** Facts *)
Section validity.
Context (s : Spec) (Hvalid : Spec_Valid s = None).

Lemma Spec_Valid_bounds :
  (0 <= MaxAttempts s ∧ 0 <= Backoff s <= 24 * hour ∧ 0 <= Timeout s)%Z.
Proof.
  revert Hvalid. unfold Spec_Valid. rewrite first_error_None, !Forall_cons, !check_None.
  intros (_ & _ & _ & H1 & H2 & H3 & H4 & _). bool_to_prop. lia.
Qed.
End validity.

(** The exponent the code shifts by. *)
Definition backoff_exponent (attempt : Z) : Z := Z.min 5 (Z.max 0 (attempt - 1)).

Lemma backoff_shift attempt :
  in_int64 attempt →
  (if (5 <? wrapu64 ((if (attempt <? 1)%Z then 1%Z else attempt) - 1))%Z then 5%Z
   else wrapu64 ((if (attempt <? 1)%Z then 1%Z else attempt) - 1)) = backoff_exponent attempt.
Proof.
  intros Ha. unfold in_int64, int64_min, int64_max, backoff_exponent, wrapu64 in *. simpl.
  destruct (Z.ltb_spec attempt 1); simpl.
  - rewrite Z.mod_0_l by lia. simpl. lia.
  - rewrite Z.mod_small by lia. destruct (Z.ltb_spec 5 (attempt - 1)); lia.
Qed.

Lemma shiftl_mul base n : (0 <= n)%Z → Z.shiftl base n = (base * 2 ^ n)%Z.
Proof. apply Z.shiftl_mul_pow2. Qed.

Lemma pow2_exponent attempt : (1 <= 2 ^ backoff_exponent attempt <= 32)%Z.
Proof.
  unfold backoff_exponent. set (n := Z.min 5 (Z.max 0 (attempt - 1))).
  assert (0 <= n <= 5)%Z by (subst n; lia).
  pose proof (Z.pow_le_mono_r 2 n 5). pose proof (Z.pow_le_mono_r 2 0 n).
  change (2 ^ 5)%Z with 32%Z in *. change (2 ^ 0)%Z with 1%Z in *. lia.
Qed.

(** The effective base of the curve. *)
Definition backoff_base (spec : Spec) : Duration :=
  if (Backoff spec <=? 0)%Z then (30 * second)%Z else Backoff spec.

Lemma NextBackoff_curve spec attempt :
  in_int64 attempt → (Backoff spec < 2 ^ 58)%Z →
  NextBackoff spec attempt =
    Z.min backoff_cap (backoff_base spec * 2 ^ backoff_exponent attempt).
Proof.
  intros Ha Hb. unfold NextBackoff. cbv zeta. rewrite (backoff_shift attempt Ha).
  fold (backoff_base spec).
  assert (0 < backoff_base spec < 2 ^ 58)%Z as Hbase.
  { unfold backoff_base, second. destruct (Z.leb_spec (Backoff spec) 0); lia. }
  destruct (Z.ltb_spec maxBackoffBase (backoff_base spec)) as [Hm|_].
  { unfold maxBackoffBase in Hm. change (Z.shiftl 1 59) with (2 ^ 59)%Z in Hm. lia. }
  rewrite shiftl_mul by (unfold backoff_exponent; lia).
  pose proof (pow2_exponent attempt).
  rewrite wrap64_id by (unfold in_int64, int64_min, int64_max; nia).
  destruct (Z.ltb_spec backoff_cap (backoff_base spec * 2 ^ backoff_exponent attempt)); lia.
Qed.

(** For a spec that passes validation and any attempt number, the retry
    delay is the documented curve: the base (30 s when unset) doubled per attempt,
    at most 32 times the base and at most five minutes.  In particular it is
    positive, so a failed attempt is never rescheduled in the past. *)
Theorem NextBackoff_valid spec attempt :
  Spec_Valid spec = None → in_int64 attempt →
  NextBackoff spec attempt =
    Z.min (5 * minute) (Z.min (32 * backoff_base spec)
      (backoff_base spec * 2 ^ Z.max 0 (attempt - 1)))%Z ∧
  (0 < NextBackoff spec attempt <= 5 * minute)%Z.
Proof.
  intros Hv Ha. apply Spec_Valid_bounds in Hv as (_ & Hb & _).
  assert (24 * hour < 2 ^ 58)%Z by (vm_compute; done).
  rewrite NextBackoff_curve by (done || lia).
  assert (0 < backoff_base spec)%Z as Hbase.
  { unfold backoff_base, second. destruct (Z.leb_spec (Backoff spec) 0); lia. }
  pose proof (pow2_exponent attempt) as Hp.
  assert (backoff_base spec * 2 ^ backoff_exponent attempt =
          Z.min (32 * backoff_base spec) (backoff_base spec * 2 ^ Z.max 0 (attempt - 1)))%Z as ->.
  { unfold backoff_exponent. destruct (Z.le_gt_cases (Z.max 0 (attempt - 1)) 5) as [Hle|Hgt].
    - rewrite (Z.min_r 5) by lia. rewrite Z.min_r; [done|].
      pose proof (Z.pow_le_mono_r 2 (Z.max 0 (attempt - 1)) 5). change (2 ^ 5)%Z with 32%Z in *. nia.
    - rewrite (Z.min_l 5) by lia. change (2 ^ 5)%Z with 32%Z. rewrite Z.min_l; [lia|].
      pose proof (Z.pow_le_mono_r 2 5 (Z.max 0 (attempt - 1))). change (2 ^ 5)%Z with 32%Z in *. nia. }
  change backoff_cap with (5 * minute)%Z. split; [done|].
  assert (0 < 5 * minute)%Z by (vm_compute; done).
  assert (0 < 2 ^ Z.max 0 (attempt - 1))%Z by (apply Z.pow_pos_nonneg; lia). nia.
Qed.

(** A spec with a given backoff. *)
Definition spec_with_backoff (d : Duration) : Spec :=
  {| Kind := "sweep"; Payload := Some "{}"; Queue := "knowledge"; Priority := 0; MaxAttempts := 0;
     Backoff := d; Timeout := 0; Spec_Labels := []; Spec_Tags := []; CorrelateID := EmptyString |}.

Lemma NextBackoff_valid_witness :
  Spec_Valid (spec_with_backoff minute) = None ∧
  (0 < NextBackoff (spec_with_backoff minute) 4 <= 5 * minute)%Z.
Proof.
  split; [vm_compute; reflexivity|].
  apply (NextBackoff_valid (spec_with_backoff minute) 4); [vm_compute; reflexivity|].
  unfold in_int64, int64_min, int64_max. lia.
Defined.

(** The clamp of the base does not prevent the overflow it is written for:
    from the sixth attempt on, a base at the clamp (and every larger one) is
    shifted out of [int64] and the delay is negative. *)
Theorem NextBackoff_clamp_wraps spec attempt :
  (maxBackoffBase <= Backoff spec)%Z → (6 <= attempt <= int64_max)%Z →
  NextBackoff spec attempt = (-32)%Z.
Proof.
  intros Hb Ha. unfold NextBackoff. cbv zeta.
  rewrite backoff_shift by (unfold in_int64, int64_min; lia).
  assert (0 < maxBackoffBase)%Z by (vm_compute; done).
  destruct (Z.leb_spec (Backoff spec) 0); [lia|].
  assert ((if (maxBackoffBase <? Backoff spec)%Z then maxBackoffBase else Backoff spec)
          = maxBackoffBase) as -> by (destruct (Z.ltb_spec maxBackoffBase (Backoff spec)); lia).
  unfold backoff_exponent. rewrite Z.min_l by lia. vm_compute. done.
Qed.

Lemma NextBackoff_clamp_wraps_witness :
  NextBackoff (spec_with_backoff int64_max) 6 = (-32)%Z.
Proof.
  apply (NextBackoff_clamp_wraps (spec_with_backoff int64_max) 6);
    [|split]; vm_compute; discriminate.
Defined.
