(* ===== verification/KV.v ===== *)
(** * KV

    The interface of the embedded key-value engine (Badger, a third-party
    package) that [context/jobsstore] relies on, as a class of operations
    ([KV]) with the laws its documentation states ([KVLaws]): a transaction reads
    its own writes, and an iterator over a prefix yields the keys with that prefix
    in byte order.  [gmap_kv] is an instance.

    [db_update] runs a transaction body: an error or a failed commit leaves the
    database unchanged, and transactions are serializable, so a run of the store
    is a sequence of committed bodies. *)
From S2P Require Import Prelude GoStrings.

Class KV (T V : Type) := {
  kget : string → T → option V;
  kset : string → V → T → T;
  kdel : string → T → T;
  kscan : string → T → list (string * V)
}.
#[global] Hint Mode KV ! - : typeclass_instances.

Class KVLaws (T V : Type) `{KV T V} : Prop := {
  kget_kset k (v : V) (t : T) k' : kget k' (kset k v t) = if decide (k = k') then Some v else kget k' t;
  kget_kdel k (t : T) k' : kget k' (kdel k t) = if decide (k = k') then None else kget k' t;
  kscan_spec p (t : T) k (v : V) : (k, v) ∈ kscan p t ↔ kget k t = Some v ∧ has_prefix p k = true;
  kscan_sorted p (t : T) : StronglySorted str_lt ((kscan p t).*1)
}.

(** ** Transactions *)

(** What the engine does with a finished transaction body. *)
Inductive txn_outcome := Commit | Conflict | Fault (e : gerror).

Definition badger_ErrConflict : gerror := ErrSentinel "Transaction Conflict. Please retry".

Definition db_update {T A} (o : txn_outcome) (body : T → result (T * A)) (s : T) : result A * T :=
  match body s with
  | Err e => (Err e, s)
  | Ok (s', a) =>
      match o with
      | Commit => (Ok a, s')
      | Conflict => (Err badger_ErrConflict, s)
      | Fault e => (Err e, s)
      end
  end.

(** ** The map instance *)
Section gmap_kv.
Context {V : Type}.

Definition key_le (a b : string * V) : Prop := String.le a.1 b.1.

#[global] Instance key_le_dec : RelDecision key_le.
Proof. intros a b. unfold key_le. apply _. Defined.

#[global] Instance gmap_kv : KV (gmap string V) V := {
  kget k m := m !! k;
  kset k v m := <[k := v]> m;
  kdel k m := delete k m;
  kscan p m := merge_sort key_le (filter (λ kv, has_prefix p kv.1 = true) (map_to_list m))
}.

#[local] Instance key_le_trans : Transitive key_le.
Proof. intros a b c. unfold key_le. apply transitivity. Qed.

#[local] Instance key_le_total : Total key_le.
Proof. intros a b. unfold key_le. apply total, _. Qed.

Lemma sorted_keys_strict (l : list (string * V)) :
  StronglySorted key_le l → NoDup l.*1 → StronglySorted str_lt l.*1.
Proof.
  induction 1 as [|x l Hl IH Hx]; csimpl; [constructor|].
  intros [Hn Hnd]%NoDup_cons. constructor; [auto|].
  apply Forall_fmap. eapply Forall_impl; [apply Forall_and; split; [exact Hx|]|].
  - apply Forall_forall. intros y Hy. exact (list_elem_of_fmap_2 fst _ _ Hy).
  - intros y [Hle Hy]. apply str_le_lt; [done|]. simpl. by intros Heq; rewrite Heq in Hn.
Qed.

#[global] Instance gmap_kv_laws : KVLaws (gmap string V) V.
Proof.
  split; simpl.
  - intros. apply lookup_insert.
  - intros. apply lookup_delete.
  - intros p t k v. rewrite merge_sort_Permutation, list_elem_of_filter, elem_of_map_to_list.
    naive_solver.
  - intros p t. apply sorted_keys_strict.
    + apply StronglySorted_merge_sort; apply _.
    + rewrite merge_sort_Permutation.
      eapply sublist_NoDup; [apply (NoDup_fst_map_to_list t)|].
      apply fmap_sublist. apply sublist_filter.
Qed.
End gmap_kv.
