(* ===== verification/JobsStore.v ===== *)
(** * JobsStore

    [context/jobsstore/jobsstore.go]: the durable implementation of the
    [jobs.Store] contract over the key-value engine of [KV].

    Stored values are tagged by what the code marshals ([Value]); marshalling and
    unmarshalling are the constructors and matches on them.  Each method takes the
    [Env] of its transaction retries and the clock readings it makes. *)
From S2P Require Import Prelude GoStrings Jobs KV.

Inductive Value :=
| VJob (j : Job)
| VId (id : string)
| VEvent (e : Event)
| VCkpt (c : Checkpoint)
| VSeq (n : Z).

(** ** Key encoding *)
Definition colon : ascii := ":"%char.

Definition jobKey (id : string) : string := "j:" +:+ id.

Definition clampPriority (p : Z) : Z :=
  let p := if (p <? 0)%Z then 0%Z else p in
  if (999999 <? p)%Z then 999999%Z else p.

Definition readyIndexKey (j : Job) : string :=
  "q:" +:+ Queue (job_Spec j) +:+
  ":" +:+ fmt_pad 6 (999999 - clampPriority (Priority (job_Spec j))) +:+
  ":" +:+ fmt_pad 20 (unix_nano (CreatedAt j)) +:+
  ":" +:+ job_ID j.

Definition readyIndexPrefix (queue : string) : string := "q:" +:+ queue +:+ ":".

Definition runningIndexKey (worker jobID : string) : string :=
  "w:" +:+ worker +:+ ":" +:+ jobID.

Definition runningIndexPrefix : string := "w:".

Definition eventKey (jobID : string) (seq : Z) : string :=
  "e:" +:+ jobID +:+ ":" +:+ fmt_pad 20 seq.

Definition eventPrefix (jobID : string) : string := "e:" +:+ jobID +:+ ":".
Definition eventSeqKey (jobID : string) : string := "n:" +:+ jobID.
Definition correlateKey (correlateID : string) : string := "x:" +:+ correlateID.
Definition checkpointKey (jobID : string) : string := "c:" +:+ jobID.

(** [parseRunningIndexKey]: the worker and the job id of a running-index key. *)
Definition parseRunningIndexKey (key : string) : result (string * string) :=
  let rest := trim_prefix "w:" key in
  match last_index colon rest with
  | None => Err (ErrFmt "jobsstore: malformed running index key %q" [key])
  | Some i =>
      if decide (i = 0) then Err (ErrFmt "jobsstore: malformed running index key %q" [key])
      else if decide (i = String.length rest - 1)
      then Err (ErrFmt "jobsstore: malformed running index key %q" [key])
      else Ok (str_take i rest, str_drop (S i) rest)
  end.

Definition maxAttempts (j : Job) : Z :=
  if (MaxAttempts (job_Spec j) <=? 0)%Z then 1%Z else MaxAttempts (job_Spec j).

Definition newEventID (jobID tag : string) (now : Time) : string :=
  jobID +:+ ":" +:+ tag +:+ ":" +:+ fmt_pad 20 (unix_nano now).

Definition badger_ErrKeyNotFound : gerror := ErrSentinel "Key not found".

Definition errIsNotFound (e : gerror) : bool :=
  errors_is e badger_ErrKeyNotFound || errors_is e ErrNotFound || errors_is e ErrCkptNotFound.

Definition json_error : gerror := ErrMsg "json: cannot unmarshal".

(** ** Bounded retries *)
Definition maxConflictRetries : nat := 50.

(** What one method call meets: [ctx.Err()] before each try, the engine's answer
    to each commit, and the clock readings the call makes. *)
Record Env := {
  ctx_err : nat → option gerror;
  outcome : nat → txn_outcome;
  clock : nat → Time
}.

Fixpoint retry_loop {T A} (tries i : nat) (env : Env) (body : T → result (T * A)) (s : T)
    : result A * T :=
  match tries with
  | O => (Err (ErrFmt "jobsstore: transaction retried %d times, still conflicting" ["50"]), s)
  | S tries' =>
      match ctx_err env i with
      | Some e => (Err e, s)
      | None =>
          match db_update (outcome env i) body s with
          | (Err e, s') =>
              if errors_is e badger_ErrConflict then retry_loop tries' (S i) env body s'
              else (Err e, s')
          | r => r
          end
      end
  end.

Definition retryTxnCtx {T A} (env : Env) (body : T → result (T * A)) (s : T) : result A * T :=
  retry_loop maxConflictRetries 0 env body s.

Section store.
Context {T : Type} `{KVT : !KV T Value}.

(** ** Records *)
Definition loadTxn (id : string) (t : T) : result Job :=
  match kget (jobKey id) t with
  | None => Err ErrNotFound
  | Some (VJob j) => Ok j
  | Some _ => Err json_error
  end.

Definition Load (id : string) (t : T) : result Job := loadTxn id t.

Definition with_UpdatedAt (now : Time) (j : Job) : Job :=
  {| job_ID := job_ID j; job_Spec := job_Spec j; job_State := job_State j; Attempt := Attempt j;
     CreatedAt := CreatedAt j; UpdatedAt := now; CompletedAt := CompletedAt j;
     NextAttemptAt := NextAttemptAt j; LastError := LastError j; job_Labels := job_Labels j;
     job_Tags := job_Tags j; job_Metadata := job_Metadata j; ResumeToken := ResumeToken j |}.

Definition create_correlate (job : Job) (t : T) : result T :=
  let c := CorrelateID (job_Spec job) in
  if bool_decide (c = EmptyString) then Ok t
  else match kget (correlateKey c) t with
       | Some _ => Err ErrExists
       | None => Ok (kset (correlateKey c) (VId (job_ID job)) t)
       end.

Definition create_txn (job : Job) (t : T) : result (T * unit) :=
  match kget (jobKey (job_ID job)) t with
  | Some _ => Err ErrExists
  | None =>
      let! t1 := create_correlate job t in
      let t2 := kset (jobKey (job_ID job)) (VJob job) t1 in
      if bool_decide (job_State job = StateQueued)
      then Ok (kset (readyIndexKey job) (VId (job_ID job)) t2, ())
      else Ok (t2, ())
  end.

Definition Create (env : Env) (job : Job) (t : T) : result unit * T :=
  match Job_Valid job with
  | Some e => (Err (ErrWrap "jobsstore: create" e), t)
  | None =>
      let job := if time_is_zero (UpdatedAt job) then with_UpdatedAt (clock env 0) job else job in
      retryTxnCtx env (create_txn job) t
  end.

Definition update_txn (job : Job) (t : T) : result (T * unit) :=
  let! old := loadTxn (job_ID job) t in
  let t1 := kset (jobKey (job_ID job)) (VJob job) t in
  let t2 := if bool_decide (job_State old = StateQueued) then kdel (readyIndexKey old) t1 else t1 in
  let t3 := if bool_decide (job_State job = StateQueued)
            then kset (readyIndexKey job) (VId (job_ID job)) t2 else t2 in
  Ok (t3, ()).

Definition Update (env : Env) (job : Job) (t : T) : result unit * T :=
  match Job_Valid job with
  | Some e => (Err (ErrWrap "jobsstore: update" e), t)
  | None => retryTxnCtx env (update_txn job) t
  end.

Fixpoint list_loop (q : Query) (items : list (string * Value)) (out : list Job)
    : result (list Job) :=
  match items with
  | [] => Ok out
  | (_, VJob job) :: items' =>
      if negb (bool_decide (query_Queue q = EmptyString)) &&
         negb (bool_decide (Queue (job_Spec job) = query_Queue q)) then list_loop q items' out
      else if negb (bool_decide (query_State q = EmptyString)) &&
              negb (bool_decide (job_State job = query_State q)) then list_loop q items' out
      else
        let out' := out ++ [job] in
        if (0 <? query_Limit q)%Z && (query_Limit q <=? Z.of_nat (length out'))%Z then Ok out'
        else list_loop q items' out'
  | _ :: _ => Err json_error
  end.

Definition List_ (q : Query) (t : T) : result (list Job) := list_loop q (kscan "j:" t) [].

(** ** Claim *)

(** The transition of a claimed record. *)
Definition flip_running (now : Time) (j : Job) : Job :=
  {| job_ID := job_ID j; job_Spec := job_Spec j; job_State := StateRunning;
     Attempt := wrap64 (Attempt j + 1);
     CreatedAt := CreatedAt j; UpdatedAt := now; CompletedAt := CompletedAt j;
     NextAttemptAt := NextAttemptAt j; LastError := LastError j; job_Labels := job_Labels j;
     job_Tags := job_Tags j; job_Metadata := job_Metadata j; ResumeToken := ResumeToken j |}.

(** [string(v)] of an index value. *)
Definition value_id (v : Value) : string :=
  match v with VId id => id | _ => EmptyString end.

Definition not_due (now : Time) (j : Job) : bool :=
  negb (time_is_zero (NextAttemptAt j)) && (now <? NextAttemptAt j)%Z.

(** The loop over the iterator's items; the iterator is a snapshot of the
    transaction taken when it was created. *)
Fixpoint claim_loop (worker : string) (now : Time) (limit : Z) (items : list (string * Value))
    (claimed : list Job) (t : T) : result (T * list Job) :=
  match items with
  | [] => Ok (t, claimed)
  | (key, v) :: items' =>
      if (limit <=? Z.of_nat (length claimed))%Z then Ok (t, claimed)
      else
        match loadTxn (value_id v) t with
        | Err e =>
            if errIsNotFound e
            then claim_loop worker now limit items' claimed (kdel key t)
            else Err e
        | Ok canonical =>
            if negb (bool_decide (job_State canonical = StateQueued))
            then claim_loop worker now limit items' claimed (kdel key t)
            else if not_due now canonical
            then claim_loop worker now limit items' claimed t
            else
              let job := flip_running now canonical in
              let t1 := kset (jobKey (job_ID job)) (VJob job) t in
              let t2 := kdel key t1 in
              let t3 := kset (runningIndexKey worker (job_ID job)) (VId (job_ID job)) t2 in
              claim_loop worker now limit items' (claimed ++ [job]) t3
        end
  end.

Definition claimFromQueue (worker queue : string) (now : Time) (limit : Z)
    (claimed : list Job) (t : T) : result (T * list Job) :=
  claim_loop worker now limit (kscan (readyIndexPrefix queue) t) claimed t.

Fixpoint claim_queues (worker : string) (now : Time) (limit : Z) (queues : list string)
    (claimed : list Job) (t : T) : result (T * list Job) :=
  match queues with
  | [] => Ok (t, claimed)
  | queue :: queues' =>
      if (limit <=? Z.of_nat (length claimed))%Z then Ok (t, claimed)
      else
        let! (t', claimed') := claimFromQueue worker queue now limit claimed t in
        claim_queues worker now limit queues' claimed' t'
  end.

Definition Claim (env : Env) (worker : string) (queues : list string) (limit : Z) (t : T)
    : result (list Job) * T :=
  if bool_decide (worker = EmptyString)
  then (Err (ErrMsg "jobsstore: claim: worker required"), t)
  else if (limit <=? 0)%Z then (Ok [], t)
  else retryTxnCtx env (claim_queues worker (clock env 0) limit queues []) t.

(** ** Events and checkpoints *)
Definition appendEventTxn (e : Event) (t : T) : result (T * unit) :=
  let! seq := match kget (eventSeqKey (event_JobID e)) t with
              | None => Ok 0%Z
              | Some (VSeq n) => Ok n
              | Some _ => Err (ErrMsg "strconv.ParseUint: invalid syntax")
              end in
  let seq := wrapu64 (seq + 1) in
  let t1 := kset (eventKey (event_JobID e) seq) (VEvent e) t in
  Ok (kset (eventSeqKey (event_JobID e)) (VSeq seq) t1, ()).

Definition AppendEvent (env : Env) (e : Event) (t : T) : result unit * T :=
  match Event_Valid e with
  | Some err => (Err (ErrWrap "jobsstore: append event" err), t)
  | None => retryTxnCtx env (appendEventTxn e) t
  end.

Fixpoint events_loop (items : list (string * Value)) : result (list Event) :=
  match items with
  | [] => Ok []
  | (_, VEvent e) :: items' => let! es := events_loop items' in Ok (e :: es)
  | _ :: _ => Err json_error
  end.

Definition Events (jobID : string) (t : T) : result (list Event) :=
  events_loop (kscan (eventPrefix jobID) t).

Definition save_txn (c : Checkpoint) (t : T) : result (T * unit) :=
  let t1 := match kget (checkpointKey (ckpt_JobID c)) t with
            | Some _ => kdel (checkpointKey (ckpt_JobID c)) t
            | None => t
            end in
  Ok (kset (checkpointKey (ckpt_JobID c)) (VCkpt c) t1, ()).

Definition SaveCheckpoint (env : Env) (c : Checkpoint) (t : T) : result unit * T :=
  match Checkpoint_Valid c with
  | Some err => (Err (ErrWrap "jobsstore: save checkpoint" err), t)
  | None => retryTxnCtx env (save_txn c) t
  end.

Definition LoadCheckpoint (jobID : string) (t : T) : result Checkpoint :=
  match kget (checkpointKey jobID) t with
  | None => Err ErrCkptNotFound
  | Some (VCkpt c) => Ok c
  | Some _ => Err json_error
  end.

Definition hasCheckpointTxn (jobID : string) (t : T) : bool :=
  bool_decide (is_Some (kget (checkpointKey jobID) t)).

(** ** Crash recovery *)
Definition interrupted_event (j : Job) (now idnow : Time) : Event :=
  {| event_ID := newEventID (job_ID j) "interrupted" idnow; event_JobID := job_ID j;
     event_Type := EventFailed; event_State := StateFailed; Occurred := now;
     Message := "interrupted by restart"; event_Metadata := [] |}.

Definition requeued_event (j : Job) (now idnow : Time) (resumed : bool) : Event :=
  {| event_ID := newEventID (job_ID j) "requeued" idnow; event_JobID := job_ID j;
     event_Type := EventRetried; event_State := StateQueued; Occurred := now;
     Message := "requeued after interruption";
     event_Metadata := [("resumed", if resumed then "true" else "false")] |}.

Definition interrupted_job (now : Time) (j : Job) : Job :=
  {| job_ID := job_ID j; job_Spec := job_Spec j; job_State := StateFailed; Attempt := Attempt j;
     CreatedAt := CreatedAt j; UpdatedAt := now; CompletedAt := now;
     NextAttemptAt := NextAttemptAt j; LastError := "interrupted by restart";
     job_Labels := job_Labels j; job_Tags := job_Tags j; job_Metadata := job_Metadata j;
     ResumeToken := ResumeToken j |}.

Definition requeued_job (now : Time) (resumed : bool) (j : Job) : Job :=
  {| job_ID := job_ID j; job_Spec := job_Spec j; job_State := StateQueued; Attempt := Attempt j;
     CreatedAt := CreatedAt j; UpdatedAt := now; CompletedAt := zero_time;
     NextAttemptAt := now + NextBackoff (job_Spec j) (Attempt j); LastError := LastError j;
     job_Labels := job_Labels j; job_Tags := job_Tags j; job_Metadata := job_Metadata j;
     ResumeToken := if resumed then job_ID j else ResumeToken j |}.

Definition attempts_remain (j : Job) : bool := (Attempt j <? Z.max (maxAttempts j) 1)%Z.

Definition recoverOne_txn (worker jobID : string) (now : Time) (clk : nat → Time) (t : T)
    : result (T * unit) :=
  let! canonical := loadTxn jobID t in
  let t1 := kdel (runningIndexKey worker jobID) t in
  if negb (bool_decide (job_State canonical = StateRunning)) then Ok (t1, ())
  else
    let failed := interrupted_job now canonical in
    let! (t2, _) := appendEventTxn (interrupted_event failed now (clk 0)) t1 in
    let t3 := kset (jobKey (job_ID failed)) (VJob failed) t2 in
    if attempts_remain failed then
      let resumed := hasCheckpointTxn (job_ID failed) t3 in
      let queued := requeued_job now resumed failed in
      let t4 := kset (jobKey (job_ID queued)) (VJob queued) t3 in
      let t5 := kset (readyIndexKey queued) (VId (job_ID queued)) t4 in
      appendEventTxn (requeued_event queued now (clk 1) resumed) t5
    else Ok (t3, ()).

Definition recoverOne (env : Env) (worker : string) (job : Job) (now : Time) (t : T)
    : result unit * T :=
  retryTxnCtx env (recoverOne_txn worker (job_ID job) now (clock env)) t.

(** The read pass: the running-index entries whose job exists. *)
Fixpoint find_interrupted (items : list (string * Value)) (t : T) : result (list (string * Job)) :=
  match items with
  | [] => Ok []
  | (key, _) :: items' =>
      let! (worker, keyJobID) := parseRunningIndexKey key in
      match loadTxn keyJobID t with
      | Err e => if errIsNotFound e then find_interrupted items' t else Err e
      | Ok job => let! rest := find_interrupted items' t in Ok ((worker, job) :: rest)
      end
  end.

Fixpoint recover_all (envs : nat → Env) (i : nat) (now : Time) (found : list (string * Job)) (t : T)
    : result unit * T :=
  match found with
  | [] => (Ok (), t)
  | (worker, job) :: found' =>
      match recoverOne (envs i) worker job now t with
      | (Err e, t') => (Err e, t')
      | (Ok _, t') => recover_all envs (S i) now found' t'
      end
  end.

Definition recover (envs : nat → Env) (now : Time) (t : T) : result unit * T :=
  match find_interrupted (kscan runningIndexPrefix t) t with
  | Err e => (Err e, t)
  | Ok found => recover_all envs 0 now found t
  end.
End store.
