(* ===== verification/JobsStoreInv.v ===== *)
(** * JobsStoreInv

    The invariant of the jobs store ([Inv]): records, ready index and running
    index agree.  Every method preserves it ([Inv_step], [Inv_reachable]), under
    the two naming conditions of the key encoding, that queue names and job ids
    contain no colon ([named]). *)
From S2P Require Import Prelude GoStrings Jobs KV JobsStore.

(** ** Key encoding *)
Definition no_colon (s : string) : Prop := contains_byte colon s = false.

Record named (j : Job) : Prop := {
  named_id : job_ID j ≠ EmptyString;
  named_id_colon : no_colon (job_ID j);
  named_queue : no_colon (Queue (job_Spec j))
}.

Lemma jobKey_inj a b : jobKey a = jobKey b → a = b.
Proof. unfold jobKey. apply (inj (String.app "j:")). Qed.

Lemma colon_app s : ":" +:+ s = String colon s.
Proof. done. Qed.

Lemma readyIndexKey_parts j j' :
  no_colon (Queue (job_Spec j)) → no_colon (Queue (job_Spec j')) →
  readyIndexKey j = readyIndexKey j' →
  Queue (job_Spec j) = Queue (job_Spec j') ∧ job_ID j = job_ID j'.
Proof.
  unfold readyIndexKey. intros Hq Hq' Heq%(inj (String.app "q:")).
  rewrite !colon_app in Heq.
  apply sep_inj in Heq as [Hqq Heq]; [|done..].
  apply sep_inj in Heq as [_ Heq]; [|apply fmt_pad_no_colon..].
  apply sep_inj in Heq as [_ Heq]; [|apply fmt_pad_no_colon..].
  done.
Qed.

(** Keys of one queue never match another queue's prefix. *)
Lemma readyIndexPrefix_spec q j :
  no_colon q → no_colon (Queue (job_Spec j)) →
  has_prefix (readyIndexPrefix q) (readyIndexKey j) = true ↔ Queue (job_Spec j) = q.
Proof.
  intros Hq Hj. rewrite has_prefix_spec. unfold readyIndexPrefix, readyIndexKey. split.
  - intros [t Heq]. rewrite !str_app_assoc in Heq. apply (inj (String.app "q:")) in Heq.
    rewrite !colon_app in Heq. change (String colon EmptyString +:+ t) with (String colon t) in Heq.
    by apply sep_inj in Heq as [? _].
  - intros <-. eexists. rewrite !str_app_assoc. done.
Qed.

Lemma readyIndexPrefix_q q k :
  has_prefix (readyIndexPrefix q) k = true → has_prefix "q:" k = true.
Proof.
  rewrite !has_prefix_spec. unfold readyIndexPrefix. intros [t ->].
  rewrite !str_app_assoc. eauto.
Qed.

Lemma readyIndexKey_q j : has_prefix "q:" (readyIndexKey j) = true.
Proof. apply has_prefix_app. Qed.

Lemma runningIndexKey_w w id : has_prefix "w:" (runningIndexKey w id) = true.
Proof. apply has_prefix_app. Qed.

(** The running-index key is parsed back to the worker and the job id it
    was built from, for any worker name (colons included) and any non-empty job
    id without a colon. *)
Theorem parse_running_roundtrip w id :
  w ≠ EmptyString → id ≠ EmptyString → no_colon id →
  parseRunningIndexKey (runningIndexKey w id) = Ok (w, id).
Proof.
  intros Hw Hid Hc. unfold parseRunningIndexKey, runningIndexKey.
  rewrite trim_prefix_app, colon_app, last_index_app by done.
  rewrite decide_False by by destruct w.
  rewrite decide_False.
  2:{ rewrite str_length_app. simpl. destruct id; simpl; [done|lia]. }
  rewrite str_take_app. f_equal. f_equal.
  change (String colon id) with (String colon EmptyString +:+ id).
  rewrite <- str_app_assoc.
  replace (S (String.length w)) with (String.length (w +:+ String colon EmptyString)).
  - apply str_drop_app.
  - rewrite str_length_app. simpl. lia.
Qed.

Lemma parse_running_roundtrip_witness :
  parseRunningIndexKey (runningIndexKey "host:worker-0" "job-1") = Ok ("host:worker-0", "job-1").
Proof. apply (parse_running_roundtrip "host:worker-0" "job-1"); done. Defined.

Lemma runningIndexKey_inj w id w' id' :
  no_colon id → no_colon id' →
  runningIndexKey w id = runningIndexKey w' id' → w = w' ∧ id = id'.
Proof.
  intros Hid Hid' Heq. unfold runningIndexKey in Heq. apply (inj (String.app "w:")) in Heq.
  rewrite !colon_app in Heq.
  assert (String.length w = String.length w') as Hlen.
  { pose proof (f_equal (last_index colon) Heq) as Hl. rewrite !last_index_app in Hl by done.
    congruence. }
  assert (w = w') as ->.
  { by rewrite <- (str_take_app w (String colon id)), Heq, Hlen, str_take_app. }
  split; [done|]. apply (inj (String.app w')) in Heq. congruence.
Qed.

(** Keys of different families differ. *)
Ltac key_clash :=
  match goal with
  | H : ?a = ?b :> string |- _ => solve [unfold jobKey, readyIndexKey, runningIndexKey, eventKey,
      eventSeqKey, correlateKey, checkpointKey in H; discriminate H]
  | H : has_prefix ?p ?k = true |- _ => solve [discriminate H]
  end.

(** Case analysis on the keys of the writes. *)
Ltac kv_cases :=
  repeat (rewrite kget_kset || rewrite kget_kdel);
  repeat case_decide; destruct_and?; subst; try key_clash;
  repeat match goal with H : jobKey _ = jobKey _ |- _ => apply jobKey_inj in H end;
  try done; try congruence.

Section inv.
Context {T : Type} `{KVT : !KV T Value} `{!KVLaws T Value}.
Implicit Types t : T.

(** The event counters hold numbers. *)
Definition seq_typed (t : T) : Prop :=
  ∀ id v, kget (eventSeqKey id) t = Some v → ∃ n, v = VSeq n.

Record Inv (t : T) : Prop := {
  inv_job id v : kget (jobKey id) t = Some v → ∃ j, v = VJob j ∧ job_ID j = id ∧ named j;
  inv_ready k v : has_prefix "q:" k = true →
    kget k t = Some v ↔
      ∃ j, loadTxn (job_ID j) t = Ok j ∧ job_State j = StateQueued ∧
           k = readyIndexKey j ∧ v = VId (job_ID j);
  inv_running k v : has_prefix "w:" k = true → kget k t = Some v →
    ∃ w id, k = runningIndexKey w id ∧ w ≠ EmptyString ∧ id ≠ EmptyString ∧ no_colon id ∧
            v = VId id;
  inv_running_complete j : loadTxn (job_ID j) t = Ok j → job_State j = StateRunning →
    ∃ w, w ≠ EmptyString ∧ kget (runningIndexKey w (job_ID j)) t = Some (VId (job_ID j));
  inv_seq : seq_typed t
}.

Lemma load_spec t id j : loadTxn id t = Ok j ↔ kget (jobKey id) t = Some (VJob j).
Proof. unfold loadTxn. destruct (kget (jobKey id) t) as [[]|]; naive_solver. Qed.

Lemma inv_load t id j : Inv t → loadTxn id t = Ok j → job_ID j = id ∧ named j.
Proof. intros Hi Hl%load_spec. destruct (inv_job _ Hi _ _ Hl) as (? & ? & ? & ?). naive_solver. Qed.

(** The result of a load is a record or [ErrNotFound]. *)
Lemma inv_load_cases t id :
  Inv t → (∃ j, loadTxn id t = Ok j) ∨ (loadTxn id t = Err ErrNotFound ∧ kget (jobKey id) t = None).
Proof.
  intros Hi. unfold loadTxn. destruct (kget (jobKey id) t) eqn:E; [|auto].
  destruct (inv_job _ Hi _ _ E) as (j & -> & _). eauto.
Qed.

(** Writes outside the indexed families keep the invariant. *)
Lemma Inv_frame t t' :
  Inv t →
  (∀ k, has_prefix "j:" k = true ∨ has_prefix "q:" k = true ∨ has_prefix "w:" k = true →
        kget k t' = kget k t) →
  seq_typed t' →
  Inv t'.
Proof.
  intros Hi Hk Hseq.
  assert (∀ id, kget (jobKey id) t' = kget (jobKey id) t) as Hj
    by (intros; apply Hk; left; apply has_prefix_app).
  assert (∀ id, loadTxn id t' = loadTxn id t) as Hl
    by (intros; unfold loadTxn; by rewrite Hj).
  destruct Hi as [H1 H2 H3 H4 H5]. split; [..|done].
  - intros id v. rewrite Hj. apply H1.
  - intros k v Hp. rewrite Hk by auto. rewrite H2 by done. by setoid_rewrite Hl.
  - intros k v Hp. rewrite Hk by auto. by apply H3.
  - intros j. rewrite Hl. intros Hj' Hs. destruct (H4 j Hj' Hs) as (w & ? & ?).
    exists w. rewrite Hk by (right; right; apply runningIndexKey_w). done.
Qed.

(** Writing the record of one job, with its index entries moved along, keeps the
    invariant. *)
Lemma Inv_set_job t t' j :
  Inv t → named j →
  kget (jobKey (job_ID j)) t' = Some (VJob j) →
  (∀ id, id ≠ job_ID j → kget (jobKey id) t' = kget (jobKey id) t) →
  (∀ k v, has_prefix "q:" k = true → kget k t' = Some v ↔
     (job_State j = StateQueued ∧ k = readyIndexKey j ∧ v = VId (job_ID j)) ∨
     (v ≠ VId (job_ID j) ∧ kget k t = Some v)) →
  (∀ k v, has_prefix "w:" k = true → kget k t' = Some v → kget k t = Some v ∨
     ∃ w, w ≠ EmptyString ∧ k = runningIndexKey w (job_ID j) ∧ v = VId (job_ID j)) →
  (∀ w id, no_colon id → id ≠ job_ID j →
     kget (runningIndexKey w id) t' = kget (runningIndexKey w id) t) →
  (job_State j = StateRunning →
     ∃ w, w ≠ EmptyString ∧ kget (runningIndexKey w (job_ID j)) t' = Some (VId (job_ID j))) →
  seq_typed t' →
  Inv t'.
Proof.
  intros Hi Hn Hj Ho Hq Hw Hw' Hrun Hseq.
  assert (∀ id, id ≠ job_ID j → loadTxn id t' = loadTxn id t) as Hl
    by (intros; unfold loadTxn; by rewrite Ho).
  assert (loadTxn (job_ID j) t' = Ok j) as Hlj by by apply load_spec.
  split; [..|done].
  - intros id v Hk. destruct (decide (id = job_ID j)) as [->|Hne].
    + rewrite Hj in Hk. simplify_eq. eauto.
    + rewrite Ho in Hk by done. by apply (inv_job _ Hi).
  - intros k v Hp. rewrite Hq, (inv_ready _ Hi) by done. split.
    + intros [(? & ? & ?)|(Hv & j' & Hl' & ? & ? & ->)]; [eauto 10|].
      exists j'. rewrite Hl by congruence. auto.
    + intros (j' & Hl' & Hs & -> & ->). destruct (decide (job_ID j' = job_ID j)) as [Heq|Hne].
      * rewrite Heq, Hlj in Hl'. simplify_eq. auto.
      * right. rewrite Hl in Hl' by done. split; [congruence|]. eauto.
  - intros k v Hp Hk. destruct (Hw _ _ Hp Hk) as [?|(w & ? & -> & ->)].
    + by apply (inv_running _ Hi).
    + destruct Hn. eauto 10.
  - intros j' Hl' Hs. destruct (decide (job_ID j' = job_ID j)) as [Heq|Hne].
    + rewrite Heq, Hlj in Hl'. simplify_eq. auto.
    + rewrite Hl in Hl' by done. destruct (inv_load _ _ _ Hi Hl') as [_ Hn'].
      destruct (inv_running_complete _ Hi _ Hl' Hs) as (w & ? & ?).
      exists w. rewrite Hw' by (apply Hn' || done). done.
Qed.

(** The ready-index entries that name a job are its own, when it is queued. *)
Lemma ready_of_id t k id :
  Inv t → has_prefix "q:" k = true → kget k t = Some (VId id) →
  ∃ j, loadTxn id t = Ok j ∧ job_ID j = id ∧ job_State j = StateQueued ∧ k = readyIndexKey j.
Proof.
  intros Hi Hp Hk. apply (inv_ready _ Hi) in Hk as (j & Hl & Hs & -> & Hv); [|done].
  simplify_eq. eauto 10.
Qed.

(** ** Retries *)
Lemma retry_loop_cases {A} tries i env (body : T → result (T * A)) t :
  let '(r, t') := retry_loop tries i env body t in
  (t' = t ∧ ∃ e, r = Err e) ∨ (∃ a, body t = Ok (t', a) ∧ r = Ok a).
Proof.
  revert i; induction tries as [|tries IH]; intros i; simpl; [eauto|].
  destruct (ctx_err env i); [eauto|]. unfold db_update.
  destruct (body t) as [[t1 a]|e] eqn:Hb.
  - destruct (outcome env i) as [| |e]; [eauto|..].
    + destruct (errors_is _ _); [apply IH|eauto].
    + destruct (errors_is _ _); [apply IH|eauto].
  - destruct (errors_is _ _); [apply IH|eauto].
Qed.

(** A method either leaves the store unchanged and fails, or commits its body once. *)
Lemma retry_cases {A} env (body : T → result (T * A)) t r t' :
  retryTxnCtx env body t = (r, t') →
  (t' = t ∧ ∃ e, r = Err e) ∨ (∃ a, body t = Ok (t', a) ∧ r = Ok a).
Proof.
  intros Hr. pose proof (retry_loop_cases maxConflictRetries 0 env body t) as H.
  unfold retryTxnCtx in Hr. by rewrite Hr in H.
Qed.

(** ** Records *)

(** The store after a write of one record, when the running index and the event
    counters are untouched. *)
Lemma Inv_write_job t t' j :
  Inv t → named j → job_State j ≠ StateRunning →
  (∀ id, kget (jobKey id) t' = if decide (id = job_ID j) then Some (VJob j) else kget (jobKey id) t) →
  (∀ k v, has_prefix "q:" k = true → kget k t' = Some v ↔
     (job_State j = StateQueued ∧ k = readyIndexKey j ∧ v = VId (job_ID j)) ∨
     (v ≠ VId (job_ID j) ∧ kget k t = Some v)) →
  (∀ k, has_prefix "w:" k = true ∨ has_prefix "n:" k = true → kget k t' = kget k t) →
  Inv t'.
Proof.
  intros Hi Hn Hs Hj Hq Hk.
  apply (Inv_set_job t t' j); [done..| | |done| | | |].
  - by rewrite Hj, decide_True.
  - intros id Hne. by rewrite Hj, decide_False.
  - intros k v Hp Hv. rewrite Hk in Hv by auto. auto.
  - intros w id _ _. apply Hk. left. apply runningIndexKey_w.
  - done.
  - intros id v. rewrite Hk by (right; apply has_prefix_app). apply (inv_seq _ Hi).
Qed.

Lemma create_txn_get t t' job :
  create_txn job t = Ok (t', ()) →
  kget (jobKey (job_ID job)) t = None ∧
  ∀ k, kget k t' =
    if decide (job_State job = StateQueued ∧ k = readyIndexKey job) then Some (VId (job_ID job))
    else if decide (k = jobKey (job_ID job)) then Some (VJob job)
    else if decide (CorrelateID (job_Spec job) ≠ EmptyString ∧
                    k = correlateKey (CorrelateID (job_Spec job))) then Some (VId (job_ID job))
    else kget k t.
Proof.
  unfold create_txn. destruct (kget (jobKey (job_ID job)) t); [done|].
  intros (t1 & Hcor & Hc)%rbind_ok. split; [done|]. intros k.
  assert (kget k t1 = if decide (CorrelateID (job_Spec job) ≠ EmptyString ∧
                    k = correlateKey (CorrelateID (job_Spec job))) then Some (VId (job_ID job))
    else kget k t) as Ht1.
  { clear Hc. revert Hcor. unfold create_correlate. case_bool_decide.
    - intros Heq. simplify_eq. by rewrite decide_False by (intros [? _]; done).
    - destruct (kget (correlateKey _) t); [done|]. intros Heq. simplify_eq.
      kv_cases; naive_solver. }
  rewrite <- Ht1. case_bool_decide; simplify_eq; kv_cases; naive_solver.
Qed.

Lemma create_txn_inv t t' job :
  Inv t → named job → job_State job ≠ StateRunning →
  create_txn job t = Ok (t', ()) → Inv t'.
Proof.
  intros Hi Hn Hrun [Hfree Hget]%create_txn_get.
  apply (Inv_write_job t t' job); [done..| | |].
  - intros id. rewrite Hget. kv_cases.
  - intros k v Hp. rewrite Hget.
    assert (kget k t = Some (VId (job_ID job)) → False) as Hno.
    { intros (j & Hl & _)%ready_of_id; [|done..]. apply load_spec in Hl. congruence. }
    destruct (decide (job_State job = StateQueued ∧ k = readyIndexKey job)) as [[Hs ->]|].
    + destruct (kget (readyIndexKey job) t) as [v'|] eqn:Hk; [|naive_solver].
      apply (inv_ready _ Hi) in Hk as (j & Hl & _ & Hkey & ->); [|done].
      apply readyIndexKey_parts in Hkey as [_ Hid]; [|apply Hn|by eapply inv_load].
      rewrite <- Hid in Hl. apply load_spec in Hl. congruence.
    + kv_cases; naive_solver.
  - intros k [Hp|Hp]; rewrite Hget; kv_cases.
Qed.

(** A ready key that is present belongs to the job that encodes to it. *)
Lemma ready_owner t job v :
  Inv t → named job → kget (readyIndexKey job) t = Some v → v = VId (job_ID job).
Proof.
  intros Hi Hn Hk. apply (inv_ready _ Hi) in Hk as (j & Hl & _ & Hkey & ->); [|apply readyIndexKey_q].
  apply readyIndexKey_parts in Hkey as [_ Hid]; [congruence|apply Hn|by eapply inv_load].
Qed.

Lemma ready_present t j :
  Inv t → loadTxn (job_ID j) t = Ok j → job_State j = StateQueued →
  kget (readyIndexKey j) t = Some (VId (job_ID j)).
Proof. intros Hi Hl Hs. apply (inv_ready _ Hi); [apply readyIndexKey_q|eauto 10]. Qed.

Lemma update_txn_get t t' job :
  update_txn job t = Ok (t', ()) →
  ∃ old, loadTxn (job_ID job) t = Ok old ∧
  ∀ k, kget k t' =
    if decide (job_State job = StateQueued ∧ k = readyIndexKey job) then Some (VId (job_ID job))
    else if decide (job_State old = StateQueued ∧ k = readyIndexKey old) then None
    else if decide (k = jobKey (job_ID job)) then Some (VJob job)
    else kget k t.
Proof.
  unfold update_txn. intros (old & Hold & Ht)%rbind_ok. exists old. split; [done|]. intros k.
  simplify_eq. repeat case_bool_decide; kv_cases; naive_solver.
Qed.

Lemma update_txn_inv t t' job :
  Inv t → no_colon (Queue (job_Spec job)) → job_State job ≠ StateRunning →
  update_txn job t = Ok (t', ()) → Inv t'.
Proof.
  intros Hi Hq Hrun (old & Hold & Hget)%update_txn_get.
  destruct (inv_load _ _ _ Hi Hold) as [Hid Hn].
  assert (named job) as Hnj by (destruct Hn; split; congruence).
  apply (Inv_write_job t t' job); [done..| | |].
  - intros id. rewrite Hget. kv_cases.
  - intros k v Hp. rewrite Hget.
    destruct (decide (job_State job = StateQueued ∧ k = readyIndexKey job)) as [[Hs ->]|Hne].
    + pose proof (ready_owner t job v Hi Hnj). naive_solver.
    + destruct (decide (job_State old = StateQueued ∧ k = readyIndexKey old)) as [[Hs ->]|Hne'].
      * rewrite <- Hid in Hold. pose proof (ready_present t old Hi Hold Hs) as Hp'.
        split; [done|]. intros [(? & ? & _)|(Hv & Hk)]; [by destruct Hne|].
        rewrite Hp' in Hk. congruence.
      * rewrite decide_False by (intros ->; key_clash). split; [|naive_solver].
        intros Hk. right. split; [|done]. intros ->.
        apply (ready_of_id _ _ _ Hi) in Hk as (j & Hl & _ & Hs & ->); [|done].
        rewrite Hold in Hl. simplify_eq. naive_solver.
  - intros k [Hp|Hp]; rewrite Hget; kv_cases.
Qed.

(** ** Events and checkpoints *)
Lemma append_ok t e : seq_typed t → ∃ t', appendEventTxn e t = Ok (t', ()).
Proof.
  intros Hi. unfold appendEventTxn.
  destruct (kget (eventSeqKey (event_JobID e)) t) as [v|] eqn:Hk; simpl; [|eauto].
  destruct (Hi _ _ Hk) as [n ->]. simpl. eauto.
Qed.

Lemma append_get t t' e :
  appendEventTxn e t = Ok (t', ()) →
  ∃ seq, (kget (eventSeqKey (event_JobID e)) t = None ∧ seq = 0%Z ∨
          kget (eventSeqKey (event_JobID e)) t = Some (VSeq seq)) ∧
  ∀ k, kget k t' =
    if decide (k = eventSeqKey (event_JobID e)) then Some (VSeq (wrapu64 (seq + 1)))
    else if decide (k = eventKey (event_JobID e) (wrapu64 (seq + 1))) then Some (VEvent e)
    else kget k t.
Proof.
  unfold appendEventTxn. intros (seq & Hseq & Ht)%rbind_ok. exists seq. split.
  - destruct (kget (eventSeqKey (event_JobID e)) t) as [[]|]; naive_solver.
  - intros k. simplify_eq. kv_cases.
Qed.

(** Event appends only touch the [e:] and [n:] families. *)
Lemma append_frame t t' e k :
  appendEventTxn e t = Ok (t', ()) →
  has_prefix "e:" k = false → has_prefix "n:" k = false → kget k t' = kget k t.
Proof.
  intros (seq & _ & Hget)%append_get He Hn. rewrite Hget.
  rewrite decide_False by (intros ->; discriminate Hn).
  rewrite decide_False by (intros ->; discriminate He). done.
Qed.

Lemma append_seq t t' e :
  seq_typed t → appendEventTxn e t = Ok (t', ()) → seq_typed t'.
Proof.
  intros Hi (seq & _ & Hget)%append_get id v. rewrite Hget.
  case_decide; [naive_solver|]. case_decide; [key_clash|]. apply Hi.
Qed.

Lemma append_inv t t' e : Inv t → appendEventTxn e t = Ok (t', ()) → Inv t'.
Proof.
  intros Hi Ha. apply (Inv_frame t); [done| |by eapply append_seq; [apply Hi|]].
  intros k [Hk|[Hk|Hk]]; apply (append_frame _ _ _ _ Ha); by eapply has_prefix_other.
Qed.

Lemma save_inv t t' c : Inv t → save_txn c t = Ok (t', ()) → Inv t'.
Proof.
  intros Hi Hs. unfold save_txn in Hs.
  assert (∀ k, k ≠ checkpointKey (ckpt_JobID c) → kget k t' = kget k t) as Hget.
  { intros k Hk. simplify_eq. destruct (kget (checkpointKey _) t); kv_cases. }
  apply (Inv_frame t); [done|..].
  - intros k Hk. apply Hget. intros ->. destruct Hk as [?|[?|?]]; key_clash.
  - intros id v. rewrite Hget by (intros ?; key_clash). apply (inv_seq _ Hi).
Qed.
End inv.
