(* ===== verification/JobsStoreClaim.v ===== *)
(** * JobsStoreClaim

    What [Claim] returns and leaves behind: the due queued jobs of the requested
    queues, in claim order, up to the limit, each exactly once. *)
From S2P Require Import Prelude GoStrings Jobs KV JobsStore JobsStoreInv.

Section claim.
Context {T : Type} `{KVT : !KV T Value} `{!KVLaws T Value}.
Implicit Types t : T.

(** A queued record of the store. *)
Definition queued_in (t : T) (j : Job) : Prop :=
  loadTxn (job_ID j) t = Ok j ∧ job_State j = StateQueued.

Definition due (now : Time) (j : Job) : Prop := not_due now j = false.

#[global] Instance due_dec now j : Decision (due now j).
Proof. unfold due. apply _. Defined.

(** [t'] is [t] with the records of [picked] flipped to running. *)
Definition flipped (now : Time) (picked : list Job) (t t' : T) : Prop :=
  (∀ j, j ∈ picked → loadTxn (job_ID j) t' = Ok (flip_running now j)) ∧
  (∀ id, id ∉ job_ID <$> picked → loadTxn id t' = loadTxn id t).

(** ** One item *)
Lemma claim_item_get worker now j t k :
  kget k (kset (runningIndexKey worker (job_ID j)) (VId (job_ID j))
    (kdel (readyIndexKey j) (kset (jobKey (job_ID j)) (VJob (flip_running now j)) t))) =
  if decide (k = runningIndexKey worker (job_ID j)) then Some (VId (job_ID j))
  else if decide (k = readyIndexKey j) then None
  else if decide (k = jobKey (job_ID j)) then Some (VJob (flip_running now j))
  else kget k t.
Proof. kv_cases. Qed.

Lemma claim_item_inv worker now j t t' :
  Inv t → worker ≠ EmptyString → queued_in t j →
  (∀ k, kget k t' =
    if decide (k = runningIndexKey worker (job_ID j)) then Some (VId (job_ID j))
    else if decide (k = readyIndexKey j) then None
    else if decide (k = jobKey (job_ID j)) then Some (VJob (flip_running now j))
    else kget k t) →
  Inv t'.
Proof.
  intros Hi Hw [Hl Hs] Hget. destruct (inv_load _ _ _ Hi Hl) as [_ Hn].
  apply (Inv_set_job t t' (flip_running now j)); [done|destruct Hn; by split| | | | | | |];
    cbn [job_ID job_State flip_running].
  - rewrite Hget. kv_cases.
  - intros id Hne. rewrite Hget. kv_cases.
  - intros k v Hp. rewrite Hget. rewrite decide_False by (intros ->; key_clash).
    rewrite (decide_False (P := k = jobKey _)) by (intros ->; key_clash).
    case_decide as Hk.
    + subst. pose proof (ready_present t j Hi Hl Hs) as Hp'. rewrite Hp'. naive_solver.
    + split; [|naive_solver]. intros Hkv. right. split; [|done]. intros ->.
      apply (ready_of_id _ _ _ Hi) in Hkv as (j' & Hl' & _ & _ & ->); [|done].
      rewrite Hl in Hl'. congruence.
  - intros k v Hp. rewrite Hget. repeat case_decide; subst; try key_clash; naive_solver.
  - intros w id Hid Hne. rewrite Hget. repeat case_decide; try key_clash; [|done].
    apply runningIndexKey_inj in H as [_ ->]; [done..|apply Hn].
  - intros _. exists worker. split; [done|]. rewrite Hget. by rewrite decide_True.
  - intros id v. rewrite Hget. kv_cases. apply (inv_seq _ Hi).
Qed.

(** ** The iterator loop *)

(** The items of a scan, with the queued jobs they stand for. *)
Definition items_of (t : T) (items : list (string * Value)) (js : list Job) : Prop :=
  items = (λ j, (readyIndexKey j, VId (job_ID j))) <$> js ∧ Forall (queued_in t) js ∧
  NoDup (job_ID <$> js).

Definition pick (now : Time) (limit : Z) (n : nat) (js : list Job) : list Job :=
  take (Z.to_nat (limit - Z.of_nat n)) (filter (due now) js).

Lemma claim_loop_spec worker now limit items js claimed t :
  Inv t → worker ≠ EmptyString → items_of t items js →
  let picked := pick now limit (length claimed) js in
  ∃ t', claim_loop worker now limit items claimed t =
          Ok (t', claimed ++ (flip_running now <$> picked)) ∧
        Inv t' ∧ flipped now picked t t'.
Proof.
  intros Hi Hw (-> & Hq & Hnd). revert claimed t Hi Hq.
  induction js as [|j js IH]; intros claimed t Hi Hq; csimpl.
  { exists t. unfold pick. rewrite filter_nil, take_nil. simpl. rewrite app_nil_r.
    split_and!; [done..|]. split; [|done]. intros j Hj. by apply elem_of_nil in Hj. }
  apply NoDup_cons in Hnd as [Hfresh Hnd]. apply Forall_cons in Hq as [[Hl Hs] Hq].
  destruct (Z.leb_spec limit (Z.of_nat (length claimed))) as [Hfull|Hroom].
  { exists t. unfold pick. replace (Z.to_nat _) with 0 by lia. rewrite take_0. simpl.
    rewrite app_nil_r. split_and!; [done..|]. split; [|done].
    intros j' Hj. by apply elem_of_nil in Hj. }
  rewrite Hl, Hs. csimpl. destruct (not_due now j) eqn:Hdue.
  { unfold pick. rewrite filter_cons_False by (unfold due; congruence). by apply IH. }
  set (t1 := kset _ _ _).
  pose proof (claim_item_get worker now j t) as Hget.
  assert (Inv t1) as Hi1 by (eapply claim_item_inv; [exact Hi|done|by split|exact Hget]).
  assert (∀ id, loadTxn id t1 =
            if decide (id = job_ID j) then Ok (flip_running now j) else loadTxn id t) as Hload.
  { intros id. unfold loadTxn. subst t1. rewrite Hget. kv_cases. }
  destruct (IH Hnd (claimed ++ [flip_running now j]) t1 Hi1) as (t' & Hrun & Hi' & Hf1 & Hf2).
  { eapply Forall_impl; [apply Forall_and; split; [exact Hq|]|].
    - apply Forall_forall. intros j' Hj'. exact (list_elem_of_fmap_2 job_ID _ _ Hj').
    - intros j' [[Hl' Hs'] Hin]. split; [|done]. rewrite Hload, decide_False; [done|].
      by intros Heq; rewrite Heq in Hin. }
  assert (pick now limit (length claimed) (j :: js) =
          j :: pick now limit (length (claimed ++ [flip_running now j])) js) as Hpick.
  { unfold pick. rewrite filter_cons_True by done. rewrite length_app. simpl.
    replace (Z.to_nat (limit - Z.of_nat (length claimed))) with
      (S (Z.to_nat (limit - Z.of_nat (length claimed + 1)))) by lia. done. }
  exists t'. rewrite Hrun, Hpick. csimpl. rewrite <- app_assoc. split_and!; [done..|].
  set (rest := pick now limit _ js) in *.
  assert (job_ID j ∉ job_ID <$> rest) as Hnotin.
  { intros (j' & Heq & Hj')%list_elem_of_fmap. apply Hfresh, list_elem_of_fmap. exists j'.
    split; [done|]. subst rest. unfold pick in Hj'. apply elem_of_take in Hj' as (i & Hi'' & _).
    apply list_elem_of_lookup_2, list_elem_of_filter in Hi''. naive_solver. }
  split.
  - intros j' [->|Hj']%elem_of_cons; [|auto]. rewrite Hf2 by done.
    by rewrite Hload, decide_True.
  - intros id. csimpl. intros [Hne Hin]%not_elem_of_cons. rewrite Hf2 by done.
    by rewrite Hload, decide_False.
Qed.

(** ** The ready index of a queue *)
Definition item_job (t : T) (kv : string * Value) : option Job :=
  match loadTxn (value_id kv.2) t with Ok j => Some j | Err _ => None end.

(** The queued jobs of a queue, in index order. *)
Definition ready_jobs (queue : string) (t : T) : list Job :=
  omap (item_job t) (kscan (readyIndexPrefix queue) t).

Lemma scan_item t q kv :
  Inv t → no_colon q → kv ∈ kscan (readyIndexPrefix q) t →
  ∃ j, kv = (readyIndexKey j, VId (job_ID j)) ∧ queued_in t j ∧ Queue (job_Spec j) = q.
Proof.
  intros Hi Hq Hkv. destruct kv as [k v]. apply kscan_spec in Hkv as [Hk Hp].
  apply (inv_ready _ Hi) in Hk as (j & Hl & Hs & -> & ->); [|by eapply readyIndexPrefix_q].
  exists j. split_and!; [done|done|]. apply readyIndexPrefix_spec in Hp; [done..|].
  by destruct (inv_load _ _ _ Hi Hl) as [_ []].
Qed.

Lemma items_ready_jobs t (items : list (string * Value)) :
  (∀ kv, kv ∈ items → ∃ j, kv = (readyIndexKey j, VId (job_ID j)) ∧ queued_in t j) →
  items = (λ j, (readyIndexKey j, VId (job_ID j))) <$> omap (item_job t) items.
Proof.
  induction items as [|kv items IH]; intros Hall; [done|]. csimpl.
  destruct (Hall kv) as (j & -> & [Hl _]); [set_solver|].
  unfold item_job at 1. simpl. rewrite Hl. csimpl. rewrite <- IH by set_solver. done.
Qed.

Lemma ready_jobs_elem t q j :
  Inv t → no_colon q → j ∈ ready_jobs q t ↔ queued_in t j ∧ Queue (job_Spec j) = q.
Proof.
  intros Hi Hq. unfold ready_jobs. rewrite list_elem_of_omap. split.
  - intros (kv & Hkv & Hj). destruct (scan_item t q kv Hi Hq Hkv) as (j' & -> & [Hl Hs] & Hqq).
    unfold item_job in Hj. simpl in Hj. rewrite Hl in Hj. simplify_eq. by repeat split.
  - intros [[Hl Hs] <-]. exists (readyIndexKey j, VId (job_ID j)).
    unfold item_job. simpl. rewrite Hl. split; [|done].
    apply kscan_spec. split; [by apply ready_present|].
    apply readyIndexPrefix_spec; [done| |done]. by destruct (inv_load _ _ _ Hi Hl) as [_ []].
Qed.

Lemma StronglySorted_NoDup_keys (l : list string) : StronglySorted str_lt l → NoDup l.
Proof.
  induction 1 as [|k l Hl IH Hk]; constructor; [|done].
  intros Hin. rewrite Forall_forall in Hk. by apply (str_lt_irrefl k), Hk.
Qed.

Lemma ready_jobs_items t q :
  Inv t → no_colon q → items_of t (kscan (readyIndexPrefix q) t) (ready_jobs q t).
Proof.
  intros Hi Hq.
  assert (kscan (readyIndexPrefix q) t =
          (λ j, (readyIndexKey j, VId (job_ID j))) <$> ready_jobs q t) as Heq.
  { apply items_ready_jobs. intros kv Hkv. destruct (scan_item t q kv Hi Hq Hkv); naive_solver. }
  split_and!; [done|..].
  - apply Forall_forall. intros j Hj. by apply ready_jobs_elem in Hj as [? _].
  - pose proof (StronglySorted_NoDup_keys _ (kscan_sorted (readyIndexPrefix q) t)) as Hnd.
    rewrite Heq, <- list_fmap_compose in Hnd.
    assert (∀ j, j ∈ ready_jobs q t → loadTxn (job_ID j) t = Ok j) as Hload
      by (intros j [[? _] _]%ready_jobs_elem; done).
    clear Heq. revert Hnd Hload. generalize (ready_jobs q t) as js.
    induction js as [|j js IH]; csimpl; [constructor|].
    intros [Hn Hnd]%NoDup_cons Hload. constructor; [|apply IH; [done|set_solver]].
    intros (j' & Heq & Hj')%list_elem_of_fmap. apply Hn.
    pose proof (Hload j ltac:(set_solver)) as Hl. rewrite Heq in Hl.
    rewrite (Hload j' ltac:(set_solver)) in Hl. simplify_eq.
    apply list_elem_of_fmap. eauto.
Qed.

(** ** Claim order *)

(** Higher priority first, then older, then by id. *)
Definition claim_before (j j' : Job) : Prop :=
  let p := clampPriority (Priority (job_Spec j)) in
  let p' := clampPriority (Priority (job_Spec j')) in
  (p' < p)%Z ∨ p = p' ∧ ((CreatedAt j < CreatedAt j')%Z ∨
  CreatedAt j = CreatedAt j' ∧ str_lt (job_ID j) (job_ID j')).

(** Creation times that nanoseconds since 1970 in an [int64] can represent. *)
Definition dated (j : Job) : Prop := (0 <= CreatedAt j <= int64_max)%Z.

Lemma clampPriority_range p : (0 <= clampPriority p <= 999999)%Z.
Proof. unfold clampPriority. repeat (case_match; bool_to_prop); lia. Qed.

Lemma ready_key_order j j' :
  Queue (job_Spec j) = Queue (job_Spec j') → dated j → dated j' →
  str_lt (readyIndexKey j) (readyIndexKey j') → claim_before j j'.
Proof.
  unfold dated, str_lt, readyIndexKey. intros -> Hd Hd'.
  rewrite !str_compare_app.
  pose proof (clampPriority_range (Priority (job_Spec j))).
  pose proof (clampPriority_range (Priority (job_Spec j'))).
  unfold unix_nano. rewrite !wrap64_id by (unfold in_int64, int64_min; lia).
  rewrite !fmt_pad_fits by (unfold int64_max in *; lia).
  assert (∀ z, (0 <= z <= int64_max)%Z → (0 <= z < 10 ^ Z.of_nat 20)%Z) as Hfit
    by (unfold int64_max; lia).
  rewrite str_compare_fixed, fixdigits_compare by (rewrite ?fixdigits_length; lia).
  rewrite !str_compare_app.
  rewrite str_compare_fixed, fixdigits_compare by (rewrite ?fixdigits_length; auto).
  rewrite !str_compare_app. unfold claim_before, str_lt. cbv zeta.
  destruct (Z.compare_spec (999999 - clampPriority (Priority (job_Spec j)))
    (999999 - clampPriority (Priority (job_Spec j')))); [|left; lia|done].
  destruct (Z.compare_spec (CreatedAt j) (CreatedAt j')); [|right; lia|done].
  intros. right. split; [lia|]. auto.
Qed.

Lemma ready_jobs_sorted t q :
  Inv t → no_colon q → (∀ j, queued_in t j → dated j) →
  StronglySorted claim_before (ready_jobs q t).
Proof.
  intros Hi Hq Hd. pose proof (kscan_sorted (readyIndexPrefix q) t) as Hs.
  destruct (ready_jobs_items t q Hi Hq) as (Heq & _ & _).
  rewrite Heq, <- list_fmap_compose in Hs.
  assert (∀ j, j ∈ ready_jobs q t → dated j ∧ Queue (job_Spec j) = q) as Hall
    by (intros j [? ?]%ready_jobs_elem; auto).
  clear Heq. revert Hs Hall. generalize (ready_jobs q t) as js.
  induction js as [|j js IH]; csimpl; intros Hs Hall; [constructor|].
  inversion Hs as [|? ? Hs' Hj]; subst. constructor.
  { apply IH; [done|]. intros x Hx. apply Hall. by right. }
  pose proof (proj1 (list.Forall_forall _ _) Hj) as Hlt. apply list.Forall_forall. intros j' Hj'.
  destruct (Hall j) as [??]; [by left|]. destruct (Hall j') as [??]; [by right|].
  apply ready_key_order; [congruence|done|done|]. apply Hlt, list_elem_of_fmap. eauto.
Qed.

(** ** Several queues *)

(** The jobs [picked] of [t] are what a claim with room for [limit - n] more jobs
    takes from [queues]: distinct queued due jobs of those queues, all of them
    unless the limit is reached. *)
Record picked_from (now : Time) (queues : list string) (limit : Z) (n : nat) (t : T)
    (picked : list Job) : Prop := {
  picked_nodup : NoDup (job_ID <$> picked);
  picked_sound j : j ∈ picked → queued_in t j ∧ due now j ∧ Queue (job_Spec j) ∈ queues;
  picked_limit : (Z.of_nat n <= limit → Z.of_nat (n + length picked) <= limit)%Z;
  picked_complete j : queued_in t j → due now j → Queue (job_Spec j) ∈ queues →
    j ∈ picked ∨ (limit <= Z.of_nat (n + length picked))%Z
}.

Lemma picked_nil now queues limit n t :
  (limit <= Z.of_nat n)%Z ∨ queues = [] → picked_from now queues limit n t [].
Proof.
  intros Hl. split; [constructor| |simpl; lia|].
  - intros j Hj. by apply elem_of_nil in Hj.
  - intros j _ _ Hj. simpl. destruct Hl as [?| ->]; [right; lia|by apply elem_of_nil in Hj].
Qed.

Lemma flipped_nil now t : flipped now [] t t.
Proof. split; [|done]. intros j Hj. by apply elem_of_nil in Hj. Qed.

(** A flipped job is no longer queued; the others are as before. *)
Lemma flipped_queued now picked t t' j :
  flipped now picked t t' → (∀ j, j ∈ picked → queued_in t j) →
  queued_in t' j ↔ queued_in t j ∧ j ∉ picked.
Proof.
  intros [Hf Hu] Hp. unfold queued_in.
  destruct (decide (job_ID j ∈ job_ID <$> picked)) as [Hin|Hin].
  - apply list_elem_of_fmap in Hin as (j' & Heq & Hj'). rewrite Heq, (Hf j' Hj'). split.
    + intros [Hl Hs]. simplify_eq.
    + intros [[Hl _] Hn]. destruct (Hp j' Hj') as [Hl' _]. rewrite Hl' in Hl. by simplify_eq.
  - rewrite Hu by done. split; [|naive_solver]. intros [? ?]. split; [done|].
    contradict Hin. apply list_elem_of_fmap. eauto.
Qed.

Lemma flipped_app now p1 p2 t t1 t2 :
  flipped now p1 t t1 → flipped now p2 t1 t2 →
  (∀ j, j ∈ p1 → job_ID j ∉ job_ID <$> p2) → flipped now (p1 ++ p2) t t2.
Proof.
  intros [Hf1 Hu1] [Hf2 Hu2] Hd. split.
  - intros j [Hj|Hj]%elem_of_app; [|auto]. rewrite Hu2 by auto. auto.
  - intros id. rewrite fmap_app. intros [? ?]%not_elem_of_app. by rewrite Hu2, Hu1.
Qed.

Lemma pick_picked now q limit n t :
  Inv t → no_colon q → picked_from now [q] limit n t (pick now limit n (ready_jobs q t)).
Proof.
  intros Hi Hq. unfold pick.
  destruct (ready_jobs_items t q Hi Hq) as (_ & _ & Hnd).
  set (m := Z.to_nat (limit - Z.of_nat n)). split.
  - eapply sublist_NoDup; [exact Hnd|]. apply fmap_sublist.
    etrans; [apply sublist_take|apply sublist_filter].
  - intros j (i & Hj & _)%elem_of_take. apply list_elem_of_lookup_2, list_elem_of_filter in Hj.
    destruct Hj as [Hd Hj]. apply ready_jobs_elem in Hj as [? ->]; [|done..]. set_solver.
  - rewrite length_take. subst m. lia.
  - intros j Hj Hd Hjq. rewrite length_take.
    destruct (Nat.le_gt_cases (length (filter (due now) (ready_jobs q t))) m) as [Hle|Hgt].
    + left. rewrite take_ge by done. apply list_elem_of_filter. split; [done|].
      apply ready_jobs_elem; [done..|]. apply list_elem_of_singleton in Hjq. done.
    + right. subst m. lia.
Qed.

Lemma claim_queues_spec worker now limit queues claimed t :
  Inv t → worker ≠ EmptyString → Forall no_colon queues →
  ∃ t' picked, claim_queues worker now limit queues claimed t =
                 Ok (t', claimed ++ (flip_running now <$> picked)) ∧
               Inv t' ∧ flipped now picked t t' ∧
               picked_from now queues limit (length claimed) t picked.
Proof.
  intros Hi Hw Hq. revert claimed t Hi.
  induction Hq as [|q queues Hq Hqs IH]; intros claimed t Hi; cbn [claim_queues].
  { exists t, []. simpl. rewrite app_nil_r.
    split_and!; [done..|apply flipped_nil|apply picked_nil; auto]. }
  destruct (Z.leb_spec limit (Z.of_nat (length claimed))) as [Hfull|Hroom].
  { exists t, []. simpl. rewrite app_nil_r.
    split_and!; [done..|apply flipped_nil|apply picked_nil; auto]. }
  unfold claimFromQueue.
  destruct (claim_loop_spec worker now limit _ _ claimed t Hi Hw (ready_jobs_items t q Hi Hq))
    as (t1 & -> & Hi1 & Hf1).
  pose proof (pick_picked now q limit (length claimed) t Hi Hq) as [Hn1 Hs1 Hl1 Hc1].
  set (p1 := pick now limit (length claimed) (ready_jobs q t)) in *. cbn [rbind].
  destruct (IH (claimed ++ (flip_running now <$> p1)) t1 Hi1) as (t2 & p2 & -> & Hi2 & Hf2 & Hp2).
  destruct Hp2 as [Hn2 Hs2 Hl2 Hc2].
  rewrite length_app, length_fmap in Hl2, Hc2.
  assert (∀ j, queued_in t1 j ↔ queued_in t j ∧ j ∉ p1) as Hqd.
  { intros j. apply (flipped_queued now); [done|]. intros j' Hj'. by apply Hs1. }
  assert (∀ j, j ∈ p1 → job_ID j ∉ job_ID <$> p2) as Hdisj.
  { intros j Hj (j' & Heq & Hj')%list_elem_of_fmap.
    destruct (Hs2 _ Hj') as [[Hq' Hnin]%Hqd _]. destruct (Hs1 _ Hj) as [[Hl _] _].
    destruct Hq' as [Hl' _]. rewrite Heq, Hl' in Hl. by simplify_eq. }
  exists t2, (p1 ++ p2). rewrite fmap_app, (assoc_L (++)). split_and!; [done..|by eapply flipped_app|].
  split.
  - rewrite fmap_app. apply NoDup_app. split_and!; [done| |done].
    intros id (j & -> & Hj)%list_elem_of_fmap. auto.
  - intros j [Hj|Hj]%elem_of_app.
    + destruct (Hs1 _ Hj) as (? & ? & ->%list_elem_of_singleton). set_solver.
    + destruct (Hs2 _ Hj) as ([? _]%Hqd & ? & ?). split_and!; [done..|by right].
  - intros Hle. rewrite length_app. specialize (Hl1 Hle). lia.
  - intros j Hj Hd Hin. rewrite length_app, elem_of_app.
    destruct (decide (j ∈ p1)) as [?|Hnin]; [auto|].
    apply elem_of_cons in Hin as [Heq|Hin].
    + destruct (Hc1 j Hj Hd) as [?|?]; [by apply list_elem_of_singleton|done|]. right. lia.
    + destruct (Hc2 j) as [?|?]; [by apply Hqd|done|done|auto|]. right. lia.
Qed.

(** ** The method *)

(** The engine commits one of the tries, after conflicts only, and the caller's
    context stays live until then. *)
Definition commits (env : Env) : Prop :=
  ∃ i, i < maxConflictRetries ∧ outcome env i = Commit ∧
       (∀ n, n ≤ i → ctx_err env n = None) ∧ (∀ n, n < i → outcome env n = Conflict).

Lemma retry_commits {A} env (body : T → result (T * A)) t t' a :
  commits env → body t = Ok (t', a) → retryTxnCtx env body t = (Ok a, t').
Proof.
  intros (i & Hi & Ho & Hctx & Hcf) Hb. unfold retryTxnCtx.
  assert (∀ tries n, n ≤ i → i < n + tries →
            retry_loop tries n env body t = (Ok a, t')) as Hloop.
  { induction tries as [|tries IH]; intros n Hn Hlt; [lia|]. simpl.
    rewrite Hctx by lia. unfold db_update. rewrite Hb.
    destruct (decide (n = i)) as [->|Hne]; [by rewrite Ho|].
    rewrite Hcf by lia. rewrite errors_is_refl. apply IH; lia. }
  apply Hloop; lia.
Qed.

Lemma claim_cases env worker queues limit t c t' :
  Inv t → Forall no_colon queues → Claim env worker queues limit t = (Ok c, t') →
  ∃ picked, c = flip_running (clock env 0) <$> picked ∧ Inv t' ∧
    flipped (clock env 0) picked t t' ∧
    ((0 < limit)%Z → picked_from (clock env 0) queues limit 0 t picked) ∧
    ((limit <= 0)%Z → picked = []).
Proof.
  intros Hi Hq. unfold Claim. case_bool_decide as Hw; [done|].
  destruct (Z.leb_spec limit 0).
  { intros Heq. simplify_eq. exists []. split_and!; [done..|apply flipped_nil|lia|done]. }
  intros [[_ [e ?]]|(a & Hb & ?)]%retry_cases; simplify_eq.
  destruct (claim_queues_spec worker (clock env 0) limit queues [] t Hi Hw Hq)
    as (t1 & picked & Hrun & Hi1 & Hf & Hp).
  rewrite Hb in Hrun. simplify_eq/=. exists picked. split_and!; [done..|lia].
Qed.

(** C36: What a successful [Claim] returns and writes.  The returned jobs are
    records that were queued and due in one of the requested queues, flipped to
    running with the attempt counted; each is returned once, at most [limit] of
    them, and if fewer than [limit] are returned no due job of those queues is
    left behind.  The stored records of the returned jobs are exactly the returned
    ones and every other record is untouched. *)
Theorem claim_sound_complete env worker queues limit t c t' :
  Inv t → Forall no_colon queues → (0 < limit)%Z →
  Claim env worker queues limit t = (Ok c, t') →
  ∃ picked,
    c = flip_running (clock env 0) <$> picked ∧
    picked_from (clock env 0) queues limit 0 t picked ∧
    flipped (clock env 0) picked t t' ∧ Inv t'.
Proof.
  intros Hi Hq Hlim (picked & -> & Hi' & Hf & Hp & _)%claim_cases; [|done..]. eauto 10.
Qed.

(** C4: A job is handed to one worker: two successive claims, by any two
    workers on any queues, never return the same job. *)
Theorem claim_exactly_once env1 w1 qs1 l1 c1 env2 w2 qs2 l2 c2 t t1 t2 :
  Inv t → Forall no_colon qs1 → Forall no_colon qs2 →
  Claim env1 w1 qs1 l1 t = (Ok c1, t1) → Claim env2 w2 qs2 l2 t1 = (Ok c2, t2) →
  NoDup (job_ID <$> c1 ++ c2).
Proof.
  intros Hi Hq1 Hq2 (p1 & -> & Hi1 & Hf1 & Hp1 & Hz1)%claim_cases (p2 & -> & _ & _ & Hp2 & Hz2)%claim_cases;
    [|done..].
  assert (∀ env l qs t p, ((0 < l)%Z → picked_from (clock env 0) qs l 0 t p) → ((l <= 0)%Z → p = []) →
    NoDup (job_ID <$> p) ∧ ∀ j, j ∈ p → queued_in t j) as Hgen.
  { clear. intros env l qs t p Hp Hz. destruct (Z.le_gt_cases l 0) as [Hl|Hl].
    - rewrite Hz by done. split; [constructor|]. intros j Hj. by apply elem_of_nil in Hj.
    - destruct (Hp Hl) as [Hnd Hs _ _]. split; [done|]. intros j Hj. by apply Hs. }
  destruct (Hgen env1 l1 qs1 t p1 Hp1 Hz1) as [Hn1 Hs1].
  destruct (Hgen env2 l2 qs2 t1 p2 Hp2 Hz2) as [Hn2 Hs2].
  rewrite fmap_app, <- !list_fmap_compose. apply NoDup_app. split_and!; [done| |done].
  intros id (j & -> & Hj)%list_elem_of_fmap (j' & Heq & Hj')%list_elem_of_fmap. simpl in Heq.
  destruct (proj1 (flipped_queued _ _ _ _ j' Hf1 Hs1) (Hs2 _ Hj')) as [[Hl' _] Hnin].
  destruct (Hs1 _ Hj) as [Hl _]. rewrite Heq, Hl' in Hl. by simplify_eq.
Qed.

(** Claiming from one queue takes the first [limit] due jobs in the claim
    order: priority descending (clamped to 0..999999), then oldest first, then by
    id. The call succeeds whenever the engine commits within the retry bound. *)
Theorem claim_order env worker q limit t :
  Inv t → no_colon q → worker ≠ EmptyString → (0 < limit)%Z → commits env →
  (∀ j, queued_in t j → dated j) →
  (Claim env worker [q] limit t).1 =
    Ok (flip_running (clock env 0) <$>
          take (Z.to_nat limit) (filter (due (clock env 0)) (ready_jobs q t))) ∧
  StronglySorted claim_before (ready_jobs q t) ∧
  (∀ j, j ∈ ready_jobs q t ↔ queued_in t j ∧ Queue (job_Spec j) = q).
Proof.
  intros Hi Hq Hw Hl Hc Hd. split_and!; [|by apply ready_jobs_sorted|intros; by apply ready_jobs_elem].
  unfold Claim. rewrite bool_decide_false by done. destruct (Z.leb_spec limit 0); [lia|].
  destruct (claim_loop_spec worker (clock env 0) limit _ _ [] t Hi Hw (ready_jobs_items t q Hi Hq))
    as (t1 & Hrun & _).
  rewrite (retry_commits _ _ _ t1 (flip_running (clock env 0) <$>
    pick (clock env 0) limit 0 (ready_jobs q t))); [|done|].
  - simpl. unfold pick. by rewrite Z.sub_0_r.
  - cbn [claim_queues length]. destruct (Z.leb_spec limit (Z.of_nat 0)); [lia|].
    unfold claimFromQueue. rewrite Hrun. reflexivity.
Qed.
End claim.
