(* ===== verification/JobsStoreSteps.v ===== *)
(** * JobsStoreSteps

    The jobs store over time: recovery, the store as a transition system, the event log.

    Crash recovery ([recover], run by [Open]): after it no job is running, every
    interrupted job is queued again or failed, and nothing else changes. *)
From S2P Require Import Prelude GoStrings Jobs KV JobsStore JobsStoreInv JobsStoreClaim.

(** What recovery does to a record; [ck] is whether the job has a checkpoint. *)
Definition recover_record (now : Time) (ck : bool) (j : Job) : Job :=
  if bool_decide (job_State j = StateRunning) then
    let failed := interrupted_job now j in
    if attempts_remain failed then requeued_job now ck failed else failed
  else j.

Lemma recover_record_not_running now ck j : job_State (recover_record now ck j) ≠ StateRunning.
Proof. unfold recover_record. case_bool_decide; [|done]. by destruct (attempts_remain _). Qed.

Lemma recover_record_ID now ck j : job_ID (recover_record now ck j) = job_ID j.
Proof. unfold recover_record. case_bool_decide; [|done]. by destruct (attempts_remain _). Qed.

Lemma recover_record_idemp now ck ck' j :
  recover_record now ck (recover_record now ck' j) = recover_record now ck' j.
Proof.
  unfold recover_record at 1. rewrite bool_decide_false; [done|].
  apply recover_record_not_running.
Qed.

Section recover.
Context {T : Type} `{KVT : !KV T Value} `{!KVLaws T Value}.
Implicit Types t : T.

(** ** One interrupted job *)

(** Dropping a running-index entry of a job that is not running. *)
Lemma drop_running_inv t w j :
  Inv t → loadTxn (job_ID j) t = Ok j → job_State j ≠ StateRunning →
  Inv (kdel (runningIndexKey w (job_ID j)) t).
Proof.
  intros Hi Hl Hs. destruct (inv_load _ _ _ Hi Hl) as [_ Hn].
  pose proof (proj1 (load_spec t _ _) Hl) as Hk.
  apply (Inv_set_job t _ j); [done..| | | | | |done|].
  - kv_cases.
  - intros id Hne. kv_cases.
  - intros k v Hp. rewrite kget_kdel, decide_False by (intros <-; key_clash).
    rewrite (inv_ready _ Hi) by done. split.
    + intros (j' & Hl' & Hs' & -> & ->).
      destruct (decide (job_ID j' = job_ID j)) as [Heq|Hne].
      * left. rewrite Heq, Hl in Hl'. simplify_eq. done.
      * right. split; [congruence|]. eauto 10.
    + intros [(? & -> & ->)|[_ ?]]; eauto 10.
  - intros k v Hp. rewrite kget_kdel. case_decide; [done|]. auto.
  - intros w' id Hid Hne. rewrite kget_kdel. case_decide as Heq; [|done].
    apply runningIndexKey_inj in Heq as [_ Heq]; [congruence|apply Hn|done].
  - intros id v. kv_cases. apply (inv_seq _ Hi).
Qed.

(** The store after the failed record is written. *)
Lemma interrupt_inv t w j now t2 :
  Inv t → loadTxn (job_ID j) t = Ok j → job_State j = StateRunning →
  (∀ k, has_prefix "e:" k = false → has_prefix "n:" k = false →
        kget k t2 = kget k (kdel (runningIndexKey w (job_ID j)) t)) →
  seq_typed t2 →
  Inv (kset (jobKey (job_ID j)) (VJob (interrupted_job now j)) t2).
Proof.
  intros Hi Hl Hs Hget Hseq. destruct (inv_load _ _ _ Hi Hl) as [_ Hn].
  apply (Inv_set_job t _ (interrupted_job now j)); [done|destruct Hn; by split|..];
    cbn [job_ID job_State interrupted_job].
  - kv_cases.
  - intros id Hne. rewrite kget_kset, decide_False by (by intros ?%jobKey_inj).
    rewrite Hget by done. kv_cases.
  - intros k v Hp. rewrite kget_kset, decide_False by (intros <-; key_clash).
    rewrite Hget by (by eapply has_prefix_other).
    rewrite kget_kdel, decide_False by (intros <-; key_clash).
    split; [|naive_solver]. intros Hk. right. split; [|done]. intros ->.
    apply (ready_of_id _ _ _ Hi) in Hk as (j' & Hl' & _ & Hs' & _); [|done].
    rewrite Hl in Hl'. simplify_eq. by rewrite Hs in Hs'.
  - intros k v Hp. rewrite kget_kset, decide_False by (intros <-; key_clash).
    rewrite Hget by (by eapply has_prefix_other). rewrite kget_kdel. case_decide; [done|auto].
  - intros w' id Hid Hne. rewrite kget_kset, decide_False by (intros ?; key_clash).
    rewrite Hget by done. rewrite kget_kdel. case_decide as Heq; [|done].
    apply runningIndexKey_inj in Heq as [_ Heq]; [congruence|apply Hn|done].
  - done.
  - intros id v. rewrite kget_kset, decide_False by (intros ?; key_clash). apply Hseq.
Qed.

(** Requeueing the failed record. *)
Lemma requeue_inv t j q :
  Inv t → loadTxn (job_ID j) t = Ok j → job_State j ≠ StateQueued →
  job_ID q = job_ID j → job_Spec q = job_Spec j → job_State q = StateQueued →
  Inv (kset (readyIndexKey q) (VId (job_ID q)) (kset (jobKey (job_ID q)) (VJob q) t)).
Proof.
  intros Hi Hl Hs Hid Hsp Hq. destruct (inv_load _ _ _ Hi Hl) as [_ Hn].
  assert (named q) as Hnq by (destruct Hn; split; congruence).
  apply (Inv_write_job t _ q); [done..|by rewrite Hq| | |].
  - intros id. kv_cases.
  - intros k v Hp. rewrite !kget_kset, (decide_False (P := jobKey _ = k)) by (intros <-; key_clash).
    case_decide as Hk; [subst|].
    + pose proof (ready_owner t q v Hi Hnq). naive_solver.
    + split; [|naive_solver]. intros Hkv. right. split; [|done]. intros ->.
      apply (ready_of_id _ _ _ Hi) in Hkv as (j' & Hl' & _ & Hs' & _); [|done].
      rewrite Hid, Hl in Hl'. simplify_eq.
  - intros k [Hp|Hp]; kv_cases.
Qed.

(** The writes of [recoverOne] are to the record and its indexes; records of other
    jobs and all checkpoints stay. *)
Definition recovers (now : Time) (id : string) (t t' : T) : Prop :=
  (∀ j, loadTxn id t = Ok j → loadTxn id t' = Ok (recover_record now (hasCheckpointTxn id t) j)) ∧
  (∀ id', id' ≠ id → kget (jobKey id') t' = kget (jobKey id') t) ∧
  (∀ c, kget (checkpointKey c) t' = kget (checkpointKey c) t).

Lemma recoverOne_spec t w id now clk j :
  Inv t → loadTxn id t = Ok j →
  ∃ t', recoverOne_txn w id now clk t = Ok (t', ()) ∧ Inv t' ∧ recovers now id t t'.
Proof.
  intros Hi Hl. destruct (inv_load _ _ _ Hi Hl) as [Hid Hn]. subst id.
  unfold recoverOne_txn. rewrite Hl. cbn [rbind].
  set (t1 := kdel (runningIndexKey w (job_ID j)) t).
  assert (∀ k, has_prefix "w:" k = false → kget k t1 = kget k t) as Ht1.
  { intros k Hk. subst t1. rewrite kget_kdel, decide_False; [done|].
    intros <-. by rewrite runningIndexKey_w in Hk. }
  destruct (bool_decide_reflect (job_State j = StateRunning)) as [Hs|Hs]; cbn [negb].
  2:{ exists t1. split_and!; [done|by apply drop_running_inv|]. split_and!.
      - intros j' Hl'. rewrite Hl in Hl'. simplify_eq. unfold recover_record.
        rewrite bool_decide_false by done. unfold loadTxn. by rewrite Ht1.
      - intros. by apply Ht1.
      - intros. by apply Ht1. }
  assert (seq_typed t1) as Hseq1 by (intros i v; rewrite Ht1 by done; apply (inv_seq _ Hi)).
  set (failed := interrupted_job now j).
  destruct (append_ok t1 (interrupted_event failed now (clk 0)) Hseq1) as [t2 Ha]. rewrite Ha.
  cbn [rbind]. change (job_ID failed) with (job_ID j).
  set (t3 := kset (jobKey (job_ID j)) (VJob failed) t2).
  assert (∀ k, has_prefix "e:" k = false → has_prefix "n:" k = false → kget k t2 = kget k t1) as Ht2
    by (intros; by eapply append_frame).
  assert (Inv t3) as Hi3
    by (apply (interrupt_inv t w); [done..|by eapply append_seq]).
  assert (∀ k, has_prefix "e:" k = false → has_prefix "n:" k = false → has_prefix "w:" k = false →
            kget k t3 = if decide (k = jobKey (job_ID j)) then Some (VJob failed) else kget k t) as Ht3.
  { intros k He Hn' Hw. subst t3. rewrite kget_kset, Ht2, Ht1 by done. kv_cases. }
  assert (hasCheckpointTxn (job_ID j) t3 = hasCheckpointTxn (job_ID j) t) as Hck.
  { unfold hasCheckpointTxn. rewrite Ht3 by done. by rewrite decide_False by (intros ?; key_clash). }
  assert (loadTxn (job_ID failed) t3 = Ok failed) as Hl3
    by (apply load_spec; rewrite Ht3 by done; by rewrite decide_True).
  assert (∀ j', loadTxn (job_ID j) t = Ok j' → recover_record now (hasCheckpointTxn (job_ID j) t) j' =
            if attempts_remain failed then requeued_job now (hasCheckpointTxn (job_ID j) t) failed
            else failed) as Hrec.
  { intros j' Hl'. rewrite Hl in Hl'. simplify_eq. unfold recover_record.
    by rewrite bool_decide_true by done. }
  destruct (attempts_remain failed) eqn:Hrem.
  2:{ exists t3. split_and!; [done..|]. split_and!.
      - intros j' Hl'. by rewrite (Hrec _ Hl').
      - intros id' Hne. rewrite Ht3 by done. by rewrite decide_False by (by intros ?%jobKey_inj).
      - intros c. rewrite Ht3 by done. by rewrite decide_False by (intros ?; key_clash). }
  rewrite Hck. set (q := requeued_job now (hasCheckpointTxn (job_ID j) t) failed) in *.
  change (job_ID q) with (job_ID j).
  set (t5 := kset (readyIndexKey q) (VId (job_ID j)) (kset (jobKey (job_ID j)) (VJob q) t3)).
  assert (Inv t5) as Hi5 by by apply (requeue_inv t3 failed q).
  destruct (append_ok t5 (requeued_event q now (clk 1) (hasCheckpointTxn (job_ID j) t)) (inv_seq _ Hi5))
    as [t6 Ha6]. rewrite Ha6.
  assert (∀ k, has_prefix "e:" k = false → has_prefix "n:" k = false → has_prefix "w:" k = false →
            has_prefix "q:" k = false →
            kget k t6 = if decide (k = jobKey (job_ID j)) then Some (VJob q) else kget k t) as Ht6.
  { intros k He Hn' Hw Hq. rewrite (append_frame _ _ _ _ Ha6) by done. subst t5.
    rewrite !kget_kset, (decide_False (P := readyIndexKey q = k)).
    2:{ intros <-. by rewrite readyIndexKey_q in Hq. }
    rewrite Ht3 by done. kv_cases. }
  exists t6. split_and!; [done|by eapply append_inv|]. split_and!.
  - intros j' Hl'. rewrite (Hrec _ Hl'). apply load_spec. rewrite Ht6 by done. by rewrite decide_True.
  - intros id' Hne. rewrite Ht6 by done. by rewrite decide_False by (by intros ?%jobKey_inj).
  - intros c. rewrite Ht6 by done. by rewrite decide_False by (intros ?; key_clash).
Qed.

(** ** The pass over the running index *)
Lemma find_interrupted_spec t (items : list (string * Value)) :
  Inv t → (∀ k v, (k, v) ∈ items → kget k t = Some v ∧ has_prefix "w:" k = true) →
  ∃ found, find_interrupted items t = Ok found ∧
    (∀ w j, (w, j) ∈ found → loadTxn (job_ID j) t = Ok j) ∧
    (∀ w j v, w ≠ EmptyString → loadTxn (job_ID j) t = Ok j →
       (runningIndexKey w (job_ID j), v) ∈ items → (w, j) ∈ found).
Proof.
  intros Hi. induction items as [|[k v] items IH]; intros Hitems; cbn [find_interrupted].
  { exists []. split_and!; [done|..]; intros * ; [intros ?%elem_of_nil|intros _ _ ?%elem_of_nil]; done. }
  destruct IH as (found & Hf & Hs & Hc); [set_solver|].
  destruct (Hitems k v) as [Hk Hp]; [set_solver|].
  destruct (inv_running _ Hi _ _ Hp Hk) as (w & id & -> & Hw & Hid & Hcol & ->).
  rewrite parse_running_roundtrip by done. cbn [rbind].
  assert (∀ w' j' v', w' ≠ EmptyString → loadTxn (job_ID j') t = Ok j' →
    (runningIndexKey w' (job_ID j'), v') ∈ (runningIndexKey w id, VId id) :: items →
    (w' = w ∧ job_ID j' = id) ∨ (w', j') ∈ found) as Hcase.
  { intros w' j' v' Hw' Hl' [Heq|Hin]%elem_of_cons; [|eauto]. left.
    destruct (inv_load _ _ _ Hi Hl') as [_ Hn']. apply (f_equal fst) in Heq. cbn [fst] in Heq.
    apply runningIndexKey_inj in Heq; [naive_solver|apply Hn'|done]. }
  destruct (inv_load_cases t id Hi) as [[j Hl]|[Hl Hnone]]; rewrite Hl.
  - rewrite Hf. cbn [rbind]. destruct (inv_load _ _ _ Hi Hl) as [Hjid _].
    exists ((w, j) :: found). split_and!; [done|..].
    + intros w' j' [Heq|Hin]%elem_of_cons; [|eauto]. by simplify_eq.
    + intros w' j' v' Hw' Hl' Hin. destruct (Hcase _ _ _ Hw' Hl' Hin) as [[-> Heq]|?]; [|by right].
      rewrite Heq, Hl in Hl'. simplify_eq. by left.
  - change (errIsNotFound ErrNotFound) with true. cbn iota. exists found. split_and!; [done..|].
    intros w' j' v' Hw' Hl' Hin. destruct (Hcase _ _ _ Hw' Hl' Hin) as [[-> Heq]|?]; [|done].
    rewrite Heq, Hl in Hl'. done.
Qed.

Lemma recover_all_spec envs i now (found : list (string * Job)) t :
  Inv t → (∀ n, commits (envs n)) →
  (∀ w j, (w, j) ∈ found → ∃ j', loadTxn (job_ID j) t = Ok j') →
  ∃ t', recover_all envs i now found t = (Ok (), t') ∧ Inv t' ∧
    (∀ id j, loadTxn id t = Ok j →
       (id ∈ job_ID <$> found.*2 →
          loadTxn id t' = Ok (recover_record now (hasCheckpointTxn id t) j)) ∧
       (id ∉ job_ID <$> found.*2 → loadTxn id t' = Ok j)) ∧
    (∀ id, kget (jobKey id) t = None → kget (jobKey id) t' = None).
Proof.
  intros Hi Henv. revert i t Hi. induction found as [|[w j] found IH]; intros i t Hi Hall.
  { exists t. csimpl. split_and!; [done..| |done]. intros id j Hl. split; [|done].
    by intros ?%elem_of_nil. }
  destruct (Hall w j) as [j0 Hl0]; [by left|].
  destruct (recoverOne_spec t w (job_ID j) now (clock (envs i)) j0 Hi Hl0)
    as (t1 & Hrun & Hi1 & Hr1 & Ho1 & Hc1).
  cbn [recover_all]. unfold recoverOne.
  rewrite (retry_commits _ _ _ _ () (Henv i) Hrun).
  assert (∀ id, loadTxn id t1 = if decide (id = job_ID j)
            then Ok (recover_record now (hasCheckpointTxn id t) j0) else loadTxn id t) as Hload.
  { intros id. case_decide as Hid; [subst; auto|]. unfold loadTxn. by rewrite Ho1. }
  assert (∀ id, hasCheckpointTxn id t1 = hasCheckpointTxn id t) as Hck
    by (intros id; unfold hasCheckpointTxn; by rewrite Hc1).
  destruct (IH (S i) t1 Hi1) as (t' & Hrun' & Hi' & Hrec & Hnone).
  { intros w' j' Hin. rewrite Hload. case_decide; [eauto|]. apply (Hall w'). by right. }
  exists t'. rewrite Hrun'. split_and!; [done..| |].
  - intros id j1 Hl. csimpl. rewrite !elem_of_cons.
    destruct (decide (id = job_ID j)) as [->|Hne].
    + rewrite Hl0 in Hl. simplify_eq. split; [intros _|naive_solver].
      destruct (Hrec (job_ID j) (recover_record now (hasCheckpointTxn (job_ID j) t) j1))
        as [Hin Hout]; [by rewrite Hload, decide_True|].
      rewrite Hck, recover_record_idemp in Hin.
      destruct (decide (job_ID j ∈ job_ID <$> found.*2)); auto.
    + destruct (Hrec id j1) as [Hin Hout]; [by rewrite Hload, decide_False|].
      rewrite Hck in Hin. naive_solver.
  - intros id Hn. apply Hnone. destruct (decide (id = job_ID j)) as [->|Hne].
    + apply load_spec in Hl0. congruence.
    + by rewrite Ho1.
Qed.

(** Crash recovery at [Open].  When each recovery transaction commits
    within the retry bound, recovery succeeds and maps every record by
    [recover_record]: a job found running is queued again, with the retry delay
    and, when it has a checkpoint, a resume token, if attempts remain, and failed
    with the time of recovery otherwise; every other record is unchanged. So no
    job is running afterwards and no job is lost or invented. *)
Theorem recover_spec envs now t :
  Inv t → (∀ n, commits (envs n)) →
  ∃ t', recover envs now t = (Ok (), t') ∧ Inv t' ∧
    (∀ id j, loadTxn id t = Ok j →
       loadTxn id t' = Ok (recover_record now (hasCheckpointTxn id t) j)) ∧
    (∀ id j, loadTxn id t' = Ok j → job_State j ≠ StateRunning ∧ ∃ j0, loadTxn id t = Ok j0).
Proof.
  intros Hi Henv. unfold recover.
  destruct (find_interrupted_spec t (kscan runningIndexPrefix t) Hi) as (found & -> & Hs & Hc).
  { intros k v Hkv. by apply kscan_spec in Hkv. }
  destruct (recover_all_spec envs 0 now found t Hi Henv) as (t' & -> & Hi' & Hrec & Hnone).
  { intros w j Hin. eauto. }
  assert (∀ id j, loadTxn id t = Ok j →
       loadTxn id t' = Ok (recover_record now (hasCheckpointTxn id t) j)) as Hall.
  { intros id j Hl. destruct (Hrec id j Hl) as [Hin Hout].
    destruct (decide (id ∈ job_ID <$> found.*2)) as [?|Hnin]; [auto|].
    rewrite Hout by done. unfold recover_record. rewrite bool_decide_false; [done|].
    intros Hrun. apply Hnin. destruct (inv_load _ _ _ Hi Hl) as [<- _].
    destruct (inv_running_complete _ Hi j Hl Hrun) as (w & Hw & Hk).
    apply list_elem_of_fmap. exists j. split; [done|]. apply list_elem_of_fmap. exists (w, j).
    split; [done|]. eapply Hc; [done..|]. apply kscan_spec. split; [done|apply runningIndexKey_w]. }
  exists t'. split_and!; [done..|]. intros id j Hl.
  destruct (inv_load_cases t id Hi) as [[j0 Hl0]|[_ Hn]].
  - rewrite (Hall _ _ Hl0) in Hl. simplify_eq. split; [apply recover_record_not_running|eauto].
  - apply load_spec in Hl. by rewrite Hnone in Hl.
Qed.
End recover.

(** ** Steps

    The jobs store as a transition system: one step per mutating method, in any
    environment.  Every reachable store satisfies [Inv]; submissions are
    deduplicated by correlate id; the event log is an append-only sequence. *)
Section steps.
Context {T : Type} `{KVT : !KV T Value} `{!KVLaws T Value}.
Implicit Types t : T.

(** The callers of the store (spool ingestion, executor, boot) never write a
    running record themselves: [Claim] does. *)
Inductive step : T → T → Prop :=
| step_create env job t :
    named job → job_State job ≠ StateRunning → step t (Create env job t).2
| step_update env job t :
    no_colon (Queue (job_Spec job)) → job_State job ≠ StateRunning → step t (Update env job t).2
| step_claim env worker queues limit t :
    Forall no_colon queues → step t (Claim env worker queues limit t).2
| step_append env e t : step t (AppendEvent env e t).2
| step_save env c t : step t (SaveCheckpoint env c t).2
| step_recover envs now t : step t (recover envs now t).2.

Definition empty_store (t : T) : Prop := ∀ k, kget k t = None.

Lemma Inv_empty t : empty_store t → Inv t.
Proof.
  intros He. assert (∀ id, loadTxn id t = Err ErrNotFound) as Hl
    by (intros; unfold loadTxn; by rewrite He).
  split.
  - intros id v. by rewrite He.
  - intros k v _. rewrite He. setoid_rewrite Hl. naive_solver.
  - intros k v _. by rewrite He.
  - intros j. by rewrite Hl.
  - intros id v. by rewrite He.
Qed.

(** A property of stores that each committed body preserves is preserved by the
    method that retries it. *)
Lemma retry_preserves {A} (P : T → Prop) env (body : T → result (T * A)) t :
  P t → (∀ t' a, body t = Ok (t', a) → P t') → P (retryTxnCtx env body t).2.
Proof.
  intros Ht Hb. destruct (retryTxnCtx env body t) as [r t'] eqn:Hr. simpl.
  destruct (retry_cases _ _ _ _ _ Hr) as [[-> _]|(a & Ha & _)]; eauto.
Qed.

Lemma recover_preserves (P : T → Prop) envs now t :
  P t → (∀ w id clk t t', P t → recoverOne_txn w id now clk t = Ok (t', ()) → P t') →
  P (recover envs now t).2.
Proof.
  intros Ht Hb. unfold recover. destruct (find_interrupted _ t) as [found|]; [|done].
  generalize 0 as i. revert t Ht.
  induction found as [|[w j] found IH]; intros t Ht i; cbn [recover_all]; [done|].
  pose proof (retry_preserves P (envs i) (recoverOne_txn w (job_ID j) now (clock (envs i))) t Ht) as Hp.
  unfold recoverOne. destruct (retryTxnCtx _ _ t) as [[[]|e] t1]; simpl in Hp.
  - apply IH, Hp. intros t' [] Hr. eauto.
  - apply Hp. intros t' [] Hr. eauto.
Qed.

Lemma recoverOne_inv w id now clk t t' :
  Inv t → recoverOne_txn w id now clk t = Ok (t', ()) → Inv t'.
Proof.
  intros Hi Hr. destruct (inv_load_cases t id Hi) as [[j Hl]|[Hl _]].
  - destruct (recoverOne_spec t w id now clk j Hi Hl) as (t1 & Hr' & ? & _).
    rewrite Hr in Hr'. by simplify_eq.
  - unfold recoverOne_txn in Hr. by rewrite Hl in Hr.
Qed.

Lemma Inv_step t t' : step t t' → Inv t → Inv t'.
Proof.
  intros Hs Hi. destruct Hs as [env job t Hn Hr|env job t Hq Hr|env w qs l t Hq|env e t|env c t|envs now t].
  - unfold Create. destruct (Job_Valid job); [done|]. apply retry_preserves; [done|].
    intros t' [] Hc. eapply create_txn_inv; [done| | |exact Hc].
    + destruct (time_is_zero _); [|done]. destruct Hn; by split.
    + by destruct (time_is_zero _).
  - unfold Update. destruct (Job_Valid job); [done|]. apply retry_preserves; [done|].
    intros t' [] Hc. by eapply update_txn_inv.
  - unfold Claim. case_bool_decide; [done|]. destruct (_ <=? _)%Z; [done|].
    apply retry_preserves; [done|]. intros t' c Hc.
    destruct (claim_queues_spec w (clock env 0) l qs [] t Hi) as (t1 & p & Hrun & ? & _); [done..|].
    rewrite Hc in Hrun. by simplify_eq.
  - unfold AppendEvent. destruct (Event_Valid e); [done|]. apply retry_preserves; [done|].
    intros t' [] Hc. by eapply append_inv.
  - unfold SaveCheckpoint. destruct (Checkpoint_Valid c); [done|]. apply retry_preserves; [done|].
    intros t' [] Hc. by eapply save_inv.
  - apply recover_preserves; [done|]. intros. by eapply recoverOne_inv.
Qed.

Lemma Inv_rtc t t' : rtc step t t' → Inv t → Inv t'.
Proof. induction 1; eauto using Inv_step. Qed.


(** ** Deduplication *)

(** Records, indexes, events and checkpoints live outside the [x:] family. *)
Lemma claim_loop_frame worker now limit items claimed t t' c k :
  claim_loop worker now limit items claimed t = Ok (t', c) →
  (∀ kv, kv ∈ items → has_prefix "q:" kv.1 = true) →
  has_prefix "x:" k = true → kget k t' = kget k t.
Proof.
  intros Hrun Hitems Hk. revert claimed t Hrun.
  induction items as [|[key v] items IH]; intros claimed t; cbn [claim_loop].
  { naive_solver. }
  assert (key ≠ k) as Hne.
  { intros ->. assert (has_prefix "q:" k = true) as Hq by (apply (Hitems (k, v)); by left).
    by eapply has_prefix_first in Hk; [|exact Hq]. }
  assert (∀ t1, kget k (kdel key t1) = kget k t1) as Hdel
    by (intros; by rewrite kget_kdel, decide_False).
  specialize (IH ltac:(intros kv Hkv; apply Hitems; by right)).
  destruct (_ <=? _)%Z; [naive_solver|].
  destruct (loadTxn (value_id v) t) as [j|e].
  - destruct (negb _); [intros Hr; by rewrite (IH _ _ Hr)|].
    destruct (not_due now j); [intros Hr; by rewrite (IH _ _ Hr)|].
    intros Hr. rewrite (IH _ _ Hr). rewrite kget_kset, decide_False by (intros <-; key_clash).
    rewrite Hdel, kget_kset, decide_False by (intros <-; key_clash). done.
  - destruct (errIsNotFound e); [|done]. intros Hr. by rewrite (IH _ _ Hr).
Qed.

Lemma claim_queues_frame worker now limit queues claimed t t' c k :
  claim_queues worker now limit queues claimed t = Ok (t', c) →
  has_prefix "x:" k = true → kget k t' = kget k t.
Proof.
  intros Hrun Hk. revert claimed t Hrun.
  induction queues as [|q queues IH]; intros claimed t; cbn [claim_queues]; [naive_solver|].
  destruct (_ <=? _)%Z; [naive_solver|]. intros ([t1 c1] & Hc & Hr)%rbind_ok.
  rewrite (IH _ _ Hr). eapply claim_loop_frame; [exact Hc| |done].
  intros [key v] [_ Hp]%kscan_spec. by eapply readyIndexPrefix_q.
Qed.

Lemma recoverOne_frame w id now clk t t' k :
  recoverOne_txn w id now clk t = Ok (t', ()) →
  has_prefix "x:" k = true → kget k t' = kget k t.
Proof.
  intros Hr Hk. unfold recoverOne_txn in Hr. apply rbind_ok in Hr as (j & Hl & Hr).
  assert (kget k (kdel (runningIndexKey w id) t) = kget k t) as H1
    by (rewrite kget_kdel, decide_False by (intros <-; key_clash); done).
  assert (∀ e t1 t2, appendEventTxn e t1 = Ok (t2, ()) → kget k t2 = kget k t1) as Ha.
  { intros e t1 t2 Ha. apply (append_frame _ _ _ _ Ha); by eapply has_prefix_other. }
  destruct (negb _); [by simplify_eq|].
  apply rbind_ok in Hr as ([t2 []] & Ha2 & Hr). apply Ha in Ha2.
  destruct (attempts_remain _).
  - apply Ha in Hr. rewrite Hr. rewrite !kget_kset, !decide_False by (intros <-; key_clash). congruence.
  - simplify_eq. rewrite kget_kset, decide_False by (intros <-; key_clash). congruence.
Qed.

(** A correlate id, once taken, stays taken by the same job. *)
Lemma step_correlate c v t t' :
  step t t' → kget (correlateKey c) t = Some v → kget (correlateKey c) t' = Some v.
Proof.
  intros Hs Hc. destruct Hs as [env job t Hn Hr|env job t Hq Hr|env w qs l t Hq|env e t|env ck t|envs now t].
  - unfold Create. destruct (Job_Valid job); [done|].
    apply (retry_preserves (λ t, kget (correlateKey c) t = Some v)); [done|].
    intros t' [] Ht. set (job' := if time_is_zero _ then _ else _) in *. revert Ht. unfold create_txn.
    destruct (kget (jobKey _) t); [done|]. intros (t1 & Hcor & Ht)%rbind_ok.
    assert (kget (correlateKey c) t1 = Some v) as H1.
    { clear Ht. revert Hcor. unfold create_correlate.
      case_bool_decide; [intros; by simplify_eq|].
      destruct (kget (correlateKey (CorrelateID (job_Spec job'))) t) eqn:E; [done|].
      intros Heq. simplify_eq. rewrite kget_kset, decide_False; [done|].
      intros Heq. rewrite Heq in E. congruence. }
    case_bool_decide; simplify_eq;
      rewrite !kget_kset; repeat (rewrite decide_False by (intros ?; key_clash)); done.
  - unfold Update. destruct (Job_Valid job); [done|].
    apply (retry_preserves (λ t, kget (correlateKey c) t = Some v)); [done|].
    intros t' [] (old & _ & Hget)%update_txn_get. rewrite Hget. kv_cases.
  - unfold Claim. case_bool_decide; [done|]. destruct (_ <=? _)%Z; [done|].
    apply (retry_preserves (λ t, kget (correlateKey c) t = Some v)); [done|].
    intros t' cl Hr. by rewrite (claim_queues_frame _ _ _ _ _ _ _ _ _ Hr).
  - unfold AppendEvent. destruct (Event_Valid e); [done|].
    apply (retry_preserves (λ t, kget (correlateKey c) t = Some v)); [done|].
    intros t' [] Hr. by rewrite (append_frame _ _ _ _ Hr).
  - unfold SaveCheckpoint. destruct (Checkpoint_Valid ck); [done|].
    apply (retry_preserves (λ t, kget (correlateKey c) t = Some v)); [done|].
    intros t' [] Hr. unfold save_txn in Hr. simplify_eq.
    destruct (kget (checkpointKey _) t); kv_cases.
  - apply (recover_preserves (λ t, kget (correlateKey c) t = Some v)); [done|].
    intros w id clk t1 t2 H1 Hr. by rewrite (recoverOne_frame _ _ _ _ _ _ _ Hr).
Qed.

(** Submissions are idempotent: once a job with a correlate id has been
    created, every later [Create] with that correlate id, after any activity of
    the store, leaves the store unchanged and never succeeds; a valid one under a
    live context reports [ErrExists]. *)
Theorem create_idempotent env job t t1 t2 env' job' :
  Create env job t = (Ok (), t1) → CorrelateID (job_Spec job) ≠ EmptyString →
  rtc step t1 t2 → CorrelateID (job_Spec job') = CorrelateID (job_Spec job) →
  (Create env' job' t2).2 = t2 ∧ (Create env' job' t2).1 ≠ Ok () ∧
  (Job_Valid job' = None → ctx_err env' 0 = None → (Create env' job' t2).1 = Err ErrExists).
Proof.
  intros Hc Hne Hr Heq.
  assert (∃ v, kget (correlateKey (CorrelateID (job_Spec job))) t2 = Some v) as [v Hv].
  { assert (∃ v, kget (correlateKey (CorrelateID (job_Spec job))) t1 = Some v) as [v Hv].
    { unfold Create in Hc. destruct (Job_Valid job); [done|].
      set (job1 := if time_is_zero _ then _ else _) in Hc.
      assert (job_Spec job1 = job_Spec job) as Hsp by (subst job1; by destruct (time_is_zero _)).
      apply retry_cases in Hc as [[_ [? ?]]|([] & Hb & _)]; [done|].
      apply create_txn_get in Hb as [_ Hget]. rewrite Hget, Hsp. kv_cases; naive_solver. }
    exists v. clear -Hr Hv KVLaws0. induction Hr; eauto using step_correlate. }
  assert (∀ j, job_Spec j = job_Spec job' → create_txn j t2 = Err ErrExists) as Hfail.
  { intros j Hj. unfold create_txn. destruct (kget (jobKey _) t2); [done|].
    unfold create_correlate. rewrite Hj, Heq, bool_decide_false by done. by rewrite Hv. }
  unfold Create. destruct (Job_Valid job'); [naive_solver|].
  set (job1 := if time_is_zero _ then _ else _).
  assert (job_Spec job1 = job_Spec job') as Hsp by (subst job1; by destruct (time_is_zero _)).
  pose proof (Hfail job1 Hsp) as Hf.
  destruct (retryTxnCtx env' (create_txn job1) t2) as [r t'] eqn:Hr'.
  destruct (retry_cases _ _ _ _ _ Hr') as [[-> [e ->]]|([] & Hb & _)]; [|congruence].
  split_and!; [done..|]. intros _ Hctx. revert Hr'. unfold retryTxnCtx, maxConflictRetries.
  cbn [retry_loop]. rewrite Hctx. unfold db_update. rewrite Hf.
  change (errors_is ErrExists badger_ErrConflict) with false. cbn iota. naive_solver.
Qed.
End steps.

(** ** The event log

    The event log and the checkpoints of [context/jobsstore/jobsstore.go]: per job
    the event keys spell out an append-only sequence, and a saved checkpoint reads
    back until the next save. *)
Section events.
Context {T : Type} `{KVT : !KV T Value} `{!KVLaws T Value}.
Implicit Types t : T.

(** ** Scans are determined by their entries *)

Lemma sorted_pairs_unique (l l' : list (string * Value)) :
  StronglySorted str_lt l.*1 → StronglySorted str_lt l'.*1 → (∀ kv, kv ∈ l ↔ kv ∈ l') → l = l'.
Proof.
  assert (∀ l : list (string * Value), StronglySorted str_lt l.*1 →
    StronglySorted (λ a b, str_lt a.1 b.1) l ∧ NoDup l) as Hlift.
  { clear. induction l as [|kv l IH]; csimpl; [split; constructor|].
    inversion 1 as [|? ? Hs Hall]; subst. destruct (IH Hs) as [IH1 IH2].
    rewrite Forall_fmap in Hall. split; constructor; [done..| |done].
    intros Hin. rewrite Forall_forall in Hall. by apply Hall, str_lt_irrefl in Hin. }
  intros [Hs Hn]%Hlift [Hs' Hn']%Hlift Hiff.
  apply (StronglySorted_unique_strong (λ a b, str_lt a.1 b.1)); [|done..|by apply NoDup_Permutation].
  intros x y _ _ Hxy Hyx. by apply str_lt_asym in Hxy.
Qed.

Lemma kscan_ext p t t' :
  (∀ k, has_prefix p k = true → kget k t' = kget k t) → kscan p t' = kscan p t.
Proof.
  intros Hk. apply sorted_pairs_unique; [apply kscan_sorted..|].
  intros [k v]. rewrite !kscan_spec. split; intros [Hg Hp]; split; [by rewrite <- Hk|done| |done].
  by rewrite Hk.
Qed.

(** ** The log of a job *)
Definition log_of (id : string) (es : list Event) : list (string * Value) :=
  imap (λ i e, (eventKey id (Z.of_nat i + 1), VEvent e)) es.

Record logs (t : T) (id : string) (es : list Event) : Prop := {
  logs_scan : kscan (eventPrefix id) t = log_of id es;
  logs_counter : kget (eventSeqKey id) t =
    if decide (es = []) then None else Some (VSeq (Z.of_nat (length es)))
}.

Lemma log_of_snoc id es e :
  log_of id (es ++ [e]) = log_of id es ++ [(eventKey id (Z.of_nat (length es) + 1), VEvent e)].
Proof. unfold log_of. rewrite imap_app. csimpl. by rewrite Nat.add_0_r. Qed.

Lemma events_loop_app l1 l2 :
  events_loop (l1 ++ l2) = let! a := events_loop l1 in let! b := events_loop l2 in Ok (a ++ b).
Proof.
  induction l1 as [|[k v] l1 IH]; csimpl; [by destruct (events_loop l2)|].
  destruct v; csimpl; [done|done| |done|done]. rewrite IH.
  destruct (events_loop l1); csimpl; [|done]. by destruct (events_loop l2).
Qed.

Lemma Events_logs t id es : logs t id es → Events id t = Ok es.
Proof.
  intros [Hs _]. unfold Events. rewrite Hs. clear Hs.
  induction es as [|e es IH] using rev_ind; [done|].
  by rewrite log_of_snoc, events_loop_app, IH.
Qed.

(** Sequence numbers of one job sort as they were issued. *)
Lemma eventKey_lt id n m :
  (0 <= n < m)%Z → (m < 2 ^ 64)%Z → str_lt (eventKey id n) (eventKey id m).
Proof.
  intros Hn Hm. unfold str_lt, eventKey. rewrite !str_compare_app.
  rewrite !fmt_pad_fits by lia. rewrite fixdigits_compare by lia. apply Z.compare_lt_iff. lia.
Qed.

Lemma eventPrefix_key id id' n :
  no_colon id → no_colon id' → has_prefix (eventPrefix id') (eventKey id n) = true → id' = id.
Proof.
  intros Hc Hc' [s Heq]%has_prefix_spec. unfold eventPrefix, eventKey in Heq.
  rewrite !str_app_assoc in Heq. apply (inj (String.app "e:")) in Heq.
  rewrite colon_app in Heq. change (":" +:+ s) with (String colon s) in Heq.
  by apply sep_inj in Heq as [-> _].
Qed.

Lemma log_before id es k v :
  (k, v) ∈ log_of id es → (Z.of_nat (length es) + 1 < 2 ^ 64)%Z →
  str_lt k (eventKey id (Z.of_nat (length es) + 1)).
Proof.
  intros (i & Hi)%list_elem_of_lookup Hb. unfold log_of in Hi. rewrite list_lookup_imap in Hi.
  destruct (es !! i) eqn:E; simplify_eq/=. apply lookup_lt_Some in E. apply eventKey_lt; lia.
Qed.

Lemma sorted_snoc (l : list string) x :
  StronglySorted str_lt l → (∀ y, y ∈ l → str_lt y x) → StronglySorted str_lt (l ++ [x]).
Proof.
  induction 1 as [|y l Hl IH Hy]; intros Hx; csimpl; [by repeat constructor|].
  constructor; [apply IH; set_solver|]. apply Forall_app. split; [done|].
  apply Forall_singleton, Hx. by left.
Qed.

Lemma append_logs t t' e es :
  no_colon (event_JobID e) → logs t (event_JobID e) es → (Z.of_nat (length es) + 1 < 2 ^ 64)%Z →
  appendEventTxn e t = Ok (t', ()) → logs t' (event_JobID e) (es ++ [e]).
Proof.
  intros Hc [Hs Hn] Hb (seq & Hseq & Hget)%append_get. set (id := event_JobID e) in *.
  assert (seq = Z.of_nat (length es)) as ->.
  { rewrite Hn in Hseq. case_decide; [subst; naive_solver|]. destruct Hseq; naive_solver. }
  assert (wrapu64 (Z.of_nat (length es) + 1) = Z.of_nat (length es) + 1)%Z as Hw
    by (unfold wrapu64; apply Z.mod_small; lia).
  rewrite Hw in Hget. split.
  - rewrite log_of_snoc, <- Hs. apply sorted_pairs_unique; [apply kscan_sorted|..].
    + rewrite fmap_app. csimpl. apply sorted_snoc; [apply kscan_sorted|].
      intros k ([k' v] & -> & Hin)%list_elem_of_fmap. rewrite Hs in Hin. by eapply log_before.
    + intros [k v]. rewrite elem_of_app, list_elem_of_singleton, !kscan_spec, Hget.
      split.
      * intros [Hk Hp]. rewrite decide_False in Hk by (intros ->; key_clash).
        case_decide; [right; congruence|auto].
      * intros [[Hk Hp]|[= -> ->]].
        -- split; [|done]. rewrite decide_False by (intros ->; key_clash).
           rewrite decide_False; [done|]. intros ->.
           assert ((eventKey id (Z.of_nat (length es) + 1), v) ∈ log_of id es) as Hin
             by (rewrite <- Hs; apply kscan_spec; done).
           by apply log_before, str_lt_irrefl in Hin.
        -- rewrite decide_False by (intros ?; key_clash). rewrite decide_True by done.
           split; [done|]. unfold eventPrefix, eventKey. apply has_prefix_spec. eexists.
           by rewrite !str_app_assoc.
  - rewrite Hget, decide_True by done. rewrite decide_False by (by destruct es).
    rewrite length_app. simpl. do 2 f_equal. lia.
Qed.

Lemma append_logs_other t t' e id es :
  no_colon (event_JobID e) → no_colon id → id ≠ event_JobID e → logs t id es →
  appendEventTxn e t = Ok (t', ()) → logs t' id es.
Proof.
  intros Hc Hc' Hne [Hs Hn] (seq & _ & Hget)%append_get. split.
  - rewrite <- Hs. apply kscan_ext. intros k Hp. rewrite Hget.
    rewrite decide_False by (intros ->; key_clash).
    rewrite decide_False; [done|]. intros ->. by apply Hne, (eventPrefix_key _ _ _ Hc Hc' Hp).
  - rewrite Hget, <- Hn. rewrite decide_False, decide_False; [done|intros ?; key_clash|].
    unfold eventSeqKey. by intros ?%(inj (String.app "n:")).
Qed.

(** Every job of an untouched log has the empty history. *)
Lemma logs_empty t id : (∀ k, kget k t = None) → logs t id [].
Proof.
  intros He. split; [|by rewrite decide_True].
  destruct (kscan (eventPrefix id) t) as [|[k v] l] eqn:E; [done|].
  assert ((k, v) ∈ kscan (eventPrefix id) t) as [Hk _]%kscan_spec by (rewrite E; by left).
  by rewrite He in Hk.
Qed.

(** The event log is append-only and replays in order: a successful
    [AppendEvent] turns the history [es] of its job, as [Events] reads it, into
    [es] followed by the event, while the history of every other job is what it
    was; a failed one changes nothing. *)
Theorem events_append_only env e t r t' es :
  no_colon (event_JobID e) → logs t (event_JobID e) es → (Z.of_nat (length es) + 1 < 2 ^ 64)%Z →
  AppendEvent env e t = (r, t') →
  (r = Ok () → logs t' (event_JobID e) (es ++ [e]) ∧ Events (event_JobID e) t' = Ok (es ++ [e])) ∧
  (∀ id es', no_colon id → id ≠ event_JobID e → logs t id es' → Events id t' = Ok es') ∧
  (r ≠ Ok () → t' = t).
Proof.
  intros Hc Hl Hb. unfold AppendEvent. destruct (Event_Valid e).
  { intros [= <- <-]. split_and!; [done| |done]. intros. by apply Events_logs. }
  intros [[-> [er ->]]|([] & Ha & ->)]%retry_cases.
  { split_and!; [done| |done]. intros. by apply Events_logs. }
  split_and!; [intros _| |done].
  - assert (logs t' (event_JobID e) (es ++ [e])) as Hl' by by eapply append_logs.
    split; [done|by apply Events_logs].
  - intros id es' Hc' Hne Hl'. apply Events_logs. by eapply append_logs_other.
Qed.

(** ** Checkpoints *)

(** A saved checkpoint replaces the previous one of its job and reads back
    unchanged; the checkpoints of other jobs, the records and the logs are
    untouched. *)
Theorem checkpoint_roundtrip env c t t' :
  SaveCheckpoint env c t = (Ok (), t') →
  LoadCheckpoint (ckpt_JobID c) t' = Ok c ∧ hasCheckpointTxn (ckpt_JobID c) t' = true ∧
  (∀ id, id ≠ ckpt_JobID c → LoadCheckpoint id t' = LoadCheckpoint id t) ∧
  (∀ id, Load id t' = Load id t) ∧ (∀ id, Events id t' = Events id t).
Proof.
  unfold SaveCheckpoint. destruct (Checkpoint_Valid c); [done|].
  intros [[_ [er ?]]|([] & Hs & _)]%retry_cases; [done|].
  assert (∀ k, kget k t' = if decide (k = checkpointKey (ckpt_JobID c)) then Some (VCkpt c)
                           else kget k t) as Hget.
  { intros k. unfold save_txn in Hs. simplify_eq. destruct (kget (checkpointKey _) t); kv_cases. }
  unfold LoadCheckpoint, hasCheckpointTxn, Load, loadTxn, Events.
  rewrite !Hget, decide_True by done. split_and!; [done|by rewrite bool_decide_true|..].
  - intros id Hne. rewrite Hget, decide_False; [done|].
    unfold checkpointKey. by intros ?%(inj (String.app "c:")).
  - intros id. rewrite Hget, decide_False; [done|]. intros ?; key_clash.
  - intros id. f_equal. apply kscan_ext. intros k Hk. rewrite Hget, decide_False; [done|].
    intros ->; key_clash.
Qed.
End events.
