(* ===== verification/JobsStoreExamples.v ===== *)
(** * JobsStoreExamples

    The theorems of the jobs store at concrete stores, over the map instance of
    the key-value interface, and what the key encoding does with colons. *)
From S2P Require Import Prelude GoStrings Jobs KV JobsStore JobsStoreInv JobsStoreClaim.
From S2P Require Import JobsStoreSteps.

Abbreviation Store := (gmap string Value).

(** A call that commits at its first try, at time [now]. *)
Definition env_at (now : Time) : Env :=
  {| ctx_err := λ _, None; outcome := λ _, Commit; clock := λ _, now |}.

(** A call that meets one conflict first. *)
Definition env_conflict (now : Time) : Env :=
  {| ctx_err := λ _, None; outcome := λ i, if decide (i = 0) then Conflict else Commit;
     clock := λ _, now |}.

Definition sample_job (id correlate : string) (priority created : Z) : Job :=
  {| job_ID := id;
     job_Spec := {| Kind := "sweep"; Payload := Some "{}"; Queue := "knowledge";
       Priority := priority; MaxAttempts := 2; Backoff := second; Timeout := 0;
       Spec_Labels := []; Spec_Tags := []; CorrelateID := correlate |};
     job_State := StateQueued; Attempt := 0; CreatedAt := created; UpdatedAt := created;
     CompletedAt := zero_time; NextAttemptAt := zero_time; LastError := EmptyString;
     job_Labels := []; job_Tags := []; job_Metadata := []; ResumeToken := EmptyString |}.

Definition job_a := sample_job "job-a" "a" 0 100.
Definition job_b := sample_job "job-b" "b" 7 200.

Definition store0 : Store := ∅.
Definition store_a : Store := (Create (env_at 300) job_a store0).2.
Definition store_ab : Store := (Create (env_conflict 300) job_b store_a).2.
Definition store_run : Store := (Claim (env_at 400) "w0" ["knowledge"] 1 store_ab).2.

Lemma empty_store0 : empty_store store0.
Proof. intros k. apply lookup_empty. Qed.

Lemma named_a : named job_a.
Proof. by split. Qed.

Lemma named_b : named job_b.
Proof. by split. Qed.

Lemma steps_ab : rtc step store0 store_ab.
Proof.
  eapply rtc_l; [apply (step_create (env_at 300) job_a store0 named_a); done|].
  eapply rtc_l; [apply (step_create (env_conflict 300) job_b store_a named_b); done|].
  apply rtc_refl.
Qed.

Lemma inv_ab : Inv store_ab.
Proof. exact (Inv_rtc _ _ steps_ab (Inv_empty _ empty_store0)). Qed.

Lemma inv_run : Inv store_run.
Proof.
  eapply Inv_step; [|exact inv_ab]. apply step_claim. by repeat constructor.
Qed.

Lemma commits_at now : commits (env_at now).
Proof. exists 0. split_and!; [unfold maxConflictRetries; lia|done..|lia]. Qed.


Lemma create_idempotent_witness :
  (Create (env_at 900) (sample_job "job-c" "a" 0 500) store_ab).1 = Err ErrExists.
Proof.
  apply (create_idempotent (env_at 300) job_a store0 store_a store_ab (env_at 900)
           (sample_job "job-c" "a" 0 500));
    [apply injective_projections; [vm_compute; reflexivity|reflexivity]|done| |done|done|done].
  apply rtc_once. apply (step_create (env_conflict 300) job_b store_a named_b). done.
Defined.

Lemma claim_sound_complete_witness :
  ∃ picked, [flip_running 400 job_b] = flip_running 400 <$> picked ∧
    picked_from 400 ["knowledge"] 1 0 store_ab picked ∧ flipped 400 picked store_ab store_run ∧
    Inv store_run.
Proof.
  apply (claim_sound_complete (env_at 400) "w0" ["knowledge"] 1 store_ab);
    [exact inv_ab|by repeat constructor|lia|].
  apply injective_projections; [vm_compute; reflexivity|reflexivity].
Defined.

Definition job_values (m : Store) : list Job :=
  omap (λ kv : string * Value, match kv.2 with VJob j => Some j | _ => None end) (map_to_list m).

Lemma job_values_load (m : Store) id j : loadTxn id m = Ok j → j ∈ job_values m.
Proof.
  intros Hl%load_spec. apply list_elem_of_omap. exists (jobKey id, VJob j).
  split; [by apply elem_of_map_to_list|done].
Qed.

Lemma dated_ab j : queued_in store_ab j → dated j.
Proof.
  intros [Hl%job_values_load _].
  assert (Forall (.∈ [job_a; job_b]) (job_values store_ab)) as Hall
    by (apply (bool_decide_unpack _); vm_compute; exact I).
  rewrite Forall_forall in Hall. apply Hall in Hl. unfold dated, int64_max.
  apply elem_of_cons in Hl as [->|Hl]; [simpl; lia|].
  apply list_elem_of_singleton in Hl. subst. simpl. lia.
Qed.

Lemma claim_order_witness :
  (Claim (env_at 400) "w0" ["knowledge"] 2 store_ab).1 =
    Ok [flip_running 400 job_b; flip_running 400 job_a] ∧
  StronglySorted claim_before (ready_jobs "knowledge" store_ab).
Proof.
  destruct (claim_order (env_at 400) "w0" "knowledge" 2 store_ab inv_ab eq_refl) as (Hc & Hs & _);
    [done|lia|apply commits_at|exact dated_ab|].
  split; [rewrite Hc; vm_compute; reflexivity|exact Hs].
Defined.

Lemma claim_exactly_once_witness : NoDup (job_ID <$> [flip_running 400 job_b] ++ [flip_running 500 job_a]).
Proof.
  apply (claim_exactly_once (env_at 400) "w0" ["knowledge"] 1 [flip_running 400 job_b]
           (env_at 500) "w1" ["knowledge"] 5 [flip_running 500 job_a] store_ab store_run
           (Claim (env_at 500) "w1" ["knowledge"] 5 store_run).2);
    [exact inv_ab|by repeat constructor|by repeat constructor|..];
    (apply injective_projections; [vm_compute; reflexivity|reflexivity]).
Defined.

Lemma recover_spec_witness :
  ∃ t', recover (λ _, env_at 900) 900 store_run = (Ok (), t') ∧
    loadTxn "job-b" t' = Ok (requeued_job 900 false (interrupted_job 900 (flip_running 400 job_b))).
Proof.
  destruct (recover_spec (λ _, env_at 900) 900 store_run inv_run (λ _, commits_at 900))
    as (t' & Hr & _ & Hall & _).
  exists t'. split; [exact Hr|].
  rewrite (Hall "job-b" (flip_running 400 job_b)); [vm_compute; reflexivity|].
  vm_compute. reflexivity.
Defined.

Definition event_a (n : Z) : Event :=
  {| event_ID := "ev"; event_JobID := "job-a"; event_Type := EventStarted;
     event_State := StateRunning; Occurred := n; Message := EmptyString; event_Metadata := [] |}.

Lemma events_append_only_witness :
  Events "job-a" (AppendEvent (env_at 400) (event_a 400) store0).2 = Ok [event_a 400].
Proof.
  refine (proj2 (proj1 (events_append_only (env_at 400) (event_a 400) store0 (Ok ())
    (AppendEvent (env_at 400) (event_a 400) store0).2 [] _ _ _ _) eq_refl)).
  - reflexivity.
  - apply logs_empty, empty_store0.
  - reflexivity.
  - apply injective_projections; [vm_compute; reflexivity|reflexivity].
Defined.

Definition ckpt_a : Checkpoint :=
  {| ckpt_ID := "ck"; ckpt_JobID := "job-a"; ckpt_State := Some "{}"; Token := "tok";
     Created := 400 |}.

Lemma checkpoint_roundtrip_witness :
  LoadCheckpoint "job-a" (SaveCheckpoint (env_at 400) ckpt_a store_ab).2 = Ok ckpt_a.
Proof.
  apply (checkpoint_roundtrip (env_at 400) ckpt_a store_ab).
  apply injective_projections; [vm_compute; reflexivity|reflexivity].
Defined.

(** ** Colons in job ids *)
Definition job_colon := sample_job "job-a:b" "a:b" 0 100.

(** A job whose id contains a colon (ids are built from the correlate id
    of the submission) is lost to recovery: it is created and claimed like any
    other, but its running-index key parses to another id, and after recovery it
    is still running. *)
Theorem colon_id_never_recovered :
  let created := (Create (env_at 300) job_colon store0).2 in
  let claimed := Claim (env_at 400) "w0" ["knowledge"] 1 created in
  let recovered := recover (λ _, env_at 900) 900 claimed.2 in
  Job_Valid job_colon = None ∧
  claimed.1 = Ok [flip_running 400 job_colon] ∧
  recovered.1 = Ok () ∧
  loadTxn "job-a:b" recovered.2 = Ok (flip_running 400 job_colon).
Proof. vm_compute. done. Qed.
