(* ===== verification/GoLoop.v ===== *)
(** * Loops

    Loops, and the runes of [unicode/utf8] that they run over.  Go's [for] loops in a state and error monad with fuel, and the rules that
    reason about them.  A computation runs on a state, may fail with an error and, when
    the fuel of one of its loops is spent, has no result at all.  The rules give a
    loop a result from a decreasing measure, and a postcondition from an invariant. *)
From S2P Require Import Prelude GoStrings.

Local Open Scope nat_scope.

(** ** Computations *)
Definition FM (S A : Type) : Type := S → option (result A * S).

Definition fm_ret {S A} (a : A) : FM S A := λ s, Some (Ok a, s).
Definition fm_err {S A} (e : gerror) : FM S A := λ s, Some (Err e, s).
Definition fm_get {S A} (f : S → A) : FM S A := λ s, Some (Ok (f s), s).
Definition fm_mod {S} (f : S → S) : FM S unit := λ s, Some (Ok (), f s).
Definition fm_bind {S A B} (m : FM S A) (k : A → FM S B) : FM S B := λ s,
  match m s with
  | Some (Ok a, s') => k a s'
  | Some (Err e, s') => Some (Err e, s')
  | None => None
  end.
(** The error of [m] as a value: [if err != nil]. *)
Definition fm_try {S A} (m : FM S A) : FM S (result A) := λ s,
  match m s with Some (r, s') => Some (Ok r, s') | None => None end.

Declare Scope loop_scope.
Delimit Scope loop_scope with loop.
Notation "'do*' x := m 'in' k" := (fm_bind m (λ x, k))
  (at level 200, x pattern, m at level 100, k at level 200, right associativity) : loop_scope.
Notation "m ;; k" := (fm_bind m (λ _, k)) (at level 100, k at level 200, right associativity) : loop_scope.

(** [for { body }]: [inl] goes round again with the loop's variables, [inr] leaves. *)
Fixpoint loop {S X R} (n : nat) (body : X → FM S (X + R)) (x : X) : FM S R :=
  match n with
  | O => λ _, None
  | S n' => fm_bind (body x) (λ r, match r with inl x' => loop n' body x' | inr r => fm_ret r end)
  end.

(** ** Outcomes

    [fm_ok o Q E]: the outcome [o] is a result; a value satisfies [Q] and an error
    [E], with the state it leaves. *)
Definition fm_ok {S A} (o : option (result A * S)) (Q : A → S → Prop) (E : S → Prop) : Prop :=
  match o with
  | Some (Ok a, s') => Q a s'
  | Some (Err _, s') => E s'
  | None => False
  end.

Section rules.
Context {S : Type}.

Lemma fm_ok_some {A} (o : option (result A * S)) Q E : fm_ok o Q E → is_Some o.
Proof. unfold fm_ok. destruct o; [eauto|done]. Qed.

Lemma fm_ok_weaken {A} (o : option (result A * S)) Q E (Q' : A → S → Prop) (E' : S → Prop) :
  fm_ok o Q E → (∀ a s', Q a s' → Q' a s') → (∀ s', E s' → E' s') → fm_ok o Q' E'.
Proof. unfold fm_ok. destruct o as [[[a|e] s']|]; eauto. Qed.

Lemma fm_ok_ret {A} (a : A) s (Q : A → S → Prop) E : Q a s → fm_ok (fm_ret a s) Q E.
Proof. done. Qed.

Lemma fm_ok_err {A} e s (Q : A → S → Prop) (E : S → Prop) : E s → fm_ok (fm_err e s) Q E.
Proof. done. Qed.

Lemma fm_ok_get {A} (f : S → A) s (Q : A → S → Prop) E : Q (f s) s → fm_ok (fm_get f s) Q E.
Proof. done. Qed.

Lemma fm_ok_mod (f : S → S) s (Q : () → S → Prop) E : Q () (f s) → fm_ok (fm_mod f s) Q E.
Proof. done. Qed.

Lemma fm_ok_bind {A B} (m : FM S A) (k : A → FM S B) s Q E :
  fm_ok (m s) (λ a s', fm_ok (k a s') Q E) E → fm_ok (fm_bind m k s) Q E.
Proof. unfold fm_ok, fm_bind. destruct (m s) as [[[a|e] s']|]; eauto. Qed.

Lemma fm_ok_try {A} (m : FM S A) s (Q : result A → S → Prop) E :
  fm_ok (m s) (λ a, Q (Ok a)) (λ s', ∀ e, Q (Err e) s') → fm_ok (fm_try m s) Q E.
Proof. unfold fm_ok, fm_try. destruct (m s) as [[[a|e] s']|]; eauto. Qed.

(** A step with a known outcome, then the rest. *)
Lemma fm_ok_then {A B} (m : FM S A) (k : A → FM S B) s (P : A → S → Prop) Q E :
  fm_ok (m s) P E → (∀ a s', P a s' → fm_ok (k a s') Q E) → fm_ok (fm_bind m k s) Q E.
Proof. intros Hm Hk. apply fm_ok_bind. by eapply fm_ok_weaken. Qed.

(** A loop whose body keeps [I] and lowers [μ] each time it goes round. *)
Lemma fm_ok_loop {X R} (body : X → FM S (X + R)) (I : X → S → Prop) (μ : X → S → nat) Q E :
  (∀ x s, I x s →
    fm_ok (body x s) (λ r s', match r with inl x' => I x' s' ∧ μ x' s' < μ x s | inr r => Q r s' end) E) →
  ∀ n x s, I x s → μ x s < n → fm_ok (loop n body x s) Q E.
Proof.
  intros Hb n. induction n as [|n IH]; intros x s HI Hn; [lia|]. cbn.
  eapply fm_ok_then; [by apply Hb|].
  intros [x'|r] s'; [|done]. intros [HI' Hlt]. apply IH; [done|lia].
Qed.
End rules.

(** A loop without variables of its own. *)
Definition while {S R} (n : nat) (body : FM S (option R)) : FM S R :=
  loop n (λ _ : (), fm_bind body (λ r, fm_ret (match r with Some r => inr r | None => inl () end))) ().

Lemma fm_ok_while {S R} (body : FM S (option R)) (I : S → Prop) (μ : S → nat) (Q : R → S → Prop) E :
  (∀ s, I s → fm_ok (body s) (λ r s', match r with None => I s' ∧ μ s' < μ s | Some r => Q r s' end) E) →
  ∀ n s, I s → μ s < n → fm_ok (while n body s) Q E.
Proof.
  intros Hb n s HI Hn. unfold while.
  apply (fm_ok_loop _ (λ _, I) (λ _, μ)); [|done|done].
  intros [] t Ht. eapply fm_ok_then; [by apply Hb|].
  intros [r|] t' H; by apply fm_ok_ret.
Qed.

(** ** UTF-8

    What the source uses of Go's [unicode/utf8] and [strings.ReplaceAll]: a rune is a
    [Z]; decoding an invalid sequence gives [RuneError] and one byte, as in Go. *)
Local Open Scope Z_scope.

Definition RuneError : Z := 65533.

Definition byte_at (n : nat) (s : string) : option Z :=
  match str_drop n s with
  | String a _ => Some (Z.of_nat (nat_of_ascii a))
  | EmptyString => None
  end.

Definition within (lo hi : Z) (b : option Z) : bool :=
  match b with Some z => (lo <=? z) && (z <=? hi) | None => false end.

(** The range of the second byte after the first byte [b0]. *)
Definition second_range (b0 : Z) : Z * Z :=
  if b0 =? 224 then (160, 191) else if b0 =? 237 then (128, 159)
  else if b0 =? 240 then (144, 191) else if b0 =? 244 then (128, 143) else (128, 191).

Definition low6 (b : option Z) : Z := match b with Some z => Z.land z 63 | None => 0 end.

(** [utf8.DecodeRuneInString]: the rune and its width in bytes. *)
Definition DecodeRuneInString (s : string) : Z * nat :=
  match byte_at 0 s with
  | None => (RuneError, 0%nat)
  | Some b0 =>
    let '(lo, hi) := second_range b0 in
    if b0 <? 128 then (b0, 1%nat)
    else if b0 <? 194 then (RuneError, 1%nat)
    else if b0 <? 224 then
      if within lo hi (byte_at 1 s)
      then (Z.lor (Z.shiftl (Z.land b0 31) 6) (low6 (byte_at 1 s)), 2%nat) else (RuneError, 1%nat)
    else if b0 <? 240 then
      if within lo hi (byte_at 1 s) && within 128 191 (byte_at 2 s)
      then (Z.lor (Z.lor (Z.shiftl (Z.land b0 15) 12) (Z.shiftl (low6 (byte_at 1 s)) 6))
              (low6 (byte_at 2 s)), 3%nat)
      else (RuneError, 1%nat)
    else if b0 <? 245 then
      if within lo hi (byte_at 1 s) && within 128 191 (byte_at 2 s) && within 128 191 (byte_at 3 s)
      then (Z.lor (Z.lor (Z.shiftl (Z.land b0 7) 18) (Z.shiftl (low6 (byte_at 1 s)) 12))
              (Z.lor (Z.shiftl (low6 (byte_at 2 s)) 6) (low6 (byte_at 3 s))), 4%nat)
      else (RuneError, 1%nat)
    else (RuneError, 1%nat)
  end.

(** [utf8.RuneCountInString]. *)
Fixpoint rune_count (fuel : nat) (s : string) : Z :=
  match fuel, s with
  | S fuel, String _ _ => 1 + rune_count fuel (str_drop (DecodeRuneInString s).2 s)
  | _, _ => 0
  end.
Definition RuneCountInString (s : string) : Z := rune_count (String.length s) s.

(** [strings.ReplaceAll] for a non-empty [old]. *)
Fixpoint replace_all (fuel : nat) (old new s : string) : string :=
  match fuel, s with
  | S fuel, String a s' =>
    if has_prefix old s then new +:+ replace_all fuel old new (str_drop (String.length old) s)
    else String a (replace_all fuel old new s')
  | _, _ => s
  end.
Definition ReplaceAll (s old new : string) : string := replace_all (String.length s) old new s.

(** ** Decoding *)
Local Open Scope nat_scope.

Lemma str_drop_length n s : String.length (str_drop n s) = (String.length s - n)%nat.
Proof. revert n; induction s as [|a s IH]; intros [|n]; cbn; auto. Qed.

Lemma str_drop_drop n m s : str_drop n (str_drop m s) = str_drop (m + n) s.
Proof. revert m; induction s as [|a s IH]; intros [|m]; cbn; auto; by destruct n. Qed.

Lemma byte_at_some n s z : byte_at n s = Some z → (n < String.length s)%nat.
Proof.
  unfold byte_at. pose proof (str_drop_length n s) as H.
  destruct (str_drop n s) eqn:E; [done|]. cbn in H. lia.
Qed.

Lemma within_some lo hi b : within lo hi b = true → ∃ z, b = Some z ∧ (lo <= z <= hi)%Z.
Proof.
  destruct b as [z|]; [|done]. unfold within. rewrite andb_true_iff, !Z.leb_le. eauto.
Qed.

Lemma decode_width s : s ≠ EmptyString →
  1 ≤ (DecodeRuneInString s).2 ≤ String.length s.
Proof.
  intros Hs. unfold DecodeRuneInString.
  destruct s as [|a s]; [done|]. set (u := String a s).
  assert (1 ≤ String.length u) by (subst u; cbn; lia).
  change (byte_at 0 u) with (Some (Z.of_nat (nat_of_ascii a))). cbv iota.
  destruct (second_range _) as [lo hi].
  repeat match goal with |- context [if ?b then _ else _] => destruct b eqn:? end; cbn [snd];
    repeat match goal with
      | H : _ && _ = true |- _ => apply andb_prop in H as [? ?]
      | H : within _ _ (byte_at _ _) = true |- _ =>
        apply within_some in H as (? & H & _); apply byte_at_some in H
      end; lia.
Qed.

(** A byte below 128 is its own rune, and no other rune is below 128. *)
Lemma decode_ascii a s : (nat_of_ascii a < 128)%nat →
  DecodeRuneInString (String a s) = (Z.of_nat (nat_of_ascii a), 1%nat).
Proof.
  intros Ha. unfold DecodeRuneInString. cbn [byte_at str_drop].
  destruct (second_range _). by replace (Z.of_nat (nat_of_ascii a) <? 128)%Z with true by lia.
Qed.

(** ** Newlines

    A rune is one ASCII byte, or it is at least 128 and so are its bytes. *)
Fixpoint high_bytes (s : string) : Prop :=
  match s with EmptyString => True | String a s => 128 ≤ nat_of_ascii a ∧ high_bytes s end.

Lemma lor_ge a b : (0 <= a → 0 <= b → a <= Z.lor a b)%Z.
Proof.
  intros Ha Hb. apply Z.ldiff_le; [by apply Z.lor_nonneg|].
  apply Z.bits_inj'. intros n Hn. rewrite Z.ldiff_spec, Z.lor_spec, Z.bits_0.
  by destruct (Z.testbit a n), (Z.testbit b n).
Qed.

Lemma low6_mod z : Z.land z 63 = (z mod 64)%Z.
Proof. change 63%Z with (Z.ones 6). by rewrite Z.land_ones by lia. Qed.

Lemma low6_nonneg b : (0 <= low6 b)%Z.
Proof. destruct b; [|done]. cbn. apply Z.land_nonneg. lia. Qed.

Lemma byte_at_cons n a s : byte_at (S n) (String a s) = byte_at n s.
Proof. done. Qed.

Lemma second_range_lo b0 : (128 <= (second_range b0).1)%Z.
Proof. unfold second_range. repeat case_match; cbn; lia. Qed.

(** The bytes that a successful decoding reads after the first one are high. *)
Lemma high_take w s :
  (∀ i, i < w → ∃ z, byte_at i s = Some z ∧ (128 <= z)%Z) → high_bytes (str_take w s).
Proof.
  revert s; induction w as [|w IH]; intros s H; [by destruct s|].
  destruct s as [|a s]; [done|]. cbn. split.
  - destruct (H 0) as (z & Hz & Hb); [lia|]. cbn in Hz. simplify_eq. lia.
  - apply IH. intros i Hi. destruct (H (S i)) as (z & Hz & Hb); [lia|]. rewrite byte_at_cons in Hz. eauto.
Qed.

Lemma land_31 z : (194 <= z < 224 → 2 <= Z.land z 31)%Z.
Proof. change 31%Z with (Z.ones 5). rewrite Z.land_ones by lia. change (2 ^ 5)%Z with 32%Z.
  Z.to_euclidean_division_equations; lia. Qed.
Lemma land_15 z : (225 <= z < 240 → 1 <= Z.land z 15)%Z.
Proof. change 15%Z with (Z.ones 4). rewrite Z.land_ones by lia. change (2 ^ 4)%Z with 16%Z.
  Z.to_euclidean_division_equations; lia. Qed.
Lemma land_7 z : (241 <= z < 245 → 1 <= Z.land z 7)%Z.
Proof. change 7%Z with (Z.ones 3). rewrite Z.land_ones by lia. change (2 ^ 3)%Z with 8%Z.
  Z.to_euclidean_division_equations; lia. Qed.
Lemma low6_ge z k : (128 + k <= z <= 191 → 0 <= k → k <= low6 (Some z))%Z.
Proof. intros H Hk. cbn [low6]. rewrite low6_mod.
  Z.to_euclidean_division_equations; lia.
Qed.

Lemma shiftl_ge z k c : (0 <= c → k <= z → k * 2 ^ c <= Z.shiftl z c)%Z.
Proof. intros Hc Hk. rewrite Z.shiftl_mul_pow2 by done. apply Z.mul_le_mono_nonneg_r; lia. Qed.

Lemma lor_bound_l k a b : (0 <= k → k <= a → 0 <= b → k <= Z.lor a b)%Z.
Proof. intros. pose proof (lor_ge a b). lia. Qed.
Lemma lor_bound_r k a b : (0 <= k → 0 <= a → k <= b → k <= Z.lor a b)%Z.
Proof. intros. rewrite Z.lor_comm. by apply lor_bound_l. Qed.

(** One of the two high parts of a rune is at least [k]. *)
Ltac rune_bound lo hi k c :=
  let H := fresh in
  assert (H := shiftl_ge hi lo c ltac:(lia) ltac:(apply k; lia)); lia.

Lemma decode_high s r w : s ≠ EmptyString → DecodeRuneInString s = (r, w) →
  (∃ a s', s = String a s' ∧ r = Z.of_nat (nat_of_ascii a) ∧ w = 1 ∧ nat_of_ascii a < 128) ∨
  ((128 <= r)%Z ∧ high_bytes (str_take w s)).
Proof.
  intros Hs. destruct s as [|a s]; [done|]. unfold DecodeRuneInString.
  set (u := String a s). set (b0 := Z.of_nat (nat_of_ascii a)).
  assert (Hu : byte_at 0 u = Some b0) by done. rewrite Hu.
  pose proof (second_range_lo b0) as Hlo.
  destruct (second_range b0) as [lo hi] eqn:Er. cbn [fst] in Hlo.
  destruct (b0 <? 128)%Z eqn:E0; [intros [= <- <-]; left; exists a, s; split_and!; try done; lia|].
  assert (Hbad : high_bytes (str_take 1 u)) by (cbn; lia).
  assert (HR : (128 <= RuneError)%Z) by (unfold RuneError; lia).
  intros H. right. revert H.
  repeat match goal with |- context [if ?b then _ else _] => destruct b eqn:? end;
    intros [= <- <-]; try (by split); rewrite ?andb_true_iff in *; destruct_and?;
    repeat match goal with
      | H : within _ _ _ = true |- _ => apply within_some in H as (? & ? & ?)
      end; (split; [|apply high_take; intros [|[|[|[|?]]]] ?; eauto with lia]).
  - apply lor_bound_l; [lia| |apply low6_nonneg]. rune_bound 2%Z (Z.land b0 31) land_31 6%Z.
  - apply lor_bound_l; [lia| |apply low6_nonneg].
    destruct (decide (b0 = 224)%Z) as [E|E].
    + rewrite E in Er. injection Er as <- <-.
      apply lor_bound_r; [lia|apply Z.shiftl_nonneg, Z.land_nonneg; lia|].
      match goal with H : byte_at 1 u = Some ?z |- _ => rewrite H; rune_bound 32%Z (low6 (Some z)) low6_ge 6%Z end.
    + apply lor_bound_l; [lia| |apply Z.shiftl_nonneg, low6_nonneg].
      rune_bound 1%Z (Z.land b0 15) land_15 12%Z.
  - apply lor_bound_l; [lia| |apply Z.lor_nonneg; split; [apply Z.shiftl_nonneg|]; apply low6_nonneg].
    destruct (decide (b0 = 240)%Z) as [E|E].
    + rewrite E in Er. injection Er as <- <-.
      apply lor_bound_r; [lia|apply Z.shiftl_nonneg, Z.land_nonneg; lia|].
      match goal with H : byte_at 1 u = Some ?z |- _ => rewrite H; rune_bound 16%Z (low6 (Some z)) low6_ge 12%Z end.
    + apply lor_bound_l; [lia| |apply Z.shiftl_nonneg, low6_nonneg].
      rune_bound 1%Z (Z.land b0 7) land_7 18%Z.
Qed.
