(* ===== verification/RecipeLexer.v ===== *)
(** * Recipe lexer

    The lexer of the recipe language (named/euclo/thoughtrecipes/lexer.go): an
    indentation-sensitive tokenizer.  [Lexer] is its state, a method is a function on
    it; methods with a loop run in the monad of [GoLoop], whose fuel [n] is one
    argument shared by all loops. *)
From S2P Require Import Prelude GoStrings GoLoop.
From stdpp Require Import pretty.

Local Open Scope Z_scope.
Local Open Scope loop_scope.

(** ** Tokens *)
Inductive TokenKind :=
| TokenIllegal | TokenEOF | TokenIndent | TokenDedent | TokenKeyword | TokenIdentifier
| TokenString | TokenNumber | TokenPunctuation | TokenListMarker.

#[global] Instance TokenKind_eq_dec : EqDecision TokenKind.
Proof. solve_decision. Defined.

Definition TokenKind_String (k : TokenKind) : string :=
  match k with
  | TokenEOF => "EOF" | TokenIndent => "INDENT" | TokenDedent => "DEDENT"
  | TokenKeyword => "KEYWORD" | TokenIdentifier => "IDENTIFIER" | TokenString => "STRING"
  | TokenNumber => "NUMBER" | TokenPunctuation => "PUNCTUATION"
  | TokenListMarker => "LIST_MARKER" | TokenIllegal => "ILLEGAL"
  end.

Record Token := {
  tok_Kind : TokenKind; Lexeme : string; tok_File : string; tok_Line : Z; tok_Column : Z
}.

#[global] Instance Token_eq_dec : EqDecision Token.
Proof. solve_decision. Defined.

(** ** Character classes *)
Definition rune (a : ascii) : Z := Z.of_nat (nat_of_ascii a).
Definition newline : Z := 10.
Definition tab : Z := 9.
Definition quote_rune : Z := 34.
Definition backslash : Z := 92.

Definition isSpace (r : Z) : bool := (r =? rune " ") || (r =? tab) || (r =? 13).
Definition isIdentStart (r : Z) : bool :=
  (r =? rune "_") || ((rune "A" <=? r) && (r <=? rune "Z")) || ((rune "a" <=? r) && (r <=? rune "z")).
Definition isIdentPart (r : Z) : bool :=
  isIdentStart r || ((rune "0" <=? r) && (r <=? rune "9")).
Definition isDigit (r : Z) : bool := (rune "0" <=? r) && (r <=? rune "9").
Definition punctuation : list ascii :=
  [":"; ","; "."; "|"; "<"; ">"; "("; ")"; "["; "]"; "{"; "}"; "="; "?"]%char.
Definition isPunctuation (r : Z) : bool := existsb (λ a, r =? rune a) punctuation.

Definition reservedKeywords : list string :=
  ["thoughtrecipe"; "import"; "trigger"; "as"; "may"; "invoke"; "family"; "keyword"; "handoff";
   "read"; "write"; "input"; "type"; "agent"; "uses"; "run"; "from"; "goal"; "do"; "capture";
   "route"; "when"; "otherwise"; "ask"; "user"; "question"; "choices"; "delegate"; "to";
   "pipeline"; "stage"; "plan"; "step"; "verify"; "summarize"; "method"; "task"; "review";
   "revise"; "source"; "link"; "prompt"; "until"; "synthesize"; "retry"; "attempts"; "missing";
   "present"; "contains"; "confidence"; "below"; "is"; "on"; "with"].

(** ** The lexer's state

    The indentation stack has its top at the head. *)
Record Lexer := {
  filename : string;
  src : string;
  pos : nat;
  line : Z;
  column : Z;
  atLineStart : bool;
  lineHasToken : bool;
  indentStack : list Z;
  pending : list Token;
  done : bool
}.

Definition NewLexer (filename src : string) : Lexer :=
  let lf := String (ascii_of_nat 10) EmptyString in
  let cr := String (ascii_of_nat 13) EmptyString in
  let src := ReplaceAll src (cr +:+ lf) lf in
  let src := ReplaceAll src cr lf in
  {| filename := filename; src := src; pos := 0; line := 1; column := 1; atLineStart := true;
     lineHasToken := false; indentStack := [0]; pending := []; done := false |}.

Definition at_cursor (pos : nat) (line column : Z) (als lht : bool) (l : Lexer) : Lexer :=
  {| filename := filename l; src := src l; pos := pos; line := line; column := column;
     atLineStart := als; lineHasToken := lht; indentStack := indentStack l;
     pending := pending l; done := done l |}.
Definition set_flags (als lht : bool) (l : Lexer) : Lexer :=
  at_cursor (pos l) (line l) (column l) als lht l.
Definition set_layout (st : list Z) (p : list Token) (d : bool) (l : Lexer) : Lexer :=
  {| filename := filename l; src := src l; pos := pos l; line := line l; column := column l;
     atLineStart := atLineStart l; lineHasToken := lineHasToken l; indentStack := st;
     pending := p; done := d |}.

(** [strings.Repeat(" ", n)]. *)
Fixpoint repeat_space (n : nat) : string :=
  match n with O => EmptyString | S n => String " " (repeat_space n) end.
Definition spaces_str (k : Z) : string := repeat_space (Z.to_nat k).

(** [l.src[l.pos:]] and [l.src[startPos:l.pos]]. *)
Definition rest (l : Lexer) : string := str_drop (pos l) (src l).
Definition slice_from (startPos : nat) (l : Lexer) : string :=
  str_take (pos l - startPos) (str_drop startPos (src l)).
Definition at_end (l : Lexer) : bool := (String.length (src l) <=? pos l)%nat.
Definition top (l : Lexer) : Z := hd 0 (indentStack l).

Definition token (l : Lexer) (kind : TokenKind) (lexeme : string) (line col : Z) : Token :=
  {| tok_Kind := kind; Lexeme := lexeme; tok_File := filename l; tok_Line := line; tok_Column := col |}.

(** ** Reading *)
Definition peek (l : Lexer) : Z := (DecodeRuneInString (rest l)).1.

Fixpoint peekN_from (n : nat) (s : string) : Z :=
  match n, s with
  | _, EmptyString => RuneError
  | O, _ => (DecodeRuneInString s).1
  | S n, _ => peekN_from n (str_drop (DecodeRuneInString s).2 s)
  end.
Definition peekN (n : nat) (l : Lexer) : Z := peekN_from n (rest l).

Definition consume (l : Lexer) : Lexer :=
  if at_end l then l else
  let '(r, width) := DecodeRuneInString (rest l) in
  if r =? newline then at_cursor (pos l + width) (line l + 1) 1 true false l
  else at_cursor (pos l + width) (line l) (column l + 1) (atLineStart l) (lineHasToken l) l.

Definition peekArrow (l : Lexer) : bool :=
  if (String.length (src l) <=? pos l + 1)%nat then false
  else bool_decide (byte_at (pos l + 1) (src l) = Some (rune ">")).

Definition isListMarkerAhead (l : Lexer) : bool :=
  if at_end l then true else
  let r := peekN 1 l in (r =? rune " ") || (r =? tab) || (r =? newline) || (r =? rune "#").

Definition matchStringPrefix (prefix : string) (l : Lexer) : bool := has_prefix prefix (rest l).

Definition triple : string := dquote +:+ dquote +:+ dquote.

Definition LM := FM Lexer.

(** [fmt.Errorf("%s:%d:%d: ...")]. *)
Definition lex_error {A} (msg : string) (line col : Z) (args : list string) : LM A := λ l,
  fm_err (ErrFmt msg (filename l :: pretty line :: pretty col :: args)) l.

Section lexer.
Variable n : nat.

(** ** Comments and scanners *)
Definition skipLineComment : LM () :=
  while n (λ l,
    if at_end l then fm_ret (Some ()) (set_flags true (lineHasToken l) l) else
    let r := peek l in
    let l := consume l in
    if r =? newline then fm_ret (Some ()) (set_flags true false l) else fm_ret None l).

Definition scanIdentifier (line col : Z) (startPos : nat) : LM Token :=
  while n (λ l, if isIdentPart (peek l) then fm_ret None (consume l) else fm_ret (Some ()) l) ;;
  (λ l,
    let lexeme := slice_from startPos l in
    let kind := if bool_decide (lexeme ∈ reservedKeywords) then TokenKeyword else TokenIdentifier in
    fm_ret (token l kind lexeme line col) l).

Definition scanString (line col : Z) (startPos : nat) : LM Token := λ l,
  if matchStringPrefix triple l then
    (while n (λ l,
       if at_end l then lex_error "%s:%d:%d: unterminated multiline string" line col [] l
       else if matchStringPrefix triple l then fm_ret (Some ()) (consume (consume (consume l)))
       else fm_ret None (consume l)) ;;
     (λ l, fm_ret (token l TokenString (slice_from startPos l) line col) l))
    (consume (consume (consume l)))
  else
    (while n (λ l,
       if at_end l then lex_error "%s:%d:%d: unterminated string" line col [] l else
       let r := peek l in
       if r =? newline then lex_error "%s:%d:%d: unterminated string" line col [] l
       else if r =? backslash then
         let l := consume l in
         if at_end l then lex_error "%s:%d:%d: unterminated string escape" line col [] l
         else fm_ret None (consume l)
       else fm_ret (if r =? quote_rune then Some () else None) (consume l)) ;;
     (λ l, fm_ret (token l TokenString (slice_from startPos l) line col) l))
    (consume l).

Definition scanNumber (line col : Z) (startPos : nat) : LM Token :=
  loop n (λ hasDot l,
    let r := peek l in
    if isDigit r then fm_ret (inl hasDot) (consume l)
    else if (r =? rune ".") && negb hasDot then fm_ret (inl true) (consume l)
    else let l := if r =? rune "%" then consume l else l in
      fm_ret (inr (token l TokenNumber (slice_from startPos l) line col)) l)
    false.

(** ** Layout *)
(** Pops blocks while [keep] does not hold of the top, a DEDENT for each. *)
Definition popIndent (keep : Z → bool) (line col : Z) : LM () :=
  while n (λ l,
    match indentStack l with
    | t :: ((_ :: _) as st) =>
      if keep t then fm_ret (Some ()) l
      else fm_ret None (set_layout st (pending l ++ [token l TokenDedent EmptyString line col]) (done l) l)
    | _ => fm_ret (Some ()) l
    end).

Definition countSpaces : LM Z :=
  loop n (λ spaces l,
    let r := peek l in
    if r =? rune " " then fm_ret (inl (spaces + 1)) (consume l)
    else if r =? tab
    then lex_error "%s:%d:%d: tabs are not valid indentation" (line l) (column l) [] l
    else fm_ret (inr spaces) l) 0.

Definition finish (l : Lexer) : LM () :=
  popIndent (λ _, false) (line l) (column l) ;;
  fm_mod (λ l, set_layout (indentStack l) (pending l) true l).

Definition beginLine : LM () := λ l,
  if at_end l then finish l l else
  let startLine := line l in
  let startCol := column l in
  (do* spaces := countSpaces in
   do* r := fm_get peek in
   if r =? newline then fm_mod (λ l, let l := consume l in set_flags true (lineHasToken l) l)
   else if r =? rune "#" then skipLineComment
   else
     do* t := fm_get top in
     (if t <? spaces then
        if negb (spaces =? t + 2)
        then lex_error "%s:%d:%d: indentation must increase by two spaces" startLine startCol []
        else fm_mod (λ l, set_layout (spaces :: indentStack l)
               (pending l ++ [token l TokenIndent (spaces_str spaces) startLine startCol]) (done l) l)
      else if spaces <? t then
        popIndent (λ t, t <=? spaces) startLine startCol ;;
        do* t := fm_get top in
        if negb (t =? spaces)
        then lex_error "%s:%d:%d: indentation does not match any open block" startLine startCol []
        else fm_ret ()
      else fm_ret ()) ;;
     fm_mod (set_flags false false)) l.

(** ** [Next] *)
Definition take_pending (l : Lexer) : option (Token * Lexer) :=
  match pending l with
  | tok :: ts => Some (tok, set_layout (indentStack l) ts (done l) l)
  | [] => None
  end.

Definition eof_token (l : Lexer) : Token := token l TokenEOF EmptyString (line l) (column l).

Definition finishEOF : LM Token := λ l,
  (finish l ;; (λ l,
     match take_pending l with
     | Some (tok, l) => fm_ret tok l
     | None => fm_ret (eof_token l) l
     end)) l.

(** The token that starts with the rune [r]. *)
Definition scanToken (r : Z) : LM Token := λ l,
  let startLine := line l in
  let startCol := column l in
  let startPos := pos l in
  let emit m := (do* tok := m in
                 fm_mod (λ l, set_flags (atLineStart l) true l) ;; fm_ret tok) in
  if r =? quote_rune then emit (scanString startLine startCol startPos) l
  else if isIdentStart r then emit (scanIdentifier startLine startCol startPos) l
  else if isDigit r then emit (scanNumber startLine startCol startPos) l
  else if (r =? rune "-") && peekArrow l then
    emit (λ l, let l := consume (consume l) in
               fm_ret (token l TokenPunctuation "->" startLine startCol) l) l
  else if (r =? rune "-") && negb (lineHasToken l) && isListMarkerAhead l then
    emit (λ l, let l := consume l in
               fm_ret (token l TokenListMarker "-" startLine startCol) l) l
  else if isPunctuation r then
    emit (λ l, let l := consume l in
               fm_ret (token l TokenPunctuation
                 (String (ascii_of_nat (Z.to_nat r)) EmptyString) startLine startCol) l) l
  else lex_error "%s:%d:%d: unexpected character %q" startLine startCol [pretty r] l.

(** One round of the loop of [Next]. *)
Definition next_body : LM (option Token) := λ l,
  if atLineStart l then
    (beginLine ;; (λ l,
       match take_pending l with
       | Some (tok, l) => fm_ret (Some tok) l
       | None => if done l then fm_ret (Some (eof_token l)) l else fm_ret None l
       end)) l
  else if at_end l then (do* tok := finishEOF in fm_ret (Some tok)) l
  else
    let r := peek l in
    if r =? newline then fm_ret None (set_flags true false (consume l))
    else if isSpace r then fm_ret None (consume l)
    else if r =? rune "#" then (skipLineComment ;; fm_ret None) l
    else (do* tok := scanToken r in fm_ret (Some tok)) l.

Definition Next : LM Token := λ l,
  match take_pending l with
  | Some (tok, l) => fm_ret tok l
  | None => if done l then fm_ret (eof_token l) l else while n next_body l
  end.

Definition LexAll_loop : LM (list Token) :=
  loop n (λ tokens,
    do* tok := Next in
    let tokens := tokens ++ [tok] in
    fm_ret (if bool_decide (tok_Kind tok = TokenEOF) then inr tokens else inl tokens)) [].
End lexer.

(** The fuel: every loop consumes the source. *)
Definition lex_fuel (l : Lexer) : nat := 2 * String.length (src l) + 4.

Definition LexAll (l : Lexer) : option (result (list Token)) :=
  option_map fst (LexAll_loop (lex_fuel l) l).
