(* ===== verification/RecipeLexerSafety.v ===== *)
(** * The recipe lexer: what its tokens are

    Every source text is tokenized or refused within the fuel; the tokens are the text,
    in order, less blanks and comments; INDENT and DEDENT are balanced. *)
From S2P Require Import Prelude GoStrings GoLoop RecipeLexer.

Local Open Scope nat_scope.

(** ** Blanks and lines *)
Definition is_newline (a : ascii) : bool := (rune a =? newline)%Z.

(** Reads blanks and comments; the state is whether a comment is open. *)
Fixpoint gap (comment : bool) (s : string) : option bool :=
  match s with
  | EmptyString => Some comment
  | String a s =>
    if comment then gap (negb (is_newline a)) s
    else if is_newline a || isSpace (rune a) then gap false s
    else if (rune a =? rune "#")%Z then gap true s else None
  end.

Fixpoint newlines (s : string) : Z :=
  match s with EmptyString => 0%Z | String a s => (Z.b2z (is_newline a) + newlines s)%Z end.

Lemma gap_app c s t : gap c (s +:+ t) = gap c s ≫= λ c', gap c' t.
Proof.
  revert c; induction s as [|a s IH]; intros c; [done|]. rewrite str_app_cons. cbn [gap].
  repeat case_match; done || apply IH.
Qed.

Lemma newlines_app s t : newlines (s +:+ t) = (newlines s + newlines t)%Z.
Proof. induction s as [|a s IH]; [done|]. rewrite str_app_cons. cbn [newlines]. lia. Qed.

Lemma newlines_nonneg s : (0 <= newlines s)%Z.
Proof. induction s as [|a s IH]; cbn [newlines]; [done|]. destruct (is_newline a); cbn; lia. Qed.

Lemma gap_comment s : newlines s = 0%Z → gap true s = Some true.
Proof.
  induction s as [|a s IH]; [done|]. cbn [newlines gap].
  pose proof (newlines_nonneg s). destruct (is_newline a); cbn; [lia|auto].
Qed.

(** ** Layout *)
Definition visible (t : Token) : bool :=
  negb (bool_decide (tok_Kind t ∈ [TokenEOF; TokenIndent; TokenDedent])).

(** The depth of blocks after some tokens: INDENT opens one, two spaces deeper than the
    last; DEDENT closes one. *)
Fixpoint blocks (d : nat) (ts : list Token) : option nat :=
  match ts with
  | [] => Some d
  | t :: ts =>
    match tok_Kind t with
    | TokenIndent => if bool_decide (Lexeme t = repeat_space (2 * S d)) then blocks (S d) ts else None
    | TokenDedent => match d with O => None | S d => blocks d ts end
    | _ => blocks d ts
    end
  end.

Lemma blocks_app d ts us : blocks d (ts ++ us) = blocks d ts ≫= λ e, blocks e us.
Proof.
  revert d; induction ts as [|t ts IH]; intros d; [done|]. cbn.
  repeat case_match; done || apply IH.
Qed.

(** The indentation stack of [k] open blocks. *)
Fixpoint stairs (k : nat) : list Z :=
  match k with O => [0%Z] | S j => (2 * Z.of_nat k)%Z :: stairs j end.

Lemma stairs_hd k : hd 0%Z (stairs k) = (2 * Z.of_nat k)%Z.
Proof. by destruct k. Qed.

Lemma stairs_length k : length (stairs k) = S k.
Proof. induction k as [|k IH]; cbn; auto. Qed.

(** ** Token shapes *)
Fixpoint all_bytes (p : Z → bool) (s : string) : bool :=
  match s with EmptyString => true | String a s => p (rune a) && all_bytes p s end.

Lemma all_bytes_app p s t : all_bytes p (s +:+ t) = all_bytes p s && all_bytes p t.
Proof. induction s as [|a s IH]; [done|]. rewrite str_app_cons. cbn [all_bytes]. by rewrite IH, andb_assoc. Qed.

Definition ident_shape (s : string) : bool :=
  match s with String a _ => isIdentStart (rune a) && all_bytes isIdentPart s | _ => false end.
Definition number_shape (s : string) : bool :=
  match s with
  | String a _ => isDigit (rune a) && all_bytes (λ r, isDigit r || (r =? rune ".")%Z || (r =? rune "%")%Z) s
  | _ => false
  end.
Definition string_shape (s : string) : bool :=
  has_prefix dquote s && has_suffix dquote s && (2 <=? String.length s).
Definition punct_shape (s : string) : bool :=
  bool_decide (s = "->") ||
  match s with String a EmptyString => isPunctuation (rune a) | _ => false end.

Definition token_ok (t : Token) : bool :=
  match tok_Kind t with
  | TokenKeyword => ident_shape (Lexeme t) && bool_decide (Lexeme t ∈ reservedKeywords)
  | TokenIdentifier => ident_shape (Lexeme t) && negb (bool_decide (Lexeme t ∈ reservedKeywords))
  | TokenString => string_shape (Lexeme t)
  | TokenNumber => number_shape (Lexeme t)
  | TokenPunctuation => punct_shape (Lexeme t)
  | TokenListMarker => bool_decide (Lexeme t = "-")
  | _ => false
  end.

Lemma token_ok_nonempty t : token_ok t = true → Lexeme t ≠ EmptyString.
Proof. unfold token_ok. intros H E. rewrite E in H. by destruct (tok_Kind t). Qed.

(** ** Moving through the source *)
Record adv (l : Lexer) (mid : string) (l' : Lexer) : Prop := {
  adv_file : filename l' = filename l;
  adv_src : src l' = src l;
  adv_pos : pos l' = pos l + String.length mid;
  adv_rest : rest l = mid +:+ rest l';
  adv_line : line l' = (line l + newlines mid)%Z
}.

(** The layout part of the state is the same. *)
Definition lay (l l' : Lexer) : Prop :=
  indentStack l' = indentStack l ∧ pending l' = pending l ∧ done l' = done l.

Lemma adv_refl l : adv l EmptyString l.
Proof. split; cbn; auto with lia. Qed.

Lemma adv_trans l m l' m' l'' : adv l m l' → adv l' m' l'' → adv l (m +:+ m') l''.
Proof.
  intros [Hf Hs Hp Hr Hl] [Hf' Hs' Hp' Hr' Hl']. split; [congruence|congruence| | |].
  - rewrite str_length_app. lia.
  - by rewrite str_app_assoc, <- Hr'.
  - rewrite newlines_app. lia.
Qed.

Lemma lay_refl l : lay l l.
Proof. by split_and!. Qed.

Lemma lay_trans l l' l'' : lay l l' → lay l' l'' → lay l l''.
Proof. intros (? & ? & ?) (? & ? & ?). split_and!; congruence. Qed.

(** A change of flags or layout moves nothing. *)
Lemma adv_same l m l' l'' :
  adv l m l' → filename l'' = filename l' → src l'' = src l' → pos l'' = pos l' → line l'' = line l' →
  adv l m l''.
Proof.
  intros [Hf Hs Hp Hr Hl] Ef Es Ep El. split; [congruence|congruence|congruence| |congruence].
  unfold rest. by rewrite Es, Ep.
Qed.

Lemma rest_length l : String.length (rest l) = String.length (src l) - pos l.
Proof. apply str_drop_length. Qed.

Lemma at_end_rest l : at_end l = bool_decide (rest l = EmptyString).
Proof.
  unfold at_end. pose proof (rest_length l) as H. case_bool_decide as E.
  - rewrite E in H. cbn in H. apply Nat.leb_le. lia.
  - apply Nat.leb_gt. destruct (rest l); [done|]. cbn in H. lia.
Qed.

Lemma adv_slice l m l' : adv l m l' → slice_from (pos l) l' = m.
Proof.
  intros [_ Hs Hp Hr _]. unfold slice_from. rewrite Hs, Hp.
  replace (pos l + String.length m - pos l) with (String.length m) by lia.
  change (str_drop (pos l) (src l)) with (rest l). by rewrite Hr, str_take_app.
Qed.

Lemma adv_rest_length l m l' : adv l m l' → String.length (rest l) = String.length m + String.length (rest l').
Proof. intros H. by rewrite (adv_rest _ _ _ H), str_length_app. Qed.

(** ** Runes *)

Lemma high_newlines s : high_bytes s → newlines s = 0%Z.
Proof.
  induction s as [|a s IH]; [done|]. intros [Ha Hs]. cbn [newlines].
  unfold is_newline, rune, newline. replace (Z.of_nat (nat_of_ascii a) =? 10)%Z with false by lia.
  by rewrite IH.
Qed.

Definition moved (l : Lexer) (mid : string) (l' : Lexer) : Prop := adv l mid l' ∧ lay l l'.

Lemma moved_refl l : moved l EmptyString l.
Proof. split; [apply adv_refl|apply lay_refl]. Qed.

Lemma moved_trans l m l' m' l'' : moved l m l' → moved l' m' l'' → moved l (m +:+ m') l''.
Proof. intros [? ?] [? ?]. split; [by eapply adv_trans|by eapply lay_trans]. Qed.

Lemma moved_flags l m l' a b : moved l m l' → moved l m (set_flags a b l').
Proof. intros [? ?]. split; [by eapply adv_same|done]. Qed.

(** A rune read is one ASCII byte, or it is above them all and holds no newline. *)
Definition rune_of (r : Z) (mid : string) : Prop :=
  (∃ a, mid = String a EmptyString ∧ r = rune a) ∨ ((128 <= r)%Z ∧ newlines mid = 0%Z).

Record consumed (l : Lexer) (mid : string) (l' : Lexer) : Prop := {
  cs_moved : moved l mid l';
  cs_pos : 1 <= String.length mid;
  cs_rune : rune_of (peek l) mid;
  cs_start : atLineStart l' = (peek l =? newline)%Z || atLineStart l
}.

Lemma consume_spec l : at_end l = false → ∃ mid, consumed l mid (consume l).
Proof.
  intros He. assert (Hr : rest l ≠ EmptyString).
  { rewrite at_end_rest in He. by apply bool_decide_eq_false in He. }
  pose proof (decode_width _ Hr) as Hw.
  destruct (DecodeRuneInString (rest l)) as [r w] eqn:E. cbn [snd] in Hw.
  exists (str_take w (rest l)).
  assert (Hl : String.length (str_take w (rest l)) = w).
  { pose proof (str_take_drop w (rest l)) as H. apply (f_equal String.length) in H.
    rewrite str_length_app, str_drop_length in H. lia. }
  assert (Hrune : rune_of r (str_take w (rest l))).
  { destruct (decode_high _ _ _ Hr E) as [(a & s & Es & -> & -> & _)|[H1 H2]].
    - left. exists a. by rewrite Es.
    - right. eauto using high_newlines. }
  assert (Hn : newlines (str_take w (rest l)) = Z.b2z (r =? newline)%Z).
  { destruct Hrune as [(a & -> & ->)|[H1 ->]]; cbn [newlines]; [by rewrite Z.add_0_r|].
    unfold newline. by replace (r =? 10)%Z with false by lia. }
  assert (Hrest : ∀ k c a b, rest (at_cursor (pos l + w) k c a b l) = str_drop w (rest l)).
  { intros. unfold rest. cbn. by rewrite str_drop_drop. }
  assert (Hp : peek l = r) by (unfold peek; by rewrite E).
  unfold consume. rewrite He, E.
  destruct (r =? newline)%Z eqn:Er; (split; [split; [split|]|..]);
    rewrite ?Hp, ?Hrest, ?Hn, ?Hl, ?Er; cbn; eauto using lay_refl with lia;
    try (symmetry; apply str_take_drop); try lia; by split_and!.
Qed.

Lemma rune_inj a b : rune a = rune b → a = b.
Proof.
  unfold rune. intros H. apply Nat2Z.inj in H.
  by rewrite <- (ascii_nat_embedding a), <- (ascii_nat_embedding b), H.
Qed.

(** A rune in an ASCII class is one byte of the class. *)
Definition ascii_class (p : Z → bool) : Prop := ∀ z, p z = true → (z < 128)%Z.

Lemma rune_of_class p r mid : ascii_class p → rune_of r mid → p r = true →
  ∃ a, mid = String a EmptyString ∧ r = rune a.
Proof. intros Hp [H|[H _]] Hr; [done|]. apply Hp in Hr. lia. Qed.

Lemma rune_of_char a mid : (rune a < 128)%Z → rune_of (rune a) mid → mid = String a EmptyString.
Proof. intros Ha [(b & -> & E)|[H _]]; [by apply rune_inj in E as ->|lia]. Qed.

Lemma isIdentPart_ascii : ascii_class isIdentPart.
Proof.
  intros z. unfold isIdentPart, isIdentStart.
  change (rune "z") with 122%Z. change (rune "Z") with 90%Z. change (rune "9") with 57%Z.
  change (rune "_") with 95%Z. lia.
Qed.
Lemma isDigit_ascii : ascii_class isDigit.
Proof. intros z. unfold isDigit. change (rune "9") with 57%Z. lia. Qed.

Lemma not_end l : peek l ≠ RuneError → at_end l = false.
Proof.
  intros H. rewrite at_end_rest. apply bool_decide_eq_false. intros E. apply H.
  unfold peek. by rewrite E.
Qed.

(** ** Scanners

    Each loop is followed by what it has consumed since [l0]. *)
Section scanners.
Context (n : nat).

Definition fits (l : Lexer) : Prop := 2 * String.length (src l) + 4 <= n.

Definition since (l0 : Lexer) (P : string → Prop) (l : Lexer) : Prop :=
  ∃ mid, moved l0 mid l ∧ P mid.

Definition left_over (l : Lexer) : nat := String.length (rest l).

Lemma left_fits l : fits l → left_over l < n.
Proof. unfold fits, left_over. rewrite rest_length. lia. Qed.

Lemma since_start l (P : string → Prop) : P EmptyString → since l P l.
Proof. intros H. exists EmptyString. split; [apply moved_refl|done]. Qed.

(** One more rune. *)
Lemma since_consume l0 (P P' : string → Prop) l : at_end l = false → since l0 P l →
  (∀ mid m, P mid → rune_of (peek l) m → 1 <= String.length m → P' (mid +:+ m)) →
  since l0 P' (consume l) ∧ left_over (consume l) < left_over l.
Proof.
  intros He (mid & Hm & HP) H. destruct (consume_spec l He) as (m & [Hc Hl Hr _]).
  split; [|pose proof (adv_rest_length _ _ _ (proj1 Hc)); unfold left_over; lia].
  exists (mid +:+ m). split; [by eapply moved_trans|by apply H].
Qed.

Lemma skipLineComment_ok l0 : fits l0 → peek l0 = rune "#" →
  fm_ok (skipLineComment n l0) (λ _ l,
    atLineStart l = true ∧ left_over l < left_over l0 ∧
    since l0 (λ mid, ∃ c, gap false mid = Some c ∧ (c = true → at_end l = true)) l) (λ _, True).
Proof.
  intros Hn Hp. unfold skipLineComment.
  apply (fm_ok_while _ (λ l, (l = l0 ∨ left_over l < left_over l0) ∧
      since l0 (λ mid, (l = l0 ∧ mid = EmptyString) ∨ gap false mid = Some true) l) left_over);
    [|split; [by left|apply since_start; by left]|by apply left_fits].
  intros l (Hlt & HP). destruct (at_end l) eqn:He.
  - apply fm_ok_ret. destruct Hlt as [->|Hlt].
    { exfalso. rewrite not_end in He; [done|]. by rewrite Hp. }
    split_and!; [done|done|]. destruct HP as (mid & Hm & [[-> _]|Hg]); [lia|].
    exists mid. split; [by apply moved_flags|]. eauto.
  - set (l1 := consume l).
    destruct (since_consume l0 _ (λ mid, gap false mid = Some (negb (peek l =? newline)%Z)) l He HP)
      as [HP' Hlt'].
    { intros mid m [[-> ->]|Hg] Hr _.
      - rewrite Hp in Hr |- *. by apply rune_of_char in Hr as ->.
      - rewrite gap_app, Hg. cbn. destruct Hr as [(a & -> & Ha)|[H0 Hnl]]; [by rewrite Ha|].
        rewrite gap_comment by done. unfold newline. f_equal. lia. }
    assert (Hlt1 : left_over l1 < left_over l0) by (subst l1; destruct Hlt as [->|]; lia).
    destruct (peek l =? newline)%Z eqn:Er; apply fm_ok_ret; cbn in HP'.
    + split_and!; [done|done|]. destruct HP' as (mid & Hm & Hg).
      exists mid. split; [by apply moved_flags|]. by exists false.
    + split; [|done]. split; [by right|]. destruct HP' as (mid & Hm & Hg). exists mid. auto.
Qed.

(** One more byte of an ASCII class. *)
Lemma since_char l0 p (P P' : string → Prop) l : ascii_class p → p (peek l) = true → since l0 P l →
  (∀ mid a, P mid → peek l = rune a → P' (mid +:+ String a EmptyString)) →
  since l0 P' (consume l) ∧ left_over (consume l) < left_over l.
Proof.
  intros Hc Hp HP H. apply since_consume with P; [|done|].
  - apply not_end. intros E. rewrite E in Hp. apply Hc in Hp. unfold RuneError in Hp. lia.
  - intros mid m Hm Hr _. destruct (rune_of_class p _ _ Hc Hr Hp) as (a & -> & E). by apply H.
Qed.

(** The token read is what has been consumed. *)
Definition scanned (l0 : Lexer) (ln : Z) (t : Token) (l : Lexer) : Prop :=
  since l0 (λ mid, mid = Lexeme t) l ∧ token_ok t = true ∧ tok_Line t = ln.

Lemma scanned_slice l0 P l k ln col : since l0 P l →
  (∀ mid, P mid → slice_from (pos l0) l = mid → token_ok (token l k mid ln col) = true) →
  scanned l0 ln (token l k (slice_from (pos l0) l) ln col) l.
Proof.
  intros (mid & Hm & HP) H. pose proof (adv_slice _ _ _ (proj1 Hm)) as E. rewrite E.
  split_and!; [by exists mid|by apply H|done].
Qed.

Definition grows (l0 : Lexer) (shape : string → bool) (l : Lexer) : Prop :=
  since l0 (λ mid, (l = l0 ∧ mid = EmptyString) ∨ shape mid = true) l.

Lemma grows_char l0 p shape l : ascii_class p → p (peek l) = true → grows l0 shape l →
  (∀ a, peek l0 = rune a → shape (String a EmptyString) = true) →
  (∀ mid a, shape mid = true → p (rune a) = true → shape (mid +:+ String a EmptyString) = true) →
  grows l0 shape (consume l) ∧ left_over (consume l) < left_over l.
Proof.
  intros Hc Hp HP H0 H1.
  destruct (since_char l0 p _ (λ mid, shape mid = true) l Hc Hp HP) as [(mid & Hm & Hs) Hlt].
  - intros mid a [[-> ->]|Hs] Ha; [by apply H0|]. apply H1; [done|]. by rewrite <- Ha.
  - split; [|done]. exists mid. auto.
Qed.

Lemma grows_end l0 shape l : grows l0 shape l → l ≠ l0 → since l0 (λ mid, shape mid = true) l.
Proof. intros (mid & Hm & [[-> _]|Hs]) Hne; [done|]. by exists mid. Qed.

Lemma scanIdentifier_ok l0 ln col : fits l0 → isIdentStart (peek l0) = true →
  fm_ok (scanIdentifier n ln col (pos l0) l0) (scanned l0 ln) (λ _, True).
Proof.
  intros Hn Hp.
  assert (Hpart : isIdentPart (peek l0) = true) by (unfold isIdentPart; by rewrite Hp).
  unfold scanIdentifier. eapply fm_ok_then.
  - apply (fm_ok_while _ (grows l0 ident_shape) left_over
      (λ _ l, since l0 (λ mid, ident_shape mid = true) l));
      [|apply since_start; by left|by apply left_fits].
    intros l HP. destruct (isIdentPart (peek l)) eqn:E; apply fm_ok_ret.
    + apply (grows_char l0 isIdentPart); [apply isIdentPart_ascii|done|done| |].
      * intros a Ha. cbn. rewrite Ha in Hp, Hpart. by rewrite Hp, Hpart.
      * intros [|b mid] a Hs Ha; [done|]. rewrite str_app_cons. cbn [ident_shape] in Hs |- *.
        apply andb_prop in Hs as [-> Hs].
        rewrite <- str_app_cons, all_bytes_app, Hs. cbn [all_bytes]. by rewrite Ha.
    + apply grows_end; [done|]. intros ->. congruence.
  - intros [] l HP. apply fm_ok_ret. eapply scanned_slice; [done|]. intros mid Hs ->.
    unfold token_ok. cbn [tok_Kind Lexeme token]. case_bool_decide as E; by rewrite Hs.
Qed.

Lemma scanNumber_ok l0 ln col : fits l0 → isDigit (peek l0) = true →
  fm_ok (scanNumber n ln col (pos l0) l0) (scanned l0 ln) (λ _, True).
Proof.
  intros Hn Hp. unfold scanNumber.
  assert (Hsnoc : ∀ mid a, number_shape mid = true →
    isDigit (rune a) || (rune a =? rune ".")%Z || (rune a =? rune "%")%Z = true →
    number_shape (mid +:+ String a EmptyString) = true).
  { intros [|b mid] a Hs Ha; [done|]. rewrite str_app_cons. cbn [number_shape] in Hs |- *.
    apply andb_prop in Hs as [-> Hs].
    rewrite <- str_app_cons, all_bytes_app, Hs. cbn [all_bytes]. by rewrite Ha. }
  assert (H1 : ∀ a, peek l0 = rune a → number_shape (String a EmptyString) = true).
  { intros a Ha. cbn. rewrite Ha in Hp. by rewrite Hp. }
  assert (Hchar : ∀ p l, ascii_class p → (∀ z, p z = true → isDigit z || (z =? rune ".")%Z || (z =? rune "%")%Z = true) →
    p (peek l) = true → grows l0 number_shape l →
    grows l0 number_shape (consume l) ∧ left_over (consume l) < left_over l).
  { intros p l Hc Hd Hpl HP. apply (grows_char l0 p); auto. }
  apply (fm_ok_loop _ (λ _, grows l0 number_shape) (λ _, left_over));
    [|apply since_start; by left|by apply left_fits].
  intros dot l HP. destruct (isDigit (peek l)) eqn:E.
  { apply fm_ok_ret. apply (Hchar isDigit); auto using isDigit_ascii. by intros z ->. }
  destruct ((peek l =? rune ".")%Z && negb dot) eqn:E1.
  { apply andb_prop in E1 as [E1 _]. apply fm_ok_ret.
    apply (Hchar (λ z, (z =? rune ".")%Z)); [|by intros z ->; rewrite orb_true_r|done|done].
    intros z. change (rune ".") with 46%Z. lia. }
  assert (Hne : l ≠ l0) by (intros ->; congruence).
  destruct (peek l =? rune "%")%Z eqn:E2; apply fm_ok_ret.
  - destruct (Hchar (λ z, (z =? rune "%")%Z) l) as [HP' Hlt]; [| |done|done|].
    + intros z. change (rune "%") with 37%Z. lia.
    + by intros z ->; rewrite orb_true_r.
    + eapply scanned_slice; [apply grows_end; [exact HP'|]|by auto].
      intros Ec. rewrite Ec in Hlt. destruct HP as (mid & Hm & _).
      pose proof (adv_rest_length _ _ _ (proj1 Hm)). unfold left_over in Hlt. lia.
  - eapply scanned_slice; [by apply grows_end|by auto].
Qed.

(** *** Strings *)
Lemma consume_char l a s : nat_of_ascii a < 128 → rest l = String a s →
  moved l (String a EmptyString) (consume l) ∧ rest (consume l) = s.
Proof.
  intros Ha Hr. assert (He : at_end l = false).
  { rewrite at_end_rest, Hr. by apply bool_decide_eq_false. }
  assert (Hp : peek l = rune a) by (unfold peek; rewrite Hr, decode_ascii by done; done).
  destruct (consume_spec l He) as (mid & [Hm _ Hc _]). rewrite Hp in Hc.
  apply rune_of_char in Hc; [|unfold rune; lia]. rewrite Hc in Hm.
  split; [done|]. pose proof (adv_rest _ _ _ (proj1 Hm)) as E. rewrite Hr in E.
  cbn in E. by injection E as ->.
Qed.

Lemma quote_ascii : nat_of_ascii (ascii_of_nat 34) < 128.
Proof. by apply Nat.ltb_lt. Qed.

Lemma consume_triple l : matchStringPrefix triple l = true →
  moved l triple (consume (consume (consume l))).
Proof.
  unfold matchStringPrefix. intros (t & Ht)%has_prefix_spec.
  destruct (consume_char l (ascii_of_nat 34) (dquote +:+ dquote +:+ t)) as [H1 R1];
    [exact quote_ascii|done|].
  destruct (consume_char _ _ (dquote +:+ t) quote_ascii R1) as [H2 R2].
  destruct (consume_char _ _ t quote_ascii R2) as [H3 _].
  change triple with (dquote +:+ dquote +:+ dquote).
  eapply moved_trans; [done|]. by eapply moved_trans.
Qed.

Definition opened (pre mid : string) : Prop := ∃ body, mid = pre +:+ body.

Lemma opened_more pre mid m : opened pre mid → opened pre (mid +:+ m).
Proof. intros (b & ->). exists (b +:+ m). by rewrite str_app_assoc. Qed.

Lemma since_opened l0 pre l : at_end l = false → since l0 (opened pre) l →
  since l0 (opened pre) (consume l) ∧ left_over (consume l) < left_over l.
Proof. intros He HP. eapply since_consume; [done|exact HP|]. intros. by apply opened_more. Qed.

Lemma string_closed pre mid post :
  opened (dquote +:+ pre) mid → string_shape (mid +:+ post +:+ dquote) = true.
Proof.
  intros (b & ->). unfold string_shape.
  rewrite !str_app_assoc, has_prefix_app, <- !str_app_assoc, has_suffix_app.
  apply Nat.leb_le. rewrite !str_length_app. change (String.length dquote) with 1. lia.
Qed.

Lemma scanned_string l0 pre post l l' ln col : since l0 (opened (dquote +:+ pre)) l →
  moved l (post +:+ dquote) l' →
  scanned l0 ln (token l' TokenString (slice_from (pos l0) l') ln col) l'.
Proof.
  intros (mid & Hm & HP) Hq.
  apply (scanned_slice l0 (λ m, m = mid +:+ post +:+ dquote)).
  - eexists. split; [by eapply moved_trans|done].
  - intros m -> _. unfold token_ok. by apply string_closed with pre.
Qed.

Lemma scanString_ok l0 ln col : fits l0 → at_end l0 = false → peek l0 = quote_rune →
  fm_ok (scanString n ln col (pos l0) l0) (scanned l0 ln) (λ _, True).
Proof.
  intros Hn He Hp. unfold scanString.
  assert (Hfit : ∀ mid l, moved l0 mid l → left_over l < n).
  { intros mid l [Hm _]. pose proof (adv_rest_length _ _ _ Hm). pose proof (left_fits _ Hn).
    unfold left_over in *. lia. }
  destruct (matchStringPrefix triple l0) eqn:Et.
  - pose proof (consume_triple _ Et) as Ht.
    apply fm_ok_then with (λ _ l', ∃ l, since l0 (opened triple) l ∧ moved l triple l').
    + apply (fm_ok_while _ (since l0 (opened triple)) left_over); [| |by eapply Hfit].
      * intros l HP. destruct (at_end l) eqn:E; [by apply fm_ok_err|].
        destruct (matchStringPrefix triple l) eqn:E'; apply fm_ok_ret; [|by apply since_opened].
        exists l. split; [done|]. by apply consume_triple.
      * exists triple. split; [done|]. by exists EmptyString.
    + intros [] l' (l & HP & Hm). apply fm_ok_ret.
      by apply (scanned_string l0 (dquote +:+ dquote) (dquote +:+ dquote) l).
  - destruct (consume_spec l0 He) as (m & [Hm _ Hr _]). rewrite Hp in Hr.
    apply (rune_of_char (ascii_of_nat 34)) in Hr as ->; [|done]. change (String _ _) with dquote in Hm.
    apply fm_ok_then with (λ _ l', ∃ l, since l0 (opened dquote) l ∧ moved l dquote l').
    + apply (fm_ok_while _ (since l0 (opened dquote)) left_over); [| |by eapply Hfit].
      * intros l HP. destruct (at_end l) eqn:E; [by apply fm_ok_err|].
        destruct (peek l =? newline)%Z; [by apply fm_ok_err|].
        destruct (since_opened l0 dquote l E HP) as [HP' Hlt].
        destruct (peek l =? backslash)%Z.
        { destruct (at_end (consume l)) eqn:E'; [by apply fm_ok_err|].
          destruct (since_opened l0 dquote _ E' HP') as [HP'' Hlt']. apply fm_ok_ret. split; [done|lia]. }
        destruct (peek l =? quote_rune)%Z eqn:Eq; apply fm_ok_ret; [|done].
        exists l. split; [done|]. destruct (consume_spec l E) as (q & [Hq _ Hr _]).
        apply Z.eqb_eq in Eq. rewrite Eq in Hr.
        by apply (rune_of_char (ascii_of_nat 34)) in Hr as ->; [|done].
      * exists dquote. split; [done|]. by exists EmptyString.
    + intros [] l' (l & HP & Hq). apply fm_ok_ret.
      by apply (scanned_string l0 EmptyString EmptyString l).
Qed.

(** ** Layout

    [layout_at a l]: after the tokens handed out so far [a] blocks are open, and the
    pending tokens lead from them to the stack. *)
Record layout_k (a k : nat) (l : Lexer) : Prop := {
  la_stack : indentStack l = stairs k;
  la_src : 2 * k <= String.length (src l);
  la_pending : blocks a (pending l) = Some k;
  la_layout : Forall (λ t, tok_Kind t = TokenIndent ∨ tok_Kind t = TokenDedent) (pending l);
  la_done : done l = true → at_end l = true ∧ k = 0
}.
Definition layout_at (a : nat) (l : Lexer) : Prop := ∃ k, layout_k a k l.

Lemma layout_moved a k l mid l' : done l = false → layout_k a k l → moved l mid l' → layout_k a k l'.
Proof.
  intros Hd [Hs Hk Hp Hl _] [[_ Es _ _ _] (Est & Ep & Ed)].
  split; rewrite ?Est, ?Es, ?Ep, ?Ed; try done. by rewrite Hd.
Qed.

(** The cursor and the flags are the same. *)
Definition same_cursor (l l' : Lexer) : Prop :=
  filename l' = filename l ∧ src l' = src l ∧ pos l' = pos l ∧ line l' = line l ∧
  atLineStart l' = atLineStart l.

Lemma same_cursor_adv l l' : same_cursor l l' → adv l EmptyString l'.
Proof.
  intros (Ef & Es & Ep & El & _).
  split; [done|done|cbn; lia|by unfold rest; rewrite Es, Ep|cbn; lia].
Qed.

Lemma repeat_space_snoc k : repeat_space k +:+ " " = repeat_space (S k).
Proof. induction k as [|k IH]; [done|]. cbn [repeat_space]. by rewrite str_app_cons, IH. Qed.

Lemma repeat_space_length k : String.length (repeat_space k) = k.
Proof. induction k as [|k IH]; cbn; auto. Qed.

Lemma gap_spaces k : gap false (repeat_space k) = Some false.
Proof. induction k as [|k IH]; [done|exact IH]. Qed.

Lemma countSpaces_ok l0 : fits l0 →
  fm_ok (countSpaces n l0) (λ spaces l,
    since l0 (λ mid, ∃ k, spaces = Z.of_nat k ∧ mid = repeat_space k) l) (λ _, True).
Proof.
  intros Hn. unfold countSpaces.
  apply (fm_ok_loop _ (λ spaces, since l0 (λ mid, ∃ k, spaces = Z.of_nat k ∧ mid = repeat_space k))
    (λ _, left_over)); [|apply since_start; by exists 0|by apply left_fits].
  intros spaces l HP. destruct (peek l =? rune " ")%Z eqn:E.
  - apply fm_ok_ret. eapply (since_char l0 (λ z, (z =? rune " ")%Z)); [|done|done|].
    + intros z. change (rune " ") with 32%Z. lia.
    + intros mid a (k & -> & ->) Ha. exists (S k). split; [lia|].
      apply Z.eqb_eq in E. rewrite E in Ha. apply rune_inj in Ha as <-. apply repeat_space_snoc.
  - destruct (peek l =? tab)%Z; [by apply fm_ok_err|by apply fm_ok_ret].
Qed.

Definition weight (l : Lexer) : nat := length (indentStack l) + length (pending l).

Lemma popIndent_ok a k keep ln col l0 : fits l0 → layout_k a k l0 → done l0 = false →
  fm_ok (popIndent n keep ln col l0) (λ _ l,
    same_cursor l0 l ∧ done l = false ∧ weight l = weight l0 ∧
    ∃ j, j <= k ∧ layout_k a j l ∧ (j = 0 ∨ keep (2 * Z.of_nat j)%Z = true)) (λ _, False).
Proof.
  intros Hn HL Hd. unfold popIndent.
  apply (fm_ok_while _ (λ l, same_cursor l0 l ∧ done l = false ∧ weight l = weight l0 ∧ ∃ j, j <= k ∧ layout_k a j l)
    (λ l, length (indentStack l))).
  - intros l (Hc & Hd' & Hw & j & Hj & [Hs Hk Hp Hl _]). rewrite Hs.
    destruct j as [|j]; cbn [stairs].
    { apply fm_ok_ret. split_and!; [done..|]. exists 0. split_and!; [lia| |by left].
      split; try done. by rewrite Hd'. }
    destruct (stairs j) as [|t st] eqn:Est; [by destruct j|]. rewrite <- Est.
    destruct (keep _) eqn:Ek; apply fm_ok_ret.
    { split_and!; [done..|]. exists (S j). split_and!; [done| |right; exact Ek].
      split; try done. by rewrite Hd'. }
    split_and!; [done|done| | |cbn [indentStack set_layout length]; lia].
    { rewrite <- Hw. unfold weight. rewrite Hs. cbn [indentStack pending set_layout stairs length].
      rewrite length_app. cbn. lia. }
    exists j. split; [lia|]. split; cbn; [done| | |..].
    + lia.
    + rewrite blocks_app, Hp. done.
    + apply Forall_app. split; [done|]. constructor; [by right|done].
    + by rewrite Hd'.
  - split_and!; [done|done|done|]. eauto.
  - destruct HL as [-> Hk _ _ _]. rewrite stairs_length. unfold fits in Hn. lia.
Qed.

Lemma finish_ok a k l0 : fits l0 → layout_k a k l0 → done l0 = false → at_end l0 = true →
  fm_ok (finish n l0 l0) (λ _ l,
    same_cursor l0 l ∧ done l = true ∧ weight l = weight l0 ∧ layout_k a 0 l) (λ _, False).
Proof.
  intros Hn HL Hd He. unfold finish. eapply fm_ok_then; [by eapply popIndent_ok|].
  intros [] l (Hc & Hd' & Hw & j & _ & [Hs Hk Hp Hl _] & [->|?]); [|done]. apply fm_ok_mod.
  split_and!; [done|done|done|]. split; try done. intros _. split; [|done].
  destruct Hc as (_ & Es & Ep & _ & _). unfold at_end in *. cbn. by rewrite Es, Ep.
Qed.

(** What a round of [Next] may skip: blanks, and a comment only up to its end. *)
Definition skipped (l0 l : Lexer) : Prop :=
  ∃ mid c, adv l0 mid l ∧ gap false mid = Some c ∧ (c = true → at_end l = true).

Lemma skipped_adv l0 mid l l' : adv l0 mid l → gap false mid = Some false → skipped l l' → skipped l0 l'.
Proof.
  intros Hm Hg (m & c & Hm' & Hg' & Hc). exists (mid +:+ m), c. split_and!; [by eapply adv_trans| |done].
  by rewrite gap_app, Hg.
Qed.

Lemma skipped_cursor l0 l l' : skipped l0 l → same_cursor l l' → skipped l0 l'.
Proof.
  intros (m & c & Hm & Hg & Hc) (Ef & Es & Ep & El & _). exists m, c.
  split_and!; [by eapply adv_same|done|]. intros E. unfold at_end. rewrite Es, Ep. by apply Hc.
Qed.

Lemma layout_set_flags a k b b' l : layout_k a k l → layout_k a k (set_flags b b' l).
Proof. intros [? ? ? ? ?]. by split. Qed.

Definition cost (l : Lexer) : nat := 2 * left_over l + (if atLineStart l then 1 else 0).

Lemma cost_flags a b l : cost (set_flags a b l) = 2 * left_over l + (if a then 1 else 0).
Proof. done. Qed.

(** The layout a line with [spaces] leading spaces asks for. *)
Lemma indent_ok a k spaces ln col l0 : fits l0 → layout_k a k l0 → pending l0 = [] →
  done l0 = false → 2 * Z.to_nat spaces <= 2 * String.length (src l0) → (0 <= spaces)%Z →
  fm_ok ((do* t := fm_get top in
     (if (t <? spaces)%Z then
        if negb (spaces =? t + 2)%Z
        then lex_error "%s:%d:%d: indentation must increase by two spaces" ln col []
        else fm_mod (λ l, set_layout (spaces :: indentStack l)
               (pending l ++ [token l TokenIndent (spaces_str spaces) ln col]) (done l) l)
      else if (spaces <? t)%Z then
        popIndent n (λ t, t <=? spaces)%Z ln col ;;
        do* t := fm_get top in
        if negb (t =? spaces)%Z
        then lex_error "%s:%d:%d: indentation does not match any open block" ln col []
        else fm_ret ()
      else fm_ret ()) ;;
     fm_mod (set_flags false false))%loop l0)
    (λ _ l, layout_at a l ∧ done l = false ∧ atLineStart l = false ∧
      weight l <= weight l0 + Z.to_nat spaces ∧
      ∃ l1, same_cursor l0 l1 ∧ l = set_flags false false l1) (λ _, True).
Proof.
  intros Hn HL Hpe Hd Hb Hz. apply fm_ok_bind, fm_ok_get.
  eapply (fm_ok_then _ _ _ (λ _ l, layout_at a l ∧ done l = false ∧
    weight l <= weight l0 + Z.to_nat spaces ∧ same_cursor l0 l)).
  - unfold top. rewrite (la_stack _ _ _ HL), stairs_hd.
    destruct (_ <? spaces)%Z eqn:E1; [destruct (spaces =? _)%Z eqn:E2|]; cbn [negb].
    + apply Z.eqb_eq in E2. apply fm_ok_mod. split_and!; [|done| |done];
        [|unfold weight; cbn [indentStack pending set_layout]; rewrite length_app; cbn [length]; lia].
      exists (S k). destruct HL as [Hs Hk Hp Hl _].
      split; cbn [indentStack set_layout src pending done]; [| | |..].
      * rewrite Hs. cbn [stairs]. f_equal. lia.
      * lia.
      * rewrite Hpe in Hp |- *. cbn in Hp. injection Hp as ->. cbn -[Nat.mul repeat_space].
        rewrite bool_decide_true; [done|]. unfold spaces_str. f_equal. lia.
      * apply Forall_app. split; [done|]. constructor; [by left|done].
      * by rewrite Hd.
    + by apply fm_ok_err.
    + destruct (spaces <? _)%Z eqn:E3; [|apply fm_ok_ret; split_and!; [by exists k|done|lia|done]].
      eapply fm_ok_then; [eapply fm_ok_weaken; [by eapply popIndent_ok|intros ? ? H; exact H|done]|].
      intros [] l1 (Hc & Hd1 & Hw & j & _ & HL1 & _). apply fm_ok_bind, fm_ok_get.
      destruct (negb _); [by apply fm_ok_err|apply fm_ok_ret].
      split_and!; [by exists j|done|lia|done].
  - intros [] l1 ((j & HL1) & Hd1 & Hw & Hc). apply fm_ok_mod. split_and!; [|done|done|done|eauto].
    exists j. by apply layout_set_flags.
Qed.

Lemma fits_adv l mid l' : adv l mid l' → fits l → fits l'.
Proof. intros H. unfold fits. by rewrite (adv_src _ _ _ H). Qed.

Lemma moved_skipped l mid l' : adv l mid l' → gap false mid = Some false → skipped l l'.
Proof. intros. by exists mid, false. Qed.

Lemma adv_cost l mid l' : adv l mid l' → left_over l' <= left_over l.
Proof. intros H. pose proof (adv_rest_length _ _ _ H). unfold left_over. lia. Qed.

Lemma lay_weight l l' : lay l l' → weight l' = weight l.
Proof. intros (Es & Ep & _). unfold weight. by rewrite Es, Ep. Qed.

Lemma weight_flags a b l : weight (set_flags a b l) = weight l.
Proof. done. Qed.

Lemma left_flags a b l : left_over (set_flags a b l) = left_over l.
Proof. done. Qed.

Definition line_begun (a : nat) (l0 l : Lexer) : Prop :=
  layout_at a l ∧ skipped l0 l ∧ weight l + left_over l <= weight l0 + left_over l0 ∧
  (done l = true ∨ (done l = false ∧ pending l ≠ []) ∨
   (done l = false ∧ pending l = [] ∧ cost l < cost l0)).

Lemma beginLine_ok a k l0 : fits l0 → layout_k a k l0 → pending l0 = [] → done l0 = false →
  atLineStart l0 = true →
  fm_ok (beginLine n l0) (λ _ l, line_begun a l0 l) (λ _, True).
Proof.
  intros Hn HL Hpe Hd Hals. unfold beginLine. destruct (at_end l0) eqn:He.
  - eapply fm_ok_weaken; [by eapply finish_ok| |done]. intros [] l (Hc & Hd' & Hw & HL').
    pose proof (adv_cost _ _ _ (same_cursor_adv _ _ Hc)).
    split_and!; [by exists 0| |lia|by left].
    apply moved_skipped with EmptyString; [by apply same_cursor_adv|done].
  - eapply fm_ok_then; [by apply countSpaces_ok|]. intros spaces l1 (mid & Hm & j & -> & ->).
    pose proof (proj1 Hm) as Ha. pose proof (adv_cost _ _ _ Ha) as Hcost.
    pose proof (proj2 Hm) as (_ & Ep & Ed). rewrite Hpe in Ep. rewrite Hd in Ed.
    pose proof (layout_moved _ _ _ _ _ Hd HL Hm) as HL1.
    pose proof (lay_weight _ _ (proj2 Hm)) as Hw1.
    pose proof (adv_rest_length _ _ _ Ha) as Hlen1. rewrite repeat_space_length in Hlen1.
    apply fm_ok_bind, fm_ok_get. destruct (peek l1 =? newline)%Z eqn:En.
    + apply fm_ok_mod. apply Z.eqb_eq in En.
      assert (He1 : at_end l1 = false) by (apply not_end; rewrite En; done).
      destruct (consume_spec l1 He1) as (m & [Hm1 Hl1 Hr1 _]). rewrite En in Hr1.
      apply (rune_of_char (ascii_of_nat 10)) in Hr1 as ->; [|done].
      pose proof (layout_moved _ _ _ _ _ Ed HL1 Hm1) as HL2.
      pose proof (proj2 Hm1) as (_ & Ep2 & Ed2).
      pose proof (adv_cost _ _ _ (proj1 Hm1)) as Hcost1. pose proof (lay_weight _ _ (proj2 Hm1)) as Hw2.
      split_and!; [by exists k; apply layout_set_flags| |rewrite left_flags, weight_flags; lia|right; right].
      * apply skipped_adv with (repeat_space j) l1; [done|apply gap_spaces|].
        eapply moved_skipped; [by apply moved_flags|done].
      * split_and!; [cbn; congruence|cbn; congruence|]. rewrite cost_flags. unfold cost. rewrite Hals.
        pose proof (adv_rest_length _ _ _ (proj1 Hm1)) as Hlen. cbn in Hlen.
        unfold left_over in *. lia.
    + destruct (peek l1 =? rune "#")%Z eqn:Ec.
      * apply Z.eqb_eq in Ec. eapply fm_ok_weaken;
          [by apply skipLineComment_ok; [eapply fits_adv|]| |done].
        intros [] l (Hals' & Hlt & m & Hm1 & c & Hg & Hc).
        pose proof (layout_moved _ _ _ _ _ Ed HL1 Hm1) as HL2.
        pose proof (proj2 Hm1) as (_ & Ep2 & Ed2).
        pose proof (lay_weight _ _ (proj2 Hm1)) as Hw2.
        split_and!; [by exists k| |lia|right; right].
        -- apply skipped_adv with (repeat_space j) l1; [done|apply gap_spaces|].
           exists m, c. split_and!; [apply Hm1|done|done].
        -- split_and!; [congruence|congruence|]. unfold cost. rewrite Hals, Hals'. lia.
      * eapply fm_ok_weaken; [eapply indent_ok; [by eapply fits_adv|done|done|done| |lia]| |done].
        { rewrite (adv_src _ _ _ Ha). rewrite (rest_length l0) in Hlen1. lia. }
        intros [] l (HL2 & Hd2 & Hals2 & Hw2 & l2 & Hc & ->).
        pose proof (adv_cost _ _ _ (same_cursor_adv _ _ Hc)) as Hcost2.
        assert (Hs : skipped l0 (set_flags false false l2)).
        { apply skipped_adv with (repeat_space j) l1; [done|apply gap_spaces|].
          apply moved_skipped with EmptyString; [|done].
          by eapply adv_same; [apply same_cursor_adv|..]. }
        split_and!; [done|done| |right].
        { rewrite left_flags. rewrite weight_flags in Hw2 |- *. unfold left_over in *. lia. }
        destruct (decide (pending (set_flags false false l2) = []));
          [right|by left]. split_and!; [done|done|].
        rewrite cost_flags. unfold cost. rewrite Hals. lia.
Qed.

(** ** Tokens *)
Lemma peek_char l a : nat_of_ascii a < 128 → peek l = rune a → ∃ s, rest l = String a s.
Proof.
  intros Ha Hp. destruct (decide (rest l = EmptyString)) as [E|E].
  { exfalso. unfold peek in Hp. rewrite E in Hp. unfold rune in Hp. cbn in Hp. unfold RuneError in Hp. lia. }
  destruct (DecodeRuneInString (rest l)) as [r w] eqn:Ed. unfold peek in Hp. rewrite Ed in Hp.
  cbn in Hp. destruct (decode_high _ _ _ E Ed) as [(b & s & Es & Hr & _)|[Hr _]].
  - exists s. rewrite Hr in Hp. by apply rune_inj in Hp as ->.
  - unfold rune in Hp. lia.
Qed.

Lemma scanned_flags l0 ln t l a b : scanned l0 ln t l → scanned l0 ln t (set_flags a b l).
Proof. intros ((mid & Hm & HP) & H). split; [|done]. exists mid. split; [by apply moved_flags|done]. Qed.

Lemma emit_ok l0 m : fm_ok (m l0) (scanned l0 (line l0)) (λ _, True) →
  fm_ok ((do* tok := m in fm_mod (λ l, set_flags (atLineStart l) true l) ;; fm_ret tok)%loop l0)
    (scanned l0 (line l0)) (λ _, True).
Proof.
  intros H. eapply fm_ok_then; [exact H|]. intros t l Hs. apply fm_ok_bind, fm_ok_mod, fm_ok_ret.
  by apply scanned_flags.
Qed.

Lemma scanned_char l0 a k ln col : nat_of_ascii a < 128 → peek l0 = rune a →
  token_ok (token (consume l0) k (String a EmptyString) ln col) = true →
  scanned l0 ln (token (consume l0) k (String a EmptyString) ln col) (consume l0).
Proof.
  intros Ha Hp Hok. destruct (peek_char l0 a Ha Hp) as (s & Hs).
  destruct (consume_char l0 a s Ha Hs) as [Hm _]. split_and!; [|done|done]. by eexists.
Qed.

Lemma scanToken_ok l0 : fits l0 → at_end l0 = false →
  fm_ok (scanToken n (peek l0) l0) (scanned l0 (line l0)) (λ _, True).
Proof.
  intros Hn He. unfold scanToken.
  destruct (peek l0 =? quote_rune)%Z eqn:Eq.
  { apply Z.eqb_eq in Eq. apply emit_ok, scanString_ok; done. }
  destruct (isIdentStart (peek l0)) eqn:Ei; [by apply emit_ok, scanIdentifier_ok|].
  destruct (isDigit (peek l0)) eqn:Ed; [by apply emit_ok, scanNumber_ok|].
  destruct (_ && peekArrow l0) eqn:Ea.
  { apply andb_prop in Ea as [Em%Z.eqb_eq Ea]. apply emit_ok, fm_ok_ret.
    destruct (peek_char l0 "-" ltac:(apply Nat.ltb_lt; done) Em) as (s & Hs).
    destruct (consume_char l0 "-" s ltac:(apply Nat.ltb_lt; done) Hs) as [Hm Hr].
    unfold peekArrow in Ea. destruct (_ <=? _); [done|]. apply bool_decide_eq_true in Ea.
    unfold byte_at in Ea. rewrite <- str_drop_drop in Ea. change (str_drop (pos l0) (src l0)) with (rest l0) in Ea.
    rewrite Hs in Ea. cbn [str_drop] in Ea. destruct s as [|b s]; [done|].
    injection Ea as Ea. apply (rune_inj b ">") in Ea as ->.
    destruct (consume_char _ ">" s ltac:(apply Nat.ltb_lt; done) Hr) as [Hm' _].
    split_and!; [|done|done]. exists "->". split; [|done]. by apply (moved_trans _ "-" (consume l0) ">"). }
  destruct (_ && isListMarkerAhead l0) eqn:El.
  { apply andb_prop in El as [[Em%Z.eqb_eq _]%andb_prop _]. apply emit_ok, fm_ok_ret.
    apply scanned_char; [by apply Nat.ltb_lt|done|done]. }
  destruct (isPunctuation (peek l0)) eqn:Ep; [|by apply fm_ok_err].
  apply emit_ok, fm_ok_ret. apply existsb_exists in Ep as (a & Ha & Ep).
  apply Z.eqb_eq in Ep. rewrite Ep. unfold rune. rewrite Nat2Z.id, ascii_nat_embedding.
  apply scanned_char; [|done|].
  - apply Nat.ltb_lt. by repeat (destruct Ha as [<-|Ha]; [done|]).
  - by repeat (destruct Ha as [<-|Ha]; [done|]).
Qed.

(** ** [Next] *)
Inductive next_ok (a : nat) (l0 : Lexer) (t : Token) (l : Lexer) : Prop :=
| next_eof : tok_Kind t = TokenEOF → a = 0 → skipped l0 l → at_end l = true → next_ok a l0 t l
| next_layout b : tok_Kind t = TokenIndent ∨ tok_Kind t = TokenDedent → blocks a [t] = Some b →
    layout_at b l → skipped l0 l → weight l + left_over l < weight l0 + left_over l0 → next_ok a l0 t l
| next_token l1 : skipped l0 l1 → at_end l1 = false → scanned l1 (line l1) t l → layout_at a l →
    weight l + left_over l < weight l0 + left_over l0 → next_ok a l0 t l.

Lemma take_ok a k l t l' : layout_k a k l → take_pending l = Some (t, l') →
  (tok_Kind t = TokenIndent ∨ tok_Kind t = TokenDedent) ∧ same_cursor l l' ∧ weight l = S (weight l') ∧
  ∃ b, blocks a [t] = Some b ∧ layout_k b k l'.
Proof.
  intros [Hs Hk Hp Hl Hd] Ht. unfold take_pending in Ht.
  destruct (pending l) as [|u ts] eqn:Ep; [done|]. injection Ht as -> <-.
  apply Forall_cons_1 in Hl as [Ht Hl]. split_and!; [done|done| |].
  { unfold weight. rewrite Ep. cbn. lia. }
  change (t :: ts) with ([t] ++ ts) in Hp. rewrite blocks_app in Hp.
  apply bind_Some in Hp as (b & Hb & Hp). exists b. split; [done|]. by split.
Qed.

Lemma take_none a k l : layout_k a k l → take_pending l = None → pending l = [] ∧ a = k.
Proof.
  unfold take_pending. intros [_ _ Hp _ _] Ht. destruct (pending l); [|done].
  cbn in Hp. by injection Hp.
Qed.

Lemma next_pending a k l0 l t l' : layout_k a k l → take_pending l = Some (t, l') → skipped l0 l →
  weight l + left_over l <= weight l0 + left_over l0 → next_ok a l0 t l'.
Proof.
  intros HL Ht Hs Hw. destruct (take_ok _ _ _ _ _ HL Ht) as (Hk & Hc & Hw' & b & Hb & HL').
  eapply next_layout; [done|exact Hb|by exists k|by eapply skipped_cursor|].
  pose proof (adv_cost _ _ _ (same_cursor_adv _ _ Hc)). lia.
Qed.

(** The state between two rounds of [Next]. *)
Definition rounds (a : nat) (l0 l : Lexer) : Prop :=
  layout_k a a l ∧ pending l = [] ∧ done l = false ∧ fits l ∧ skipped l0 l ∧
  weight l + left_over l <= weight l0 + left_over l0.

Lemma skipped_trans l0 l l' : skipped l0 l → at_end l = false → skipped l l' → skipped l0 l'.
Proof.
  intros (mid & c & Hm & Hg & Hc) He Hs. destruct c; [by rewrite Hc in He|].
  by eapply skipped_adv.
Qed.

Lemma skipped_end l0 l l' : skipped l0 l → at_end l = true → skipped l l' → skipped l0 l'.
Proof.
  intros (mid & c & Hm & Hg & _) He (m & c' & Hm' & _ & _).
  assert (m = EmptyString) as ->.
  { rewrite at_end_rest in He. apply bool_decide_eq_true in He.
    pose proof (adv_rest_length _ _ _ Hm') as H. rewrite He in H. destruct m; [done|]. cbn in H. lia. }
  exists mid, c. split_and!; [|done|].
  - rewrite <- (str_app_nil_r mid). by eapply adv_trans.
  - intros _. unfold at_end in *. rewrite (adv_src _ _ _ Hm'), (adv_pos _ _ _ Hm'). cbn.
    by rewrite Nat.add_0_r.
Qed.

Lemma skipped_more l0 l l' : skipped l0 l → skipped l l' → skipped l0 l'.
Proof. intros H1 H2. destruct (at_end l) eqn:E; [by eapply skipped_end|by eapply skipped_trans]. Qed.

Lemma skipped_fits l l' : skipped l l' → fits l → fits l'.
Proof. intros (m & c & Hm & _) H. by eapply fits_adv. Qed.

Lemma eof_ok a l0 l : layout_k a 0 l → pending l = [] → at_end l = true → skipped l0 l →
  next_ok a l0 (eof_token l) l.
Proof.
  intros [_ _ Hp _ _] Hpe He Hs. apply next_eof; [done| |done|done]. rewrite Hpe in Hp. by injection Hp.
Qed.

(** The blocks are closed at the end of the source. *)
Lemma finishEOF_ok a l0 l : rounds a l0 l → at_end l = true →
  fm_ok (finishEOF n l) (next_ok a l0) (λ _, True).
Proof.
  intros (HL & Hpe & Hd & Hn & Hs & Hw) He. unfold finishEOF.
  eapply fm_ok_then; [eapply fm_ok_weaken; [by eapply finish_ok|intros ? ? H; exact H|done]|].
  intros [] l1 (Hc & Hd1 & Hw1 & HL1).
  pose proof (adv_cost _ _ _ (same_cursor_adv _ _ Hc)).
  pose proof (skipped_cursor _ _ _ Hs Hc) as Hs1.
  destruct (take_pending l1) as [[t l2]|] eqn:Et; apply fm_ok_ret.
  - eapply next_pending; [exact HL1|done|done|lia].
  - destruct (take_none _ _ _ HL1 Et) as [Hp1 ->]. apply eof_ok; [done|done| |done].
    by apply (la_done _ _ _ HL1).
Qed.

Lemma next_body_ok a l0 l : rounds a l0 l →
  fm_ok (next_body n l) (λ r l',
    match r with None => rounds a l0 l' ∧ cost l' < cost l | Some t => next_ok a l0 t l' end) (λ _, True).
Proof.
  intros Hr. pose proof Hr as (HL & Hpe & Hd & Hn & Hs & Hw). unfold next_body.
  destruct (atLineStart l) eqn:Hals.
  { eapply fm_ok_then; [by eapply beginLine_ok|].
    intros [] l1 ((k & HL1) & Hs1 & Hw1 & Hcase).
    pose proof (skipped_more _ _ _ Hs Hs1) as Hs2.
    destruct (take_pending l1) as [[t l2]|] eqn:Et.
    { apply fm_ok_ret. eapply next_pending; [exact HL1|done|done|lia]. }
    destruct (take_none _ _ _ HL1 Et) as [Hp1 ->].
    destruct Hcase as [Hd1|[[_ ?]|(Hd1 & _ & Hlt)]]; [|done|]; rewrite Hd1; apply fm_ok_ret.
    - destruct (la_done _ _ _ HL1 Hd1) as [He1 Hk]. rewrite Hk in HL1 |- *. by apply eof_ok.
    - split; [|done]. split_and!; [done|done|done|exact (skipped_fits _ _ Hs1 Hn)|done|lia]. }
  destruct (at_end l) eqn:He.
  { eapply fm_ok_then; [by apply (finishEOF_ok a l0)|]. intros t l' H. by apply fm_ok_ret. }
  destruct (consume_spec l He) as (m & [Hm Hl Hru Hst]).
  pose proof (layout_moved _ _ _ _ _ Hd HL Hm) as HL1.
  pose proof (adv_rest_length _ _ _ (proj1 Hm)) as Hlen. pose proof (lay_weight _ _ (proj2 Hm)) as Hw1.
  pose proof (proj2 Hm) as (_ & Hp1 & Hd1). rewrite Hpe in Hp1. rewrite Hd in Hd1.
  assert (Hfit : fits (consume l)) by (eapply fits_adv; [apply Hm|done]).
  destruct (peek l =? newline)%Z eqn:En.
  { apply fm_ok_ret. apply Z.eqb_eq in En. rewrite En in Hru.
    apply (rune_of_char (ascii_of_nat 10)) in Hru as ->; [|done].
    split; [|rewrite cost_flags; unfold cost, left_over in *; lia].
    split_and!; [by apply layout_set_flags|done|done|done| |].
    - apply skipped_trans with l; [done|done|]. eapply moved_skipped; [by apply moved_flags|done].
    - rewrite weight_flags, left_flags. unfold left_over in *. lia. }
  destruct (isSpace (peek l)) eqn:Esp.
  { apply fm_ok_ret.
    assert (ascii_class isSpace) as Hsp.
    { intros z. unfold isSpace, tab. change (rune " ") with 32%Z. lia. }
    destruct (rune_of_class _ _ _ Hsp Hru Esp) as (b & -> & Eb).
    split; [|unfold cost; rewrite Hst; cbn [orb]; unfold left_over in *; lia].
    split_and!; [done|done|done|done| |unfold left_over in *; lia].
    apply skipped_trans with l; [done|done|]. eapply moved_skipped; [apply Hm|].
    rewrite Eb in Esp. cbn [gap]. by rewrite Esp, orb_true_r. }
  destruct (peek l =? rune "#")%Z eqn:Ec.
  { apply Z.eqb_eq in Ec. eapply fm_ok_then; [by apply skipLineComment_ok|].
    intros [] l1 (Hals1 & Hlt & m1 & Hm1 & c & Hg & Hc). apply fm_ok_ret.
    pose proof (lay_weight _ _ (proj2 Hm1)) as Hw2. pose proof (proj2 Hm1) as (_ & Hp2 & Hd2).
    split; [|unfold cost; rewrite Hals1; lia].
    split_and!; [exact (layout_moved _ _ _ _ _ Hd HL Hm1)|congruence|congruence|eapply fits_adv; [apply Hm1|done]| |lia].
    apply skipped_trans with l; [done|done|]. exists m1, c. split_and!; [apply Hm1|done|done]. }
  eapply fm_ok_then; [by apply scanToken_ok|]. intros t l1 Hsc. apply fm_ok_ret.
  pose proof Hsc as ((mid & Hm1 & ->) & Hok & _).
  pose proof (adv_rest_length _ _ _ (proj1 Hm1)) as Hlen1. pose proof (lay_weight _ _ (proj2 Hm1)).
  assert (String.length (Lexeme t) ≠ 0).
  { intros E. apply (token_ok_nonempty _ Hok). by destruct (Lexeme t). }
  eapply next_token; [exact Hs|done|done| |unfold left_over in *; lia].
  exists a. exact (layout_moved _ _ _ _ _ Hd HL Hm1).
Qed.

Lemma Next_ok a l0 : fits l0 → layout_at a l0 → fm_ok (Next n l0) (next_ok a l0) (λ _, True).
Proof.
  intros Hn (k & HL). unfold Next.
  assert (Hs : skipped l0 l0) by (eapply moved_skipped; [apply adv_refl|done]).
  destruct (take_pending l0) as [[t l]|] eqn:Et.
  { apply fm_ok_ret. by eapply next_pending. }
  destruct (take_none _ _ _ HL Et) as [Hpe ->]. destruct (done l0) eqn:Hd.
  { apply fm_ok_ret. destruct (la_done _ _ _ HL Hd) as [He Hk]. rewrite Hk in HL |- *. by apply eof_ok. }
  apply (fm_ok_while _ (rounds k l0) cost).
  - apply next_body_ok.
  - by split_and!.
  - unfold cost, fits in *. pose proof (rest_length l0). unfold left_over. destruct (atLineStart l0); lia.
Qed.
End scanners.

(** ** The token list

    [tokens_of p ts]: [ts] are the visible tokens of the text [p], which ends with the
    last of them. *)
Inductive tokens_of : string → list Token → Prop :=
| tokens_nil : tokens_of EmptyString []
| tokens_snoc p ts g t :
    tokens_of p ts → gap false g = Some false → token_ok t = true →
    tok_Line t = (1 + newlines (p +:+ g))%Z →
    tokens_of (p +:+ g +:+ Lexeme t) (ts ++ [t]).

Record lexed_to (ts : list Token) (l : Lexer) (p g : string) (c : bool) : Prop := {
  lt_src : src l = p +:+ g +:+ rest l;
  lt_line : line l = (1 + newlines (p +:+ g))%Z;
  lt_gap : gap false g = Some c;
  lt_end : c = true → at_end l = true;
  lt_tokens : tokens_of p (filter (λ t, visible t = true) ts)
}.

Lemma lexed_skip ts l l' p g c t : lexed_to ts l p g c → skipped l l' → visible t = false →
  ∃ g' c', lexed_to (ts ++ [t]) l' p g' c'.
Proof.
  intros [Hs Hl Hg He Ht] Hsk Hv.
  assert (Hf : filter (λ t, visible t = true) (ts ++ [t]) = filter (λ t, visible t = true) ts).
  { rewrite filter_app. unfold filter at 2. cbn. rewrite decide_False by (by rewrite Hv). by rewrite app_nil_r. }
  assert (∃ mid c', adv l mid l' ∧ gap false (g +:+ mid) = Some c' ∧ (c' = true → at_end l' = true))
    as (mid & c' & Hm & Hg' & He').
  { destruct c.
    - destruct Hsk as (mid & c' & Hm & _). specialize (He eq_refl).
      assert (mid = EmptyString) as ->.
      { rewrite at_end_rest in He. apply bool_decide_eq_true in He.
        pose proof (adv_rest_length _ _ _ Hm) as H. rewrite He in H. destruct mid; [done|]. cbn in H. lia. }
      exists EmptyString, true. rewrite str_app_nil_r. split_and!; [done|done|]. intros _.
      unfold at_end in *. rewrite (adv_src _ _ _ Hm), (adv_pos _ _ _ Hm). cbn. by rewrite Nat.add_0_r.
    - destruct Hsk as (mid & c' & Hm & Hg1 & Hc). exists mid, c'. split_and!; [done| |done].
      by rewrite gap_app, Hg. }
  exists (g +:+ mid), c'. split; [| |done|done|by rewrite Hf].
  - rewrite (adv_src _ _ _ Hm), Hs, (adv_rest _ _ _ Hm). by rewrite !str_app_assoc.
  - rewrite (adv_line _ _ _ Hm), Hl, <- str_app_assoc, !newlines_app. lia.
Qed.

Lemma token_ok_visible t : token_ok t = true → visible t = true ∧ tok_Kind t ≠ TokenEOF.
Proof. unfold token_ok, visible. by destruct (tok_Kind t). Qed.

Lemma lexed_token ts l l1 l' p g c t : lexed_to ts l p g c → skipped l l1 → at_end l1 = false →
  scanned l1 (line l1) t l' → ∃ p', lexed_to (ts ++ [t]) l' p' EmptyString false.
Proof.
  intros [Hs Hl Hg He Ht] (mid & c1 & Hm & Hg1 & Hc1) He1 ((m & [Hm1 _] & ->) & Hok & Hln).
  destruct c1; [by rewrite Hc1 in He1|]. destruct c.
  { exfalso. specialize (He eq_refl). rewrite at_end_rest in He. apply bool_decide_eq_true in He.
    pose proof (adv_rest_length _ _ _ Hm) as H. rewrite He in H. cbn in H.
    rewrite at_end_rest in He1. apply bool_decide_eq_false in He1. apply He1.
    destruct (rest l1); [done|]. cbn in H. lia. }
  assert (Hgm : gap false (g +:+ mid) = Some false) by (rewrite gap_app, Hg; exact Hg1).
  assert (Hll : line l1 = (1 + newlines (p +:+ g +:+ mid))%Z).
  { rewrite (adv_line _ _ _ Hm), Hl, !newlines_app. lia. }
  exists (p +:+ (g +:+ mid) +:+ Lexeme t). split; [| |done|done|].
  - rewrite (adv_src _ _ _ Hm1), (adv_src _ _ _ Hm), Hs, (adv_rest _ _ _ Hm), (adv_rest _ _ _ Hm1).
    by rewrite !str_app_assoc.
  - rewrite str_app_nil_r, (adv_line _ _ _ Hm1), Hll, !newlines_app. lia.
  - rewrite filter_app. unfold filter at 2. cbn.
    rewrite decide_True by apply (token_ok_visible _ Hok).
    apply tokens_snoc; [done|done|done|]. by rewrite Hln, Hll.
Qed.

(** Between two tokens of [LexAll]. *)
Definition lexing (n : nat) (ts : list Token) (l : Lexer) : Prop :=
  fits n l ∧ Forall (λ t, tok_Kind t ≠ TokenEOF) ts ∧ (∃ a, blocks 0 ts = Some a ∧ layout_at a l) ∧
  ∃ p g c, lexed_to ts l p g c.

Definition lexed_all (src0 : string) (ts : list Token) : Prop :=
  blocks 0 ts = Some 0 ∧
  (∃ us eof, ts = us ++ [eof] ∧ tok_Kind eof = TokenEOF ∧ Forall (λ t, tok_Kind t ≠ TokenEOF) us) ∧
  ∃ p g c, src0 = p +:+ g ∧ gap false g = Some c ∧ tokens_of p (filter (λ t, visible t = true) ts).

Lemma LexAll_ok n l0 : lexing n [] l0 → weight l0 + left_over l0 < n →
  fm_ok (LexAll_loop n l0) (λ ts _, lexed_all (src l0) ts) (λ _, True).
Proof.
  intros HL Hn. unfold LexAll_loop.
  apply (fm_ok_loop _ (λ ts l, lexing n ts l ∧ src l = src l0) (λ _ l, weight l + left_over l)); [|done|done].
  intros ts l ((Hf & Hne & (a & Ha & Hla) & p & g & c & Hlx) & Hsrc).
  eapply fm_ok_then; [by apply Next_ok|]. intros t l' Hnext. apply fm_ok_ret.
  destruct Hnext as [Hk Ha0 Hs He|b Hk Hb Hlb Hs Hw|l1 Hs He Hsc Hla' Hw].
  - rewrite bool_decide_true by done. subst a.
    destruct (lexed_skip _ _ _ _ _ _ t Hlx Hs) as (g' & c' & [Hsr _ Hg _ Ht]).
    { unfold visible. by rewrite Hk. }
    split_and!; [|by exists ts, t|].
    + rewrite blocks_app, Ha. cbn. by rewrite Hk.
    + exists p, g', c'. split_and!; [|done|done].
      destruct Hs as (m & ? & Hm & _). rewrite <- Hsrc, <- (adv_src _ _ _ Hm), Hsr.
      rewrite at_end_rest in He. apply bool_decide_eq_true in He. by rewrite He, str_app_nil_r.
  - assert (Hke : tok_Kind t ≠ TokenEOF) by (by destruct Hk as [->| ->]).
    rewrite bool_decide_false by done. split; [|exact Hw].
    destruct (lexed_skip _ _ _ _ _ _ t Hlx Hs) as (g' & c' & Hlx').
    { unfold visible. by destruct Hk as [->| ->]. }
    pose proof Hs as (m & ? & Hm & _).
    split; [|by rewrite (adv_src _ _ _ Hm)].
    split_and!; [by eapply fits_adv|apply Forall_app; by split; [|constructor]| |by exists p, g', c'].
    exists b. split; [|done]. by rewrite blocks_app, Ha.
  - pose proof Hsc as ((mid & [Hm1 _] & _) & Hok & _). destruct (token_ok_visible _ Hok) as [_ Hke].
    rewrite bool_decide_false by done. split; [|exact Hw].
    pose proof Hs as (m & ? & Hm & _).
    split; [|by rewrite (adv_src _ _ _ Hm1), (adv_src _ _ _ Hm)].
    split_and!; [by eapply fits_adv; [|eapply fits_adv]|apply Forall_app; by split; [|constructor]| |].
    + exists a. split; [|done]. rewrite blocks_app, Ha. cbn. unfold token_ok in Hok. by destruct (tok_Kind t).
    + destruct (lexed_token _ _ _ _ _ _ _ _ Hlx Hs He Hsc) as (p' & H); eauto.
Qed.

Lemma NewLexer_lexing f s : let l := NewLexer f s in
  lexing (lex_fuel l) [] l ∧ weight l + left_over l < lex_fuel l.
Proof.
  intros l. assert (Hr : rest l = src l) by (change (rest l) with (str_drop 0 (src l)); by destruct (src l)).
  split; [split_and!|].
  - unfold fits, lex_fuel. lia.
  - constructor.
  - exists 0. split; [done|]. exists 0. split; try done; cbn; lia.
  - exists EmptyString, EmptyString, false. split; try done. constructor.
  - unfold left_over, lex_fuel. rewrite Hr. change (weight l) with 1. lia.
Qed.

Lemma LexAll_total f s : is_Some (LexAll (NewLexer f s)).
Proof.
  destruct (NewLexer_lexing f s) as [HL Hn].
  pose proof (LexAll_ok _ _ HL Hn) as H. apply fm_ok_some in H as (r & H).
  unfold LexAll. by rewrite H.
Qed.

(** the lexer is total.  On every source it returns a token list or an error; none of its
    loops, the one over tokens included, runs out of the fuel, which is linear in the
    length of the source. *)
Theorem lexer_terminates f s : is_Some (LexAll (NewLexer f s)).
Proof. apply LexAll_total. Qed.

Lemma LexAll_lexed f s ts : LexAll (NewLexer f s) = Some (Ok ts) → lexed_all (src (NewLexer f s)) ts.
Proof.
  intros H. destruct (NewLexer_lexing f s) as [HL Hn]. pose proof (LexAll_ok _ _ HL Hn) as Hok.
  unfold LexAll in H. destruct (LexAll_loop _ _) as [[[us|e] l]|]; [|done..]. by injection H as <-.
Qed.

(** C25: the lexer loses nothing and invents nothing.  When it accepts, the text (with
    line ends normalized) is the concatenation of blanks, comments and the lexemes of
    the visible tokens, in order, each of the shape of its kind and on the line it
    records; a word is a keyword exactly when it is reserved. *)
Theorem lexer_lossless f s ts : LexAll (NewLexer f s) = Some (Ok ts) →
  ∃ p g c, src (NewLexer f s) = p +:+ g ∧ gap false g = Some c ∧
    tokens_of p (filter (λ t, visible t = true) ts).
Proof. intros H. apply LexAll_lexed in H as (_ & _ & H). exact H. Qed.

(** C24: layout is balanced.  In an accepted token list every INDENT opens a block exactly
    two spaces deeper than the enclosing one, no DEDENT closes a block that is not open,
    all blocks are closed at the end, and EOF is the last token and no other. *)
Theorem layout_balanced f s ts : LexAll (NewLexer f s) = Some (Ok ts) →
  blocks 0 ts = Some 0 ∧
  ∃ us eof, ts = us ++ [eof] ∧ tok_Kind eof = TokenEOF ∧ Forall (λ t, tok_Kind t ≠ TokenEOF) us.
Proof. intros H. apply LexAll_lexed in H as (Hb & He & _). by split. Qed.
