(* ===== verification/RecipeAst.v ===== *)
(** * Recipe syntax trees

    The source-level tree of the recipe language (named/euclo/thoughtrecipes/ast.go) and
    the source ranges of its nodes.  An interface that may be [nil] is an option: the
    parser accepts a missing value expression. *)
From S2P Require Import Prelude GoStrings GoLoop RecipeLexer.

Local Open Scope Z_scope.

(** ** Positions *)
Record SourceLocation := { sl_File : string; sl_Line : Z; sl_Column : Z }.
Record SourceSpan := { Start : SourceLocation; End : SourceLocation }.

Definition NewSpan (file : string) (startLine startColumn endLine endColumn : Z) : SourceSpan :=
  {| Start := {| sl_File := file; sl_Line := startLine; sl_Column := startColumn |};
     End := {| sl_File := file; sl_Line := endLine; sl_Column := endColumn |} |}.

Definition zero_span : SourceSpan := NewSpan EmptyString 0 0 0 0.
Definition zero_token : Token :=
  {| tok_Kind := TokenIllegal; Lexeme := EmptyString; tok_File := EmptyString; tok_Line := 0; tok_Column := 0 |}.

Definition spanFromToken (tok : Token) : SourceSpan :=
  let endCol := tok_Column tok + RuneCountInString (Lexeme tok) in
  let endCol := if tok_Column tok <? endCol then endCol - 1 else endCol in
  NewSpan (tok_File tok) (tok_Line tok) (tok_Column tok) (tok_Line tok) endCol.

Definition spanFromTokens (start last : Token) : SourceSpan :=
  NewSpan (tok_File start) (tok_Line start) (tok_Column start) (tok_Line last)
    (tok_Column last + Z.max 0 (RuneCountInString (Lexeme last) - 1)).

Definition tokenFromSpan (span : SourceSpan) : Token :=
  {| tok_Kind := TokenIllegal; Lexeme := EmptyString; tok_File := sl_File (Start span);
     tok_Line := sl_Line (End span); tok_Column := sl_Column (End span) |}.

(** ** Values *)
Record Identifier := { id_Span : SourceSpan; id_Value : string }.
Record StringLiteral := { str_Span : SourceSpan; str_Raw : string; str_Value : string }.
Record NumberLiteral := { num_Span : SourceSpan; num_Raw : string; num_Value : string }.
Record PathExpr := { path_Span : SourceSpan; path_Raw : string; Parts : list Identifier }.

Inductive ValueExpr :=
| VIdentifier (i : Identifier)
| VString (s : StringLiteral)
| VPath (p : PathExpr)
| VNumber (m : NumberLiteral)
| VList (l : ListLiteral)
with ListLiteral :=
| MkListLiteral (span : SourceSpan) (raw : string) (entries : list (option ValueExpr)).

Definition list_Span (l : ListLiteral) : SourceSpan := let '(MkListLiteral s _ _) := l in s.
Definition list_Raw (l : ListLiteral) : string := let '(MkListLiteral _ r _) := l in r.
Definition Entries (l : ListLiteral) : list (option ValueExpr) := let '(MkListLiteral _ _ e) := l in e.

Definition value_span (v : ValueExpr) : SourceSpan :=
  match v with
  | VIdentifier i => id_Span i | VString s => str_Span s | VPath p => path_Span p
  | VNumber m => num_Span m | VList l => list_Span l
  end.

(** [valueExprRaw]; [nil] has no text. *)
Definition valueExprRaw (v : option ValueExpr) : string :=
  match v with
  | Some (VPath p) => path_Raw p
  | Some (VIdentifier i) => id_Value i
  | Some (VString s) => str_Raw s
  | Some (VNumber m) => num_Raw m
  | Some (VList l) => list_Raw l
  | None => EmptyString
  end.

(** [endToken] of a value: the zero token for [nil]. *)
Definition endTokenValueExpr (v : option ValueExpr) : Token :=
  match v with Some v => tokenFromSpan (value_span v) | None => zero_token end.

(** ** Types *)
Inductive TypeExpr :=
| NamedTypeExpr (span : SourceSpan) (name : PathExpr)
| ListTypeExpr (span : SourceSpan) (elem : TypeExpr)
| OptionalTypeExpr (span : SourceSpan) (elem : TypeExpr)
| MapTypeExpr (span : SourceSpan) (key value : TypeExpr)
| UnionTypeExpr (span : SourceSpan) (options : list TypeExpr).

Definition type_span (t : TypeExpr) : SourceSpan :=
  match t with
  | NamedTypeExpr s _ | ListTypeExpr s _ | OptionalTypeExpr s _ | MapTypeExpr s _ _
  | UnionTypeExpr s _ => s
  end.
Definition endTokenTypeExpr (t : TypeExpr) : Token := tokenFromSpan (type_span t).

(** ** Clauses *)
Record PredicateExpr := {
  pred_Span : SourceSpan; pred_Raw : string; pred_Kind : string; Subject : PathExpr;
  Operator : string; pred_Value : option ValueExpr
}.
Definition zero_path : PathExpr := {| path_Span := zero_span; path_Raw := EmptyString; Parts := [] |}.
Definition zero_predicate : PredicateExpr :=
  {| pred_Span := zero_span; pred_Raw := EmptyString; pred_Kind := EmptyString; Subject := zero_path;
     Operator := EmptyString; pred_Value := None |}.
Definition zero_string : StringLiteral := {| str_Span := zero_span; str_Raw := EmptyString; str_Value := EmptyString |}.

Record EpistemicExpr := { ep_Span : SourceSpan; ep_Value : string }.
Record CaptureBinding := {
  cb_Span : SourceSpan; cb_Source : option ValueExpr; Annotation : option TypeExpr;
  Epistemics : option EpistemicExpr; Destination : PathExpr; Forwarding : bool
}.
Record CaptureBlock := { cap_Span : SourceSpan; Inline : bool; Bindings : list CaptureBinding }.
Record PromptRef := { ref_Span : SourceSpan; ref_Name : Identifier; ResolvedID : string }.
Record ToolInvokePolicyDecl := {
  tip_Span : SourceSpan; ToolNames : ListLiteral; ResolvedToolNames : list string; tip_Raw : string
}.

Inductive AskItem :=
| QuestionClause (span : SourceSpan) (text : StringLiteral) (promptID : option PromptRef)
| ChoicesListClause (span : SourceSpan) (raw : string) (items : list (option ValueExpr))
| ChoicesReferenceClause (span : SourceSpan) (source : option ValueExpr)
| AskCapture (c : CaptureBlock).

Inductive ExecutionItem :=
| ToolPolicy (d : ToolInvokePolicyDecl)
| RunDecl (span : SourceSpan) (agent : Identifier) (items : list ExecutionItem)
| DelegateDecl (span : SourceSpan) (agent : Identifier) (items : list ExecutionItem)
| RouteDecl (span : SourceSpan) (branches : list RouteBranch)
| AskDecl (span : SourceSpan) (items : list AskItem)
| PipelineDecl (span : SourceSpan) (stages : list PipelineStage)
| FromClause (span : SourceSpan) (source : option ValueExpr)
| GoalClause (span : SourceSpan) (text : StringLiteral) (promptID : option PromptRef)
| StreamClause (span : SourceSpan) (query : StringLiteral) (maxTokens : option NumberLiteral)
    (mode raw : string)
| DirectiveClause (span : SourceSpan) (name : Identifier) (arguments : list (option ValueExpr))
    (predicate : option PredicateExpr) (raw : string)
| DirectiveBlock (span : SourceSpan) (name : Identifier) (arguments : list (option ValueExpr))
    (predicate : option PredicateExpr) (raw : string) (body : list ExecutionItem)
| CapabilityInvocation (span : SourceSpan) (namespace capability : Identifier)
    (target input : option ValueExpr)
| Capture (c : CaptureBlock)
with RouteBranch :=
| MkRouteBranch (span : SourceSpan) (predicate : PredicateExpr) (body : list ExecutionItem) (isElse : bool)
with PipelineStage :=
| MkPipelineStage (span : SourceSpan) (name : Identifier) (body : list ExecutionItem).

(** ** Declarations *)
Record TriggerLine := {
  tl_Span : SourceSpan; Effect : Identifier; tl_Resource : option ValueExpr; tl_Raw : string
}.
Record TriggerAssociationDecl := {
  ta_Span : SourceSpan; ta_Name : Identifier; Values : ListLiteral; ta_Raw : string
}.
Record TriggerDeclaration := {
  td_Span : SourceSpan; td_Policy : Identifier; RouteKind : string; Lines : list TriggerLine;
  ToolPolicies : list ToolInvokePolicyDecl; Associations : list TriggerAssociationDecl
}.
Record TypeField := { tf_Span : SourceSpan; tf_Name : Identifier; tf_Type : TypeExpr }.
Record RecordTypeDefinition := { rt_Span : SourceSpan; Fields : list TypeField }.

Inductive Declaration :=
| ImportDecl (span : SourceSpan) (kind : string) (target : PathExpr) (alias : Identifier)
| TriggerDecl (d : TriggerDeclaration)
| InputDecl (span : SourceSpan) (name : Identifier) (source : option ValueExpr)
| TypeDecl (span : SourceSpan) (name : Identifier) (body : RecordTypeDefinition)
| AgentDecl (span : SourceSpan) (name agentType : Identifier)
| BlockDecl (item : ExecutionItem).

Record Header := { hd_Span : SourceSpan; hd_Name : Identifier; Description : option StringLiteral }.
Record Document := {
  SourcePath : string; doc_Name : string; doc_Header : Header; Declarations : list Declaration
}.

(** ** Text of nodes *)
Definition joinPath (parts : list Identifier) : string := String.concat "." (id_Value <$> parts).

(** [collectRaw]: the non-empty lexemes, separated by spaces. *)
Definition collectRaw (tokens : list Token) : string :=
  String.concat " " (filter (λ s, s ≠ EmptyString) (Lexeme <$> tokens)).

Definition formatListRaw (values : list (option ValueExpr)) : string :=
  match values with
  | [] => "[]"
  | _ => "[" +:+ String.concat ", "
           (filter (λ s, s ≠ EmptyString) ((λ v, trim_space (valueExprRaw v)) <$> values)) +:+ "]"
  end.

(** [joinTokens] of two tokens and a value. *)
Definition joinTokens (t1 t2 : Token) (v : option ValueExpr) : string :=
  String.concat " " (filter (λ s, s ≠ EmptyString) [Lexeme t1; Lexeme t2] ++
    match v with Some _ => [valueExprRaw v] | None => [] end).

(** [unquoteString]: the text between the quotes; escapes are left as they are. *)
Definition unquoteString (raw : string) : string :=
  if (6 <=? String.length raw)%nat && has_prefix triple raw && has_suffix triple raw
  then str_take (String.length raw - 6) (str_drop 3 raw)
  else if (2 <=? String.length raw)%nat && has_prefix dquote raw && has_suffix dquote raw
  then str_take (String.length raw - 2) (str_drop 1 raw)
  else raw.
