(* ===== verification/RecipeParser.v ===== *)
(** * Recipe parser

    The recursive-descent parser of the recipe language
    (named/euclo/thoughtrecipes/parser.go).  The parser's file name and tokens do not
    change and are the section's variables; its state is the position.  Loops share
    the fuel [n]; the nesting of blocks and of lists is bounded by fuel of its own.
    Parsers of blocks take the parser of an item as an argument. *)
From S2P Require Import Prelude GoStrings GoLoop RecipeLexer RecipeAst.
From stdpp Require Import pretty.

Local Open Scope Z_scope.
Local Open Scope loop_scope.

Definition PM := FM nat.

Definition ident (t : Token) : Identifier := {| id_Span := spanFromToken t; id_Value := Lexeme t |}.
Definition string_lit (t : Token) : StringLiteral :=
  {| str_Span := spanFromToken t; str_Raw := Lexeme t; str_Value := unquoteString (Lexeme t) |}.
Definition number_lit (t : Token) : NumberLiteral :=
  {| num_Span := spanFromToken t; num_Raw := Lexeme t; num_Value := Lexeme t |}.

Definition is_kind (k : TokenKind) (t : Token) : bool := bool_decide (tok_Kind t = k).
Definition is_token (k : TokenKind) (lexeme : string) (t : Token) : bool :=
  is_kind k t && (bool_decide (lexeme = EmptyString) || bool_decide (Lexeme t = lexeme)).
Definition is_punct (lexeme : string) (t : Token) : bool :=
  is_kind TokenPunctuation t && bool_decide (Lexeme t = lexeme).
Definition is_name (t : Token) : bool :=
  is_kind TokenIdentifier t || is_kind TokenKeyword t || is_kind TokenNumber t.

(** ** Frames of the type parser *)
Inductive typeFrameKind := typeFrameRoot | typeFrameList | typeFrameOptional | typeFrameMap.
Record typeFrame := {
  fr_kind : typeFrameKind; fr_start : Token; fr_ops : list TypeExpr;
  fr_key : option TypeExpr; fr_phase : nat
}.
Definition new_frame (k : typeFrameKind) (start : Token) : typeFrame :=
  {| fr_kind := k; fr_start := start; fr_ops := []; fr_key := None; fr_phase := 0 |}.
Definition set_ops (ops : list TypeExpr) (f : typeFrame) : typeFrame :=
  {| fr_kind := fr_kind f; fr_start := fr_start f; fr_ops := ops; fr_key := fr_key f;
     fr_phase := fr_phase f |}.
Definition set_phase (p : nat) (f : typeFrame) : typeFrame :=
  {| fr_kind := fr_kind f; fr_start := fr_start f; fr_ops := fr_ops f; fr_key := fr_key f; fr_phase := p |}.
Definition set_key (k : TypeExpr) (f : typeFrame) : typeFrame :=
  {| fr_kind := fr_kind f; fr_start := fr_start f; fr_ops := []; fr_key := Some k; fr_phase := 1 |}.

Section parser.
Variables (filename : string) (tokens : list Token).

(** ** Accessors *)
Definition peek_at (pos : nat) : Token :=
  match tokens !! pos with
  | Some t => t
  | None => {| tok_Kind := TokenEOF; Lexeme := EmptyString; tok_File := filename; tok_Line := 0; tok_Column := 0 |}
  end.
Definition p_peek : PM Token := fm_get peek_at.
Definition p_next : PM Token := λ pos,
  fm_ret (peek_at pos) (if (pos <? length tokens)%nat then S pos else pos).
Definition prevToken : PM Token := fm_get (λ pos,
  match pos with O => zero_token | S p => peek_at p end).
Definition atEOF : PM bool := fm_get (λ pos, is_kind TokenEOF (peek_at pos)).
Definition peekKind (k : TokenKind) (lexeme : string) : PM bool :=
  fm_get (λ pos, is_token k lexeme (peek_at pos)).
Definition peekLexeme (lexeme : string) : PM bool :=
  fm_get (λ pos, bool_decide (Lexeme (peek_at pos) = lexeme)).

Definition unexpectedToken {A} (tok : Token) (msg : string) : PM A :=
  fm_err (ErrFmt "%s:%d:%d: %s"
    [tok_File tok; pretty (tok_Line tok); pretty (tok_Column tok); msg]).
Definition unexpectedEOF {A} (msg : string) : PM A :=
  fm_err (ErrFmt "%s: unexpected EOF: %s" [filename; msg]).

Definition expect (ok : Token → bool) (msg : string) : PM Token :=
  do* tok := p_peek in if ok tok then p_next else unexpectedToken tok msg.

Definition expectKeyword (lexeme : string) : PM Token :=
  expect (λ t, bool_decide (Lexeme t = lexeme)) ("expected " +:+ go_quote lexeme).
Definition expectName (context : string) : PM Token := expect is_name ("expected " +:+ context).
Definition expectNumber (context : string) : PM Token :=
  expect (is_kind TokenNumber) ("expected " +:+ context).
Definition expectPunctuation (lexeme : string) : PM Token :=
  expect (is_punct lexeme) ("expected " +:+ go_quote lexeme).
Definition expectArrow : PM Token := expect (is_punct "->") ("expected " +:+ go_quote "->").
Definition expectKind (k : TokenKind) (context : string) : PM Token :=
  expect (is_kind k) ("expected " +:+ context).
Definition expectStringLiteral (context : string) : PM StringLiteral :=
  do* tok := expect (is_kind TokenString) ("expected " +:+ context) in fm_ret (string_lit tok).

Section loops.
Variable n : nat.

(** [for !p.atEOF() && p.peek().Kind != TokenDedent { ... }], collecting what it parses. *)
Definition block {A} (item : PM A) : PM (list A) :=
  loop n (λ xs,
    do* tok := p_peek in
    if is_kind TokenEOF tok || is_kind TokenDedent tok then fm_ret (inr xs)
    else do* x := item in fm_ret (inl (xs ++ [x]))) [].

(** ** Paths and values *)
Definition parsePathExpr : PM PathExpr :=
  do* start := p_peek in
  do* first := expectName "path segment" in
  do* parts := loop n (λ parts,
    do* dot := peekKind TokenPunctuation "." in
    if dot then
      p_next ;;
      do* nextTok := expectName "path segment" in
      fm_ret (inl (parts ++ [ident nextTok]))
    else fm_ret (inr parts)) [ident first] in
  do* prev := prevToken in
  fm_ret {| path_Span := spanFromTokens start prev; path_Raw := joinPath parts; Parts := parts |}.

(** A round of the loop over a list's entries. *)
Definition list_round (value : PM (option ValueExpr)) (start : Token)
    (entries : list (option ValueExpr)) : PM (list (option ValueExpr) + ListLiteral) :=
  do* eof := atEOF in
  if eof then unexpectedEOF "unterminated list literal" else
  do* close := peekKind TokenPunctuation "]" in
  if close then
    do* last := p_next in
    fm_ret (inr (MkListLiteral (spanFromTokens start last) (formatListRaw entries) entries))
  else
    do* comma := peekKind TokenPunctuation "," in
    if comma then p_next ;; fm_ret (inl entries)
    else do* v := value in fm_ret (inl (entries ++ [v])).

Definition parseInlineList (value : PM (option ValueExpr)) : PM ListLiteral :=
  do* start := expectPunctuation "[" in loop n (list_round value start) [].

Fixpoint parseValueExprOnLine (m : nat) (line : Z) : PM (option ValueExpr) :=
  match m with
  | O => λ _, None
  | S m =>
    do* tok := p_peek in
    if is_kind TokenEOF tok then fm_ret None
    else if negb (tok_Line tok =? line) then fm_ret None
    else match tok_Kind tok with
    | TokenString => p_next ;; fm_ret (Some (VString (string_lit tok)))
    | TokenNumber => p_next ;; fm_ret (Some (VNumber (number_lit tok)))
    | TokenIdentifier | TokenKeyword => do* path := parsePathExpr in fm_ret (Some (VPath path))
    | TokenPunctuation =>
      if bool_decide (Lexeme tok = "[") then
        do* list := parseInlineList
          (do* tok := p_peek in parseValueExprOnLine m (tok_Line tok)) in
        fm_ret (Some (VList list))
      else fm_ret None
    | _ => fm_ret None
    end
  end.

Definition parseValueExpr : PM (option ValueExpr) :=
  do* tok := p_peek in parseValueExprOnLine n (tok_Line tok).
Definition inlineList : PM ListLiteral := parseInlineList parseValueExpr.

Definition parseToolNameList : PM ListLiteral :=
  do* r := fm_try (expectPunctuation "[") in
  match r with
  | Err _ => do* tok := p_peek in unexpectedToken tok "expected tool name list"
  | Ok start =>
    loop n (λ entries,
      do* eof := atEOF in
      if eof then unexpectedEOF "unterminated tool name list" else
      do* close := peekKind TokenPunctuation "]" in
      if close then
        do* last := p_next in
        fm_ret (inr (MkListLiteral (spanFromTokens start last) (formatListRaw entries) entries))
      else
        do* comma := peekKind TokenPunctuation "," in
        if comma then p_next ;; fm_ret (inl entries) else
        do* tok := p_peek in
        if is_kind TokenEOF tok || is_kind TokenDedent tok
        then unexpectedEOF "unterminated tool name list"
        else if negb (is_kind TokenString tok)
        then unexpectedToken tok "tool name list must contain string literals"
        else
          do* str := expectStringLiteral "tool name" in
          if is_blank (str_Value str)
          then unexpectedToken (tokenFromSpan (str_Span str)) "empty tool name is not allowed"
          else fm_ret (inl (entries ++ [Some (VString str)]))) []
  end.

Definition parseBlockList : PM ListLiteral :=
  do* acc := loop n (λ acc : list (option ValueExpr) * SourceSpan,
    do* tok := p_peek in
    if is_kind TokenEOF tok || is_kind TokenDedent tok then fm_ret (inr acc)
    else if negb (is_token TokenListMarker "-" tok)
    then unexpectedToken tok "expected list marker"
    else
      do* start := p_next in
      do* v := parseValueExpr in
      fm_ret (inl (acc.1 ++ [v], spanFromTokens start (endTokenValueExpr v)))) ([], zero_span) in
  fm_ret (MkListLiteral acc.2 (formatListRaw acc.1) acc.1).

(** ** Types *)
Definition collapseOps (ops : list TypeExpr) : PM TypeExpr :=
  match ops with
  | [] => do* tok := p_peek in unexpectedToken tok "expected type expression"
  | [t] => fm_ret t
  | t :: _ =>
    let start := tokenFromSpan (type_span t) in
    let last := tokenFromSpan (type_span (List.last ops t)) in
    fm_ret (UnionTypeExpr (spanFromTokens start last) ops)
  end.

Definition finalizeFrame (frame : typeFrame) (expr : TypeExpr) : PM TypeExpr :=
  let span := spanFromTokens (fr_start frame) (tokenFromSpan (type_span expr)) in
  match fr_kind frame with
  | typeFrameList => fm_ret (ListTypeExpr span expr)
  | typeFrameOptional => fm_ret (OptionalTypeExpr span expr)
  | typeFrameMap =>
    match fr_key frame with
    | None => do* tok := p_peek in unexpectedToken tok "expected map key expression"
    | Some key => fm_ret (MapTypeExpr span key expr)
    end
  | typeFrameRoot => fm_ret expr
  end.

(** The loop's variables: the frames, the innermost first, and [result]. *)
Definition TypeState : Type := list typeFrame * option TypeExpr.

(** [result == nil]: a type constructor opens a frame, a path is a result. *)
Definition type_operand (frames : list typeFrame) : PM (TypeState + TypeExpr) :=
  do* tok := p_peek in
  let opens k :=
    do* start := p_next in
    expectPunctuation "<" ;;
    fm_ret (inl (new_frame k start :: frames, None)) in
  if bool_decide (Lexeme tok = "list") then opens typeFrameList
  else if bool_decide (Lexeme tok = "optional") then opens typeFrameOptional
  else if bool_decide (Lexeme tok = "map") then opens typeFrameMap
  else
    do* path := parsePathExpr in
    fm_ret (inl (frames, Some (NamedTypeExpr (path_Span path) path))).

(** A frame ended by [>]: its operands are joined and wrapped. *)
Definition close_frame (frame : typeFrame) (outer : list typeFrame) : PM (TypeState + TypeExpr) :=
  do* more := peekKind TokenPunctuation "|" in
  if more then p_next ;; fm_ret (inl (frame :: outer, None)) else
  do* close := peekKind TokenPunctuation ">" in
  if negb close then
    do* tok := p_peek in unexpectedToken tok ("expected " +:+ go_quote ">")
  else
    p_next ;;
    do* expr := collapseOps (fr_ops frame) in
    do* wrapped := finalizeFrame frame expr in
    match outer with
    | [] => do* tok := p_peek in unexpectedToken tok "type parser exhausted frames"
    | _ => fm_ret (inl (outer, Some wrapped))
    end.

Definition type_step (st : TypeState) : PM (TypeState + TypeExpr) :=
  match st with
  | (frames, None) => type_operand frames
  | ([], Some _) => do* tok := p_peek in unexpectedToken tok "type parser exhausted frames"
  | (frame :: outer, Some result) =>
    let pushed := set_ops (fr_ops frame ++ [result]) frame in
    match fr_kind frame with
    | typeFrameRoot =>
      do* more := peekKind TokenPunctuation "|" in
      if more then p_next ;; fm_ret (inl (pushed :: outer, None))
      else do* t := collapseOps (fr_ops pushed) in fm_ret (inr t)
    | typeFrameList | typeFrameOptional => close_frame pushed outer
    | typeFrameMap =>
      match fr_phase frame with
      | 0%nat =>
        do* more := peekKind TokenPunctuation "|" in
        if more then p_next ;; fm_ret (inl (pushed :: outer, None)) else
        do* comma := peekKind TokenPunctuation "," in
        if negb comma then
          do* tok := p_peek in unexpectedToken tok ("expected " +:+ go_quote ",")
        else
          do* key := collapseOps (fr_ops pushed) in
          p_next ;; fm_ret (inl (set_key key frame :: outer, None))
      | 1%nat => fm_ret (inl (set_phase 2 frame :: outer, Some result))
      | 2%nat => close_frame pushed outer
      | _ => do* tok := p_peek in unexpectedToken tok "invalid map type state"
      end
    end
  end.

Definition parseTypeExpr : PM TypeExpr :=
  loop n type_step ([new_frame typeFrameRoot zero_token], None).

(** ** Clauses *)
Definition parsePredicateExpr : PM PredicateExpr :=
  do* start := p_peek in
  let unary kind :=
    p_next ;;
    do* subject := parsePathExpr in
    let e := tokenFromSpan (path_Span subject) in
    fm_ret {| pred_Span := spanFromTokens start e; pred_Raw := collectRaw [start; e];
              pred_Kind := kind; Subject := subject; Operator := EmptyString; pred_Value := None |} in
  if bool_decide (Lexeme start = "missing") then unary "missing"
  else if bool_decide (Lexeme start = "present") then unary "present"
  else
    do* subject := parsePathExpr in
    do* opTok := expectName "predicate operator" in
    let rawTokens := [start; tokenFromSpan (path_Span subject); opTok] in
    if bool_decide (Lexeme opTok = "confidence") then
      expectKeyword "below" ;;
      do* num := expectNumber "confidence threshold" in
      fm_ret {| pred_Span := spanFromTokens start num; pred_Raw := collectRaw (rawTokens ++ [num]);
                pred_Kind := "confidence_below"; Subject := subject; Operator := Lexeme opTok;
                pred_Value := Some (VNumber (number_lit num)) |}
    else if bool_decide (Lexeme opTok = "is") || bool_decide (Lexeme opTok = "contains") then
      do* val := parseValueExpr in
      let e := endTokenValueExpr val in
      fm_ret {| pred_Span := spanFromTokens start e; pred_Raw := collectRaw (rawTokens ++ [e]);
                pred_Kind := Lexeme opTok; Subject := subject; Operator := Lexeme opTok;
                pred_Value := val |}
    else unexpectedToken opTok "unsupported predicate operator".

Definition parsePromptRef : PM PromptRef :=
  do* start := p_peek in
  expectKeyword "prompt" ;;
  do* nameTok := expectName "prompt binding" in
  fm_ret {| ref_Span := spanFromTokens start nameTok; ref_Name := ident nameTok; ResolvedID := EmptyString |}.

Definition parseToolInvokePolicyDecl (mayTok : Token) : PM ToolInvokePolicyDecl :=
  do* r := fm_try (expectKeyword "invoke") in
  match r with
  | Err _ => do* tok := p_peek in unexpectedToken tok ("expected " +:+ go_quote "invoke" +:+ " after " +:+ go_quote "may")
  | Ok invokeTok =>
    do* list := parseToolNameList in
    fm_ret {| tip_Span := spanFromTokens mayTok (tokenFromSpan (list_Span list)); ToolNames := list;
              ResolvedToolNames := [];
              tip_Raw := trim_space (joinTokens mayTok invokeTok (Some (VList list))) |}
  end.

Definition parseFromClause : PM ExecutionItem :=
  do* start := p_next in
  do* source := parseValueExpr in
  fm_ret (FromClause (spanFromTokens start (endTokenValueExpr source)) source).

Definition parseStreamClause : PM ExecutionItem :=
  do* start := p_next in
  do* query := expectStringLiteral "stream query" in
  do* acc := loop n (λ acc : option NumberLiteral * string * Token,
    let '(maxTokens, mode, last) := acc in
    do* isMax := peekLexeme "max" in
    if isMax then
      p_next ;;
      do* num := expectNumber "stream max tokens" in
      fm_ret (inl (Some (number_lit num), mode, num))
    else
      do* isMode := peekLexeme "mode" in
      if isMode then
        p_next ;;
        do* modeTok := expectName "stream mode" in
        fm_ret (inl (maxTokens, Lexeme modeTok, modeTok))
      else fm_ret (inr acc)) (None, EmptyString, tokenFromSpan (str_Span query)) in
  let '(maxTokens, mode, last) := acc in
  fm_ret (StreamClause (spanFromTokens start last) query maxTokens mode
    (trim_space ("stream " +:+ str_Value query))).

(** A prompt reference or a string after [goal] and [question]. *)
Definition parseText {A} (context : string) (k : Token → StringLiteral → option PromptRef → A)
    (start : Token) : PM A :=
  do* isPrompt := peekLexeme "prompt" in
  if isPrompt then
    do* ref := parsePromptRef in fm_ret (k (tokenFromSpan (ref_Span ref)) zero_string (Some ref))
  else
    do* str := expectStringLiteral context in fm_ret (k (tokenFromSpan (str_Span str)) str None).

Definition parseGoalClause : PM ExecutionItem :=
  do* start := p_next in
  parseText "goal text" (λ e, GoalClause (spanFromTokens start e)) start.

Definition parseCapabilityInvocation : PM ExecutionItem :=
  do* start := p_next in
  do* nsTok := expectName "capability namespace" in
  expectPunctuation ":" ;;
  do* capTok := expectName "capability name" in
  do* isOn := peekLexeme "on" in
  do* on := (if isOn then p_next ;; do* v := parseValueExpr in fm_ret (v, endTokenValueExpr v)
             else fm_ret (None, capTok)) in
  do* isWith := peekLexeme "with" in
  do* wth := (if isWith then p_next ;; do* v := parseValueExpr in fm_ret (v, endTokenValueExpr v)
              else fm_ret (None, on.2)) in
  fm_ret (CapabilityInvocation (spanFromTokens start wth.2) (ident nsTok) (ident capTok) on.1 wth.1).

Definition is_path (v : option ValueExpr) : bool := match v with Some (VPath _) => true | _ => false end.

Definition parseCaptureBinding : PM CaptureBinding :=
  do* start := p_peek in
  do* source := parseValueExpr in
  do* colon := peekKind TokenPunctuation ":" in
  do* annotation := (if colon then p_next ;; do* t := parseTypeExpr in fm_ret (Some t)
                     else fm_ret None) in
  do* isAs := peekLexeme "as" in
  do* epistemics := (if isAs then
      do* asTok := p_next in
      do* e := expectName "epistemic annotation" in
      if bool_decide (Lexeme e ≠ "claimed") && bool_decide (Lexeme e ≠ "given")
      then unexpectedToken e "expected epistemic annotation (claimed|given)"
      else fm_ret (Some {| ep_Span := spanFromTokens asTok e; ep_Value := Lexeme e |})
    else fm_ret None) in
  expectArrow ;;
  do* dest := parsePathExpr in
  fm_ret {| cb_Span := spanFromTokens start (tokenFromSpan (path_Span dest)); cb_Source := source;
            Annotation := annotation; Epistemics := epistemics; Destination := dest;
            Forwarding := bool_decide (annotation = None) && is_path source |}.

Definition parseCaptureBlock : PM CaptureBlock :=
  do* start := p_next in
  do* colon := peekKind TokenPunctuation ":" in
  if colon then
    p_next ;;
    expectKind TokenIndent "capture block" ;;
    do* bindings := block parseCaptureBinding in
    do* endTok := expectKind TokenDedent "end capture block" in
    fm_ret {| cap_Span := spanFromTokens start endTok; Inline := false; Bindings := bindings |}
  else
    do* b := parseCaptureBinding in
    fm_ret {| cap_Span := spanFromTokens start (tokenFromSpan (path_Span (Destination b)));
              Inline := true; Bindings := [b] |}.

Definition parseAskItem : PM AskItem :=
  do* tok := p_peek in
  if bool_decide (Lexeme tok = "question") then
    do* start := p_next in
    parseText "question text" (λ e, QuestionClause (spanFromTokens start e)) start
  else if bool_decide (Lexeme tok = "choices") then
    do* start := p_next in
    do* isFrom := peekLexeme "from" in
    if isFrom then
      p_next ;;
      do* source := parseValueExpr in
      fm_ret (ChoicesReferenceClause (spanFromTokens start (endTokenValueExpr source)) source)
    else
      do* open := peekKind TokenPunctuation "[" in
      if open then
        do* list := inlineList in
        fm_ret (ChoicesListClause (spanFromTokens start (tokenFromSpan (list_Span list)))
          (list_Raw list) (Entries list))
      else
        do* colon := peekKind TokenPunctuation ":" in
        if colon then
          p_next ;;
          expectKind TokenIndent "choices block" ;;
          do* list := parseBlockList in
          do* endTok := expectKind TokenDedent "end choices block" in
          fm_ret (ChoicesListClause (spanFromTokens start endTok) (list_Raw list) (Entries list))
        else do* tok := p_peek in unexpectedToken tok "expected choices source or list"
  else if bool_decide (Lexeme tok = "capture") then
    do* c := parseCaptureBlock in fm_ret (AskCapture c)
  else unexpectedToken tok "unsupported ask item".

Definition parseAskDecl : PM ExecutionItem :=
  do* start := p_next in
  expectKeyword "user" ;;
  expectPunctuation ":" ;;
  expectKind TokenIndent "ask body" ;;
  do* items := block parseAskItem in
  do* endTok := expectKind TokenDedent "end ask body" in
  fm_ret (AskDecl (spanFromTokens start endTok) items).

(** ** Blocks of execution items

    [item] is the parser of one of them. *)
Section items.
Variable item : PM ExecutionItem.

Definition items_then_end (item : PM ExecutionItem) : PM (list ExecutionItem * Token) :=
  do* items := block item in
  do* endTok := expectKind TokenDedent "end block" in
  fm_ret (items, endTok).
Definition parseExecutionBlockItems : PM (list ExecutionItem * Token) := items_then_end item.

Definition parseRunExecutionItem : PM ExecutionItem :=
  do* isMay := peekLexeme "may" in
  if isMay then
    do* mayTok := p_next in
    do* isInvoke := peekLexeme "invoke" in
    if negb isInvoke
    then unexpectedToken mayTok "may invoke is the only may policy allowed in run blocks"
    else do* d := parseToolInvokePolicyDecl mayTok in fm_ret (ToolPolicy d)
  else item.
Definition parseRunBlockItems : PM (list ExecutionItem * Token) :=
  items_then_end parseRunExecutionItem.

Definition parseRunDecl : PM ExecutionItem :=
  do* start := p_next in
  do* agentTok := expectName "run agent" in
  expectPunctuation ":" ;;
  expectKind TokenIndent "run body" ;;
  do* body := parseRunBlockItems in
  fm_ret (RunDecl (spanFromTokens start body.2) (ident agentTok) body.1).

Definition parseDelegateDecl : PM ExecutionItem :=
  do* start := p_next in
  expectKeyword "to" ;;
  do* agentTok := expectName "delegate target" in
  expectPunctuation ":" ;;
  expectKind TokenIndent "delegate body" ;;
  do* body := parseExecutionBlockItems in
  fm_ret (DelegateDecl (spanFromTokens start body.2) (ident agentTok) body.1).

Definition branch_body (start : Token) (pred : PredicateExpr) (isElse : bool) : PM RouteBranch :=
  expectPunctuation ":" ;;
  expectKind TokenIndent "route branch" ;;
  do* body := parseExecutionBlockItems in
  fm_ret (MkRouteBranch (spanFromTokens start body.2) pred body.1 isElse).

Definition parseRouteBranch : PM RouteBranch :=
  do* start := p_peek in
  if bool_decide (Lexeme start = "when") then
    p_next ;;
    do* pred := parsePredicateExpr in
    branch_body start pred false
  else if bool_decide (Lexeme start = "otherwise") then
    p_next ;; branch_body start zero_predicate true
  else unexpectedToken start "expected when or otherwise".

Definition parseRouteDecl : PM ExecutionItem :=
  do* start := p_next in
  expectPunctuation ":" ;;
  expectKind TokenIndent "route body" ;;
  do* branches := block parseRouteBranch in
  do* endTok := expectKind TokenDedent "end route body" in
  fm_ret (RouteDecl (spanFromTokens start endTok) branches).

Definition parsePipelineStage : PM PipelineStage :=
  do* start := p_peek in
  expectKeyword "stage" ;;
  do* nameTok := expectName "stage name" in
  expectPunctuation ":" ;;
  expectKind TokenIndent "stage body" ;;
  do* body := parseExecutionBlockItems in
  fm_ret (MkPipelineStage (spanFromTokens start body.2) (ident nameTok) body.1).

Definition parsePipelineDecl : PM ExecutionItem :=
  do* start := p_next in
  expectPunctuation ":" ;;
  expectKind TokenIndent "pipeline body" ;;
  do* stages := block parsePipelineStage in
  do* endTok := expectKind TokenDedent "end pipeline body" in
  fm_ret (PipelineDecl (spanFromTokens start endTok) stages).

(** The arguments of a directive, up to its block or the end of its line. *)
Definition directive_rest (start nameTok : Token) (pred : option PredicateExpr)
    (raw0 : list Token) : PM ExecutionItem :=
  loop n (λ acc : list (option ValueExpr) * list Token,
    let '(args, rawTokens) := acc in
    let clause :=
      fm_ret (inr (DirectiveClause (spanFromTokens start nameTok) (ident nameTok) args None
        (collectRaw rawTokens))) in
    do* tok := p_peek in
    if is_kind TokenEOF tok then clause
    else if is_punct ":" tok then
      p_next ;;
      expectKind TokenIndent "directive block" ;;
      do* body := parseExecutionBlockItems in
      fm_ret (inr (DirectiveBlock (spanFromTokens start body.2) (ident nameTok) args pred
        (collectRaw rawTokens) body.1))
    else if negb (tok_Line tok =? tok_Line start) then clause
    else if is_kind TokenDedent tok then clause
    else
      do* v := parseValueExprOnLine n (tok_Line start) in
      match v with
      | Some v => fm_ret (inl (args ++ [Some v], rawTokens ++ [endTokenValueExpr (Some v)]))
      | None => clause
      end) ([], raw0).

Definition parseDirectiveItem : PM ExecutionItem :=
  do* nameTok := p_next in
  let start := nameTok in
  if bool_decide (Lexeme nameTok = "may") then
    do* isInvoke := peekLexeme "invoke" in
    if isInvoke then
      do* tok := p_peek in
      unexpectedToken tok "may invoke is only allowed in trigger and run blocks"
    else unexpectedToken nameTok "may policy lines are only allowed in trigger blocks"
  else if bool_decide (Lexeme nameTok = "when") then
    do* pexpr := parsePredicateExpr in
    let e := tokenFromSpan (pred_Span pexpr) in
    fm_ret (DirectiveClause (spanFromTokens start e) (ident nameTok) [] (Some pexpr)
      (collectRaw [nameTok; e]))
  else if bool_decide (Lexeme nameTok = "otherwise") then
    fm_ret (DirectiveClause (spanFromToken nameTok) (ident nameTok) [] None (Lexeme nameTok))
  else
    do* isWhen := peekLexeme "when" in
    if isWhen then
      do* whenTok := p_next in
      do* pexpr := parsePredicateExpr in
      directive_rest start nameTok (Some pexpr)
        [nameTok; whenTok; tokenFromSpan (pred_Span pexpr)]
    else directive_rest start nameTok None [nameTok].

(** One execution item; nested blocks hold [item]s. *)
Definition item_body : PM ExecutionItem :=
  do* tok := p_peek in
  let at_ s := bool_decide (Lexeme tok = s) in
  if at_ "run" then parseRunDecl
  else if at_ "delegate" then parseDelegateDecl
  else if at_ "route" then parseRouteDecl
  else if at_ "ask" then parseAskDecl
  else if at_ "pipeline" then parsePipelineDecl
  else if at_ "from" then parseFromClause
  else if at_ "goal" then parseGoalClause
  else if at_ "stream" then parseStreamClause
  else if at_ "do" then parseCapabilityInvocation
  else if at_ "capture" then do* c := parseCaptureBlock in fm_ret (Capture c)
  else if bool_decide (Lexeme tok ∈ ["step"; "task"; "method"; "link"; "source"; "detect";
      "clarify"; "revise"; "retry"; "plan"; "verify"; "summarize"; "review"; "decompose";
      "solve"; "until"]) then parseDirectiveItem
  else if is_kind TokenKeyword tok || is_kind TokenIdentifier tok then parseDirectiveItem
  else unexpectedToken tok "unsupported execution item".
End items.

Fixpoint parseExecutionItem (m : nat) : PM ExecutionItem :=
  match m with
  | O => λ _, None
  | S m => item_body (parseExecutionItem m)
  end.

(** ** Declarations *)
Definition parseImportDecl : PM Declaration :=
  do* start := p_next in
  do* r := fm_try (expectKeyword "prompt") in
  do* kind := (match r with
    | Ok tok => fm_ret (Lexeme tok)
    | Err _ =>
      do* r := fm_try (expectKeyword "recipe") in
      match r with
      | Ok _ => fm_ret "recipe"
      | Err _ => do* tok := p_peek in unexpectedToken tok "expected prompt or recipe import kind"
      end
    end) in
  do* target := parsePathExpr in
  expectKeyword "as" ;;
  do* aliasTok := expectName "import alias" in
  fm_ret (ImportDecl (spanFromTokens start aliasTok) kind target (ident aliasTok)).

Definition parseTriggerAssociationDecl : PM TriggerAssociationDecl :=
  do* start := p_next in
  do* list := inlineList in
  fm_ret {| ta_Span := spanFromTokens start (tokenFromSpan (list_Span list)); ta_Name := ident start;
            Values := list; ta_Raw := trim_space (Lexeme start +:+ " " +:+ list_Raw list) |}.

(** One line of a trigger block, added to the declaration. *)
Definition trigger_line (d : TriggerDeclaration) : PM TriggerDeclaration :=
  do* tok := p_peek in
  let with_ lines policies assocs :=
    {| td_Span := td_Span d; td_Policy := td_Policy d; RouteKind := RouteKind d;
       Lines := lines; ToolPolicies := policies; Associations := assocs |} in
  if bool_decide (Lexeme tok = "may") then
    do* mayTok := expectKeyword "may" in
    do* isInvoke := peekLexeme "invoke" in
    if isInvoke then
      do* policy := parseToolInvokePolicyDecl mayTok in
      fm_ret (with_ (Lines d) (ToolPolicies d ++ [policy]) (Associations d))
    else
      do* effectTok := expectName "trigger effect" in
      do* resource := parseValueExpr in
      let line := {| tl_Span := spanFromTokens mayTok (endTokenValueExpr resource);
                     Effect := ident effectTok; tl_Resource := resource;
                     tl_Raw := joinTokens mayTok effectTok resource |} in
      fm_ret (with_ (Lines d ++ [line]) (ToolPolicies d) (Associations d))
  else if bool_decide (Lexeme tok ∈ ["family"; "keyword"; "handoff"]) then
    do* assoc := parseTriggerAssociationDecl in
    fm_ret (with_ (Lines d) (ToolPolicies d) (Associations d ++ [assoc]))
  else unexpectedToken tok "expected trigger policy, family, keyword, or handoff line".

Definition parseTriggerDecl : PM Declaration :=
  do* start := p_next in
  expectKeyword "as" ;;
  do* policyTok := expectName "trigger policy" in
  do* colon := expectPunctuation ":" in
  expectKind TokenIndent "trigger block" ;;
  do* d := loop n (λ d,
    do* tok := p_peek in
    if is_kind TokenEOF tok || is_kind TokenDedent tok then fm_ret (inr d)
    else do* d := trigger_line d in fm_ret (inl d))
    {| td_Span := spanFromTokens start colon; td_Policy := ident policyTok;
       RouteKind := to_lower (trim_space (Lexeme policyTok)); Lines := []; ToolPolicies := [];
       Associations := [] |} in
  expectKind TokenDedent "end trigger block" ;;
  fm_ret (TriggerDecl d).

Definition parseInputDecl : PM Declaration :=
  do* start := p_next in
  do* nameTok := expectName "input name" in
  expectPunctuation ":" ;;
  do* source := parseValueExpr in
  fm_ret (InputDecl (spanFromTokens start (endTokenValueExpr source)) (ident nameTok) source).

Definition type_field : PM TypeField :=
  do* fieldTok := expectName "field name" in
  expectPunctuation ":" ;;
  do* fieldType := parseTypeExpr in
  fm_ret {| tf_Span := spanFromTokens fieldTok (endTokenTypeExpr fieldType);
            tf_Name := ident fieldTok; tf_Type := fieldType |}.

Definition parseTypeDecl : PM Declaration :=
  do* start := p_next in
  do* nameTok := expectName "type name" in
  expectPunctuation ":" ;;
  expectKind TokenIndent "type body" ;;
  do* fields := block type_field in
  do* endTok := expectKind TokenDedent "end type body" in
  let span := spanFromTokens start endTok in
  fm_ret (TypeDecl span (ident nameTok) {| rt_Span := span; Fields := fields |}).

Definition parseAgentDecl : PM Declaration :=
  do* start := p_next in
  do* nameTok := expectName "agent name" in
  expectKeyword "uses" ;;
  do* typeTok := expectName "agent type" in
  fm_ret (AgentDecl (spanFromTokens start typeTok) (ident nameTok) (ident typeTok)).

Definition parseTopLevelDeclaration : PM Declaration :=
  do* tok := p_peek in
  let at_ s := bool_decide (Lexeme tok = s) in
  let as_block p := (do* i := p in fm_ret (BlockDecl i)) in
  let item := parseExecutionItem n in
  if at_ "import" then parseImportDecl
  else if at_ "trigger" then parseTriggerDecl
  else if at_ "input" then parseInputDecl
  else if at_ "type" then parseTypeDecl
  else if at_ "agent" then parseAgentDecl
  else if at_ "run" then as_block (parseRunDecl item)
  else if at_ "route" then as_block (parseRouteDecl item)
  else if at_ "delegate" then as_block (parseDelegateDecl item)
  else if at_ "ask" then as_block parseAskDecl
  else if at_ "pipeline" then as_block (parsePipelineDecl item)
  else unexpectedToken tok "unknown top-level declaration".

(** The dotted name as one token, at the place of its last segment. *)
Definition parseDottedDefinitionName (context : string) : PM Token :=
  do* first := expectName context in
  do* acc := loop n (λ acc : Token * string,
    do* dot := peekKind TokenPunctuation "." in
    if dot then
      p_next ;;
      do* segment := expectName context in
      fm_ret (inl (segment, acc.2 +:+ "." +:+ Lexeme segment))
    else fm_ret (inr acc)) (first, Lexeme first) in
  let '(last, value) := acc in
  fm_ret {| tok_Kind := tok_Kind last; Lexeme := value; tok_File := tok_File last;
            tok_Line := tok_Line last; tok_Column := tok_Column last |}.

Definition parseHeader : PM Header :=
  do* recipeTok := expectKeyword "thoughtrecipe" in
  do* nameTok := parseDottedDefinitionName "thoughtrecipe name" in
  let span := spanFromTokens recipeTok nameTok in
  let name := {| id_Span := span; id_Value := Lexeme nameTok |} in
  do* tok := p_peek in
  if negb (is_kind TokenEOF tok) && is_kind TokenString tok then
    do* descTok := p_next in
    fm_ret {| hd_Span := spanFromTokens recipeTok descTok; hd_Name := name;
              Description := Some (string_lit descTok) |}
  else fm_ret {| hd_Span := span; hd_Name := name; Description := None |}.

Definition parse_document : PM Document :=
  do* header := parseHeader in
  do* decls := loop n (λ decls,
    do* tok := p_peek in
    if is_kind TokenEOF tok then fm_ret (inr decls)
    else if is_kind TokenDedent tok then unexpectedToken tok "unexpected dedent at top level"
    else do* d := parseTopLevelDeclaration in fm_ret (inl (decls ++ [d]))) [] in
  fm_ret {| SourcePath := filename; doc_Name := id_Value (hd_Name header); doc_Header := header;
            Declarations := decls |}.
End loops.

(** Every loop consumes tokens, so their number bounds the rounds and the nesting. *)
Definition parse_fuel : nat := 4 * length tokens + 8.

Definition ParseDocument : option (result Document) := option_map fst (parse_document parse_fuel 0%nat).
End parser.

(** [ParseSource] with [n] as the parser's fuel. *)
Definition ParseSource_fuel (n : nat) (filename source : string) : option (result Document) :=
  match LexAll (NewLexer filename source) with
  | Some (Ok tokens) => option_map fst (parse_document filename tokens n 0%nat)
  | Some (Err e) => Some (Err e)
  | None => None
  end.

Definition ParseSource (filename source : string) : option (result Document) :=
  match LexAll (NewLexer filename source) with
  | Some (Ok tokens) => ParseDocument filename tokens
  | Some (Err e) => Some (Err e)
  | None => None
  end.
