(* ===== verification/RecipeParserSafety.v ===== *)
(** * The recipe parser: termination

    Every parser moves forward; a parser of a block's item moves by a token at least.
    So parsing ends, provided that every list literal holds only what a list may
    hold: the loop of [parseInlineList] does not move on anything else. *)
From S2P Require Import Prelude GoStrings GoLoop RecipeLexer RecipeLexerSafety RecipeAst RecipeParser.

Local Open Scope nat_scope.

Create HintDb moves.

Section parser.
Context (filename : string) (tokens : list Token).

Abbreviation peek_at := (peek_at filename tokens).
Abbreviation size := (length tokens).

(** ** Moving forward *)
Definition stepped (strict : bool) (pos pos' : nat) : Prop :=
  pos + Nat.b2n strict <= pos' ∧ (pos' = pos ∨ pos' <= size).

(** [m] has a result from [pos] and leaves the position where it was or further on. *)
Definition moves {A} (strict : bool) (m : PM A) (pos : nat) : Prop :=
  fm_ok (m pos) (λ _ pos', stepped strict pos pos') (λ _, True).
Definition mv {A} (lo : nat) (m : PM A) : Prop := ∀ pos, lo <= pos → moves false m pos.
Definition st {A} (m : PM A) : Prop := ∀ pos, moves true m pos.

Lemma moves_weaken {A} b (m : PM A) pos : moves true m pos → moves b m pos.
Proof.
  intros H. eapply fm_ok_weaken; [exact H| |done]. intros _ pos' [? ?]. split; [|done].
  destruct b; cbn in *; lia.
Qed.

Lemma mv_ret {A} lo (a : A) : mv lo (fm_ret a).
Proof. intros pos _. apply fm_ok_ret. split; cbn; lia. Qed.
Lemma moves_err {A} b e pos : moves b (fm_err (A := A) e) pos.
Proof. done. Qed.
Lemma mv_get {A} lo (f : nat → A) : mv lo (fm_get f).
Proof. intros pos _. apply fm_ok_get. split; cbn; lia. Qed.

Lemma moves_bind {A B} a b (m : PM A) (k : A → PM B) pos : moves a m pos →
  (∀ x pos', stepped a pos pos' → moves b (k x) pos') → moves (a || b) (fm_bind m k) pos.
Proof.
  intros Hm Hk. eapply fm_ok_then; [exact Hm|]. intros x pos' H.
  eapply fm_ok_weaken; [by apply Hk| |done]. intros _ pos'' [H1 H2].
  destruct H as [H3 H4]. split; [|lia]. destruct a, b; cbn in *; lia.
Qed.

Lemma mv_bind {A B} lo (m : PM A) (k : A → PM B) : mv lo m → (∀ x, mv lo (k x)) → mv lo (fm_bind m k).
Proof.
  intros Hm Hk pos Hlo. apply (moves_bind false false); [by apply Hm|]. intros x p [H _]. apply Hk.
  cbn in H. lia.
Qed.

Lemma moves_then {A B} (m : PM A) (k : A → PM B) pos :
  moves true m pos → (∀ x, mv (S pos) (k x)) → moves true (fm_bind m k) pos.
Proof. intros Hm Hk. apply (moves_bind true false); [done|]. intros x p [H _]. apply Hk. cbn in H. lia. Qed.

Lemma moves_later {A B} (m : PM A) (k : A → PM B) pos :
  moves false m pos → (∀ x, st (k x)) → moves true (fm_bind m k) pos.
Proof. intros Hm Hk. apply (moves_bind false true); [done|]. intros. apply Hk. Qed.

Lemma moves_peek {A B} b (f : nat → A) (k : A → PM B) pos :
  moves b (k (f pos)) pos → moves b (fm_bind (fm_get f) k) pos.
Proof. done. Qed.

Lemma mv_try {A} lo (m : PM A) : mv lo m → (∀ pos e pos', m pos = Some (Err e, pos') → pos' = pos) →
  mv lo (fm_try m).
Proof.
  intros Hm He pos Hlo. specialize (Hm pos Hlo). unfold moves, fm_ok, fm_try in *.
  destruct (m pos) as [[[a|e] pos']|] eqn:E; [done| |done].
  rewrite (He _ _ _ E). split; cbn; lia.
Qed.

(** ** Single tokens *)
Definition present (pos : nat) : Prop := pos < size.

Lemma peek_present pos : peek_at pos ≠ peek_at size ∨ tok_Kind (peek_at pos) ≠ TokenEOF ∨
  Lexeme (peek_at pos) ≠ EmptyString → present pos.
Proof.
  unfold present. intros H. destruct (decide (pos < size)) as [|Hge]; [done|]. exfalso.
  unfold RecipeParser.peek_at in H. rewrite !(proj2 (lookup_ge_None _ _)) in H by lia.
  by destruct H as [H|[H|H]].
Qed.

Lemma kind_present k pos : k ≠ TokenEOF → is_kind k (peek_at pos) = true → present pos.
Proof.
  intros Hk H. apply bool_decide_eq_true in H. apply peek_present. right; left. congruence.
Qed.

Lemma lexeme_present s pos : s ≠ EmptyString → Lexeme (peek_at pos) = s → present pos.
Proof. intros Hs H. apply peek_present. right; right. congruence. Qed.

Lemma token_present k s pos : k ≠ TokenEOF → is_token k s (peek_at pos) = true → present pos.
Proof. intros Hk [H _]%andb_prop. by eapply kind_present. Qed.

Lemma name_present pos : is_name (peek_at pos) = true → present pos.
Proof.
  unfold is_name. rewrite !orb_true_iff. intros [[H|H]|H]; (eapply kind_present; [|exact H]; done).
Qed.

Lemma mv_next lo : mv lo (p_next filename tokens).
Proof.
  intros pos _. unfold moves, p_next. apply fm_ok_ret. destruct (Nat.ltb_spec pos size); split; cbn; lia.
Qed.

Lemma next_moves pos : present pos → moves true (p_next filename tokens) pos.
Proof.
  intros H. unfold moves, p_next. apply fm_ok_ret. unfold present in H.
  rewrite (proj2 (Nat.ltb_lt _ _)) by done. split; cbn; lia.
Qed.

Lemma st_expect ok msg : (∀ pos, ok (peek_at pos) = true → present pos) →
  st (expect filename tokens ok msg).
Proof.
  intros H pos. unfold expect. apply moves_peek. destruct (ok _) eqn:E; [|apply moves_err].
  by apply next_moves, H.
Qed.

Lemma st_expectName c : st (expectName filename tokens c).
Proof. apply st_expect. exact name_present. Qed.
Lemma st_expectNumber c : st (expectNumber filename tokens c).
Proof. apply st_expect. intros pos H. eapply kind_present; [|exact H]; done. Qed.
Lemma st_expectKind k c : k ≠ TokenEOF → st (expectKind filename tokens k c).
Proof. intros Hk. apply st_expect. intros pos H. eapply kind_present; [|exact H]; done. Qed.
Lemma st_expectKeyword s : s ≠ EmptyString → st (expectKeyword filename tokens s).
Proof. intros Hs. apply st_expect. intros pos H%bool_decide_eq_true. by eapply lexeme_present. Qed.
Lemma punct_present s pos : is_punct s (peek_at pos) = true → present pos.
Proof. intros [H _]%andb_prop. eapply kind_present; [|exact H]; done. Qed.
Lemma st_expectPunctuation s : st (expectPunctuation filename tokens s).
Proof. apply st_expect, punct_present. Qed.
Lemma st_expectArrow : st (expectArrow filename tokens).
Proof. apply st_expect, punct_present. Qed.
Lemma st_expectStringLiteral c : st (expectStringLiteral filename tokens c).
Proof.
  intros pos. apply moves_then; [|intros; apply mv_ret].
  apply st_expect. intros p H. eapply kind_present; [|exact H]; done.
Qed.

Lemma st_mv {A} lo (m : PM A) : st m → mv lo m.
Proof. intros H pos _. by apply moves_weaken. Qed.

Lemma mv_err {A} lo e : mv lo (fm_err (A := A) e).
Proof. done. Qed.

Lemma try_expect lo ok msg : mv lo (expect filename tokens ok msg) → mv lo (fm_try (expect filename tokens ok msg)).
Proof.
  intros H. apply mv_try; [done|]. intros pos e pos'. unfold expect, fm_bind, p_peek, fm_get.
  destruct (ok _); [done|]. by intros [= _ ->].
Qed.

(** ** Loops *)
Context (n : nat) (Hn : 2 * size + 2 < n).

Definition goes {X R} (pos : nat) (r : X + R) (pos' : nat) : Prop :=
  stepped (match r with inl _ => true | inr _ => false end) pos pos'.

Lemma mv_loop {X R} lo (body : X → PM (X + R)) x :
  (∀ x pos, lo <= pos → fm_ok (body x pos) (goes pos) (λ _, True)) → mv lo (loop n body x).
Proof.
  intros Hb pos Hlo. unfold moves.
  apply (fm_ok_loop body (λ _ pos', stepped false pos pos') (λ _ pos', size - pos')).
  - intros y p [H1 H2]. eapply fm_ok_weaken; [apply Hb; cbn in H1; lia| |done].
    intros [y'|r] p' [H3 H4]; cbn in *; unfold stepped; cbn; lia.
  - split; cbn; lia.
  - lia.
Qed.

Lemma goes_inl {X R} (m : PM X) pos : moves true m pos →
  fm_ok (fm_bind m (λ x, fm_ret (inl (B := R) x)) pos) (goes pos) (λ _, True).
Proof. intros H. eapply fm_ok_then; [exact H|]. intros x p Hp. by apply fm_ok_ret. Qed.

Lemma goes_inr {X R} (r : R) pos : fm_ok (fm_ret (inr (A := X) r) pos) (goes pos) (λ _, True).
Proof. apply fm_ok_ret. split; cbn; lia. Qed.

Lemma goes_strict {X R} (m : PM (X + R)) pos : moves true m pos → fm_ok (m pos) (goes pos) (λ _, True).
Proof.
  intros H. eapply fm_ok_weaken; [exact H| |done].
  intros [x|r] p [H1 H2]; unfold goes, stepped; cbn in *; lia.
Qed.

Lemma mv_block {A} lo (item : PM A) :
  (∀ pos, lo <= pos → tok_Kind (peek_at pos) ≠ TokenEOF → moves true item pos) →
  mv lo (block filename tokens n item).
Proof.
  intros H. apply mv_loop. intros xs pos Hlo. apply fm_ok_bind, fm_ok_get.
  destruct (is_kind TokenEOF _) eqn:E; cbn [orb]; [apply goes_inr|].
  destruct (is_kind TokenDedent _); [apply goes_inr|].
  apply goes_strict, moves_then; [|intros; apply mv_ret].
  apply H; [done|]. by apply bool_decide_eq_false in E.
Qed.

(** ** Brackets *)
Definition bracket (d : nat) (t : Token) : nat :=
  if is_punct "[" t then S d else if is_punct "]" t then pred d else d.
Definition depth_at (pos : nat) : nat := foldl bracket 0 (take pos tokens).

Definition word (t : Token) : bool := is_kind TokenIdentifier t || is_kind TokenKeyword t.
(** What may stand in a list, after the token [prev]. *)
Definition list_token (prev t : Token) : bool :=
  is_kind TokenEOF t || is_name t || is_kind TokenString t ||
  is_punct "[" t || is_punct "]" t || is_punct "," t || (is_punct "." t && word prev).
Fixpoint lists_closed (d : nat) (prev : Token) (ts : list Token) : bool :=
  match ts with
  | [] => true
  | t :: ts => ((d =? 0) || list_token prev t) && lists_closed (bracket d t) t ts
  end.

Lemma lists_lookup d prev ts i t : lists_closed d prev ts = true → ts !! i = Some t →
  0 < foldl bracket d (take i ts) →
  list_token (match i with O => prev | S j => default zero_token (ts !! j) end) t = true.
Proof.
  revert d prev i; induction ts as [|u ts IH]; intros d prev [|i] Hc Ht Hd; try done.
  - cbn in *. injection Ht as ->. apply andb_prop in Hc as [Hc _].
    destruct d; [lia|]. exact Hc.
  - cbn in Hc, Ht, Hd. apply andb_prop in Hc as [_ Hc].
    specialize (IH _ _ _ Hc Ht Hd). destruct i; exact IH.
Qed.

Lemma peek_lookup pos : present pos → tokens !! pos = Some (peek_at pos).
Proof.
  intros H. unfold RecipeParser.peek_at. apply lookup_lt_is_Some in H as (t & Ht). by rewrite Ht.
Qed.

Lemma depth_next pos : present pos → depth_at (S pos) = bracket (depth_at pos) (peek_at pos).
Proof.
  intros H. unfold depth_at. rewrite (take_S_r _ _ (peek_at pos)) by by apply peek_lookup.
  by rewrite foldl_app.
Qed.

Lemma bracket_kind d t : is_kind TokenPunctuation t = false → bracket d t = d.
Proof. unfold bracket, is_punct. by intros ->. Qed.

Lemma name_kind t : is_name t = true → is_kind TokenPunctuation t = false.
Proof.
  unfold is_name, is_kind. rewrite !orb_true_iff, !bool_decide_eq_true, bool_decide_eq_false.
  intros [[->| ->]| ->]; done.
Qed.

(** Taking the token at [pos]. *)
Lemma next_ok pos (Q : Token → nat → Prop) E : present pos →
  Q (peek_at pos) (S pos) → fm_ok (p_next filename tokens pos) Q E.
Proof.
  intros H HQ. unfold p_next. apply fm_ok_ret. unfold present in H.
  by rewrite (proj2 (Nat.ltb_lt _ _)) by done.
Qed.

Lemma expect_ok ok msg pos (Q : Token → nat → Prop) (E : nat → Prop) : (ok (peek_at pos) = true → present pos) →
  (ok (peek_at pos) = true → Q (peek_at pos) (S pos)) → E pos →
  fm_ok (expect filename tokens ok msg pos) Q E.
Proof.
  intros Hp HQ HE. unfold expect. apply fm_ok_bind, fm_ok_get.
  destruct (ok (peek_at pos)) eqn:Eo; [|by apply fm_ok_err]. apply next_ok; auto.
Qed.

Lemma expectName_ok c pos : fm_ok (expectName filename tokens c pos)
  (λ t pos', t = peek_at pos ∧ is_name t = true ∧ present pos ∧ pos' = S pos) (λ _, True).
Proof.
  apply expect_ok; [apply name_present| |done]. intros H. by split_and!; try apply name_present.
Qed.

Definition path_end (pos pos' : nat) : Prop :=
  stepped true pos pos' ∧ depth_at pos' = depth_at pos ∧ is_punct "." (peek_at pos') = false.

Lemma parsePathExpr_ok pos : fm_ok (parsePathExpr filename tokens n pos) (λ _, path_end pos) (λ _, True).
Proof.
  unfold parsePathExpr. apply fm_ok_bind, fm_ok_get. eapply fm_ok_then; [apply expectName_ok|].
  intros first p (-> & Hname & Hp & ->).
  assert (Hd : depth_at (S pos) = depth_at pos).
  { rewrite depth_next by done. by apply bracket_kind, name_kind. }
  apply fm_ok_then with (λ _ p, path_end pos p).
  - apply (fm_ok_loop _ (λ _ p, stepped true pos p ∧ depth_at p = depth_at pos) (λ _ p, size - p)).
    + intros parts p [Hs Hdp]. apply fm_ok_bind, fm_ok_get.
      destruct (is_token TokenPunctuation "." (peek_at p)) eqn:E.
      * assert (Hpp : present p) by (eapply token_present; [|exact E]; done).
        apply fm_ok_bind, next_ok; [done|]. eapply fm_ok_then; [apply expectName_ok|].
        intros t p' (-> & Hn' & Hp' & ->). apply fm_ok_ret. unfold present, stepped in *. cbn in *.
        split; [|lia]. split; [lia|].
        rewrite depth_next by done. rewrite bracket_kind by by apply name_kind.
        rewrite depth_next by done. rewrite <- Hdp.
        apply andb_prop in E as [_ E]. apply bool_decide_eq_true in E.
        unfold bracket, is_punct. rewrite E. by rewrite !andb_false_r.
      * apply fm_ok_ret. split_and!; [done..|].
        unfold is_token in E. unfold is_punct. by destruct (is_kind _ _).
    + split; [|done]. unfold present, stepped in *. cbn. lia.
    + lia.
  - intros parts p H. apply fm_ok_bind, fm_ok_get, fm_ok_ret. exact H.
Qed.

(** ** Values *)
Context (Hlists : lists_closed 0 zero_token tokens = true).

(** The token before [pos] and the one at [pos] are not parts of one path. *)
Definition settled (pos : nat) : Prop :=
  is_punct "." (peek_at pos) = false ∨ ∃ p, pos = S p ∧ word (peek_at p) = false.

Definition value_start (t : Token) : bool :=
  is_kind TokenString t || is_name t || is_punct "[" t.

Definition value_end (line : Z) (pos : nat) (v : option ValueExpr) (pos' : nat) : Prop :=
  depth_at pos' = depth_at pos ∧
  match v with
  | Some _ => stepped true pos pos' ∧ settled pos'
  | None => pos' = pos ∧ (value_start (peek_at pos) = true → tok_Line (peek_at pos) ≠ line)
  end.

(** A list goes on where its tokens are the ones allowed. *)
Lemma in_list pos : 0 < depth_at pos → settled pos → tok_Kind (peek_at pos) ≠ TokenEOF →
  is_punct "]" (peek_at pos) = false → is_punct "," (peek_at pos) = false →
  value_start (peek_at pos) = true.
Proof.
  intros Hd Hs He H1 H2.
  assert (Hp : present pos) by (apply peek_present; by right; left).
  pose proof (lists_lookup _ _ _ _ _ Hlists (peek_lookup _ Hp) Hd) as H.
  unfold list_token in H. unfold value_start. rewrite H1, H2 in H.
  destruct (is_kind TokenEOF _) eqn:E; [by apply bool_decide_eq_true in E|].
  destruct (is_name _), (is_kind TokenString _), (is_punct "[" _); try done. cbn in H.
  apply andb_prop in H as [Hdot Hw]. exfalso. destruct Hs as [Hs|(p & -> & Hs)]; [congruence|].
  assert (Hpp : present p) by (unfold present in *; lia).
  rewrite (peek_lookup _ Hpp) in Hw. cbn in Hw. congruence.
Qed.

Lemma punct_token s t : s ≠ EmptyString → is_token TokenPunctuation s t = is_punct s t.
Proof. intros H. unfold is_token, is_punct. by rewrite (bool_decide_eq_false_2 _ H). Qed.

Lemma bracket_open d t : is_punct "[" t = true → bracket d t = S d.
Proof. unfold bracket. by intros ->. Qed.

Lemma punct_lexeme s t : is_punct s t = true → is_kind TokenPunctuation t = true ∧ Lexeme t = s.
Proof. intros [H1 H2]%andb_prop. by apply bool_decide_eq_true in H2. Qed.

Lemma bracket_punct d s t : is_punct s t = true →
  bracket d t = if bool_decide (s = "[") then S d else if bool_decide (s = "]") then pred d else d.
Proof. intros [H1 H2]%punct_lexeme. unfold bracket, is_punct. by rewrite H1, H2. Qed.

Lemma punct_word s t : is_punct s t = true → word t = false.
Proof.
  intros [H _]%punct_lexeme. apply bool_decide_eq_true in H. unfold word, is_kind. by rewrite H.
Qed.

Lemma parseInlineList_ok (value : PM (option ValueExpr)) pos :
  (∀ p, pos < p → fm_ok (value p) (value_end (tok_Line (peek_at p)) p) (λ _, True)) →
  fm_ok (parseInlineList filename tokens n value pos)
    (λ _ pos', stepped true pos pos' ∧ depth_at pos' = depth_at pos ∧ settled pos') (λ _, True).
Proof.
  intros Hv. unfold parseInlineList, expectPunctuation.
  eapply fm_ok_then with (P := λ t p, is_punct "[" (peek_at pos) = true ∧ present pos ∧ p = S pos).
  { apply expect_ok; [apply punct_present| |done]. intros H. by split_and!; try eapply punct_present. }
  intros start p (Hop & Hp & ->).
  apply (fm_ok_loop _ (λ _ p, stepped true pos p ∧ depth_at p = S (depth_at pos) ∧ settled p) (λ _ p, size - p)).
  - intros entries p (Hs & Hd & Hst). unfold list_round. apply fm_ok_bind, fm_ok_get.
    destruct (is_kind TokenEOF (peek_at p)) eqn:Ee; [by apply fm_ok_err|].
    apply fm_ok_bind, fm_ok_get. rewrite !punct_token by done.
    assert (Hpp : present p).
    { apply peek_present. right; left. by apply bool_decide_eq_false in Ee. }
    destruct (is_punct "]" (peek_at p)) eqn:Ec.
    + apply fm_ok_bind, next_ok; [done|]. apply fm_ok_ret.
      split_and!; [unfold stepped, present in *; cbn in *; lia| |right; exists p; eauto using punct_word].
      rewrite depth_next by done. rewrite (bracket_punct _ _ _ Ec), Hd. done.
    + apply fm_ok_bind, fm_ok_get. rewrite !punct_token by done.
      destruct (is_punct "," (peek_at p)) eqn:Em.
      * apply fm_ok_bind, next_ok; [done|]. apply fm_ok_ret.
        split; [split_and!|unfold present in *; lia].
        -- unfold stepped, present in *; cbn in *; lia.
        -- rewrite depth_next by done. by rewrite (bracket_punct _ _ _ Em).
        -- right; exists p; eauto using punct_word.
      * assert (Hgo : value_start (peek_at p) = true).
        { apply in_list; try done; [lia|by apply bool_decide_eq_false in Ee]. }
        eapply fm_ok_then; [apply Hv; unfold stepped in Hs; cbn in Hs; lia|].
        intros [v|] p' [Hd' Hv']; [|by destruct Hv' as [_ Hv']; apply Hv' in Hgo].
        apply fm_ok_ret. destruct Hv' as [Hs' Hst'].
        unfold stepped, present in *; cbn in *.
        split; [split_and!|]; [lia|lia|congruence|done|lia].
  - split_and!; [unfold stepped, present in *; cbn in *; lia| |right; exists pos; eauto using punct_word].
    rewrite depth_next by done. by apply bracket_open.
  - unfold present in *. lia.
Qed.

Lemma parseValueExprOnLine_ok m : ∀ line pos, size - pos < m →
  fm_ok (parseValueExprOnLine filename tokens n m line pos) (value_end line pos) (λ _, True).
Proof.
  induction m as [|m IH]; intros line pos Hm; [lia|]. cbn [parseValueExprOnLine].
  apply fm_ok_bind, fm_ok_get. set (tok := peek_at pos).
  assert (Hnone : (value_start tok = true → tok_Line tok ≠ line) →
    fm_ok (fm_ret (None : option ValueExpr) pos) (value_end line pos) (λ _, True)) by done.
  destruct (is_kind TokenEOF tok) eqn:Ee.
  { apply Hnone. apply bool_decide_eq_true in Ee.
    unfold value_start, is_name, is_punct, is_kind. by rewrite Ee. }
  destruct (tok_Line tok =? line)%Z eqn:El; cbn [negb].
  2:{ apply Hnone. intros _. by apply Z.eqb_neq. }
  assert (Hp : present pos).
  { apply peek_present. right; left. by apply bool_decide_eq_false in Ee. }
  assert (Hstep : ∀ v, is_kind TokenPunctuation tok = false → word tok = false →
    fm_ok ((p_next filename tokens ;; fm_ret (Some v))%loop pos) (value_end line pos) (λ _, True)).
  { intros v Hk Hw. apply fm_ok_bind, next_ok; [done|]. apply fm_ok_ret. split_and!.
    - rewrite depth_next by done. by apply bracket_kind.
    - unfold stepped, present in *; cbn; lia.
    - right. by exists pos. }
  assert (Hpath : fm_ok ((do* path := parsePathExpr filename tokens n in fm_ret (Some (VPath path)))%loop pos)
    (value_end line pos) (λ _, True)).
  { eapply fm_ok_then; [apply parsePathExpr_ok|]. intros path p (Hs & Hd & Hdot).
    apply fm_ok_ret. split_and!; [done|done|by left]. }
  assert (Hother : value_start tok = false → fm_ok (fm_ret (None : option ValueExpr) pos) (value_end line pos) (λ _, True)).
  { intros H. apply Hnone. by rewrite H. }
  destruct (tok_Kind tok) eqn:Ek; try exact Hpath;
    try (apply Hother; unfold value_start, is_name, is_punct, is_kind; by rewrite Ek);
    try (apply Hstep; unfold word, is_kind; by rewrite Ek).
  case_bool_decide as Eb.
  - eapply fm_ok_then; [apply parseInlineList_ok|].
    + intros p Hlt. apply fm_ok_bind, fm_ok_get. apply IH. unfold present in Hp. lia.
    + intros l p (Hs & Hd & Hst). by apply fm_ok_ret.
  - apply Hother. unfold value_start, is_name, is_punct, is_kind. rewrite Ek. cbn.
    by rewrite (bool_decide_eq_false_2 _ Eb).
Qed.

Lemma parseValueExpr_moves pos : fm_ok (parseValueExpr filename tokens n pos)
  (λ v, stepped (bool_decide (is_Some v)) pos) (λ _, True).
Proof.
  unfold parseValueExpr. apply fm_ok_bind, fm_ok_get.
  eapply fm_ok_weaken; [apply parseValueExprOnLine_ok; lia| |done].
  intros [v|] p [_ H]; [apply H|]. destruct H as [-> _]. split; cbn; lia.
Qed.

(** ** Composition

    [mvt] follows the structure of a parser. *)
Lemma mv_peek_if {A} lo (f : nat → bool) (a b : PM A) :
  (∀ pos, lo <= pos → f pos = true → moves false a pos) → mv lo b →
  mv lo (do* c := fm_get f in if c then a else b)%loop.
Proof. intros Ha Hb pos Hlo. apply moves_peek. destruct (f pos) eqn:E; auto. Qed.

Lemma mv_value lo : mv lo (parseValueExpr filename tokens n).
Proof.
  intros pos _. eapply fm_ok_weaken; [apply parseValueExpr_moves| |done].
  intros v p [H1 H2]. split; [cbn; lia|done].
Qed.

Lemma mv_path lo : mv lo (parsePathExpr filename tokens n).
Proof. apply st_mv. intros pos. eapply fm_ok_weaken; [apply parsePathExpr_ok| |done]. by intros _ p [H _]. Qed.

Lemma mv_inlineList lo : mv lo (inlineList filename tokens n).
Proof.
  apply st_mv. intros pos. eapply fm_ok_weaken; [apply parseInlineList_ok| |done].
  - intros p _. apply fm_ok_bind, fm_ok_get. apply parseValueExprOnLine_ok. lia.
  - by intros _ p [H _].
Qed.

Lemma mv_expectName lo c : mv lo (expectName filename tokens c).
Proof. apply st_mv, st_expectName. Qed.
Lemma mv_expectNumber lo c : mv lo (expectNumber filename tokens c).
Proof. apply st_mv, st_expectNumber. Qed.
Lemma mv_expectKind lo k c : k ≠ TokenEOF → mv lo (expectKind filename tokens k c).
Proof. intros. by apply st_mv, st_expectKind. Qed.
Lemma mv_expectKeyword lo s : s ≠ EmptyString → mv lo (expectKeyword filename tokens s).
Proof. intros. by apply st_mv, st_expectKeyword. Qed.
Lemma mv_expectPunctuation lo s : mv lo (expectPunctuation filename tokens s).
Proof. apply st_mv, st_expectPunctuation. Qed.
Lemma mv_expectArrow lo : mv lo (expectArrow filename tokens).
Proof. apply st_mv, st_expectArrow. Qed.
Lemma mv_expectStringLiteral lo c : mv lo (expectStringLiteral filename tokens c).
Proof. apply st_mv, st_expectStringLiteral. Qed.
Lemma mv_try_keyword lo s : s ≠ EmptyString → mv lo (fm_try (expectKeyword filename tokens s)).
Proof. intros. by apply try_expect, mv_expectKeyword. Qed.
Lemma mv_try_punct lo s : mv lo (fm_try (expectPunctuation filename tokens s)).
Proof. apply try_expect, mv_expectPunctuation. Qed.

#[local] Hint Resolve mv_value mv_path mv_inlineList mv_expectName mv_expectNumber mv_expectKind
  mv_expectKeyword mv_expectPunctuation mv_expectArrow mv_expectStringLiteral mv_try_keyword
  mv_try_punct mv_next mv_ret mv_get mv_err : moves.

Ltac mvt := repeat first
  [ progress intros
  | apply mv_ret | apply mv_get | apply mv_next | apply mv_err
  | solve [auto with moves] | apply mv_bind
  | match goal with
    | |- mv _ (if ?b then _ else _) => destruct b
    | |- mv _ (match ?x with _ => _ end) => destruct x
    | |- ?x ≠ ?y => discriminate
    end ].

(** *** Types *)
Definition phase1 (f : typeFrame) : nat := if fr_phase f =? 1 then 1 else 0.
Definition type_cost (st : TypeState) (pos : nat) : nat :=
  2 * (size - pos) + sum_list_with phase1 st.1.

Definition type_goes (st : TypeState) (pos : nat) (r : TypeState + TypeExpr) (pos' : nat) : Prop :=
  stepped false pos pos' ∧ match r with inl st' => type_cost st' pos' < type_cost st pos | inr _ => True end.

Lemma next_then {A} (m : PM A) pos (Q : A → nat → Prop) E : present pos →
  fm_ok (m (S pos)) Q E → fm_ok ((p_next filename tokens ;; m)%loop pos) Q E.
Proof. intros Hp H. by apply fm_ok_bind, next_ok. Qed.

Lemma collapseOps_ok ops pos :
  fm_ok (collapseOps filename tokens ops pos) (λ _ p, p = pos) (λ _, True).
Proof. destruct ops as [|t [|u ts]]; done. Qed.

Lemma finalizeFrame_ok f e pos :
  fm_ok (finalizeFrame filename tokens f e pos) (λ _ p, p = pos) (λ _, True).
Proof. unfold finalizeFrame. destruct (fr_kind f); [done..|]. by destruct (fr_key f). Qed.

Lemma close_frame_ok f outer pos : fm_ok (close_frame filename tokens f outer pos)
  (λ r p, present pos ∧ p = S pos ∧ ∃ st, r = inl st ∧
    sum_list_with phase1 st.1 <= phase1 f + sum_list_with phase1 outer) (λ _, True).
Proof.
  unfold close_frame. apply fm_ok_bind, fm_ok_get. rewrite punct_token by done.
  destruct (is_punct "|" _) eqn:E.
  { apply next_then; [by eapply punct_present|]. apply fm_ok_ret.
    split_and!; [by eapply punct_present|done|]. eexists. split; [done|]. cbn. lia. }
  apply fm_ok_bind, fm_ok_get. rewrite punct_token by done.
  destruct (is_punct ">" _) eqn:E'; [|done]. apply next_then; [by eapply punct_present|].
  eapply fm_ok_then; [apply collapseOps_ok|]. intros e p ->.
  eapply fm_ok_then; [apply finalizeFrame_ok|]. intros w p ->.
  destruct outer as [|g outer]; [done|]. apply fm_ok_ret.
  split_and!; [by eapply punct_present|done|]. eexists. split; [done|]. cbn. lia.
Qed.

Lemma operand_step frames :
  type_step filename tokens n (frames, None) = type_operand filename tokens n frames.
Proof. by destruct frames. Qed.

Lemma type_step_ok st pos : fm_ok (type_step filename tokens n st pos) (type_goes st pos) (λ _, True).
Proof.
  destruct st as [frames [result|]]; [cbn [type_step]|rewrite operand_step].
  - destruct frames as [|f outer]; [done|].
    assert (Hmore : ∀ f', phase1 f' <= phase1 f → present pos →
      type_goes (f :: outer, Some result) pos (inl (f' :: outer, None)) (S pos)).
    { intros f' Hf Hp. unfold present in Hp. split; [split; cbn; lia|]. unfold type_cost. cbn. lia. }
    assert (Hclose : fm_ok (close_frame filename tokens (set_ops (fr_ops f ++ [result]) f) outer pos)
        (type_goes (f :: outer, Some result) pos) (λ _, True)).
    { eapply fm_ok_weaken; [apply close_frame_ok| |done].
      intros r p (Hp & -> & st & -> & Hs). unfold present in Hp.
      split; [split; cbn; lia|]. unfold type_cost in *. change (phase1 (set_ops _ f)) with (phase1 f) in Hs.
      cbn. lia. }
    destruct (fr_kind f).
    + apply fm_ok_bind, fm_ok_get. rewrite punct_token by done.
      destruct (is_punct "|" _) eqn:E.
      * apply next_then; [by eapply punct_present|]. apply fm_ok_ret.
        apply Hmore; [done|by eapply punct_present].
      * eapply fm_ok_then; [apply collapseOps_ok|]. intros t p ->. apply fm_ok_ret. split; [split; cbn; lia|done].
    + exact Hclose.
    + exact Hclose.
    + destruct (fr_phase f) as [|[|[|ph]]] eqn:Eph; [| |exact Hclose|done].
      * apply fm_ok_bind, fm_ok_get. rewrite punct_token by done.
        destruct (is_punct "|" _) eqn:E.
        { apply next_then; [by eapply punct_present|]. apply fm_ok_ret.
          apply Hmore; [done|by eapply punct_present]. }
        apply fm_ok_bind, fm_ok_get. rewrite punct_token by done.
        destruct (is_punct "," _) eqn:E'; [|done].
        eapply fm_ok_then; [apply collapseOps_ok|]. intros k p ->.
        apply next_then; [by eapply punct_present|]. apply fm_ok_ret.
        apply punct_present in E'. unfold present in E'.
        split; [split; cbn; lia|]. unfold type_cost. cbn. lia.
      * apply fm_ok_ret. split; [split; cbn; lia|]. unfold type_cost, phase1. cbn. rewrite Eph. cbn. lia.
  - assert (Hopen : ∀ k, Lexeme (peek_at pos) ≠ EmptyString →
      fm_ok ((do* start := p_next filename tokens in
        expectPunctuation filename tokens "<" ;;
        fm_ret (inl (new_frame k start :: frames, None)))%loop pos) (type_goes (frames, None) pos) (λ _, True)).
    { intros k Hlx. assert (Hp : present pos) by (apply peek_present; by right; right).
      apply fm_ok_bind, next_ok; [done|]. eapply fm_ok_then; [apply st_expectPunctuation|].
      intros _ p [H1 H2]. apply fm_ok_ret. unfold present in Hp.
      split; [split; cbn in *; lia|]. unfold type_cost. cbn in *. lia. }
    unfold type_operand. apply fm_ok_bind, fm_ok_get.
    do 3 (case_bool_decide as E; [apply Hopen; by rewrite E|clear E]).
    eapply fm_ok_then; [apply parsePathExpr_ok|]. intros path p ([H1 H2] & _). apply fm_ok_ret.
    split; [split; cbn in *; lia|]. unfold type_cost. cbn in *. lia.
Qed.

Lemma mv_type lo : mv lo (parseTypeExpr filename tokens n).
Proof.
  intros pos _. unfold moves, parseTypeExpr.
  apply (fm_ok_loop _ (λ _ p, stepped false pos p) type_cost).
  - intros x p [H1 H2]. eapply fm_ok_weaken; [apply type_step_ok| |done].
    intros [x'|t] p' [[H3 H4] Hc]; unfold stepped; cbn in *; lia.
  - split; cbn; lia.
  - unfold type_cost. cbn. lia.
Qed.
#[local] Hint Resolve mv_type : moves.

(** *** Clauses *)
Lemma mv_predicate lo : mv lo (parsePredicateExpr filename tokens n).
Proof. unfold parsePredicateExpr. mvt. Qed.
Lemma mv_promptRef lo : mv lo (parsePromptRef filename tokens).
Proof. unfold parsePromptRef. mvt. Qed.
#[local] Hint Resolve mv_predicate mv_promptRef : moves.

Lemma mv_text {A} lo c (k : Token → StringLiteral → option PromptRef → A) start :
  mv lo (parseText filename tokens c k start).
Proof. unfold parseText. mvt. Qed.
#[local] Hint Resolve mv_text : moves.

(** A loop over accumulated values whose rounds start with a token. *)
Lemma mv_toolNameList lo : mv lo (parseToolNameList filename tokens n).
Proof.
  unfold parseToolNameList. apply mv_bind; [auto with moves|]. intros [start|e]; [|mvt].
  apply mv_loop. intros entries pos _. apply fm_ok_bind, fm_ok_get.
  destruct (is_kind TokenEOF _) eqn:Ee; [done|].
  assert (Hp : present pos).
  { apply peek_present. right; left. by apply bool_decide_eq_false in Ee. }
  apply fm_ok_bind, fm_ok_get. destruct (is_token _ "]" _).
  { apply fm_ok_bind, next_ok; [done|]. apply fm_ok_ret. unfold present in Hp. split; cbn; lia. }
  apply fm_ok_bind, fm_ok_get. destruct (is_token _ "," _).
  { apply next_then; [done|]. apply fm_ok_ret. unfold present in Hp. split; cbn; lia. }
  apply fm_ok_bind, fm_ok_get. destruct (_ || _); [done|]. destruct (negb _); [done|].
  eapply fm_ok_then; [apply st_expectStringLiteral|]. intros str p Hs.
  destruct (is_blank _); [done|]. by apply fm_ok_ret.
Qed.
#[local] Hint Resolve mv_toolNameList : moves.

Lemma mv_toolPolicy lo t : mv lo (parseToolInvokePolicyDecl filename tokens n t).
Proof. unfold parseToolInvokePolicyDecl. mvt. Qed.
#[local] Hint Resolve mv_toolPolicy : moves.

Lemma mv_blockList lo : mv lo (parseBlockList filename tokens n).
Proof.
  unfold parseBlockList. apply mv_bind; [|mvt]. apply mv_loop. intros [vs sp] pos _.
  apply fm_ok_bind, fm_ok_get. destruct (is_kind _ _ || _); [apply goes_inr|].
  destruct (is_token TokenListMarker "-" _) eqn:E; [|done].
  assert (Hp : present pos) by (eapply token_present; [|exact E]; done).
  apply goes_strict, moves_then; [by apply next_moves|]. mvt.
Qed.
#[local] Hint Resolve mv_blockList : moves.

Lemma present_keyword s pos : bool_decide (Lexeme (peek_at pos) = s) = true → s ≠ EmptyString → present pos.
Proof. intros H Hs. apply bool_decide_eq_true in H. by eapply lexeme_present. Qed.

(** A clause that starts with the token at [pos]. *)
Lemma starts {A} (k : Token → PM A) pos : present pos → (∀ x, mv (S pos) (k x)) →
  moves true (do* t := p_next filename tokens in k t)%loop pos.
Proof. intros Hp Hk. apply moves_then; [by apply next_moves|done]. Qed.

Lemma mv_streamLoop lo (acc : option NumberLiteral * string * Token) :
  mv lo (loop n (λ acc : option NumberLiteral * string * Token,
      let '(maxTokens, mode, last) := acc in
      do* isMax := peekLexeme filename tokens "max" in
      if isMax then
        p_next filename tokens ;;
        do* num := expectNumber filename tokens "stream max tokens" in
        fm_ret (inl (Some (number_lit num), mode, num))
      else
        do* isMode := peekLexeme filename tokens "mode" in
        if isMode then
          p_next filename tokens ;;
          do* modeTok := expectName filename tokens "stream mode" in
          fm_ret (inl (maxTokens, Lexeme modeTok, modeTok))
        else fm_ret (inr acc)) acc)%loop.
Proof.
  apply mv_loop. intros [[mt mode] last] pos _. apply fm_ok_bind, fm_ok_get.
  destruct (bool_decide _) eqn:E.
  { apply goes_strict, starts; [by eapply present_keyword|]. mvt. }
  apply fm_ok_bind, fm_ok_get. destruct (bool_decide (_ = "mode")) eqn:E'.
  { apply goes_strict, starts; [by eapply present_keyword|]. mvt. }
  apply goes_inr.
Qed.
#[local] Hint Resolve mv_streamLoop : moves.

Lemma from_moves pos : present pos → moves true (parseFromClause filename tokens n) pos.
Proof. intros. apply starts; [done|]. mvt. Qed.
Lemma stream_moves pos : present pos → moves true (parseStreamClause filename tokens n) pos.
Proof. intros. apply starts; [done|]. mvt. Qed.
Lemma goal_moves pos : present pos → moves true (parseGoalClause filename tokens) pos.
Proof. intros. apply starts; [done|]. mvt. Qed.
Lemma capability_moves pos : present pos → moves true (parseCapabilityInvocation filename tokens n) pos.
Proof. intros. apply starts; [done|]. mvt. Qed.

Lemma mv_at {A} (m : PM A) pos : mv pos m → moves false m pos.
Proof. intros H. by apply H. Qed.

Ltac later := apply (moves_bind false true); [apply mv_at; mvt|intros ? ? _].

Lemma binding_st : st (parseCaptureBinding filename tokens n).
Proof.
  intros pos. unfold parseCaptureBinding. do 6 later.
  apply moves_then; [apply st_expectArrow|mvt].
Qed.

Lemma mv_bindings lo : mv lo (block filename tokens n (parseCaptureBinding filename tokens n)).
Proof. apply mv_block. intros. apply binding_st. Qed.
Lemma mv_binding lo : mv lo (parseCaptureBinding filename tokens n).
Proof. apply st_mv, binding_st. Qed.
#[local] Hint Resolve mv_bindings mv_binding : moves.

Lemma capture_moves pos : present pos → moves true (parseCaptureBlock filename tokens n) pos.
Proof. intros. apply starts; [done|]. mvt. Qed.

Lemma askItem_moves pos : moves true (parseAskItem filename tokens n) pos.
Proof.
  unfold parseAskItem. apply moves_peek.
  destruct (bool_decide (_ = "question")) eqn:E1.
  { apply starts; [by eapply present_keyword|]. mvt. }
  destruct (bool_decide (_ = "choices")) eqn:E2.
  { apply starts; [by eapply present_keyword|]. mvt. }
  destruct (bool_decide (_ = "capture")) eqn:E3; [|done].
  apply moves_then; [apply capture_moves; by eapply present_keyword|]. mvt.
Qed.

Lemma mv_askItems lo : mv lo (block filename tokens n (parseAskItem filename tokens n)).
Proof. apply mv_block. intros. apply askItem_moves. Qed.
#[local] Hint Resolve mv_askItems : moves.

Lemma ask_moves pos : present pos → moves true (parseAskDecl filename tokens n) pos.
Proof. intros. apply starts; [done|]. mvt. Qed.

(** ** Blocks of items

    [item] moves from [lo] on. *)
Section items.
Context (lo : nat) (item : PM ExecutionItem).
Context (Hitem : ∀ pos, lo <= pos → tok_Kind (peek_at pos) ≠ TokenEOF → moves true item pos).

Lemma mv_items lo' : lo <= lo' → mv lo' (items_then_end filename tokens n item).
Proof.
  intros Hlo. unfold items_then_end. apply mv_bind; [|mvt].
  apply mv_block. intros. apply Hitem; [lia|done].
Qed.

Lemma runItem_moves pos : lo <= pos → tok_Kind (peek_at pos) ≠ TokenEOF →
  moves true (parseRunExecutionItem filename tokens n item) pos.
Proof.
  intros Hlo He. unfold parseRunExecutionItem. apply moves_peek.
  destruct (bool_decide _) eqn:E; [|by apply Hitem].
  apply starts; [by eapply present_keyword|]. mvt.
Qed.

Lemma mv_runItems lo' : lo <= lo' → mv lo' (parseRunBlockItems filename tokens n item).
Proof.
  intros Hlo. unfold parseRunBlockItems, items_then_end. apply mv_bind; [|mvt].
  apply mv_block. intros. apply runItem_moves; [lia|done].
Qed.
#[local] Hint Resolve mv_items mv_runItems : moves.

Lemma mv_branch_body lo' start pred e : lo <= lo' → mv lo' (branch_body filename tokens n item start pred e).
Proof. intros Hlo. unfold branch_body, parseExecutionBlockItems. mvt. Qed.
#[local] Hint Resolve mv_branch_body : moves.

Lemma branch_moves pos : lo <= S pos → moves true (parseRouteBranch filename tokens n item) pos.
Proof.
  intros Hlo. unfold parseRouteBranch. apply moves_peek.
  destruct (bool_decide (_ = "when")) eqn:E1; [apply starts; [by eapply present_keyword|]; mvt|].
  destruct (bool_decide (_ = "otherwise")) eqn:E2; [apply starts; [by eapply present_keyword|]; mvt|done].
Qed.

Lemma mv_branches lo' : lo <= lo' → mv lo' (block filename tokens n (parseRouteBranch filename tokens n item)).
Proof. intros. apply mv_block. intros. apply branch_moves. lia. Qed.

Lemma stage_moves pos : lo <= S pos → moves true (parsePipelineStage filename tokens n item) pos.
Proof.
  intros Hlo. unfold parsePipelineStage. apply moves_peek.
  apply moves_then; [by apply st_expectKeyword|]. unfold parseExecutionBlockItems. mvt.
Qed.

Lemma mv_stages lo' : lo <= lo' → mv lo' (block filename tokens n (parsePipelineStage filename tokens n item)).
Proof. intros. apply mv_block. intros. apply stage_moves. lia. Qed.
#[local] Hint Resolve mv_branches mv_stages : moves.

Lemma run_moves pos : lo <= S pos → present pos → moves true (parseRunDecl filename tokens n item) pos.
Proof. intros. apply starts; [done|]. mvt. Qed.
Lemma delegate_moves pos : lo <= S pos → present pos → moves true (parseDelegateDecl filename tokens n item) pos.
Proof. intros. apply starts; [done|]. unfold parseExecutionBlockItems. mvt. Qed.
Lemma route_moves pos : lo <= S pos → present pos → moves true (parseRouteDecl filename tokens n item) pos.
Proof. intros. apply starts; [done|]. mvt. Qed.
Lemma pipeline_moves pos : lo <= S pos → present pos → moves true (parsePipelineDecl filename tokens n item) pos.
Proof. intros. apply starts; [done|]. mvt. Qed.

Lemma mv_directive_rest lo' start nameTok pred raw : lo <= lo' →
  mv lo' (directive_rest filename tokens n item start nameTok pred raw).
Proof.
  intros Hlo. apply mv_loop. intros [args rawTokens] pos Hpos. apply fm_ok_bind, fm_ok_get.
  assert (lo <= S pos) by lia.
  destruct (is_kind TokenEOF _); [apply goes_inr|].
  destruct (is_punct ":" _) eqn:Ep.
  { apply goes_strict, starts; [by eapply punct_present|]. unfold parseExecutionBlockItems. mvt. }
  destruct (negb _); [apply goes_inr|]. destruct (is_kind TokenDedent _); [apply goes_inr|].
  eapply fm_ok_then; [apply parseValueExprOnLine_ok; lia|].
  intros [v|] p [_ Hv]; apply fm_ok_ret; [apply Hv|]. destruct Hv as [-> _]. split; cbn; lia.
Qed.
#[local] Hint Resolve mv_directive_rest : moves.

Lemma directive_moves pos : lo <= S pos → present pos → moves true (parseDirectiveItem filename tokens n item) pos.
Proof. intros. apply starts; [done|]. mvt. Qed.

Lemma item_body_moves pos : lo <= S pos → tok_Kind (peek_at pos) ≠ TokenEOF →
  moves true (item_body filename tokens n item) pos.
Proof.
  intros Hlo He. assert (Hp : present pos) by (apply peek_present; by right; left).
  unfold item_body. apply moves_peek.
  repeat match goal with |- moves _ (if ?b then _ else _) _ => destruct b end;
    auto using run_moves, delegate_moves, route_moves, ask_moves, pipeline_moves, from_moves, goal_moves,
      stream_moves, capability_moves, directive_moves; try apply moves_err.
  apply moves_then; [by apply capture_moves|mvt].
Qed.
End items.

Lemma item_moves m : ∀ pos, size - pos < m → tok_Kind (peek_at pos) ≠ TokenEOF →
  moves true (parseExecutionItem filename tokens n m) pos.
Proof.
  induction m as [|m IH]; intros pos Hm He; [lia|].
  assert (Hp : present pos) by (apply peek_present; by right; left). unfold present in Hp.
  apply (item_body_moves (S pos)); [|lia|done]. intros p Hlo Hk. apply IH; [lia|done].
Qed.

(** ** Declarations *)
Lemma mv_association lo : mv lo (parseTriggerAssociationDecl filename tokens n).
Proof. unfold parseTriggerAssociationDecl. mvt. Qed.
#[local] Hint Resolve mv_association : moves.

Lemma trigger_line_moves d pos : moves true (trigger_line filename tokens n d) pos.
Proof.
  unfold trigger_line. apply moves_peek.
  destruct (bool_decide (_ = "may")) eqn:E1.
  { apply moves_then; [by apply st_expectKeyword|]. mvt. }
  destruct (bool_decide (_ ∈ _)) eqn:E2; [apply bool_decide_eq_true in E2|done].
  assert (Hp : present pos).
  { apply (lexeme_present (Lexeme (peek_at pos)) pos); [|reflexivity]. intros E. rewrite E in E2.
    by repeat (apply elem_of_cons in E2 as [E2|E2]; [done|]); apply elem_of_nil in E2. }
  apply moves_then; [|mvt]. unfold parseTriggerAssociationDecl. apply starts; [done|mvt].
Qed.

Lemma mv_trigger_lines lo d : mv lo (loop n (λ d,
    do* tok := p_peek filename tokens in
    if is_kind TokenEOF tok || is_kind TokenDedent tok then fm_ret (inr d)
    else do* d := trigger_line filename tokens n d in fm_ret (inl d)) d)%loop.
Proof.
  apply mv_loop. intros d' pos _. apply fm_ok_bind, fm_ok_get.
  destruct (_ || _); [apply goes_inr|]. apply goes_strict, moves_then; [apply trigger_line_moves|mvt].
Qed.
#[local] Hint Resolve mv_trigger_lines : moves.

Lemma mv_fields lo : mv lo (block filename tokens n (type_field filename tokens n)).
Proof. apply mv_block. intros. apply moves_then; [apply st_expectName|mvt]. Qed.
#[local] Hint Resolve mv_fields : moves.

Lemma declaration_moves pos : moves true (parseTopLevelDeclaration filename tokens n) pos.
Proof.
  unfold parseTopLevelDeclaration. apply moves_peek.
  assert (Hi : ∀ p, S pos <= p → tok_Kind (peek_at p) ≠ TokenEOF →
    moves true (parseExecutionItem filename tokens n n) p) by (intros; apply item_moves; [lia|done]).
  repeat match goal with
    | |- moves _ (if bool_decide ?P then _ else _) _ =>
      let E := fresh "E" in destruct (bool_decide P) eqn:E; [apply present_keyword in E; [|done]|clear E]
    end; try (apply starts; [done|mvt]); try done;
    (apply moves_then; [|mvt]); first [apply (run_moves (S pos))|apply (route_moves (S pos))
      |apply (delegate_moves (S pos))|apply ask_moves|apply (pipeline_moves (S pos))]; done || lia.
Qed.

Lemma mv_header lo : mv lo (parseHeader filename tokens n).
Proof.
  unfold parseHeader. apply mv_bind; [mvt|]. intros t. apply mv_bind; [|mvt].
  unfold parseDottedDefinitionName. apply mv_bind; [mvt|]. intros first. apply mv_bind; [|mvt].
  apply mv_loop. intros acc pos _. apply fm_ok_bind, fm_ok_get.
  destruct (is_token _ "." _) eqn:E; [|apply goes_inr].
  apply goes_strict, starts; [eapply token_present; [|exact E]; done|]. mvt.
Qed.

Lemma mv_document lo : mv lo (parse_document filename tokens n).
Proof.
  unfold parse_document. apply mv_bind; [apply mv_header|]. intros header. apply mv_bind; [|mvt].
  apply mv_loop. intros decls pos _. apply fm_ok_bind, fm_ok_get.
  destruct (is_kind TokenEOF _); [apply goes_inr|]. destruct (is_kind TokenDedent _); [done|].
  apply goes_strict, moves_then; [apply declaration_moves|mvt].
Qed.
End parser.

Lemma ParseDocument_some filename tokens : lists_closed 0 zero_token tokens = true →
  is_Some (ParseDocument filename tokens).
Proof.
  intros Hl. unfold ParseDocument.
  assert (Hm : moves tokens false (parse_document filename tokens (parse_fuel tokens)) 0).
  { apply (mv_document filename tokens (parse_fuel tokens) ltac:(unfold parse_fuel; lia) Hl 0). lia. }
  apply fm_ok_some in Hm as (r & ->). done.
Qed.

