(* ===== verification/RecipeTypes.v ===== *)
(** * The recipe parser: types

    [parseTypeExpr] is a loop over a stack of frames.  This file gives the grammar of type
    expressions over tokens and proves that the loop recognizes exactly it: what it
    accepts is the longest derivation at the position, with the tree of the derivation. *)
From S2P Require Import Prelude GoStrings GoLoop RecipeLexer RecipeAst RecipeParser.
From S2P Require Import RecipeParserSafety.

Local Open Scope nat_scope.

(** ** The grammar *)
Inductive Ty :=
| TName (path : list string)
| TList (t : Ty)
| TOptional (t : Ty)
| TMap (k v : Ty)
| TUnion (ts : list Ty).

(** A type expression without its positions. *)
Fixpoint erase (t : TypeExpr) : Ty :=
  match t with
  | NamedTypeExpr _ p => TName (id_Value <$> Parts p)
  | ListTypeExpr _ t => TList (erase t)
  | OptionalTypeExpr _ t => TOptional (erase t)
  | MapTypeExpr _ k v => TMap (erase k) (erase v)
  | UnionTypeExpr _ ts => TUnion (map erase ts)
  end.

(** One alternative is itself, several are a union. *)
Definition collapse (ts : list Ty) : Ty := match ts with [t] => t | _ => TUnion ts end.

(** Segments of a path after the first. *)
Inductive dots : list Token → list string → Prop :=
| dots_nil : dots [] []
| dots_cons d t ts ps : is_punct "." d = true → is_name t = true → dots ts ps →
    dots (d :: t :: ts) (Lexeme t :: ps).

Definition constructor_word (s : string) : bool := bool_decide (s ∈ ["list"; "optional"; "map"]).

Inductive atom_of : list Token → Ty → Prop :=
| atom_name t ts ps : is_name t = true → constructor_word (Lexeme t) = false → dots ts ps →
    atom_of (t :: ts) (TName (Lexeme t :: ps))
| atom_list w o ts l c : Lexeme w = "list" → is_punct "<" o = true → alts_of ts l →
    is_punct ">" c = true → atom_of (w :: o :: ts ++ [c]) (TList (collapse l))
| atom_optional w o ts l c : Lexeme w = "optional" → is_punct "<" o = true → alts_of ts l →
    is_punct ">" c = true → atom_of (w :: o :: ts ++ [c]) (TOptional (collapse l))
| atom_map w o ks k m vs v c : Lexeme w = "map" → is_punct "<" o = true → alts_of ks k →
    is_punct "," m = true → alts_of vs v → is_punct ">" c = true →
    atom_of (w :: o :: ks ++ m :: vs ++ [c]) (TMap (collapse k) (collapse v))
with alts_of : list Token → list Ty → Prop :=
| alts_one ts t : atom_of ts t → alts_of ts [t]
| alts_more ts t b us l : atom_of ts t → is_punct "|" b = true → alts_of us l →
    alts_of (ts ++ b :: us) (t :: l).

Scheme atom_alts_ind := Induction for atom_of Sort Prop
with alts_atom_ind := Induction for alts_of Sort Prop.
Combined Scheme types_ind from atom_alts_ind, alts_atom_ind.

Section parser.
Context (filename : string) (tokens : list Token).

Abbreviation peek_at := (peek_at filename tokens).
Abbreviation size := (length tokens).

(** The tokens from [p] to [q] are [ts]. *)
Definition seg (p q : nat) (ts : list Token) : Prop :=
  p + length ts = q ∧ ∀ i t, ts !! i = Some t → tokens !! (p + i) = Some t.

Lemma seg_nil p : seg p p [].
Proof. split; [cbn; lia|done]. Qed.

Lemma seg_app p q r ts us : seg p q ts → seg q r us → seg p r (ts ++ us).
Proof.
  intros [H1 H2] [H3 H4]. split; [rewrite length_app; lia|]. intros i t Ht.
  apply lookup_app_Some in Ht as [Ht|[Hl Ht]]; [by apply H2|].
  apply H4 in Ht. by replace (p + i) with (q + (i - length ts)) by lia.
Qed.

Lemma seg_split p r ts us : seg p r (ts ++ us) →
  seg p (p + length ts) ts ∧ seg (p + length ts) r us.
Proof.
  intros [H1 H2]. rewrite length_app in H1. split; (split; [lia|]); intros i t Ht.
  - apply H2. by apply lookup_app_l_Some.
  - rewrite <- Nat.add_assoc. apply H2. rewrite lookup_app_r by lia.
    by replace (length ts + i - length ts) with i by lia.
Qed.

Lemma seg_one p : present tokens p → seg p (S p) [peek_at p].
Proof.
  intros Hp. split; [cbn; lia|]. intros [|i] t; [|done]. intros [= <-].
  rewrite Nat.add_0_r. by apply peek_lookup.
Qed.

Lemma seg_cons p q t ts : seg p q (t :: ts) → peek_at p = t ∧ present tokens p ∧ seg (S p) q ts.
Proof.
  intros [H1 H2]. pose proof (H2 0 t eq_refl) as H. rewrite Nat.add_0_r in H.
  split_and!; [unfold RecipeParser.peek_at; by rewrite H|by eapply lookup_lt_Some|].
  split; [cbn in H1; lia|]. intros i u Hu. replace (S p + i) with (p + S i) by lia. by apply H2.
Qed.

Lemma seg_le p q ts : seg p q ts → 1 <= length ts → q <= size.
Proof.
  intros [H1 H2] Hl. destruct (lookup_lt_is_Some_2 ts (length ts - 1)) as [t Ht]; [lia|].
  apply H2, lookup_lt_Some in Ht. lia.
Qed.

Lemma seg_slice p q ts : seg p q ts → take (q - p) (drop p tokens) = ts.
Proof.
  intros [H1 H2]. apply list_eq. intros i. replace (q - p) with (length ts) by lia.
  destruct (decide (i < length ts)) as [Hi|Hi].
  - rewrite lookup_take_lt by done. rewrite lookup_drop.
    destruct (lookup_lt_is_Some_2 ts i Hi) as [t Ht]. rewrite Ht. by apply H2.
  - rewrite (lookup_ge_None_2 ts) by lia. apply lookup_ge_None_2.
    rewrite length_take. lia.
Qed.

Context (n : nat) (Hn : 2 * size + 2 < n).

(** ** Paths *)
Definition dot_at (p : nat) : bool := is_punct "." (peek_at p).

Lemma dots_snoc ts ps d t : dots ts ps → is_punct "." d = true → is_name t = true →
  dots (ts ++ [d; t]) (ps ++ [Lexeme t]).
Proof. induction 1; intros; cbn; repeat constructor; auto. Qed.

Lemma path_sound p : fm_ok (parsePathExpr filename tokens n p) (λ path q,
    ∃ t ts ps, seg p q (t :: ts) ∧ is_name t = true ∧ dots ts ps ∧
      id_Value <$> Parts path = Lexeme t :: ps ∧ dot_at q = false ∧ t = peek_at p) (λ _, True).
Proof.
  unfold parsePathExpr. apply fm_ok_bind, fm_ok_get. eapply fm_ok_then; [apply expectName_ok|].
  intros first q (-> & Hname & Hp & ->).
  set (I := λ (parts : list Identifier) q, ∃ ts ps, seg p q (peek_at p :: ts) ∧ dots ts ps ∧
    id_Value <$> parts = Lexeme (peek_at p) :: ps).
  apply fm_ok_then with (λ parts q, I parts q ∧ dot_at q = false).
  - apply (fm_ok_loop _ I (λ _ q, size - q)).
    + intros parts q (ts & ps & Hs & Hd & Hps). apply fm_ok_bind, fm_ok_get.
      rewrite punct_token by done. destruct (is_punct "." (peek_at q)) eqn:E.
      * assert (Hq : present tokens q) by (by eapply punct_present).
        apply fm_ok_bind, next_ok; [done|]. eapply fm_ok_then; [apply expectName_ok|].
        intros t q' (-> & Hn' & Hq' & ->). apply fm_ok_ret. unfold present in *.
        split; [|lia]. exists (ts ++ [peek_at q; peek_at (S q)]), (ps ++ [Lexeme (peek_at (S q))]).
        split_and!; [|by apply dots_snoc|by rewrite fmap_app, Hps].
        apply (seg_app p q _ (peek_at p :: ts)); [done|].
        apply (seg_app _ (S q) _ [_] [_]); by apply seg_one.
      * apply fm_ok_ret. split; [by exists ts, ps|done].
    + exists [], []. split_and!; [by apply seg_one|constructor|done].
    + lia.
  - intros parts q [(ts & ps & Hs & Hd & Hps) Hdot]. apply fm_ok_bind, fm_ok_get, fm_ok_ret.
    exists (peek_at p), ts, ps. by split_and!.
Qed.

Lemma path_complete t ts ps p q : seg p q (t :: ts) → is_name t = true → dots ts ps → dot_at q = false →
  ∃ path, parsePathExpr filename tokens n p = Some (Ok path, q) ∧
    id_Value <$> Parts path = Lexeme t :: ps.
Proof.
  intros Hs Hname Hd Hdot. destruct (seg_cons _ _ _ _ Hs) as (Ht & Hp & Hs').
  set (body := λ parts : list Identifier,
    (do* dot := peekKind filename tokens TokenPunctuation "." in
     if dot then
       p_next filename tokens ;;
       do* nextTok := expectName filename tokens "path segment" in
       fm_ret (inl (parts ++ [ident nextTok]))
     else fm_ret (inr parts))%loop).
  assert (Hloop : ∀ ts ps p k parts, dots ts ps → seg p q ts → length ts < k →
    ∃ new, loop k body parts p = Some (Ok (parts ++ new), q) ∧ id_Value <$> new = ps).
  { clear -Hdot. intros ts ps p k parts Hd. revert p k parts.
    induction Hd as [|d u ts ps Hd Hu _ IH]; intros p k parts Hs Hk.
    - destruct k as [|k]; [cbn in Hk; lia|]. exists []. rewrite app_nil_r. split; [|done].
      assert (p = q) as -> by (destruct Hs as [H _]; cbn in H; lia). cbn [loop].
      unfold fm_bind at 1. unfold body, fm_bind, peekKind, fm_get. rewrite punct_token by done.
      unfold dot_at in Hdot. by rewrite Hdot.
    - destruct k as [|k]; [lia|]. destruct (seg_cons _ _ _ _ Hs) as (E1 & H1 & Hs1).
      destruct (seg_cons _ _ _ _ Hs1) as (E2 & H2 & Hs2).
      destruct (IH (S (S p)) k (parts ++ [ident u]) Hs2) as (new & HL & HE); [cbn in Hk; lia|].
      exists (ident u :: new). split; [|by cbn; rewrite HE].
      cbn [loop]. unfold fm_bind at 1.
      assert (body parts p = Some (Ok (inl (parts ++ [ident u])), S (S p))) as ->.
      { unfold body, fm_bind, peekKind, fm_get. rewrite punct_token by done. rewrite E1, Hd.
        unfold p_next, fm_ret. unfold present in *. rewrite (proj2 (Nat.ltb_lt p _)) by done.
        unfold expectName, expect, fm_bind, p_peek, fm_get. rewrite E2, Hu.
        unfold p_next, fm_ret. rewrite (proj2 (Nat.ltb_lt (S p) _)) by done. by rewrite E2. }
      rewrite HL. by rewrite <- app_assoc. }
  destruct (Hloop ts ps (S p) n [ident t] Hd Hs') as (new & HL & HE).
  { pose proof (seg_le _ _ _ Hs). destruct Hs as [Hlen _]. cbn in *. lia. }
  unfold parsePathExpr. unfold fm_bind at 1. unfold p_peek at 1, fm_get at 1.
  unfold fm_bind at 1.
  assert (expectName filename tokens "path segment" p = Some (Ok t, S p)) as ->.
  { unfold expectName, expect, fm_bind, p_peek, fm_get. rewrite Ht, Hname.
    unfold p_next, fm_ret. unfold present in Hp. rewrite (proj2 (Nat.ltb_lt _ _)) by done. by rewrite Ht. }
  unfold fm_bind at 1. change (loop n _ [ident t] (S p)) with (loop n body [ident t] (S p)).
  rewrite HL. unfold fm_bind, prevToken, fm_get, fm_ret. eexists. split; [reflexivity|].
  cbn. by rewrite HE.
Qed.

(** ** The machine of frames *)
Abbreviation tstep := (type_step filename tokens n).

Inductive runs : TypeState → nat → TypeState → nat → Prop :=
| runs_refl s p : runs s p s p
| runs_step s p s' p' s'' p'' : tstep s p = Some (Ok (inl s'), p') → runs s' p' s'' p'' →
    runs s p s'' p''.

Lemma runs_one s p s' p' : tstep s p = Some (Ok (inl s'), p') → runs s p s' p'.
Proof. intros H. eapply runs_step; [exact H|constructor]. Qed.

Lemma runs_trans s p s' p' s'' p'' : runs s p s' p' → runs s' p' s'' p'' → runs s p s'' p''.
Proof. induction 1; eauto using runs. Qed.

Lemma runs_loop s p s' p' : runs s p s' p' → ∀ k r, loop k tstep s' p' = Some r →
  ∃ k', loop k' tstep s p = Some r.
Proof.
  induction 1 as [|s p s1 p1 s2 p2 Hs _ IH]; intros k r Hr; [eauto|].
  destruct (IH _ _ Hr) as (k' & Hk). exists (S k'). cbn [loop]. unfold fm_bind. by rewrite Hs.
Qed.

Lemma loop_more {S X R} (body : X → FM S (X + R)) k : ∀ k' x s r, loop k body x s = Some r → k <= k' →
  loop k' body x s = Some r.
Proof.
  induction k as [|k IH]; intros k' x s r H Hk; [done|]. destruct k' as [|k']; [lia|].
  cbn [loop] in *. unfold fm_bind in *. destruct (body x s) as [[[[x'|y]|e] s']|]; try done.
  apply IH; [done|lia].
Qed.

(** A frame whose key has been read takes one silent step at its next operand. *)
Definition settle (f : typeFrame) : typeFrame :=
  match fr_kind f with typeFrameMap => if fr_phase f =? 1 then set_phase 2 f else f | _ => f end.
Definition frame_ok (f : typeFrame) : Prop :=
  match fr_kind f with typeFrameMap => fr_phase f <= 2 | _ => True end.

Lemma settle_run f F e p : runs (f :: F, Some e) p (settle f :: F, Some e) p.
Proof.
  unfold settle. destruct (fr_kind f) eqn:Ek; try constructor.
  destruct (fr_phase f =? 1) eqn:Ep; [|constructor]. apply Nat.eqb_eq in Ep.
  apply runs_one. cbn [type_step]. by rewrite Ek, Ep.
Qed.

Lemma settle_settled f : frame_ok f → frame_ok (settle f) ∧ settle (settle f) = settle f.
Proof.
  unfold frame_ok, settle. destruct (fr_kind f) eqn:Ek; rewrite ?Ek; try done.
  intros H. destruct (fr_phase f =? 1) eqn:Ep.
  - split; cbn; rewrite ?Ek; cbn; [lia|done].
  - by rewrite Ek, Ep.
Qed.

Lemma bind_kind {A} s (K : bool → PM A) p : s ≠ EmptyString →
  fm_bind (peekKind filename tokens TokenPunctuation s) K p = K (is_punct s (peek_at p)) p.
Proof. intros Hs. unfold fm_bind, peekKind, fm_get. by rewrite punct_token. Qed.

Lemma bind_next {A} (K : Token → PM A) p : present tokens p →
  fm_bind (p_next filename tokens) K p = K (peek_at p) (S p).
Proof. intros Hp. unfold fm_bind, p_next, fm_ret. unfold present in Hp. by rewrite (proj2 (Nat.ltb_lt _ _)) by done. Qed.

(** The bar keeps the operand and asks for another. *)
Lemma bar_run f F e p : frame_ok f → settle f = f → present tokens p → is_punct "|" (peek_at p) = true →
  runs (f :: F, Some e) p (set_ops (fr_ops f ++ [e]) f :: F, None) (S p).
Proof.
  intros Hok Hset Hp Hb. apply runs_one. cbn [type_step].
  unfold frame_ok, settle in Hok, Hset.
  destruct (fr_kind f) eqn:Ek; unfold close_frame; try (by rewrite bind_kind, Hb, bind_next).
  destruct (fr_phase f) as [|[|[|ph]]] eqn:Ep; try (by rewrite bind_kind, Hb, bind_next); [|lia].
  exfalso. apply (f_equal fr_phase) in Hset. cbn in Hset. congruence.
Qed.

Lemma collapseOps_erase ops p : ops ≠ [] → ∃ c, collapseOps filename tokens ops p = Some (Ok c, p) ∧
  erase c = collapse (erase <$> ops).
Proof.
  destruct ops as [|t [|u ts]]; [done| |]; intros _; eexists; (split; [reflexivity|]); done.
Qed.

(** The closing bracket wraps the operands of the frame. *)
Lemma close_run f F g e p : F = g :: tail F → settle f = f → fr_kind f ≠ typeFrameRoot → frame_ok f →
  (fr_kind f = typeFrameMap → fr_phase f = 2 ∧ is_Some (fr_key f)) →
  present tokens p → is_punct ">" (peek_at p) = true →
  ∃ w, runs (f :: F, Some e) p (F, Some w) (S p) ∧
    erase w = let c := collapse (erase <$> (fr_ops f ++ [e])) in
      match fr_kind f with
      | typeFrameRoot => c | typeFrameList => TList c | typeFrameOptional => TOptional c
      | typeFrameMap => match fr_key f with Some k => TMap (erase k) c | None => c end
      end.
Proof.
  intros HF Hset Hroot Hok Hmap Hp Hc.
  destruct (collapseOps_erase (fr_ops f ++ [e]) (S p)) as (c & Hcol & Hec); [by destruct (fr_ops f)|].
  assert (Hclose : ∃ w, close_frame filename tokens (set_ops (fr_ops f ++ [e]) f) F p =
      Some (Ok (inl (F, Some w)), S p) ∧
    erase w = match fr_kind f with
      | typeFrameRoot => erase c | typeFrameList => TList (erase c) | typeFrameOptional => TOptional (erase c)
      | typeFrameMap => match fr_key f with Some k => TMap (erase k) (erase c) | None => erase c end
      end).
  { assert (Hbar : is_punct "|" (peek_at p) = false).
    { apply punct_lexeme in Hc as [_ Hl]. unfold is_punct. rewrite Hl. by rewrite andb_false_r. }
    unfold close_frame. rewrite bind_kind, Hbar, bind_kind, Hc by done. cbn [negb].
    rewrite bind_next by done. unfold fm_bind at 1. cbn [fr_ops set_ops]. rewrite Hcol. unfold fm_bind at 1. unfold finalizeFrame. cbn [fr_kind set_ops fr_key].
    destruct (fr_kind f) eqn:Ek; [done| | |].
    - rewrite HF. eexists. split; [reflexivity|done].
    - rewrite HF. eexists. split; [reflexivity|done].
    - destruct (Hmap eq_refl) as [_ [k Hk]]. rewrite Hk. rewrite HF. eexists. split; [reflexivity|done]. }
  destruct Hclose as (w & Hrun & Hw). exists w. split; [|cbv zeta; by rewrite <- Hec].
  apply runs_one. cbn [type_step]. destruct (fr_kind f) eqn:Ek; [done|done|done|].
  destruct (Hmap eq_refl) as [Hph _]. by rewrite Hph.
Qed.

(** ** Completeness: what is derived is parsed *)

(** A derivation can end at [q]: its last path does not go on. *)
Definition ends (q : nat) : Prop := dot_at q = true → is_punct ">" (peek_at (pred q)) = true.

Lemma ends_punct s q : s ≠ "." → is_punct s (peek_at q) = true → ends q.
Proof.
  intros Hs Hq Hd. exfalso. unfold dot_at in Hd. apply punct_lexeme in Hq as [_ H1], Hd as [_ H2]. congruence.
Qed.

Lemma open_run k w F p : F ≠ [] →
  (k, w) ∈ [(typeFrameList, "list"); (typeFrameOptional, "optional"); (typeFrameMap, "map")] →
  Lexeme (peek_at p) = w → present tokens p → present tokens (S p) →
  is_punct "<" (peek_at (S p)) = true →
  runs (F, None) p (new_frame k (peek_at p) :: F, None) (S (S p)).
Proof.
  intros HF Hk Hw Hp Hp' Ho. apply runs_one. rewrite operand_step. unfold type_operand.
  assert (Hopen : ∀ k, (do* start := p_next filename tokens in
      expectPunctuation filename tokens "<" ;;
      fm_ret (inl (A := TypeState) (B := TypeExpr) (new_frame k start :: F, None)))%loop p =
    Some (Ok (inl (new_frame k (peek_at p) :: F, None)), S (S p))).
  { intros k'. rewrite bind_next by done. unfold expectPunctuation, expect, fm_bind, p_peek, fm_get.
    rewrite Ho. unfold p_next, fm_ret. unfold present in Hp'. by rewrite (proj2 (Nat.ltb_lt _ _)) by done. }
  unfold fm_bind at 1. unfold p_peek, fm_get. rewrite Hw.
  repeat (apply elem_of_cons in Hk as [[= -> ->]|Hk]; [cbn; apply Hopen|]). by apply elem_of_nil in Hk.
Qed.

Lemma comma_run f F e p : fr_kind f = typeFrameMap → fr_phase f = 0 → present tokens p →
  is_punct "," (peek_at p) = true →
  ∃ k, runs (f :: F, Some e) p (set_key k f :: F, None) (S p) ∧
    erase k = collapse (erase <$> (fr_ops f ++ [e])).
Proof.
  intros Ek Ep Hp Hc.
  destruct (collapseOps_erase (fr_ops f ++ [e]) p) as (c & Hcol & Hec); [by destruct (fr_ops f)|].
  exists c. split; [|done]. apply runs_one. cbn [type_step]. rewrite Ek, Ep.
  assert (Hbar : is_punct "|" (peek_at p) = false).
  { apply punct_lexeme in Hc as [_ Hl]. unfold is_punct. rewrite Hl. by rewrite andb_false_r. }
  rewrite bind_kind, Hbar, bind_kind, Hc by done. cbn [negb]. unfold fm_bind at 1. cbn [fr_ops set_ops].
  rewrite Hcol. by rewrite bind_next.
Qed.

(** The frame opened at [p] holds the operands [l] when its closing bracket is read. *)
Lemma closed_run k w F p q o ts l c
    (IH : ∀ p q f F, frame_ok f → seg p q ts → ends q → ∃ es e, erase <$> (es ++ [e]) = l ∧
      runs (f :: F, None) p (set_ops (fr_ops f ++ es) (settle f) :: F, Some e) q) :
  (k, w) ∈ [(typeFrameList, "list"); (typeFrameOptional, "optional")] →
  F ≠ [] → seg p q (peek_at p :: o :: ts ++ [c]) → Lexeme (peek_at p) = w → is_punct "<" o = true →
  is_punct ">" c = true →
  ∃ e, erase e = (match k with typeFrameList => TList | _ => TOptional end) (collapse l) ∧
    runs (F, None) p (F, Some e) q.
Proof.
  intros Hk HF Hs Hw Ho Hc.
  destruct (seg_cons _ _ _ _ Hs) as (_ & Hp & Hs1). destruct (seg_cons _ _ _ _ Hs1) as (Eo & Hp1 & Hs2).
  destruct (seg_split _ _ _ _ Hs2) as [Hts Hc1]. destruct (seg_cons _ _ _ _ Hc1) as (Ec & Hp2 & Hq).
  set (q1 := S (S p) + length ts) in *. rewrite <- Ec in Hc. rewrite <- Eo in Ho.
  assert (q = S q1) as -> by (destruct Hq as [Hq _]; cbn in Hq; lia).
  destruct (IH (S (S p)) q1 (new_frame k (peek_at p)) F) as (es & e & He & Hrun).
  { unfold frame_ok, new_frame. cbn. destruct k; lia || done. }
  { done. }
  { by eapply (ends_punct ">"). }
  assert (Hset : ∀ ops, settle (set_ops ops (new_frame k (peek_at p))) = set_ops ops (new_frame k (peek_at p))).
  { intros ops. unfold settle. cbn. by destruct k. }
  assert (HsetN : settle (new_frame k (peek_at p)) = new_frame k (peek_at p)) by (by destruct k).
  rewrite HsetN in Hrun. destruct F as [|g F]; [done|].
  edestruct (close_run (set_ops es (new_frame k (peek_at p))) (g :: F) g e q1) as (x & Hx & Hex).
  { done. } { apply Hset. }
  { cbn. repeat (apply elem_of_cons in Hk as [[= -> _]|Hk]; [done|]). by apply elem_of_nil in Hk. }
  { unfold frame_ok. cbn. destruct k; lia || done. }
  { cbn. repeat (apply elem_of_cons in Hk as [[= -> _]|Hk]; [done|]). by apply elem_of_nil in Hk. }
  { done. } { done. }
  exists x. split.
  - rewrite Hex. cbn. rewrite He.
    repeat (apply elem_of_cons in Hk as [[= -> _]|Hk]; [done|]). by apply elem_of_nil in Hk.
  - eapply runs_trans; [apply (open_run k w (g :: F) p); try done|].
    { repeat (apply elem_of_cons in Hk as [->|Hk]; [repeat constructor|]). by apply elem_of_nil in Hk. }
    eapply runs_trans; [exact Hrun|exact Hx].
Qed.

Lemma dots_last ts ps : dots ts ps → ∀ p q, seg (S p) q ts → is_name (peek_at p) = true →
  is_name (peek_at (pred q)) = true.
Proof.
  induction 1 as [|d u ts ps Hd Hu _ IH]; intros p q Hs Hname.
  - destruct Hs as [H _]. cbn in H. by replace (pred q) with p by lia.
  - destruct (seg_cons _ _ _ _ Hs) as (_ & _ & Hs1). destruct (seg_cons _ _ _ _ Hs1) as (E & _ & Hs2).
    apply (IH (S (S p))); [done|]. by rewrite E.
Qed.

Lemma settle_ops f : fr_ops (settle f) = fr_ops f.
Proof. unfold settle. by destruct (fr_kind f); [..|destruct (_ =? _)]. Qed.

Lemma settle_set_ops ops f : settle (set_ops ops f) = set_ops ops (settle f).
Proof. unfold settle. cbn. by destruct (fr_kind f); [..|destruct (_ =? _)]. Qed.

Lemma set_ops_same f : set_ops (fr_ops f) f = f.
Proof. by destruct f. Qed.

Definition derives_operand (ts : list Token) (t : Ty) : Prop :=
  ∀ p q F, F ≠ [] → seg p q ts → ends q → ∃ e, erase e = t ∧ runs (F, None) p (F, Some e) q.
Definition derives_operands (ts : list Token) (l : list Ty) : Prop :=
  ∀ p q f F, frame_ok f → seg p q ts → ends q → ∃ es e, erase <$> (es ++ [e]) = l ∧
    runs (f :: F, None) p (set_ops (fr_ops f ++ es) (settle f) :: F, Some e) q.

Lemma name_runs t ts ps : is_name t = true → constructor_word (Lexeme t) = false → dots ts ps →
  derives_operand (t :: ts) (TName (Lexeme t :: ps)).
Proof.
  intros Hname Hctor Hd p q F HF Hs Hends. destruct (seg_cons _ _ _ _ Hs) as (Et & Hp & Hs').
  assert (Hdot : dot_at q = false).
  { destruct (dot_at q) eqn:E; [|done]. exfalso. specialize (Hends E).
    pose proof (dots_last _ _ Hd p q Hs' ltac:(by rewrite Et)) as Hl. apply name_kind in Hl.
    apply punct_lexeme in Hends as [Hk _]. congruence. }
  destruct (path_complete t ts ps p q Hs Hname Hd Hdot) as (path & Hpath & Hparts).
  exists (NamedTypeExpr (path_Span path) path). split; [cbn; by rewrite Hparts|].
  apply runs_one. rewrite operand_step. unfold type_operand. unfold fm_bind at 1. unfold p_peek, fm_get.
  rewrite Et. unfold constructor_word in Hctor. apply bool_decide_eq_false in Hctor.
  rewrite !bool_decide_eq_false_2 by (intros E; apply Hctor; rewrite E; set_solver).
  unfold fm_bind. by rewrite Hpath.
Qed.

Lemma map_runs w o ks k m vs v c : Lexeme w = "map" → is_punct "<" o = true → derives_operands ks k →
  is_punct "," m = true → derives_operands vs v → is_punct ">" c = true →
  derives_operand (w :: o :: ks ++ m :: vs ++ [c]) (TMap (collapse k) (collapse v)).
Proof.
  intros Hw Ho IHk Hm IHv Hc p q F HF Hs _.
  destruct (seg_cons _ _ _ _ Hs) as (Ew & Hp & Hs1). destruct (seg_cons _ _ _ _ Hs1) as (Eo & Hp1 & Hs2).
  destruct (seg_split _ _ _ _ Hs2) as [Hks Hs3]. destruct (seg_cons _ _ _ _ Hs3) as (Em & Hp2 & Hs4).
  destruct (seg_split _ _ _ _ Hs4) as [Hvs Hs5]. destruct (seg_cons _ _ _ _ Hs5) as (Ec & Hp3 & Hq).
  set (q1 := S (S p) + length ks) in *. set (q2 := S q1 + length vs) in *.
  assert (q = S q2) as -> by (destruct Hq as [Hq _]; cbn in Hq; lia). subst w o m c.
  set (f0 := new_frame typeFrameMap (peek_at p)).
  destruct (IHk (S (S p)) q1 f0 F) as (es & e & He & Hrun); [cbn; lia|done|by eapply (ends_punct ",")|].
  destruct (comma_run (set_ops es f0) F e q1) as (ke & Hcomma & Hke); [done..|].
  set (f1 := set_key ke (set_ops es f0)) in *.
  destruct (IHv (S q1) q2 f1 F) as (es' & e' & He' & Hrun'); [cbn; lia|done|by eapply (ends_punct ">")|].
  destruct F as [|g F]; [done|].
  edestruct (close_run (set_ops es' (settle f1)) (g :: F) g e' q2) as (x & Hx & Hex); try done.
  { unfold frame_ok. cbn. lia. }
  exists x. split; [by rewrite Hex; cbn; rewrite He', Hke; cbn; rewrite He|].
  eapply runs_trans; [apply (open_run typeFrameMap "map" (g :: F) p); try done; set_solver|].
  eapply runs_trans; [exact Hrun|]. eapply runs_trans; [exact Hcomma|].
  eapply runs_trans; [exact Hrun'|exact Hx].
Qed.

Lemma more_runs ts t b us l : derives_operand ts t → is_punct "|" b = true → derives_operands us l →
  derives_operands (ts ++ b :: us) (t :: l).
Proof.
  intros IHt Hb IHl p q f F Hok Hs Hends. destruct (seg_split _ _ _ _ Hs) as [Hts Hs1].
  destruct (seg_cons _ _ _ _ Hs1) as (Eb & Hp & Hus). subst b. set (q1 := p + length ts) in *.
  destruct (IHt p q1 (f :: F)) as (e & He & Hrun); [done|done|by eapply (ends_punct "|")|].
  destruct (settle_settled f Hok) as [Hok' Hset].
  pose proof (bar_run (settle f) F e q1 Hok' Hset Hp Hb) as Hbar. rewrite settle_ops in Hbar.
  destruct (IHl (S q1) q (set_ops (fr_ops f ++ [e]) (settle f)) F) as (es & e' & He' & Hrun'); [done..|].
  exists (e :: es), e'. split; [cbn; by rewrite He, He'|].
  eapply runs_trans; [exact Hrun|]. eapply runs_trans; [apply settle_run|].
  eapply runs_trans; [exact Hbar|]. rewrite settle_set_ops, Hset in Hrun'. cbn [fr_ops set_ops] in Hrun'.
  rewrite <- app_assoc in Hrun'. exact Hrun'.
Qed.

Lemma derived_runs :
  (∀ ts t, atom_of ts t → derives_operand ts t) ∧ (∀ ts l, alts_of ts l → derives_operands ts l).
Proof.
  apply types_ind.
  - intros. by apply name_runs.
  - intros w o ts l c Hw Ho _ IH Hc p q F HF Hs _. destruct (seg_cons _ _ _ _ Hs) as (Ew & _ & _). subst w.
    eapply (closed_run typeFrameList "list"); try done. set_solver.
  - intros w o ts l c Hw Ho _ IH Hc p q F HF Hs _. destruct (seg_cons _ _ _ _ Hs) as (Ew & _ & _). subst w.
    eapply (closed_run typeFrameOptional "optional"); try done. set_solver.
  - intros. by apply map_runs.
  - intros ts t _ IH p q f F Hok Hs Hends. destruct (IH p q (f :: F)) as (e & He & Hrun); [done..|].
    exists [], e. split; [cbn; by rewrite He|]. rewrite app_nil_r.
    eapply runs_trans; [exact Hrun|]. rewrite <- (settle_ops f), set_ops_same. apply settle_run.
  - intros. by apply more_runs.
Qed.

Lemma type_complete ts l p q : alts_of ts l → seg p q ts → ends q → is_punct "|" (peek_at q) = false →
  ∃ e, parseTypeExpr filename tokens n p = Some (Ok e, q) ∧ erase e = collapse l.
Proof.
  intros Hl Hs Hends Hbar.
  destruct (proj2 derived_runs _ _ Hl p q (new_frame typeFrameRoot zero_token) []) as (es & e & He & Hrun); [done..|].
  destruct (collapseOps_erase (es ++ [e]) q) as (c & Hcol & Hec); [by destruct es|].
  exists c. split; [|by rewrite Hec, He].
  destruct (runs_loop _ _ _ _ Hrun 1 (Ok c, q)) as (k & Hk).
  { cbn [loop]. unfold fm_bind at 1. cbn [type_step settle new_frame fr_kind set_ops fr_ops].
    rewrite bind_kind, Hbar by done. unfold fm_bind. cbn [app]. by rewrite Hcol. }
  pose proof (mv_type filename tokens n Hn 0 p ltac:(lia)) as Hm. apply fm_ok_some in Hm as (r & Hr).
  unfold parseTypeExpr in *. rewrite Hr. f_equal.
  pose proof (loop_more _ _ (k `max` n) _ _ _ Hk ltac:(lia)) as H1.
  pose proof (loop_more _ _ (k `max` n) _ _ _ Hr ltac:(lia)) as H2. congruence.
Qed.

(** ** Soundness: what is parsed is derived

    [operands us ops]: the tokens [us] are the operands [ops], each with its bar. *)
Inductive operands : list Token → list TypeExpr → Prop :=
| operands_nil : operands [] []
| operands_snoc us ops ts e b : operands us ops → atom_of ts (erase e) → is_punct "|" b = true →
    operands (us ++ ts ++ [b]) (ops ++ [e]).

Lemma operands_alts us ops : operands us ops → ∀ ts l, alts_of ts l → alts_of (us ++ ts) ((erase <$> ops) ++ l).
Proof.
  induction 1 as [|us ops vs e b _ IH Ha Hb]; intros ts l Hl; [done|].
  rewrite fmap_app, <- !app_assoc. cbn. apply IH. cbn. by apply alts_more.
Qed.

(** The tokens a frame has read, after its opening ones. *)
Inductive frame_read (f : typeFrame) : list Token → Prop :=
| read_operands us : operands us (fr_ops f) → fr_kind f ≠ typeFrameMap ∨ fr_phase f = 0 → frame_read f us
| read_value ks k m us ke : fr_kind f = typeFrameMap → alts_of ks k → is_punct "," m = true →
    fr_key f = Some ke → erase ke = collapse k → operands us (fr_ops f) →
    (fr_phase f = 1 ∧ fr_ops f = []) ∨ fr_phase f = 2 → frame_read f (ks ++ m :: us).

Definition frame_word (k : typeFrameKind) : string :=
  match k with typeFrameRoot => EmptyString | typeFrameList => "list" | typeFrameOptional => "optional"
  | typeFrameMap => "map" end.

Inductive stack : list typeFrame → list Token → Prop :=
| stack_root f ts : fr_kind f = typeFrameRoot → frame_read f ts → stack [f] ts
| stack_frame f F us w o ts : stack F us → fr_kind f ≠ typeFrameRoot → Lexeme w = frame_word (fr_kind f) →
    is_punct "<" o = true → frame_read f ts → stack (f :: F) (us ++ w :: o :: ts).

(** The state of the machine describes the tokens read since [p0]. *)
Definition described (p0 : nat) (s : TypeState) (p : nat) : Prop :=
  ∃ ts us, seg p0 p (ts ++ us) ∧ stack s.1 ts ∧
    match s.2 with None => us = [] | Some e => atom_of us (erase e) ∧ ends p end.

Definition accepted (p0 : nat) (e : TypeExpr) (p : nat) : Prop :=
  ∃ ts l, alts_of ts l ∧ seg p0 p ts ∧ erase e = collapse l ∧ ends p ∧ is_punct "|" (peek_at p) = false.

Lemma collapseOps_sound ops p : fm_ok (collapseOps filename tokens ops p)
  (λ c q, q = p ∧ ops ≠ [] ∧ erase c = collapse (erase <$> ops)) (λ _, True).
Proof. by destruct ops as [|t [|u ts]]. Qed.

Lemma frame_operand f F ts us e b p0 p : stack (f :: F) ts → seg p0 p (ts ++ us) → atom_of us (erase e) →
  (fr_kind f ≠ typeFrameMap ∨ fr_phase f ≠ 1) → present tokens p → b = peek_at p → is_punct "|" b = true →
  described p0 (set_ops (fr_ops f ++ [e]) f :: F, None) (S p).
Proof.
  intros Hst Hs Ha Hph Hp -> Hb.
  assert (Hread : ∀ rs, frame_read f rs → frame_read (set_ops (fr_ops f ++ [e]) f) (rs ++ us ++ [peek_at p])).
  { intros rs [us' Ho Hk|ks k m us' ke Hk Hks Hm Hkey Hke Ho Hph'].
    - apply read_operands; [by apply operands_snoc|done].
    - rewrite <- app_assoc. cbn. eapply read_value; try done; [by apply operands_snoc|].
      right. cbn. destruct Hph' as [[? _]|?]; [|done]. by destruct Hph. }
  assert (Hseg : seg p0 (S p) (ts ++ us ++ [peek_at p])).
  { rewrite app_assoc. eapply seg_app; [exact Hs|by apply seg_one]. }
  exists (ts ++ us ++ [peek_at p]), []. rewrite app_nil_r. split_and!; [done| |done]. cbn [fst].
  inversion Hst as [f' ts' Hk Hr E1 E2|f' F' us' w o ts' HF Hk Hw Ho Hr E1 E2]; subst.
  - apply stack_root; [done|by apply Hread].
  - rewrite <- !app_assoc. cbn. apply stack_frame; [done|done|done|done|]. by apply Hread.
Qed.

(** The operands of a frame and the last one are alternatives. *)
Lemma last_operand us ops ts e : operands us ops → atom_of ts (erase e) →
  alts_of (us ++ ts) (erase <$> (ops ++ [e])).
Proof.
  intros Ho Ha. rewrite fmap_app. apply operands_alts; [done|]. by apply alts_one.
Qed.

(** What a frame reads between its brackets makes the tokens of its type. *)
Lemma frame_atom f rs us e w o c (c' : Ty) : frame_read f rs → atom_of us (erase e) →
  fr_kind f ≠ typeFrameRoot → Lexeme w = frame_word (fr_kind f) → is_punct "<" o = true →
  is_punct ">" c = true → (fr_kind f = typeFrameMap → fr_phase f = 2) →
  c' = collapse (erase <$> (fr_ops f ++ [e])) →
  atom_of (w :: o :: rs ++ us ++ [c])
    (match fr_kind f with
     | typeFrameList => TList c' | typeFrameOptional => TOptional c'
     | _ => match fr_key f with Some k => TMap (erase k) c' | None => c' end
     end).
Proof.
  intros Hr Ha Hroot Hw Ho Hc Hmap ->. inversion Hr as [us' Hop Hk|ks k m us' ke Hk Hks Hm Hkey Hke Hop Hph]; subst.
  - pose proof (last_operand _ _ _ _ Hop Ha) as Hl. rewrite app_assoc.
    destruct (fr_kind f) eqn:Ek; [done|by apply atom_list|by apply atom_optional|].
    exfalso. specialize (Hmap eq_refl). destruct Hk; congruence.
  - pose proof (last_operand _ _ _ _ Hop Ha) as Hl. rewrite Hk, Hkey, Hke in *.
    rewrite <- !app_assoc. cbn. rewrite (app_assoc us'). by apply atom_map.
Qed.

Definition step_sound (p0 : nat) (r : TypeState + TypeExpr) (q : nat) : Prop :=
  match r with inl s => described p0 s q | inr e => accepted p0 e q end.

Lemma close_sound f F ts us e p0 p : stack (f :: F) ts → seg p0 p (ts ++ us) → atom_of us (erase e) →
  fr_kind f ≠ typeFrameRoot → (fr_kind f ≠ typeFrameMap ∨ fr_phase f = 2) →
  fm_ok (close_frame filename tokens (set_ops (fr_ops f ++ [e]) f) F p) (step_sound p0) (λ _, True).
Proof.
  intros Hst Hs Ha Hroot Hph. unfold close_frame. rewrite bind_kind by done.
  destruct (is_punct "|" (peek_at p)) eqn:Eb.
  { assert (Hp : present tokens p) by (by eapply punct_present). apply next_then; [done|]. apply fm_ok_ret.
    eapply frame_operand; try done. destruct Hph as [?|Hph]; [by left|right; congruence]. }
  rewrite bind_kind by done. destruct (is_punct ">" (peek_at p)) eqn:Ec; [|done]. cbn [negb].
  assert (Hp : present tokens p) by (by eapply punct_present). apply next_then; [done|].
  eapply fm_ok_then; [apply collapseOps_sound|]. intros c q (-> & _ & Hc). cbn [fr_ops set_ops] in Hc.
  inversion Hst as [|f' F' us' w o ts' HF Hk Hw Ho Hr E1 E2]; subst; [done|].
  pose proof (frame_atom f ts' us e w o _ _ Hr Ha Hk Hw Ho Ec
    ltac:(intros E; destruct Hph; [done|by auto]) Hc) as Hatom.
  assert (Hseg : seg p0 (S p) (us' ++ (w :: o :: ts' ++ us ++ [peek_at p]))).
  { pose proof (seg_app _ _ _ _ _ Hs (seg_one p Hp)) as Hs'.
    rewrite <- !app_assoc in Hs'. exact Hs'. }
  assert (Hends : ends (S p)) by (intros _; exact Ec).
  eapply fm_ok_then with (P := λ x q, q = S p ∧ erase x = match fr_kind f with
     | typeFrameList => TList (erase c) | typeFrameOptional => TOptional (erase c)
     | _ => match fr_key f with Some k => TMap (erase k) (erase c) | None => erase c end end).
  { unfold finalizeFrame. cbn [fr_kind set_ops fr_key]. destruct (fr_kind f); try done.
    by destruct (fr_key f). }
  intros x q [-> Hx]. destruct F as [|g F]; [done|]. apply fm_ok_ret.
  exists us', (w :: o :: ts' ++ us ++ [peek_at p]). split_and!; [done|done|].
  cbn [snd]. by rewrite Hx.
Qed.

Lemma operand_sound F p0 p : described p0 (F, None) p →
  fm_ok (type_operand filename tokens n F p) (step_sound p0) (λ _, True).
Proof.
  intros (ts & us & Hs & Hst & ->). rewrite app_nil_r in Hs. cbn [fst] in Hst. unfold type_operand.
  assert (Hopen : ∀ k, k ≠ typeFrameRoot → Lexeme (peek_at p) = frame_word k →
    fm_ok ((do* start := p_next filename tokens in expectPunctuation filename tokens "<" ;;
      fm_ret (inl (new_frame k start :: F, None)))%loop p) (step_sound p0) (λ _, True)).
  { intros k Hk Hw. assert (Hp : present tokens p).
    { apply (lexeme_present filename tokens (frame_word k)); [by destruct k|done]. }
    apply fm_ok_bind, next_ok; [done|]. eapply fm_ok_then with
      (P := λ _ q, is_punct "<" (peek_at (S p)) = true ∧ present tokens (S p) ∧ q = S (S p)).
    { apply expect_ok; [apply punct_present| |done]. intros H. split_and!; [done|by eapply punct_present|done]. }
    intros _ q (Ho & Hp1 & ->). apply fm_ok_ret.
    exists (ts ++ peek_at p :: peek_at (S p) :: []), []. rewrite app_nil_r. split_and!; [| |done].
    - eapply seg_app; [exact Hs|]. apply (seg_app _ (S p) _ [_] [_]); by apply seg_one.
    - apply stack_frame; try done. apply read_operands; [constructor|by right]. }
  apply fm_ok_bind, fm_ok_get.
  case_bool_decide as E1; [by apply Hopen|]. case_bool_decide as E2; [by apply Hopen|].
  case_bool_decide as E3; [by apply Hopen|].
  eapply fm_ok_then; [by apply path_sound|].
  intros path q (t & tl & ps & Hseg & Hname & Hd & Hparts & Hdot & Ht). apply fm_ok_ret.
  exists ts, (t :: tl). split_and!; [by eapply seg_app|done|].
  cbn [snd]. split.
  - cbn. rewrite Hparts. apply atom_name; [done| |done]. subst t. unfold constructor_word.
    apply bool_decide_eq_false. set_solver.
  - intros Hdot'. unfold dot_at in *. congruence.
Qed.

Lemma type_step_sound p0 s p : described p0 s p →
  fm_ok (type_step filename tokens n s p) (step_sound p0) (λ _, True).
Proof.
  destruct s as [F [e|]]; [|intros; rewrite operand_step; by apply operand_sound].
  intros (ts & us & Hs & Hst & Ha & Hends). cbn [fst snd] in *. destruct F as [|f F]; [done|].
  cbn [type_step]. destruct (fr_kind f) eqn:Ek.
  - rewrite bind_kind by done. destruct (is_punct "|" (peek_at p)) eqn:Eb.
    { assert (Hp : present tokens p) by (by eapply punct_present). apply next_then; [done|]. apply fm_ok_ret.
      eapply frame_operand; try done. left. congruence. }
    eapply fm_ok_then; [apply collapseOps_sound|]. intros c q (-> & _ & Hc). apply fm_ok_ret.
    inversion Hst as [f' ts' Hk Hr E1 E2|f' F' us' w o ts' HF Hk]; subst; [|done].
    inversion Hr as [us' Hop _|]; subst; [|congruence].
    eexists (ts ++ us), _. split_and!; [by apply last_operand|done|exact Hc|done|done].
  - apply close_sound with ts us; try done; [congruence|left; congruence].
  - apply close_sound with ts us; try done; [congruence|left; congruence].
  - destruct (fr_phase f) as [|[|[|ph]]] eqn:Ep; [| | |done].
    + rewrite bind_kind by done. destruct (is_punct "|" (peek_at p)) eqn:Eb.
      { assert (Hp : present tokens p) by (by eapply punct_present). apply next_then; [done|]. apply fm_ok_ret.
        eapply frame_operand; try done. right. congruence. }
      rewrite bind_kind by done. destruct (is_punct "," (peek_at p)) eqn:Ec; [|done]. cbn [negb].
      assert (Hp : present tokens p) by (by eapply punct_present).
      eapply fm_ok_then; [apply collapseOps_sound|]. intros c q (-> & _ & Hc). apply next_then; [done|].
      apply fm_ok_ret. inversion Hst as [f' ts' Hk|f' F' us' w o ts' HF Hk Hw Ho Hr E1 E2]; subst; [congruence|].
      inversion Hr as [rs Hop _|]; subst; [|destruct_or?; destruct_and?; congruence].
      exists (us' ++ w :: o :: (ts' ++ us) ++ peek_at p :: []), []. rewrite app_nil_r. split_and!; [| |done].
      * pose proof (seg_app _ _ _ _ _ Hs (seg_one p Hp)) as Hs'.
        rewrite <- !app_assoc in Hs'. rewrite <- !app_assoc. exact Hs'.
      * apply stack_frame; try done. eapply read_value; cbn; try done; [by apply last_operand|constructor|by left].
    + apply fm_ok_ret. exists ts, us. split_and!; [done| |done]. cbn [fst].
      inversion Hst as [f' ts' Hk|f' F' us' w o ts' HF Hk Hw Ho Hr E1 E2]; subst; [congruence|].
      apply stack_frame; try done.
      inversion Hr as [rs Hop [?|?]|ks k m rs ke Hk' Hks Hm Hkey Hke Hop Hph]; subst; [congruence|congruence|].
      eapply read_value; try done. by right.
    + apply close_sound with ts us; try done; [congruence|by right].
Qed.
End parser.

(** C23: the frame machine of [parseTypeExpr] recognizes the grammar of type expressions,
    exactly.  It accepts the tokens from [p] to [q] with the type [t] if and only if
    they derive [t] and the derivation cannot go on at [q]. *)
Theorem type_grammar_exact filename tokens n p q t : 2 * length tokens + 2 < n →
  (∃ e, parseTypeExpr filename tokens n p = Some (Ok e, q) ∧ erase e = t) ↔
  (∃ ts l, alts_of ts l ∧ t = collapse l ∧ seg tokens p q ts ∧
     ends filename tokens q ∧ is_punct "|" (peek_at filename tokens q) = false).
Proof.
  intros Hn. split.
  - intros (e & He & <-).
    assert (Hok : fm_ok (parseTypeExpr filename tokens n p) (accepted filename tokens p) (λ _, True)).
    { apply (fm_ok_loop _ (described filename tokens p) (type_cost tokens)).
      - intros s r Hd. pose proof (type_step_sound filename tokens n Hn p s r Hd) as H1.
        pose proof (type_step_ok filename tokens n Hn s r) as H2. unfold fm_ok in *.
        destruct (type_step _ _ _ s r) as [[[[s'|e']|err] r']|]; [|done|done|done].
        split; [exact H1|apply H2].
      - exists [], []. split_and!; [apply seg_nil| |done]. apply stack_root; [done|].
        apply read_operands; [constructor|by right].
      - unfold type_cost. cbn. lia. }
    unfold fm_ok in Hok. rewrite He in Hok. destruct Hok as (ts & l & Hl & Hs & Hc & Hends & Hbar).
    exists ts, l. by split_and!.
  - intros (ts & l & Hl & -> & Hs & Hends & Hbar).
    by apply (type_complete filename tokens n Hn ts l).
Qed.

(** ** Printing types *)
Definition print_token (k : TokenKind) (s : string) : Token :=
  {| tok_Kind := k; Lexeme := s; tok_File := EmptyString; tok_Line := 0; tok_Column := 0 |}.
Definition punct (s : string) : Token := print_token TokenPunctuation s.
Definition name (s : string) : Token := print_token TokenIdentifier s.

Definition print_path (ps : list string) : list Token :=
  match ps with
  | [] => []
  | p :: ps => name p :: concat ((λ s, [punct "."; name s]) <$> ps)
  end.

Fixpoint bars (tss : list (list Token)) : list Token :=
  match tss with
  | [] => []
  | [ts] => ts
  | ts :: tss => ts ++ punct "|" :: bars tss
  end.

Fixpoint print_type (t : Ty) : list Token :=
  match t with
  | TName ps => print_path ps
  | TList t => name "list" :: punct "<" :: print_type t ++ [punct ">"]
  | TOptional t => name "optional" :: punct "<" :: print_type t ++ [punct ">"]
  | TMap k v => name "map" :: punct "<" :: print_type k ++ punct "," :: print_type v ++ [punct ">"]
  | TUnion ts => bars (map print_type ts)
  end.

Definition is_union (t : Ty) : bool := match t with TUnion _ => true | _ => false end.

(** The types that have a text: paths are not empty and do not start with a type
    constructor, unions have at least two members, none of them a union. *)
Fixpoint printable (t : Ty) : bool :=
  match t with
  | TName ps => match ps with p :: _ => negb (constructor_word p) | [] => false end
  | TList t | TOptional t => printable t
  | TMap k v => printable k && printable v
  | TUnion ts => (2 <=? length ts) && forallb (λ t, negb (is_union t) && printable t) ts
  end.

Section ty_ind.
Context (P : Ty → Prop) (Hn : ∀ ps, P (TName ps)) (Hl : ∀ t, P t → P (TList t))
  (Ho : ∀ t, P t → P (TOptional t)) (Hm : ∀ k v, P k → P v → P (TMap k v))
  (Hu : ∀ ts, Forall P ts → P (TUnion ts)).

Fixpoint Ty_nested_ind (t : Ty) : P t :=
  match t with
  | TName ps => Hn ps
  | TList t => Hl t (Ty_nested_ind t)
  | TOptional t => Ho t (Ty_nested_ind t)
  | TMap k v => Hm k v (Ty_nested_ind k) (Ty_nested_ind v)
  | TUnion ts => Hu ts ((fix go ts : Forall P ts :=
      match ts with [] => Forall_nil_2 P | t :: ts => Forall_cons_2 P t ts (Ty_nested_ind t) (go ts) end) ts)
  end.
End ty_ind.

Lemma print_dots ps : dots (concat ((λ s, [punct "."; name s]) <$> ps)) ps.
Proof. induction ps as [|p ps IH]; cbn; [constructor|]. by apply (dots_cons (punct ".") (name p)). Qed.

Lemma bars_derive ts : ts ≠ [] → Forall (λ t, atom_of (print_type t) t) ts → alts_of (bars (map print_type ts)) ts.
Proof.
  induction ts as [|t ts IH]; [done|]. intros _ [Ht Hts]%Forall_cons.
  destruct ts as [|u ts]; [by apply alts_one|].
  change (bars (map print_type (t :: u :: ts)))
    with (print_type t ++ punct "|" :: bars (map print_type (u :: ts))).
  apply alts_more; [done|done|]. by apply IH.
Qed.

Definition derivable (t : Ty) : Prop :=
  (is_union t = false → atom_of (print_type t) t) ∧ ∃ l, alts_of (print_type t) l ∧ t = collapse l.

Lemma derivable_atom t : is_union t = false → atom_of (print_type t) t → derivable t.
Proof. intros Hu Ha. split; [done|]. exists [t]. split; [by apply alts_one|done]. Qed.

Lemma print_derivable t : printable t = true → derivable t.
Proof.
  induction t as [ps|t IH|t IH|k v IHk IHv|ts IH] using Ty_nested_ind; cbn [printable]; intros Hp.
  - destruct ps as [|p ps]; [done|]. apply derivable_atom; [done|].
    apply (atom_name (name p)); [done| |apply print_dots]. by apply negb_true_iff.
  - apply derivable_atom; [done|]. destruct (IH Hp) as [_ (l & Hl & Et)]. cbn [print_type]. rewrite Et at 2.
    by apply atom_list.
  - apply derivable_atom; [done|]. destruct (IH Hp) as [_ (l & Hl & Et)]. cbn [print_type]. rewrite Et at 2.
    by apply atom_optional.
  - apply derivable_atom; [done|]. apply andb_prop in Hp as [Hpk Hpv].
    destruct (IHk Hpk) as [_ (lk & Hlk & Ek)], (IHv Hpv) as [_ (lv & Hlv & Ev)].
    cbn [print_type]. rewrite Ek at 2. rewrite Ev at 2. by apply atom_map.
  - split; [done|]. apply andb_prop in Hp as [Hlen Hall]. apply Nat.leb_le in Hlen. exists ts.
    split; [|by destruct ts as [|t [|u ts]]; cbn in Hlen; try lia].
    apply bars_derive; [by destruct ts; cbn in Hlen; [lia|]|].
    rewrite forallb_forall in Hall. rewrite Forall_forall in IH |- *. intros t Ht.
    pose proof (proj1 (list_elem_of_In _ _) Ht) as Hin.
    apply Hall, andb_prop in Hin as [Hu Hpt].
    apply (proj1 (IH t Ht Hpt)). by apply negb_true_iff.
Qed.

(** types round-trip.  The tokens printed for a type parse, all of them, to a tree that
    is the type. *)
Theorem type_roundtrip filename t : printable t = true →
  let ts := print_type t in
  ∃ e, parseTypeExpr filename ts (parse_fuel ts) 0 = Some (Ok e, length ts) ∧ erase e = t.
Proof.
  intros Hp ts. destruct (print_derivable t Hp) as [_ (l & Hl & ->)].
  assert (Hend : tok_Kind (peek_at filename ts (length ts)) = TokenEOF).
  { unfold peek_at. by rewrite (proj2 (lookup_ge_None ts (length ts))) by lia. }
  assert (Hno : ∀ s, is_punct s (peek_at filename ts (length ts)) = false).
  { intros s. unfold is_punct, is_kind. by rewrite Hend. }
  apply (type_complete filename ts (parse_fuel ts)) with (ts := ts).
  - unfold parse_fuel. lia.
  - exact Hl.
  - split; [done|]. intros i u Hu. exact Hu.
  - intros Hd. unfold dot_at in Hd. by rewrite Hno in Hd.
  - apply Hno.
Qed.
