(* ===== verification/RecipeExamples.v ===== *)
(** * Recipes: concrete sources

    The witnesses of the properties of the lexer and the parser, and what modelling
    showed: a list literal over several lines, on which the parser does not end, and
    texts the lexer and the parser treat unlike their comments. *)
From S2P Require Import Prelude GoStrings GoLoop RecipeLexer RecipeLexerSafety RecipeAst.
From S2P Require Import RecipeParser RecipeParserSafety RecipeTypes.

Local Open Scope nat_scope.

Definition nl : string := String (ascii_of_nat 10) EmptyString.
Definition lines (ls : list string) : string := String.concat nl ls.
Definition quoted (s : string) : string := dquote +:+ s +:+ dquote.
Definition tokens_in (s : string) : list Token :=
  match LexAll (NewLexer "r.euclo" s) with Some (Ok ts) => ts | _ => [] end.

Definition sample : string := lines
  ["thoughtrecipe euclo.review # a comment";
   "input task: user";
   "run agent1:";
   "  goal " +:+ quoted "look";
   "  plan [a, [b.c, 95%]]";
   "  capture x: list<string> -> state.found"].

Lemma sample_lexed : LexAll (NewLexer "r.euclo" sample) = Some (Ok (tokens_in sample)).
Proof. vm_compute. reflexivity. Qed.

Lemma lexer_lossless_witness :
  ∃ p g c, src (NewLexer "r.euclo" sample) = p +:+ g ∧ gap false g = Some c ∧
    tokens_of p (filter (λ t, visible t = true) (tokens_in sample)).
Proof. exact (lexer_lossless "r.euclo" sample (tokens_in sample) sample_lexed). Defined.

Lemma layout_balanced_witness :
  blocks 0 (tokens_in sample) = Some 0 ∧
  ∃ us eof, tokens_in sample = us ++ [eof] ∧ tok_Kind eof = TokenEOF ∧
    Forall (λ t, tok_Kind t ≠ TokenEOF) us.
Proof. exact (layout_balanced "r.euclo" sample (tokens_in sample) sample_lexed). Defined.

Lemma sample_lists ts : LexAll (NewLexer "r.euclo" sample) = Some (Ok ts) → lists_closed 0 zero_token ts = true.
Proof.
  intros H. assert (ts = tokens_in sample) as -> by (unfold tokens_in; by rewrite H).
  vm_compute. reflexivity.
Qed.


(** ** A list over several lines *)
Definition broken_list : string := lines ["thoughtrecipe r"; "input a: ["; "  b]"].

Lemma bind_ok {S A B} (m : FM S A) (k : A → FM S B) s a s' :
  m s = Some (Ok a, s') → fm_bind m k s = k a s'.
Proof. unfold fm_bind. by intros ->. Qed.

Lemma bind_none {S A B} (m : FM S A) (k : A → FM S B) s : m s = None → fm_bind m k s = None.
Proof. unfold fm_bind. by intros ->. Qed.

(** On an INDENT the loop of [parseInlineList] never moves. *)
Lemma indent_no_value f ts n m pos : tok_Kind (peek_at f ts pos) = TokenIndent →
  (do* tok := p_peek f ts in parseValueExprOnLine f ts n m (tok_Line tok))%loop pos =
  match m with O => None | S _ => Some (Ok None, pos) end.
Proof.
  intros Hk. destruct m as [|m]; [done|]. rewrite (bind_ok _ _ _ (peek_at f ts pos) pos) by done.
  cbn [parseValueExprOnLine]. rewrite (bind_ok _ _ _ (peek_at f ts pos) pos) by done.
  unfold is_kind. rewrite Hk. cbn. by rewrite Z.eqb_refl.
Qed.

Lemma indent_round f ts n m pos start entries : tok_Kind (peek_at f ts pos) = TokenIndent →
  list_round f ts (do* tok := p_peek f ts in parseValueExprOnLine f ts n m (tok_Line tok))%loop
    start entries pos =
  match m with O => None | S _ => Some (Ok (inl (entries ++ [None])), pos) end.
Proof.
  intros Hk. unfold list_round, atEOF, peekKind, is_token, is_kind.
  do 3 (rewrite (bind_ok _ _ _ false pos); [|unfold fm_get; by rewrite Hk]).
  pose proof (indent_no_value f ts n m pos Hk) as Hv.
  destruct m as [|m]; [by apply bind_none|]. by rewrite (bind_ok _ _ _ None pos).
Qed.

Lemma list_stuck f ts n m pos : tok_Kind (peek_at f ts pos) = TokenIndent →
  ∀ k start entries,
    loop k (list_round f ts (do* tok := p_peek f ts in parseValueExprOnLine f ts n m (tok_Line tok)) start)%loop
      entries pos = None.
Proof.
  intros Hk k start. induction k as [|k IH]; intros entries; [done|]. cbn [loop].
  pose proof (indent_round f ts n m pos start entries Hk) as Hr.
  destruct m as [|m]; [by apply bind_none|]. rewrite (bind_ok _ _ _ _ _ Hr). apply IH.
Qed.

Definition broken_tokens : list Token := Eval vm_compute in tokens_in broken_list.

Lemma broken_lexed : LexAll (NewLexer "r.euclo" broken_list) = Some (Ok broken_tokens).
Proof. vm_compute. reflexivity. Qed.

Lemma broken_value n : parseValueExpr "r.euclo" broken_tokens n 5 = None.
Proof.
  unfold parseValueExpr. rewrite (bind_ok _ _ _ (peek_at "r.euclo" broken_tokens 5) 5) by done.
  destruct n as [|n]; [done|]. cbn [parseValueExprOnLine].
  rewrite (bind_ok _ _ _ (peek_at "r.euclo" broken_tokens 5) 5) by done. cbn -[parseInlineList fm_bind].
  apply bind_none. unfold parseInlineList.
  rewrite (bind_ok _ _ _ (peek_at "r.euclo" broken_tokens 5) 6) by done. by apply list_stuck.
Qed.

Lemma broken_declaration n : parseTopLevelDeclaration "r.euclo" broken_tokens n 2 = None.
Proof.
  transitivity (parseInputDecl "r.euclo" broken_tokens n 2); [reflexivity|]. unfold parseInputDecl.
  do 3 (erewrite bind_ok; [|reflexivity]). apply bind_none, broken_value.
Qed.

Definition broken_header : result Header :=
  Eval vm_compute in
  match parseHeader "r.euclo" broken_tokens 1 0 with Some (r, _) => r | None => Err (ErrMsg "fuel") end.

Lemma broken_header_parsed n : parseHeader "r.euclo" broken_tokens (S n) 0 = Some (broken_header, 2).
Proof. vm_compute. reflexivity. Qed.

(** A list literal that goes on after its line is not refused: the parser appends to its
    entries for ever, whatever the fuel. *)
Theorem broken_list_diverges n : ParseSource_fuel n "r.euclo" broken_list = None.
Proof.
  unfold ParseSource_fuel. rewrite broken_lexed. unfold parse_document.
  destruct n as [|n]; [done|].
  rewrite (bind_ok _ _ _ _ _ (broken_header_parsed n)), bind_none; [done|].
  change (S n) with (1 + n). cbn [loop Nat.add]. apply bind_none.
  rewrite (bind_ok _ _ _ (peek_at "r.euclo" broken_tokens 2) 2) by done.
  apply bind_none, broken_declaration.
Qed.

(** ** Findings *)

(** A string over several lines ends the line it starts on: what follows it on its last
    line is read as the indentation of a new line. *)
Definition long_string : string :=
  lines ["run a:"; "  stream " +:+ triple +:+ "x"; "y" +:+ triple +:+ " max 3"].
Example long_string_refused :
  LexAll (NewLexer "r" long_string) =
  Some (Err (ErrFmt "%s:%d:%d: indentation does not match any open block" ["r"; "3"; "5"])).
Proof. vm_compute. reflexivity. Qed.

(** Blanks at the end of the last line are layout, although blanks before a line end are not. *)
Example trailing_blanks_refused :
  LexAll (NewLexer "r" (lines ["a"; "   "])) =
    Some (Err (ErrFmt "%s:%d:%d: indentation must increase by two spaces" ["r"; "2"; "1"])) ∧
  is_Some (LexAll (NewLexer "r" (lines ["a"; "   "; EmptyString]))).
Proof. split; vm_compute; eauto. Qed.

(** The text between the quotes is not unescaped. *)
Example escapes_kept : unquoteString (quoted "a") = "a".
Proof. reflexivity. Qed.

(** The range of a token of two characters ends at the second one, not after it. *)
Example span_inclusive (t : Token) : Lexeme t = "ab" →
  sl_Column (End (spanFromToken t)) = (tok_Column t + 1)%Z.
Proof.
  intros H. unfold spanFromToken. rewrite H. change (RuneCountInString "ab") with 2%Z.
  replace (tok_Column t <? tok_Column t + 2)%Z with true by lia. cbn. lia.
Qed.

Definition item_of (s : string) : option (result ExecutionItem) :=
  let ts := tokens_in s in option_map fst (parseExecutionItem "r" ts 50 50 0).

(** The predicate after a directive's name is kept only if a block follows. *)
Definition directive_predicate (r : option (result ExecutionItem)) : option (option PredicateExpr) :=
  match r with
  | Some (Ok (DirectiveClause _ _ _ p _)) | Some (Ok (DirectiveBlock _ _ _ p _ _)) => Some p
  | _ => None
  end.
Example predicate_dropped :
  directive_predicate (item_of "revise when missing a.b") = Some None ∧
  pred_Kind <$> mjoin (directive_predicate (item_of (lines ["revise when missing a.b:"; "  x"]))) = Some "missing".
Proof. split; vm_compute; reflexivity. Qed.

(** The text kept of a predicate is its first token and its operator: the rest of the
    subject and the value are lost. *)
Example predicate_text :
  pred_Raw <$> mjoin (directive_predicate (item_of "when state.phase is initial")) = Some "state is".
Proof. vm_compute. reflexivity. Qed.

(** ** Types *)
Definition sample_type : Ty := TMap (TName ["k"]) (TUnion [TList (TName ["a"; "b"]); TOptional (TName ["c"])]).

Lemma type_roundtrip_witness :
  let ts := print_type sample_type in
  ∃ e, parseTypeExpr "r" ts (parse_fuel ts) 0 = Some (Ok e, length ts) ∧ erase e = sample_type.
Proof. apply (type_roundtrip "r" sample_type). reflexivity. Defined.

Lemma type_grammar_exact_witness :
  let toks := print_type sample_type in
  (∃ e, parseTypeExpr "r" toks (parse_fuel toks) 0 = Some (Ok e, 17) ∧ erase e = sample_type) ↔
  (∃ ts l, alts_of ts l ∧ sample_type = collapse l ∧ seg toks 0 17 ts ∧
     ends "r" toks 17 ∧ is_punct "|" (peek_at "r" toks 17) = false).
Proof. intros toks. apply (type_grammar_exact "r" toks). apply Nat.ltb_lt. reflexivity. Defined.
