(* ===== verification/RecipeNames.v ===== *)
(** * Recipe names and traversals

    What the passes over recipe trees share: the vocabulary of
    named/euclo/thoughtrecipes/consts.go, errors at a source position, references, and
    depth-first traversal with an explicit stack. *)
From stdpp Require Import pretty.
From S2P Require Import Prelude GoStrings GoLoop RecipeLexer RecipeAst.

(** ** Vocabulary *)
Definition KeyInput : string := "input".
Definition KeyState : string := "state".
Definition KeyScratch : string := "scratch".
Definition KeyUser : string := "user".
Definition KeyOutput : string := "output".
Definition KeyDenyAll : string := "__euclo__.deny_all__".
Definition KeyEuclo : string := "euclo".

Definition isBuiltInType (name : string) : bool :=
  bool_decide (trim_space name ∈
    ["Text"; "Markdown"; "Json"; "Bool"; "Number"; "Percent"; "File"; "Path"; "Workspace"; "Diff"]).

Definition is_upper (a : ascii) : bool := let n := nat_of_ascii a in (65 <=? n)%nat && (n <=? 90)%nat.
Fixpoint no_upper (s : string) : bool :=
  match s with
  | EmptyString => true
  | String a s' => negb (is_upper a) && no_upper s'
  end.

(** Upper case ASCII letters are single bytes, so runes need not be decoded. *)
Definition isLowerLiteral (name : string) : bool :=
  let name := trim_space name in negb (bool_decide (name = EmptyString)) && no_upper name.

(** [strconv.Atoi]; [None] is its error. *)
Definition digit_value (a : ascii) : option Z :=
  let n := Z.of_nat (nat_of_ascii a) in if (48 <=? n)%Z && (n <=? 57)%Z then Some (n - 48)%Z else None.
Fixpoint digits_value (acc : Z) (s : string) : option Z :=
  match s with
  | EmptyString => Some acc
  | String a s' => d ← digit_value a; digits_value (10 * acc + d)%Z s'
  end.
Definition Atoi (s : string) : option Z :=
  let parse s := if bool_decide (s = EmptyString) then None else digits_value 0 s in
  z ← match s with
      | String a s' => if bool_decide (a = "-"%char) then Z.opp <$> parse s'
                       else if bool_decide (a = "+"%char) then parse s' else parse s
      | EmptyString => None
      end;
  if (int64_min <=? z)%Z && (z <=? int64_max)%Z then Some z else None.

(** ** Errors at a position *)
Definition loc_err (sp : SourceSpan) (msg : string) (args : list string) : gerror :=
  ErrFmt ("%s:%d:%d: " +:+ msg)
    ([sl_File (Start sp); pretty (sl_Line (Start sp)); pretty (sl_Column (Start sp))] ++ args).

(** ** References *)
Definition valueExprPath (v : option ValueExpr) : option PathExpr :=
  match v with
  | Some (VPath p) => Some p
  | Some (VIdentifier i) => Some {| path_Span := id_Span i; path_Raw := id_Value i; Parts := [i] |}
  | _ => None
  end.

Definition validateCaptureDestinationPath (dest : PathExpr) : option PathExpr :=
  match Parts dest with
  | p :: _ :: _ =>
      if bool_decide (trim_space (id_Value p) ∈ [KeyState; KeyScratch; KeyUser; KeyOutput])
      then Some dest else None
  | _ => None
  end.

(** ** First error of a traversal *)
Section first_err.
Context {A : Type} (f : A → option gerror).
Fixpoint first_err (l : list A) : option gerror :=
  match l with
  | [] => None
  | x :: l' => match f x with Some e => Some e | None => first_err l' end
  end.
End first_err.

Lemma first_err_app {A} (f : A → option gerror) l1 l2 :
  first_err f (l1 ++ l2) = match first_err f l1 with Some e => Some e | None => first_err f l2 end.
Proof. induction l1 as [|x l1 IH]; [done|]. cbn. by destruct (f x). Qed.

Lemma first_err_None {A} (f : A → option gerror) l : first_err f l = None ↔ Forall (λ x, f x = None) l.
Proof.
  induction l as [|x l IH]; [done|]. cbn. rewrite Forall_cons, <- IH.
  destruct (f x); [|tauto]. split; [done|]. by intros [? _].
Qed.

Lemma first_err_ext {A} (f g : A → option gerror) l :
  Forall (λ x, f x = g x) l → first_err f l = first_err g l.
Proof. induction 1 as [|x l Hx _ IH]; [done|]. cbn. by rewrite Hx, IH. Qed.

(** ** Depth-first traversal

    [for len(stack) > 0]: the top is visited and replaced by its children, first child on
    top.  [None]: out of fuel. *)
Section dfs.
Context {A : Type} (visit : A → option gerror) (children : A → list A).

Fixpoint dfs (fuel : nat) (stack : list A) : option (option gerror) :=
  match stack with
  | [] => Some None
  | a :: rest =>
      match fuel with
      | O => None
      | S n =>
          match visit a with
          | Some e => Some (Some e)
          | None => dfs n (children a ++ rest)
          end
      end
  end.

(** Any function that visits a node and then its children in order is what the loop
    computes, given fuel for the nodes. *)
Lemma dfs_spec (size : A → nat) (P : A → option gerror) :
  (∀ a, sum_list_with size (children a) < size a)%nat →
  (∀ a, P a = match visit a with Some e => Some e | None => first_err P (children a) end) →
  ∀ fuel stack, (sum_list_with size stack <= fuel)%nat → dfs fuel stack = Some (first_err P stack).
Proof.
  intros Hsize HP. induction fuel as [|fuel IH]; intros [|a stack] Hf; cbn in *; [done| |done|].
  - pose proof (Hsize a). lia.
  - rewrite HP. destruct (visit a); [done|]. rewrite IH, first_err_app; [by destruct (first_err P (children a))|].
    rewrite sum_list_with_app. pose proof (Hsize a). lia.
Qed.
End dfs.

(** ** Items and what they contain *)

(** The lists of items directly inside an item. *)
Definition item_bodies (i : ExecutionItem) : list (list ExecutionItem) :=
  match i with
  | RunDecl _ _ items | DelegateDecl _ _ items => [items]
  | RouteDecl _ branches => (λ '(MkRouteBranch _ _ body _), body) <$> branches
  | PipelineDecl _ stages => (λ '(MkPipelineStage _ _ body), body) <$> stages
  | DirectiveBlock _ _ _ _ _ body => [body]
  | _ => []
  end.

(** Induction over items: a property holds of an item if it holds of every item inside it. *)
Lemma item_ind (P : ExecutionItem → Prop) :
  (∀ i, Forall (Forall P) (item_bodies i) → P i) → ∀ i, P i.
Proof.
  intros H. fix IH 1. intros i. apply H.
  destruct i as [|? ? items|? ? items|? branches| |? stages| | | | |? ? ? ? ? body| |]; cbn;
    repeat constructor; try (induction items; constructor; [apply IH|assumption]).
  - induction branches as [|[? ? body ?] bs IHb]; cbn; constructor; [|exact IHb].
    induction body; constructor; [apply IH|assumption].
  - induction stages as [|[? ? body] ss IHs]; cbn; constructor; [|exact IHs].
    induction body; constructor; [apply IH|assumption].
  - induction body; constructor; [apply IH|assumption].
Qed.

(** Every item of a tree, the item itself first. *)
Fixpoint item_all (i : ExecutionItem) : list ExecutionItem :=
  let all := fix all (l : list ExecutionItem) :=
    match l with [] => [] | x :: l' => item_all x ++ all l' end in
  i :: match i with
       | RunDecl _ _ items | DelegateDecl _ _ items => all items
       | RouteDecl _ branches =>
           (fix go bs := match bs with [] => [] | MkRouteBranch _ _ body _ :: bs' => all body ++ go bs' end) branches
       | PipelineDecl _ stages =>
           (fix go ss := match ss with [] => [] | MkPipelineStage _ _ body :: ss' => all body ++ go ss' end) stages
       | DirectiveBlock _ _ _ _ _ body => all body
       | _ => []
       end.
Definition items_all (l : list ExecutionItem) : list ExecutionItem := l ≫= item_all.

Lemma item_all_unfold i : item_all i = i :: (item_bodies i ≫= items_all).
Proof.
  assert (∀ l, (fix all (l : list ExecutionItem) :=
    match l with [] => [] | x :: l' => item_all x ++ all l' end) l = items_all l) as Hall.
  { induction l as [|x l IH]; [done|]. cbn. by rewrite IH. }
  destruct i; cbn; rewrite ?Hall, ?app_nil_r; try done; f_equal.
  - induction branches as [|[? ? body ?] bs IH]; [done|]. cbn. by rewrite Hall, IH.
  - induction stages as [|[? ? body] ss IH]; [done|]. cbn. by rewrite Hall, IH.
Qed.
