(* ===== verification/RecipeTypeSystem.v ===== *)
(** * The recipe type system

    named/euclo/thoughtrecipes/typesystem.go: validation of type expressions and of the
    typed captures of a document, and structural compatibility by signatures.  The loops
    over explicit stacks of frames are proved to compute recursive definitions, and
    [Compatible] to be equality of valid types up to their positions. *)
From S2P Require Import Prelude GoStrings GoLoop RecipeLexer RecipeAst RecipeNames.

Local Open Scope nat_scope.

(** Only the names of the declared types are used. *)
Record TypeSystem := { ts_Document : Document; declared_types : gset string }.

Definition NewTypeSystem (doc : Document) : TypeSystem :=
  {| ts_Document := doc;
     declared_types := foldl (λ acc decl,
       match decl with
       | TypeDecl _ name _ =>
           let n := trim_space (id_Value name) in
           if bool_decide (n = EmptyString) then acc else {[n]} ∪ acc
       | _ => acc
       end) ∅ (Declarations doc) |}.

Definition hasDeclaredType (ts : TypeSystem) (name : string) : bool :=
  bool_decide (trim_space name ∈ declared_types ts).

Definition isEnumLiteralName (name : string) : bool :=
  let name := trim_space name in negb (bool_decide (name = EmptyString)) && no_upper name.

(** ** Type expressions *)

(** A frame: a type and whether it is an alternative of a union. *)
Definition typeExprFrame : Type := TypeExpr * bool.

Definition type_children (f : typeExprFrame) : list typeExprFrame :=
  match f.1 with
  | NamedTypeExpr _ _ => []
  | ListTypeExpr _ t | OptionalTypeExpr _ t => [(t, false)]
  | MapTypeExpr _ k v => [(k, false); (v, false)]
  | UnionTypeExpr _ ts => (., true) <$> ts
  end.

Definition type_visit (ts : TypeSystem) (f : typeExprFrame) : option gerror :=
  match f.1 with
  | NamedTypeExpr sp p =>
      let name := trim_space (path_Raw p) in
      if bool_decide (name = EmptyString) then Some (loc_err sp "empty type reference" [])
      else if isBuiltInType name || hasDeclaredType ts name then None
      else if f.2 && isEnumLiteralName name then None
      else Some (loc_err sp "unknown type %q" [name])
  | UnionTypeExpr sp [] => Some (loc_err sp "empty union type" [])
  | _ => None
  end.

Fixpoint type_size (t : TypeExpr) : nat :=
  match t with
  | NamedTypeExpr _ _ => 1
  | ListTypeExpr _ t | OptionalTypeExpr _ t => S (type_size t)
  | MapTypeExpr _ k v => S (type_size k + type_size v)
  | UnionTypeExpr _ ts => S (sum_list_with type_size ts)
  end.

Definition validateTypeExpr (ts : TypeSystem) (t : TypeExpr) (enumContext : bool) : option gerror :=
  default None (dfs (type_visit ts) type_children (type_size t) [(t, enumContext)]).

(** ** Signatures *)

(** A frame of [typeSignature]: the number of children once they have been pushed. *)
Record typeSigFrame := { sf_expr : TypeExpr; sf_enum : bool; sf_done : option nat }.
Definition sig_frame (t : TypeExpr) (enum : bool) : typeSigFrame :=
  {| sf_expr := t; sf_enum := enum; sf_done := None |}.

(** [popResult]: the last [n] results, in order. *)
Definition popResult (n : nat) (results : list string) : list string * list string :=
  (drop (length results - n) results, take (length results - n) results).

Definition sig_of (t : TypeExpr) (children : list string) : string :=
  match t, children with
  | ListTypeExpr _ _, [c] => "list<" +:+ c +:+ ">"
  | OptionalTypeExpr _ _, [c] => "optional<" +:+ c +:+ ">"
  | MapTypeExpr _ _ _, [k; v] => "map<" +:+ k +:+ "," +:+ v +:+ ">"
  | UnionTypeExpr _ _, cs => "union<" +:+ String.concat "|" cs +:+ ">"
  | _, _ => EmptyString
  end.

Definition name_sig (enum : bool) (name : string) : string :=
  if enum && isEnumLiteralName name then "enum:" +:+ name else name.

(** One iteration. *)
Definition sig_step (f : typeSigFrame) (rest : list typeSigFrame) (results : list string)
    : result (list typeSigFrame * list string) :=
  match sf_expr f, sf_done f with
  | NamedTypeExpr sp p, _ =>
      let name := trim_space (path_Raw p) in
      if bool_decide (name = EmptyString) then Err (loc_err sp "empty type reference" [])
      else Ok (rest, results ++ [name_sig (sf_enum f) name])
  | UnionTypeExpr sp [], _ => Err (loc_err sp "empty union type" [])
  | t, None =>
      let cs := type_children (t, sf_enum f) in
      Ok (((λ c : typeExprFrame, sig_frame c.1 c.2) <$> cs) ++
          {| sf_expr := t; sf_enum := sf_enum f; sf_done := Some (length cs) |} :: rest, results)
  | t, Some n =>
      let '(cs, results') := popResult n results in Ok (rest, results' ++ [sig_of t cs])
  end.

Fixpoint sig_loop (fuel : nat) (stack : list typeSigFrame) (results : list string) : option (result (list string)) :=
  match stack with
  | [] => Some (Ok results)
  | f :: rest =>
      match fuel with
      | O => None
      | S n =>
          match sig_step f rest results with
          | Err e => Some (Err e)
          | Ok (stack', results') => sig_loop n stack' results'
          end
      end
  end.

Definition typeSignature (t : TypeExpr) (enumContext : bool) : result string :=
  match sig_loop (2 * type_size t) [sig_frame t enumContext] [] with
  | Some (Ok [r]) => Ok r
  | Some (Ok []) => Err (ErrMsg "type signature produced no result")
  | Some (Ok rs) => Ok (String.concat "," rs)
  | Some (Err e) => Err e
  | None => Err (ErrMsg "type signature produced no result")
  end.

(** ** Compatibility *)
Record TypeCheckResult := { OK : bool; Reason : string }.

Definition Compatible (ts : TypeSystem) (expected actual : TypeExpr) : TypeCheckResult :=
  let failed e := {| OK := false; Reason := error_text e |} in
  match validateTypeExpr ts expected false, validateTypeExpr ts actual false with
  | Some e, _ => failed e
  | None, Some e => failed e
  | None, None =>
      match typeSignature expected false, typeSignature actual false with
      | Err e, _ => failed e
      | _, Err e => failed e
      | Ok esig, Ok asig =>
          if bool_decide (esig = asig) then {| OK := true; Reason := EmptyString |}
          else {| OK := false; Reason := sprintf "type mismatch: expected %s, got %s" [esig; asig] |}
      end
  end.

(** ** Values and captures *)
Definition validateReferencePath (p : PathExpr) : option gerror :=
  match Parts p with
  | ns :: _ :: _ =>
      if bool_decide (trim_space (id_Value ns) ∈ [KeyInput; KeyState; KeyScratch; KeyUser; KeyOutput])
      then None else Some (loc_err (path_Span p) "unknown namespace %q" [id_Value ns])
  | _ => None
  end.

Fixpoint value_size (v : ValueExpr) : nat :=
  match v with
  | VList (MkListLiteral _ _ es) =>
      S (sum_list_with (λ o, match o with Some v => value_size v | None => 1 end) es)
  | _ => 1
  end.
Definition opt_size (v : option ValueExpr) : nat := match v with Some v => value_size v | None => 1 end.

Definition value_visit (v : option ValueExpr) : option gerror :=
  match v with Some (VPath p) => validateReferencePath p | _ => None end.
Definition value_children (v : option ValueExpr) : list (option ValueExpr) :=
  match v with Some (VList l) => Entries l | _ => [] end.

Definition validateValueExpr (v : option ValueExpr) : option gerror :=
  default None (dfs value_visit value_children (opt_size v) [v]).

Definition ValidateCaptureBinding (ts : TypeSystem) (b : CaptureBinding) : option gerror :=
  first_error [
    a ← Annotation b; validateTypeExpr ts a false;
    check (negb (bool_decide (is_Some (validateCaptureDestinationPath (Destination b)))))
      (loc_err (cb_Span b) "capture destination must use state, scratch, user, or output" []);
    check (Forwarding b && negb (bool_decide (is_Some (valueExprPath (cb_Source b)))))
      (loc_err (cb_Span b) "direct forwarding requires a reference source" [])].

Definition validatePredicate (p : PredicateExpr) : option gerror :=
  if bool_decide (pred_Kind p ∈ ["missing"; "present"; "is"; "contains"])
  then validateValueExpr (Some (VPath (Subject p)))
  else if bool_decide (pred_Kind p = "confidence_below")
  then match pred_Value p with Some _ => validateValueExpr (pred_Value p) | None => None end
  else None.

Definition validateCaptures (ts : TypeSystem) (c : CaptureBlock) : option gerror :=
  first_err (ValidateCaptureBinding ts) (Bindings c).

Definition validateAskItem (ts : TypeSystem) (i : AskItem) : option gerror :=
  match i with
  | QuestionClause _ _ _ => None
  | ChoicesListClause _ _ items => first_err validateValueExpr items
  | ChoicesReferenceClause _ src => validateValueExpr src
  | AskCapture c => validateCaptures ts c
  end.
Definition validateAskItems (ts : TypeSystem) : list AskItem → option gerror := first_err (validateAskItem ts).

Definition then_err (a b : option gerror) : option gerror := match a with Some e => Some e | None => b end.

Fixpoint validateExecutionItem (ts : TypeSystem) (i : ExecutionItem) : option gerror :=
  match i with
  | DirectiveBlock _ _ _ pred _ body =>
      then_err (p ← pred; validatePredicate p) (first_err (validateExecutionItem ts) body)
  | Capture c => validateCaptures ts c
  | RunDecl _ _ items | DelegateDecl _ _ items => first_err (validateExecutionItem ts) items
  | RouteDecl _ branches =>
      first_err (λ '(MkRouteBranch _ _ body _), first_err (validateExecutionItem ts) body) branches
  | AskDecl _ items => validateAskItems ts items
  | PipelineDecl _ stages =>
      first_err (λ '(MkPipelineStage _ _ body), first_err (validateExecutionItem ts) body) stages
  | _ => None
  end.
Definition validateExecutionItems (ts : TypeSystem) : list ExecutionItem → option gerror :=
  first_err (validateExecutionItem ts).

Definition validateTypeDecl (ts : TypeSystem) (body : RecordTypeDefinition) : option gerror :=
  first_err (λ f, validateTypeExpr ts (tf_Type f) false) (Fields body).

(** Directives and captures are not declarations, so a block declaration is validated as an item. *)
Definition validateDeclaration (ts : TypeSystem) (d : Declaration) : option gerror :=
  match d with
  | TypeDecl _ _ body => validateTypeDecl ts body
  | BlockDecl i =>
      match i with
      | RunDecl _ _ _ | DelegateDecl _ _ _ | RouteDecl _ _ | AskDecl _ _ | PipelineDecl _ _ =>
          validateExecutionItem ts i
      | _ => None
      end
  | _ => None
  end.

Definition TypeSystem_Validate (ts : TypeSystem) : option gerror :=
  first_err (validateDeclaration ts) (Declarations (ts_Document ts)).

(** ** The loops compute recursive definitions *)
Lemma type_expr_ind (P : TypeExpr → Prop) :
  (∀ sp p, P (NamedTypeExpr sp p)) → (∀ sp t, P t → P (ListTypeExpr sp t)) →
  (∀ sp t, P t → P (OptionalTypeExpr sp t)) → (∀ sp k v, P k → P v → P (MapTypeExpr sp k v)) →
  (∀ sp ts, Forall P ts → P (UnionTypeExpr sp ts)) → ∀ t, P t.
Proof.
  intros Hn Hl Ho Hm Hu. fix IH 1. intros [sp p|sp t|sp t|sp k v|sp ts].
  - apply Hn.
  - apply Hl, IH.
  - apply Ho, IH.
  - apply Hm; apply IH.
  - apply Hu. induction ts; constructor; [apply IH|assumption].
Qed.

Fixpoint valid_type (ts : TypeSystem) (t : TypeExpr) (enum : bool) : option gerror :=
  match t with
  | NamedTypeExpr _ _ => type_visit ts (t, enum)
  | ListTypeExpr _ t | OptionalTypeExpr _ t => valid_type ts t false
  | MapTypeExpr _ k v => then_err (valid_type ts k false) (valid_type ts v false)
  | UnionTypeExpr sp [] => Some (loc_err sp "empty union type" [])
  | UnionTypeExpr _ l => first_err (λ t, valid_type ts t true) l
  end.

Lemma first_err_fmap {A B} (g : A → B) (f : B → option gerror) l :
  first_err f (g <$> l) = first_err (f ∘ g) l.
Proof. induction l as [|x l IH]; [done|]. cbn. by rewrite IH. Qed.

Lemma sum_list_with_fmap {A B} (g : A → B) (f : B → nat) l :
  sum_list_with f (g <$> l) = sum_list_with (f ∘ g) l.
Proof. induction l as [|x l IH]; [done|]. cbn. by rewrite IH. Qed.

Lemma validateTypeExpr_spec ts t b : validateTypeExpr ts t b = valid_type ts t b.
Proof.
  unfold validateTypeExpr.
  rewrite (dfs_spec _ _ (λ f, type_size f.1) (λ f, valid_type ts f.1 f.2)); cbn.
  - by destruct (valid_type ts t b).
  - intros [[sp p|sp u|sp u|sp k v|sp l] e]; cbn; try lia. rewrite sum_list_with_fmap. cbn.
    by apply Nat.lt_succ_diag_r.
  - intros [[sp p|sp u|sp u|sp k v|sp l] e]; cbn; try done.
    + by repeat case_match.
    + by destruct (valid_type ts u false).
    + by destruct (valid_type ts u false).
    + by destruct (valid_type ts k false), (valid_type ts v false).
    + destruct l as [|u l]; [done|]. by rewrite first_err_fmap.
  - lia.
Qed.

Section map_result.
Context {A B : Type} (f : A → result B).
Fixpoint map_result (l : list A) : result (list B) :=
  match l with
  | [] => Ok []
  | x :: l' => let! y := f x in let! ys := map_result l' in Ok (y :: ys)
  end.
End map_result.

Fixpoint signature (t : TypeExpr) (enum : bool) : result string :=
  match t with
  | NamedTypeExpr sp p =>
      let name := trim_space (path_Raw p) in
      if bool_decide (name = EmptyString) then Err (loc_err sp "empty type reference" [])
      else Ok (name_sig enum name)
  | ListTypeExpr _ u => let! c := signature u false in Ok (sig_of t [c])
  | OptionalTypeExpr _ u => let! c := signature u false in Ok (sig_of t [c])
  | MapTypeExpr _ k v => let! c := signature k false in let! d := signature v false in Ok (sig_of t [c; d])
  | UnionTypeExpr sp [] => Err (loc_err sp "empty union type" [])
  | UnionTypeExpr _ l => let! cs := map_result (λ u, signature u true) l in Ok (sig_of t cs)
  end.

(** The iterations of [typeSignature] on a type. *)
Fixpoint sig_steps (t : TypeExpr) : nat :=
  match t with
  | NamedTypeExpr _ _ => 1
  | ListTypeExpr _ u | OptionalTypeExpr _ u => 2 + sig_steps u
  | MapTypeExpr _ k v => 2 + sig_steps k + sig_steps v
  | UnionTypeExpr _ l => 2 + sum_list_with sig_steps l
  end.

Definition after (r : result string) (n : nat) (rest : list typeSigFrame) (results : list string)
    : option (result (list string)) :=
  match r with Ok s => sig_loop n rest (results ++ [s]) | Err e => Some (Err e) end.

Lemma popResult_app l1 l2 : popResult (length l2) (l1 ++ l2) = (l2, l1).
Proof.
  unfold popResult. rewrite length_app. replace (length l1 + length l2 - length l2) with (length l1) by lia.
  by rewrite drop_app_length, take_app_length.
Qed.

Lemma sig_children_run (l : list typeExprFrame) :
  Forall (λ f : typeExprFrame, ∀ n rest results,
    sig_loop (sig_steps f.1 + n) (sig_frame f.1 f.2 :: rest) results = after (signature f.1 f.2) n rest results) l →
  ∀ n rest results,
    sig_loop (sum_list_with (λ f : typeExprFrame, sig_steps f.1) l + n)
      (((λ c : typeExprFrame, sig_frame c.1 c.2) <$> l) ++ rest) results =
    match map_result (λ f : typeExprFrame, signature f.1 f.2) l with
    | Ok cs => sig_loop n rest (results ++ cs)
    | Err e => Some (Err e)
    end.
Proof.
  induction 1 as [|[t b] l Ht _ IH]; intros n rest results; cbn.
  - by rewrite app_nil_r.
  - rewrite <- Nat.add_assoc, Ht. unfold after. cbn. destruct (signature t b) as [s|e]; cbn; [|done].
    rewrite IH. destruct (map_result _ l) as [cs|e]; cbn; [|done]. by rewrite <- app_assoc.
Qed.

Lemma map_result_length {A B} (f : A → result B) l ys : map_result f l = Ok ys → length ys = length l.
Proof.
  revert ys. induction l as [|x l IH]; cbn; [by intros ys [= <-]|].
  intros ys (y & _ & (zs & Hzs & [= <-])%rbind_ok)%rbind_ok. cbn. by rewrite (IH zs).
Qed.

Lemma map_result_ext {A B} (f g : A → result B) l : (∀ x, f x = g x) → map_result f l = map_result g l.
Proof. intros H. induction l as [|x l IH]; [done|]. cbn. by rewrite H, IH. Qed.

Lemma map_result_fmap {A B C} (g : A → B) (f : B → result C) l : map_result f (g <$> l) = map_result (f ∘ g) l.
Proof. induction l as [|x l IH]; [done|]. cbn. by rewrite IH. Qed.

Definition compound (t : TypeExpr) : Prop :=
  match t with NamedTypeExpr _ _ | UnionTypeExpr _ [] => False | _ => True end.

Lemma sig_compound_run t b n rest results : compound t →
  Forall (λ f : typeExprFrame, ∀ n rest results,
    sig_loop (sig_steps f.1 + n) (sig_frame f.1 f.2 :: rest) results = after (signature f.1 f.2) n rest results)
    (type_children (t, b)) →
  sig_loop (2 + sum_list_with (λ f : typeExprFrame, sig_steps f.1) (type_children (t, b)) + n)
    (sig_frame t b :: rest) results =
  after (let! cs := map_result (λ f : typeExprFrame, signature f.1 f.2) (type_children (t, b)) in Ok (sig_of t cs))
    n rest results.
Proof.
  intros Hc HF. set (frames := type_children (t, b)) in *.
  pose (d := {| sf_expr := t; sf_enum := b; sf_done := Some (length frames) |}).
  transitivity (sig_loop (sum_list_with (λ f : typeExprFrame, sig_steps f.1) frames + S n)
    (((λ c : typeExprFrame, sig_frame c.1 c.2) <$> frames) ++ d :: rest) results).
  { rewrite Nat.add_succ_r. by destruct t as [| | | |sp [|u l]]. }
  rewrite (sig_children_run frames HF). destruct (map_result _ frames) as [cs|e] eqn:Hcs; cbn; [|done].
  assert (sig_step d rest (results ++ cs) = Ok (rest, results ++ [sig_of t cs])) as ->; [|done].
  apply map_result_length in Hcs.
  assert (popResult (length frames) (results ++ cs) = (cs, results)) as Hpop by (rewrite <- Hcs; apply popResult_app).
  unfold sig_step. cbn [sf_expr sf_done d]. rewrite Hpop. by destruct t as [| | | |sp [|u l]].
Qed.

Lemma sig_loop_run t : ∀ b n rest results,
  sig_loop (sig_steps t + n) (sig_frame t b :: rest) results = after (signature t b) n rest results.
Proof.
  induction t as [sp p|sp u IH|sp u IH|sp k v IHk IHv|sp l IH] using type_expr_ind; intros b n rest results.
  - unfold after. cbn. by case_bool_decide.
  - assert (2 + sig_steps u = 2 + sum_list_with (λ f : typeExprFrame, sig_steps f.1) (type_children (ListTypeExpr sp u, b)))
      as Hs by (cbn; lia). cbn [sig_steps]. rewrite Hs, sig_compound_run; [|done|by repeat constructor].
    cbn. by destruct (signature u false).
  - assert (2 + sig_steps u = 2 + sum_list_with (λ f : typeExprFrame, sig_steps f.1) (type_children (OptionalTypeExpr sp u, b)))
      as Hs by (cbn; lia). cbn [sig_steps]. rewrite Hs, sig_compound_run; [|done|by repeat constructor].
    cbn. by destruct (signature u false).
  - assert (2 + sig_steps k + sig_steps v = 2 + sum_list_with (λ f : typeExprFrame, sig_steps f.1) (type_children (MapTypeExpr sp k v, b)))
      as Hs by (cbn; lia). cbn [sig_steps]. rewrite Hs, sig_compound_run; [|done|by repeat constructor].
    cbn. by destruct (signature k false), (signature v false).
  - destruct l as [|t l]; [done|].
    assert (2 + sum_list_with sig_steps (t :: l) =
      2 + sum_list_with (λ f : typeExprFrame, sig_steps f.1) (type_children (UnionTypeExpr sp (t :: l), b))) as Hs
      by (cbn [type_children fst]; by rewrite sum_list_with_fmap).
    cbn [sig_steps]. rewrite Hs, sig_compound_run; [|done|].
    + cbn [type_children fst]. by rewrite map_result_fmap.
    + cbn [type_children fst]. apply Forall_fmap. eapply Forall_impl; [exact IH|]. intros u Hu ???. apply Hu.
Qed.

Lemma sig_steps_le t : sig_steps t <= 2 * type_size t.
Proof.
  induction t as [sp p|sp u IH|sp u IH|sp k v IHk IHv|sp l IH] using type_expr_ind; cbn in *; try lia.
  assert (sum_list_with sig_steps l <= 2 * sum_list_with type_size l); [|lia].
  induction IH; cbn in *; lia.
Qed.

Lemma typeSignature_spec t b : typeSignature t b = signature t b.
Proof.
  unfold typeSignature. replace (2 * type_size t) with (sig_steps t + (2 * type_size t - sig_steps t))
    by (pose proof (sig_steps_le t); lia).
  rewrite sig_loop_run. unfold after. destruct (signature t b) as [s|e]; [|done].
  by destruct (2 * type_size t - sig_steps t).
Qed.

(** ** Compatibility is equality up to positions *)
Inductive Shape :=
| SName (name : string)
| SList (t : Shape)
| SOptional (t : Shape)
| SMap (k v : Shape)
| SUnion (ts : list Shape).

Fixpoint shape (t : TypeExpr) : Shape :=
  match t with
  | NamedTypeExpr _ p => SName (trim_space (path_Raw p))
  | ListTypeExpr _ t => SList (shape t)
  | OptionalTypeExpr _ t => SOptional (shape t)
  | MapTypeExpr _ k v => SMap (shape k) (shape v)
  | UnionTypeExpr _ ts => SUnion (map shape ts)
  end.

(** A name without the punctuation of signatures. *)
Definition sig_delimiter (a : ascii) : bool := bool_decide (a ∈ ["<"; ">"; ","; "|"; ":"]%char).
Fixpoint clean (s : string) : bool :=
  match s with EmptyString => true | String a s' => negb (sig_delimiter a) && clean s' end.
Fixpoint clean_names (t : TypeExpr) : bool :=
  match t with
  | NamedTypeExpr _ p => clean (trim_space (path_Raw p))
  | ListTypeExpr _ t | OptionalTypeExpr _ t => clean_names t
  | MapTypeExpr _ k v => clean_names k && clean_names v
  | UnionTypeExpr _ ts => forallb clean_names ts
  end.

(** What may follow a word, and a signature. *)
Definition word_end (s : string) : Prop :=
  match s with EmptyString => True | String a _ => sig_delimiter a = true end.
Definition sig_end (s : string) : Prop :=
  match s with EmptyString => True | String a _ => a ∈ [">"; ","; "|"]%char end.

Lemma word_unique w1 w2 x1 x2 : clean w1 = true → clean w2 = true → word_end x1 → word_end x2 →
  w1 +:+ x1 = w2 +:+ x2 → w1 = w2 ∧ x1 = x2.
Proof.
  revert w2. induction w1 as [|a w1 IH]; intros [|b w2]; rewrite ?str_app_nil_l, ?str_app_cons; cbn.
  - done.
  - intros _ [Hb%negb_true_iff _]%andb_true_iff Hx _ ->. cbn in Hx. congruence.
  - intros [Ha%negb_true_iff _]%andb_true_iff _ _ Hx <-. cbn in Hx. congruence.
  - intros [_ H1]%andb_true_iff [_ H2]%andb_true_iff Hx1 Hx2 [= -> H].
    by destruct (IH w2 H1 H2 Hx1 Hx2 H) as [-> ->].
Qed.

(** The word a signature starts with and what follows it. *)
Definition sig_parts (t : TypeExpr) (b : bool) (r w x : string) : Prop :=
  match t with
  | NamedTypeExpr _ p =>
      let name := trim_space (path_Raw p) in
      if b && isEnumLiteralName name then w = "enum" ∧ x = ":" +:+ name +:+ r else w = name ∧ x = r
  | ListTypeExpr _ u => w = "list" ∧ ∃ c, signature u false = Ok c ∧ x = "<" +:+ c +:+ ">" +:+ r
  | OptionalTypeExpr _ u => w = "optional" ∧ ∃ c, signature u false = Ok c ∧ x = "<" +:+ c +:+ ">" +:+ r
  | MapTypeExpr _ k v => w = "map" ∧ ∃ c d, signature k false = Ok c ∧ signature v false = Ok d ∧
      x = "<" +:+ c +:+ "," +:+ d +:+ ">" +:+ r
  | UnionTypeExpr _ l => w = "union" ∧ ∃ cs, map_result (λ u, signature u true) l = Ok cs ∧ l ≠ [] ∧
      x = "<" +:+ String.concat "|" cs +:+ ">" +:+ r
  end.

Lemma sig_end_word r : sig_end r → word_end r.
Proof. destruct r as [|a r]; [done|]. cbn. rewrite !elem_of_cons, elem_of_nil. by intros [->|[->|[->|[]]]]. Qed.

Lemma sig_split t b s r : signature t b = Ok s → clean_names t = true → sig_end r →
  ∃ w x, s +:+ r = w +:+ x ∧ clean w = true ∧ word_end x ∧ sig_parts t b r w x.
Proof.
  intros Hs Hc Hr. destruct t as [sp p|sp u|sp u|sp k v|sp l]; cbn in Hs, Hc.
  - case_bool_decide; [done|]. injection Hs as <-. unfold name_sig. cbn.
    destruct (b && isEnumLiteralName _) eqn:Hb.
    + exists "enum", (":" +:+ trim_space (path_Raw p) +:+ r). rewrite !str_app_assoc.
      split_and!; cbn; rewrite ?Hb; done.
    + eexists _, r. split_and!; cbn; rewrite ?Hb; auto using sig_end_word.
  - apply rbind_ok in Hs as (c & Hc' & [= <-]). exists "list", ("<" +:+ c +:+ ">" +:+ r).
    rewrite !str_app_assoc. split; [done|]. split; [done|]. split; [done|]. split; eauto.
  - apply rbind_ok in Hs as (c & Hc' & [= <-]). exists "optional", ("<" +:+ c +:+ ">" +:+ r).
    rewrite !str_app_assoc. split; [done|]. split; [done|]. split; [done|]. split; eauto.
  - apply rbind_ok in Hs as (c & Hk & (d & Hv & [= <-])%rbind_ok).
    exists "map", ("<" +:+ c +:+ "," +:+ d +:+ ">" +:+ r). rewrite !str_app_assoc.
    split; [done|]. split; [done|]. split; [done|]. split; eauto 10.
  - destruct l as [|t l]; [done|]. apply rbind_ok in Hs as (cs & Hcs & [= <-]).
    exists "union", ("<" +:+ String.concat "|" cs +:+ ">" +:+ r). rewrite !str_app_assoc.
    split; [done|]. split; [done|]. split; [done|]. split; eauto 10.
Qed.

Definition inj_at (t : TypeExpr) : Prop := ∀ b u s1 s2 r1 r2, clean_names t = true → clean_names u = true →
  signature t b = Ok s1 → signature u b = Ok s2 → sig_end r1 → sig_end r2 → s1 +:+ r1 = s2 +:+ r2 →
  shape t = shape u ∧ r1 = r2.

Lemma concat_cons c cs r : String.concat "|" (c :: cs) +:+ r =
  c +:+ match cs with [] => r | _ => "|" +:+ String.concat "|" cs +:+ r end.
Proof. destruct cs as [|d cs]; [done|]. cbn [String.concat]. by rewrite !str_app_assoc. Qed.

Lemma union_injective l1 : Forall inj_at l1 → ∀ l2 cs1 cs2 r1 r2,
  forallb clean_names l1 = true → forallb clean_names l2 = true → l1 ≠ [] → l2 ≠ [] →
  map_result (λ u, signature u true) l1 = Ok cs1 → map_result (λ u, signature u true) l2 = Ok cs2 →
  String.concat "|" cs1 +:+ ">" +:+ r1 = String.concat "|" cs2 +:+ ">" +:+ r2 →
  map shape l1 = map shape l2 ∧ r1 = r2.
Proof.
  induction 1 as [|t l1 Ht _ IH]; intros [|u l2] cs1 cs2 r1 r2; try done.
  intros [Ct C1]%andb_true_iff [Cu C2]%andb_true_iff _ _ (c1 & Hc1 & (ds1 & Hd1 & [= <-])%rbind_ok)%rbind_ok
    (c2 & Hc2 & (ds2 & Hd2 & [= <-])%rbind_ok)%rbind_ok.
  rewrite !concat_cons. intros H.
  pose proof (map_result_length _ _ _ Hd1) as L1. pose proof (map_result_length _ _ _ Hd2) as L2.
  eapply (Ht true u c1 c2) in H as [Hsh Hr]; eauto; [|destruct ds1; cbn; set_solver|destruct ds2; cbn; set_solver].
  cbn. rewrite Hsh. destruct ds1 as [|d1 ds1], ds2 as [|d2 ds2].
  - destruct l1, l2; try done. injection Hr as Hr. cbn in Hr. by subst.
  - done.
  - done.
  - destruct l1 as [|t' l1], l2 as [|u' l2]; try done.
    injection Hr as Hr. rewrite !str_app_nil_l in Hr.
    destruct (IH (u' :: l2) (d1 :: ds1) (d2 :: ds2) r1 r2) as [-> ->]; done.
Qed.

Lemma inj_close t u b a c d r1 r2 : inj_at t → a ∈ [">"; ","; "|"]%char →
  clean_names t = true → clean_names u = true → signature t b = Ok c → signature u b = Ok d →
  c +:+ String a EmptyString +:+ r1 = d +:+ String a EmptyString +:+ r2 → shape t = shape u ∧ r1 = r2.
Proof.
  intros Ht Ha Ct Cu Hc Hd H. eapply Ht in H as [Hs Hr]; eauto. split; [done|].
  injection Hr as Hr. by rewrite !str_app_nil_l in Hr.
Qed.

Ltac split_parts :=
  repeat match goal with
  | H : _ ∧ _ |- _ => destruct H
  | H : ∃ _, _ |- _ => destruct H
  end.

Lemma sig_injective t : inj_at t.
Proof.
  induction t as [sp p|sp t IH|sp t IH|sp k v IHk IHv|sp l IH] using type_expr_ind;
    intros b u s1 s2 r1 r2 Ct Cu H1 H2 Hr1 Hr2 Heq.
  all: destruct (sig_split _ _ _ r1 H1 Ct Hr1) as (w1 & x1 & E1 & W1 & X1 & P1).
  all: destruct (sig_split _ _ _ r2 H2 Cu Hr2) as (w2 & x2 & E2 & W2 & X2 & P2).
  all: rewrite E1, E2 in Heq; apply word_unique in Heq as [<- <-]; auto.
  all: destruct u as [spu q|spu u|spu u|spu ku vu|spu lu]; cbn in P1, P2, Ct, Cu.
  all: repeat case_match; split_parts; simplify_eq/=.
  all: try match goal with H : _ ∈ [_; _; _] |- _ => exfalso; set_solver end.
  - by apply word_unique in H4 as [-> ->]; auto using sig_end_word.
  - split; [by f_equal|done].
  - eapply inj_close in H5 as [-> ->]; eauto. set_solver.
  - eapply inj_close in H5 as [-> ->]; eauto. set_solver.
  - apply andb_true_iff in Ct as [Ck Cv], Cu as [Cku Cvu].
    destruct (inj_close k ku false "," x2 x (x3 +:+ ">" +:+ r1) (x0 +:+ ">" +:+ r2)) as [-> Hv];
      [done|set_solver|done..|].
    destruct (inj_close v vu false ">" x3 x0 r1 r2) as [-> ->]; [done|set_solver|done..].
  - by eapply union_injective in H6 as [-> ->]; eauto.
Qed.

Lemma signature_shape t u b : shape t = shape u →
  (∃ s, signature t b = Ok s ∧ signature u b = Ok s) ∨ (∃ e f, signature t b = Err e ∧ signature u b = Err f).
Proof.
  revert b u. induction t as [sp p|sp t IH|sp t IH|sp k v IHk IHv|sp l IH] using type_expr_ind;
    intros b [spu q|spu u|spu u|spu ku vu|spu lu]; try done; cbn; intros [= H].
  - rewrite H. case_bool_decide; eauto.
  - destruct (IH false u H) as [(s & -> & ->)|(e & f & -> & ->)]; cbn; eauto.
  - destruct (IH false u H) as [(s & -> & ->)|(e & f & -> & ->)]; cbn; eauto.
  - destruct (IHk false ku) as [(s & -> & ->)|(e & f & -> & ->)]; cbn; eauto.
    destruct (IHv false vu) as [(s' & -> & ->)|(e & f & -> & ->)]; cbn; eauto.
  - assert (∀ l lu, Forall (λ t, ∀ b u, shape t = shape u →
      (∃ s, signature t b = Ok s ∧ signature u b = Ok s) ∨ (∃ e f, signature t b = Err e ∧ signature u b = Err f)) l →
      map shape l = map shape lu →
      (∃ cs, map_result (λ u, signature u true) l = Ok cs ∧ map_result (λ u, signature u true) lu = Ok cs) ∨
      (∃ e f, map_result (λ u, signature u true) l = Err e ∧ map_result (λ u, signature u true) lu = Err f)) as Hl.
    { clear. intros l lu HF. revert lu. induction HF as [|t l Ht _ IH]; intros [|u lu]; cbn; try done; [eauto|].
      intros [= Htu Hll]. destruct (Ht true u Htu) as [(s & -> & ->)|(e & f & -> & ->)]; cbn; eauto.
      destruct (IH lu Hll) as [(cs & -> & ->)|(e & f & -> & ->)]; cbn; eauto. }
    destruct (Hl l lu IH H) as [(cs & Hc & Hd)|(e & f & Hc & Hd)]; destruct l, lu; try done; eauto.
    + left. cbn -[map_result]. rewrite Hc, Hd. cbn. eauto.
    + right. cbn -[map_result]. rewrite Hc, Hd. cbn. eauto.
Qed.

Lemma valid_has_signature ts t : ∀ b, valid_type ts t b = None → ∃ s, signature t b = Ok s.
Proof.
  induction t as [sp p|sp t IH|sp t IH|sp k v IHk IHv|sp l IH] using type_expr_ind; intros b; cbn.
  - case_bool_decide; [done|]. eauto.
  - intros [s ->]%IH. cbn. eauto.
  - intros [s ->]%IH. cbn. eauto.
  - unfold then_err. destruct (valid_type ts k false) eqn:Hk; [done|].
    intros [d Hd]%IHv. destruct (IHk false Hk) as [c Hc]. rewrite Hc, Hd. cbn. eauto.
  - destruct l as [|t l]; [done|]. intros HN. apply first_err_None in HN.
    assert (∃ cs, map_result (λ u, signature u true) (t :: l) = Ok cs) as [cs Hcs].
    { revert IH HN. generalize (t :: l). clear. intros l IH HN. induction IH as [|t l Ht _ IH]; [by eexists|].
      apply Forall_cons in HN as [H1 H2]. destruct (Ht true H1) as [s Hs], (IH H2) as [cs Hcs].
      cbn. rewrite Hs. cbn. rewrite Hcs. by eexists. }
    rewrite Hcs. by eexists.
Qed.

(** two types are compatible exactly when both are valid and they are equal up to
    positions and blanks around names, for names without the punctuation of signatures. *)
Theorem compatible_exact ts expected actual :
  clean_names expected = true → clean_names actual = true →
  OK (Compatible ts expected actual) = true ↔
  validateTypeExpr ts expected false = None ∧ validateTypeExpr ts actual false = None ∧
  shape expected = shape actual.
Proof.
  intros Ce Ca. unfold Compatible. rewrite !validateTypeExpr_spec, !typeSignature_spec.
  destruct (valid_type ts expected false) eqn:Ve; [naive_solver|].
  destruct (valid_type ts actual false) eqn:Va; [naive_solver|].
  destruct (valid_has_signature _ _ _ Ve) as [s Hs], (valid_has_signature _ _ _ Va) as [s' Hs'].
  rewrite Hs, Hs'. case_bool_decide as Heq; cbn.
  - subst s'. destruct (sig_injective expected false actual s s EmptyString EmptyString) as [Hsh _]; done.
  - split; [done|]. intros (_ & _ & Hsh).
    destruct (signature_shape _ _ false Hsh) as [(x & Hx & Hy)|(? & ? & ? & ?)]; congruence.
Qed.
