(* ===== verification/RecipeVocabulary.v ===== *)
(** * The tool vocabulary of recipes

    named/euclo/thoughtrecipes/vocabulary.go: resolution of the tool names a recipe
    declares, with suggestions by edit distance; types.go and step_capability.go: the tool
    scope of a step and the registry view it runs with.  The capability registry is a
    record of operations ([ToolVocabularyLookup]). *)
From S2P Require Import Prelude GoStrings Policy Selector RecipeNames.

Local Open Scope nat_scope.

(** The registry; the second refinement is optional. *)
Record ToolVocabularyLookup := {
  GetCapability : string → option CapabilityDescriptor;
  CallableCapabilityNames : list string;
  ModelCallableToolNames : option (list string)
}.

(** ** Edit distance *)
Fixpoint bytes (s : string) : list ascii :=
  match s with EmptyString => [] | String a s' => a :: bytes s' end.

Definition min3 (a b c : nat) : nat :=
  let a := if b <? a then b else a in if c <? a then c else a.

(** The inner loop: [left] is [curr[j-1]], [prev] starts at [prev[j-1]]. *)
Fixpoint lev_row (x : ascii) (b : list ascii) (left : nat) (prev : list nat) : list nat :=
  match b, prev with
  | y :: b', p0 :: ((p1 :: _) as prev') =>
      let v := min3 (left + 1) (p1 + 1) (p0 + if bool_decide (x = y) then 0 else 1) in
      v :: lev_row x b' v prev'
  | _, _ => []
  end.

(** The outer loop, at row [i]. *)
Fixpoint lev_rows (i : nat) (a b : list ascii) (prev : list nat) : list nat :=
  match a with
  | [] => prev
  | x :: a' => lev_rows (S i) a' b (i :: lev_row x b i prev)
  end.

Definition levenshtein (a b : string) : nat :=
  if bool_decide (a = b) then 0
  else if bool_decide (a = EmptyString) then String.length b
  else if bool_decide (b = EmptyString) then String.length a
  else nth (String.length b) (lev_rows 1 (bytes a) (bytes b) (seq 0 (S (String.length b)))) 0.

Definition maxDistance : nat := 3.
Definition maxSuggestions : nat := 5.

(** The loop stops at the fifth suggestion. *)
Definition nearestVocabularyNames (name : string) (known : list string) : list string :=
  take maxSuggestions (filter (λ c, levenshtein name c <= maxDistance) known).

(** ** Declared names *)
Definition ErrUnresolvedToolName (recipe step tool : string) (nearest : list string) : gerror :=
  let msg := sprintf "recipe %q step %q: may invoke %q does not resolve in the capability registry" [recipe; step; tool] in
  ErrMsg (if bool_decide (nearest = []) then msg
          else msg +:+ sprintf " (nearest: %s)" [String.concat ", " nearest]).

Definition skipped_name (name : string) : bool :=
  bool_decide (name = EmptyString) || bool_decide (name = KeyDenyAll).

Fixpoint resolve_names (recipe step : string) (lookup : ToolVocabularyLookup) (seen : gset string)
    (names : list string) : option gerror :=
  match names with
  | [] => None
  | raw :: names' =>
      let name := trim_space raw in
      if skipped_name name then resolve_names recipe step lookup seen names'
      else if bool_decide (name ∈ seen) then resolve_names recipe step lookup seen names'
      else match GetCapability lookup name with
           | Some _ => resolve_names recipe step lookup ({[name]} ∪ seen) names'
           | None => Some (ErrUnresolvedToolName recipe step name
                             (nearestVocabularyNames name (CallableCapabilityNames lookup)))
           end
  end.

Definition ResolveDeclaredToolNames (recipe step : string) (names : list string)
    (lookup : option ToolVocabularyLookup) : option gerror :=
  match lookup with None => None | Some lk => resolve_names recipe step lk ∅ names end.

Fixpoint find_non_callable (lookup : ToolVocabularyLookup) (callable seen : gset string) (names : list string)
    : list string :=
  match names with
  | [] => []
  | raw :: names' =>
      let name := trim_space raw in
      if skipped_name name || bool_decide (name ∈ seen) then find_non_callable lookup callable seen names'
      else
        let rest := find_non_callable lookup callable ({[name]} ∪ seen) names' in
        match GetCapability lookup name with
        | None => rest
        | Some _ => if bool_decide (name ∈ callable) then rest else name :: rest
        end
  end.

Definition FindNonCallableDeclaredTools (names : list string) (lookup : option ToolVocabularyLookup) : list string :=
  match lookup with
  | Some lk =>
      match ModelCallableToolNames lk with
      | Some callable => find_non_callable lk (list_to_set (trim_space <$> callable)) ∅ names
      | None => []
      end
  | None => []
  end.

(** ** The tool scope of a step (types.go) *)
Record ResolvedToolScope := { allowed : list string; resolved : bool; denyAll : bool; allowAll : bool }.

Definition zero_scope : ResolvedToolScope :=
  {| allowed := []; resolved := false; denyAll := false; allowAll := false |}.
Definition DenyAllToolScope : ResolvedToolScope :=
  {| allowed := []; resolved := true; denyAll := true; allowAll := false |}.
Definition AllowTools (names : list string) : ResolvedToolScope :=
  {| allowed := names; resolved := true; denyAll := false; allowAll := false |}.
Definition AllowAll : ResolvedToolScope :=
  {| allowed := []; resolved := true; denyAll := false; allowAll := true |}.

Definition AllowedToolNames (s : ResolvedToolScope) : list string :=
  if negb (resolved s) || denyAll s || allowAll s then [] else allowed s.
Definition IsDenyAll (s : ResolvedToolScope) : bool := denyAll s || negb (resolved s).

Definition Permits (s : ResolvedToolScope) (toolName : string) : bool :=
  if negb (resolved s) || denyAll s then false
  else if allowAll s then true
  else bool_decide (toolName ∈ allowed s).

Definition scopeSentinelDenyAll : string := "__deny_all__".
Definition scopeSentinelAllowAll : string := "__allow_all__".

(** The JSON value: [null] or a list of strings. *)
Definition scope_marshal (s : ResolvedToolScope) : option (list string) :=
  if denyAll s then Some [scopeSentinelDenyAll]
  else if allowAll s then Some [scopeSentinelAllowAll]
  else if negb (resolved s) || bool_decide (allowed s = []) then None
  else Some (allowed s).

Definition scope_unmarshal (names : option (list string)) : ResolvedToolScope :=
  match names with
  | None => AllowTools []
  | Some ns =>
      if bool_decide (ns = [scopeSentinelDenyAll]) then DenyAllToolScope
      else if bool_decide (ns = [scopeSentinelAllowAll]) then AllowAll
      else AllowTools ns
  end.

(** ** The registry view of a step (step_capability.go) *)

(** [effectiveToolAllowlist] with a registry. *)
Fixpoint resolve_allowed (step : string) (lk : ToolVocabularyLookup) (seen : gset string) (names : list string)
    : result (list string) :=
  match names with
  | [] => Ok []
  | raw :: names' =>
      let name := trim_space raw in
      if bool_decide (name = EmptyString) then resolve_allowed step lk seen names'
      else match GetCapability lk name with
           | Some d =>
               if bool_decide (desc_ID d = EmptyString) then
                 Err (ErrUnresolvedToolName EmptyString step name
                        (nearestVocabularyNames name (CallableCapabilityNames lk)))
               else if bool_decide (desc_ID d ∈ seen) then resolve_allowed step lk seen names'
               else let! ids := resolve_allowed step lk ({[desc_ID d]} ∪ seen) names' in Ok (desc_ID d :: ids)
           | None =>
               Err (ErrUnresolvedToolName EmptyString step name
                      (nearestVocabularyNames name (CallableCapabilityNames lk)))
           end
  end.

Definition effectiveToolAllowlist (step : string) (s : ResolvedToolScope) (lk : ToolVocabularyLookup)
    : result (list string) :=
  if IsDenyAll s then Ok [KeyDenyAll]
  else match AllowedToolNames s with
       | [] => Ok []
       | names =>
           let! ids := resolve_allowed step lk ∅ names in
           Ok (if bool_decide (ids = []) then [KeyDenyAll] else ids)
       end.

(** [None]: [ErrNoCapabilityScope], at which the callers keep the unscoped registry. *)
Definition scopedRegistry (step : string) (s : ResolvedToolScope) (lk : ToolVocabularyLookup)
    : result (option (list string)) :=
  let! ids := effectiveToolAllowlist step s lk in
  Ok (if bool_decide (ids = []) then None else Some ids).

(** [isAllowlisted] of the view ([WithAllowlist] ignores empty ids, and without any other id
    returns the registry itself). *)
Definition view_allows (view : option (list string)) (id : string) : bool :=
  match view with
  | None => true
  | Some ids =>
      let allowlist := filter (λ i, i ≠ EmptyString) ids in
      bool_decide (allowlist = []) || bool_decide (id ∈ allowlist)
  end.

(** The capability ids the step can invoke. *)
Definition step_allows (step : string) (s : ResolvedToolScope) (lk : ToolVocabularyLookup) (id : string) : result bool :=
  let! view := scopedRegistry step s lk in Ok (view_allows view id).
