(* ===== verification/RecipeVocabularySafety.v ===== *)
(** * The tool vocabulary of recipes: properties

    The two-row computation of [levenshtein] is the least number of edits; a recipe's
    declared names are accepted exactly when all resolve; the registry view of a step. *)
From S2P Require Import Prelude GoStrings Policy Selector RecipeNames RecipeVocabulary.

Local Open Scope nat_scope.

(** ** Edits *)

(** [edits a b n]: [n] insertions, deletions and substitutions turn [a] into [b]. *)
Inductive edits : list ascii → list ascii → nat → Prop :=
| edits_nil : edits [] [] 0
| edits_keep x a b n : edits a b n → edits (x :: a) (x :: b) n
| edits_subst x y a b n : edits a b n → edits (x :: a) (y :: b) (S n)
| edits_insert y a b n : edits a b n → edits a (y :: b) (S n)
| edits_delete x a b n : edits a b n → edits (x :: a) b (S n).
Create HintDb edits.
#[local] Hint Constructors edits : edits.

(** The recursive definition. *)
Fixpoint dist (a b : list ascii) : nat :=
  match a with
  | [] => length b
  | x :: a' =>
      (fix go (b : list ascii) : nat :=
         match b with
         | [] => length a
         | y :: b' => min3 (go b' + 1) (dist a' b + 1) (dist a' b' + if bool_decide (x = y) then 0 else 1)
         end) b
  end.

Lemma min3_spec a b c : min3 a b c = Nat.min a (Nat.min b c).
Proof. unfold min3. destruct (Nat.ltb_spec b a), (Nat.ltb_spec c a), (Nat.ltb_spec c b); lia. Qed.

Lemma dist_cons x a y b : dist (x :: a) (y :: b) =
  Nat.min (dist (x :: a) b + 1) (Nat.min (dist a (y :: b) + 1) (dist a b + if bool_decide (x = y) then 0 else 1)).
Proof. by rewrite <- min3_spec. Qed.

Lemma dist_nil_r a : dist a [] = length a.
Proof. by destruct a. Qed.

Lemma edits_insert_all b : edits [] b (length b).
Proof. induction b; cbn; eauto with edits. Qed.
Lemma edits_delete_all a : edits a [] (length a).
Proof. induction a; cbn; eauto with edits. Qed.

Lemma dist_reachable a : ∀ b, edits a b (dist a b).
Proof.
  induction a as [|x a IHa]; [apply edits_insert_all|]. induction b as [|y b IHb]; [apply edits_delete_all|].
  rewrite dist_cons. set (c := if bool_decide (x = y) then 0 else 1).
  assert (edits (x :: a) (y :: b) (dist a b + c)) as Hc.
  { unfold c. case_bool_decide; [subst; rewrite Nat.add_0_r|rewrite Nat.add_1_r]; eauto with edits. }
  destruct (Nat.min_spec (dist (x :: a) b + 1) (Nat.min (dist a (y :: b) + 1) (dist a b + c))) as [[_ ->]|[_ ->]].
  - rewrite Nat.add_1_r. auto with edits.
  - destruct (Nat.min_spec (dist a (y :: b) + 1) (dist a b + c)) as [[_ ->]|[_ ->]]; [|done].
    rewrite Nat.add_1_r. auto with edits.
Qed.

Lemma dist_least a b n : edits a b n → dist a b <= n.
Proof.
  induction 1 as [|x a b n _ IH|x y a b n _ IH|y a b n _ IH|x a b n _ IH]; [done|..].
  - rewrite dist_cons, bool_decide_true by done. lia.
  - rewrite dist_cons. case_bool_decide; lia.
  - destruct a as [|x a]; [cbn in *; lia|]. rewrite dist_cons. lia.
  - destruct b as [|y b]; [rewrite !dist_nil_r in *; cbn; lia|]. rewrite dist_cons. lia.
Qed.

Lemma edits_snoc_keep a b n x : edits a b n → edits (a ++ [x]) (b ++ [x]) n.
Proof. induction 1; cbn; eauto with edits. Qed.
Lemma edits_snoc_subst a b n x y : edits a b n → edits (a ++ [x]) (b ++ [y]) (S n).
Proof. induction 1; cbn; eauto with edits. Qed.
Lemma edits_snoc_insert a b n y : edits a b n → edits a (b ++ [y]) (S n).
Proof. induction 1; cbn; eauto with edits. Qed.
Lemma edits_snoc_delete a b n x : edits a b n → edits (a ++ [x]) b (S n).
Proof. induction 1; cbn; eauto with edits. Qed.

Lemma edits_rev a b n : edits a b n → edits (rev a) (rev b) n.
Proof.
  induction 1; cbn; auto using edits_snoc_keep, edits_snoc_subst, edits_snoc_insert, edits_snoc_delete, edits_nil.
Qed.

(** ** The rows *)

(** Row of the prefix [a] (reversed): distances to every prefix of [b]; [past] is the part
    of [b] passed, reversed. *)
Fixpoint row (a past b : list ascii) : list nat :=
  dist a past :: match b with [] => [] | y :: b' => row a (y :: past) b' end.

Lemma lev_row_spec x a past b :
  lev_row x b (dist (x :: a) past) (row a past b) = tail (row (x :: a) past b).
Proof.
  revert past. induction b as [|y b IH]; intros past; [done|].
  specialize (IH (y :: past)). cbn [row lev_row tail] in *. destruct b as [|y' b]; cbn [row] in *;
    rewrite min3_spec, <- dist_cons; [done|by f_equal].
Qed.

Lemma row_nil past b : row [] past b = seq (length past) (S (length b)).
Proof.
  revert past. induction b as [|y b IH]; intros past; [done|]. cbn [row length seq].
  f_equal. by rewrite (IH (y :: past)).
Qed.

Lemma lev_rows_spec a pre b :
  lev_rows (S (length pre)) a b (row pre [] b) = row (rev a ++ pre) [] b.
Proof.
  revert pre. induction a as [|x a IH]; intros pre; [done|]. cbn [lev_rows rev].
  rewrite <- app_assoc. cbn [app]. rewrite <- (IH (x :: pre)).
  f_equal. change (S (length pre)) with (dist (x :: pre) []). rewrite lev_row_spec. by destruct b.
Qed.

Lemma row_last a past b : nth (length b) (row a past b) 0 = dist a (rev b ++ past).
Proof.
  revert past. induction b as [|y b IH]; intros past; [done|]. cbn [length row nth rev].
  by rewrite IH, <- app_assoc.
Qed.

Lemma bytes_length s : length (bytes s) = String.length s.
Proof. induction s; cbn; auto. Qed.

Lemma dist_refl a : dist a a = 0.
Proof.
  assert (edits a a 0) as H by (induction a; eauto with edits). apply dist_least in H. lia.
Qed.

Lemma levenshtein_dist a b : levenshtein a b = dist (rev (bytes a)) (rev (bytes b)).
Proof.
  unfold levenshtein. case_bool_decide; [subst; by rewrite dist_refl|].
  case_bool_decide; [subst; cbn; by rewrite length_rev, bytes_length|].
  case_bool_decide; [subst; cbn; by rewrite dist_nil_r, length_rev, bytes_length|].
  rewrite <- (bytes_length b). pose proof (row_nil [] (bytes b)) as Hr. cbn [length] in Hr. rewrite <- Hr.
  pose proof (lev_rows_spec (bytes a) [] (bytes b)) as Hrows. cbn [length] in Hrows. rewrite Hrows.
  by rewrite row_last, !app_nil_r.
Qed.

(** the two-row computation returns the least number of byte insertions, deletions
    and substitutions that turn one name into the other. *)
Theorem levenshtein_exact a b :
  edits (bytes a) (bytes b) (levenshtein a b) ∧ ∀ n, edits (bytes a) (bytes b) n → levenshtein a b <= n.
Proof.
  rewrite levenshtein_dist. split.
  - pose proof (edits_rev _ _ _ (dist_reachable (rev (bytes a)) (rev (bytes b)))) as H.
    by rewrite !rev_involutive in H.
  - intros n Hn. by apply dist_least, edits_rev.
Qed.

(** ** Declared names *)
Definition resolves (lk : ToolVocabularyLookup) (raw : string) : Prop :=
  skipped_name (trim_space raw) = true ∨ is_Some (GetCapability lk (trim_space raw)).

Lemma resolve_names_spec recipe step lk seen names :
  (∀ n, n ∈ seen → is_Some (GetCapability lk n)) →
  resolve_names recipe step lk seen names = None ↔ Forall (resolves lk) names.
Proof.
  revert seen. induction names as [|raw names IH]; intros seen Hseen; cbn; [done|].
  rewrite Forall_cons. unfold resolves at 1. destruct (skipped_name _); [rewrite IH by done; naive_solver|].
  case_bool_decide as Hin.
  { rewrite IH by done. pose proof (Hseen _ Hin). naive_solver. }
  destruct (GetCapability lk (trim_space raw)) as [d|] eqn:Hg.
  - rewrite IH; [naive_solver|]. intros n [->%elem_of_singleton|Hn]%elem_of_union; [by eexists|auto].
  - split; [done|]. intros [[?|[? ?]] _]; congruence.
Qed.

Lemma declared_names_exact recipe step names lk :
  ResolveDeclaredToolNames recipe step names (Some lk) = None ↔ Forall (resolves lk) names.
Proof. apply resolve_names_spec. set_solver. Qed.

(** ** The view of a step *)
Lemma resolve_allowed_spec step lk names : ∀ seen ids id, resolve_allowed step lk seen names = Ok ids →
  id ∈ ids ↔ (id ∉ seen) ∧ (∃ raw d, raw ∈ names ∧ trim_space raw ≠ EmptyString ∧
    GetCapability lk (trim_space raw) = Some d ∧ desc_ID d = id ∧ id ≠ EmptyString).
Proof.
  induction names as [|raw names IH]; intros seen ids id; cbn.
  { intros [= <-]. rewrite elem_of_nil. set_solver. }
  case_bool_decide as Hb.
  { intros Hr. rewrite (IH _ _ _ Hr). set_solver. }
  destruct (GetCapability lk (trim_space raw)) as [d|] eqn:Hg; [|done].
  case_bool_decide as Hd; [done|]. case_bool_decide as Hs.
  - intros Hr. rewrite (IH _ _ _ Hr). split; [set_solver|].
    intros (Hid & raw' & d' & [->|Hin]%elem_of_cons & ? & Hg' & ? & ?); [|set_solver].
    rewrite Hg in Hg'. injection Hg' as <-. congruence.
  - intros (ids' & Hr & [= <-])%rbind_ok. rewrite elem_of_cons, (IH _ _ _ Hr). split.
    + intros [->|(Hid & H)]; [set_solver|]. split; [set_solver|]. set_solver.
    + intros (Hid & raw' & d' & [->|Hin]%elem_of_cons & ? & Hg' & ? & ?).
      * rewrite Hg in Hg'. injection Hg' as <-. by left.
      * destruct (decide (id = desc_ID d)); [by left|]. right. set_solver.
Qed.

(** The ids a scope names through the registry. *)
Definition names_id (s : ResolvedToolScope) (lk : ToolVocabularyLookup) (id : string) : Prop :=
  ∃ raw d, raw ∈ allowed s ∧ trim_space raw ≠ EmptyString ∧ GetCapability lk (trim_space raw) = Some d ∧
    desc_ID d = id ∧ id ≠ EmptyString.

(** C21: a step whose scope declares tools runs with a registry view that admits exactly the
    capabilities its names resolve to (the reserved deny-all id apart, which no registry
    holds); an unresolved name is an error, and a denying scope admits nothing. *)
Theorem step_view_exact step s lk b id :
  step_allows step s lk id = Ok b → id ≠ KeyDenyAll →
  (IsDenyAll s = true → b = false) ∧
  (IsDenyAll s = false → allowAll s = false → allowed s ≠ [] → (b = true ↔ names_id s lk id)).
Proof.
  unfold step_allows, scopedRegistry, effectiveToolAllowlist, IsDenyAll.
  destruct (denyAll s || negb (resolved s)) eqn:Hd.
  { cbn. intros [= <-] Hid. split; [|done]. intros _. rewrite bool_decide_false by set_solver. done. }
  apply orb_false_iff in Hd as [Hd1 Hd2]. intros (view & (ids & Hids & [= <-])%rbind_ok & [= <-])%rbind_ok Hid.
  split; [done|]. intros _ Ha Hne. unfold AllowedToolNames in Hids. rewrite Hd1, Hd2, Ha in Hids. cbn in Hids.
  destruct (allowed s) as [|n ns] eqn:Hs; [done|].
  apply rbind_ok in Hids as (ids' & Hr & [= <-]). pose proof (λ id, resolve_allowed_spec step lk (n :: ns) ∅ ids' id Hr) as Hspec.
  unfold names_id. rewrite Hs. destruct (decide (ids' = [])) as [->|He].
  - cbn. rewrite orb_false_l, bool_decide_eq_true. set_solver.
  - rewrite (bool_decide_false (ids' = [])), bool_decide_false by done. cbn.
    assert (filter (λ i, i ≠ EmptyString) ids' = ids') as ->.
    { apply list_filter_all. intros i Hi. pose proof (Hspec i). set_solver. }
    rewrite bool_decide_false by done. rewrite orb_false_l, bool_decide_eq_true, Hspec. set_solver.
Qed.

(** The JSON form keeps what a scope permits, unless the sentinels are used as names. *)
Lemma scope_roundtrip s tool : s ∈ [zero_scope; DenyAllToolScope; AllowAll] ∨
    (∃ ns, s = AllowTools ns ∧ ns ≠ [scopeSentinelDenyAll] ∧ ns ≠ [scopeSentinelAllowAll]) →
  Permits (scope_unmarshal (scope_marshal s)) tool = Permits s tool.
Proof.
  intros [Hs|(ns & -> & H1 & H2)].
  - rewrite !elem_of_cons, elem_of_nil in Hs. by destruct Hs as [->|[->|[->|[]]]].
  - unfold scope_marshal, scope_unmarshal. cbn [AllowTools denyAll allowAll resolved allowed orb negb].
    destruct (decide (ns = [])) as [->|Hn]; [done|]. by rewrite !bool_decide_false.
Qed.

(** ** A scope without names *)

(** The truth table of [Permits] denies everything for it, but the step runs unscoped. *)
Theorem empty_scope_unrestricted step lk id tool :
  Permits (AllowTools []) tool = false ∧ step_allows step (AllowTools []) lk id = Ok true.
Proof. done. Qed.
