(* ===== verification/Paradigm.v ===== *)
(** * Paradigm contracts

    cognitionzoo/paradigm/contract.go: what a paradigm declares about its directives, the
    intrinsic consistency of a contract, and the registry of contracts. *)
From stdpp Require Import pretty.
From S2P Require Import Prelude GoStrings.

Local Open Scope Z_scope.

(** ** Vocabulary *)
Definition ValidExecutionShapes : list string :=
  ["Iterative"; "StagedPlan"; "Decomposition"; "ReviewLoop"; "Chain"; "Blackboard"; "Linear"; "PlanExecute"].
Definition FormLine : string := "line".
Definition FormBlock : string := "block".
Definition ArgCards : list string := ["none"; "one"; "many"].
Definition ValidBodyItems : list string :=
  ["run"; "delegate"; "do"; "capture"; "directive"; "from"; "goal"; "stream"; "may"].

(** ** Contracts *)
Record DirectiveSpec := {
  spec_Name : string; spec_Form : string; spec_Text : string; spec_Predicate : bool; ArgsInteger : bool;
  spec_Body : list string; Repeatable : bool; Required : bool; Requires : list string
}.
Record ConformanceCase := { case_ID : string; case_Directive : string; Assertion : string; FixtureShape : string }.

(** [Order]: the sequence of the order rule. *)
Record Contract := {
  Paradigm : string; Summary : string; con_Shape : string; Directives : list DirectiveSpec;
  Composes : list string; Guarantees : list string; Conformance : list ConformanceCase;
  Order : option (list string)
}.

(** The first spec of that name. *)
Definition Directive (c : Contract) (name : string) : option DirectiveSpec :=
  head (filter (λ s, spec_Name s = name) (Directives c)).
Definition DirectiveNames (c : Contract) : list string := spec_Name <$> Directives c.
Definition RequiredNames (c : Contract) : list string :=
  spec_Name <$> filter (λ s, Required s = true) (Directives c).

(** ** Intrinsic consistency *)
Definition errorf (format : string) (args : list string) : gerror := ErrFmt format args.

(** The errors of one directive, given the names seen before it. *)
Definition directive_errors (seen : gset string) (s : DirectiveSpec) : list gerror :=
  let name := trim_space (spec_Name s) in
  (if bool_decide (name ∈ seen) then [errorf "duplicate directive %q" [name]] else []) ++
  (if bool_decide (spec_Form s ∈ [FormLine; FormBlock]) then []
   else [errorf "directive %q has invalid form %q" [name; spec_Form s]]) ++
  (if bool_decide (spec_Text s ∈ ArgCards) then []
   else [errorf "directive %q has invalid arg card %q" [name; spec_Text s]]) ++
  ((λ b, errorf "directive %q allows invalid body item %q" [name; b]) <$>
     filter (λ b, b ∉ ValidBodyItems) (spec_Body s)).

(** The first loop: its errors and the names it has seen. *)
Fixpoint directives_errors (seen : gset string) (ds : list DirectiveSpec) : list gerror * gset string :=
  match ds with
  | [] => ([], seen)
  | s :: ds' =>
      let name := trim_space (spec_Name s) in
      if bool_decide (name = EmptyString) then
        let '(es, seen') := directives_errors seen ds' in
        (errorf "directive with empty name" [] :: es, seen')
      else
        let '(es, seen') := directives_errors ({[name]} ∪ seen) ds' in
        (directive_errors seen s ++ es, seen')
  end.

(** The conformance cases: errors and the directives pinned; [ids] are those seen. *)
Fixpoint cases_errors (declared ids : gset string) (cs : list ConformanceCase) : list gerror * gset string :=
  match cs with
  | [] => ([], ∅)
  | c :: cs' =>
      if bool_decide (trim_space (case_ID c) = EmptyString) then
        let '(es, pinned) := cases_errors declared ids cs' in
        (errorf "conformance case with empty ID" [] :: es, pinned)
      else
        let dup := if bool_decide (case_ID c ∈ ids) then [errorf "duplicate conformance case ID %q" [case_ID c]] else [] in
        let '(es, pinned) := cases_errors declared ({[case_ID c]} ∪ ids) cs' in
        let directive := trim_space (case_Directive c) in
        if bool_decide (directive = EmptyString) then (dup ++ es, pinned)
        else if bool_decide (directive ∈ declared) then (dup ++ es, {[directive]} ∪ pinned)
        else (dup ++ errorf "conformance case %q pins undeclared directive %q" [case_ID c; directive] :: es, pinned)
  end.

Definition validateConformanceCases (c : Contract) : list gerror :=
  let '(es, pinned) := cases_errors (list_to_set (DirectiveNames c)) ∅ (Conformance c) in
  es ++ ((λ s, errorf "directive %q has no conformance case" [spec_Name s]) <$>
           filter (λ s, spec_Name s ∉ pinned) (Directives c)).

Definition validateContractIntrinsic (c : Contract) : list gerror :=
  let '(es, seen) := directives_errors ∅ (Directives c) in
  (if bool_decide (con_Shape c ∈ ValidExecutionShapes) then [] else [errorf "unknown execution shape %q" [con_Shape c]]) ++
  es ++
  (Directives c ≫= λ s, (λ r, errorf "directive %q requires undeclared directive %q" [spec_Name s; r]) <$>
     filter (λ r, r ∉ seen) (Requires s)) ++
  ((λ n, errorf "order rule references undeclared directive %q" [n]) <$>
     filter (λ n, n ∉ seen) (default [] (Order c))) ++
  ((λ _, errorf "composes entry must be a paradigm name" []) <$>
     filter (λ p, trim_space p = EmptyString) (Composes c)) ++
  validateConformanceCases c.

(** ** The registry *)
Record ContractRegistry := { byName : gmap string Contract; reg_order : list string }.
Definition NewContractRegistry : ContractRegistry := {| byName := ∅; reg_order := [] |}.

Definition Register (c : Contract) (r : ContractRegistry) : option gerror * ContractRegistry :=
  let name := trim_space (Paradigm c) in
  if bool_decide (name = EmptyString) then (Some (ErrMsg "paradigm contract requires a name"), r)
  else if negb (bool_decide (name = Paradigm c)) then
    (Some (ErrFmt "paradigm contract name %q must not carry leading/trailing whitespace" [Paradigm c]), r)
  else match validateContractIntrinsic c with
       | [] =>
           if bool_decide (is_Some (byName r !! name)) then
             (Some (ErrFmt "duplicate paradigm contract registration for %q" [name]), r)
           else (None, {| byName := <[name := c]> (byName r); reg_order := reg_order r ++ [name] |})
       | errs => (Some (ErrFmt "invalid %s paradigm contract: %s" [name; String.concat "; " (error_text <$> errs)]), r)
       end.

Definition Lookup (r : ContractRegistry) (name : string) : option Contract := byName r !! trim_space name.

Definition Names (r : ContractRegistry) : list string :=
  sort_stable String.le (filter (λ n, is_Some (byName r !! n)) (reg_order r)).
Definition paradigm_le (a b : Contract) : Prop := String.le (Paradigm a) (Paradigm b).
#[global] Instance paradigm_le_dec : RelDecision paradigm_le.
Proof. intros a b. unfold paradigm_le. apply _. Defined.
Definition All (r : ContractRegistry) : list Contract :=
  sort_stable paradigm_le (omap (byName r !!.) (reg_order r)).

(** ** Errors of the checks *)
Record ContractLocation := { loc_File : string; loc_Line : Z; loc_Column : Z }.
Definition no_location : ContractLocation := {| loc_File := EmptyString; loc_Line := 0; loc_Column := 0 |}.

Inductive ContractError :=
| ErrUnknownParadigm (paradigm : string) (valid : list string) (at_ : ContractLocation)
| ErrDirectiveNotInContract (paradigm directive : string) (valid : list string) (at_ : ContractLocation)
| ErrMissingRequiredDirective (paradigm directive : string) (at_ : ContractLocation)
| ErrDirectiveShape (paradigm directive problem : string) (at_ : ContractLocation)
| ErrDirectiveOrder (paradigm directive : string) (at_ : ContractLocation) (after : string) (afterAt : ContractLocation)
| ErrDirectiveRequires (paradigm directive requires : string) (at_ : ContractLocation).

Definition locationPrefix (l : ContractLocation) : string :=
  if is_blank (loc_File l) then EmptyString
  else sprintf "%s:%d:%d: " [loc_File l; pretty (loc_Line l); pretty (loc_Column l)].

Definition contract_error_text (e : ContractError) : string :=
  match e with
  | ErrUnknownParadigm p valid l =>
      locationPrefix l +:+ sprintf "unsupported agent paradigm %q; valid paradigms: %s" [p; String.concat ", " valid]
  | ErrDirectiveNotInContract p d valid l =>
      locationPrefix l +:+
      sprintf "directive %q is not declared by the %s paradigm contract; valid directives: %s"
        [d; p; String.concat ", " valid]
  | ErrMissingRequiredDirective p d l =>
      locationPrefix l +:+ sprintf "required directive %q is missing for the %s paradigm" [d; p]
  | ErrDirectiveShape p d problem l =>
      locationPrefix l +:+ sprintf "directive %q violates the %s paradigm contract: %s" [d; p; problem]
  | ErrDirectiveOrder p d l after al =>
      let label := if is_blank (loc_File al) then "declared earlier"
                   else sprintf "declared at %s:%d:%d" [loc_File al; pretty (loc_Line al); pretty (loc_Column al)] in
      locationPrefix l +:+
      sprintf "directive %q in the %s paradigm contract is out of order: it must appear before %q (%s)" [d; p; after; label]
  | ErrDirectiveRequires p d r l =>
      locationPrefix l +:+ sprintf "directive %q requires directive %q in the %s paradigm contract" [d; r; p]
  end.

(** ** What registration guarantees *)

(** A consistent contract, as a caller of [Lookup] relies on it. *)
Record consistent (c : Contract) : Prop := {
  con_shape : con_Shape c ∈ ValidExecutionShapes;
  con_nodup : NoDup (DirectiveNames c);
  con_trimmed : Forall (λ n, trim_space n = n ∧ n ≠ EmptyString) (DirectiveNames c);
  con_forms : Forall (λ s, spec_Form s ∈ [FormLine; FormBlock] ∧ spec_Text s ∈ ArgCards ∧
    Forall (.∈ ValidBodyItems) (spec_Body s) ∧ Forall (.∈ DirectiveNames c) (Requires s)) (Directives c);
  con_order : Forall (.∈ DirectiveNames c) (default [] (Order c));
  con_pinned : Forall (λ n, ∃ k, k ∈ Conformance c ∧ trim_space (case_Directive k) = n) (DirectiveNames c)
}.

Lemma filter_nil_inv {A} (P : A → Prop) `{!∀ x, Decision (P x)} l : filter P l = [] → Forall (λ x, ¬ P x) l.
Proof.
  intros Hnil. apply Forall_forall. intros x Hx HP. apply (elem_of_nil x). rewrite <- Hnil.
  by apply list_elem_of_filter.
Qed.

Lemma if_nil {A} (b : bool) (l : list A) x : (if b then [] else x :: l) = [] → b = true.
Proof. by destruct b. Qed.
Lemma if_nil' {A} (b : bool) (l : list A) x : (if b then x :: l else []) = [] → b = false.
Proof. by destruct b. Qed.

Definition well_formed (s : DirectiveSpec) : Prop :=
  spec_Form s ∈ [FormLine; FormBlock] ∧ spec_Text s ∈ ArgCards ∧ Forall (.∈ ValidBodyItems) (spec_Body s).

Lemma directive_errors_nil seen s : directive_errors seen s = [] →
  (trim_space (spec_Name s) ∉ seen) ∧ well_formed s.
Proof.
  unfold directive_errors. intros [H1 [H2 [H3 H4]%app_nil]%app_nil]%app_nil.
  apply if_nil' in H1. apply if_nil in H2, H3. bool_to_prop. unfold well_formed. split_and!; try done.
  apply fmap_nil_inv, filter_nil_inv in H4. eapply Forall_impl; [exact H4|].
  intros b Hb. cbn in Hb. by destruct (decide (b ∈ ValidBodyItems)).
Qed.

Lemma directives_errors_nil ds : ∀ seen seen', directives_errors seen ds = ([], seen') →
  seen' = list_to_set ((trim_space ∘ spec_Name) <$> ds) ∪ seen ∧
  NoDup ((trim_space ∘ spec_Name) <$> ds) ∧
  Forall (λ s, (trim_space (spec_Name s) ∉ seen) ∧ (trim_space (spec_Name s) ≠ EmptyString) ∧ well_formed s) ds.
Proof.
  induction ds as [|s ds IH]; intros seen seen'; cbn.
  { intros [= <-]. split_and!; [set_solver|constructor|constructor]. }
  case_bool_decide as He; [by destruct (directives_errors seen ds)|].
  destruct (directives_errors _ ds) as [es s2] eqn:Hd. intros [= [Hs Hes]%app_nil <-].
  apply directive_errors_nil in Hs as [Hn Hw]. subst es. apply IH in Hd as (-> & Hnd & HF).
  rewrite Forall_forall in HF. split_and!.
  - set_solver.
  - constructor; [|done]. intros (s' & Heq & Hin)%list_elem_of_fmap. apply HF in Hin as [Hin _]. cbn in Heq. set_solver.
  - constructor; [done|]. apply Forall_forall. intros x Hx. apply HF in Hx as (? & ? & ?). set_solver.
Qed.

Lemma cases_errors_nil declared cs : ∀ ids pinned, cases_errors declared ids cs = ([], pinned) →
  ∀ n, n ∈ pinned → ∃ k, k ∈ cs ∧ trim_space (case_Directive k) = n.
Proof.
  induction cs as [|c cs IH]; intros ids pinned; cbn; [intros [= <-]; set_solver|].
  case_bool_decide; [by destruct (cases_errors declared ids cs)|].
  destruct (cases_errors _ _ cs) as [es p] eqn:Hc. intros Heq n Hn.
  assert (es = [] ∧ (n = trim_space (case_Directive c) ∨ n ∈ p)) as [-> [->|Hp]].
  { repeat case_bool_decide; simplify_eq/=; try (by destruct es); set_solver. }
  - exists c. set_solver.
  - destruct (IH _ _ Hc n Hp) as (k & ? & ?). set_solver.
Qed.

Lemma intrinsic_consistent c : validateContractIntrinsic c = [] → consistent c.
Proof.
  unfold validateContractIntrinsic, validateConformanceCases.
  destruct (directives_errors ∅ (Directives c)) as [es seen] eqn:Hd.
  destruct (cases_errors _ ∅ (Conformance c)) as [cs pinned] eqn:Hc.
  intros [H1 [-> [H3 [H4 [_ [-> H6]%app_nil]%app_nil]%app_nil]%app_nil]%app_nil]%app_nil.
  apply if_nil in H1. apply directives_errors_nil in Hd as (-> & Hnd & HF).
  pose proof (cases_errors_nil _ _ _ _ Hc) as Hpin.
  apply fmap_nil_inv, filter_nil_inv in H4, H6.
  assert (Forall (λ n, trim_space n = n ∧ ∃ k, k ∈ Conformance c ∧ trim_space (case_Directive k) = n) (DirectiveNames c)) as Hn.
  { apply Forall_fmap. eapply Forall_impl; [exact H6|]. intros s Hs. cbn in Hs.
    destruct (Hpin (spec_Name s)) as (k & Hk & Hkn); [by destruct (decide (spec_Name s ∈ pinned))|].
    split; [|eauto]. rewrite <- Hkn. apply trim_space_idem. }
  assert ((trim_space ∘ spec_Name) <$> Directives c = DirectiveNames c) as Htr.
  { apply list_fmap_ext. intros i s Hs. rewrite Forall_forall in Hn. cbn.
    apply Hn. apply list_elem_of_fmap. exists s. split; [done|]. by eapply list_elem_of_lookup_2. }
  rewrite Htr in *. rewrite union_empty_r_L in *. rewrite Forall_forall in HF.
  split; try done.
  - by bool_to_prop.
  - apply Forall_forall. intros n Hin. rewrite Forall_forall in Hn. split; [by apply Hn|].
    apply list_elem_of_fmap in Hin as (s & -> & Hs). apply HF in Hs as Hs'. destruct Hs' as (_ & Hne & _).
    intros He. rewrite He in Hne. done.
  - apply Forall_forall. intros s Hs. destruct (HF s Hs) as (_ & _ & ? & ? & ?). split_and!; try done.
    apply Forall_forall. intros r Hr. destruct (decide (r ∈ DirectiveNames c)) as [|Hno]; [done|].
    exfalso. apply (elem_of_nil (errorf "directive %q requires undeclared directive %q" [spec_Name s; r])).
    rewrite <- H3. apply list_elem_of_bind. exists s. split; [|done]. apply list_elem_of_fmap.
    exists r. split; [done|]. apply list_elem_of_filter. set_solver.
  - eapply Forall_impl; [exact H4|]. intros n Hin. cbn in Hin. destruct (decide (n ∈ DirectiveNames c)); set_solver.
  - eapply Forall_impl; [exact Hn|]. by intros n [_ ?].
Qed.

Record registry_ok (r : ContractRegistry) : Prop := {
  ro_nodup : NoDup (reg_order r);
  ro_order : ∀ n, n ∈ reg_order r ↔ is_Some (byName r !! n);
  ro_contract : ∀ n c, byName r !! n = Some c → Paradigm c = n ∧ consistent c
}.

Lemma new_registry_ok : registry_ok NewContractRegistry.
Proof.
  split; cbn; [constructor| |by intros n c; rewrite lookup_empty].
  intros n. rewrite lookup_empty, elem_of_nil. split; [done|]. by intros [? ?].
Qed.

Lemma register_ok c r : registry_ok r → registry_ok (Register c r).2.
Proof.
  intros [Hnd Ho Hc]. unfold Register. case_bool_decide; [done|].
  case_bool_decide as Hn; [|done]. cbn. destruct (validateContractIntrinsic c) eqn:Hv; [|done].
  case_bool_decide as Hs; [done|]. cbn. rewrite Hn in *. split; cbn.
  - apply NoDup_app. split_and!; [done| |apply NoDup_singleton].
    intros n Hin ->%list_elem_of_singleton. by apply Hs, Ho.
  - intros n. rewrite elem_of_app, list_elem_of_singleton, Ho, lookup_insert_is_Some. destruct (decide (Paradigm c = n)); naive_solver.
  - intros n c'. rewrite lookup_insert_Some. intros [[<- <-]|[_ H']]; [|by apply Hc].
    split; [done|by apply intrinsic_consistent].
Qed.

Lemma registered_ok cs : registry_ok (foldl (λ r c, (Register c r).2) NewContractRegistry cs).
Proof.
  assert (∀ r, registry_ok r → registry_ok (foldl (λ r c, (Register c r).2) r cs)) as H'; [|apply H', new_registry_ok].
  induction cs as [|c cs IH]; intros r Hr; [done|]. cbn. by apply IH, register_ok.
Qed.

(** after any registrations, accepted or refused, what [Lookup] returns is a
    consistent contract under its own name, and [Names] lists exactly the names that [Lookup]
    knows, once each and sorted. *)
Theorem registry_invariant cs :
  let r := foldl (λ r c, (Register c r).2) NewContractRegistry cs in
  (∀ name c, Lookup r name = Some c → Paradigm c = trim_space name ∧ consistent c) ∧
  (∀ n, n ∈ Names r ↔ is_Some (byName r !! n)) ∧ NoDup (Names r) ∧ StronglySorted String.le (Names r).
Proof.
  intros r. destruct (registered_ok cs : registry_ok r) as [Hnd Ho Hc].
  assert (filter (λ n, is_Some (byName r !! n)) (reg_order r) = reg_order r) as Hf.
  { apply list_filter_all. intros n. by rewrite Ho. }
  unfold Names, Lookup. rewrite Hf. pose proof (sort_stable_Permutation String.le (reg_order r)) as Hp.
  split_and!.
  - intros name c Hl. by apply Hc.
  - intros n. by rewrite Hp, Ho.
  - by rewrite Hp.
  - apply sort_stable_sorted; apply _.
Qed.
