(* ===== verification/ParadigmContracts.v ===== *)
(** * The paradigms' contracts

    cognitionzoo/<paradigm>/contract.go: the contract each paradigm registers when its
    package is initialised, and named/euclo/surface/paradigm.go: the paradigms an agent may
    use. *)
From S2P Require Import Prelude GoStrings Paradigm.

(** ** The supported paradigms (surface) *)
Definition AllParadigms : list string :=
  ["react"; "planner"; "htn"; "reflection"; "blackboard"; "chainer"; "pipeline"; "rewoo"; "euclo"].
Definition AgentParadigms : list string :=
  ["react"; "planner"; "htn"; "reflection"; "blackboard"; "chainer"; "pipeline"; "rewoo"].
Definition IsSupported (p : string) : bool := bool_decide (p ∈ AgentParadigms).

(** ** Parts of contracts *)
Definition line_directive (name text : string) : DirectiveSpec :=
  {| spec_Name := name; spec_Form := FormLine; spec_Text := text; spec_Predicate := false; ArgsInteger := false;
     spec_Body := []; Repeatable := false; Required := false; Requires := [] |}.
Definition block_directive (name text : string) (predicate repeatable required : bool) (body requires : list string)
    : DirectiveSpec :=
  {| spec_Name := name; spec_Form := FormBlock; spec_Text := text; spec_Predicate := predicate; ArgsInteger := false;
     spec_Body := body; Repeatable := repeatable; Required := required; Requires := requires |}.
Definition pin (id directive assertion fixture : string) : ConformanceCase :=
  {| case_ID := id; case_Directive := directive; Assertion := assertion; FixtureShape := fixture |}.

(** ** The contracts *)

Definition blackboard_contract : Contract :=
  {| Paradigm := "blackboard";
     Summary := "Specialist-controller loop over shared blackboard lanes with a bounded cycle cap.";
     con_Shape := "Blackboard";
     Directives := [block_directive "source" "one" false true false ["directive"; "do"] []];
     Composes := [];
     Guarantees := ["controller loop with cycle cap";
         "authored sources execute in declaration order with episode re-arming";
         "authored source writes ground capture-equivalently with read-context provenance"];
     Conformance :=
       [pin "blackboard/source_order_and_eligibility" "source"
           "authored sources execute in declaration order, each gated by its when predicate"
           ("agent uses blackboard; run: source " +:+ dquote +:+ "a" +:+ dquote
            +:+ ": write state.x: do …; source " +:+ dquote +:+ "b" +:+ dquote
            +:+ ": when state.gate is ready: write state.y: do …");
        pin "blackboard/source_episode_rearm" "source"
           "a when-gated source re-arms after its predicate transitions false→true and runs again; quiescence ends the loop"
           ("run: source " +:+ dquote +:+ "set" +:+ dquote +:+ ": when state.gate is ready: do <unset>; source "
            +:+ dquote +:+ "react" +:+ dquote +:+ ": when state.gate is missing: do <noop>");
        pin "blackboard/write_grounds_provenance" "source"
           "the write target grounds capture-equivalently (chunk with the write's state key and derives_from read-context inputs)"
           ("run: source " +:+ dquote +:+ "a" +:+ dquote +:+ ": read state.note: write state.out: do …");
        pin "blackboard/grounding_failure_fails_cycle" "source"
           "a grounding admission failure at the cycle barrier fails the cycle as grounding_failed"
           ("run: source " +:+ dquote +:+ "a" +:+ dquote +:+ ": write state.out: do … (fault-injected grounder)")];
     Order := None |}.

Definition chainer_contract : Contract :=
  {| Paradigm := "chainer";
     Summary := "Deterministic chain of isolated prompt links.";
     con_Shape := "Chain";
     Directives := [block_directive "link" "none" false true true ["from"; "goal"; "capture"; "stream"; "directive"] []];
     Composes := [];
     Guarantees := ["link blocks execute in declared order";
         "link from keys reach the prompt context on both prompt paths";
         "capture targets receive the link output"];
     Conformance :=
       [pin "chainer/link_builds_chain" "link"
           "each `link:` block becomes one executed chain step; the envelope records the executed link count and each capture target holds the link output"
           "a chainer run block with two `link:` blocks, each with `from`, `prompt`, and a `capture`";
        pin "chainer/link_from_registry_prompt" "link"
           "when a link uses a registry PromptID, the link's `from` keys are injected into the resolved prompt's runtime context state"
           "a chainer run block with a `link:` block carrying `from state.key` and a registry prompt binding"];
     Order := None |}.

Definition htn_contract : Contract :=
  {| Paradigm := "htn";
     Summary := "Hierarchical task decomposition executed in-envelope over a react primitive executor.";
     con_Shape := "Decomposition";
     Directives := [block_directive "method" "one" false false false ["directive"] [];
         block_directive "task" "one" false true false ["do"] ["method"]];
     Composes := ["react"];
     Guarantees := ["executes in-envelope";
         "authored methods decompose to exactly the authored tasks with zero LLM decomposition";
         "composes the react primitive executor through the scoped-registry path"];
     Conformance :=
       [pin "htn/authored_decomposition_order" "method"
           "authored method tasks execute in declaration order with zero decomposition model calls"
           ("agent uses htn; run: method " +:+ dquote +:+ "…" +:+ dquote +:+ ": task " +:+ dquote +:+ "A"
            +:+ dquote +:+ ": do …; task " +:+ dquote +:+ "B" +:+ dquote +:+ ": do …");
        pin "htn/task_capability_pin" "task"
           "a task's do capability is the dispatched target; the task text is the sub-goal"
           ("run: method " +:+ dquote +:+ "…" +:+ dquote +:+ ": task " +:+ dquote +:+ "…" +:+ dquote
            +:+ ": do relurpic:<cap>");
        pin "htn/authored_resume" "method"
           "completed tasks are not re-executed on resume"
           ("run: method " +:+ dquote +:+ "…" +:+ dquote
            +:+ ": task A; task B (plan.completed_steps seeded with A)")];
     Order := None |}.

Definition pipeline_contract : Contract :=
  {| Paradigm := "pipeline";
     Summary := "Linear sequence of stages, each executing its run/delegate steps in order.";
     con_Shape := "Linear";
     Directives := [];
     Composes := [];
     Guarantees := ["stages execute in declared order"];
     Conformance :=
       [pin "pipeline/stages_execute_in_order" EmptyString
           "a pipeline recipe executes its stage steps in declared order and records each stage's step result on the envelope"
           "a pipeline with two named stages, each a run block with a distinct capture target"];
     Order := None |}.

Definition planner_contract : Contract :=
  {| Paradigm := "planner";
     Summary := "Plan-then-execute agent with verify and summarize stages.";
     con_Shape := "PlanExecute";
     Directives := [line_directive "plan" "one";
         block_directive "step" "one" false true false ["do"] ["plan"];
         line_directive "verify" "one";
         line_directive "summarize" "one"];
     Composes := [];
     Guarantees := ["plan before execute";
         "authored steps execute deterministically with zero planning model calls";
         "verify produces a verification observation";
         "envelope-based completed-step resume"];
     Conformance :=
       [pin "planner/authored_plan_zero_planning_calls" "plan"
           "authored plan+steps execute with zero planning-model calls; plan_origin=authored"
           ("agent uses planner; run: plan " +:+ dquote +:+ "…" +:+ dquote +:+ "; step " +:+ dquote +:+ "…"
            +:+ dquote +:+ ": do relurpic:<cap>");
        pin "planner/authored_steps_execute_in_order" "step"
           "authored steps run in declaration order through the tool executor"
           ("run: plan " +:+ dquote +:+ "…" +:+ dquote +:+ "; step " +:+ dquote +:+ "A" +:+ dquote
            +:+ ": do …; step " +:+ dquote +:+ "B" +:+ dquote +:+ ": do …");
        pin "planner/generated_plan_bounded" "plan"
           "a plan-only directive generates a bounded plan with one model call; plan_origin=generated"
           ("run: plan " +:+ dquote +:+ "…" +:+ dquote +:+ " (no steps)");
        pin "planner/verify_verdict_fields" "verify"
           "verify writes verification/verification_issues and a fail verdict is not an operational failure"
           ("run: plan " +:+ dquote +:+ "…" +:+ dquote +:+ "; step " +:+ dquote +:+ "…" +:+ dquote
            +:+ ": do …; verify " +:+ dquote +:+ "…" +:+ dquote);
        pin "planner/summarize_replaces_result" "summarize"
           "summarize replaces result and preserves the pre-summary aggregate as result_raw"
           ("run: plan " +:+ dquote +:+ "…" +:+ dquote +:+ "; step " +:+ dquote +:+ "…" +:+ dquote
            +:+ ": do …; summarize " +:+ dquote +:+ "…" +:+ dquote)];
     Order := Some ["plan"; "step"; "verify"; "summarize"] |}.

Definition react_contract : Contract :=
  {| Paradigm := "react";
     Summary := "Iterative reason-act-observe agent bounded by an iteration budget.";
     con_Shape := "Iterative";
     Directives := [{| spec_Name := "until"; spec_Form := FormLine; spec_Text := "one"; spec_Predicate := false;
           ArgsInteger := true; spec_Body := []; Repeatable := false; Required := false; Requires := [] |}];
     Composes := [];
     Guarantees := ["bounded iterations";
         "writes state only via capture"];
     Conformance :=
       [pin "react/until_bounds_iterations" "until"
           "the `until` directive caps the loop iteration budget (envelope must show the capped budget, not the default)"
           "a run block carrying `until <n>` whose react execution must stop at n iterations"];
     Order := None |}.

Definition reflection_contract : Contract :=
  {| Paradigm := "reflection";
     Summary := "Review loop over a react delegate with bounded revision iterations.";
     con_Shape := "ReviewLoop";
     Directives := [line_directive "review" "one";
         block_directive "revise" "none" true false false ["run"; "delegate"] ["review"]];
     Composes := ["react"];
     Guarantees := ["bounded revision iterations";
         "authored review verdicts live in the ephemeral scratch namespace";
         "composes the react delegate through the scoped-registry path"];
     Conformance :=
       [pin "reflection/review_writes_scratch" "review"
           "the review verdict is written to scratch.review / scratch.review_issues and the result fields"
           ("agent uses reflection; run: review " +:+ dquote +:+ "…" +:+ dquote);
        pin "reflection/revise_fires_on_predicate" "revise"
           "the revise body executes exactly once when scratch.review contains issues, then re-reviews"
           ("run: review " +:+ dquote +:+ "…" +:+ dquote
            +:+ "; revise when scratch.review contains issues: delegate to <agent>");
        pin "reflection/revision_cap_bounded" "revise"
           "persistent issues run at most MaxRevisionCycles bodies and emit reflection.revision_capped"
           ("run: review " +:+ dquote +:+ "…" +:+ dquote
            +:+ "; revise when scratch.review contains issues: delegate to <agent>");
        pin "reflection/review_pass_ends_loop" "review"
           "a pass verdict ends the loop without executing a revise body"
           ("run: review " +:+ dquote +:+ "…" +:+ dquote
            +:+ "; revise when scratch.review contains issues: delegate to <agent>")];
     Order := Some ["review"; "revise"] |}.

Definition rewoo_contract : Contract :=
  {| Paradigm := "rewoo";
     Summary := "Authored or LLM-planned, step-executed, synthesized-result loop under governance.";
     con_Shape := "StagedPlan";
     Directives := [{| spec_Name := "plan"; spec_Form := FormLine; spec_Text := "one"; spec_Predicate := false;
           ArgsInteger := false; spec_Body := []; Repeatable := false; Required := true; Requires := [] |};
         block_directive "step" "one" false true false ["do"] [];
         line_directive "synthesize" "one"];
     Composes := [];
     Guarantees := ["governance-gated execution";
         "authored steps execute deterministically with zero planning model calls"];
     Conformance :=
       [pin "rewoo/authored_plan_skips_planner" "plan"
           "authored plan+steps execute with zero planning-model calls; plan_origin=authored"
           ("agent uses rewoo; run: plan " +:+ dquote +:+ "…" +:+ dquote +:+ "; step " +:+ dquote +:+ "…"
            +:+ dquote +:+ ": do relurpic:<cap>");
        pin "rewoo/authored_steps_execute_in_order" "step"
           "authored steps run in declaration order through the governed executor"
           ("run: plan " +:+ dquote +:+ "…" +:+ dquote +:+ "; step " +:+ dquote +:+ "A" +:+ dquote
            +:+ ": do …; step " +:+ dquote +:+ "B" +:+ dquote +:+ ": do …");
        pin "rewoo/synthesize_guidance" "synthesize"
           "synthesize guidance reaches the synthesizer prompt as an authoritative system message"
           ("run: plan " +:+ dquote +:+ "…" +:+ dquote +:+ "; step " +:+ dquote +:+ "…" +:+ dquote
            +:+ ": do …; synthesize " +:+ dquote +:+ "…" +:+ dquote)];
     Order := Some ["plan"; "step"; "synthesize"] |}.

Definition contracts : list Contract :=
  [blackboard_contract; chainer_contract; htn_contract; pipeline_contract; planner_contract; react_contract;
   reflection_contract; rewoo_contract].

(** The packages' [init] functions in some order; an error panics ([None]). *)
Fixpoint init_all (cs : list Contract) (r : ContractRegistry) : option ContractRegistry :=
  match cs with
  | [] => Some r
  | c :: cs' => match Register c r with (None, r') => init_all cs' r' | (Some _, _) => None end
  end.

(** ** Registration *)
Definition registrable (c : Contract) : Prop :=
  trim_space (Paradigm c) = Paradigm c ∧ Paradigm c ≠ EmptyString ∧ validateContractIntrinsic c = [].

Lemma init_all_ok cs : ∀ r, Forall registrable cs → NoDup (Paradigm <$> cs) →
  Forall (λ c, byName r !! Paradigm c = None) cs →
  ∃ r', init_all cs r = Some r' ∧
    ∀ n c, byName r' !! n = Some c ↔ byName r !! n = Some c ∨ c ∈ cs ∧ Paradigm c = n.
Proof.
  induction cs as [|c cs IH]; intros r; cbn [init_all fmap list_fmap].
  { intros _ _ _. exists r. split; [done|]. intros n c. rewrite elem_of_nil. tauto. }
  intros [(Ht & Hne & Hv) Hok]%Forall_cons [Hc Hnd]%NoDup_cons [Hfree Hfrees]%Forall_cons.
  unfold Register. rewrite Ht, Hv. rewrite (bool_decide_false (Paradigm c = EmptyString)) by done.
  rewrite (bool_decide_true (Paradigm c = Paradigm c)) by done.
  rewrite (bool_decide_false (is_Some _)) by (rewrite Hfree; by intros [? [=]]). cbn [negb].
  edestruct IH as (r' & -> & Hr'); [done..| |].
  { apply Forall_forall. intros c' Hin. cbn [byName]. rewrite lookup_insert_ne.
    - by apply (proj1 (Forall_forall _ _) Hfrees).
    - intros Heq. apply Hc, list_elem_of_fmap. by exists c'. }
  exists r'. split; [done|]. intros n c'. rewrite Hr'. cbn [byName]. rewrite lookup_insert_Some, elem_of_cons.
  split.
  - intros [[[<- <-]|[_ ?]]|[? ?]]; auto.
  - intros [Hn|[[->|?] <-]]; [left; right|by left; left|by right].
    split; [|done]. intros <-. by rewrite Hn in Hfree.
Qed.

Lemma contracts_registrable : Forall registrable contracts.
Proof. apply Forall_forall. intros c. unfold contracts. rewrite !elem_of_cons, elem_of_nil. intuition subst; vm_compute; done. Qed.

(** whatever the order in which the packages are initialised, no registration
    panics; every shipped contract is then found under its name, and the paradigms found are
    exactly those that [IsSupported] lets an agent use. *)
Theorem shipped_contracts cs : cs ≡ₚ contracts →
  ∃ r, init_all cs NewContractRegistry = Some r ∧
    (∀ name c, Lookup r name = Some c ↔ c ∈ contracts ∧ Paradigm c = trim_space name) ∧
    (∀ name, is_Some (Lookup r name) ↔ IsSupported (trim_space name) = true).
Proof.
  intros Hp. destruct (init_all_ok cs NewContractRegistry) as (r & Hr & Hlook).
  - rewrite Hp. apply contracts_registrable.
  - rewrite Hp. by apply (bool_decide_unpack _).
  - by apply Forall_forall.
  - assert (∀ name c, Lookup r name = Some c ↔ c ∈ contracts ∧ Paradigm c = trim_space name) as Hl.
    { intros name c. unfold Lookup. rewrite Hlook, Hp. cbn [byName NewContractRegistry]. rewrite lookup_empty.
      split; [by intros [[=]|?]|by right]. }
    assert (∀ n, n ∈ Paradigm <$> contracts ↔ n ∈ AgentParadigms) as Hn.
    { intros n. unfold AgentParadigms. cbn. rewrite !elem_of_cons, elem_of_nil. tauto. }
    exists r. split_and!; [done..|]. intros name. unfold IsSupported, is_Some.
    rewrite bool_decide_eq_true, <- Hn, list_elem_of_fmap. split.
    + intros (c & [? ?]%Hl). eauto.
    + intros (c & ? & ?). exists c. by apply Hl.
Qed.
