(* ===== verification/RecipeDirectives.v ===== *)
(** * Typed directives

    The typed form of a directive (types.go, lowering.go) and its accessors
    (directive_payload.go), all in named/euclo/thoughtrecipes. *)
From S2P Require Import Prelude GoStrings RecipeLexer RecipeAst RecipeNames.

Local Open Scope Z_scope.

Inductive TypedDirective :=
| MkTypedDirective (name : string) (textArgs : list string) (predicate : option PredicateExpr)
    (body : list TypedDirective) (span : SourceSpan).

Definition dir_Name (d : TypedDirective) : string := let '(MkTypedDirective n _ _ _ _) := d in n.
Definition TextArgs (d : TypedDirective) : list string := let '(MkTypedDirective _ a _ _ _) := d in a.
Definition dir_Predicate (d : TypedDirective) : option PredicateExpr := let '(MkTypedDirective _ _ p _ _) := d in p.
Definition dir_Body (d : TypedDirective) : list TypedDirective := let '(MkTypedDirective _ _ _ b _) := d in b.
Definition dir_Span (d : TypedDirective) : SourceSpan := let '(MkTypedDirective _ _ _ _ s) := d in s.

Definition textArgsFromValueExprs (args : list (option ValueExpr)) : list string :=
  filter (λ s, s ≠ EmptyString) ((λ a, trim_space (valueExprRaw a)) <$> args).

Definition captureBindingRaw (b : CaptureBinding) : string :=
  let source := trim_space (valueExprRaw (cb_Source b)) in
  let dest := trim_space (path_Raw (Destination b)) in
  if bool_decide (source = EmptyString) && bool_decide (dest = EmptyString) then EmptyString
  else if bool_decide (dest = EmptyString) then source
  else source +:+ " -> " +:+ dest.

Definition empty_directive : TypedDirective := MkTypedDirective EmptyString [] None [] zero_span.
Definition tagged (name : string) (args : list string) (span : SourceSpan) : TypedDirective :=
  MkTypedDirective name args None [] span.

(** [lowerTypedDirective] of a directive and [lowerTypedBlockItem] of anything else. *)
Fixpoint lowerTypedBlockItem (i : ExecutionItem) : TypedDirective :=
  match i with
  | DirectiveClause sp name args pred _ =>
      MkTypedDirective (trim_space (id_Value name)) (textArgsFromValueExprs args) pred [] sp
  | DirectiveBlock sp name args pred _ body =>
      MkTypedDirective (trim_space (id_Value name)) (textArgsFromValueExprs args) pred (map lowerTypedBlockItem body) sp
  | FromClause sp src => tagged "from" [trim_space (valueExprRaw src)] sp
  | GoalClause sp text _ => tagged "goal" [trim_space (str_Value text)] sp
  | StreamClause sp query _ _ _ => tagged "stream" [trim_space (str_Value query)] sp
  | CapabilityInvocation sp ns cap _ _ =>
      tagged "do" [trim_space (id_Value ns) +:+ ":" +:+ trim_space (id_Value cap)] sp
  | Capture c => tagged "capture" (captureBindingRaw <$> Bindings c) (cap_Span c)
  | RunDecl sp agent _ => tagged "run" [trim_space (id_Value agent)] sp
  | DelegateDecl sp agent _ => tagged "delegate" [trim_space (id_Value agent)] sp
  | _ => empty_directive
  end.

Definition is_directive (i : ExecutionItem) : bool :=
  match i with DirectiveClause _ _ _ _ _ | DirectiveBlock _ _ _ _ _ _ => true | _ => false end.
Definition lowerTypedDirective (i : ExecutionItem) : TypedDirective :=
  if is_directive i then lowerTypedBlockItem i else empty_directive.

(** ** Accessors (directive_payload.go) *)
Definition named (name : string) (d : TypedDirective) : bool := bool_decide (dir_Name d = name).

Definition Has (ds : list TypedDirective) (name : string) : bool := existsb (named name) ds.
Definition StepItems (ds : list TypedDirective) (name : string) : list TypedDirective :=
  filter (λ d, named name d = true) ds.
Definition DirectiveText (ds : list TypedDirective) (name : string) : list string :=
  match StepItems ds name with d :: _ => TextArgs d | [] => [] end.
Definition DirectivePredicate (ds : list TypedDirective) (name : string) : option PredicateExpr :=
  match StepItems ds name with d :: _ => dir_Predicate d | [] => None end.
Definition Directive_names (ds : list TypedDirective) : list string := dir_Name <$> ds.

(** The cardinality loops: the second occurrence is the one reported. *)
Definition ExactlyOne (ds : list TypedDirective) (name : string) : result TypedDirective :=
  match StepItems ds name with
  | [] => Err (ErrFmt "missing required directive %q" [name])
  | [d] => Ok d
  | _ :: d :: _ => Err (ErrFmt "duplicate directive %q at line %d" [name; pretty.pretty (sl_Line (Start (dir_Span d)))])
  end.
Definition AtMostOne (ds : list TypedDirective) (name : string) : result (option TypedDirective) :=
  match StepItems ds name with
  | [] => Ok None
  | [d] => Ok (Some d)
  | _ :: d :: _ => Err (ErrFmt "duplicate directive %q at line %d" [name; pretty.pretty (sl_Line (Start (dir_Span d)))])
  end.
