(* ===== verification/RecipeContracts.v ===== *)
(** * Contract checks of recipes

    named/euclo/thoughtrecipes/contract_check.go: every paradigm binding and every
    directive of a document against the registered contracts. *)
From S2P Require Import Prelude GoStrings RecipeLexer RecipeAst RecipeNames Paradigm RecipeDirectives.

Local Open Scope Z_scope.

Definition locationFromSpan (sp : SourceSpan) : ContractLocation :=
  {| loc_File := sl_File (Start sp); loc_Line := sl_Line (Start sp); loc_Column := sl_Column (Start sp) |}.

(** ** Uses of directives *)
Record contractNestedUse := { bodyKind : string; nested_name : string; nested_span : SourceSpan }.
Record contractDirectiveUse := {
  use_name : string; use_span : SourceSpan; use_block : bool; use_predicate : bool;
  use_textArgs : list string; nested : list contractNestedUse
}.
Record contractAgentUse := { use_paradigm : string; agent_span : SourceSpan; directives : list contractDirectiveUse }.
Abbreviation Agents := (gmap string contractAgentUse).

Definition classifyNestedUse (i : ExecutionItem) : contractNestedUse :=
  let use kind name sp := {| bodyKind := kind; nested_name := name; nested_span := sp |} in
  match i with
  | RunDecl sp _ _ => use "run" EmptyString sp
  | DelegateDecl sp _ _ => use "delegate" EmptyString sp
  | CapabilityInvocation sp _ _ _ _ => use "do" EmptyString sp
  | Capture c => use "capture" EmptyString (cap_Span c)
  | DirectiveClause sp name _ _ _ | DirectiveBlock sp name _ _ _ _ => use "directive" (trim_space (id_Value name)) sp
  | GoalClause sp _ _ => use "goal" EmptyString sp
  | FromClause sp _ => use "from" EmptyString sp
  | StreamClause sp _ _ _ _ => use "stream" EmptyString sp
  | ToolPolicy d => use "may" EmptyString (tip_Span d)
  | RouteDecl sp _ | AskDecl sp _ | PipelineDecl sp _ => use EmptyString EmptyString sp
  end.

Definition recordContractDirective (agentName : string) (use : contractDirectiveUse) (agents : Agents) : Agents :=
  match agents !! agentName with
  | Some a =>
      if bool_decide (use_name use = EmptyString) then agents
      else <[agentName := {| use_paradigm := use_paradigm a; agent_span := agent_span a;
                             directives := directives a ++ [use] |}]> agents
  | None => agents
  end.

(** The use a directive item records. *)
Definition item_use (i : ExecutionItem) : option contractDirectiveUse :=
  match i with
  | DirectiveClause sp name args _ _ =>
      Some {| use_name := trim_space (id_Value name); use_span := sp; use_block := false; use_predicate := false;
              use_textArgs := textArgsFromValueExprs args; nested := [] |}
  | DirectiveBlock sp name args pred _ body =>
      Some {| use_name := trim_space (id_Value name); use_span := sp; use_block := true;
              use_predicate := bool_decide (is_Some pred); use_textArgs := textArgsFromValueExprs args;
              nested := classifyNestedUse <$> body |}
  | _ => None
  end.

(** [walkContractItems] of one item, and with [top] false [walkContractBlockBody]. *)
Fixpoint walk_item (top : bool) (agentName : string) (i : ExecutionItem) (agents : Agents) : Agents :=
  let walk_all top name := foldl (λ acc x, walk_item top name x acc) in
  match i with
  | RunDecl _ agent items | DelegateDecl _ agent items => walk_all true (id_Value agent) agents items
  | DirectiveClause _ _ _ _ _ =>
      match item_use i with
      | Some use => if top then recordContractDirective agentName use agents else agents
      | None => agents
      end
  | DirectiveBlock _ _ _ _ _ body =>
      walk_all false agentName
        match item_use i with
        | Some use => if top then recordContractDirective agentName use agents else agents
        | None => agents
        end body
  | RouteDecl _ branches =>
      foldl (λ acc '(MkRouteBranch _ _ body _), walk_all top agentName acc body) agents branches
  | PipelineDecl _ stages =>
      foldl (λ acc '(MkPipelineStage _ _ body), walk_all top agentName acc body) agents stages
  | _ => agents
  end.

Definition walk_items (top : bool) (agentName : string) (agents : Agents) (items : list ExecutionItem) : Agents :=
  foldl (λ acc x, walk_item top agentName x acc) agents items.
Definition walkContractItems := walk_items true.
Definition walkContractBlockBody := walk_items false.

(** The declared agents; a later declaration of a name replaces an earlier one. *)
Definition declared_agents (doc : Document) : Agents :=
  foldl (λ acc decl,
    match decl with
    | AgentDecl sp name agentType =>
        <[trim_space (id_Value name) :=
            {| use_paradigm := trim_space (id_Value agentType); agent_span := sp; directives := [] |}]> acc
    | _ => acc
    end) ∅ (Declarations doc).

Definition gatherAgentContractUses (doc : Document) : Agents :=
  foldl (λ acc decl,
    match decl with
    | BlockDecl (RunDecl _ agent items) | BlockDecl (DelegateDecl _ agent items) =>
        walkContractItems (id_Value agent) acc items
    | BlockDecl (RouteDecl _ branches) =>
        foldl (λ acc '(MkRouteBranch _ _ body _), walkContractItems EmptyString acc body) acc branches
    | BlockDecl (PipelineDecl _ stages) =>
        foldl (λ acc '(MkPipelineStage _ _ body), walkContractItems EmptyString acc body) acc stages
    | _ => acc
    end) (declared_agents doc) (Declarations doc).

(** ** One use against its contract *)
Definition positiveIntArg (raw : string) : bool :=
  let text := unquoteString (trim_space raw) in
  if bool_decide (text = EmptyString) then false
  else match Atoi text with Some n => 0 <? n | None => false end.

Definition shape_error (c : Contract) (use : contractDirectiveUse) (problem : string) : ContractError :=
  ErrDirectiveShape (Paradigm c) (use_name use) problem (locationFromSpan (use_span use)).

Definition nested_errors (c : Contract) (use : contractDirectiveUse) (spec : DirectiveSpec) : list ContractError :=
  nested use ≫= λ n,
    if bool_decide (bodyKind n = EmptyString) then
      [ErrDirectiveShape (Paradigm c) (use_name use) "contains an unsupported nested item" (locationFromSpan (nested_span n))]
    else if bool_decide (bodyKind n ∈ spec_Body spec) then []
    else
      let label := if bool_decide (nested_name n = EmptyString) then bodyKind n
                   else sprintf "%s %q" [bodyKind n; nested_name n] in
      [ErrDirectiveShape (Paradigm c) (use_name use)
         (sprintf "nested item %s is not allowed in a %s block" [label; use_name use]) (locationFromSpan (nested_span n))].

Definition validateDirectiveUse (use : contractDirectiveUse) (c : Contract) : list ContractError :=
  match Directive c (use_name use) with
  | None => [ErrDirectiveNotInContract (Paradigm c) (use_name use) (DirectiveNames c) (locationFromSpan (use_span use))]
  | Some spec =>
      let is_block := bool_decide (spec_Form spec = FormBlock) in
      if use_predicate use && negb (spec_Predicate spec) then
        [shape_error c use "this directive declares no `when` predicate support"]
      else if use_block use && negb is_block then
        [shape_error c use "block form is not declared; expected the line form"]
      else if negb (use_block use) && is_block then
        [shape_error c use "line form is not declared; expected a block directive"]
      else match (if ArgsInteger spec then filter (λ a, positiveIntArg a = false) (use_textArgs use) else []) with
           | a :: _ => [shape_error c use (sprintf "argument %q must be a positive integer" [a])]
           | [] => if use_block use then nested_errors c use spec else []
           end
  end.

(** ** The rules of one block *)

(** The rank of a name: its last position in the sequence. *)
Fixpoint rank_from (i : Z) (sequence : list string) (name : string) : option Z :=
  match sequence with
  | [] => None
  | n :: rest => match rank_from (i + 1) rest name with
                 | Some r => Some r
                 | None => if bool_decide (n = name) then Some i else None
                 end
  end.
Definition rank (sequence : list string) (name : string) : option Z := rank_from 0 sequence name.

Fixpoint rank_loop (paradigm : string) (sequence : list string) (maxRank : Z) (predecessor : TypedDirective)
    (ds : list TypedDirective) : option ContractError :=
  match ds with
  | [] => None
  | d :: ds' =>
      match rank sequence (dir_Name d) with
      | None => rank_loop paradigm sequence maxRank predecessor ds'
      | Some r =>
          if r <? maxRank then
            Some (ErrDirectiveOrder paradigm (dir_Name d) (locationFromSpan (dir_Span d))
                    (dir_Name predecessor) (locationFromSpan (dir_Span predecessor)))
          else rank_loop paradigm sequence r d ds'
      end
  end.

Definition validateOrder (paradigm : string) (ds : list TypedDirective) (rule : option (list string)) : option ContractError :=
  match rule with
  | None | Some [] => None
  | Some sequence => rank_loop paradigm sequence (-1) empty_directive ds
  end.

Definition validateDirectiveRequires (c : Contract) (ds : list TypedDirective) : list ContractError :=
  ds ≫= λ d,
    match Directive c (dir_Name d) with
    | None => []
    | Some spec =>
        (λ r, ErrDirectiveRequires (Paradigm c) (dir_Name d) r (locationFromSpan (dir_Span d))) <$>
          filter (λ r, r ∉ (dir_Name <$> ds)) (Requires spec)
    end.

Fixpoint cardinality (c : Contract) (seen : gset string) (ds : list TypedDirective) : list ContractError :=
  match ds with
  | [] => []
  | d :: ds' =>
      match Directive c (dir_Name d) with
      | None => cardinality c seen ds'
      | Some spec =>
          if Repeatable spec then cardinality c seen ds'
          else if bool_decide (dir_Name d ∈ seen) then
            ErrDirectiveShape (Paradigm c) (dir_Name d) "declared more than once; this directive is not repeatable"
              (locationFromSpan (dir_Span d)) :: cardinality c seen ds'
          else cardinality c ({[dir_Name d]} ∪ seen) ds'
      end
  end.
Definition validateDirectiveCardinality (c : Contract) (ds : list TypedDirective) : list ContractError :=
  cardinality c ∅ ds.

Definition validateBlockRuleErrors (c : Contract) (ds : list TypedDirective) : list ContractError :=
  match ds with
  | [] => []
  | _ => option_list (validateOrder (Paradigm c) ds (Order c)) ++
         validateDirectiveRequires c ds ++ validateDirectiveCardinality c ds
  end.

(** ** The document *)
Definition typed_directives (items : list ExecutionItem) : list TypedDirective :=
  lowerTypedDirective <$> filter (λ i, is_directive i = true) items.

(** [check]: the rules on one list of items. *)
Definition check_block (reg : ContractRegistry) (agents : Agents) (items : list ExecutionItem) (agentName : string)
    : list ContractError :=
  let typed := typed_directives items in
  if bool_decide (typed = []) || bool_decide (agentName = EmptyString) then []
  else match a ← agents !! agentName; Lookup reg (use_paradigm a) with
       | Some c => validateBlockRuleErrors c typed
       | None => []
       end.

(** [walk], in two parts: the items inside one item, and a list of items. *)
Fixpoint block_item (reg : ContractRegistry) (agents : Agents) (agentName : string) (i : ExecutionItem)
    : list ContractError :=
  let walk items name := check_block reg agents items name ++ (items ≫= block_item reg agents name) in
  match i with
  | RunDecl _ agent items | DelegateDecl _ agent items => walk items (id_Value agent)
  | RouteDecl _ branches => branches ≫= λ '(MkRouteBranch _ _ body _), walk body agentName
  | PipelineDecl _ stages => stages ≫= λ '(MkPipelineStage _ _ body), walk body agentName
  | _ => []
  end.

Definition validateDocumentBlockRules (doc : Document) (reg : ContractRegistry) (agents : Agents) : list ContractError :=
  Declarations doc ≫= λ decl,
    match decl with BlockDecl i => block_item reg agents EmptyString i | _ => [] end.

Definition agent_errors (reg : ContractRegistry) (use : contractAgentUse) : list ContractError :=
  match Lookup reg (use_paradigm use) with
  | None => [ErrUnknownParadigm (use_paradigm use) (Names reg) (locationFromSpan (agent_span use))]
  | Some c =>
      (directives use ≫= λ d, validateDirectiveUse d c) ++
      ((λ r, ErrMissingRequiredDirective (Paradigm c) r (locationFromSpan (agent_span use))) <$>
         filter (λ r, r ∉ (use_name <$> directives use)) (RequiredNames c))
  end.

Definition ValidateAgainstContracts (doc : Document) (reg : ContractRegistry) : list ContractError :=
  let agents := gatherAgentContractUses doc in
  let names := sort_stable String.le (map_to_list agents).*1 in
  (names ≫= λ n, match agents !! n with Some use => agent_errors reg use | None => [] end) ++
  validateDocumentBlockRules doc reg agents.
