(* ===== verification/RecipeContractsSafety.v ===== *)
(** * Contract checks of recipes: properties

    The check of a document is exactly the rules of its paradigms' contracts over every
    directive an agent's blocks carry, as inductive relations over the tree say them. *)
From S2P Require Import Prelude GoStrings RecipeLexer RecipeAst RecipeNames Paradigm RecipeDirectives RecipeContracts.

Local Open Scope Z_scope.

(** ** The rules of one block *)
(** A declared directive that may not be repeated. *)
Definition once (c : Contract) (n : string) : bool :=
  match Directive c n with Some spec => negb (Repeatable spec) | None => false end.

Record block_conforms (c : Contract) (ds : list TypedDirective) : Prop := {
  in_order : StronglySorted Z.le (omap (λ d, rank (default [] (Order c)) (dir_Name d)) ds);
  required_present : ∀ d spec r, d ∈ ds → Directive c (dir_Name d) = Some spec → r ∈ Requires spec →
    r ∈ dir_Name <$> ds;
  not_repeated : NoDup (filter (λ n, once c n = true) (dir_Name <$> ds))
}.

Lemma rank_nonneg sequence : ∀ i n r, 0 <= i → rank_from i sequence n = Some r → 0 <= r.
Proof.
  induction sequence as [|m sequence IH]; intros i n r Hi; cbn; [done|].
  destruct (rank_from (i + 1) sequence n) eqn:H'; [intros [= <-]; eapply IH; [|done]; lia|].
  case_bool_decide; [by intros [= <-]|done].
Qed.

Lemma rank_nil n : rank [] n = None.
Proof. done. Qed.

Lemma order_loop_spec p sequence ds : ∀ m pred,
  rank_loop p sequence m pred ds = None ↔
  StronglySorted Z.le (omap (λ d, rank sequence (dir_Name d)) ds) ∧
  Forall (λ r, m <= r) (omap (λ d, rank sequence (dir_Name d)) ds).
Proof.
  induction ds as [|d ds IH]; intros m pred; cbn; [split; [repeat constructor|done]|].
  destruct (rank sequence (dir_Name d)) as [r|]; [|apply IH].
  destruct (Z.ltb_spec r m) as [Hlt|Hle].
  - split; [done|]. intros [_ HF]. apply Forall_cons in HF as [HF _]. lia.
  - rewrite IH. split.
    + intros [HS HF]. split; [by constructor|]. constructor; [done|]. eapply Forall_impl; [exact HF|]. cbn. lia.
    + intros [HS HF]. apply StronglySorted_inv in HS. tauto.
Qed.

Lemma validateOrder_exact p ds rule : validateOrder p ds rule = None ↔
  StronglySorted Z.le (omap (λ d, rank (default [] rule) (dir_Name d)) ds).
Proof.
  destruct rule as [[|n sequence]|]; cbn [validateOrder default].
  1,3: split; [intros _|done]; induction ds as [|d ds IH]; [constructor|exact IH].
  rewrite order_loop_spec. split; [tauto|]. intros H'. split; [done|]. apply Forall_forall.
  intros r (d & _ & Hr)%list_elem_of_omap. apply rank_nonneg in Hr; lia.
Qed.

Lemma app_nil_iff {A} (l1 l2 : list A) : l1 ++ l2 = [] ↔ l1 = [] ∧ l2 = [].
Proof. split; [apply app_nil|by intros [-> ->]]. Qed.

Lemma bind_nil {A B} (f : A → list B) l : l ≫= f = [] ↔ Forall (λ x, f x = []) l.
Proof.
  induction l as [|x l IH]; [done|]. cbn. rewrite Forall_cons, <- IH. split; [apply app_nil|by intros [-> ->]].
Qed.

Lemma requires_exact c ds : validateDirectiveRequires c ds = [] ↔
  ∀ d spec r, d ∈ ds → Directive c (dir_Name d) = Some spec → r ∈ Requires spec → r ∈ dir_Name <$> ds.
Proof.
  unfold validateDirectiveRequires. rewrite bind_nil, Forall_forall. split.
  - intros H' d spec r Hd Hspec Hr. specialize (H' d Hd). rewrite Hspec in H'.
    apply fmap_nil_inv, filter_nil_inv in H'. rewrite Forall_forall in H'.
    specialize (H' r Hr). cbn in H'. by destruct (decide (r ∈ dir_Name <$> ds)).
  - intros H' d Hd. destruct (Directive c (dir_Name d)) as [spec|] eqn:Hspec; [|done].
    assert (filter (λ r, r ∉ dir_Name <$> ds) (Requires spec) = []) as ->; [|done].
    apply elem_of_nil_inv. intros r [Hno Hr]%list_elem_of_filter. by apply Hno, (H' d spec).
Qed.

Lemma cardinality_spec c ds : ∀ seen, cardinality c seen ds = [] ↔
  NoDup (filter (λ n, once c n = true) (dir_Name <$> ds)) ∧
  Forall (λ n, once c n = true → n ∉ seen) (dir_Name <$> ds).
Proof.
  induction ds as [|d ds IH]; intros seen; [split; [repeat constructor|done]|].
  rewrite fmap_cons, filter_cons, Forall_cons. cbn [cardinality].
  assert (once c (dir_Name d) = match Directive c (dir_Name d) with Some s => negb (Repeatable s) | None => false end)
    as Ho by done.
  destruct (Directive c (dir_Name d)) as [spec|]; [destruct (Repeatable spec)|]; cbn in Ho; rewrite Ho.
  - rewrite decide_False, IH by done. naive_solver.
  - rewrite decide_True, NoDup_cons by done. case_bool_decide as Hin; [naive_solver|].
    rewrite IH, list_elem_of_filter, !Forall_forall. split.
    + intros [Hn HF]. split_and!; try done.
      * intros [_ Hi]. specialize (HF _ Hi Ho). set_solver.
      * intros n Hi Hon. specialize (HF _ Hi Hon). set_solver.
    + intros [[Hni Hn] [_ HF]]. split; [done|]. intros n Hi Hon. specialize (HF n Hi Hon).
      assert (n ≠ dir_Name d); [|set_solver]. by intros ->; apply Hni.
  - rewrite decide_False, IH by done. naive_solver.
Qed.

Lemma block_rules_exact c ds : validateBlockRuleErrors c ds = [] ↔ block_conforms c ds.
Proof.
  destruct ds as [|d ds]; [split; [intros _; split; [constructor|set_solver|constructor]|done]|].
  unfold validateBlockRuleErrors. set (l := d :: ds). split.
  - intros [H1 [H2 H3]%app_nil]%app_nil. split.
    + apply (validateOrder_exact (Paradigm c)). by destruct (validateOrder _ _ _).
    + by apply requires_exact.
    + apply cardinality_spec in H3. tauto.
  - intros [H1 H2 H3]. apply (validateOrder_exact (Paradigm c)) in H1. rewrite H1.
    apply requires_exact in H2. rewrite H2.
    assert (validateDirectiveCardinality c l = []) as ->; [|done].
    apply cardinality_spec. split; [done|]. apply Forall_forall. set_solver.
Qed.

(** ** One use *)
Record use_conforms (c : Contract) (u : contractDirectiveUse) (spec : DirectiveSpec) : Prop := {
  declared : Directive c (use_name u) = Some spec;
  predicate_ok : use_predicate u = true → spec_Predicate spec = true;
  form_ok : use_block u = true ↔ spec_Form spec = FormBlock;
  args_ok : ArgsInteger spec = true → Forall (λ a, positiveIntArg a = true) (use_textArgs u);
  nested_ok : use_block u = true →
    Forall (λ n, bodyKind n ≠ EmptyString ∧ bodyKind n ∈ spec_Body spec) (nested u)
}.

Lemma nested_errors_exact c u spec : nested_errors c u spec = [] ↔
  Forall (λ n, bodyKind n ≠ EmptyString ∧ bodyKind n ∈ spec_Body spec) (nested u).
Proof.
  unfold nested_errors. rewrite bind_nil. apply Forall_iff. intros n. repeat case_bool_decide; naive_solver.
Qed.

Lemma args_exact (b : bool) l :
  (if b then filter (λ a, positiveIntArg a = false) l else []) = [] ↔
  (b = true → Forall (λ a, positiveIntArg a = true) l).
Proof.
  destruct b; [|done]. split.
  - intros H' _. apply filter_nil_inv in H'. eapply Forall_impl; [exact H'|].
    intros a Ha. by apply not_false_is_true.
  - intros H'. apply elem_of_nil_inv. intros a [Ha Hin]%list_elem_of_filter.
    specialize (H' eq_refl). rewrite Forall_forall in H'. specialize (H' a Hin). congruence.
Qed.

Lemma directive_use_exact u c : validateDirectiveUse u c = [] ↔ ∃ spec, use_conforms c u spec.
Proof.
  unfold validateDirectiveUse. destruct (Directive c (use_name u)) as [spec|] eqn:Hd;
    [|split; [done|intros [spec [? _ _ _ _]]; congruence]].
  pose proof (args_exact (ArgsInteger spec) (use_textArgs u)) as Hargs.
  pose proof (nested_errors_exact c u spec) as Hnest.
  split.
  - intros H'. exists spec.
    destruct (use_predicate u && negb (spec_Predicate spec)) eqn:Hp; [done|].
    destruct (use_block u && negb _) eqn:Hb1; [done|]. destruct (negb (use_block u) && _) eqn:Hb2; [done|].
    destruct (if ArgsInteger spec then _ else _) eqn:Ha; [|done].
    split; [done|..|by apply Hargs|].
    + intros Hup. rewrite Hup in Hp. by destruct (spec_Predicate spec).
    + destruct (use_block u); cbn in Hb1, Hb2; bool_to_prop; naive_solver.
    + intros Hub. rewrite Hub in H'. by apply Hnest.
  - intros (spec' & [Hd' Hp Hf Ha Hn]). rewrite Hd in Hd'. injection Hd' as <-.
    assert (use_predicate u && negb (spec_Predicate spec) = false) as ->.
    { destruct (use_predicate u); [|done]. by rewrite Hp. }
    assert (bool_decide (spec_Form spec = FormBlock) = use_block u) as ->.
    { destruct (use_block u); [by apply bool_decide_true, Hf|]. apply bool_decide_false. intros Hfb.
      apply Hf in Hfb. done. }
    rewrite andb_negb_r, andb_negb_l. rewrite (proj2 Hargs Ha).
    destruct (use_block u); [|done]. by apply Hnest, Hn.
Qed.

(** ** Blocks and uses in a tree *)

(** The agent the items inside an item belong to. *)
Definition inner_agent (i : ExecutionItem) (outer : string) : string :=
  match i with RunDecl _ a _ | DelegateDecl _ a _ => id_Value a | _ => outer end.

(** The blocks whose rules are checked: not those inside the body of a directive. *)
Definition is_block (i : ExecutionItem) : bool :=
  match i with DirectiveBlock _ _ _ _ _ _ => true | _ => false end.
Inductive block_of : ExecutionItem → string → string → list ExecutionItem → Prop :=
| block_here i outer body : is_block i = false → body ∈ item_bodies i →
    block_of i outer (inner_agent i outer) body
| block_inside i outer body j n b : is_block i = false → body ∈ item_bodies i → j ∈ body →
    block_of j (inner_agent i outer) n b → block_of i outer n b.

(** The uses recorded for an agent: a directive, unless it is directly inside the body of a
    directive. *)
Definition records_inside (top : bool) (i : ExecutionItem) : bool :=
  match i with
  | RunDecl _ _ _ | DelegateDecl _ _ _ => true
  | DirectiveBlock _ _ _ _ _ _ => false
  | _ => top
  end.
Inductive use_of : bool → ExecutionItem → string → string → contractDirectiveUse → Prop :=
| use_here i outer u : item_use i = Some u → use_of true i outer outer u
| use_inside top i outer body j n u : body ∈ item_bodies i → j ∈ body →
    use_of (records_inside top i) j (inner_agent i outer) n u → use_of top i outer n u.

Lemma block_item_unfold reg ag outer i : block_item reg ag outer i =
  if is_block i then [] else
  item_bodies i ≫= λ body, check_block reg ag body (inner_agent i outer) ++
                           (body ≫= block_item reg ag (inner_agent i outer)).
Proof.
  destruct i as [| | |? branches| |? stages| | | | | | |]; cbn; rewrite ?app_nil_r; try done.
  - induction branches as [|[? ? body ?] bs IH]; [done|]. cbn. by rewrite IH.
  - induction stages as [|[? ? body] ss IH]; [done|]. cbn. by rewrite IH.
Qed.

Lemma block_item_exact reg ag i : ∀ outer, block_item reg ag outer i = [] ↔
  ∀ n b, block_of i outer n b → check_block reg ag b n = [].
Proof.
  induction i as [i IH] using item_ind. intros outer. rewrite block_item_unfold. destruct (is_block i) eqn:Hb.
  { split; [|done]. intros _ n b Hof. inversion Hof; congruence. }
  rewrite bind_nil. rewrite Forall_forall in *. split.
  - intros H' n b Hof. inversion Hof as [? ? body Hb' Hin|? ? body j ? ? Hb' Hin Hj Hof']; subst.
    + specialize (H' _ Hin). cbn in H'. by apply app_nil in H' as [? _].
    + specialize (H' _ Hin). cbn in H'. apply app_nil in H' as [_ H']. rewrite bind_nil, Forall_forall in H'.
      specialize (IH _ Hin). rewrite Forall_forall in IH. by eapply (proj1 (IH j Hj _) (H' j Hj)).
  - intros H' body Hin. assert (check_block reg ag body (inner_agent i outer) = []) as ->
      by (eapply H', block_here; done).
    cbn. rewrite bind_nil, Forall_forall. intros j Hj. specialize (IH _ Hin). rewrite Forall_forall in IH.
    apply (IH j Hj). intros n b Hof. by eapply H', block_inside.
Qed.

Lemma walk_item_unfold top outer i ag : walk_item top outer i ag =
  foldl (λ acc body, foldl (λ acc x, walk_item (records_inside top i) (inner_agent i outer) x acc) acc body)
    match item_use i with Some u => if top then recordContractDirective outer u ag else ag | None => ag end
    (item_bodies i).
Proof.
  destruct i as [| | |? branches| |? stages| | | | | | |]; cbn; try done.
  - revert ag. induction branches as [|[? ? body ?] bs IH]; intros ag; [done|]. cbn. by rewrite IH.
  - revert ag. induction stages as [|[? ? body] ss IH]; intros ag; [done|]. cbn. by rewrite IH.
Qed.

(** [ag'] is [ag] with the named uses of [R] added. *)
Definition grows (ag : Agents) (R : string → contractDirectiveUse → Prop) (ag' : Agents) : Prop :=
  ∀ n, match ag !! n with
       | None => ag' !! n = None
       | Some a => ∃ a', ag' !! n = Some a' ∧ use_paradigm a' = use_paradigm a ∧ agent_span a' = agent_span a ∧
           ∀ u, u ∈ directives a' ↔ u ∈ directives a ∨ (R n u ∧ use_name u ≠ EmptyString)
       end.

Lemma grows_none ag (R : string → contractDirectiveUse → Prop) : (∀ n u, ¬ R n u) → grows ag R ag.
Proof. intros HR n. destruct (ag !! n) as [a|] eqn:Ha; [|done]. exists a. naive_solver. Qed.

Lemma grows_trans ag R1 ag1 R2 ag2 : grows ag R1 ag1 → grows ag1 R2 ag2 → grows ag (λ n u, R1 n u ∨ R2 n u) ag2.
Proof.
  intros H1 H2 n. specialize (H1 n). specialize (H2 n). destruct (ag !! n) as [a|].
  - destruct H1 as (a1 & E1 & P1 & S1 & D1). rewrite E1 in H2. destruct H2 as (a2 & E2 & P2 & S2 & D2).
    exists a2. split_and!; [done|congruence|congruence|]. intros u. rewrite D2, D1. naive_solver.
  - by rewrite H1 in H2.
Qed.

Lemma grows_ext ag (R R' : string → contractDirectiveUse → Prop) ag' :
  (∀ n u, R n u ↔ R' n u) → grows ag R ag' → grows ag R' ag'.
Proof.
  intros HR H' n. specialize (H' n). destruct (ag !! n); [|done].
  destruct H' as (a' & ? & ? & ? & Hd). exists a'. split_and!; try done. intros u. by rewrite Hd, HR.
Qed.

Lemma grows_fold {A} (f : Agents → A → Agents) (R : A → string → contractDirectiveUse → Prop) (l : list A) :
  (∀ x ag, x ∈ l → grows ag (R x) (f ag x)) → ∀ ag, grows ag (λ n u, ∃ x, x ∈ l ∧ R x n u) (foldl f ag l).
Proof.
  induction l as [|x l IH]; intros Hf ag; cbn.
  - apply grows_none. set_solver.
  - eapply grows_ext; [|eapply grows_trans; [apply Hf; by left|apply IH; intros; apply Hf; by right]].
    intros n u. cbn. setoid_rewrite elem_of_cons. naive_solver.
Qed.

Lemma record_grows outer u ag : grows ag (λ n v, n = outer ∧ v = u) (recordContractDirective outer u ag).
Proof.
  unfold recordContractDirective. intros n. destruct (ag !! outer) as [a|] eqn:Ha.
  - case_bool_decide as He.
    + destruct (ag !! n) as [b|] eqn:Hb; [|done]. exists b. naive_solver.
    + destruct (decide (n = outer)) as [->|Hne].
      * rewrite Ha. rewrite lookup_insert_eq. eexists. split; [done|]. split_and!; [done..|]. cbn.
        intros v. rewrite elem_of_app, list_elem_of_singleton. naive_solver.
      * rewrite lookup_insert_ne by done. destruct (ag !! n) as [b|] eqn:Hb; [|done]. exists b. naive_solver.
  - destruct (ag !! n) as [b|] eqn:Hb; [|done]. exists b. split_and!; try done. intros v. naive_solver.
Qed.

Lemma walk_item_grows i : ∀ top outer ag, grows ag (use_of top i outer) (walk_item top outer i ag).
Proof.
  induction i as [i IH] using item_ind. intros top outer ag. rewrite walk_item_unfold.
  eapply grows_ext; [|eapply grows_trans].
  3: { apply grows_fold. intros body ag' Hbody. apply grows_fold. intros j ag'' Hj.
       rewrite Forall_forall in IH. specialize (IH _ Hbody). rewrite Forall_forall in IH. apply (IH j Hj). }
  2: { instantiate (1 := λ n u, top = true ∧ item_use i = Some u ∧ n = outer).
       destruct (item_use i) as [u|]; [|apply grows_none; naive_solver].
       destruct top; [|apply grows_none; naive_solver].
       eapply grows_ext; [|apply record_grows]. naive_solver. }
  intros n u. cbn. split.
  - intros [(-> & Hu & ->)|(body & Hbody & j & Hj & Hu)]; [by constructor|by eapply use_inside].
  - intros Hu. inversion Hu; subst; [by left|]. right. eauto.
Qed.

(** ** The document *)

(** What Go's types admit as a top-level block. *)
Definition is_declaration (i : ExecutionItem) : bool :=
  match i with
  | RunDecl _ _ _ | DelegateDecl _ _ _ | RouteDecl _ _ | AskDecl _ _ | PipelineDecl _ _ => true
  | _ => false
  end.

Definition use_in (doc : Document) (n : string) (u : contractDirectiveUse) : Prop :=
  ∃ i, BlockDecl i ∈ Declarations doc ∧ is_declaration i = true ∧ use_of true i EmptyString n u.
Definition block_in (doc : Document) (n : string) (b : list ExecutionItem) : Prop :=
  ∃ i, BlockDecl i ∈ Declarations doc ∧ block_of i EmptyString n b.

Lemma gather_grows doc : grows (declared_agents doc) (use_in doc) (gatherAgentContractUses doc).
Proof.
  unfold gatherAgentContractUses. eapply grows_ext; [|apply (grows_fold _ (λ d n u, ∃ i, d = BlockDecl i ∧
    is_declaration i = true ∧ use_of true i EmptyString n u))].
  - intros n u. unfold use_in. naive_solver.
  - intros d ag _. destruct d as [| | | | |i]; try (apply grows_none; naive_solver).
    destruct (is_declaration i) eqn:Hi; [|destruct i; try done; apply grows_none; naive_solver].
    eapply grows_ext; [|replace (match i with RunDecl _ _ _ => _ | _ => _ end)
      with (walk_item true EmptyString i ag) by (by destruct i); apply walk_item_grows].
    naive_solver.
Qed.

Lemma agents_mapped {A} (m : Agents) (f : string → contractAgentUse → list A) :
  (sort_stable String.le (map_to_list m).*1 ≫= λ n, match m !! n with Some use => f n use | None => [] end) = [] ↔
  ∀ n a, m !! n = Some a → f n a = [].
Proof.
  rewrite bind_nil, Forall_forall. split.
  - intros H' n a Ha. specialize (H' n). rewrite Ha in H'. apply H'.
    rewrite (sort_stable_Permutation String.le). apply list_elem_of_fmap. exists (n, a).
    by rewrite elem_of_map_to_list.
  - intros H' n _. destruct (m !! n) as [a|] eqn:Ha; [|done]. by apply H'.
Qed.

(** An agent's binding against its contract. *)
Definition agent_conforms (doc : Document) (reg : ContractRegistry) (n : string) (a : contractAgentUse) : Prop :=
  ∃ c, Lookup reg (use_paradigm a) = Some c ∧
    (∀ u, use_in doc n u → use_name u ≠ EmptyString → ∃ spec, use_conforms c u spec) ∧
    (∀ r, r ∈ RequiredNames c → ∃ u, use_in doc n u ∧ use_name u = r ∧ r ≠ EmptyString) ∧
    (∀ b, block_in doc n b → n ≠ EmptyString → block_conforms c (typed_directives b)).

Lemma agent_errors_exact reg a c : Lookup reg (use_paradigm a) = Some c →
  agent_errors reg a = [] ↔
  (∀ u, u ∈ directives a → ∃ spec, use_conforms c u spec) ∧
  (∀ r, r ∈ RequiredNames c → ∃ u, u ∈ directives a ∧ use_name u = r).
Proof.
  intros Hc. unfold agent_errors. rewrite Hc. split.
  - intros [H1 H2]%app_nil. rewrite bind_nil, Forall_forall in H1. split.
    + intros u Hu. by apply directive_use_exact, H1.
    + intros r Hr. apply fmap_nil_inv, filter_nil_inv in H2. rewrite Forall_forall in H2. specialize (H2 r Hr).
      cbn in H2. destruct (decide (r ∈ use_name <$> directives a)) as [(u & -> & Hu)%list_elem_of_fmap|]; naive_solver.
  - intros [H1 H2]. assert ((directives a ≫= λ d, validateDirectiveUse d c) = []) as ->.
    { rewrite bind_nil, Forall_forall. intros u Hu. by apply directive_use_exact, H1. }
    assert (filter (λ r, r ∉ use_name <$> directives a) (RequiredNames c) = []) as ->; [|done].
    apply elem_of_nil_inv. intros r [Hno Hr]%list_elem_of_filter. destruct (H2 r Hr) as (u & Hu & <-).
    apply Hno, list_elem_of_fmap. eauto.
Qed.

Lemma check_block_exact reg ag b n : check_block reg ag b n = [] ↔
  (n ≠ EmptyString → ∀ a c, ag !! n = Some a → Lookup reg (use_paradigm a) = Some c →
   block_conforms c (typed_directives b)).
Proof.
  unfold check_block. case_bool_decide as Ht; cbn.
  { split; [|done]. intros _ _ a c _ _. rewrite Ht. by apply block_rules_exact. }
  case_bool_decide as Hn; [naive_solver|]. destruct (ag !! n) as [a|]; cbn; [|naive_solver].
  destruct (Lookup reg (use_paradigm a)) as [c|] eqn:Hc; cbn; [|naive_solver].
  rewrite block_rules_exact. naive_solver.
Qed.

Lemma declared_empty doc n a : declared_agents doc !! n = Some a → directives a = [].
Proof.
  unfold declared_agents. assert (∀ ds ag, (∀ n a, ag !! n = Some a → directives a = []) →
    ∀ n a, foldl (λ acc decl,
      match decl with
      | AgentDecl sp name agentType =>
          <[trim_space (id_Value name) :=
              {| use_paradigm := trim_space (id_Value agentType); agent_span := sp; directives := [] |}]> acc
      | _ => acc
      end) (ag : Agents) ds !! n = Some a → directives a = []) as Hall.
  - induction ds as [|d ds IH]; intros ag Hag; [exact Hag|]. cbn. apply IH. destruct d; try exact Hag.
    intros m b. rewrite lookup_insert_Some. intros [[_ <-]|[_ Hb]]; [done|by eapply Hag].
  - apply Hall. intros m b. by rewrite lookup_empty.
Qed.

(** The agents with their uses. *)
Lemma gathered doc n a' : gatherAgentContractUses doc !! n = Some a' ↔
  ∃ a, declared_agents doc !! n = Some a ∧ gatherAgentContractUses doc !! n = Some a' ∧
    use_paradigm a' = use_paradigm a ∧ ∀ u, u ∈ directives a' ↔ use_in doc n u ∧ use_name u ≠ EmptyString.
Proof.
  split; [|naive_solver]. intros Ha'. pose proof (gather_grows doc n) as Hg.
  destruct (declared_agents doc !! n) as [a|] eqn:Ha; [|congruence]. exists a.
  destruct Hg as (a2 & Ha2 & Hp & _ & Hd). assert (a2 = a') as -> by congruence. split_and!; try done.
  intros u. rewrite Hd, (declared_empty doc n a Ha), elem_of_nil. tauto.
Qed.

Lemma gathered_all doc n a : declared_agents doc !! n = Some a → is_Some (gatherAgentContractUses doc !! n).
Proof. intros Ha. pose proof (gather_grows doc n) as Hg. rewrite Ha in Hg. destruct Hg as (a' & ? & _). eauto. Qed.

Lemma blocks_exact doc reg ag : validateDocumentBlockRules doc reg ag = [] ↔
  ∀ n b, block_in doc n b → check_block reg ag b n = [].
Proof.
  unfold validateDocumentBlockRules, block_in. rewrite bind_nil, Forall_forall. split.
  - intros H' n b (i & Hi & Hof). specialize (H' _ Hi). cbn in H'. rewrite block_item_exact in H'. eauto.
  - intros H' d Hd. destruct d as [| | | | |i]; try done. apply block_item_exact. eauto.
Qed.

