(* ===== verification/RecipeSemantic.v ===== *)
(** * Semantic analysis of recipes

    named/euclo/thoughtrecipes/semantic.go and capability.go: the symbol table of a
    document, the resolution of its names, tools, prompts, capabilities and references,
    and the trigger policy.  Resolution writes the resolved tool names and prompt ids into
    the tree, so the passes return it; [validateImports] visits a Go map, whose order is an
    argument. *)
From stdpp Require Import pretty.
From S2P Require Import Prelude GoStrings GoLoop Policy Selector RecipeLexer RecipeAst RecipeNames.
From S2P Require Import RecipeVocabulary Paradigm RecipeDirectives RecipeContracts.

Local Open Scope Z_scope.

(** ** Capabilities and trigger policies (capability.go) *)
Record TriggerPolicyRequirements := { ReadWorkspace : bool; WriteWorkspace : bool; AskUser : bool }.
Definition no_requirements : TriggerPolicyRequirements :=
  {| ReadWorkspace := false; WriteWorkspace := false; AskUser := false |}.

Record TriggerAssociationMetadata := {
  Families : list string; Keywords : list string; HandoffTargets : list string; meta_Tags : list string
}.

(** [inv.Target] and [inv.Input] are [nil] or not; the arguments repeat them. *)
Record CapabilityInvocationPlan := { plan_CapabilityID : string; plan_Target : string; plan_Input : string }.

Definition NormalizeCapabilityReference (name : string) : string :=
  let name := trim_space name in
  if bool_decide (name = EmptyString) then EmptyString
  else if contains name ":" then name
  else "euclo:cap." +:+ name.

Definition namespaces : list string := [KeyInput; KeyState; KeyScratch; KeyUser; KeyOutput].

Definition lowerInvocationReference (v : ValueExpr) (clause : string) : result string :=
  let sp := value_span v in
  match valueExprPath (Some v) with
  | None => Err (loc_err sp "%s operand must be a reference" [clause])
  | Some p =>
      match Parts p with
      | ns :: _ :: _ =>
          if bool_decide (to_lower (trim_space (id_Value ns)) ∈ namespaces) then Ok (valueExprRaw (Some v))
          else Err (loc_err sp "%s operand must use input, state, scratch, user, or output" [clause])
      | _ => Err (loc_err sp "%s operand must be a namespaced reference" [clause])
      end
  end.

(** What an invocation holds. *)
Record Invocation := {
  inv_Span : SourceSpan; Namespace : Identifier; Capability : Identifier;
  inv_Target : option ValueExpr; inv_Input : option ValueExpr
}.

Definition lower_operand (v : option ValueExpr) (clause : string) : result string :=
  match v with None => Ok EmptyString | Some v => lowerInvocationReference v clause end.

Definition LowerCapabilityInvocation (inv : Invocation) : result CapabilityInvocationPlan :=
  if negb (bool_decide (trim_space (id_Value (Namespace inv)) = "relurpic")) then
    Err (loc_err (inv_Span inv) "unsupported capability namespace %q" [id_Value (Namespace inv)])
  else
    let id := NormalizeCapabilityReference (id_Value (Capability inv)) in
    if bool_decide (id = EmptyString) then Err (loc_err (inv_Span inv) "capability name is required" [])
    else
      let! target := lower_operand (inv_Target inv) "on" in
      let! input := lower_operand (inv_Input inv) "with" in
      Ok {| plan_CapabilityID := id; plan_Target := target; plan_Input := input |}.

Definition add_policy_line (req : TriggerPolicyRequirements) (line : TriggerLine) : result TriggerPolicyRequirements :=
  let effect := to_lower (trim_space (id_Value (Effect line))) in
  let resource := to_lower (trim_space (valueExprRaw (tl_Resource line))) in
  if bool_decide (effect = "read") then
    if negb (bool_decide (resource = "workspace")) then Err (loc_err (tl_Span line) "may read requires workspace" [])
    else Ok {| ReadWorkspace := true; WriteWorkspace := WriteWorkspace req; AskUser := AskUser req |}
  else if bool_decide (effect = "write") then
    if negb (bool_decide (resource = "workspace")) then Err (loc_err (tl_Span line) "may write requires workspace" [])
    else Ok {| ReadWorkspace := ReadWorkspace req; WriteWorkspace := true; AskUser := AskUser req |}
  else if bool_decide (effect = "ask") then
    if negb (bool_decide (resource = KeyUser)) then Err (loc_err (tl_Span line) "may ask requires user" [])
    else Ok {| ReadWorkspace := ReadWorkspace req; WriteWorkspace := WriteWorkspace req; AskUser := true |}
  else Err (loc_err (tl_Span line) "unsupported trigger effect %q" [id_Value (Effect line)]).

Fixpoint policy_of_lines (req : TriggerPolicyRequirements) (lines : list TriggerLine) : result TriggerPolicyRequirements :=
  match lines with
  | [] => Ok req
  | l :: rest => let! req' := add_policy_line req l in policy_of_lines req' rest
  end.
Definition TriggerPolicyFromDecl (d : TriggerDeclaration) : result TriggerPolicyRequirements :=
  policy_of_lines no_requirements (Lines d).

Definition SupportedTriggerAssociations : list string := ["family"; "keyword"; "handoff"].

Definition normalizeTriggerTag (value : string) : string :=
  let value := trim_space value in
  if bool_decide (value = EmptyString) then EmptyString else to_lower (trim_space (unquoteString value)).

Definition add_new (x : string) (l : list string) : list string := if bool_decide (x ∈ l) then l else l ++ [x].

(** One tag: a tag its own list already has is skipped altogether. *)
Definition add_tag (kind tag : string) (m : TriggerAssociationMetadata) : TriggerAssociationMetadata :=
  let tags := add_new tag (meta_Tags m) in
  if bool_decide (kind = "family") then
    if bool_decide (tag ∈ Families m) then m
    else {| Families := Families m ++ [tag]; Keywords := Keywords m; HandoffTargets := HandoffTargets m; meta_Tags := tags |}
  else if bool_decide (kind = "keyword") then
    if bool_decide (tag ∈ Keywords m) then m
    else {| Families := Families m; Keywords := Keywords m ++ [tag]; HandoffTargets := HandoffTargets m; meta_Tags := tags |}
  else
    if bool_decide (tag ∈ HandoffTargets m) then m
    else {| Families := Families m; Keywords := Keywords m; HandoffTargets := HandoffTargets m ++ [tag]; meta_Tags := tags |}.

Fixpoint add_tags (sp : SourceSpan) (kind : string) (m : TriggerAssociationMetadata) (values : list (option ValueExpr))
    : result TriggerAssociationMetadata :=
  match values with
  | [] => Ok m
  | v :: rest =>
      let tag := normalizeTriggerTag (valueExprRaw v) in
      if bool_decide (tag = EmptyString) then Err (loc_err sp "trigger %s contains an empty tag" [kind])
      else add_tags sp kind (add_tag kind tag m) rest
  end.

Fixpoint add_associations (m : TriggerAssociationMetadata) (ds : list TriggerAssociationDecl)
    : result TriggerAssociationMetadata :=
  match ds with
  | [] => Ok m
  | d :: rest =>
      let kind := to_lower (trim_space (id_Value (ta_Name d))) in
      if negb (bool_decide (kind ∈ SupportedTriggerAssociations)) then
        Err (loc_err (ta_Span d) "unsupported trigger association %q" [id_Value (ta_Name d)])
      else let! m' := add_tags (ta_Span d) kind m (Entries (Values d)) in add_associations m' rest
  end.
Definition TriggerAssociationsFromDecl (d : TriggerDeclaration) : result TriggerAssociationMetadata :=
  add_associations {| Families := []; Keywords := []; HandoffTargets := []; meta_Tags := [] |} (Associations d).

(** The empty string is the unknown kind. *)
Definition TriggerRouteKindFromDecl (d : TriggerDeclaration) : string :=
  let kind := to_lower (trim_space (RouteKind d)) in
  let kind := if bool_decide (kind = EmptyString) then to_lower (trim_space (id_Value (td_Policy d))) else kind in
  if bool_decide (kind ∈ ["capability"; "intent"]) then kind else EmptyString.

Definition write_effects : list string :=
  [EffectClassFilesystemMutation; EffectClassProcessSpawn; EffectClassNetworkEgress; EffectClassCredentialUse;
   EffectClassExternalState; EffectClassSessionCreation].
Definition write_risks : list string :=
  [RiskClassDestructive; RiskClassExecute; RiskClassNetwork; RiskClassCredentialed; RiskClassExfiltration;
   RiskClassSessioned].
Definition write_tags : list string := ["write"; "mutating"; "destructive"; "refactor"; "shell"; "process"].

Definition capabilityRequiresWrite (d : CapabilityDescriptor) : bool :=
  existsb (λ e, bool_decide (e ∈ write_effects)) (desc_EffectClasses d) ||
  existsb (λ r, bool_decide (r ∈ write_risks)) (desc_risks d) ||
  existsb (λ t, bool_decide (to_lower (trim_space t) ∈ write_tags)) (desc_Tags d) ||
  (let category := to_lower (trim_space (desc_Category d)) in
   contains category "refactor" || contains category "patch" || contains category "testing").

Definition CapabilityRequirementsFromDescriptor (d : CapabilityDescriptor) : TriggerPolicyRequirements :=
  {| ReadWorkspace := true; WriteWorkspace := capabilityRequiresWrite d; AskUser := false |}.

Definition CapabilityRequirementsSatisfied (trigger capability : TriggerPolicyRequirements) : bool :=
  negb (ReadWorkspace capability && negb (ReadWorkspace trigger)) &&
  negb (WriteWorkspace capability && negb (WriteWorkspace trigger)) &&
  negb (AskUser capability && negb (AskUser trigger)).

(** ** The symbol table (semantic.go) *)

(** The registries the table is wired to; [None] is a nil interface. *)
Record Registries := {
  capability : option ToolVocabularyLookup;
  prompts : option (string → bool);
  recipes : option (string → bool);
  paradigms : ContractRegistry
}.

Record Import := { imp_Kind : string; imp_Target : string; imp_Span : SourceSpan }.

(** Of the agents and types only the names are used, of an input its source. *)
Record SymbolTable := {
  agents : gset string;
  inputs : gmap string (option ValueExpr);
  types : gset string;
  imports : gmap string Import;
  declared : gmap string SourceSpan;
  trigger : option TriggerDeclaration;
  invocations : list Invocation
}.
Definition NewSymbolTable : SymbolTable :=
  {| agents := ∅; inputs := ∅; types := ∅; imports := ∅; declared := ∅; trigger := None; invocations := [] |}.

Definition set_declared (f : gmap string SourceSpan → gmap string SourceSpan) (s : SymbolTable) : SymbolTable :=
  {| agents := agents s; inputs := inputs s; types := types s; imports := imports s; declared := f (declared s);
     trigger := trigger s; invocations := invocations s |}.
Definition add_input (n : string) (src : option ValueExpr) (s : SymbolTable) : SymbolTable :=
  {| agents := agents s; inputs := <[n := src]> (inputs s); types := types s; imports := imports s;
     declared := declared s; trigger := trigger s; invocations := invocations s |}.
Definition add_type (n : string) (s : SymbolTable) : SymbolTable :=
  {| agents := agents s; inputs := inputs s; types := {[n]} ∪ types s; imports := imports s;
     declared := declared s; trigger := trigger s; invocations := invocations s |}.
Definition add_import (n : string) (i : Import) (s : SymbolTable) : SymbolTable :=
  {| agents := agents s; inputs := inputs s; types := types s; imports := <[n := i]> (imports s);
     declared := declared s; trigger := trigger s; invocations := invocations s |}.
Definition add_agent (n : string) (s : SymbolTable) : SymbolTable :=
  {| agents := {[n]} ∪ agents s; inputs := inputs s; types := types s; imports := imports s;
     declared := declared s; trigger := trigger s; invocations := invocations s |}.
Definition set_trigger (d : TriggerDeclaration) (s : SymbolTable) : SymbolTable :=
  {| agents := agents s; inputs := inputs s; types := types s; imports := imports s;
     declared := declared s; trigger := Some d; invocations := invocations s |}.
Definition add_invocation (i : Invocation) (s : SymbolTable) : SymbolTable :=
  {| agents := agents s; inputs := inputs s; types := types s; imports := imports s;
     declared := declared s; trigger := trigger s; invocations := invocations s ++ [i] |}.

(** ** Collection *)
Definition registerTopLevel (name : string) (sp : SourceSpan) (s : SymbolTable) : result SymbolTable :=
  if bool_decide (name = EmptyString) then Err (loc_err sp "declaration name required" [])
  else match declared s !! name with
       | Some prev =>
           Err (loc_err sp "duplicate declaration %q (previously declared at %s:%d:%d)"
             [name; sl_File (Start prev); pretty (sl_Line (Start prev)); pretty (sl_Column (Start prev))])
       | None => Ok (set_declared <[name := sp]> s)
       end.

Definition collect_decl (d : Declaration) (s : SymbolTable) : result SymbolTable :=
  match d with
  | InputDecl sp name src =>
      let n := trim_space (id_Value name) in let! s := registerTopLevel n sp s in Ok (add_input n src s)
  | TypeDecl sp name _ =>
      let n := trim_space (id_Value name) in let! s := registerTopLevel n sp s in Ok (add_type n s)
  | ImportDecl sp kind target alias =>
      let n := trim_space (id_Value alias) in
      let! s := registerTopLevel n sp s in
      Ok (add_import n {| imp_Kind := kind; imp_Target := path_Raw target; imp_Span := sp |} s)
  | AgentDecl sp name _ =>
      let n := trim_space (id_Value name) in let! s := registerTopLevel n sp s in Ok (add_agent n s)
  | _ => Ok s
  end.

Fixpoint collectTopLevelSymbols (ds : list Declaration) (s : SymbolTable) : result SymbolTable :=
  match ds with
  | [] => Ok s
  | d :: ds' => let! s' := collect_decl d s in collectTopLevelSymbols ds' s'
  end.

(** ** Imports *)
Definition ImportKindPrompt : string := "prompt".
Definition ImportKindRecipe : string := "recipe".

Definition validateImport (regs : Registries) (docName : string) (b : string * Import) : option gerror :=
  let '(alias, i) := b in
  let target := trim_space (imp_Target i) in
  let fail := λ msg args, Some (loc_err (imp_Span i) msg args) in
  if bool_decide (target = EmptyString) then fail "import target is required" []
  else if bool_decide (target = trim_space docName) then fail "direct import cycle for %q" [target]
  else if bool_decide (imp_Kind i = ImportKindPrompt) then
    match prompts regs with
    | None => fail "prompt registry is required for prompt import %q" [alias]
    | Some get => if get target then None else fail "unknown prompt import %q -> %q" [alias; target]
    end
  else if bool_decide (imp_Kind i = ImportKindRecipe) then
    match recipes regs with
    | None => fail "thoughtrecipe registry is required for recipe import %q" [alias]
    | Some get => if get target then None else fail "unknown recipe import %q -> %q" [alias; target]
    end
  else fail "unsupported import kind %q" [imp_Kind i].

(** [order]: the bindings in the order the map is visited. *)
Definition validateImports (regs : Registries) (docName : string) (order : list (string * Import)) : option gerror :=
  first_err (validateImport regs docName) order.

(** ** References *)
Section references.
Context (s : SymbolTable).

Definition validateNamespace (p : PathExpr) : option gerror :=
  match Parts p with
  | [] => Some (loc_err (path_Span p) "empty namespace reference" [])
  | ns :: rest =>
      let namespace := trim_space (id_Value ns) in
      if bool_decide (namespace = KeyInput) then
        match rest with
        | [] => Some (loc_err (path_Span p) "input reference requires a name" [])
        | n :: _ =>
            if bool_decide (is_Some (inputs s !! id_Value n)) then None
            else Some (loc_err (path_Span p) "unknown input %q" [id_Value n])
        end
      else if bool_decide (namespace ∈ [KeyState; KeyScratch; KeyUser; KeyOutput]) then
        match rest with
        | [] => Some (loc_err (path_Span p) "%s reference requires a field name" [namespace])
        | _ => None
        end
      else Some (loc_err (path_Span p) "unknown namespace %q" [namespace])
  end.

Definition validateValueNamespace (v : ValueExpr) : option gerror :=
  match valueExprPath (Some v) with
  | None => None
  | Some p => match Parts p with _ :: _ :: _ => validateNamespace p | _ => None end
  end.

Fixpoint validateReference (v : ValueExpr) : option gerror :=
  match v with
  | VPath _ | VIdentifier _ => validateValueNamespace v
  | VString _ | VNumber _ => None
  | VList (MkListLiteral _ _ es) =>
      first_err (λ o, match o with Some e => validateReference e | None => None end) es
  end.
Definition resolveValueExpr (v : option ValueExpr) : option gerror :=
  match v with Some v => validateReference v | None => None end.

Fixpoint resolveTypeExpr (t : TypeExpr) : option gerror :=
  match t with
  | NamedTypeExpr sp p =>
      let name := trim_space (path_Raw p) in
      if isBuiltInType name || bool_decide (name ∈ types s) || isLowerLiteral name then None
      else Some (loc_err sp "unknown type %q" [name])
  | ListTypeExpr _ t | OptionalTypeExpr _ t => resolveTypeExpr t
  | MapTypeExpr _ k v => match resolveTypeExpr k with Some e => Some e | None => resolveTypeExpr v end
  | UnionTypeExpr _ ts => first_err resolveTypeExpr ts
  end.

Definition inputDeclHasUserOrigin (src : option ValueExpr) : bool :=
  match valueExprPath src with
  | Some p => match Parts p with ns :: _ :: _ => bool_decide (id_Value ns = KeyUser) | _ => false end
  | None => false
  end.

Definition captureSourceCanCarryUserOrigin (source : option ValueExpr) : bool :=
  match valueExprPath source with
  | Some p =>
      match Parts p with
      | ns :: n :: _ =>
          if bool_decide (id_Value ns = KeyUser) then true
          else if bool_decide (id_Value ns = KeyInput) then
            match inputs s !! id_Value n with Some src => inputDeclHasUserOrigin src | None => false end
          else false
      | _ => false
      end
  | None => false
  end.

Definition resolveBinding (b : CaptureBinding) : option gerror :=
  first_error [
    resolveValueExpr (cb_Source b);
    t ← Annotation b; resolveTypeExpr t;
    e ← Epistemics b;
      if negb (bool_decide (ep_Value e ∈ ["claimed"; "given"])) then
        Some (loc_err (cb_Span b) "unknown epistemic annotation %q (expected claimed|given)" [ep_Value e])
      else check (bool_decide (ep_Value e = "given") && negb (captureSourceCanCarryUserOrigin (cb_Source b)))
        (loc_err (cb_Span b) "'as given' requires a user-origin source (user.* or an input declared from user.request)" []);
    validateReference (VPath (Destination b))].
Definition resolveCaptureBlock (c : CaptureBlock) : option gerror := first_err resolveBinding (Bindings c).

Definition resolvePredicateExpr (p : PredicateExpr) : option gerror :=
  if bool_decide (pred_Kind p = EmptyString) && bool_decide (pred_Raw p = EmptyString) then None
  else if bool_decide (pred_Kind p ∈ ["missing"; "present"]) then validateReference (VPath (Subject p))
  else first_error [validateReference (VPath (Subject p)); resolveValueExpr (pred_Value p)].
End references.

(** ** Prompts *)
Definition resolvePromptRef (regs : Registries) (s : SymbolTable) (ref : PromptRef) (context : string) : result PromptRef :=
  let alias := trim_space (id_Value (ref_Name ref)) in
  let fail := λ msg args, Err (loc_err (ref_Span ref) msg args) in
  if bool_decide (alias = EmptyString) then fail "%s prompt binding is required" [context]
  else match imports s !! alias with
       | None => fail "unknown prompt binding %q" [alias]
       | Some i =>
           if negb (bool_decide (imp_Kind i = ImportKindPrompt)) then fail "binding %q is not a prompt import" [alias]
           else match prompts regs with
                | None => fail "prompt registry is required for prompt binding %q" [alias]
                | Some get =>
                    let target := trim_space (imp_Target i) in
                    if bool_decide (target = EmptyString) then fail "prompt binding %q has no registry target" [alias]
                    else if get target then Ok {| ref_Span := ref_Span ref; ref_Name := ref_Name ref; ResolvedID := target |}
                    else fail "unknown prompt target %q for binding %q" [target; alias]
                end
       end.

Definition resolvePromptClause (regs : Registries) (s : SymbolTable) (text : string) (ref : option PromptRef)
    (sp : SourceSpan) (context : string) : result (option PromptRef) :=
  let hasText := negb (is_blank text) in
  match ref with
  | Some r =>
      if is_blank (id_Value (ref_Name r)) then
        if hasText then Ok ref
        else Err (loc_err sp "%s clause requires either inline text or a prompt binding" [context])
      else if hasText then Err (loc_err sp "%s clause cannot use both inline text and a prompt binding" [context])
      else let! r' := resolvePromptRef regs s r context in Ok (Some r')
  | None =>
      if hasText then Ok None
      else Err (loc_err sp "%s clause requires either inline text or a prompt binding" [context])
  end.

(** ** Tools *)
Definition canonicalToolNameEntry (v : option ValueExpr) : string :=
  match v with
  | Some (VString s) => trim_space (str_Value s)
  | Some (VIdentifier i) => trim_space (id_Value i)
  | _ => trim_space (valueExprRaw v)
  end.

(** The declared names, in order and without repetitions. *)
Fixpoint declared_tools (sp : SourceSpan) (names : list string) (entries : list (option ValueExpr)) : result (list string) :=
  match entries with
  | [] => Ok names
  | e :: rest =>
      let name := canonicalToolNameEntry e in
      if bool_decide (name = EmptyString) then Err (loc_err sp "empty tool name is not allowed" [])
      else declared_tools sp (add_new name names) rest
  end.

Definition resolveToolNames (regs : Registries) (docName : string) (d : ToolInvokePolicyDecl) (stepLabel : string)
    : result (list string) :=
  match Entries (ToolNames d) with
  | [] => Err (loc_err (tip_Span d) "tool name list is required" [])
  | entries =>
      let! names := declared_tools (tip_Span d) [] entries in
      match ResolveDeclaredToolNames docName stepLabel names (capability regs) with
      | Some e => Err e
      | None => Ok names
      end
  end.

Definition resolveToolInvokePolicyDecl (regs : Registries) (docName : string) (d : ToolInvokePolicyDecl)
    (stepLabel : string) : result ToolInvokePolicyDecl :=
  let! names := resolveToolNames regs docName d stepLabel in
  Ok {| tip_Span := tip_Span d; ToolNames := ToolNames d; ResolvedToolNames := names; tip_Raw := tip_Raw d |}.

(** ** Items

    The passes return the item with its resolved names. *)
Section map_se.
Context {S A B : Type} (f : A → SE S B).
Fixpoint map_se (l : list A) : SE S (list B) :=
  match l with
  | [] => se_ret []
  | x :: l' => let* y := f x in let* ys := map_se l' in se_ret (y :: ys)
  end.
End map_se.

Section resolve.
Context (regs : Registries) (docName : string).

Definition resolveCapabilityInvocation (inv : Invocation) : SE SymbolTable unit :=
  let* call := se_result (LowerCapabilityInvocation inv) in
  let name := id_Value (Capability inv) in
  let unknown := loc_err (inv_Span inv) "unknown capability %q" [name] in
  se_check (λ s,
    match capability regs with
    | Some lk =>
        first_error [
          check (negb (bool_decide (is_Some (GetCapability lk (plan_CapabilityID call)))) &&
                 negb (bool_decide (is_Some (GetCapability lk (trim_space name))))) unknown;
          check (is_blank name) unknown]
    | None => None
    end) ;;;
  se_check (λ s, first_error [resolveValueExpr s (inv_Target inv); resolveValueExpr s (inv_Input inv)]) ;;;
  se_mod (add_invocation inv).

Definition resolveStreamClause (sp : SourceSpan) (query : StringLiteral) (maxTokens : option NumberLiteral) (mode : string)
    : option gerror :=
  let mode' := trim_space mode in
  first_error [
    check (is_blank (str_Value query)) (loc_err sp "stream requires a non-empty query string" []);
    check (negb (bool_decide (mode' ∈ [EmptyString; "blocking"; "background"])))
      (loc_err sp "unsupported stream mode %q (want blocking or background)" [mode']);
    n ← maxTokens;
      check (match Atoi (trim_space (num_Value n)) with Some z => z <? 0 | None => true end)
        (loc_err sp "stream max must be a non-negative integer, got %q" [num_Value n])].

Definition resolveAskItem (i : AskItem) : SE SymbolTable AskItem :=
  match i with
  | QuestionClause sp text ref =>
      let* s := se_get id in
      let* ref' := se_result (resolvePromptClause regs s (str_Value text) ref sp "question") in
      se_ret (QuestionClause sp text ref')
  | ChoicesListClause _ _ items => se_check (λ s, first_err (resolveValueExpr s) items) ;;; se_ret i
  | ChoicesReferenceClause _ src => se_check (λ s, resolveValueExpr s src) ;;; se_ret i
  | AskCapture c => se_check (λ s, resolveCaptureBlock s c) ;;; se_ret i
  end.

(** The check of a run or delegate target. *)
Definition check_agent (agent : string) (sp : SourceSpan) (s : SymbolTable) : option gerror :=
  if is_blank agent then Some (loc_err sp "run/delegate target is required" [])
  else check (negb (bool_decide (agent ∈ agents s))) (loc_err sp "unknown agent %q" [agent]).

(** The check of a stage's name against the stages before it. *)
Definition check_stage (seen : gmap string SourceSpan) (sp : SourceSpan) (name : string) : option gerror :=
  if bool_decide (name = EmptyString) then Some (loc_err sp "stage name required" [])
  else match seen !! name with
       | Some prev =>
           Some (loc_err sp "duplicate stage %q (previously declared at %s:%d:%d)"
             [name; sl_File (Start prev); pretty (sl_Line (Start prev)); pretty (sl_Column (Start prev))])
       | None => None
       end.

(** The stages of a pipeline; [seen] are those before. *)
Section stages.
Context (resolve : string → ExecutionItem → SE SymbolTable ExecutionItem).
Fixpoint resolve_stages (seen : gmap string SourceSpan) (l : list PipelineStage) : SE SymbolTable (list PipelineStage) :=
  match l with
  | [] => se_ret []
  | MkPipelineStage sp name body :: l' =>
      let n := trim_space (id_Value name) in
      se_check (λ _, check_stage seen sp n) ;;;
      let* body' := map_se (resolve ("pipeline stage " +:+ n)) body in
      let* rest := resolve_stages (<[n := sp]> seen) l' in
      se_ret (MkPipelineStage sp name body' :: rest)
  end.
End stages.

Fixpoint resolveExecutionItem (stepLabel : string) (i : ExecutionItem) : SE SymbolTable ExecutionItem :=
  match i with
  | FromClause _ src => se_check (λ s, resolveValueExpr s src) ;;; se_ret i
  | GoalClause sp text ref =>
      let* s := se_get id in
      let* ref' := se_result (resolvePromptClause regs s (str_Value text) ref sp "goal") in
      se_ret (GoalClause sp text ref')
  | DirectiveClause _ _ args _ _ => se_check (λ s, first_err (resolveValueExpr s) args) ;;; se_ret i
  | DirectiveBlock sp name args pred raw body =>
      se_check (λ s, first_err (resolveValueExpr s) args) ;;;
      se_check (λ s, p ← pred; resolvePredicateExpr s p) ;;;
      let* body' := map_se (resolveExecutionItem stepLabel) body in
      se_ret (DirectiveBlock sp name args pred raw body')
  | CapabilityInvocation sp ns cap target input =>
      resolveCapabilityInvocation
        {| inv_Span := sp; Namespace := ns; Capability := cap; inv_Target := target; inv_Input := input |} ;;;
      se_ret i
  | ToolPolicy d =>
      let* d' := se_result (resolveToolInvokePolicyDecl regs docName d stepLabel) in se_ret (ToolPolicy d')
  | StreamClause sp query maxTokens mode _ => se_check (λ _, resolveStreamClause sp query maxTokens mode) ;;; se_ret i
  | Capture c => se_check (λ s, resolveCaptureBlock s c) ;;; se_ret i
  | RunDecl sp agent items =>
      se_check (check_agent (id_Value agent) sp) ;;;
      let* items' := map_se (resolveExecutionItem (id_Value agent)) items in
      se_ret (RunDecl sp agent items')
  | DelegateDecl sp agent items =>
      se_check (check_agent (id_Value agent) sp) ;;;
      let* items' := map_se (resolveExecutionItem (id_Value agent)) items in
      se_ret (DelegateDecl sp agent items')
  | RouteDecl sp branches =>
      let label := if bool_decide (stepLabel = EmptyString) then "route" else stepLabel in
      let* branches' := map_se (λ '(MkRouteBranch bsp pred body isElse),
        se_check (λ s, if isElse then None else resolvePredicateExpr s pred) ;;;
        let* body' := map_se (resolveExecutionItem label) body in
        se_ret (MkRouteBranch bsp pred body' isElse)) branches in
      se_ret (RouteDecl sp branches')
  | AskDecl sp items => let* items' := map_se resolveAskItem items in se_ret (AskDecl sp items')
  | PipelineDecl sp stages =>
      let* stages' := resolve_stages resolveExecutionItem ∅ stages in
      se_ret (PipelineDecl sp stages')
  end.

(** ** Declarations *)
Definition resolveTriggerDecl (d : TriggerDeclaration) : SE SymbolTable TriggerDeclaration :=
  let* s := se_get id in
  se_check (λ _,
    match trigger s with
    | Some prev =>
        let l := Start (td_Span prev) in
        Some (loc_err (td_Span d) "duplicate trigger declaration (previously declared at %s:%d:%d)"
          [sl_File l; pretty (sl_Line l); pretty (sl_Column l)])
    | None => None
    end) ;;;
  let* _ := se_result (TriggerPolicyFromDecl d) in
  let* _ := se_result (TriggerAssociationsFromDecl d) in
  let* policies := map_se (λ p, se_result (resolveToolInvokePolicyDecl regs docName p "trigger")) (ToolPolicies d) in
  let d' := {| td_Span := td_Span d; td_Policy := td_Policy d; RouteKind := RouteKind d; Lines := Lines d;
               ToolPolicies := policies; Associations := Associations d |} in
  se_check (λ _, check (bool_decide (TriggerRouteKindFromDecl d = EmptyString))
    (loc_err (td_Span d) "unsupported trigger route %q" [id_Value (td_Policy d)])) ;;;
  se_mod (set_trigger d') ;;; se_ret d'.

Definition validateAgentParadigmBinding (sp : SourceSpan) (agentType : string) : option gerror :=
  let paradigm := trim_space agentType in
  if bool_decide (paradigm = EmptyString) then Some (loc_err sp "agent type is required" [])
  else match Lookup (paradigms regs) paradigm with
       | Some _ => None
       | None => Some (ErrMsg (contract_error_text
           (ErrUnknownParadigm paradigm (Names (paradigms regs)) (locationFromSpan sp))))
       end.

Definition resolveTypeDecl (s : SymbolTable) (body : RecordTypeDefinition) : option gerror :=
  first_err (λ f, resolveTypeExpr s (tf_Type f)) (Fields body).

(** Go's types admit no other item as a declaration. *)
Definition resolveDeclaration (d : Declaration) : SE SymbolTable Declaration :=
  match d with
  | TriggerDecl t => let* t' := resolveTriggerDecl t in se_ret (TriggerDecl t')
  | InputDecl _ _ src => se_check (λ s, resolveValueExpr s src) ;;; se_ret d
  | TypeDecl _ _ body => se_check (λ s, resolveTypeDecl s body) ;;; se_ret d
  | AgentDecl sp _ agentType => se_check (λ _, validateAgentParadigmBinding sp (id_Value agentType)) ;;; se_ret d
  | ImportDecl _ _ _ _ => se_ret d
  | BlockDecl i => let* i' := resolveExecutionItem EmptyString i in se_ret (BlockDecl i')
  end.

Definition resolveDeclarations : list Declaration → SE SymbolTable (list Declaration) := map_se resolveDeclaration.

(** ** The capability policy *)
Definition lookupCapability (inv : Invocation) : option CapabilityDescriptor :=
  match capability regs with
  | None => None
  | Some lk =>
      let id := NormalizeCapabilityReference (id_Value (Capability inv)) in
      match (if bool_decide (id = EmptyString) then None else GetCapability lk id) with
      | Some d => Some d
      | None => GetCapability lk (trim_space (id_Value (Capability inv)))
      end
  end.

(** Only the top-level declarations are searched. *)
Definition hasAskUserDecl (ds : list Declaration) : bool :=
  existsb (λ d, match d with BlockDecl (AskDecl _ _) => true | _ => false end) ds.

Definition writeSuffix (r : TriggerPolicyRequirements) : string :=
  if WriteWorkspace r then " and write workspace" else EmptyString.

Definition validateCapabilityPolicy (h : Header) (ds : list Declaration) (s : SymbolTable) : option gerror :=
  match trigger s with
  | None => Some (loc_err (hd_Span h) "thoughtrecipe must declare a trigger" [])
  | Some t =>
      match TriggerPolicyFromDecl t with
      | Err e => Some e
      | Ok policy =>
          match invocations s, capability regs with
          | inv :: _, None =>
              Some (loc_err (inv_Span inv) "capability registry is required to validate capability invocations" [])
          | invs, _ =>
              if negb (bool_decide (TriggerRouteKindFromDecl t = "capability")) then None
              else first_error [
                check (hasAskUserDecl ds && negb (AskUser policy))
                  (loc_err (td_Span t) "ask user blocks require trigger policy line 'may ask user'" []);
                first_err (λ inv,
                  match lookupCapability inv with
                  | None => None
                  | Some d =>
                      let required := CapabilityRequirementsFromDescriptor d in
                      check (negb (CapabilityRequirementsSatisfied policy required))
                        (loc_err (inv_Span inv) "capability %q requires trigger policy allowing read workspace%s"
                           [id_Value (Capability inv); writeSuffix required])
                  end) invs]
          end
      end
  end.
End resolve.

(** [validateContracts]: the joined errors. *)
Definition validateContracts (regs : Registries) (doc : Document) : option gerror :=
  match ValidateAgainstContracts doc (paradigms regs) with
  | [] => None
  | errs => Some (ErrMsg (String.concat (byte_str [10%nat]) (contract_error_text <$> errs)))
  end.

Definition set_declarations (ds : list Declaration) (doc : Document) : Document :=
  {| SourcePath := SourcePath doc; doc_Name := doc_Name doc; doc_Header := doc_Header doc; Declarations := ds |}.

(** [Resolve]: the document with its names resolved, and the table. [order] is the visit
    order of the imports. *)
Definition Resolve (regs : Registries) (order : list (string * Import) → list (string * Import)) (doc : Document)
    : result (Document * SymbolTable) :=
  if is_blank (doc_Name doc) then Err (ErrMsg "thoughtrecipe name is required")
  else
    let! s := collectTopLevelSymbols (Declarations doc) NewSymbolTable in
    match validateImports regs (doc_Name doc) (order (map_to_list (imports s))) with
    | Some e => Err e
    | None =>
        match resolveDeclarations regs (doc_Name doc) (Declarations doc) s with
        | (Err e, _) => Err e
        | (Ok ds, s') =>
            let doc' := set_declarations ds doc in
            match first_error [validateContracts regs doc'; validateCapabilityPolicy regs (doc_Header doc) ds s'] with
            | Some e => Err e
            | None => Ok (doc', s')
            end
        end
    end.
