(* ===== verification/RecipeSemanticSafety.v ===== *)
(** * Semantic analysis of recipes: properties

    What an accepted recipe guarantees of every item of its tree, however deep. *)
From S2P Require Import Prelude GoStrings GoLoop Policy Selector RecipeLexer RecipeAst RecipeNames.
From S2P Require Import RecipeVocabulary RecipeVocabularySafety Paradigm RecipeDirectives RecipeContracts RecipeSemantic.

Local Open Scope Z_scope.

(** ** References *)

(** Every reference a value holds. *)
Fixpoint value_paths (v : ValueExpr) : list PathExpr :=
  match v with
  | VPath p => [p]
  | VList (MkListLiteral _ _ es) => es ≫= λ o, match o with Some e => value_paths e | None => [] end
  | _ => []
  end.
Definition opt_paths (v : option ValueExpr) : list PathExpr := match v with Some v => value_paths v | None => [] end.

(** A reference of two segments or more names a declared input or another known space. *)
Definition path_ok (s : SymbolTable) (p : PathExpr) : Prop :=
  match Parts p with
  | ns :: n :: _ =>
      let namespace := trim_space (id_Value ns) in
      namespace = KeyInput ∧ is_Some (inputs s !! id_Value n) ∨
      namespace ∈ [KeyState; KeyScratch; KeyUser; KeyOutput]
  | _ => True
  end.

Lemma value_ind (P : ValueExpr → Prop) :
  (∀ i, P (VIdentifier i)) → (∀ s, P (VString s)) → (∀ p, P (VPath p)) → (∀ m, P (VNumber m)) →
  (∀ sp raw es, Forall (λ o, ∀ e, o = Some e → P e) es → P (VList (MkListLiteral sp raw es))) → ∀ v, P v.
Proof.
  intros Hi Hs Hp Hm Hl. fix IH 1. intros [i|s|p|m|[sp raw es]]; [apply Hi|apply Hs|apply Hp|apply Hm|].
  apply Hl. induction es as [|[e|] es IHes]; constructor; [|exact IHes| |exact IHes].
  - pose proof (IH e) as He. intros ? [= <-]. exact He.
  - clear IH. intros ? [=].
Qed.

Lemma not_elem_input : KeyInput ∈ [KeyState; KeyScratch; KeyUser; KeyOutput] ↔ False.
Proof. rewrite !elem_of_cons, elem_of_nil. unfold KeyInput, KeyState, KeyScratch, KeyUser, KeyOutput. intuition congruence. Qed.

Lemma path_exact s p : validateValueNamespace s (VPath p) = None ↔ path_ok s p.
Proof.
  unfold validateValueNamespace, path_ok. cbn. destruct (Parts p) as [|ns [|n rest]] eqn:Hp; [done..|].
  unfold validateNamespace. rewrite Hp. cbn beta iota zeta.
  destruct (bool_decide_reflect (trim_space (id_Value ns) = KeyInput)) as [Hi|Hi].
  - rewrite Hi, (not_elem_input). case_bool_decide; [tauto|]. split; [done|]. by intros [[_ ?]|[]].
  - case_bool_decide; [tauto|]. split; [done|]. by intros [[? _]|?].
Qed.

Lemma reference_exact s v : validateReference s v = None ↔ Forall (path_ok s) (value_paths v).
Proof.
  induction v as [i|str|p|m|sp raw es IH] using value_ind; try (split; [constructor|done]).
  - cbn [validateReference value_paths]. rewrite path_exact, Forall_singleton. done.
  - cbn [validateReference value_paths]. rewrite first_err_None.
    induction IH as [|o es Ho _ IHes]; [split; [constructor|done]|].
    cbn [mbind list_bind]. rewrite Forall_cons, Forall_app, IHes. destruct o as [e|]; [by rewrite (Ho e)|].
    split; [by intros [_ ?]|by intros [_ ?]].
Qed.

Lemma value_exact s v : resolveValueExpr s v = None ↔ Forall (path_ok s) (opt_paths v).
Proof. destruct v as [v|]; [apply reference_exact|]. split; [constructor|done]. Qed.

Lemma values_exact s l : first_err (resolveValueExpr s) l = None ↔ Forall (path_ok s) (l ≫= opt_paths).
Proof.
  rewrite first_err_None. induction l as [|v l IH]; [split; constructor|].
  cbn [mbind list_bind]. by rewrite Forall_cons, Forall_app, IH, value_exact.
Qed.

(** The references of an item, apart from those of the items inside it. *)
Definition predicate_paths (p : PredicateExpr) : list PathExpr :=
  if bool_decide (pred_Kind p = EmptyString) && bool_decide (pred_Raw p = EmptyString) then []
  else Subject p :: if bool_decide (pred_Kind p ∈ ["missing"; "present"]) then [] else opt_paths (pred_Value p).
Definition capture_paths (c : CaptureBlock) : list PathExpr :=
  Bindings c ≫= λ b, opt_paths (cb_Source b) ++ [Destination b].
Definition ask_paths (i : AskItem) : list PathExpr :=
  match i with
  | QuestionClause _ _ _ => []
  | ChoicesListClause _ _ items => items ≫= opt_paths
  | ChoicesReferenceClause _ src => opt_paths src
  | AskCapture c => capture_paths c
  end.
Definition item_paths (i : ExecutionItem) : list PathExpr :=
  match i with
  | FromClause _ src => opt_paths src
  | DirectiveClause _ _ args _ _ => args ≫= opt_paths
  | DirectiveBlock _ _ args pred _ _ => (args ≫= opt_paths) ++ match pred with Some p => predicate_paths p | None => [] end
  | CapabilityInvocation _ _ _ target input => opt_paths target ++ opt_paths input
  | Capture c => capture_paths c
  | RouteDecl _ branches =>
      branches ≫= λ '(MkRouteBranch _ pred _ isElse), if isElse then [] else predicate_paths pred
  | AskDecl _ items => items ≫= ask_paths
  | _ => []
  end.

Lemma predicate_exact s p : resolvePredicateExpr s p = None ↔ Forall (path_ok s) (predicate_paths p).
Proof.
  unfold resolvePredicateExpr, predicate_paths. destruct (_ && _); [split; [constructor|done]|].
  case_bool_decide; [by rewrite Forall_singleton, (reference_exact s (VPath (Subject p))); cbn; rewrite Forall_singleton|].
  rewrite first_error_None, !Forall_cons, (reference_exact s (VPath (Subject p))), value_exact. cbn.
  rewrite Forall_singleton. split; [by intros (? & ? & _)|]. intros [? ?]. by repeat constructor.
Qed.

Lemma capture_exact s c : resolveCaptureBlock s c = None → Forall (path_ok s) (capture_paths c).
Proof.
  unfold resolveCaptureBlock, capture_paths. rewrite first_err_None. intros HF.
  apply Forall_bind. eapply Forall_impl; [exact HF|]. intros b Hb. unfold resolveBinding in Hb.
  rewrite first_error_None, !Forall_cons, value_exact, (reference_exact s (VPath _)) in Hb.
  destruct Hb as (? & _ & _ & Hd & _). by apply Forall_app.
Qed.

(** ** What resolution leaves behind

    Resolving an item changes nothing of the table but the invocations, to which it appends
    those of the item. *)
Definition adds (l : list Invocation) (s : SymbolTable) : SymbolTable :=
  {| agents := agents s; inputs := inputs s; types := types s; imports := imports s; declared := declared s;
     trigger := trigger s; invocations := invocations s ++ l |}.

Definition as_invocation (i : ExecutionItem) : list Invocation :=
  match i with
  | CapabilityInvocation sp ns cap target input =>
      [{| inv_Span := sp; Namespace := ns; Capability := cap; inv_Target := target; inv_Input := input |}]
  | _ => []
  end.
Definition tree_invocations (l : list ExecutionItem) : list Invocation := items_all l ≫= as_invocation.

Lemma adds_nil s : adds [] s = s.
Proof. destruct s. unfold adds. cbn. by rewrite app_nil_r. Qed.
Lemma adds_app l1 l2 s : adds l2 (adds l1 s) = adds (l1 ++ l2) s.
Proof. unfold adds. cbn. by rewrite app_assoc. Qed.

Lemma tree_invocations_cons i l : tree_invocations (i :: l) = tree_invocations [i] ++ tree_invocations l.
Proof. unfold tree_invocations, items_all. cbn [mbind list_bind]. by rewrite app_nil_r, bind_app. Qed.
Lemma tree_invocations_unfold i :
  tree_invocations [i] = as_invocation i ++ (item_bodies i ≫= tree_invocations).
Proof.
  unfold tree_invocations at 1, items_all. cbn [mbind list_bind].
  rewrite app_nil_r, item_all_unfold. cbn [mbind list_bind]. f_equal.
  induction (item_bodies i) as [|b bs IH]; [done|]. cbn [mbind list_bind]. by rewrite bind_app, IH.
Qed.
Lemma items_all_cons i l : items_all (i :: l) = item_all i ++ items_all l.
Proof. done. Qed.

(** What holds of each resolved item, given the table. *)
Section ok.
Context (regs : Registries) (docName : string).

(** Inline text, or a prompt the registry has under the target of its import. *)
Definition prompt_ok (s : SymbolTable) (text : string) (ref : option PromptRef) : Prop :=
  match ref with
  | Some r =>
      if is_blank (id_Value (ref_Name r)) then is_blank text = false
      else is_blank text = true ∧ ∃ i get, imports s !! trim_space (id_Value (ref_Name r)) = Some i ∧
        imp_Kind i = ImportKindPrompt ∧ ResolvedID r = trim_space (imp_Target i) ∧
        prompts regs = Some get ∧ get (ResolvedID r) = true
  | None => is_blank text = false
  end.

(** Its resolved names are those it declares, at least one, and the registry has each. *)
Definition policy_ok (d : ToolInvokePolicyDecl) : Prop :=
  Entries (ToolNames d) ≠ [] ∧
  declared_tools (tip_Span d) [] (Entries (ToolNames d)) = Ok (ResolvedToolNames d) ∧
  ∀ lk, capability regs = Some lk → Forall (resolves lk) (ResolvedToolNames d).

(** It lowers to a plan, and the registry has the capability. *)
Definition invocation_ok (inv : Invocation) : Prop :=
  (∃ plan, LowerCapabilityInvocation inv = Ok plan) ∧
  (capability regs ≠ None → lookupCapability regs inv ≠ None).

Definition stage_name (st : PipelineStage) : string := let '(MkPipelineStage _ n _) := st in trim_space (id_Value n).

Definition ask_ok (s : SymbolTable) (i : AskItem) : Prop :=
  Forall (path_ok s) (ask_paths i) ∧
  match i with QuestionClause _ text ref => prompt_ok s (str_Value text) ref | _ => True end.

Definition item_ok (s : SymbolTable) (i : ExecutionItem) : Prop :=
  Forall (path_ok s) (item_paths i) ∧ Forall invocation_ok (as_invocation i) ∧
  match i with
  | RunDecl _ agent _ | DelegateDecl _ agent _ => id_Value agent ∈ agents s
  | ToolPolicy d => policy_ok d
  | GoalClause _ text ref => prompt_ok s (str_Value text) ref
  | AskDecl _ items => Forall (ask_ok s) items
  | PipelineDecl _ stages => NoDup (stage_name <$> stages) ∧ EmptyString ∉ (stage_name <$> stages)
  | _ => True
  end.
Definition items_ok (s : SymbolTable) (l : list ExecutionItem) : Prop := Forall (item_ok s) (items_all l).

(** ** Passes that keep the table *)

(** The pass appends [inv] of its result to the invocations, and its result has [Q]. *)
Definition passes {B} (inv : B → list Invocation) (Q : SymbolTable → B → Prop) (m : SE SymbolTable B) : Prop :=
  ∀ s y s', m s = (Ok y, s') → s' = adds (inv y) s ∧ Q s y.

Lemma map_se_passes {A B} (f : A → SE SymbolTable B) (inv : B → list Invocation) (Q : SymbolTable → B → Prop) xs :
  (∀ l s y, Q (adds l s) y → Q s y) → Forall (λ x, passes inv Q (f x)) xs →
  passes (λ ys, ys ≫= inv) (λ s, Forall (Q s)) (map_se f xs).
Proof.
  intros HQ. induction 1 as [|x xs Hx _ IH]; intros s ys s'; cbn [map_se].
  - intros [= <- <-]. by rewrite adds_nil.
  - intros (y & s1 & [-> Hy]%Hx & (zs & s2 & [-> Hzs]%IH & [= <- <-])%se_bind_ok)%se_bind_ok.
    cbn [mbind list_bind]. rewrite adds_app. split; [done|]. constructor; [done|].
    eapply Forall_impl; [exact Hzs|]. intros z. apply HQ.
Qed.

Lemma item_passes s i bodies s' :
  item_ok s i → s' = adds (as_invocation i ++ (bodies ≫= tree_invocations)) s →
  Forall (items_ok s) bodies → item_bodies i = bodies →
  s' = adds (tree_invocations [i]) s ∧ items_ok s [i].
Proof.
  intros Hi -> Hb <-. rewrite tree_invocations_unfold. split; [done|].
  unfold items_ok, items_all. cbn [mbind list_bind]. rewrite app_nil_r, item_all_unfold.
  constructor; [done|]. by apply Forall_bind.
Qed.

(** ** Parts of an item *)
Lemma resolvePromptClause_ok s text ref sp ctx ref' :
  resolvePromptClause regs s text ref sp ctx = Ok ref' → prompt_ok s text ref'.
Proof.
  unfold resolvePromptClause, prompt_ok. destruct ref as [r|].
  2:{ destruct (is_blank text); [done|]. by intros [= <-]. }
  destruct (is_blank (id_Value (ref_Name r))) eqn:Hr.
  { destruct (is_blank text); [done|]. intros [= <-]. by rewrite Hr. }
  destruct (is_blank text); [|done]. intros (r' & Hres & [= <-])%rbind_ok.
  unfold resolvePromptRef in Hres. case_bool_decide; [done|].
  destruct (imports s !! _) as [i|] eqn:Hi; [|done].
  case_bool_decide as Hk; [|done]. cbn [negb] in Hres.
  destruct (prompts regs) as [get|]; [|done]. case_bool_decide; [done|].
  destruct (get _) eqn:Hget; [|done]. injection Hres as <-. cbn [ref_Name ResolvedID]. rewrite Hr.
  split; [done|]. exists i, get. by rewrite Hi, Hget.
Qed.

Lemma resolveToolInvokePolicyDecl_ok d label d' :
  resolveToolInvokePolicyDecl regs docName d label = Ok d' → policy_ok d'.
Proof.
  unfold resolveToolInvokePolicyDecl. intros (names & Hn & [= <-])%rbind_ok. revert Hn.
  unfold resolveToolNames, policy_ok. cbn [ToolNames ResolvedToolNames tip_Span].
  destruct (Entries (ToolNames d)) as [|e es] eqn:He; [done|].
  intros (ns & Hd & Hres)%rbind_ok. destruct (ResolveDeclaredToolNames _ _ _ _) eqn:Hr; [done|].
  injection Hres as <-. repeat split; [done|exact Hd|].
  intros lk Hlk. rewrite Hlk in Hr. by eapply declared_names_exact.
Qed.

Lemma resolveCapabilityInvocation_ok inv s u s' :
  resolveCapabilityInvocation regs inv s = (Ok u, s') →
  s' = adds [inv] s ∧ Forall (path_ok s) (opt_paths (inv_Target inv) ++ opt_paths (inv_Input inv)) ∧
  invocation_ok inv.
Proof.
  unfold resolveCapabilityInvocation.
  intros (plan & s1 & [Hlow ->]%se_result_ok & ([] & s2 & [Hreg ->]%se_check_ok &
    ([] & s3 & [Href ->]%se_check_ok & [= <- <-])%se_bind_ok)%se_bind_ok)%se_bind_ok.
  rewrite first_error_None, !Forall_cons, !value_exact in Href. destruct Href as (Ht & Hin & _).
  split; [done|]. split; [by apply Forall_app|]. split; [by eexists|].
  unfold LowerCapabilityInvocation in Hlow. destruct (negb _); [done|]. cbv zeta in Hlow.
  case_bool_decide as Hid; [done|]. apply rbind_ok in Hlow as (t & _ & (i & _ & [= <-])%rbind_ok).
  unfold lookupCapability. cbn [plan_CapabilityID] in Hreg. destruct (capability regs) as [lk|]; [|done].
  intros _. rewrite bool_decide_false by done.
  rewrite first_error_None, !Forall_cons, !check_None in Hreg. destruct Hreg as (Hb & _ & _).
  destruct (GetCapability lk (NormalizeCapabilityReference _)); [done|].
  rewrite (bool_decide_false (is_Some None)) in Hb by (intros [? [=]]). cbn [negb andb] in Hb.
  destruct (GetCapability lk _); [done|]. by rewrite bool_decide_false in Hb by (intros [? [=]]).
Qed.

Lemma resolveAskItem_ok i : passes (λ _, []) ask_ok (resolveAskItem regs i).
Proof.
  intros s y s'. unfold resolveAskItem, ask_ok. destruct i as [sp text ref|sp raw items|sp src|c].
  - intros (s0 & s1 & [= <- <-] & (ref' & s2 & [Hp ->]%se_result_ok & [= <- <-])%se_bind_ok)%se_bind_ok.
    rewrite adds_nil. split_and!; [done|constructor|]. by eapply resolvePromptClause_ok.
  - intros ([] & s1 & [Hc ->]%se_check_ok & [= <- <-])%se_bind_ok. rewrite adds_nil.
    split_and!; [done|by apply values_exact|done].
  - intros ([] & s1 & [Hc ->]%se_check_ok & [= <- <-])%se_bind_ok. rewrite adds_nil.
    split_and!; [done|by apply value_exact|done].
  - intros ([] & s1 & [Hc ->]%se_check_ok & [= <- <-])%se_bind_ok. rewrite adds_nil.
    split_and!; [done|by apply capture_exact|done].
Qed.

(** ** Items *)
Definition item_pass : SE SymbolTable ExecutionItem → Prop :=
  passes (λ i, tree_invocations [i]) (λ s i, items_ok s [i]).
Definition stage_body (st : PipelineStage) : list ExecutionItem := let '(MkPipelineStage _ _ body) := st in body.
Definition branch_items (b : RouteBranch) : list ExecutionItem := let '(MkRouteBranch _ _ body _) := b in body.

Lemma body_passes (f : ExecutionItem → SE SymbolTable ExecutionItem) l :
  Forall (λ i, item_pass (f i)) l → passes tree_invocations items_ok (map_se f l).
Proof.
  intros Hf s ys s' H. apply (map_se_passes _ (λ i, tree_invocations [i]) (λ s i, items_ok s [i])) in H as [-> Hok];
    [|by intros|done].
  assert (∀ ys, ys ≫= (λ i, tree_invocations [i]) = tree_invocations ys) as ->.
  { clear. induction ys as [|y ys IH]; [done|]. by rewrite tree_invocations_cons, <- IH. }
  split; [done|]. unfold items_ok in *. induction Hok as [|y ys Hy _ IH]; [constructor|].
  rewrite items_all_cons. apply Forall_app. split; [|done]. unfold items_all in Hy. cbn in Hy. by rewrite app_nil_r in Hy.
Qed.

Lemma resolve_stages_ok f l : Forall (λ st, ∀ label, Forall (λ i, item_pass (f label i)) (stage_body st)) l →
  ∀ seen s l' s', resolve_stages f seen l s = (Ok l', s') →
  s' = adds ((stage_body <$> l') ≫= tree_invocations) s ∧ Forall (items_ok s) (stage_body <$> l') ∧
  NoDup (stage_name <$> l') ∧ Forall (λ n, n ≠ EmptyString ∧ seen !! n = None) (stage_name <$> l').
Proof.
  induction 1 as [|[sp name body] l Hf _ IH]; intros seen s l' s'; cbn [resolve_stages].
  { intros [= <- <-]. rewrite adds_nil. repeat constructor. }
  intros ([] & s1 & [Hc ->]%se_check_ok & (body' & s2 & Hb & (rest & s3 & Hr & [= <- <-])%se_bind_ok)%se_bind_ok)%se_bind_ok.
  apply body_passes in Hb as [-> Hb]; [|apply Hf]. apply IH in Hr as (-> & Hr & Hnd & Hseen).
  cbn [fmap list_fmap stage_body mbind list_bind stage_name]. rewrite adds_app.
  unfold check_stage in Hc. case_bool_decide as Hne; [done|]. destruct (seen !! _) eqn:Hs; [done|].
  split; [done|]. split; [by constructor|]. split.
  - constructor; [|done]. intros [_ Hin]%(proj1 (Forall_forall _ _) Hseen _). by rewrite lookup_insert_eq in Hin.
  - constructor; [done|]. eapply Forall_impl; [exact Hseen|]. cbn. intros n [? Hn]. split; [done|].
    by apply lookup_insert_None in Hn as [? _].
Qed.

Lemma branches_ok f l : Forall (λ b, Forall (λ i, item_pass (f i)) (branch_items b)) l →
  passes (λ bs, (branch_items <$> bs) ≫= tree_invocations)
    (λ s bs, Forall (items_ok s) (branch_items <$> bs) ∧ Forall (path_ok s) (bs ≫= λ '(MkRouteBranch _ pred _ isElse),
       if isElse then [] else predicate_paths pred))
    (map_se (λ '(MkRouteBranch bsp pred body isElse),
        se_check (λ s, if isElse then None else resolvePredicateExpr s pred) ;;;
        let* body' := map_se f body in
        se_ret (MkRouteBranch bsp pred body' isElse)) l).
Proof.
  induction 1 as [|[bsp pred body isElse] l Hb _ IH]; intros s bs s'; cbn [map_se].
  { intros [= <- <-]. rewrite adds_nil. repeat constructor. }
  intros (b' & s1 & ([] & s2 & [Hc ->]%se_check_ok & (body' & s3 & Hb' & [= <- <-])%se_bind_ok)%se_bind_ok &
    (rest & s4 & Hr & [= <- <-])%se_bind_ok)%se_bind_ok.
  apply body_passes in Hb' as [-> Hb']; [|done]. apply IH in Hr as (-> & Hr & Hp).
  cbn [fmap list_fmap branch_items mbind list_bind]. rewrite adds_app. split; [done|].
  split; [by constructor|]. apply Forall_app. split; [|done].
  destruct isElse; [constructor|by apply predicate_exact].
Qed.

Lemma leaf_passes s i : item_bodies i = [] → as_invocation i = [] → item_ok s i →
  s = adds (tree_invocations [i]) s ∧ items_ok s [i].
Proof.
  intros Hb Ha Hi. eapply item_passes; [exact Hi| |constructor|exact Hb]. rewrite Ha. symmetry. apply adds_nil.
Qed.

Lemma check_agent_ok name sp s : check_agent name sp s = None → name ∈ agents s.
Proof. unfold check_agent. destruct (is_blank name); [done|]. rewrite check_None. case_bool_decide; done. Qed.

Lemma single_body_passes f i items ys s s' :
  Forall (Forall (λ i, ∀ label, item_pass (resolveExecutionItem regs docName label i))) [items] →
  map_se (resolveExecutionItem regs docName f) items s = (Ok ys, s') →
  item_bodies i = [ys] → as_invocation i = [] → item_ok s i →
  s' = adds (tree_invocations [i]) s ∧ items_ok s [i].
Proof.
  rewrite Forall_singleton. intros IH H Hb Ha Hi. apply body_passes in H as [-> Hok];
    [|by eapply Forall_impl; [exact IH|]; cbn; eauto].
  eapply item_passes; [done| |by apply Forall_singleton|done]. rewrite Ha. cbn. by rewrite app_nil_r.
Qed.

Lemma resolveExecutionItem_ok i : ∀ label, item_pass (resolveExecutionItem regs docName label i).
Proof.
  induction i as [i IH] using item_ind. intros label s i' s'.
  destruct i as [d|sp agent items|sp agent items|sp branches|sp items|sp stages|sp src|sp text ref|sp query maxTokens mode raw
    |sp name args pred raw|sp name args pred raw body|sp ns cap target input|c]; cbn [resolveExecutionItem];
    cbn [item_bodies] in IH; intros H; invert_passes.
  - apply leaf_passes; [done..|]. split_and!; [constructor..|]. by eapply resolveToolInvokePolicyDecl_ok.
  - eapply single_body_passes; [done..|]. split_and!; [constructor..|]. by eapply check_agent_ok.
  - eapply single_body_passes; [done..|]. split_and!; [constructor..|]. by eapply check_agent_ok.
  - match goal with H : map_se _ _ _ = _ |- _ => apply branches_ok in H as (-> & Hb & Hp) end.
    + eapply item_passes; [|cbn [app as_invocation]; reflexivity|exact Hb|done]. split_and!; [exact Hp|constructor|done].
    + apply (proj1 (Forall_fmap _ _ _)) in IH. eapply Forall_impl; [exact IH|]. intros [? ? body ?] Hbody. cbn in *.
      eapply Forall_impl; [exact Hbody|]. cbn. eauto.
  - match goal with H : map_se _ _ _ = _ |- _ => apply (map_se_passes _ (λ _, []) ask_ok) in H as [-> Hok] end;
      [|by intros|by apply Forall_forall; intros; apply resolveAskItem_ok].
    assert (∀ ys : list AskItem, ys ≫= (λ _, []) = @nil Invocation) as -> by (clear; induction ys; [done|]; cbn; done).
    rewrite adds_nil. apply leaf_passes; [done..|]. split_and!; [|constructor|done].
    cbn [item_paths]. apply Forall_bind. eapply Forall_impl; [exact Hok|]. by intros i [? _].
  - match goal with H : resolve_stages _ _ _ _ = _ |- _ => apply resolve_stages_ok in H as (-> & Hb & Hnd & Hne) end.
    + eapply item_passes; [|cbn [app as_invocation]; reflexivity|exact Hb|done].
      split_and!; [constructor..|exact Hnd|]. intros [? _]%(proj1 (Forall_forall _ _) Hne). done.
    + apply (proj1 (Forall_fmap _ _ _)) in IH. eapply Forall_impl; [exact IH|]. intros [? ? body] Hbody ?. cbn in *.
      eapply Forall_impl; [exact Hbody|]. cbn. eauto.
  - apply leaf_passes; [done..|]. split_and!; [by apply value_exact|constructor|done].
  - apply leaf_passes; [done..|]. split_and!; [constructor..|]. by eapply resolvePromptClause_ok.
  - apply leaf_passes; [done..|]. split_and!; [constructor..|done].
  - apply leaf_passes; [done..|]. split_and!; [by apply values_exact|constructor|done].
  - eapply single_body_passes; [done..|]. split_and!; [|constructor|done].
    apply Forall_app. split; [by apply values_exact|]. destruct pred; [by apply predicate_exact|constructor].
  - match goal with H : resolveCapabilityInvocation _ _ _ = _ |- _ =>
      apply resolveCapabilityInvocation_ok in H as (-> & Hp & Hok) end.
    eapply (item_passes _ _ []); [|by cbn [as_invocation mbind list_bind]; rewrite app_nil_r|constructor|done].
    split_and!; [exact Hp|by apply Forall_singleton|done].
  - apply leaf_passes; [done..|]. split_and!; [by apply capture_exact|constructor|done].
Qed.
End ok.

(** ** Declarations *)
Definition decl_name (d : Declaration) : option string :=
  match d with
  | ImportDecl _ _ _ n | InputDecl _ n _ | TypeDecl _ n _ | AgentDecl _ n _ => Some (trim_space (id_Value n))
  | TriggerDecl _ | BlockDecl _ => None
  end.
Definition decl_trigger (d : Declaration) : option TriggerDeclaration :=
  match d with TriggerDecl t => Some t | _ => None end.
Definition decl_item (d : Declaration) : option ExecutionItem := match d with BlockDecl i => Some i | _ => None end.
Definition blocks (ds : list Declaration) : list ExecutionItem := omap decl_item ds.

(** The type names an expression mentions. *)
Fixpoint type_paths (t : TypeExpr) : list string :=
  match t with
  | NamedTypeExpr _ p => [trim_space (path_Raw p)]
  | ListTypeExpr _ t | OptionalTypeExpr _ t => type_paths t
  | MapTypeExpr _ k v => type_paths k ++ type_paths v
  | UnionTypeExpr _ ts => ts ≫= type_paths
  end.
Definition type_known (s : SymbolTable) (n : string) : Prop :=
  isBuiltInType n = true ∨ n ∈ types s ∨ isLowerLiteral n = true.

Lemma resolveTypeExpr_ok s : ∀ t, resolveTypeExpr s t = None → Forall (type_known s) (type_paths t).
Proof.
  fix IH 1. intros [sp p|sp t|sp t|sp k v|sp ts]; cbn [resolveTypeExpr type_paths].
  - unfold type_known. rewrite Forall_singleton. destruct (isBuiltInType _); [by auto|].
    case_bool_decide; [by auto|]. destruct (isLowerLiteral _); [by auto|done].
  - apply IH.
  - apply IH.
  - intros H. pose proof (IH k) as Hk. pose proof (IH v) as Hv. clear IH. destruct (resolveTypeExpr s k); [done|].
    apply Forall_app. auto.
  - induction ts as [|t ts IHts]; [constructor|]. cbn [first_err mbind list_bind]. intros H.
    pose proof (IH t) as Ht. clear IH. destruct (resolveTypeExpr s t); [done|]. apply Forall_app. auto.
Qed.

Section declarations.
Context (regs : Registries) (docName : string).

Definition decl_ok (s : SymbolTable) (d : Declaration) : Prop :=
  match d with
  | ImportDecl _ _ _ _ => True
  | TriggerDecl t =>
      (∃ p, TriggerPolicyFromDecl t = Ok p) ∧ (∃ m, TriggerAssociationsFromDecl t = Ok m) ∧
      TriggerRouteKindFromDecl t ≠ EmptyString ∧ Forall (policy_ok regs) (ToolPolicies t)
  | InputDecl _ _ src => Forall (path_ok s) (opt_paths src)
  | TypeDecl _ _ body => Forall (type_known s) (Fields body ≫= λ f, type_paths (tf_Type f))
  | AgentDecl _ _ agentType => is_Some (Lookup (paradigms regs) (trim_space (id_Value agentType)))
  | BlockDecl i => items_ok regs s [i]
  end.

(** The trigger a table ends with, given those resolved; [None] when there is a second. *)
Definition end_trigger (old : option TriggerDeclaration) (ts : list TriggerDeclaration) : option (option TriggerDeclaration) :=
  match old, ts with
  | _, [] => Some old
  | None, [t] => Some (Some t)
  | _, _ => None
  end.

Definition settled (ds : list Declaration) (s s' : SymbolTable) : Prop :=
  agents s' = agents s ∧ inputs s' = inputs s ∧ types s' = types s ∧ imports s' = imports s ∧
  declared s' = declared s ∧ invocations s' = invocations s ++ tree_invocations (blocks ds) ∧
  end_trigger (trigger s) (omap decl_trigger ds) = Some (trigger s').

Lemma settled_refl d s : decl_trigger d = None → decl_item d = None → settled [d] s s.
Proof.
  intros Ht Hi. unfold settled, blocks. cbn [omap list_omap]. rewrite Ht, Hi. cbn.
  rewrite app_nil_r. by destruct (trigger s).
Qed.

Lemma settled_trans d ds s1 s2 s3 : settled [d] s1 s2 → settled ds s2 s3 → settled (d :: ds) s1 s3.
Proof.
  unfold settled, blocks. cbn [omap list_omap]. intros (-> & -> & -> & -> & -> & H6 & H7) (-> & -> & -> & -> & -> & -> & H7').
  rewrite H6, <- app_assoc. split_and!; [done..| |].
  - f_equal. destruct (decl_item d); [|done]. symmetry. apply tree_invocations_cons.
  - destruct (decl_trigger d) as [t|]; [|assert (trigger s2 = trigger s1) as <- by (destruct (trigger s1); cbn in H7; congruence); exact H7'].
    destruct (trigger s1); [done|]. injection H7 as H7. rewrite <- H7 in H7'. cbn in H7'.
    by destruct (omap decl_trigger ds).
Qed.

Lemma policies_ok label l (s : SymbolTable) ds s' :
  map_se (λ p, se_result (resolveToolInvokePolicyDecl regs docName p label)) l s = (Ok ds, s') →
  s' = s ∧ Forall (policy_ok regs) ds.
Proof.
  revert ds s'. induction l as [|p l IH]; intros ds s' H; cbn [map_se] in H; invert_passes; [done|].
  match goal with H : map_se _ _ _ = _ |- _ => apply IH in H as [-> ?] end.
  split; [done|]. constructor; [|done]. by eapply resolveToolInvokePolicyDecl_ok.
Qed.

Lemma resolveTriggerDecl_ok t t' s s' :
  resolveTriggerDecl regs docName t s = (Ok t', s') → settled [TriggerDecl t'] s s' ∧ decl_ok s (TriggerDecl t').
Proof.
  unfold resolveTriggerDecl. intros H. invert_passes.
  match goal with H : map_se _ _ _ = _ |- _ => apply policies_ok in H as [-> Hp] end.
  match goal with H : se_mod _ _ = _ |- _ => injection H as <- <- end.
  destruct (trigger s) eqn:Ht; [done|]. split.
  - unfold settled, blocks. cbn. rewrite Ht, app_nil_r. by repeat split.
  - cbn [decl_ok ToolPolicies]. split_and!; [by eexists|by eexists| |exact Hp].
    match goal with H : check _ _ = None |- _ => apply check_None in H; by apply bool_decide_eq_false in H end.
Qed.

Lemma resolveDeclaration_ok d d' s s' :
  resolveDeclaration regs docName d s = (Ok d', s') →
  settled [d'] s s' ∧ decl_ok s d' ∧ decl_name d' = decl_name d.
Proof.
  destruct d as [sp kind target alias|t|sp n src|sp n body|sp n ty|i]; cbn [resolveDeclaration]; intros H; invert_passes.
  - split_and!; [by apply settled_refl|done..].
  - match goal with H : resolveTriggerDecl _ _ _ _ = _ |- _ => apply resolveTriggerDecl_ok in H as [? ?] end. done.
  - split_and!; [by apply settled_refl|by apply value_exact|done].
  - split_and!; [by apply settled_refl| |done]. cbn [decl_ok].
    match goal with H : resolveTypeDecl _ _ = _ |- _ => unfold resolveTypeDecl in H; rewrite first_err_None in H; rename H into HF end.
    apply Forall_bind. eapply Forall_impl; [exact HF|]. intros f. apply resolveTypeExpr_ok.
  - split_and!; [by apply settled_refl| |done]. cbn [decl_ok].
    match goal with H : validateAgentParadigmBinding _ _ _ = _ |- _ => revert H end.
    unfold validateAgentParadigmBinding. case_bool_decide; [done|]. destruct (Lookup _ _); [by eexists|done].
  - match goal with H : resolveExecutionItem _ _ _ _ _ = _ |- _ => apply resolveExecutionItem_ok in H as [-> Hok] end.
    split_and!; [|exact Hok|done]. unfold settled. cbn. by destruct (trigger s).
Qed.

Lemma decl_ok_settled ds s s' d : settled ds s s' → decl_ok s' d → decl_ok s d.
Proof.
  intros (Ha & Hi & Ht & Him & _). destruct d as [?|?|sp n src|sp n body|?|i]; cbn [decl_ok]; try done.
  - intros H. eapply Forall_impl; [exact H|]. unfold path_ok. by rewrite Hi.
  - intros H. eapply Forall_impl; [exact H|]. unfold type_known. by rewrite Ht.
  - unfold items_ok, item_ok, ask_ok, path_ok, prompt_ok. by rewrite Ha, Hi, Him.
Qed.

Lemma resolveDeclarations_ok ds : ∀ s ds' s', resolveDeclarations regs docName ds s = (Ok ds', s') →
  settled ds' s s' ∧ Forall (decl_ok s) ds' ∧ decl_name <$> ds' = decl_name <$> ds.
Proof.
  unfold resolveDeclarations. induction ds as [|d ds IH]; intros s ds' s' H; cbn [map_se] in H; invert_passes.
  { split_and!; [|constructor|done]. unfold settled. cbn. rewrite app_nil_r. by destruct (trigger s). }
  match goal with H : resolveDeclaration _ _ _ _ = _ |- _ => apply resolveDeclaration_ok in H as (Hs & Hok & Hn) end.
  match goal with H : map_se _ _ _ = _ |- _ => apply IH in H as (Hs' & Hok' & Hn') end.
  split_and!; [by eapply settled_trans| |by cbn; f_equal]. constructor; [done|].
  eapply Forall_impl; [exact Hok'|]. intros d'. by eapply decl_ok_settled.
Qed.
End declarations.

(** ** The collected names *)
Definition agent_name (d : Declaration) : option string :=
  match d with AgentDecl _ n _ => Some (trim_space (id_Value n)) | _ => None end.
Definition input_name (d : Declaration) : option string :=
  match d with InputDecl _ n _ => Some (trim_space (id_Value n)) | _ => None end.
Definition type_name (d : Declaration) : option string :=
  match d with TypeDecl _ n _ => Some (trim_space (id_Value n)) | _ => None end.
Definition import_of (d : Declaration) : option (string * Import) :=
  match d with
  | ImportDecl sp kind target alias =>
      Some (trim_space (id_Value alias), {| imp_Kind := kind; imp_Target := path_Raw target; imp_Span := sp |})
  | _ => None
  end.

Definition names_of (f : Declaration → option string) (ds : list Declaration) : gset string :=
  list_to_set (omap f ds).
Lemma names_of_cons f d ds :
  names_of f (d :: ds) = match f d with Some n => {[n]} | None => ∅ end ∪ names_of f ds.
Proof. unfold names_of. cbn [omap list_omap]. destruct (f d); [done|]. set_solver. Qed.

Definition fresh (ds : list Declaration) (s : SymbolTable) : Prop :=
  NoDup (omap decl_name ds) ∧ Forall (λ n, n ≠ EmptyString ∧ n ∉ dom (declared s)) (omap decl_name ds).
Definition collected (ds : list Declaration) (s s' : SymbolTable) : Prop :=
  trigger s' = trigger s ∧ invocations s' = invocations s ∧
  agents s' = names_of agent_name ds ∪ agents s ∧
  dom (inputs s') = names_of input_name ds ∪ dom (inputs s) ∧
  types s' = names_of type_name ds ∪ types s ∧
  dom (declared s') = names_of decl_name ds ∪ dom (declared s) ∧
  (dom (imports s) ⊆ dom (declared s) → dom (imports s') ⊆ dom (declared s') ∧ imports s ⊆ imports s' ∧
     Forall (λ b, imports s' !! b.1 = Some b.2) (omap import_of ds)).

Lemma registerTopLevel_ok n sp s s' : registerTopLevel n sp s = Ok s' →
  n ≠ EmptyString ∧ (n ∉ dom (declared s)) ∧ s' = set_declared <[n := sp]> s.
Proof.
  unfold registerTopLevel. case_bool_decide; [done|]. destruct (declared s !! n) eqn:Hn; [done|].
  intros [= <-]. split_and!; [done|by apply not_elem_of_dom|done].
Qed.

Lemma collected_nil s : collected [] s s.
Proof. unfold collected, names_of. cbn. rewrite !(left_id_L ∅ (∪)). by repeat split. Qed.

Lemma collect_ok d s s1 : collect_decl d s = Ok s1 → collected [d] s s1 ∧ fresh [d] s.
Proof.
  destruct d as [sp kind target alias|t|sp n src|sp n body|sp n ty|i]; cbn [collect_decl].
  2,6: intros [= <-]; split; [|split; constructor]; unfold collected, names_of; cbn;
       rewrite !(left_id_L ∅ (∪)); by repeat split.
  all: intros (s2 & (Hne & Hn & ->)%registerTopLevel_ok & [= <-])%rbind_ok.
  all: split; [|split; [by repeat constructor; set_solver|by repeat constructor]].
  all: unfold collected, names_of; cbn; rewrite ?(left_id_L ∅ (∪)), ?(right_id_L ∅ (∪)), ?dom_insert_L.
  all: split_and!; [done..|]; intros Hsub.
  all: split_and!; [set_solver|try done|by repeat constructor; rewrite ?lookup_insert_eq].
  apply insert_subseteq. apply not_elem_of_dom. set_solver.
Qed.

Lemma collected_trans d ds s1 s2 s3 : collected [d] s1 s2 → collected ds s2 s3 → collected (d :: ds) s1 s3.
Proof.
  unfold collected. rewrite !names_of_cons. unfold names_of at 1 3 5 7. cbn [omap list_omap list_to_set].
  rewrite !(right_id_L ∅ (∪)).
  intros (-> & -> & -> & -> & -> & -> & H1) (-> & -> & -> & -> & -> & -> & H2).
  split_and!; [done|done|set_solver..|]. intros Hsub. destruct (H1 Hsub) as (Hd & Hs & Hf).
  destruct H2 as (Hd' & Hs' & Hf'); [done|]. split_and!; [done|by etrans|].
  destruct (import_of d) as [b|]; [|done]. constructor; [|done].
  inversion_clear Hf. by eapply lookup_weaken.
Qed.

Lemma collectTopLevelSymbols_ok ds : ∀ s s', collectTopLevelSymbols ds s = Ok s' →
  collected ds s s' ∧ fresh ds s.
Proof.
  induction ds as [|d ds IH]; intros s s'; cbn [collectTopLevelSymbols].
  { intros [= <-]. split; [apply collected_nil|by repeat constructor]. }
  intros (s1 & [Hc Hf]%collect_ok & [Hcs Hfs]%IH)%rbind_ok. split; [by eapply collected_trans|].
  destruct Hf as [Hnd Hfr], Hfs as [Hnds Hfrs], Hc as (_ & _ & _ & _ & _ & Hdom & _).
  unfold fresh. cbn [omap list_omap] in *. destruct (decl_name d) as [n|] eqn:Hn.
  - assert (Forall (λ m, m ≠ EmptyString ∧ (m ∉ dom (declared s)) ∧ m ≠ n) (omap decl_name ds)) as Hall.
    { eapply Forall_impl; [exact Hfrs|]. intros m. rewrite Hdom, names_of_cons, Hn. set_solver. }
    split; constructor.
    + intros Hin. by destruct (proj1 (Forall_forall _ _) Hall n Hin) as (_ & _ & []).
    + done.
    + by inversion Hfr.
    + eapply Forall_impl; [exact Hall|]. naive_solver.
  - split; [done|]. eapply Forall_impl; [exact Hfrs|]. intros m. rewrite Hdom, names_of_cons, Hn. set_solver.
Qed.

(** ** Imports *)
Definition import_ok (regs : Registries) (docName : string) (b : string * Import) : Prop :=
  let target := trim_space (imp_Target b.2) in
  (target ≠ EmptyString) ∧ (target ≠ trim_space docName) ∧
  (imp_Kind b.2 = ImportKindPrompt ∧ (∃ get, prompts regs = Some get ∧ get target = true) ∨
   imp_Kind b.2 = ImportKindRecipe ∧ (∃ get, recipes regs = Some get ∧ get target = true)).

Lemma validateImport_exact regs docName b : validateImport regs docName b = None ↔ import_ok regs docName b.
Proof.
  destruct b as [alias i]. unfold validateImport, import_ok. cbn [snd].
  assert (ImportKindPrompt ≠ ImportKindRecipe) as Hpr by done.
  case_bool_decide as H1; [naive_solver|]. case_bool_decide as H2; [naive_solver|].
  case_bool_decide as H3; [|case_bool_decide as H4; [|naive_solver]].
  - destruct (prompts regs) as [get|]; [destruct (get _) eqn:Hg|]; split; try done; [eauto 10|..];
      intros (_ & _ & [(_ & ? & ? & ?)|(? & _)]); congruence.
  - destruct (recipes regs) as [get|]; [destruct (get _) eqn:Hg|]; split; try done; [eauto 10|..];
      intros (_ & _ & [(? & _)|(_ & ? & ? & ?)]); congruence.
Qed.

(** The visit order decides which error is returned, not whether one is. *)
Lemma validateImports_exact regs docName order m :
  (∀ l, order l ≡ₚ l) →
  validateImports regs docName (order (map_to_list m)) = None ↔ map_Forall (λ a i, import_ok regs docName (a, i)) m.
Proof.
  intros Ho. unfold validateImports. rewrite first_err_None, (Ho (map_to_list m)), map_Forall_to_list.
  rewrite !Forall_forall. split; intros H [a i] Hin; apply validateImport_exact, (H (a, i) Hin).
Qed.

(** ** An accepted recipe *)

Lemma omap_names (ds ds' : list Declaration) : decl_name <$> ds' = decl_name <$> ds → omap decl_name ds' = omap decl_name ds.
Proof.
  revert ds. induction ds' as [|d' ds' IH]; intros [|d ds]; cbn; [done..|]. intros [= -> H]. by rewrite (IH ds).
Qed.

Lemma decl_ok_same regs s s' d :
  agents s' = agents s → inputs s' = inputs s → types s' = types s → imports s' = imports s →
  decl_ok regs s d → decl_ok regs s' d.
Proof.
  destruct s as [a1 i1 t1 m1 d1 tr1 v1], s' as [a2 i2 t2 m2 d2 tr2 v2]. cbn. intros -> -> -> ->. by destruct d.
Qed.

Lemma invocations_ok regs s l : items_ok regs s l → Forall (invocation_ok regs) (tree_invocations l).
Proof. intros H. apply Forall_bind. eapply Forall_impl; [exact H|]. by intros i (_ & ? & _). Qed.

Lemma blocks_ok regs s ds : Forall (decl_ok regs s) ds → items_ok regs s (blocks ds).
Proof.
  unfold blocks. induction 1 as [|d ds Hd _ IH]; [constructor|]. destruct d as [| | | | |i]; cbn [omap list_omap decl_item]; [done..|].
  unfold items_ok in *. rewrite items_all_cons. apply Forall_app. split; [|done].
  cbn [decl_ok] in Hd. unfold items_ok, items_all in Hd. cbn [mbind list_bind] in Hd. by rewrite app_nil_r in Hd.
Qed.

Lemma validateContracts_exact regs doc : validateContracts regs doc = None ↔ ValidateAgainstContracts doc (paradigms regs) = [].
Proof. unfold validateContracts. by destruct (ValidateAgainstContracts _ _). Qed.

(** The policy check of an accepted recipe: the registry has what the tree invokes, and a
    capability-limited route covers it. *)
Lemma capability_policy_ok regs h ds s t :
  validateCapabilityPolicy regs h ds s = None → trigger s = Some t → Forall (invocation_ok regs) (invocations s) →
  ∃ policy, TriggerPolicyFromDecl t = Ok policy ∧
    Forall (λ inv, ∃ d, lookupCapability regs inv = Some d ∧ (TriggerRouteKindFromDecl t = "capability" →
      CapabilityRequirementsSatisfied policy (CapabilityRequirementsFromDescriptor d) = true)) (invocations s).
Proof.
  unfold validateCapabilityPolicy. intros H Ht Hok. rewrite Ht in H. destruct (TriggerPolicyFromDecl t) as [policy|]; [|done].
  exists policy. split; [done|]. destruct (invocations s) as [|inv0 invs]; [constructor|].
  destruct (capability regs) as [lk|] eqn:Hlk; [|done].
  assert (∀ inv, inv ∈ inv0 :: invs → ∃ d, lookupCapability regs inv = Some d) as Hd.
  { intros inv Hin. destruct (proj1 (Forall_forall _ _) Hok inv Hin) as [_ Hl].
    destruct (lookupCapability regs inv) as [d|]; [by exists d|]. by destruct Hl; [by rewrite Hlk|]. }
  apply Forall_forall. intros inv Hin. destruct (Hd inv Hin) as [d Hl]. exists d. split; [done|]. intros Hroute.
  rewrite (bool_decide_true _ Hroute) in H. cbn [negb] in H.
  rewrite first_error_None, !Forall_cons, first_err_None in H. destruct H as (_ & HF & _).
  pose proof (proj1 (Forall_forall _ _) HF inv Hin) as Hi. cbv beta in Hi. rewrite Hl in Hi.
  apply check_None in Hi. by apply negb_false_iff in Hi.
Qed.

