(* ===== verification/RecipePlan.v ===== *)
(** * Execution plans

    The compiled form of a recipe (named/euclo/thoughtrecipes/types.go, and the recipe of
    named/euclo/surface/recipespec.go): steps, routes, pipelines, predicates.  A step holds
    the steps of its pipeline stages and of its revise body, so steps are a nested
    inductive type over a record of the plain fields.  Left out: the step fields that no
    code of the recipe package sets (mutation and human gates, dependencies, error policy
    and clarification come from elsewhere) except those the graph builder reads. *)
From S2P Require Import Prelude GoStrings RecipeLexer RecipeAst RecipeNames RecipeVocabulary RecipeDirectives RecipeSemantic.

Local Open Scope Z_scope.

(** ** Kinds of steps *)
Inductive StepKind := StepKindInvalid | StepKindRun | StepKindDelegate | StepKindAsk | StepKindCapability | StepKindPipelineStage.
#[global] Instance StepKind_eq_dec : EqDecision StepKind.
Proof. solve_decision. Defined.

Definition StepKind_String (k : StepKind) : string :=
  match k with
  | StepKindRun => "run" | StepKindDelegate => "delegate" | StepKindAsk => "ask"
  | StepKindCapability => "capability" | StepKindPipelineStage => "pipeline" | StepKindInvalid => "invalid"
  end.
Definition stepKindFromString (s : string) : StepKind :=
  if bool_decide (s = "run") then StepKindRun
  else if bool_decide (s = "delegate") then StepKindDelegate
  else if bool_decide (s = "ask") then StepKindAsk
  else if bool_decide (s = "capability") then StepKindCapability
  else if bool_decide (s = "pipeline") then StepKindPipelineStage
  else StepKindInvalid.

(** ** Predicates *)
Inductive PredicateOp := PredOpInvalid | PredOpIs | PredOpContains | PredOpMissing | PredOpPresent | PredOpConfidenceLT.
#[global] Instance PredicateOp_eq_dec : EqDecision PredicateOp.
Proof. solve_decision. Defined.

Definition PredicateOp_String (o : PredicateOp) : string :=
  match o with
  | PredOpIs => "is" | PredOpContains => "contains" | PredOpMissing => "missing" | PredOpPresent => "present"
  | PredOpConfidenceLT => "confidence_below" | PredOpInvalid => "invalid"
  end.
Definition predicateOpFromString (s : string) : PredicateOp :=
  if bool_decide (s = "is") then PredOpIs
  else if bool_decide (s = "contains") then PredOpContains
  else if bool_decide (s = "missing") then PredOpMissing
  else if bool_decide (s = "present") then PredOpPresent
  else if bool_decide (s = "confidence_below") then PredOpConfidenceLT
  else PredOpInvalid.

Record PredicateValue := { StringVal : string; Percent : Z }.
Record Predicate := { p_Subject : string; p_Op : PredicateOp; p_Value : PredicateValue; p_Label : string }.

(** ** Parts of a step *)
Record ToolScopeFrame := { ScopeKind : string; frame_ToolNames : list string; frame_Span : SourceSpan }.
Record StreamSpec := { QueryTemplate : string; MaxTokens : Z; Mode : string }.

(** The values of a step's [Config]. *)
Inductive ConfigValue := CString (s : string) | CStrings (l : list string) | CInt (z : Z).
Abbreviation Config := (gmap string ConfigValue).

(** The authored fallback, with the parts of its context that a fallback step takes over. *)
Record StepAgent := {
  agent_Paradigm : string; agent_Prompt : string; agent_Stream : option StreamSpec;
  agent_Inherit : list string; agent_Capture : list string
}.

(** [step_Config] is [None] for the nil map. *)
Record StepFields := {
  step_ID : string; Kind : StepKind; step_Paradigm : string; Scope : ResolvedToolScope;
  Question : string; Choices : list string; ChoiceSource : string; Goal : string; Sources : list string;
  step_Directives : list TypedDirective; CaptureBindings : list CaptureBinding; CapabilityID : string;
  Prompt : string; PromptID : string; Mutation : string; HITL : string; Stream : option StreamSpec;
  Fallback : option StepAgent; FallbackFor : string; Inherit : list string; step_Capture : list string;
  step_Config : option Config; RevisePredicate : option Predicate
}.

Definition zero_step : StepFields :=
  {| step_ID := EmptyString; Kind := StepKindInvalid; step_Paradigm := EmptyString; Scope := zero_scope;
     Question := EmptyString; Choices := []; ChoiceSource := EmptyString; Goal := EmptyString; Sources := [];
     step_Directives := []; CaptureBindings := []; CapabilityID := EmptyString; Prompt := EmptyString;
     PromptID := EmptyString; Mutation := EmptyString; HITL := EmptyString; Stream := None; Fallback := None;
     FallbackFor := EmptyString; Inherit := []; step_Capture := []; step_Config := None; RevisePredicate := None |}.

Inductive ExecutionStep :=
| MkStep (fields : StepFields) (stages : list PipelineStageSpec) (reviseBody : list ExecutionStep)
with PipelineStageSpec :=
| MkStageSpec (name : string) (span : SourceSpan) (steps : list ExecutionStep).

Definition fields (s : ExecutionStep) : StepFields := let '(MkStep f _ _) := s in f.
Definition PipelineStages (s : ExecutionStep) : list PipelineStageSpec := let '(MkStep _ ss _) := s in ss.
Definition ReviseBody (s : ExecutionStep) : list ExecutionStep := let '(MkStep _ _ b) := s in b.
Definition stage_Name (s : PipelineStageSpec) : string := let '(MkStageSpec n _ _) := s in n.
Definition stage_Span (s : PipelineStageSpec) : SourceSpan := let '(MkStageSpec _ sp _) := s in sp.
Definition stage_Steps (s : PipelineStageSpec) : list ExecutionStep := let '(MkStageSpec _ _ l) := s in l.

(** ** Groups and plans *)
Record CompiledRouteBranch := { br_Predicate : option Predicate; br_Steps : list ExecutionStep; IsElse : bool }.
Record CompiledRouteGroup := { group_Span : SourceSpan; group_ID : string; Branches : list CompiledRouteBranch }.

(** A compiled stage has the name, span and steps of its [PipelineStageSpec]. *)
Record CompiledPipelineGroup := { pg_Span : SourceSpan; pg_ID : string; pg_Stages : list PipelineStageSpec }.
Record SemanticWarning := { warn_Span : SourceSpan; warn_Message : string }.
Record AgentBinding := { ab_Name : string; ab_Paradigm : string; ab_Span : SourceSpan }.

(** The recipe, with the metadata that lowering fills in. *)
Record ThoughtRecipe := {
  tr_ID : string; tr_Name : string; tr_Description : string; tr_RouteKind : string;
  tr_MetaName : string; tr_Metadata : TriggerAssociationMetadata
}.
Definition EffectiveName (r : ThoughtRecipe) : string :=
  if negb (is_blank (tr_MetaName r)) then trim_space (tr_MetaName r)
  else if negb (is_blank (tr_Name r)) then trim_space (tr_Name r)
  else trim_space (tr_ID r).

Record ExecutionPlan := {
  plan_Recipe : ThoughtRecipe; plan_Agents : gmap string AgentBinding; plan_ToolScopes : list ToolScopeFrame;
  Steps : list ExecutionStep; Routes : list CompiledRouteGroup; Pipelines : list CompiledPipelineGroup;
  Warnings : list SemanticWarning; plan_RouteKind : string
}.

(** ** Traversals *)

(** The lists of steps directly inside a step. *)
Definition step_bodies (s : ExecutionStep) : list (list ExecutionStep) := (stage_Steps <$> PipelineStages s) ++ [ReviseBody s].

Lemma step_ind (P : ExecutionStep → Prop) :
  (∀ s, Forall (Forall P) (step_bodies s) → P s) → ∀ s, P s.
Proof.
  intros H. fix IH 1. intros [f stages body]. apply H. unfold step_bodies. cbn. apply Forall_app. split.
  - induction stages as [|[n sp l] ss IHs]; constructor; [|exact IHs]. clear IHs H. cbn.
    induction l; constructor; [apply IH|assumption].
  - constructor; [|constructor]. clear H. induction body; constructor; [apply IH|assumption].
Qed.

(** The steps of a plan's groups, apart from those inside other steps. *)
Definition route_steps (g : CompiledRouteGroup) : list ExecutionStep := Branches g ≫= br_Steps.
Definition top_steps (p : ExecutionPlan) : list ExecutionStep := Steps p ++ (Routes p ≫= route_steps).
