(* ===== verification/RecipeLowering.v ===== *)
(** * Lowering of recipes

    named/euclo/thoughtrecipes/lowering.go, route.go and revise_lowering.go: a resolved
    document is compiled to an execution plan.  What the passes change is the state
    [Lowered]: the run index that numbers the steps, and the lists of the plan.  Routes and
    pipelines inside a route are flattened by an explicit stack in the code
    ([route_loop]); the recursion [route_item] is what it computes
    (RecipeLoweringSafety.v). *)
From stdpp Require Import pretty.
From S2P Require Import Prelude GoStrings GoLoop Selector RecipeLexer RecipeAst RecipeNames RecipeVocabulary.
From S2P Require Import RecipeDirectives RecipeSemantic ParadigmContracts RecipePlan.

Local Open Scope Z_scope.

(** ** Predicates *)
Definition predicateValueString (v : option ValueExpr) : string :=
  match v with
  | Some (VString s) => trim_space (str_Value s)
  | Some (VIdentifier i) => trim_space (id_Value i)
  | Some (VNumber n) => trim_space (num_Value n)
  | _ => trim_space (valueExprRaw v)
  end.

Definition trim_suffix (suf s : string) : string :=
  if has_suffix suf s then str_take (String.length s - String.length suf) s else s.

(** A percentage that cannot be read is [math.MaxInt]. *)
Definition predicatePercentValue (v : option ValueExpr) : Z :=
  let raw := trim_space (trim_suffix "%" (trim_space (valueExprRaw v))) in
  if bool_decide (raw = EmptyString) then int64_max else default int64_max (Atoi raw).

Definition NormalizeRoutePredicate (p : PredicateExpr) : result Predicate :=
  let op := predicateOpFromString (trim_space (pred_Kind p)) in
  if bool_decide (op = PredOpInvalid) then Err (loc_err (pred_Span p) "unsupported route predicate %q" [pred_Kind p])
  else Ok {| p_Subject := trim_space (path_Raw (Subject p)); p_Op := op;
             p_Value := {| StringVal := if bool_decide (op ∈ [PredOpIs; PredOpContains])
                                        then predicateValueString (pred_Value p) else EmptyString;
                           Percent := if bool_decide (op = PredOpConfidenceLT)
                                      then predicatePercentValue (pred_Value p) else 0 |};
             p_Label := trim_space (pred_Raw p) |}.

(** ** Tool scopes *)
Definition toolNamesFromPolicy (d : ToolInvokePolicyDecl) : list string :=
  match ResolvedToolNames d with
  | _ :: _ => ResolvedToolNames d
  | [] => foldl (λ acc e, let name := canonicalToolNameEntry e in
                          if bool_decide (name = EmptyString) then acc else add_new name acc)
            [] (Entries (ToolNames d))
  end.
Definition lowerToolScopeFrame (scopeKind : string) (d : ToolInvokePolicyDecl) : ToolScopeFrame :=
  {| ScopeKind := scopeKind; frame_ToolNames := toolNamesFromPolicy d; frame_Span := tip_Span d |}.
Definition lowerToolScopeFrames (ds : list ToolInvokePolicyDecl) (scopeKind : string) : list ToolScopeFrame :=
  lowerToolScopeFrame scopeKind <$> ds.

(** The names of the frames, trimmed, in order and without repetitions. *)
Definition effectiveToolNames (frames : list ToolScopeFrame) : list string :=
  foldl (λ acc n, let name := trim_space n in if bool_decide (name = EmptyString) then acc else add_new name acc)
    [] (frames ≫= frame_ToolNames).

(** The annotation with which a descriptor lists what its handler may invoke. *)
Definition coordinationTargetsAnnotation : string := "euclo.coordination.capabilities".
Definition coordinationTargetIDs (raw : Selector.Annotation) : list string :=
  match raw with
  | AStrings l => l
  | AList l => filter (λ s, s ≠ EmptyString) (trim_space <$> omap id l)
  | AOther => []
  end.
Definition capabilityStepScope (capabilityID : string) (lookup : option ToolVocabularyLookup) : ResolvedToolScope :=
  let extra := match lookup with
               | None => []
               | Some lk => match desc ← GetCapability lk capabilityID;
                                  desc_Annotations desc !! coordinationTargetsAnnotation with
                            | Some raw => coordinationTargetIDs raw
                            | None => []
                            end
               end in
  AllowTools (capabilityID :: extra).

(** ** The items of a run block *)
Record RunItems := {
  ri_sources : list string; ri_goals : list string; ri_directives : list TypedDirective;
  ri_captures : list CaptureBinding; ri_toolScopes : list ToolScopeFrame; ri_promptID : string;
  ri_capability : option CapabilityInvocationPlan; ri_stream : option StreamSpec
}.
Definition no_items : RunItems :=
  {| ri_sources := []; ri_goals := []; ri_directives := []; ri_captures := []; ri_toolScopes := [];
     ri_promptID := EmptyString; ri_capability := None; ri_stream := None |}.

Definition add_source (x : string) (r : RunItems) : RunItems :=
  {| ri_sources := ri_sources r ++ [x]; ri_goals := ri_goals r; ri_directives := ri_directives r;
     ri_captures := ri_captures r; ri_toolScopes := ri_toolScopes r; ri_promptID := ri_promptID r;
     ri_capability := ri_capability r; ri_stream := ri_stream r |}.
Definition add_goal (x : string) (r : RunItems) : RunItems :=
  {| ri_sources := ri_sources r; ri_goals := ri_goals r ++ [x]; ri_directives := ri_directives r;
     ri_captures := ri_captures r; ri_toolScopes := ri_toolScopes r; ri_promptID := ri_promptID r;
     ri_capability := ri_capability r; ri_stream := ri_stream r |}.
Definition add_directive (d : TypedDirective) (r : RunItems) : RunItems :=
  {| ri_sources := ri_sources r; ri_goals := ri_goals r; ri_directives := ri_directives r ++ [d];
     ri_captures := ri_captures r; ri_toolScopes := ri_toolScopes r; ri_promptID := ri_promptID r;
     ri_capability := ri_capability r; ri_stream := ri_stream r |}.
Definition add_captures (l : list CaptureBinding) (r : RunItems) : RunItems :=
  {| ri_sources := ri_sources r; ri_goals := ri_goals r; ri_directives := ri_directives r;
     ri_captures := ri_captures r ++ l; ri_toolScopes := ri_toolScopes r; ri_promptID := ri_promptID r;
     ri_capability := ri_capability r; ri_stream := ri_stream r |}.
Definition add_scope (f : ToolScopeFrame) (r : RunItems) : RunItems :=
  {| ri_sources := ri_sources r; ri_goals := ri_goals r; ri_directives := ri_directives r;
     ri_captures := ri_captures r; ri_toolScopes := ri_toolScopes r ++ [f]; ri_promptID := ri_promptID r;
     ri_capability := ri_capability r; ri_stream := ri_stream r |}.
Definition set_prompt (x : string) (r : RunItems) : RunItems :=
  {| ri_sources := ri_sources r; ri_goals := ri_goals r; ri_directives := ri_directives r;
     ri_captures := ri_captures r; ri_toolScopes := ri_toolScopes r; ri_promptID := x;
     ri_capability := ri_capability r; ri_stream := ri_stream r |}.
Definition set_capability (p : CapabilityInvocationPlan) (r : RunItems) : RunItems :=
  {| ri_sources := ri_sources r; ri_goals := ri_goals r; ri_directives := ri_directives r;
     ri_captures := ri_captures r; ri_toolScopes := ri_toolScopes r; ri_promptID := ri_promptID r;
     ri_capability := Some p; ri_stream := ri_stream r |}.
Definition set_stream (x : StreamSpec) (r : RunItems) : RunItems :=
  {| ri_sources := ri_sources r; ri_goals := ri_goals r; ri_directives := ri_directives r;
     ri_captures := ri_captures r; ri_toolScopes := ri_toolScopes r; ri_promptID := ri_promptID r;
     ri_capability := ri_capability r; ri_stream := Some x |}.

(** The identifier a prompt reference gives: its resolved id, or else its name. *)
Definition prompt_id (ref : PromptRef) (old : string) : string :=
  if negb (is_blank (ResolvedID ref)) then trim_space (ResolvedID ref)
  else if negb (is_blank (id_Value (ref_Name ref))) then trim_space (id_Value (ref_Name ref))
  else old.

Definition LowerCaptureBindings (c : CaptureBlock) : list CaptureBinding := Bindings c.

Definition lower_run_item (i : ExecutionItem) (r : RunItems) : result RunItems :=
  match i with
  | FromClause _ src =>
      let raw := trim_space (valueExprRaw src) in
      Ok (if bool_decide (raw = EmptyString) then r else add_source raw r)
  | GoalClause _ text ref =>
      match ref with
      | Some ref => Ok (set_prompt (prompt_id ref (ri_promptID r)) r)
      | None => let text := trim_space (str_Value text) in
                Ok (if bool_decide (text = EmptyString) then r else add_goal text r)
      end
  | DirectiveClause _ _ _ _ _ | DirectiveBlock _ _ _ _ _ _ => Ok (add_directive (lowerTypedDirective i) r)
  | Capture c => Ok (add_captures (LowerCaptureBindings c) r)
  | CapabilityInvocation sp ns cap target input =>
      let! p := LowerCapabilityInvocation
        {| inv_Span := sp; Namespace := ns; Capability := cap; inv_Target := target; inv_Input := input |} in
      match ri_capability r with
      | Some _ => Err (loc_err sp "multiple direct capability invocations in one run block are not supported" [])
      | None => Ok (set_capability p r)
      end
  | ToolPolicy d => Ok (add_scope (lowerToolScopeFrame "run" d) r)
  | StreamClause _ query maxTokens mode _ =>
      Ok (set_stream {| QueryTemplate := str_Value query;
                        MaxTokens := default 0 (n ← maxTokens; Atoi (trim_space (num_Value n)));
                        Mode := trim_space mode |} r)
  | RunDecl _ _ _ | DelegateDecl _ _ _ | RouteDecl _ _ | AskDecl _ _ | PipelineDecl _ _ => Ok r
  end.

Fixpoint run_items (items : list ExecutionItem) (r : RunItems) : result RunItems :=
  match items with
  | [] => Ok r
  | i :: items' => let! r' := lower_run_item i r in run_items items' r'
  end.

Definition insert_if (b : bool) (k : string) (v : ConfigValue) (c : Config) : Config := if b then <[k := v]> c else c.
Definition nonempty {A} (l : list A) : bool := match l with [] => false | _ => true end.

(** The config of a run block; [None] when it has none of the clauses. *)
Definition run_config (r : RunItems) : option Config :=
  let prompt := negb (is_blank (ri_promptID r)) in
  if nonempty (ri_sources r) || nonempty (ri_goals r) || nonempty (ri_toolScopes r) || prompt then
    Some (insert_if (nonempty (ri_toolScopes r)) "effective_tool_names" (CStrings (effectiveToolNames (ri_toolScopes r)))
           (insert_if prompt "prompt_id" (CString (trim_space (ri_promptID r)))
             (insert_if (nonempty (ri_goals r)) "goals" (CStrings (ri_goals r))
               (insert_if (nonempty (ri_sources r)) "from_sources" (CStrings (ri_sources r)) ∅))))
  else None.

(** [lowerRunItems]: the items and the config. *)
Definition lowerRunItems (items : list ExecutionItem) : result (RunItems * option Config) :=
  let! r := run_items items no_items in Ok (r, run_config r).

(** ** The state of lowering *)
Record Lowered := {
  runIndex : Z; l_Steps : list ExecutionStep; l_Routes : list CompiledRouteGroup;
  l_Pipelines : list CompiledPipelineGroup; l_Warnings : list SemanticWarning
}.
Definition no_plan : Lowered := {| runIndex := 0; l_Steps := []; l_Routes := []; l_Pipelines := []; l_Warnings := [] |}.
Definition next_index (s : Lowered) : Lowered :=
  {| runIndex := runIndex s + 1; l_Steps := l_Steps s; l_Routes := l_Routes s; l_Pipelines := l_Pipelines s; l_Warnings := l_Warnings s |}.
Definition add_step (x : ExecutionStep) (s : Lowered) : Lowered :=
  {| runIndex := runIndex s; l_Steps := l_Steps s ++ [x]; l_Routes := l_Routes s; l_Pipelines := l_Pipelines s; l_Warnings := l_Warnings s |}.
Definition add_route (g : CompiledRouteGroup) (s : Lowered) : Lowered :=
  {| runIndex := runIndex s; l_Steps := l_Steps s; l_Routes := l_Routes s ++ [g]; l_Pipelines := l_Pipelines s; l_Warnings := l_Warnings s |}.
Definition add_pipeline (g : CompiledPipelineGroup) (s : Lowered) : Lowered :=
  {| runIndex := runIndex s; l_Steps := l_Steps s; l_Routes := l_Routes s; l_Pipelines := l_Pipelines s ++ [g]; l_Warnings := l_Warnings s |}.
Definition warn (b : bool) (sp : SourceSpan) (msg : string) (s : Lowered) : Lowered :=
  if b then {| runIndex := runIndex s; l_Steps := l_Steps s; l_Routes := l_Routes s; l_Pipelines := l_Pipelines s;
               l_Warnings := l_Warnings s ++ [{| warn_Span := sp; warn_Message := msg |}] |}
  else s.

Definition LM (A : Type) : Type := SE Lowered A.

(** ** Plain steps *)
Definition replace_all (a b : ascii) (s : string) : string :=
  (fix go s := match s with EmptyString => EmptyString | String c s' => String (if bool_decide (c = a) then b else c) (go s') end) s.
Definition sanitizeComponent (value : string) : string :=
  replace_all ":" "_" (replace_all "/" "_" (replace_all " " "_" (to_lower (trim_space value)))).

Definition id_at (kind : string) (sp : SourceSpan) : string :=
  kind +:+ "." +:+ pretty (sl_Line (Start sp)) +:+ "." +:+ pretty (sl_Column (Start sp)).

Definition askChoiceText (v : option ValueExpr) : string :=
  match v with Some (VString s) => str_Value s | Some (VIdentifier i) => id_Value i | _ => valueExprRaw v end.

Record AskItems := { ai_question : string; ai_choices : list string; ai_source : string; ai_captures : list CaptureBinding; ai_promptID : string }.

Definition lower_ask_item (i : AskItem) (r : AskItems) : result AskItems :=
  let has_choices := nonempty (ai_choices r) || negb (is_blank (ai_source r)) in
  match i with
  | QuestionClause sp text ref =>
      if negb (is_blank (ai_question r)) then Err (loc_err sp "duplicate ask question" [])
      else match ref with
           | Some ref => Ok {| ai_question := ai_question r; ai_choices := ai_choices r; ai_source := ai_source r;
                               ai_captures := ai_captures r; ai_promptID := prompt_id ref (ai_promptID r) |}
           | None => Ok {| ai_question := trim_space (str_Value text); ai_choices := ai_choices r; ai_source := ai_source r;
                           ai_captures := ai_captures r; ai_promptID := ai_promptID r |}
           end
  | ChoicesListClause sp _ items =>
      if has_choices then Err (loc_err sp "duplicate ask choices" [])
      else Ok {| ai_question := ai_question r;
                 ai_choices := ai_choices r ++ filter (λ s, s ≠ EmptyString) ((λ e, trim_space (askChoiceText e)) <$> items);
                 ai_source := ai_source r; ai_captures := ai_captures r; ai_promptID := ai_promptID r |}
  | ChoicesReferenceClause sp src =>
      if has_choices then Err (loc_err sp "duplicate ask choices" [])
      else Ok {| ai_question := ai_question r; ai_choices := ai_choices r; ai_source := trim_space (valueExprRaw src);
                 ai_captures := ai_captures r; ai_promptID := ai_promptID r |}
  | AskCapture c =>
      Ok {| ai_question := ai_question r; ai_choices := ai_choices r; ai_source := ai_source r;
            ai_captures := ai_captures r ++ LowerCaptureBindings c; ai_promptID := ai_promptID r |}
  end.
Fixpoint ask_items (items : list AskItem) (r : AskItems) : result AskItems :=
  match items with
  | [] => Ok r
  | i :: items' => let! r' := lower_ask_item i r in ask_items items' r'
  end.

Definition ask_config (r : AskItems) : Config :=
  insert_if (negb (is_blank (ai_source r))) "choice_source" (CString (ai_source r))
    (insert_if (nonempty (ai_choices r)) "choices" (CStrings (ai_choices r))
      (insert_if (negb (is_blank (ai_promptID r))) "prompt_id" (CString (trim_space (ai_promptID r)))
        {["question" := CString (ai_question r)]})).

Definition lowerAskItems (items : list AskItem) : result (AskItems * Config) :=
  let! r := ask_items items {| ai_question := EmptyString; ai_choices := []; ai_source := EmptyString;
                               ai_captures := []; ai_promptID := EmptyString |} in
  if is_blank (ai_question r) && is_blank (ai_promptID r) then Err (ErrMsg "ask user requires a question")
  else Ok (r, ask_config r).

Definition lowerAskDecl (sp : SourceSpan) (items : list AskItem) : LM ExecutionStep :=
  let* rc := se_result (lowerAskItems items) in
  let '(r, config) := rc in
  let* n := se_get runIndex in
  se_mod next_index ;;;
  se_ret (MkStep {| step_ID := id_at "ask" sp +:+ "." +:+ pretty n; Kind := StepKindAsk; step_Paradigm := KeyEuclo;
      Scope := zero_scope; Question := ai_question r; Choices := ai_choices r; ChoiceSource := ai_source r;
      Goal := EmptyString; Sources := []; step_Directives := []; CaptureBindings := ai_captures r;
      CapabilityID := EmptyString; Prompt := ai_question r; PromptID := ai_promptID r; Mutation := EmptyString;
      HITL := EmptyString; Stream := None; Fallback := None; FallbackFor := EmptyString; Inherit := [];
      step_Capture := []; step_Config := Some config; RevisePredicate := None |} [] []).

Definition capability_config (p : CapabilityInvocationPlan) (c : Config) : Config :=
  insert_if (negb (bool_decide (plan_Input p = EmptyString))) "input" (CString (plan_Input p))
    (insert_if (negb (bool_decide (plan_Target p = EmptyString))) "target" (CString (plan_Target p)) c).

Definition lowerCapabilityExecutionDecl (inv : Invocation) (lookup : option ToolVocabularyLookup) : LM ExecutionStep :=
  let* p := se_result (LowerCapabilityInvocation inv) in
  let* n := se_get runIndex in
  se_mod next_index ;;;
  se_ret (MkStep {| step_ID := id_at "capability" (inv_Span inv) +:+ "." +:+ pretty n; Kind := StepKindCapability;
      step_Paradigm := "euclo"; Scope := capabilityStepScope (plan_CapabilityID p) lookup; Question := EmptyString;
      Choices := []; ChoiceSource := EmptyString; Goal := EmptyString; Sources := []; step_Directives := [];
      CaptureBindings := []; CapabilityID := plan_CapabilityID p;
      Prompt := "do relurpic:" +:+ trim_space (id_Value (Capability inv)); PromptID := EmptyString;
      Mutation := EmptyString; HITL := EmptyString; Stream := None; Fallback := None; FallbackFor := EmptyString;
      Inherit := []; step_Capture := [];
      step_Config := Some (capability_config p {["capability_id" := CString (plan_CapabilityID p)]});
      RevisePredicate := None |} [] []).

(** ** Agent steps *)
Section agent.
Context (agents : gmap string AgentBinding).

(** How the items of a revise body are lowered, under given scopes. *)
Context (revise_item : list ToolScopeFrame → ExecutionItem → LM (list ExecutionStep)).

Fixpoint revise_items (scopes : list ToolScopeFrame) (body : list ExecutionItem) : LM (list ExecutionStep) :=
  match body with
  | [] => se_ret []
  | i :: rest => let* steps := revise_item scopes i in let* more := revise_items scopes rest in se_ret (steps ++ more)
  end.

(** [lowerReviseDirective]: the first revise block of the items. *)
Fixpoint lowerReviseDirective (scopes : list ToolScopeFrame) (items : list ExecutionItem)
    : LM (list ExecutionStep * option Predicate) :=
  match items with
  | [] => se_ret ([], None)
  | i :: rest =>
      match i with
      | DirectiveBlock sp name _ pred _ body =>
          if bool_decide (trim_space (id_Value name) = "revise") then
            match pred with
            | None => se_err (loc_err sp "revise requires a when predicate" [])
            | Some p =>
                let* p' := se_result (NormalizeRoutePredicate p) in
                let* steps := revise_items scopes body in
                match steps with
                | [] => se_err (loc_err sp "revise requires a body of run/delegate items" [])
                | _ => se_ret (steps, Some p')
                end
            end
          else lowerReviseDirective scopes rest
      | _ => lowerReviseDirective scopes rest
      end
  end.

(** The config of an agent step: that of its items, with its capability and its tools. *)
Definition agent_config (config : option Config) (p : option CapabilityInvocationPlan) (tools : list string) : option Config :=
  let config := match p with
                | Some p => Some (<["capability_id" := CString (plan_CapabilityID p)]> (capability_config p (default ∅ config)))
                | None => config
                end in
  match config, tools with
  | _, [] => config
  | _, _ => Some (<["effective_tool_names" := CStrings tools]> (default ∅ config))
  end.

Definition lowerAgentExecutionDecl (kind : StepKind) (agent : Identifier) (items : list ExecutionItem)
    (inherited : list ToolScopeFrame) : LM ExecutionStep :=
  let name := trim_space (id_Value agent) in
  match agents !! name with
  | None => se_err (loc_err (id_Span agent) "unknown agent %q" [name])
  | Some binding =>
      let* rc := se_result (lowerRunItems items) in
      let '(r, config) := rc in
      let* n := se_get runIndex in
      let scopes := inherited ++ ri_toolScopes r in
      let* rev := lowerReviseDirective scopes items in
      let tools := effectiveToolNames scopes in
      let goal := String.concat (byte_str [10%nat]) (ri_goals r) in
      se_mod next_index ;;;
      se_ret (MkStep {| step_ID := id_at (StepKind_String kind) (id_Span agent) +:+ "." +:+ sanitizeComponent name +:+ "." +:+ pretty n;
          Kind := kind; step_Paradigm := ab_Paradigm binding; Scope := AllowTools tools; Question := EmptyString;
          Choices := []; ChoiceSource := EmptyString; Goal := goal; Sources := ri_sources r;
          step_Directives := ri_directives r; CaptureBindings := ri_captures r;
          CapabilityID := match ri_capability r with Some p => plan_CapabilityID p | None => EmptyString end;
          Prompt := goal; PromptID := ri_promptID r; Mutation := EmptyString; HITL := EmptyString; Stream := ri_stream r;
          Fallback := None; FallbackFor := EmptyString; Inherit := []; step_Capture := [];
          step_Config := agent_config config (ri_capability r) tools; RevisePredicate := rev.2 |} [] rev.1)
  end.
End agent.

Definition item_span (i : ExecutionItem) : SourceSpan :=
  match i with
  | ToolPolicy d => tip_Span d
  | RunDecl sp _ _ | DelegateDecl sp _ _ | RouteDecl sp _ | AskDecl sp _ | PipelineDecl sp _ | FromClause sp _
  | GoalClause sp _ _ | StreamClause sp _ _ _ _ | DirectiveClause sp _ _ _ _ | DirectiveBlock sp _ _ _ _ _
  | CapabilityInvocation sp _ _ _ _ => sp
  | Capture c => cap_Span c
  end.

(** The type of an item as [%T] prints it. *)
Definition item_type (i : ExecutionItem) : string :=
  "*thoughtrecipe." +:+
  match i with
  | ToolPolicy _ => "ToolInvokePolicyDecl" | RunDecl _ _ _ => "RunDecl" | DelegateDecl _ _ _ => "DelegateDecl"
  | RouteDecl _ _ => "RouteDecl" | AskDecl _ _ => "AskDecl" | PipelineDecl _ _ => "PipelineDecl"
  | FromClause _ _ => "FromClause" | GoalClause _ _ _ => "GoalClause" | StreamClause _ _ _ _ _ => "StreamClause"
  | DirectiveClause _ _ _ _ _ => "DirectiveClause" | DirectiveBlock _ _ _ _ _ _ => "DirectiveBlock"
  | CapabilityInvocation _ _ _ _ _ => "CapabilityInvocation" | Capture _ => "CaptureBlock"
  end.

(** [lowerReviseBodyItems] of one item. *)
Fixpoint revise_item (agents : gmap string AgentBinding) (scopes : list ToolScopeFrame) (i : ExecutionItem)
    : LM (list ExecutionStep) :=
  match i with
  | RunDecl _ agent items =>
      let* s := lowerAgentExecutionDecl agents (revise_item agents) StepKindRun agent items scopes in se_ret [s]
  | DelegateDecl _ agent items =>
      let* s := lowerAgentExecutionDecl agents (revise_item agents) StepKindDelegate agent items scopes in se_ret [s]
  | AskDecl sp items => let* s := lowerAskDecl sp items in se_ret [s]
  | CapabilityInvocation sp ns cap target input =>
      let* s := lowerCapabilityExecutionDecl
        {| inv_Span := sp; Namespace := ns; Capability := cap; inv_Target := target; inv_Input := input |} None in
      se_ret [s]
  | DirectiveBlock _ _ _ _ _ body =>
      (fix go (l : list ExecutionItem) := match l with
        | [] => se_ret []
        | x :: l' => let* steps := revise_item agents scopes x in let* more := go l' in se_ret (steps ++ more)
        end) body
  | _ => se_err (loc_err (item_span i) "unsupported item in revise body: %T" [item_type i])
  end.
Definition lower_agent (agents : gmap string AgentBinding) := lowerAgentExecutionDecl agents (revise_item agents).

(** ** Routes *)
Section concat_se.
Context {A : Type} (f : A → LM (list ExecutionStep)).
(** The steps of each element, in order. *)
Fixpoint concat_se (l : list A) : LM (list ExecutionStep) :=
  match l with
  | [] => se_ret []
  | x :: l' => let* steps := f x in let* more := concat_se l' in se_ret (steps ++ more)
  end.
End concat_se.

(** The branches of a route, from the [i]th. *)
Section branches.
Context (body_steps : list ExecutionItem → LM (list ExecutionStep)).
Fixpoint lower_branches (i : Z) (l : list RouteBranch) : LM (list CompiledRouteBranch) :=
  match l with
  | [] => se_ret []
  | MkRouteBranch sp pred body isElse :: l' =>
      let* p := se_result (if isElse then Ok None else let! p := NormalizeRoutePredicate pred in Ok (Some p)) in
      let* steps := body_steps body in
      se_mod (warn (negb (nonempty steps) && negb isElse) sp
                (sprintf "route branch %d has no executable steps" [pretty (i + 1)])) ;;;
      let* rest := lower_branches (i + 1) l' in
      se_ret ({| br_Predicate := p; br_Steps := steps; IsElse := isElse |} :: rest)
  end.
End branches.

Definition has_else (l : list RouteBranch) : bool := existsb (λ '(MkRouteBranch _ _ _ isElse), isElse) l.

Section plan.
Context (agents : gmap string AgentBinding) (scopes : list ToolScopeFrame) (lookup : option ToolVocabularyLookup).

(** [lowerRouteDecl], given how a branch's body is lowered. *)
Definition lowerRouteDecl_with (body_steps : list ExecutionItem → LM (list ExecutionStep))
    (sp : SourceSpan) (branches : list RouteBranch) : LM CompiledRouteGroup :=
  let* bs := lower_branches body_steps 0 branches in
  se_mod (warn (negb (has_else branches)) sp "route has no otherwise branch; unmatched input becomes a no-op") ;;;
  se_ret {| group_Span := sp; group_ID := id_at "route" sp; Branches := bs |}.

(** The steps of an item that holds none to flatten, or a route's. *)
Definition leaf_item (route : SourceSpan → list RouteBranch → LM (list ExecutionStep)) (i : ExecutionItem)
    : LM (list ExecutionStep) :=
  match i with
  | RunDecl _ agent items => let* s := lower_agent agents StepKindRun agent items scopes in se_ret [s]
  | DelegateDecl _ agent items => let* s := lower_agent agents StepKindDelegate agent items scopes in se_ret [s]
  | RouteDecl sp branches => route sp branches
  | AskDecl sp items => let* s := lowerAskDecl sp items in se_ret [s]
  | CapabilityInvocation sp ns cap target input =>
      let* s := lowerCapabilityExecutionDecl
        {| inv_Span := sp; Namespace := ns; Capability := cap; inv_Target := target; inv_Input := input |} lookup in
      se_ret [s]
  | _ => se_ret []
  end.

(** [lowerRouteExecutionItems] of one item. *)
Fixpoint route_item (i : ExecutionItem) : LM (list ExecutionStep) :=
  match i with
  | PipelineDecl _ stages => concat_se (λ '(MkPipelineStage _ _ body), concat_se route_item body) stages
  | DirectiveBlock _ _ _ _ _ body => concat_se route_item body
  | RouteDecl sp branches =>
      let* g := lowerRouteDecl_with (concat_se route_item) sp branches in se_mod (add_route g) ;;; se_ret []
  | _ => leaf_item (λ _ _, se_ret []) i
  end.
Definition lowerRouteExecutionItems : list ExecutionItem → LM (list ExecutionStep) := concat_se route_item.
Definition lowerRouteDecl (sp : SourceSpan) (branches : list RouteBranch) : LM CompiledRouteGroup :=
  lowerRouteDecl_with lowerRouteExecutionItems sp branches.
Definition route_steps_of (sp : SourceSpan) (branches : list RouteBranch) : LM (list ExecutionStep) :=
  let* g := lowerRouteDecl sp branches in se_mod (add_route g) ;;; se_ret [].

(** The loop of [lowerRouteExecutionItems]: a stack of the items still to visit of each
    frame. [None]: out of fuel. *)
Fixpoint route_loop (fuel : nat) (stack : list (list ExecutionItem)) (steps : list ExecutionStep)
    : Lowered → option (result (list ExecutionStep) * Lowered) :=
  match stack with
  | [] => λ s, Some (Ok steps, s)
  | frame :: rest =>
      match fuel with
      | O => λ _, None
      | S n =>
          match frame with
          | [] => route_loop n rest steps
          | item :: items =>
              match item with
              | PipelineDecl _ stages => route_loop n (((λ '(MkPipelineStage _ _ body), body) <$> stages) ++ items :: rest) steps
              | DirectiveBlock _ _ _ _ _ body =>
                  route_loop n (match body with [] => items :: rest | _ => body :: items :: rest end) steps
              | _ => λ s, match leaf_item route_steps_of item s with
                          | (Ok more, s') => route_loop n (items :: rest) (steps ++ more) s'
                          | (Err e, s') => Some (Err e, s')
                          end
              end
          end
      end
  end.

(** ** Pipelines *)
Section stages.
Context (body_steps : list ExecutionItem → LM (list ExecutionStep)).
Fixpoint lower_stages (i : Z) (l : list PipelineStage) : LM (list PipelineStageSpec) :=
  match l with
  | [] => se_ret []
  | MkPipelineStage sp name body :: l' =>
      let n := trim_space (id_Value name) in
      let* steps := body_steps body in
      se_mod (warn (bool_decide (n = EmptyString)) sp (sprintf "pipeline stage %d has no name" [pretty (i + 1)])) ;;;
      se_mod (warn (negb (nonempty steps)) sp (sprintf "pipeline stage %q has no executable steps" [n])) ;;;
      let* rest := lower_stages (i + 1) l' in
      se_ret (MkStageSpec n sp steps :: rest)
  end.
End stages.

Definition summarizePipelineStageSpecs (stages : list PipelineStageSpec) : list string :=
  (λ s, if is_blank (stage_Name s) then "stage" else trim_space (stage_Name s)) <$> stages.

Definition pipeline_step (sp : SourceSpan) (stages : list PipelineStageSpec) : ExecutionStep :=
  let id := id_at "pipeline" sp in
  MkStep {| step_ID := id; Kind := StepKindPipelineStage; step_Paradigm := KeyEuclo; Scope := zero_scope;
      Question := EmptyString; Choices := []; ChoiceSource := EmptyString; Goal := EmptyString; Sources := [];
      step_Directives := []; CaptureBindings := []; CapabilityID := EmptyString; Prompt := EmptyString;
      PromptID := EmptyString; Mutation := EmptyString; HITL := EmptyString; Stream := None; Fallback := None;
      FallbackFor := EmptyString; Inherit := []; step_Capture := [];
      step_Config := Some (<["stages" := CStrings (summarizePipelineStageSpecs stages)]>
        (<["step_count" := CInt (Z.of_nat (sum_list_with (λ s, length (stage_Steps s)) stages))]>
          (<["stage_count" := CInt (Z.of_nat (length stages))]> {["pipeline_id" := CString id]})));
      RevisePredicate := None |} stages [].

Definition lowerPipelineDecl_with (body_steps : list ExecutionItem → LM (list ExecutionStep))
    (sp : SourceSpan) (stages : list PipelineStage) : LM ExecutionStep :=
  let* specs := lower_stages body_steps 0 stages in
  se_mod (warn (negb (nonempty specs)) sp "pipeline has no stages") ;;;
  se_mod (add_pipeline {| pg_Span := sp; pg_ID := id_at "pipeline" sp; pg_Stages := specs |}) ;;;
  se_ret (pipeline_step sp specs).

(** [lowerPipelineExecutionItems] of one item. *)
Fixpoint pipeline_item (i : ExecutionItem) : LM (list ExecutionStep) :=
  match i with
  | PipelineDecl sp stages =>
      let* s := lowerPipelineDecl_with (concat_se pipeline_item) sp stages in se_ret [s]
  | DirectiveBlock _ _ _ _ _ body => concat_se pipeline_item body
  | _ => leaf_item route_steps_of i
  end.
Definition lowerPipelineExecutionItems : list ExecutionItem → LM (list ExecutionStep) := concat_se pipeline_item.
Definition lowerPipelineDecl (sp : SourceSpan) (stages : list PipelineStage) : LM ExecutionStep :=
  lowerPipelineDecl_with lowerPipelineExecutionItems sp stages.

(** ** Declarations *)
Definition gatherLoweredFromDeclaration (d : Declaration) : LM unit :=
  match d with
  | BlockDecl (RunDecl _ agent items) =>
      let* s := lower_agent agents StepKindRun agent items scopes in se_mod (add_step s)
  | BlockDecl (DelegateDecl _ agent items) =>
      let* s := lower_agent agents StepKindDelegate agent items scopes in se_mod (add_step s)
  | BlockDecl (RouteDecl sp branches) => let* g := lowerRouteDecl sp branches in se_mod (add_route g)
  | BlockDecl (AskDecl sp items) => let* s := lowerAskDecl sp items in se_mod (add_step s)
  | BlockDecl (PipelineDecl sp stages) => let* s := lowerPipelineDecl sp stages in se_mod (add_step s)
  | _ => se_ret tt
  end.
Fixpoint gather_all (ds : list Declaration) : LM unit :=
  match ds with
  | [] => se_ret tt
  | d :: ds' => gatherLoweredFromDeclaration d ;;; gather_all ds'
  end.
End plan.

(** ** Documents *)
Definition firstTriggerDecl (doc : Document) : option TriggerDeclaration :=
  head (omap (λ d, match d with TriggerDecl t => Some t | _ => None end) (Declarations doc)).

Fixpoint lower_agents (ds : list Declaration) (m : gmap string AgentBinding) : result (gmap string AgentBinding) :=
  match ds with
  | [] => Ok m
  | AgentDecl sp name agentType :: ds' =>
      let paradigm := trim_space (id_Value agentType) in
      let n := trim_space (id_Value name) in
      if negb (IsSupported paradigm) then Err (loc_err sp "unsupported agent paradigm %q" [paradigm])
      else lower_agents ds' (<[n := {| ab_Name := n; ab_Paradigm := paradigm; ab_Span := sp |}]> m)
  | _ :: ds' => lower_agents ds' m
  end.

Definition no_associations : TriggerAssociationMetadata :=
  {| Families := []; Keywords := []; HandoffTargets := []; meta_Tags := [] |}.

Definition lower_recipe (doc : Document) : result ThoughtRecipe :=
  let name := id_Value (hd_Name (doc_Header doc)) in
  let name := if bool_decide (name = EmptyString) then doc_Name doc else name in
  let recipe route meta :=
    {| tr_ID := name; tr_Name := name;
       tr_Description := match Description (doc_Header doc) with Some d => trim_space (str_Value d) | None => EmptyString end;
       tr_RouteKind := route; tr_MetaName := name; tr_Metadata := meta |} in
  match firstTriggerDecl doc with
  | None => Ok (recipe EmptyString no_associations)
  | Some t => let! meta := TriggerAssociationsFromDecl t in Ok (recipe (TriggerRouteKindFromDecl t) meta)
  end.

Definition trigger_scopes (doc : Document) : list ToolScopeFrame :=
  match firstTriggerDecl doc with Some t => lowerToolScopeFrames (ToolPolicies t) "trigger" | None => [] end.

Definition LowerDocumentWithRegistry (doc : Document) (lookup : option ToolVocabularyLookup) : result ExecutionPlan :=
  let! recipe := lower_recipe doc in
  let! agents := lower_agents (Declarations doc) ∅ in
  match gather_all agents (trigger_scopes doc) lookup (Declarations doc) no_plan with
  | (Err e, _) => Err e
  | (Ok _, s) =>
      Ok {| plan_Recipe := recipe; plan_Agents := agents; plan_ToolScopes := trigger_scopes doc; Steps := l_Steps s;
            Routes := l_Routes s; Pipelines := l_Pipelines s; Warnings := l_Warnings s;
            plan_RouteKind := tr_RouteKind recipe |}
  end.
