(* ===== verification/RecipeLoweringSafety.v ===== *)
(** * Lowering of recipes: properties

    What a plan is made of: [compiled] relates a source item to the step it becomes, and a
    plan's steps and routes are those of the document, in order.  The flattening loop of
    routes computes the recursion it is modelled by. *)
From S2P Require Import Prelude GoStrings Selector RecipeLexer RecipeAst RecipeNames RecipeVocabulary RecipeVocabularySafety.
From S2P Require Import RecipeDirectives RecipeSemantic RecipeSemanticSafety ParadigmContracts RecipePlan RecipeLowering.

Local Open Scope Z_scope.

(** ** The executable items of a body *)
Definition is_executable (i : ExecutionItem) : bool :=
  match i with
  | RunDecl _ _ _ | DelegateDecl _ _ _ | AskDecl _ _ | CapabilityInvocation _ _ _ _ _ => true
  | _ => false
  end.
Definition executable (i : ExecutionItem) : list ExecutionItem := if is_executable i then [i] else [].

(** In a revise body directive blocks are transparent, and nothing else is left out. *)
Fixpoint revise_leaf (i : ExecutionItem) : list ExecutionItem :=
  match i with DirectiveBlock _ _ _ _ _ body => body ≫= revise_leaf | _ => [i] end.
(** In a route, pipelines and directive blocks are. *)
Fixpoint route_leaf (i : ExecutionItem) : list ExecutionItem :=
  match i with
  | DirectiveBlock _ _ _ _ _ body => body ≫= route_leaf
  | PipelineDecl _ stages => stages ≫= λ '(MkPipelineStage _ _ body), body ≫= route_leaf
  | _ => executable i
  end.
(** In a stage, directive blocks are. *)
Fixpoint pipeline_leaf (i : ExecutionItem) : list ExecutionItem :=
  match i with
  | DirectiveBlock _ _ _ _ _ body => body ≫= pipeline_leaf
  | PipelineDecl _ _ => [i]
  | _ => executable i
  end.

(** The routes of an item, innermost first. *)
Fixpoint routes_in (i : ExecutionItem) : list (SourceSpan * list RouteBranch) :=
  match i with
  | DirectiveBlock _ _ _ _ _ body => body ≫= routes_in
  | PipelineDecl _ stages => stages ≫= λ '(MkPipelineStage _ _ body), body ≫= routes_in
  | RouteDecl sp branches => (branches ≫= λ '(MkRouteBranch _ _ body _), body ≫= routes_in) ++ [(sp, branches)]
  | _ => []
  end.

(** The tool policies directly in a block, as frames. *)
Definition local_scopes (items : list ExecutionItem) : list ToolScopeFrame :=
  items ≫= λ i, match i with ToolPolicy d => [lowerToolScopeFrame "run" d] | _ => [] end.

(** The first revise block of a block: its predicate and body. *)
Fixpoint revise_block (items : list ExecutionItem) : option (option PredicateExpr * list ExecutionItem) :=
  match items with
  | [] => None
  | DirectiveBlock _ name _ pred _ body :: rest =>
      if bool_decide (trim_space (id_Value name) = "revise") then Some (pred, body) else revise_block rest
  | _ :: rest => revise_block rest
  end.

Definition revised (items : list ExecutionItem) : list ExecutionItem :=
  match revise_block items with Some (_, body) => body ≫= revise_leaf | None => [] end.

(** The predicate of a step with a revise block, whose body is not empty. *)
Definition revise_agrees (items : list ExecutionItem) (s : ExecutionStep) : Prop :=
  match revise_block items with
  | None => RevisePredicate (fields s) = None
  | Some (pred, _) =>
      (∃ p p', pred = Some p ∧ NormalizeRoutePredicate p = Ok p' ∧ RevisePredicate (fields s) = Some p') ∧ ReviseBody s ≠ []
  end.

Definition as_agent (i : ExecutionItem) : option (StepKind * Identifier * list ExecutionItem) :=
  match i with
  | RunDecl _ agent items => Some (StepKindRun, agent, items)
  | DelegateDecl _ agent items => Some (StepKindDelegate, agent, items)
  | _ => None
  end.

Lemma branch_bodies (P : ExecutionItem → Prop) sp branches : Forall (Forall P) (item_bodies (RouteDecl sp branches)) →
  Forall (λ '(MkRouteBranch _ _ body _), Forall P body) branches.
Proof. cbn [item_bodies]. induction branches as [|[? ? body ?] l IH]; intros H; inversion H; constructor; auto. Qed.
Lemma stage_bodies (P : ExecutionItem → Prop) sp stages : Forall (Forall P) (item_bodies (PipelineDecl sp stages)) →
  Forall (λ st, Forall P (stage_body st)) stages.
Proof. cbn [item_bodies]. induction stages as [|[? ? body] l IH]; intros H; inversion H; constructor; auto. Qed.

(** ** From items to steps *)
Section compiled.
Context (agents : gmap string AgentBinding).

(** An agent step is granted the tools in force around its block and those the block
    declares, and no others; a revise body runs under the scopes of its block. *)
Inductive compiled : option ToolVocabularyLookup → list ToolScopeFrame → ExecutionItem → ExecutionStep → Prop :=
| compiled_agent lookup scopes i kind agent items b r s :
    as_agent i = Some (kind, agent, items) →
    agents !! trim_space (id_Value agent) = Some b →
    run_items items no_items = Ok r →
    Kind (fields s) = kind → step_Paradigm (fields s) = ab_Paradigm b →
    Scope (fields s) = AllowTools (effectiveToolNames (scopes ++ local_scopes items)) →
    Sources (fields s) = ri_sources r → step_Directives (fields s) = ri_directives r →
    CaptureBindings (fields s) = ri_captures r →
    PipelineStages s = [] →
    revise_agrees items s →
    Forall2 (compiled None (scopes ++ local_scopes items)) (revised items) (ReviseBody s) →
    compiled lookup scopes i s
| compiled_ask lookup scopes sp items s :
    Kind (fields s) = StepKindAsk → Scope (fields s) = zero_scope → PipelineStages s = [] → ReviseBody s = [] →
    compiled lookup scopes (AskDecl sp items) s
| compiled_capability lookup scopes i inv p s :
    as_invocation i = [inv] → LowerCapabilityInvocation inv = Ok p →
    Kind (fields s) = StepKindCapability → CapabilityID (fields s) = plan_CapabilityID p →
    Scope (fields s) = capabilityStepScope (plan_CapabilityID p) lookup →
    PipelineStages s = [] → ReviseBody s = [] →
    compiled lookup scopes i s
| compiled_pipeline lookup scopes sp stages s :
    Kind (fields s) = StepKindPipelineStage → Scope (fields s) = zero_scope → ReviseBody s = [] →
    Forall2 (λ st spec, stage_Name spec = stage_name st ∧
      Forall2 (compiled lookup scopes) (stage_body st ≫= pipeline_leaf) (stage_Steps spec)) stages (PipelineStages s) →
    compiled lookup scopes (PipelineDecl sp stages) s.

Definition compiled_branch (lookup : option ToolVocabularyLookup) (scopes : list ToolScopeFrame)
    (src : RouteBranch) (b : CompiledRouteBranch) : Prop :=
  let '(MkRouteBranch _ pred body isElse) := src in
  IsElse b = isElse ∧
  (if isElse then br_Predicate b = None else ∃ p, NormalizeRoutePredicate pred = Ok p ∧ br_Predicate b = Some p) ∧
  Forall2 (compiled lookup scopes) (body ≫= route_leaf) (br_Steps b).
Definition compiled_route (lookup : option ToolVocabularyLookup) (scopes : list ToolScopeFrame)
    (src : SourceSpan * list RouteBranch) (g : CompiledRouteGroup) : Prop :=
  group_Span g = src.1 ∧ group_ID g = id_at "route" src.1 ∧
  Forall2 (compiled_branch lookup scopes) src.2 (Branches g).

(** ** Passes *)

(** A pass that appends the groups of [rs], keeps the steps, and whose result has [P]. *)
Definition emits {A} (lookup : option ToolVocabularyLookup) (scopes : list ToolScopeFrame)
    (rs : list (SourceSpan * list RouteBranch)) (P : A → Prop) (m : LM A) : Prop :=
  ∀ s y s', m s = (Ok y, s') →
    l_Steps s' = l_Steps s ∧ (∃ gs, l_Routes s' = l_Routes s ++ gs ∧ Forall2 (compiled_route lookup scopes) rs gs) ∧ P y.

Context (lookup : option ToolVocabularyLookup) (scopes : list ToolScopeFrame).
Abbreviation emits_ := (emits lookup scopes).

Lemma emits_bind {A B} rs1 rs2 (P : A → Prop) (Q : B → Prop) m k :
  emits_ rs1 P m → (∀ y, P y → emits_ rs2 Q (k y)) → emits_ (rs1 ++ rs2) Q (se_bind m k).
Proof.
  intros Hm Hk s y s' (x & s1 & H1 & H2)%se_bind_ok. apply Hm in H1 as (E1 & (g1 & R1 & F1) & Px).
  apply (Hk x Px) in H2 as (E2 & (g2 & R2 & F2) & Qy). split; [congruence|]. split; [|done].
  exists (g1 ++ g2). split; [by rewrite R2, R1, app_assoc|by apply Forall2_app].
Qed.

Lemma emits_bind0 {A B} rs (P : A → Prop) (Q : B → Prop) m k :
  emits_ [] P m → (∀ y, P y → emits_ rs Q (k y)) → emits_ rs Q (se_bind m k).
Proof. intros Hm Hk. exact (emits_bind [] rs P Q m k Hm Hk). Qed.

Lemma emits_ret {A} (P : A → Prop) y : P y → emits_ [] P (se_ret y).
Proof. intros HP s z s' [= <- <-]. split; [done|]. split; [|done]. exists []. by rewrite app_nil_r. Qed.
Lemma emits_err {A} rs (P : A → Prop) e : emits_ rs P (se_err e).
Proof. intros s z s' [=]. Qed.
Lemma emits_get {A} (f : Lowered → A) : emits_ [] (λ _, True) (se_get f).
Proof. intros s z s' [= <- <-]. split; [done|]. split; [|done]. exists []. by rewrite app_nil_r. Qed.
Lemma emits_result {A} (r : result A) : emits_ [] (λ y, r = Ok y) (se_result r).
Proof. intros s z s' [-> ->]%se_result_ok. split; [done|]. split; [|done]. exists []. by rewrite app_nil_r. Qed.
Lemma emits_mod f : (∀ s, l_Steps (f s) = l_Steps s) → (∀ s, l_Routes (f s) = l_Routes s) →
  emits_ [] (λ _, True) (se_mod f).
Proof.
  intros Hf Hr s z s' [= <- <-]. split; [apply Hf|]. split; [|done]. exists []. by rewrite Hr, app_nil_r.
Qed.
Lemma emits_weaken {A} rs (P Q : A → Prop) m : emits_ rs P m → (∀ y, P y → Q y) → emits_ rs Q m.
Proof. intros Hm HPQ s y s' H. apply Hm in H as (? & ? & ?). auto. Qed.
Lemma emits_warn b sp msg : emits_ [] (λ _, True) (se_mod (warn b sp msg)).
Proof. apply emits_mod; intros s; unfold warn; by destruct b. Qed.

Lemma emits_concat {A} (f : A → LM (list ExecutionStep)) (rs : A → list (SourceSpan * list RouteBranch))
    (leaves : A → list ExecutionItem) (R : ExecutionItem → ExecutionStep → Prop) l :
  Forall (λ x, emits_ (rs x) (Forall2 R (leaves x)) (f x)) l →
  emits_ (l ≫= rs) (Forall2 R (l ≫= leaves)) (concat_se f l).
Proof.
  induction 1 as [|x l Hx _ IH]; cbn [concat_se mbind list_bind]; [by apply emits_ret|].
  eapply emits_bind; [exact Hx|]. intros y Hy.
  rewrite <- (app_nil_r (l ≫= rs)). eapply emits_bind; [exact IH|]. intros ys Hys.
  apply emits_ret. by apply Forall2_app.
Qed.

(** ** Agent steps *)
Lemma emits_nil {A} (P : A → Prop) m lookup' scopes' : emits lookup' scopes' [] P m → emits_ [] P m.
Proof.
  intros Hm s y s' H. apply Hm in H as (HS & (gs & HR & HF) & HP). apply Forall2_nil_inv_l in HF as ->.
  split; [done|]. split; [|done]. by exists [].
Qed.

Lemma run_items_scopes items : ∀ r r', run_items items r = Ok r' → ri_toolScopes r' = ri_toolScopes r ++ local_scopes items.
Proof.
  induction items as [|i items IH]; intros r r'; cbn [run_items].
  { intros [= <-]. unfold local_scopes. cbn. by rewrite app_nil_r. }
  intros (r1 & H1 & H2)%rbind_ok. apply IH in H2 as ->. unfold local_scopes at 2. cbn [mbind list_bind].
  rewrite app_assoc. f_equal. destruct i; cbn [lower_run_item] in H1.
  all: try match type of H1 with match ?o with _ => _ end = _ => destruct o end.
  all: try (injection H1 as <-; rewrite ?app_nil_r; repeat case_match; done).
  apply rbind_ok in H1 as (p & _ & H1). destruct (ri_capability r); [done|]. injection H1 as <-. by rewrite app_nil_r.
Qed.

Lemma revise_items_block (sc : list ToolScopeFrame) sp name args pred raw body :
  revise_items (revise_item agents) sc body = revise_item agents sc (DirectiveBlock sp name args pred raw body).
Proof. cbn [revise_item]. induction body as [|x body IH]; [done|]. cbn [revise_items]. by rewrite IH. Qed.

(** A pass over an item of a revise body. *)
Definition revise_ok (i : ExecutionItem) : Prop :=
  ∀ sc, emits_ [] (Forall2 (compiled None sc) (revise_leaf i)) (revise_item agents sc i).

Lemma lowerReviseDirective_emits sc items : Forall revise_ok items →
  emits_ [] (λ r, Forall2 (compiled None sc) (revised items) r.1 ∧
      match revise_block items with
      | None => r.2 = None
      | Some (pred, _) => (∃ p p', pred = Some p ∧ NormalizeRoutePredicate p = Ok p' ∧ r.2 = Some p') ∧ r.1 ≠ []
      end) (lowerReviseDirective (revise_item agents) sc items).
Proof.
  induction 1 as [|i items Hi _ IH]; cbn [lowerReviseDirective]; [by apply emits_ret|].
  unfold revised. destruct i as [d|? ? ?|? ? ?|? ?|? ?|? ?|? ?|? ? ?|? ? ? ? ?|? ? ? ? ?|sp name args pred raw body|? ? ? ? ?|?];
    cbn [revise_block]; try exact IH.
  case_bool_decide; [|exact IH]. destruct pred as [p|]; [|apply emits_err].
  eapply emits_bind0; [apply emits_result|]. intros p' Hp'.
  eapply emits_bind0; [rewrite (revise_items_block sc sp name args (Some p) raw); apply Hi|]. intros steps Hsteps.
  destruct steps as [|st steps]; [apply emits_err|]. apply emits_ret. split; [exact Hsteps|]. split; [by exists p, p'|done].
Qed.

Lemma agent_emits lookup' kind agent items sc i : as_agent i = Some (kind, agent, items) → Forall revise_ok items →
  emits_ [] (compiled lookup' sc i) (lower_agent agents kind agent items sc).
Proof.
  intros Hi Hok. unfold lower_agent, lowerAgentExecutionDecl.
  destruct (agents !! _) as [b|] eqn:Hb; [|apply emits_err].
  eapply emits_bind0; [apply emits_result|]. intros [r config] Hr. unfold lowerRunItems in Hr.
  apply rbind_ok in Hr as (r0 & Hr & [= -> _]). apply run_items_scopes in Hr as Hsc. cbn [ri_toolScopes no_items app] in Hsc.
  eapply emits_bind0; [apply emits_get|]. intros n _. rewrite Hsc.
  eapply emits_bind0; [by apply lowerReviseDirective_emits|]. intros [steps pred] [Hsteps Hpred].
  eapply emits_bind0; [by apply emits_mod|]. intros _ _. apply emits_ret.
  eapply compiled_agent; try done.
Qed.

Lemma ask_emits lookup' sc sp items : emits_ [] (compiled lookup' sc (AskDecl sp items)) (lowerAskDecl sp items).
Proof.
  unfold lowerAskDecl. eapply emits_bind0; [apply emits_result|]. intros [r config] _.
  eapply emits_bind0; [apply emits_get|]. intros n _. eapply emits_bind0; [by apply emits_mod|]. intros _ _.
  apply emits_ret. by apply compiled_ask.
Qed.

Lemma capability_emits lookup' sc i inv : as_invocation i = [inv] →
  emits_ [] (compiled lookup' sc i) (lowerCapabilityExecutionDecl inv lookup').
Proof.
  intros Hi. unfold lowerCapabilityExecutionDecl. eapply emits_bind0; [apply emits_result|]. intros p Hp.
  eapply emits_bind0; [apply emits_get|]. intros n _. eapply emits_bind0; [by apply emits_mod|]. intros _ _.
  apply emits_ret.
  by apply (compiled_capability _ _ _ inv p).
Qed.

Lemma emits_single (R : ExecutionItem → ExecutionStep → Prop) i m :
  emits_ [] (R i) m → emits_ [] (Forall2 R [i]) (let* s := m in se_ret [s]).
Proof. intros Hm. eapply emits_bind0; [exact Hm|]. intros y Hy. apply emits_ret. by repeat constructor. Qed.

Lemma revise_item_ok i : revise_ok i.
Proof.
  induction i as [i IH] using item_ind. intros sc. destruct i; cbn [revise_item]; try apply emits_err.
  - cbn [item_bodies] in IH. apply emits_single, (agent_emits _ StepKindRun); [done|by inversion IH].
  - cbn [item_bodies] in IH. apply emits_single, (agent_emits _ StepKindDelegate); [done|by inversion IH].
  - apply emits_single, ask_emits.
  - cbn [item_bodies] in IH. apply (proj1 (Forall_singleton _ _)) in IH. cbn [revise_leaf].
    induction IH as [|x body Hx _ IHb]; [by apply emits_ret|]. cbn [mbind list_bind].
    eapply emits_bind0; [apply Hx|]. intros y Hy. eapply emits_bind0; [exact IHb|]. intros ys Hys.
    apply emits_ret. by apply Forall2_app.
  - apply emits_single. by apply capability_emits.
Qed.

Lemma agent_item_emits kind agent items i : as_agent i = Some (kind, agent, items) →
  emits_ [] (Forall2 (compiled lookup scopes) [i]) (let* s := lower_agent agents kind agent items scopes in se_ret [s]).
Proof. intros Hi. apply emits_single. apply agent_emits; [done|]. apply Forall_forall. intros. apply revise_item_ok. Qed.

(** ** Routes *)
Abbreviation leaves_compiled i := (Forall2 (compiled lookup scopes) i).

(** A pass over the items of a route. *)
Definition route_ok (i : ExecutionItem) : Prop :=
  emits_ (routes_in i) (leaves_compiled (route_leaf i)) (route_item agents scopes lookup i).

Lemma leaf_emits i : is_executable i → ∀ route,
  emits_ [] (leaves_compiled [i]) (leaf_item agents scopes lookup route i).
Proof.
  destruct i; try done; intros _ route; cbn [leaf_item].
  - by apply (agent_item_emits StepKindRun).
  - by apply (agent_item_emits StepKindDelegate).
  - apply emits_single, ask_emits.
  - apply emits_single. by apply capability_emits.
Qed.

Lemma branches_emits branches :
  Forall (λ '(MkRouteBranch _ _ body _), Forall route_ok body) branches → ∀ i,
  emits_ (branches ≫= λ '(MkRouteBranch _ _ body _), body ≫= routes_in)
    (Forall2 (compiled_branch lookup scopes) branches)
    (lower_branches (concat_se (route_item agents scopes lookup)) i branches).
Proof.
  induction 1 as [|[sp pred body isElse] l Hb _ IH]; intros i; cbn [lower_branches mbind list_bind]; [by apply emits_ret|].
  eapply emits_bind0; [apply emits_result|]. intros p Hp.
  eapply emits_bind; [by apply (emits_concat _ routes_in route_leaf)|]. intros steps Hsteps.
  eapply emits_bind0; [apply emits_warn|]. intros _ _.
  rewrite <- (app_nil_r (l ≫= _)). eapply emits_bind; [apply IH|]. intros rest Hrest.
  apply emits_ret. constructor; [|exact Hrest]. split; [done|]. split; [|exact Hsteps]. cbn [br_Predicate].
  destruct isElse; [by injection Hp as <-|]. apply rbind_ok in Hp as (p' & Hp' & [= <-]). by exists p'.
Qed.

Lemma route_emits sp branches : Forall (λ '(MkRouteBranch _ _ body _), Forall route_ok body) branches →
  emits_ (branches ≫= λ '(MkRouteBranch _ _ body _), body ≫= routes_in) (compiled_route lookup scopes (sp, branches))
    (lowerRouteDecl_with (concat_se (route_item agents scopes lookup)) sp branches).
Proof.
  intros Hb. unfold lowerRouteDecl_with. rewrite <- (app_nil_r (branches ≫= _)).
  eapply emits_bind; [by apply branches_emits|]. intros bs Hbs.
  eapply emits_bind0; [apply emits_warn|]. intros _ _. by apply emits_ret.
Qed.

Lemma add_route_emits r g : compiled_route lookup scopes r g → emits_ [r] (λ _, True) (se_mod (add_route g)).
Proof. intros Hg s y s' [= <- <-]. split; [done|]. split; [|done]. exists [g]. split; [done|]. by constructor. Qed.

Lemma hoisted_emits sp branches : Forall (λ '(MkRouteBranch _ _ body _), Forall route_ok body) branches →
  emits_ (routes_in (RouteDecl sp branches)) (leaves_compiled [])
    (let* g := lowerRouteDecl_with (concat_se (route_item agents scopes lookup)) sp branches in
     se_mod (add_route g) ;;; se_ret []).
Proof.
  intros Hb. cbn [routes_in]. eapply emits_bind; [by apply route_emits|]. intros g Hg.
  rewrite <- (app_nil_r [_]). eapply emits_bind; [by apply add_route_emits|]. intros _ _. by apply emits_ret.
Qed.

Lemma route_item_ok i : route_ok i.
Proof.
  induction i as [i IH] using item_ind. unfold route_ok.
  destruct i; cbn [route_item routes_in route_leaf executable is_executable leaf_item]; try by apply emits_ret.
  - by apply (agent_item_emits StepKindRun).
  - by apply (agent_item_emits StepKindDelegate).
  - apply hoisted_emits. by eapply branch_bodies.
  - apply emits_single, ask_emits.
  - apply (emits_concat _ (λ '(MkPipelineStage _ _ body), body ≫= routes_in) (λ '(MkPipelineStage _ _ body), body ≫= route_leaf)).
    apply stage_bodies in IH. eapply Forall_impl; [exact IH|]. intros [? ? body] Hbody. by apply emits_concat.
  - apply emits_concat. by apply (proj1 (Forall_singleton _ _)) in IH.
  - apply emits_single. by apply capability_emits.
Qed.

Lemma all_route_ok branches : Forall (λ '(MkRouteBranch _ _ body _), Forall route_ok body) branches.
Proof. apply Forall_forall. intros [? ? body ?] _. apply Forall_forall. intros. apply route_item_ok. Qed.

(** ** Pipelines *)
Definition pipeline_ok (i : ExecutionItem) : Prop :=
  emits_ (routes_in i) (leaves_compiled (pipeline_leaf i)) (pipeline_item agents scopes lookup i).
Definition compiled_stage (st : PipelineStage) (spec : PipelineStageSpec) : Prop :=
  stage_Name spec = stage_name st ∧ leaves_compiled (stage_body st ≫= pipeline_leaf) (stage_Steps spec).

Lemma stages_emits stages : Forall (λ st, Forall pipeline_ok (stage_body st)) stages → ∀ i,
  emits_ (stages ≫= λ '(MkPipelineStage _ _ body), body ≫= routes_in) (Forall2 compiled_stage stages)
    (lower_stages (concat_se (pipeline_item agents scopes lookup)) i stages).
Proof.
  induction 1 as [|[sp name body] l Hb _ IH]; intros i; cbn [lower_stages mbind list_bind]; [by apply emits_ret|].
  eapply emits_bind; [by apply (emits_concat _ routes_in pipeline_leaf)|]. intros steps Hsteps.
  eapply emits_bind0; [apply emits_warn|]. intros _ _. eapply emits_bind0; [apply emits_warn|]. intros _ _.
  rewrite <- (app_nil_r (l ≫= _)). eapply emits_bind; [apply IH|]. intros rest Hrest.
  apply emits_ret. by constructor.
Qed.

Lemma pipeline_emits sp stages : Forall (λ st, Forall pipeline_ok (stage_body st)) stages →
  emits_ (stages ≫= λ '(MkPipelineStage _ _ body), body ≫= routes_in) (compiled lookup scopes (PipelineDecl sp stages))
    (lowerPipelineDecl_with (concat_se (pipeline_item agents scopes lookup)) sp stages).
Proof.
  intros Hs. unfold lowerPipelineDecl_with. rewrite <- (app_nil_r (stages ≫= _)).
  eapply emits_bind; [by apply stages_emits|]. intros specs Hspecs.
  eapply emits_bind0; [apply emits_warn|]. intros _ _. eapply emits_bind0; [by apply emits_mod|]. intros _ _.
  apply emits_ret. by apply compiled_pipeline.
Qed.

Lemma pipeline_item_ok i : pipeline_ok i.
Proof.
  induction i as [i IH] using item_ind. unfold pipeline_ok.
  destruct i; cbn [pipeline_item routes_in pipeline_leaf executable is_executable leaf_item]; try by apply emits_ret.
  - by apply (agent_item_emits StepKindRun).
  - by apply (agent_item_emits StepKindDelegate).
  - apply hoisted_emits, all_route_ok.
  - apply emits_single, ask_emits.
  - rewrite <- (app_nil_r (stages ≫= _)). eapply emits_bind; [apply pipeline_emits; by eapply stage_bodies|].
    intros y Hy. apply emits_ret. constructor; [exact Hy|constructor].
  - apply emits_concat. by apply (proj1 (Forall_singleton _ _)) in IH.
  - apply emits_single. by apply capability_emits.
Qed.

(** ** Documents *)

(** The executable blocks at the top of a document, and the routes. *)
Definition step_blocks (ds : list Declaration) : list ExecutionItem :=
  ds ≫= λ d, match d with
             | BlockDecl (RunDecl _ _ _ as i) | BlockDecl (DelegateDecl _ _ _ as i) | BlockDecl (AskDecl _ _ as i)
             | BlockDecl (PipelineDecl _ _ as i) => [i]
             | _ => []
             end.
Definition route_blocks (ds : list Declaration) : list (SourceSpan * list RouteBranch) :=
  ds ≫= λ d, match d with
             | BlockDecl (RouteDecl _ _ as i) | BlockDecl (PipelineDecl _ _ as i) => routes_in i
             | _ => []
             end.

(** A pass that appends the steps of [items] and the groups of [rs]. *)
Definition extends (items : list ExecutionItem) (rs : list (SourceSpan * list RouteBranch)) (m : LM unit) : Prop :=
  ∀ s s', m s = (Ok (), s') →
    (∃ steps, l_Steps s' = l_Steps s ++ steps ∧ leaves_compiled items steps) ∧
    (∃ gs, l_Routes s' = l_Routes s ++ gs ∧ Forall2 (compiled_route lookup scopes) rs gs).

Lemma extends_step i rs m : emits_ rs (compiled lookup scopes i) m → extends [i] rs (let* x := m in se_mod (add_step x)).
Proof.
  intros Hm s s' (x & s1 & H1 & [= <-])%se_bind_ok. apply Hm in H1 as (HS & (gs & HR & HF) & Hx). split.
  - exists [x]. split; [by cbn; rewrite HS|]. constructor; [exact Hx|constructor].
  - by exists gs.
Qed.

Lemma extends_none m : emits_ [] (λ _, True) m → extends [] [] m.
Proof. intros Hm s s' H. apply Hm in H as (HS & HR & _). split; [|done]. exists []. by rewrite app_nil_r. Qed.

Lemma extends_route sp branches : extends [] (routes_in (RouteDecl sp branches))
  (let* g := lowerRouteDecl agents scopes lookup sp branches in se_mod (add_route g)).
Proof.
  intros s s' (g & s1 & H1 & [= <-])%se_bind_ok. apply route_emits in H1 as (HS & (gs & HR & HF) & Hg); [|apply all_route_ok].
  split; [exists []; by rewrite app_nil_r|]. exists (gs ++ [g]). split; [by cbn; rewrite HR, app_assoc|].
  apply Forall2_app; [exact HF|]. constructor; [exact Hg|constructor].
Qed.

Lemma extends_app i1 r1 i2 r2 m1 m2 : extends i1 r1 m1 → extends i2 r2 m2 → extends (i1 ++ i2) (r1 ++ r2) (m1 ;;; m2).
Proof.
  intros Hm1 Hm2 s s' ([] & s1 & H1 & H2)%se_bind_ok.
  apply Hm1 in H1 as [(x1 & S1 & F1) (g1 & R1 & G1)]. apply Hm2 in H2 as [(x2 & S2 & F2) (g2 & R2 & G2)]. split.
  - exists (x1 ++ x2). split; [by rewrite S2, S1, app_assoc|by apply Forall2_app].
  - exists (g1 ++ g2). split; [by rewrite R2, R1, app_assoc|by apply Forall2_app].
Qed.

Lemma gather_declaration d : extends (step_blocks [d]) (route_blocks [d]) (gatherLoweredFromDeclaration agents scopes lookup d).
Proof.
  destruct d as [| | | | |i]; cbn; try (apply extends_none; by apply emits_ret).
  destruct i; cbn; try (apply extends_none; by apply emits_ret).
  - apply extends_step. apply (agent_emits _ StepKindRun); [done|]. apply Forall_forall. intros. apply revise_item_ok.
  - apply extends_step. apply (agent_emits _ StepKindDelegate); [done|]. apply Forall_forall. intros. apply revise_item_ok.
  - rewrite app_nil_r. apply extends_route.
  - apply extends_step, ask_emits.
  - rewrite app_nil_r. apply extends_step, pipeline_emits. apply Forall_forall. intros st _.
    apply Forall_forall. intros. apply pipeline_item_ok.
Qed.

Lemma gather_document ds : extends (step_blocks ds) (route_blocks ds) (gather_all agents scopes lookup ds).
Proof.
  induction ds as [|d ds IH]; cbn [gather_all]; [apply extends_none; by apply emits_ret|].
  pose proof (extends_app _ _ _ _ _ _ (gather_declaration d) IH) as H. unfold step_blocks, route_blocks in H |- *.
  cbn [mbind list_bind] in H |- *. by rewrite !app_nil_r in H.
Qed.
End compiled.


(** ** The flattening loop of routes *)

(** The turns the loop takes to get past an item: one for it and for each item inside it
    that is flattened, and one for the end of each body it opens. *)
Fixpoint item_turns (i : ExecutionItem) : nat :=
  match i with
  | PipelineDecl _ stages => S (sum_list_with (λ '(MkPipelineStage _ _ body), S (sum_list_with item_turns body)) stages)
  | DirectiveBlock _ _ _ _ _ body => S (match body with [] => O | _ => S (sum_list_with item_turns body) end)
  | _ => 1%nat
  end.
Definition turns (items : list ExecutionItem) : nat := S (sum_list_with item_turns items).

Section flatten.
Context (agents : gmap string AgentBinding) (scopes : list ToolScopeFrame) (lookup : option ToolVocabularyLookup).
Abbreviation loop := (route_loop agents scopes lookup).
Abbreviation recursion := (route_item agents scopes lookup).

(** The loop goes on after what [m] computes, or stops with its error. *)
Definition continue (fuel : nat) (rest : list (list ExecutionItem)) (steps : list ExecutionStep)
    (r : result (list ExecutionStep) * Lowered) : option (result (list ExecutionStep) * Lowered) :=
  match r with
  | (Ok more, s') => loop fuel rest (steps ++ more) s'
  | (Err e, s') => Some (Err e, s')
  end.

Lemma continue_bind fuel rest steps (f g : LM (list ExecutionStep)) s :
  continue fuel rest steps ((let* x := f in let* y := g in se_ret (x ++ y)) s) =
  match f s with
  | (Ok x, s') => continue fuel rest (steps ++ x) (g s')
  | (Err e, s') => Some (Err e, s')
  end.
Proof.
  unfold se_bind. destruct (f s) as [[x|e] s1]; [|done]. destruct (g s1) as [[y|e] s2]; [|done].
  cbn. by rewrite app_assoc.
Qed.

Definition item_flat (i : ExecutionItem) : Prop := ∀ fuel items rest steps s,
  loop (item_turns i + fuel) ((i :: items) :: rest) steps s = continue fuel (items :: rest) steps (recursion i s).

Lemma body_flat body : Forall item_flat body → ∀ fuel rest steps s,
  loop (turns body + fuel) (body :: rest) steps s = continue fuel rest steps (concat_se recursion body s).
Proof.
  induction 1 as [|i body Hi _ IH]; intros fuel rest steps s; unfold turns; cbn [sum_list_with concat_se].
  { cbn. by rewrite app_nil_r. }
  rewrite continue_bind. replace (S (item_turns i + sum_list_with item_turns body) + fuel)%nat
    with (item_turns i + (turns body + fuel))%nat by (unfold turns; lia).
  rewrite Hi. unfold continue at 1. destruct (recursion i s) as [[x|e] s']; [apply IH|done].
Qed.

Lemma stages_flat stages : Forall (λ st, Forall item_flat (stage_body st)) stages → ∀ fuel rest steps s,
  loop (sum_list_with (λ '(MkPipelineStage _ _ body), turns body) stages + fuel)
    (((λ '(MkPipelineStage _ _ body), body) <$> stages) ++ rest) steps s =
  continue fuel rest steps (concat_se (λ '(MkPipelineStage _ _ body), concat_se recursion body) stages s).
Proof.
  induction 1 as [|[sp name body] l Hb _ IH]; intros fuel rest steps s; cbn [sum_list_with concat_se].
  { cbn. by rewrite app_nil_r. }
  rewrite continue_bind. rewrite <- Nat.add_assoc. cbn [fmap list_fmap app stage_body] in *.
  rewrite body_flat by exact Hb. unfold continue at 1. destruct (concat_se _ _ s) as [[x|e] s']; [apply IH|done].
Qed.

Lemma all_flat i : item_flat i.
Proof.
  induction i as [i IH] using item_ind. intros fuel items rest steps s.
  destruct i as [d|? ? ?|? ? ?|sp brs|? ?|sp stages|? ?|? ? ?|? ? ? ? ?|? ? ? ? ?|sp name args pred raw body|? ? ? ? ?|?].
  all: try (match goal with |- context [route_item _ _ _ ?i ?s] =>
    change (recursion i s) with (leaf_item agents scopes lookup (route_steps_of agents scopes lookup) i s) end;
    cbn [item_turns Nat.add route_loop]; unfold continue; case_match; done).
  - cbn [item_turns Nat.add route_loop route_item]. apply stages_flat. by eapply stage_bodies.
  - apply (proj1 (Forall_singleton _ _)) in IH. cbn [item_turns Nat.add route_loop route_item]. destruct body as [|x body].
    + cbn. by rewrite app_nil_r.
    + by apply body_flat.
Qed.

(** C15: The stack loop that flattens a route's body ends, within an explicit number of
    turns, and computes what the recursion over the body does: the same steps or the same
    error, and the same routes and warnings. *)
Theorem route_loop_flattens items fuel s : (turns items ≤ fuel)%nat →
  loop fuel [items] [] s = Some (lowerRouteExecutionItems agents scopes lookup items s).
Proof.
  intros Hfuel. replace fuel with (turns items + (fuel - turns items))%nat by lia.
  rewrite body_flat by (apply Forall_forall; intros; apply all_flat). unfold continue, lowerRouteExecutionItems.
  destruct (concat_se _ _ s) as [[more|e] s']; [|done]. by destruct (fuel - turns items)%nat.
Qed.
End flatten.
