(* ===== verification/RecipeGraph.v ===== *)
(** * RecipeGraph

    named/euclo/thoughtrecipes/graph_builder.go and predicate_compile.go: the execution
    graph of a plan.  The builder works on the graph of [Graph.v] through its own
    operations; an error leaves the graph as it is then, and no graph is returned.  The
    stages, routes and branches are nodes of this file, with their [Execute].  What a
    step's own node and a stream node do when they run is given ([run_step], [run_stream]):
    the builder reads of a step only its kind and the fields that give it a stream, a gate
    and a fallback.  A stage node keeps its data between visits; no node of a built graph is
    visited twice (RecipeGraphSafety.v). *)
From stdpp Require Import pretty.
From S2P Require Import Prelude GoStrings GoTime GoLoop Envelope EnvelopeMerge ContextStream Epoch Selector Placement Graph.
From S2P Require Import RecipeLexer RecipeAst RecipeNames RecipeVocabulary RecipeDirectives RecipeSemantic RecipePlan RecipeLowering.

Local Open Scope Z_scope.

(** ** Values

    What the type switches and [fmt] see of a value that [Any] does not split up. *)
Inductive ValueView :=
| ViewNil
| ViewStringer (s : string)                       (** a value with a [String] method *)
| ViewInt (z : Z)                                 (** an integer narrower than 64 bits *)
| ViewFloat (printed : string) (percent : Z)      (** its conversion by [extractConfidence] *)
| ViewList (elements : list string) (printed : string)  (** a [[]any], its elements printed *)
| ViewOther (printed : string).

(** [compilePredicate] panics on an operator it does not know. *)
Definition predicate_panic : gerror := ErrSentinel "panic: compilePredicate: unknown predicate op".

Definition truthy_text (s : string) : bool :=
  negb (bool_decide (to_lower (trim_space s) ∈ [EmptyString; "0"; "false"; "no"; "off"; "nil"; "null"])).

(** [fmt.Sscanf] with [%d]: a sign and the longest run of digits, within [int]. *)
Fixpoint digit_prefix (s : string) : string :=
  match s with
  | String c s' => if is_digit c then String c (digit_prefix s') else EmptyString
  | EmptyString => EmptyString
  end.
Definition scan_int (s : string) : option Z :=
  match s with
  | String c s' => if bool_decide (c ∈ ["+"; "-"]%char) then Atoi (String c (digit_prefix s')) else Atoi (digit_prefix s)
  | EmptyString => None
  end.

(** ** Captures *)
Definition CaptureDestinationKey (b : CaptureBinding) : string := trim_space (path_Raw (Destination b)).
Definition groundingDestination (dest : string) : bool :=
  has_prefix "state." (trim_space dest) || has_prefix "output." (trim_space dest).
Definition declaresGroundingCapture (steps : list ExecutionStep) : bool :=
  existsb (λ s, existsb (λ b, groundingDestination (CaptureDestinationKey b)) (CaptureBindings (fields s))) steps.
Definition DeclaresGroundingCaptures (plan : ExecutionPlan) : bool :=
  declaresGroundingCapture (Steps plan) ||
  existsb (λ g, existsb (λ b, declaresGroundingCapture (br_Steps b)) (Branches g)) (Routes plan).
Definition validateCaptureSinks (plan : ExecutionPlan) (grounder : bool) : option gerror :=
  check (DeclaresGroundingCaptures plan && negb grounder)
    (ErrMsg "euclo: recipe declares capture but no grounding boundary is composed (Grounder); wire the knowledge runtime or drop the capture clauses").

(** ** Identifiers *)
Definition if_blank (d s : string) : string := if is_blank s then d else s.
Definition scopedGroupNodeID (groupID kind : string) : string :=
  "euclo.execution.group." +:+ if_blank "group" (sanitizeComponent groupID) +:+ "." +:+ if_blank "node" (sanitizeComponent kind).
Definition routeConditionResultKey (groupID branchID : string) : string :=
  "euclo.execution.group." +:+ sanitizeComponent groupID +:+ ".branch." +:+ sanitizeComponent branchID +:+ ".condition_met".
Definition terminal_id : string := "euclo.execution.done".

Definition summarizePipelineStageSpecs (stages : list PipelineStageSpec) : list string :=
  (λ s, if_blank "stage" (trim_space (stage_Name s))) <$> stages.

(** ** Fallback steps *)
Definition with_fields (f : StepFields) (s : ExecutionStep) : ExecutionStep :=
  let '(MkStep _ stages body) := s in MkStep f stages body.
Definition buildFallbackStep (parent : ExecutionStep) : ExecutionStep :=
  let f := fields parent in
  let step paradigm prompt promptID stream inherit capture :=
    with_fields {| step_ID := step_ID f +:+ ".fallback"; Kind := Kind f; step_Paradigm := paradigm; Scope := Scope f;
      Question := Question f; Choices := Choices f; ChoiceSource := ChoiceSource f; Goal := Goal f; Sources := Sources f;
      step_Directives := step_Directives f; CaptureBindings := CaptureBindings f; CapabilityID := CapabilityID f;
      Prompt := prompt; PromptID := promptID; Mutation := Mutation f; HITL := HITL f; Stream := stream;
      Fallback := None; FallbackFor := step_ID f; Inherit := inherit; step_Capture := capture;
      step_Config := step_Config f; RevisePredicate := RevisePredicate f |} parent in
  match Fallback f with
  | None => step (step_Paradigm f) (Prompt f) (PromptID f) (Stream f) (Inherit f) (step_Capture f)
  | Some a => step (agent_Paradigm a) (agent_Prompt a) EmptyString (agent_Stream a) (agent_Inherit a) (agent_Capture a)
  end.

Section graph.
Context {V : Type} (view : V → ValueView) (pred_value : Predicate → V) (clock : moment → Time).
Abbreviation Envelope := (Envelope V).
Abbreviation Graph := (Graph V).
Abbreviation Result := (Result V).
Abbreviation Data := (gmap string (Any V)).
Abbreviation ConditionFunc := (Envelope → bool).
Context (run_step : string → ExecutionStep → moment → Envelope → result (option Result) * Envelope).
Context (run_stream : string → StreamSpec → moment → Envelope → result (option Result) * Envelope).

(** ** Predicates *)

(** [GetTyped[any]]: a nil interface is not found. *)
Definition lookup_any (e : Envelope) (key : string) : option (Any V) :=
  match data e !! key with
  | Some (VOther v) => match view v with ViewNil => None | _ => Some (VOther v) end
  | o => o
  end.
Definition lookupConditionValue (e : Envelope) (key : string) : option (Any V) :=
  if is_blank key then None else lookup_any e (trim_space key).

Definition truthy (v : option (Any V)) : bool :=
  match v with
  | None => false
  | Some (VBool b) => b
  | Some (Envelope.VString s) => truthy_text s
  | Some (VInt z | VInt64 z | VUint z | VUint64 z) => negb (z =? 0)
  | Some (VStrings _) => true
  | Some (VOther v) =>
      match view v with
      | ViewNil => false
      | ViewStringer s => truthy_text s
      | ViewInt z => negb (z =? 0)
      | ViewFloat printed _ => negb (bool_decide (printed ∈ ["0"; "0.0"]))
      | ViewList _ _ | ViewOther _ => true
      end
  end.
Definition envBool (e : Envelope) (key : string) : bool := truthy (lookup_any e key).

(** [fmt.Sprint] *)
Definition sprint (v : option (Any V)) : string :=
  match v with
  | None => "<nil>"
  | Some (VBool b) => if b then "true" else "false"
  | Some (Envelope.VString s) => s
  | Some (VInt z | VInt64 z | VUint z | VUint64 z) => pretty z
  | Some (VStrings l) => "[" +:+ String.concat " " l +:+ "]"
  | Some (VOther v) =>
      match view v with
      | ViewNil => "<nil>"
      | ViewStringer s | ViewFloat s _ | ViewList _ s | ViewOther s => s
      | ViewInt z => pretty z
      end
  end.

Definition extractConfidence (v : option (Any V)) : Z :=
  match v with
  | Some (VInt z | VInt64 z) => z
  | Some (VUint z) => wrap64 z
  | Some (VUint64 z) => if int64_max <? z then -1 else z
  | Some (Envelope.VString s) => default (-1) (scan_int (trim_suffix "%" (trim_space s)))
  | Some (VOther v) => match view v with ViewInt z => z | ViewFloat _ p => p | _ => -1 end
  | _ => -1
  end.
Definition confidenceValue (e : Envelope) (subject : string) : Z :=
  let c := extractConfidence (lookupConditionValue e subject) in
  if 0 <=? c then c
  else let c := extractConfidence (lookupConditionValue e (subject +:+ "_confidence")) in
       if 0 <=? c then c
       else extractConfidence (lookupConditionValue e (subject +:+ ".confidence")).

Definition contains_value (v : option (Any V)) (want : string) : bool :=
  match v with
  | Some (Envelope.VString s) => contains s want
  | Some (VStrings l) => bool_decide (want ∈ l)
  | Some (VOther o) =>
      match view o with
      | ViewList l _ => bool_decide (want ∈ (trim_space <$> l))
      | _ => contains (trim_space (sprint v)) want
      end
  | _ => contains (trim_space (sprint v)) want
  end.

Definition compilePredicate (p : Predicate) : result ConditionFunc :=
  match p_Op p with
  | PredOpIs => Ok (λ e, bool_decide (trim_space (sprint (lookupConditionValue e (p_Subject p))) = StringVal (p_Value p)))
  | PredOpContains => Ok (λ e, contains_value (lookupConditionValue e (p_Subject p)) (StringVal (p_Value p)))
  | PredOpMissing => Ok (λ e, negb (truthy (lookupConditionValue e (p_Subject p))))
  | PredOpPresent => Ok (λ e, truthy (lookupConditionValue e (p_Subject p)))
  | PredOpConfidenceLT => Ok (λ e, let c := confidenceValue e (p_Subject p) in (0 <=? c) && (c <? Percent (p_Value p)))
  | PredOpInvalid => Err predicate_panic
  end.

(** ** Stage nodes *)
Definition set_typed (now : Time) (e : Envelope) (kv : string * Any V) : Envelope :=
  SetWorkingValueWithClass kv.1 kv.2 MemoryClassTask now e.

Definition data_string (d : Data) (k : string) : string :=
  match d !! k with Some (Envelope.VString s) => s | _ => EmptyString end.

(** What a stage node writes for its operation, and its data afterwards.  A condition
    node without a condition panics. *)
Definition stage_op (op : string) (cond : option ConditionFunc) (d : Data) (now : Time) (e : Envelope)
    : result (Data * Envelope) :=
  if bool_decide (op = "gate") then
    let mutationPermitted := negb (bool_decide (trim_space (data_string d "mutation") = "required")) in
    let hitl := trim_space (data_string d "hitl") in
    let hitlRequired := negb (bool_decide (hitl = EmptyString)) && negb (bool_decide (hitl = "never")) in
    Ok (d, foldl (set_typed now) e
             [("euclo.policy.mutation_permitted", VBool mutationPermitted);
              ("euclo.policy.hitl_required", VBool hitlRequired);
              ("euclo.policy.verification_required", VBool (negb mutationPermitted || hitlRequired))])
  else if bool_decide (op = "route") then
    Ok (d, set_typed now e ("euclo.execution.route." +:+ sanitizeComponent (sprint (d !! "group_id")), VBool true))
  else if bool_decide (op = "route_condition") then
    match cond with
    | None => Err (ErrSentinel "panic: nil condition function")
    | Some c =>
        let matched := VBool (c e) in
        Ok (<["condition_met" := matched]> d,
            set_typed now e (routeConditionResultKey (sprint (d !! "group_id")) (sprint (d !! "branch_id")), matched))
    end
  else Ok (d, e).

Definition stage_execute (id op : string) (cond : option ConditionFunc) (d : Data) (at_ : moment) (e : Envelope)
    : result (option Result) * Envelope :=
  let now := clock at_ in
  let e1 := foldl (λ e kv, set_typed now e ("euclo.execution.stage." +:+ id +:+ "." +:+ kv.1, kv.2)) e (map_to_list d) in
  match stage_op op cond d now e1 with
  | Err err => (Err err, e1)
  | Ok (d, e2) =>
      (Ok (Some {| r_NodeID := id; r_Success := negb (bool_decide (op = "no_match")); r_Fields := d; r_Pause := false;
                   r_FailureKind := EmptyString |}), e2)
  end.

Definition newThoughtRecipeStageNode (id nodeType op : string) (cond : option ConditionFunc) (d : Data) : Node V :=
  {| n_info := {| ni_ID := id; ni_Type := nodeType; ni_Contract := None |};
     n_Execute := stage_execute id op cond d |}.

(** ** Step nodes *)

(** The four kinds of step node are tool nodes without a contract of their own. *)
Definition newNodeForStep (id : string) (s : ExecutionStep) : Node V :=
  {| n_info := {| ni_ID := id; ni_Type := NodeTypeTool; ni_Contract := None |}; n_Execute := run_step id s |}.

(** [streamTriggerNodeContract] *)
Definition NewContextStreamNode (id : string) (spec : StreamSpec) : Node V :=
  {| n_info := {| ni_ID := id; ni_Type := NodeTypeStream;
       ni_Contract := Some (contract_of SideEffectContext IdempotencyReplaySafe streamContextPolicy) |};
     n_Execute := run_stream id spec |}.

(** ** Conditions of edges *)
Definition successCondition (r : Result) (_ : Envelope) : bool := r_Success r.
Definition operationalFailureClass (r : Result) : string :=
  if r_Success r then EmptyString else trim_space (r_FailureKind r).
Definition failed_operationally (r : Result) (_ : Envelope) : bool :=
  negb (bool_decide (operationalFailureClass r = EmptyString)).
Definition routeConditionTrue (groupID branchID : string) (_ : Result) (e : Envelope) : bool :=
  envBool e (routeConditionResultKey groupID branchID).
Definition routeConditionFalse (groupID branchID : string) (_ : Result) (e : Envelope) : bool :=
  negb (envBool e (routeConditionResultKey groupID branchID)).

(** ** Steps *)
Definition GM (A : Type) : Type := SE Graph A.

(** A section and the artifacts of a step: where it is entered and left; a blank
    [fallback] is none. *)
Record artifacts := { entry : string; tail : string; fallback : string }.

Definition unless_blank (a b : string) (m : GM unit) : GM unit := if is_blank a || is_blank b then se_ret tt else m.

Definition wireStepTransitions (a : artifacts) (next : string) : GM unit :=
  unless_blank (tail a) next (AddEdge (tail a) next (Some successCondition) false) ;;;
  unless_blank (fallback a) next (AddEdge (fallback a) next None false).

(** [wireStepTransitions] between the neighbours of a list. *)
Fixpoint wire_all (l : list artifacts) : GM unit :=
  match l with
  | a :: ((b :: _) as l') => wireStepTransitions a (entry b) ;;; wire_all l'
  | _ => se_ret tt
  end.

(** The next node of a step's chain: after [chain], the entry and the tail so far. *)
Definition chain_node (n : Node V) (chain : option (string * string)) : GM (string * string) :=
  AddNode n ;;;
  match chain with
  | None => se_ret (node_ID n, node_ID n)
  | Some (entry, tail) => AddEdge tail (node_ID n) None false ;;; se_ret (entry, node_ID n)
  end.

(** The node is chained on when [b] holds. *)
Definition chain_if (b : bool) (n : Node V) (chain : option (string * string)) : GM (option (string * string)) :=
  if b then let* c := chain_node n chain in se_ret (Some c) else se_ret chain.

Definition gated (f : StepFields) : bool :=
  bool_decide (Mutation f = "required") || (negb (bool_decide (HITL f = EmptyString)) && negb (bool_decide (HITL f = "never"))).

Definition gate_data (f : StepFields) : Data :=
  {["step_id" := Envelope.VString (step_ID f); "step_type" := Envelope.VString (StepKind_String (Kind f));
    "mutation" := Envelope.VString (Mutation f); "hitl" := Envelope.VString (HITL f);
    "clarification_type" := Envelope.VString (StepKind_String (Kind f));
    "clarification_schema_id" := Envelope.VString EmptyString]}.

(** [addExecutionStep] of a step that is not a pipeline. *)
Definition addPlainStep (s : ExecutionStep) : GM artifacts :=
  let f := fields s in
  let plain := bool_decide (CapabilityID f = EmptyString) in
  let* chain := match Stream f with
                | Some spec => chain_if plain (NewContextStreamNode (step_ID f +:+ ".stream") spec) None
                | None => se_ret None
                end in
  let* chain := chain_if (plain && gated f)
                  (newThoughtRecipeStageNode (step_ID f +:+ ".gate") NodeTypeSystem "gate" None (gate_data f)) chain in
  let* chain := chain_node (newNodeForStep (step_ID f +:+ ".execute") s) chain in
  match Fallback f with
  | None => se_ret {| entry := chain.1; tail := chain.2; fallback := EmptyString |}
  | Some _ =>
      let id := step_ID f +:+ ".fallback" in
      AddNode (newNodeForStep id (buildFallbackStep s)) ;;;
      AddEdge (step_ID f +:+ ".execute") id (Some failed_operationally) false ;;;
      se_ret {| entry := chain.1; tail := chain.2; fallback := id |}
  end.

(** ** Sequences *)
Section sequences.
Context (add : ExecutionStep → GM artifacts).

Fixpoint add_all (steps : list ExecutionStep) : GM (list artifacts) :=
  match steps with
  | [] => se_ret []
  | s :: steps' => let* a := add s in let* more := add_all steps' in se_ret (a :: more)
  end.

(** The sequence from its first step to the continuation, which is never blank; its entry. *)
Definition buildExecutionSequence (steps : list ExecutionStep) (continuation : string) : GM string :=
  let* l := add_all steps in
  match l with
  | [] => se_ret continuation
  | a :: _ =>
      wire_all l ;;;
      wireStepTransitions (default a (last l)) continuation ;;;
      se_ret (entry a)
  end.

Definition stage_node_id (id : string) (i : Z) (name : string) : string :=
  id +:+ ".stage." +:+ pretty i +:+
  if bool_decide (name = EmptyString) then EmptyString else "." +:+ sanitizeComponent name.

(** The stages from the [i]th, the last first: the entry of the first of them. *)
Fixpoint add_stages (id : string) (i : Z) (stages : list PipelineStageSpec) (next : string) : GM string :=
  match stages with
  | [] => se_ret next
  | MkStageSpec name _ steps :: rest =>
      let* next := add_stages id (i + 1) rest next in
      let name := trim_space name in
      let stageID := stage_node_id id i name in
      AddNode (newThoughtRecipeStageNode stageID NodeTypeSystem "pipeline_stage" None
                 {["step_id" := Envelope.VString id; "pipeline_id" := Envelope.VString id;
                   "stage_name" := Envelope.VString name; "stage_index" := VInt i]}) ;;;
      let* body := buildExecutionSequence steps next in
      AddEdge stageID (if is_blank body then next else body) None false ;;;
      se_ret stageID
  end.

Definition addPipelineStep (f : StepFields) (stages : list PipelineStageSpec) : GM artifacts :=
  let id := step_ID f in
  let pipeline := id +:+ ".pipeline" in
  let join := id +:+ ".join" in
  AddNode (newThoughtRecipeStageNode pipeline NodeTypeSystem "pipeline" None
             {["step_id" := Envelope.VString id; "pipeline_id" := Envelope.VString id;
               "stage_count" := VInt (Z.of_nat (length stages));
               "stage_names" := VStrings (summarizePipelineStageSpecs stages)]}) ;;;
  AddNode (newThoughtRecipeStageNode join NodeTypeSystem "join" None
             {["step_id" := Envelope.VString id; "pipeline_id" := Envelope.VString id]}) ;;;
  let* next := add_stages id 0 stages join in
  AddEdge pipeline next None false ;;;
  se_ret {| entry := pipeline; tail := join; fallback := EmptyString |}.
End sequences.

Fixpoint addExecutionStep (s : ExecutionStep) : GM artifacts :=
  match s with
  | MkStep f stages _ =>
      if bool_decide (Kind f = StepKindPipelineStage) then addPipelineStep addExecutionStep f stages else addPlainStep s
  end.

(** ** Sections *)

(** The section of the plan's own steps, of which there are some. *)
Definition buildLinearSection (steps : list ExecutionStep) : GM artifacts :=
  let* l := add_all addExecutionStep steps in
  match l with
  | [] => se_ret {| entry := EmptyString; tail := EmptyString; fallback := EmptyString |}
  | a :: _ =>
      wire_all l ;;;
      se_ret {| entry := entry a; tail := tail (default a (last l)); fallback := fallback (default a (last l)) |}
  end.

Definition branch_node (groupID branchID : string) (p : option Predicate) (cond : option ConditionFunc) : Node V :=
  let d : Data := {["group_id" := Envelope.VString groupID; "branch_id" := Envelope.VString branchID]} in
  newThoughtRecipeStageNode branchID NodeTypeConditional "route_condition" cond
    match p with Some p => <["predicate" := VOther (pred_value p)]> d | None => d end.

(** The branches from the [i]th, the last first; the node that a branch fails over to.  A
    branch's body is never blank. *)
Fixpoint add_branches (groupID joinID : string) (i : Z) (branches : list CompiledRouteBranch) (next : string) : GM string :=
  match branches with
  | [] => se_ret next
  | b :: rest =>
      let* next := add_branches groupID joinID (i + 1) rest next in
      let* body := buildExecutionSequence addExecutionStep (br_Steps b) joinID in
      if IsElse b then se_ret (if bool_decide (body = EmptyString) then next else body)
      else
        let branchID := scopedGroupNodeID groupID ("branch." +:+ pretty i) in
        let* cond := match br_Predicate b with
                     | Some p => let* c := se_result (compilePredicate p) in se_ret (Some c)
                     | None => se_ret None
                     end in
        AddNode (branch_node groupID branchID (br_Predicate b) cond) ;;;
        (if is_blank next then se_ret tt
         else AddEdge branchID next (Some (routeConditionFalse groupID branchID)) false) ;;;
        AddEdge branchID (if bool_decide (body = EmptyString) then joinID else body)
          (Some (routeConditionTrue groupID branchID)) false ;;;
        se_ret branchID
  end.

Definition group_data (groupID : string) : Data := {["group_id" := Envelope.VString groupID]}.

Definition buildRouteSection (g : CompiledRouteGroup) : GM artifacts :=
  let id := group_ID g in
  let routeID := scopedGroupNodeID id "route" in
  let joinID := scopedGroupNodeID id "join" in
  AddNode (newThoughtRecipeStageNode routeID NodeTypeConditional "route" None (group_data id)) ;;;
  AddNode (newThoughtRecipeStageNode joinID NodeTypeSystem "join" None (group_data id)) ;;;
  let hasElse := existsb IsElse (Branches g) in
  let noMatchID := if hasElse then joinID else scopedGroupNodeID id "no-match" in
  (if hasElse then se_ret tt
   else AddNode (newThoughtRecipeStageNode noMatchID NodeTypeSystem "no_match" None (group_data id)) ;;;
        AddEdge noMatchID joinID (Some (λ _ _, false)) false) ;;;
  let* next := add_branches id joinID 0 (Branches g) noMatchID in
  AddEdge routeID next None false ;;;
  se_ret {| entry := routeID; tail := noMatchID; fallback := EmptyString |}.

Fixpoint add_routes (l : list CompiledRouteGroup) : GM (list artifacts) :=
  match l with
  | [] => se_ret []
  | g :: l' => let* s := buildRouteSection g in let* more := add_routes l' in se_ret (s :: more)
  end.

(** ** Plans *)

(** Each section leads to the next one, and the last to the terminal. *)
Fixpoint wire_sections (sections : list artifacts) : GM unit :=
  match sections with
  | [] => se_ret tt
  | s :: rest =>
      let next := match rest with
                  | t :: _ => if is_blank (entry t) then terminal_id else entry t
                  | [] => terminal_id
                  end in
      wireStepTransitions s next ;;; wire_sections rest
  end.

Definition build_plan (plan : ExecutionPlan) : GM unit :=
  let* linear := match Steps plan with
                 | [] => se_ret []
                 | steps => let* s := buildLinearSection steps in se_ret [s]
                 end in
  let* routes := add_routes (Routes plan) in
  match linear ++ routes with
  | [] => se_err (ErrMsg "execution plan has no steps")
  | first :: rest =>
      AddNode (NewTerminalNode terminal_id) ;;;
      wire_sections (first :: rest) ;;;
      SetStart (entry first)
  end.

(** [grounder]: the composed dependencies carry a grounding boundary. *)
Definition BuildThoughtRecipeGraph (grounder : bool) (plan : ExecutionPlan) : result Graph :=
  match validateCaptureSinks plan grounder with
  | Some e => Err e
  | None =>
      match build_plan plan NewGraph with
      | (Ok _, g) => Ok g
      | (Err e, _) => Err e
      end
  end.
End graph.
