(* ===== verification/RecipeGraphSafety.v ===== *)
(** * RecipeGraphSafety

    The graph that a plan builds: it has a topological order, its transitions are
    unambiguous, its validation succeeds, so every run of it ends and executes no node
    twice; and the transitions of the plan's own steps are those of the plan. *)
From stdpp Require Import pretty.
From S2P Require Import Prelude GoStrings Envelope EnvelopeMerge ContextStream Epoch Selector Placement.
From S2P Require Import Graph GraphInv GraphSafety GraphTermination RecipeLexer RecipeAst RecipePlan RecipeLowering RecipeGraph.
From Stdlib Require Import Lia.

(** ** Orders *)
Section before.
Context {A : Type}.
Implicit Types (l : list A) (x y : A).

(** [x] comes before [y]. *)
Definition before l x y : Prop := [x; y] `sublist_of` l.

Lemma before_app l1 l2 x y : x ∈ l1 → y ∈ l2 → before (l1 ++ l2) x y.
Proof.
  intros Hx Hy. unfold before. change [x; y] with ([x] ++ [y]).
  apply sublist_app; by apply singleton_sublist_l.
Qed.

Lemma before_sublist l l' x y : before l x y → l `sublist_of` l' → before l' x y.
Proof. unfold before. intros ??. by etrans. Qed.

Lemma before_insert a l b x y : before (a ++ b) x y → before (a ++ l ++ b) x y.
Proof. intros H. eapply before_sublist; [exact H|]. apply sublist_app; [done|]. by apply sublist_inserts_l. Qed.

Lemma before_elem l x y : before l x y → x ∈ l ∧ y ∈ l.
Proof. intros H%sublist_subseteq. split; apply H; set_solver. Qed.

(** In an order without repetitions, what comes after [x] is in the rest. *)
Lemma before_rest l1 x l2 y : NoDup (l1 ++ x :: l2) → before (l1 ++ x :: l2) x y → y ∈ l2.
Proof.
  intros Hnd H. apply NoDup_app in Hnd as (_ & Hd & [Hx Hnd]%NoDup_cons).
  unfold before in H. apply sublist_app_r in H as (k1 & k2 & Hk & H1 & H2).
  destruct k1 as [|z k1]; cbn in Hk.
  - subst k2. apply sublist_cons_r in H2 as [H2|(k & [= <-] & H2)].
    + apply sublist_subseteq in H2. destruct Hx. apply H2. left.
    + by apply singleton_sublist_l in H2.
  - injection Hk as <- Hk. apply sublist_subseteq in H1. destruct (Hd x (H1 x ltac:(left))). left.
Qed.
End before.

(** ** Blank identifiers *)
Lemma contains_byte_rev c s : contains_byte c (String.rev s) = contains_byte c s.
Proof.
  induction s as [|a s IH]; [done|]. replace (String a s) with (String a EmptyString +:+ s) by done.
  rewrite str_rev_app, !contains_byte_app, IH. apply orb_comm.
Qed.

Lemma trim_left_byte c seqs s :
  Forall (λ q, contains_byte c q = false) seqs → contains_byte c (trim_left seqs s) = contains_byte c s.
Proof.
  intros Hq. unfold trim_left. generalize (String.length s). intros n. revert s.
  induction n as [|n IH]; intros s; cbn; [done|].
  destruct (list_find _ seqs) as [[i q]|] eqn:E; [|done].
  apply list_find_Some in E as (Hi & Hp & _). apply has_prefix_spec in Hp as [t ->].
  rewrite str_drop_app, IH, contains_byte_app. by rewrite (Forall_lookup_1 _ _ _ _ Hq Hi).
Qed.

Lemma dotted_not_blank s : contains_byte "."%char s = true → is_blank s = false.
Proof.
  intros Hs. unfold is_blank. apply bool_decide_eq_false. intros Ht. unfold trim_space in Ht.
  apply (f_equal (contains_byte "."%char)) in Ht.
  rewrite contains_byte_rev, trim_left_byte, contains_byte_rev, trim_left_byte, Hs in Ht;
    [done|apply (bool_decide_unpack _); vm_compute; exact I..].
Qed.

Section safety.
Context {V : Type} (view : V → ValueView) (pred_value : Predicate → V) (clock : moment → Time).
Abbreviation Envelope := (Envelope V).
Abbreviation Graph := (Graph V).
Abbreviation Node := (Node V).
Abbreviation Edge := (Edge V).
Context (run_step : string → ExecutionStep → moment → Envelope → result (option (Result V)) * Envelope).
Context (run_stream : string → StreamSpec → moment → Envelope → result (option (Result V)) * Envelope).
Implicit Types (g : Graph) (n : Node) (ed : Edge) (order l : list string) (s : ExecutionStep).

Abbreviation add_step := (addExecutionStep view clock run_step run_stream).
Abbreviation plain_step := (addPlainStep view clock run_step run_stream).

(** ** Sound graphs *)
Definition node_valid n : Prop := validateNodeContract (n_info n) (ResolveNodeContract (n_info n)) = None.

(** At most one of the edges is enabled, whatever the node's result and the envelope. *)
Definition exclusive (es : list Edge) : Prop :=
  ∀ r e, length (filter (λ ed, enabled r e ed = true) es) ≤ 1.

(** None of the edges is enabled on success. *)
Definition spare (es : list Edge) : Prop :=
  ∀ r e, r_Success r = true → filter (λ ed, enabled r e ed = true) es = [].

(** [order] lists the nodes, and every edge goes forward in it. *)
Record sound order g : Prop := {
  sd_built : built g;
  sd_open : sealed g = false;
  sd_nodup : NoDup order;
  sd_nodes : ∀ id, id ∈ order ↔ is_Some (nodes g !! id);
  sd_edges : ∀ u ed, ed ∈ outgoing g u → before order u (To ed) ∧ Parallel ed = false;
  sd_exclusive : ∀ u, exclusive (outgoing g u);
  sd_valid : ∀ id n, nodes g !! id = Some n → node_valid n;
  sd_path : executionPath g = []
}.

(** What was in the graph is left as it was. *)
Definition keeps g g' : Prop :=
  ∀ u n, nodes g !! u = Some n → nodes g' !! u = Some n ∧ outgoing g' u = outgoing g u.
#[local] Instance keeps_preorder : PreOrder keeps.
Proof.
  split; [done|]. intros g1 g2 g3 H12 H23 u n Hn. destruct (H12 u n Hn) as [Hn2 <-]. by apply H23.
Qed.

Definition edge (from to : string) (c : option (Result V → Envelope → bool)) : Edge :=
  {| From := from; To := to; Condition := c; Parallel := false |}.

(** Only edges were added: those that [f] lists for each node. *)
Definition adds_edges (f : string → list Edge) g g' : Prop :=
  nodes g' = nodes g ∧ ∀ u, outgoing g' u = outgoing g u ++ f u.

Lemma adds_edges_keeps f g0 g g' :
  adds_edges f g g' → keeps g0 g → (∀ u, is_Some (nodes g0 !! u) → f u = []) → keeps g0 g'.
Proof.
  intros [Hn He] Hk Hf u n Hu. destruct (Hk u n Hu) as [H1 H2]. rewrite Hn, He, H2, Hf by eauto.
  by rewrite app_nil_r.
Qed.

Lemma exclusive_nil : exclusive [].
Proof. intros r e. cbn. lia. Qed.

Lemma exclusive_singleton ed : exclusive [ed].
Proof. intros r e. rewrite filter_cons. case_decide; cbn; lia. Qed.

Lemma exclusive_spare es from to : exclusive es → spare es → exclusive (es ++ [edge from to (Some successCondition)]).
Proof.
  intros He Hs r e. rewrite filter_app, length_app, filter_cons, filter_nil. cbn.
  specialize (He r e). unfold successCondition. case_decide as Hr; cbn; [|lia]. rewrite (Hs r e Hr). done.
Qed.

Lemma sound_fresh order g id : sound order g → nodes g !! id = None → outgoing g id = [].
Proof.
  intros Hg Hid. destruct (outgoing g id) as [|ed es] eqn:E; [done|].
  destruct (sd_edges _ _ Hg id ed) as [[Hin _]%before_elem _]; [rewrite E; left|].
  apply (sd_nodes _ _ Hg) in Hin. rewrite Hid in Hin. by destruct Hin.
Qed.

Lemma keeps_elem order g g' u : sound order g → keeps g g' → u ∈ order → outgoing g' u = outgoing g u.
Proof. intros Hg Hk [n Hu]%(sd_nodes _ _ Hg). by apply (Hk _ _ Hu). Qed.

Lemma add_node_fresh n g x g' : AddNode n g = (Ok x, g') → nodes g !! node_ID n = None.
Proof. unfold AddNode, unsealed. destruct (sealed g); [done|]. by destruct (nodes g !! node_ID n). Qed.

Lemma add_node_sound n pre post g x g' :
  sound (pre ++ post) g → node_valid n → AddNode n g = (Ok x, g') →
  sound (pre ++ node_ID n :: post) g' ∧ keeps g g' ∧ nodes g' !! node_ID n = Some n ∧ outgoing g' (node_ID n) = [].
Proof.
  intros Hg Hn Hadd. pose proof (built_op g (OpAddNode n) (sd_built _ _ Hg)) as Hb. cbn [do_op] in Hb.
  rewrite Hadd in Hb. cbn in Hb. revert Hadd. unfold AddNode, unsealed. rewrite (sd_open _ _ Hg).
  destruct (nodes g !! node_ID n) eqn:Hid; [done|]. intros [= _ <-].
  set (g' := invalidateStructureLocked _) in *.
  assert (∀ u, outgoing g' u = outgoing g u) as Ho by done.
  split_and!.
  - constructor; [done|apply Hg|..].
    + rewrite <- Permutation_middle. constructor; [|apply Hg]. rewrite (sd_nodes _ _ Hg), Hid. by intros [? ?].
    + intros id. cbn. rewrite elem_of_app, elem_of_cons. destruct (decide (id = node_ID n)) as [->|Hne].
      * rewrite lookup_insert_eq. naive_solver.
      * rewrite lookup_insert_ne by done. rewrite <- (sd_nodes _ _ Hg), elem_of_app. naive_solver.
    + intros u ed. rewrite Ho. intros [Hed Hp]%(sd_edges _ _ Hg). split; [|done].
      by apply (before_insert pre [node_ID n] post).
    + intros u. rewrite Ho. apply Hg.
    + intros id m. cbn. destruct (decide (id = node_ID n)) as [->|Hne];
        [rewrite lookup_insert_eq; by intros [= <-]|rewrite lookup_insert_ne by done; apply Hg].
    + apply Hg.
  - intros u m Hu. cbn. rewrite lookup_insert_ne; [done|]. intros Heq. by rewrite <- Heq, Hid in Hu.
  - cbn. by rewrite lookup_insert_eq.
  - rewrite Ho. by eapply sound_fresh.
Qed.

Lemma add_edge_sound from to c order g x g' :
  sound order g → before order from to → exclusive (outgoing g from ++ [edge from to c]) →
  AddEdge from to c false g = (Ok x, g') →
  sound order g' ∧ adds_edges (λ u, if decide (u = from) then [edge from to c] else []) g g'.
Proof.
  intros Hg Hbef Hex Hadd. pose proof (built_op g (OpAddEdge from to c false) (sd_built _ _ Hg)) as Hb. cbn [do_op] in Hb.
  rewrite Hadd in Hb. cbn in Hb. revert Hadd. unfold AddEdge, unsealed. rewrite (sd_open _ _ Hg).
  destruct (nodes g !! from) as [nf|] eqn:Hf; [|done]. destruct (nodes g !! to) as [nt|] eqn:Ht; [|done]. intros [= _ <-].
  set (g' := invalidateStructureLocked _) in *.
  assert (∀ u, outgoing g' u = outgoing g u ++ if decide (u = from) then [edge from to c] else []) as Ho.
  { intros u. unfold outgoing at 1. cbn. case_decide as Hu; [subst; by rewrite lookup_insert_eq|].
    by rewrite lookup_insert_ne, app_nil_r by done. }
  split; [|done]. constructor; [done|apply Hg|apply Hg|apply Hg| | |apply Hg|apply Hg].
  - intros u ed. rewrite Ho. intros [Hed|Hed]%elem_of_app; [by apply (sd_edges _ _ Hg)|].
    case_decide as Hu; [|by apply elem_of_nil in Hed]. apply list_elem_of_singleton in Hed as ->. by subst.
  - intros u. rewrite Ho. case_decide as Hu; [by subst|]. rewrite app_nil_r. apply Hg.
Qed.

(** ** The artifacts of a step *)
Definition pipelined s : bool := bool_decide (Kind (fields s) = StepKindPipelineStage).
Definition direct s : bool := bool_decide (CapabilityID (fields s) = EmptyString).
Definition node_of s (part : string) : string := step_ID (fields s) +:+ part.

(** The nodes that a plain step passes, in order. *)
Definition chain_ids s : list string :=
  if pipelined s then []
  else (if direct s && bool_decide (is_Some (Stream (fields s))) then [node_of s ".stream"] else []) ++
       (if direct s && gated (fields s) then [node_of s ".gate"] else []) ++ [node_of s ".execute"].

Definition arts_of s : artifacts :=
  if pipelined s then {| entry := node_of s ".pipeline"; tail := node_of s ".join"; fallback := EmptyString |}
  else {| entry := default EmptyString (head (chain_ids s)); tail := node_of s ".execute";
          fallback := match Fallback (fields s) with Some _ => node_of s ".fallback" | None => EmptyString end |}.

(** The edge to its fallback. *)
Definition own_edges s : list Edge :=
  if pipelined s then []
  else match Fallback (fields s) with
       | Some _ => [edge (node_of s ".execute") (node_of s ".fallback") (Some failed_operationally)]
       | None => []
       end.

Fixpoint links (ids : list string) : list (string * string) :=
  match ids with
  | u :: ((v :: _) as ids') => (u, v) :: links ids'
  | _ => []
  end.

(** The artifacts are among [l], and not yet wired to anything. *)
Record placed l g s : Prop := {
  pl_head : head l = Some (entry (arts_of s));
  pl_tail : tail (arts_of s) ∈ l;
  pl_out : outgoing g (tail (arts_of s)) = own_edges s;
  pl_fallback : fallback (arts_of s) = EmptyString ∨
    fallback (arts_of s) ∈ l ∧ outgoing g (fallback (arts_of s)) = [] ∧ fallback (arts_of s) ≠ tail (arts_of s);
  pl_inner : ∀ u v, (u, v) ∈ links (chain_ids s) → u ∈ l ∧ outgoing g u = [edge u v None];
  pl_node : pipelined s = false → nodes g !! node_of s ".execute" = Some (newNodeForStep run_step (node_of s ".execute") s)
}.

(** [add] places the step anywhere in an order. *)
Definition places (add : ExecutionStep → GM (V:=V) artifacts) s : Prop := ∀ pre post g a g',
  sound (pre ++ post) g → add s g = (Ok a, g') →
  a = arts_of s ∧ ∃ l, sound (pre ++ l ++ post) g' ∧ keeps g g' ∧ placed l g' s.

Lemma own_spare s : spare (own_edges s).
Proof.
  intros r e Hr. unfold own_edges. destruct (pipelined s); [done|]. destruct (Fallback _); [|done].
  rewrite filter_cons, decide_False; [done|]. cbn. unfold failed_operationally, operationalFailureClass. by rewrite Hr.
Qed.

Lemma step_node_valid id s : node_valid (newNodeForStep run_step id s).
Proof. done. Qed.
Lemma stream_node_valid id spec : node_valid (NewContextStreamNode run_stream id spec).
Proof. done. Qed.
Lemma system_node_valid id op c d : node_valid (newThoughtRecipeStageNode view clock id NodeTypeSystem op c d).
Proof. done. Qed.
Lemma conditional_node_valid id op c d : node_valid (newThoughtRecipeStageNode view clock id NodeTypeConditional op c d).
Proof. done. Qed.
#[local] Hint Resolve step_node_valid stream_node_valid system_node_valid conditional_node_valid : core.

(** *** Chains *)
Definition chain_of (ids : list string) : option (string * string) :=
  match ids with [] => None | u :: _ => Some (u, default u (last ids)) end.

Record chained g0 (pre post ids : list string) g : Prop := {
  ch_sound : sound (pre ++ ids ++ post) g;
  ch_keeps : keeps g0 g;
  ch_new : ∀ u, u ∈ ids → nodes g0 !! u = None;
  ch_links : ∀ u v, (u, v) ∈ links ids → outgoing g u = [edge u v None];
  ch_last : ∀ u, last ids = Some u → outgoing g u = []
}.

Lemma links_snoc ids v : links (ids ++ [v]) = links ids ++ match last ids with Some u => [(u, v)] | None => [] end.
Proof. induction ids as [|a [|b ids] IH]; [done|done|]. cbn [links app] in *. rewrite IH. done. Qed.

Lemma links_elem ids u v : (u, v) ∈ links ids → u ∈ ids.
Proof.
  induction ids as [|a [|b ids] IH]; cbn [links]; [by intros ?%elem_of_nil..|].
  intros [[= -> ->]|H]%elem_of_cons; [left|right; auto].
Qed.

Lemma links_last ids u v : NoDup ids → (u, v) ∈ links ids → last ids ≠ Some u.
Proof.
  induction ids as [|a [|b ids] IH]; cbn [links]; [by intros _ ?%elem_of_nil..|].
  intros [Ha Hnd]%NoDup_cons [[= -> ->]|H]%elem_of_cons; [|by apply IH].
  intros Hl. apply Ha. change (last (b :: ids) = Some a) in Hl. by apply last_Some_elem_of in Hl.
Qed.

Lemma chain_node_sound n g0 pre post ids g x g' :
  chained g0 pre post ids g → node_valid n → chain_node n (chain_of ids) g = (Ok x, g') →
  chained g0 pre post (ids ++ [node_ID n]) g' ∧ chain_of (ids ++ [node_ID n]) = Some x ∧ nodes g' !! node_ID n = Some n.
Proof.
  intros [Hs Hk Hnew Hl Ha] Hn. unfold chain_node. intros (u & g1 & Hadd & Hrest)%se_bind_ok.
  rewrite app_assoc in Hs. destruct (add_node_sound _ _ _ _ _ _ Hs Hn Hadd) as (Hs1 & Hk1 & Hn1 & Ho1).
  assert (nodes g0 !! node_ID n = None) as Hfresh.
  { destruct (nodes g0 !! node_ID n) as [m|] eqn:Hm; [|done]. destruct (Hk _ _ Hm) as [Hm' _].
    apply add_node_fresh in Hadd. by rewrite Hm' in Hadd. }
  assert (sound (pre ++ (ids ++ [node_ID n]) ++ post) g1) as Hs1' by (by rewrite <- !app_assoc in *).
  assert (∀ u, u ∈ ids → outgoing g1 u = outgoing g u) as Hsame.
  { intros v Hv. assert (is_Some (nodes g !! v)) as [m Hm]; [|by apply (Hk1 _ _ Hm)].
    apply (sd_nodes _ _ Hs). set_solver. }
  assert (∀ u, u ∈ ids ++ [node_ID n] → nodes g0 !! u = None) as Hnew'.
  { intros v [Hv| ->%list_elem_of_singleton]%elem_of_app; auto. }
  destruct ids as [|a ids]; cbn [chain_of] in Hrest.
  - injection Hrest as <- <-. split_and!; [|done|done]. constructor; [done|by etrans|done|..].
    + by intros ?? ?%elem_of_nil.
    + by intros ? [= <-].
  - set (all := a :: ids) in *. set (t := default a (last ids)) in *.
    assert (last all = Some t) as Ht.
    { unfold all, t. rewrite last_cons. by destruct (last ids). }
    assert (t ∈ all) as Hin by (by apply last_Some_elem_of).
    rewrite Ht in Hrest. cbn [default] in Hrest. apply se_bind_ok in Hrest as ([] & g2 & Hedge & [= <- <-]).
    assert (outgoing g1 t = []) as Ht1 by (rewrite Hsame by done; by apply Ha).
    destruct (add_edge_sound t (node_ID n) None (pre ++ (all ++ [node_ID n]) ++ post) g1 tt g2) as (Hs2 & Hn2 & He2).
    + done.
    + apply (before_sublist (all ++ [node_ID n])); [apply before_app; [done|left]|].
      by apply sublist_inserts_l, sublist_inserts_r.
    + rewrite Ht1. apply exclusive_singleton.
    + exact Hedge.
    + assert (node_ID n ∉ all) as Hnotin.
      { intros Hx. apply (sd_nodup _ _) in Hs1'. apply NoDup_app in Hs1' as (_ & _ & Hx2%NoDup_app).
        destruct Hx2 as (Hx2%NoDup_app & _). destruct Hx2 as (_ & Hd & _). apply (Hd _ Hx). left. }
      split_and!; [constructor|..]; try done.
      * eapply (adds_edges_keeps _ g0 g1 g2 (conj Hn2 He2)); [by etrans|]. intros v [m Hv]. cbn.
        rewrite decide_False; [done|]. intros ->. by rewrite (Hnew t Hin) in Hv.
      * rewrite links_snoc, Ht. intros u1 v1 [Hin1|Hin1]%elem_of_app.
        -- rewrite He2, decide_False, app_nil_r.
           ++ rewrite Hsame by (by eapply links_elem). by apply Hl.
           ++ intros ->. apply (links_last all t v1) in Hin1; [done|].
              pose proof (sd_nodup _ _ Hs) as Hnd. apply NoDup_app in Hnd as [Hnd _]. by apply NoDup_app in Hnd as (_ & _ & Hnd).
        -- apply list_elem_of_singleton in Hin1 as [= -> ->]. by rewrite He2, decide_True, Ht1 by done.
      * rewrite last_snoc. intros u1 [= <-]. rewrite He2, decide_False; [by rewrite Ho1|]. by intros Heq; rewrite Heq in Hnotin.
      * change (Some (a, default a (last (all ++ [node_ID n]))) = Some (a, node_ID n)). by rewrite last_snoc.
      * by rewrite Hn2.
Qed.

Lemma chained_start pre post g : sound (pre ++ post) g → chained g pre post [] g.
Proof.
  intros Hg. constructor; [done|done|by intros ? ?%elem_of_nil|by intros ? ? ?%elem_of_nil|done].
Qed.

Lemma chain_if_sound b n g0 pre post ids g c g' :
  chained g0 pre post ids g → node_valid n → chain_if b n (chain_of ids) g = (Ok c, g') →
  chained g0 pre post (ids ++ if b then [node_ID n] else []) g' ∧ c = chain_of (ids ++ if b then [node_ID n] else []).
Proof.
  intros Hc Hn. unfold chain_if. destruct b; [|rewrite app_nil_r; by intros [= <- <-]].
  intros (x & g1 & Hx & [= <- <-])%se_bind_ok.
  by destruct (chain_node_sound _ _ _ _ _ _ _ _ Hc Hn Hx) as (? & ? & ?).
Qed.

(** *** Plain steps *)
Lemma chain_ids_exec s :
  pipelined s = false → last (chain_ids s) = Some (node_of s ".execute") ∧ node_of s ".execute" ∈ chain_ids s ∧
    head (chain_ids s) = Some (entry (arts_of s)).
Proof.
  intros Hp. assert (last (chain_ids s) = Some (node_of s ".execute")) as Hla.
  { unfold chain_ids. rewrite Hp, app_assoc. by apply last_snoc. }
  split_and!; [done|by apply last_Some_elem_of|]. unfold arts_of. rewrite Hp. cbn. by destruct (chain_ids s).
Qed.

Lemma chain_placed s g pre post g' :
  pipelined s = false → Fallback (fields s) = None → chained g pre post (chain_ids s) g' →
  nodes g' !! node_of s ".execute" = Some (newNodeForStep run_step (node_of s ".execute") s) → placed (chain_ids s) g' s.
Proof.
  intros Hp Hfb [Hs Hk Hnew Hl Hlast] Hexec. destruct (chain_ids_exec s Hp) as (Hla & Hin & Hh). constructor; try done.
  - unfold arts_of. by rewrite Hp.
  - unfold arts_of, own_edges. rewrite Hp, Hfb. by apply Hlast.
  - left. unfold arts_of. by rewrite Hp, Hfb.
  - intros u v Huv. split; [by eapply links_elem|by apply Hl].
Qed.

(** The fallback's node and its edge, after a step's chain. *)
Lemma fallback_placed s fb n g pre post g1 g2 g3 :
  pipelined s = false → Fallback (fields s) = Some fb → chained g pre post (chain_ids s) g1 →
  nodes g1 !! node_of s ".execute" = Some (newNodeForStep run_step (node_of s ".execute") s) →
  node_valid n → node_ID n = node_of s ".fallback" → AddNode n g1 = (Ok tt, g2) →
  AddEdge (node_of s ".execute") (node_of s ".fallback") (Some failed_operationally) false g2 = (Ok tt, g3) →
  ∃ l, sound (pre ++ l ++ post) g3 ∧ keeps g g3 ∧ placed l g3 s.
Proof.
  intros Hp Hfb [Hs Hk Hnew Hl Hlast] Hexec Hv Hid Hadd Hedge. destruct (chain_ids_exec s Hp) as (Hla & Hin & Hhead).
  specialize (Hlast _ Hla). set (fid := node_of s ".fallback") in *. rewrite app_assoc in Hs.
  destruct (add_node_sound _ _ _ _ _ _ Hs Hv Hadd) as (Hs2 & Hk2 & _ & Ho2). rewrite Hid in *.
  change (fid :: post) with ([fid] ++ post) in Hs2. rewrite <- app_assoc in Hs2. rewrite (app_assoc (chain_ids s)) in Hs2.
  assert (∀ u, u ∈ chain_ids s → outgoing g2 u = outgoing g1 u ∧ u ≠ fid) as Hsame.
  { intros u Hu. split; [apply (keeps_elem _ _ _ _ Hs Hk2); set_solver|]. intros ->.
    pose proof (sd_nodup _ _ Hs2) as Hnd. apply NoDup_app in Hnd as (_ & _ & (Hnd & _)%NoDup_app).
    apply NoDup_app in Hnd as (_ & Hd & _). apply (Hd _ Hu). left. }
  destruct (Hsame _ Hin) as [Hex Hne]. rewrite Hlast in Hex.
  assert (before (pre ++ (chain_ids s ++ [fid]) ++ post) (node_of s ".execute") fid) as Hbef.
  { apply (before_sublist (chain_ids s ++ [fid])); [apply before_app; [exact Hin|left]|by apply sublist_inserts_l, sublist_inserts_r]. }
  destruct (add_edge_sound _ _ _ _ _ _ _ Hs2 Hbef ltac:(rewrite Hex; apply exclusive_singleton) Hedge) as (Hs3 & Hn3 & He3).
  exists (chain_ids s ++ [fid]). split_and!; [done| |constructor].
  - eapply (adds_edges_keeps _ g g2 g3 (conj Hn3 He3)); [by etrans|]. intros u [m Hu]. rewrite decide_False; [done|].
    intros ->. by rewrite (Hnew _ Hin) in Hu.
  - by apply snoc_head.
  - unfold arts_of. rewrite Hp. cbn. by apply elem_of_app; left.
  - unfold arts_of, own_edges. rewrite Hp, Hfb. cbn. by rewrite He3, decide_True, Hex by done.
  - right. unfold arts_of. rewrite Hp, Hfb. cbn. fold fid. split_and!; [apply elem_of_app; right; left| |done].
    by rewrite He3, decide_False, app_nil_r.
  - intros u v Huv. pose proof (links_elem _ _ _ Huv) as Hu. split; [by apply elem_of_app; left|].
    rewrite He3, decide_False, app_nil_r; [|intros ->; by rewrite (Hl _ _ Huv) in Hlast].
    destruct (Hsame u Hu) as [-> _]. by apply Hl.
  - intros _. rewrite Hn3. by apply (Hk2 _ _ Hexec).
Qed.

Lemma plain_places s : pipelined s = false → places plain_step s.
Proof.
  intros Hp pre post g a g' Hg. unfold addPlainStep.
  intros (c1 & g1 & H1 & (c2 & g2 & H2 & (c3 & g3 & H3 & H4)%se_bind_ok)%se_bind_ok)%se_bind_ok.
  set (ids1 := if direct s && bool_decide (is_Some (Stream (fields s))) then [node_of s ".stream"] else []).
  assert (chained g pre post ids1 g1 ∧ c1 = chain_of ids1) as [Hc1 ->].
  { apply chained_start in Hg. unfold ids1. destruct (Stream (fields s)) as [spec|].
    - rewrite bool_decide_true, andb_true_r by done.
      by apply (chain_if_sound (direct s) _ _ _ _ [] _ _ _ Hg (stream_node_valid _ _) H1).
    - rewrite andb_false_r. by injection H1 as <- <-. }
  apply (chain_if_sound _ _ _ _ _ _ _ _ _ Hc1) in H2 as [Hc2 ->]; [|done]. cbn [node_ID n_info ni_ID newThoughtRecipeStageNode] in Hc2.
  set (ids := ids1 ++ _) in *.
  apply (chain_node_sound _ _ _ _ _ _ _ _ Hc2) in H3 as (Hc3 & Hc & Hexec); [|done]. cbn [node_ID n_info ni_ID newNodeForStep] in *.
  change (step_ID (fields s) +:+ ".execute") with (node_of s ".execute") in *.
  assert (ids ++ [node_of s ".execute"] = chain_ids s) as Hids.
  { unfold chain_ids, ids, ids1. by rewrite Hp, <- app_assoc. }
  rewrite Hids in Hc3, Hc. destruct (chain_ids_exec s Hp) as (Hla & Hin & Hhead).
  assert (c3 = (entry (arts_of s), node_of s ".execute")) as ->.
  { unfold chain_of in Hc. rewrite Hla in Hc. destruct (chain_ids s) as [|u us]; [done|].
    injection Hhead as <-. by injection Hc as <-. }
  cbn [fst snd] in H4. unfold arts_of at 1. rewrite Hp. destruct (Fallback (fields s)) as [fb|] eqn:Hfb.
  - apply se_bind_ok in H4 as ([] & g4 & Hadd & ([] & g5 & Hedge & [= <- <-])%se_bind_ok).
    split; [by rewrite Hhead|].
    exact (fallback_placed s fb _ _ _ _ _ _ _ Hp Hfb Hc3 Hexec (step_node_valid _ _) eq_refl Hadd Hedge).
  - injection H4 as <- <-. split; [by rewrite Hhead|]. exists (chain_ids s).
    split_and!; [apply Hc3|apply Hc3|by eapply chain_placed].
Qed.

(** ** Wiring *)

(** The edges that wiring gives to [u]. *)
Definition exits (a : artifacts) (next u : string) : list Edge :=
  (if negb (is_blank (tail a) || is_blank next) && bool_decide (u = tail a)
   then [edge (tail a) next (Some successCondition)] else []) ++
  (if negb (is_blank (fallback a) || is_blank next) && bool_decide (u = fallback a)
   then [edge (fallback a) next None] else []).

Lemma unless_blank_ok a b (m : GM unit) g x g' :
  unless_blank a b m g = (Ok x, g') → if is_blank a || is_blank b then g' = g else m g = (Ok x, g').
Proof. unfold unless_blank. destruct (_ || _); [by intros [= _ <-]|done]. Qed.

Lemma wire_sound a next order g x g' :
  sound order g → before order (tail a) next → spare (outgoing g (tail a)) →
  fallback a = EmptyString ∨ before order (fallback a) next ∧ outgoing g (fallback a) = [] ∧ fallback a ≠ tail a →
  wireStepTransitions a next g = (Ok x, g') → sound order g' ∧ adds_edges (exits a next) g g'.
Proof.
  intros Hg Hb Hs Hf. unfold wireStepTransitions, exits. intros ([] & g1 & H1%unless_blank_ok & H2%unless_blank_ok)%se_bind_ok.
  assert (sound order g1 ∧ adds_edges (λ u, if negb (is_blank (tail a) || is_blank next) && bool_decide (u = tail a)
            then [edge (tail a) next (Some successCondition)] else []) g g1) as [Hg1 [Hn1 He1]].
  { destruct (is_blank (tail a) || is_blank next); cbn.
    - subst. split; [done|]. split; [done|]. intros u. by rewrite app_nil_r.
    - destruct (add_edge_sound _ _ _ _ _ _ _ Hg Hb (exclusive_spare _ _ _ (sd_exclusive _ _ Hg _) Hs) H1) as (Hg1 & Hn1 & He1).
      split; [done|]. split; [done|]. intros u. rewrite He1. by case_decide; case_bool_decide. }
  destruct (is_blank (fallback a) || is_blank next) eqn:Eb; cbn.
  - subst. split; [done|]. split; [done|]. intros u. by rewrite He1, !app_nil_r.
  - destruct Hf as [Hf|(Hfb & Hfo & Hne)]; [by rewrite Hf in Eb|].
    assert (outgoing g1 (fallback a) = []) as Ho.
    { rewrite He1, Hfo, bool_decide_false, andb_false_r by done. done. }
    destruct (add_edge_sound (fallback a) next None order g1 x g' Hg1 Hfb) as (Hg2 & Hn2 & He2);
      [rewrite Ho; apply exclusive_singleton|done|].
    split; [done|]. split; [by rewrite Hn2|]. intros u. rewrite He2, He1, <- app_assoc. do 2 f_equal.
    by case_decide; case_bool_decide.
Qed.

(** ** Steps in a row *)
Inductive placed_all : list ExecutionStep → list string → Graph → Prop :=
| placed_nil g : placed_all [] [] g
| placed_cons s l ss ls g : placed l g s → placed_all ss ls g → placed_all (s :: ss) (l ++ ls) g.

(** A step's exits: wired to [next], or to nothing yet. *)
Definition leads s (next : option string) g : Prop :=
  let a := arts_of s in
  outgoing g (tail a) = own_edges s ++ match next with Some v => exits a v (tail a) | None => [] end ∧
  (fallback a = EmptyString ∨ fallback a ≠ tail a ∧
   outgoing g (fallback a) = match next with Some v => exits a v (fallback a) | None => [] end).

Definition inner s g : Prop := ∀ u v, (u, v) ∈ links (chain_ids s) → outgoing g u = [edge u v None].

(** Every step leads to the next one, and the last to [next]. *)
Fixpoint linked (ss : list ExecutionStep) (next : option string) g : Prop :=
  match ss with
  | [] => True
  | s :: rest =>
      inner s g ∧ (pipelined s = false → nodes g !! node_of s ".execute" = Some (newNodeForStep run_step (node_of s ".execute") s)) ∧
      match rest with
      | [] => leads s next g
      | t :: _ => leads s (Some (entry (arts_of t))) g ∧ linked rest next g
      end
  end.

Lemma placed_mono l g g' s :
  placed l g s → (∀ u, u ∈ l → is_Some (nodes g !! u)) → keeps g g' → placed l g' s.
Proof.
  intros [Hh Ht Ho Hf Hi Hn] Hl Hk.
  assert (∀ u, u ∈ l → outgoing g' u = outgoing g u) as Hsame by (intros u [m Hm]%Hl; by apply (Hk _ _ Hm)).
  constructor; try done.
  - by rewrite Hsame.
  - destruct Hf as [|(H1 & H2 & H3)]; [by left|right]. by rewrite Hsame.
  - intros u v Huv. destruct (Hi u v Huv) as [Hu <-]. split; [done|by apply Hsame].
  - intros Hp. by apply (Hk _ _ (Hn Hp)).
Qed.

Lemma add_all_sound add ss : ∀ pre post g arts g',
  Forall (places add) ss → sound (pre ++ post) g → add_all add ss g = (Ok arts, g') →
  arts = arts_of <$> ss ∧ ∃ l, sound (pre ++ l ++ post) g' ∧ keeps g g' ∧ placed_all ss l g'.
Proof.
  induction ss as [|s ss IH]; intros pre post g arts g' Hall Hg; cbn [add_all].
  - intros [= <- <-]. split; [done|]. exists []. split_and!; [done|done|constructor].
  - apply Forall_cons in Hall as [Hs Hss].
    intros (a & g1 & H1 & (more & g2 & H2 & [= <- <-])%se_bind_ok)%se_bind_ok.
    destruct (Hs _ _ _ _ _ Hg H1) as (-> & l & Hg1 & Hk1 & Hp).
    rewrite app_assoc in Hg1. destruct (IH _ _ _ _ _ Hss Hg1 H2) as (-> & ls & Hg2 & Hk2 & Hps).
    split; [done|]. exists (l ++ ls). rewrite <- !app_assoc in *. split_and!; [done|by etrans|].
    constructor; [|done]. apply (placed_mono l g1); [done| |done].
    intros u Hu. apply (sd_nodes _ _ Hg1). set_solver.
Qed.

Lemma placed_entry s l g : placed l g s → entry (arts_of s) ∈ l.
Proof. intros Hp. apply head_Some_elem_of, Hp. Qed.

Lemma placed_nonempty s ss l g : placed_all (s :: ss) l g → entry (arts_of s) ∈ l ∧ head l = Some (entry (arts_of s)).
Proof.
  inversion 1 as [|? ? ? ? ? Hp Hps]; subst. pose proof (placed_entry _ _ _ Hp). split; [set_solver|].
  destruct Hp as [Hh _]. destruct l0; [done|exact Hh].
Qed.

(** Where a step's nodes are, whatever their edges. *)
Record located l s : Prop := {
  lo_tail : tail (arts_of s) ∈ l;
  lo_fallback : fallback (arts_of s) = EmptyString ∨ fallback (arts_of s) ∈ l;
  lo_inner : ∀ u v, (u, v) ∈ links (chain_ids s) → u ∈ l
}.
Inductive located_all : list ExecutionStep → list string → Prop :=
| located_nil : located_all [] []
| located_cons s l ss ls : located l s → located_all ss ls → located_all (s :: ss) (l ++ ls).

Lemma placed_located l g s : placed l g s → located l s.
Proof. intros [_ Ht _ Hf Hi _]. constructor; [done|naive_solver|]. intros u v Huv. by apply (Hi u v). Qed.
Lemma placed_all_located ss l g : placed_all ss l g → located_all ss l.
Proof. induction 1; constructor; [by eapply placed_located|done]. Qed.

Lemma leads_frame l s next g g' :
  located l s → (∀ u, u ∈ l → outgoing g' u = outgoing g u) → leads s next g → leads s next g'.
Proof.
  intros [Ht Hf _] Hs [H1 H2]. unfold leads. rewrite (Hs _ Ht). split; [done|].
  destruct H2 as [|[H2 H3]]; [by left|]. destruct Hf as [|Hf]; [by left|]. right. by rewrite (Hs _ Hf).
Qed.

Lemma linked_frame ss l next g g' :
  located_all ss l → (∀ u n, nodes g !! u = Some n → nodes g' !! u = Some n) →
  (∀ u, u ∈ l → outgoing g' u = outgoing g u) → linked ss next g → linked ss next g'.
Proof.
  intros Hlo Hn. induction Hlo as [|s l ss ls Hs Hss IH]; [done|]. intros Ho (Hi & Hx & Hr).
  assert (∀ u, u ∈ l → outgoing g' u = outgoing g u) as Hol by (intros; apply Ho; set_solver).
  assert (∀ u, u ∈ ls → outgoing g' u = outgoing g u) as Hols by (intros; apply Ho; set_solver).
  split_and!.
  - intros u v Huv. rewrite Hol by (by eapply lo_inner). by apply Hi.
  - auto.
  - destruct ss as [|t ss]; [by eapply leads_frame|]. destruct Hr as [Hr1 Hr2]. split; [by eapply leads_frame|by apply IH].
Qed.

Lemma placed_all_frame ss l g g' :
  placed_all ss l g → nodes g' = nodes g → (∀ u, u ∈ l → outgoing g' u = outgoing g u) → placed_all ss l g'.
Proof.
  induction 1 as [|s l ss ls g Hp Hps IH]; intros Hn Ho; constructor; [|apply IH; [done|intros; apply Ho; set_solver]].
  assert (∀ u, u ∈ l → outgoing g' u = outgoing g u) as Hol by (intros; apply Ho; set_solver).
  destruct Hp as [Hh Ht Hout Hf Hi Hx]. constructor; [done|done|by rewrite Hol|..].
  - destruct Hf as [|(H1 & H2 & H3)]; [by left|right]. by rewrite Hol.
  - intros u v Huv. destruct (Hi u v Huv) as [Hu <-]. split; [done|by apply Hol].
  - by rewrite Hn.
Qed.

Lemma exits_elsewhere a next u : u ≠ tail a → u ≠ fallback a → exits a next u = [].
Proof. intros H1 H2. unfold exits. by rewrite !bool_decide_false, !andb_false_r by done. Qed.

(** Wiring a step whose exits are open. *)
Lemma leads_wired s next l g g' :
  placed l g s → (∀ u, u ∈ l → outgoing g' u = outgoing g u ++ exits (arts_of s) next u) →
  leads s (Some next) g' ∧ inner s g'.
Proof.
  intros Hp He. split.
  - split; [by rewrite He, (pl_out _ _ _ Hp) by apply Hp|]. destruct (pl_fallback _ _ _ Hp) as [|(H1 & H2 & H3)]; [by left|right].
    split; [done|]. by rewrite He, H2.
  - intros u v Huv. destruct (pl_inner _ _ _ Hp u v Huv) as [Hu Ho].
    rewrite He, Ho, exits_elsewhere; [done|..|done]; intros ->.
    + rewrite (pl_out _ _ _ Hp) in Ho. unfold own_edges in Ho.
      destruct (pipelined s); [done|]. by destruct (Fallback _).
    + destruct (pl_fallback _ _ _ Hp) as [Hf|(_ & H2 & _)]; [|by rewrite H2 in Ho].
      rewrite Hf in Huv. apply links_elem in Huv. unfold chain_ids, node_of in Huv. destruct (pipelined s); [by apply elem_of_nil in Huv|].
      rewrite !elem_of_app in Huv. destruct Huv as [Huv|[Huv|Huv]]; repeat case_match;
        rewrite ?elem_of_nil, ?list_elem_of_singleton in Huv; try done; by destruct (step_ID (fields s)).
Qed.

Lemma wire_placed s next order l g x g' :
  sound order g → placed l g s → (∀ u, u ∈ l → before order u next) →
  wireStepTransitions (arts_of s) next g = (Ok x, g') → sound order g' ∧ adds_edges (exits (arts_of s) next) g g'.
Proof.
  intros Hg Hp Hb. apply wire_sound; [done|by apply Hb, Hp|rewrite (pl_out _ _ _ Hp); apply own_spare|].
  destruct (pl_fallback _ _ _ Hp) as [|(H1 & H2 & H3)]; [by left|right]. split_and!; [by apply Hb|done|done].
Qed.

Lemma exits_not_in x l next u :
  tail x ∈ l → fallback x = EmptyString ∨ fallback x ∈ l → u ∉ l → exits x next u = [].
Proof.
  intros Ht Hf Hu. unfold exits. rewrite (bool_decide_false (u = tail _)) by (by intros ->).
  rewrite andb_false_r. cbn. destruct Hf as [->|Hf]; [done|].
  by rewrite bool_decide_false, andb_false_r by (by intros ->).
Qed.

Lemma exits_outside s l next u : located l s → u ∉ l → exits (arts_of s) next u = [].
Proof. intros [Ht Hf _]. by apply exits_not_in. Qed.

Lemma wire_all_sound ss : ∀ l pre post g x g',
  placed_all ss l g → sound (pre ++ l ++ post) g → wire_all (arts_of <$> ss) g = (Ok x, g') →
  sound (pre ++ l ++ post) g' ∧ nodes g' = nodes g ∧ (∀ u, u ∉ l → outgoing g' u = outgoing g u) ∧ linked ss None g' ∧
  ∀ s, last ss = Some s → ∃ k, k ⊆ l ∧ placed k g' s.
Proof.
  induction ss as [|s ss IH]; intros l pre post g x g' Hp Hg.
  { cbn. intros [= _ <-]. done. }
  inversion Hp as [|? l1 ? ls ? Hs Hss]; subst. destruct ss as [|t ss].
  { cbn. intros [= _ <-]. inversion Hss; subst. split_and!; try done.
    - by intros u v Huv; apply (pl_inner _ _ _ Hs).
    - intros Hpl. by apply Hs.
    - unfold leads. rewrite app_nil_r. split; [apply Hs|]. destruct (pl_fallback _ _ _ Hs) as [|(_ & ? & ?)]; auto.
    - intros ? [= <-]. exists l1. rewrite app_nil_r. done. }
  change (arts_of <$> s :: t :: ss) with (arts_of s :: arts_of t :: (arts_of <$> ss)). cbn [wire_all].
  intros (y & g1 & H1 & H2)%se_bind_ok. change (arts_of t :: (arts_of <$> ss)) with (arts_of <$> t :: ss) in H2.
  pose proof (placed_nonempty _ _ _ _ Hss) as [Het _].
  assert (∀ u, u ∈ l1 → before (pre ++ (l1 ++ ls) ++ post) u (entry (arts_of t))) as Hbef.
  { intros u Hu. apply (before_sublist (l1 ++ ls)); [by apply before_app|by apply sublist_inserts_l, sublist_inserts_r]. }
  destruct (wire_placed _ _ _ _ _ _ _ Hg Hs Hbef H1) as [Hg1 He1].
  pose proof (sd_nodup _ _ Hg) as Hnd. apply NoDup_app in Hnd as (_ & _ & (Hnd & _)%NoDup_app).
  apply NoDup_app in Hnd as (_ & Hdis & _).
  assert (∀ u, u ∉ l1 → outgoing g1 u = outgoing g u) as Hout.
  { intros u Hu. destruct He1 as [_ ->]. rewrite (exits_outside s l1); [by rewrite app_nil_r|by eapply placed_located|done]. }
  assert (placed_all (t :: ss) ls g1) as Hss1.
  { eapply placed_all_frame; [done|apply He1|]. intros u Hu. apply Hout. intros Hu1. by apply (Hdis u). }
  assert (pre ++ (l1 ++ ls) ++ post = (pre ++ l1) ++ ls ++ post) as Heq by (by rewrite <- !app_assoc).
  rewrite Heq in Hg1. destruct (IH _ _ _ _ _ _ Hss1 Hg1 H2) as (Hg2 & Hn2 & Ho2 & Hl2 & Hlast).
  rewrite Heq. split_and!; [done|by rewrite Hn2; apply He1|..].
  - intros u Hu. rewrite Ho2, Hout by set_solver. done.
  - pose proof (leads_wired _ _ _ _ _ Hs (λ u _, proj2 He1 u)) as [Hle Hin].
    assert (∀ u, u ∈ l1 → outgoing g' u = outgoing g1 u) as Hsame by (intros u Hu; apply Ho2; intros Hu2; by apply (Hdis u)).
    pose proof (placed_located _ _ _ Hs) as Hlo. split_and!.
    + intros u v Huv. rewrite Hsame by (by eapply lo_inner). by apply Hin.
    + intros Hpl. rewrite Hn2, (proj1 He1). by apply Hs.
    + by eapply leads_frame.
    + done.
  - intros u Hu. change (last (t :: ss) = Some u) in Hu. destruct (Hlast u Hu) as (k & Hk & Hp2).
    exists k. set_solver.
Qed.

(** Wiring the last step of a row: the row is linked to [next]. *)
Lemma linked_finish ss : ∀ l next s' g g',
  located_all ss l → NoDup l → linked ss None g → last ss = Some s' →
  (∃ k, placed k g s' ∧ ∀ u, u ∈ k → outgoing g' u = outgoing g u ++ exits (arts_of s') next u) →
  (∀ u n, nodes g !! u = Some n → nodes g' !! u = Some n) →
  (∀ u, u ∈ l → outgoing g' u = outgoing g u ++ exits (arts_of s') next u) → linked ss (Some next) g'.
Proof.
  induction ss as [|s ss IH]; intros l next s' g g' Hlo Hnd Hli Hla Hp Hn Ho; [done|].
  inversion Hlo as [|? l1 ? ls Hs Hss]; subst. destruct Hli as (Hi & Hx & Hr). destruct ss as [|t ss].
  - injection Hla as <-. destruct Hp as (k & Hp & Hk). destruct (leads_wired _ next _ _ _ Hp Hk) as [Hle Hin].
    split_and!; [done|auto|done].
  - apply NoDup_app in Hnd as (_ & Hdis & Hnd). change (last (s :: t :: ss)) with (last (t :: ss)) in Hla.
    assert (∃ k, k ⊆ ls ∧ located k s') as (k & Hk & Hlk).
    { clear -Hss Hla. revert Hla. induction Hss as [|t' l ts ls Ht Hts IHs]; [done|]. intros El.
      destruct ts as [|t2 ts]; [injection El as ->; exists l; set_solver|].
      destruct (IHs El) as (k & ? & ?). exists k. set_solver. }
    assert (∀ u, u ∈ l1 → outgoing g' u = outgoing g u) as Hsame.
    { intros u Hu. rewrite Ho, (exits_outside s' k); [by rewrite app_nil_r|done| |set_solver].
      intros Hu2. apply (Hdis u Hu). by apply Hk. }
    split_and!.
    + intros u v Huv. rewrite Hsame by (by eapply lo_inner). by apply Hi.
    + auto.
    + eapply leads_frame; [exact Hs|exact Hsame|apply Hr].
    + apply (IH ls next s' g g'); [done|done|apply Hr|done|done|done|]. intros u Hu. apply Ho. set_solver.
Qed.

(** ** Sequences and pipelines *)
Lemma sequence_sound add ss pre post g next x g' :
  Forall (places add) ss → sound (pre ++ post) g → next ∈ post →
  buildExecutionSequence add ss next g = (Ok x, g') →
  ∃ l, sound (pre ++ l ++ post) g' ∧ keeps g g' ∧ (l = [] ∧ x = next ∨ x ∈ l).
Proof.
  intros Hall Hg Hnext. unfold buildExecutionSequence. intros (arts & g1 & H1 & H2)%se_bind_ok.
  destruct (add_all_sound _ _ _ _ _ _ _ Hall Hg H1) as (-> & l & Hg1 & Hk1 & Hp). clear H1.
  destruct ss as [|s ss].
  { injection H2 as <- <-. inversion Hp; subst. exists []. split_and!; [done|done|by left]. }
  change (arts_of <$> s :: ss) with (arts_of s :: (arts_of <$> ss)) in H2.
  apply se_bind_ok in H2 as (y & g2 & H2 & (z & g3 & H3 & [= <- <-])%se_bind_ok).
  change (arts_of s :: (arts_of <$> ss)) with (arts_of <$> s :: ss) in *.
  destruct (wire_all_sound _ _ _ _ _ _ _ Hp Hg1 H2) as (Hg2 & Hn2 & Ho2 & Hl2 & Hlast).
  rewrite fmap_last in H3. destruct (last (s :: ss)) as [t|] eqn:El; [|by apply last_None in El].
  cbn [default fmap option_fmap option_map] in H3. destruct (Hlast t eq_refl) as (k & Hk & Hpk).
  destruct (wire_placed _ _ _ _ _ _ _ Hg2 Hpk ltac:(
    intros u Hu; apply (before_sublist (l ++ post)); [apply before_app; [by apply Hk|done]|by apply sublist_inserts_l]) H3) as [Hg3 He3].
  exists l. split_and!; [done| |].
  - assert (∀ u, is_Some (nodes g !! u) → u ∉ l) as Hnew.
    { intros u Hu Hul. apply (sd_nodes _ _ Hg) in Hu. pose proof (sd_nodup _ _ Hg1) as Hnd.
      apply elem_of_app in Hu as [Hu|Hu]; apply NoDup_app in Hnd as (_ & Hd & Hnd).
      - apply (Hd _ Hu). set_solver.
      - apply NoDup_app in Hnd as (_ & Hd2 & _). by apply (Hd2 _ Hul). }
    eapply (adds_edges_keeps _ g g2 g3 He3).
    + intros u n Hu. destruct (Hk1 _ _ Hu) as [Hu1 <-]. rewrite Hn2. split; [done|]. apply Ho2. by apply Hnew.
    + intros u Hu. apply (exits_outside t k); [by eapply placed_located|]. intros Hu2. by apply (Hnew u Hu), Hk.
  - right. by eapply placed_nonempty.
Qed.

Lemma stages_sound add id stages : ∀ i pre post g next x g',
  Forall (λ st, Forall (places add) (stage_Steps st)) stages → sound (pre ++ post) g → next ∈ post →
  add_stages view clock add id i stages next g = (Ok x, g') →
  ∃ l, sound (pre ++ l ++ post) g' ∧ keeps g g' ∧ (l = [] ∧ x = next ∨ x ∈ l).
Proof.
  induction stages as [|[name sp steps] rest IH]; intros i pre post g next x g' Hall Hg Hnext; cbn [add_stages].
  { intros [= <- <-]. exists []. split_and!; [done|done|by left]. }
  apply Forall_cons in Hall as [Hsteps Hall]. cbn [stage_Steps] in Hsteps.
  intros (nx & g1 & H1 & ([] & g2 & H2 & (body & g3 & H3 & ([] & g4 & H4 & [= <- <-])%se_bind_ok)%se_bind_ok)%se_bind_ok)%se_bind_ok.
  destruct (IH _ _ _ _ _ _ _ Hall Hg Hnext H1) as (l1 & Hg1 & Hk1 & Hx1).
  assert (nx ∈ l1 ++ post) as Hnx by (destruct Hx1 as [[-> ->]|?]; set_solver).
  set (sid := stage_node_id _ _ _) in *.
  destruct (add_node_sound _ _ _ _ _ _ Hg1 (system_node_valid _ _ _ _) H2) as (Hg2 & Hk2 & Hn2 & Ho2). cbn [node_ID n_info ni_ID newThoughtRecipeStageNode] in *.
  change (pre ++ sid :: l1 ++ post) with (pre ++ [sid] ++ (l1 ++ post)) in Hg2. rewrite app_assoc in Hg2.
  destruct (sequence_sound _ _ _ _ _ _ _ _ Hsteps Hg2 Hnx H3) as (l2 & Hg3 & Hk3 & Hx3).
  set (target := if is_blank body then nx else body) in *.
  assert (target ∈ l2 ++ l1 ++ post) as Ht by (unfold target; destruct Hx3 as [[-> ->]|?]; case_match; set_solver).
  assert (outgoing g3 sid = []) as Ho3 by (rewrite <- Ho2; by apply (Hk3 _ _ Hn2)).
  rewrite <- app_assoc in Hg3.
  destruct (add_edge_sound _ _ _ _ _ _ _ Hg3 ltac:(apply (before_sublist ([sid] ++ l2 ++ l1 ++ post));
    [apply before_app; [left|done]|by apply sublist_inserts_l]) ltac:(rewrite Ho3; apply exclusive_singleton) H4) as [Hg4 He4].
  exists ([sid] ++ l2 ++ l1). rewrite <- !app_assoc. split_and!; [done| |right; set_solver].
  eapply (adds_edges_keeps _ g g3 g4 He4); [by do 2 (etrans; [done|])|].
  intros u [m Hu]. rewrite decide_False; [done|]. intros ->. apply Hk1 in Hu as [Hu _].
  apply add_node_fresh in H2. cbn [node_ID n_info ni_ID newThoughtRecipeStageNode] in H2. by rewrite Hu in H2.
Qed.

Lemma pipeline_places f stages body :
  bool_decide (Kind f = StepKindPipelineStage) = true → Forall (λ st, Forall (places add_step) (stage_Steps st)) stages →
  places add_step (MkStep f stages body).
Proof.
  intros Hkind Hall pre post g a g' Hg. cbn [addExecutionStep]. rewrite Hkind. unfold addPipelineStep.
  set (s := MkStep f stages body). assert (pipelined s = true) as Hp by exact Hkind.
  change (step_ID f +:+ ".pipeline") with (node_of s ".pipeline"). change (step_ID f +:+ ".join") with (node_of s ".join").
  set (p := node_of s ".pipeline"). set (j := node_of s ".join").
  intros ([] & g1 & H1 & ([] & g2 & H2 & (nx & g3 & H3 & ([] & g4 & H4 & [= <- <-])%se_bind_ok)%se_bind_ok)%se_bind_ok)%se_bind_ok.
  destruct (add_node_sound _ _ _ _ _ _ Hg (system_node_valid _ _ _ _) H1) as (Hg1 & Hk1 & Hn1 & Ho1).
  apply add_node_fresh in H1. cbn [node_ID n_info ni_ID newThoughtRecipeStageNode] in *.
  change (pre ++ p :: post) with (pre ++ [p] ++ post) in Hg1. rewrite app_assoc in Hg1.
  destruct (add_node_sound _ _ _ _ _ _ Hg1 (system_node_valid _ _ _ _) H2) as (Hg2 & Hk2 & Hn2 & Ho2).
  apply add_node_fresh in H2. cbn [node_ID n_info ni_ID newThoughtRecipeStageNode] in *.
  destruct (stages_sound _ _ _ _ _ _ _ _ _ _ Hall Hg2 ltac:(left) H3) as (l & Hg3 & Hk3 & Hx3).
  assert (outgoing g3 p = [] ∧ outgoing g3 j = []) as [Hop Hoj].
  { destruct (Hk2 _ _ Hn1) as [Hp2 Hpo]. destruct (Hk3 _ _ Hp2) as [_ ->]. destruct (Hk3 _ _ Hn2) as [_ ->]. by rewrite Hpo. }
  rewrite <- app_assoc in Hg3. change (l ++ j :: post) with (l ++ [j] ++ post) in Hg3. rewrite (app_assoc l) in Hg3.
  assert (before (pre ++ [p] ++ (l ++ [j]) ++ post) p nx) as Hbef.
  { apply (before_sublist ([p] ++ (l ++ [j]) ++ post)); [|by apply sublist_inserts_l].
    apply before_app; [left|]. destruct Hx3 as [[-> ->]|?]; set_solver. }
  destruct (add_edge_sound _ _ _ _ _ _ _ Hg3 Hbef ltac:(rewrite Hop; apply exclusive_singleton) H4) as [Hg4 He4].
  assert (p ≠ j) as Hpj by (intros Heq; rewrite <- Heq, Hn1 in H2; done).
  split; [unfold arts_of; by rewrite Hp|]. exists ([p] ++ l ++ [j]). rewrite <- !app_assoc in *. split_and!; [done| |constructor].
  - eapply (adds_edges_keeps _ g g3 g4 He4); [by do 2 (etrans; [done|])|].
    intros u [m Hu]. rewrite decide_False; [done|]. intros ->. by rewrite Hu in H1.
  - unfold arts_of. by rewrite Hp.
  - unfold arts_of. rewrite Hp. cbn. set_solver.
  - unfold arts_of, own_edges. rewrite Hp. cbn. change (outgoing g4 j = []). destruct He4 as [_ ->].
    by rewrite Hoj, decide_False.
  - left. unfold arts_of. by rewrite Hp.
  - intros u v. unfold chain_ids. rewrite Hp. by intros ?%elem_of_nil.
  - by rewrite Hp.
Qed.

Lemma step_places s : places add_step s.
Proof.
  induction s as [[f stages body] IH] using step_ind. destruct (bool_decide (Kind f = StepKindPipelineStage)) eqn:Hk.
  - apply pipeline_places; [done|]. unfold step_bodies in IH. apply Forall_app in IH as [IH _].
    rewrite Forall_fmap in IH. exact IH.
  - intros pre post g a g' Hg. cbn [addExecutionStep]. rewrite Hk. by apply plain_places.
Qed.

Lemma steps_place ss : Forall (places add_step) ss.
Proof. apply Forall_forall. intros s _. apply step_places. Qed.

(** ** Sections *)

(** Where a section is entered and left. *)
Record section_at (x : artifacts) (l : list string) g : Prop := {
  sa_head : head l = Some (entry x);
  sa_tail : tail x ∈ l;
  sa_spare : spare (outgoing g (tail x));
  sa_fallback : fallback x = EmptyString ∨
    fallback x ∈ l ∧ outgoing g (fallback x) = [] ∧ fallback x ≠ tail x
}.

Lemma linear_sound s ss pre post g x g' :
  sound (pre ++ post) g → buildLinearSection view clock run_step run_stream (s :: ss) g = (Ok x, g') →
  ∃ l t, sound (pre ++ l ++ post) g' ∧ keeps g g' ∧ section_at x l g' ∧
    located_all (s :: ss) l ∧ linked (s :: ss) None g' ∧ entry x = entry (arts_of s) ∧
    last (s :: ss) = Some t ∧ tail x = tail (arts_of t) ∧ fallback x = fallback (arts_of t) ∧ ∃ k, k ⊆ l ∧ placed k g' t.
Proof.
  intros Hg. unfold buildLinearSection. intros (arts & g1 & H1 & H2)%se_bind_ok.
  destruct (add_all_sound _ _ _ _ _ _ _ (steps_place _) Hg H1) as (-> & l & Hg1 & Hk1 & Hp). clear H1.
  change (arts_of <$> s :: ss) with (arts_of s :: (arts_of <$> ss)) in H2.
  apply se_bind_ok in H2 as ([] & g2 & H2 & [= <- <-]).
  change (arts_of s :: (arts_of <$> ss)) with (arts_of <$> s :: ss) in *.
  destruct (wire_all_sound _ _ _ _ _ _ _ Hp Hg1 H2) as (Hg2 & Hn2 & Ho2 & Hl2 & Hlast).
  destruct (last (s :: ss)) as [t|] eqn:El; [|by apply last_None in El].
  rewrite fmap_last, El. cbn [default fmap option_fmap option_map id].
  destruct (Hlast t eq_refl) as (k & Hk & Hpk). exists l, t.
  split_and!; [done| | |by eapply placed_all_located|done|done|done|done|done|by exists k].
  - intros u n Hu. destruct (Hk1 _ _ Hu) as [Hu1 <-]. rewrite Hn2. split; [done|]. apply Ho2. intros Hul.
    assert (u ∈ pre ++ post) as Hu' by (apply (sd_nodes _ _ Hg); eauto).
    pose proof (sd_nodup _ _ Hg1) as Hnd. apply NoDup_app in Hnd as (_ & Hd & (_ & Hd2 & _)%NoDup_app).
    apply elem_of_app in Hu' as [Hu'|Hu']; [apply (Hd _ Hu')|apply (Hd2 _ Hul)]; set_solver.
  - constructor; cbn [entry tail fallback].
    + by eapply placed_nonempty.
    + by apply Hk, Hpk.
    + rewrite (pl_out _ _ _ Hpk). apply own_spare.
    + destruct (pl_fallback _ _ _ Hpk) as [|(? & ? & ?)]; [by left|right]. split_and!; [by apply Hk|done|done].
Qed.

Abbreviation branches_of := (add_branches view pred_value clock run_step run_stream).

Lemma exclusive_condition branch nx body gid :
  exclusive ([edge branch nx (Some (routeConditionFalse view gid branch))] ++ [edge branch body (Some (routeConditionTrue view gid branch))]).
Proof.
  intros r e. rewrite filter_app, !filter_cons, filter_nil, length_app. cbn. unfold routeConditionFalse, routeConditionTrue.
  destruct (envBool view e _); cbn; repeat case_decide; cbn; try lia; done.
Qed.

Lemma branches_sound gid joinID bs : ∀ i pre post g next x g',
  sound (pre ++ post) g → next ∈ post → joinID ∈ post → branches_of gid joinID i bs next g = (Ok x, g') →
  ∃ l, sound (pre ++ l ++ post) g' ∧ keeps g g' ∧ x ∈ l ++ post.
Proof.
  induction bs as [|b rest IH]; intros i pre post g next x g' Hg Hnext Hjoin; cbn [add_branches].
  { intros [= <- <-]. by exists []. }
  intros (nx & g1 & H1 & (body & g2 & H2 & H3)%se_bind_ok)%se_bind_ok.
  destruct (IH _ _ _ _ _ _ _ Hg Hnext Hjoin H1) as (l1 & Hg1 & Hk1 & Hx1).
  destruct (sequence_sound _ _ _ _ _ _ _ _ (steps_place _) Hg1 ltac:(apply elem_of_app; right; exact Hjoin) H2) as (l2 & Hg2 & Hk2 & Hx2).
  assert (body ∈ l2 ++ l1 ++ post) as Hbody by (destruct Hx2 as [[-> ->]|?]; set_solver).
  destruct (IsElse b).
  { injection H3 as <- <-. exists (l2 ++ l1). rewrite <- app_assoc. split_and!; [done|by etrans|].
    case_bool_decide; [apply elem_of_app; by right|done]. }
  apply se_bind_ok in H3 as (cond & g2' & Hc & ([] & g3 & H3 & ([] & g4 & H4 & ([] & g5 & H5 & [= <- <-])%se_bind_ok)%se_bind_ok)%se_bind_ok).
  assert (g2' = g2) as ->.
  { destruct (br_Predicate b) as [p|]; [|by injection Hc as _ <-].
    apply se_bind_ok in Hc as (c & g' & Hp%se_result_ok & [= _ <-]). by destruct Hp as [_ ->]. }
  set (bid := scopedGroupNodeID gid _) in *.
  destruct (add_node_sound _ _ _ _ _ _ Hg2 (conditional_node_valid _ _ _ _) H3) as (Hg3 & Hk3 & Hn3 & Ho3).
  apply add_node_fresh in H3. unfold branch_node in *. cbn [node_ID n_info ni_ID newThoughtRecipeStageNode] in *.
  set (target := if bool_decide _ then joinID else body) in *.
  assert (target ∈ l2 ++ l1 ++ post) as Ht by (unfold target; case_bool_decide; [|done]; set_solver).
  change (pre ++ bid :: l2 ++ l1 ++ post) with (pre ++ [bid] ++ (l2 ++ l1 ++ post)) in Hg3.
  assert (∀ v, v ∈ l2 ++ l1 ++ post → before (pre ++ [bid] ++ (l2 ++ l1 ++ post)) bid v) as Hbef.
  { intros v Hv. apply (before_sublist ([bid] ++ l2 ++ l1 ++ post)); [apply before_app; [left|done]|by apply sublist_inserts_l]. }
  assert (sound (pre ++ [bid] ++ (l2 ++ l1 ++ post)) g4 ∧ adds_edges (λ u, if decide (u = bid)
            then if is_blank nx then [] else [edge bid nx (Some (routeConditionFalse view gid bid))] else []) g3 g4) as [Hg4 He4].
  { destruct (is_blank nx).
    - injection H4 as <-. split; [done|]. split; [done|]. intros u. case_decide; by rewrite app_nil_r.
    - apply (add_edge_sound _ _ _ _ _ _ _ Hg3 (Hbef nx ltac:(apply elem_of_app; by right)) ltac:(rewrite Ho3; apply exclusive_singleton) H4). }
  assert (exclusive (outgoing g4 bid ++ [edge bid target (Some (routeConditionTrue view gid bid))])) as Hex.
  { destruct He4 as [_ ->]. rewrite Ho3, decide_True by done. destruct (is_blank nx); [apply exclusive_singleton|apply exclusive_condition]. }
  destruct (add_edge_sound _ _ _ _ _ _ _ Hg4 (Hbef target Ht) Hex H5) as [Hg5 He5].
  assert (nodes g !! bid = None) as Hfresh.
  { destruct (nodes g !! bid) as [m|] eqn:Hm; [|done]. apply Hk1 in Hm as [Hm _]. apply Hk2 in Hm as [Hm _]. by rewrite Hm in H3. }
  exists ([bid] ++ l2 ++ l1). rewrite <- !app_assoc. split_and!; [done| |set_solver].
  eapply (adds_edges_keeps _ g g4 g5 He5); [eapply (adds_edges_keeps _ g g3 g4 He4); [by do 2 (etrans; [done|])|]|];
    intros u [m Hu]; rewrite decide_False; try done; intros ->; by rewrite Hfresh in Hu.
Qed.

(** The end of a route: its join, preceded by its no-match node unless it has an else branch. *)
Lemma exit_sound (hasElse : bool) op d nm jid pre post g g' :
  sound (pre ++ jid :: post) g → outgoing g jid = [] → is_Some (nodes g !! jid) → (hasElse = true → nm = jid) →
  (if hasElse then se_ret tt
   else AddNode (newThoughtRecipeStageNode view clock nm NodeTypeSystem op None d) ;;;
        AddEdge nm jid (Some (λ _ _, false)) false) g = (Ok tt, g') →
  sound (pre ++ (if hasElse then [jid] else [nm; jid]) ++ post) g' ∧ keeps g g' ∧
  spare (outgoing g' nm) ∧ is_Some (nodes g' !! nm).
Proof.
  intros Hg Ho Hj Hnm. destruct hasElse.
  { rewrite (Hnm eq_refl). intros [= <-]. split_and!; [done|done|by rewrite Ho|done]. }
  intros ([] & g1 & H1 & H2)%se_bind_ok.
  destruct (add_node_sound _ _ _ _ _ _ Hg (system_node_valid _ _ _ _) H1) as (Hg1 & Hk1 & Hn1 & Ho1).
  apply add_node_fresh in H1. cbn [node_ID n_info ni_ID newThoughtRecipeStageNode] in *.
  assert (before (pre ++ nm :: jid :: post) nm jid) as Hb.
  { apply (before_sublist ([nm] ++ (jid :: post))); [apply before_app; left|by apply sublist_inserts_l]. }
  destruct (add_edge_sound _ _ _ _ _ _ _ Hg1 Hb ltac:(rewrite Ho1; apply exclusive_singleton) H2) as [Hg2 He2].
  split_and!; [done| |destruct He2 as [_ ->]; by rewrite Ho1, decide_True|destruct He2 as [-> _]; by eexists].
  eapply (adds_edges_keeps _ g g1 g' He2); [done|]. intros u [m Hu]. rewrite decide_False; [done|]. intros ->. by rewrite Hu in H1.
Qed.

Lemma route_sound gr pre post g x g' :
  sound (pre ++ post) g → buildRouteSection view pred_value clock run_step run_stream gr g = (Ok x, g') →
  ∃ l, sound (pre ++ l ++ post) g' ∧ keeps g g' ∧ section_at x l g' ∧
    x = {| entry := scopedGroupNodeID (group_ID gr) "route";
           tail := scopedGroupNodeID (group_ID gr) (if existsb IsElse (Branches gr) then "join" else "no-match"); fallback := EmptyString |}.
Proof.
  intros Hg. unfold buildRouteSection.
  set (rid := scopedGroupNodeID _ "route"). set (jid := scopedGroupNodeID _ "join"). set (hasElse := existsb _ _).
  intros ([] & g1 & H1 & ([] & g2 & H2 & ([] & g3 & H3 & (nx & g4 & H4 & ([] & g5 & H5 & [= <- <-])%se_bind_ok)%se_bind_ok)%se_bind_ok)%se_bind_ok)%se_bind_ok.
  set (nm := if hasElse then jid else scopedGroupNodeID (group_ID gr) "no-match") in *.
  destruct (add_node_sound _ _ _ _ _ _ Hg (conditional_node_valid _ _ _ _) H1) as (Hg1 & Hk1 & Hn1 & Ho1).
  apply add_node_fresh in H1. cbn [node_ID n_info ni_ID newThoughtRecipeStageNode] in *.
  change (pre ++ rid :: post) with (pre ++ [rid] ++ post) in Hg1. rewrite app_assoc in Hg1.
  destruct (add_node_sound _ _ _ _ _ _ Hg1 (system_node_valid _ _ _ _) H2) as (Hg2 & Hk2 & Hn2 & Ho2).
  apply add_node_fresh in H2. cbn [node_ID n_info ni_ID newThoughtRecipeStageNode] in *.
  set (exit := if hasElse then [jid] else [nm; jid]).
  assert (nm ∈ exit ∧ jid ∈ exit) as [Hnm Hjid] by (unfold exit, nm; destruct hasElse; set_solver).
  assert (hasElse = true → nm = jid) as Hnj by (unfold nm; by destruct hasElse).
  destruct (exit_sound _ _ _ _ _ _ _ _ _ Hg2 Ho2 ltac:(by eexists) Hnj H3)
    as (Hg3 & Hk3' & Hs3 & Hn3). fold exit in Hg3. assert (keeps g1 g3) as Hk3 by (by etrans).
  assert (nm ∈ exit ++ post ∧ jid ∈ exit ++ post) as [Hnm' Hjid'] by set_solver.
  destruct (branches_sound _ _ _ _ _ _ _ _ _ _ Hg3 Hnm' Hjid' H4) as (l & Hg4 & Hk4 & Hx4).
  assert (outgoing g4 rid = []) as Hor.
  { destruct (Hk3 _ _ Hn1) as [Hn1' Ho1']. destruct (Hk4 _ _ Hn1') as [_ ->]. by rewrite Ho1', Ho1. }
  rewrite <- app_assoc in Hg4.
  assert (before (pre ++ [rid] ++ l ++ exit ++ post) rid nx) as Hbef.
  { apply (before_sublist ([rid] ++ (l ++ exit ++ post))); [apply before_app; [left|set_solver]|by apply sublist_inserts_l]. }
  destruct (add_edge_sound _ _ _ _ _ _ _ Hg4 Hbef ltac:(rewrite Hor; apply exclusive_singleton) H5) as [Hg5 He5].
  assert (nm ≠ rid) as Hne.
  { intros Heq. pose proof (sd_nodup _ _ Hg4) as Hnd. apply NoDup_app in Hnd as (_ & _ & (_ & Hd & _)%NoDup_app).
    apply (Hd rid ltac:(left)). rewrite <- Heq. set_solver. }
  exists ([rid] ++ l ++ exit). rewrite <- !app_assoc. split_and!; [done| |constructor|].
  - eapply (adds_edges_keeps _ g g4 g5 He5); [by do 2 (etrans; [done|])|]. intros u [m Hu]. rewrite decide_False; [done|].
    intros ->. by rewrite Hu in H1.
  - done.
  - cbn [tail]. set_solver.
  - cbn [tail]. destruct He5 as [_ ->]. rewrite decide_False, app_nil_r by done.
    destruct Hn3 as [m Hm]. by destruct (Hk4 _ _ Hm) as [_ ->].
  - by left.
  - unfold nm. by destruct hasElse.
Qed.

(** ** Plans *)
Inductive sections_at : list artifacts → list string → Graph → Prop :=
| sections_nil g : sections_at [] [] g
| sections_cons x l xs ls g : section_at x l g → sections_at xs ls g → sections_at (x :: xs) (l ++ ls) g.

Lemma section_frame x l g g' : section_at x l g → (∀ u, u ∈ l → outgoing g' u = outgoing g u) → section_at x l g'.
Proof.
  intros [Hh Ht Hs Hf] Ho. constructor; [done|done|by rewrite Ho|].
  destruct Hf as [|(H1 & H2 & H3)]; [by left|right]. by rewrite Ho.
Qed.

Lemma sections_frame xs l g g' : sections_at xs l g → (∀ u, u ∈ l → outgoing g' u = outgoing g u) → sections_at xs l g'.
Proof.
  induction 1 as [|x l xs ls g Hx Hxs IH]; intros Ho; constructor; [|apply IH; intros; apply Ho; set_solver].
  apply (section_frame x l g); [done|]. intros. apply Ho. set_solver.
Qed.

Definition route_arts (gr : CompiledRouteGroup) : artifacts :=
  {| entry := scopedGroupNodeID (group_ID gr) "route";
     tail := scopedGroupNodeID (group_ID gr) (if existsb IsElse (Branches gr) then "join" else "no-match"); fallback := EmptyString |}.

Lemma routes_sound grs : ∀ pre post g xs g',
  sound (pre ++ post) g → add_routes view pred_value clock run_step run_stream grs g = (Ok xs, g') →
  xs = route_arts <$> grs ∧ ∃ l, sound (pre ++ l ++ post) g' ∧ keeps g g' ∧ sections_at xs l g'.
Proof.
  induction grs as [|gr grs IH]; intros pre post g xs g' Hg; cbn [add_routes].
  { intros [= <- <-]. split; [done|]. exists []. split_and!; [done|done|constructor]. }
  intros (x & g1 & H1 & (more & g2 & H2 & [= <- <-])%se_bind_ok)%se_bind_ok.
  destruct (route_sound _ _ _ _ _ _ Hg H1) as (l & Hg1 & Hk1 & Hx & ->).
  rewrite app_assoc in Hg1. destruct (IH _ _ _ _ _ Hg1 H2) as (-> & ls & Hg2 & Hk2 & Hxs).
  split; [done|]. exists (l ++ ls). rewrite <- !app_assoc in *. split_and!; [done|by etrans|].
  constructor; [|done]. apply (section_frame _ l g1); [done|]. intros u Hu. apply (keeps_elem _ _ _ _ Hg1 Hk2). set_solver.
Qed.

(** Where a section leads: the entry of the next one, or the terminal. *)
Definition next_section (rest : list artifacts) : string :=
  match rest with t :: _ => if is_blank (entry t) then terminal_id else entry t | [] => terminal_id end.

Lemma next_section_in xs l g : sections_at xs l g → next_section xs ∈ l ++ [terminal_id].
Proof.
  intros Hxs. destruct Hxs as [|t l1 ts ls g Ht _]; unfold next_section; [by apply list_elem_of_singleton|].
  pose proof (head_Some_elem_of _ _ (sa_head _ _ _ Ht)). destruct (is_blank (entry t)); set_solver.
Qed.

Lemma wire_sections_eq x rest : wire_sections (V:=V) (x :: rest) = (wireStepTransitions x (next_section rest) ;;; wire_sections rest).
Proof. done. Qed.

Lemma wire_sections_sound rest : ∀ x pre l1 ls g y g',
  section_at x l1 g → sections_at rest ls g → sound (pre ++ (l1 ++ ls) ++ [terminal_id]) g →
  wire_sections (x :: rest) g = (Ok y, g') →
  sound (pre ++ (l1 ++ ls) ++ [terminal_id]) g' ∧ nodes g' = nodes g ∧ (∀ u, u ∉ l1 ++ ls → outgoing g' u = outgoing g u) ∧
  ∀ u, u ∈ l1 → outgoing g' u = outgoing g u ++ exits x (next_section rest) u.
Proof.
  induction rest as [|t rest IH]; intros x pre l1 ls g y g' Hx Hxs Hg;
    rewrite wire_sections_eq; intros ([] & g1 & H1 & H2)%se_bind_ok.
  all: pose proof (next_section_in _ _ _ Hxs) as Hnext.
  all: match type of H1 with wireStepTransitions _ ?n _ = _ => set (next := n) in * end; clearbody next.
  all: assert (∀ u, u ∈ l1 → before (pre ++ (l1 ++ ls) ++ [terminal_id]) u next) as Hbef by
    (intros u Hu; rewrite <- app_assoc; apply (before_sublist (l1 ++ (ls ++ [terminal_id]))); [by apply before_app|by apply sublist_inserts_l]).
  all: assert (sound (pre ++ (l1 ++ ls) ++ [terminal_id]) g1 ∧ adds_edges (exits x next) g g1) as [Hg1 He1] by
    (apply (wire_sound x next _ g tt g1); [done|by apply Hbef, Hx|apply Hx| |done];
     destruct (sa_fallback _ _ _ Hx) as [|(? & ? & ?)]; [by left|right]; split_and!; [by apply Hbef|done|done]).
  all: assert (∀ u, u ∉ l1 → outgoing g1 u = outgoing g u) as Hout by
    (intros u Hu; destruct He1 as [_ ->]; rewrite (exits_not_in x l1); [by rewrite app_nil_r|apply Hx| |done];
     destruct (sa_fallback _ _ _ Hx) as [|(? & _)]; auto).
  - injection H2 as _ <-. split_and!; [done|by apply He1|intros; apply Hout; set_solver|intros; apply He1].
  - inversion Hxs as [|? l2 ? ls2 ? Ht Hts]; subst.
    pose proof (sd_nodup _ _ Hg) as Hnd. apply NoDup_app in Hnd as (_ & _ & (Hnd & _)%NoDup_app).
    apply NoDup_app in Hnd as (_ & Hdis & _).
    assert (∀ u, u ∈ l2 ++ ls2 → outgoing g1 u = outgoing g u) as Hsame by (intros u Hu; apply Hout; intros Hu1; by apply (Hdis u)).
    assert (pre ++ (l1 ++ l2 ++ ls2) ++ [terminal_id] = (pre ++ l1) ++ (l2 ++ ls2) ++ [terminal_id]) as Heq by (by rewrite <- !app_assoc).
    rewrite Heq in Hg1. assert (section_at t l2 g1 ∧ sections_at rest ls2 g1) as [Ht1 Hts1]
      by (split; [eapply section_frame|eapply sections_frame]; try done; set_solver).
    destruct (IH _ _ _ _ _ _ _ Ht1 Hts1 Hg1 H2) as (Hg2 & Hn2 & Ho2 & _).
    rewrite Heq. split_and!; [done|by rewrite Hn2; apply He1| |].
    + intros u Hu. rewrite Ho2, Hout by set_solver. done.
    + intros u Hu. rewrite Ho2 by (intros Hu2; by apply (Hdis u)). apply He1.
Qed.

Lemma sound_new : sound [] (NewGraph : Graph).
Proof.
  constructor; [by exists []|done|constructor|..|done].
  - intros id. cbn. rewrite lookup_empty, elem_of_nil. split; [done|by intros []].
  - intros u ed. unfold outgoing. cbn. rewrite lookup_empty. by intros ?%elem_of_nil.
  - intros u. apply exclusive_nil.
  - intros id n. cbn. by rewrite lookup_empty.
Qed.

Lemma set_start_sound order id g x g' :
  sound order g → SetStart id g = (Ok x, g') →
  sound order g' ∧ startNodeID g' = id ∧ nodes g' = nodes g ∧ ∀ u, outgoing g' u = outgoing g u.
Proof.
  intros Hg Hst. pose proof (built_op g (OpSetStart id) (sd_built _ _ Hg)) as Hb. cbn [do_op] in Hb. rewrite Hst in Hb.
  revert Hst. unfold SetStart, unsealed. rewrite (sd_open _ _ Hg). destruct (nodes g !! id); [|done].
  intros [= _ <-]. split; [|done]. constructor; [exact Hb|apply Hg..].
Qed.

(** What follows the plan's own steps. *)
Definition after_steps (plan : ExecutionPlan) : string :=
  match Routes plan with gr :: _ => scopedGroupNodeID (group_ID gr) "route" | [] => terminal_id end.

Lemma route_entry_dotted id kind : contains_byte "."%char (scopedGroupNodeID id kind) = true.
Proof. done. Qed.

Lemma after_steps_next plan : next_section (route_arts <$> Routes plan) = after_steps plan.
Proof.
  unfold next_section, after_steps. destruct (Routes plan) as [|gr grs]; [done|]. cbn [fmap list_fmap route_arts entry].
  by rewrite dotted_not_blank.
Qed.

Lemma terminal_valid : node_valid (NewTerminalNode terminal_id).
Proof. done. Qed.

Abbreviation plan_graph := (build_plan view pred_value clock run_step run_stream).

(** The last part of [build_plan], from the sections of the plan. *)
Lemma finish_sound x l1 rest ls g g1 g2 g3 y :
  sound (l1 ++ ls) g → section_at x l1 g → sections_at rest ls g → AddNode (NewTerminalNode terminal_id) g = (Ok tt, g1) →
  wire_sections (x :: rest) g1 = (Ok tt, g2) → SetStart (entry x) g2 = (Ok y, g3) →
  sound ((l1 ++ ls) ++ [terminal_id]) g3 ∧ head ((l1 ++ ls) ++ [terminal_id]) = Some (startNodeID g3) ∧ startNodeID g3 = entry x ∧
  (∀ u n, nodes g !! u = Some n → nodes g3 !! u = Some n) ∧
  ∀ u, u ∈ l1 → outgoing g3 u = outgoing g u ++ exits x (next_section rest) u.
Proof.
  intros Hg Hx Hxs H1 H2 H3. rewrite <- (app_nil_r (l1 ++ ls)) in Hg.
  destruct (add_node_sound _ _ _ _ _ _ Hg terminal_valid H1) as (Hg1 & Hk1 & Hn1 & Ho1). cbn [node_ID n_info ni_ID NewTerminalNode] in *.
  assert (∀ u, u ∈ l1 ++ ls → outgoing g1 u = outgoing g u) as Hsame.
  { intros u Hu. apply (keeps_elem _ _ _ _ Hg Hk1). by rewrite app_nil_r. }
  assert (section_at x l1 g1 ∧ sections_at rest ls g1) as [Hx1 Hxs1]
    by (split; [eapply section_frame|eapply sections_frame]; try done; set_solver).
  destruct (wire_sections_sound _ _ [] _ _ _ _ _ Hx1 Hxs1 Hg1 H2) as (Hg2 & Hn2 & _ & Ho2).
  destruct (set_start_sound _ _ _ _ _ Hg2 H3) as (Hg3 & Hst & Hn3 & Ho3). cbn [app] in *.
  split_and!; [done| |done| |].
  - rewrite Hst. destruct Hx as [Hh _ _ _]. destruct l1; [done|exact Hh].
  - intros u n Hu. rewrite Hn3, Hn2. by apply Hk1.
  - intros u Hu. rewrite Ho3, Ho2 by done. by rewrite Hsame by set_solver.
Qed.

(** What a plan's graph is, once built. *)
Record built_plan (plan : ExecutionPlan) (order : list string) g : Prop := {
  bp_sound : sound order g;
  bp_head : head order = Some (startNodeID g);
  bp_last : last order = Some terminal_id;
  bp_start : contains_byte "."%char (startNodeID g) = true;
  bp_linked : linked (Steps plan) (Some (after_steps plan)) g
}.

Lemma entry_dotted s : contains_byte "."%char (entry (arts_of s)) = true.
Proof.
  unfold arts_of, chain_ids, node_of. destruct (pipelined s); cbn; [by rewrite contains_byte_app, orb_true_r|].
  repeat case_match; cbn; by rewrite contains_byte_app, orb_true_r.
Qed.

Lemma plan_sound plan x g : plan_graph plan NewGraph = (Ok x, g) → ∃ order, built_plan plan order g.
Proof.
  unfold build_plan. intros (lin & g1 & H1 & (xs & g2 & H2 & H3)%se_bind_ok)%se_bind_ok.
  destruct (Steps plan) as [|s ss] eqn:Ess.
  - injection H1 as <- <-. destruct (routes_sound _ [] [] _ _ _ sound_new H2) as (-> & l & Hg2 & _ & Hxs). cbn [app] in *.
    rewrite app_nil_r in Hg2. destruct (Routes plan) as [|gr grs] eqn:Egr; [done|]. cbn [fmap list_fmap] in *.
    inversion Hxs as [|? l1 ? ls ? Hx1 Hxs1]; subst.
    apply se_bind_ok in H3 as ([] & g3 & H3 & ([] & g4 & H4 & H5)%se_bind_ok).
    destruct (finish_sound _ _ _ _ _ _ _ _ _ Hg2 Hx1 Hxs1 H3 H4 H5) as (Hg & Hh & Hst & _).
    exists ((l1 ++ ls) ++ [terminal_id]). constructor; [done|done|by rewrite last_snoc|by rewrite Hst|by rewrite Ess].
  - apply se_bind_ok in H1 as (a & g1' & H1 & [= <- <-]).
    destruct (linear_sound _ _ [] [] _ _ _ sound_new H1) as
      (l & t & Hg1 & _ & Hx & Hlo & Hli & Hen & Hla & Ht & Hf & k & Hk & Hpk). cbn [app] in *.
    destruct (routes_sound _ l [] _ _ _ Hg1 H2) as (-> & ls & Hg2 & Hk2 & Hxs). rewrite app_nil_r in *.
    apply se_bind_ok in H3 as ([] & g3 & H3 & ([] & g4 & H4 & H5)%se_bind_ok).
    assert (∀ u, u ∈ l → outgoing g2 u = outgoing g1' u) as Hsame by (intros u Hu; by apply (keeps_elem _ _ _ _ Hg1 Hk2)).
    assert (section_at a l g2) as Hx2 by (by eapply section_frame).
    destruct (finish_sound _ _ _ _ _ _ _ _ _ Hg2 Hx2 Hxs H3 H4 H5) as (Hg & Hh & Hst & Hn & Ho).
    exists ((l ++ ls) ++ [terminal_id]). constructor; [done|done|by rewrite last_snoc|rewrite Hst, Hen; apply entry_dotted|].
    rewrite Ess. rewrite after_steps_next in Ho.
    assert (∀ u, exits a (after_steps plan) u = exits (arts_of t) (after_steps plan) u) as Hex by (intros; unfold exits; by rewrite Ht, Hf).
    apply (linked_finish (s :: ss) l _ t g1' g); [done|by apply (sd_nodup _ _ Hg1)|done|done| | |].
    + exists k. split; [done|]. intros u Hu. rewrite Ho, Hsame, Hex by (by apply Hk). done.
    + intros u n Hu. apply Hn. by apply Hk2.
    + intros u Hu. by rewrite Ho, Hsame, Hex.
Qed.

(** ** Transitions *)
Lemma next_serial other_equal branch w at_ g n r e :
  (∀ ed, ed ∈ outgoing g (node_ID n) → Parallel ed = false) →
  nextNodes other_equal branch w at_ g n r e =
  Some (if bool_decide (length (outgoing g (node_ID n)) = 0) || bool_decide (node_Type n = NodeTypeTerminal) then Ok EmptyString
        else match filter (λ ed, enabled r e ed = true) (outgoing g (node_ID n)) with
             | [] => Ok EmptyString
             | [ed] => Ok (To ed)
             | _ => Err (ErrFmt "ambiguous transitions from %s" [node_ID n])
             end, e).
Proof.
  intros Hp. unfold nextNodes. destruct (_ || _); [done|]. set (taken := filter (λ ed, enabled r e ed = true) _).
  assert (∀ ed, ed ∈ taken → Parallel ed = false) as Ht by (intros ed [_ Hed]%list_elem_of_filter; by apply Hp).
  assert (filter (λ ed, Parallel ed = true) taken = []) as ->.
  { destruct (filter (λ ed, Parallel ed = true) taken) as [|ed l] eqn:E; [done|].
    assert (ed ∈ filter (λ ed, Parallel ed = true) taken) as [Hed Hin]%list_elem_of_filter by (rewrite E; left).
    by rewrite (Ht ed Hin) in Hed. }
  rewrite (list_filter_all _ taken) by exact Ht. cbn. by destruct taken as [|ed [|]].
Qed.

Lemma sound_next other_equal branch w at_ order g n r e :
  sound order g → ∃ next, nextNodes other_equal branch w at_ g n r e = Some (Ok next, e).
Proof.
  intros Hg. rewrite next_serial by (intros ed Hed; by apply (sd_edges _ _ Hg) in Hed as [_ Hed]).
  destruct (_ || _); [by eexists|]. pose proof (sd_exclusive _ _ Hg (node_ID n) r e) as Hex.
  destruct (filter _ _) as [|ed [|]]; [by eexists..|]. cbn in Hex. lia.
Qed.

Lemma is_blank_id s part : contains_byte "."%char part = true → is_blank (node_of s part) = false.
Proof. intros Hp. apply dotted_not_blank. unfold node_of. by rewrite contains_byte_app, Hp, orb_true_r. Qed.

Lemma linked_lookup ss next g i s :
  linked ss next g → ss !! i = Some s →
  inner s g ∧ (pipelined s = false → nodes g !! node_of s ".execute" = Some (newNodeForStep run_step (node_of s ".execute") s)) ∧
  leads s (match ss !! S i with Some t => Some (entry (arts_of t)) | None => next end) g.
Proof.
  revert i. induction ss as [|s' ss IH]; intros i; [done|]. intros (Hi & Hn & Hr). destruct i as [|i]; cbn [lookup list_lookup].
  - intros [= ->]. split_and!; [done|done|]. destruct ss as [|t ss]; [exact Hr|apply Hr].
  - destruct ss as [|t ss]; [done|]. destruct Hr as [_ Hr]. intros Hs. by apply (IH i Hr).
Qed.

(** The step that a plain step hands over to. *)
Definition next_step (plan : ExecutionPlan) (i : nat) : string :=
  match Steps plan !! S i with Some t => entry (arts_of t) | None => after_steps plan end.

Lemma next_step_dotted plan i : contains_byte "."%char (next_step plan i) = true.
Proof.
  unfold next_step, after_steps. case_match; [apply entry_dotted|]. by destruct (Routes plan).
Qed.

Lemma exits_tail a next :
  is_blank (tail a) = false → is_blank next = false → fallback a ≠ tail a →
  exits a next (tail a) = [edge (tail a) next (Some successCondition)].
Proof.
  intros Ht Hn Hf. unfold exits. rewrite Ht, Hn, bool_decide_true by done. cbn.
  by rewrite (bool_decide_false (tail a = fallback a)), andb_false_r by done.
Qed.

Lemma exits_fallback a next :
  is_blank (fallback a) = false → is_blank next = false → fallback a ≠ tail a →
  exits a next (fallback a) = [edge (fallback a) next None].
Proof.
  intros Ht Hn Hf. unfold exits. rewrite Ht, Hn, (bool_decide_true (fallback a = fallback a)) by done.
  by rewrite bool_decide_false, andb_false_r by done.
Qed.

(** ** Graphs of plans *)
Section built.
Context (other_equal : V → V → bool) (grounded : bool) (plan : ExecutionPlan) (g : Graph).
Hypothesis Hbuild : BuildThoughtRecipeGraph view pred_value clock run_step run_stream grounded plan = Ok g.

Lemma graph_built : ∃ order, built_plan plan order g.
Proof.
  unfold BuildThoughtRecipeGraph in Hbuild. destruct (validateCaptureSinks _ _); [done|].
  destruct (plan_graph plan NewGraph) as [[x|err] g'] eqn:E; [|done]. injection Hbuild as <-. by eapply plan_sound.
Qed.

(** C9: a plan's graph is accepted and runs one way.  Its nodes can be listed in an
    order, from the start node to the terminal, in which every edge goes forward; no edge
    is a fan-out; validation accepts it; and whatever a node's result and the
    envelope, at most one transition is possible. *)
Theorem plan_graph_ordered :
  built g ∧ (Validate g).1 = None ∧
  (∃ order, NoDup order ∧ head order = Some (startNodeID g) ∧ last order = Some terminal_id ∧
     (∀ id, id ∈ order ↔ is_Some (nodes g !! id)) ∧
     ∀ u ed, ed ∈ outgoing g u → before order u (To ed) ∧ Parallel ed = false) ∧
  ∀ branch w at_ n r e, ∃ next, nextNodes other_equal branch w at_ g n r e = Some (Ok next, e).
Proof.
  destruct graph_built as (order & [Hg Hh Hl Hst _]). split_and!; [by apply Hg| | |].
  - pose proof (built_wf _ (sd_built _ _ Hg)) as Hwf. rewrite Validate_fresh, validation_None by done.
    split_and!; [by intros Heq; rewrite Heq in Hst| |apply Hg].
    apply (sd_nodes _ _ Hg). by apply head_Some_elem_of.
  - exists order. split_and!; [apply Hg|done|done|apply Hg|apply Hg].
  - intros. by apply (sound_next _ _ _ _ order).
Qed.

(** C10: the plan's own steps run in their order.  A plain step's node executes that
    step; after a success the next step is entered, or after the last one the first
    route or the terminal; after a failure of a known kind its fallback runs, if it has
    one, and then the next step whatever its result; after any other failure the run stops. *)
Theorem plan_transitions i s :
  Steps plan !! i = Some s → Kind (fields s) ≠ StepKindPipelineStage →
  nodes g !! node_of s ".execute" = Some (newNodeForStep run_step (node_of s ".execute") s) ∧
  (∀ branch w at_ n r e, node_ID n = node_of s ".execute" → node_Type n ≠ NodeTypeTerminal →
     nextNodes other_equal branch w at_ g n r e =
     Some (Ok (if r_Success r then next_step plan i
               else if failed_operationally r e && bool_decide (is_Some (Fallback (fields s))) then node_of s ".fallback"
               else EmptyString), e)) ∧
  (is_Some (Fallback (fields s)) →
   ∀ branch w at_ n r e, node_ID n = node_of s ".fallback" → node_Type n ≠ NodeTypeTerminal →
     nextNodes other_equal branch w at_ g n r e = Some (Ok (next_step plan i), e)).
Proof.
  intros Hs Hk. destruct graph_built as (order & [Hg _ _ _ Hli]).
  destruct (linked_lookup _ _ _ _ _ Hli Hs) as (_ & Hn & Hle).
  replace (match Steps plan !! S i with Some t => _ | None => _ end) with (Some (next_step plan i)) in Hle
    by (unfold next_step; by destruct (Steps plan !! S i)).
  assert (pipelined s = false) as Hp by (by apply bool_decide_eq_false).
  pose proof (dotted_not_blank _ (next_step_dotted plan i)) as Hnx. set (next := next_step plan i) in *. clearbody next.
  assert (∀ n ed, ed ∈ outgoing g (node_ID n) → Parallel ed = false) as Hser by (intros n ed Hed; by apply (sd_edges _ _ Hg) in Hed as [_ Hed]).
  pose proof (is_blank_id s ".execute" eq_refl) as Hbe. pose proof (is_blank_id s ".fallback" eq_refl) as Hbf.
  unfold leads, arts_of, own_edges in Hle. rewrite Hp in Hle. cbn [tail fallback] in Hle. destruct Hle as [Hout Hfb].
  split_and!; [by apply Hn| |].
  - intros branch w at_ n r e Hid Hty. rewrite next_serial by apply Hser. rewrite Hid, Hout, (bool_decide_false (node_Type n = _)) by done.
    destruct (Fallback (fields s)) as [fb|].
    + destruct Hfb as [Hfb|[Hne _]]; [by rewrite Hfb in Hbf|].
      rewrite exits_tail by done. cbn [tail app length]. rewrite (bool_decide_true (is_Some (Some fb))), andb_true_r by done.
      assert (r_Success r = true → failed_operationally r e = false) as Hex
        by (unfold failed_operationally, operationalFailureClass; by intros ->).
      rewrite !filter_cons, filter_nil. cbn [enabled Condition edge]. unfold successCondition.
      by destruct (r_Success r), (failed_operationally r e); try (by specialize (Hex eq_refl)).
    + rewrite exits_tail by first [done|intros Heq; cbn [tail fallback] in Heq; by rewrite <- Heq in Hbe]. cbn [tail app length].
      rewrite filter_cons, filter_nil. cbn [enabled Condition edge]. unfold successCondition.
      rewrite (bool_decide_false (is_Some None)), andb_false_r by (by intros []). by destruct (r_Success r).
  - intros [fb Hf] branch w at_ n r e Hid Hty. rewrite Hf in Hfb. rewrite next_serial by apply Hser.
    destruct Hfb as [Hfb|[Hne Hfo]]; [by rewrite Hfb in Hbf|].
    rewrite Hid, Hfo, (bool_decide_false (node_Type n = _)) by done.
    rewrite Hf in *. set (a := {| entry := _ |}) in *. change (node_of s ".fallback") with (fallback a).
    rewrite exits_fallback by done. cbn. done.
Qed.
End built.

(** ** Runs *)
Lemma run_loop_once other_equal order w : ∀ fuel path k last l1 l2 current e g,
  NoDup order → keyed g → (∀ u ed, ed ∈ outgoing g u → before order u (To ed) ∧ Parallel ed = false) →
  (current = EmptyString ∧ executionPath g `sublist_of` order ∧ 0 < fuel ∨
   order = l1 ++ current :: l2 ∧ executionPath g `sublist_of` l1 ∧ length l2 + 1 < fuel) →
  ∃ r e' g', run_loop other_equal fuel w path k last current e g = Some (r, e', g') ∧ executionPath g' `sublist_of` order.
Proof.
  induction fuel as [|fuel IH]; intros path k last l1 l2 current e g Hnd Hk He Hc; [destruct Hc as [?|?]; lia|].
  cbn [run_loop]. case_bool_decide as Hcur.
  { exists (Ok last), e, g. split; [done|]. destruct Hc as [(_ & ? & _)|(-> & Hp & _)]; [done|].
    by apply sublist_inserts_r. }
  destruct Hc as [[? _]|(-> & Hp & Hfuel)]; [done|].
  assert (executionPath g ++ [current] `sublist_of` l1 ++ current :: l2) as Hsnoc.
  { apply sublist_app; [done|]. apply singleton_sublist_l. left. }
  destruct (visit w _ current e g) as [[[r1 e1] g1]|[[[n r1] e1] g1]] eqn:Ev.
  - exists r1, e1, g1. split; [done|]. apply visit_inl in Ev as [_ [->|[-> _]]]; [by apply sublist_inserts_r|done].
  - apply visit_inr in Ev as (Hn & _ & Hf & _ & Hpath & _). pose proof (Hk _ _ Hn) as Hid.
    assert (∀ u, outgoing g1 u = outgoing g u) as Ho by (intros u; by apply frozen_outgoing).
    rewrite next_serial by (intros ed; rewrite Ho; intros Hed; by apply He in Hed as [_ Hed]). cbn [mbind option_bind].
    set (res := if _ || _ then _ else _). destruct res as [next|err] eqn:Er; [|by exists (Err err), e1, g1; rewrite Hpath].
    assert (next = EmptyString ∨ ∃ ed, ed ∈ outgoing g current ∧ To ed = next) as Hnext.
    { revert Er. unfold res. destruct (_ || _); [intros [= <-]; by left|].
      destruct (filter _ _) as [|ed [|]] eqn:Ef; [intros [= <-]; by left|intros [= <-]; right|done].
      exists ed. split; [|done]. assert (ed ∈ filter (λ ed, enabled r1 e1 ed = true) (outgoing g1 (node_ID n))) as Hin by (rewrite Ef; left).
      apply list_elem_of_filter in Hin as [_ Hin]. by rewrite Ho, Hid in Hin. }
    destruct Hnext as [->|(ed & Hed & <-)].
    + apply (IH _ _ _ l1 l2); [done|by eapply keyed_frozen|intros u ed; rewrite Ho; apply He|]. left. rewrite Hpath. split_and!; [done|done|lia].
    + destruct (He _ _ Hed) as [Hb _]. apply before_rest in Hb; [|done]. apply list_elem_of_split in Hb as (a & b & ->).
      apply (IH _ _ _ (l1 ++ current :: a) b); [done|by eapply keyed_frozen|intros u ed'; rewrite Ho; apply He|]. right.
      rewrite <- app_assoc. split_and!; [done| |rewrite length_app in Hfuel; cbn in Hfuel; lia].
      rewrite Hpath. apply sublist_app; [done|]. apply singleton_sublist_l. left.
Qed.

Lemma order_size order g : sound order g → length order = size (nodes g).
Proof.
  intros Hg. rewrite <- length_map_to_list, <- (length_fmap fst). apply Permutation_length, NoDup_Permutation; [apply Hg|apply NoDup_fst_map_to_list|].
  intros id. rewrite (sd_nodes _ _ Hg), list_elem_of_fmap. split.
  - intros [n Hn]. exists (id, n). split; [done|]. by apply elem_of_map_to_list.
  - intros ([id' n] & -> & Hn%elem_of_map_to_list). by exists n.
Qed.

(** C11: every run of a plan's graph ends, and executes no node twice.  Fuel one more
    than the number of nodes is enough, whatever the steps do and however the run
    is cancelled or its barriers fail. *)
Theorem plan_run_once other_equal grounded plan g fuel w e :
  BuildThoughtRecipeGraph view pred_value clock run_step run_stream grounded plan = Ok g →
  size (nodes g) < fuel →
  ∃ r e' g', Execute other_equal fuel w e g = Some (r, e', g') ∧ NoDup (executionPath g').
Proof.
  intros (order & [Hg Hh _ Hst _])%graph_built Hfuel. unfold Execute.
  set (now := w_now w _). destruct (prepare_frozen now g) as (Hf & Hp & _).
  destruct (prepare now g) as [[err|] g1]; cbn [fst snd] in *.
  { exists (Err err), e, g1. split; [done|]. rewrite Hp, (sd_path _ _ Hg). constructor. }
  pose proof Hf as [= Hfn Hfc Hfe Hfs Hfm]. rewrite Hfs, bool_decide_false by (intros Heq; by rewrite Heq in Hst).
  set (w' := {| w_coordinator := _ |}). destruct order as [|start l2]; [done|]. injection Hh as ->.
  destruct (run_loop_once other_equal (startNodeID g :: l2) w' fuel [] 0 None [] l2 (startNodeID g) e (with_visits ∅ [] g1)) as (r & e' & g' & Hrun & Hsub).
  - apply (sd_nodup _ _ Hg).
  - intros id n. cbn. rewrite Hfn. apply (built_wf _ (sd_built _ _ Hg)).
  - intros u ed. change (outgoing (with_visits ∅ [] g1) u) with (outgoing g1 u). rewrite (frozen_outgoing g1 g u Hf). apply Hg.
  - right. split_and!; [done|done|]. rewrite <- (order_size _ _ Hg) in Hfuel. cbn in Hfuel. lia.
  - unfold run. rewrite Hrun. cbn [mbind option_bind].
    assert (NoDup (executionPath g')) as Hnd by (eapply sublist_NoDup; [apply (sd_nodup _ _ Hg)|done]).
    destruct (negb (w_coordinator w) && grounder g1); eauto.
Qed.
End safety.
