(* ===== verification/RecipeFrontExamples.v ===== *)
(** * The recipe front end: concrete recipes

    Recipes taken from their source text to the resolved document, the witnesses of the
    properties of the passes, and what modelling showed of them. *)
From S2P Require Import Prelude Envelope EnvelopeMerge ContextStream Epoch Placement Graph GraphInv GraphSafety GraphExamples.
From S2P Require Import GoStrings Policy Selector GoLoop RecipeLexer RecipeAst RecipeParser RecipeExamples.
From S2P Require Import RecipeNames RecipeTypeSystem RecipeVocabulary RecipeVocabularySafety Paradigm ParadigmContracts RecipeDirectives RecipeContracts RecipeContractsSafety.
From S2P Require Import RecipeSemantic RecipeSemanticSafety RecipePlan RecipeLowering RecipeLoweringSafety RecipeGraph RecipeGraphSafety.

Local Open Scope Z_scope.

(** ** Types *)
Definition named (n : string) : TypeExpr :=
  NamedTypeExpr zero_span {| path_Span := zero_span; path_Raw := n; Parts := [] |}.
Definition review_types : TypeSystem := {| ts_Document := {| SourcePath := EmptyString; doc_Name := "r";
  doc_Header := {| hd_Span := zero_span; hd_Name := {| id_Span := zero_span; id_Value := "r" |}; Description := None |};
  Declarations := [] |}; declared_types := {["Review"]} |}.
Definition expected_type : TypeExpr := ListTypeExpr zero_span (named "Review").
Definition actual_type : TypeExpr := ListTypeExpr (NewSpan "other" 1 1 1 1) (named " Review ").

Lemma compatible_exact_witness :
  OK (Compatible review_types expected_type actual_type) = true ↔
  validateTypeExpr review_types expected_type false = None ∧ validateTypeExpr review_types actual_type false = None ∧
  shape expected_type = shape actual_type.
Proof. apply (compatible_exact review_types expected_type actual_type); vm_compute; reflexivity. Defined.

(** ** A catalog *)
Definition descriptor (id category : string) (effects : list string) : CapabilityDescriptor :=
  {| desc_ID := id; desc_Kind := "tool"; desc_RuntimeFamily := "builtin"; desc_Name := id; desc_Tags := [];
     desc_Source := {| src_ProviderID := EmptyString; src_Scope := EmptyString; src_SessionID := EmptyString |};
     desc_TrustClass := EmptyString; desc_EffectClasses := effects;
     desc_SessionAffinity := EmptyString; desc_Coordination := None; desc_Category := category; desc_Annotations := ∅ |}.
Definition catalog : ToolVocabularyLookup :=
  {| GetCapability := λ n,
       if bool_decide (n ∈ ["grep"; "tool:grep"]) then Some (descriptor "tool:grep" "search" [])
       else if bool_decide (n = "euclo:cap.code_review") then Some (descriptor n "review" [])
       else if bool_decide (n = "euclo:cap.apply_patch") then Some (descriptor n "patch" [])
       else None;
     CallableCapabilityNames := ["grep"]; ModelCallableToolNames := Some ["grep"] |}.

Lemma step_view_exact_witness :
  step_allows "s" (AllowTools ["grep"]) catalog "tool:grep" = Ok true ∧ "tool:grep" ≠ KeyDenyAll ∧
  ((IsDenyAll (AllowTools ["grep"]) = true → true = false) ∧
   (IsDenyAll (AllowTools ["grep"]) = false → allowAll (AllowTools ["grep"]) = false →
    allowed (AllowTools ["grep"]) ≠ [] → (true = true ↔ names_id (AllowTools ["grep"]) catalog "tool:grep"))).
Proof.
  split; [reflexivity|]. split; [done|].
  apply (step_view_exact "s" (AllowTools ["grep"]) catalog true "tool:grep"); [reflexivity|done].
Defined.

(** ** A recipe *)
Definition registries : Registries :=
  {| capability := Some catalog; prompts := Some (λ n, bool_decide (n = "review.deep")); recipes := None;
     paradigms := default NewContractRegistry (init_all contracts NewContractRegistry) |}.

Definition review_recipe : string := lines
  ["thoughtrecipe euclo.review";
   quoted "Reviews a change.";
   EmptyString;
   "trigger as capability:";
   "  may read workspace";
   "  may invoke [" +:+ quoted " grep " +:+ "]";
   EmptyString;
   "import prompt review.deep as deep";
   "input change: user.request";
   "agent reviewer uses react";
   EmptyString;
   "run reviewer:";
   "  from input.change";
   "  goal prompt deep";
   "  until 3";
   "  do relurpic:code_review on input.change";
   "  capture:";
   "    result: Markdown -> output.result"].

Definition parsed (s : string) : Document :=
  match ParseSource "r.euclo" s with Some (Ok d) => d | _ => ts_Document review_types end.
Definition same_order (l : list (string * Import)) : list (string * Import) := l.

Definition resolve (s : string) : result (Document * SymbolTable) := Resolve registries same_order (parsed s).
Definition is_ok {A} (r : result A) : bool := match r with Ok _ => true | Err _ => false end.
Definition resolved_review : Document * SymbolTable :=
  match resolve review_recipe with Ok p => p | Err _ => (parsed review_recipe, NewSymbolTable) end.

Lemma review_resolved : Resolve registries same_order (parsed review_recipe) = Ok (resolved_review.1, resolved_review.2).
Proof. vm_compute. reflexivity. Qed.


Lemma shipped_contracts_witness :
  ∃ r, init_all (rev contracts) NewContractRegistry = Some r ∧
    (∀ name c, Lookup r name = Some c ↔ c ∈ contracts ∧ Paradigm c = trim_space name) ∧
    (∀ name, is_Some (Lookup r name) ↔ IsSupported (trim_space name) = true).
Proof. apply (shipped_contracts (rev contracts)). symmetry. apply Permutation_rev. Defined.

(** ** Findings *)

(** A capability-limited recipe may ask the user without declaring it, when the question is
    asked inside another block. *)
Definition ask_recipe (nested : bool) : string := lines (
  ["thoughtrecipe euclo.ask"; "trigger as capability:"; "  may read workspace"; EmptyString] ++
  if nested then
    ["route:"; "  otherwise:"; "    ask user:"; "      question " +:+ quoted "Go on?"]
  else ["ask user:"; "  question " +:+ quoted "Go on?"]).

Example nested_ask_allowed :
  is_ok (resolve (ask_recipe false)) = false ∧ is_ok (resolve (ask_recipe true)) = true.
Proof. split; vm_compute; reflexivity. Qed.

(** The rules of a block are not checked on a block inside a revise body: there, a planner's
    step needs no plan. *)
Definition step_without_plan (nested : bool) : string := lines (
  ["thoughtrecipe euclo.steps"; "trigger as intent:"; "  may read workspace";
   "agent reviewer uses reflection"; "agent planned uses planner"; EmptyString] ++
  if nested then
    ["run reviewer:"; "  review " +:+ quoted "Check."; "  revise when scratch.review contains issues:";
     "    run planned:"; "      step " +:+ quoted "A" +:+ ":"; "        do relurpic:code_review"]
  else ["run planned:"; "  step " +:+ quoted "A" +:+ ":"; "    do relurpic:code_review"]).

Example nested_block_unchecked :
  length (ValidateAgainstContracts (parsed (step_without_plan false)) (paradigms registries)) = 1%nat ∧
  ValidateAgainstContracts (parsed (step_without_plan true)) (paradigms registries) = [] ∧
  is_ok (resolve (step_without_plan true)) = true.
Proof. split_and!; vm_compute; reflexivity. Qed.

(** The declared number of text arguments is not checked: a [plan] takes one, and none or two
    are accepted. *)
Definition plan_use (texts : list string) : contractDirectiveUse :=
  {| use_name := "plan"; use_span := zero_span; use_block := false; use_predicate := false;
     use_textArgs := texts; nested := [] |}.
Example text_card_unchecked :
  (spec_Text <$> Directive planner_contract "plan") = Some "one" ∧
  validateDirectiveUse (plan_use []) planner_contract = [] ∧
  validateDirectiveUse (plan_use ["a"; "b"]) planner_contract = [].
Proof. split_and!; vm_compute; reflexivity. Qed.

(** ** Execution plans: concrete recipes

    Recipes compiled from their source text, the witnesses of the properties of lowering,
    and what modelling showed of it. *)
Local Open Scope Z_scope.

Definition header : list string :=
  ["thoughtrecipe euclo.plan"; "trigger as intent:"; "  may read workspace";
   "  may invoke [" +:+ quoted "grep" +:+ "]"; "agent reviewer uses reflection"; "agent writer uses react"; EmptyString].

Definition compile (body : list string) : result ExecutionPlan :=
  let! p := resolve (lines (header ++ body)) in LowerDocumentWithRegistry p.1 (Some catalog).
Definition document_of (body : list string) : Document :=
  match resolve (lines (header ++ body)) with Ok p => p.1 | Err _ => parsed (lines header) end.
Definition empty_plan : ExecutionPlan :=
  {| plan_Recipe := {| tr_ID := EmptyString; tr_Name := EmptyString; tr_Description := EmptyString; tr_RouteKind := EmptyString;
                       tr_MetaName := EmptyString; tr_Metadata := no_associations |};
     plan_Agents := ∅; plan_ToolScopes := []; Steps := []; Routes := []; Pipelines := []; Warnings := []; plan_RouteKind := EmptyString |}.
Definition plan_of (body : list string) : ExecutionPlan := match compile body with Ok p => p | Err _ => empty_plan end.

(** ** A plan *)
Definition routed : list string :=
  ["run writer:";
   "  goal " +:+ quoted "Write.";
   "route:";
   "  when scratch.a is missing:";
   "    route:";
   "      otherwise:";
   "        run writer:";
   "          goal " +:+ quoted "Inner.";
   "  otherwise:";
   "    run reviewer:";
   "      may invoke [" +:+ quoted "tool:grep" +:+ "]";
   "      goal " +:+ quoted "Outer.";
   "run writer:";
   "  goal " +:+ quoted "Last."].


Lemma route_loop_flattens_witness :
  (turns [RunDecl zero_span {| id_Span := zero_span; id_Value := "writer" |} []] ≤ 2)%nat ∧
  is_Some (route_loop (plan_Agents (plan_of routed)) [] None 2 [[RunDecl zero_span {| id_Span := zero_span; id_Value := "writer" |} []]] [] no_plan).
Proof.
  split; [vm_compute; lia|].
  rewrite (route_loop_flattens (plan_Agents (plan_of routed)) [] None [RunDecl zero_span {| id_Span := zero_span; id_Value := "writer" |} []] 2 no_plan);
    [eexists; reflexivity|vm_compute; lia].
Defined.

(** ** The order of a plan *)
Definition goals_of (ss : list ExecutionStep) : list string := (λ s, Goal (fields s)) <$> ss.

(** The block after the route is run before it, and the inner route before the outer. *)
Example blocks_before_routes :
  goals_of (Steps (plan_of routed)) = ["Write."; "Last."] ∧
  (goals_of ∘ route_steps) <$> Routes (plan_of routed) = [["Inner."]; ["Outer."]].
Proof. split; vm_compute; reflexivity. Qed.

(** ** Blocks inside blocks *)

(** A delegation inside a run block is accepted and leaves no step. *)
Example nested_block_is_dropped :
  let p := plan_of ["run writer:"; "  goal " +:+ quoted "Write."; "  delegate to reviewer:"; "    goal " +:+ quoted "Check."] in
  goals_of (top_steps p) = ["Write."] ∧ (step_bodies <$> top_steps p) = [[[]]] ∧ Warnings p = [].
Proof. vm_compute. repeat split. Qed.

(** ** The tools of a revise body *)
Definition revised_recipe : list string :=
  ["run reviewer:"; "  goal " +:+ quoted "Review."; "  review correctness"; "  revise when scratch.a is missing:";
   "    run writer:"; "      may invoke [" +:+ quoted "tool:grep" +:+ "]"; "      goal " +:+ quoted "Fix."].

(** The body is granted a tool that the step was not. *)
Example revise_body_widens_scope :
  (λ s, (allowed (Scope (fields s)), (λ b, allowed (Scope (fields b))) <$> ReviseBody s)) <$> Steps (plan_of revised_recipe) =
  [(["grep"], [["grep"; "tool:grep"]])].
Proof. vm_compute. reflexivity. Qed.

(** ** Graphs of plans

    The graphs that concrete recipes build, and runs of them in which every step succeeds. *)
Definition no_step (id : string) (s : ExecutionStep) (at_ : moment) (e : Envelope unit)
    : result (option (Result unit)) * Envelope unit := (Ok None, e).
Definition no_stream (id : string) (spec : StreamSpec) (at_ : moment) (e : Envelope unit)
    : result (option (Result unit)) * Envelope unit := (Ok None, e).
Abbreviation build_graph :=
  (BuildThoughtRecipeGraph (λ _ : unit, ViewNil) (λ _, tt) (λ _, zero_time) no_step no_stream).
Definition graph_of (body : list string) : Graph unit :=
  match build_graph true (plan_of body) with Ok g => g | Err _ => NewGraph end.
Definition run_of (fuel : nat) (body : list string) : option (outcome (V := unit)) :=
  Execute same fuel quiet parent0 (graph_of body).
Definition path_of (body : list string) : list string :=
  match run_of 40 body with Some (_, _, g) => executionPath g | None => [] end.

Definition plain_recipe : list string :=
  ["run writer:"; "  goal " +:+ quoted "Write."; "run reviewer:"; "  goal " +:+ quoted "Review."].

Lemma plain_builds : build_graph true (plan_of plain_recipe) = Ok (graph_of plain_recipe).
Proof.
  assert (is_ok (build_graph true (plan_of plain_recipe)) = true) as H by (vm_compute; reflexivity).
  unfold graph_of. by destruct (build_graph true (plan_of plain_recipe)).
Qed.

Lemma plan_graph_ordered_witness :
  build_graph true (plan_of plain_recipe) = Ok (graph_of plain_recipe) ∧
  (Validate (graph_of plain_recipe)).1 = None.
Proof.
  split; [exact plain_builds|].
  apply (plan_graph_ordered (λ _, ViewNil) (λ _, tt) (λ _, zero_time) no_step no_stream same true (plan_of plain_recipe)
           (graph_of plain_recipe) plain_builds).
Defined.

Lemma plan_run_once_witness :
  size (nodes (graph_of plain_recipe)) = 3%nat ∧
  ∃ r e' g', Execute same 4 quiet parent0 (graph_of plain_recipe) = Some (r, e', g') ∧ NoDup (executionPath g').
Proof.
  split; [vm_compute; reflexivity|].
  apply (plan_run_once (λ _, ViewNil) (λ _, tt) (λ _, zero_time) no_step no_stream same true (plan_of plain_recipe) (graph_of plain_recipe) 4 quiet parent0);
    [exact plain_builds|vm_compute; lia].
Defined.

Lemma plan_transitions_witness :
  ∃ s, Steps (plan_of plain_recipe) !! 0%nat = Some s ∧ Kind (fields s) ≠ StepKindPipelineStage ∧
    next_step (plan_of plain_recipe) 0 = "run.10.5.reviewer.1.execute" ∧
    nodes (graph_of plain_recipe) !! node_of s ".execute" = Some (newNodeForStep no_step (node_of s ".execute") s).
Proof.
  destruct (Steps (plan_of plain_recipe) !! 0%nat) as [s|] eqn:E; [|vm_compute in E; discriminate E].
  assert (Kind (fields s) ≠ StepKindPipelineStage) as Hk.
  { assert ((λ s, Kind (fields s)) <$> Steps (plan_of plain_recipe) !! 0%nat = Some StepKindRun) as Hr by (vm_compute; reflexivity).
    rewrite E in Hr. injection Hr as Hr. by rewrite Hr. }
  exists s. split; [reflexivity|]. split; [exact Hk|]. split; [vm_compute; reflexivity|].
  apply (plan_transitions (λ _, ViewNil) (λ _, tt) (λ _, zero_time) no_step no_stream same true (plan_of plain_recipe) (graph_of plain_recipe) plain_builds 0%nat s E Hk).
Defined.

Example plain_path : path_of plain_recipe = ["run.8.5.writer.0.execute"; "run.10.5.reviewer.1.execute"; terminal_id].
Proof. vm_compute. reflexivity. Qed.

(** ** A route without otherwise

    The route's last node is its no-match node.  When no branch matches, the run stops there
    (the warning of lowering says that unmatched input becomes a no-op); when a branch
    matches, the run ends at the join, which leads nowhere. *)
Definition partial_route (predicate : string) : list string :=
  ["route:"; "  when " +:+ predicate +:+ ":"; "    run writer:"; "      goal " +:+ quoted "Inner.";
   "route:"; "  otherwise:"; "    run reviewer:"; "      goal " +:+ quoted "Last."].

Example unmatched_route_stops :
  path_of (partial_route "present scratch.a") =
    ["euclo.execution.group.route.8.1.route"; "euclo.execution.group.route.8.1.branch.0"; "euclo.execution.group.route.8.1.no-match"] ∧
  warn_Message <$> Warnings (plan_of (partial_route "present scratch.a")) =
    ["route has no otherwise branch; unmatched input becomes a no-op"].
Proof. split; vm_compute; reflexivity. Qed.

Example matched_route_ends_the_run :
  path_of (partial_route "missing scratch.a") =
    ["euclo.execution.group.route.8.1.route"; "euclo.execution.group.route.8.1.branch.0";
     "run.10.9.writer.0.execute"; "euclo.execution.group.route.8.1.join"].
Proof. vm_compute. reflexivity. Qed.

(** ** Captures of nested steps *)

(** A capture without a grounding boundary is refused, but not inside a pipeline. *)
Definition capture_recipe (piped : bool) : list string :=
  let block i := (λ l, i +:+ l) <$> ["run writer:"; "  goal " +:+ quoted "Write."; "  capture:"; "    result: Markdown -> output.result"] in
  if piped then ["pipeline:"; "  stage one:"] ++ block "    " else block EmptyString.

Example nested_capture_accepted :
  is_ok (build_graph false (plan_of (capture_recipe false))) = false ∧
  is_ok (build_graph false (plan_of (capture_recipe true))) = true.
Proof. split; vm_compute; reflexivity. Qed.
