(* ===== verification/KnowledgeKeys.v ===== *)
(** * KnowledgeKeys

    The keys of the durable knowledge graph ([context/knowledge/graphdb/kv_key.go]): a key
    is the list of its segments, each behind its length as a 32-bit little-endian integer.

    A segment of 4 GiB or more panics in the code; the lemmas assume shorter ones
    ([short]).  Empty segments are dropped. *)
From S2P Require Import Prelude GoStrings.

(** ** Bytes of integers *)

(** [binary.LittleEndian.AppendUint32] and [binary.BigEndian.AppendUint64]. *)
Fixpoint le_bytes (n : nat) (z : N) : string :=
  match n with O => EmptyString | S n' => String (ascii_of_N (z mod 256)) (le_bytes n' (z / 256)) end.
Fixpoint le_value (s : string) : N :=
  match s with EmptyString => 0 | String a s' => N_of_ascii a + 256 * le_value s' end.
Fixpoint big_bytes (n : nat) (z : N) : string :=
  match n with O => EmptyString | S n' => big_bytes n' (z / 256) +:+ String (ascii_of_N (z mod 256)) EmptyString end.

Definition le32 (z : N) : string := le_bytes 4 z.
Definition be64 (z : N) : string := big_bytes 8 z.

(** ** Keys *)
Definition safeSegmentLen (s : string) : N := N.of_nat (String.length s).

Fixpoint encodeKey (segments : list string) : string :=
  match segments with
  | [] => EmptyString
  | EmptyString :: rest => encodeKey rest
  | s :: rest => le32 (safeSegmentLen s) +:+ s +:+ encodeKey rest
  end.

Definition errMalformedKey : gerror := ErrSentinel "graphdb: malformed key".
Definition malformed (io : string) : gerror := ErrWrap io errMalformedKey.

(** [io.ReadFull] of [n] bytes: the bytes and what is left. *)
Definition read_full (n : nat) (s : string) : result (string * string) :=
  if decide (n ≤ String.length s)%nat then Ok (str_take n s, str_drop n s)
  else Err (malformed (match s with EmptyString => "EOF" | _ => "unexpected EOF" end)).

Fixpoint decode_fuel (fuel : nat) (s : string) : result (list string) :=
  match s, fuel with
  | EmptyString, _ | _, O => Ok []
  | _, S fuel =>
      let! (hdr, s) := read_full 4 s in
      let! (raw, s) := read_full (N.to_nat (le_value hdr)) s in
      let! segs := decode_fuel fuel s in
      Ok (raw :: segs)
  end.
Definition decodeKey (data : string) : result (list string) := decode_fuel (String.length data) data.

Definition keyPrefix (segments : list string) : string := encodeKey segments.

(** ** Families *)
Definition famMeta : string := "meta".
Definition famNode : string := "node".
Definition famNodeKind : string := "node_kind".
Definition famNodeSource : string := "node_source".
Definition famNodeLabel : string := "node_label".
Definition famNodePath : string := "node_path".
Definition famNodeHash : string := "node_hash".
Definition famNodeMedia : string := "node_media".
Definition famNodeStable : string := "node_stable".
Definition famEdgeOut : string := "edge_out".
Definition famEdgeIn : string := "edge_in".
Definition famEdgeStable : string := "edge_stable".
Definition famHistoryNode : string := "history_node".
Definition famHistoryEdge : string := "history_edge".
Definition famMutation : string := "mutation".

Definition keyNodeByID (id : string) : string := encodeKey [famNode; id].
Definition keyNodeByKind (kind id : string) : string := encodeKey [famNodeKind; kind; id].
Definition keyNodeBySource (sourceID id : string) : string := encodeKey [famNodeSource; sourceID; id].
Definition keyNodeByLabel (label id : string) : string := encodeKey [famNodeLabel; label; id].
Definition keyNodeByPath (path id : string) : string := encodeKey [famNodePath; path; id].
Definition keyNodeByHash (hash id : string) : string := encodeKey [famNodeHash; hash; id].
Definition keyNodeByMedia (mediaType id : string) : string := encodeKey [famNodeMedia; mediaType; id].
Definition keyNodeByStable (stableID id : string) : string := encodeKey [famNodeStable; stableID; id].
Definition keyEdgeOut (sourceID kind targetID : string) : string := encodeKey [famEdgeOut; sourceID; kind; targetID].
Definition keyEdgeIn (targetID kind sourceID : string) : string := encodeKey [famEdgeIn; targetID; kind; sourceID].
Definition keyEdgeByStable (stableID sourceID targetID kind : string) : string :=
  encodeKey [famEdgeStable; stableID; sourceID; kind; targetID].
Definition keyMutationByStable (stableID : string) : string := encodeKey [famMutation; stableID].

Definition safeTimestamp (ts : Z) : N := if (ts <? 0)%Z then 0 else Z.to_N ts.
Definition keyNodeHistory (id : string) (timestamp : Z) (seq : N) : string :=
  encodeKey [famHistoryNode; id] +:+ be64 (safeTimestamp timestamp) +:+ be64 seq.
Definition keyEdgeHistory (sourceID kind targetID : string) (timestamp : Z) (seq : N) : string :=
  encodeKey [famHistoryEdge; sourceID; kind; targetID] +:+ be64 (safeTimestamp timestamp) +:+ be64 seq.

(** ** Encoding and decoding *)
Definition short (s : string) : Prop := (safeSegmentLen s < 2 ^ 32)%N.
Definition segment (s : string) : Prop := s ≠ EmptyString ∧ short s.

Lemma le_value_bytes n : ∀ z, (z < 256 ^ N.of_nat n)%N → le_value (le_bytes n z) = z.
Proof.
  induction n as [|n IH]; intros z Hz; cbn [le_bytes le_value]; [cbn in Hz; lia|].
  rewrite N_ascii_embedding by (apply N.mod_lt; done). rewrite IH.
  - pose proof (N.div_mod z 256). lia.
  - apply N.Div0.div_lt_upper_bound. rewrite Nat2N.inj_succ, N.pow_succ_r' in Hz. lia.
Qed.

Lemma le_bytes_length n z : String.length (le_bytes n z) = n.
Proof. revert z; induction n as [|n IH]; intros z; cbn; [done|]. by rewrite IH. Qed.

Lemma read_full_app p t : read_full (String.length p) (p +:+ t) = Ok (p, t).
Proof.
  unfold read_full. rewrite decide_True by (rewrite str_length_app; lia). by rewrite str_take_app, str_drop_app.
Qed.

Lemma encode_cons s segs : s ≠ EmptyString → encodeKey (s :: segs) = le32 (safeSegmentLen s) +:+ s +:+ encodeKey segs.
Proof. by destruct s. Qed.

Lemma encode_app a b : encodeKey (a ++ b) = encodeKey a +:+ encodeKey b.
Proof.
  induction a as [|s a IH]; [done|]. cbn [app]. destruct s as [|c s]; [exact IH|].
  rewrite !encode_cons by done. by rewrite IH, !str_app_assoc.
Qed.

Lemma decode_encode_fuel segs : Forall short segs → ∀ fuel, (length segs ≤ fuel)%nat →
  decode_fuel fuel (encodeKey segs) = Ok (filter (λ s, s ≠ EmptyString) segs).
Proof.
  induction 1 as [|s segs Hs _ IH]; intros fuel Hfuel; [by destruct fuel|].
  destruct s as [|c s]; [rewrite filter_cons_False by (intros Hc; by apply Hc); apply IH; cbn in Hfuel; lia|].
  rewrite encode_cons by done. rewrite filter_cons_True by done. cbn [length] in Hfuel.
  destruct fuel as [|fuel]; [lia|]. set (hdr := le32 (safeSegmentLen (String c s))).
  assert (decode_fuel (S fuel) (hdr +:+ String c s +:+ encodeKey segs) =
    let! (h, u) := read_full 4 (hdr +:+ String c s +:+ encodeKey segs) in
    let! (raw, u) := read_full (N.to_nat (le_value h)) u in
    let! rest := decode_fuel fuel u in Ok (raw :: rest)) as -> by reflexivity.
  rewrite (read_full_app hdr). cbn [rbind].
  unfold hdr, le32. rewrite le_value_bytes by exact Hs. unfold safeSegmentLen. rewrite Nat2N.id, read_full_app. cbn [rbind].
  by rewrite IH by lia.
Qed.

Lemma encode_length segs : (length (filter (λ s, s ≠ EmptyString) segs) ≤ String.length (encodeKey segs))%nat.
Proof.
  induction segs as [|s segs IH]; [done|]. destruct s as [|c s]; [by rewrite filter_cons_False by (intros Hc; by apply Hc)|].
  rewrite filter_cons_True, encode_cons by done. rewrite !str_length_app. unfold le32. rewrite le_bytes_length. cbn [length]. lia.
Qed.

Lemma encode_nonempty segs : encodeKey segs = encodeKey (filter (λ s, s ≠ EmptyString) segs).
Proof.
  induction segs as [|s segs IH]; [done|]. destruct s as [|c s]; [by rewrite filter_cons_False by (intros Hc; by apply Hc)|].
  rewrite filter_cons_True by done. by rewrite !encode_cons, IH by done.
Qed.

(** C16: Decoding an encoded key gives back its segments, the empty ones left out. *)
Theorem decode_encode segs : Forall short segs → decodeKey (encodeKey segs) = Ok (filter (λ s, s ≠ EmptyString) segs).
Proof.
  intros Hs. rewrite encode_nonempty. unfold decodeKey.
  assert (Forall short (filter (λ s, s ≠ EmptyString) segs)) as Hs'.
  { apply Forall_forall. intros x [_ Hx]%list_elem_of_filter. rewrite Forall_forall in Hs. auto. }
  rewrite decode_encode_fuel; [|done|].
  - f_equal. apply list_filter_all. intros x [Hx _]%list_elem_of_filter. exact Hx.
  - rewrite <- encode_nonempty. apply encode_length.
Qed.

(** ** Segments that are not empty *)
Lemma le32_inj a b : (a < 2 ^ 32)%N → (b < 2 ^ 32)%N → le32 a = le32 b → a = b.
Proof.
  intros Ha Hb E. rewrite <- (le_value_bytes 4 a), <- (le_value_bytes 4 b) by done. unfold le32 in E. by rewrite E.
Qed.

(** A segment is read off the front of a key in one way. *)
Lemma segment_front s t u v : short s → short t →
  le32 (safeSegmentLen s) +:+ s +:+ u = le32 (safeSegmentLen t) +:+ t +:+ v → s = t ∧ u = v.
Proof.
  intros Hs Ht E. apply str_app_inj_length in E as [E1 E2]; [|unfold le32; by rewrite !le_bytes_length].
  apply le32_inj in E1; [|done..]. unfold safeSegmentLen in E1. apply Nat2N.inj in E1. by apply str_app_inj_length.
Qed.

Lemma encode_prefix p k : Forall segment p → Forall segment k →
  has_prefix (encodeKey p) (encodeKey k) = true ↔ p `prefix_of` k.
Proof.
  intros Hp. rewrite has_prefix_spec. revert k. induction Hp as [|s p [Hs Hss] _ IH]; intros k Hk.
  { split; [intros _; apply prefix_nil|]. intros _. by exists (encodeKey k). }
  rewrite encode_cons by done. destruct Hk as [|t k [Ht Hts] Hk].
  { split; [|by intros ?%prefix_nil_inv]. intros [t E]. apply (f_equal String.length) in E.
    rewrite !str_length_app in E. unfold le32 in E. rewrite le_bytes_length in E. cbn in E. lia. }
  rewrite encode_cons by done. split.
  - intros [u E]. rewrite !str_app_assoc in E. apply segment_front in E as [-> E]; [|done..].
    apply prefix_cons. apply (IH k Hk). by exists u.
  - intros Hpre. apply prefix_cons_inv_1 in Hpre as E1. apply prefix_cons_inv_2 in Hpre. subst t.
    apply (IH k Hk) in Hpre as [u E]. exists u. by rewrite E, !str_app_assoc.
Qed.

Lemma encode_inj a b : Forall segment a → Forall segment b → encodeKey a = encodeKey b → a = b.
Proof.
  intros Ha Hb E. apply (anti_symm prefix); apply encode_prefix; try done; rewrite E; apply has_prefix_refl.
Qed.

(** ** Findings *)

(** Keys do not sort by their segments: a shorter segment comes before a longer one, and a
    segment of 256 bytes before one of one byte. *)
Example keys_sort_by_length :
  str_lt (keyNodeByID "b") (keyNodeByID "aa") ∧ str_lt "aa" "b".
Proof. split; vm_compute; reflexivity. Qed.

(** An empty kind is confused with an empty target. *)
Example empty_segments_collide : keyEdgeOut "a" EmptyString "b" = keyEdgeOut "a" "b" EmptyString.
Proof. reflexivity. Qed.
