(* ===== verification/GoEncoding.v ===== *)
(** * GoEncoding

    Encodings of Go's library: [encoding/json] and, below, SHA-256 with its hexadecimal
    form.  What [json.Marshal] prints, as far as the modelled code uses it: values as trees,
    strings escaped with HTML escaping on, map keys sorted.  [None] is its error. *)
From S2P Require Import Prelude GoStrings GoLoop.

(** A value of a field of type [any].  A map is the list of its bindings, in any order; a
    number is the text [strconv] gives it; [JUnsupported] is a channel, a function or a float
    that is not a number. *)
Inductive Json :=
| JNull
| JBool (b : bool)
| JNum (text : string)
| JStr (s : string)
| JArr (l : list Json)
| JObj (kvs : list (string * Json))
| JUnsupported.

Definition bs (s : string) : string := String (ascii_of_nat 92) s.

(** ["\u00XX"] *)
Definition u00 (a : ascii) : string :=
  bs "u00" +:+ hex_digit (N_of_ascii a / 16) +:+ hex_digit (N_of_ascii a mod 16).

Definition escape_byte (a : ascii) : string :=
  let n := nat_of_ascii a in
  if bool_decide (n = 34 ∨ n = 92)%nat then bs (String a EmptyString)
  else if bool_decide (n = 8)%nat then bs "b"
  else if bool_decide (n = 12)%nat then bs "f"
  else if bool_decide (n = 10)%nat then bs "n"
  else if bool_decide (n = 13)%nat then bs "r"
  else if bool_decide (n = 9)%nat then bs "t"
  else if (n <? 32)%nat || bool_decide (n ∈ [60; 62; 38])%nat then u00 a
  else String a EmptyString.

(** [appendString]: bytes below 128 one by one, the others rune by rune; an invalid byte
    becomes U+FFFD and the two line separators are escaped.  The fuel is the length. *)
Fixpoint escape_runes (fuel : nat) (s : string) : string :=
  match fuel, s with
  | S fuel', String a s' =>
      if (nat_of_ascii a <? 128)%nat then escape_byte a +:+ escape_runes fuel' s'
      else
        let '(r, w) := DecodeRuneInString s in
        let head :=
          if (r =? RuneError)%Z && (w =? 1)%nat then bs "ufffd"
          else if (r =? 8232)%Z then bs "u2028"
          else if (r =? 8233)%Z then bs "u2029"
          else str_take w s in
        head +:+ escape_runes fuel' (str_drop w s)
  | _, _ => EmptyString
  end.

Definition json_string (s : string) : string := dquote +:+ escape_runes (String.length s) s +:+ dquote.

Definition commas (l : list string) : string := String.concat "," l.

Definition field_le (a b : string * string) : Prop := String.le a.1 b.1.
#[global] Instance field_le_dec : RelDecision field_le.
Proof. intros a b. unfold field_le. apply _. Defined.

(** An object, its keys sorted. *)
Definition json_object (kvs : list (string * string)) : string :=
  "{" +:+ commas ((λ kv, json_string kv.1 +:+ ":" +:+ kv.2) <$> sort_stable field_le kvs) +:+ "}".

Fixpoint json_marshal (v : Json) : option string :=
  match v with
  | JNull => Some "null"
  | JBool b => Some (if b then "true" else "false")
  | JNum t => Some t
  | JStr s => Some (json_string s)
  | JArr l =>
      ts ← (fix go l := match l with [] => Some [] | x :: l' => t ← json_marshal x; ts ← go l'; Some (t :: ts) end) l;
      Some ("[" +:+ commas ts +:+ "]")
  | JObj kvs =>
      ts ← (fix go kvs := match kvs with
             | [] => Some []
             | (k, x) :: kvs' => t ← json_marshal x; ts ← go kvs'; Some ((k, t) :: ts)
             end) kvs;
      Some (json_object ts)
  | JUnsupported => None
  end.

(** A struct: its fields in order, those tagged [omitempty] left out when empty. *)
Definition json_struct (fields : list (string * string)) : string :=
  "{" +:+ commas ((λ kv, json_string kv.1 +:+ ":" +:+ kv.2) <$> fields) +:+ "}".
Definition omitempty (k s : string) : list (string * string) :=
  if bool_decide (s = EmptyString) then [] else [(k, json_string s)].

Example json_marshal_ex :
  json_marshal (JObj [("b", JArr [JStr "x<y"; JNum "1"]); ("a", JBool true)]) =
    Some ("{" +:+ dquote +:+ "a" +:+ dquote +:+ ":true," +:+ dquote +:+ "b" +:+ dquote +:+ ":[" +:+
          dquote +:+ "x" +:+ bs "u003cy" +:+ dquote +:+ ",1]}").
Proof. vm_compute. done. Qed.

(** ** SHA-256

    [crypto/sha256.Sum256] followed by [encoding/hex.EncodeToString], as FIPS 180-4
    defines them: words are 32-bit integers, a message is padded to blocks of 64 bytes. *)
Local Open Scope Z_scope.

Definition w32 (z : Z) : Z := Z.land z (Z.ones 32).
Definition add32 (a b : Z) : Z := w32 (a + b).
Definition rotr (n x : Z) : Z := Z.lor (Z.shiftr x n) (w32 (Z.shiftl x (32 - n))).
Definition xor3 (a b c : Z) : Z := Z.lxor a (Z.lxor b c).
Definition Ch (x y z : Z) : Z := Z.lxor (Z.land x y) (Z.land (Z.lxor x (Z.ones 32)) z).
Definition Maj (x y z : Z) : Z := xor3 (Z.land x y) (Z.land x z) (Z.land y z).
Definition Sigma0 (x : Z) : Z := xor3 (rotr 2 x) (rotr 13 x) (rotr 22 x).
Definition Sigma1 (x : Z) : Z := xor3 (rotr 6 x) (rotr 11 x) (rotr 25 x).
Definition sigma0 (x : Z) : Z := xor3 (rotr 7 x) (rotr 18 x) (Z.shiftr x 3).
Definition sigma1 (x : Z) : Z := xor3 (rotr 17 x) (rotr 19 x) (Z.shiftr x 10).

(** The constants: 32 bits of the fractional parts of the cube and square roots of primes. *)
Definition is_prime (n : Z) : bool := forallb (λ d, negb (n mod d =? 0)) (seqZ 2 (n - 2)).
Definition primes : list Z := filter (λ n, is_prime n = true) (seqZ 2 310).
Fixpoint root_from (bits : nat) (k x acc : Z) : Z :=
  match bits with
  | O => acc
  | S b => let next := acc + 2 ^ Z.of_nat b in root_from b k x (if next ^ k <=? x then next else acc)
  end.
Definition root_fraction (k p : Z) : Z := w32 (root_from 40 k (p * 2 ^ (32 * k)) 0).
Definition round_constants : list Z := Eval vm_compute in root_fraction 3 <$> primes.
Definition initial_state : list Z := Eval vm_compute in root_fraction 2 <$> take 8 primes.

(** The message schedule, last word first. *)
Fixpoint schedule (n : nat) (ws : list Z) : list Z :=
  match n with
  | O => ws
  | S n' =>
      let w i := nth (i - 1) ws 0 in
      schedule n' (add32 (add32 (sigma1 (w 2%nat)) (w 7%nat))
                         (add32 (sigma0 (w 15%nat)) (w 16%nat)) :: ws)
  end.

Definition sha_round (st : list Z) (kw : Z * Z) : list Z :=
  match st with
  | [a; b; c; d; e; f; g; h] =>
      let t1 := add32 (add32 h (Sigma1 e)) (add32 (Ch e f g) (add32 kw.1 kw.2)) in
      let t2 := add32 (Sigma0 a) (Maj a b c) in
      [add32 t1 t2; a; b; c; add32 d t1; e; f; g]
  | _ => st
  end.

Definition compress (st : list Z) (block : list Z) : list Z :=
  let ws := rev (schedule 48 (rev block)) in
  zip_with add32 st (foldl sha_round st (zip round_constants ws)).

Definition byte_of (a : ascii) : Z := Z.of_nat (nat_of_ascii a).
Fixpoint str_bytes (s : string) : list Z :=
  match s with EmptyString => [] | String a s' => byte_of a :: str_bytes s' end.

(** [n] bytes of [z], the most significant first. *)
Fixpoint be_bytes (n : nat) (z : Z) : list Z :=
  match n with O => [] | S n' => be_bytes n' (Z.shiftr z 8) ++ [Z.land z 255] end.

Definition pad (bs : list Z) : list Z :=
  let len := Z.of_nat (length bs) in
  bs ++ 128 :: replicate (Z.to_nat ((55 - len) mod 64)) 0 ++ be_bytes 8 (8 * len).

Fixpoint words (fuel : nat) (bs : list Z) : list Z :=
  match fuel, bs with
  | S fuel', a :: b :: c :: d :: bs' =>
      (Z.shiftl a 24 + Z.shiftl b 16 + Z.shiftl c 8 + d) :: words fuel' bs'
  | _, _ => []
  end.

Fixpoint blocks16 (fuel : nat) (ws : list Z) : list (list Z) :=
  match fuel with
  | O => []
  | S fuel' => match ws with [] => [] | _ => take 16 ws :: blocks16 fuel' (drop 16 ws) end
  end.

Definition sha256_words (s : string) : list Z :=
  let bs := pad (str_bytes s) in
  let ws := words (length bs) bs in
  foldl compress initial_state (blocks16 (length ws) ws).

(** ** Hexadecimal *)
Definition hex_char (z : Z) : ascii :=
  if z <? 10 then ascii_of_nat (48 + Z.to_nat z) else ascii_of_nat (87 + Z.to_nat z).

Fixpoint hex_word (n : nat) (z : Z) : string :=
  match n with
  | O => EmptyString
  | S n' => hex_word n' (Z.shiftr z 4) +:+ String (hex_char (Z.land z 15)) EmptyString
  end.

Definition sha256_hex (s : string) : string :=
  foldr (λ w acc, hex_word 8 w +:+ acc) EmptyString (sha256_words s).

(** ** The digest has 64 characters *)
Lemma hex_word_length n z : String.length (hex_word n z) = n.
Proof.
  revert z; induction n as [|n IH]; intros z; cbn [hex_word]; [done|].
  rewrite str_length_app, IH. cbn. lia.
Qed.

Lemma sha_round_length st kw : length st = 8%nat → length (sha_round st kw) = 8%nat.
Proof. intros H. destruct st as [|a [|b [|c [|d [|e [|f [|g [|h [|]]]]]]]]]; try discriminate; done. Qed.

Lemma rounds_length kws : ∀ st, length st = 8%nat → length (foldl sha_round st kws) = 8%nat.
Proof. induction kws as [|kw kws IH]; intros st H; cbn; [done|]. by apply IH, sha_round_length. Qed.

Lemma compress_length st b : length st = 8%nat → length (compress st b) = 8%nat.
Proof. intros H. unfold compress. rewrite length_zip_with, rounds_length by done. lia. Qed.

Lemma sha256_words_length s : length (sha256_words s) = 8%nat.
Proof.
  unfold sha256_words. generalize (blocks16 (length (words (length (pad (str_bytes s))) (pad (str_bytes s))))
    (words (length (pad (str_bytes s))) (pad (str_bytes s)))).
  intros bs. assert (length initial_state = 8%nat) as H by done. revert H. generalize initial_state.
  induction bs as [|b bs IH]; intros st H; cbn [foldl]; [done|]. by apply IH, compress_length.
Qed.

Lemma sha256_hex_length s : String.length (sha256_hex s) = 64%nat.
Proof.
  unfold sha256_hex. pose proof (sha256_words_length s) as H. revert H. generalize (sha256_words s).
  intros ws H. assert (∀ ws : list Z,
    String.length (foldr (λ w acc, hex_word 8 w +:+ acc) EmptyString ws) = (8 * length ws)%nat) as Hl.
  { clear. induction ws as [|w ws IH]; [done|]. cbn [foldr length].
    rewrite str_length_app, hex_word_length, IH. lia. }
  by rewrite Hl, H.
Qed.

(** The test vectors of the standard: the empty message, one block, two blocks. *)
Example sha256_vectors :
  sha256_hex EmptyString = "e3b0c44298fc1c149afbf4c8996fb92427ae41e4649b934ca495991b7852b855" ∧
  sha256_hex "abc" = "ba7816bf8f01cfea414140de5dae2223b00361a396177a9cb410ff61f20015ad" ∧
  sha256_hex "abcdbcdecdefdefgefghfghighijhijkijkljklmklmnlmnomnopnopq" =
    "248d6a61d20638b8e5c026930c3e6039a33ce45964ff2167f6ecedd419db06c1".
Proof. vm_compute. done. Qed.
