(* ===== verification/KnowledgeStore.v ===== *)
(** * KnowledgeStore

    The in-memory knowledge graph: records ([context/knowledge/graphdb/types.go]), the label
    index ([label_index.go]), the adjacency store ([adjacency.go]) and what the engine's
    operations do to it ([ops_node.go], [ops_edge.go], [ops_query.go]).

    The store is a set of maps under one lock; each function here is one critical section.
    The working set is not bounded: the LRU mode, which nothing switches on, is left out.
    Raw JSON is the string of its bytes; a weight is the bits of its [float32], for which
    [==] is equality (no weight is a NaN or a negative zero). *)
From S2P Require Import Prelude GoStrings GoEncoding Envelope EnvelopeMerge.

(** ** Records *)
Record NodeRecord := {
  nd_ID : string; nd_Kind : string; nd_SourceID : string; nd_StableID : string; nd_RevisionRootID : string;
  nd_RevisionOf : string; nd_IdempotencyKey : string; nd_TaskID : string; nd_SessionID : string; nd_TurnID : string;
  nd_StateVersion : N; nd_Labels : list string; nd_Props : string;
  nd_CreatedAt : Z; nd_UpdatedAt : Z; nd_DeletedAt : Z
}.
Record EdgeRecord := {
  ed_SourceID : string; ed_TargetID : string; ed_Kind : string; ed_StableID : string; ed_RevisionRootID : string;
  ed_RevisionOf : string; ed_IdempotencyKey : string; ed_TaskID : string; ed_SessionID : string; ed_TurnID : string;
  ed_StateVersion : N; ed_Weight : N; ed_Props : string; ed_CreatedAt : Z; ed_DeletedAt : Z
}.

#[global] Instance NodeRecord_eq_dec : EqDecision NodeRecord.
Proof. solve_decision. Defined.
#[global] Instance EdgeRecord_eq_dec : EqDecision EdgeRecord.
Proof. solve_decision. Defined.

Definition IsActive (e : EdgeRecord) : bool := (ed_DeletedAt e =? 0)%Z.
Definition node_active (n : NodeRecord) : bool := (nd_DeletedAt n =? 0)%Z.

Definition node_with_times (created updated deleted : Z) (n : NodeRecord) : NodeRecord :=
  {| nd_ID := nd_ID n; nd_Kind := nd_Kind n; nd_SourceID := nd_SourceID n; nd_StableID := nd_StableID n;
     nd_RevisionRootID := nd_RevisionRootID n; nd_RevisionOf := nd_RevisionOf n; nd_IdempotencyKey := nd_IdempotencyKey n;
     nd_TaskID := nd_TaskID n; nd_SessionID := nd_SessionID n; nd_TurnID := nd_TurnID n; nd_StateVersion := nd_StateVersion n;
     nd_Labels := nd_Labels n; nd_Props := nd_Props n; nd_CreatedAt := created; nd_UpdatedAt := updated; nd_DeletedAt := deleted |}.
Definition node_with_props (props : string) (n : NodeRecord) : NodeRecord :=
  {| nd_ID := nd_ID n; nd_Kind := nd_Kind n; nd_SourceID := nd_SourceID n; nd_StableID := nd_StableID n;
     nd_RevisionRootID := nd_RevisionRootID n; nd_RevisionOf := nd_RevisionOf n; nd_IdempotencyKey := nd_IdempotencyKey n;
     nd_TaskID := nd_TaskID n; nd_SessionID := nd_SessionID n; nd_TurnID := nd_TurnID n; nd_StateVersion := nd_StateVersion n;
     nd_Labels := nd_Labels n; nd_Props := props; nd_CreatedAt := nd_CreatedAt n; nd_UpdatedAt := nd_UpdatedAt n;
     nd_DeletedAt := nd_DeletedAt n |}.
Definition edge_with_times (created deleted : Z) (e : EdgeRecord) : EdgeRecord :=
  {| ed_SourceID := ed_SourceID e; ed_TargetID := ed_TargetID e; ed_Kind := ed_Kind e; ed_StableID := ed_StableID e;
     ed_RevisionRootID := ed_RevisionRootID e; ed_RevisionOf := ed_RevisionOf e; ed_IdempotencyKey := ed_IdempotencyKey e;
     ed_TaskID := ed_TaskID e; ed_SessionID := ed_SessionID e; ed_TurnID := ed_TurnID e; ed_StateVersion := ed_StateVersion e;
     ed_Weight := ed_Weight e; ed_Props := ed_Props e; ed_CreatedAt := created; ed_DeletedAt := deleted |}.
Definition edge_with_props (props : string) (e : EdgeRecord) : EdgeRecord :=
  {| ed_SourceID := ed_SourceID e; ed_TargetID := ed_TargetID e; ed_Kind := ed_Kind e; ed_StableID := ed_StableID e;
     ed_RevisionRootID := ed_RevisionRootID e; ed_RevisionOf := ed_RevisionOf e; ed_IdempotencyKey := ed_IdempotencyKey e;
     ed_TaskID := ed_TaskID e; ed_SessionID := ed_SessionID e; ed_TurnID := ed_TurnID e; ed_StateVersion := ed_StateVersion e;
     ed_Weight := ed_Weight e; ed_Props := props; ed_CreatedAt := ed_CreatedAt e; ed_DeletedAt := ed_DeletedAt e |}.

(** Equality up to the identifier and the times, as the code compares. *)
Definition nodeRecordEqual (a b : NodeRecord) : bool :=
  bool_decide (node_with_times 0 0 0 a = node_with_times 0 0 0
    {| nd_ID := nd_ID a; nd_Kind := nd_Kind b; nd_SourceID := nd_SourceID b; nd_StableID := nd_StableID b;
       nd_RevisionRootID := nd_RevisionRootID b; nd_RevisionOf := nd_RevisionOf b; nd_IdempotencyKey := nd_IdempotencyKey b;
       nd_TaskID := nd_TaskID b; nd_SessionID := nd_SessionID b; nd_TurnID := nd_TurnID b; nd_StateVersion := nd_StateVersion b;
       nd_Labels := nd_Labels b; nd_Props := nd_Props b; nd_CreatedAt := 0; nd_UpdatedAt := 0; nd_DeletedAt := 0 |}).
Definition edgeRecordEqual (a b : EdgeRecord) : bool :=
  bool_decide (edge_with_times 0 0 a = edge_with_times 0 0 b).

(** The identity of an edge. *)
Definition edge_key (e : EdgeRecord) : string * string * string := (ed_SourceID e, ed_Kind e, ed_TargetID e).
Definition same_edge (sourceID targetID kind : string) (e : EdgeRecord) : bool :=
  bool_decide (ed_SourceID e = sourceID) && bool_decide (ed_TargetID e = targetID) && bool_decide (ed_Kind e = kind).

(** ** Indexes: sets of node IDs under a name *)
Abbreviation Index := (gmap string (gset string)).

Definition index_ids (k : string) (m : Index) : gset string := default ∅ (m !! k).
Definition index_add (k id : string) (m : Index) : Index := <[k := {[id]} ∪ index_ids k m]> m.
(** A set that becomes empty is dropped. *)
Definition index_remove (k id : string) (m : Index) : Index :=
  match m !! k with
  | None => m
  | Some ids =>
      if bool_decide (ids = ∅) then m
      else let ids := ids ∖ {[id]} in if bool_decide (ids = ∅) then delete k m else <[k := ids]> m
  end.

(** [sort.Strings] of a set. *)
Definition sorted_ids (ids : gset string) : list string := sort_strings (elements ids).

Fixpoint uniqueLabels_loop (seen labels : list string) : list string :=
  match labels with
  | [] => []
  | label :: rest =>
      let label := trim_space label in
      if bool_decide (label = EmptyString) || bool_decide (label ∈ seen) then uniqueLabels_loop seen rest
      else label :: uniqueLabels_loop (label :: seen) rest
  end.
Definition uniqueLabels (labels : list string) : list string := uniqueLabels_loop [] labels.

Definition label_add (label nodeID : string) (m : Index) : Index :=
  if bool_decide (label = EmptyString) || bool_decide (nodeID = EmptyString) then m else index_add label nodeID m.
Definition label_remove (label nodeID : string) (m : Index) : Index :=
  if bool_decide (label = EmptyString) || bool_decide (nodeID = EmptyString) then m else index_remove label nodeID m.
Definition label_Lookup (label : string) (m : Index) : list string :=
  if bool_decide (label = EmptyString) then [] else sorted_ids (index_ids label m).
Definition label_LookupPrefix (prefix : string) (m : Index) : list string :=
  if bool_decide (prefix = EmptyString) then []
  else sorted_ids (⋃ (filter (λ kv, has_prefix prefix kv.1 = true) (map_to_list m)).*2).

(** ** The store *)
Record adjacencyStore := {
  s_nodes : gmap string NodeRecord;
  bySource : Index;
  byKind : Index;
  forward : gmap string (list EdgeRecord);
  reverse : gmap string (list EdgeRecord);
  byLabel : Index
}.
Definition newAdjacencyStore : adjacencyStore :=
  {| s_nodes := ∅; bySource := ∅; byKind := ∅; forward := ∅; reverse := ∅; byLabel := ∅ |}.

Definition with_nodes (f : gmap string NodeRecord → gmap string NodeRecord) (s : adjacencyStore) : adjacencyStore :=
  {| s_nodes := f (s_nodes s); bySource := bySource s; byKind := byKind s; forward := forward s; reverse := reverse s; byLabel := byLabel s |}.
Definition with_source (f : Index → Index) (s : adjacencyStore) : adjacencyStore :=
  {| s_nodes := s_nodes s; bySource := f (bySource s); byKind := byKind s; forward := forward s; reverse := reverse s; byLabel := byLabel s |}.
Definition with_kind (f : Index → Index) (s : adjacencyStore) : adjacencyStore :=
  {| s_nodes := s_nodes s; bySource := bySource s; byKind := f (byKind s); forward := forward s; reverse := reverse s; byLabel := byLabel s |}.
Definition with_label (f : Index → Index) (s : adjacencyStore) : adjacencyStore :=
  {| s_nodes := s_nodes s; bySource := bySource s; byKind := byKind s; forward := forward s; reverse := reverse s; byLabel := f (byLabel s) |}.

Definition out_edges (id : string) (s : adjacencyStore) : list EdgeRecord := default [] (forward s !! id).
Definition in_edges (id : string) (s : adjacencyStore) : list EdgeRecord := default [] (reverse s !! id).
Definition set_forward (id : string) (es : list EdgeRecord) (s : adjacencyStore) : adjacencyStore :=
  {| s_nodes := s_nodes s; bySource := bySource s; byKind := byKind s; forward := <[id := es]> (forward s); reverse := reverse s; byLabel := byLabel s |}.
Definition set_reverse (id : string) (es : list EdgeRecord) (s : adjacencyStore) : adjacencyStore :=
  {| s_nodes := s_nodes s; bySource := bySource s; byKind := byKind s; forward := forward s; reverse := <[id := es]> (reverse s); byLabel := byLabel s |}.

Definition blank_id (a b : string) : bool := bool_decide (a = EmptyString) || bool_decide (b = EmptyString).

Definition addNodeSourceIndex (n : NodeRecord) (s : adjacencyStore) : adjacencyStore :=
  if blank_id (nd_SourceID n) (nd_ID n) then s else with_source (index_add (nd_SourceID n) (nd_ID n)) s.
Definition removeNodeSourceIndex (nodeID sourceID : string) (s : adjacencyStore) : adjacencyStore :=
  if blank_id sourceID nodeID then s else with_source (index_remove sourceID nodeID) s.
Definition addNodeKindIndex (n : NodeRecord) (s : adjacencyStore) : adjacencyStore :=
  if bool_decide (nd_ID n = EmptyString) || negb (node_active n) then s else with_kind (index_add (nd_Kind n) (nd_ID n)) s.
Definition removeNodeKindIndex (n : NodeRecord) (s : adjacencyStore) : adjacencyStore :=
  if bool_decide (nd_ID n = EmptyString) then s else with_kind (index_remove (nd_Kind n) (nd_ID n)) s.
Definition addNodeLabels (n : NodeRecord) (s : adjacencyStore) : adjacencyStore :=
  if bool_decide (nd_ID n = EmptyString) || negb (node_active n) then s
  else with_label (λ m, foldl (λ m l, label_add l (nd_ID n) m) m (uniqueLabels (nd_Labels n))) s.
Definition removeNodeLabels (n : NodeRecord) (s : adjacencyStore) : adjacencyStore :=
  if bool_decide (nd_ID n = EmptyString) then s
  else with_label (λ m, foldl (λ m l, label_remove l (nd_ID n) m) m (uniqueLabels (nd_Labels n))) s.

Definition nodeIDsByKind (kind : string) (s : adjacencyStore) : list string :=
  if bool_decide (kind = EmptyString) then sorted_ids (⋃ (map_to_list (byKind s)).*2)
  else sorted_ids (index_ids kind (byKind s)).

(** ** Node operations *)
Definition applyUpsertNode (node : NodeRecord) (s : adjacencyStore) : adjacencyStore :=
  let existing := s_nodes s !! nd_ID node in
  let node := match existing with
              | Some ex => if (nd_CreatedAt node =? 0)%Z
                           then node_with_times (nd_CreatedAt ex) (nd_UpdatedAt node) (nd_DeletedAt node) node else node
              | None => node
              end in
  let store s := addNodeLabels node (addNodeKindIndex node (addNodeSourceIndex node (with_nodes (insert (nd_ID node) node) s))) in
  match existing with
  | None => store s
  | Some ex =>
      if node_active ex && nodeRecordEqual ex node then s
      else
        let s := if negb (bool_decide (nd_SourceID ex = EmptyString)) && negb (bool_decide (nd_SourceID ex = nd_SourceID node))
                 then removeNodeSourceIndex (nd_ID ex) (nd_SourceID ex) s else s in
        let s := if negb (bool_decide (nd_Kind ex = nd_Kind node)) then removeNodeKindIndex ex s else s in
        store (removeNodeLabels ex s)
  end.

Definition markEdgesDeleted (deletedAt : Z) (es : list EdgeRecord) : list EdgeRecord :=
  (λ e, edge_with_times (ed_CreatedAt e) deletedAt e) <$> es.
Definition markSpecificEdgeDeleted (sourceID targetID kind : string) (deletedAt : Z) (es : list EdgeRecord) : list EdgeRecord :=
  (λ e, if same_edge sourceID targetID kind e then edge_with_times (ed_CreatedAt e) deletedAt e else e) <$> es.

(** [time] is the reading the code takes when it is given no time. *)
Definition applyDeleteNode (time : Time) (id : string) (deletedAt : Z) (s : adjacencyStore) : adjacencyStore :=
  let deletedAt := if (deletedAt =? 0)%Z then unix_nano time else deletedAt in
  let s := match s_nodes s !! id with
           | None => s
           | Some n =>
               let s := removeNodeKindIndex n (removeNodeLabels n s) in
               let s := with_nodes (insert id (node_with_times (nd_CreatedAt n) deletedAt deletedAt n)) s in
               removeNodeSourceIndex (nd_ID n) (nd_SourceID n) s
           end in
  let outbound := out_edges id s in
  let inbound := in_edges id s in
  let s := set_forward id (markEdgesDeleted deletedAt outbound) s in
  let s := set_reverse id (markEdgesDeleted deletedAt inbound) s in
  let s := foldl (λ s e, set_reverse (ed_TargetID e)
      (markSpecificEdgeDeleted (ed_SourceID e) (ed_TargetID e) (ed_Kind e) deletedAt (in_edges (ed_TargetID e) s)) s) s outbound in
  foldl (λ s e, set_forward (ed_SourceID e)
      (markSpecificEdgeDeleted (ed_SourceID e) (ed_TargetID e) (ed_Kind e) deletedAt (out_edges (ed_SourceID e) s)) s) s inbound.

(** ** Edge operations *)
Fixpoint upsertEdge (edge : EdgeRecord) (es : list EdgeRecord) : list EdgeRecord :=
  match es with
  | [] => [edge]
  | e :: es' => if same_edge (ed_SourceID edge) (ed_TargetID edge) (ed_Kind edge) e then edge :: es' else e :: upsertEdge edge es'
  end.

Definition applyLinkEdge (edge : EdgeRecord) (s : adjacencyStore) : adjacencyStore :=
  let current := head (filter (λ e, same_edge (ed_SourceID edge) (ed_TargetID edge) (ed_Kind edge) e && IsActive e = true)
                         (out_edges (ed_SourceID edge) s)) in
  if match current with Some c => edgeRecordEqual c edge | None => false end then s
  else
    let s := set_forward (ed_SourceID edge) (upsertEdge edge (out_edges (ed_SourceID edge) s)) s in
    set_reverse (ed_TargetID edge) (upsertEdge edge (in_edges (ed_TargetID edge) s)) s.

Definition mutateEdgeSlice (sourceID targetID kind : string) (hard : bool) (deletedAt : Z) (es : list EdgeRecord) : list EdgeRecord :=
  if hard then filter (λ e, same_edge sourceID targetID kind e = false) es
  else markSpecificEdgeDeleted sourceID targetID kind deletedAt es.

Definition applyUnlink (time : Time) (sourceID targetID kind : string) (hard : bool) (deletedAt : Z) (s : adjacencyStore) : adjacencyStore :=
  let deletedAt := if (deletedAt =? 0)%Z then unix_nano time else deletedAt in
  let s := set_forward sourceID (mutateEdgeSlice sourceID targetID kind hard deletedAt (out_edges sourceID s)) s in
  set_reverse targetID (mutateEdgeSlice sourceID targetID kind hard deletedAt (in_edges targetID s)) s.

(** ** Annotations *)
Section annotate.
(** [json.Unmarshal] into a map, the nil map being [None] (what [null] gives); numbers become
    [float64], whose text is not modelled. *)
Context (unmarshal : string → result (option (gmap string Json))).

Definition marshal_map (m : option (gmap string Json)) : result string :=
  match json_marshal (match m with Some m => JObj (map_to_list m) | None => JNull end) with
  | Some s => Ok s
  | None => Err (ErrMsg "json: unsupported value")
  end.

(** A panic is an error of its own. *)
Definition nil_map_panic : gerror := ErrSentinel "panic: assignment to entry in nil map".

Definition mergeJSONProps (existing : string) (props : gmap string Json) : result string :=
  let! merged := if bool_decide (existing = EmptyString) then Ok (Some ∅) else unmarshal existing in
  match merged with
  | Some m => marshal_map (Some (props ∪ m))
  | None => if bool_decide (props = ∅) then marshal_map None else Err nil_map_panic
  end.

Definition annotateNodeLocked (time : Time) (id : string) (props : gmap string Json) (updatedAt : Z) (s : adjacencyStore)
    : result adjacencyStore :=
  match s_nodes s !! id with
  | None => Ok s
  | Some n =>
      if negb (node_active n) then Ok s
      else
        let! merged := mergeJSONProps (nd_Props n) props in
        if bool_decide (nd_Props n = merged) then Ok s
        else
          let updatedAt := if (updatedAt =? 0)%Z then unix_nano time else updatedAt in
          let n := node_with_props merged n in
          Ok (with_nodes (insert id (node_with_times (nd_CreatedAt n) updatedAt (nd_DeletedAt n) n)) s)
  end.

Definition annotateEdgeLocked (sourceID targetID kind : string) (props : gmap string Json) (s : adjacencyStore)
    : result adjacencyStore :=
  let es := out_edges sourceID s in
  match list_find (λ e, same_edge sourceID targetID kind e && IsActive e = true) es with
  | None => Ok s
  | Some (i, e) =>
      let! merged := mergeJSONProps (ed_Props e) props in
      if bool_decide (ed_Props e = merged) then Ok s
      else
        let e := edge_with_props merged e in
        let s := set_forward sourceID (<[i := e]> es) s in
        Ok (match reverse s !! targetID with
            | None => s
            | Some rs => set_reverse targetID ((λ r, if same_edge sourceID targetID kind r then e else r) <$> rs) s
            end)
  end.
End annotate.

(** ** Reading *)
Definition activeNode (id : string) (s : adjacencyStore) : option NodeRecord :=
  n ← s_nodes s !! id; if node_active n then Some n else None.
Definition GetNode := activeNode.

Definition select_nodes (ids : list string) (ok : NodeRecord → bool) (s : adjacencyStore) : list NodeRecord :=
  omap (λ id, n ← activeNode id s; if ok n then Some n else None) ids.
Definition of_kind (kind : string) (n : NodeRecord) : bool :=
  bool_decide (kind = EmptyString) || bool_decide (nd_Kind n = kind).

Definition ListNodes (kind : string) (s : adjacencyStore) : list NodeRecord :=
  select_nodes (nodeIDsByKind kind s) (of_kind kind) s.
Definition ListNodesByLabel (kind label : string) (s : adjacencyStore) : list NodeRecord :=
  select_nodes (label_Lookup label (byLabel s)) (of_kind kind) s.
Definition ListNodesByLabelPrefix (kind prefix : string) (s : adjacencyStore) : list NodeRecord :=
  select_nodes (label_LookupPrefix prefix (byLabel s)) (of_kind kind) s.
(** In the order in which the map yields the IDs: [order] is that of [elements]. *)
Definition NodesBySource (order : list string → list string) (sourceID : string) (s : adjacencyStore) : list NodeRecord :=
  select_nodes (order (elements (index_ids sourceID (bySource s)))) (λ n, bool_decide (nd_SourceID n = sourceID)) s.

Definition matchKinds (kind : string) (allowed : list string) : bool :=
  match allowed with [] => true | _ => bool_decide (kind ∈ allowed) end.
Definition filterEdges (es : list EdgeRecord) (kinds : list string) : list EdgeRecord :=
  filter (λ e, IsActive e && matchKinds (ed_Kind e) kinds = true) es.
Definition GetOutEdges (nodeID : string) (kinds : list string) (s : adjacencyStore) : list EdgeRecord :=
  filterEdges (out_edges nodeID s) kinds.
Definition GetInEdges (nodeID : string) (kinds : list string) (s : adjacencyStore) : list EdgeRecord :=
  filterEdges (in_edges nodeID s) kinds.

Inductive Direction := DirectionOut | DirectionIn | DirectionBoth.
Definition dedup_add (out : list string) (id : string) : list string := if bool_decide (id ∈ out) then out else out ++ [id].
Definition Neighbors (nodeID : string) (d : Direction) (kinds : list string) (s : adjacencyStore) : list string :=
  let outs := match d with DirectionIn => [] | _ => ed_TargetID <$> GetOutEdges nodeID kinds s end in
  let ins := match d with DirectionOut => [] | _ => ed_SourceID <$> GetInEdges nodeID kinds s end in
  foldl dedup_add [] (outs ++ ins).
