(* ===== verification/KnowledgeEngine.v ===== *)
(** * KnowledgeEngine

    The durable knowledge graph: the Badger backend ([context/knowledge/graphdb/badger_backend.go])
    over the transactional store of [KV], and the engine that commits each mutation to it
    before applying it to the in-memory store ([engine.go], [ops_node.go], [ops_edge.go],
    [ops_batch.go]).

    Stored values are tagged by what the code marshals, as in [JobsStore]; of marshalling
    only what it does to raw JSON shows: it fails on text that is not JSON and compacts the
    rest ([compact]).  A call is its commit followed by its application to memory; nothing
    holds the two together, so concurrent calls may interleave between them. *)
From S2P Require Import Prelude GoStrings KV Envelope GoEncoding KnowledgeKeys KnowledgeStore.

(** ** Mutation results *)
Record MutationResult := {
  mr_StableID : string; mr_Scope : string; mr_Status : string; mr_Reason : string;
  mr_RecordIDs : list string; mr_CreatedIDs : list string; mr_UpdatedIDs : list string; mr_AnnotatedIDs : list string;
  mr_SupersededIDs : list string; mr_MatchedIDs : list string; mr_RejectedIDs : list string; mr_ConflictIDs : list string;
  mr_TaskID : string; mr_SessionID : string; mr_TurnID : string; mr_IdempotencyKey : string;
  mr_StateVersion : N; mr_AppliedAt : Time; mr_Details : gmap string Json
}.

Definition StableMutationID (parts : list string) : string :=
  sha256_hex (String.concat (byte_str [31%nat]) (filter (λ p, p ≠ EmptyString) (trim_space <$> parts))).

Definition Normalize (taskID sessionID : string) (r : MutationResult) : MutationResult :=
  let trimmed id :=
    {| mr_StableID := id; mr_Scope := mr_Scope r; mr_Status := mr_Status r; mr_Reason := trim_space (mr_Reason r);
       mr_RecordIDs := mr_RecordIDs r; mr_CreatedIDs := mr_CreatedIDs r; mr_UpdatedIDs := mr_UpdatedIDs r;
       mr_AnnotatedIDs := mr_AnnotatedIDs r; mr_SupersededIDs := mr_SupersededIDs r; mr_MatchedIDs := mr_MatchedIDs r;
       mr_RejectedIDs := mr_RejectedIDs r; mr_ConflictIDs := mr_ConflictIDs r; mr_TaskID := trim_space (mr_TaskID r);
       mr_SessionID := trim_space (mr_SessionID r); mr_TurnID := trim_space (mr_TurnID r);
       mr_IdempotencyKey := trim_space (mr_IdempotencyKey r); mr_StateVersion := mr_StateVersion r;
       mr_AppliedAt := mr_AppliedAt r; mr_Details := mr_Details r |} in
  let r' := trimmed (trim_space (mr_StableID r)) in
  if bool_decide (mr_StableID r' = EmptyString)
  then trimmed (StableMutationID [taskID; sessionID; mr_Scope r'; mr_Status r'; mr_TaskID r'; mr_SessionID r';
                                  mr_TurnID r'; mr_IdempotencyKey r'; mr_Reason r'])
  else r'.

Definition with_AppliedAt (t : Time) (r : MutationResult) : MutationResult :=
  {| mr_StableID := mr_StableID r; mr_Scope := mr_Scope r; mr_Status := mr_Status r; mr_Reason := mr_Reason r;
     mr_RecordIDs := mr_RecordIDs r; mr_CreatedIDs := mr_CreatedIDs r; mr_UpdatedIDs := mr_UpdatedIDs r;
     mr_AnnotatedIDs := mr_AnnotatedIDs r; mr_SupersededIDs := mr_SupersededIDs r; mr_MatchedIDs := mr_MatchedIDs r;
     mr_RejectedIDs := mr_RejectedIDs r; mr_ConflictIDs := mr_ConflictIDs r; mr_TaskID := mr_TaskID r;
     mr_SessionID := mr_SessionID r; mr_TurnID := mr_TurnID r; mr_IdempotencyKey := mr_IdempotencyKey r;
     mr_StateVersion := mr_StateVersion r; mr_AppliedAt := t; mr_Details := mr_Details r |}.

(** ** The durable store *)
Inductive Value :=
| VNode (n : NodeRecord)
| VEdge (e : EdgeRecord)
| VMark
| VResult (r : MutationResult).

Inductive mutation :=
| MUpsertNode (n : NodeRecord)
| MUpsertNodes (ns : list NodeRecord)
| MApplyBatch (ns : list NodeRecord) (es : list EdgeRecord)
| MDeleteNode (id : string)
| MDeleteNodes (ids : list string)
| MLinkEdge (e : EdgeRecord)
| MLinkEdges (es : list EdgeRecord)
| MUnlinkEdge (sourceID targetID kind : string) (hard : bool)
| MAnnotateNode (id : string) (props : gmap string Json)
| MAnnotateEdge (sourceID targetID kind : string) (props : gmap string Json)
| MRecordMutationResult (r : MutationResult).

Definition ErrNotExist : gerror := ErrSentinel "file does not exist".
Definition json_error : gerror := ErrMsg "json: cannot unmarshal".

(** [uint64] of a [float32] that is not negative, from its bits. *)
Definition float32_trunc (bits : N) : N :=
  let e := N.land (N.shiftr bits 23) 255 in
  let m := N.lor (N.land bits (N.ones 23)) (2 ^ 23) in
  if (e <? 127)%N then 0 else if (e <? 150)%N then N.shiftr m (150 - e) else N.shiftl m (e - 150).

(** How [encoding/json] treats raw JSON and untyped objects. *)
Class Codec := {
  compact : string → result string;
  unmarshal : string → result (option (gmap string Json));
  unmarshal_indexed : string → result (string * string * string)  (** path, content_hash, media_type *)
}.

(** A transaction: the store as it would be committed, and the readings of the clock. *)
Record Txn (T : Type) := MkTxn { kv : T; ticks : nat }.
Arguments MkTxn {T} kv ticks.
Arguments kv {T}.
Arguments ticks {T}.

Section backend.
Context {T : Type} `{KVT : !KV T Value} `{!Codec}.
Context (clk : nat → Time).
Abbreviation TM := (SE (Txn T)).

Definition txn_set (k : string) (v : Value) : TM unit := se_mod (λ x, MkTxn (kset k v (kv x)) (ticks x)).
Definition txn_delete (k : string) : TM unit := se_mod (λ x, MkTxn (kdel k (kv x)) (ticks x)).
Definition txn_now : TM Time := λ x, (Ok (clk (ticks x)), MkTxn (kv x) (S (ticks x))).

Fixpoint each {A} (f : A → TM unit) (l : list A) : TM unit :=
  match l with [] => se_ret tt | x :: l' => f x ;;; each f l' end.

(** Marshalling raw JSON; an empty value is omitted. *)
Definition stored_props (p : string) : result string := if bool_decide (p = EmptyString) then Ok EmptyString else compact p.

Definition extractIndexedProps (props : string) : string * string * string :=
  if bool_decide (props = EmptyString) then (EmptyString, EmptyString, EmptyString)
  else match unmarshal_indexed props with Ok f => f | Err _ => (EmptyString, EmptyString, EmptyString) end.

(** The keys of a node's indexes. *)
Definition node_index_keys (n : NodeRecord) : list string :=
  if bool_decide (nd_ID n = EmptyString) then []
  else
    let opt k (key : string) := if bool_decide (k = EmptyString) then [] else [key] in
    let '(path, hash, media) := extractIndexedProps (nd_Props n) in
    opt (nd_Kind n) (keyNodeByKind (nd_Kind n) (nd_ID n)) ++
    opt (nd_SourceID n) (keyNodeBySource (nd_SourceID n) (nd_ID n)) ++
    opt (nd_StableID n) (keyNodeByStable (nd_StableID n) (nd_ID n)) ++
    ((λ l, keyNodeByLabel l (nd_ID n)) <$> uniqueLabels (nd_Labels n)) ++
    opt path (keyNodeByPath path (nd_ID n)) ++
    (if bool_decide (path = EmptyString) then [] else opt hash (keyNodeByHash hash (nd_ID n)) ++ opt media (keyNodeByMedia media (nd_ID n))).
Definition putNodeIndexes (n : NodeRecord) : TM unit := each (λ k, txn_set k VMark) (node_index_keys n).
Definition deleteNodeIndexes (n : NodeRecord) : TM unit := each txn_delete (node_index_keys n).

Definition edge_index_keys (e : EdgeRecord) : list string :=
  if bool_decide (ed_StableID e = EmptyString) then []
  else [keyEdgeByStable (ed_StableID e) (ed_SourceID e) (ed_TargetID e) (ed_Kind e)].
Definition putEdgeIndexes (e : EdgeRecord) : TM unit := each (λ k, txn_set k VMark) (edge_index_keys e).
Definition deleteEdgeIndexes (e : EdgeRecord) : TM unit := each txn_delete (edge_index_keys e).

Definition as_node (v : Value) : result NodeRecord := match v with VNode n => Ok n | _ => Err json_error end.
Definition as_edge (v : Value) : result EdgeRecord := match v with VEdge e => Ok e | _ => Err json_error end.
Definition as_result (v : Value) : result MutationResult := match v with VResult r => Ok r | _ => Err json_error end.
Definition lookup_key {A} (as_ : Value → result A) (k : string) (t : T) : result A :=
  match kget k t with None => Err ErrNotExist | Some v => as_ v end.

Definition getNodeRecordInTxn (id : string) (t : T) : result NodeRecord := lookup_key as_node (keyNodeByID id) t.
Definition getEdgeRecord (sourceID targetID kind : string) (t : T) : result EdgeRecord :=
  lookup_key as_edge (keyEdgeOut sourceID kind targetID) t.

Definition putNodeRecord (n : NodeRecord) : TM unit :=
  let* p := se_result (stored_props (nd_Props n)) in txn_set (keyNodeByID (nd_ID n)) (VNode (node_with_props p n)).
Definition putEdgeRecord (e : EdgeRecord) : TM unit :=
  let* p := se_result (stored_props (ed_Props e)) in
  txn_set (keyEdgeOut (ed_SourceID e) (ed_Kind e) (ed_TargetID e)) (VEdge (edge_with_props p e)).

Definition putNodeHistory (n : NodeRecord) : TM unit :=
  let* now := txn_now in
  let* p := se_result (stored_props (nd_Props n)) in
  txn_set (keyNodeHistory (nd_ID n) (unix_nano now) (nd_StateVersion n)) (VNode (node_with_props p n)).
Definition putEdgeHistory (e : EdgeRecord) : TM unit :=
  let* now := txn_now in
  let* p := se_result (stored_props (ed_Props e)) in
  txn_set (keyEdgeHistory (ed_SourceID e) (ed_Kind e) (ed_TargetID e) (unix_nano now) (float32_trunc (ed_Weight e)))
    (VEdge (edge_with_props p e)).

Definition putNodeInTxn (n : NodeRecord) : TM unit :=
  let* old := se_get (λ x, getNodeRecordInTxn (nd_ID n) (kv x)) in
  match old with Ok old => deleteNodeIndexes old ;;; putNodeHistory old | Err _ => se_ret tt end ;;;
  putNodeRecord n ;;;
  putNodeIndexes n.
Definition putEdgeInTxn (e : EdgeRecord) : TM unit :=
  let* old := se_get (λ x, getEdgeRecord (ed_SourceID e) (ed_TargetID e) (ed_Kind e) (kv x)) in
  match old with Ok old => putEdgeHistory old | Err _ => se_ret tt end ;;;
  putEdgeRecord e ;;;
  putEdgeIndexes e.

(** A pass over the records an iterator yields, as they were when it was made. *)
Definition mark_record (which : EdgeRecord → bool) (deletedAt : Z) (v : Value) : TM unit :=
  let* e := se_result (as_edge v) in
  if which e then putEdgeRecord (edge_with_times (ed_CreatedAt e) deletedAt e) else se_ret tt.
Definition mark_records (which : EdgeRecord → bool) (deletedAt : Z) (prefix : string) : TM unit :=
  let* found := se_get (λ x, (kscan prefix (kv x)).*2) in each (mark_record which deletedAt) found.
Definition markEdgesForNode (nodeID : string) (deletedAt : Z) : TM unit :=
  mark_records (λ _, true) deletedAt (keyPrefix [famEdgeOut; nodeID]) ;;;
  mark_records (λ e, bool_decide (ed_TargetID e = nodeID)) deletedAt (keyPrefix [famEdgeOut]).

(** What follows a read: nothing if the record is not there. *)
Definition when_exists {A} (get : T → result A) (k : A → TM unit) : TM unit :=
  let* r := se_get (λ x, get (kv x)) in
  match r with
  | Ok a => k a
  | Err e => if errors_is e ErrNotExist then se_ret tt else se_err e
  end.

Definition delete_one (id : string) (at_ : TM Time) : TM unit :=
  when_exists (getNodeRecordInTxn id) (λ old,
    deleteNodeIndexes old ;;;
    let* now := at_ in
    putNodeRecord (node_with_times (nd_CreatedAt old) (nd_UpdatedAt old) (unix_nano now) old) ;;;
    markEdgesForNode id (unix_nano now)).

Definition commitInTxn (op : mutation) : TM unit :=
  match op with
  | MUpsertNode n => putNodeInTxn n
  | MUpsertNodes ns => each putNodeInTxn ns
  | MApplyBatch ns es => each putNodeInTxn ns ;;; each putEdgeInTxn es
  | MDeleteNode id => delete_one id txn_now
  | MDeleteNodes ids => let* now := txn_now in each (λ id, delete_one id (se_ret now)) ids
  | MLinkEdge e => putEdgeInTxn e
  | MLinkEdges es => each putEdgeInTxn es
  | MUnlinkEdge s t k hard =>
      if hard then
        let* old := se_get (λ x, getEdgeRecord s t k (kv x)) in
        match old with Ok old => deleteEdgeIndexes old | Err _ => se_ret tt end ;;;
        txn_delete (keyEdgeOut s k t)
      else se_ret tt
  | MAnnotateNode id props =>
      when_exists (getNodeRecordInTxn id) (λ old,
        putNodeHistory old ;;;
        deleteNodeIndexes old ;;;
        let* merged := se_result (mergeJSONProps unmarshal (nd_Props old) props) in
        putNodeRecord (node_with_props merged old) ;;;
        putNodeIndexes (node_with_props merged old))
  | MAnnotateEdge s t k props =>
      when_exists (getEdgeRecord s t k) (λ old,
        putEdgeHistory old ;;;
        let* merged := se_result (mergeJSONProps unmarshal (ed_Props old) props) in
        putEdgeRecord (edge_with_props merged old))
  | MRecordMutationResult r => txn_set (keyMutationByStable (mr_StableID r)) (VResult r)
  end.

(** [db.Update] of a mutation. *)
Definition commit (o : txn_outcome) (op : mutation) (t : T) : result unit * T :=
  db_update o (λ t, match commitInTxn op (MkTxn t 0) with (Ok _, x) => Ok (kv x, tt) | (Err e, _) => Err e end) t.

(** ** Reading the durable store *)
Fixpoint collect {A} (as_ : Value → result A) (l : list (string * Value)) : result (list A) :=
  match l with
  | [] => Ok []
  | kv :: l' => let! a := as_ kv.2 in let! rest := collect as_ l' in Ok (a :: rest)
  end.

Definition load_node (n : NodeRecord) (s : adjacencyStore) : adjacencyStore :=
  addNodeLabels n (addNodeKindIndex n (addNodeSourceIndex n (with_nodes (insert (nd_ID n) n) s))).
Definition load_edge (e : EdgeRecord) (s : adjacencyStore) : adjacencyStore :=
  let s := set_forward (ed_SourceID e) (out_edges (ed_SourceID e) s ++ [e]) s in
  set_reverse (ed_TargetID e) (in_edges (ed_TargetID e) s ++ [e]) s.
Definition load (t : T) : result adjacencyStore :=
  let! ns := collect as_node (kscan (keyPrefix [famNode]) t) in
  let! es := collect as_edge (kscan (keyPrefix [famEdgeOut]) t) in
  Ok (foldl (λ s e, load_edge e s) (foldl (λ s n, load_node n s) newAdjacencyStore ns) es).

Definition getNodeHistory (id : string) (t : T) : result (list NodeRecord) :=
  if bool_decide (id = EmptyString) then Ok [] else collect as_node (kscan (encodeKey [famHistoryNode; id]) t).
Definition getEdgeHistory (sourceID targetID kind : string) (t : T) : result (list EdgeRecord) :=
  if bool_decide (sourceID = EmptyString) || bool_decide (targetID = EmptyString) || bool_decide (kind = EmptyString)
  then Ok [] else collect as_edge (kscan (encodeKey [famHistoryEdge; sourceID; kind; targetID]) t).
Definition getMutationResult (stableID : string) (t : T) : result MutationResult :=
  if bool_decide (stableID = EmptyString) then Err (ErrMsg "stableID is empty")
  else match kget (keyMutationByStable stableID) t with
       | None => Err (ErrMsg "mutation result has empty StableID")
       | Some v => let! r := as_result v in
                   if bool_decide (mr_StableID r = EmptyString) then Err (ErrMsg "mutation result has empty StableID") else Ok r
       end.
Definition listMutationResults (t : T) : result (list MutationResult) := collect as_result (kscan (keyPrefix [famMutation]) t).
Definition edgesBySource (sourceID : string) (t : T) : result (list EdgeRecord) :=
  if bool_decide (sourceID = EmptyString) then Ok [] else collect as_edge (kscan (encodeKey [famEdgeOut; sourceID]) t).
Definition edgesByTarget (targetID : string) (t : T) : result (list EdgeRecord) :=
  if bool_decide (targetID = EmptyString) then Ok []
  else let! es := collect as_edge (kscan (keyPrefix [famEdgeOut]) t) in
       Ok (filter (λ e, ed_TargetID e = targetID) es).
End backend.

(** ** The engine *)
Record Engine (T : Type) := MkEngine {
  e_store : adjacencyStore;
  e_db : T;
  dirtyErr : option gerror;
  testHookApplyFailure : option gerror
}.
Arguments MkEngine {T}.
Arguments e_store {T}.
Arguments e_db {T}.
Arguments dirtyErr {T}.
Arguments testHookApplyFailure {T}.

(** What a call meets: its context's error, the fate of its commit, and the clock before the
    commit, inside it and when memory is changed. *)
Record Env := {
  env_ctx : option gerror;
  env_outcome : txn_outcome;
  env_before : Time;
  env_clk : nat → Time;
  env_after : Time
}.

Definition ErrBatchConflict : gerror := ErrSentinel "graphdb: batch decision diverged from committed state".

Section engine.
Context {T : Type} `{KVT : !KV T Value} `{!Codec}.
Abbreviation EM := (SE (Engine T)).

Definition set_store (s : adjacencyStore) (e : Engine T) : Engine T := MkEngine s (e_db e) (dirtyErr e) (testHookApplyFailure e).
Definition set_db (t : T) (e : Engine T) : Engine T := MkEngine (e_store e) t (dirtyErr e) (testHookApplyFailure e).
Definition set_dirty (err : option gerror) (e : Engine T) : Engine T := MkEngine (e_store e) (e_db e) err (testHookApplyFailure e).

(** [Open] of an existing database. *)
Definition Open (t : T) : result (Engine T) := let! s := load t in Ok (MkEngine s t None None).

Definition checkDirty : EM unit := se_check dirtyErr.
Definition markDirty (err : gerror) : EM unit := se_mod (set_dirty (Some err)).

Definition persist (env : Env) (op : mutation) : EM unit := λ e,
  match env_ctx env with
  | Some err => (Err err, e)
  | None => let (r, t) := commit (env_clk env) (env_outcome env) op (e_db e) in (r, set_db t e)
  end.

(** [applyHook]: a failure leaves the engine dirty. *)
Definition apply_hook : EM unit :=
  let* h := se_get testHookApplyFailure in
  match h with Some err => markDirty err ;;; se_err err | None => se_ret tt end.

Definition apply (f : adjacencyStore → adjacencyStore) : EM unit := se_mod (λ e, set_store (f (e_store e)) e).

(** The application may fail after the commit. *)
Definition apply_or_dirty (f : adjacencyStore → result adjacencyStore) : EM unit :=
  let* r := se_get (λ e, f (e_store e)) in
  match r with Ok s => se_mod (set_store s) | Err err => markDirty err ;;; se_err err end.

Definition stamp_node (now : Time) (n : NodeRecord) : NodeRecord :=
  node_with_times (if (nd_CreatedAt n =? 0)%Z then unix_nano now else nd_CreatedAt n) (unix_nano now) (nd_DeletedAt n) n.
Definition stamp_edge (now : Time) (e : EdgeRecord) : EdgeRecord :=
  edge_with_times (if (ed_CreatedAt e =? 0)%Z then unix_nano now else ed_CreatedAt e) (ed_DeletedAt e) e.

Definition upsert_all (ns : list NodeRecord) (s : adjacencyStore) : adjacencyStore := foldl (λ s n, applyUpsertNode n s) s ns.
Definition link_all (es : list EdgeRecord) (s : adjacencyStore) : adjacencyStore := foldl (λ s e, applyLinkEdge e s) s es.
Definition delete_all (time : Time) (ids : list string) (deletedAt : Z) (s : adjacencyStore) : adjacencyStore :=
  foldl (λ s id, applyDeleteNode time id deletedAt s) s ids.

Definition single {A} (one : A → mutation) (many : list A → mutation) (l : list A) : mutation :=
  match l with [x] => one x | _ => many l end.

Definition UpsertNodes (env : Env) (ns : list NodeRecord) : EM unit :=
  match ns with
  | [] => se_ret tt
  | _ =>
      checkDirty ;;;
      let batch := stamp_node (env_before env) <$> ns in
      persist env (single MUpsertNode MUpsertNodes batch) ;;;
      apply_hook ;;;
      apply (upsert_all batch)
  end.
Definition UpsertNode (env : Env) (n : NodeRecord) : EM unit := UpsertNodes env [n].

Definition DeleteNodes (env : Env) (ids : list string) : EM unit :=
  match ids with
  | [] => se_ret tt
  | _ =>
      checkDirty ;;;
      persist env (single MDeleteNode MDeleteNodes ids) ;;;
      apply_hook ;;;
      apply (delete_all (env_after env) ids (unix_nano (env_after env)))
  end.
Definition DeleteNode (env : Env) (id : string) : EM unit := DeleteNodes env [id].

Definition LinkEdges (env : Env) (es : list EdgeRecord) : EM unit :=
  match es with
  | [] => se_ret tt
  | _ =>
      checkDirty ;;;
      persist env (single MLinkEdge MLinkEdges es) ;;;
      apply_hook ;;;
      apply (link_all es)
  end.

Definition new_edge (sourceID targetID kind : string) (weight : N) (raw : string) (now : Time) : EdgeRecord :=
  {| ed_SourceID := sourceID; ed_TargetID := targetID; ed_Kind := kind; ed_StableID := EmptyString;
     ed_RevisionRootID := EmptyString; ed_RevisionOf := EmptyString; ed_IdempotencyKey := EmptyString;
     ed_TaskID := EmptyString; ed_SessionID := EmptyString; ed_TurnID := EmptyString; ed_StateVersion := 0;
     ed_Weight := weight; ed_Props := raw; ed_CreatedAt := unix_nano now; ed_DeletedAt := 0 |}.
(** [props] is [None] for the nil map. *)
Definition Link (env : Env) (sourceID targetID kind inverseKind : string) (weight : N) (props : option (gmap string Json)) : EM unit :=
  let* raw := se_result (marshal_map props) in
  let now := env_before env in
  LinkEdges env (new_edge sourceID targetID kind weight raw now ::
                 if bool_decide (inverseKind = EmptyString) then []
                 else [new_edge targetID sourceID inverseKind weight raw now]).

Definition Unlink (env : Env) (sourceID targetID kind : string) (hard : bool) : EM unit :=
  checkDirty ;;;
  persist env (MUnlinkEdge sourceID targetID kind hard) ;;;
  apply_hook ;;;
  apply (applyUnlink (env_after env) sourceID targetID kind hard (unix_nano (env_after env))).

Definition AnnotateNode (env : Env) (id : string) (props : gmap string Json) : EM unit :=
  if bool_decide (id = EmptyString) || bool_decide (props = ∅) then se_ret tt
  else
    checkDirty ;;;
    persist env (MAnnotateNode id props) ;;;
    apply_or_dirty (annotateNodeLocked unmarshal (env_after env) id props (unix_nano (env_after env))).

Definition AnnotateEdge (env : Env) (sourceID targetID kind : string) (props : gmap string Json) : EM unit :=
  if bool_decide (sourceID = EmptyString) || bool_decide (targetID = EmptyString) || bool_decide (kind = EmptyString) || bool_decide (props = ∅)
  then se_ret tt
  else
    checkDirty ;;;
    persist env (MAnnotateEdge sourceID targetID kind props) ;;;
    apply_or_dirty (annotateEdgeLocked unmarshal sourceID targetID kind props).

Definition ReplaceEdge (env1 env2 : Env) (oldSourceID oldTargetID oldKind : string) (replacement : EdgeRecord) : EM unit :=
  Unlink env1 oldSourceID oldTargetID oldKind false ;;; LinkEdges env2 [replacement].

Definition RecordMutationResult (env : Env) (r : MutationResult) : EM unit :=
  checkDirty ;;;
  let r := if time_is_zero (mr_AppliedAt r) then with_AppliedAt (env_before env) r else r in
  let r := Normalize (mr_TaskID r) (mr_SessionID r) r in
  persist env (MRecordMutationResult r) ;;;
  apply_hook.

(** ** Batches *)

(** [validate] reads the store under its lock; the batch is committed by then. *)
Definition ApplyBatchValidated (env : Env) (ns : list NodeRecord) (es : list EdgeRecord)
    (validate : option ((string → option NodeRecord) → option gerror)) : EM unit :=
  match ns, es with
  | [], [] => se_ret tt
  | _, _ =>
      checkDirty ;;;
      let ns := stamp_node (env_before env) <$> ns in
      let es := stamp_edge (env_before env) <$> es in
      persist env (MApplyBatch ns es) ;;;
      apply_hook ;;;
      let* rejected := se_get (λ e, match validate with Some v => v (λ id, activeNode id (e_store e)) | None => None end) in
      match rejected with
      | Some _ => se_err ErrBatchConflict
      | None => apply (λ s, link_all es (upsert_all ns s))
      end
  end.
Definition ApplyBatch (env : Env) (ns : list NodeRecord) (es : list EdgeRecord) : EM unit := ApplyBatchValidated env ns es None.

Definition applyBatchRetries : nat := 12.

(** [cancelled i] is the context's error while the loop waits after attempt [i]. *)
Fixpoint checked_loop (tries i : nat) (env : nat → Env) (cancelled : nat → option gerror)
    (prepare : Engine T → result (list NodeRecord * list EdgeRecord))
    (validate : (string → option NodeRecord) → option gerror) : EM unit := λ e,
  match prepare e with
  | Err err => (Err err, e)
  | Ok (ns, es) =>
      match ApplyBatchValidated (env i) ns es (Some validate) e with
      | (Ok _, e) => (Ok tt, e)
      | (Err err, e) =>
          if negb (errors_is err ErrBatchConflict) && negb (errors_is err badger_ErrConflict) then (Err err, e)
          else match tries with
               | O => (Err err, e)
               | S tries => match cancelled i with
                            | Some c => (Err c, e)
                            | None => checked_loop tries (S i) env cancelled prepare validate e
                            end
               end
      end
  end.
Definition ApplyBatchChecked := checked_loop applyBatchRetries 0.

(** ** Reload *)
Definition Rebuild : EM unit := λ e,
  match load (e_db e) with
  | Err err => (Err err, e)
  | Ok s => (Ok tt, set_dirty None (set_store s e))
  end.

Definition NodeRevisions (id : string) (e : Engine T) : list NodeRecord :=
  match getNodeHistory id (e_db e) with Ok l => l | Err _ => [] end.
Definition EdgeRevisions (sourceID targetID kind : string) (e : Engine T) : list EdgeRecord :=
  match getEdgeHistory sourceID targetID kind (e_db e) with Ok l => l | Err _ => [] end.
Definition MutationResult_of (stableID : string) (e : Engine T) : option MutationResult :=
  match getMutationResult stableID (e_db e) with Ok r => Some r | Err _ => None end.
End engine.
