(* ===== verification/KnowledgeMirror.v ===== *)
(** * KnowledgeMirror

    The in-memory knowledge graph stays consistent: after any operations its label index is
    exact, its kind and source indexes miss no node, both directions of every edge agree,
    and so the listings and the neighbourhoods it answers with are exact. *)
From S2P Require Import Prelude GoStrings GoEncoding EnvelopeMerge KV KnowledgeStore.

(** ** Indexes *)
Lemma index_ids_add k id m k' :
  index_ids k' (index_add k id m) = if decide (k = k') then {[id]} ∪ index_ids k m else index_ids k' m.
Proof. unfold index_add, index_ids at 1. case_decide; [subst; by rewrite lookup_insert_eq|by rewrite lookup_insert_ne]. Qed.

Lemma index_ids_remove k id m k' :
  index_ids k' (index_remove k id m) = if decide (k = k') then index_ids k m ∖ {[id]} else index_ids k' m.
Proof.
  unfold index_remove, index_ids. destruct (m !! k) as [ids|] eqn:E.
  2: { case_decide; [subst|done]. rewrite E. cbn. set_solver. }
  case_bool_decide as H1; [case_decide; [subst k'; rewrite E; cbn; set_solver|done]|].
  case_bool_decide as H2; (case_decide; [subst k'|by rewrite ?lookup_delete_ne, ?lookup_insert_ne]).
  - rewrite lookup_delete_eq. cbn. by rewrite H2.
  - by rewrite lookup_insert_eq.
Qed.

Lemma uniqueLabels_loop_spec labels : ∀ seen l, l ∈ uniqueLabels_loop seen labels → l ≠ EmptyString.
Proof.
  induction labels as [|x labels IH]; intros seen l; cbn [uniqueLabels_loop]; [by intros ?%not_elem_of_nil|].
  destruct (bool_decide (trim_space x = _)) eqn:E1; cbn [orb]; [apply IH|].
  destruct (bool_decide (_ ∈ seen)); [apply IH|]. intros [->|?]%elem_of_cons; [|by eapply IH].
  by apply bool_decide_eq_false in E1.
Qed.
Lemma uniqueLabels_nonempty labels : Forall (λ l, l ≠ EmptyString) (uniqueLabels labels).
Proof. apply Forall_forall. intros l. apply uniqueLabels_loop_spec. Qed.

Lemma label_add_all id L m : id ≠ EmptyString → Forall (λ l, l ≠ EmptyString) L → ∀ l x,
  x ∈ index_ids l (foldl (λ m l, label_add l id m) m L) ↔ x ∈ index_ids l m ∨ (x = id ∧ l ∈ L).
Proof.
  intros Hid HL. revert m. induction HL as [|k L Hk _ IH]; intros m l x; cbn [foldl]; [set_solver|].
  rewrite IH. unfold label_add. rewrite !bool_decide_false by done. cbn [orb]. rewrite index_ids_add.
  case_decide; set_solver.
Qed.
Lemma label_remove_all id L m : id ≠ EmptyString → Forall (λ l, l ≠ EmptyString) L → ∀ l x,
  x ∈ index_ids l (foldl (λ m l, label_remove l id m) m L) ↔ x ∈ index_ids l m ∧ ¬ (x = id ∧ l ∈ L).
Proof.
  intros Hid HL. revert m. induction HL as [|k L Hk _ IH]; intros m l x; cbn [foldl]; [set_solver|].
  rewrite IH. unfold label_remove. rewrite !bool_decide_false by done. cbn [orb]. rewrite index_ids_remove.
  case_decide; set_solver.
Qed.

(** ** Nodes *)

(** What the label index must hold. *)
Definition labelled (s : adjacencyStore) (l id : string) : Prop :=
  id ≠ EmptyString ∧ ∃ n, activeNode id s = Some n ∧ l ∈ uniqueLabels (nd_Labels n).

(** The indexes are right about the nodes that satisfy [P]; no other node has a label. *)
Record indexed (P : string → Prop) (s : adjacencyStore) : Prop := {
  ix_id : ∀ id n, s_nodes s !! id = Some n → nd_ID n = id;
  ix_label : ∀ l id, id ∈ index_ids l (byLabel s) ↔ P id ∧ labelled s l id;
  ix_kind : ∀ id n, P id → id ≠ EmptyString → activeNode id s = Some n → id ∈ index_ids (nd_Kind n) (byKind s);
  ix_source : ∀ id n, P id → id ≠ EmptyString → activeNode id s = Some n → nd_SourceID n ≠ EmptyString →
    id ∈ index_ids (nd_SourceID n) (bySource s)
}.
Abbreviation wf_nodes := (indexed (λ _, True)).
Abbreviation wf_but id := (indexed (λ x, x ≠ id)).

Lemma activeNode_insert id n s x : activeNode x (with_nodes (insert id n) s) =
  if decide (x = id) then (if node_active n then Some n else None) else activeNode x s.
Proof.
  unfold activeNode. cbn. case_decide; [subst; by rewrite lookup_insert_eq|by rewrite lookup_insert_ne].
Qed.

Definition store_node (n : NodeRecord) (s : adjacencyStore) : adjacencyStore :=
  addNodeLabels n (addNodeKindIndex n (addNodeSourceIndex n (with_nodes (insert (nd_ID n) n) s))).

Lemma store_node_source n s : bySource (store_node n s) =
  if blank_id (nd_SourceID n) (nd_ID n) then bySource s else index_add (nd_SourceID n) (nd_ID n) (bySource s).
Proof. unfold store_node, addNodeLabels, addNodeKindIndex, addNodeSourceIndex. by repeat case_match. Qed.
Lemma store_node_kind n s : byKind (store_node n s) =
  if bool_decide (nd_ID n = EmptyString) || negb (node_active n) then byKind s else index_add (nd_Kind n) (nd_ID n) (byKind s).
Proof. unfold store_node, addNodeLabels, addNodeKindIndex, addNodeSourceIndex. by repeat case_match. Qed.
Lemma store_node_label n s : byLabel (store_node n s) =
  if bool_decide (nd_ID n = EmptyString) || negb (node_active n) then byLabel s
  else foldl (λ m l, label_add l (nd_ID n) m) (byLabel s) (uniqueLabels (nd_Labels n)).
Proof. unfold store_node, addNodeLabels, addNodeKindIndex, addNodeSourceIndex. by repeat case_match. Qed.
Lemma store_node_nodes n s : s_nodes (store_node n s) = <[nd_ID n := n]> (s_nodes s).
Proof. unfold store_node, addNodeLabels, addNodeKindIndex, addNodeSourceIndex. by repeat case_match. Qed.
Lemma store_node_active n s x : activeNode x (store_node n s) =
  if decide (x = nd_ID n) then (if node_active n then Some n else None) else activeNode x s.
Proof. unfold activeNode at 1. rewrite store_node_nodes. apply (activeNode_insert (nd_ID n) n s x). Qed.

Lemma index_mono k id m k' x : x ∈ index_ids k' m → x ∈ index_ids k' (index_add k id m).
Proof. rewrite index_ids_add. case_decide; set_solver. Qed.
Lemma index_added k id m : id ∈ index_ids k (index_add k id m).
Proof. rewrite index_ids_add, decide_True by done. set_solver. Qed.

Lemma store_node_wf n s : wf_but (nd_ID n) s → wf_nodes (store_node n s).
Proof.
  intros [Hid Hl Hk Hs]. split.
  - intros id m. rewrite store_node_nodes. intros [[<- <-]|[? H]]%lookup_insert_Some; [done|by apply Hid].
  - intros l id. rewrite store_node_label. unfold labelled. rewrite store_node_active.
    destruct (decide (nd_ID n = EmptyString)) as [E0|E0].
    { rewrite bool_decide_true by done. cbn [orb]. rewrite Hl. unfold labelled. case_decide; naive_solver. }
    rewrite bool_decide_false by done. cbn [orb]. destruct (node_active n) eqn:Ea; cbn [negb].
    + rewrite label_add_all by (done || apply uniqueLabels_nonempty). rewrite Hl. unfold labelled. case_decide; naive_solver.
    + rewrite Hl. unfold labelled. case_decide; naive_solver.
  - intros id m _ Hne. rewrite store_node_active, store_node_kind. case_decide as E.
    + destruct (node_active n) eqn:Ea; [|done]. intros [= <-]. subst id. rewrite bool_decide_false by done. apply index_added.
    + intros Hm. destruct (_ || _); [by apply Hk|]. by apply index_mono, Hk.
  - intros id m _ Hne. rewrite store_node_active, store_node_source. case_decide as E.
    + destruct (node_active n) eqn:Ea; [|done]. intros [= <-] Hsrc. subst id. unfold blank_id.
      rewrite !bool_decide_false by done. apply index_added.
    + intros Hm Hsrc. destruct (blank_id _ _); [by apply Hs|]. by apply index_mono, Hs.
Qed.

(** ** Taking a node out of the indexes *)
Lemma indexed_weaken (P Q : string → Prop) s s' :
  indexed P s → s_nodes s' = s_nodes s →
  (∀ l id, id ∈ index_ids l (byLabel s') ↔ Q id ∧ id ∈ index_ids l (byLabel s)) →
  (∀ id, Q id → P id) →
  (∀ k id, Q id → id ∈ index_ids k (byKind s) → id ∈ index_ids k (byKind s')) →
  (∀ k id, Q id → id ∈ index_ids k (bySource s) → id ∈ index_ids k (bySource s')) → indexed Q s'.
Proof.
  intros [Hid Hl Hk Hs] En El HQ Ek Es.
  assert (∀ id, activeNode id s' = activeNode id s) as Ea by (intros id; unfold activeNode; by rewrite En).
  split; intros *; rewrite ?En; eauto.
  - rewrite El, Hl. unfold labelled. rewrite Ea. naive_solver.
  - intros HP Hne. rewrite Ea. auto.
  - intros HP Hne. rewrite Ea. auto.
Qed.

Lemma remove_other k id m k' x : x ≠ id → x ∈ index_ids k' m → x ∈ index_ids k' (index_remove k id m).
Proof. intros Hx. rewrite index_ids_remove. case_decide; set_solver. Qed.

(** Removing the labels of the node stored under an ID, and possibly its kind and source. *)
Lemma remove_labels_wf ex s : wf_nodes s → s_nodes s !! nd_ID ex = Some ex → ∀ s',
  s_nodes s' = s_nodes s → byLabel s' = byLabel s →
  (∀ k id, id ≠ nd_ID ex → id ∈ index_ids k (byKind s) → id ∈ index_ids k (byKind s')) →
  (∀ k id, id ≠ nd_ID ex → id ∈ index_ids k (bySource s) → id ∈ index_ids k (bySource s')) →
  wf_but (nd_ID ex) (removeNodeLabels ex s').
Proof.
  intros Hwf Hex s' En El Ek Es. eapply (indexed_weaken _ _ s); [exact Hwf|..].
  - rewrite <- En. unfold removeNodeLabels. by case_match.
  - intros l id. unfold removeNodeLabels. case_bool_decide as E0.
    + rewrite El, (ix_label _ _ Hwf). unfold labelled. rewrite E0. naive_solver.
    + cbn. rewrite label_remove_all by (done || apply uniqueLabels_nonempty). rewrite El. split; [|naive_solver].
      intros [Hin Hn]. split; [|done]. intros ->. apply Hn. split; [done|]. apply (ix_label _ _ Hwf) in Hin as (_ & _ & n & Hn' & Hl).
      unfold activeNode in Hn'. rewrite Hex in Hn'. cbn in Hn'. destruct (node_active ex); [|done]. by injection Hn' as <-.
  - done.
  - intros k id Hne Hin. unfold removeNodeLabels. case_match; cbn; auto.
  - intros k id Hne Hin. unfold removeNodeLabels. case_match; cbn; auto.
Qed.

Lemma wf_nodes_but id s : wf_nodes s → s_nodes s !! id = None → wf_but id s.
Proof.
  intros Hwf Hn. eapply (indexed_weaken _ _ s); [exact Hwf|done| |done|done|done].
  intros l x. split; [|naive_solver]. intros Hin. split; [|done]. intros ->.
  apply (ix_label _ _ Hwf) in Hin as (_ & _ & n & Hn' & _). unfold activeNode in Hn'. by rewrite Hn in Hn'.
Qed.

Lemma remove_source_other ex k s id x : x ≠ id → x ∈ index_ids k (bySource s) →
  x ∈ index_ids k (bySource (removeNodeSourceIndex id ex s)).
Proof. intros Hx Hin. unfold removeNodeSourceIndex. case_match; [done|]. by apply remove_other. Qed.
Lemma remove_kind_other ex k s x : x ≠ nd_ID ex → x ∈ index_ids k (byKind s) →
  x ∈ index_ids k (byKind (removeNodeKindIndex ex s)).
Proof. intros Hx Hin. unfold removeNodeKindIndex. case_match; [done|]. by apply remove_other. Qed.

Lemma upsert_wf n s : wf_nodes s → wf_nodes (applyUpsertNode n s).
Proof.
  intros Hwf. unfold applyUpsertNode. destruct (s_nodes s !! nd_ID n) as [ex|] eqn:Hex.
  2: { apply store_node_wf. by apply wf_nodes_but. }
  set (n' := if (nd_CreatedAt n =? 0)%Z then _ else n). assert (nd_ID n' = nd_ID n) as En by (unfold n'; by case_match).
  case_match; [done|]. pose proof (ix_id _ _ Hwf _ _ Hex) as Ei. apply (store_node_wf n'). rewrite En, <- Ei.
  rewrite <- Ei in Hex. apply (remove_labels_wf ex s Hwf Hex).
  - unfold removeNodeKindIndex, removeNodeSourceIndex. by repeat case_match.
  - unfold removeNodeKindIndex, removeNodeSourceIndex. by repeat case_match.
  - intros k id Hne Hin. case_match; [apply remove_kind_other; [done|]|];
      (case_match; [unfold removeNodeSourceIndex; by case_match|done]).
  - intros k id Hne Hin. set (s1 := if _ && _ then removeNodeSourceIndex _ _ s else s).
    assert (id ∈ index_ids k (bySource s1)) as Hs.
    { unfold s1. case_match; [|done]. apply remove_source_other; [congruence|done]. }
    case_match; [|done]. unfold removeNodeKindIndex. by case_match.
Qed.

(** ** Deletion and annotation of nodes *)
Definition same_nodes (s s' : adjacencyStore) : Prop :=
  s_nodes s' = s_nodes s ∧ byLabel s' = byLabel s ∧ byKind s' = byKind s ∧ bySource s' = bySource s.
Lemma same_nodes_wf s s' : same_nodes s s' → wf_nodes s → wf_nodes s'.
Proof.
  intros (En & El & Ek & Es) Hwf. eapply (indexed_weaken _ _ s); [exact Hwf|done| | | |]; rewrite ?El, ?Ek, ?Es; naive_solver.
Qed.
#[global] Instance same_nodes_trans : Transitive same_nodes.
Proof. intros a b c (? & ? & ? & ?) (? & ? & ? & ?). split_and!; congruence. Qed.
#[global] Instance same_nodes_refl : Reflexive same_nodes.
Proof. done. Qed.

Lemma fold_same {A} (f : adjacencyStore → A → adjacencyStore) l : (∀ s x, same_nodes s (f s x)) → ∀ s, same_nodes s (foldl f s l).
Proof. intros Hf. induction l as [|x l IH]; intros s; [done|]. cbn. etrans; [apply Hf|apply IH]. Qed.

(** Storing an inactive node under an ID with no labels. *)
Lemma insert_inactive_wf id n s : wf_but id s → nd_ID n = id → node_active n = false → wf_nodes (with_nodes (insert id n) s).
Proof.
  intros [Hid Hl Hk Hs] En Ha.
  assert (∀ x m, activeNode x (with_nodes (insert id n) s) = Some m → x ≠ id ∧ activeNode x s = Some m) as Hact.
  { intros x m. rewrite activeNode_insert, Ha. by case_decide. }
  split.
  - intros x m. cbn. intros [[<- <-]|[? H]]%lookup_insert_Some; [done|by apply Hid].
  - intros l x. cbn [byLabel with_nodes]. rewrite Hl. unfold labelled. rewrite activeNode_insert, Ha. case_decide; naive_solver.
  - intros x m _ Hne [? ?]%Hact. by apply Hk.
  - intros x m _ Hne [? ?]%Hact. by apply Hs.
Qed.

Lemma removed_source_wf id src s : (∀ n, activeNode id s = Some n → False) → wf_nodes s → wf_nodes (removeNodeSourceIndex id src s).
Proof.
  intros Hno [Hid Hl Hk Hs].
  assert (same_nodes (with_source (λ _, bySource s) (removeNodeSourceIndex id src s)) s ∧
          byLabel (removeNodeSourceIndex id src s) = byLabel s) as [(En & El & Ek & Es) _]
    by (unfold removeNodeSourceIndex; by case_match).
  cbn in En, El, Ek. assert (∀ x, activeNode x (removeNodeSourceIndex id src s) = activeNode x s) as Ea
    by (intros x; unfold activeNode; by rewrite <- En).
  split.
  - intros x n. rewrite <- En. apply Hid.
  - intros l x. rewrite <- El, Hl. unfold labelled. by rewrite Ea.
  - intros x n H Hne. rewrite Ea, <- Ek. by apply Hk.
  - intros x n H Hne. rewrite Ea. intros Hn Hsrc. apply remove_source_other; [|by apply Hs].
    intros ->. by eapply Hno.
Qed.

Lemma delete_nodes_same time id at_ s : ∃ s1, same_nodes s1 (applyDeleteNode time id at_ s) ∧
  let d := if (at_ =? 0)%Z then unix_nano time else at_ in
  s1 = match s_nodes s !! id with
       | None => s
       | Some n => removeNodeSourceIndex (nd_ID n) (nd_SourceID n)
                     (with_nodes (insert id (node_with_times (nd_CreatedAt n) d d n)) (removeNodeKindIndex n (removeNodeLabels n s)))
       end.
Proof.
  eexists; split; [|reflexivity]. unfold applyDeleteNode.
  etrans; [|apply fold_same; done]. etrans; [|apply fold_same; done]. done.
Qed.

Lemma delete_wf time id at_ s : unix_nano time ≠ 0%Z → wf_nodes s → wf_nodes (applyDeleteNode time id at_ s).
Proof.
  intros Ht Hwf. destruct (delete_nodes_same time id at_ s) as (s1 & Hsame & ->). eapply same_nodes_wf; [exact Hsame|].
  destruct (s_nodes s !! id) as [n|] eqn:Hn; [|done]. clear Hsame. pose proof (ix_id _ _ Hwf _ _ Hn) as <-.
  set (n' := node_with_times _ _ _ n). assert (node_active n' = false) as Ha.
  { unfold node_active, n'. cbn. case_match; lia. }
  apply removed_source_wf.
  { intros m. rewrite activeNode_insert, Ha. by case_decide. }
  apply insert_inactive_wf; [|done|done].
  eapply (indexed_weaken _ _ (removeNodeLabels n s)).
  - by apply (remove_labels_wf n s Hwf Hn s).
  - unfold removeNodeKindIndex. by case_match.
  - intros l x. assert (byLabel (removeNodeKindIndex n (removeNodeLabels n s)) = byLabel (removeNodeLabels n s)) as ->
      by (unfold removeNodeKindIndex; by case_match).
    split; [|naive_solver]. intros Hin. split; [|done].
    by apply (ix_label _ _ (remove_labels_wf n s Hwf Hn s eq_refl eq_refl (λ _ _ _ H, H) (λ _ _ _ H, H))) in Hin as [? _].
  - done.
  - intros k x Hx. by apply remove_kind_other.
  - intros k x Hx. unfold removeNodeKindIndex. by case_match.
Qed.

(** Replacing a node by one that is indexed alike. *)
Lemma replace_node_wf id n n' s : wf_nodes s → s_nodes s !! id = Some n →
  nd_ID n' = nd_ID n → node_active n' = node_active n → nd_Labels n' = nd_Labels n → nd_Kind n' = nd_Kind n →
  nd_SourceID n' = nd_SourceID n → wf_nodes (with_nodes (insert id n') s).
Proof.
  intros [Hid Hl Hk Hs] Hn E1 E2 E3 E4 E5.
  assert (∀ x m, activeNode x (with_nodes (insert id n') s) = Some m →
    ∃ m', activeNode x s = Some m' ∧ nd_Labels m = nd_Labels m' ∧ nd_Kind m = nd_Kind m' ∧ nd_SourceID m = nd_SourceID m') as Hto.
  { intros x m. rewrite activeNode_insert. case_decide as E; [subst|by eauto]. rewrite E2. unfold activeNode. rewrite Hn. cbn.
    destruct (node_active n); [|done]. intros [= <-]. by exists n. }
  assert (∀ x m, activeNode x s = Some m → ∃ m', activeNode x (with_nodes (insert id n') s) = Some m' ∧ nd_Labels m' = nd_Labels m) as Hfrom.
  { intros x m. rewrite activeNode_insert. case_decide as E; [subst|by eauto]. rewrite E2. unfold activeNode. rewrite Hn. cbn.
    destruct (node_active n); [|done]. intros [= <-]. by exists n'. }
  split.
  - intros x m. cbn. intros [[<- <-]|[? H]]%lookup_insert_Some; [rewrite E1; by apply Hid|by apply Hid].
  - intros l x. cbn [byLabel with_nodes]. rewrite Hl. unfold labelled. split; intros (_ & Hx & m & Hm & Hlm); split; try done; split; try done.
    + apply Hfrom in Hm as (m' & Hm' & E). exists m'. by rewrite E.
    + apply Hto in Hm as (m' & Hm' & E & _). exists m'. by rewrite <- E.
  - intros x m H Hne Hm. apply Hto in Hm as (m' & Hm' & _ & -> & _). by apply Hk.
  - intros x m H Hne Hm Hsrc. apply Hto in Hm as (m' & Hm' & _ & _ & E). rewrite E in Hsrc |- *. by apply Hs.
Qed.

Lemma annotate_node_wf um time id props at_ s s' : annotateNodeLocked um time id props at_ s = Ok s' → wf_nodes s → wf_nodes s'.
Proof.
  unfold annotateNodeLocked. destruct (s_nodes s !! id) as [n|] eqn:Hn; [|by intros [= <-]].
  destruct (node_active n) eqn:Ha; [|by intros [= <-]]. cbn. intros (p & _ & H)%rbind_ok Hwf.
  destruct (bool_decide _); injection H as <-; [done|]. by eapply replace_node_wf.
Qed.

(** ** Edges *)

(** Every edge is in the list of its source and in the list of its target, once in each. *)
Record wf_edges (s : adjacencyStore) : Prop := {
  we_out : ∀ v, Forall (λ e, ed_SourceID e = v) (out_edges v s);
  we_in : ∀ v, Forall (λ e, ed_TargetID e = v) (in_edges v s);
  we_once_out : ∀ v, NoDup (edge_key <$> out_edges v s);
  we_once_in : ∀ v, NoDup (edge_key <$> in_edges v s);
  we_agree : ∀ e, e ∈ out_edges (ed_SourceID e) s ↔ e ∈ in_edges (ed_TargetID e) s
}.

Lemma out_set_forward id es s v : out_edges v (set_forward id es s) = if decide (v = id) then es else out_edges v s.
Proof. unfold out_edges, set_forward. cbn. case_decide; [subst; by rewrite lookup_insert_eq|by rewrite lookup_insert_ne]. Qed.
Lemma in_set_reverse id es s v : in_edges v (set_reverse id es s) = if decide (v = id) then es else in_edges v s.
Proof. unfold in_edges, set_reverse. cbn. case_decide; [subst; by rewrite lookup_insert_eq|by rewrite lookup_insert_ne]. Qed.
Lemma out_set_reverse id es s v : out_edges v (set_reverse id es s) = out_edges v s.
Proof. done. Qed.
Lemma in_set_forward id es s v : in_edges v (set_forward id es s) = in_edges v s.
Proof. done. Qed.

Lemma same_edge_spec src tgt k e : same_edge src tgt k e = true ↔ edge_key e = (src, k, tgt).
Proof. unfold same_edge, edge_key. rewrite !andb_true_iff, !bool_decide_eq_true. naive_solver. Qed.
Lemma same_edge_false src tgt k e : same_edge src tgt k e = false ↔ edge_key e ≠ (src, k, tgt).
Proof. rewrite <- not_true_iff_false, same_edge_spec. done. Qed.

Definition keeps_key (m : EdgeRecord → EdgeRecord) : Prop := ∀ e, edge_key (m e) = edge_key e.

(** The lists of [s'] are those of [s] with every edge replaced. *)
Definition maps (m : EdgeRecord → EdgeRecord) (s s' : adjacencyStore) : Prop :=
  ∀ v, out_edges v s' = m <$> out_edges v s ∧ in_edges v s' = m <$> in_edges v s.

Lemma keeps_fmap m (l : list EdgeRecord) : keeps_key m → edge_key <$> (m <$> l) = edge_key <$> l.
Proof. intros Hm. rewrite <- list_fmap_compose. apply list_fmap_ext. intros i e _. apply Hm. Qed.

Lemma maps_wf m s s' : keeps_key m → maps m s s' → wf_edges s → wf_edges s'.
Proof.
  intros Hm Hs [Ho Hi No Ni Ha]. assert (∀ e, ed_SourceID (m e) = ed_SourceID e ∧ ed_TargetID (m e) = ed_TargetID e) as Hk
    by (intros e; specialize (Hm e); unfold edge_key in Hm; by injection Hm).
  split; intros x; try destruct (Hs x) as [E1 E2].
  - rewrite E1. apply Forall_fmap. eapply Forall_impl; [apply Ho|]. intros e <-. apply Hk.
  - rewrite E2. apply Forall_fmap. eapply Forall_impl; [apply Hi|]. intros e <-. apply Hk.
  - by rewrite E1, keeps_fmap.
  - by rewrite E2, keeps_fmap.
  - rewrite (proj1 (Hs _)), (proj2 (Hs _)), !list_elem_of_fmap.
    split; intros (y & -> & Hy); exists y; (split; [done|]); destruct (Hk y) as [Ks Kt]; rewrite ?Ks, ?Kt in *; by apply Ha.
Qed.

Lemma upsertEdge_elem e l x : NoDup (edge_key <$> l) →
  x ∈ upsertEdge e l ↔ x = e ∨ (x ∈ l ∧ edge_key x ≠ edge_key e).
Proof.
  induction l as [|y l IH]; cbn [upsertEdge fmap list_fmap]; [set_solver|]. intros [Hy Hl]%NoDup_cons.
  destruct (same_edge _ _ _ y) eqn:E.
  - apply same_edge_spec in E. change (edge_key y = edge_key e) in E. rewrite !elem_of_cons. split.
    + intros [->|Hx]; [by left|]. right. split; [by right|]. intros Ek. apply Hy. rewrite E, <- Ek. by apply list_elem_of_fmap_2.
    + intros [->|[[->|Hx] Hn]]; [by left|congruence|by right].
  - apply same_edge_false in E. change (edge_key y ≠ edge_key e) in E. rewrite !elem_of_cons, IH by done.
    split; [intros [->|[->|[Hx Hn]]]; auto|intros [->|[[->|Hx] Hn]]; auto].
Qed.
Lemma upsertEdge_keys e l : NoDup (edge_key <$> l) → NoDup (edge_key <$> upsertEdge e l).
Proof.
  induction l as [|y l IH]; cbn [upsertEdge fmap list_fmap]; [intros _; apply NoDup_singleton|]. intros [Hy Hl]%NoDup_cons.
  destruct (same_edge _ _ _ y) eqn:E; cbn [fmap list_fmap]; apply NoDup_cons.
  - apply same_edge_spec in E. change (edge_key y = edge_key e) in E. by rewrite <- E.
  - split; [|by apply IH]. apply same_edge_false in E. intros (x & Ex & Hx)%list_elem_of_fmap.
    apply upsertEdge_elem in Hx as [->|[Hx _]]; [by apply E|by apply Hy; rewrite Ex; apply list_elem_of_fmap_2|done].
Qed.

Lemma link_wf e s : wf_edges s → wf_edges (applyLinkEdge e s).
Proof.
  intros [Ho Hi No Ni Ha]. unfold applyLinkEdge. case_match; [done|]. clear H.
  split; intros x; rewrite ?out_set_reverse, ?out_set_forward, ?in_set_reverse, ?in_set_forward.
  - case_decide as E; [|apply Ho]. subst. apply Forall_forall. intros y [->|[Hy _]]%upsertEdge_elem; [done| |apply No].
    specialize (Ho (ed_SourceID e)). rewrite Forall_forall in Ho. auto.
  - case_decide as E; [|apply Hi]. subst. apply Forall_forall. intros y [->|[Hy _]]%upsertEdge_elem; [done| |apply Ni].
    specialize (Hi (ed_TargetID e)). rewrite Forall_forall in Hi. auto.
  - case_decide; [|apply No]. subst. apply upsertEdge_keys, No.
  - case_decide; [|apply Ni]. subst. apply upsertEdge_keys, Ni.
  - assert (x ∈ (if decide (ed_SourceID x = ed_SourceID e) then upsertEdge e (out_edges (ed_SourceID e) s)
      else out_edges (ed_SourceID x) s) ↔ x = e ∨ (x ∈ out_edges (ed_SourceID x) s ∧ edge_key x ≠ edge_key e)) as ->.
    { case_decide as E; [rewrite upsertEdge_elem by apply No; by rewrite E|].
      split; [|by intros [->|[? _]]]. intros Hx. right. split; [done|]. by intros [= ? _ _]. }
    rewrite Ha. symmetry. case_decide as E; [rewrite upsertEdge_elem by apply Ni; by rewrite E|].
    split; [|by intros [->|[? _]]]. intros Hx. right. split; [done|]. by intros [= _ _ ?].
Qed.

(** Marking edges deleted. *)
Definition mark_if (which : EdgeRecord → bool) (d : Z) (e : EdgeRecord) : EdgeRecord :=
  if which e then edge_with_times (ed_CreatedAt e) d e else e.
Lemma mark_keeps which d : keeps_key (mark_if which d).
Proof. intros e. unfold mark_if. by case_match. Qed.

Lemma mark_none which d (l : list EdgeRecord) : Forall (λ e, which e = false) l → mark_if which d <$> l = l.
Proof. induction 1 as [|e l He _ IH]; [done|]. cbn. unfold mark_if at 1. by rewrite He, IH. Qed.
Lemma markSpecific_if src tgt k d l : markSpecificEdgeDeleted src tgt k d l = mark_if (same_edge src tgt k) d <$> l.
Proof. done. Qed.
Lemma markEdges_if d l : markEdgesDeleted d l = mark_if (λ _, true) d <$> l.
Proof. done. Qed.
Lemma mark_both p q d (l : list EdgeRecord) : mark_if q d <$> (mark_if p d <$> l) = mark_if (λ e, p e || q e) d <$> l.
Proof. rewrite <- list_fmap_compose. apply list_fmap_ext. intros i e _. cbn. unfold mark_if. destruct (p e) eqn:Ep; cbn; [|done].
  by destruct (q _). Qed.

Lemma unlink_wf time src tgt k hard at_ s : wf_edges s → wf_edges (applyUnlink time src tgt k hard at_ s).
Proof.
  intros Hwf. unfold applyUnlink, mutateEdgeSlice. cbv zeta. set (d := if (at_ =? 0)%Z then _ else _).
  assert (∀ v, v ≠ src → Forall (λ e, same_edge src tgt k e = false) (out_edges v s)) as Hout.
  { intros v Hv. eapply Forall_impl; [apply (we_out s Hwf)|]. cbn. intros e <-. apply same_edge_false. by intros [= ? _ _]. }
  assert (∀ v, v ≠ tgt → Forall (λ e, same_edge src tgt k e = false) (in_edges v s)) as Hin.
  { intros v Hv. eapply Forall_impl; [apply (we_in s Hwf)|]. cbn. intros e <-. apply same_edge_false. by intros [= _ _ ?]. }
  destruct hard.
  - set (keep := λ e, same_edge src tgt k e = false).
    assert (∀ v, out_edges v (set_reverse tgt (filter keep (in_edges tgt (set_forward src (filter keep (out_edges src s)) s)))
       (set_forward src (filter keep (out_edges src s)) s)) = filter keep (out_edges v s)) as Eo.
    { intros v. rewrite out_set_reverse, out_set_forward. case_decide; [by subst|]. symmetry. apply list_filter_all.
      intros e He. by eapply Forall_forall in Hout; [|done|exact He]. }
    assert (∀ v, in_edges v (set_reverse tgt (filter keep (in_edges tgt (set_forward src (filter keep (out_edges src s)) s)))
       (set_forward src (filter keep (out_edges src s)) s)) = filter keep (in_edges v s)) as Ei.
    { intros v. rewrite in_set_reverse, !in_set_forward. case_decide; [by subst|]. symmetry. apply list_filter_all.
      intros e He. by eapply Forall_forall in Hin; [|done|exact He]. }
    destruct Hwf as [Ho Hi No Ni Ha]. split; intros x; rewrite ?Eo, ?Ei.
    + apply Forall_forall. intros e [_ He]%list_elem_of_filter. by revert e He; apply Forall_forall, Ho.
    + apply Forall_forall. intros e [_ He]%list_elem_of_filter. by revert e He; apply Forall_forall, Hi.
    + eapply sublist_NoDup; [apply (No x)|]. apply fmap_sublist, sublist_filter.
    + eapply sublist_NoDup; [apply (Ni x)|]. apply fmap_sublist, sublist_filter.
    + rewrite !list_elem_of_filter, Ha. done.
  - apply (maps_wf (mark_if (same_edge src tgt k) d) s); [apply mark_keeps| |done]. intros v.
    rewrite out_set_reverse, out_set_forward, in_set_reverse, in_set_forward, !markSpecific_if.
    split; (case_decide as E; [by subst|]); symmetry; apply mark_none; rewrite ?in_set_forward; auto.
Qed.

Lemma mark_ext p q d (l : list EdgeRecord) : (∀ e, e ∈ l → p e = q e) → mark_if p d <$> l = mark_if q d <$> l.
Proof. intros H. apply list_fmap_ext. intros i e He. unfold mark_if. by rewrite H by (by eapply list_elem_of_lookup_2). Qed.

Definition names (L : list EdgeRecord) (at_ : EdgeRecord → bool) (x : EdgeRecord) : bool :=
  existsb (λ e, at_ e && same_edge (ed_SourceID e) (ed_TargetID e) (ed_Kind e) x) L.

Lemma mark_reverse_fold d L v : ∀ s, in_edges v (foldl (λ s e, set_reverse (ed_TargetID e)
    (markSpecificEdgeDeleted (ed_SourceID e) (ed_TargetID e) (ed_Kind e) d (in_edges (ed_TargetID e) s)) s) s L) =
  mark_if (names L (λ e, bool_decide (ed_TargetID e = v))) d <$> in_edges v s.
Proof.
  induction L as [|e L IH]; intros s; cbn [foldl].
  { symmetry. apply mark_none. by apply Forall_forall. }
  rewrite IH, in_set_reverse. case_decide as E.
  - subst v. rewrite markSpecific_if, mark_both. apply mark_ext. intros x _. cbn. by rewrite bool_decide_true by done.
  - apply mark_ext. intros x _. cbn. by rewrite bool_decide_false by done.
Qed.
Lemma mark_forward_fold d L v : ∀ s, out_edges v (foldl (λ s e, set_forward (ed_SourceID e)
    (markSpecificEdgeDeleted (ed_SourceID e) (ed_TargetID e) (ed_Kind e) d (out_edges (ed_SourceID e) s)) s) s L) =
  mark_if (names L (λ e, bool_decide (ed_SourceID e = v))) d <$> out_edges v s.
Proof.
  induction L as [|e L IH]; intros s; cbn [foldl].
  { symmetry. apply mark_none. by apply Forall_forall. }
  rewrite IH, out_set_forward. case_decide as E.
  - subst v. rewrite markSpecific_if, mark_both. apply mark_ext. intros x _. cbn. by rewrite bool_decide_true by done.
  - apply mark_ext. intros x _. cbn. by rewrite bool_decide_false by done.
Qed.
Lemma reverse_fold_out {A} (f : adjacencyStore → A → string * list EdgeRecord) L v : ∀ s,
  out_edges v (foldl (λ s e, set_reverse (f s e).1 (f s e).2 s) s L) = out_edges v s.
Proof. induction L as [|e L IH]; intros s; [done|]. cbn [foldl]. by rewrite IH. Qed.
Lemma forward_fold_in {A} (f : adjacencyStore → A → string * list EdgeRecord) L v : ∀ s,
  in_edges v (foldl (λ s e, set_forward (f s e).1 (f s e).2 s) s L) = in_edges v s.
Proof. induction L as [|e L IH]; intros s; [done|]. cbn [foldl]. by rewrite IH. Qed.

Lemma names_true L at_ x : names L at_ x = true ↔ ∃ e, e ∈ L ∧ at_ e = true ∧ edge_key x = edge_key e.
Proof.
  unfold names. rewrite existsb_exists. split; intros (e & He & H); exists e.
  - apply andb_true_iff in H as [? ?%same_edge_spec]. by apply list_elem_of_In in He.
  - split; [by apply list_elem_of_In|]. destruct H as [-> H]. by apply same_edge_spec.
Qed.

(** The edges at a node. *)
Definition touches (id : string) (e : EdgeRecord) : bool := bool_decide (ed_SourceID e = id) || bool_decide (ed_TargetID e = id).

Lemma delete_maps time id at_ s : wf_edges s →
  maps (mark_if (touches id) (if (at_ =? 0)%Z then unix_nano time else at_)) s (applyDeleteNode time id at_ s).
Proof.
  intros Hwf v. unfold applyDeleteNode. cbv zeta. set (d := if (at_ =? 0)%Z then _ else _).
  match goal with |- context [out_edges id ?s0] => set (s1 := s0) end.
  assert (∀ v, out_edges v s1 = out_edges v s ∧ in_edges v s1 = in_edges v s) as Hs1.
  { intros w. unfold s1, removeNodeSourceIndex, removeNodeKindIndex, removeNodeLabels. by repeat case_match. }
  destruct (Hs1 id) as [-> ->]. split.
  - rewrite mark_forward_fold.
    rewrite (reverse_fold_out (λ s e, (ed_TargetID e, markSpecificEdgeDeleted (ed_SourceID e) (ed_TargetID e) (ed_Kind e) d (in_edges (ed_TargetID e) s)))).
    rewrite out_set_reverse, out_set_forward. case_decide as E.
    + subst v. rewrite markEdges_if, mark_both. apply mark_ext. intros x Hx. cbn. symmetry. apply orb_true_iff. left.
      apply bool_decide_eq_true. revert x Hx. apply Forall_forall, (we_out s Hwf).
    + rewrite (proj1 (Hs1 v)). apply mark_ext. intros x Hx. apply eq_true_iff_eq. rewrite names_true.
      assert (ed_SourceID x = v) as Hv by (revert x Hx; apply Forall_forall, (we_out s Hwf)).
      unfold touches. rewrite orb_true_iff, !bool_decide_eq_true. split.
      * intros (e & He & _ & [= _ _ ->]). right. revert e He. apply Forall_forall, (we_in s Hwf).
      * intros [?|<-]; [congruence|]. exists x. rewrite bool_decide_eq_true. split_and!; [|done|done]. apply (we_agree s Hwf). by rewrite Hv.
  - rewrite (forward_fold_in (λ s e, (ed_SourceID e, markSpecificEdgeDeleted (ed_SourceID e) (ed_TargetID e) (ed_Kind e) d (out_edges (ed_SourceID e) s)))).
    rewrite mark_reverse_fold, in_set_reverse. case_decide as E.
    + subst v. rewrite markEdges_if, mark_both. apply mark_ext. intros x Hx. cbn. symmetry. apply orb_true_iff. right.
      apply bool_decide_eq_true. revert x Hx. apply Forall_forall, (we_in s Hwf).
    + rewrite in_set_forward, (proj2 (Hs1 v)). apply mark_ext. intros x Hx. apply eq_true_iff_eq. rewrite names_true.
      assert (ed_TargetID x = v) as Hv by (revert x Hx; apply Forall_forall, (we_in s Hwf)).
      unfold touches. rewrite orb_true_iff, !bool_decide_eq_true. split.
      * intros (e & He & _ & [= -> _ _]). left. revert e He. apply Forall_forall, (we_out s Hwf).
      * intros [<-|?]; [|congruence]. exists x. rewrite bool_decide_eq_true. split_and!; [|done|done]. apply (we_agree s Hwf). by rewrite Hv.
Qed.

(** Replacing the one edge with a key. *)
Definition replace_key (e e' x : EdgeRecord) : EdgeRecord := if same_edge (ed_SourceID e) (ed_TargetID e) (ed_Kind e) x then e' else x.

Lemma replace_at i e e' (l : list EdgeRecord) : NoDup (edge_key <$> l) → l !! i = Some e → <[i := e']> l = replace_key e e' <$> l.
Proof.
  revert i. induction l as [|y l IH]; intros i; [done|]. cbn [fmap list_fmap]. intros [Hy Hl]%NoDup_cons. destruct i as [|i].
  - intros [= ->]. cbn. unfold replace_key at 1. rewrite (proj2 (same_edge_spec _ _ _ e)) by done. f_equal. symmetry.
    rewrite <- (list_fmap_id l) at 2. apply list_fmap_ext. intros j x Hx. unfold replace_key.
    rewrite (proj2 (same_edge_false _ _ _ x)); [done|]. intros E. apply Hy. change (edge_key x = edge_key e) in E. rewrite <- E.
    apply list_elem_of_fmap_2. by eapply list_elem_of_lookup_2.
  - intros Hi. change (y :: <[i:=e']> l = replace_key e e' y :: (replace_key e e' <$> l)). rewrite (IH i Hl Hi). f_equal. unfold replace_key. rewrite (proj2 (same_edge_false _ _ _ y)); [done|].
    intros E. apply Hy. change (edge_key y = edge_key e) in E. rewrite E. apply list_elem_of_fmap_2. by eapply list_elem_of_lookup_2.
Qed.

Lemma replace_none src tgt k e' (l : list EdgeRecord) : Forall (λ x, same_edge src tgt k x = false) l →
  (λ x, if same_edge src tgt k x then e' else x) <$> l = l.
Proof. induction 1 as [|x l Hx _ IH]; [done|]. cbn. by rewrite Hx, IH. Qed.

Lemma replace_keeps e e' : edge_key e' = edge_key e → keeps_key (replace_key e e').
Proof. intros He x. unfold replace_key. case_match eqn:E; [|done]. apply same_edge_spec in E. by rewrite E. Qed.

(** The active edge that is annotated, and what the annotation replaces. *)
Definition found_edge (src tgt k : string) (s : adjacencyStore) : option EdgeRecord :=
  snd <$> list_find (λ e, same_edge src tgt k e && IsActive e = true) (out_edges src s).

Lemma annotate_edge_maps um src tgt k props s s' : wf_edges s → annotateEdgeLocked um src tgt k props s = Ok s' →
  match found_edge src tgt k s with
  | None => s' = s
  | Some e => ∃ p, mergeJSONProps um (ed_Props e) props = Ok p ∧
      if bool_decide (ed_Props e = p) then s' = s else maps (replace_key e (edge_with_props p e)) s s'
  end.
Proof.
  unfold annotateEdgeLocked, found_edge. intros Hwf. destruct (list_find _ _) as [[i e]|] eqn:Hf; cbn [fmap option_fmap option_map snd]; [|by intros [= <-]].
  apply list_find_Some in Hf as (Hi & [Hk _]%andb_true_iff & _). pose proof (proj1 (same_edge_spec _ _ _ _) Hk) as [= Es Ek Et].
  intros (p & Hp & H)%rbind_ok. exists p. split; [done|]. destruct (bool_decide _); injection H as <-; [done|].
  set (e' := edge_with_props p e).
  intros v. assert (∀ v, out_edges v (set_forward src (<[i:=e']> (out_edges src s)) s) = replace_key e e' <$> out_edges v s) as Ho.
  { intros w. rewrite out_set_forward. case_decide as E; [subst w; apply replace_at; [apply Hwf|done]|].
    symmetry. apply replace_none. eapply Forall_impl; [apply (we_out s Hwf)|]. intros x <-. apply same_edge_false. intros [= ? _ _]. congruence. }
  assert (∀ v, v ≠ tgt → in_edges v s = replace_key e e' <$> in_edges v s) as Hn.
  { intros w Hw. symmetry. apply replace_none. eapply Forall_impl; [apply (we_in s Hwf)|]. intros x <-. apply same_edge_false.
    intros [= _ _ ?]. congruence. }
  cbn [reverse set_forward]. destruct (reverse s !! tgt) as [rs|] eqn:Er.
  - rewrite out_set_reverse, in_set_reverse. split; [apply Ho|]. case_decide as E; [|by apply Hn]. subst v.
    unfold in_edges. rewrite Er. unfold replace_key. by rewrite Es, Et, Ek.
  - split; [apply Ho|]. rewrite in_set_forward. destruct (decide (v = tgt)) as [->|]; [|by apply Hn].
    unfold in_edges. by rewrite Er.
Qed.

Lemma annotate_edge_wf um src tgt k props s s' : annotateEdgeLocked um src tgt k props s = Ok s' → wf_edges s → wf_edges s'.
Proof.
  intros H Hwf. apply annotate_edge_maps in H; [|done]. destruct (found_edge _ _ _ _) as [e|]; [|by subst].
  destruct H as (p & _ & H). destruct (bool_decide _); [by subst|]. eapply maps_wf; [by apply (replace_keeps e (edge_with_props p e))|exact H|done].
Qed.

(** ** Histories *)
Definition wf (s : adjacencyStore) : Prop := wf_nodes s ∧ wf_edges s.


Lemma wf_new_store : wf newAdjacencyStore.
Proof.
  split; split; try done; try (intros; apply NoDup_nil_2).
  intros l id. unfold labelled, activeNode, index_ids. cbn. rewrite !lookup_empty. cbn. set_solver.
Qed.

Inductive store_op :=
| OpUpsert (n : NodeRecord)
| OpDelete (time : Time) (id : string)
| OpLink (e : EdgeRecord)
| OpUnlink (time : Time) (sourceID targetID kind : string) (hard : bool)
| OpAnnotateNode (time : Time) (id : string) (props : gmap string Json)
| OpAnnotateEdge (sourceID targetID kind : string) (props : gmap string Json).

(** Nodes have an ID, and the clock does not stand at the epoch. *)
Definition timed (op : store_op) : Prop :=
  match op with OpUpsert n => nd_ID n ≠ EmptyString | OpDelete time _ => unix_nano time ≠ 0%Z | _ => True end.
Definition named (s : adjacencyStore) : Prop := s_nodes s !! EmptyString = None.

Section histories.
Context (um : string → result (option (gmap string Json))).

Definition do_op (s : adjacencyStore) (op : store_op) : adjacencyStore :=
  let or_same r := match r with Ok s' => s' | Err _ => s end in
  match op with
  | OpUpsert n => applyUpsertNode n s
  | OpDelete time id => applyDeleteNode time id (unix_nano time) s
  | OpLink e => applyLinkEdge e s
  | OpUnlink time src tgt k hard => applyUnlink time src tgt k hard (unix_nano time) s
  | OpAnnotateNode time id props => or_same (annotateNodeLocked um time id props (unix_nano time) s)
  | OpAnnotateEdge src tgt k props => or_same (annotateEdgeLocked um src tgt k props s)
  end.

Lemma same_lists_wf s s' : (∀ v, out_edges v s' = out_edges v s ∧ in_edges v s' = in_edges v s) → wf_edges s → wf_edges s'.
Proof. intros E. apply (maps_wf id); [done|]. intros v. rewrite !list_fmap_id. apply E. Qed.

Lemma upsert_lists n s v : out_edges v (applyUpsertNode n s) = out_edges v s ∧ in_edges v (applyUpsertNode n s) = in_edges v s.
Proof.
  unfold applyUpsertNode, addNodeLabels, addNodeKindIndex, addNodeSourceIndex, removeNodeLabels, removeNodeKindIndex, removeNodeSourceIndex.
  destruct (s_nodes s !! nd_ID n); cbv zeta; repeat case_match; done.
Qed.

Lemma op_wf op s : timed op → wf s → wf (do_op s op).
Proof.
  intros Ht [Hn He]. destruct op as [n|time id|e|time src tgt k hard|time id props|src tgt k props]; cbn [do_op].
  - split; [by apply upsert_wf|]. by eapply same_lists_wf; [apply upsert_lists|].
  - split; [by apply delete_wf|]. eapply maps_wf; [apply mark_keeps|by apply delete_maps|done].
  - split; [|by apply link_wf]. eapply same_nodes_wf; [|exact Hn]. unfold applyLinkEdge. by case_match.
  - split; [by eapply same_nodes_wf; [|exact Hn]|by apply unlink_wf].
  - destruct (annotateNodeLocked _ _ _ _ _ _) as [s'|] eqn:E; [|done]. split; [by eapply annotate_node_wf|].
    unfold annotateNodeLocked in E. eapply same_lists_wf; [|exact He]. intros v.
    destruct (s_nodes s !! id) as [n|]; [|by injection E as <-]. destruct (negb _); [by injection E as <-|].
    apply rbind_ok in E as (p & _ & E). destruct (bool_decide _); by injection E as <-.
  - destruct (annotateEdgeLocked _ _ _ _ _ _) as [s'|] eqn:E; [|done]. split; [|by eapply annotate_edge_wf].
    unfold annotateEdgeLocked in E. eapply same_nodes_wf; [|exact Hn]. destruct (list_find _ _) as [[i e]|]; [|by injection E as <-].
    apply rbind_ok in E as (p & _ & E). destruct (bool_decide _); [by injection E as <-|]. injection E as <-.
    by destruct (reverse s !! tgt).
Qed.

Lemma named_insert id n s : id ≠ EmptyString → named s → named (with_nodes (insert id n) s).
Proof. intros Hid. unfold named. cbn. by rewrite lookup_insert_ne. Qed.
Lemma named_same s s' : s_nodes s' = s_nodes s → named s → named s'.
Proof. unfold named. by intros ->. Qed.

Lemma store_node_named n s : nd_ID n ≠ EmptyString → named s → named (store_node n s).
Proof. intros Hn. unfold named. by rewrite store_node_nodes, lookup_insert_ne. Qed.
Lemma upsert_named n s : nd_ID n ≠ EmptyString → named s → named (applyUpsertNode n s).
Proof.
  intros Hn Hs. unfold applyUpsertNode. cbv zeta. destruct (s_nodes s !! nd_ID n) as [ex|] eqn:E; [|by apply store_node_named].
  case_match; [done|]. apply store_node_named; [by case_match|]. eapply named_same; [|exact Hs].
  unfold removeNodeLabels, removeNodeKindIndex, removeNodeSourceIndex. by repeat case_match.
Qed.

Lemma op_named op s : timed op → named s → named (do_op s op).
Proof.
  intros Ht Hs. assert (∀ id n, s_nodes s !! id = Some n → id ≠ EmptyString) as Hid by (intros id n H ->; by rewrite Hs in H).
  destruct op as [n|time id|e|time src tgt k hard|time id props|src tgt k props]; cbn [do_op].
  - apply upsert_named; [exact Ht|exact Hs].
  - destruct (delete_nodes_same time id (unix_nano time) s) as (s1 & (En & _) & ->). eapply named_same; [exact En|].
    destruct (s_nodes s !! id) as [n|] eqn:E; [|done]. apply Hid in E.
    eapply (named_same (with_nodes (insert id _) s)); [|by apply named_insert].
    unfold removeNodeSourceIndex, removeNodeKindIndex, removeNodeLabels. by repeat case_match.
  - unfold applyLinkEdge. by case_match.
  - done.
  - unfold annotateNodeLocked. destruct (s_nodes s !! id) as [n|] eqn:E; [|done]. apply Hid in E.
    destruct (negb _); [done|]. destruct (mergeJSONProps _ _ _); [|done]. cbn. destruct (bool_decide _); [done|]. by apply named_insert.
  - unfold annotateEdgeLocked. destruct (list_find _ _) as [[i e]|]; [|done]. destruct (mergeJSONProps _ _ _); [|done]. cbn.
    destruct (bool_decide _); [done|]. by destruct (reverse s !! tgt).
Qed.

Definition after (ops : list store_op) : adjacencyStore := foldl do_op newAdjacencyStore ops.
Lemma after_wf ops : Forall timed ops → wf (after ops) ∧ named (after ops).
Proof.
  intros Ht. unfold after. assert (wf newAdjacencyStore ∧ named newAdjacencyStore) as Hs by (split; [apply wf_new_store|done]).
  revert Hs. generalize newAdjacencyStore. induction Ht as [|op ops Hop _ IH]; intros s [Hs Hn]; [done|].
  cbn. apply IH. split; [by apply op_wf|by apply op_named].
Qed.
End histories.

(** ** Queries *)
Lemma select_elem ids ok s n : n ∈ select_nodes ids ok s ↔ ∃ id, id ∈ ids ∧ activeNode id s = Some n ∧ ok n = true.
Proof.
  unfold select_nodes. rewrite list_elem_of_omap. split; intros (id & Hid & H); exists id; (split; [done|]).
  - destruct (activeNode id s) as [m|]; [|done]. cbn in H. destruct (ok m) eqn:E; [|done]. by injection H as <-.
  - destruct H as [-> H]. cbn. by rewrite H.
Qed.

Lemma active_id s id n : wf_nodes s → activeNode id s = Some n → nd_ID n = id.
Proof.
  intros Hwf. unfold activeNode. destruct (s_nodes s !! id) as [m|] eqn:E; [|done]. cbn. destruct (node_active m); [|done].
  intros [= <-]. by apply (ix_id _ _ Hwf).
Qed.

Lemma sorted_ids_elem ids x : x ∈ sorted_ids ids ↔ x ∈ ids.
Proof. unfold sorted_ids, sort_strings. by rewrite merge_sort_Permutation, elem_of_elements. Qed.

Lemma sorted_ids_sorted ids : StronglySorted str_lt (sorted_ids ids).
Proof.
  unfold sorted_ids, sort_strings.
  assert (StronglySorted String.le (merge_sort String.le (elements ids))) as Hs by (apply StronglySorted_merge_sort; apply _).
  assert (NoDup (merge_sort String.le (elements ids))) as Hn by (rewrite merge_sort_Permutation; apply NoDup_elements).
  induction Hs as [|x l Hl IH Hx]; [constructor|]. apply NoDup_cons in Hn as [Hx' Hn]. constructor; [by apply IH|].
  apply Forall_forall. intros y Hy. apply str_le_lt; [by eapply Forall_forall in Hx|]. by intros ->.
Qed.

Lemma select_sorted ids ok s : wf_nodes s → StronglySorted str_lt ids → StronglySorted str_lt (nd_ID <$> select_nodes ids ok s).
Proof.
  intros Hwf. induction 1 as [|id ids Hids IH Hid]; [constructor|]. unfold select_nodes in *. cbn [omap list_omap].
  destruct (activeNode id s) as [n|] eqn:E; [|done]. cbn. destruct (ok n); [|done]. cbn. constructor; [done|].
  apply Forall_fmap, Forall_forall. intros m (id' & Hin & Hm & _)%(select_elem ids ok s m). cbn.
  rewrite (active_id s id n), (active_id s id' m) by done. by eapply Forall_forall in Hid.
Qed.

Lemma union_elem (m : Index) x : x ∈ ⋃ (map_to_list m).*2 ↔ ∃ k, x ∈ index_ids k m.
Proof.
  rewrite elem_of_union_list. split.
  - intros (X & ([k Y] & -> & HX)%list_elem_of_fmap & Hx). exists k. apply elem_of_map_to_list in HX. unfold index_ids. by rewrite HX.
  - intros (k & Hx). unfold index_ids in Hx. destruct (m !! k) as [X|] eqn:E; [|cbn in Hx; set_solver].
    exists X. split; [|done]. apply list_elem_of_fmap. exists (k, X). split; [done|]. by apply elem_of_map_to_list.
Qed.

Lemma prefix_union_elem p (m : Index) x :
  x ∈ ⋃ (filter (λ kv, has_prefix p kv.1 = true) (map_to_list m)).*2 ↔ ∃ k, has_prefix p k = true ∧ x ∈ index_ids k m.
Proof.
  rewrite elem_of_union_list. split.
  - intros (X & ([k Y] & -> & [Hp HX]%list_elem_of_filter)%list_elem_of_fmap & Hx). exists k. split; [done|].
    apply elem_of_map_to_list in HX. unfold index_ids. by rewrite HX.
  - intros (k & Hp & Hx). unfold index_ids in Hx. destruct (m !! k) as [X|] eqn:E; [|cbn in Hx; set_solver].
    exists X. split; [|done]. apply list_elem_of_fmap. exists (k, X). split; [done|].
    apply list_elem_of_filter. split; [done|]. by apply elem_of_map_to_list.
Qed.

(** The active nodes. *)
Definition node_of (s : adjacencyStore) (n : NodeRecord) : Prop := GetNode (nd_ID n) s = Some n.

Lemma active_named s id n : named s → activeNode id s = Some n → id ≠ EmptyString.
Proof. unfold activeNode. intros Hs H ->. by rewrite Hs in H. Qed.

(** A listing over a set of IDs that misses none of the wanted nodes. *)
Lemma listing s ids ok : wf_nodes s → (∀ n, node_of s n → ok n = true → nd_ID n ∈ ids) →
  ∀ n, n ∈ select_nodes ids ok s ↔ node_of s n ∧ ok n = true.
Proof.
  intros Hwf Hin n. rewrite select_elem. split.
  - intros (id & Hid & Hn & Hok). by pose proof (active_id s id n Hwf Hn) as <-.
  - intros [Hn Hok]. exists (nd_ID n). auto.
Qed.

Lemma ListNodes_spec s kind n : wf s → named s → n ∈ ListNodes kind s ↔ node_of s n ∧ of_kind kind n = true.
Proof.
  intros [Hwf _] Hs. apply listing; [done|]. intros m Hm Hk. pose proof (active_named s _ _ Hs Hm) as Hne.
  pose proof (ix_kind _ _ Hwf _ _ I Hne Hm) as Hin. unfold nodeIDsByKind. case_bool_decide as E.
  - apply sorted_ids_elem, union_elem. eauto.
  - apply sorted_ids_elem. unfold of_kind in Hk. rewrite bool_decide_false in Hk by done. cbn in Hk.
    by apply bool_decide_eq_true in Hk as <-.
Qed.

Lemma ListNodesByLabel_spec s kind l n : wf s → named s → l ≠ EmptyString →
  n ∈ ListNodesByLabel kind l s ↔ node_of s n ∧ of_kind kind n = true ∧ l ∈ uniqueLabels (nd_Labels n).
Proof.
  intros [Hwf _] Hs Hl. unfold ListNodesByLabel, label_Lookup. rewrite bool_decide_false by done. rewrite select_elem. split.
  - intros (id & Hid & Hn & Hk). apply sorted_ids_elem, (ix_label _ _ Hwf) in Hid as (_ & _ & m & Hm & Hlm).
    pose proof (active_id s id n Hwf Hn) as <-. unfold node_of, GetNode. rewrite Hn in Hm. by injection Hm as <-.
  - intros (Hn & Hk & Hln). exists (nd_ID n). split; [|done]. apply sorted_ids_elem, (ix_label _ _ Hwf).
    split; [done|]. split; [by eapply active_named|]. by exists n.
Qed.

Lemma ListNodesByLabelPrefix_spec s kind p n : wf s → named s → p ≠ EmptyString →
  n ∈ ListNodesByLabelPrefix kind p s ↔
    node_of s n ∧ of_kind kind n = true ∧ ∃ l, has_prefix p l = true ∧ l ∈ uniqueLabels (nd_Labels n).
Proof.
  intros [Hwf _] Hs Hp. unfold ListNodesByLabelPrefix, label_LookupPrefix. rewrite bool_decide_false by done. rewrite select_elem. split.
  - intros (id & Hid & Hn & Hk). apply sorted_ids_elem, prefix_union_elem in Hid as (l & Hpl & Hid).
    apply (ix_label _ _ Hwf) in Hid as (_ & _ & m & Hm & Hlm). pose proof (active_id s id n Hwf Hn) as <-.
    unfold node_of, GetNode. rewrite Hn in Hm. injection Hm as <-. eauto.
  - intros (Hn & Hk & l & Hpl & Hln). exists (nd_ID n). split; [|done]. apply sorted_ids_elem, prefix_union_elem. exists l. split; [done|].
    apply (ix_label _ _ Hwf). split; [done|]. split; [by eapply active_named|]. by exists n.
Qed.

Lemma NodesBySource_spec s order src n : wf s → named s → (∀ l, order l ≡ₚ l) → src ≠ EmptyString →
  n ∈ NodesBySource order src s ↔ node_of s n ∧ nd_SourceID n = src.
Proof.
  intros [Hwf _] Hs Ho Hsrc. unfold NodesBySource. rewrite listing; [by rewrite bool_decide_eq_true|done|].
  intros m Hm E%bool_decide_eq_true. rewrite Ho, elem_of_elements. subst src.
  by apply (ix_source _ _ Hwf); [|eapply active_named| |].
Qed.

Lemma edges_agree s kinds e : wf s → e ∈ GetOutEdges (ed_SourceID e) kinds s ↔ e ∈ GetInEdges (ed_TargetID e) kinds s.
Proof. intros [_ Hwf]. unfold GetOutEdges, GetInEdges, filterEdges. by rewrite !list_elem_of_filter, (we_agree s Hwf). Qed.

Lemma dedup_elem l : ∀ out x, x ∈ foldl dedup_add out l ↔ x ∈ out ∨ x ∈ l.
Proof.
  induction l as [|y l IH]; intros out x; cbn [foldl]; [set_solver|]. rewrite IH. unfold dedup_add. case_bool_decide; set_solver.
Qed.

Lemma neighbors_symmetric s kinds u v : wf s → v ∈ Neighbors u DirectionOut kinds s ↔ u ∈ Neighbors v DirectionIn kinds s.
Proof.
  intros Hwf. unfold Neighbors. rewrite !dedup_elem, app_nil_r. cbn [app]. rewrite !list_elem_of_fmap.
  assert (∀ w e, e ∈ GetOutEdges w kinds s → ed_SourceID e = w) as Ho.
  { intros w e [_ He]%list_elem_of_filter. revert e He. apply Forall_forall, (we_out s (proj2 Hwf)). }
  assert (∀ w e, e ∈ GetInEdges w kinds s → ed_TargetID e = w) as Hi.
  { intros w e [_ He]%list_elem_of_filter. revert e He. apply Forall_forall, (we_in s (proj2 Hwf)). }
  split; (intros [[]%not_elem_of_nil|(e & -> & He)]; right; exists e).
  - pose proof (Ho _ _ He) as Hs. split; [done|]. apply edges_agree; [done|]. by rewrite Hs.
  - pose proof (Hi _ _ He) as Hs. split; [done|]. apply edges_agree; [done|]. by rewrite Hs.
Qed.

(** C14: After any history of operations, the listings by kind, label, label prefix and source
    are exactly the active nodes asked for, sorted by ID where the code sorts, every edge is
    seen from both of its ends, and neighbourhood is symmetric. *)
Theorem mirror_exact um ops order : Forall timed ops → (∀ l, order l ≡ₚ l) →
  let s := after um ops in
  (∀ kind n, n ∈ ListNodes kind s ↔ node_of s n ∧ of_kind kind n = true) ∧
  (∀ kind l n, l ≠ EmptyString →
     n ∈ ListNodesByLabel kind l s ↔ node_of s n ∧ of_kind kind n = true ∧ l ∈ uniqueLabels (nd_Labels n)) ∧
  (∀ kind p n, p ≠ EmptyString → n ∈ ListNodesByLabelPrefix kind p s ↔
     node_of s n ∧ of_kind kind n = true ∧ ∃ l, has_prefix p l = true ∧ l ∈ uniqueLabels (nd_Labels n)) ∧
  (∀ src n, src ≠ EmptyString → n ∈ NodesBySource order src s ↔ node_of s n ∧ nd_SourceID n = src) ∧
  (∀ kind l, StronglySorted str_lt (nd_ID <$> ListNodes kind s) ∧ StronglySorted str_lt (nd_ID <$> ListNodesByLabel kind l s)) ∧
  (∀ kinds e, e ∈ GetOutEdges (ed_SourceID e) kinds s ↔ e ∈ GetInEdges (ed_TargetID e) kinds s) ∧
  (∀ kinds u v, v ∈ Neighbors u DirectionOut kinds s ↔ u ∈ Neighbors v DirectionIn kinds s).
Proof.
  intros Ht Ho s. destruct (after_wf um ops Ht) as [Hwf Hn]. fold s in Hwf, Hn. split_and!.
  - intros. by apply ListNodes_spec.
  - intros. by apply ListNodesByLabel_spec.
  - intros. by apply ListNodesByLabelPrefix_spec.
  - intros. by apply NodesBySource_spec.
  - intros kind l. split; (apply select_sorted; [apply Hwf|]).
    + unfold nodeIDsByKind. case_match; apply sorted_ids_sorted.
    + unfold label_Lookup. case_match; [constructor|apply sorted_ids_sorted].
  - intros. by apply edges_agree.
  - intros. by apply neighbors_symmetric.
Qed.
