(* ===== verification/KnowledgeDurable.v ===== *)
(** * KnowledgeDurable

    The durable graph and its mirror in memory: both refine one abstract graph, so what the
    engine answers from memory is what a reopened engine answers, for the calls whose
    durable and in-memory effects agree; the calls that do not agree are shown at the end.

    Names are segments ([segment]: not empty, shorter than 4 GiB); the times of records
    differ on both sides (the clock is read twice) and are left out of the comparison. *)
From S2P Require Import Prelude GoStrings KV Envelope GoEncoding KnowledgeKeys KnowledgeStore KnowledgeEngine KnowledgeMirror.

(** What [encoding/json] promises of compacting raw JSON. *)
Class CodecLaws `{Codec} : Prop := {
  compact_compact p q : compact p = Ok q → compact q = Ok q;
  compact_nonempty p q : compact p = Ok q → q ≠ EmptyString;
  unmarshal_compact p q : compact p = Ok q → unmarshal q = unmarshal p
}.

Section durable.
Context {T : Type} `{KVT : !KV T Value} `{!KVLaws T Value} `{CD : !Codec} `{CL : !CodecLaws}.
Implicit Types (t : T) (x : Txn T).

(** ** Raw JSON *)
Definition canon (p : string) : string := match stored_props p with Ok q => q | Err _ => p end.

Lemma stored_stored p q : stored_props p = Ok q → stored_props q = Ok q.
Proof.
  unfold stored_props. case_bool_decide; [by intros [= <-]|]. intros Hq. rewrite bool_decide_false by (by eapply compact_nonempty).
  by eapply compact_compact.
Qed.
Lemma canon_stored p q : stored_props p = Ok q → canon p = q.
Proof. unfold canon. by intros ->. Qed.
Lemma merge_canon p q props : canon p = q → stored_props q = Ok q → mergeJSONProps unmarshal p props = mergeJSONProps unmarshal q props.
Proof.
  unfold canon. destruct (stored_props p) as [q'|e] eqn:Hp; [|by intros ->]. intros -> Hq. unfold mergeJSONProps.
  unfold stored_props in Hp. destruct (decide (p = EmptyString)) as [->|Ep].
  { rewrite bool_decide_true in Hp by done. by injection Hp as <-. }
  rewrite bool_decide_false in Hp by done. pose proof (compact_nonempty p q Hp) as Eq.
  rewrite (bool_decide_false (p = EmptyString)) by done. rewrite (bool_decide_false (q = EmptyString)) by done.
  by rewrite (unmarshal_compact p q Hp).
Qed.

(** ** The abstract graph: active records, without times *)
Definition strip_node (n : NodeRecord) : NodeRecord := node_with_props (canon (nd_Props n)) (node_with_times 0 0 0 n).
Definition strip_edge (e : EdgeRecord) : EdgeRecord := edge_with_props (canon (ed_Props e)) (edge_with_times 0 0 e).
Definition active_node (o : option NodeRecord) : option NodeRecord := n ← o; if node_active n then Some (strip_node n) else None.
Definition active_edge (o : option EdgeRecord) : option EdgeRecord := e ← o; if IsActive e then Some (strip_edge e) else None.

Abbreviation key3 := (string * string * string)%type.
Definition key_ok (k : key3) : Prop := segment k.1.1 ∧ segment k.1.2 ∧ segment k.2.
Record agraph := { ag_node : string → option NodeRecord; ag_edge : key3 → option EdgeRecord }.
Definition same_graph (g h : agraph) : Prop :=
  (∀ id, segment id → ag_node g id = ag_node h id) ∧ (∀ k, key_ok k → ag_edge g k = ag_edge h k).

Definition at_key {A B} `{EqDecision A} (k : A) (v : B) (f : A → B) : A → B := λ k', if decide (k = k') then v else f k'.
Definition abs_upsert (g : agraph) (n : NodeRecord) : agraph :=
  {| ag_node := at_key (nd_ID n) (Some (strip_node n)) (ag_node g); ag_edge := ag_edge g |}.
Definition abs_link (g : agraph) (e : EdgeRecord) : agraph :=
  {| ag_node := ag_node g; ag_edge := at_key (edge_key e) (Some (strip_edge e)) (ag_edge g) |}.
Definition abs_delete (g : agraph) (id : string) : agraph :=
  {| ag_node := at_key id None (ag_node g);
     ag_edge := λ k, if decide (k.1.1 = id ∨ k.2 = id) then None else ag_edge g k |}.
Definition abs_unlink (g : agraph) (k : key3) : agraph :=
  {| ag_node := ag_node g; ag_edge := at_key k None (ag_edge g) |}.
Definition abs_annotate_node (g : agraph) (id : string) (props : gmap string Json) : agraph :=
  {| ag_node := match ag_node g id with
                | Some n => match mergeJSONProps unmarshal (nd_Props n) props with
                            | Ok m => at_key id (Some (node_with_props (canon m) n)) (ag_node g)
                            | Err _ => ag_node g
                            end
                | None => ag_node g
                end;
     ag_edge := ag_edge g |}.
Definition abs_annotate_edge (g : agraph) (k : key3) (props : gmap string Json) : agraph :=
  {| ag_node := ag_node g;
     ag_edge := match ag_edge g k with
                | Some e => match mergeJSONProps unmarshal (ed_Props e) props with
                            | Ok m => at_key k (Some (edge_with_props (canon m) e)) (ag_edge g)
                            | Err _ => ag_edge g
                            end
                | None => ag_edge g
                end |}.

Definition abs_mutation (op : mutation) (g : agraph) : agraph :=
  match op with
  | MUpsertNode n => abs_upsert g n
  | MUpsertNodes ns => foldl abs_upsert g ns
  | MApplyBatch ns es => foldl abs_link (foldl abs_upsert g ns) es
  | MDeleteNode id => abs_delete g id
  | MDeleteNodes ids => foldl abs_delete g ids
  | MLinkEdge e => abs_link g e
  | MLinkEdges es => foldl abs_link g es
  | MUnlinkEdge s tgt k _ => abs_unlink g (s, k, tgt)
  | MAnnotateNode id props => abs_annotate_node g id props
  | MAnnotateEdge s tgt k props => abs_annotate_edge g (s, k, tgt) props
  | MRecordMutationResult _ => g
  end.

(** ** The two views *)
Definition mem_edge (s : adjacencyStore) (k : key3) : option EdgeRecord := head (filter (λ e, edge_key e = k) (out_edges k.1.1 s)).
Definition mem_view (s : adjacencyStore) : agraph :=
  {| ag_node := λ id, active_node (s_nodes s !! id); ag_edge := λ k, active_edge (mem_edge s k) |}.

Definition ekey (k : key3) : string := keyEdgeOut k.1.1 k.1.2 k.2.
Definition db_node t (id : string) : option NodeRecord := match kget (keyNodeByID id) t with Some (VNode n) => Some n | _ => None end.
Definition db_edge t (k : key3) : option EdgeRecord := match kget (ekey k) t with Some (VEdge e) => Some e | _ => None end.
Definition db_view t : agraph := {| ag_node := λ id, active_node (db_node t id); ag_edge := λ k, active_edge (db_edge t k) |}.

(** ** Keys of records and other keys *)
Definition node_prefix : string := keyPrefix [famNode].
Definition edge_prefix : string := keyPrefix [famEdgeOut].
Definition native (k : string) : Prop := has_prefix node_prefix k = true ∨ has_prefix edge_prefix k = true.
Definition foreign (k : string) : Prop := has_prefix node_prefix k = false ∧ has_prefix edge_prefix k = false.

Lemma native_foreign k k' : foreign k → native k' → k ≠ k'.
Proof. intros [H1 H2] [Hk|Hk] ->; congruence. Qed.
Lemma node_native id : native (keyNodeByID id).
Proof. left. apply has_prefix_spec. exists (encodeKey [id]). exact (encode_app [famNode] [id]). Qed.
Lemma edge_native k : native (ekey k).
Proof. right. apply has_prefix_spec. exists (encodeKey [k.1.1; k.1.2; k.2]). exact (encode_app [famEdgeOut] _). Qed.
Lemma node_not_edge id : has_prefix edge_prefix (keyNodeByID id) = false.
Proof. reflexivity. Qed.
Lemma edge_not_node k : has_prefix node_prefix (ekey k) = false.
Proof. reflexivity. Qed.
Lemma node_edge_ne id k : keyNodeByID id ≠ ekey k.
Proof. intros E. pose proof (node_not_edge id) as Hn. rewrite E in Hn. destruct (edge_native k) as [He|He]; [by rewrite edge_not_node in He|congruence]. Qed.

Lemma fam_node : segment famNode.
Proof. by split. Qed.
Lemma fam_edge : segment famEdgeOut.
Proof. by split. Qed.
Lemma node_segments id : segment id → Forall segment [famNode; id].
Proof. intros Hid. apply Forall_cons_2; [apply fam_node|]. by apply Forall_singleton. Qed.
Lemma edge_segments k : key_ok k → Forall segment [famEdgeOut; k.1.1; k.1.2; k.2].
Proof. intros (? & ? & ?). apply Forall_cons_2; [apply fam_edge|]. apply Forall_cons_2; [done|]. apply Forall_cons_2; [done|]. by apply Forall_singleton. Qed.
Lemma node_key_inj a b : segment a → segment b → keyNodeByID a = keyNodeByID b → a = b.
Proof. intros Ha Hb E. apply encode_inj in E; [by injection E|by apply node_segments..]. Qed.
Lemma ekey_inj a b : key_ok a → key_ok b → ekey a = ekey b → a = b.
Proof.
  intros Ha Hb E. apply encode_inj in E; [|by apply edge_segments..]. destruct a as [[? ?] ?], b as [[? ?] ?]. cbn in E. congruence.
Qed.

Lemma node_indexes_foreign n : Forall foreign (node_index_keys n).
Proof.
  unfold node_index_keys. case_bool_decide; [constructor|]. destruct (extractIndexedProps _) as [[path hash] media].
  rewrite !Forall_app. split_and!; repeat case_bool_decide; rewrite ?Forall_app; repeat split; repeat constructor.
  apply Forall_fmap, Forall_forall. done.
Qed.
Lemma edge_indexes_foreign e : Forall foreign (edge_index_keys e).
Proof. unfold edge_index_keys. case_bool_decide; repeat constructor. Qed.

(** ** Transactions *)
Context (clk : nat → Time).

(** A computation that leaves the records alone. *)
Definition quiet (m : SE (Txn T) unit) : Prop :=
  ∀ x u x', m x = (Ok u, x') → ∀ k, native k → kget k (kv x') = kget k (kv x).

Lemma quiet_ret : quiet (se_ret tt).
Proof. by intros x u x' [= _ <-]. Qed.
Lemma quiet_bind m1 m2 : quiet m1 → quiet m2 → quiet (m1 ;;; m2).
Proof. intros H1 H2 x u x' (? & x1 & E1 & E2)%se_bind_ok k Hk. rewrite (H2 _ _ _ E2 k Hk). by eapply H1. Qed.
Lemma quiet_each {A} (f : A → SE (Txn T) unit) l : Forall (λ a, quiet (f a)) l → quiet (each f l).
Proof. induction 1; [apply quiet_ret|by apply quiet_bind]. Qed.
Lemma quiet_set k v : foreign k → quiet (txn_set k v).
Proof. intros Hk x u x' [= _ <-] k' Hk'. cbn. rewrite kget_kset, decide_False; [done|]. by apply native_foreign. Qed.
Lemma quiet_delete k : foreign k → quiet (txn_delete k).
Proof. intros Hk x u x' [= _ <-] k' Hk'. cbn. rewrite kget_kdel, decide_False; [done|]. by apply native_foreign. Qed.

Lemma put_node_indexes_quiet n : quiet (putNodeIndexes n).
Proof. apply quiet_each. eapply Forall_impl; [apply node_indexes_foreign|]. intros k Hk. by apply quiet_set. Qed.
Lemma delete_node_indexes_quiet n : quiet (deleteNodeIndexes n).
Proof. apply quiet_each. eapply Forall_impl; [apply node_indexes_foreign|]. intros k Hk. by apply quiet_delete. Qed.
Lemma put_edge_indexes_quiet e : quiet (putEdgeIndexes e).
Proof. apply quiet_each. eapply Forall_impl; [apply edge_indexes_foreign|]. intros k Hk. by apply quiet_set. Qed.
Lemma delete_edge_indexes_quiet e : quiet (deleteEdgeIndexes e).
Proof. apply quiet_each. eapply Forall_impl; [apply edge_indexes_foreign|]. intros k Hk. by apply quiet_delete. Qed.
Lemma node_history_foreign id ts seq : foreign (keyNodeHistory id ts seq).
Proof. by split. Qed.
Lemma edge_history_foreign s k tgt ts seq : foreign (keyEdgeHistory s k tgt ts seq).
Proof. by split. Qed.
Lemma node_history_quiet n : quiet (putNodeHistory clk n).
Proof.
  intros x u x' (now & x1 & [= _ <-] & (p & x2 & [_ ->]%se_result_ok & E)%se_bind_ok)%se_bind_ok k Hk.
  exact (quiet_set _ _ (node_history_foreign _ _ _) _ _ _ E k Hk).
Qed.
Lemma edge_history_quiet e : quiet (putEdgeHistory clk e).
Proof.
  intros x u x' (now & x1 & [= _ <-] & (p & x2 & [_ ->]%se_result_ok & E)%se_bind_ok)%se_bind_ok k Hk.
  exact (quiet_set _ _ (edge_history_foreign _ _ _ _ _) _ _ _ E k Hk).
Qed.

(** A computation whose effect on the records is to store one. *)
Definition stores (k : string) (v : Value) (x x' : Txn T) : Prop :=
  ∀ k', native k' → kget k' (kv x') = if decide (k = k') then Some v else kget k' (kv x).

Lemma put_node_record n x u x' : putNodeRecord n x = (Ok u, x') →
  ∃ p, stored_props (nd_Props n) = Ok p ∧ stores (keyNodeByID (nd_ID n)) (VNode (node_with_props p n)) x x'.
Proof. intros (p & x1 & [Hp ->]%se_result_ok & [= _ <-])%se_bind_ok. exists p. split; [done|]. intros k' _. apply kget_kset. Qed.
Lemma put_edge_record e x u x' : putEdgeRecord e x = (Ok u, x') →
  ∃ p, stored_props (ed_Props e) = Ok p ∧ stores (ekey (edge_key e)) (VEdge (edge_with_props p e)) x x'.
Proof. intros (p & x1 & [Hp ->]%se_result_ok & [= _ <-])%se_bind_ok. exists p. split; [done|]. intros k' _. apply kget_kset. Qed.

Lemma stores_quiet_l k v x m y u x' : quiet m → m x = (Ok u, y) → stores k v y x' → stores k v x x'.
Proof. intros Hm E H k' Hk'. rewrite (H k' Hk'). case_decide; [done|]. by eapply Hm. Qed.
Lemma stores_quiet_r k v x m y u x' : stores k v x y → quiet m → m y = (Ok u, x') → stores k v x x'.
Proof. intros H Hm E k' Hk'. rewrite <- (H k' Hk'). by eapply Hm. Qed.

Lemma put_node n x u x' : putNodeInTxn clk n x = (Ok u, x') →
  ∃ p, stored_props (nd_Props n) = Ok p ∧ stores (keyNodeByID (nd_ID n)) (VNode (node_with_props p n)) x x'.
Proof.
  intros (old & x1 & [= <- <-] & ([] & x2 & E2 & ([] & x3 & E3 & E4)%se_bind_ok)%se_bind_ok)%se_bind_ok.
  apply put_node_record in E3 as (p & Hp & Hs). exists p. split; [done|].
  eapply stores_quiet_r; [|apply put_node_indexes_quiet|exact E4].
  eapply stores_quiet_l; [|exact E2|exact Hs]. case_match; [|apply quiet_ret].
  apply quiet_bind; [apply delete_node_indexes_quiet|apply node_history_quiet].
Qed.
Lemma put_edge e x u x' : putEdgeInTxn clk e x = (Ok u, x') →
  ∃ p, stored_props (ed_Props e) = Ok p ∧ stores (ekey (edge_key e)) (VEdge (edge_with_props p e)) x x'.
Proof.
  intros (old & x1 & [= <- <-] & ([] & x2 & E2 & ([] & x3 & E3 & E4)%se_bind_ok)%se_bind_ok)%se_bind_ok.
  apply put_edge_record in E3 as (p & Hp & Hs). exists p. split; [done|].
  eapply stores_quiet_r; [|apply put_edge_indexes_quiet|exact E4].
  eapply stores_quiet_l; [|exact E2|exact Hs]. case_match; [apply edge_history_quiet|apply quiet_ret].
Qed.

(** ** Well-formed databases *)
Definition node_ok (n : NodeRecord) : Prop := segment (nd_ID n) ∧ stored_props (nd_Props n) = Ok (nd_Props n).
Definition edge_ok (e : EdgeRecord) : Prop := key_ok (edge_key e) ∧ stored_props (ed_Props e) = Ok (ed_Props e).
Record db_ok t : Prop := {
  db_nodes : ∀ k v, has_prefix node_prefix k = true → kget k t = Some v → ∃ n, v = VNode n ∧ k = keyNodeByID (nd_ID n) ∧ node_ok n;
  db_edges : ∀ k v, has_prefix edge_prefix k = true → kget k t = Some v → ∃ e, v = VEdge e ∧ k = ekey (edge_key e) ∧ edge_ok e
}.

Lemma db_node_at t id n : db_ok t → segment id → db_node t id = Some n → kget (keyNodeByID id) t = Some (VNode n) ∧ nd_ID n = id ∧ node_ok n.
Proof.
  intros Hdb Hid. unfold db_node. destruct (kget _ t) as [v|] eqn:E; [|done]. destruct v as [m| | |]; try done. intros [= ->].
  destruct (node_native id) as [Hk|Hk]; [|by rewrite node_not_edge in Hk].
  destruct (db_nodes _ Hdb _ _ Hk E) as (m & [= <-] & Ek & Hm). split_and!; [done| |done]. symmetry. apply node_key_inj; [done|apply Hm|done].
Qed.
Lemma db_edge_at t k e : db_ok t → key_ok k → db_edge t k = Some e → kget (ekey k) t = Some (VEdge e) ∧ edge_key e = k ∧ edge_ok e.
Proof.
  intros Hdb Hid. unfold db_edge. destruct (kget _ t) as [v|] eqn:E; [|done]. destruct v as [|m| |]; try done. intros [= ->].
  destruct (edge_native k) as [Hk|Hk]; [by rewrite edge_not_node in Hk|].
  destruct (db_edges _ Hdb _ _ Hk E) as (m & [= <-] & Ek & Hm). split_and!; [done| |done]. symmetry. apply ekey_inj; [done|apply Hm|done].
Qed.
Lemma get_node_record t id r : db_ok t → getNodeRecordInTxn id t = Ok r → db_node t id = Some r.
Proof. intros Hdb. unfold getNodeRecordInTxn, lookup_key, db_node. destruct (kget _ t) as [[]|]; cbn; try done. by intros [= ->]. Qed.
Lemma get_node_missing t id e : db_ok t → getNodeRecordInTxn id t = Err e → e = ErrNotExist ∧ db_node t id = None.
Proof.
  intros Hdb. unfold getNodeRecordInTxn, lookup_key, db_node. destruct (kget _ t) as [v|] eqn:E; cbn; [|by intros [= <-]].
  destruct (node_native id) as [Hk|Hk]; [|by rewrite node_not_edge in Hk]. by destruct (db_nodes _ Hdb _ _ Hk E) as (n & -> & _).
Qed.
Lemma get_edge_record t s tgt k r : db_ok t → getEdgeRecord s tgt k t = Ok r → db_edge t (s, k, tgt) = Some r.
Proof. intros Hdb. unfold getEdgeRecord, lookup_key, db_edge, ekey. cbn [fst snd]. destruct (kget _ t) as [[]|]; cbn; try done. by intros [= ->]. Qed.
Lemma get_edge_missing t s tgt k e : db_ok t → getEdgeRecord s tgt k t = Err e → e = ErrNotExist ∧ db_edge t (s, k, tgt) = None.
Proof.
  intros Hdb. unfold getEdgeRecord, lookup_key, db_edge, ekey. cbn [fst snd]. destruct (kget _ t) as [v|] eqn:E; cbn; [|by intros [= <-]].
  destruct (edge_native (s, k, tgt)) as [Hk|Hk]; [by rewrite edge_not_node in Hk|]. by destruct (db_edges _ Hdb _ _ Hk E) as (n & -> & _).
Qed.

Lemma quiet_db_ok (t t' : T) : (∀ k, native k → kget k t' = kget k t) → db_ok t → db_ok t'.
Proof.
  intros E [Hn He]. split; intros k v Hk; (rewrite E; [auto|]); [by left|by right].
Qed.
Lemma stores_node_ok n x x' : stores (keyNodeByID (nd_ID n)) (VNode n) x x' → node_ok n → db_ok (kv x) → db_ok (kv x').
Proof.
  intros H Hok [Hn He]. split; intros k v Hk; (rewrite H; [|by (left + right)]); case_decide as E.
  - intros [= <-]. by exists n.
  - by apply Hn.
  - subst k. by rewrite node_not_edge in Hk.
  - by apply He.
Qed.
Lemma stores_edge_ok e x x' : stores (ekey (edge_key e)) (VEdge e) x x' → edge_ok e → db_ok (kv x) → db_ok (kv x').
Proof.
  intros H Hok [Hn He]. split; intros k v Hk; (rewrite H; [|by (left + right)]); case_decide as E.
  - subst k. by rewrite edge_not_node in Hk.
  - by apply Hn.
  - intros [= <-]. by exists e.
  - by apply He.
Qed.

(** What storing a record does to the view. *)
Lemma stores_node_view n x x' : stores (keyNodeByID (nd_ID n)) (VNode n) x x' → segment (nd_ID n) →
  (∀ id, segment id → db_node (kv x') id = if decide (nd_ID n = id) then Some n else db_node (kv x) id) ∧
  (∀ k, db_edge (kv x') k = db_edge (kv x) k).
Proof.
  intros H Hn. split.
  - intros id Hid. unfold db_node. rewrite H by apply node_native. case_decide as E; case_decide as E'; try done.
    + by apply node_key_inj in E.
    + by subst.
  - intros k. unfold db_edge. rewrite H by apply edge_native. rewrite decide_False; [done|apply node_edge_ne].
Qed.
Lemma stores_edge_view e x x' : stores (ekey (edge_key e)) (VEdge e) x x' → key_ok (edge_key e) →
  (∀ id, db_node (kv x') id = db_node (kv x) id) ∧
  (∀ k, key_ok k → db_edge (kv x') k = if decide (edge_key e = k) then Some e else db_edge (kv x) k).
Proof.
  intros H Hn. split.
  - intros id. unfold db_node. rewrite H by apply node_native. rewrite decide_False; [done|]. intros E. by apply (node_edge_ne id (edge_key e)).
  - intros k Hk. unfold db_edge. rewrite H by apply edge_native. case_decide as E; case_decide as E'; try done.
    + by apply ekey_inj in E.
    + by subst.
Qed.

(** ** The abstract operations respect equality *)
#[global] Instance same_graph_equiv : Equivalence same_graph.
Proof.
  split; [done|by intros g h [? ?]; split; intros; symmetry; auto|].
  intros g h i [H1 H2] [H3 H4]. split; intros; [rewrite H1 by done; auto|rewrite H2 by done; auto].
Qed.

Lemma at_key_same {A B} `{EqDecision A} (P : A → Prop) (k : A) (v : B) f g :
  (∀ k, P k → f k = g k) → ∀ k', P k' → at_key k v f k' = at_key k v g k'.
Proof. intros H k' Hk'. unfold at_key. case_decide; auto. Qed.

Lemma abs_upsert_same g h n : same_graph g h → same_graph (abs_upsert g n) (abs_upsert h n).
Proof. intros [H1 H2]. split; [by apply at_key_same|done]. Qed.
Lemma abs_link_same g h e : same_graph g h → same_graph (abs_link g e) (abs_link h e).
Proof. intros [H1 H2]. split; [done|by apply at_key_same]. Qed.
Lemma abs_delete_same g h id : same_graph g h → same_graph (abs_delete g id) (abs_delete h id).
Proof. intros [H1 H2]. split; [by apply at_key_same|]. intros k Hk. cbn. case_decide; auto. Qed.

Lemma foldl_same {A} (f : agraph → A → agraph) l : (∀ g h a, same_graph g h → same_graph (f g a) (f h a)) →
  ∀ g h, same_graph g h → same_graph (foldl f g l) (foldl f h l).
Proof. intros Hf. induction l as [|a l IH]; intros g h H; [done|]. cbn. by apply IH, Hf. Qed.

Definition mutation_ok t (op : mutation) : Prop :=
  let node n := segment (nd_ID n) ∧ nd_DeletedAt n = 0%Z in
  let edge e := key_ok (edge_key e) ∧ ed_DeletedAt e = 0%Z in
  let known id := segment id ∧ is_Some (db_node t id) in
  match op with
  | MUpsertNode n => node n
  | MUpsertNodes ns => Forall node ns
  | MApplyBatch ns es => Forall node ns ∧ Forall edge es
  | MDeleteNode id => known id
  | MDeleteNodes ids => Forall known ids
  | MLinkEdge e => edge e
  | MLinkEdges es => Forall edge es
  | MUnlinkEdge s tgt k hard => hard = true ∧ key_ok (s, k, tgt)
  | MAnnotateNode id _ => segment id
  | MAnnotateEdge s tgt k _ => key_ok (s, k, tgt)
  | MRecordMutationResult _ => True
  end.

Lemma abs_mutation_same t op g h : mutation_ok t op → same_graph g h → same_graph (abs_mutation op g) (abs_mutation op h).
Proof.
  intros Hop H. destruct op; cbn [abs_mutation] in *; try done.
  - by apply abs_upsert_same.
  - apply foldl_same; [apply abs_upsert_same|done].
  - apply foldl_same; [apply abs_link_same|]. apply foldl_same; [apply abs_upsert_same|done].
  - by apply abs_delete_same.
  - apply foldl_same; [apply abs_delete_same|done].
  - by apply abs_link_same.
  - apply foldl_same; [apply abs_link_same|done].
  - destruct H as [H1 H2]. split; [done|by apply at_key_same].
  - destruct H as [H1 H2]. split; [|done]. intros x Hx. cbn. rewrite (H1 id Hop). repeat (case_match; try by auto). by apply (at_key_same segment).
  - destruct H as [H1 H2]. split; [done|]. intros x Hx. cbn. rewrite (H2 _ Hop). repeat (case_match; try by auto). by apply (at_key_same key_ok).
Qed.

(** ** The durable store implements the abstract graph *)
Definition implements (f : agraph → agraph) x x' : Prop := db_ok (kv x) → db_ok (kv x') ∧ same_graph (db_view (kv x')) (f (db_view (kv x))).

Lemma strip_stored_node n p : stored_props (nd_Props n) = Ok p → strip_node (node_with_props p n) = strip_node n.
Proof. intros Hp. unfold strip_node. cbn. by rewrite (canon_stored _ _ Hp), (canon_stored _ _ (stored_stored _ _ Hp)). Qed.
Lemma strip_stored_edge e p : stored_props (ed_Props e) = Ok p → strip_edge (edge_with_props p e) = strip_edge e.
Proof. intros Hp. unfold strip_edge. cbn. by rewrite (canon_stored _ _ Hp), (canon_stored _ _ (stored_stored _ _ Hp)). Qed.

Lemma put_node_implements n x u x' : segment (nd_ID n) → nd_DeletedAt n = 0%Z → putNodeInTxn clk n x = (Ok u, x') →
  implements (λ g, abs_upsert g n) x x'.
Proof.
  intros Hid Hd (p & Hp & Hs)%put_node Hdb. split.
  - eapply (stores_node_ok (node_with_props p n)); [exact Hs| |done]. split; [done|]. by eapply stored_stored.
  - destruct (stores_node_view (node_with_props p n) x x' Hs Hid) as [Hn He]. split.
    + intros id Hi. cbn. rewrite Hn by done. unfold at_key. change (nd_ID (node_with_props p n)) with (nd_ID n).
      case_decide; [|done]. unfold active_node, node_active. cbn. rewrite Hd. cbn. by rewrite strip_stored_node.
    + intros k _. cbn. by rewrite He.
Qed.
Lemma put_edge_implements e x u x' : key_ok (edge_key e) → ed_DeletedAt e = 0%Z → putEdgeInTxn clk e x = (Ok u, x') →
  implements (λ g, abs_link g e) x x'.
Proof.
  intros Hid Hd (p & Hp & Hs)%put_edge Hdb. split.
  - eapply (stores_edge_ok (edge_with_props p e)); [exact Hs| |done]. split; [done|]. by eapply stored_stored.
  - destruct (stores_edge_view (edge_with_props p e) x x' Hs Hid) as [Hn He]. split.
    + intros id _. cbn. by rewrite Hn.
    + intros k Hk. cbn. rewrite He by done. unfold at_key.
      change (edge_key (edge_with_props p e)) with (edge_key e). case_decide; [|done].
      unfold active_edge, IsActive. cbn. rewrite Hd. cbn. by rewrite strip_stored_edge.
Qed.

Lemma each_implements {A} (put : A → SE (Txn T) unit) (f : agraph → A → agraph) l :
  (∀ g h a, same_graph g h → same_graph (f g a) (f h a)) →
  Forall (λ a, ∀ x u x', put a x = (Ok u, x') → implements (λ g, f g a) x x') l →
  ∀ x u x', each put l x = (Ok u, x') → implements (λ g, foldl f g l) x x'.
Proof.
  intros Hf. induction 1 as [|a l Ha _ IH]; intros x u x'; cbn [each foldl]; [by intros [= _ <-]|].
  intros ([] & x1 & E1 & E2)%se_bind_ok Hdb. destruct (Ha _ _ _ E1 Hdb) as [Hdb1 H1]. destruct (IH _ _ _ E2 Hdb1) as [Hdb2 H2].
  split; [done|]. etrans; [exact H2|]. by apply foldl_same.
Qed.

(** *** Marking *)
Lemma mark_each (w : key3 → bool) d (es : list EdgeRecord) : d ≠ 0%Z → Forall edge_ok es → ∀ x u x',
  each (mark_record (λ e, w (edge_key e)) d) (VEdge <$> es) x = (Ok u, x') → db_ok (kv x) →
  db_ok (kv x') ∧ (∀ id, db_node (kv x') id = db_node (kv x) id) ∧
  ∀ k, key_ok k → active_edge (db_edge (kv x') k) =
    if bool_decide (k ∈ edge_key <$> es) && w k then None else active_edge (db_edge (kv x) k).
Proof.
  intros Hd. induction 1 as [|e es [Hk Hp] _ IH]; intros x u x'; cbn [each fmap list_fmap].
  { intros [= _ <-] Hdb. split; [done|]. split; [done|]. intros k _. by rewrite bool_decide_false by apply not_elem_of_nil. }
  intros ([] & x1 & E1 & E2)%se_bind_ok Hdb. unfold mark_record in E1. apply se_bind_ok in E1 as (e' & y & [[= <-] ->]%se_result_ok & E1).
  assert (db_ok (kv x1) ∧ (∀ id, db_node (kv x1) id = db_node (kv x) id) ∧ ∀ k, key_ok k → active_edge (db_edge (kv x1) k) =
    if bool_decide (k = edge_key e) && w k then None else active_edge (db_edge (kv x) k)) as (Hdb1 & Hn1 & He1).
  { destruct (w (edge_key e)) eqn:Ew.
    - apply put_edge_record in E1 as (p & Hp' & Hs). cbn in Hp'. rewrite Hp in Hp'. injection Hp' as <-.
      set (m := edge_with_props (ed_Props e) (edge_with_times (ed_CreatedAt e) d e)) in *.
      change (edge_key (edge_with_times (ed_CreatedAt e) d e)) with (edge_key m) in Hs. split; [by eapply (stores_edge_ok m)|].
      destruct (stores_edge_view m _ _ Hs Hk) as [Hn He]. split; [done|]. intros k Hk'. rewrite He by done.
      change (edge_key m) with (edge_key e). case_decide as E; case_bool_decide as E'; try congruence; [|done]. subst k. rewrite Ew. cbn.
      unfold active_edge, IsActive. cbn. by destruct (Z.eqb_spec d 0).
    - injection E1 as <-. split; [done|]. split; [done|]. intros k _. case_bool_decide as E; [subst k; by rewrite Ew|done]. }
  destruct (IH _ _ _ E2 Hdb1) as (Hdb2 & Hn2 & He2). split; [done|]. split; [intros id; by rewrite Hn2|].
  intros k Hk'. rewrite He2, He1 by done. destruct (w k); rewrite ?andb_false_r, ?andb_true_r; [|done].
  repeat case_bool_decide; set_solver.
Qed.

(** What a scan of records yields: all of them, each once. *)
Lemma scanned {A} (V : A → Value) (key : A → string) (ok : A → Prop) t pre :
  (∀ a b, V a = V b → a = b) →
  (∀ k v, has_prefix pre k = true → kget k t = Some v → ∃ a, v = V a ∧ k = key a ∧ ok a) →
  ∃ l, (kscan pre t).*2 = V <$> l ∧ (kscan pre t).*1 = key <$> l ∧ Forall ok l ∧ NoDup (key <$> l) ∧
    ∀ a, a ∈ l ↔ kget (key a) t = Some (V a) ∧ has_prefix pre (key a) = true.
Proof.
  intros HV Hrec. assert (∀ l, (∀ kv, kv ∈ l → kv ∈ kscan pre t) → ∃ rs, l.*2 = V <$> rs ∧ l.*1 = key <$> rs ∧ Forall ok rs ∧
    (∀ a, a ∈ rs ↔ (key a, V a) ∈ l)) as Hl.
  { induction l as [|[k v] l IH]; intros Hin.
    { exists []. split_and!; [done..|constructor|]. intros a. split; by intros ?%not_elem_of_nil. }
    destruct IH as (rs & E2 & E1 & Hrs & Hk); [by intros q Hq; apply Hin; right|].
    pose proof (proj1 (kscan_spec pre t k v) (Hin _ ltac:(left))) as [Hg Hp].
    destruct (Hrec k v Hp Hg) as (a & -> & -> & Ha). exists (a :: rs). split_and!; [by cbn; rewrite E2|by cbn; rewrite E1|by constructor|].
    intros b. rewrite !elem_of_cons, Hk. split; [intros [->|?]; auto|]. intros [[= _ E%HV]|?]; auto. }
  destruct (Hl (kscan pre t)) as (l & E2 & E1 & Hok & Hin); [done|]. exists l. split_and!; [done..| |].
  - rewrite <- E1. pose proof (kscan_sorted pre t) as Hs. clear -Hs. induction Hs as [|k l Hl IH Hk]; [constructor|].
    apply NoDup_cons. split; [|done]. intros Hin. eapply Forall_forall in Hk; [|exact Hin]. by apply str_lt_irrefl in Hk.
  - intros a. by rewrite Hin, kscan_spec.
Qed.

Lemma scanned_edges t pre : db_ok t → (∀ k, has_prefix pre k = true → has_prefix edge_prefix k = true) →
  ∃ es, (kscan pre t).*2 = VEdge <$> es ∧ Forall edge_ok es ∧ NoDup (edge_key <$> es) ∧
    ∀ k e, key_ok k → e ∈ es ∧ edge_key e = k ↔ has_prefix pre (ekey k) = true ∧ db_edge t k = Some e.
Proof.
  intros Hdb Hpre. destruct (scanned VEdge (λ e, ekey (edge_key e)) edge_ok t pre) as (es & E & _ & Hok & Hnd & Hin).
  { by intros a b [= ->]. }
  { intros k v Hk. apply (db_edges _ Hdb). auto. }
  exists es. split_and!; [done..| |].
  - apply (NoDup_fmap_1 ekey). by rewrite <- list_fmap_compose.
  - intros k e Hk. rewrite Hin. split.
    + intros [[Hg Hp] <-]. split; [done|]. unfold db_edge. by rewrite Hg.
    + intros [Hp He]. by destruct (db_edge_at t k e Hdb Hk He) as (Hg & <- & _).
Qed.
Lemma scanned_nodes t : db_ok t →
  ∃ ns, (kscan node_prefix t).*2 = VNode <$> ns ∧ Forall node_ok ns ∧ NoDup (nd_ID <$> ns) ∧
    ∀ id n, segment id → n ∈ ns ∧ nd_ID n = id ↔ db_node t id = Some n.
Proof.
  intros Hdb. destruct (scanned VNode (λ n, keyNodeByID (nd_ID n)) node_ok t node_prefix) as (ns & E & _ & Hok & Hnd & Hin).
  { by intros a b [= ->]. }
  { apply (db_nodes _ Hdb). }
  exists ns. split_and!; [done..| |].
  - apply (NoDup_fmap_1 keyNodeByID). by rewrite <- list_fmap_compose.
  - intros id n Hid. rewrite Hin. split.
    + intros [[Hg Hp] <-]. unfold db_node. by rewrite Hg.
    + intros He. destruct (db_node_at t id n Hdb Hid He) as (Hg & <- & _). split; [|done]. split; [done|].
      destruct (node_native (nd_ID n)) as [H|H]; [done|by rewrite node_not_edge in H].
Qed.

Lemma mark_pass (w : key3 → bool) d pre x u x' : d ≠ 0%Z → (∀ k, has_prefix pre k = true → has_prefix edge_prefix k = true) →
  mark_records (λ e, w (edge_key e)) d pre x = (Ok u, x') → db_ok (kv x) →
  db_ok (kv x') ∧ (∀ id, db_node (kv x') id = db_node (kv x) id) ∧
  ∀ k, key_ok k → active_edge (db_edge (kv x') k) = if has_prefix pre (ekey k) && w k then None else active_edge (db_edge (kv x) k).
Proof.
  intros Hd Hpre (found & y & [= <- <-] & E)%se_bind_ok Hdb. destruct (scanned_edges (kv x) pre Hdb Hpre) as (es & Ees & Hes & _ & Hin).
  rewrite Ees in E. destruct (mark_each w d es Hd Hes _ _ _ E Hdb) as (Hdb' & Hn & He). split; [done|]. split; [done|].
  intros k Hk. rewrite He by done. destruct (w k); rewrite ?andb_false_r, ?andb_true_r; [|done].
  destruct (has_prefix pre (ekey k)) eqn:Ep.
  - destruct (db_edge (kv x) k) as [e|] eqn:Ee; [|by case_bool_decide]. rewrite bool_decide_true; [done|].
    destruct (proj2 (Hin k e Hk) (conj Ep Ee)) as [He' <-]. by apply list_elem_of_fmap_2.
  - rewrite bool_decide_false; [done|]. intros (e & -> & He')%list_elem_of_fmap. destruct (proj1 (Hin _ e Hk) (conj He' eq_refl)). congruence.
Qed.

Lemma mark_node id d x u x' : d ≠ 0%Z → segment id → markEdgesForNode id d x = (Ok u, x') → db_ok (kv x) →
  db_ok (kv x') ∧ (∀ i, db_node (kv x') i = db_node (kv x) i) ∧
  ∀ k, key_ok k → active_edge (db_edge (kv x') k) = if decide (k.1.1 = id ∨ k.2 = id) then None else active_edge (db_edge (kv x) k).
Proof.
  intros Hd Hid ([] & x1 & E1 & E2)%se_bind_ok Hdb.
  assert (∀ k, has_prefix (keyPrefix [famEdgeOut; id]) k = true → has_prefix edge_prefix k = true) as Hpre.
  { intros k (t & ->)%has_prefix_spec. apply has_prefix_spec. exists (encodeKey [id] +:+ t).
    unfold edge_prefix, keyPrefix. change [famEdgeOut; id] with ([famEdgeOut] ++ [id]). by rewrite encode_app, str_app_assoc. }
  destruct (mark_pass (λ _, true) d _ _ _ _ Hd Hpre E1 Hdb) as (Hdb1 & Hn1 & He1).
  destruct (mark_pass (λ k, bool_decide (k.2 = id)) d edge_prefix _ _ _ Hd ltac:(done) E2 Hdb1) as (Hdb2 & Hn2 & He2).
  split; [done|]. split; [intros i; by rewrite Hn2|]. intros k Hk. rewrite He2, He1 by done.
  destruct (edge_native k) as [Hb|Eb]; [by rewrite edge_not_node in Hb|]. rewrite Eb. cbn [andb]. rewrite andb_true_r.
  assert (has_prefix (keyPrefix [famEdgeOut; id]) (ekey k) = true ↔ k.1.1 = id) as Hp.
  { unfold keyPrefix, ekey, keyEdgeOut. rewrite encode_prefix.
    - split; [intros [l [= <- _]]; done|]. intros <-. by exists [k.1.2; k.2].
    - apply Forall_cons_2; [apply fam_edge|]. by apply Forall_singleton.
    - by apply edge_segments. }
  case_bool_decide; [rewrite decide_True by auto; done|]. destruct (has_prefix (keyPrefix [famEdgeOut; id]) (ekey k)) eqn:Eh.
  - rewrite decide_True; [done|]. left. by apply Hp.
  - rewrite decide_False; [done|]. intros [Hs|?]; [|done]. apply Hp in Hs. congruence.
Qed.

(** *** Deletion *)
Definition timely : Prop := ∀ i, unix_nano (clk i) ≠ 0%Z.

(** A reading of the clock inside the transaction. *)
Definition reads_clock (at_ : SE (Txn T) Time) : Prop := ∀ x now x', at_ x = (Ok now, x') → unix_nano now ≠ 0%Z ∧ kv x' = kv x.
Lemma now_reads : timely → reads_clock (txn_now clk).
Proof. intros Ht x now x' [= <- <-]. by split. Qed.
Lemma ret_reads now : unix_nano now ≠ 0%Z → reads_clock (se_ret now).
Proof. intros Hn x n' x' [= <- <-]. by split. Qed.

Lemma delete_one_implements id at_ x u x' : reads_clock at_ → segment id → is_Some (db_node (kv x) id) →
  delete_one id at_ x = (Ok u, x') →
  implements (λ g, abs_delete g id) x x' ∧ (db_ok (kv x) → ∀ i, segment i → is_Some (db_node (kv x) i) → is_Some (db_node (kv x') i)).
Proof.
  intros Hat Hid Hsome (r & x0 & [= <- <-] & E)%se_bind_ok.
  assert (db_ok (kv x) → db_ok (kv x') ∧ same_graph (db_view (kv x')) (abs_delete (db_view (kv x)) id) ∧
    ∀ i, segment i → is_Some (db_node (kv x) i) → is_Some (db_node (kv x') i)) as H; [|split; intros Hdb; by destruct (H Hdb) as (? & ? & ?)].
  intros Hdb. destruct (getNodeRecordInTxn id (kv x)) as [old|e] eqn:Eo.
  2: { destruct (get_node_missing _ _ _ Hdb Eo) as [_ Hn]. rewrite Hn in Hsome. by destruct Hsome. }
  apply get_node_record in Eo; [|done]. destruct (db_node_at _ _ _ Hdb Hid Eo) as (_ & <- & [Hs Hp]).
  apply se_bind_ok in E as ([] & x1 & E1 & (now & x2 & E2 & ([] & x3 & E3 & E4)%se_bind_ok)%se_bind_ok).
  destruct (Hat _ _ _ E2) as [Hnow Ek]. pose proof (delete_node_indexes_quiet old _ _ _ E1) as Hq.
  assert (∀ k, native k → kget k (kv x2) = kget k (kv x)) as Hq2 by (intros k Hk; rewrite Ek; auto).
  apply put_node_record in E3 as (p & Hp' & Hst). cbn in Hp'. rewrite Hp in Hp'. injection Hp' as <-.
  set (m := node_with_props (nd_Props old) _) in Hst. assert (db_ok (kv x2)) as Hdb2 by (by eapply quiet_db_ok).
  assert (db_ok (kv x3)) as Hdb3 by (by eapply (stores_node_ok m)).
  destruct (stores_node_view m _ _ Hst Hs) as [Hn3 He3].
  destruct (mark_node _ _ _ _ _ Hnow Hs E4 Hdb3) as (Hdb4 & Hn4 & He4). split; [done|].
  assert (∀ i, db_node (kv x2) i = db_node (kv x) i) as Hn2 by (intros i; unfold db_node; rewrite Hq2; [done|apply node_native]).
  assert (∀ k, db_edge (kv x2) k = db_edge (kv x) k) as He2 by (intros k; unfold db_edge; rewrite Hq2; [done|apply edge_native]).
  split; [split|].
  - intros i Hi. cbn. rewrite Hn4, Hn3, Hn2 by done. unfold at_key. change (nd_ID m) with (nd_ID old). case_decide; [|done].
    unfold active_node, node_active. cbn. by destruct (Z.eqb_spec (unix_nano now) 0).
  - intros k Hk. cbn [db_view abs_delete ag_edge]. rewrite He4 by done. by rewrite He3, He2.
  - intros i Hi Hsi. rewrite Hn4, Hn3, Hn2 by done. by case_decide.
Qed.

Lemma deletes_implement at_ ids : reads_clock at_ → ∀ x u x', Forall (λ id, segment id ∧ is_Some (db_node (kv x) id)) ids →
  each (λ id, delete_one id at_) ids x = (Ok u, x') → implements (λ g, foldl abs_delete g ids) x x'.
Proof.
  intros Hat. induction ids as [|id ids IH]; intros x u x' Hids; cbn [each foldl].
  { intros [= _ <-] Hdb. by split. }
  intros ([] & x1 & E1 & E2)%se_bind_ok Hdb. apply Forall_cons in Hids as [[Hid Hk] Hids].
  destruct (delete_one_implements _ _ _ _ _ Hat Hid Hk E1) as [H1 Hsome]. destruct (H1 Hdb) as [Hdb1 Hg1].
  assert (Forall (λ id, segment id ∧ is_Some (db_node (kv x1) id)) ids) as Hids1.
  { eapply Forall_impl; [exact Hids|]. intros i [? ?]. split; [done|]. by apply Hsome. }
  destruct (IH _ _ _ Hids1 E2 Hdb1) as [Hdb2 Hg2]. split; [done|]. etrans; [exact Hg2|]. by apply foldl_same; [intros; apply abs_delete_same|].
Qed.

(** *** Unlinking and annotation *)
Lemma unlink_implements s tgt k x u x' : key_ok (s, k, tgt) → commitInTxn clk (MUnlinkEdge s tgt k true) x = (Ok u, x') →
  implements (λ g, abs_unlink g (s, k, tgt)) x x'.
Proof.
  intros Hk (old & x0 & [= <- <-] & ([] & x1 & E1 & [= _ <-])%se_bind_ok)%se_bind_ok Hdb.
  assert (∀ k, native k → kget k (kv x1) = kget k (kv x)) as Hq.
  { intros q Hq. destruct (getEdgeRecord s tgt k (kv x)) as [old|e]; [by eapply delete_edge_indexes_quiet|by injection E1 as <-]. }
  cbn [kv]. assert (∀ k', kget k' (kdel (keyEdgeOut s k tgt) (kv x1)) = if decide (ekey (s, k, tgt) = k') then None else kget k' (kv x1)) as Hd
    by (intros k'; apply kget_kdel).
  split; [|split].
  - destruct (quiet_db_ok _ _ Hq Hdb) as [Hn He]. split; intros k' v Hk'; rewrite Hd; case_decide; try done; [by apply Hn|by apply He].
  - intros id Hid. cbn. unfold db_node. rewrite Hd, decide_False by (intros E; by apply (node_edge_ne id (s, k, tgt))). by rewrite Hq by apply node_native.
  - intros k' Hk'. cbn. unfold db_edge, at_key. rewrite Hd. case_decide as E; case_decide as E'.
    + done.
    + by apply ekey_inj in E.
    + by subst.
    + by rewrite Hq by apply edge_native.
Qed.

(** A record is stored after the indexes and the history changed. *)
Lemma quiet_stores_node n x x1 x' : (∀ k, native k → kget k (kv x1) = kget k (kv x)) → db_ok (kv x) → node_ok n →
  stores (keyNodeByID (nd_ID n)) (VNode n) x1 x' →
  db_ok (kv x') ∧ (∀ id, segment id → db_node (kv x') id = if decide (nd_ID n = id) then Some n else db_node (kv x) id) ∧
  (∀ k, db_edge (kv x') k = db_edge (kv x) k).
Proof.
  intros Hq Hdb Hn Hs. assert (db_ok (kv x1)) as Hdb1 by (by eapply quiet_db_ok).
  destruct (stores_node_view n _ _ Hs (proj1 Hn)) as [Hn1 He1]. split_and!; [by eapply stores_node_ok| |].
  - intros id Hid. rewrite Hn1 by done. case_decide; [done|]. unfold db_node. by rewrite Hq by apply node_native.
  - intros k. rewrite He1. unfold db_edge. by rewrite Hq by apply edge_native.
Qed.
Lemma quiet_stores_edge e x x1 x' : (∀ k, native k → kget k (kv x1) = kget k (kv x)) → db_ok (kv x) → edge_ok e →
  stores (ekey (edge_key e)) (VEdge e) x1 x' →
  db_ok (kv x') ∧ (∀ id, db_node (kv x') id = db_node (kv x) id) ∧
  (∀ k, key_ok k → db_edge (kv x') k = if decide (edge_key e = k) then Some e else db_edge (kv x) k).
Proof.
  intros Hq Hdb Hn Hs. assert (db_ok (kv x1)) as Hdb1 by (by eapply quiet_db_ok).
  destruct (stores_edge_view e _ _ Hs (proj1 Hn)) as [Hn1 He1]. split_and!; [by eapply stores_edge_ok| |].
  - intros id. rewrite Hn1. unfold db_node. by rewrite Hq by apply node_native.
  - intros k Hk. rewrite He1 by done. case_decide; [done|]. unfold db_edge. by rewrite Hq by apply edge_native.
Qed.

Lemma annotate_node_implements id props x u x' : segment id → commitInTxn clk (MAnnotateNode id props) x = (Ok u, x') →
  implements (λ g, abs_annotate_node g id props) x x'.
Proof.
  intros Hid (r & x0 & [= <- <-] & E)%se_bind_ok Hdb. destruct (getNodeRecordInTxn id (kv x)) as [old|e] eqn:Eo.
  2: { destruct (get_node_missing _ _ _ Hdb Eo) as [-> Hn]. injection E as _ <-. split; [done|]. split; [|done]. intros i _.
       cbn. by rewrite Hn. }
  apply get_node_record in Eo; [|done]. destruct (db_node_at _ _ _ Hdb Hid Eo) as (_ & <- & [Hs Hp]).
  apply se_bind_ok in E as ([] & x1 & E1 & ([] & x2 & E2 & (m & x3 & [Hm ->]%se_result_ok & ([] & x4 & E4 & E5)%se_bind_ok)%se_bind_ok)%se_bind_ok).
  apply put_node_record in E4 as (p & Hp' & Hst). set (n := node_with_props p _) in Hst.
  assert (∀ k, native k → kget k (kv x2) = kget k (kv x)) as Hq.
  { intros k Hk. rewrite (delete_node_indexes_quiet _ _ _ _ E2 k Hk). by apply (node_history_quiet _ _ _ _ E1). }
  assert (node_ok n) as Hok by (split; [done|by eapply stored_stored]).
  destruct (quiet_stores_node n _ _ _ Hq Hdb Hok Hst) as (Hdb4 & Hn4 & He4).
  assert (∀ k, native k → kget k (kv x') = kget k (kv x4)) as Hq' by (by apply (put_node_indexes_quiet _ _ _ _ E5)).
  split; [by eapply quiet_db_ok|]. split.
  - intros i Hi. cbn. rewrite Eo. unfold db_node. rewrite Hq' by apply node_native. fold (db_node (kv x4) i). rewrite Hn4 by done.
    change (nd_ID n) with (nd_ID old). unfold active_node at 2, node_active. cbn. destruct (nd_DeletedAt old =? 0)%Z eqn:Ed; cbn.
    + rewrite (canon_stored _ _ Hp), Hm. unfold at_key. case_decide; [|done]. unfold active_node, node_active. cbn. rewrite Ed.
      cbn in Hp'. f_equal. unfold strip_node. cbn. by rewrite (canon_stored _ _ Hp'), (canon_stored _ _ (stored_stored _ _ Hp')).
    + case_decide; [|done]. subst i. trans (@None NodeRecord); [|symmetry; trans (active_node (db_node (kv x) (nd_ID old))); [done|rewrite Eo]];
        unfold active_node, node_active; cbn; by rewrite Ed.
  - intros k _. cbn. unfold db_edge at 1. rewrite Hq' by apply edge_native. fold (db_edge (kv x4) k). by rewrite He4.
Qed.

Lemma annotate_edge_implements s tgt k props x u x' : key_ok (s, k, tgt) → commitInTxn clk (MAnnotateEdge s tgt k props) x = (Ok u, x') →
  implements (λ g, abs_annotate_edge g (s, k, tgt) props) x x'.
Proof.
  intros Hk (r & x0 & [= <- <-] & E)%se_bind_ok Hdb. destruct (getEdgeRecord s tgt k (kv x)) as [old|e] eqn:Eo.
  2: { destruct (get_edge_missing _ _ _ _ _ Hdb Eo) as [-> Hn]. injection E as _ <-. split; [done|]. split; [done|]. intros i _.
       cbn. by rewrite Hn. }
  apply get_edge_record in Eo; [|done]. destruct (db_edge_at _ _ _ Hdb Hk Eo) as (_ & Ek & [Hs Hp]).
  apply se_bind_ok in E as ([] & x1 & E1 & (m & x3 & [Hm ->]%se_result_ok & E4)%se_bind_ok).
  apply put_edge_record in E4 as (p & Hp' & Hst). set (n := edge_with_props p _) in Hst.
  pose proof (edge_history_quiet _ _ _ _ E1) as Hq. assert (edge_ok n) as Hok by (split; [done|by eapply stored_stored]).
  destruct (quiet_stores_edge n _ _ _ Hq Hdb Hok Hst) as (Hdb4 & Hn4 & He4). split; [done|]. split.
  - intros i _. cbn. by rewrite Hn4.
  - intros i Hi. cbn. rewrite Eo. rewrite He4 by done. change (edge_key n) with (edge_key old). rewrite Ek.
    unfold active_edge at 2, IsActive. cbn. destruct (ed_DeletedAt old =? 0)%Z eqn:Ed; cbn.
    + rewrite (canon_stored _ _ Hp), Hm. unfold at_key. case_decide; [|done]. unfold active_edge, IsActive. cbn. rewrite Ed.
      cbn in Hp'. f_equal. unfold strip_edge. cbn. by rewrite (canon_stored _ _ Hp'), (canon_stored _ _ (stored_stored _ _ Hp')).
    + case_decide; [|done]. subst i. trans (@None EdgeRecord); [|symmetry; trans (active_edge (db_edge (kv x) (s, k, tgt))); [done|rewrite Eo]];
        unfold active_edge, IsActive; cbn; by rewrite Ed.
Qed.

(** A committed mutation is the abstract one. *)
Lemma commit_implements op x u x' : timely → mutation_ok (kv x) op → commitInTxn clk op x = (Ok u, x') →
  implements (abs_mutation op) x x'.
Proof.
  intros Ht Hop E. destruct op; cbn [mutation_ok abs_mutation] in *.
  - by eapply put_node_implements; [apply Hop..|].
  - eapply each_implements; [intros; by apply abs_upsert_same| |exact E].
    eapply Forall_impl; [exact Hop|]. intros n [? ?] y v y' Ey. by eapply put_node_implements.
  - apply se_bind_ok in E as ([] & x1 & E1 & E2). destruct Hop as [Hn He]. intros Hdb.
    destruct (each_implements (putNodeInTxn clk) abs_upsert ns abs_upsert_same) with (2 := E1) as [Hdb1 H1]; [|done|].
    { eapply Forall_impl; [exact Hn|]. intros n [? ?] y v y' Ey. by eapply put_node_implements. }
    destruct (each_implements (putEdgeInTxn clk) abs_link es abs_link_same) with (2 := E2) as [Hdb2 H2]; [|done|].
    { eapply Forall_impl; [exact He|]. intros n [? ?] y v y' Ey. by eapply put_edge_implements. }
    split; [done|]. etrans; [exact H2|]. apply foldl_same; [apply abs_link_same|done].
  - destruct Hop. by eapply delete_one_implements; [by apply now_reads|..].
  - apply se_bind_ok in E as (now & x1 & [= <- <-] & E2). 
    refine (deletes_implement _ _ (ret_reads _ (Ht _)) _ _ _ _ E2). exact Hop.
  - by eapply put_edge_implements; [apply Hop..|].
  - eapply each_implements; [intros; by apply abs_link_same| |exact E].
    eapply Forall_impl; [exact Hop|]. intros n [? ?] y v y' Ey. by eapply put_edge_implements.
  - destruct Hop as [-> Hk]. by eapply unlink_implements.
  - by eapply annotate_node_implements.
  - by eapply annotate_edge_implements.
  - injection E as _ <-. intros Hdb.
    assert (∀ k, native k → kget k (kset (keyMutationByStable (mr_StableID r)) (VResult r) (kv x)) = kget k (kv x)) as Hq.
    { intros k Hk. rewrite kget_kset, decide_False; [done|]. apply native_foreign; [by split|done]. }
    split; [by eapply quiet_db_ok|]. cbn [kv]. split.
    + intros id _. cbn. unfold db_node. by rewrite Hq by apply node_native.
    + intros k _. cbn. unfold db_edge. by rewrite Hq by apply edge_native.
Qed.

Lemma commit_refines o op t r t' : timely → mutation_ok t op → db_ok t → commit clk o op t = (r, t') →
  match r with
  | Ok _ => db_ok t' ∧ same_graph (db_view t') (abs_mutation op (db_view t))
  | Err _ => t' = t
  end.
Proof.
  intros Ht Hop Hdb. unfold commit, db_update. destruct (commitInTxn clk op (MkTxn t 0)) as [[u|e] x] eqn:E; [|by intros [= <- <-]].
  pose proof (commit_implements op (MkTxn t 0) _ _ Ht Hop E Hdb) as H. destruct o; intros [= <- <-]; done.
Qed.
End durable.
