(* ===== verification/KnowledgeRefinement.v ===== *)
(** * KnowledgeRefinement

    The engine keeps one graph in two places: the in-memory store and the database are both
    read as the abstract graph of [KnowledgeDurable], every call moves both the same way or
    neither, and opening the database again gives that graph back. *)
From S2P Require Import Prelude GoStrings KV Envelope GoEncoding EnvelopeMerge KnowledgeKeys KnowledgeStore KnowledgeEngine KnowledgeMirror KnowledgeDurable.

Section memory.
Context `{CD : !Codec} `{CL : !CodecLaws}.

(** ** One edge per key *)
Lemma head_filter_unique {A B} `{EqDecision B} (f : A → B) (l : list A) k x : NoDup (f <$> l) →
  head (filter (λ a, f a = k) l) = Some x ↔ x ∈ l ∧ f x = k.
Proof.
  induction l as [|a l IH]; cbn [fmap list_fmap]; [intros _; split; [done|by intros [?%not_elem_of_nil _]]|].
  intros [Ha Hl]%NoDup_cons. rewrite filter_cons. case_decide as E.
  - cbn [head]. split; [intros [= ->]; split; [by left|done]|]. intros [[->|Hx]%elem_of_cons Ek]; [done|].
    exfalso. apply Ha. rewrite E, <- Ek. by apply list_elem_of_fmap_2.
  - rewrite IH by done. rewrite elem_of_cons. naive_solver.
Qed.
Lemma mem_edge_spec s k e : wf_edges s → mem_edge s k = Some e ↔ e ∈ out_edges k.1.1 s ∧ edge_key e = k.
Proof. intros Hwf. apply head_filter_unique, (we_once_out s Hwf). Qed.

Lemma mem_edge_maps m s s' k : keeps_key m → maps m s s' → mem_edge s' k = m <$> mem_edge s k.
Proof.
  intros Hm Hs. unfold mem_edge. rewrite (proj1 (Hs _)). induction (out_edges k.1.1 s) as [|e l IH]; [done|].
  cbn [fmap list_fmap]. rewrite !filter_cons. rewrite (Hm e). case_decide; [done|exact IH].
Qed.

Lemma same_lists_edge s s' k : (∀ v, out_edges v s' = out_edges v s) → mem_edge s' k = mem_edge s k.
Proof. intros E. unfold mem_edge. by rewrite E. Qed.

(** ** The operations *)
Lemma strip_same a b : node_with_times 0 0 0 a = node_with_times 0 0 0 b → strip_node a = strip_node b.
Proof.
  assert (∀ n, strip_node n = node_with_props (canon (nd_Props (node_with_times 0 0 0 n))) (node_with_times 0 0 0 n)) as H by done.
  intros E. by rewrite !H, E.
Qed.
Lemma strip_same_edge a b : edge_with_times 0 0 a = edge_with_times 0 0 b → strip_edge a = strip_edge b.
Proof.
  assert (∀ n, strip_edge n = edge_with_props (canon (ed_Props (edge_with_times 0 0 n))) (edge_with_times 0 0 n)) as H by done.
  intros E. by rewrite !H, E.
Qed.

(** Either the node is stored, or one that differs only in its times is there. *)
Lemma upsert_nodes n s : wf_nodes s →
  (∃ n', strip_node n' = strip_node n ∧ nd_DeletedAt n' = nd_DeletedAt n ∧ s_nodes (applyUpsertNode n s) = <[nd_ID n := n']> (s_nodes s)) ∨
  (∃ ex, s_nodes s !! nd_ID n = Some ex ∧ node_active ex = true ∧ strip_node ex = strip_node n ∧ applyUpsertNode n s = s).
Proof.
  intros Hwf. unfold applyUpsertNode. destruct (s_nodes s !! nd_ID n) as [ex|] eqn:Hex.
  2: { left. exists n. split_and!; [done..|apply store_node_nodes]. }
  set (n' := if (nd_CreatedAt n =? 0)%Z then _ else n).
  assert (strip_node n' = strip_node n ∧ nd_DeletedAt n' = nd_DeletedAt n ∧ nd_ID n' = nd_ID n ∧
    node_with_times 0 0 0 n' = node_with_times 0 0 0 n) as (E1 & E2 & E3 & E4) by (unfold n'; by case_match).
  cbv zeta. destruct (node_active ex && nodeRecordEqual ex n') eqn:Eq.
  - right. exists ex. apply andb_true_iff in Eq as [Ha Eq%bool_decide_eq_true]. split_and!; [done|done| |done].
    rewrite <- E1. apply strip_same. rewrite Eq. pose proof (ix_id _ _ Hwf _ _ Hex) as Ei.
    destruct n'; cbn in *. by rewrite E3, Ei.
  - left. exists n'. split_and!; [done..|]. rewrite <- E3. etrans; [apply store_node_nodes|]. f_equal.
    unfold removeNodeLabels, removeNodeKindIndex, removeNodeSourceIndex. by repeat case_match.
Qed.

Lemma upsert_view n s : wf s → nd_DeletedAt n = 0%Z → same_graph (mem_view (applyUpsertNode n s)) (abs_upsert (mem_view s) n).
Proof.
  intros [Hn He] Hd. split.
  - intros id _. cbn. unfold at_key. destruct (upsert_nodes n s Hn) as [(n' & Es & Ed & ->)|(ex & Hex & Ha & Es & ->)].
    + case_decide as E; [subst id; rewrite lookup_insert_eq|by rewrite lookup_insert_ne].
      unfold active_node, node_active. cbn. rewrite Ed, Hd. cbn. by rewrite Es.
    + case_decide as E; [|done]. subst id. rewrite Hex. unfold active_node. cbn. by rewrite Ha, Es.
  - intros k _. cbn. f_equal. apply same_lists_edge. intros v. apply upsert_lists.
Qed.

Definition linked (e : EdgeRecord) (s : adjacencyStore) : adjacencyStore :=
  let s := set_forward (ed_SourceID e) (upsertEdge e (out_edges (ed_SourceID e) s)) s in
  set_reverse (ed_TargetID e) (upsertEdge e (in_edges (ed_TargetID e) s)) s.
Lemma linked_edge e s k : wf_edges s → wf_edges (linked e s) → mem_edge (linked e s) k = if decide (edge_key e = k) then Some e else mem_edge s k.
Proof.
  intros He He'. apply option_eq. intros x. rewrite mem_edge_spec by done. unfold linked. cbv zeta. rewrite out_set_reverse, out_set_forward.
  destruct (decide (edge_key e = k)) as [<-|E].
  - rewrite decide_True by done. rewrite upsertEdge_elem by apply (we_once_out s He).
    split; [by intros [[->|[_ ?]] ?]|]. intros [= ->]. auto.
  - rewrite mem_edge_spec by done. case_decide as Ek; [|done]. rewrite upsertEdge_elem by apply (we_once_out s He). rewrite Ek. split; [by intros [[->|[? _]] ?]|].
    intros [Hx Hk]. split; [|done]. right. split; [done|congruence].
Qed.

Lemma link_view e s : wf s → ed_DeletedAt e = 0%Z → same_graph (mem_view (applyLinkEdge e s)) (abs_link (mem_view s) e).
Proof.
  intros [Hn He] Hd. pose proof (link_wf e s He) as He'. split; [intros id _; cbn; unfold applyLinkEdge; by case_match|].
  intros k _. cbn. unfold at_key. revert He'. unfold applyLinkEdge. fold (linked e s). cbv zeta.
  assert (wf_edges (linked e s) → active_edge (mem_edge (linked e s) k) =
    if decide (edge_key e = k) then Some (strip_edge e) else active_edge (mem_edge s k)) as Hl.
  { intros He'. rewrite linked_edge by done. case_decide; [|done]. unfold active_edge, IsActive. cbn. by rewrite Hd. }
  destruct (head (filter _ (out_edges (ed_SourceID e) s))) as [c|] eqn:Ec; [|exact Hl].
  destruct (edgeRecordEqual c e) eqn:Eq; [|exact Hl]. intros _. case_decide as E; [|done]. subst k.
  assert (c ∈ filter (λ e0, same_edge (ed_SourceID e) (ed_TargetID e) (ed_Kind e) e0 && IsActive e0 = true) (out_edges (ed_SourceID e) s)) as H
    by (destruct (filter _ _); [done|injection Ec as ->; by left]).
  apply list_elem_of_filter in H as [[Ek%same_edge_spec Ha]%andb_true_iff Hc].
  rewrite (proj2 (mem_edge_spec s (edge_key e) c He)) by done. unfold active_edge. cbn. rewrite Ha. f_equal.
  apply strip_same_edge. by apply bool_decide_eq_true in Eq.
Qed.

Lemma delete_view time id s : wf s → unix_nano time ≠ 0%Z →
  same_graph (mem_view (applyDeleteNode time id (unix_nano time) s)) (abs_delete (mem_view s) id).
Proof.
  intros [Hn He] Ht. set (d := unix_nano time) in *. split.
  - intros i _. cbn. unfold at_key. destruct (delete_nodes_same time id d s) as (s1 & (En & _) & ->). rewrite En.
    rewrite (proj2 (Z.eqb_neq d 0) Ht). destruct (s_nodes s !! id) as [n|] eqn:E.
    + assert (∀ n s, s_nodes (removeNodeKindIndex n (removeNodeLabels n s)) = s_nodes s ∧
        ∀ a b, s_nodes (removeNodeSourceIndex a b s) = s_nodes s) as Hs.
      { intros m s2. unfold removeNodeKindIndex, removeNodeLabels, removeNodeSourceIndex. split; [|intros a b]; by repeat case_match. }
      rewrite (proj2 (Hs n _)). cbn [with_nodes s_nodes]. rewrite (proj1 (Hs n s)). case_decide as Ei; [subst i|by rewrite lookup_insert_ne].
      rewrite lookup_insert_eq. unfold active_node, node_active. cbn. by rewrite (proj2 (Z.eqb_neq d 0) Ht).
    + case_decide; [subst i|done]. by rewrite E.
  - intros k _. cbn [mem_view abs_delete ag_edge]. rewrite (mem_edge_maps _ _ _ _ (mark_keeps _ _) (delete_maps time id d s He)).
    destruct (mem_edge s k) as [e|] eqn:E; cbn; [|by case_decide].
    assert (touches id e = bool_decide (k.1.1 = id ∨ k.2 = id)) as Et.
    { apply mem_edge_spec in E as [_ <-]; [|done]. unfold touches. cbn. by rewrite bool_decide_or. }
    unfold mark_if. rewrite Et, (proj2 (Z.eqb_neq d 0) Ht). case_bool_decide; [rewrite decide_True by done|by rewrite decide_False by done].
    unfold active_edge, IsActive. cbn. by rewrite (proj2 (Z.eqb_neq d 0) Ht).
Qed.

Lemma unlink_view time src tgt kd d s : wf s →
  same_graph (mem_view (applyUnlink time src tgt kd true d s)) (abs_unlink (mem_view s) (src, kd, tgt)).
Proof.
  intros [Hn He]. split; [done|]. intros k _. pose proof (unlink_wf time src tgt kd true d s He) as He'. cbn [mem_view abs_unlink ag_edge].
  unfold at_key.
  assert (mem_edge (applyUnlink time src tgt kd true d s) k = if decide ((src, kd, tgt) = k) then None else mem_edge s k) as ->; [|by case_decide].
  apply option_eq. intros x. rewrite mem_edge_spec by done. unfold applyUnlink. cbv zeta. rewrite out_set_reverse, out_set_forward.
  unfold mutateEdgeSlice. destruct (decide ((src, kd, tgt) = k)) as [<-|E].
  - rewrite decide_True by done. rewrite list_elem_of_filter, same_edge_false. naive_solver.
  - rewrite mem_edge_spec by done. case_decide as Es; [|done]. rewrite list_elem_of_filter, same_edge_false, Es. naive_solver.
Qed.

(** ** Annotation: the same raw JSON on both sides *)
Definition props_ok (g : agraph) : Prop :=
  (∀ id n, segment id → ag_node g id = Some n → stored_props (nd_Props n) = Ok (nd_Props n)) ∧
  (∀ k e, key_ok k → ag_edge g k = Some e → stored_props (ed_Props e) = Ok (ed_Props e)).
Lemma props_ok_same g h : same_graph g h → props_ok g → props_ok h.
Proof. intros [H1 H2] [H3 H4]. split; intros; [eapply H3|eapply H4]; try done; [by rewrite H1|by rewrite H2]. Qed.

Lemma active_node_some s id n : activeNode id s = Some n → ag_node (mem_view s) id = Some (strip_node n).
Proof. unfold activeNode. cbn. destruct (s_nodes s !! id) as [m|]; [|done]. unfold active_node. cbn. destruct (node_active m); [|done]. by intros [= ->]. Qed.
Lemma active_node_none s id : activeNode id s = None → ag_node (mem_view s) id = None.
Proof. unfold activeNode. cbn. destruct (s_nodes s !! id) as [m|]; [|done]. unfold active_node. cbn. by destruct (node_active m). Qed.

Lemma merge_stripped p props q : stored_props q = Ok q → canon p = q → mergeJSONProps unmarshal q props = mergeJSONProps unmarshal p props.
Proof. intros. symmetry. by apply merge_canon. Qed.

(** The annotation of the abstract record, by the properties the store holds. *)
Lemma annotate_node_view time id props d s s' : segment id → props_ok (mem_view s) →
  annotateNodeLocked unmarshal time id props d s = Ok s' → same_graph (mem_view s') (abs_annotate_node (mem_view s) id props).
Proof.
  intros Hid [Hp _] H. unfold annotateNodeLocked in H. unfold abs_annotate_node.
  destruct (s_nodes s !! id) as [n|] eqn:E.
  2: { injection H as <-. rewrite active_node_none by (unfold activeNode; by rewrite E). done. }
  destruct (node_active n) eqn:Ea.
  2: { injection H as <-. rewrite active_node_none by (unfold activeNode; rewrite E; cbn; by rewrite Ea). done. }
  assert (ag_node (mem_view s) id = Some (strip_node n)) as Ev by (apply active_node_some; unfold activeNode; rewrite E; cbn; by rewrite Ea).
  rewrite Ev. rewrite (merge_stripped (nd_Props n)) by (done || by apply (Hp id)). cbn [negb] in H.
  apply rbind_ok in H as (m & -> & H). split; [|by case_bool_decide; injection H as <-].
  intros i _. cbn [ag_node]. unfold at_key. case_bool_decide as Em; injection H as <-.
  - case_decide; [|done]. subst i. by rewrite Ev, <- Em.
  - cbn. case_decide as Ei; [subst i; rewrite lookup_insert_eq|by rewrite lookup_insert_ne].
    unfold active_node, node_active in *. cbn. by rewrite Ea.
Qed.
Lemma annotate_node_total time id props d s : segment id → props_ok (mem_view s) →
  (∀ n, ag_node (mem_view s) id = Some n → ∃ m, mergeJSONProps unmarshal (nd_Props n) props = Ok m) →
  ∃ s', annotateNodeLocked unmarshal time id props d s = Ok s'.
Proof.
  intros Hid [Hp _] Hm. unfold annotateNodeLocked. destruct (s_nodes s !! id) as [n|] eqn:E; [|by eexists].
  destruct (node_active n) eqn:Ea; [|by eexists].
  assert (ag_node (mem_view s) id = Some (strip_node n)) as Ev by (apply active_node_some; unfold activeNode; rewrite E; cbn; by rewrite Ea).
  destruct (Hm _ Ev) as [m Em]. rewrite (merge_stripped (nd_Props n)) in Em by (done || by apply (Hp id)).
  cbn [negb]. rewrite Em. cbn. case_bool_decide; by eexists.
Qed.

Lemma found_edge_spec src tgt k s : wf_edges s →
  match found_edge src tgt k s with
  | Some e => mem_edge s (src, k, tgt) = Some e ∧ IsActive e = true
  | None => active_edge (mem_edge s (src, k, tgt)) = None
  end.
Proof.
  intros Hwf. unfold found_edge. destruct (list_find _ _) as [[i e]|] eqn:Hf; cbn [fmap option_fmap option_map snd].
  - apply list_find_Some in Hf as (Hi & [Hk%same_edge_spec Ha]%andb_true_iff & _). split; [|done].
    apply mem_edge_spec; [done|]. split; [by eapply list_elem_of_lookup_2|done].
  - destruct (mem_edge s (src, k, tgt)) as [e|] eqn:E; [|done]. apply mem_edge_spec in E as [He Ek]; [|done].
    unfold active_edge. cbn. destruct (IsActive e) eqn:Ea; [|done]. exfalso. eapply (list_find_None (λ e, same_edge src tgt k e && IsActive e = true)) in Hf.
    eapply Forall_forall in Hf; [|exact He]. apply Hf. apply andb_true_iff. split; [by apply same_edge_spec|done].
Qed.

Lemma annotate_edge_view src tgt k props s s' : key_ok (src, k, tgt) → wf s → props_ok (mem_view s) →
  annotateEdgeLocked unmarshal src tgt k props s = Ok s' → same_graph (mem_view s') (abs_annotate_edge (mem_view s) (src, k, tgt) props).
Proof.
  intros Hk [Hn He] [_ Hp] H. split.
  { intros id _. cbn. unfold annotateEdgeLocked in H. destruct (list_find _ _) as [[i e]|]; [|by injection H as <-].
    apply rbind_ok in H as (m & _ & H). case_bool_decide; injection H as <-; [done|]. by destruct (reverse s !! tgt). }
  intros j _. unfold abs_annotate_edge. cbn [ag_edge mem_view]. pose proof (found_edge_spec src tgt k s He) as Hf.
  apply annotate_edge_maps in H; [|done]. destruct (found_edge src tgt k s) as [e|]; [|by rewrite Hf, H].
  destruct Hf as [Ef Ea], H as (p & Hm & H). assert (active_edge (mem_edge s (src, k, tgt)) = Some (strip_edge e)) as Ev
    by (rewrite Ef; unfold active_edge; cbn; by rewrite Ea).
  rewrite Ev, (merge_stripped (ed_Props e)), Hm by (done || by apply (Hp (src, k, tgt))). unfold at_key.
  pose proof (proj2 (proj1 (mem_edge_spec s _ e He) Ef)) as Ek. case_bool_decide as Em.
  - subst s'. case_decide; [|done]. subst j. by rewrite Ev, <- Em.
  - rewrite (mem_edge_maps _ _ _ _ (replace_keeps e (edge_with_props p e) eq_refl) H). case_decide as E.
    + subst j. rewrite Ef. cbn. unfold replace_key. rewrite (proj2 (same_edge_spec _ _ _ e)) by done.
      unfold active_edge, IsActive in *. cbn. by rewrite Ea.
    + destruct (mem_edge s j) as [x|] eqn:Ej; [|done]. cbn. unfold replace_key.
      rewrite (proj2 (same_edge_false _ _ _ x)); [done|]. apply mem_edge_spec in Ej as [_ <-]; [|done].
      intros E'. apply E. by rewrite E', <- Ek.
Qed.
Lemma annotate_edge_total src tgt k props s : key_ok (src, k, tgt) → wf s → props_ok (mem_view s) →
  (∀ e, ag_edge (mem_view s) (src, k, tgt) = Some e → ∃ m, mergeJSONProps unmarshal (ed_Props e) props = Ok m) →
  ∃ s', annotateEdgeLocked unmarshal src tgt k props s = Ok s'.
Proof.
  intros Hk [_ He] [_ Hp] Hm. pose proof (found_edge_spec src tgt k s He) as Hf. unfold annotateEdgeLocked. unfold found_edge in Hf.
  destruct (list_find _ _) as [[i e]|]; cbn [fmap option_fmap option_map snd] in Hf; [|by eexists]. destruct Hf as [Ef Ea].
  assert (ag_edge (mem_view s) (src, k, tgt) = Some (strip_edge e)) as Ev by (cbn; rewrite Ef; unfold active_edge; cbn; by rewrite Ea).
  destruct (Hm _ Ev) as [m Em]. rewrite (merge_stripped (ed_Props e)) in Em by (done || by apply (Hp (src, k, tgt))).
  rewrite Em. cbn. case_bool_decide; by eexists.
Qed.
End memory.

Section engine.
Context {T : Type} `{KVT : !KV T Value} `{!KVLaws T Value} `{CD : !Codec} `{CL : !CodecLaws}.
Implicit Types (t : T) (en : Engine T) (g : agraph).

(** ** Opening a database *)
Lemma collect_nodes (l : list (string * Value)) ns : l.*2 = VNode <$> ns → collect as_node l = Ok ns.
Proof.
  revert ns. induction l as [|[k v] l IH]; intros [|n ns]; try done. cbn. intros [= -> E]. cbn. by rewrite (IH ns E).
Qed.
Lemma collect_edges (l : list (string * Value)) es : l.*2 = VEdge <$> es → collect as_edge l = Ok es.
Proof.
  revert es. induction l as [|[k v] l IH]; intros [|n es]; try done. cbn. intros [= -> E]. cbn. by rewrite (IH es E).
Qed.

Lemma load_nodes_spec ns : NoDup (nd_ID <$> ns) → ∀ s, wf s → (∀ n, n ∈ ns → s_nodes s !! nd_ID n = None) →
  let s' := foldl (λ s n, load_node n s) s ns in
  wf s' ∧ (∀ v, out_edges v s' = out_edges v s ∧ in_edges v s' = in_edges v s) ∧
  ∀ id n, s_nodes s' !! id = Some n ↔ s_nodes s !! id = Some n ∨ (n ∈ ns ∧ nd_ID n = id).
Proof.
  induction ns as [|m ns IH]; intros Hnd s [Hn He] Hnew.
  { cbn. split_and!; [done..|]. intros id n. rewrite elem_of_nil. naive_solver. }
  apply NoDup_cons in Hnd as [Hm Hnd]. cbn [foldl].
  assert (∀ v, out_edges v (load_node m s) = out_edges v s ∧ in_edges v (load_node m s) = in_edges v s) as Hl
    by (intros v; unfold load_node, addNodeLabels, addNodeKindIndex, addNodeSourceIndex; by repeat case_match).
  assert (s_nodes (load_node m s) = <[nd_ID m := m]> (s_nodes s)) as Es by apply store_node_nodes.
  assert (s_nodes s !! nd_ID m = None) as Em by (apply Hnew; by left).
  destruct (IH Hnd (load_node m s)) as (Hwf & Hl' & Hin).
  - split; [apply store_node_wf; by apply wf_nodes_but|by eapply same_lists_wf].
  - intros n Hn'. rewrite Es, lookup_insert_ne; [apply Hnew; by right|]. intros E. apply Hm. rewrite E. by apply list_elem_of_fmap_2.
  - split_and!; [done| |].
    + intros v. by rewrite (proj1 (Hl' v)), (proj2 (Hl' v)).
    + intros id n. rewrite Hin, Es, lookup_insert_Some, elem_of_cons. split.
      * intros [[[<- <-]|[_ ?]]|[? ?]]; auto.
      * intros [H|[[->|?] <-]]; auto. left. right. split; [|done]. intros <-. congruence.
Qed.

Lemma load_edges_lists es : ∀ s v,
  let s' := foldl (λ s e, load_edge e s) s es in
  same_nodes s s' ∧ out_edges v s' = out_edges v s ++ filter (λ e, ed_SourceID e = v) es ∧
  in_edges v s' = in_edges v s ++ filter (λ e, ed_TargetID e = v) es.
Proof.
  induction es as [|e es IH]; intros s v; cbn [foldl]; [by rewrite !app_nil_r|].
  destruct (IH (load_edge e s) v) as (Hs & -> & ->). split; [etrans; [|exact Hs]; done|].
  unfold load_edge. cbv zeta. rewrite out_set_reverse, out_set_forward, in_set_reverse, in_set_forward, !filter_cons.
  split; case_decide as E1; case_decide as E2; try congruence; by rewrite <- ?app_assoc, ?E1.
Qed.

Lemma load_edges_wf es s : NoDup (edge_key <$> es) → (∀ v, out_edges v s = [] ∧ in_edges v s = []) → wf_nodes s →
  wf (foldl (λ s e, load_edge e s) s es).
Proof.
  intros Hnd Hs Hn. split; [by eapply same_nodes_wf; [apply (load_edges_lists es s EmptyString)|]|].
  split; intros v; try (destruct (load_edges_lists es s v) as (_ & Eo & Ei); destruct (Hs v) as [E1 E2]; rewrite ?Eo, ?Ei, ?E1, ?E2; cbn [app]).
  - apply Forall_forall. by intros e [? _]%list_elem_of_filter.
  - apply Forall_forall. by intros e [? _]%list_elem_of_filter.
  - eapply sublist_NoDup; [exact Hnd|]. apply fmap_sublist, sublist_filter.
  - eapply sublist_NoDup; [exact Hnd|]. apply fmap_sublist, sublist_filter.
  - destruct (load_edges_lists es s (ed_SourceID v)) as (_ & -> & _), (load_edges_lists es s (ed_TargetID v)) as (_ & _ & ->).
    rewrite (proj1 (Hs _)), (proj2 (Hs _)), !app_nil_l, !list_elem_of_filter. naive_solver.
Qed.

(** What the invariant of a running engine says. *)
Record synced en : Prop := {
  sy_db : db_ok (e_db en);
  sy_wf : wf (e_store en);
  sy_named : named (e_store en);
  sy_same : same_graph (mem_view (e_store en)) (db_view (e_db en));
  sy_clean : dirtyErr en = None;
  sy_hook : testHookApplyFailure en = None
}.

Lemma load_synced t : db_ok t → ∃ s, load t = Ok s ∧ wf s ∧ named s ∧ same_graph (mem_view s) (db_view t).
Proof.
  intros Hdb. destruct (scanned_nodes t Hdb) as (ns & En & Hns & Hnd & Hin).
  destruct (scanned_edges t edge_prefix Hdb (λ _ H, H)) as (es & Ee & Hes & Hed & Hie).
  unfold load. fold node_prefix edge_prefix. rewrite (collect_nodes _ ns En), (collect_edges _ es Ee). cbn [rbind]. eexists; split; [reflexivity|].
  destruct (load_nodes_spec ns Hnd newAdjacencyStore wf_new_store) as (Hwf & Hl & Hm); [done|].
  set (s := foldl _ newAdjacencyStore ns) in *. assert (∀ v, out_edges v s = [] ∧ in_edges v s = []) as Hs by (intros v; destruct (Hl v) as [-> ->]; done).
  assert (wf (foldl (λ s e, load_edge e s) s es)) as Hwf' by (apply load_edges_wf; [done|done|apply Hwf]).
  destruct (load_edges_lists es s EmptyString) as ((Esn & _) & _ & _).
  split_and!; [done| |split].
  - unfold named. rewrite Esn. destruct (s_nodes s !! EmptyString) as [n|] eqn:E; [|done]. exfalso. apply Hm in E as [E|[Hn E]]; [done|].
    eapply Forall_forall in Hns; [|exact Hn]. by destruct Hns as [[H _] _].
  - intros id Hid. cbn. rewrite Esn. f_equal. apply option_eq. intros n. rewrite Hm, <- Hin by done. split; [intros [?|?]; done|by right].
  - intros k Hk. cbn. f_equal. apply option_eq. intros e. rewrite mem_edge_spec by apply Hwf'.
    destruct (load_edges_lists es s k.1.1) as (_ & -> & _). rewrite (proj1 (Hs _)), app_nil_l, list_elem_of_filter.
    destruct (edge_native k) as [Hp|Hp]; [by rewrite edge_not_node in Hp|]. split.
    + intros [[_ He] Ek]. by apply (Hie k e Hk).
    + intros He. destruct (proj2 (Hie k e Hk) (conj Hp He)) as [He' <-]. done.
Qed.

Lemma open_synced t : db_ok t → ∃ en, Open t = Ok en ∧ synced en ∧ e_db en = t.
Proof. intros Hdb. destruct (load_synced t Hdb) as (s & E & ? & ? & ?). unfold Open. rewrite E. eexists; split; [reflexivity|]. by split. Qed.

(** ** Calls *)
Inductive call :=
| CallUpsertNodes (ns : list NodeRecord)
| CallDeleteNodes (ids : list string)
| CallLinkEdges (es : list EdgeRecord)
| CallLink (sourceID targetID kind inverseKind : string) (weight : N) (props : option (gmap string Json))
| CallUnlink (sourceID targetID kind : string) (hard : bool)
| CallAnnotateNode (id : string) (props : gmap string Json)
| CallAnnotateEdge (sourceID targetID kind : string) (props : gmap string Json)
| CallApplyBatch (ns : list NodeRecord) (es : list EdgeRecord)
| CallRecordMutationResult (r : MutationResult)
| CallRebuild.

Definition do_call (env : Env) (c : call) : SE (Engine T) unit :=
  match c with
  | CallUpsertNodes ns => UpsertNodes env ns
  | CallDeleteNodes ids => DeleteNodes env ids
  | CallLinkEdges es => LinkEdges env es
  | CallLink src tgt k inv w props => Link env src tgt k inv w props
  | CallUnlink src tgt k hard => Unlink env src tgt k hard
  | CallAnnotateNode id props => AnnotateNode env id props
  | CallAnnotateEdge src tgt k props => AnnotateEdge env src tgt k props
  | CallApplyBatch ns es => ApplyBatch env ns es
  | CallRecordMutationResult r => RecordMutationResult env r
  | CallRebuild => Rebuild
  end.

(** The calls that mean the same on both sides: records are written active, the nodes
    deleted are in the database, edges are removed for good. *)
Definition node_in (n : NodeRecord) : Prop := segment (nd_ID n) ∧ nd_DeletedAt n = 0%Z.
Definition edge_in (e : EdgeRecord) : Prop := key_ok (edge_key e) ∧ ed_DeletedAt e = 0%Z.
Definition call_ok t (c : call) : Prop :=
  match c with
  | CallUpsertNodes ns => Forall node_in ns
  | CallDeleteNodes ids => Forall (λ id, segment id ∧ is_Some (db_node t id)) ids
  | CallLinkEdges es => Forall edge_in es
  | CallLink src tgt k inv _ _ => key_ok (src, k, tgt) ∧ (inv ≠ EmptyString → segment inv)
  | CallUnlink src tgt k hard => hard = true ∧ key_ok (src, k, tgt)
  | CallAnnotateNode id _ => segment id
  | CallAnnotateEdge src tgt k _ => key_ok (src, k, tgt)
  | CallApplyBatch ns es => Forall node_in ns ∧ Forall edge_in es
  | CallRecordMutationResult _ | CallRebuild => True
  end.

Definition link_pair (src tgt k inv : string) (w : N) (raw : string) (now : Time) : list EdgeRecord :=
  new_edge src tgt k w raw now :: if bool_decide (inv = EmptyString) then [] else [new_edge tgt src inv w raw now].

(** What a call that succeeds does to the graph. *)
Definition abs_call (c : call) (g : agraph) : agraph :=
  match c with
  | CallUpsertNodes ns => foldl abs_upsert g ns
  | CallDeleteNodes ids => foldl abs_delete g ids
  | CallLinkEdges es => foldl abs_link g es
  | CallLink src tgt k inv w props =>
      match marshal_map props with Ok raw => foldl abs_link g (link_pair src tgt k inv w raw 0) | Err _ => g end
  | CallUnlink src tgt k _ => abs_unlink g (src, k, tgt)
  | CallAnnotateNode id props => if bool_decide (props = ∅) then g else abs_annotate_node g id props
  | CallAnnotateEdge src tgt k props => if bool_decide (props = ∅) then g else abs_annotate_edge g (src, k, tgt) props
  | CallApplyBatch ns es => foldl abs_link (foldl abs_upsert g ns) es
  | CallRecordMutationResult _ | CallRebuild => g
  end.

(** The clock never stands at the epoch. *)
Definition env_timely (env : Env) : Prop := timely (env_clk env) ∧ unix_nano (env_after env) ≠ 0%Z.

(** ** The memory side of a mutation *)
Definition abs_op (g : agraph) (op : store_op) : agraph :=
  match op with
  | OpUpsert n => abs_upsert g n
  | OpDelete _ id => abs_delete g id
  | OpLink e => abs_link g e
  | OpUnlink _ src tgt k _ => abs_unlink g (src, k, tgt)
  | OpAnnotateNode _ _ _ | OpAnnotateEdge _ _ _ _ => g
  end.
Definition plain (op : store_op) : Prop :=
  match op with
  | OpUpsert n => nd_ID n ≠ EmptyString ∧ nd_DeletedAt n = 0%Z
  | OpDelete time _ => unix_nano time ≠ 0%Z
  | OpLink e => ed_DeletedAt e = 0%Z
  | OpUnlink _ _ _ _ hard => hard = true
  | OpAnnotateNode _ _ _ | OpAnnotateEdge _ _ _ _ => False
  end.

Lemma abs_op_same op g h : same_graph g h → same_graph (abs_op g op) (abs_op h op).
Proof.
  intros H. destruct op; cbn [abs_op]; try done; [by apply abs_upsert_same|by apply abs_delete_same|by apply abs_link_same|].
  destruct H as [H1 H2]. split; [done|by apply at_key_same].
Qed.

(** [f] moves a consistent store as [F] moves the graph. *)
Definition moves (f : adjacencyStore → adjacencyStore) (F : agraph → agraph) : Prop :=
  ∀ s, wf s → named s → wf (f s) ∧ named (f s) ∧ same_graph (mem_view (f s)) (F (mem_view s)).

Lemma plain_moves op : plain op → moves (λ s, do_op unmarshal s op) (λ g, abs_op g op).
Proof.
  intros Hp s Hwf Hn. assert (timed op) as Ht by (destruct op; [apply Hp|done..]).
  split_and!; [by apply op_wf|by apply op_named|]. destruct op; cbn [do_op abs_op plain] in *; try done.
  - destruct Hp. by apply upsert_view.
  - by apply delete_view.
  - by apply link_view.
  - subst hard. by apply unlink_view.
Qed.
Lemma plain_moves_all ops : Forall plain ops → moves (λ s, foldl (do_op unmarshal) s ops) (λ g, foldl abs_op g ops).
Proof.
  induction 1 as [|op ops Hop _ IH]; intros s Hwf Hn; [done|]. cbn [foldl].
  destruct (plain_moves op Hop s Hwf Hn) as (Hwf1 & Hn1 & H1). destruct (IH _ Hwf1 Hn1) as (Hwf2 & Hn2 & H2).
  split_and!; [done..|]. etrans; [exact H2|]. apply foldl_same; [intros; by apply abs_op_same|exact H1].
Qed.

Lemma foldl_fmap {A B C} (f : A → B → A) (h : C → B) l : ∀ a, foldl f a (h <$> l) = foldl (λ a c, f a (h c)) a l.
Proof. induction l as [|c l IH]; intros a; [done|]. apply IH. Qed.

Lemma upserts_move ns : Forall node_in ns → moves (upsert_all ns) (λ g, foldl abs_upsert g ns).
Proof.
  intros Hns s. unfold upsert_all. pose proof (plain_moves_all (OpUpsert <$> ns)) as H. unfold moves in H.
  setoid_rewrite foldl_fmap in H. apply H. apply Forall_fmap. eapply Forall_impl; [exact Hns|]. by intros n [[? _] ?].
Qed.
Lemma links_move es : Forall edge_in es → moves (link_all es) (λ g, foldl abs_link g es).
Proof.
  intros Hes s. unfold link_all. pose proof (plain_moves_all (OpLink <$> es)) as H. unfold moves in H.
  setoid_rewrite foldl_fmap in H. apply H. apply Forall_fmap. eapply Forall_impl; [exact Hes|]. by intros e [_ ?].
Qed.
Lemma deletes_move time ids : unix_nano time ≠ 0%Z → moves (delete_all time ids (unix_nano time)) (λ g, foldl abs_delete g ids).
Proof.
  intros Ht s. unfold delete_all. pose proof (plain_moves_all (OpDelete time <$> ids)) as H. unfold moves in H.
  setoid_rewrite foldl_fmap in H. apply H. by apply Forall_fmap, Forall_true.
Qed.
Lemma batch_moves ns es : Forall node_in ns → Forall edge_in es →
  moves (λ s, link_all es (upsert_all ns s)) (λ g, foldl abs_link (foldl abs_upsert g ns) es).
Proof.
  intros Hn He s Hwf Hs. destruct (upserts_move ns Hn s Hwf Hs) as (Hwf1 & Hs1 & H1).
  destruct (links_move es He _ Hwf1 Hs1) as (Hwf2 & Hs2 & H2). split_and!; [done..|]. etrans; [exact H2|].
  by apply foldl_same; [intros; apply abs_link_same|].
Qed.
Lemma unlink_moves time src tgt k : moves (applyUnlink time src tgt k true (unix_nano time)) (λ g, abs_unlink g (src, k, tgt)).
Proof. exact (plain_moves (OpUnlink time src tgt k true) eq_refl). Qed.

(** ** One call *)
Lemma commits env op (k : SE (Engine T) unit) en r en' :
  synced en → env_timely env → mutation_ok (e_db en) op → (checkDirty ;;; persist env op ;;; k) en = (r, en') →
  (∃ err, r = Err err ∧ en' = en) ∨
  ∃ t, k (set_db t en) = (r, en') ∧ db_ok t ∧ same_graph (db_view t) (abs_mutation op (db_view (e_db en))) ∧
    ∃ x, commitInTxn (env_clk env) op (MkTxn (e_db en) 0) = (Ok tt, x).
Proof.
  intros Hen [Ht _] Hop. unfold checkDirty, se_check, persist, se_bind. rewrite (sy_clean _ Hen).
  destruct (env_ctx env) as [err|]; [intros [= <- <-]; eauto|].
  destruct (commit _ _ op (e_db en)) as [rc t] eqn:E. pose proof (commit_refines _ _ _ _ _ _ Ht Hop (sy_db _ Hen) E) as Hc.
  destruct rc as [[]|err].
  - intros Hk. right. exists t. split_and!; [done|apply Hc|apply Hc|].
    unfold commit, db_update in E. destruct (commitInTxn _ _ _) as [[[]|?] x]; [by eexists|done].
  - intros [= <- <-]. left. exists err. split; [done|]. subst t. by destruct en.
Qed.

(** The outcome of a call: the graph has moved, or nothing has changed. *)
Definition outcome en (F : agraph → agraph) (r : result unit) en' : Prop :=
  match r with
  | Ok _ => synced en' ∧ same_graph (db_view (e_db en')) (F (db_view (e_db en)))
  | Err _ => en' = en
  end.

(** Applying a committed change to memory. *)
Lemma moved en t s F : synced en → db_ok t → same_graph (db_view t) (F (db_view (e_db en))) →
  (∀ g h, same_graph g h → same_graph (F g) (F h)) →
  wf s ∧ named s ∧ same_graph (mem_view s) (F (mem_view (e_store en))) → outcome en F (Ok tt) (set_store s (set_db t en)).
Proof.
  intros Hen Ht Hg HF (Hwf & Hs & Hm). split; [|exact Hg]. split; cbn; [done..| |apply Hen|apply Hen].
  etrans; [exact Hm|]. symmetry. etrans; [exact Hg|]. apply HF. symmetry. apply Hen.
Qed.

Lemma applied env op f en r en' : synced en → env_timely env → mutation_ok (e_db en) op → moves f (abs_mutation op) →
  (checkDirty ;;; persist env op ;;; apply_hook ;;; apply f) en = (r, en') → outcome en (abs_mutation op) r en'.
Proof.
  intros Hen Hte Hop Hf [(err & -> & ->)|(t & Hk & Ht & Hg & _)]%commits; try done.
  unfold apply_hook, apply, se_bind, se_get, se_mod in Hk. cbn [set_db testHookApplyFailure] in Hk. rewrite (sy_hook _ Hen) in Hk.
  injection Hk as <- <-. apply moved; [done..| |apply Hf; apply Hen]. intros g h. by apply (abs_mutation_same (e_db en)).
Qed.

Lemma annotated env op fr en r en' : synced en → env_timely env → mutation_ok (e_db en) op →
  (∀ x, commitInTxn (env_clk env) op (MkTxn (e_db en) 0) = (Ok tt, x) →
    ∃ s, fr (e_store en) = Ok s ∧ wf s ∧ named s ∧ same_graph (mem_view s) (abs_mutation op (mem_view (e_store en)))) →
  (checkDirty ;;; persist env op ;;; apply_or_dirty fr) en = (r, en') → outcome en (abs_mutation op) r en'.
Proof.
  intros Hen Hte Hop Hf [(err & -> & ->)|(t & Hk & Ht & Hg & x & Ex)]%commits; try done.
  destruct (Hf x Ex) as (s & Es & Hs). unfold apply_or_dirty, se_bind, se_get, se_mod in Hk. cbn [set_db e_store] in Hk. rewrite Es in Hk.
  injection Hk as <- <-. apply moved; [done..| |done]. intros g h. by apply (abs_mutation_same (e_db en)).
Qed.

Lemma db_props_ok t : db_ok t → props_ok (db_view t).
Proof.
  intros Hdb. split.
  - intros id n Hid. cbn. unfold active_node. destruct (db_node t id) as [m|] eqn:E; [|done]. cbn. destruct (node_active m); [|done].
    intros [= <-]. destruct (db_node_at t id m Hdb Hid E) as (_ & _ & [_ Hp]). cbn. by rewrite (canon_stored _ _ Hp).
  - intros k e Hk. cbn. unfold active_edge. destruct (db_edge t k) as [m|] eqn:E; [|done]. cbn. destruct (IsActive m); [|done].
    intros [= <-]. destruct (db_edge_at t k m Hdb Hk E) as (_ & _ & [_ Hp]). cbn. by rewrite (canon_stored _ _ Hp).
Qed.
Lemma mem_props_ok en : synced en → props_ok (mem_view (e_store en)).
Proof. intros Hen. eapply props_ok_same; [symmetry; apply Hen|]. by apply db_props_ok, Hen. Qed.

Lemma node_merges clk id props t x n : segment id → db_ok t → commitInTxn clk (MAnnotateNode id props) (MkTxn t 0) = (Ok tt, x) →
  ag_node (db_view t) id = Some n → ∃ m, mergeJSONProps unmarshal (nd_Props n) props = Ok m.
Proof.
  intros Hid Hdb (r & x0 & [= <- <-] & E)%se_bind_ok. cbn [kv] in E. cbn. destruct (getNodeRecordInTxn id t) as [old|e] eqn:Eo.
  2: { destruct (get_node_missing _ _ _ Hdb Eo) as [_ Hn]. by rewrite Hn. }
  apply get_node_record in Eo; [|done]. destruct (db_node_at _ _ _ Hdb Hid Eo) as (_ & _ & [_ Hp]). rewrite Eo. unfold active_node. cbn.
  apply se_bind_ok in E as ([] & x1 & _ & ([] & x2 & _ & (m & x3 & [Hm ->]%se_result_ok & _)%se_bind_ok)%se_bind_ok).
  destruct (node_active old); [|done]. intros [= <-]. exists m. cbn. by rewrite (canon_stored _ _ Hp).
Qed.
Lemma edge_merges clk s tgt k props t x e : key_ok (s, k, tgt) → db_ok t → commitInTxn clk (MAnnotateEdge s tgt k props) (MkTxn t 0) = (Ok tt, x) →
  ag_edge (db_view t) (s, k, tgt) = Some e → ∃ m, mergeJSONProps unmarshal (ed_Props e) props = Ok m.
Proof.
  intros Hk Hdb (r & x0 & [= <- <-] & E)%se_bind_ok. cbn [kv] in E. cbn. destruct (getEdgeRecord s tgt k t) as [old|err] eqn:Eo.
  2: { destruct (get_edge_missing _ _ _ _ _ Hdb Eo) as [_ Hn]. by rewrite Hn. }
  apply get_edge_record in Eo; [|done]. destruct (db_edge_at _ _ _ Hdb Hk Eo) as (_ & _ & [_ Hp]). rewrite Eo. unfold active_edge. cbn.
  apply se_bind_ok in E as ([] & x1 & _ & (m & x3 & [Hm ->]%se_result_ok & _)%se_bind_ok).
  destruct (IsActive old); [|done]. intros [= <-]. exists m. cbn. by rewrite (canon_stored _ _ Hp).
Qed.

Lemma outcome_ext en F G r en' : (∀ g, F g = G g) → outcome en F r en' → outcome en G r en'.
Proof. intros E. unfold outcome. destruct r; [|done]. by rewrite E. Qed.
Lemma unchanged en : synced en → outcome en id (Ok tt) en.
Proof. by split. Qed.

(** The times that a call stamps do not show. *)
Lemma foldl_stamped ns now : ∀ g, foldl abs_upsert g (stamp_node now <$> ns) = foldl abs_upsert g ns.
Proof. intros g. by rewrite foldl_fmap. Qed.
Lemma foldl_stamped_edges es now : ∀ g, foldl abs_link g (stamp_edge now <$> es) = foldl abs_link g es.
Proof. intros g. by rewrite foldl_fmap. Qed.
Lemma stamped_in ns now : Forall node_in ns → Forall node_in (stamp_node now <$> ns).
Proof. intros H. apply Forall_fmap. eapply Forall_impl; [exact H|]. by intros n [? ?]. Qed.
Lemma stamped_edges_in es now : Forall edge_in es → Forall edge_in (stamp_edge now <$> es).
Proof. intros H. apply Forall_fmap. eapply Forall_impl; [exact H|]. by intros e [? ?]. Qed.

Lemma upsert_outcome env ns en r en' : synced en → env_timely env → Forall node_in ns → UpsertNodes env ns en = (r, en') →
  outcome en (λ g, foldl abs_upsert g ns) r en'.
Proof.
  intros Hen Ht Hns. destruct ns as [|n ns]; [intros [= <- <-]; by apply unchanged|]. unfold UpsertNodes. cbv zeta.
  intros H. pose proof (stamped_in _ (env_before env) Hns) as Hs.
  eapply outcome_ext; [intros g; apply (foldl_stamped _ (env_before env))|].
  destruct ns as [|n' ns]; (eapply applied in H; [exact H|done..| |]).
  - exact (proj1 (Forall_singleton _ _) Hs).
  - by apply (upserts_move [stamp_node (env_before env) n]).
  - exact Hs.
  - by apply (upserts_move (stamp_node (env_before env) <$> n :: n' :: ns)).
Qed.

Lemma delete_outcome env ids en r en' : synced en → env_timely env → call_ok (e_db en) (CallDeleteNodes ids) →
  DeleteNodes env ids en = (r, en') → outcome en (λ g, foldl abs_delete g ids) r en'.
Proof.
  intros Hen Ht Hok. destruct ids as [|i ids]; [intros [= <- <-]; by apply unchanged|]. unfold DeleteNodes.
  intros H. destruct ids as [|j ids]; (eapply applied in H; [exact H|done..| |]).
  - exact (proj1 (Forall_singleton _ _) Hok).
  - by apply (deletes_move _ [i]), Ht.
  - exact Hok.
  - by apply (deletes_move _ (i :: j :: ids)), Ht.
Qed.

Lemma link_outcome env es en r en' : synced en → env_timely env → Forall edge_in es → LinkEdges env es en = (r, en') →
  outcome en (λ g, foldl abs_link g es) r en'.
Proof.
  intros Hen Ht Hes. destruct es as [|e es]; [intros [= <- <-]; by apply unchanged|]. unfold LinkEdges.
  intros H. destruct es as [|e' es]; (eapply applied in H; [exact H|done..| |]).
  - exact (proj1 (Forall_singleton _ _) Hes).
  - by apply (links_move [e]).
  - exact Hes.
  - by apply (links_move (e :: e' :: es)).
Qed.

Lemma batch_outcome env ns es en r en' : synced en → env_timely env → Forall node_in ns → Forall edge_in es →
  ApplyBatch env ns es en = (r, en') → outcome en (λ g, foldl abs_link (foldl abs_upsert g ns) es) r en'.
Proof.
  intros Hen Ht Hns Hes H. pose proof (stamped_in _ (env_before env) Hns) as Hns'. pose proof (stamped_edges_in _ (env_before env) Hes) as Hes'.
  set (ns' := stamp_node (env_before env) <$> ns) in *. set (es' := stamp_edge (env_before env) <$> es) in *.
  set (body := (checkDirty ;;; persist env (MApplyBatch ns' es') ;;; apply_hook ;;; apply (λ s, link_all es' (upsert_all ns' s))) : SE (Engine T) unit).
  assert ((ns = [] ∧ es = [] ∧ r = Ok tt ∧ en' = en) ∨ body en = (r, en')) as [(-> & -> & -> & ->)|Hb]
    by (destruct ns, es; [injection H as <- <-; by left|right; exact H..]).
  - by apply unchanged.
  - eapply outcome_ext; [|exact (applied env (MApplyBatch ns' es') _ en r en' Hen Ht (conj Hns' Hes') (batch_moves _ _ Hns' Hes') Hb)].
    intros g. cbn [abs_mutation]. unfold ns', es'. by rewrite foldl_stamped, foldl_stamped_edges.
Qed.

Lemma annotate_node_outcome env id props en r en' : synced en → env_timely env → segment id → AnnotateNode env id props en = (r, en') →
  outcome en (abs_call (CallAnnotateNode id props)) r en'.
Proof.
  intros Hen Ht Hid. unfold AnnotateNode. rewrite (bool_decide_false (id = EmptyString)) by apply Hid. cbn [orb].
  destruct (bool_decide (props = ∅)) eqn:E; intros H; (eapply outcome_ext; [intros g; cbn [abs_call]; rewrite E; reflexivity|]);
    [injection H as <- <-; by apply unchanged|].
  refine (annotated _ _ _ _ _ _ Hen Ht _ _ H); [exact Hid|]. intros x Hx. pose proof (mem_props_ok _ Hen) as Hp.
  destruct (annotate_node_total (env_after env) id props (unix_nano (env_after env)) (e_store en) Hid Hp) as [s Es].
  { intros n Hn. eapply node_merges; [exact Hid|apply Hen|exact Hx|]. by rewrite <- (proj1 (sy_same _ Hen)). }
  exists s. split; [done|]. assert (do_op unmarshal (e_store en) (OpAnnotateNode (env_after env) id props) = s) as <- by (cbn; by rewrite Es).
  split_and!; [apply op_wf; [done|apply Hen]|apply op_named; [done|apply Hen]|].
  cbn [do_op]. rewrite Es. by eapply annotate_node_view.
Qed.
Lemma annotate_edge_outcome env src tgt k props en r en' : synced en → env_timely env → key_ok (src, k, tgt) →
  AnnotateEdge env src tgt k props en = (r, en') → outcome en (abs_call (CallAnnotateEdge src tgt k props)) r en'.
Proof.
  intros Hen Ht Hk. unfold AnnotateEdge.
  rewrite (bool_decide_false (src = EmptyString)), (bool_decide_false (tgt = EmptyString)), (bool_decide_false (k = EmptyString)) by apply Hk.
  cbn [orb]. destruct (bool_decide (props = ∅)) eqn:E; intros H; (eapply outcome_ext; [intros g; cbn [abs_call]; rewrite E; reflexivity|]);
    [injection H as <- <-; by apply unchanged|].
  refine (annotated _ _ _ _ _ _ Hen Ht _ _ H); [exact Hk|]. intros x Hx. pose proof (mem_props_ok _ Hen) as Hp.
  destruct (annotate_edge_total src tgt k props (e_store en) Hk (sy_wf _ Hen) Hp) as [s Es].
  { intros e He. eapply edge_merges; [exact Hk|apply Hen|exact Hx|]. by rewrite <- (proj2 (sy_same _ Hen)). }
  exists s. split; [done|]. assert (do_op unmarshal (e_store en) (OpAnnotateEdge src tgt k props) = s) as <- by (cbn; by rewrite Es).
  split_and!; [apply op_wf; [done|apply Hen]|apply op_named; [done|apply Hen]|].
  cbn [do_op]. rewrite Es. by eapply annotate_edge_view; [|apply Hen|..].
Qed.

Lemma record_outcome env m en r en' : synced en → env_timely env → RecordMutationResult env m en = (r, en') → outcome en id r en'.
Proof.
  intros Hen Ht [(err & -> & ->)|(t & Hk & Hdb & Hg & _)]%commits; try done.
  unfold apply_hook, se_bind, se_get in Hk. cbn [set_db testHookApplyFailure] in Hk. rewrite (sy_hook _ Hen) in Hk.
  injection Hk as <- <-. split; [|exact Hg]. destruct Hen as [? ? ? Hsame ? ?]. split; cbn; [done..| |done|done].
  etrans; [exact Hsame|]. by symmetry.
Qed.

Lemma call_outcome env c en r en' : synced en → env_timely env → call_ok (e_db en) c → do_call env c en = (r, en') →
  outcome en (abs_call c) r en'.
Proof.
  intros Hen Ht Hok H. destruct c as [ns|ids|es|src tgt k inv w props|src tgt k hard|id props|src tgt k props|ns es|m|];
    cbn [do_call call_ok] in *.
  - by eapply upsert_outcome.
  - by eapply delete_outcome.
  - by eapply link_outcome.
  - unfold Link in H. destruct (marshal_map props) as [raw|err] eqn:Er.
    2: { unfold se_bind, se_result in H. injection H as <- <-. done. }
    change (LinkEdges env (link_pair src tgt k inv w raw (env_before env)) en = (r, en')) in H.
    eapply outcome_ext; [|eapply link_outcome; [exact Hen|exact Ht| |exact H]].
    + intros g. cbn [abs_call]. rewrite Er. unfold link_pair. by case_bool_decide.
    + destruct Hok as [(H1 & H2 & H3) Hi]. unfold link_pair. apply Forall_cons_2; [by split|]. case_bool_decide as E; [constructor|].
      apply Forall_singleton. split; [|done]. split_and!; [done|by apply Hi|done].
  - destruct Hok as [-> Hk]. exact (applied env (MUnlinkEdge src tgt k true) _ en r en' Hen Ht (conj eq_refl Hk) (unlink_moves _ src tgt k) H).
  - by eapply annotate_node_outcome.
  - by eapply annotate_edge_outcome.
  - destruct Hok. by eapply batch_outcome.
  - by eapply record_outcome.
  - unfold Rebuild in H. destruct (load_synced (e_db en) (sy_db _ Hen)) as (s & Es & Hwf & Hs & Hv). rewrite Es in H.
    injection H as <- <-. split; [|done]. split; cbn; [apply Hen|done..|apply Hen].
Qed.

(** ** What can fail *)
Definition total (m : SE (Txn T) unit) : Prop := ∀ x, db_ok (kv x) → ∃ x', m x = (Ok tt, x') ∧ db_ok (kv x').

Lemma total_each {A} (f : A → SE (Txn T) unit) l : (∀ a, a ∈ l → total (f a)) → total (each f l).
Proof.
  induction l as [|a l IH]; intros Hf x Hx; [by exists x|]. destruct (Hf a ltac:(left) x Hx) as (x1 & E1 & Hx1).
  destruct (IH (λ b Hb, Hf b (list_elem_of_further _ _ _ Hb)) x1 Hx1) as (x2 & E2 & Hx2). exists x2. split; [|done]. cbn [each]. unfold se_bind. by rewrite E1.
Qed.
Lemma each_succeeds {A} (f : A → SE (Txn T) unit) l : (∀ a x, ∃ x', f a x = (Ok tt, x')) → ∀ x, ∃ x', each f l x = (Ok tt, x').
Proof.
  intros Hf. induction l as [|a l IH]; intros x; [by eexists|]. destruct (Hf a x) as (x1 & E1). destruct (IH x1) as (x2 & E2).
  exists x2. cbn [each]. unfold se_bind. by rewrite E1.
Qed.

Definition stores_json (p : string) : Prop := ∃ q, stored_props p = Ok q.

Lemma put_node_total clk n : segment (nd_ID n) → stores_json (nd_Props n) → total (putNodeInTxn clk n).
Proof.
  intros Hid [q Hq] x Hx. assert (∃ x', putNodeInTxn clk n x = (Ok tt, x')) as [x' E].
  { unfold putNodeInTxn, se_bind, se_get.
    assert (∃ x1, match getNodeRecordInTxn (nd_ID n) (kv x) with Ok old => deleteNodeIndexes old ;;; putNodeHistory clk old | Err _ => se_ret tt end x = (Ok tt, x1)) as [x1 E1].
    { destruct (getNodeRecordInTxn _ _) as [old|] eqn:Eo; [|by eexists]. apply get_node_record in Eo; [|done].
      destruct (db_node_at _ _ _ Hx Hid Eo) as (_ & _ & [_ Hp]).
      destruct (each_succeeds txn_delete (node_index_keys old) (λ k x, ex_intro _ _ eq_refl) x) as [x1 E1].
      unfold deleteNodeIndexes, se_bind, putNodeHistory, txn_now, se_result. rewrite E1. unfold se_bind. rewrite Hp. by eexists. }
    unfold se_bind in E1. rewrite E1. unfold putNodeRecord, se_bind, se_result. rewrite Hq.
    exact (each_succeeds _ _ (λ k x, ex_intro _ _ eq_refl) _). }
  exists x'. split; [done|]. apply put_node in E as (p & Hp & Hs). eapply (stores_node_ok (node_with_props p n)); [exact Hs| |done].
  split; [done|]. by eapply stored_stored.
Qed.
Lemma put_edge_total clk e : key_ok (edge_key e) → stores_json (ed_Props e) → total (putEdgeInTxn clk e).
Proof.
  intros Hid [q Hq] x Hx. assert (∃ x', putEdgeInTxn clk e x = (Ok tt, x')) as [x' E].
  { unfold putEdgeInTxn, se_bind, se_get.
    assert (∃ x1, match getEdgeRecord (ed_SourceID e) (ed_TargetID e) (ed_Kind e) (kv x) with Ok old => putEdgeHistory clk old | Err _ => se_ret tt end x = (Ok tt, x1)) as [x1 E1].
    { destruct (getEdgeRecord _ _ _ _) as [old|] eqn:Eo; [|by eexists]. apply get_edge_record in Eo; [|done].
      destruct (db_edge_at _ _ _ Hx Hid Eo) as (_ & _ & [_ Hp]).
      unfold putEdgeHistory, se_bind, txn_now, se_result. rewrite Hp. by eexists. }
    rewrite E1. unfold putEdgeRecord, se_bind, se_result. rewrite Hq.
    exact (each_succeeds _ _ (λ k x, ex_intro _ _ eq_refl) _). }
  exists x'. split; [done|]. apply put_edge in E as (p & Hp & Hs). eapply (stores_edge_ok (edge_with_props p e)); [exact Hs| |done].
  split; [done|]. by eapply stored_stored.
Qed.

Lemma mark_total which d pre (x : Txn T) : db_ok (kv x) → (∀ k, has_prefix pre k = true → has_prefix edge_prefix k = true) →
  ∃ x', mark_records which d pre x = (Ok tt, x').
Proof.
  intros Hx Hpre. destruct (scanned_edges (kv x) pre Hx Hpre) as (es & Ees & Hes & _). unfold mark_records, se_bind, se_get. rewrite Ees.
  clear Ees Hx. revert x. induction Hes as [|e es [_ Hp] _ IH]; intros x; [by eexists|]. cbn [fmap list_fmap each].
  unfold se_bind, mark_record, se_result. cbn [as_edge]. unfold se_bind. destruct (which e); [|apply IH].
  unfold putEdgeRecord, se_bind, se_result. cbn [ed_Props edge_with_times]. rewrite Hp. apply IH.
Qed.

Lemma delete_one_total id at_ : reads_clock at_ → (∀ x : Txn T, ∃ now x', at_ x = (Ok now, x')) → segment id →
  total (delete_one id at_).
Proof.
  intros Hat Hread Hid x Hx. destruct (getNodeRecordInTxn id (kv x)) as [old|err] eqn:Eo.
  2: { exists x. split; [|done]. unfold delete_one, when_exists, se_bind, se_get. rewrite Eo.
       by destruct (get_node_missing _ _ _ Hx Eo) as [-> _]. }
  assert (is_Some (db_node (kv x) id)) as Hs by (by exists old; apply get_node_record).
  assert (∃ x', delete_one id at_ x = (Ok tt, x')) as [x' E].
  2: { exists x'. split; [done|]. by apply (delete_one_implements _ _ _ _ _ Hat Hid Hs E). }
  pose proof (get_node_record _ _ _ Hx Eo) as Hn. destruct (db_node_at _ _ _ Hx Hid Hn) as (_ & <- & [_ Hp]).
  unfold delete_one, when_exists, se_bind, se_get. rewrite Eo.
  destruct (each_succeeds txn_delete (node_index_keys old) (λ k x, ex_intro _ _ eq_refl) x) as [x1 E1].
  unfold deleteNodeIndexes. rewrite E1. destruct (Hread x1) as (now & x2 & E2). rewrite E2.
  destruct (Hat _ _ _ E2) as [Hnow Ek]. pose proof (delete_node_indexes_quiet old _ _ _ E1) as Hq.
  set (m := node_with_times (nd_CreatedAt old) (nd_UpdatedAt old) (unix_nano now) old).
  assert (∃ x3, putNodeRecord m x2 = (Ok tt, x3)) as [x3 E3] by (unfold putNodeRecord, se_bind, se_result; cbn [nd_Props m node_with_times]; rewrite Hp; by eexists).
  rewrite E3. apply put_node_record in E3 as (p & Hp' & Hst). cbn in Hp'. rewrite Hp in Hp'. injection Hp' as <-.
  assert (db_ok (kv x3)) as Hdb3.
  { eapply (quiet_stores_node (node_with_props (nd_Props old) m) x x2 x3); [by intros k Hk; rewrite Ek; apply Hq|done|by split|done]. }
  assert (∀ id k, has_prefix (keyPrefix [famEdgeOut; id]) k = true → has_prefix edge_prefix k = true) as Hpre.
  { intros i k (t & ->)%has_prefix_spec. apply has_prefix_spec. exists (encodeKey [i] +:+ t).
    unfold edge_prefix, keyPrefix. change [famEdgeOut; i] with ([famEdgeOut] ++ [i]). by rewrite encode_app, str_app_assoc. }
  destruct (mark_total (λ _, true) (unix_nano now) (keyPrefix [famEdgeOut; nd_ID old]) x3 Hdb3 (Hpre _)) as [x4 E4].
  destruct (mark_pass (λ _, true) _ _ _ _ _ Hnow (Hpre _) E4 Hdb3) as (Hdb4 & _).
  unfold markEdgesForNode, se_bind. rewrite E4. by apply mark_total.
Qed.

(** Raw JSON that can be stored; annotations may also fail to merge. *)
Definition storable (op : mutation) : Prop :=
  let node n := stores_json (nd_Props n) in let edge e := stores_json (ed_Props e) in
  match op with
  | MUpsertNode n => node n
  | MUpsertNodes ns => Forall node ns
  | MApplyBatch ns es => Forall node ns ∧ Forall edge es
  | MLinkEdge e => edge e
  | MLinkEdges es => Forall edge es
  | MAnnotateNode _ _ | MAnnotateEdge _ _ _ _ => False
  | _ => True
  end.

Lemma commit_total clk op t : timely clk → db_ok t → mutation_ok t op → storable op → ∃ x, commitInTxn clk op (MkTxn t 0) = (Ok tt, x).
Proof.
  intros Ht Hdb Hop Hs. assert (∀ m : SE (Txn T) unit, total m → ∃ x, m (MkTxn t 0) = (Ok tt, x)) as Htot
    by (intros m Hm; destruct (Hm (MkTxn t 0) Hdb) as (x & E & _); eauto).
  assert (∀ ns, Forall (λ n, segment (nd_ID n) ∧ nd_DeletedAt n = 0%Z) ns → Forall (λ n, stores_json (nd_Props n)) ns → total (each (putNodeInTxn clk) ns)) as Hns.
  { intros ns H1 H2. apply total_each. intros n Hn. eapply Forall_forall in H1; [|exact Hn]. eapply Forall_forall in H2; [|exact Hn].
    destruct H1. by apply put_node_total. }
  assert (∀ es, Forall (λ e, key_ok (edge_key e) ∧ ed_DeletedAt e = 0%Z) es → Forall (λ e, stores_json (ed_Props e)) es → total (each (putEdgeInTxn clk) es)) as Hes.
  { intros es H1 H2. apply total_each. intros e He. eapply Forall_forall in H1; [|exact He]. eapply Forall_forall in H2; [|exact He].
    destruct H1. by apply put_edge_total. }
  destruct op; cbn [mutation_ok storable commitInTxn] in *.
  - destruct Hop. by apply Htot, put_node_total.
  - by apply Htot, Hns.
  - destruct Hop as [? ?], Hs as [? ?]. apply Htot. intros x Hx. destruct (Hns ns) with (x := x) as (x1 & E1 & Hx1); [done..|].
    destruct (Hes es) with (x := x1) as (x2 & E2 & Hx2); [done..|]. exists x2. split; [|done]. unfold se_bind. by rewrite E1.
  - destruct Hop. apply Htot, delete_one_total; [by apply now_reads|by intros x; do 2 eexists|done].
  - apply Htot. intros x Hx. unfold se_bind, txn_now. apply total_each; [|exact Hx].
    intros i Hi. eapply Forall_forall in Hop; [|exact Hi]. destruct Hop.
    apply delete_one_total; [by apply ret_reads, Ht|by intros y; do 2 eexists|done].
  - destruct Hop. by apply Htot, put_edge_total.
  - by apply Htot, Hes.
  - destruct Hop as [-> _]. unfold se_bind, se_get. destruct (getEdgeRecord _ _ _ _) as [old|]; [|by eexists].
    destruct (each_succeeds txn_delete (edge_index_keys old) (λ k x, ex_intro _ _ eq_refl) (MkTxn t 0)) as [x1 E1].
    unfold deleteEdgeIndexes. rewrite E1. by eexists.
  - done.
  - done.
  - by eexists.
Qed.

(** ** Histories *)

(** The engines reached from an open database, with the graph that the calls so far make. *)
Inductive reached : Engine T → agraph → Prop :=
| reached_open t en : db_ok t → Open t = Ok en → reached en (db_view t)
| reached_call en g env c r en' :
    reached en g → env_timely env → call_ok (e_db en) c → do_call env c en = (r, en') →
    reached en' (match r with Ok _ => abs_call c g | Err _ => g end).

Lemma abs_call_same t c g h : call_ok t c → same_graph g h → same_graph (abs_call c g) (abs_call c h).
Proof.
  intros Hc H. destruct c as [ns|ids|es|src tgt k inv w props|src tgt k hard|id props|src tgt k props|ns es|m|]; cbn [abs_call call_ok] in *;
    try (case_bool_decide; [done|]).
  - by apply foldl_same; [apply abs_upsert_same|].
  - by apply foldl_same; [apply abs_delete_same|].
  - by apply foldl_same; [apply abs_link_same|].
  - destruct (marshal_map props); [|done]. by apply foldl_same; [apply abs_link_same|].
  - by apply (abs_mutation_same t (MUnlinkEdge src tgt k hard)).
  - by apply (abs_mutation_same t (MAnnotateNode id props)).
  - by apply (abs_mutation_same t (MAnnotateEdge src tgt k props)).
  - apply foldl_same; [apply abs_link_same|]. by apply foldl_same; [apply abs_upsert_same|].
  - done.
  - done.
Qed.

Lemma reached_synced en g : reached en g → synced en ∧ same_graph (db_view (e_db en)) g.
Proof.
  induction 1 as [t en Hdb E|en g env c r en' _ [Hen Hg] Ht Hc E].
  - destruct (open_synced t Hdb) as (en' & E' & Hs & Ed). rewrite E in E'. injection E' as <-. split; [done|by rewrite Ed].
  - pose proof (call_outcome env c en r en' Hen Ht Hc E) as H. destruct r as [u|err]; [|cbn in H; by subst en'].
    destruct H as [Hs Hv]. split; [done|]. etrans; [exact Hv|]. by eapply abs_call_same.
Qed.

(** Why a call may fail without its record being at fault. *)
Definition environment_failed (env : Env) (err : gerror) : Prop :=
  env_ctx env = Some err ∨ (env_outcome env = Conflict ∧ err = badger_ErrConflict) ∨ env_outcome env = Fault err.

Lemma fails env op (k : SE (Engine T) unit) en err en' : synced en → env_timely env → mutation_ok (e_db en) op → storable op →
  (∀ en1, testHookApplyFailure en1 = None → ∃ en2, k en1 = (Ok tt, en2)) →
  (checkDirty ;;; persist env op ;;; k) en = (Err err, en') → environment_failed env err.
Proof.
  intros Hen [Ht _] Hop Hs Hk. destruct (commit_total _ op _ Ht (sy_db _ Hen) Hop Hs) as [x Ex].
  unfold checkDirty, se_check, persist, se_bind, commit, db_update. rewrite (sy_clean _ Hen).
  destruct (env_ctx env) as [e|] eqn:Ec; [intros [= <- <-]; by left|]. rewrite Ex. destruct (env_outcome env) as [| |e] eqn:Eo.
  - destruct (Hk (set_db (kv x) en) (sy_hook _ Hen)) as [en2 ->]. by intros [=].
  - intros [= <- <-]. right. left. done.
  - intros [= <- <-]. right. right. done.
Qed.
Lemma applies_ok f en : testHookApplyFailure en = None → ∃ en2 : Engine T, (apply_hook ;;; apply f) en = (Ok tt, en2).
Proof. intros E. unfold apply_hook, apply, se_bind, se_get, se_mod. rewrite E. by eexists. Qed.

(** The calls whose raw JSON the database takes. *)
Definition call_storable (c : call) : Prop :=
  match c with
  | CallUpsertNodes ns => Forall (λ n, stores_json (nd_Props n)) ns
  | CallLinkEdges es => Forall (λ e, stores_json (ed_Props e)) es
  | CallApplyBatch ns es => Forall (λ n, stores_json (nd_Props n)) ns ∧ Forall (λ e, stores_json (ed_Props e)) es
  | CallLink _ _ _ _ _ props => ∃ raw, marshal_map props = Ok raw ∧ stores_json raw
  | CallAnnotateNode _ _ | CallAnnotateEdge _ _ _ _ => False
  | CallDeleteNodes _ | CallUnlink _ _ _ _ | CallRecordMutationResult _ | CallRebuild => True
  end.

Lemma storable_stamped ns now : Forall (λ n, stores_json (nd_Props n)) ns → Forall (λ n, stores_json (nd_Props n)) (stamp_node now <$> ns).
Proof. intros H. by apply Forall_fmap. Qed.
Lemma storable_stamped_edges es now : Forall (λ e, stores_json (ed_Props e)) es → Forall (λ e, stores_json (ed_Props e)) (stamp_edge now <$> es).
Proof. intros H. by apply Forall_fmap. Qed.

Lemma links_fail env es en err en' : synced en → env_timely env → Forall edge_in es → Forall (λ e, stores_json (ed_Props e)) es →
  LinkEdges env es en = (Err err, en') → environment_failed env err.
Proof.
  intros Hen Ht Hok Hs. destruct es as [|e [|e' es]]; [done| |]; intros H.
  - apply (fails env (MLinkEdge e) _ en err en' Hen Ht) in H; [exact H|exact (proj1 (Forall_singleton _ _) Hok)|exact (proj1 (Forall_singleton _ _) Hs)|by apply applies_ok].
  - by apply (fails env (MLinkEdges (e :: e' :: es)) _ en err en' Hen Ht Hok Hs (applies_ok _)) in H.
Qed.

Lemma call_fails env c en err en' : synced en → env_timely env → call_ok (e_db en) c → call_storable c →
  do_call env c en = (Err err, en') → environment_failed env err.
Proof.
  intros Hen Ht Hok Hs H. destruct c as [ns|ids|es|src tgt k inv w props|src tgt k hard|id props|src tgt k props|ns es|m|];
    cbn [do_call call_ok call_storable] in *; try done.
  - pose proof (stamped_in _ (env_before env) Hok) as Hok'. pose proof (storable_stamped _ (env_before env) Hs) as Hs'.
    destruct ns as [|n [|n' ns]]; [done| |].
    + by apply (fails env (MUpsertNode (stamp_node (env_before env) n)) _ en err en' Hen Ht (proj1 (Forall_singleton _ _) Hok')
        (proj1 (Forall_singleton _ _) Hs') (applies_ok _)) in H.
    + by apply (fails env (MUpsertNodes (stamp_node (env_before env) <$> n :: n' :: ns)) _ en err en' Hen Ht Hok' Hs' (applies_ok _)) in H.
  - destruct ids as [|i [|j ids]]; [done| |].
    + by apply (fails env (MDeleteNode i) _ en err en' Hen Ht (proj1 (Forall_singleton _ _) Hok) I (applies_ok _)) in H.
    + by apply (fails env (MDeleteNodes (i :: j :: ids)) _ en err en' Hen Ht Hok I (applies_ok _)) in H.
  - by eapply links_fail.
  - destruct Hs as (raw & Er & Hr), Hok as [(H1 & H2 & H3) Hi]. unfold Link, se_bind, se_result in H. rewrite Er in H.
    change (LinkEdges env (link_pair src tgt k inv w raw (env_before env)) en = (Err err, en')) in H.
    eapply links_fail; [exact Hen|exact Ht| | |exact H]; unfold link_pair; apply Forall_cons_2; [by split| |done|];
      (case_bool_decide as E; [constructor|apply Forall_singleton]); [|done]. split; [|done]. split_and!; [done|by apply Hi|done].
  - destruct Hok as [-> Hk]. by apply (fails env (MUnlinkEdge src tgt k true) _ en err en' Hen Ht (conj eq_refl Hk) I (applies_ok _)) in H.
  - destruct Hok as [Hn He], Hs as [Hsn Hse]. pose proof (stamped_in _ (env_before env) Hn) as Hn'.
    pose proof (stamped_edges_in _ (env_before env) He) as He'. pose proof (storable_stamped _ (env_before env) Hsn) as Hsn'.
    pose proof (storable_stamped_edges _ (env_before env) Hse) as Hse'.
    destruct ns, es; [done|..];
      exact (fails env (MApplyBatch _ _) _ en err en' Hen Ht (conj Hn' He') (conj Hsn' Hse') (applies_ok _) H).
  - refine (fails env (MRecordMutationResult _) apply_hook en err en' Hen Ht I I _ H).
    intros en1 E1. unfold apply_hook, se_bind, se_get. rewrite E1. by eexists.
  - unfold Rebuild in H. destruct (load_synced (e_db en) (sy_db _ Hen)) as (s & Es & _). by rewrite Es in H.
Qed.

(** C7: Whatever calls an engine has served, and whichever of them failed, the graph it answers
    from memory, the graph in its database and the graph that a reopened engine loads are the
    one graph that the calls that succeeded make. *)
Theorem engine_refines_graph en g : reached en g →
  same_graph (mem_view (e_store en)) g ∧ same_graph (db_view (e_db en)) g ∧
  ∃ en', Open (e_db en) = Ok en' ∧ same_graph (mem_view (e_store en')) g.
Proof.
  intros [Hs Hg]%reached_synced. split_and!; [|done|].
  - etrans; [apply Hs|exact Hg].
  - destruct (open_synced (e_db en) (sy_db _ Hs)) as (en' & E & Hs' & Ed). exists en'. split; [done|].
    etrans; [apply Hs'|]. by rewrite Ed.
Qed.

End engine.
