(* ===== verification/KnowledgeExamples.v ===== *)
(** * The knowledge graph: concrete histories

    The witnesses of the properties of the keys, the store and the engine, over the map
    instance of the database, and the calls on which memory and database part. *)
From S2P Require Import Prelude GoStrings KV Envelope GoEncoding EnvelopeMerge KnowledgeKeys KnowledgeStore KnowledgeEngine.
From S2P Require Import KnowledgeMirror KnowledgeDurable KnowledgeRefinement.

Local Open Scope Z_scope.

(** ** Keys *)
Lemma decode_encode_witness :
  Forall short ["n"; EmptyString; "a"] ∧ decodeKey (encodeKey ["n"; EmptyString; "a"]) = Ok ["n"; "a"].
Proof.
  assert (Forall short ["n"; EmptyString; "a"]) as Hs by (repeat constructor).
  split; [exact Hs|exact (decode_encode ["n"; EmptyString; "a"] Hs)].
Defined.

(** ** Records *)
Definition a_node (id kind : string) (labels : list string) : NodeRecord :=
  {| nd_ID := id; nd_Kind := kind; nd_SourceID := "src"; nd_StableID := EmptyString; nd_RevisionRootID := EmptyString;
     nd_RevisionOf := EmptyString; nd_IdempotencyKey := EmptyString; nd_TaskID := EmptyString; nd_SessionID := EmptyString;
     nd_TurnID := EmptyString; nd_StateVersion := 0; nd_Labels := labels; nd_Props := "{}";
     nd_CreatedAt := 0; nd_UpdatedAt := 0; nd_DeletedAt := 0 |}.
Definition an_edge (src tgt : string) : EdgeRecord := new_edge src tgt "calls" 0 "{}" 5.

(** Objects without members, and [null]; nothing is indexed. *)
#[local] Instance plain_json : Codec := {
  compact p := if bool_decide (p = EmptyString) then Err json_error else Ok p;
  unmarshal p := if bool_decide (p = "null") then Ok None else if bool_decide (p = "{}") then Ok (Some ∅) else Err json_error;
  unmarshal_indexed _ := Err json_error
}.
#[local] Instance plain_json_laws : CodecLaws.
Proof.
  split; cbn; intros p q; case_bool_decide; try done; intros [= <-]; [by rewrite bool_decide_false|done|done].
Qed.

(** ** The store *)
Definition some_ops : list store_op :=
  [OpUpsert (a_node "a" "func" ["go"; " go "]); OpUpsert (a_node "b" "file" ["golang"]); OpLink (an_edge "a" "b");
   OpUpsert (a_node "a" "type" ["rust"]); OpDelete 9 "b"; OpUpsert (a_node "c" "type" ["go"]); OpLink (an_edge "c" "a")].

Lemma mirror_exact_witness :
  nd_ID <$> ListNodes "type" (after unmarshal some_ops) = ["a"; "c"] ∧
  (∀ kind n, n ∈ ListNodes kind (after unmarshal some_ops) ↔ node_of (after unmarshal some_ops) n ∧ of_kind kind n = true).
Proof.
  split; [vm_compute; reflexivity|].
  apply (mirror_exact unmarshal some_ops (λ l, l)); [|done].
  repeat (apply Forall_cons_2; [done|]). constructor.
Defined.

(** ** The engine *)
Abbreviation DB := (gmap string Value).
Definition at_time (now : Z) (o : txn_outcome) : Env :=
  {| env_ctx := None; env_outcome := o; env_before := now; env_clk := λ _, now + 1; env_after := now + 2 |}.
Definition fresh : Engine DB := MkEngine newAdjacencyStore ∅ None None.
Definition step (env : Env) (c : call) (en : Engine DB) : Engine DB := (do_call env c en).2.

Definition e1 : Engine DB := step (at_time 100 Commit) (CallUpsertNodes [a_node "a" "func" ["go"]; a_node "b" "file" []]) fresh.
Definition e2 : Engine DB := step (at_time 200 Commit) (CallLinkEdges [an_edge "a" "b"; an_edge "b" "a"]) e1.
Definition e3 : Engine DB := step (at_time 300 Commit) (CallAnnotateNode "a" {["x" := JBool true]}) e2.
Definition e4 : Engine DB := step (at_time 400 Commit) (CallDeleteNodes ["b"]) e3.

Lemma timely_at now o : wrap64 (now + 1) ≠ 0 → wrap64 (now + 2) ≠ 0 → env_timely (at_time now o).
Proof. intros H1 H2. split; [intros i; exact H1|exact H2]. Qed.
Lemma empty_db_ok : db_ok (∅ : DB).
Proof. split; intros k v _; cbn; by rewrite lookup_empty. Qed.
Lemma short_segment s : s ≠ EmptyString → ((safeSegmentLen s <? 2 ^ 32)%N = true) → segment s.
Proof. intros ? ?%N.ltb_lt. by split. Qed.

Lemma stepped env c en r : (do_call env c en).1 = r → do_call env c en = (r, step env c en).
Proof. unfold step. destruct (do_call env c en). by intros <-. Qed.

Ltac seg := apply short_segment; [done|vm_compute; reflexivity].
Ltac ready := apply timely_at; vm_compute; done.

Lemma reached_e2 : ∃ g, reached e2 g.
Proof.
  eexists. eapply (reached_call e1 _ (at_time 200 Commit) (CallLinkEdges [an_edge "a" "b"; an_edge "b" "a"]) (Ok tt) e2).
  - eapply (reached_call fresh _ (at_time 100 Commit) (CallUpsertNodes [a_node "a" "func" ["go"]; a_node "b" "file" []]) (Ok tt) e1).
    + apply (reached_open ∅ fresh); [apply empty_db_ok|vm_compute; reflexivity].
    + ready.
    + repeat (apply Forall_cons_2; [split; [seg|done]|]). constructor.
    + apply stepped. vm_compute. reflexivity.
  - ready.
  - repeat (apply Forall_cons_2; [split; [split_and!; seg|done]|]). constructor.
  - apply stepped. vm_compute. reflexivity.
Qed.
Lemma reached_e4 : ∃ g, reached e4 g.
Proof.
  destruct reached_e2 as [g Hg]. eexists. eapply (reached_call e3 _ (at_time 400 Commit) (CallDeleteNodes ["b"]) (Ok tt) e4).
  - eapply (reached_call e2 g (at_time 300 Commit) (CallAnnotateNode "a" {["x" := JBool true]}) (Ok tt) e3); [done|ready|seg|].
    apply stepped. vm_compute. reflexivity.
  - ready.
  - apply Forall_cons_2; [|constructor]. split; [seg|]. vm_compute. by eexists.
  - apply stepped. vm_compute. reflexivity.
Qed.

Lemma engine_refines_graph_witness :
  (nd_ID <$> ListNodes EmptyString (e_store e4)) = ["a"] ∧ GetOutEdges "a" [] (e_store e4) = [] ∧
  ∃ g, same_graph (mem_view (e_store e4)) g ∧ same_graph (db_view (e_db e4)) g ∧
    ∃ en', Open (e_db e4) = Ok en' ∧ same_graph (mem_view (e_store en')) g.
Proof.
  split; [vm_compute; reflexivity|]. split; [vm_compute; reflexivity|]. destruct reached_e4 as [g Hg].
  exists g. exact (engine_refines_graph e4 g Hg).
Defined.

Definition conflicting : Env := at_time 300 Conflict.

(** ** Where memory and database part *)
Definition reopened (en : Engine DB) : adjacencyStore := match Open (e_db en) with Ok en' => e_store en' | Err _ => newAdjacencyStore end.
Definition targets (id : string) (s : adjacencyStore) : list string := ed_TargetID <$> GetOutEdges id [] s.
Definition kinds (id : string) (s : adjacencyStore) : option string := nd_Kind <$> GetNode id s.

(** A soft unlink writes nothing: the edge is back after a restart. *)
Example soft_unlink_returns :
  let en := step (at_time 300 Commit) (CallUnlink "a" "b" "calls" false) e2 in
  targets "a" (e_store en) = [] ∧ targets "a" (reopened en) = ["b"].
Proof. split; vm_compute; reflexivity. Qed.

(** So a replaced edge and its replacement are both active after a restart. *)
Example replaced_edge_returns :
  let en := (ReplaceEdge (at_time 300 Commit) (at_time 400 Commit) "a" "b" "calls" (an_edge "a" "c") e2).2 in
  targets "a" (e_store en) = ["c"] ∧ targets "a" (reopened en) = ["b"; "c"].
Proof. split; vm_compute; reflexivity. Qed.

(** A batch that its validation rejects is in the database. *)
Example rejected_batch_is_durable :
  let '(r, en) := ApplyBatchValidated (at_time 300 Commit) [a_node "c" "func" []] [] (Some (λ _, Some (ErrMsg "stale"))) e2 in
  r = Err ErrBatchConflict ∧ kinds "c" (e_store en) = None ∧ kinds "c" (reopened en) = Some "func".
Proof. vm_compute. repeat split. Qed.

(** Deleting a node that was never stored removes its edges from memory only. *)
Example unknown_node_keeps_its_edges :
  let en := step (at_time 400 Commit) (CallDeleteNodes ["x"]) (step (at_time 300 Commit) (CallLinkEdges [an_edge "x" "a"]) e2) in
  targets "x" (e_store en) = [] ∧ targets "x" (reopened en) = ["a"].
Proof. split; vm_compute; reflexivity. Qed.

(** A record written with a deletion time, and otherwise as it is, is skipped in memory. *)
Definition deleted_node (n : NodeRecord) : NodeRecord := node_with_times 0 0 7 n.
Example deleting_upsert_is_skipped :
  let en := step (at_time 300 Commit) (CallUpsertNodes [deleted_node (a_node "a" "func" ["go"])]) e2 in
  kinds "a" (e_store en) = Some "func" ∧ kinds "a" (reopened en) = None.
Proof. split; vm_compute; reflexivity. Qed.

(** The commit and its application are two critical sections: a call can come between. *)
Definition older : NodeRecord := stamp_node 300 (a_node "a" "old" []).
Definition newer : NodeRecord := stamp_node 301 (a_node "a" "new" []).
Example interleaved_upserts_part :
  let both := persist (at_time 300 Commit) (MUpsertNode older) ;;; persist (at_time 301 Commit) (MUpsertNode newer) ;;;
              apply (upsert_all [newer]) ;;; apply (upsert_all [older]) in
  let en := (both e2).2 in kinds "a" (e_store en) = Some "old" ∧ kinds "a" (reopened en) = Some "new".
Proof. split; vm_compute; reflexivity. Qed.

(** ** Other observations *)

(** An edge linked without properties holds [null], on which an annotation panics. *)
Example annotating_null_panics :
  let en := step (at_time 300 Commit) (CallLink "a" "b" "reads" EmptyString 0 None) e2 in
  (do_call (at_time 400 Commit) (CallAnnotateEdge "a" "b" "reads" {["x" := JBool true]}) en).1 = Err nil_map_panic.
Proof. vm_compute. reflexivity. Qed.

(** The time of creation of a record that is written again is that of the last write. *)
Example created_again :
  let en := step (at_time 300 Commit) (CallUpsertNodes [a_node "a" "type" []]) e2 in
  nd_CreatedAt <$> GetNode "a" (e_store e2) = Some 100 ∧ nd_CreatedAt <$> GetNode "a" (e_store en) = Some 300.
Proof. split; vm_compute; reflexivity. Qed.
