(* ===== verification/AuditChain.v ===== *)
(** * The audit chain: files

    governance/policy/audit.go and chain_logger.go: records, the hash chain over them, the
    writer that appends entries to day files with their rotations, the head anchor, the
    validation at boot, verification and queries.  The queue between the producers and the
    writer is [AuditQueue].

    A chain file is the list of its lines, each of them what it decodes to: an entry that
    [json.Marshal] wrote decodes to that entry.  Instants are UTC.  Reading a file does not
    fail; creating one and writing to one may ([IoOutcome]), and a failed write writes nothing. *)
From stdpp Require Import pretty.
From S2P Require Import Prelude GoStrings GoTime GoEncoding.

Local Open Scope Z_scope.

(** ** Records and entries (audit.go) *)
Record AuditRecord := {
  Timestamp : Time; AgentID : string; Action : string; rec_Type : string; Permission : string;
  rec_Result : string; Metadata : list (string * Json); User : string; Correlation : string
}.

Record AuditChainEntry := {
  Sequence : Z; entry_Record : AuditRecord; PreviousHash : string; RecordHash : string
}.

Record AuditQuery := {
  q_AgentID : string; q_Action : string; q_Type : string; TimeStart : Time; TimeEnd : Time;
  q_Permission : string; q_Result : string
}.
Record AuditChainFilter := {
  f_Query : AuditQuery; f_Correlation : string; LineageID : string; f_Limit : Z
}.
Record AuditChainVerification := {
  Verified : bool; EntryCount : Z; LastSequence : Z; LastHash : string; Failure : string
}.

Inductive AuditAction :=
| AuditActionFileAccess | AuditActionExec | AuditActionNetwork | AuditActionCapability
| AuditActionIPC | AuditActionTool | AuditActionRequest.
#[global] Instance AuditAction_eq_dec : EqDecision AuditAction.
Proof. solve_decision. Defined.

(** ** What is hashed and written *)

(** [json.Marshal(record)]; the year must have four digits. *)
Definition record_json (r : AuditRecord) : option string :=
  if (year_of (Timestamp r) <? 0) || (9999 <? year_of (Timestamp r)) then None else
  md ← match Metadata r with
       | [] => Some []
       | kvs => t ← json_marshal (JObj kvs); Some [("metadata", t)]
       end;
  Some (json_struct (
    [("timestamp", dquote +:+ format_rfc3339nano (Timestamp r) +:+ dquote);
     ("agent_id", json_string (AgentID r)); ("action", json_string (Action r));
     ("type", json_string (rec_Type r)); ("permission", json_string (Permission r));
     ("result", json_string (rec_Result r))] ++
    md ++ omitempty "user" (User r) ++ omitempty "correlation_id" (Correlation r))).

Definition canonicalJSON (r : AuditRecord) : string := default EmptyString (record_json r).

Definition chainRecordHash (prevHash : string) (r : AuditRecord) : string :=
  sha256_hex (prevHash +:+ canonicalJSON r).

(** [json.Marshal(entry)]; entries are not signed. *)
Definition entry_json (e : AuditChainEntry) : option string :=
  r ← record_json (entry_Record e);
  Some (json_struct ([("sequence", pretty (Sequence e)); ("record", r)] ++
    omitempty "previous_hash" (PreviousHash e) ++ [("record_hash", json_string (RecordHash e))])).

Definition auditChainGenesisHash : string :=
  "0000000000000000000000000000000000000000000000000000000000000000".
Definition auditChainMaxFileBytes : Z := 64 * 2 ^ 20.
Definition auditChainTailWindow : Z := 2 ^ 20.
Definition scanner_max : Z := 4 * 1024 * 1024.

(** ** The directory *)
Inductive Line := LEntry (e : AuditChainEntry) | LBlank | LBad (bytes : Z).

Record auditChainHead := { head_Sequence : Z; head_Hash : string; head_File : string }.

(** [dir_head]: the head anchor, if head.json can be read. *)
Record Dir := { dir_files : gmap string (list Line); dir_head : option auditChainHead }.

Definition set_head (h : auditChainHead) (d : Dir) : Dir :=
  {| dir_files := dir_files d; dir_head := Some h |}.
Definition set_file (name : string) (ls : list Line) (d : Dir) : Dir :=
  {| dir_files := <[name := ls]> (dir_files d); dir_head := dir_head d |}.

(** Bytes of a line with its newline, and of a file. *)
Definition line_size (l : Line) : Z :=
  match l with
  | LEntry e => Z.of_nat (String.length (default EmptyString (entry_json e))) + 1
  | LBlank => 1
  | LBad n => n
  end.
Definition file_size (ls : list Line) : Z := foldr (λ l n, line_size l + n) 0 ls.

Definition is_chain_name (name : string) : bool := has_prefix "chain-" name && has_suffix ".jsonl" name.

Definition chainFilesIn (d : Dir) : list string :=
  sort_stable String.le (filter (λ n, is_chain_name n = true) (map_to_list (dir_files d)).*1).

Definition lines_of (d : Dir) (name : string) : list Line := default [] (dir_files d !! name).

(** [None]: a line that does not decode, or one too long for the scanner. *)
Fixpoint readChainEntries (ls : list Line) : option (list AuditChainEntry) :=
  match ls with
  | [] => Some []
  | l :: ls' =>
      if scanner_max <? line_size l then None else
      match l with
      | LEntry e => es ← readChainEntries ls'; Some (e :: es)
      | LBlank => readChainEntries ls'
      | LBad _ => None
      end
  end.

(** The blank lines at the end are trimmed; the last line must lie in the tail window. *)
Fixpoint trim_blanks (rev_lines : list Line) : list Line :=
  match rev_lines with LBlank :: ls => trim_blanks ls | _ => rev_lines end.

Definition tailLastEntry (ls : list Line) : option AuditChainEntry :=
  let kept := trim_blanks (rev ls) in
  let blanks := Z.of_nat (length ls - length kept) in
  match kept with
  | LEntry e :: _ =>
      if (file_size ls <=? auditChainTailWindow) || (line_size (LEntry e) + blanks <=? auditChainTailWindow)
      then Some e else None
  | _ => None
  end.

(** ** Replay and verification *)

(** [lastSeq] and [lastHash] of the loops ([prev] equals [lastHash]). *)
Record Cursor := { c_seq : Z; c_hash : string }.
Definition genesis_cursor : Cursor := {| c_seq := 0; c_hash := auditChainGenesisHash |}.
Definition advance (e : AuditChainEntry) : Cursor := {| c_seq := Sequence e; c_hash := RecordHash e |}.

(** The three checks of an entry against the cursor, in order. *)
Definition entry_failure (c : Cursor) (e : AuditChainEntry) : option string :=
  let expectedSeq := wrap64 (c_seq c + 1) in
  if negb (Sequence e =? expectedSeq) then
    Some (sprintf "non-monotonic sequence: got %d want %d" [pretty (Sequence e); pretty expectedSeq])
  else if negb (bool_decide (PreviousHash e = c_hash c)) then
    Some (sprintf "hash link broken at sequence %d" [pretty (Sequence e)])
  else if negb (bool_decide (RecordHash e = chainRecordHash (c_hash c) (entry_Record e))) then
    Some (sprintf "record hash mismatch at sequence %d" [pretty (Sequence e)])
  else None.

(** The entries of one file: the cursor after the last good one, and the first failure. *)
Fixpoint check_entries (c : Cursor) (es : list AuditChainEntry) : Cursor * option string :=
  match es with
  | [] => (c, None)
  | e :: es' =>
      match entry_failure c e with
      | Some f => (c, Some f)
      | None => check_entries (advance e) es'
      end
  end.

(** [replayChain]: the last valid prefix with the file it ends in, and [broken]. *)
Fixpoint replayChain (d : Dir) (names : list string) (c : Cursor) (lastFile : string) : Cursor * string * bool :=
  match names with
  | [] => (c, lastFile, false)
  | name :: names' =>
      match readChainEntries (lines_of d name) with
      | None => (c, lastFile, true)
      | Some es =>
          let '(c', f) := check_entries c es in
          let lastFile' := match es with
                           | e :: _ => if entry_failure c e is Some _ then lastFile else name
                           | [] => lastFile
                           end in
          match f with
          | Some _ => (c', lastFile', true)
          | None => replayChain d names' c' lastFile'
          end
      end
  end.

Definition failVerification (c : Cursor) (failure : string) : AuditChainVerification :=
  {| Verified := false; EntryCount := 0; LastSequence := c_seq c; LastHash := c_hash c; Failure := failure |}.

(** ** Queries *)
Definition query_field (want got : string) : bool := bool_decide (want = EmptyString) || bool_decide (got = want).

Definition matchAuditQuery (r : AuditRecord) (f : AuditQuery) : bool :=
  query_field (q_AgentID f) (AgentID r) && query_field (q_Type f) (rec_Type r) &&
  query_field (q_Action f) (Action r) && query_field (q_Permission f) (Permission r) &&
  query_field (q_Result f) (rec_Result r) &&
  (time_is_zero (TimeStart f) || (TimeStart f <=? Timestamp r)) &&
  (time_is_zero (TimeEnd f) || (Timestamp r <=? TimeEnd f)).

(** [m[key].(string)], the empty string if it is not one. *)
Definition string_field (key : string) (kvs : list (string * Json)) : string :=
  match list_find (λ kv : string * Json, kv.1 = key) kvs with
  | Some (_, (_, JStr s)) => s
  | _ => EmptyString
  end.

Definition matchAuditChainFilter (e : AuditChainEntry) (f : AuditChainFilter) : bool :=
  matchAuditQuery (entry_Record e) (f_Query f) &&
  query_field (f_Correlation f) (Correlation (entry_Record e)) &&
  query_field (LineageID f) (string_field "lineage_id" (Metadata (entry_Record e))).

Definition no_query : AuditQuery :=
  {| q_AgentID := EmptyString; q_Action := EmptyString; q_Type := EmptyString;
     TimeStart := zero_time; TimeEnd := zero_time; q_Permission := EmptyString; q_Result := EmptyString |}.
Definition no_filter : AuditChainFilter :=
  {| f_Query := no_query; f_Correlation := EmptyString; LineageID := EmptyString; f_Limit := 0 |}.

(** The loop of [verifyChainDir]; [matched] counts the entries the filter keeps. *)
Fixpoint verify_files (d : Dir) (f : AuditChainFilter) (names : list string) (c : Cursor) (matched : Z)
    : AuditChainVerification :=
  match names with
  | [] => {| Verified := true; EntryCount := matched; LastSequence := c_seq c; LastHash := c_hash c;
             Failure := EmptyString |}
  | name :: names' =>
      match readChainEntries (lines_of d name) with
      | None => failVerification c (sprintf "chain file %s corrupt" [name])
      | Some es =>
          match check_entries c es with
          | (c', Some failure) => failVerification c' failure
          | (c', None) =>
              verify_files d f names' c'
                (matched + Z.of_nat (length (filter (λ e, matchAuditChainFilter e f = true) es)))
          end
      end
  end.

Definition verifyChainDir (d : Dir) (f : AuditChainFilter) : AuditChainVerification :=
  verify_files d f (chainFilesIn d) genesis_cursor 0.

(** [None]: an error, some file is corrupt. *)
Fixpoint read_entries (d : Dir) (names : list string) : option (list AuditChainEntry) :=
  match names with
  | [] => Some []
  | name :: names' =>
      es ← readChainEntries (lines_of d name);
      rest ← read_entries d names';
      Some (es ++ rest)
  end.

(** [Query] of the committed records. *)
Definition Query (d : Dir) (f : AuditQuery) : option (list AuditRecord) :=
  option_map (λ es : list AuditChainEntry, filter (λ r, matchAuditQuery r f = true) (entry_Record <$> es))
    (read_entries d (chainFilesIn d)).

(** [ReadChain]: the files are read one by one until [Limit] entries are found, so a corrupt
    file after that is not noticed. *)
Fixpoint read_chain (d : Dir) (f : AuditChainFilter) (names : list string) (out : list AuditChainEntry)
    : option (list AuditChainEntry) :=
  match names with
  | [] => Some out
  | name :: names' =>
      es ← readChainEntries (lines_of d name);
      let out' := out ++ filter (λ e, matchAuditChainFilter e f = true) es in
      if (0 <? f_Limit f) && (f_Limit f <=? Z.of_nat (length out'))
      then Some (take (Z.to_nat (f_Limit f)) out')
      else read_chain d f names' out'
  end.
Definition ReadChain (d : Dir) (f : AuditChainFilter) : option (list AuditChainEntry) :=
  read_chain d f (chainFilesIn d) [].

(** ** The head anchor and boot *)
Definition readHeadAnchor (d : Dir) : option auditChainHead :=
  h ← dir_head d; if bool_decide (head_File h = EmptyString) then None else Some h.

Definition writeHeadAnchor (d : Dir) (file : string) (seq : Z) (hash : string) : Dir :=
  set_head {| head_Sequence := seq; head_Hash := hash; head_File := file |} d.

(** The anchor names the last entry of its file. *)
Definition head_matches (d : Dir) (h : auditChainHead) : bool :=
  match tailLastEntry (lines_of d (head_File h)) with
  | Some e => (Sequence e =? head_Sequence h) && bool_decide (RecordHash e = head_Hash h)
  | None => false
  end.

(** [bootValidate]: where to continue, whether the chain is broken, and the directory with
    the anchor moved onto the valid prefix. *)
Definition bootValidate (d : Dir) : Cursor * string * bool * Dir :=
  match chainFilesIn d with
  | [] => (genesis_cursor, EmptyString, false, d)
  | names =>
      let anchored := match readHeadAnchor d with
                      | Some h => if head_matches d h then Some h else None
                      | None => None
                      end in
      match anchored with
      | Some h => ({| c_seq := head_Sequence h; c_hash := head_Hash h |}, head_File h, false, d)
      | None =>
          let '(c, lastFile, broken) := replayChain d names genesis_cursor EmptyString in
          if (c_seq c =? 0) && broken then (genesis_cursor, EmptyString, true, d)
          else
            let d' := if broken || negb (bool_decide (is_Some (readHeadAnchor d)))
                      then writeHeadAnchor d lastFile (c_seq c) (c_hash c) else d in
            (c, lastFile, broken, d')
      end
  end.

Definition verifyHeadDir (d : Dir) : AuditChainVerification :=
  match (h ← readHeadAnchor d; if head_matches d h then Some h else None) with
  | Some h => {| Verified := true; EntryCount := 0; LastSequence := head_Sequence h;
                 LastHash := head_Hash h; Failure := EmptyString |}
  | None =>
      if bool_decide (chainFilesIn d = []) then
        {| Verified := true; EntryCount := 0; LastSequence := 0; LastHash := auditChainGenesisHash;
           Failure := EmptyString |}
      else
        let v := verifyChainDir d no_filter in
        if Verified v then
          {| Verified := true; EntryCount := EntryCount v; LastSequence := LastSequence v;
             LastHash := LastHash v;
             Failure := "head anchor missing or stale (chain replays clean — boot rebuilds)" |}
        else v
  end.

Record ChainProbe := { Present : bool; LastSeq : Z; probe_LastHash : string; Broken : bool; probe_Failure : string }.

(** [ProbeChainDir] of a directory that exists. *)
Definition ProbeChainDir (d : Dir) : ChainProbe :=
  if bool_decide (chainFilesIn d = []) then
    {| Present := false; LastSeq := 0; probe_LastHash := EmptyString; Broken := false; probe_Failure := EmptyString |}
  else
    let v := verifyChainDir d no_filter in
    {| Present := true; LastSeq := LastSequence v; probe_LastHash := LastHash v;
       Broken := negb (Verified v); probe_Failure := Failure v |}.

(** ** Which records must be durable *)
Definition auditActionForRecord (r : AuditRecord) : AuditAction :=
  if bool_decide (rec_Type r = "filesystem") then AuditActionFileAccess
  else if bool_decide (rec_Type r = "executable") then AuditActionExec
  else if bool_decide (rec_Type r = "network") then AuditActionNetwork
  else if bool_decide (rec_Type r = "capability") then AuditActionCapability
  else if bool_decide (rec_Type r = "ipc") then AuditActionIPC
  else AuditActionRequest.

Definition mutating_actions : list string :=
  ["write"; "edit"; "execute"; "delete"; "rename"; "move";
   "fs:write"; "fs:execute"; "fs:delete"; "fs:rename"; "fs:move"].
Definition mutatingFsAction (r : AuditRecord) : bool :=
  bool_decide (to_lower (trim_space (string_field "fs_action" (Metadata r))) ∈ mutating_actions).

(** [audit.enforcement]: [Ok true] is best effort. *)
Definition ParseAuditEnforcement (s : string) : result bool :=
  let v := to_lower (trim_space s) in
  if bool_decide (v ∈ [EmptyString; "strict"]) then Ok false
  else if bool_decide (v ∈ ["best_effort"; "best-effort"]) then Ok true
  else Err (ErrFmt "invalid audit.enforcement %q (want strict or best_effort)" [s]).

Record FileChainOptions := {
  QueueSize : Z; MaxFileBytes : Z; BestEffort : bool; StrictActions : option (gmap nat bool)
}.

(** The index of an action in [StrictActions]. *)
Definition action_code (a : AuditAction) : nat :=
  match a with
  | AuditActionFileAccess => 0 | AuditActionExec => 1 | AuditActionNetwork => 2
  | AuditActionCapability => 3 | AuditActionIPC => 4 | AuditActionTool => 5 | AuditActionRequest => 6
  end%nat.

Definition applyFileChainDefaults (o : FileChainOptions) : FileChainOptions :=
  let q := if QueueSize o <=? 0 then 1024 else QueueSize o in
  {| QueueSize := if q <? 128 then 128 else q;
     MaxFileBytes := if MaxFileBytes o <=? 0 then auditChainMaxFileBytes else MaxFileBytes o;
     BestEffort := BestEffort o; StrictActions := StrictActions o |}.

Definition enforce (o : FileChainOptions) (r : AuditRecord) : bool :=
  if BestEffort o then false
  else
    let action := auditActionForRecord r in
    if bool_decide (action = AuditActionFileAccess) then mutatingFsAction r
    else match StrictActions o with
         | Some m => default false (m !! action_code action)
         | None =>
             match action with
             | AuditActionExec | AuditActionNetwork | AuditActionCapability | AuditActionIPC
             | AuditActionRequest => true
             | _ => false
             end
         end.

(** ** The writer *)

(** [ws_open]: the file is open ([f != nil]). *)
Record chainWriterState := {
  ws_open : bool; ws_file : string; dateKey : string; ws_seq : Z; lastHash : string; ws_bytes : Z
}.

(** What the writer goroutine owns, with the counter of dropped records. *)
Record Writer := {
  opts : FileChainOptions; dir : Dir; ws : chainWriterState; genesis : option AuditRecord; dropped : Z
}.

(** How the file system answers while a record is written. *)
Inductive IoOutcome := IoOk | OpenFails | WriteFails.

Definition set_ws (s : chainWriterState) (w : Writer) : Writer :=
  {| opts := opts w; dir := dir w; ws := s; genesis := genesis w; dropped := dropped w |}.
Definition set_dir (d : Dir) (w : Writer) : Writer :=
  {| opts := opts w; dir := d; ws := ws w; genesis := genesis w; dropped := dropped w |}.
Definition drop_record (w : Writer) : Writer :=
  {| opts := opts w; dir := dir w; ws := ws w; genesis := genesis w; dropped := wrapu64 (dropped w + 1) |}.
Definition close_file (s : chainWriterState) : chainWriterState :=
  {| ws_open := false; ws_file := ws_file s; dateKey := dateKey s; ws_seq := ws_seq s;
     lastHash := lastHash s; ws_bytes := ws_bytes s |}.

Definition base_name (today : string) : string := "chain-" +:+ today +:+ ".jsonl".
Definition rotation_name (today : string) (n : Z) : string :=
  "chain-" +:+ today +:+ ".r" +:+ fmt_pad 2 n +:+ ".jsonl".

(** The first free rotation name; one of the first [fuel] is free when there are fewer files. *)
Fixpoint next_rotation (fuel : nat) (d : Dir) (today : string) (n : Z) : string :=
  match fuel with
  | O => rotation_name today n
  | S fuel' =>
      if bool_decide (is_Some (dir_files d !! rotation_name today n))
      then next_rotation fuel' d today (n + 1) else rotation_name today n
  end.
Definition nextRotationNameLocked (d : Dir) (today : string) : string :=
  next_rotation (size (dir_files d)) d today 1.

Definition openFileLocked (io : IoOutcome) (name key : string) (w : Writer) : bool * Writer :=
  match io with
  | OpenFails => (false, w)
  | _ =>
      let ls := lines_of (dir w) name in
      (true, set_dir (set_file name ls (dir w)) (set_ws
         {| ws_open := true; ws_file := name; dateKey := key; ws_seq := ws_seq (ws w);
            lastHash := lastHash (ws w); ws_bytes := file_size ls |} w))
  end.

Definition rotateLocked (io : IoOutcome) (today : string) (w : Writer) : bool * Writer :=
  let w := set_ws (close_file (ws w)) w in
  openFileLocked io (nextRotationNameLocked (dir w) today) today w.

(** [today > l.ws.dateKey] *)
Definition later_day (a b : string) : bool := bool_decide (str_lt b a).

Definition ensureWriterFileLocked (io : IoOutcome) (now ts : Time) (rotatingAfterTamper : bool) (w : Writer)
    : bool * Writer :=
  let today := format_day (if time_is_zero ts then now else ts) in
  let reopen w :=
    openFileLocked io (if rotatingAfterTamper then nextRotationNameLocked (dir w) today else base_name today)
      today w in
  if ws_open (ws w) then
    if later_day today (dateKey (ws w)) then reopen (set_ws (close_file (ws w)) w)
    else if MaxFileBytes (opts w) <=? ws_bytes (ws w) then rotateLocked io (dateKey (ws w)) w
    else (true, w)
  else reopen w.

Definition next_entry (s : chainWriterState) (r : AuditRecord) : AuditChainEntry :=
  {| Sequence := wrap64 (ws_seq s + 1); entry_Record := r; PreviousHash := lastHash s;
     RecordHash := chainRecordHash (lastHash s) r |}.

(** [appendLocked]: the sequence is incremented before the entry is marshalled and written. *)
Definition appendLocked (io : IoOutcome) (now : Time) (r : AuditRecord) (w : Writer) : Writer :=
  let rotatingAfterTamper := bool_decide (is_Some (genesis w)) in
  match ensureWriterFileLocked io now (Timestamp r) rotatingAfterTamper w with
  | (false, w) => drop_record w
  | (true, w) =>
      let s := ws w in
      let e := next_entry s r in
      let counted := {| ws_open := ws_open s; ws_file := ws_file s; dateKey := dateKey s;
                        ws_seq := Sequence e; lastHash := lastHash s; ws_bytes := ws_bytes s |} in
      let failed := drop_record (set_ws counted w) in
      match entry_json e, io with
      | None, _ => failed
      | _, WriteFails => failed
      | Some _, _ =>
          {| opts := opts w;
             dir := set_file (ws_file s) (lines_of (dir w) (ws_file s) ++ [LEntry e]) (dir w);
             ws := {| ws_open := ws_open s; ws_file := ws_file s; dateKey := dateKey s; ws_seq := Sequence e;
                      lastHash := RecordHash e; ws_bytes := ws_bytes s + line_size (LEntry e) |};
             genesis := if rotatingAfterTamper then None else genesis w; dropped := dropped w |}
      end
  end.

Definition writeHeadLocked (w : Writer) : Writer :=
  if negb (ws_open (ws w)) || (ws_seq (ws w) =? 0) then w
  else set_dir (writeHeadAnchor (dir w) (ws_file (ws w)) (ws_seq (ws w)) (lastHash (ws w))) w.

Definition closeCurrentFileLocked (w : Writer) : Writer := set_ws (close_file (ws w)) w.

(** The first record of a writer that found its chain broken. *)
Definition tamper_record (now : Time) (agent hash : string) : AuditRecord :=
  {| Timestamp := now; AgentID := agent; Action := "chain_integrity"; rec_Type := "audit";
     Permission := "hash_chain"; rec_Result := "tamper_rotation";
     Metadata := [("previous_valid_hash", JStr hash);
                  ("tamper_detected_at", JStr (format_rfc3339nano now))];
     User := EmptyString; Correlation := EmptyString |}.

(** [NewFileChainAuditLogger], up to the start of the writer: the writer and the record that
    waits first in the queue, if the chain is broken. *)
Definition NewFileChainAuditLogger (o : FileChainOptions) (agent : string) (now : Time) (d : Dir) : Writer :=
  let '(c, _, tampered, d') := bootValidate d in
  {| opts := applyFileChainDefaults o; dir := d';
     ws := {| ws_open := false; ws_file := EmptyString; dateKey := EmptyString; ws_seq := c_seq c;
              lastHash := c_hash c; ws_bytes := 0 |};
     genesis := if tampered then Some (tamper_record now agent (c_hash c)) else None; dropped := 0 |}.
