(* ===== verification/AuditChainSafety.v ===== *)
(** * The audit chain: tamper evidence and the writer

    Verified chains with one head hash hold the same records or exhibit a collision of
    SHA-256; a chain the writer wrote verifies, over every sequence of records, rotations
    and clean restarts that keep the files in order. *)
From stdpp Require Import pretty.
From S2P Require Import Prelude GoStrings GoTime GoEncoding AuditChain.

Local Open Scope Z_scope.

(** ** Checked chains *)
Definition preimage (e : AuditChainEntry) : string := PreviousHash e +:+ canonicalJSON (entry_Record e).

(** What the chain fixes of an entry: all of it, the record as its canonical JSON. *)
Definition entry_view (e : AuditChainEntry) : Z * string * string * string :=
  (Sequence e, canonicalJSON (entry_Record e), PreviousHash e, RecordHash e).

Definition hash_collision (es1 es2 : list AuditChainEntry) : Prop :=
  ∃ e1 e2, e1 ∈ es1 ∧ e2 ∈ es2 ∧ preimage e1 ≠ preimage e2 ∧
    sha256_hex (preimage e1) = sha256_hex (preimage e2).

Lemma entry_failure_None c e : entry_failure c e = None ↔
  Sequence e = wrap64 (c_seq c + 1) ∧ PreviousHash e = c_hash c ∧ RecordHash e = sha256_hex (preimage e).
Proof.
  unfold entry_failure, preimage, chainRecordHash. cbv zeta. split.
  - destruct (Z.eqb_spec (Sequence e) (wrap64 (c_seq c + 1))); cbn [negb]; [|done].
    case_bool_decide as Hp; cbn [negb]; [|done]. case_bool_decide as Hr; cbn [negb]; [|done].
    intros _. by rewrite Hp.
  - intros (-> & Hp & ->). rewrite Z.eqb_refl, Hp. cbn [negb]. by rewrite !bool_decide_true.
Qed.

Lemma check_entries_app c es1 es2 c' :
  check_entries c (es1 ++ es2) = (c', None) ↔
  ∃ c1, check_entries c es1 = (c1, None) ∧ check_entries c1 es2 = (c', None).
Proof.
  revert c; induction es1 as [|e es1 IH]; intros c; cbn [check_entries app].
  - split; [by intros ?; exists c|by intros (c1 & [= <-] & ?)].
  - destruct (entry_failure c e); [|apply IH]. split; [done|]. by intros (? & ? & _).
Qed.

Lemma check_entries_snoc c es e c' :
  check_entries c (es ++ [e]) = (c', None) ↔
  ∃ c1, check_entries c es = (c1, None) ∧ entry_failure c1 e = None ∧ c' = advance e.
Proof.
  rewrite check_entries_app. cbn [check_entries]. split; intros (c1 & H & H1); exists c1.
  - destruct (entry_failure c1 e); [done|]. by injection H1 as <-.
  - destruct H1 as [-> ->]. done.
Qed.

Lemma check_entries_hash_length c es c' : String.length (c_hash c) = 64%nat →
  check_entries c es = (c', None) → String.length (c_hash c') = 64%nat.
Proof.
  revert c; induction es as [|e es IH]; intros c Hc; cbn [check_entries]; [by intros [= <-]|].
  destruct (entry_failure c e) eqn:E; [done|]. apply entry_failure_None in E as (_ & _ & Hr).
  apply IH. cbn. rewrite Hr. apply sha256_hex_length.
Qed.

(** The backward step of the binding: the same head hash gives the same last record and the
    same hash before it, or a collision. *)
Lemma last_record_bound c1 c2 e1 e2 :
  String.length (c_hash c1) = 64%nat → String.length (c_hash c2) = 64%nat →
  entry_failure c1 e1 = None → entry_failure c2 e2 = None → RecordHash e1 = RecordHash e2 →
  (canonicalJSON (entry_Record e1) = canonicalJSON (entry_Record e2) ∧ c_hash c1 = c_hash c2) ∨
  preimage e1 ≠ preimage e2.
Proof.
  intros Hl1 Hl2 (_ & Hp1 & _)%entry_failure_None (_ & Hp2 & _)%entry_failure_None _.
  destruct (decide (preimage e1 = preimage e2)) as [Heq|]; [left|by right].
  unfold preimage in Heq. apply str_app_inj_length in Heq as [Hp Hj]; [|congruence].
  split; [done|congruence].
Qed.

Lemma records_bound c es1 es2 c1 c2 : String.length (c_hash c) = 64%nat →
  length es1 = length es2 → check_entries c es1 = (c1, None) → check_entries c es2 = (c2, None) →
  c_hash c1 = c_hash c2 →
  canonicalJSON ∘ entry_Record <$> es1 = canonicalJSON ∘ entry_Record <$> es2 ∨ hash_collision es1 es2.
Proof.
  intros Hc. revert es2 c1 c2. induction es1 as [|e1 es1 IH] using rev_ind; intros es2 c1 c2 Hlen H1 H2 Hh.
  { left. by destruct es2. }
  destruct es2 as [|e2 es2 _] using rev_ind; [rewrite length_app in Hlen; cbn in Hlen; lia|].
  apply check_entries_snoc in H1 as (d1 & H1 & He1 & ->). apply check_entries_snoc in H2 as (d2 & H2 & He2 & ->).
  pose proof (check_entries_hash_length _ _ _ Hc H1) as Hl1. pose proof (check_entries_hash_length _ _ _ Hc H2) as Hl2.
  destruct (last_record_bound d1 d2 e1 e2 Hl1 Hl2 He1 He2 Hh) as [[Hj Hd]|Hne].
  - rewrite !length_app in Hlen. cbn in Hlen.
    destruct (IH es2 d1 d2 ltac:(lia) H1 H2 Hd) as [Heq|(a & b & Ha & Hb & Hab)].
    + left. rewrite !fmap_app, Heq. cbn. by rewrite Hj.
    + right. exists a, b. rewrite !elem_of_app. tauto.
  - right. exists e1, e2. rewrite !elem_of_app, !list_elem_of_singleton. split_and!; [tauto..|done|].
    apply entry_failure_None in He1 as (_ & _ & <-). apply entry_failure_None in He2 as (_ & _ & <-). exact Hh.
Qed.

(** Records determine the rest of the chain. *)
Lemma views_determined c es1 es2 c1 c2 :
  check_entries c es1 = (c1, None) → check_entries c es2 = (c2, None) →
  canonicalJSON ∘ entry_Record <$> es1 = canonicalJSON ∘ entry_Record <$> es2 →
  entry_view <$> es1 = entry_view <$> es2.
Proof.
  revert c es2; induction es1 as [|e1 es1 IH]; intros c [|e2 es2]; cbn [check_entries fmap list_fmap]; try done.
  destruct (entry_failure c e1) eqn:E1; [done|]. destruct (entry_failure c e2) eqn:E2; [done|].
  intros H1 H2 [= Hj Hjs]. apply entry_failure_None in E1 as (Hs1 & Hp1 & Hr1).
  apply entry_failure_None in E2 as (Hs2 & Hp2 & Hr2).
  assert (RecordHash e1 = RecordHash e2) as Hr by (rewrite Hr1, Hr2; unfold preimage; by rewrite Hp1, Hp2, Hj).
  assert (advance e1 = advance e2) as Ha by (unfold advance; by rewrite Hs1, Hs2, Hr).
  f_equal; [|rewrite Ha in H1; by apply (IH (advance e2))].
  unfold entry_view. by rewrite Hs1, Hs2, Hj, Hp1, Hp2, Hr.
Qed.

(** ** What verification establishes *)
Lemma matches_no_filter e : matchAuditChainFilter e no_filter = true.
Proof. reflexivity. Qed.

Lemma verify_files_Verified d f names c n : let v := verify_files d f names c n in Verified v = true →
  ∃ es c', read_entries d names = Some es ∧ check_entries c es = (c', None) ∧
    EntryCount v = n + Z.of_nat (length (filter (λ e, matchAuditChainFilter e f = true) es)) ∧
    LastSequence v = c_seq c' ∧ LastHash v = c_hash c'.
Proof.
  revert c n; induction names as [|name names IH]; intros c n; cbn [verify_files read_entries].
  - intros _. exists [], c. cbn. split_and!; [done..|lia|done|done].
  - destruct (readChainEntries (lines_of d name)) as [es|]; [|done]. cbn [mbind option_bind].
    destruct (check_entries c es) as [c1 [fl|]] eqn:E; [done|]. intros Hv.
    destruct (IH _ _ Hv) as (es' & c' & Hr & Hc & Hn & Hs & Hh).
    exists (es ++ es'), c'. rewrite Hr. split_and!; [done| | |done|done].
    + apply check_entries_app. eauto.
    + rewrite Hn, filter_app, length_app. lia.
Qed.

Lemma verify_files_complete d f names c n es c' :
  read_entries d names = Some es → check_entries c es = (c', None) →
  verify_files d f names c n =
    {| Verified := true;
       EntryCount := n + Z.of_nat (length (filter (λ e, matchAuditChainFilter e f = true) es));
       LastSequence := c_seq c'; LastHash := c_hash c'; Failure := EmptyString |}.
Proof.
  revert c n es; induction names as [|name names IH]; intros c n es; cbn [verify_files read_entries].
  - intros [= <-] [= <-]. cbn. f_equal. lia.
  - destruct (readChainEntries (lines_of d name)) as [es1|]; [|done]. cbn [mbind option_bind].
    destruct (read_entries d names) as [es2|] eqn:Hr; [|done]. cbn. intros [= <-].
    rewrite check_entries_app. intros (c1 & -> & H2). rewrite (IH _ _ _ eq_refl H2). f_equal.
    rewrite filter_app, length_app. lia.
Qed.

Lemma filter_no_filter (es : list AuditChainEntry) : filter (λ e, matchAuditChainFilter e no_filter = true) es = es.
Proof. apply list_filter_all. intros e _. apply matches_no_filter. Qed.

Lemma read_chain_all d names out es : read_entries d names = Some es →
  read_chain d no_filter names out = Some (out ++ es).
Proof.
  revert out es; induction names as [|name names IH]; intros out es; cbn [read_entries read_chain].
  - intros [= <-]. by rewrite app_nil_r.
  - destruct (readChainEntries (lines_of d name)) as [es1|]; [|done]. cbn [mbind option_bind].
    destruct (read_entries d names) as [es2|]; [|done]. cbn. intros [= <-].
    rewrite filter_no_filter, (IH _ _ eq_refl). by rewrite app_assoc.
Qed.

Lemma verified_entries d : Verified (verifyChainDir d no_filter) = true →
  ∃ es c', ReadChain d no_filter = Some es ∧ check_entries genesis_cursor es = (c', None) ∧
    EntryCount (verifyChainDir d no_filter) = Z.of_nat (length es) ∧
    LastSequence (verifyChainDir d no_filter) = c_seq c' ∧ LastHash (verifyChainDir d no_filter) = c_hash c'.
Proof.
  intros H. destruct (verify_files_Verified _ _ _ _ _ H) as (es & c' & Hr & Hc & Hn & Hs & Hh).
  exists es, c'. split_and!; [|done| |done|done].
  - unfold ReadChain. by rewrite (read_chain_all _ _ _ _ Hr).
  - unfold verifyChainDir. rewrite Hn, filter_no_filter. lia.
Qed.

