(* ===== verification/AuditWriter.v ===== *)
(** * The audit chain: what the writer writes verifies

    Over every sequence of appended records, head rewrites and clean restarts in which a
    reopened file is never older than the last one, the files hold exactly the records, in
    order, and verification accepts them. *)
From stdpp Require Import pretty.
From S2P Require Import Prelude GoStrings GoTime GoEncoding AuditChain AuditChainSafety.

Local Open Scope Z_scope.

(** ** Names in the order of their days and rotations *)
Definition chain_name (k : string * Z) : string :=
  if k.2 =? 0 then base_name k.1 else rotation_name k.1 k.2.
Definition valid_key (k : string * Z) : Prop := String.length k.1 = 8%nat ∧ 0 <= k.2 < 100.
Definition key_lt (k k' : string * Z) : Prop := str_lt k.1 k'.1 ∨ (k.1 = k'.1 ∧ k.2 < k'.2).

Lemma rotation_name_fixed d n : 0 <= n < 100 →
  rotation_name d n = "chain-" +:+ d +:+ ".r" +:+ fixdigits 2 n +:+ ".jsonl".
Proof. intros Hn. unfold rotation_name. by rewrite fmt_pad_fits by lia. Qed.

Lemma chain_name_lt k k' : valid_key k → valid_key k' → key_lt k k' → str_lt (chain_name k) (chain_name k').
Proof.
  destruct k as [d n], k' as [d' n']. intros [Hd Hn] [Hd' Hn'] Hlt.
  unfold chain_name, base_name, key_lt, str_lt in *.
  cbn [fst snd] in *.
  assert (∀ a b, String.compare ("chain-" +:+ d +:+ a) ("chain-" +:+ d' +:+ b) =
    match String.compare d d' with Eq => String.compare a b | c => c end) as Hcmp.
  { intros a b. rewrite str_compare_app. apply str_compare_fixed. congruence. }
  destruct Hlt as [Hlt|[-> Hlt]]; cbn [fst snd] in *.
  - destruct (Z.eqb_spec n 0), (Z.eqb_spec n' 0); rewrite ?rotation_name_fixed, Hcmp, Hlt by lia; done.
  - rewrite str_compare_refl in Hcmp.
    destruct (Z.eqb_spec n 0), (Z.eqb_spec n' 0); rewrite ?rotation_name_fixed, Hcmp by lia; try lia; [done|].
    rewrite str_compare_app, str_compare_fixed by by rewrite !fixdigits_length.
    rewrite fixdigits_compare by lia. by apply Z.compare_lt_iff in Hlt as ->.
Qed.

Lemma has_suffix_chain_name k : is_chain_name (chain_name k) = true.
Proof.
  unfold is_chain_name, chain_name, base_name, rotation_name. apply andb_true_iff.
  destruct (k.2 =? 0); split; try apply has_prefix_app; rewrite <- ?str_app_assoc; apply has_suffix_app.
Qed.

Lemma sorted_weaken {A} (R R' : relation A) l :
  (∀ a b, R a b → R' a b) → StronglySorted R l → StronglySorted R' l.
Proof.
  intros HR. induction 1 as [|x l Hl IH Hx]; constructor; [done|]. eapply Forall_impl; [exact Hx|]. apply HR.
Qed.

(** ** The files of a directory are those of a list of keys *)
Definition kept (d : Dir) (keys : list (string * Z)) : Prop :=
  Forall valid_key keys ∧ StronglySorted key_lt keys ∧
  ∀ name, is_Some (dir_files d !! name) ↔ name ∈ chain_name <$> keys.

Lemma names_sorted keys : Forall valid_key keys → StronglySorted key_lt keys →
  StronglySorted str_lt (chain_name <$> keys).
Proof.
  intros Hv. induction 1 as [|k keys Hs IH Hk]; [constructor|]. inversion_clear Hv as [|?? Hvk Hvs].
  cbn. constructor; [by apply IH|]. apply Forall_fmap. rewrite Forall_forall in *. intros k' Hk'.
  apply chain_name_lt; auto.
Qed.

Lemma lt_sorted_NoDup (l : list string) : StronglySorted str_lt l → NoDup l.
Proof.
  induction 1 as [|x l Hl IH Hx]; constructor; [|done]. intros Hin. rewrite Forall_forall in Hx.
  by apply (str_lt_irrefl x), Hx.
Qed.

Lemma kept_Permutation d keys : kept d keys → (map_to_list (dir_files d)).*1 ≡ₚ chain_name <$> keys.
Proof.
  intros (Hv & Hs & Hdom). apply NoDup_Permutation.
  - apply NoDup_fst_map_to_list.
  - by apply lt_sorted_NoDup, names_sorted.
  - intros name. rewrite <- Hdom, list_elem_of_fmap. split.
    + intros ([n ls] & -> & H%elem_of_map_to_list). by exists ls.
    + intros [ls H]. exists (name, ls). by rewrite elem_of_map_to_list.
Qed.

Lemma kept_size d keys : kept d keys → size (dir_files d) = length keys.
Proof.
  intros H. rewrite <- length_map_to_list, <- (length_fmap fst), (kept_Permutation _ _ H). apply length_fmap.
Qed.

Lemma kept_files d keys : kept d keys → chainFilesIn d = chain_name <$> keys.
Proof.
  intros H. pose proof H as (Hv & Hs & Hdom). unfold chainFilesIn.
  rewrite list_filter_all.
  2:{ intros n Hn. rewrite (kept_Permutation _ _ H), list_elem_of_fmap in Hn. destruct Hn as (k & -> & _).
      apply has_suffix_chain_name. }
  apply (StronglySorted_unique String.le).
  - apply sort_stable_sorted; apply _.
  - eapply sorted_weaken; [apply str_lt_le|by apply names_sorted].
  - by rewrite sort_stable_Permutation, (kept_Permutation _ _ H).
Qed.

Lemma kept_add d keys k ls : kept d keys → valid_key k → (∀ k', k' ∈ keys → key_lt k' k) →
  kept (set_file (chain_name k) ls d) (keys ++ [k]).
Proof.
  intros (Hv & Hs & Hdom) Hk Hlt. split_and!.
  - apply Forall_app. split; [done|by apply Forall_singleton].
  - apply StronglySorted_app. split_and!; [|done|by repeat constructor].
    intros x y Hx ->%list_elem_of_singleton. by apply Hlt.
  - intros name. cbn. rewrite lookup_insert_is_Some', fmap_app, elem_of_app, Hdom. cbn.
    rewrite list_elem_of_singleton. naive_solver.
Qed.

Lemma kept_set d keys k ls : kept d keys → k ∈ keys → kept (set_file (chain_name k) ls d) keys.
Proof.
  intros (Hv & Hs & Hdom) Hk. split_and!; [done..|]. intros name. cbn.
  rewrite lookup_insert_is_Some', Hdom. split; [|tauto]. intros [<-|]; [|done].
  by apply list_elem_of_fmap_2.
Qed.

Lemma kept_head d keys h : kept (set_head h d) keys ↔ kept d keys.
Proof. done. Qed.

(** ** Reading the files while one grows *)
Lemma read_entries_app d ns1 ns2 es1 es2 :
  read_entries d ns1 = Some es1 → read_entries d ns2 = Some es2 →
  read_entries d (ns1 ++ ns2) = Some (es1 ++ es2).
Proof.
  revert es1; induction ns1 as [|n ns1 IH]; intros es1; cbn [read_entries app].
  - by intros [= <-].
  - destruct (readChainEntries _) as [es|]; [|done]. cbn [mbind option_bind].
    destruct (read_entries d ns1) as [es'|]; [|done]. cbn. intros [= <-] H2.
    rewrite (IH es' eq_refl H2). cbn. by rewrite app_assoc.
Qed.

Lemma read_entries_app_inv d ns1 ns2 es : read_entries d (ns1 ++ ns2) = Some es →
  ∃ es1 es2, read_entries d ns1 = Some es1 ∧ read_entries d ns2 = Some es2 ∧ es = es1 ++ es2.
Proof.
  revert es; induction ns1 as [|n ns1 IH]; intros es; cbn [read_entries app]; [by eexists [], es|].
  destruct (readChainEntries _) as [es0|]; [|done]. cbn [mbind option_bind].
  destruct (read_entries d (ns1 ++ ns2)) as [es'|] eqn:E; [|done]. cbn. intros [= <-].
  destruct (IH _ eq_refl) as (es1 & es2 & -> & H2 & ->). exists (es0 ++ es1), es2. cbn.
  by rewrite app_assoc.
Qed.

Lemma lines_of_set d name ls name' :
  lines_of (set_file name ls d) name' = if decide (name = name') then ls else lines_of d name'.
Proof. unfold lines_of. cbn. by rewrite lookup_insert; case_decide. Qed.

Lemma read_entries_set d name ls ns : name ∉ ns → read_entries (set_file name ls d) ns = read_entries d ns.
Proof.
  induction ns as [|n ns IH]; intros Hn; cbn [read_entries]; [done|].
  rewrite not_elem_of_cons in Hn. destruct Hn as [Hne Hn]. rewrite lines_of_set, decide_False, IH by done. done.
Qed.

Lemma read_entries_one d name : read_entries d [name] = readChainEntries (lines_of d name).
Proof. cbn. destruct (readChainEntries _); [|done]. cbn. by rewrite app_nil_r. Qed.

Lemma readChainEntries_snoc ls es e : readChainEntries ls = Some es →
  line_size (LEntry e) <= scanner_max → readChainEntries (ls ++ [LEntry e]) = Some (es ++ [e]).
Proof.
  intros Hls He. revert es Hls; induction ls as [|l ls IH]; intros es; cbn [readChainEntries app].
  - intros [= <-]. destruct (Z.ltb_spec scanner_max (line_size (LEntry e))); [lia|done].
  - destruct (scanner_max <? line_size l); [done|]. destruct l as [e'| |n]; [|by apply IH|done].
    destruct (readChainEntries ls) as [es'|]; [|done]. cbn. intros [= <-]. by rewrite (IH es' eq_refl).
Qed.

(** ** The invariant of a writer between records *)
Definition cursor_of (s : chainWriterState) : Cursor := {| c_seq := ws_seq s; c_hash := lastHash s |}.

(** The open file is the last one, with all earlier rotations of its day there. *)
Definition open_ok (s : chainWriterState) (keys : list (string * Z)) : Prop :=
  ∃ keys0 n, keys = keys0 ++ [(dateKey s, n)] ∧ ws_file s = chain_name (dateKey s, n) ∧
    ∀ m, 0 <= m <= n → (dateKey s, m) ∈ keys.

Record writing (w : Writer) (es : list AuditChainEntry) (keys : list (string * Z)) : Prop := {
  w_kept : kept (dir w) keys;
  w_read : read_entries (dir w) (chain_name <$> keys) = Some es;
  w_check : check_entries genesis_cursor es = (cursor_of (ws w), None);
  w_seq : ws_seq (ws w) = Z.of_nat (length es);
  w_genesis : genesis w = None;
  w_dropped : dropped w = 0;
  w_open : ws_open (ws w) = true → open_ok (ws w) keys;
  w_some : ws_open (ws w) = true → es ≠ [];
  w_head : ws_open (ws w) = false → ∀ h, readHeadAnchor (dir w) = Some h →
    head_Sequence h = ws_seq (ws w) ∧ head_Hash h = lastHash (ws w)
}.

Lemma kept_NoDup d keys : kept d keys → NoDup (chain_name <$> keys).
Proof. intros (Hv & Hs & _). by apply lt_sorted_NoDup, names_sorted. Qed.

Lemma kept_lookup d keys k : kept d keys → valid_key k → (∀ k', k' ∈ keys → key_lt k' k) →
  dir_files d !! chain_name k = None.
Proof.
  intros (Hv & _ & Hdom) Hk Hlt. apply eq_None_not_Some. rewrite Hdom, list_elem_of_fmap.
  intros (k' & Heq & Hin). apply (str_lt_irrefl (chain_name k)). rewrite Heq at 1.
  apply chain_name_lt; [|done|by apply Hlt]. rewrite Forall_forall in Hv. by apply Hv.
Qed.

(** Reading after an empty file is put last. *)
Lemma read_entries_new d keys k es : kept d keys → valid_key k → (∀ k', k' ∈ keys → key_lt k' k) →
  read_entries d (chain_name <$> keys) = Some es →
  read_entries (set_file (chain_name k) (lines_of d (chain_name k)) d) (chain_name <$> (keys ++ [k])) = Some es.
Proof.
  intros Hd Hk Hlt Hes. pose proof (kept_lookup _ _ _ Hd Hk Hlt) as Hnone.
  unfold lines_of. rewrite Hnone. cbn [default]. rewrite fmap_app, <- (app_nil_r es).
  apply read_entries_app.
  - rewrite read_entries_set; [done|]. intros Hin. pose proof Hd as (_ & _ & Hdom).
    apply Hdom in Hin as [? Hin]. congruence.
  - cbn. rewrite lines_of_set, decide_True by done. done.
Qed.

(** ** What opening a file does *)
Definition opened (w : Writer) (k : string * Z) : Writer :=
  set_dir (set_file (chain_name k) (lines_of (dir w) (chain_name k)) (dir w)) (set_ws
    {| ws_open := true; ws_file := chain_name k; dateKey := k.1; ws_seq := ws_seq (ws w);
       lastHash := lastHash (ws w); ws_bytes := file_size (lines_of (dir w) (chain_name k)) |} w).

(** The state between [ensureWriterFileLocked] and the write. *)
Record ready (w : Writer) (es : list AuditChainEntry) (keys : list (string * Z)) : Prop := {
  r_kept : kept (dir w) keys;
  r_read : read_entries (dir w) (chain_name <$> keys) = Some es;
  r_check : check_entries genesis_cursor es = (cursor_of (ws w), None);
  r_seq : ws_seq (ws w) = Z.of_nat (length es);
  r_genesis : genesis w = None;
  r_dropped : dropped w = 0;
  r_is_open : ws_open (ws w) = true;
  r_open : open_ok (ws w) keys
}.

Lemma opened_new w es keys k : writing w es keys → valid_key k → (∀ k', k' ∈ keys → key_lt k' k) →
  (∀ m, 0 <= m < k.2 → (k.1, m) ∈ keys) → ready (opened w k) es (keys ++ [k]).
Proof.
  intros [] Hk Hlt Hm. constructor; cbn; try done.
  - by apply kept_add.
  - by apply read_entries_new.
  - exists keys, k.2. cbn. destruct k as [d n]. cbn in *. split_and!; [done..|]. intros m Hmn.
    rewrite elem_of_app, list_elem_of_singleton. destruct (decide (m = n)) as [->|]; [by right|].
    left. apply Hm. lia.
Qed.

Lemma set_file_same d name : is_Some (dir_files d !! name) → set_file name (lines_of d name) d = d.
Proof.
  intros [ls H]. unfold set_file, lines_of. rewrite H. cbn. rewrite insert_id by done. by destruct d.
Qed.

Lemma opened_last w es keys d : writing w es (keys ++ [(d, 0)]) → ready (opened w (d, 0)) es (keys ++ [(d, 0)]).
Proof.
  intros []. pose proof w_kept0 as (_ & _ & Hdom).
  assert (is_Some (dir_files (dir w) !! chain_name (d, 0))) as Hin.
  { apply Hdom. rewrite fmap_app, elem_of_app. right. by left. }
  constructor; cbn; rewrite ?set_file_same by done; try done.
  exists keys, 0. cbn. split_and!; [done..|]. intros m Hm. assert (m = 0) as -> by lia.
  rewrite elem_of_app. right. by left.
Qed.

(** ** Opening the file of a record *)
Lemma key_lt_trans k1 k2 k3 : key_lt k1 k2 → key_lt k2 k3 → key_lt k1 k3.
Proof.
  unfold key_lt. intros [H|[E H]] [H'|[E' H']]; [left|left|left; rewrite E|right].
  - by transitivity (k2.1).
  - by rewrite <- E'.
  - done.
  - split; [congruence|lia].
Qed.

Lemma below_last keys k : StronglySorted key_lt (keys ++ [k]) →
  ∀ k', k' ∈ keys ++ [k] → k' = k ∨ key_lt k' k.
Proof.
  intros Hs k'. rewrite elem_of_app, list_elem_of_singleton. intros [H|H]; [right|by left].
  eapply StronglySorted_app_1_elem_of; [exact Hs|done|by left].
Qed.

Lemma str_lt_not_le a b : str_lt a b → ¬ String.le b a.
Proof.
  intros Hlt Hle. apply (str_lt_asym _ _ Hlt), str_le_lt; [done|].
  intros ->. by apply str_lt_irrefl in Hlt.
Qed.

Lemma key_below_base k today : valid_key k → valid_key (today, 0) →
  String.le (chain_name k) (base_name today) → k = (today, 0) ∨ key_lt k (today, 0).
Proof.
  intros Hk Ht Hle. unfold key_lt. cbn. destruct (String.compare k.1 today) eqn:E.
  - apply String.compare_eq_iff in E. destruct Hk as [_ Hn], k as [d n]. cbn in *. subst d.
    destruct (decide (n = 0)) as [->|]; [by left|]. exfalso.
    apply (str_lt_not_le (base_name today) (chain_name (today, n))); [|done].
    apply (chain_name_lt (today, 0)); [done|split; [apply Ht|cbn; lia]|right; cbn; split; [done|lia]].
  - right. by left.
  - exfalso. apply (str_lt_not_le (base_name today) (chain_name k)); [|done].
    apply (chain_name_lt (today, 0) k); [done..|]. left. cbn. unfold str_lt.
    rewrite (String.compare_antisym today). by rewrite E.
Qed.

Lemma next_rotation_spec d today n : ∀ fuel j, 1 <= j <= n + 1 → n + 1 - j <= Z.of_nat fuel →
  (∀ m, j <= m <= n → is_Some (dir_files d !! rotation_name today m)) →
  dir_files d !! rotation_name today (n + 1) = None →
  next_rotation fuel d today j = rotation_name today (n + 1).
Proof.
  induction fuel as [|fuel IH]; intros j Hj Hf Hm Hn; cbn [next_rotation].
  - replace j with (n + 1) by lia. done.
  - destruct (decide (j = n + 1)) as [->|Hne].
    + rewrite bool_decide_false; [done|]. rewrite Hn. by apply is_Some_None.
    + rewrite bool_decide_true by (apply Hm; lia). apply IH; [lia|lia|intros m ?; apply Hm; lia|done].
Qed.

Lemma rotation_is_chain_name today m : 1 <= m → rotation_name today m = chain_name (today, m).
Proof. intros Hm. unfold chain_name. cbn. by destruct (Z.eqb_spec m 0); [lia|]. Qed.

(** A record's file is not older than the last one when the writer has none open. *)
Definition in_order (d : Dir) (today : string) : Prop :=
  match last (chainFilesIn d) with Some name => String.le name (base_name today) | None => True end.

Definition day_for (now ts : Time) : string := format_day (if time_is_zero ts then now else ts).

Lemma reopen_ready w es keys today : writing w es keys → valid_key (today, 0) → in_order (dir w) today →
  ∃ keys', ready (opened w (today, 0)) es keys'.
Proof.
  intros Hw Ht Hord. pose proof Hw as [Hkept _ _ _ _ _ _ _ _]. pose proof Hkept as (Hv & Hs & _).
  unfold in_order in Hord. rewrite (kept_files _ _ Hkept) in Hord.
  destruct keys as [|k keys _] using rev_ind.
  - eexists. apply (opened_new w es [] (today, 0)); [done|done|by intros k' ?%elem_of_nil|cbn; lia].
  - rewrite fmap_snoc, last_snoc in Hord. apply Forall_app in Hv as [_ Hvk]. rewrite Forall_singleton in Hvk.
    destruct (key_below_base k today Hvk Ht Hord) as [->|Hlt]; [eexists; by apply opened_last|].
    eexists. apply opened_new; [done|done| |cbn; lia].
    intros k' Hk'. destruct (below_last _ _ Hs k' Hk') as [->|Hk]; [done|]. by eapply key_lt_trans.
Qed.

Lemma later_ready w es keys today : writing w es keys → ws_open (ws w) = true → valid_key (today, 0) →
  str_lt (dateKey (ws w)) today → ∃ keys', ready (opened w (today, 0)) es keys'.
Proof.
  intros Hw Ho Ht Hlt. pose proof Hw as [Hkept _ _ _ _ _ Hopen _ _]. pose proof Hkept as (_ & Hs & _).
  destruct (Hopen Ho) as (keys0 & n & -> & _). eexists. apply opened_new; [done|done| |cbn; lia].
  intros k' Hk'. assert (key_lt (dateKey (ws w), n) (today, 0)) as Hl by by left.
  destruct (below_last _ _ Hs k' Hk') as [->|Hk]; [done|]. by eapply key_lt_trans.
Qed.

Lemma rotated_ready w es keys : writing w es keys → ws_open (ws w) = true →
  (size (dir_files (dir w)) < 100)%nat →
  ∃ n keys', nextRotationNameLocked (dir w) (dateKey (ws w)) = chain_name (dateKey (ws w), n) ∧
    ready (opened w (dateKey (ws w), n)) es keys'.
Proof.
  intros Hw Ho Hsz. pose proof Hw as [Hkept _ _ _ _ _ Hopen _ _].
  pose proof Hkept as (Hv & Hs & Hdom). destruct (Hopen Ho) as (keys0 & n & Hkeys & _ & Hall).
  set (d := dateKey (ws w)) in *.
  assert (valid_key (d, n)) as Hvk.
  { rewrite Forall_forall in Hv. apply Hv. rewrite Hkeys, elem_of_app. right. by left. }
  assert (n + 1 <= Z.of_nat (length keys)) as Hn.
  { assert ((λ m, (d, Z.of_nat m)) <$> seq 0 (Z.to_nat (n + 1)) ⊆+ keys) as Hsub.
    { apply NoDup_submseteq; [apply NoDup_fmap_2; [intros a b [= ?]; lia|apply NoDup_seq]|]. intros x (m & -> & Hm%elem_of_seq)%list_elem_of_fmap. apply Hall. lia. }
    apply submseteq_length in Hsub. rewrite length_fmap, length_seq in Hsub. lia. }
  rewrite (kept_size _ _ Hkept) in Hsz.
  assert (valid_key (d, n + 1)) as Hvk' by (split; [apply Hvk|destruct Hvk as [_ ?]; cbn in *; lia]).
  assert (∀ k', k' ∈ keys → key_lt k' (d, n + 1)) as Hlt.
  { intros k' Hk'. rewrite Hkeys in Hk', Hs. assert (key_lt (d, n) (d, n + 1)) by (right; cbn; split; [done|lia]).
    destruct (below_last _ _ Hs k' Hk') as [->|Hk]; [done|]. by eapply key_lt_trans. }
  exists (n + 1), (keys ++ [(d, n + 1)]). split; [|apply opened_new; [done..|]; cbn; intros m Hm; apply Hall; lia].
  destruct Hvk as [_ Hn0]. cbn in Hn0. rewrite <- rotation_is_chain_name by lia.
  apply next_rotation_spec; [lia|rewrite (kept_size _ _ Hkept); lia| |].
  - intros m Hm. rewrite rotation_is_chain_name by lia. apply Hdom, list_elem_of_fmap_2, Hall. lia.
  - rewrite rotation_is_chain_name by lia. by eapply kept_lookup.
Qed.

Lemma ensure_ready now ts w es keys : writing w es keys →
  String.length (day_for now ts) = 8%nat → (size (dir_files (dir w)) < 100)%nat →
  (ws_open (ws w) = false → in_order (dir w) (day_for now ts)) →
  ∃ w' keys', ensureWriterFileLocked IoOk now ts false w = (true, w') ∧ ready w' es keys' ∧ opts w' = opts w ∧
    cursor_of (ws w') = cursor_of (ws w).
Proof.
  intros Hw Hday Hsz Hord. unfold ensureWriterFileLocked. cbv zeta. fold (day_for now ts).
  set (today := day_for now ts) in *. assert (valid_key (today, 0)) as Ht by (split; [done|cbn; lia]).
  destruct (ws_open (ws w)) eqn:Ho.
  - unfold later_day. case_bool_decide as Hl.
    + destruct (later_ready _ _ _ _ Hw Ho Ht Hl) as [keys' Hr].
      eexists _, keys'. split; [reflexivity|]. by split_and!.
    + destruct (MaxFileBytes (opts w) <=? ws_bytes (ws w)).
      * destruct (rotated_ready _ _ _ Hw Ho Hsz) as (n & keys' & Hname & Hr).
        eexists _, keys'. unfold rotateLocked. cbv zeta. cbn [dir set_ws]. rewrite Hname.
        split; [reflexivity|]. by split_and!.
      * exists w, keys. split; [done|]. destruct Hw. split_and!; [|done..]. by constructor; auto.
  - destruct (reopen_ready _ _ _ _ Hw Ht (Hord eq_refl)) as [keys' Hr].
    eexists _, keys'. split; [reflexivity|]. by split_and!.
Qed.

(** ** Appending *)
Definition entry_of (c : Cursor) (r : AuditRecord) : AuditChainEntry :=
  {| Sequence := wrap64 (c_seq c + 1); entry_Record := r; PreviousHash := c_hash c;
     RecordHash := chainRecordHash (c_hash c) r |}.

(** What the environment grants a record: it can be marshalled and scanned, the days have four
    digit years, fewer than a hundred files exist, sequences do not overflow, and a file that
    must be opened is not older than the last. *)
Record acceptable (now : Time) (r : AuditRecord) (w : Writer) : Prop := {
  ac_json : is_Some (record_json r);
  ac_now : 0 <= year_of now < 10000;
  ac_size : line_size (LEntry (entry_of (cursor_of (ws w)) r)) <= scanner_max;
  ac_files : (size (dir_files (dir w)) < 100)%nat;
  ac_seq : ws_seq (ws w) < int64_max;
  ac_order : ws_open (ws w) = false → in_order (dir w) (day_for now (Timestamp r))
}.

Lemma record_json_year r : is_Some (record_json r) → 0 <= year_of (Timestamp r) < 10000.
Proof.
  unfold record_json. destruct (Z.ltb_spec (year_of (Timestamp r)) 0), (Z.ltb_spec 9999 (year_of (Timestamp r)));
    cbn [orb]; try (by intros [? ?]). intros _. lia.
Qed.

Lemma append_writing now r w es keys : writing w es keys → acceptable now r w →
  ∃ keys', writing (appendLocked IoOk now r w) (es ++ [entry_of (cursor_of (ws w)) r]) keys'.
Proof.
  intros Hw []. pose proof (w_genesis _ _ _ Hw) as Hg.
  assert (String.length (day_for now (Timestamp r)) = 8%nat) as Hday.
  { unfold day_for. apply format_day_length. destruct (time_is_zero _); [done|by apply record_json_year]. }
  destruct (ensure_ready now (Timestamp r) w es keys Hw Hday ac_files0 ac_order0)
    as (w' & keys' & He & Hr & _ & Hc).
  exists keys'. unfold appendLocked. rewrite Hg. rewrite bool_decide_false by apply is_Some_None.
  rewrite He. cbv zeta. destruct Hr as [Hk Hrd Hck Hsq Hgen Hdr Ho (keys0 & n & Hkeys & Hfile & Hall)].
  change (next_entry (ws w') r) with (entry_of (cursor_of (ws w')) r). rewrite Hc.
  set (e := entry_of (cursor_of (ws w)) r) in *.
  assert (∃ t, entry_json e = Some t) as [t Ht] by (unfold entry_json; cbn; destruct ac_json0 as [? ->]; by eexists).
  rewrite Ht. assert (entry_failure (cursor_of (ws w')) e = None) as Hf by (rewrite Hc; by apply entry_failure_None).
  constructor; cbn; try done.
  - rewrite Hfile. apply kept_set; [done|]. rewrite Hkeys, elem_of_app. right. by left.
  - pose proof (kept_NoDup _ _ Hk) as Hnd. rewrite Hkeys, fmap_snoc in Hnd, Hrd |- *. rewrite Hfile.
    apply NoDup_app in Hnd as (_ & Hnd & _).
    apply read_entries_app_inv in Hrd as (es1 & es2 & H1 & H2 & ->). rewrite <- app_assoc.
    apply read_entries_app.
    + rewrite read_entries_set; [done|]. intros Hin. apply (Hnd _ Hin). by left.
    + rewrite read_entries_one in H2 |- *. rewrite lines_of_set, decide_True by done.
      by apply readChainEntries_snoc.
  - apply check_entries_snoc. eauto.
  - rewrite length_app. cbn. pose proof (w_seq _ _ _ Hw) as Hs. rewrite Hs in ac_seq0 |- *.
    rewrite wrap64_id; [lia|]. unfold in_int64, int64_min, int64_max in *. lia.
  - intros _. exists keys0, n. done.
  - intros _. by destruct es.
  - congruence.
Qed.

(** ** Head rewrites and restarts *)
Lemma read_entries_files d d' ns : dir_files d = dir_files d' → read_entries d ns = read_entries d' ns.
Proof.
  intros H. induction ns as [|n ns IH]; cbn [read_entries]; [done|]. unfold lines_of. by rewrite H, IH.
Qed.

Lemma flush_writing w es keys : writing w es keys → writing (writeHeadLocked w) es keys.
Proof.
  intros Hw. unfold writeHeadLocked. destruct (_ || _) eqn:E; [done|]. apply orb_false_iff in E as [Ho _].
  rewrite negb_false_iff in Ho. destruct Hw. constructor; cbn; try done.
  - by rewrite <- w_read0; apply read_entries_files.
  - congruence.
Qed.

Lemma replay_verified d names c file es c' : read_entries d names = Some es →
  check_entries c es = (c', None) → ∃ file', replayChain d names c file = (c', file', false).
Proof.
  revert c file es; induction names as [|name names IH]; intros c file es; cbn [read_entries replayChain].
  - intros [= <-] [= <-]. eauto.
  - destruct (readChainEntries (lines_of d name)) as [es1|]; [|done]. cbn [mbind option_bind].
    destruct (read_entries d names) as [es2|]; [|done]. cbn. intros [= <-].
    intros (c1 & E1 & E2)%check_entries_app. rewrite E1. by eapply IH.
Qed.

(** A writer that has closed its file and whose anchor, if any, is accurate. *)
Lemma close_writing w es keys : writing w es keys → writing (closeCurrentFileLocked (writeHeadLocked w)) es keys.
Proof.
  intros Hw. pose proof (flush_writing _ _ _ Hw) as Hf. destruct Hf. constructor; cbn; try done.
  intros _. destruct (ws_open (ws w)) eqn:Ho; cycle 1.
  { apply w_head0. unfold writeHeadLocked. by rewrite Ho. }
  unfold writeHeadLocked. rewrite Ho. cbn. destruct (Z.eqb_spec (ws_seq (ws w)) 0) as [Hz|Hz].
  - exfalso. destruct Hw. apply (w_some1 Ho). destruct es; [done|]. cbn in w_seq1. lia.
  - intros h. cbn. unfold readHeadAnchor. cbn. case_bool_decide; [done|]. by intros [= <-].
Qed.

Lemma boot_kept d keys es c : kept d keys → read_entries d (chain_name <$> keys) = Some es →
  check_entries genesis_cursor es = (c, None) →
  (∀ h, readHeadAnchor d = Some h → head_Sequence h = c_seq c ∧ head_Hash h = c_hash c) →
  ∃ file d', bootValidate d = (c, file, false, d') ∧ dir_files d' = dir_files d ∧
    ∀ h, readHeadAnchor d' = Some h → head_Sequence h = c_seq c ∧ head_Hash h = c_hash c.
Proof.
  intros Hk Hr Hc Hh. unfold bootValidate. rewrite (kept_files _ _ Hk).
  destruct (chain_name <$> keys) as [|name names] eqn:Hn.
  { cbn in Hr. injection Hr as <-. injection Hc as <-. by eexists _, d. }
  assert (∀ h, readHeadAnchor d = Some h → {| c_seq := head_Sequence h; c_hash := head_Hash h |} = c) as Hcur.
  { intros h Hhd. destruct (Hh h Hhd) as [-> ->]. by destruct c. }
  destruct (replay_verified _ _ genesis_cursor EmptyString _ _ Hr Hc) as [file Hrep].
  destruct (readHeadAnchor d) as [h|] eqn:Ehd; [destruct (head_matches d h)|].
  - rewrite (Hcur h eq_refl). eexists _, d. split_and!; [done..|]. rewrite Ehd. auto.
  - rewrite Hrep. cbn [andb]. rewrite andb_false_r, bool_decide_true by by eexists. cbn [orb negb].
    eexists _, d. split_and!; [done..|]. rewrite Ehd. auto.
  - rewrite Hrep, andb_false_r, bool_decide_false by apply is_Some_None. cbn [orb negb].
    eexists _, _. split_and!; [done|done|]. intros h. unfold readHeadAnchor. cbn.
    case_bool_decide; [done|]. by intros [= <-].
Qed.

(** ** Sessions *)
Inductive op := OAppend (now : Time) (r : AuditRecord) | OFlush | ORestart (now : Time).

(** A restart is a clean [Close] followed by [NewFileChainAuditLogger]; [agent] is the base
    name of the directory. *)
Definition run_op (agent : string) (o : op) (w : Writer) : Writer :=
  match o with
  | OAppend now r => appendLocked IoOk now r w
  | OFlush => writeHeadLocked w
  | ORestart now =>
      NewFileChainAuditLogger (opts w) agent now (dir (closeCurrentFileLocked (writeHeadLocked w)))
  end.
Definition run_ops (agent : string) (ops : list op) (w : Writer) : Writer :=
  foldl (λ w o, run_op agent o w) w ops.

Fixpoint orderly (agent : string) (ops : list op) (w : Writer) : Prop :=
  match ops with
  | [] => True
  | o :: ops' =>
      match o with OAppend now r => acceptable now r w | _ => True end ∧ orderly agent ops' (run_op agent o w)
  end.

Definition appended (ops : list op) : list AuditRecord :=
  omap (λ o, match o with OAppend _ r => Some r | _ => None end) ops.

Definition empty_dir : Dir := {| dir_files := ∅; dir_head := None |}.

Lemma restart_writing agent now w es keys : writing w es keys → writing (run_op agent (ORestart now) w) es keys.
Proof.
  intros Hw. apply close_writing in Hw. cbn [run_op].
  set (w1 := closeCurrentFileLocked (writeHeadLocked w)) in *. unfold NewFileChainAuditLogger.
  destruct Hw. assert (ws_open (ws w1) = false) as Hclosed by reflexivity.
  destruct (boot_kept _ _ _ _ w_kept0 w_read0 w_check0 (w_head0 Hclosed)) as (file & d' & -> & Hf & Hh).
  constructor; cbn; try done.
  - unfold kept. by rewrite Hf.
  - by rewrite (read_entries_files _ _ _ Hf).
Qed.

Lemma ops_writing agent ops : ∀ w es keys, writing w es keys → orderly agent ops w →
  ∃ es' keys', writing (run_ops agent ops w) (es ++ es') keys' ∧ entry_Record <$> es' = appended ops.
Proof.
  induction ops as [|o ops IH]; intros w es keys Hw; cbn [orderly].
  { intros _. exists [], keys. by rewrite app_nil_r. }
  intros [Ho Hrest]. cbn [run_ops foldl]. destruct o as [now r| |now].
  - destruct (append_writing now r w es keys Hw Ho) as [keys1 Hw1].
    destruct (IH _ _ _ Hw1 Hrest) as (es' & keys' & Hw' & Hes'). eexists (_ :: es'), keys'.
    rewrite <- app_assoc in Hw'. split; [exact Hw'|]. cbn. by rewrite Hes'.
  - apply (IH _ _ keys); [by apply flush_writing|done].
  - apply (IH _ _ keys); [by apply restart_writing|done].
Qed.

Lemma boot_writing o agent now : writing (NewFileChainAuditLogger o agent now empty_dir) [] [].
Proof.
  constructor; cbn; try done. split_and!; [constructor..|]. intros name. cbn. split.
  - intros [ls H]. change (@None (list Line) = Some ls) in H. done.
  - by intros ?%elem_of_nil.
Qed.

(** What a writer between records has on disk. *)
Lemma writing_disk w es keys : writing w es keys →
  verifyChainDir (dir w) no_filter =
    {| Verified := true; EntryCount := Z.of_nat (length es); LastSequence := Z.of_nat (length es);
       LastHash := lastHash (ws w); Failure := EmptyString |} ∧
  Query (dir w) no_query = Some (entry_Record <$> es).
Proof.
  intros []. rewrite <- (kept_files _ _ w_kept0) in w_read0. split.
  - unfold verifyChainDir. rewrite (verify_files_complete _ _ _ _ _ _ _ w_read0 w_check0), filter_no_filter.
    cbn. by rewrite w_seq0.
  - unfold Query. rewrite w_read0. cbn. f_equal. by apply list_filter_all.
Qed.

