(* ===== verification/AuditQueue.v ===== *)
(** * The audit chain: producers, queue and writer

    governance/policy/chain_logger.go: [Log], [flushToDisk], [Close] and the loop of the writer
    goroutine, as a step relation.  A producer first reads [closed] and then waits in a
    [select]; both are steps, so a close may fall between them.  The environment chooses the
    interleaving, the clock, the timeouts and how the file system answers. *)
From S2P Require Import Prelude GoStrings AuditChain AuditChainSafety AuditWriter.

Local Open Scope Z_scope.

(** A producer's unit: a record, or a flush barrier with its identity. *)
Inductive chainRequest := RRecord (r : AuditRecord) | RSync (id : nat).

(** The logger: the writer's state, the channel with the producers that wait on it, the
    counter of best-effort records, and the ghosts [accepted] (what was sent, in order),
    [handled] (what the writer received), [trace] (what it did) and [io_ok]. *)
Record Logger := {
  writer : Writer; ch : list chainRequest; waiting : list chainRequest; best_effort : Z;
  closed : bool; finished : bool;
  accepted : list chainRequest; handled : list chainRequest; trace : list op; io_ok : bool
}.

Definition errAuditLoggerClosed : gerror := ErrSentinel "audit logger closed".
Definition ErrAuditUnavailable : gerror := ErrSentinel "audit unavailable — action not performed".

(** What a call answers at once: [Some] of its error, or [None]: it waits. *)
Definition Answer : Type := option (option gerror).

Definition set_queue (c w : list chainRequest) (l : Logger) : Logger :=
  {| writer := writer l; ch := c; waiting := w; best_effort := best_effort l; closed := closed l;
     finished := finished l; accepted := accepted l; handled := handled l; trace := trace l; io_ok := io_ok l |}.

Definition stamp (now : Time) (r : AuditRecord) : AuditRecord :=
  if time_is_zero (Timestamp r) then
    {| Timestamp := now; AgentID := AgentID r; Action := Action r; rec_Type := rec_Type r;
       Permission := Permission r; rec_Result := rec_Result r; Metadata := Metadata r; User := User r;
       Correlation := Correlation r |}
  else r.

(** [Log], up to its [select]. *)
Definition Log_enter (now : Time) (r : AuditRecord) (l : Logger) : Answer * Logger :=
  if closed l then (Some (Some (ErrWrap "log refused" errAuditLoggerClosed)), l)
  else if negb (enforce (opts (writer l)) r) then
    (Some None,
     {| writer := writer l; ch := ch l; waiting := waiting l; best_effort := best_effort l + 1;
        closed := closed l; finished := finished l; accepted := accepted l; handled := handled l;
        trace := trace l; io_ok := io_ok l |})
  else (None, set_queue (ch l) (waiting l ++ [RRecord (stamp now r)]) l).

(** [flushToDisk], up to its first [select]. *)
Definition flush_enter (id : nat) (l : Logger) : Answer * Logger :=
  if closed l then (Some None, l) else (None, set_queue (ch l) (waiting l ++ [RSync id]) l).

Definition DroppedTotal (l : Logger) : Z := wrapu64 (best_effort l + dropped (writer l)).

(** The [select] of the [i]-th waiting producer: it sends when the channel has room, whether or
    not the logger is closed; for a record [Log] then returns nil. *)
Definition producer_send (i : nat) (l : Logger) : option Logger :=
  match waiting l !! i with
  | Some q =>
      if Z.of_nat (length (ch l)) <? QueueSize (opts (writer l)) then
        Some {| writer := writer l; ch := ch l ++ [q]; waiting := delete i (waiting l);
                best_effort := best_effort l; closed := closed l; finished := finished l;
                accepted := accepted l ++ [q]; handled := handled l; trace := trace l; io_ok := io_ok l |}
      else None
  | None => None
  end.

(** Its context or timer ends, or it sees the logger closed. *)
Definition producer_gives_up (i : nat) (saw_stop : bool) (l : Logger) : option (gerror * Logger) :=
  match waiting l !! i with
  | Some _ =>
      if saw_stop && negb (closed l) then None
      else Some (if saw_stop then ErrWrap "log refused" errAuditLoggerClosed else ErrAuditUnavailable,
                 set_queue (ch l) (delete i (waiting l)) l)
  | None => None
  end.

Definition wrote (w : Writer) (ops : list op) (ok : bool) (c done : list chainRequest) (l : Logger) : Logger :=
  {| writer := w; ch := c; waiting := waiting l; best_effort := best_effort l; closed := closed l;
     finished := finished l; accepted := accepted l; handled := handled l ++ done;
     trace := trace l ++ ops; io_ok := io_ok l && ok |}.

(** The writer receives: a record is appended; at a barrier the head is rewritten, unless that
    fails or the writer is draining. *)
Definition writer_receive (now : Time) (io : IoOutcome) (l : Logger) : option Logger :=
  match ch l with
  | [] => None
  | RRecord r :: c =>
      Some (wrote (appendLocked io now r (writer l)) [OAppend now r]
              (match io with IoOk => true | _ => false end) c [RRecord r] l)
  | RSync id :: c =>
      match io with
      | IoOk => Some (wrote (writeHeadLocked (writer l)) [OFlush] true c [RSync id] l)
      | _ => Some (wrote (writer l) [] true c [RSync id] l)
      end
  end.

Definition writer_tick (l : Logger) : Logger := wrote (writeHeadLocked (writer l)) [OFlush] true (ch l) [] l.

Definition Close_begin (l : Logger) : Logger :=
  {| writer := writer l; ch := ch l; waiting := waiting l; best_effort := best_effort l; closed := true;
     finished := finished l; accepted := accepted l; handled := handled l; trace := trace l; io_ok := io_ok l |}.

(** The stopped writer finds the channel empty: it persists the head and ends. *)
Definition writer_finish (l : Logger) : Logger :=
  {| writer := closeCurrentFileLocked (writeHeadLocked (writer l)); ch := ch l; waiting := waiting l;
     best_effort := best_effort l; closed := closed l; finished := true; accepted := accepted l;
     handled := handled l; trace := trace l ++ [OFlush]; io_ok := io_ok l |}.

Inductive step : Logger → Logger → Prop :=
| step_log now r l : step l (Log_enter now r l).2
| step_flush id l : step l (flush_enter id l).2
| step_send i l l' : producer_send i l = Some l' → step l l'
| step_give_up i b l e l' : producer_gives_up i b l = Some (e, l') → step l l'
| step_receive now io l l' : finished l = false → writer_receive now io l = Some l' → step l l'
| step_tick l : finished l = false → step l (writer_tick l)
| step_close l : step l (Close_begin l)
| step_finish l : finished l = false → closed l = true → ch l = [] → step l (writer_finish l).

(** A logger that takes over the directory after the sessions [past]. *)
Definition first_writer (o : FileChainOptions) (agent : string) (now : Time) : Writer :=
  NewFileChainAuditLogger o agent now empty_dir.
Definition started (o : FileChainOptions) (agent : string) (now : Time) (past : list op) : Logger :=
  {| writer := run_ops agent past (first_writer o agent now); ch := []; waiting := []; best_effort := 0;
     closed := false; finished := false; accepted := []; handled := []; trace := past; io_ok := true |}.

Definition records (qs : list chainRequest) : list AuditRecord :=
  omap (λ q, match q with RRecord r => Some r | _ => None end) qs.

#[local] Arguments run_ops : simpl never.
#[local] Arguments appended : simpl never.
#[local] Arguments records : simpl never.

(** ** Nothing accepted is forgotten *)
Section accounting.
Context (o : FileChainOptions) (agent : string) (start : Time) (past : list op).

Record accounted (l : Logger) : Prop := {
  acc_fifo : accepted l = handled l ++ ch l;
  acc_room : Z.of_nat (length (ch l)) <= Z.max 0 (QueueSize (opts (writer l)));
  acc_trace : appended (trace l) = appended past ++ records (handled l);
  acc_writer : io_ok l = true →
    writer l = (if finished l then closeCurrentFileLocked else id) (run_ops agent (trace l) (first_writer o agent start))
}.

Lemma run_ops_snoc ops x w : run_ops agent (ops ++ [x]) w = run_op agent x (run_ops agent ops w).
Proof. unfold run_ops. by rewrite foldl_app. Qed.

Lemma appended_app ops1 ops2 : appended (ops1 ++ ops2) = appended ops1 ++ appended ops2.
Proof. unfold appended. by rewrite omap_app. Qed.

Lemma records_app qs1 qs2 : records (qs1 ++ qs2) = records qs1 ++ records qs2.
Proof. unfold records. by rewrite omap_app. Qed.

Lemma opts_ensure io now ts b w : opts (ensureWriterFileLocked io now ts b w).2 = opts w.
Proof.
  unfold ensureWriterFileLocked, rotateLocked, openFileLocked. cbv zeta.
  repeat case_match; reflexivity.
Qed.

Lemma opts_append io now r w : opts (appendLocked io now r w) = opts w.
Proof.
  unfold appendLocked. cbv zeta. rewrite <- (opts_ensure io now (Timestamp r) (bool_decide (is_Some (genesis w))) w).
  destruct (ensureWriterFileLocked _ _ _ _ w) as [[] w']; cbn [snd]; [|done].
  destruct (entry_json _), io; reflexivity.
Qed.

Lemma opts_head w : opts (writeHeadLocked w) = opts w.
Proof. unfold writeHeadLocked. by destruct (_ || _). Qed.

Lemma accounted_start : accounted (started o agent start past).
Proof. constructor; cbn; try done; [lia|]. by rewrite app_nil_r. Qed.

Lemma accounted_step l l' : accounted l → step l l' → accounted l'.
Proof.
  intros [Hf Hr Ht Hw]. destruct 1 as [now r l|id l|i l l' E|i b l e l' E|now io l l' Hfin E|l Hfin|l|l Hfin Hc Hq].
  - unfold Log_enter. destruct (closed l); [by constructor|]. destruct (enforce (opts (writer l)) r); by constructor.
  - unfold flush_enter. destruct (closed l); by constructor.
  - unfold producer_send in E. destruct (waiting l !! i) as [q|]; [|done].
    destruct (Z.ltb_spec (Z.of_nat (length (ch l))) (QueueSize (opts (writer l)))); [|done].
    injection E as <-. constructor; cbn; [by rewrite Hf, app_assoc|rewrite length_app; cbn; lia|done|done].
  - unfold producer_gives_up in E. destruct (waiting l !! i); [|done]. destruct (b && _); [done|].
    injection E as _ <-. by constructor.
  - unfold writer_receive in E. destruct (ch l) as [|[r|id] c] eqn:Ec; [done| |].
    + injection E as <-. constructor; cbn.
      * by rewrite Hf, <- app_assoc.
      * rewrite opts_append. cbn in Hr. lia.
      * by rewrite appended_app, records_app, Ht, <- app_assoc.
      * intros [Hio Hok]%andb_true_iff. destruct io; [|done..]. rewrite Hfin, run_ops_snoc, Hw by done.
        by rewrite Hfin.
    + destruct io; injection E as <-; (constructor; cbn;
        [by rewrite Hf, <- app_assoc|rewrite ?opts_head; cbn in Hr; lia
        |by rewrite ?appended_app, records_app, Ht, ?app_nil_r|]);
        rewrite andb_true_r, Hfin; intros Hio; rewrite ?run_ops_snoc, ?app_nil_r, Hw by done; by rewrite Hfin.
  - constructor; cbn; rewrite ?app_nil_r, ?opts_head; [done..| |].
    + by rewrite appended_app, app_nil_r.
    + rewrite andb_true_r, Hfin. intros Hio. rewrite run_ops_snoc, Hw by done. by rewrite Hfin.
  - by constructor.
  - constructor; cbn; rewrite ?opts_head; [done..| |].
    + by rewrite appended_app, app_nil_r.
    + intros Hio. rewrite run_ops_snoc, Hw by done. by rewrite Hfin.
Qed.

Lemma accounted_reachable l : rtc step (started o agent start past) l → accounted l.
Proof.
  apply rtc_ind_r; [apply accounted_start|]. intros l1 l2 _ Hstep H. by eapply accounted_step.
Qed.


(** ** After the writer has ended *)
Lemma finished_step l l' : finished l = true → step l l' →
  finished l' = true ∧ writer l' = writer l ∧ handled l' = handled l ∧ ch l `prefix_of` ch l'.
Proof.
  intros Hfin. destruct 1 as [now r l|id l|i l l' E|i b l e l' E|? ? ? ? H|? H|l|? H]; try congruence.
  - unfold Log_enter. destruct (closed l); [done|]. by destruct (enforce _ _).
  - unfold flush_enter. by destruct (closed l).
  - unfold producer_send in E. destruct (waiting l !! i); [|done]. destruct (_ <? _); [|done].
    injection E as <-. cbn. split_and!; [done..|by apply prefix_app_r].
  - unfold producer_gives_up in E. destruct (waiting l !! i); [|done]. destruct (b && _); [done|].
    by injection E as _ <-.
  - done.
Qed.

(** What is in the channel when the writer has ended stays there. *)
Lemma finished_is_final l l' : finished l = true → rtc step l l' →
  writer l' = writer l ∧ handled l' = handled l ∧ ch l `prefix_of` ch l'.
Proof.
  intros Hfin H. cut (finished l' = true ∧ writer l' = writer l ∧ handled l' = handled l ∧ ch l `prefix_of` ch l').
  { tauto. }
  revert l' H. apply rtc_ind_r; [done|]. intros l1 l2 _ Hs (Hf1 & Hw & Hh & Hp).
  destruct (finished_step _ _ Hf1 Hs) as (-> & -> & -> & Hp'). split_and!; [done..|by etrans].
Qed.
End accounting.
