(* ===== verification/AuditExamples.v ===== *)
(** * The audit chain: concrete runs

    The witnesses of the chain's properties, and runs in which an undamaged chain is broken or
    a damaged one passes. *)
From stdpp Require Import pretty.
From S2P Require Import Prelude GoStrings GoTime GoEncoding.
From S2P Require Import AuditChain AuditChainSafety AuditWriter AuditQueue.

Local Open Scope Z_scope.

Definition noon : Time := 1791460800123456789.
Definition next_day : Time := noon + 24 * hour.

Definition granted (agent : string) (at_ : Time) : AuditRecord :=
  {| Timestamp := at_; AgentID := agent; Action := "exec:binary:docker"; rec_Type := "executable";
     Permission := "docker"; rec_Result := "granted";
     Metadata := [("args", JArr [JStr "docker"; JStr "version"])]; User := EmptyString;
     Correlation := EmptyString |}.

(** The record the repository's test pins has these bytes. *)
Example golden_record :
  canonicalJSON (granted "agent-ws-euclo" noon) =
  let q := dquote in
  "{" +:+ q +:+ "timestamp" +:+ q +:+ ":" +:+ q +:+ "2026-10-08T12:00:00.123456789Z" +:+ q +:+ "," +:+
  q +:+ "agent_id" +:+ q +:+ ":" +:+ q +:+ "agent-ws-euclo" +:+ q +:+ "," +:+
  q +:+ "action" +:+ q +:+ ":" +:+ q +:+ "exec:binary:docker" +:+ q +:+ "," +:+
  q +:+ "type" +:+ q +:+ ":" +:+ q +:+ "executable" +:+ q +:+ "," +:+
  q +:+ "permission" +:+ q +:+ ":" +:+ q +:+ "docker" +:+ q +:+ "," +:+
  q +:+ "result" +:+ q +:+ ":" +:+ q +:+ "granted" +:+ q +:+ "," +:+
  q +:+ "metadata" +:+ q +:+ ":{" +:+ q +:+ "args" +:+ q +:+ ":[" +:+ q +:+ "docker" +:+ q +:+ "," +:+
  q +:+ "version" +:+ q +:+ "]}}".
Proof. vm_compute. reflexivity. Qed.

(** Files rotate after 500 bytes. *)
Definition small : FileChainOptions :=
  {| QueueSize := 0; MaxFileBytes := 500; BestEffort := false; StrictActions := None |}.
Definition large : FileChainOptions :=
  {| QueueSize := 0; MaxFileBytes := 0; BestEffort := false; StrictActions := None |}.

Definition three : list op :=
  [OAppend noon (granted "a" noon); OAppend noon (granted "b" noon); OAppend noon (granted "c" noon)].
Definition boot (o : FileChainOptions) : Writer := NewFileChainAuditLogger o "agent" noon empty_dir.
Definition summary (d : Dir) : bool * Z :=
  let v := verifyChainDir d no_filter in (Verified v, LastSequence v).

(** ** Witnesses *)
Definition dir_small : Dir := dir (run_ops "agent" three (boot small)).
Definition dir_large : Dir := dir (run_ops "agent" three (boot large)).

Example layouts_differ :
  chainFilesIn dir_small = ["chain-20261008.jsonl"; "chain-20261008.r01.jsonl"] ∧
  chainFilesIn dir_large = ["chain-20261008.jsonl"].
Proof. split; vm_compute; reflexivity. Qed.


(** A session with a rotation, a restart on the next day, and a late record. *)
Definition session : list op := three ++ [OFlush; ORestart next_day; OAppend next_day (granted "d" next_day)].

Ltac grant := constructor; [vm_compute; eauto|vm_compute; split; congruence|vm_compute; congruence
                           |vm_compute; lia|vm_compute; reflexivity|vm_compute; tauto].

Lemma session_orderly : orderly "agent" session (boot small).
Proof. cbn [orderly session three app]. repeat (split; [first [exact I|grant]|]). exact I. Qed.


(** A producer logs, the writer receives, and the logger is closed. *)
Definition fresh : Logger := started small "agent" noon [].
Definition sent (r : AuditRecord) (l : Logger) : Logger :=
  default l (producer_send 0 (Log_enter noon r l).2).
Definition received (l : Logger) : Logger := default l (writer_receive noon IoOk l).
Definition one_logged : Logger := writer_finish (Close_begin (received (sent (granted "a" noon) fresh))).

Lemma one_logged_reachable : rtc step fresh one_logged.
Proof.
  eapply rtc_l; [apply (step_log noon (granted "a" noon))|].
  eapply rtc_l; [apply (step_send 0 _ (sent (granted "a" noon) fresh)); reflexivity|].
  eapply rtc_l; [apply (step_receive noon IoOk _ (received (sent (granted "a" noon) fresh))); reflexivity|].
  eapply rtc_l; [apply step_close|].
  apply rtc_once, step_finish; reflexivity.
Qed.


(** ** An acknowledged record that is never written

    The producer reads [closed] before [Close] and reaches its [select] after the writer has
    ended: the channel has room, so [Log] returns nil. *)
Definition too_late : Logger :=
  default fresh (producer_send 0 (writer_finish (Close_begin (Log_enter noon (granted "a" noon) fresh).2))).

Theorem acknowledged_record_lost :
  rtc step fresh too_late ∧ RRecord (granted "a" noon) ∈ accepted too_late ∧
  ∀ l, rtc step too_late l →
    chainFilesIn (dir (writer l)) = [] ∧ RRecord (granted "a" noon) ∈ ch l ∧ handled l = [].
Proof.
  split_and!.
  - eapply rtc_l; [apply (step_log noon (granted "a" noon))|].
    eapply rtc_l; [apply step_close|].
    eapply rtc_l; [apply step_finish; reflexivity|].
    apply rtc_once, (step_send 0). reflexivity.
  - by left.
  - intros l Hl. destruct (finished_is_final too_late l eq_refl Hl) as (-> & -> & [c ->]).
    split_and!; [reflexivity| |reflexivity]. rewrite elem_of_app. left. by left.
Qed.

(** ** Chains that break without tampering *)

(** After a restart on the day of a size rotation the day's first file is reopened. *)
Definition restarted : Writer :=
  run_ops "agent" (three ++ [ORestart noon; OAppend noon (granted "d" noon)]) (boot small).
Example restart_after_rotation :
  genesis restarted = None ∧ dropped restarted = 0 ∧ summary (dir restarted) = (false, 2).
Proof. split_and!; vm_compute; reflexivity. Qed.

(** The sequence is incremented before a write that fails. *)
Definition after_failure : Writer :=
  appendLocked IoOk noon (granted "b" noon) (appendLocked WriteFails noon (granted "a" noon) (boot large)).
Example write_failure_breaks :
  dropped after_failure = 1 ∧ summary (dir after_failure) = (false, 0) ∧
  genesis (NewFileChainAuditLogger large "agent" next_day (dir (writeHeadLocked after_failure))) = None.
Proof. split_and!; vm_compute; reflexivity. Qed.

(** Nor is a record that cannot be marshalled refused before it takes a sequence. *)
Definition unmarshalable : AuditRecord :=
  {| Timestamp := noon; AgentID := "a"; Action := "exec:binary:docker"; rec_Type := "executable";
     Permission := "docker"; rec_Result := "granted"; Metadata := [("callback", JUnsupported)];
     User := EmptyString; Correlation := EmptyString |}.
Example unmarshalable_breaks :
  summary (dir (run_ops "agent" [OAppend noon unmarshalable; OAppend noon (granted "b" noon)] (boot large))) = (false, 0).
Proof. vm_compute. reflexivity. Qed.

(** A crash before the head is rewritten after a day's rollover: the old anchor matches the old
    file, so the writer continues from it and repeats a sequence. *)
Definition crashed : Dir :=
  dir (appendLocked IoOk next_day (granted "b" next_day)
        (writeHeadLocked (appendLocked IoOk noon (granted "a" noon) (boot large)))).
Definition after_crash : Writer :=
  appendLocked IoOk next_day (granted "c" next_day) (NewFileChainAuditLogger large "agent" next_day crashed).
Example crash_after_rollover :
  summary crashed = (true, 2) ∧ genesis after_crash = None ∧ summary (dir after_crash) = (false, 2).
Proof. split_and!; vm_compute; reflexivity. Qed.

(** ** Tampering that passes *)

(** Cutting whole lines off the end leaves a chain that verifies, and at boot the head anchor,
    which records the lost entries, is not held against it. *)
Definition cut : Dir :=
  let d := dir (writeHeadLocked (run_ops "agent" three (boot large))) in
  set_file "chain-20261008.jsonl" (take 2 (lines_of d "chain-20261008.jsonl")) d.
Example truncation_unnoticed :
  option_map head_Sequence (dir_head cut) = Some 3 ∧ summary cut = (true, 2) ∧
  Broken (ProbeChainDir cut) = false ∧
  genesis (NewFileChainAuditLogger large "agent" noon cut) = None ∧
  ws_seq (ws (NewFileChainAuditLogger large "agent" noon cut)) = 2.
Proof. split_and!; vm_compute; reflexivity. Qed.

(** [json.Marshal] escapes HTML. *)
Example html_is_escaped :
  json_string "a<b" = dquote +:+ "a" +:+ bs "u003cb" +:+ dquote.
Proof. vm_compute. reflexivity. Qed.
